(* ===== verification/_CoqProject ===== *)
-Q . S2P
Prelude.v
GoString.v
GoOrder.v
GoPath.v
Paths.v
HttpRange.v
Precond.v
Serve.v
GoHeap.v
DavLock.v
DavLockSpec.v
DavLockSys.v
LockSystem.v
DavIf.v
Window.v
WindowSpec.v
Session.v
SessionSpec.v
SessionSys.v
Auth.v
DavHandler.v
Bencode.v
Torrent.v
HashWriter.v
ReaderIO.v
RawTiff.v
RawJpeg.v
RawWalk.v
RawPreview.v
RawFound.v
RawReader.v
RawSettings.v
S3List.v
S3ListSpec.v
S3ListSys.v
Mounts.v
MountsSpec.v
Storages.v
StoragesSpec.v
Objects.v
KeyedCache.v
DirCache.v
OpFs.v
FsTree.v
OpFsSpec.v
OpFsRead.v
OpFsWrite.v
OpFsMem.v
OpFsSys.v
FsView.v
UrlTree.v
UrlTreeSpec.v
UrlTreeSys.v
Sign.v
LinkSys.v
LinkSpec.v
Download.v
DownloadSpec.v
DownloadSys.v
DownloadLive.v
TaskGroup.v
Transfer.v
TransferSpec.v
TransferSys.v
TransferTasks.v
TransferOp.v
TransferFuel.v
Moves.v
FsManage.v
FsManageSpec.v
EmptyDirs.v
RecursiveMove.v
UserFs.v
DavFile.v
DavFileSpec.v
DavMem.v
DavCopy.v
DavMove.v
Sharing.v
FtpStage.v
