(* ===== verification/Prelude.v ===== *)
(** * A verification library for OpenList

    OpenList is a Go server that presents many storage services as one file
    tree. It serves files over HTTP, WebDAV and S3 (among other protocols),
    receives uploads, in one piece or in chunks, and hands them to storage
    drivers. This library models parts of the server core that are program logic
    rather than clients of remote services, and proves what makes them correct.
    Definitions are executable wherever the code is; the proofs use no axioms of
    their own.

    ** The parts and their files

    Shared: [Prelude] (strings as byte lists, wrap-around integers, the error
    type [res], notations, tactics); [GoString], [GoOrder] and [GoPath] (the
    functions of the Go packages strings, strconv, sort and path that the code
    calls); [GoHeap] (container/heap, as the lock system uses it); [ReaderIO]
    (programs over an io.ReaderAt as trees of calls, with their program logic).

    Paths and access control. [Paths] is src/pkg/utils/path.go. [Auth] is
    src/internal/model/user.go (permission bits, passwords),
    src/internal/model/meta.go, src/internal/op/meta.go (nearest meta) and
    src/server/common/check.go (the checks that use both). A request path is
    cleaned and joined below the base path of the user by [joinBasePath]; the
    meta that governs it is found by walking up the tree ([GetNearestMeta]);
    [CanAccess] then decides.

    HTTP. [HttpRange] is src/pkg/http_range/range.go, [Precond] is
    src/internal/net/preconditions.go, [Serve] is ServeHTTP and the proxy header
    filter of src/internal/net/serve.go with util.go. [serveHTTP] calls
    [checkPreconditions] and [parseRange] and pipes the ranges of a reader that
    is a parameter. [Download] is the multi-thread downloader of
    src/internal/net/request.go with the pipe buffers of src/pkg/buffer/pipe.go;
    [DownloadSpec] has the invariant of buffers, chunks and tasks, [DownloadSys]
    its steps, [DownloadLive] what the caller is given and that nobody waits for
    nothing.

    WebDAV. [DavLock] is src/server/webdav/lock.go: the record [memLS] holds the
    maps by name and by token and the heap of expiring locks; one definition per
    method, [None] for a panic. [DavLockSpec] states its invariant and an
    abstract lock system (a map from tokens to locks) and shows that every
    method implements the abstract one; [DavLockSys] lifts this to every
    sequence of calls. [LockSystem] is the Go interface of that name as a type
    class, its laws (an implementation follows the abstract lock system) as a
    second class, and [memLS] as their instance. [DavIf] is the If header parser,
    src/server/webdav/if.go. [DavHandler] is the lock handling of
    src/server/webdav/webdav.go (confirmLocks, LOCK and UNLOCK), written and
    proved against the interface. [DavFile] is COPY and MOVE with their backups
    and rollback, src/server/webdav/file.go, over the class [DavFs] of the file
    operations; [DavFileSpec] has the laws of these ([DavTree]) and the steps,
    [DavCopy] and [DavMove] the two methods, [DavMem] the tree in memory that has
    the laws and can be made to fail anywhere.

    Chunked upload. [Window] is src/internal/multipart/window.go: chunks arrive
    concurrently in a ring file and one reader drains it in order. A step is the
    code between two mutex operations ([admit_chunk], [copyPiece], [copyEnd],
    [commit], [readBegin], [readFile], [readEnd], [CloseWithError]). [WindowSpec]
    has its invariant. [Session] is src/internal/multipart/session.go: sessions,
    their attempts and the manager, a store with threads, again one step per
    section between mutex operations; its windows move only by the steps of
    [Window]. [SessionSpec] has the invariant of the store and [SessionSys] its
    reachable states.

    Torrents. [Bencode] is src/pkg/torrent/bencode.go, [Torrent] is torrent.go,
    [HashWriter] is hash_writer.go and generate.go of the same directory.

    RAW previews, src/internal/rawpreview. [RawTiff], [RawJpeg] and [RawWalk] are
    the parsers of TIFF, JPEG and the containers, [RawPreview] chooses a preview,
    [RawReader] is the block cache over range requests with its byte budget and
    Locate on top of it, [RawSettings] the settings behind an atomic pointer.
    [RawFound] says what is found in files read exactly.

    S3. [S3List] is ListBucket with its walk and pages (src/server/s3/list.go,
    backend.go, utils.go); [S3ListSpec] the reference, the flat keyspace;
    [S3ListSys] the pages of a whole storage.

    Storages. [Mounts] is the resolution of a path to a driver
    (src/internal/op/path.go and storage.go), [MountsSpec] its theorems;
    [Storages] the registry of mounted drivers with its table (storage.go),
    [StoragesSpec] its invariant.

    File operations. [Objects] is src/internal/model/obj.go and object.go (the
    wrappers of objects, sorting, merging); [KeyedCache] and [DirCache] the caches
    of src/internal/cache and src/internal/op/cache.go; [OpFs] the operations of
    src/internal/op/fs.go on a driver (record [Driver]) through the directory
    cache. [FsTree] is the abstract tree of a storage and the paths in it. [OpFsSpec] has the laws of a driver and the invariant [Coh] between
    cache and tree, [OpFsRead] and [OpFsWrite] its preservation, [OpFsMem] a lawful
    driver in memory, [OpFsSys] sequences of operations. [FsView] is the system a
    user sees (src/internal/fs/list.go, get.go, other.go) over [Mounts], [OpFs]
    and [Auth]. [LinkSys] is Link with the reference counts of its resources, its
    cache and singleflight as interleaving threads; [LinkSpec] its invariant.
    [UrlTree] is the driver of src/drivers/url_tree as a [Driver] of [OpFs], with
    [UrlTreeSpec] and [UrlTreeSys].

    Transfers. [TaskGroup] is src/internal/task_group/group.go. [Transfer] is
    src/internal/fs/copy_move.go with src/internal/task_group/transfer.go, over
    the class [StorageOps] of storage operations; [TransferSpec] has their laws,
    [TransferSys] the copying and moving of a tree, [TransferTasks] the same as
    tasks of a manager, [TransferOp] the instance from [OpFs] and [FsView],
    [TransferFuel] the end of the recursion, [Moves] the properties and runs.

    Management requests. [FsManage] is src/server/handles/fsmanage.go and
    fsbatch.go, the requests of a logged-in user to make, move, copy, rename and
    remove files, over the class [FileSystem]; [UserFs] is its instance from
    [FsView] and [Transfer] (src/internal/fs/fs.go); [FsManageSpec] has one in memory.
    [FsManageSpec] is about permissions, [EmptyDirs] about the removal of empty
    folders, [RecursiveMove] about the moving of all files below a folder.

    Links for others. [Sign] is the signature of download paths with its check
    (src/pkg/sign, src/internal/sign, src/server/middlewares/down.go); [Sharing]
    the shares: what visitors get and who manages them
    (src/internal/op/sharing.go, src/internal/sharing, src/server/handles/sharing.go),
    over the classes [ShareFs] of the storages and [SharingTable] of the rows.

    FTP. [FtpStage] is the stage where uploads are seen before they have reached
    the storage (src/server/ftp/upload_stage.go), over the class [Trie].

    ** What the theorems show

    - Paths: cleaning is idempotent and canonical, a joined path stays below its
      base, the sub-path test is the prefix relation on elements, the hierarchy
      is the list of ancestors.
    - Access: the permission bits, the password round trip, the nearest meta is
      nearest, a password set for a folder protects everything it governs.
    - HTTP: ranges stay in bounds and survive printing and parsing; the
      preconditions follow the table of RFC 7232; ServeHTTP sends exactly the
      bytes of the ranges with the announced length.
    - Downloader: on every interleaving the caller reads a prefix of the range it
      asked for and all of it at the end; while the remote side answers, some
      thread can always go on; connections are accounted for.
    - Locks: the implementation refines the abstract lock system on every
      sequence of calls; granted locks exclude each other; a confirmed lock
      stays until it is released; Create succeeds exactly when it may.
    - If header: the parser terminates and inverts printing.
    - WebDAV handlers: confirmLocks keeps others out until its release function
      is called, and takes back every lock it took on every path; LOCK and UNLOCK
      do what their answer says. One theorem shows a defect: a tagged If list
      replaces the source of the request, so that the locks on the source are
      not asked for.
    - COPY and MOVE: whichever call of the file system fails, the request either
      succeeds and did all it should, or has changed nothing; when the rollback
      fails too, the answer says so and the old objects are in place or in their
      backups. A run shows a defect: the rollback of MOVE can delete a folder the
      request has nothing to do with.
    - Window: on every interleaving the reader gets a prefix of the file, the
      next chunk is never blocked, the answers and the snapshot are truthful, the
      disk use is bounded.
    - Sessions: on every interleaving at most one upload to the storage runs per
      session, Complete reports success only after the storage accepted the
      file, an aborted or completed session is never found again nor receives
      again, lookups are confined to the caller's own upload, the pipeline reads
      a prefix of the file. One theorem shows a defect: a negative chunk index
      panics with a mutex held and wedges the session.
    - Torrents: bencode and torrent round trips, digests independent of the way
      the input is cut into writes.
    - RAW previews: on any reader the search ends without a panic and answers
      previews inside the file; the cache never transfers more than its budget
      and finds what a search in the file itself finds; settings are always in
      their ranges.
    - S3 listing: a page is the page of the flat, sorted, rolled-up keyspace; a
      client that follows the markers gets everything once, in order.
    - Storages: a path resolves to a driver of the longest mounted prefix; every
      mounted driver carries an enabled row of the table with its path. Theorems
      show how an update of the disabled flag breaks this.
    - File operations: any sequence of operations through the cache does to the
      remote tree what the operations that succeeded say; listings and lookups
      tell the truth; a removal leaves nothing in tree or cache; the fuel of the
      recursions is enough. A listing shows a user exactly what the access checks
      let the user see.
    - Links: resources are alive while a caller holds the link and are released
      once, and nobody waits for ever.
    - UrlTree: the saved text always reads back as the tree in memory.
    - Transfers: whatever fails and however tasks are scheduled, a move loses no
      file and a source is removed only after its tasks have ended; a transfer
      without an error has copied everything; it ends; a group calls its callback
      once per finished round with the payloads of that round.
    - Management requests: every change a request asks for is one the user may
      make, below the user's base path; the removal of empty folders keeps every
      file, removes exactly the folders without one, and ends.
    - Signatures: a path that needs one is served only with its own, unexpired.
    - Shares: after any requests, a visitor reaches only what lies below the files
      of a valid share whose password is right; users change their own shares
      only and share only what they may. Runs show that the listing of the root
      of a share looks outside the creator's base path, and that the count of an
      access can undo a change.
    - FTP stage: a borrowed file is on the disk until it is closed, and no longer;
      an upload is seen under its current path only. A run shows that a reader
      can make the stage forget a move.

    Runs next to the theorems ([Example]s and theorems about concrete inputs)
    show where the code does less than it means to.

    ** Bounds, fuel and parameters

    Machine integers are Z; operations that can overflow are written with [i64]
    or [u64]. Recursion that is not structural takes fuel and says so when it
    runs out; theorems show that this does not happen: the bencode decoder runs
    with twice the length of the input plus 3 ([bencode_decode_total]), the If
    header parser with the length of the input ([parseIfHeader_total]), the ETag
    loop with one more than the header ([etag_conditions]), the walks up a path
    with more than its elements ([getNearestMeta_nearest] and the lemmas on
    [walkLoop]), the sweep of expired locks with the size of the heap
    ([collect_spec]), the loops of the RAW parsers with bounds of their limits
    and sizes ([findPreviews_safe]), the S3 walk with the height of the tree
    ([listBucket_page]), the deletion of a cached directory tree with the size of
    the cache plus 1, List and MakeDir with the depth of the path plus 1
    ([operations_recursive]), a transfer with more than the height of its source
    ([transfer_terminates]), the removal of empty folders with n * (n + 2) rounds
    for n folders ([removeEmpty_terminates]). The collection of FsRecursiveMove
    answers that its fuel ran out; its theorem speaks about the other answers.

    Parameters: the hash functions, the time formats, strings.ToLower and
    EqualFold, the regular expressions and doublestar patterns, sort.Slice (a
    permutation that is sorted), the natural order of names, the clock, the
    database (classes [Table] and [SharingTable] and the metas), the list type of gofakes3 ([ObjectList]),
    the driver (a [Driver] with [DriverLaws], an [oracle] of its answers in
    [Storages]), what the remote side answers and delivers in [Download], when
    tasks run and are tried again in [Transfer], the size a HEAD request finds in
    [UrlTree], url.Parse and the XML decoder, the table of dead properties in
    [DavFile], the trie of [FtpStage], the storages of [Sharing] ([ShareFs]). What a theorem needs of them is one of its hypotheses; an instance
    shows that the classes and laws can hold. The lock theorems assume fewer than
    2^63 calls and a start time that is not negative, so that the token counter
    does not wrap around ([boundedRun]); the session theorems assume that a uuid
    is never repeated ([fresh_input]), the theorems on COPY and MOVE that the
    names of staging objects and backups are new.

    ** What is not modelled

    The storage drivers other than UrlTree and the database are clients of other
    systems. The gin handlers other than those of [FsManage] and [Sharing], the start-up code
    and the other protocol servers are glue or adapters. In [Session], the ticker
    that starts gc is a call that may happen at any time, the removal of ring
    files of an earlier run is left out, and an iteration over a Go map takes the
    order of the finite map. In [Window], the timer and the condition variable
    appear as the possibility to retry or to time out.

    The operations of [OpFs] run one after the other: their interleavings, the
    goroutines of the update hooks and the values in the link cache are left
    out ([LinkSys] has the latter). Panics inside a function singleflight runs,
    the wrapper of a virtual file with storage details, the library tache, the
    hybrid cache and the block memory of streams, search, offline downloads and
    archives, also those in shares, are not modelled. Requests on shares run one
    after the other, but for the count of an access. Of the WebDAV methods PROPFIND,
    PROPPATCH, PUT, DELETE and MKCOL and the XML are left out. *)
From Stdlib Require Export ZArith Lia Ascii String.
From stdpp Require Export base option strings gmap list.
#[export] Set Default Goal Selector "!".
Open Scope Z_scope.
Open Scope list_scope.

(** ** Strings and bytes

    A Go [string] or [[]byte] is a list of bytes; a literal is written as a
    Rocq string and coerced. *)
Abbreviation gostr := (list ascii).
Coercion list_ascii_of_string : string >-> list.
Arguments list_ascii_of_string : simpl never.

Definition strs (l : list string) : list gostr := map list_ascii_of_string l.

Definition byte_val (c : ascii) : Z := Z.of_N (N_of_ascii c).

Definition seqb (a b : gostr) : bool := bool_decide (a = b).

Definition slen (s : gostr) : Z := Z.of_nat (length s).

(** ** Machine integers: [int64]/[int] and [uint64] wrap around. *)
Definition i64 (z : Z) : Z := (z + 2 ^ 63) mod 2 ^ 64 - 2 ^ 63.
Definition u64 (z : Z) : Z := z mod 2 ^ 64.

Definition i64_ok (z : Z) : Prop := - 2 ^ 63 <= z < 2 ^ 63.
Definition u64_ok (z : Z) : Prop := 0 <= z < 2 ^ 64.

Definition max_int64 : Z := 2 ^ 63 - 1.
Definition min_int64 : Z := - 2 ^ 63.

(** ** Errors: a call that returns an error or a value. *)
Inductive res (E A : Type) : Type :=
| Ok (a : A)
| Err (e : E).
Arguments Ok {E A} a.
Arguments Err {E A} e.

Definition res_bind {E A B} (m : res E A) (k : A -> res E B) : res E B :=
  match m with
  | Ok a => k a
  | Err e => Err e
  end.

Definition is_ok {E A} (m : res E A) : bool :=
  match m with Ok _ => true | Err _ => false end.

Declare Scope go_scope.
Delimit Scope go_scope with go.
Notation "'let?' x := m 'in' k" := (res_bind m (fun x => k))
  (at level 10, x pattern, m at level 100, k at level 200) : go_scope.
Notation "'let!' x := m 'in' k" := (mbind (fun x => k) m)
  (at level 10, x pattern, m at level 100, k at level 200) : go_scope.
Open Scope go_scope.

(** ** Automation *)
Create HintDb go discriminated.

Ltac bool_hyps :=
  repeat match goal with
  | H : _ && _ = true |- _ => apply andb_prop in H; destruct H
  | H : _ || _ = false |- _ => apply orb_false_elim in H; destruct H
  | H : negb _ = true |- _ => apply negb_true_iff in H
  | H : negb _ = false |- _ => apply negb_false_iff in H
  | H : (_ <? _) = true |- _ => apply Z.ltb_lt in H
  | H : (_ <? _) = false |- _ => apply Z.ltb_ge in H
  | H : (_ <=? _) = true |- _ => apply Z.leb_le in H
  | H : (_ <=? _) = false |- _ => apply Z.leb_gt in H
  | H : (_ =? _) = true |- _ => apply Z.eqb_eq in H
  | H : (_ =? _) = false |- _ => apply Z.eqb_neq in H
  | H : bool_decide _ = true |- _ => apply bool_decide_eq_true in H
  | H : bool_decide _ = false |- _ => apply bool_decide_eq_false in H
  end.

(** Case analysis on the innermost scrutinee of the goal, or of a hypothesis. *)
Ltac inner_match t k :=
  lazymatch t with
  | context [match ?x with _ => _ end] => inner_match x k
  | _ => k t
  end.

Ltac destr_goal :=
  match goal with
  | |- context [match ?x with _ => _ end] =>
      inner_match x ltac:(fun y => destruct y eqn:?)
  end.

Ltac destr_in H :=
  match type of H with
  | context [match ?x with _ => _ end] =>
      inner_match x ltac:(fun y => destruct y eqn:?)
  end.

(** ** Lemmas on lists *)
Lemma list_snoc {A} (l : list A) : l <> [] -> exists a b, l = a ++ [b].
Proof. destruct l as [|b a _] using rev_ind; [done|]. eauto. Qed.

Lemma elem_of_rev {A} (l : list A) x : x ∈ rev l <-> x ∈ l.
Proof. rewrite !list_elem_of_In. symmetry. apply List.in_rev. Qed.

(** ** Lemmas on machine integers *)
Lemma i64_id z : i64_ok z -> i64 z = z.
Proof. unfold i64, i64_ok. intros H. rewrite Z.mod_small by lia. lia. Qed.

Lemma i64_range z : i64_ok (i64 z).
Proof.
  unfold i64_ok, i64.
  pose proof (Z.mod_pos_bound (z + 2 ^ 63) (2 ^ 64) ltac:(lia)). lia.
Qed.

(** Removes the innermost wrap-arounds whose argument is in range. *)
Ltac i64_norm :=
  repeat match goal with
  | |- context [i64 ?z] =>
      lazymatch z with
      | context [i64 _] => fail
      | _ => rewrite (i64_id z) by (unfold i64_ok in *; lia)
      end
  end.

Lemma u64_id z : u64_ok z -> u64 z = z.
Proof. apply Z.mod_small. Qed.

Lemma byte_val_range c : 0 <= byte_val c < 256.
Proof.
  unfold byte_val. pose proof (N_ascii_bounded c). lia.
Qed.

Lemma byte_val_inj a b : byte_val a = byte_val b -> a = b.
Proof.
  unfold byte_val. intros H. apply N2Z.inj in H.
  rewrite <- (ascii_N_embedding a), <- (ascii_N_embedding b). by f_equal.
Qed.

Lemma seqb_true a b : seqb a b = true <-> a = b.
Proof. apply bool_decide_eq_true. Qed.

Lemma seqb_false a b : seqb a b = false <-> a <> b.
Proof. apply bool_decide_eq_false. Qed.

Lemma slen_nonneg (a : gostr) : 0 <= slen a.
Proof. unfold slen. lia. Qed.

Lemma slen_app (a b : gostr) : slen (a ++ b) = slen a + slen b.
Proof. unfold slen. rewrite length_app. lia. Qed.

Lemma seqb_refl a : seqb a a = true.
Proof. by apply seqb_true. Qed.

Lemma res_bind_ok {E A B} (m : res E A) (k : A -> res E B) b :
  res_bind m k = Ok b <-> exists a, m = Ok a /\ k a = Ok b.
Proof. destruct m; simpl; naive_solver. Qed.

#[export] Hint Resolve i64_range byte_val_range seqb_refl : go.
