(* ===== verification/GoString.v ===== *)
(** Go strings and the standard-library functions on them that the modelled
    code calls: package [strings] (HasPrefix, Index, Split, Cut, Join,
    TrimSpace, ReplaceAll), [net/textproto] (TrimString), [strconv]
    (ParseInt, FormatInt, FormatUint) and the byte order of [<] on strings.
    A string is a list of bytes. *)
From S2P Require Import Prelude.

(** ** Package strings *)
Fixpoint hasPrefix (s p : gostr) {struct p} : bool :=
  match p, s with
  | [], _ => true
  | c :: p', d :: s' => bool_decide (c = d) && hasPrefix s' p'
  | _ :: _, [] => false
  end.

Definition hasSuffix (s p : gostr) : bool := hasPrefix (rev s) (rev p).

Definition trimPrefix (s p : gostr) : gostr :=
  if hasPrefix s p then drop (length p) s else s.

(** strings.Index; [None] is Go's -1. *)
Fixpoint index (s sub : gostr) : option nat :=
  if hasPrefix s sub then Some 0%nat
  else match s with
       | [] => None
       | _ :: s' => S <$> index s' sub
       end.

Fixpoint indexByte (s : gostr) (c : ascii) : option nat :=
  match s with
  | [] => None
  | d :: s' => if bool_decide (d = c) then Some 0%nat else S <$> indexByte s' c
  end.

Fixpoint lastIndexByte (s : gostr) (c : ascii) : option nat :=
  match s with
  | [] => None
  | d :: s' =>
      match lastIndexByte s' c with
      | Some i => Some (S i)
      | None => if bool_decide (d = c) then Some 0%nat else None
      end
  end.

Definition contains (s sub : gostr) : bool :=
  match index s sub with Some _ => true | None => false end.

(** strings.Split with a one-byte separator. *)
Fixpoint splitByte (s : gostr) (c : ascii) : list gostr :=
  match s with
  | [] => [[]]
  | d :: s' =>
      if bool_decide (d = c) then [] :: splitByte s' c
      else match splitByte s' c with
           | [] => [[d]]
           | w :: ws => (d :: w) :: ws
           end
  end.

(** strings.Cut with a one-byte separator: before, after, found. *)
Definition cutByte (s : gostr) (c : ascii) : gostr * gostr * bool :=
  match indexByte s c with
  | Some i => (take i s, drop (S i) s, true)
  | None => (s, [], false)
  end.

Fixpoint joinStr (l : list gostr) (sep : gostr) : gostr :=
  match l with
  | [] => []
  | [w] => w
  | w :: l' => w ++ sep ++ joinStr l' sep
  end.

(** strings.ReplaceAll for one-byte old and new. *)
Definition replaceByte (s : gostr) (o n : ascii) : gostr :=
  map (fun c => if bool_decide (c = o) then n else c) s.

(** strings.ReplaceAll of one byte by a string. *)
Definition replaceByteStr (s : gostr) (o : ascii) (n : gostr) : gostr :=
  flat_map (fun c => if bool_decide (c = o) then n else [c]) s.

(** [<] on strings: the lexicographic order of the bytes. *)
Fixpoint str_ltb (a b : gostr) : bool :=
  match a, b with
  | _, [] => false
  | [], _ :: _ => true
  | x :: a', y :: b' =>
      if byte_val x <? byte_val y then true
      else if byte_val y <? byte_val x then false
      else str_ltb a' b'
  end.

Definition str_leb (a b : gostr) : bool := negb (str_ltb b a).

(** ** White space *)
Fixpoint dropWhile (f : ascii -> bool) (s : gostr) : gostr :=
  match s with
  | [] => []
  | c :: s' => if f c then dropWhile f s' else s
  end.

Definition trimBytes (f : ascii -> bool) (s : gostr) : gostr :=
  rev (dropWhile f (rev (dropWhile f s))).

(** textproto.TrimString strips space, tab, newline and carriage return. *)
Definition isASCIISpace (c : ascii) : bool :=
  let v := byte_val c in (v =? 32) || (v =? 9) || (v =? 10) || (v =? 13).

Definition trimString (s : gostr) : gostr := trimBytes isASCIISpace s.

Definition bytes_of (l : list Z) : gostr := map (fun z => ascii_of_N (Z.to_N z)) l.

(** The UTF-8 encodings of the code points with unicode.IsSpace. *)
Definition space_encodings : list gostr :=
  map bytes_of
    ([[9]; [10]; [11]; [12]; [13]; [32]; [194; 133]; [194; 160]; [225; 154; 128];
      [226; 128; 168]; [226; 128; 169]; [226; 128; 175]; [226; 129; 159]; [227; 128; 128]]
     ++ map (fun i => [226; 128; i])
            [128; 129; 130; 131; 132; 133; 134; 135; 136; 137; 138]).

Definition leadingSpace (encs : list gostr) (s : gostr) : nat :=
  match find (fun e => hasPrefix s e) encs with
  | Some e => length e
  | None => 0%nat
  end.

Fixpoint trimLeftEnc (fuel : nat) (encs : list gostr) (s : gostr) : gostr :=
  match fuel with
  | O => s
  | S f =>
      match leadingSpace encs s with
      | O => s
      | n => trimLeftEnc f encs (drop n s)
      end
  end.

(** strings.TrimSpace. *)
Definition trimSpace (s : gostr) : gostr :=
  let l := trimLeftEnc (length s) space_encodings s in
  rev (trimLeftEnc (length l) (map (@rev ascii) space_encodings) (rev l)).

(** ** strconv *)
Inductive num_err := ErrSyntax | ErrRange.

Definition digit_val (c : ascii) : option Z :=
  let v := byte_val c in
  if (48 <=? v) && (v <=? 57) then Some (v - 48) else None.

Definition digit_char (d : Z) : ascii := ascii_of_N (Z.to_N (48 + d)).

Definition max_uint64 : Z := 2 ^ 64 - 1.

(** strconv.ParseUint in base 10, from the accumulator [n]. *)
Fixpoint parseUintLoop (s : gostr) (n : Z) : Z * option num_err :=
  match s with
  | [] => (n, None)
  | c :: s' =>
      match digit_val c with
      | None => (0, Some ErrSyntax)
      | Some d =>
          if max_uint64 <? n * 10 + d then (max_uint64, Some ErrRange)
          else parseUintLoop s' (n * 10 + d)
      end
  end.

Definition parseUint (s : gostr) : Z * option num_err :=
  match s with
  | [] => (0, Some ErrSyntax)
  | _ => parseUintLoop s 0
  end.

(** strconv.ParseInt(s, 10, 64): a value is returned next to the error. *)
Definition parseInt (s : gostr) : Z * option num_err :=
  match s with
  | [] => (0, Some ErrSyntax)
  | c :: s' =>
      let neg := bool_decide (c = "-"%char) in
      let body := if bool_decide (c = "+"%char) || neg then s' else s in
      match parseUint body with
      | (_, Some ErrSyntax) => (0, Some ErrSyntax)
      | (un, _) =>
          if negb neg && (2 ^ 63 <=? un) then (max_int64, Some ErrRange)
          else if neg && (2 ^ 63 <? un) then (min_int64, Some ErrRange)
          else (if neg then - un else un, None)
      end
  end.

Fixpoint fmtDigits (fuel : nat) (n : Z) : gostr :=
  match fuel with
  | O => []
  | S f => if n <? 10 then [digit_char n]
           else fmtDigits f (n / 10) ++ [digit_char (n mod 10)]
  end.

(** strconv.FormatUint(n, 10). *)
Definition formatUint (n : Z) : gostr := fmtDigits (S (Z.to_nat (Z.log2 n))) n.

(** strconv.FormatInt(n, 10) and the verb %d. *)
Definition formatInt (n : Z) : gostr :=
  if n <? 0 then "-"%char :: formatUint (- n) else formatUint n.

Example parse_ex : parseInt "-9223372036854775808" = (min_int64, None).
Proof. vm_compute. reflexivity. Qed.
Example fmt_ex : formatInt (-120345) = "-120345".
Proof. vm_compute. reflexivity. Qed.
Example trim_ex : trimSpace " 	 a b  " = "a b".
Proof. vm_compute. reflexivity. Qed.

(** ** Lemmas: prefixes *)
Lemma hasPrefix_spec s p : hasPrefix s p = true <-> exists t, s = p ++ t.
Proof.
  revert s. induction p as [|c p IH]; intros [|d s]; simpl.
  - split; eauto.
  - split; eauto.
  - split; [done | intros [t ?]; done].
  - rewrite andb_true_iff, bool_decide_eq_true, IH. naive_solver.
Qed.

Lemma hasPrefix_app s t p : hasPrefix s p = true -> hasPrefix (s ++ t) p = true.
Proof.
  rewrite !hasPrefix_spec. intros [u ->]. exists (u ++ t). by rewrite (assoc_L (++)).
Qed.

Lemma hasPrefix_same p t : hasPrefix (p ++ t) p = true.
Proof. apply hasPrefix_spec. eauto. Qed.

Lemma hasPrefix_length s p : hasPrefix s p = true -> (length p <= length s)%nat.
Proof. rewrite hasPrefix_spec. intros [t ->]. rewrite length_app. lia. Qed.

Lemma hasSuffix_spec s p : hasSuffix s p = true <-> exists t, s = t ++ p.
Proof.
  unfold hasSuffix. rewrite hasPrefix_spec. split; intros [t H].
  - exists (rev t). rewrite <- (rev_involutive s), H, rev_app_distr, rev_involutive. done.
  - exists (rev t). rewrite H. apply rev_app_distr.
Qed.

Lemma trimPrefix_app p t : trimPrefix (p ++ t) p = t.
Proof. unfold trimPrefix. by rewrite hasPrefix_same, drop_app_length. Qed.

(** ** Lemmas: splitting and joining *)
Lemma splitByte_not_nil s c : splitByte s c <> [].
Proof. induction s; simpl; [done|]. destr_goal; [done|]. by destr_goal. Qed.

Lemma splitByte_no_sep s c w : w ∈ splitByte s c -> c ∉ w.
Proof.
  revert w. induction s as [|d s IH]; simpl; intros w.
  - intros ->%list_elem_of_singleton. apply not_elem_of_nil.
  - case_bool_decide as Hd.
    + intros [->|H]%elem_of_cons; [apply not_elem_of_nil | by apply IH].
    + destruct (splitByte s c) as [|v vs] eqn:E; [by apply splitByte_not_nil in E|].
      intros [->|H]%elem_of_cons.
      * intros [->|H]%elem_of_cons; [done|]. eapply IH; [by left | done].
      * apply IH. by right.
Qed.

Lemma splitByte_nosep w c : c ∉ w -> splitByte w c = [w].
Proof.
  induction w as [|d w IH]; simpl; [done|]. intros H.
  apply not_elem_of_cons in H as [H1 H2].
  rewrite bool_decide_eq_false_2 by congruence. by rewrite IH.
Qed.

Lemma splitByte_app w s c : c ∉ w -> splitByte (w ++ c :: s) c = w :: splitByte s c.
Proof.
  induction w as [|d w IH]; simpl; intros H.
  - by case_bool_decide.
  - apply not_elem_of_cons in H as [H1 H2].
    rewrite bool_decide_eq_false_2 by congruence. by rewrite IH.
Qed.

Lemma joinStr_cons w l sep : l <> [] -> joinStr (w :: l) sep = w ++ sep ++ joinStr l sep.
Proof. by destruct l. Qed.

Lemma join_splitByte s c : joinStr (splitByte s c) [c] = s.
Proof.
  induction s as [|d s IH]; [done|]. simpl. case_bool_decide.
  - subst. rewrite joinStr_cons by apply splitByte_not_nil. simpl. by rewrite IH.
  - pose proof (splitByte_not_nil s c).
    destruct (splitByte s c) as [|w ws]; [done|].
    destruct ws; simpl in *; by rewrite IH.
Qed.

Lemma splitByte_join l c :
  l <> [] -> Forall (fun w => c ∉ w) l -> splitByte (joinStr l [c]) c = l.
Proof.
  induction l as [|w l IH]; [done|]. intros _ Hf.
  apply Forall_cons in Hf as [Hw Hf].
  destruct l as [|v l]; simpl; [by apply splitByte_nosep|].
  rewrite splitByte_app by done. f_equal. by apply IH.
Qed.

Lemma splitByte_join_app l c t :
  l <> [] -> Forall (fun w => c ∉ w) l ->
  splitByte (joinStr l [c] ++ c :: t) c = l ++ splitByte t c.
Proof.
  induction l as [|w l IH]; [done|]. intros _ [Hw Hl]%Forall_cons.
  destruct l as [|v l]; [by apply splitByte_app|].
  rewrite joinStr_cons by done. rewrite <- !(assoc_L (++)).
  change ([c] ++ ?x) with (c :: x). rewrite splitByte_app by done.
  by rewrite IH.
Qed.

(** ** Lemmas: indexes *)
Lemma indexByte_Some s c i :
  indexByte s c = Some i <-> exists t, s = take i s ++ c :: t /\ c ∉ take i s /\ (i < length s)%nat.
Proof.
  revert i. induction s as [|d s IH]; intros i; simpl.
  - split; [done|]. intros (t & H & _ & Hl). simpl in Hl. lia.
  - case_bool_decide as Hd.
    + subst d. split.
      * intros [= <-]. exists s. simpl. split; [done|]. split; [apply not_elem_of_nil|lia].
      * intros (t & H & Hn & Hl). destruct i; [done|]. simpl in Hn.
        apply not_elem_of_cons in Hn. naive_solver.
    + rewrite fmap_Some. split.
      * intros (j & Hj & ->). apply IH in Hj as (t & H & Hn & Hl).
        exists t. simpl. split; [by f_equal|]. split; [|lia].
        apply not_elem_of_cons. split; [congruence|done].
      * intros (t & H & Hn & Hl). destruct i as [|j]; simpl in H.
        { congruence. }
        exists j. split; [|done]. apply IH. exists t. simplify_eq/=.
        apply not_elem_of_cons in Hn as [_ Hn]. split; [congruence|]. split; [done|lia].
Qed.

Lemma indexByte_app s c t : c ∉ s -> indexByte (s ++ c :: t) c = Some (length s).
Proof.
  induction s as [|d s IH]; simpl; intros H.
  - by rewrite bool_decide_eq_true_2.
  - apply not_elem_of_cons in H as [H1 H2].
    rewrite bool_decide_eq_false_2 by congruence. by rewrite IH.
Qed.

Lemma indexByte_None s c : indexByte s c = None <-> c ∉ s.
Proof.
  induction s as [|d s IH]; simpl.
  - split; [intros _; apply not_elem_of_nil | done].
  - rewrite not_elem_of_cons. case_bool_decide; [naive_solver|].
    rewrite fmap_None. naive_solver.
Qed.

Lemma cutByte_app s c t : c ∉ s -> cutByte (s ++ c :: t) c = (s, t, true).
Proof.
  intros H. unfold cutByte. rewrite indexByte_app by done.
  rewrite take_app_length.
  replace (s ++ c :: t) with ((s ++ [c]) ++ t) by (by rewrite <- (assoc_L (++))).
  replace (S (length s)) with (length (s ++ [c])) by (rewrite length_app; simpl; lia).
  by rewrite drop_app_length.
Qed.

Lemma index_app s p t :
  (forall c, c ∈ s -> Some c <> head p) -> p <> [] -> index (s ++ p ++ t) p = Some (length s).
Proof.
  intros H Hp. destruct p as [|c p]; [done|]. clear Hp. induction s as [|d s IH].
  - cbn [index app].
    by rewrite (hasPrefix_same (c :: p) t : hasPrefix (c :: p ++ t) (c :: p) = true).
  - change ((d :: s) ++ ?x) with (d :: (s ++ x)).
    assert (c <> d) by (intros ->; by destruct (H d ltac:(left))).
    cbn [index hasPrefix]. rewrite bool_decide_eq_false_2 by done. cbn [andb].
    rewrite IH; [done|]. intros e He. apply H. by right.
Qed.

Lemma lastIndexByte_None s c : lastIndexByte s c = None <-> c ∉ s.
Proof.
  induction s as [|d s IH]; simpl.
  - split; [intros _; apply not_elem_of_nil | done].
  - rewrite not_elem_of_cons. destruct (lastIndexByte s c); [naive_solver|].
    case_bool_decide; naive_solver.
Qed.

Lemma lastIndexByte_app s c t :
  c ∉ t -> lastIndexByte (s ++ c :: t) c = Some (length s).
Proof.
  intros Ht. induction s as [|d s IH]; simpl.
  - rewrite (proj2 (lastIndexByte_None t c)) by done. by rewrite bool_decide_eq_true_2.
  - by rewrite IH.
Qed.

Lemma lastIndexByte_Some s c i :
  lastIndexByte s c = Some i -> exists t, s = take i s ++ c :: t /\ c ∉ t /\ (i < length s)%nat.
Proof.
  revert i. induction s as [|d s IH]; intros i; simpl; [done|].
  destruct (lastIndexByte s c) as [j|] eqn:E.
  - intros [= <-]. destruct (IH j eq_refl) as (t & H & Hn & Hl). exists t. simpl.
    split; [by f_equal|]. split; [done|lia].
  - case_bool_decide; [|done]. intros [= <-]. subst. exists s. simpl.
    split; [done|]. split; [by apply lastIndexByte_None | lia].
Qed.

(** ** Lemmas: trimming *)
Lemma dropWhile_id f s : (forall c, head s = Some c -> f c = false) -> dropWhile f s = s.
Proof. destruct s; simpl; [done|]. intros H. by rewrite H. Qed.

Lemma dropWhile_length f s : (length (dropWhile f s) <= length s)%nat.
Proof. induction s; simpl; [done|]. destr_goal; simpl; lia. Qed.

Lemma trimBytes_length f s : (length (trimBytes f s) <= length s)%nat.
Proof.
  unfold trimBytes. rewrite length_rev.
  pose proof (dropWhile_length f (rev (dropWhile f s))).
  pose proof (dropWhile_length f s). rewrite length_rev in *. lia.
Qed.

Lemma trimBytes_id f s : Forall (fun c => f c = false) s -> trimBytes f s = s.
Proof.
  intros H. unfold trimBytes. rewrite (dropWhile_id f s).
  - rewrite dropWhile_id, rev_involutive; [done|].
    intros c Hc. rewrite Forall_forall in H. apply H.
    apply elem_of_rev. by apply head_Some_elem_of.
  - intros c Hc. rewrite Forall_forall in H. apply H. by apply head_Some_elem_of.
Qed.

(** ** Lemmas: decimal numbers *)
Lemma digit_char_val d : 0 <= d < 10 -> byte_val (digit_char d) = 48 + d.
Proof.
  intros H. unfold byte_val, digit_char. rewrite N_ascii_embedding by lia. lia.
Qed.

Lemma digit_val_char d : 0 <= d < 10 -> digit_val (digit_char d) = Some d.
Proof.
  intros H. unfold digit_val. rewrite digit_char_val by done.
  rewrite (proj2 (Z.leb_le _ _)), (proj2 (Z.leb_le _ _)) by lia. simpl. f_equal. lia.
Qed.

Lemma digit_val_range c d : digit_val c = Some d -> 0 <= d < 10.
Proof. unfold digit_val. intros H. destr_in H; [|done]. bool_hyps. simplify_eq. lia. Qed.

Definition is_digit (c : ascii) : Prop := 48 <= byte_val c <= 57.

Lemma not_digit c : digit_val c = None -> ~ is_digit c.
Proof.
  unfold digit_val, is_digit. intros H [H1 H2]. destr_in H; [done|]. 
  rewrite (proj2 (Z.leb_le _ _)), (proj2 (Z.leb_le _ _)) in Heqb by lia. done.
Qed.

Lemma fmtDigits_digits f n : 0 <= n -> Forall is_digit (fmtDigits f n).
Proof.
  revert n. induction f as [|f IH]; intros n Hn; simpl; [done|].
  destruct (n <? 10) eqn:E; bool_hyps.
  - constructor; [|done]. unfold is_digit. rewrite digit_char_val; lia.
  - apply Forall_app. split; [apply IH, Z.div_pos; lia|].
    constructor; [|done]. unfold is_digit.
    pose proof (Z.mod_pos_bound n 10 ltac:(lia)). rewrite digit_char_val; lia.
Qed.

Lemma fmtDigits_not_nil f n : fmtDigits (S f) n <> [].
Proof. simpl. destr_goal; [done|]. intros H%app_nil. naive_solver. Qed.

Lemma parseUintLoop_fmt f n t :
  0 <= n <= max_uint64 -> n < 10 ^ Z.of_nat f ->
  parseUintLoop (fmtDigits f n ++ t) 0 = parseUintLoop t n.
Proof.
  revert n t. induction f as [|f IH]; intros n t Hn Hf.
  - simpl in *. by replace n with 0 by lia.
  - cbn [fmtDigits]. destruct (n <? 10) eqn:E; bool_hyps.
    + change ([digit_char n] ++ t) with (digit_char n :: t). cbn [parseUintLoop].
      rewrite digit_val_char by lia. unfold max_uint64 in *.
      by rewrite (proj2 (Z.ltb_ge _ _)) by lia.
    + rewrite <- (assoc_L (++)).
      pose proof (Z.mod_pos_bound n 10 ltac:(lia)) as Hm.
      pose proof (Z.div_mod n 10 ltac:(lia)) as Hd.
      rewrite IH.
      * change ([digit_char (n mod 10)] ++ t) with (digit_char (n mod 10) :: t).
        cbn [parseUintLoop]. rewrite digit_val_char by done.
        replace (n / 10 * 10 + n mod 10) with n by lia.
        by rewrite (proj2 (Z.ltb_ge _ _)) by lia.
      * unfold max_uint64 in *. lia.
      * rewrite Nat2Z.inj_succ, Z.pow_succ_r in Hf by lia. lia.
Qed.

Lemma log2_pow10 n : 0 <= n -> n < 10 ^ Z.of_nat (S (Z.to_nat (Z.log2 n))).
Proof.
  intros Hn. rewrite Nat2Z.inj_succ, Z2Nat.id by apply Z.log2_nonneg.
  destruct (decide (n = 0)) as [->|]; [done|].
  pose proof (Z.log2_spec n ltac:(lia)) as [_ H].
  pose proof (Z.pow_le_mono_l 2 10 (Z.succ (Z.log2 n)) ltac:(lia)). lia.
Qed.

Lemma formatUint_digits n : 0 <= n -> Forall is_digit (formatUint n).
Proof. apply fmtDigits_digits. Qed.

Lemma formatUint_not_nil n : formatUint n <> [].
Proof. apply fmtDigits_not_nil. Qed.

Lemma parseUint_format n : 0 <= n <= max_uint64 -> parseUint (formatUint n) = (n, None).
Proof.
  intros Hn. unfold parseUint.
  pose proof (formatUint_not_nil n).
  destruct (formatUint n) eqn:E; [done|]. rewrite <- E. unfold formatUint.
  rewrite <- (app_nil_r (fmtDigits _ _)), parseUintLoop_fmt; [done|done|].
  apply log2_pow10. lia.
Qed.

Lemma formatUint_head n c : 0 <= n -> head (formatUint n) = Some c -> is_digit c.
Proof.
  intros Hn Hc. pose proof (formatUint_digits n Hn) as H.
  rewrite Forall_forall in H. by apply H, head_Some_elem_of.
Qed.

Lemma is_digit_not c v : is_digit c -> v < 48 \/ 57 < v -> byte_val c <> v.
Proof. unfold is_digit. lia. Qed.

Lemma parseInt_cons c s :
  parseInt (c :: s) =
    (let neg := bool_decide (c = "-"%char) in
     match parseUint (if bool_decide (c = "+"%char) || neg then s else c :: s) with
     | (_, Some ErrSyntax) => (0, Some ErrSyntax)
     | (un, _) =>
         if negb neg && (2 ^ 63 <=? un) then (max_int64, Some ErrRange)
         else if neg && (2 ^ 63 <? un) then (min_int64, Some ErrRange)
         else (if neg then - un else un, None)
     end).
Proof. done. Qed.

(** strconv round trip: every int64 prints to a string that parses back. *)
Lemma parseInt_formatInt n : i64_ok n -> parseInt (formatInt n) = (n, None).
Proof.
  unfold i64_ok, formatInt. intros Hn.
  destruct (n <? 0) eqn:E; bool_hyps.
  - rewrite parseInt_cons. cbv zeta.
    rewrite (bool_decide_eq_true_2 ("-"%char = "-"%char)), orb_true_r by done.
    rewrite parseUint_format by (unfold max_uint64; lia). simpl negb. simpl andb.
    rewrite (proj2 (Z.ltb_ge _ _)) by lia. f_equal. lia.
  - pose proof (formatUint_not_nil n) as Hne.
    pose proof (formatUint_head n) as Hh.
    pose proof (parseUint_format n ltac:(unfold max_uint64; lia)) as Hp.
    destruct (formatUint n) as [|c s]; [done|]. rewrite parseInt_cons. cbv zeta.
    specialize (Hh c E eq_refl).
    rewrite !bool_decide_eq_false_2; [| by intros -> | by intros ->].
    cbn [orb negb andb]. rewrite Hp. cbn [andb].
    by rewrite (proj2 (Z.leb_gt _ _)) by lia.
Qed.

Lemma parseUintLoop_nonneg t a w e : 0 <= a -> parseUintLoop t a = (w, e) -> 0 <= w.
Proof.
  revert a. induction t as [|d t IH]; simpl; intros a Ha H; [naive_solver|].
  destr_in H; [|naive_solver]. apply digit_val_range in Heqo.
  destr_in H; [unfold max_uint64 in H; naive_solver lia|].
  eapply IH; [|done]. lia.
Qed.

Lemma parseUint_nonneg s w e : parseUint s = (w, e) -> 0 <= w.
Proof.
  unfold parseUint. destruct s; [naive_solver lia|]. by apply parseUintLoop_nonneg.
Qed.

Lemma parseInt_range s v : parseInt s = (v, None) -> i64_ok v.
Proof.
  unfold parseInt, i64_ok. destruct s as [|c s]; [done|].
  match goal with |- context [parseUint ?b] => set (body := b) end.
  destruct (parseUint body) as [un e] eqn:E. apply parseUint_nonneg in E.
  case_bool_decide; cbn -[Z.pow];
    (destruct e as [[]|]; try done; destr_goal; try done; bool_hyps; naive_solver lia).
Qed.

#[export] Hint Rewrite @rev_involutive : go.

Lemma formatUint_inj a b : u64_ok a -> u64_ok b -> formatUint a = formatUint b -> a = b.
Proof.
  intros Ha Hb H. apply (f_equal parseUint) in H.
  rewrite !parseUint_format in H by (unfold u64_ok, max_uint64 in *; lia). congruence.
Qed.

Lemma formatInt_inj a b : i64_ok a -> i64_ok b -> formatInt a = formatInt b -> a = b.
Proof.
  intros Ha Hb E. pose proof (parseInt_formatInt a Ha) as Pa. rewrite E, parseInt_formatInt in Pa by done.
  congruence.
Qed.
