(* ===== verification/GoOrder.v ===== *)
(** The order of Go strings as a relation, and sorting by a string key: [slt]
    and [sle] are the strict and the total order [str_ltb] and [str_leb] decide,
    [sortBy] is what sort.Slice with a [<] on keys computes when no two
    elements share a key ([sortBy_unique]; sort.Slice is not stable, so with
    equal keys their order is one of several). *)
From stdpp Require Import sorting.
From S2P Require Import Prelude GoString.

Definition slt (a b : gostr) : Prop := str_ltb a b = true.
Definition sle (a b : gostr) : Prop := str_leb a b = true.

#[export] Instance slt_dec : RelDecision slt.
Proof. intros a b. unfold slt. apply _. Defined.
#[export] Instance sle_dec : RelDecision sle.
Proof. intros a b. unfold sle. apply _. Defined.

Lemma str_ltb_asym a b : str_ltb a b = true -> str_ltb b a = false.
Proof.
  revert b. induction a as [|x a IH]; intros [|y b]; simpl; try done.
  destruct (byte_val x <? byte_val y) eqn:E1, (byte_val y <? byte_val x) eqn:E2; bool_hyps; try done; try lia.
  apply IH.
Qed.

Lemma str_leb_total a b : str_leb a b = false -> str_leb b a = true.
Proof. unfold str_leb. rewrite negb_false_iff, negb_true_iff. apply str_ltb_asym. Qed.

Lemma slt_cons x a y b :
  slt (x :: a) (y :: b) <-> byte_val x < byte_val y \/ (x = y /\ slt a b).
Proof.
  unfold slt. simpl. destruct (byte_val x <? byte_val y) eqn:E1; [bool_hyps; naive_solver|].
  destruct (byte_val y <? byte_val x) eqn:E2; bool_hyps.
  - split; [done|]. intros [?|[-> _]]; lia.
  - assert (x = y) as -> by (apply byte_val_inj; lia). split; [auto|]. intros [?|[_ ?]]; [lia|done].
Qed.

Lemma slt_irrefl a : ~ slt a a.
Proof. intros H. pose proof (str_ltb_asym a a H). unfold slt in H. congruence. Qed.

#[export] Instance slt_strict : StrictOrder slt.
Proof.
  split; [intros a; apply slt_irrefl|].
  intros a. induction a as [|x a IH]; intros [|y b] [|z c] H1 H2; try done.
  apply slt_cons in H1, H2. apply slt_cons.
  destruct H1 as [?|[-> ?]], H2 as [?|[-> ?]]; [left; lia|by left|by left|right].
  split; [done|]. by apply (IH b).
Qed.

Lemma slt_total a b : slt a b \/ a = b \/ slt b a.
Proof.
  revert b. induction a as [|x a IH]; intros [|y b]; [by right; left|by left|by right; right|].
  rewrite !slt_cons. destruct (Z.lt_trichotomy (byte_val x) (byte_val y)) as [?|[->%byte_val_inj|?]]; [auto| |auto].
  destruct (IH b) as [?|[->|?]]; auto.
Qed.

Lemma sle_not_slt a b : sle a b <-> ~ slt b a.
Proof. unfold sle, slt, str_leb. rewrite negb_true_iff. by destruct (str_ltb b a). Qed.

Lemma sle_slt a b : sle a b <-> a = b \/ slt a b.
Proof.
  rewrite sle_not_slt. split.
  - intros H. destruct (slt_total a b) as [?|[?|?]]; [by right|by left|done].
  - intros [->|H] Hb; [by apply (slt_irrefl b)|]. apply (slt_irrefl a). by trans b.
Qed.

#[export] Instance sle_total_order : TotalOrder sle.
Proof.
  split; [split; [split|]|].
  - intros a. apply sle_slt. by left.
  - intros a b c. rewrite !sle_slt. intros [->|H1]; [done|]. intros [->|H2]; right; [done|by trans b].
  - intros a b. rewrite !sle_slt. intros [->|H1] [H2|H2]; try done.
    by destruct (irreflexivity slt a); trans b.
  - intros a b. unfold strict. rewrite !sle_not_slt.
    destruct (slt_total a b) as [H|[->|H]]; [left|by right; left|right; right];
      (split; [intros H2; by destruct (irreflexivity slt a); trans b|naive_solver]).
Qed.

(** ** Prefixes *)
Lemma slt_app k a b : slt (k ++ a) (k ++ b) <-> slt a b.
Proof.
  induction k as [|x k IH]; [done|]. rewrite <- !app_comm_cons, slt_cons, IH.
  split; [intros [?|[_ ?]]; [lia|done]|auto].
Qed.

Lemma slt_prefix a x : x <> [] -> slt a (a ++ x).
Proof. intros Hx. rewrite <- (app_nil_r a) at 1. apply slt_app. by destruct x. Qed.

Lemma sle_prefix a x : sle a (a ++ x).
Proof.
  apply sle_slt. destruct x as [|c x]; [left; by rewrite app_nil_r|]. right. by apply slt_prefix.
Qed.

Lemma slt_ext a b x y : slt a b -> (forall t, b <> a ++ t) -> slt (a ++ x) (b ++ y).
Proof.
  revert b. induction a as [|c a IH]; intros [|d b] H Hp; try done.
  - by destruct (Hp (d :: b)).
  - rewrite <- !app_comm_cons. apply slt_cons in H. apply slt_cons.
    destruct H as [?|[-> H]]; [by left|]. right. split; [done|]. apply IH; [done|].
    intros t ->. by apply (Hp t).
Qed.

Lemma slt_ext_r a b y : slt a b -> slt a (b ++ y).
Proof.
  intros H. destruct (sle_slt b (b ++ y)) as [Hl _]. destruct (Hl (sle_prefix b y)) as [<-|Hs]; [done|].
  by trans b.
Qed.

Lemma sle_ext p m x : sle p m -> (forall t, m <> p ++ t) -> sle (p ++ x) m.
Proof.
  intros [->|H]%sle_slt Hp; [by destruct (Hp []); rewrite app_nil_r|].
  apply sle_slt. right. rewrite <- (app_nil_r m). by apply slt_ext.
Qed.

(** ** Sorting by a key *)
Section SortBy.
Context {A : Type} (key : A -> gostr).

Definition keyLe (x y : A) : Prop := sle (key x) (key y).
Definition keyLt (x y : A) : Prop := slt (key x) (key y).

#[export] Instance keyLe_dec : RelDecision keyLe.
Proof. intros x y. unfold keyLe. apply _. Defined.

Definition sortBy (l : list A) : list A := merge_sort keyLe l.

Lemma sortBy_perm l : sortBy l ≡ₚ l.
Proof. apply merge_sort_Permutation. Qed.

Lemma keyLe_trans : Transitive keyLe.
Proof. intros x y z. unfold keyLe. apply transitivity. Qed.

Lemma sortBy_sorted l : StronglySorted keyLe (sortBy l).
Proof.
  assert (Total keyLe) by (intros x y; unfold keyLe; apply (total sle)).
  pose proof keyLe_trans. by apply StronglySorted_merge_sort.
Qed.

(** A strictly sorted permutation is the only one. *)
Lemma strictly_sorted_unique l1 l2 :
  l1 ≡ₚ l2 -> StronglySorted keyLt l1 -> StronglySorted keyLe l2 -> l1 = l2.
Proof.
  revert l2. induction l1 as [|x l1 IH]; intros l2 Hp H1 H2; [by apply Permutation_nil_l in Hp|].
  apply StronglySorted_inv in H1 as [H1 Hx]. destruct l2 as [|y l2]; [by apply Permutation_nil_r in Hp|].
  apply StronglySorted_inv in H2 as [H2 Hy].
  assert (x = y) as ->.
  { assert (Hin : y ∈ x :: l1) by (rewrite Hp; by left).
    assert (Hin2 : x ∈ y :: l2) by (rewrite <- Hp; by left).
    apply elem_of_cons in Hin as [->|Hin]; [done|]. apply elem_of_cons in Hin2 as [->|Hin2]; [done|].
    rewrite Forall_forall in Hx, Hy. specialize (Hx _ Hin). specialize (Hy _ Hin2).
    unfold keyLe, keyLt in *. by apply sle_not_slt in Hy. }
  f_equal. apply IH; [by apply Permutation_cons_inv in Hp|done|done].
Qed.

Lemma sortBy_unique l l' : l' ≡ₚ l -> StronglySorted keyLt l' -> sortBy l = l'.
Proof.
  intros Hp Hs. symmetry. apply strictly_sorted_unique; [by rewrite sortBy_perm|done|apply sortBy_sorted].
Qed.

Lemma sortBy_strict l : NoDup (map key l) -> StronglySorted keyLt (sortBy l).
Proof.
  intros Hnd. assert (Hn : NoDup (map key (sortBy l))) by (by rewrite sortBy_perm).
  induction (sortBy_sorted l) as [|x t Hs IH Hx]; [constructor|].
  simpl in Hn. apply NoDup_cons in Hn as [Hni Hn]. constructor; [by apply IH|].
  rewrite Forall_forall in *. intros y Hy. specialize (Hx y Hy). unfold keyLe, keyLt in *.
  apply sle_slt in Hx as [He|Hx]; [|done]. destruct Hni. rewrite He. by apply list_elem_of_fmap_2.
Qed.
End SortBy.

Lemma sortBy_map {A B} (key : A -> gostr) (key' : B -> gostr) (f : A -> B) l :
  (forall x, key' (f x) = key x) -> NoDup (map key l) ->
  sortBy key' (map f l) = map f (sortBy key l).
Proof.
  intros Hk Hnd. apply sortBy_unique; [by rewrite sortBy_perm|].
  induction (sortBy_strict key l Hnd) as [|x t _ IH Hx]; simpl; constructor; [done|].
  apply Forall_map. eapply Forall_impl; [exact Hx|]. intros y. unfold keyLt. simpl. by rewrite !Hk.
Qed.

Lemma elem_concat_map {A B} (f : A -> list B) l x :
  x ∈ concat (map f l) <-> exists a, a ∈ l /\ x ∈ f a.
Proof.
  rewrite list_elem_of_In, in_concat. split.
  - intros (b & Hb & Hx). apply in_map_iff in Hb as (a & <- & Ha). exists a. split; by apply list_elem_of_In.
  - intros (a & Ha & Hx). exists (f a). split; [|by apply list_elem_of_In].
    apply in_map. by apply list_elem_of_In.
Qed.

(** Sorted blocks of sorted elements. *)
Lemma StronglySorted_concat {A B} (R : B -> B -> Prop) (Q : A -> A -> Prop) (f : A -> list B) l :
  StronglySorted Q l -> Forall (fun a => StronglySorted R (f a)) l ->
  (forall a a' x x', a ∈ l -> a' ∈ l -> Q a a' -> x ∈ f a -> x' ∈ f a' -> R x x') ->
  StronglySorted R (concat (map f l)).
Proof.
  induction 1 as [|a l Hs IH Ha]; intros Hf HR; simpl; [constructor|].
  apply Forall_cons in Hf as [Hfa Hf].
  apply StronglySorted_app. split; [|split; [done|apply IH; [done|]]].
  - intros x x' Hx (a' & Ha' & Hx')%elem_concat_map. rewrite Forall_forall in Ha.
    apply (HR a a'); [left|by right|by apply Ha|done|done].
  - intros a0 a1 x x' H0 H1. apply HR; by right.
Qed.
