(* ===== verification/GoPath.v ===== *)
(** Package [path] of the Go standard library: Clean, Join, Split, Base and
    Dir. [path.Clean] is stated on the elements between slashes: empty and
    "." elements are dropped, ".." removes the element before it, and above a
    root it is dropped. The rooted clean paths are the images of [mkpath]. *)
From S2P Require Import Prelude GoString.

Definition slash : ascii := "/"%char.

(** The elements of the cleaned path, last first. *)
Fixpoint cleanSegs (rooted : bool) (acc : list gostr) (l : list gostr) : list gostr :=
  match l with
  | [] => acc
  | w :: l' =>
      if seqb w "" || seqb w "." then cleanSegs rooted acc l'
      else if seqb w ".." then
        match acc with
        | [] => cleanSegs rooted (if rooted then [] else [".." : gostr]) l'
        | v :: acc' =>
            if seqb v ".." then cleanSegs rooted ((".." : gostr) :: acc) l'
            else cleanSegs rooted acc' l'
        end
      else cleanSegs rooted (w :: acc) l'
  end.

Definition path_Clean (p : gostr) : gostr :=
  match p with
  | [] => "."
  | _ =>
      let rooted := hasPrefix p "/" in
      let segs := rev (cleanSegs rooted [] (splitByte p slash)) in
      let out := (if rooted then [slash] else []) ++ joinStr segs [slash] in
      if seqb out "" then "." else out
  end.

(** path.Join: the non-empty elements joined by slashes, cleaned. *)
Definition path_Join (elems : list gostr) : gostr :=
  match filter (fun e : gostr => e <> []) elems with
  | [] => []
  | l => path_Clean (joinStr l [slash])
  end.

(** path.Split: everything up to and including the last slash, and the rest. *)
Definition path_Split (p : gostr) : gostr * gostr :=
  match lastIndexByte p slash with
  | Some i => (take (S i) p, drop (S i) p)
  | None => ([], p)
  end.

Definition path_Dir (p : gostr) : gostr := path_Clean (fst (path_Split p)).

Fixpoint dropTrailing (f : ascii -> bool) (s : gostr) : gostr :=
  match s with
  | [] => []
  | c :: s' =>
      match dropTrailing f s' with
      | [] => if f c then [] else [c]
      | t => c :: t
      end
  end.

Definition path_Base (p : gostr) : gostr :=
  match p with
  | [] => "."
  | _ =>
      let q := dropTrailing (fun c => bool_decide (c = slash)) p in
      let r := match lastIndexByte q slash with
               | Some i => drop (S i) q
               | None => q
               end in
      if seqb r "" then "/" else r
  end.

Example clean_ex1 : path_Clean "/a/./b//../c/../../.." = "/".
Proof. vm_compute. reflexivity. Qed.
Example clean_ex2 : path_Clean "../a/../../b" = "../../b".
Proof. vm_compute. reflexivity. Qed.
Example join_ex : path_Join (strs ["/a"; ""; "/../b/"]) = "/b".
Proof. vm_compute. reflexivity. Qed.
Example base_ex : path_Base "/a/b.txt//" = "b.txt".
Proof. vm_compute. reflexivity. Qed.

(** ** Rooted clean paths *)
Definition good_seg (w : gostr) : Prop :=
  w <> [] /\ w <> "." /\ w <> ".." /\ slash ∉ w.

Definition mkpath (segs : list gostr) : gostr := slash :: joinStr segs [slash].

Lemma cleanSegs_good acc l :
  Forall good_seg acc -> Forall (fun w => slash ∉ w) l ->
  Forall good_seg (cleanSegs true acc l).
Proof.
  revert acc. induction l as [|w l IH]; simpl; intros acc Ha Hl; [done|].
  apply Forall_cons in Hl as [Hw Hl].
  destruct (seqb w "" || seqb w ".") eqn:E1; [by apply IH|].
  destruct (seqb w "..") eqn:E2.
  - destruct acc as [|v acc]; [by apply IH|].
    apply Forall_cons in Ha as [Hv Ha].
    rewrite (proj2 (seqb_false v "..")) by apply Hv. by apply IH.
  - apply IH; [|done]. constructor; [|done].
    bool_hyps. rewrite seqb_false in *. by repeat split.
Qed.

Lemma cleanSegs_id rooted acc l :
  Forall good_seg l -> cleanSegs rooted acc l = rev l ++ acc.
Proof.
  revert acc. induction l as [|w l IH]; simpl; intros acc Hl; [done|].
  apply Forall_cons in Hl as [(H1 & H2 & H3 & _) Hl].
  rewrite !(proj2 (seqb_false _ _)) by done. simpl.
  rewrite IH by done. by rewrite <- (assoc_L (++)).
Qed.

Lemma cleanSegs_app rooted acc l1 l2 :
  cleanSegs rooted acc (l1 ++ l2) = cleanSegs rooted (cleanSegs rooted acc l1) l2.
Proof.
  revert acc. induction l1 as [|w l1 IH]; simpl; intros acc; [done|].
  repeat destr_goal; apply IH.
Qed.

Lemma good_seg_no_slash segs : Forall good_seg segs -> Forall (fun w => slash ∉ w) segs.
Proof. intros H. eapply Forall_impl; [done|]. by intros w (_ & _ & _ & Hw). Qed.

Lemma joinStr_nil segs : Forall good_seg segs -> joinStr segs [slash] = [] -> segs = [].
Proof.
  destruct segs as [|w l]; [done|]. intros [(H & _) _]%Forall_cons Hj.
  destruct l; simpl in Hj; [done|]. apply app_nil in Hj. naive_solver.
Qed.

Lemma split_mkpath segs :
  Forall good_seg segs ->
  splitByte (mkpath segs) slash = [] :: match segs with [] => [[]] | _ => segs end.
Proof.
  intros H. unfold mkpath. simpl. f_equal.
  destruct segs; [done|]. apply splitByte_join; [done|]. by apply good_seg_no_slash.
Qed.

Lemma mkpath_inj a b : Forall good_seg a -> Forall good_seg b -> mkpath a = mkpath b -> a = b.
Proof.
  intros Ha Hb H. apply (f_equal (fun p => splitByte p slash)) in H.
  rewrite !split_mkpath in H by done. destruct a, b; simplify_eq; try done.
  - apply Forall_cons in Hb as [[]]; done.
  - apply Forall_cons in Ha as [[]]; done.
Qed.

Lemma rooted_clean s :
  path_Clean (slash :: s) = mkpath (rev (cleanSegs true [] (splitByte s slash))).
Proof.
  unfold path_Clean, mkpath.
  assert (hasPrefix (slash :: s) "/" = true) as -> by (apply hasPrefix_spec; by exists s).
  assert (splitByte (slash :: s) slash = [] :: splitByte s slash) as ->
    by done.
  simpl cleanSegs. by rewrite (proj2 (seqb_false _ _)).
Qed.

Lemma mkpath_good_clean segs : Forall good_seg segs -> path_Clean (mkpath segs) = mkpath segs.
Proof.
  intros H. unfold mkpath at 1. rewrite rooted_clean. f_equal.
  destruct segs as [|w l]; [done|].
  rewrite splitByte_join, cleanSegs_id, app_nil_r by (done || by apply good_seg_no_slash).
  apply rev_involutive.
Qed.

Lemma mkpath_snoc segs w :
  mkpath (segs ++ [w]) = match segs with [] => slash :: w | _ => mkpath segs ++ slash :: w end.
Proof.
  unfold mkpath. destruct segs as [|v l]; [done|]. simpl. f_equal.
  revert v. induction l as [|u l IH]; intros v; [done|].
  simpl in *. rewrite IH. by rewrite <- !(assoc_L (++)).
Qed.

Lemma mkpath_app a b : a <> [] -> b <> [] -> mkpath (a ++ b) = mkpath a ++ mkpath b.
Proof.
  intros Ha Hb. unfold mkpath. simpl. f_equal. induction a as [|v a IH]; [done|].
  rewrite <- app_comm_cons. destruct a as [|u a].
  - by rewrite joinStr_cons.
  - rewrite !joinStr_cons, IH by done. by rewrite <- !(assoc_L (++)).
Qed.

(** path.Join of two rooted clean paths concatenates their elements. *)
Lemma path_Join_rooted a b :
  Forall good_seg a -> Forall good_seg b ->
  path_Join [mkpath a; mkpath b] = mkpath (a ++ b).
Proof.
  intros Ha Hb.
  change (path_Clean (mkpath a ++ [slash] ++ mkpath b) = mkpath (a ++ b)).
  unfold mkpath at 1. rewrite <- (app_comm_cons _ _ slash), rooted_clean. f_equal.
  rewrite <- (rev_involutive (a ++ b)). f_equal.
  assert (forall x, Forall good_seg x ->
    cleanSegs true (rev x) (splitByte (mkpath b) slash) = rev (x ++ b)) as Hb'.
  { intros x Hx. rewrite split_mkpath by done. simpl. destruct b; [by rewrite app_nil_r|].
    rewrite cleanSegs_id by done. by rewrite rev_app_distr. }
  destruct a as [|w l].
  - simpl joinStr. simpl splitByte. simpl cleanSegs. apply (Hb' []). done.
  - change ([slash] ++ mkpath b) with (slash :: mkpath b).
    rewrite splitByte_join_app, cleanSegs_app, (cleanSegs_id true [] (w :: l)), app_nil_r
      by (done || by apply good_seg_no_slash).
    by apply Hb'.
Qed.

Lemma path_Dir_snoc segs w :
  Forall good_seg segs -> good_seg w -> path_Dir (mkpath (segs ++ [w])) = mkpath segs.
Proof.
  intros Hs (Hw & _ & _ & Hn). unfold path_Dir, path_Split. rewrite mkpath_snoc.
  destruct segs as [|v l].
  - change (slash :: w) with ([] ++ slash :: w). by rewrite lastIndexByte_app.
  - rewrite (lastIndexByte_app _ slash w Hn). cbn [fst].
    replace (mkpath (v :: l) ++ slash :: w) with ((mkpath (v :: l) ++ [slash]) ++ w)
      by (by rewrite <- (assoc_L (++))).
    replace (S (length (mkpath (v :: l)))) with (length (mkpath (v :: l) ++ [slash]))
      by (rewrite length_app; simpl; lia).
    rewrite take_app_length. unfold mkpath at 1. rewrite <- app_comm_cons, rooted_clean.
    f_equal.
    replace (joinStr (v :: l) [slash] ++ [slash]) with (joinStr ((v :: l) ++ [[]]) [slash]).
    + rewrite splitByte_join; [| by destruct l |].
      * rewrite cleanSegs_app, (cleanSegs_id true [] (v :: l)), app_nil_r by done. simpl.
        rewrite rev_app_distr, rev_involutive. done.
      * apply Forall_app. split; [by apply good_seg_no_slash|].
        constructor; [apply not_elem_of_nil | done].
    + clear. revert v. induction l as [|u l IH]; intros v; [done|].
      change ((v :: u :: l) ++ [[]]) with (v :: ((u :: l) ++ [[]])).
      rewrite joinStr_cons, IH, (joinStr_cons v (u :: l)) by done.
      by rewrite <- !(assoc_L (++)).
Qed.

Lemma path_Dir_root : path_Dir (mkpath []) = mkpath [].
Proof. vm_compute. reflexivity. Qed.

Lemma mkpath_length segs : Forall good_seg segs -> (length segs <= length (mkpath segs))%nat.
Proof.
  unfold mkpath. simpl. induction 1 as [|w l Hw Hl IH]; simpl; [lia|].
  destruct w; [by destruct Hw|]. destruct l; simpl in *; [lia|].
  rewrite ?length_app in *. simpl in *. lia.
Qed.
