(* ===== verification/Paths.v ===== *)
(** Path handling of [pkg/utils/path.go]: cleaning a user path, the sub-path
    test, joining a request path below a base path and the hierarchy of a
    path. Every result is characterised by the elements of the cleaned path
    ([norm_segs]). *)
From S2P Require Import Prelude GoString GoPath.

Definition backslash : ascii := ascii_of_nat 92.

Definition fixAndCleanPath (path : gostr) : gostr :=
  let path := replaceByte path backslash slash in
  let path := if hasPrefix path "/" then path else slash :: path in
  path_Clean path.

Definition pathAddSeparatorSuffix (path : gostr) : gostr :=
  if hasSuffix path "/" then path else path ++ [slash].

Definition pathEqual (path1 path2 : gostr) : bool :=
  seqb (fixAndCleanPath path1) (fixAndCleanPath path2).

Definition isSubPath (path subPath : gostr) : bool :=
  let path := fixAndCleanPath path in
  let subPath := fixAndCleanPath subPath in
  seqb path subPath || hasPrefix subPath (pathAddSeparatorSuffix path).

(** EncodePath with [all] unset; url.PathEscape is not modelled. *)
Definition encodeSeg (s : gostr) : gostr :=
  let s := replaceByteStr s "%" "%25" in
  let s := replaceByteStr s "%" "%25" in
  let s := replaceByteStr s "?" "%3F" in
  replaceByteStr s "#" "%23".

Definition encodePath (path : gostr) : gostr :=
  joinStr (map encodeSeg (splitByte path slash)) [slash].

Inductive path_err := RelativePath.

Definition joinBasePath (basePath reqPath : gostr) : res path_err gostr :=
  let isRelativePath := contains reqPath ".." in
  let reqPath := fixAndCleanPath reqPath in
  if isRelativePath && negb (contains reqPath "..") then Err RelativePath
  else Ok (path_Join [fixAndCleanPath basePath; reqPath]).

(** The loop of GetPathHierarchy: [cur] is the string builder. *)
Fixpoint hierarchyLoop (parts : list gostr) (cur : gostr) (hierarchy : list gostr) : list gostr :=
  match parts with
  | [] => hierarchy
  | part :: parts' =>
      if seqb part "" then hierarchyLoop parts' cur hierarchy
      else let cur := cur ++ [slash] ++ part in
           hierarchyLoop parts' cur (hierarchy ++ [cur])
  end.

Definition getPathHierarchy (path : gostr) : list gostr :=
  if seqb path "" || seqb path "/" then ["/" : gostr]
  else
    let path := fixAndCleanPath path in
    let path := if hasPrefix path "/" then path else slash :: path in
    hierarchyLoop (splitByte path slash) [] ["/" : gostr].

(** ** The elements of a cleaned path *)
Definition norm_segs (p : gostr) : list gostr :=
  rev (cleanSegs true [] (splitByte (replaceByte p backslash slash) slash)).

Definition clean_seg (w : gostr) : Prop := good_seg w /\ backslash ∉ w.

Example fix_ex : map fixAndCleanPath (strs [".."; "../.x."; "x//\y"; ""; "/a\b/../c"])
                 = strs ["/"; "/.x."; "/x/y"; "/"; "/a/c"].
Proof. vm_compute. reflexivity. Qed.

Lemma replaceByte_no s o n : o <> n -> o ∉ replaceByte s o n.
Proof.
  intros Hne. induction s as [|c s IH]; simpl; [apply not_elem_of_nil|].
  apply not_elem_of_cons. split; [|done]. by case_bool_decide; congruence.
Qed.

Lemma replaceByte_id s o n : o ∉ s -> replaceByte s o n = s.
Proof.
  induction s as [|c s IH]; simpl; [done|]. intros [H1 H2]%not_elem_of_cons.
  rewrite bool_decide_eq_false_2 by congruence. by rewrite IH.
Qed.

Lemma splitByte_elem s c w x : w ∈ splitByte s c -> x ∈ w -> x ∈ s.
Proof.
  revert w. induction s as [|d s IH]; simpl; intros w.
  - intros ->%list_elem_of_singleton. by intros ?%elem_of_nil.
  - case_bool_decide as Hd.
    + intros [->|H]%elem_of_cons; [by intros ?%elem_of_nil|]. intros. right. by eapply IH.
    + destruct (splitByte s c) as [|v vs] eqn:E; [by apply splitByte_not_nil in E|].
      intros [->|H]%elem_of_cons.
      * intros [->|H]%elem_of_cons; [by left|]. right. eapply IH; [by left|done].
      * intros. right. eapply IH; [by right|done].
Qed.

Lemma cleanSegs_subset acc l (w : gostr) : w ∈ cleanSegs true acc l -> w ∈ acc \/ w ∈ l \/ w = "..".
Proof.
  revert acc. induction l as [|v l IH]; simpl; intros acc H; [by left|].
  repeat destr_in H; apply IH in H; set_solver.
Qed.

Lemma norm_segs_good p : Forall good_seg (norm_segs p).
Proof.
  unfold norm_segs. apply Forall_rev. apply cleanSegs_good; [done|].
  apply Forall_forall. intros w Hw. by eapply splitByte_no_sep.
Qed.

Lemma norm_segs_clean p : Forall clean_seg (norm_segs p).
Proof.
  pose proof (norm_segs_good p) as Hg. rewrite Forall_forall in *.
  intros w Hw. split; [by apply Hg|]. intros Hb.
  unfold norm_segs in Hw. rewrite elem_of_rev in Hw.
  apply cleanSegs_subset in Hw as [Hw|[Hw| ->]].
  - by apply elem_of_nil in Hw.
  - eapply replaceByte_no; [|by eapply splitByte_elem]. done.
  - vm_compute in Hb. set_solver.
Qed.

Lemma fixAndCleanPath_mkpath p : fixAndCleanPath p = mkpath (norm_segs p).
Proof.
  unfold fixAndCleanPath, norm_segs. set (q := replaceByte p backslash slash).
  destruct (hasPrefix q "/") eqn:E; [|apply rooted_clean].
  apply hasPrefix_spec in E as [t ->]. simpl app. rewrite rooted_clean.
  done.
Qed.

Lemma mkpath_no_backslash l : Forall clean_seg l -> backslash ∉ mkpath l.
Proof.
  intros H. unfold mkpath. apply not_elem_of_cons. split; [done|].
  induction l as [|w l IH]; [apply not_elem_of_nil|].
  apply Forall_cons in H as [[_ Hw] H].
  destruct l as [|v l]; [done|]. rewrite joinStr_cons by done.
  rewrite !not_elem_of_app. repeat split; [done| |by apply IH].
  vm_compute. set_solver.
Qed.

Lemma norm_segs_mkpath l : Forall clean_seg l -> norm_segs (mkpath l) = l.
Proof.
  intros H. assert (Hg : Forall good_seg l) by (eapply Forall_impl; [done|]; by intros ? []).
  unfold norm_segs. rewrite replaceByte_id by (by apply mkpath_no_backslash).
  rewrite split_mkpath by done. simpl. destruct l as [|w l]; [done|].
  rewrite cleanSegs_id, app_nil_r by done. apply rev_involutive.
Qed.

Lemma norm_segs_fix p : norm_segs (fixAndCleanPath p) = norm_segs p.
Proof. rewrite fixAndCleanPath_mkpath. apply norm_segs_mkpath, norm_segs_clean. Qed.

Lemma addSep_mkpath l :
  Forall good_seg l -> pathAddSeparatorSuffix (mkpath l) = match l with [] => [slash] | _ => mkpath l ++ [slash] end.
Proof.
  intros H. unfold pathAddSeparatorSuffix. destruct l as [|w l]; [done|].
  destruct (hasSuffix (mkpath (w :: l)) "/") eqn:E; [|done].
  apply hasSuffix_spec in E as [t Ht].
  destruct (list_snoc (w :: l)) as (a & b & Hab); [done|].
  rewrite Hab in Ht, H. apply Forall_app in H as [_ [Hb _]%Forall_cons].
  destruct (list_snoc b) as (b' & c & ->); [by destruct Hb|].
  rewrite mkpath_snoc in Ht.
  assert (slash = c) as <-.
  { destruct a; [rewrite (app_comm_cons b' [c] slash) in Ht
                |rewrite app_comm_cons, (assoc_L (++)) in Ht];
      apply app_inj_tail in Ht; naive_solver. }
  destruct Hb as (_ & _ & _ & Hb). set_solver.
Qed.

Lemma isSubPath_segs p q : isSubPath p q = true <-> norm_segs p `prefix_of` norm_segs q.
Proof.
  unfold isSubPath. rewrite !fixAndCleanPath_mkpath.
  pose proof (norm_segs_good p) as Hp. pose proof (norm_segs_good q) as Hq.
  revert Hp Hq. generalize (norm_segs p) (norm_segs q). intros a b Ha Hb.
  rewrite orb_true_iff, seqb_true, addSep_mkpath by done.
  destruct a as [|w a].
  - split; [intros _; apply prefix_nil|]. intros _. right.
    apply hasPrefix_spec. by exists (joinStr b [slash]).
  - rewrite hasPrefix_spec. split.
    + intros [H%mkpath_inj|[t Ht]]; [by rewrite <- H|done|done|].
      exists (splitByte t slash).
      apply (f_equal (fun x => splitByte x slash)) in Ht.
      rewrite split_mkpath in Ht by done.
      assert (Hs : splitByte ((mkpath (w :: a) ++ [slash]) ++ t) slash =
                   [] :: (w :: a) ++ splitByte t slash).
      { unfold mkpath. rewrite <- (assoc_L (++)), <- app_comm_cons.
        change (splitByte (slash :: ?x) slash) with ([] :: splitByte x slash).
        change ([slash] ++ t) with (slash :: t).
        by rewrite splitByte_join_app by (done || by apply good_seg_no_slash). }
      rewrite Hs in Ht. destruct b; [|by simplify_eq].
      injection Ht as Hw Ht. subst w. apply Forall_cons in Ha as [[] _]. done.
    + intros [t ->]. destruct t as [|v t]; [left; by rewrite app_nil_r|].
      right. rewrite mkpath_app by done. exists (joinStr (v :: t) [slash]).
      by rewrite <- (assoc_L (++)).
Qed.

Lemma joinBasePath_segs base req p :
  joinBasePath base req = Ok p ->
  p = mkpath (norm_segs base ++ norm_segs req) /\ norm_segs p = norm_segs base ++ norm_segs req.
Proof.
  unfold joinBasePath. intros H. destr_in H; [done|]. injection H as <-.
  rewrite !fixAndCleanPath_mkpath, path_Join_rooted by apply norm_segs_good.
  split; [done|]. apply norm_segs_mkpath, Forall_app.
  split; apply norm_segs_clean.
Qed.

(** The prefixes of a list, shortest first. *)
Fixpoint inits {A} (l : list A) : list (list A) :=
  [] :: match l with [] => [] | x :: l' => map (cons x) (inits l') end.

Lemma inits_spec {A} (l p : list A) : p ∈ inits l <-> p `prefix_of` l.
Proof.
  revert p. induction l as [|x l IH]; intros p; simpl.
  - rewrite list_elem_of_singleton. split; [by intros ->|]. apply prefix_nil_inv.
  - rewrite elem_of_cons, list_elem_of_fmap. split.
    + intros [->|(q & -> & Hq%IH)]; [apply prefix_nil|]. by apply prefix_cons.
    + destruct p as [|y p]; [by left|]. intros H. right.
      pose proof (prefix_cons_inv_1 _ _ _ _ H). subst y.
      exists p. split; [done|]. apply IH. by eapply prefix_cons_inv_2.
Qed.

Lemma inits_not_nil {A} (l : list A) : inits l = [] :: tail (inits l).
Proof. by destruct l. Qed.

Lemma hierarchyLoop_inits segs cur acc pre :
  Forall good_seg segs -> cur = match pre with [] => [] | _ => mkpath pre end ->
  hierarchyLoop segs cur acc = acc ++ map (fun i => mkpath (pre ++ i)) (tail (inits segs)).
Proof.
  revert cur acc pre. induction segs as [|w segs IH]; intros cur acc pre Hs Hc; simpl.
  - by rewrite app_nil_r.
  - apply Forall_cons in Hs as [Hw Hs].
    rewrite (proj2 (seqb_false w "")) by apply Hw.
    rewrite IH with (pre := pre ++ [w]); [|done|].
    + rewrite (inits_not_nil segs) at 2. rewrite <- (assoc_L (++)). simpl.
      rewrite map_map. f_equal. f_equal.
      * subst cur. destruct pre; [done|]. by rewrite mkpath_snoc.
      * apply map_ext. intros i. by rewrite <- (assoc_L (++)).
    + subst cur. rewrite mkpath_snoc. destruct pre; [done|].
      by destruct (_ ++ _) eqn:E; [apply app_nil in E as []|].
Qed.

Lemma getPathHierarchy_inits p : getPathHierarchy p = map mkpath (inits (norm_segs p)).
Proof.
  unfold getPathHierarchy. destruct (seqb p "" || seqb p "/") eqn:E.
  - apply orb_prop in E as [E|E]; apply seqb_true in E; by subst.
  - rewrite fixAndCleanPath_mkpath. change (hasPrefix (mkpath (norm_segs p)) "/") with true. cbv iota.
    pose proof (norm_segs_good p) as Hg. rewrite split_mkpath by done.
    cbn [hierarchyLoop]. change (seqb [] "") with true. cbv iota.
    assert (Hl : hierarchyLoop (norm_segs p) [] ["/" : gostr] = map mkpath (inits (norm_segs p))).
    { rewrite hierarchyLoop_inits with (pre := []) by done.
      by rewrite (inits_not_nil (norm_segs p)) at 2. }
    destruct (norm_segs p); [done|exact Hl].
Qed.

#[export] Hint Resolve norm_segs_good norm_segs_clean : go.

(** ** Properties *)

(** [utils.FixAndCleanPath] returns a rooted path without empty, "." or
    ".." elements and without backslashes, and cleaning it again changes
    nothing. *)
Theorem fixAndCleanPath_canonical p :
  (exists segs, fixAndCleanPath p = mkpath segs /\ Forall clean_seg segs) /\
  fixAndCleanPath (fixAndCleanPath p) = fixAndCleanPath p.
Proof.
  split.
  - exists (norm_segs p). split; [apply fixAndCleanPath_mkpath | auto with go].
  - rewrite (fixAndCleanPath_mkpath (fixAndCleanPath p)), norm_segs_fix.
    by rewrite fixAndCleanPath_mkpath.
Qed.

(** C20: [utils.JoinBasePath] never leaves the base path: whatever "..", "."
    or backslashes the request has, a successful result is a sub-path of the
    base, and it is the base's elements followed by the request's. *)
Theorem joinBasePath_confined base req p :
  joinBasePath base req = Ok p ->
  isSubPath base p = true /\ norm_segs p = norm_segs base ++ norm_segs req.
Proof.
  intros [_ H]%joinBasePath_segs. split; [|done].
  apply isSubPath_segs. rewrite H. by apply prefix_app_r.
Qed.

Lemma joinBasePath_confined_witness :
  isSubPath "/home/u" "/home/u/etc..d/passwd" = true /\
  norm_segs "/home/u/etc..d/passwd" = norm_segs "/home/u" ++ norm_segs "./etc..d//passwd".
Proof. apply joinBasePath_confined. vm_compute. reflexivity. Defined.

(** [utils.IsSubPath] holds exactly when the elements of the first path
    are a prefix of the elements of the second, so it is reflexive and
    transitive and "/ab" is not below "/a". *)
Theorem isSubPath_prefix p q : isSubPath p q = true <-> norm_segs p `prefix_of` norm_segs q.
Proof. apply isSubPath_segs. Qed.

(** [utils.GetPathHierarchy] lists exactly the ancestors of the cleaned
    path, from the root down to the path: one for each prefix of its
    elements. *)
Theorem getPathHierarchy_ancestors p :
  getPathHierarchy p = map mkpath (inits (norm_segs p)) /\
  forall a, a ∈ getPathHierarchy p <-> isSubPath a p = true /\ a = fixAndCleanPath a.
Proof.
  split; [apply getPathHierarchy_inits|]. intros a.
  rewrite getPathHierarchy_inits, list_elem_of_fmap, isSubPath_segs. split.
  - intros (i & -> & Hi%inits_spec).
    assert (Hc : Forall clean_seg i).
    { destruct Hi as [t Ht]. pose proof (norm_segs_clean p) as Hn. rewrite Ht in Hn.
      by apply Forall_app in Hn as [? _]. }
    by rewrite fixAndCleanPath_mkpath, norm_segs_mkpath.
  - intros [Hp Ha]. exists (norm_segs a). rewrite <- fixAndCleanPath_mkpath.
    split; [done|]. by apply inits_spec.
Qed.
