(* ===== verification/HttpRange.v ===== *)
(** Package [pkg/http_range]: the Range record, parsing a Range header against
    a content size, printing and parsing Content-Range, and writing the Range
    header of an upstream request. [int64] arithmetic wraps around. *)
From S2P Require Import Prelude GoString.

Record Range := mkRange { Start : Z; Length : Z }.

(** An error of ParseRange or ParseContentRange; [NumErr] is errors.Join of
    the two strconv errors. *)
Inductive range_err :=
| ErrNoOverlap
| ErrInvalid
| NumErr (e1 e2 : option num_err).

Definition contentRange (r : Range) (size : Z) : gostr :=
  "bytes " ++ formatInt (Start r) ++ "-" ++
  formatInt (i64 (i64 (Start r + Length r) - 1)) ++ "/" ++ formatInt size.

(** One comma-separated element, already trimmed and not empty; [None] is the
    no-overlap case, which is skipped. *)
Definition parseSpec (ra : gostr) (size : Z) : res range_err (option Range) :=
  let '(before, after, ok) := cutByte ra "-" in
  if negb ok then Err ErrInvalid
  else
    let start := trimString before in
    let fin := trimString after in
    if seqb start "" then
      match fin with
      | [] => Err ErrInvalid
      | c :: _ =>
          if bool_decide (c = "-"%char) then Err ErrInvalid
          else
            let '(i, err) := parseInt fin in
            if (i <? 0) || bool_decide (err <> None) then Err ErrInvalid
            else
              let i := if size <? i then size else i in
              let s := i64 (size - i) in
              Ok (Some (mkRange s (i64 (size - s))))
      end
    else
      let '(i, err) := parseInt start in
      if bool_decide (err <> None) || (i <? 0) then Err ErrInvalid
      else if size <=? i then Ok None
      else if seqb fin "" then Ok (Some (mkRange i (i64 (size - i))))
      else
        let '(j, err) := parseInt fin in
        if bool_decide (err <> None) || (j <? i) then Err ErrInvalid
        else
          let j := if size <=? j then i64 (size - 1) else j in
          Ok (Some (mkRange i (i64 (i64 (j - i) + 1)))).

Fixpoint parseSpecs (specs : list gostr) (size : Z) (ranges : list Range) (noOverlap : bool)
  : res range_err (list Range) :=
  match specs with
  | [] => if noOverlap && bool_decide (ranges = []) then Err ErrNoOverlap else Ok ranges
  | ra :: specs' =>
      let ra := trimString ra in
      if seqb ra "" then parseSpecs specs' size ranges noOverlap
      else
        match parseSpec ra size with
        | Err e => Err e
        | Ok None => parseSpecs specs' size ranges true
        | Ok (Some r) => parseSpecs specs' size (ranges ++ [r]) noOverlap
        end
  end.

Definition parseRange (s : gostr) (size : Z) : res range_err (list Range) :=
  if seqb s "" then Ok []
  else if negb (hasPrefix s "bytes=") then Err ErrInvalid
  else parseSpecs (splitByte (drop 6 s) ",") size [] false.

(** s[lo:hi]; [None] is the out-of-range panic. *)
Definition sliceStr (s : gostr) (lo hi : nat) : option gostr :=
  if (lo <=? hi)%nat && (hi <=? length s)%nat then Some (take (hi - lo) (drop lo s)) else None.

(** The result is the pair of numbers and the error; [None] is a panic. *)
Definition parseContentRange (s : gostr) : option (Z * Z * option range_err) :=
  if seqb s "" then Some (0, 0, Some ErrInvalid)
  else if negb (hasPrefix s "bytes ") then Some (0, 0, Some ErrInvalid)
  else
    match index s "-", index s "/" with
    | Some p1, Some p2 =>
        let! a := sliceStr s 6 p1 in
        let! b := sliceStr s (S p1) p2 in
        let '(start, startErr) := parseInt (trimString a) in
        let '(fin, endErr) := parseInt (trimString b) in
        Some (start, fin,
              if bool_decide (startErr = None) && bool_decide (endErr = None) then None
              else Some (NumErr startErr endErr))
    | _, _ => Some (0, 0, Some ErrInvalid)
    end.

(** A header: canonical key to values. *)
Abbreviation Header := (gmap gostr (list gostr)).

Definition header_get (h : Header) (k : gostr) : gostr :=
  match h !! k with Some (v :: _) => v | _ => [] end.

Definition applyRangeToHttpHeader (p : Range) (headerRef : option Header) : Header :=
  let header := match headerRef with Some h => h | None => ∅ end in
  if (Start p =? 0) && (Length p <? 0) then delete ("Range" : gostr) header
  else
    let fin := if 0 <=? Length p then formatInt (i64 (i64 (Start p + Length p) - 1)) else [] in
    <[("Range" : gostr) := [("bytes=" : gostr) ++ formatInt (Start p) ++ "-" ++ fin]]> header.

Example pr1 : parseRange "bytes=0-4, 7-, -3 ,20-" 10 =
  Ok [mkRange 0 5; mkRange 7 3; mkRange 7 3].
Proof. vm_compute. reflexivity. Qed.
Example pr2 : parseRange "bytes=10-" 10 = Err ErrNoOverlap.
Proof. vm_compute. reflexivity. Qed.
Example pcr1 : parseContentRange "bytes 5-9/100" = Some (5, 9, None).
Proof. vm_compute. reflexivity. Qed.

(** ** Lemmas *)
Definition range_in (size : Z) (r : Range) : Prop :=
  0 <= Start r /\ 0 <= Length r /\ Start r + Length r <= size.

Lemma parseSpec_in ra size r :
  0 <= size -> i64_ok size -> parseSpec ra size = Ok (Some r) -> range_in size r.
Proof.
  unfold i64_ok, parseSpec, range_in. intros Hs Hsz H.
  repeat (destr_in H; try done); simplify_eq/=; bool_hyps;
    repeat match goal with
    | E : parseInt _ = (?i, ?e), Hn : ¬ (?e ≠ None) |- _ =>
        destruct e; [exfalso; by apply Hn|]; apply parseInt_range in E; unfold i64_ok in E
    end; i64_norm; lia.
Qed.

Lemma parseSpecs_in specs size ranges b l :
  0 <= size -> i64_ok size -> Forall (range_in size) ranges ->
  parseSpecs specs size ranges b = Ok l -> Forall (range_in size) l.
Proof.
  intros Hs Hsz. revert ranges b. induction specs as [|ra specs IH]; simpl; intros ranges b Hr H.
  - destr_in H; [done|]. by simplify_eq.
  - destr_in H; [by eapply IH|]. destr_in H; [|done].
    destruct a as [r|]; [|by eapply IH].
    eapply IH; [|done]. apply Forall_app. split; [done|]. constructor; [|done].
    by eapply parseSpec_in.
Qed.

Lemma formatInt_digit_or_minus n :
  Forall (fun c => is_digit c \/ c = "-"%char) (formatInt n).
Proof.
  unfold formatInt. destr_goal; bool_hyps; [constructor; [by right|]|];
    (eapply Forall_impl; [apply formatUint_digits; lia|]; by left).
Qed.

Lemma formatInt_nonneg_digits n : 0 <= n -> Forall is_digit (formatInt n).
Proof.
  intros H. unfold formatInt. rewrite (proj2 (Z.ltb_ge _ _)) by lia.
  by apply formatUint_digits.
Qed.

Lemma digits_no_char s c : Forall is_digit s -> ~ is_digit c -> c ∉ s.
Proof. rewrite Forall_forall. intros H Hc Hin. by apply Hc, H. Qed.

Lemma digits_trim s : Forall is_digit s -> trimString s = s.
Proof.
  intros H. apply trimBytes_id. eapply Forall_impl; [done|].
  unfold is_digit, isASCIISpace. intros c Hc.
  rewrite !(proj2 (Z.eqb_neq _ _)) by lia. done.
Qed.

Lemma formatInt_not_nil n : formatInt n <> [].
Proof. unfold formatInt. destr_goal; [done|]. apply formatUint_not_nil. Qed.

Lemma sliceStr_mid p m t lo hi :
  lo = length p -> hi = (length p + length m)%nat -> sliceStr (p ++ m ++ t) lo hi = Some m.
Proof.
  intros -> ->. unfold sliceStr. rewrite !length_app.
  rewrite !(proj2 (Nat.leb_le _ _)) by lia. cbn [andb]. rewrite drop_app_length.
  replace (_ - _)%nat with (length m) by lia. by rewrite take_app_length.
Qed.

Lemma digits_parse_spec start fin size i :
  Forall is_digit start -> start <> [] ->
  parseInt start = (i, None) -> 0 <= i < size ->
  Forall is_digit fin ->
  parseSpec (start ++ "-" ++ fin) size =
    if seqb fin "" then Ok (Some (mkRange i (i64 (size - i))))
    else
      let '(j, err) := parseInt fin in
      if bool_decide (err <> None) || (j <? i) then Err ErrInvalid
      else
        let j := if size <=? j then i64 (size - 1) else j in
        Ok (Some (mkRange i (i64 (i64 (j - i) + 1)))).
Proof.
  intros Hs Hne Hp Hi Hf. unfold parseSpec.
  change ("-" ++ fin) with ("-"%char :: fin).
  rewrite cutByte_app by (apply digits_no_char; [done|by apply not_digit]).
  cbn [negb]. rewrite !digits_trim, (proj2 (seqb_false _ _)), Hp by done.
  rewrite bool_decide_eq_false_2 by (intros H; by apply H).
  rewrite (proj2 (Z.ltb_ge _ _)), (proj2 (Z.leb_gt _ _)) by lia. done.
Qed.

Lemma digits_or_minus_no_comma start fin :
  Forall is_digit start -> Forall is_digit fin -> ","%char ∉ start ++ "-" ++ fin.
Proof.
  intros Hs Hf. rewrite !not_elem_of_app.
  repeat split; try (apply digits_no_char; [done|by apply not_digit]).
  vm_compute. set_solver.
Qed.

Lemma trimString_spec_id start fin :
  Forall is_digit start -> Forall is_digit fin ->
  trimString (start ++ "-" ++ fin) = start ++ "-" ++ fin.
Proof.
  intros Hs Hf. apply trimBytes_id. rewrite !Forall_app.
  assert (forall s, Forall is_digit s -> Forall (fun c => isASCIISpace c = false) s) as Hd.
  { intros s H. eapply Forall_impl; [done|]. unfold is_digit, isASCIISpace. intros c Hc.
    by rewrite !(proj2 (Z.eqb_neq _ _)) by lia. }
  repeat split; [by apply Hd| |by apply Hd]. by constructor.
Qed.

Lemma parseRange_one start fin size :
  Forall is_digit start -> Forall is_digit fin ->
  parseRange ("bytes=" ++ start ++ "-" ++ fin) size =
    match parseSpec (start ++ "-" ++ fin) size with
    | Err e => Err e
    | Ok None => Err ErrNoOverlap
    | Ok (Some r) => Ok [r]
    end.
Proof.
  intros Hs Hf. unfold parseRange.
  rewrite (proj2 (seqb_false _ _)) by done. rewrite hasPrefix_same. cbn [negb].
  rewrite (drop_app_length ("bytes=" : gostr) _ : drop 6 _ = _).
  rewrite splitByte_nosep by by apply digits_or_minus_no_comma.
  cbn [parseSpecs]. rewrite trimString_spec_id by done.
  rewrite (proj2 (seqb_false _ _)) by (destruct start; done).
  destruct (parseSpec _ _) as [[r|]|]; done.
Qed.

(** ** Properties *)

(** C38: every range [ParseRange] returns lies within the content: its start is
    not negative, its length is not negative and it ends at the size or
    before, for every header string and every size. *)
Theorem parseRange_in_bounds s size l :
  0 <= size <= max_int64 -> parseRange s size = Ok l ->
  Forall (fun r => 0 <= Start r /\ 0 <= Length r /\ Start r + Length r <= size) l.
Proof.
  unfold max_int64, parseRange. intros Hs H. destr_in H; [by simplify_eq|].
  destr_in H; [done|]. eapply parseSpecs_in in H; [done|lia|unfold i64_ok; lia|done].
Qed.

Lemma parseRange_in_bounds_witness :
  Forall (fun r => 0 <= Start r /\ 0 <= Length r /\ Start r + Length r <= 10)
    [mkRange 0 5; mkRange 7 3; mkRange 0 10].
Proof.
  apply (parseRange_in_bounds "bytes=0-4,7-99,-9223372036854775807").
  - vm_compute. split; discriminate.
  - vm_compute. reflexivity.
Defined.

(** The Range header that [ApplyRangeToHttpHeader] writes for an upstream
    request is parsed by [ParseRange] back to the same range: exactly for a
    range of positive length inside the content, and up to the end of the
    content for an unlimited one. *)
Theorem range_header_roundtrip start len size h :
  0 <= start < size -> size <= max_int64 -> 0 < len -> start + len <= size ->
  parseRange (header_get (applyRangeToHttpHeader (mkRange start len) h) "Range") size =
    Ok [mkRange start len] /\
  (0 < start ->
   parseRange (header_get (applyRangeToHttpHeader (mkRange start (-1)) h) "Range") size =
     Ok [mkRange start (size - start)]).
Proof.
  unfold max_int64. intros Hst Hsz Hl Hle.
  unfold applyRangeToHttpHeader, header_get; cbn [Start Length].
  rewrite (proj2 (Z.ltb_ge len 0)), andb_false_r, (proj2 (Z.leb_le 0 len)) by lia.
  i64_norm. split.
  - rewrite lookup_insert_eq, parseRange_one by (apply formatInt_nonneg_digits; lia).
    rewrite (digits_parse_spec _ _ _ start);
      [| apply formatInt_nonneg_digits; lia | apply formatInt_not_nil
       | apply parseInt_formatInt; unfold i64_ok; lia | done
       | apply formatInt_nonneg_digits; lia].
    rewrite (proj2 (seqb_false _ _)) by apply formatInt_not_nil.
    rewrite parseInt_formatInt by (unfold i64_ok; lia).
    rewrite bool_decide_eq_false_2 by (intros H; by apply H).
    rewrite (proj2 (Z.ltb_ge _ _)), (proj2 (Z.leb_gt _ _)) by lia. cbn [orb].
    i64_norm. do 3 f_equal. lia.
  - intros Hpos. rewrite (proj2 (Z.eqb_neq start 0)) by lia. cbn [andb].
    change (0 <=? -1) with false. cbv iota.
    rewrite lookup_insert_eq, parseRange_one by (done || apply formatInt_nonneg_digits; lia).
    rewrite (digits_parse_spec _ _ _ start);
      [| apply formatInt_nonneg_digits; lia | apply formatInt_not_nil
       | apply parseInt_formatInt; unfold i64_ok; lia | done | done].
    change (seqb [] "") with true. cbv iota. by i64_norm.
Qed.

Lemma range_header_roundtrip_witness :
  (0 <= 3 < 100 /\ 0 < 7 /\ 3 + 7 <= 100) /\
  parseRange (header_get (applyRangeToHttpHeader (mkRange 3 7) None) "Range") 100 =
    Ok [mkRange 3 7].
Proof.
  split; [lia|].
  refine (proj1 (range_header_roundtrip 3 7 100 None _ _ _ _)); try lia.
  vm_compute. discriminate.
Defined.

(** [ParseContentRange] inverts [Range.ContentRange]: it returns the first
    and the last byte position without an error and without a slice panic. *)
Theorem contentRange_roundtrip r size :
  0 <= Start r -> 0 < Length r -> Start r + Length r <= max_int64 -> 0 <= size <= max_int64 ->
  parseContentRange (contentRange r size) = Some (Start r, Start r + Length r - 1, None).
Proof.
  unfold max_int64. intros Hs Hl Hsl Hsz. unfold contentRange. i64_norm.
  set (a := formatInt (Start r)). set (b := formatInt (Start r + Length r - 1)).
  set (c := formatInt size).
  assert (Ha : Forall is_digit a) by (apply formatInt_nonneg_digits; lia).
  assert (Hb : Forall is_digit b) by (apply formatInt_nonneg_digits; lia).
  assert (Hna : forall x, Forall is_digit x -> "-"%char ∉ x /\ "/"%char ∉ x).
  { intros x Hx. split; apply digits_no_char; try done; by apply not_digit. }
  unfold parseContentRange.
  rewrite (proj2 (seqb_false _ _)) by done. rewrite hasPrefix_same. cbn [negb].
  assert (Hi1 : index ("bytes " ++ a ++ "-" ++ b ++ "/" ++ c) "-" = Some (6 + length a)%nat).
  { rewrite (assoc_L (++) ("bytes " : gostr)).
    rewrite (index_app (("bytes " : gostr) ++ a) "-"); [|intros x Hx [= ->]|done].
    - rewrite length_app. done.
    - apply elem_of_app in Hx as [Hx|Hx]; [vm_compute in Hx; set_solver|]. by destruct (Hna a Ha). }
  assert (Hi2 : index ("bytes " ++ a ++ "-" ++ b ++ "/" ++ c) "/" =
                Some (6 + length a + 1 + length b)%nat).
  { rewrite !(assoc_L (++)), <- (assoc_L (++) _ ("/" : gostr) c).
    rewrite (index_app _ "/"); [|intros x Hx [= ->]|done].
    - rewrite !length_app. change (length "bytes ") with 6%nat.
      change (length "-") with 1%nat. f_equal; lia.
    - rewrite !elem_of_app in Hx.
      destruct Hx as [[[Hx|Hx]|Hx]|Hx];
        [vm_compute in Hx; set_solver | by destruct (Hna a Ha) | vm_compute in Hx; set_solver
        | by destruct (Hna b Hb)]. }
  rewrite Hi1, Hi2.
  rewrite (sliceStr_mid "bytes " a _ 6 (6 + length a)) by done.
  rewrite (assoc_L (++) a), (assoc_L (++) ("bytes " : gostr)).
  rewrite (sliceStr_mid _ b) by (rewrite !length_app; change (length "bytes ") with 6%nat;
    change (length "-") with 1%nat; lia).
  cbn [mbind option_bind]. rewrite !digits_trim by done. unfold a, b.
  rewrite !parseInt_formatInt by (unfold i64_ok; lia). done.
Qed.

Lemma contentRange_roundtrip_witness :
  parseContentRange (contentRange (mkRange 5 5) 100) = Some (5, 5 + 5 - 1, None).
Proof. apply (contentRange_roundtrip (mkRange 5 5) 100); vm_compute; repeat split; discriminate. Defined.
