(* ===== verification/Precond.v ===== *)
(** [internal/net/preconditions.go]: ETag scanning and matching, the five
    conditional request headers and CheckPreconditions. A time is its number
    of nanoseconds since the Unix epoch; http.ParseTime and the Last-Modified
    format are parameters. *)
From S2P Require Import Prelude GoString HttpRange.

(** The request fields and the response writer the code touches. [hdr] is the
    header map of the writer, [sent] its copy when the status was written. *)
Record Request := mkReq { Method : gostr; rhdr : Header; ctxCanceled : bool }.
Record RespW := mkResp { hdr : Header; status : option Z; sent : Header; body : gostr }.

Definition set_hdr (w : RespW) (h : Header) : RespW := mkResp h (status w) (sent w) (body w).
Definition header_set (h : Header) (k v : gostr) : Header := <[k := [v]]> h.
Definition del_req (r : Request) (k : gostr) : Request :=
  mkReq (Method r) (delete k (rhdr r)) (ctxCanceled r).

(** ResponseWriter.WriteHeader: only the first final status counts. *)
Definition writeHeader (w : RespW) (code : Z) : RespW :=
  match status w with
  | Some _ => w
  | None => mkResp (hdr w) (Some code) (hdr w) (body w)
  end.

Fixpoint scanETagLoop (s : gostr) : option (gostr * gostr) :=
  match s with
  | [] => None
  | c :: s' =>
      let v := byte_val c in
      if (v =? 33) || ((35 <=? v) && (v <=? 126)) || (128 <=? v) then
        match scanETagLoop s' with
        | Some (t, rest) => Some (c :: t, rest)
        | None => None
        end
      else if v =? 34 then Some ([c], s')
      else None
  end.

Definition dquote : ascii := ascii_of_nat 34.

(** Returns the ETag and the remaining text, or two empty strings. *)
Definition scanETag (s : gostr) : gostr * gostr :=
  let s := trimString s in
  let start := if hasPrefix s "W/" then 2%nat else 0%nat in
  match drop start s with
  | q :: (_ :: _) as rest =>
      if bool_decide (q = dquote) then
        match scanETagLoop rest with
        | Some (t, remain) => (take (S start) s ++ t, remain)
        | None => ([], [])
        end
      else ([], [])
  | _ => ([], [])
  end.

Definition etagStrongMatch (a b : gostr) : bool :=
  seqb a b && match a with c :: _ => bool_decide (c = dquote) | [] => false end.

Definition etagWeakMatch (a b : gostr) : bool := seqb (trimPrefix a "W/") (trimPrefix b "W/").

Inductive condResult := condNone | condTrue | condFalse.

(** The scanning loop of checkIfMatch and checkIfNoneMatch: [found] is the
    result for "*" and for a matching ETag, [notFound] at the end of the list.
    [None] means that the fuel ran out. *)
Fixpoint etagLoop (matches : gostr -> bool) (found notFound : condResult) (fuel : nat) (im : gostr)
  : option condResult :=
  match fuel with
  | O => None
  | S f =>
      match trimString im with
      | [] => Some notFound
      | c :: im' =>
          if bool_decide (c = ","%char) then etagLoop matches found notFound f im'
          else if bool_decide (c = "*"%char) then Some found
          else
            let '(etag, remain) := scanETag (c :: im') in
            if seqb etag "" then Some notFound
            else if matches etag then Some found
            else etagLoop matches found notFound f remain
      end
  end.

Definition runEtagLoop matches found notFound (im : gostr) : condResult :=
  default notFound (etagLoop matches found notFound (S (length im)) im).

Definition header_values (h : Header) (k : gostr) : list gostr := default [] (h !! k).

Definition checkIfMatch (w : RespW) (r : Request) (exists_ : bool) : condResult * Request :=
  let values := header_values (rhdr r) "If-Match" in
  match values with
  | [] => (condNone, r)
  | _ =>
      let im := joinStr values "," in
      let r := del_req r "If-Match" in
      if negb exists_ then (condFalse, r)
      else (runEtagLoop (fun e => etagStrongMatch e (header_get (hdr w) "Etag"))
              condTrue condFalse im, r)
  end.

Definition checkIfNoneMatch (w : RespW) (r : Request) (exists_ : bool) : condResult * Request :=
  let values := header_values (rhdr r) "If-None-Match" in
  match values with
  | [] => (condNone, r)
  | _ =>
      let inm := joinStr values "," in
      let r := del_req r "If-None-Match" in
      if negb exists_ then (condTrue, r)
      else (runEtagLoop (fun e => etagWeakMatch e (header_get (hdr w) "Etag"))
              condFalse condTrue inm, r)
  end.

(** The zero time is January 1 of year 1. *)
Definition zeroTime : Z := -62135596800 * 10 ^ 9.
Definition isZeroTime (t : Z) : bool := (t =? zeroTime) || (t =? 0).
Definition truncSecond (t : Z) : Z := t - t mod 10 ^ 9.
Definition unixSeconds (t : Z) : Z := t / 10 ^ 9.

Definition isGetOrHead (r : Request) : bool := seqb (Method r) "GET" || seqb (Method r) "HEAD".

Section Preconditions.
Variable parseTime : gostr -> option Z.
Variable formatTime : Z -> gostr.

Definition checkIfUnmodifiedSince (r : Request) (modtime : Z) : condResult * Request :=
  let ius := header_get (rhdr r) "If-Unmodified-Since" in
  if seqb ius "" then (condNone, r)
  else
    let r := del_req r "If-Unmodified-Since" in
    if isZeroTime modtime then (condNone, r)
    else match parseTime ius with
         | None => (condNone, r)
         | Some t => (if truncSecond modtime <=? t then condTrue else condFalse, r)
         end.

Definition checkIfModifiedSince (r : Request) (modtime : Z) : condResult * Request :=
  if negb (isGetOrHead r) then (condNone, r)
  else
    let ims := header_get (rhdr r) "If-Modified-Since" in
    if seqb ims "" then (condNone, r)
    else
      let r := del_req r "If-Modified-Since" in
      if isZeroTime modtime then (condNone, r)
      else match parseTime ims with
           | None => (condNone, r)
           | Some t => (if truncSecond modtime <=? t then condFalse else condTrue, r)
           end.

Definition checkIfRange (w : RespW) (r : Request) (modtime : Z) : condResult * Request :=
  if negb (isGetOrHead r) then (condNone, r)
  else
    let ir := header_get (rhdr r) "If-Range" in
    if seqb ir "" then (condNone, r)
    else
      let r := del_req r "If-Range" in
      let '(etag, _) := scanETag ir in
      if negb (seqb etag "") then
        (if etagStrongMatch etag (header_get (hdr w) "Etag") then condTrue else condFalse, r)
      else if modtime =? zeroTime then (condFalse, r)
      else match parseTime ir with
           | None => (condFalse, r)
           | Some t => (if unixSeconds t =? unixSeconds modtime then condTrue else condFalse, r)
           end.

Definition setLastModified (w : RespW) (modtime : Z) : RespW :=
  if negb (isZeroTime modtime) then
    set_hdr w (header_set (hdr w) "Last-Modified" (formatTime modtime))
  else w.

Definition writeNotModified (w : RespW) : RespW :=
  let h := delete ("Content-Type" : gostr) (hdr w) in
  let h := delete ("Content-Length" : gostr) h in
  let h := delete ("Content-Encoding" : gostr) h in
  let h := if negb (seqb (header_get h "Etag") "") then delete ("Last-Modified" : gostr) h else h in
  writeHeader (set_hdr w h) 304.

(** The result: done, the Range header to honour, the writer and the request. *)
Definition checkPreconditions (w : RespW) (r : Request) (modtime : Z) (exists_ : bool)
  : bool * gostr * RespW * Request :=
  let '(ch, r) := checkIfMatch w r exists_ in
  let '(ch, r) := match ch with
                  | condNone => checkIfUnmodifiedSince r modtime
                  | _ => (ch, r)
                  end in
  match ch with
  | condFalse => (true, [], writeHeader w 412, r)
  | _ =>
      let finish (r : Request) :=
        let rangeHeader := header_get (rhdr r) "Range" in
        if negb (seqb rangeHeader "") then
          match checkIfRange w r modtime with
          | (condFalse, r) => (false, [], w, r)
          | (_, r) => (false, rangeHeader, w, r)
          end
        else (false, rangeHeader, w, r) in
      match checkIfNoneMatch w r exists_ with
      | (condFalse, r) =>
          if isGetOrHead r then (true, [], writeNotModified w, r)
          else (true, [], writeHeader w 412, r)
      | (condNone, r) =>
          match checkIfModifiedSince r modtime with
          | (condFalse, r) => (true, [], writeNotModified w, r)
          | (_, r) => finish r
          end
      | (condTrue, r) => finish r
      end
  end.
End Preconditions.

Example scan_ex : scanETag (bytes_of [32; 87; 47; 34; 97; 98; 34; 44; 120]) =
  (bytes_of [87; 47; 34; 97; 98; 34], bytes_of [44; 120]).
Proof. vm_compute. reflexivity. Qed.

(** ** Lemmas: scanning *)
Lemma scanETagLoop_length s t rest :
  scanETagLoop s = Some (t, rest) -> s = t ++ rest /\ t <> [].
Proof.
  revert t rest. induction s as [|c s IH]; simpl; intros t rest H; [done|].
  destr_in H.
  - destruct (scanETagLoop s) as [[t' rest']|]; [|done]. simplify_eq.
    destruct (IH _ _ eq_refl) as [-> _]. done.
  - destr_in H; [|done]. by simplify_eq.
Qed.

Lemma scanETag_spec s t rest :
  scanETag s = (t, rest) -> t <> [] -> trimString s = t ++ rest.
Proof.
  unfold scanETag. intros H Ht.
  set (q := trimString s) in *. set (n := if hasPrefix q "W/" then 2%nat else 0%nat) in *.
  destruct (drop n q) as [|d [|e l]] eqn:Ed; [by simplify_eq..|].
  destr_in H; [|by simplify_eq].
  destruct (scanETagLoop (e :: l)) as [[u v]|] eqn:El; [|by simplify_eq].
  injection H as <- <-. apply scanETagLoop_length in El as [El _].
  rewrite <- (assoc_L (++)), <- El.
  rewrite <- (take_drop n q) at 1. rewrite Ed.
  rewrite (take_S_r q n d); [by rewrite <- (assoc_L (++))|].
  rewrite <- (Nat.add_0_r n), <- lookup_drop, Ed. done.
Qed.

Lemma etagLoop_total m a b fuel im :
  (length im < fuel)%nat -> exists c, etagLoop m a b fuel im = Some c.
Proof.
  revert im. induction fuel as [|f IH]; intros im Hf; [lia|]. simpl.
  pose proof (trimBytes_length isASCIISpace im) as Ht. fold (trimString im) in Ht.
  destruct (trimString im) as [|c im'] eqn:E; [eauto|]. simpl in Ht.
  case_bool_decide; [apply IH; lia|]. case_bool_decide; [eauto|].
  destruct (scanETag (c :: im')) as [etag remain] eqn:Es.
  destruct (seqb etag "") eqn:Ee; [eauto|]. destr_goal; [eauto|].
  apply seqb_false in Ee. apply scanETag_spec in Es; [|done].
  pose proof (trimBytes_length isASCIISpace (c :: im')) as Ht'.
  fold (trimString (c :: im')) in Ht'. rewrite Es, length_app in Ht'. simpl in Ht'.
  apply IH. assert (length etag <> 0)%nat by (destruct etag; done). lia.
Qed.

(** ** Lemmas: well-formed ETag lists *)
Definition etagc (c : ascii) : Prop :=
  byte_val c = 33 \/ 35 <= byte_val c <= 126 \/ 128 <= byte_val c.

Definition wf_etag (e : gostr) : Prop :=
  exists (weak : bool) (t : gostr),
    e = (if weak then "W/" else "") ++ dquote :: t ++ [dquote] /\ Forall etagc t.

Definition no_space_ends (s : gostr) : Prop :=
  (forall c, head s = Some c -> isASCIISpace c = false) /\
  (forall c, head (rev s) = Some c -> isASCIISpace c = false).

Lemma trim_leading ws s :
  Forall (fun c => isASCIISpace c = true) ws -> no_space_ends s -> trimString (ws ++ s) = s.
Proof.
  intros Hw [Hh Hl]. unfold trimString, trimBytes.
  assert (dropWhile isASCIISpace (ws ++ s) = s) as ->.
  { induction Hw as [|c ws Hc Hw IH]; simpl; [by apply dropWhile_id | by rewrite Hc]. }
  by rewrite dropWhile_id, rev_involutive.
Qed.

Lemma no_space_trim s : no_space_ends s -> trimString s = s.
Proof. intros H. by apply (trim_leading []). Qed.

Lemma scanETagLoop_body t rest :
  Forall etagc t -> scanETagLoop (t ++ dquote :: rest) = Some (t ++ [dquote], rest).
Proof.
  induction 1 as [|c t Hc Ht IH]; [done|]. simpl.
  assert ((byte_val c =? 33) || ((35 <=? byte_val c) && (byte_val c <=? 126))
          || (128 <=? byte_val c) = true) as ->.
  { rewrite !orb_true_iff, andb_true_iff, Z.eqb_eq, !Z.leb_le. unfold etagc in Hc. tauto. }
  by rewrite IH.
Qed.

Lemma scanETag_wf e rest :
  wf_etag e -> no_space_ends (e ++ rest) -> scanETag (e ++ rest) = (e, rest).
Proof.
  intros (weak & t & -> & Ht) Hn. unfold scanETag. rewrite (no_space_trim _ Hn).
  assert (Hb : exists x l, t ++ dquote :: rest = x :: l) by (destruct t; simpl; eauto).
  destruct Hb as (x & l & Hb). pose proof (scanETagLoop_body t rest Ht) as Hs.
  destruct weak.
  - rewrite <- (assoc_L (++)), hasPrefix_same. cbn [drop].
    rewrite (drop_app_length ("W/" : gostr) _ : drop 2 _ = _).
    rewrite <- app_comm_cons, <- (assoc_L (++)). cbn [app]. rewrite Hb.
    rewrite bool_decide_eq_true_2 by done. rewrite <- Hb, Hs. done.
  - change (("" : gostr) ++ ?x) with x.
    assert (hasPrefix ((dquote :: t ++ [dquote]) ++ rest) "W/" = false) as -> by done.
    rewrite <- app_comm_cons, <- (assoc_L (++)). cbn [drop app]. rewrite Hb.
    rewrite bool_decide_eq_true_2 by done. rewrite <- Hb, Hs. done.
Qed.

Lemma wf_etag_head e : wf_etag e -> exists c e', e = c :: e' /\
  isASCIISpace c = false /\ c <> ","%char /\ c <> "*"%char.
Proof. intros ([] & t & -> & _); simpl; eexists _, _; done. Qed.

Lemma wf_etag_last e : wf_etag e -> head (rev e) = Some dquote.
Proof.
  intros (w & t & -> & _).
  by rewrite app_comm_cons, (assoc_L (++)), rev_app_distr.
Qed.

Lemma wf_join_ends l sep :
  l <> [] -> Forall wf_etag l -> no_space_ends (joinStr l sep).
Proof.
  intros Hl Hf.
  assert (head (rev (joinStr l sep)) = Some dquote /\
          exists c, head (joinStr l sep) = Some c /\ isASCIISpace c = false) as [H1 H2].
  { induction Hf as [|e l He Hf IH]; [done|].
    destruct (wf_etag_head e He) as (c & e' & -> & Hc & _).
    destruct l as [|e2 l]; [split; [by apply wf_etag_last | by exists c]|].
    destruct IH as [IH _]; [done|]. rewrite joinStr_cons by done.
    split; [|by exists c]. rewrite !rev_app_distr.
    destruct (rev (joinStr (e2 :: l) sep)); [done|exact IH]. }
  destruct H2 as (c & H2 & Hc). split; intros d Hd; [congruence|].
  rewrite H1 in Hd. by injection Hd as <-.
Qed.

(** On a list of well-formed ETags separated by commas and spaces the loop
    looks for the first match. *)
Lemma etagLoop_list m found notFound ws l fuel :
  Forall (fun c => isASCIISpace c = true) ws -> Forall wf_etag l -> l <> [] ->
  (length (joinStr l (","%char :: ws)) < fuel)%nat ->
  etagLoop m found notFound fuel (joinStr l (","%char :: ws)) =
    Some (if existsb m l then found else notFound).
Proof.
  intros Hw. revert fuel. induction l as [|e l IH]; intros fuel Hf Hne Hfuel; [done|].
  set (sep := ","%char :: ws) in *.
  pose proof (wf_join_ends (e :: l) sep ltac:(done) Hf) as Hends.
  apply Forall_cons in Hf as [He Hf].
  destruct (wf_etag_head e He) as (c & e' & Hce & _ & Hc1 & Hc2).
  destruct fuel as [|fuel]; [lia|]. cbn [etagLoop]. rewrite (no_space_trim _ Hends).
  assert (Hj : exists rest, joinStr (e :: l) sep = e ++ rest /\
            rest = match l with [] => [] | _ => sep ++ joinStr l sep end).
  { destruct l; [exists []; by rewrite app_nil_r | by eexists]. }
  destruct Hj as (rest & Hj & Hrest). rewrite Hj in *.
  replace (e ++ rest) with (c :: e' ++ rest) in * by (by subst e).
  rewrite !bool_decide_eq_false_2 by done.
  replace (c :: e' ++ rest) with (e ++ rest) in * by (by subst e).
  rewrite scanETag_wf by done. rewrite (proj2 (seqb_false e "")) by (by subst e).
  cbn [existsb]. destruct (m e) eqn:Em; [done|]. cbn [orb].
  rewrite length_app in Hfuel. assert (length e <> 0)%nat by (by subst e).
  destruct l as [|e2 l]; subst rest.
  - destruct fuel as [|fuel]; [simpl in *; lia|]. done.
  - pose proof (wf_join_ends (e2 :: l) sep ltac:(done) Hf) as Hends2.
    rewrite length_app in Hfuel.
    destruct fuel as [|fuel]; [lia|]. cbn [etagLoop].
    rewrite no_space_trim.
    + subst sep. cbn [app length] in *. rewrite bool_decide_eq_true_2 by done.
      destruct fuel as [|fuel]; [lia|].
      rewrite <- (IH (S fuel)) by (done || lia).
      cbn [etagLoop]. by rewrite trim_leading, (no_space_trim (joinStr _ _)).
    + subst sep. split; [by intros ? [= <-]|].
      destruct Hends2 as [_ Hl]. intros d Hd. apply Hl.
      rewrite rev_app_distr in Hd.
      destruct (rev (joinStr (e2 :: l) _)) eqn:Er; [|exact Hd].
      apply (f_equal length) in Er. rewrite length_rev in Er.
      apply Forall_cons in Hf as [He2 _].
      destruct (wf_etag_head e2 He2) as (c2 & e2' & -> & _). destruct l; done.
Qed.

Lemma runEtagLoop_list m found notFound ws l :
  Forall (fun c => isASCIISpace c = true) ws -> Forall wf_etag l -> l <> [] ->
  runEtagLoop m found notFound (joinStr l (","%char :: ws)) =
    if existsb m l then found else notFound.
Proof. intros. unfold runEtagLoop. by rewrite etagLoop_list by (done || lia). Qed.

(** ** Lemmas: the deletions do not interfere *)
Lemma header_get_del r k k' : k <> k' -> header_get (rhdr (del_req r k)) k' = header_get (rhdr r) k'.
Proof. intros H. unfold header_get, del_req; simpl. by rewrite lookup_delete_ne. Qed.

Lemma header_values_del r k k' :
  k <> k' -> header_values (rhdr (del_req r k)) k' = header_values (rhdr r) k'.
Proof. intros H. unfold header_values, del_req; simpl. by rewrite lookup_delete_ne. Qed.

Lemma isGetOrHead_del r k : isGetOrHead (del_req r k) = isGetOrHead r.
Proof. done. Qed.

(** A condition leaves the request alone or deletes the header it read. *)
Definition only_deletes (r r' : Request) (k : gostr) : Prop := r' = r \/ r' = del_req r k.

Lemma checkIfMatch_del w r e : only_deletes r (snd (checkIfMatch w r e)) "If-Match".
Proof. unfold checkIfMatch, only_deletes. repeat destr_goal; simpl; tauto. Qed.

Lemma checkIfNoneMatch_del w r e : only_deletes r (snd (checkIfNoneMatch w r e)) "If-None-Match".
Proof. unfold checkIfNoneMatch, only_deletes. repeat destr_goal; simpl; tauto. Qed.

Lemma checkIfUnmodifiedSince_del p r t :
  only_deletes r (snd (checkIfUnmodifiedSince p r t)) "If-Unmodified-Since".
Proof. unfold checkIfUnmodifiedSince, only_deletes. repeat destr_goal; simpl; tauto. Qed.

Lemma checkIfModifiedSince_del p r t :
  only_deletes r (snd (checkIfModifiedSince p r t)) "If-Modified-Since".
Proof. unfold checkIfModifiedSince, only_deletes. repeat destr_goal; simpl; tauto. Qed.

(** Two requests that agree on the method and on one header. *)
Definition agree (k : gostr) (r r' : Request) : Prop :=
  Method r = Method r' /\ rhdr r !! k = rhdr r' !! k.

Lemma agree_del k k' r r' : k' <> k -> only_deletes r r' k -> agree k' r' r.
Proof.
  intros Hk [->| ->]; [done|]. split; [done|]. unfold del_req; simpl.
  by rewrite lookup_delete_ne.
Qed.

Lemma agree_trans k r1 r2 r3 : agree k r1 r2 -> agree k r2 r3 -> agree k r1 r3.
Proof. unfold agree. intros [-> ->] [-> ->]. done. Qed.

Lemma checkIfNoneMatch_agree w r r' e :
  agree "If-None-Match" r r' -> fst (checkIfNoneMatch w r e) = fst (checkIfNoneMatch w r' e).
Proof.
  intros [_ H]. unfold checkIfNoneMatch, header_values. rewrite H. by repeat destr_goal.
Qed.

Lemma checkIfUnmodifiedSince_agree p r r' t :
  agree "If-Unmodified-Since" r r' ->
  fst (checkIfUnmodifiedSince p r t) = fst (checkIfUnmodifiedSince p r' t).
Proof.
  intros [_ H]. unfold checkIfUnmodifiedSince, header_get. rewrite H. by repeat destr_goal.
Qed.

Lemma checkIfModifiedSince_agree p r r' t :
  agree "If-Modified-Since" r r' ->
  fst (checkIfModifiedSince p r t) = fst (checkIfModifiedSince p r' t).
Proof.
  intros [Hm H]. unfold checkIfModifiedSince, isGetOrHead, header_get.
  rewrite H, Hm. by repeat destr_goal.
Qed.

Lemma checkIfRange_agree p w r r' t :
  agree "If-Range" r r' -> fst (checkIfRange p w r t) = fst (checkIfRange p w r' t).
Proof.
  intros [Hm H]. unfold checkIfRange, isGetOrHead, header_get.
  rewrite H, Hm. by repeat destr_goal.
Qed.

(** The decision of RFC 9110 13.2.2, each condition evaluated on the request
    as it arrived. *)
Definition precond_spec (p : gostr -> option Z) (w : RespW) (r : Request) (modtime : Z) (ex : bool)
  : bool * gostr * RespW :=
  let im := fst (checkIfMatch w r ex) in
  let pre := match im with condNone => fst (checkIfUnmodifiedSince p r modtime) | _ => im end in
  let inm := fst (checkIfNoneMatch w r ex) in
  let range := header_get (rhdr r) "Range" in
  match pre, inm, fst (checkIfModifiedSince p r modtime), fst (checkIfRange p w r modtime) with
  | condFalse, _, _, _ => (true, [], writeHeader w 412)
  | _, condFalse, _, _ =>
      (true, [], if isGetOrHead r then writeNotModified w else writeHeader w 412)
  | _, condNone, condFalse, _ => (true, [], writeNotModified w)
  | _, _, _, condFalse => (false, [], w)
  | _, _, _, _ => (false, range, w)
  end.

(** The tail of CheckPreconditions on a request [r'] that still has the Range
    and If-Range headers of [r]. *)
Lemma range_tail p w r r' modtime :
  agree "Range" r' r -> agree "If-Range" r' r ->
  (let rangeHeader := header_get (rhdr r') "Range" in
   fst (if negb (seqb rangeHeader "") then
          match checkIfRange p w r' modtime with
          | (condFalse, q) => (false, [], w, q)
          | (_, q) => (false, rangeHeader, w, q)
          end
        else (false, rangeHeader, w, r'))) =
  match fst (checkIfRange p w r modtime) with
  | condFalse => (false, [], w)
  | _ => (false, header_get (rhdr r) "Range", w)
  end.
Proof.
  intros [_ Hr] Hi. cbv zeta. rewrite <- (checkIfRange_agree p w r' r modtime Hi).
  assert (header_get (rhdr r') "Range" = header_get (rhdr r) "Range") as ->
    by (unfold header_get; by rewrite Hr).
  destruct (checkIfRange p w r' modtime) as [c q]. cbn [fst].
  destruct (seqb _ "") eqn:E; [|by destruct c].
  apply seqb_true in E. rewrite E. by destruct c.
Qed.

Lemma checkPreconditions_eq p w r modtime ex :
  fst (checkPreconditions p w r modtime ex) = precond_spec p w r modtime ex.
Proof.
  unfold checkPreconditions, precond_spec.
  pose proof (checkIfMatch_del w r ex) as D1.
  destruct (checkIfMatch w r ex) as [c1 r1]. cbn [fst snd] in *.
  pose proof (checkIfUnmodifiedSince_del p r1 modtime) as D2.
  assert (A2 : fst (checkIfUnmodifiedSince p r1 modtime) = fst (checkIfUnmodifiedSince p r modtime))
    by (apply checkIfUnmodifiedSince_agree; by apply (agree_del "If-Match")).
  destruct (checkIfUnmodifiedSince p r1 modtime) as [c2 r2]. cbn [fst snd] in *. rewrite <- A2.
  set (rr := match c1 with condNone => r2 | _ => r1 end).
  assert (Hpair : (match c1 with condNone => (c2, r2) | _ => (c1, r1) end)
                  = (match c1 with condNone => c2 | _ => c1 end, rr)) by by destruct c1.
  rewrite Hpair. clear Hpair.
  assert (Hag : forall k : gostr, k <> "If-Match" -> k <> "If-Unmodified-Since" -> agree k rr r).
  { intros k H1 H2. assert (agree k r1 r) by (by apply (agree_del "If-Match")).
    unfold rr. destruct c1; [|done|done]. eapply agree_trans; [|done].
    by apply (agree_del "If-Unmodified-Since"). }
  clearbody rr. clear D1 D2 A2 r1 r2.
  rewrite <- (checkIfNoneMatch_agree w rr r ex) by by apply Hag.
  pose proof (checkIfNoneMatch_del w rr ex) as D3.
  destruct (checkIfNoneMatch w rr ex) as [c3 r3]. cbn [fst snd] in *.
  assert (Hag3 : forall k : gostr, k <> "If-Match" -> k <> "If-Unmodified-Since" ->
                 k <> "If-None-Match" -> agree k r3 r).
  { intros k H1 H2 H3. eapply agree_trans; [|by apply Hag].
    by apply (agree_del "If-None-Match"). }
  rewrite <- (checkIfModifiedSince_agree p r3 r modtime) by by apply Hag3.
  pose proof (checkIfModifiedSince_del p r3 modtime) as D4.
  destruct (checkIfModifiedSince p r3 modtime) as [c4 r4]. cbn [fst snd] in *.
  assert (Hm : isGetOrHead r3 = isGetOrHead r).
  { unfold isGetOrHead. by destruct (Hag3 "Range") as [-> _]. }
  assert (Hag4 : forall k : gostr, k <> "If-Match" -> k <> "If-Unmodified-Since" ->
                 k <> "If-None-Match" -> k <> "If-Modified-Since" -> agree k r4 r).
  { intros k H1 H2 H3 H4. eapply agree_trans; [|by apply Hag3].
    by apply (agree_del "If-Modified-Since"). }
  pose proof (range_tail p w r r3 modtime ltac:(by apply Hag3) ltac:(by apply Hag3)) as T3.
  pose proof (range_tail p w r r4 modtime ltac:(by apply Hag4) ltac:(by apply Hag4)) as T4.
  cbv zeta in T3, T4. cbv zeta. rewrite Hm.
  destruct c1, c2; try done; destruct c3; try done; try (by rewrite T3);
    try (by destruct (isGetOrHead r)); destruct c4; try done; by rewrite T4.
Qed.

Lemma checkPreconditions_method p w r t ex d b w' r' :
  checkPreconditions p w r t ex = (d, b, w', r') -> Method r' = Method r.
Proof.
  assert (Hd : forall q q' k, only_deletes q q' k -> Method q' = Method q) by by intros q q' k [->| ->].
  assert (Hi : forall q, Method (snd (checkIfRange p w q t)) = Method q).
  { intros q. unfold checkIfRange. by repeat destr_goal. }
  unfold checkPreconditions. intros H.
  pose proof (Hd _ _ _ (checkIfMatch_del w r ex)) as H1.
  destruct (checkIfMatch w r ex) as [c1 r1].
  pose proof (Hd _ _ _ (checkIfUnmodifiedSince_del p r1 t)) as H2.
  destruct (checkIfUnmodifiedSince p r1 t) as [c2 r2].
  set (rr := match c1 with condNone => r2 | _ => r1 end).
  assert (Hpair : (match c1 with condNone => (c2, r2) | _ => (c1, r1) end)
                  = (match c1 with condNone => c2 | _ => c1 end, rr)) by by destruct c1.
  rewrite Hpair in H. clear Hpair. cbn [fst snd] in *.
  assert (Hrr : Method rr = Method r) by (unfold rr; destruct c1; congruence). clearbody rr.
  pose proof (Hd _ _ _ (checkIfNoneMatch_del w rr ex)) as H3.
  destruct (checkIfNoneMatch w rr ex) as [c3 r3]. cbn [fst snd] in *.
  pose proof (Hd _ _ _ (checkIfModifiedSince_del p r3 t)) as H4.
  destruct (checkIfModifiedSince p r3 t) as [c4 r4]. cbn [fst snd] in *.
  pose proof (Hi r3) as Hi3. pose proof (Hi r4) as Hi4.
  cbv zeta in H. destruct (checkIfRange p w r3 t) as [c5 r5], (checkIfRange p w r4 t) as [c6 r6].
  cbn [fst snd] in *.
  repeat destr_in H; injection H as <- <- <- <-; congruence.
Qed.

(** ** Properties *)

(** For any list of well-formed entity tags, [checkIfNoneMatch] answers
    "false" exactly when one of them weakly matches the current ETag, and
    [checkIfMatch] "true" exactly when one strongly matches it; the scanning
    loops stop on every header string. *)
Theorem etag_conditions w r ws l :
  Forall (fun c => isASCIISpace c = true) ws -> Forall wf_etag l -> l <> [] ->
  (rhdr r !! ("If-None-Match" : gostr) = Some [joinStr l (","%char :: ws)] ->
   fst (checkIfNoneMatch w r true) =
     if existsb (fun e => etagWeakMatch e (header_get (hdr w) "Etag")) l
     then condFalse else condTrue) /\
  (rhdr r !! ("If-Match" : gostr) = Some [joinStr l (","%char :: ws)] ->
   fst (checkIfMatch w r true) =
     if existsb (fun e => etagStrongMatch e (header_get (hdr w) "Etag")) l
     then condTrue else condFalse) /\
  (forall m a b im, exists c, etagLoop m a b (S (length im)) im = Some c).
Proof.
  intros Hw Hf Hl. split; [|split].
  - intros H. unfold checkIfNoneMatch, header_values. rewrite H. simpl joinStr.
    simpl fst. by apply runEtagLoop_list.
  - intros H. unfold checkIfMatch, header_values. rewrite H. simpl joinStr.
    simpl fst. by apply runEtagLoop_list.
  - intros. apply etagLoop_total. lia.
Qed.

Definition tag_a : gostr := dquote :: "a" ++ [dquote].
Definition tag_wb : gostr := "W/" ++ dquote :: "b" ++ [dquote].

Lemma etag_conditions_witness :
  let r := mkReq "GET" {[ ("If-None-Match" : gostr) := [joinStr [tag_a; tag_wb] ", "] ]} false in
  let w := mkResp {[ ("Etag" : gostr) := [dquote :: "b" ++ [dquote]] ]} None ∅ [] in
  fst (checkIfNoneMatch w r true) = condFalse.
Proof.
  cbv zeta.
  refine (eq_trans (proj1 (etag_conditions _ _ " " [tag_a; tag_wb] _ _ _) _) _).
  - repeat constructor.
  - apply Forall_cons_2; [exists false, ("a" : gostr)
                         |apply Forall_cons_2; [exists true, ("b" : gostr)|apply Forall_nil_2]];
      (split; [reflexivity|]); (apply Forall_cons_2; [|apply Forall_nil_2]);
      unfold etagc; vm_compute; right; left; split; discriminate.
  - discriminate.
  - apply lookup_singleton_eq.
  - vm_compute. reflexivity.
Defined.

(** [CheckPreconditions] is the RFC 9110 decision table over the five
    conditions evaluated on the request as it arrived: deleting each header
    after reading it never changes a later condition. *)
Theorem checkPreconditions_table p w r modtime ex :
  fst (checkPreconditions p w r modtime ex) = precond_spec p w r modtime ex.
Proof. apply checkPreconditions_eq. Qed.

(** When CheckPreconditions is done it wrote 304 or 412, 304 only for GET
    and HEAD; otherwise it wrote nothing and hands out the request's Range
    header or none. *)
Theorem checkPreconditions_status p w r modtime ex :
  status w = None ->
  match fst (checkPreconditions p w r modtime ex) with
  | (true, range, w') =>
      range = [] /\ (status w' = Some 412 \/ (status w' = Some 304 /\ isGetOrHead r = true))
  | (false, range, w') =>
      w' = w /\ (range = [] \/ range = header_get (rhdr r) "Range")
  end.
Proof.
  intros Hw. assert (fst (checkPreconditions p w r modtime ex) = precond_spec p w r modtime ex) as ->.
  { apply checkPreconditions_eq. }
  unfold precond_spec, writeNotModified, writeHeader. simpl. rewrite Hw.
  assert (Hims : fst (checkIfModifiedSince p r modtime) = condFalse -> isGetOrHead r = true).
  { unfold checkIfModifiedSince. destruct (isGetOrHead r); done. }
  repeat (destr_goal; try done); simpl; eauto 6.
Qed.

Lemma checkPreconditions_status_witness :
  let w := mkResp {[ ("Etag" : gostr) := [tag_a] ]} None ∅ [] in
  let r := mkReq "GET" {[ ("If-None-Match" : gostr) := [tag_a] ]} false in
  status w = None /\
  match fst (checkPreconditions (fun _ => None) w r 0 true) with
  | (true, range, w') =>
      range = [] /\ (status w' = Some 412 \/ (status w' = Some 304 /\ isGetOrHead r = true))
  | (false, range, w') => w' = w /\ (range = [] \/ range = header_get (rhdr r) "Range")
  end.
Proof. split; [reflexivity | apply checkPreconditions_status; reflexivity]. Defined.
