(* ===== verification/Serve.v ===== *)
(** [internal/net/serve.go] and [util.go]: ServeHTTP over a range reader, with
    the multipart/byteranges encoding of [mime/multipart] and the size that
    rangesMIMESize announces, and the header filter of the proxy. A range
    reader is a parameter: it returns an error or the bytes it yields, the
    error its Read ends with and the error of its Close. *)
From S2P Require Import Prelude GoString HttpRange Precond.

(** An error: its text and the HttpStatusCodeError it wraps, if any. *)
Record go_err := mkErr { errText : gostr; errCode : option Z }.
Definition io_EOF : go_err := mkErr "EOF" None.
Definition joinErr (a b : go_err) : go_err :=
  mkErr (errText a ++ bytes_of [10] ++ errText b)
        (match errCode a with Some c => Some c | None => errCode b end).

Record Reader := mkReader { data : gostr; readErr : option go_err; closeErr : option go_err }.

Definition closeWithError (err : option go_err) (rd : Reader) : option go_err :=
  match err, closeErr rd with
  | None, c => c
  | Some e, None => Some e
  | Some e, Some c => Some (joinErr e c)
  end.

(** utils.CopyWithBufferN: what is written and the error. *)
Definition copyWithBufferN (rd : Reader) (n : Z) : gostr * option go_err :=
  let out := take (Z.to_nat n) (data rd) in
  if n <? 0 then ([], None)
  else if slen out =? n then (out, None)
  else match readErr rd with
       | Some e => (out, Some e)
       | None => (out, if slen out <? n then Some io_EOF else None)
       end.

Definition crlf : gostr := bytes_of [13; 10].

(** multipart.Writer.CreatePart for MimeHeader, and Close. *)
Definition partHeader (boundary contentType : gostr) (size : Z) (first : bool) (ra : Range) : gostr :=
  (if first then [] else crlf) ++ "--" ++ boundary ++ crlf ++
  "Content-Range: " ++ contentRange ra size ++ crlf ++
  "Content-Type: " ++ contentType ++ crlf ++ crlf.

Definition closeDelim (boundary : gostr) : gostr := crlf ++ "--" ++ boundary ++ "--" ++ crlf.

Fixpoint sumRangesSize (ranges : list Range) (acc : Z) : Z :=
  match ranges with
  | [] => acc
  | ra :: l => sumRangesSize l (i64 (acc + Length ra))
  end.

(** The counting writer of rangesMIMESize and the running sum. *)
Fixpoint mimeLoop (boundary contentType : gostr) (size : Z) (ranges : list Range) (first : bool)
  (w encSize : Z) : Z :=
  match ranges with
  | [] => i64 (encSize + i64 (w + slen (closeDelim boundary)))
  | ra :: l =>
      mimeLoop boundary contentType size l false
        (i64 (w + slen (partHeader boundary contentType size first ra)))
        (i64 (encSize + Length ra))
  end.

Definition rangesMIMESize (boundary : gostr) (ranges : list Range) (contentType : gostr) (size : Z) : Z :=
  mimeLoop boundary contentType size ranges true 0 0.

Section Serve.
Variable rangeRead : Range -> res go_err (option Reader).
Variable parseTime : gostr -> option Z.
Variable formatTime : Z -> gostr.
Variable getMimeType : gostr -> gostr.
(** The boundary of the body and the one of the size computation; both are
    random. *)
Variables boundary boundary0 : gostr.

Definition openRange (ra : Range) : res go_err Reader :=
  match rangeRead ra with
  | Err e => Err e
  | Ok None => Err (mkErr "range reader returned a nil body" None)
  | Ok (Some rd) => Ok rd
  end.

(** copyRange: the bytes that reach the part and the error. *)
Definition copyRange (ra : Range) : gostr * option go_err :=
  match openRange ra with
  | Err e => ([], Some e)
  | Ok rd => let '(out, err) := copyWithBufferN rd (Length ra) in (out, closeWithError err rd)
  end.

(** What the goroutine writes into the pipe, and the error it closes it with. *)
Fixpoint pipeBody (contentType : gostr) (size : Z) (ranges : list Range) (first : bool)
  : gostr * option go_err :=
  match ranges with
  | [] => (closeDelim boundary, None)
  | ra :: l =>
      let h := partHeader boundary contentType size first ra in
      match copyRange ra with
      | (out, Some e) => (h ++ out, Some e)
      | (out, None) =>
          let '(rest, e) := pipeBody contentType size l false in (h ++ out ++ rest, e)
      end
  end.

(** http.Error *)
Definition httpError (w : RespW) (msg : gostr) (code : Z) : RespW :=
  let h := delete ("Content-Length" : gostr) (hdr w) in
  let h := header_set h "Content-Type" "text/plain; charset=utf-8" in
  let h := header_set h "X-Content-Type-Options" "nosniff" in
  let w := writeHeader (set_hdr w h) code in
  mkResp (hdr w) (status w) (sent w) (body w ++ msg ++ bytes_of [10]).

Definition rangeErrText (e : range_err) : gostr :=
  match e with
  | ErrNoOverlap => "invalid range: failed to overlap"
  | _ => "invalid range"
  end.

Definition openFailed (w : RespW) (e : go_err) : RespW :=
  httpError w (errText e) (default 416 (errCode e)).

(** The end of ServeHTTP: the final headers, the status and the body. *)
Definition sendBody (w : RespW) (r : Request) (code sendSize : Z) (content : Reader)
  : RespW * option go_err :=
  let h := header_set (hdr w) "Accept-Ranges" "bytes" in
  let h := if seqb (header_get h "Content-Encoding") ""
           then header_set h "Content-Length" (formatInt sendSize) else h in
  let w := writeHeader (set_hdr w h) code in
  if seqb (Method r) "HEAD" then (w, closeWithError None content)
  else
    let '(out, err) := copyWithBufferN content sendSize in
    let w := mkResp (hdr w) (status w) (sent w) (body w ++ out) in
    match err with
    | None => (w, closeWithError None content)
    | Some e =>
        if ctxCanceled r then (w, closeWithError None content)
        else (writeHeader w (default 500 (errCode e)), closeWithError (Some e) content)
    end.

Definition serveHTTP (w : RespW) (r : Request) (name : gostr) (modTime size : Z)
  : RespW * option go_err :=
  let w := setLastModified formatTime w modTime in
  let '(done, rangeReq, w, r) := checkPreconditions parseTime w r modTime true in
  if done then (w, None)
  else if size <? 0 then (httpError w "negative content size not supported" 500, None)
  else
    let '(contentType, w) :=
      match hdr w !! ("Content-Type" : gostr) with
      | None => let t := getMimeType name in (t, set_hdr w (header_set (hdr w) "Content-Type" t))
      | Some (t :: _) => (t, w)
      | Some [] => ([], w)
      end in
    let continue_ (ranges : list Range) :=
      let ranges := if size <? sumRangesSize ranges 0 then [] else ranges in
      match ranges with
      | [] =>
          match openRange (mkRange 0 (-1)) with
          | Err e => (openFailed w e, None)
          | Ok rd => sendBody w r 200 size rd
          end
      | [ra] =>
          match openRange ra with
          | Err e => (openFailed w e, None)
          | Ok rd =>
              sendBody (set_hdr w (header_set (hdr w) "Content-Range" (contentRange ra size)))
                r 206 (Length ra) rd
          end
      | _ =>
          let sendSize := rangesMIMESize boundary0 ranges contentType size in
          let '(out, err) := pipeBody contentType size ranges true in
          sendBody
            (set_hdr w (header_set (hdr w) "Content-Type"
                          ("multipart/byteranges; boundary=" ++ boundary)))
            r 206 sendSize (mkReader out err None)
      end in
    match parseRange rangeReq size with
    | Ok ranges => continue_ ranges
    | Err ErrNoOverlap =>
        if size =? 0 then continue_ []
        else (httpError (set_hdr w (header_set (hdr w) "Content-Range"
                ("bytes */" ++ formatInt size))) (rangeErrText ErrNoOverlap) 416, None)
    | Err e => (httpError w (rangeErrText e) 416, None)
    end.
End Serve.

(** unsafeProxyHeaders and ProcessHeader; strings.ToLower and the setting
    ProxyIgnoreHeaders are parameters. *)
Definition unsafeProxyHeaders : list gostr :=
  strs ["authorization"; "cookie"; "proxy-authorization"; "www-authenticate"; "host"; "referer";
        "origin"; "connection"; "keep-alive"; "proxy-connection"; "te"; "trailer";
        "transfer-encoding"; "upgrade"; "forwarded"; "x-forwarded-for"; "x-forwarded-host";
        "x-forwarded-proto"; "x-real-ip"].

Section ProcessHeader.
Variable toLower : gostr -> gostr.
Variable proxyIgnoreHeaders : list gostr.

Definition keepClientHeader (h : gostr) : bool :=
  let lower := toLower h in
  negb (bool_decide (lower ∈ unsafeProxyHeaders)) && negb (bool_decide (lower ∈ proxyIgnoreHeaders)).

Definition processHeader (origin override : Header) : Header :=
  override ∪ filter (fun kv => keepClientHeader (fst kv) = true) origin.
End ProcessHeader.

Definition isCloudMetadataIP (ip4 : option (Z * Z * Z * Z)) : bool :=
  match ip4 with
  | Some (a, b, c, d) => (a =? 169) && (b =? 254) && (c =? 169) && (d =? 254)
  | None => false
  end.

(** ** Lemmas *)
Definition slice_of (c : gostr) (ra : Range) : gostr :=
  take (Z.to_nat (Length ra)) (drop (Z.to_nat (Start ra)) c).

(** A reader that serves content [c]: exact bytes for a range inside it, the
    whole content for the unlimited range. *)
Definition serves (rangeRead : Range -> res go_err (option Reader)) (c : gostr) : Prop :=
  rangeRead (mkRange 0 (-1)) = Ok (Some (mkReader c None None)) /\
  forall ra, range_in (slen c) ra -> rangeRead ra = Ok (Some (mkReader (slice_of c ra) None None)).

(** The multipart body of RFC 9110 14.6. *)
Fixpoint multipart_spec (c boundary ct : gostr) (ranges : list Range) (first : bool) : gostr :=
  match ranges with
  | [] => closeDelim boundary
  | ra :: l => partHeader boundary ct (slen c) first ra ++ slice_of c ra
               ++ multipart_spec c boundary ct l false
  end.

Lemma slice_length c ra : range_in (slen c) ra -> slen (slice_of c ra) = Length ra.
Proof.
  unfold range_in, slen, slice_of. intros (H1 & H2 & H3).
  rewrite length_take, length_drop. lia.
Qed.

Lemma copy_all d n : slen d = n -> copyWithBufferN (mkReader d None None) n = (d, None).
Proof.
  intros H. unfold copyWithBufferN; cbn [data readErr]. unfold slen in *.
  rewrite (proj2 (Z.ltb_ge _ _)) by lia.
  rewrite take_ge by lia. by rewrite (proj2 (Z.eqb_eq _ _)) by lia.
Qed.

Section Truthful.
Context (rangeRead : Range -> res go_err (option Reader)) (c : gostr).
Context (Hserves : serves rangeRead c).

Lemma copyRange_slice ra :
  range_in (slen c) ra -> copyRange rangeRead ra = (slice_of c ra, None).
Proof.
  intros H. unfold copyRange, openRange. rewrite (proj2 Hserves) by done.
  by rewrite copy_all by by apply slice_length.
Qed.

Lemma pipeBody_spec boundary ct ranges first :
  Forall (range_in (slen c)) ranges ->
  pipeBody rangeRead boundary ct (slen c) ranges first =
    (multipart_spec c boundary ct ranges first, None).
Proof.
  intros H. revert first. induction H as [|ra l Hra Hl IH]; intros first; [done|].
  cbn [pipeBody multipart_spec]. by rewrite copyRange_slice, IH.
Qed.

Lemma partHeader_slen b b0 ct first ra :
  length b = length b0 ->
  slen (partHeader b ct (slen c) first ra) = slen (partHeader b0 ct (slen c) first ra).
Proof. intros H. unfold partHeader. rewrite !slen_app. unfold slen. by rewrite H. Qed.

Lemma closeDelim_slen b b0 : length b = length b0 -> slen (closeDelim b) = slen (closeDelim b0).
Proof. intros H. unfold closeDelim. rewrite !slen_app. unfold slen. by rewrite H. Qed.

(** The announced size is the length of the body. *)
Lemma mimeLoop_length b b0 ct ranges first w enc :
  length b = length b0 -> Forall (range_in (slen c)) ranges ->
  0 <= w -> 0 <= enc -> w + enc + slen (multipart_spec c b ct ranges first) <= max_int64 ->
  mimeLoop b0 ct (slen c) ranges first w enc = w + enc + slen (multipart_spec c b ct ranges first).
Proof.
  intros Hb H. revert first w enc.
  induction H as [|ra l Hra Hl IH]; intros first w enc Hw He Hmax;
    cbn [mimeLoop multipart_spec] in *.
  - rewrite <- (closeDelim_slen b b0 Hb).
    pose proof (slen_nonneg (closeDelim b)). unfold max_int64 in *. i64_norm. lia.
  - rewrite <- (partHeader_slen b b0 ct first ra Hb). rewrite !slen_app in *.
    pose proof (slice_length c ra Hra) as Hs.
    pose proof (slen_nonneg (partHeader b ct (slen c) first ra)).
    pose proof (slen_nonneg (slice_of c ra)).
    pose proof (slen_nonneg (multipart_spec c b ct l false)).
    unfold max_int64 in *. i64_norm. rewrite IH by lia. lia.
Qed.
End Truthful.

(** The bytes a client must receive for the ranges it asked for. *)
Definition body_spec (c boundary ct : gostr) (ranges : list Range) : gostr :=
  match (if slen c <? sumRangesSize ranges 0 then [] else ranges) with
  | [] => c
  | [ra] => slice_of c ra
  | rs => multipart_spec c boundary ct rs true
  end.

Definition status_spec (c : gostr) (ranges : list Range) : Z :=
  match (if slen c <? sumRangesSize ranges 0 then [] else ranges) with [] => 200 | _ => 206 end.

Definition ct_key : gostr := "Content-Type".
Definition ce_key : gostr := "Content-Encoding".
Definition cl_key : gostr := "Content-Length".

Lemma sendBody_all w r code d :
  status w = None -> body w = [] -> hdr w !! ce_key = None -> Method r <> "HEAD" ->
  exists w', sendBody w r code (slen d) (mkReader d None None) = (w', None) /\
    status w' = Some code /\ body w' = d /\ header_get (sent w') cl_key = formatInt (slen d).
Proof.
  intros Hst Hb Hce Hm. unfold sendBody; cbn [closeWithError closeErr].
  assert (Hget : header_get (header_set (hdr w) "Accept-Ranges" "bytes") "Content-Encoding" = []).
  { unfold header_get, header_set. rewrite lookup_insert_ne by done.
    change ("Content-Encoding" : gostr) with ce_key. by rewrite Hce. }
  rewrite Hget. change (seqb [] "") with true. cbv iota.
  unfold writeHeader, set_hdr; cbn [status]. rewrite Hst.
  rewrite (proj2 (seqb_false _ _) Hm), copy_all by done. cbn [body]. rewrite Hb.
  eexists. split; [reflexivity|]. cbn [status body sent app]. repeat split.
  unfold header_get, header_set. change cl_key with ("Content-Length" : gostr).
  cbn [hdr]. by rewrite lookup_insert_eq.
Qed.

Lemma setLastModified_other f w t (k : gostr) :
  k <> "Last-Modified" -> hdr (setLastModified f w t) !! k = hdr w !! k.
Proof.
  intros H. unfold setLastModified. destr_goal; [|done]. unfold set_hdr, header_set; cbn [hdr].
  by rewrite lookup_insert_ne.
Qed.

Lemma setLastModified_frame f w t :
  status (setLastModified f w t) = status w /\ body (setLastModified f w t) = body w.
Proof. unfold setLastModified. by destr_goal. Qed.

(** ** Properties *)

(** C29: [ServeHTTP] delivers the right bytes: over a reader that serves
    content [c], a request whose preconditions pass is answered with 200 and
    the whole content, with 206 and exactly the requested slice, or with 206
    and the multipart encoding of the requested slices, and the announced
    Content-Length is the length of the body. *)
Theorem serveHTTP_delivers rangeRead p f mime boundary boundary0 c ct w r name t s ranges :
  serves rangeRead c -> length boundary = length boundary0 ->
  status w = None -> body w = [] -> hdr w !! ct_key = Some [ct] -> hdr w !! ce_key = None ->
  Method r <> "HEAD" ->
  fst (checkPreconditions p (setLastModified f w t) r t true) = (false, s, setLastModified f w t) ->
  parseRange s (slen c) = Ok ranges ->
  slen (body_spec c boundary ct ranges) <= max_int64 -> slen c <= max_int64 ->
  exists w', serveHTTP rangeRead p f mime boundary boundary0 w r name t (slen c) = (w', None) /\
    status w' = Some (status_spec c ranges) /\
    body w' = body_spec c boundary ct ranges /\
    header_get (sent w') cl_key = formatInt (slen (body w')).
Proof.
  intros Hsv Hbd Hst Hb Hct Hce Hm Hpre Hpr Hmax Hc. unfold serveHTTP.
  pose proof (setLastModified_frame f w t) as [Hst' Hb'].
  pose proof (setLastModified_other f w t ct_key ltac:(done)) as Hct'.
  pose proof (setLastModified_other f w t ce_key ltac:(done)) as Hce'.
  set (w0 := setLastModified f w t) in *.
  rewrite Hst in Hst'. rewrite Hb in Hb'. rewrite Hct in Hct'. rewrite Hce in Hce'.
  assert (Hr : forall d b1 w1 r1, checkPreconditions p w0 r t true = (d, b1, w1, r1) ->
            Method r1 = Method r).
  { intros d b1 w1 r1 E. by apply checkPreconditions_method in E. }
  destruct (checkPreconditions p w0 r t true) as [[[d b1] w1] r1] eqn:E.
  cbn [fst] in Hpre. injection Hpre as -> -> ->. rewrite (proj2 (Z.ltb_ge _ _)) by apply slen_nonneg.
  change ("Content-Type" : gostr) with ct_key. rewrite Hct', Hpr.
  assert (Hm1 : Method r1 <> "HEAD") by (rewrite (Hr _ _ _ _ eq_refl); done).
  assert (Hin : Forall (range_in (slen c)) ranges).
  { unfold parseRange in Hpr. destr_in Hpr; [by simplify_eq|]. destr_in Hpr; [done|].
    eapply parseSpecs_in in Hpr; [done|apply slen_nonneg| |done].
    unfold i64_ok, max_int64 in *. pose proof (slen_nonneg c). lia. }
  unfold status_spec, body_spec in *. cbv zeta.
  assert (Hin' : Forall (range_in (slen c)) (if slen c <? sumRangesSize ranges 0 then [] else ranges))
    by by destr_goal.
  destruct (if slen c <? sumRangesSize ranges 0 then [] else ranges) as [|ra [|rb l]].
  - unfold openRange. rewrite (proj1 Hsv).
    destruct (sendBody_all w0 r1 200 c Hst' Hb' Hce' Hm1) as (w' & -> & H1 & H2 & H3).
    exists w'. by rewrite H2.
  - apply Forall_cons in Hin' as [Hra _]. unfold openRange. rewrite (proj2 Hsv) by done.
    rewrite <- (slice_length c ra Hra).
    destruct (sendBody_all (set_hdr w0 (header_set (hdr w0) "Content-Range" (contentRange ra (slen c))))
      r1 206 (slice_of c ra)) as (w' & -> & H1 & H2 & H3); [done|done| |done|].
    { unfold header_set; cbn. by rewrite lookup_insert_ne. }
    exists w'. by rewrite H2.
  - rewrite (pipeBody_spec rangeRead c Hsv) by done.
    unfold rangesMIMESize. rewrite (mimeLoop_length c boundary) by (done || lia).
    rewrite Z.add_0_l.
    destruct (sendBody_all (set_hdr w0 (header_set (hdr w0) ct_key
      ("multipart/byteranges; boundary=" ++ boundary))) r1 206
      (multipart_spec c boundary ct (ra :: rb :: l) true)) as (w' & -> & H1 & H2 & H3);
      [done|done| |done|].
    { unfold header_set; cbn. by rewrite lookup_insert_ne. }
    exists w'. by rewrite H2.
Qed.

Definition sample_content : gostr := "abcdefghij".
Definition sample_read (ra : Range) : res go_err (option Reader) :=
  if Length ra =? -1 then Ok (Some (mkReader sample_content None None))
  else Ok (Some (mkReader (slice_of sample_content ra) None None)).
Definition sample_w : RespW := mkResp {[ ct_key := [("text/plain" : gostr)] ]} None ∅ [].
Definition sample_r : Request := mkReq "GET" {[ ("Range" : gostr) := [("bytes=1-2,5-6" : gostr)] ]} false.

Lemma serveHTTP_delivers_witness :
  exists w', serveHTTP sample_read (fun _ => None) (fun _ => []) (fun n => n) "bb" "cc"
               sample_w sample_r "f" 0 10 = (w', None) /\
    status w' = Some 206 /\
    body w' = body_spec sample_content "bb" "text/plain" [mkRange 1 2; mkRange 5 2] /\
    header_get (sent w') cl_key = formatInt (slen (body w')).
Proof.
  refine (serveHTTP_delivers sample_read (fun _ => None) (fun _ => []) (fun n => n) "bb" "cc"
    sample_content "text/plain" sample_w sample_r "f" 0 "bytes=1-2,5-6"
    [mkRange 1 2; mkRange 5 2] _ _ _ _ _ _ _ _ _ _ _);
    try (vm_compute; reflexivity); try (vm_compute; discriminate).
  split; [reflexivity|]. intros ra Hra. unfold sample_read, range_in in *.
  by rewrite (proj2 (Z.eqb_neq _ _)) by lia.
Defined.

(** No client header of the unsafe list reaches the upstream storage: a
    header [ProcessHeader] forwards is one of the driver's, or a client header
    that is neither unsafe nor on the ignore list; driver headers win. *)
Theorem processHeader_safe toLower ignore origin override k v :
  processHeader toLower ignore origin override !! k = Some v <->
  override !! k = Some v \/
  (override !! k = None /\ origin !! k = Some v /\
   toLower k ∉ unsafeProxyHeaders /\ toLower k ∉ ignore).
Proof.
  unfold processHeader, keepClientHeader.
  rewrite lookup_union_Some_raw, map_lookup_filter_Some. cbn [fst].
  rewrite andb_true_iff, !negb_true_iff, !bool_decide_eq_false. tauto.
Qed.
