(* ===== verification/GoHeap.v ===== *)
(** Package [container/heap] of the Go standard library, run on a slice whose
    elements remember their position, as [byExpiry] of the WebDAV lock system
    does: [arr] is the slice, [pos] the position field of every element and
    [key] the value Less compares. *)
From S2P Require Import Prelude.

Record hstate (A : Type) `{Countable A} := mkHeap { arr : list A; pos : gmap A Z }.
Arguments mkHeap {A _ _} arr pos.
Arguments arr {A _ _} h : rename.
Arguments pos {A _ _} h : rename.

Section Heap.
Context {A : Type} `{Countable A} (key : A -> Z).

Definition less (h : hstate A) (i j : nat) : bool :=
  match arr h !! i, arr h !! j with
  | Some a, Some b => key a <? key b
  | _, _ => false
  end.

Definition swap (h : hstate A) (i j : nat) : hstate A :=
  match arr h !! i, arr h !! j with
  | Some a, Some b =>
      mkHeap (<[j := a]> (<[i := b]> (arr h)))
             (<[a := Z.of_nat j]> (<[b := Z.of_nat i]> (pos h)))
  | _, _ => h
  end.

Definition push (h : hstate A) (x : A) : hstate A :=
  mkHeap (arr h ++ [x]) (<[x := Z.of_nat (length (arr h))]> (pos h)).

Definition pop (h : hstate A) : hstate A :=
  match last (arr h) with
  | Some x => mkHeap (take (length (arr h) - 1) (arr h)) (<[x := -1]> (pos h))
  | None => h
  end.

Definition parent (j : nat) : nat := ((j - 1) / 2)%nat.

Fixpoint up (fuel : nat) (h : hstate A) (j : nat) : hstate A :=
  match fuel with
  | O => h
  | S f =>
      let i := parent j in
      if bool_decide (i = j) || negb (less h j i) then h
      else up f (swap h i j) i
  end.

(** The second component tells whether the element moved. *)
Fixpoint down (fuel : nat) (h : hstate A) (i n : nat) : hstate A * bool :=
  match fuel with
  | O => (h, false)
  | S f =>
      let j1 := (2 * i + 1)%nat in
      if (n <=? j1)%nat then (h, false)
      else
        let j2 := (j1 + 1)%nat in
        let j := if (j2 <? n)%nat && less h j2 j1 then j2 else j1 in
        if negb (less h j i) then (h, false)
        else (fst (down f (swap h i j) j n), true)
  end.

Definition heapPush (h : hstate A) (x : A) : hstate A :=
  let h := push h x in
  up (length (arr h)) h (length (arr h) - 1).

Definition heapRemove (h : hstate A) (i : nat) : hstate A :=
  let n := (length (arr h) - 1)%nat in
  let h :=
    if bool_decide (n = i) then h
    else
      let '(h', moved) := down (length (arr h)) (swap h i n) i n in
      if moved then h' else up (length (arr h)) h' i in
  pop h.

(** ** Positions: the elements are distinct and every position field is right *)
Definition pos_ok (h : hstate A) : Prop :=
  NoDup (arr h) /\
  (forall i a, arr h !! i = Some a -> pos h !! a = Some (Z.of_nat i)) /\
  (forall a p, pos h !! a = Some p -> a ∈ arr h \/ p = -1).

Definition transp (i j k : nat) : nat :=
  if decide (k = i) then j else if decide (k = j) then i else k.

Lemma transp_invol i j k : transp i j (transp i j k) = k.
Proof. unfold transp. repeat case_decide; congruence. Qed.

Lemma swap_length h i j : length (arr (swap h i j)) = length (arr h).
Proof. unfold swap. repeat destr_goal; simpl; by rewrite ?length_insert. Qed.

Lemma swap_arr h i j k :
  (i < length (arr h))%nat -> (j < length (arr h))%nat ->
  arr (swap h i j) !! k = arr h !! transp i j k.
Proof.
  intros [a Ha]%lookup_lt_is_Some_2 [b Hb]%lookup_lt_is_Some_2.
  unfold swap, transp. rewrite Ha, Hb. simpl.
  pose proof (lookup_lt_Some _ _ _ Ha). pose proof (lookup_lt_Some _ _ _ Hb).
  destruct (decide (k = j)) as [->|Hj].
  - rewrite list_lookup_insert_eq by (by rewrite length_insert). by case_decide; congruence.
  - rewrite list_lookup_insert_ne by done. case_decide.
    + subst. by rewrite list_lookup_insert_eq.
    + by rewrite list_lookup_insert_ne.
Qed.

Lemma swap_elem h i j c :
  (i < length (arr h))%nat -> (j < length (arr h))%nat ->
  c ∈ arr (swap h i j) <-> c ∈ arr h.
Proof.
  intros Hi Hj. rewrite !list_elem_of_lookup. split; intros [k Hk].
  - rewrite swap_arr in Hk by done. eauto.
  - exists (transp i j k). rewrite swap_arr by done. by rewrite transp_invol.
Qed.

Lemma swap_pos_ok h i j :
  (i < length (arr h))%nat -> (j < length (arr h))%nat -> pos_ok h -> pos_ok (swap h i j).
Proof.
  intros Hi Hj (Hn & Hp & Hq). pose proof (fun k => swap_arr h i j k Hi Hj) as Hs.
  assert (Hinj : forall u v c, arr h !! u = Some c -> arr h !! v = Some c -> u = v).
  { intros u v c Hu Hv. by eapply NoDup_lookup. }
  split; [|split].
  - apply NoDup_alt. intros x y c Hx Hy. rewrite Hs in Hx, Hy.
    by rewrite <- (transp_invol i j x), <- (transp_invol i j y), (Hinj _ _ c Hx Hy).
  - intros k c. rewrite Hs. unfold swap.
    destruct (lookup_lt_is_Some_2 _ _ Hi) as [a Ha]. destruct (lookup_lt_is_Some_2 _ _ Hj) as [b Hb].
    rewrite Ha, Hb. simpl. unfold transp. intros Hc.
    destruct (decide (k = i)) as [->|Hki]; [|destruct (decide (k = j)) as [->|Hkj]].
    + assert (b = c) as -> by congruence. destruct (decide (a = c)) as [->|Hne].
      * rewrite lookup_insert_eq. by rewrite (Hinj _ _ _ Ha Hb).
      * rewrite lookup_insert_ne by done. by rewrite lookup_insert_eq.
    + assert (a = c) as -> by congruence. by rewrite lookup_insert_eq.
    + rewrite !lookup_insert_ne; [by apply Hp| |]; intros ->; by eauto.
  - intros c p Hc. rewrite swap_elem by done. revert Hc. unfold swap.
    destruct (lookup_lt_is_Some_2 _ _ Hi) as [a Ha]. destruct (lookup_lt_is_Some_2 _ _ Hj) as [b Hb].
    rewrite Ha, Hb. simpl. rewrite !lookup_insert.
    repeat case_decide; subst; [left; by eapply list_elem_of_lookup_2..|]. apply Hq.
Qed.

Lemma up_inv h j fuel :
  (j < length (arr h))%nat -> pos_ok h ->
  pos_ok (up fuel h j) /\ length (arr (up fuel h j)) = length (arr h) /\
  (forall c, c ∈ arr (up fuel h j) <-> c ∈ arr h) /\
  (forall k, (j < k)%nat -> arr (up fuel h j) !! k = arr h !! k).
Proof.
  revert h j. induction fuel as [|f IH]; intros h j Hj Hok; cbn [up]; [done|].
  destruct (bool_decide (parent j = j) || negb (less h j (parent j))); [done|].
  assert (Hpj : (parent j <= j)%nat).
  { unfold parent. pose proof (Nat.Div0.div_le_upper_bound (j - 1) 2 (j - 1) ltac:(lia)). lia. }
  assert (Hp : (parent j < length (arr h))%nat) by lia.
  destruct (IH (swap h (parent j) j) (parent j)) as (H1 & H2 & H3 & H4).
  - by rewrite swap_length.
  - by apply swap_pos_ok.
  - rewrite H2, swap_length. split; [done|]. split; [done|]. split.
    + intros c. rewrite H3. by apply swap_elem.
    + intros k Hk. rewrite H4, swap_arr by lia. f_equal. unfold transp.
      repeat case_decide; lia.
Qed.

Lemma down_inv h i n fuel :
  (i < n)%nat -> (n <= length (arr h))%nat -> pos_ok h ->
  let h' := fst (down fuel h i n) in
  pos_ok h' /\ length (arr h') = length (arr h) /\
  (forall c, c ∈ arr h' <-> c ∈ arr h) /\
  (forall k, (n <= k)%nat -> arr h' !! k = arr h !! k).
Proof.
  revert h i. induction fuel as [|f IH]; intros h i Hi Hn Hok; [done|].
  cbn [down]. destruct (n <=? 2 * i + 1)%nat eqn:Heqb; [done|].
  set (j := if _ && _ then _ else _).
  assert (Hj : (i < j < n)%nat).
  { apply Nat.leb_gt in Heqb. unfold j. destr_goal; [|lia].
    apply andb_prop in Heqb0 as [Hx _]. apply Nat.ltb_lt in Hx. lia. }
  clearbody j. destruct (negb (less h j i)); [done|]. cbn [fst].
  destruct (IH (swap h i j) j) as (H1 & H2 & H3 & H4).
  - lia.
  - by rewrite swap_length.
  - apply swap_pos_ok; [lia|lia|done].
  - split; [done|]. rewrite H2, swap_length. split; [done|]. split.
    + intros c. rewrite H3. apply swap_elem; lia.
    + intros k Hk. rewrite H4, swap_arr by lia. f_equal. unfold transp.
      repeat case_decide; lia.
Qed.

(** ** The heap order, on the keys by index *)
Definition heapf (f : nat -> Z) (n : nat) : Prop :=
  forall c, (0 < c < n)%nat -> f (parent c) <= f c.

Definition kat (h : hstate A) (i : nat) : Z := match arr h !! i with Some a => key a | None => 0 end.

Definition heap_ok (h : hstate A) : Prop := heapf (kat h) (length (arr h)).

Lemma kat_swap h i j k :
  (i < length (arr h))%nat -> (j < length (arr h))%nat ->
  kat (swap h i j) k = kat h (transp i j k).
Proof. intros Hi Hj. unfold kat. by rewrite swap_arr. Qed.

Lemma less_kat h i j :
  (i < length (arr h))%nat -> (j < length (arr h))%nat -> less h i j = (kat h i <? kat h j).
Proof.
  intros [a Ha]%lookup_lt_is_Some_2 [b Hb]%lookup_lt_is_Some_2.
  unfold less, kat. by rewrite Ha, Hb.
Qed.

Lemma parent_lt j : (0 < j)%nat -> (parent j < j)%nat.
Proof.
  intros Hj. unfold parent. pose proof (Nat.Div0.div_le_upper_bound (j - 1) 2 (j - 1) ltac:(lia)). lia.
Qed.

Lemma parent_child i c : (0 < c)%nat -> parent c = i <-> c = (2 * i + 1)%nat \/ c = (2 * i + 2)%nat.
Proof.
  intros Hc. unfold parent. pose proof (Nat.div_mod_eq (c - 1) 2).
  pose proof (Nat.mod_upper_bound (c - 1) 2 ltac:(lia)). lia.
Qed.

(** Only the element at [j] may be smaller than its parent. *)
Definition up_pre (f : nat -> Z) (n j : nat) : Prop :=
  (forall c, (0 < c < n)%nat -> c <> j -> f (parent c) <= f c) /\
  (forall c, (0 < c < n)%nat -> parent c = j -> (0 < j)%nat -> f (parent j) <= f c).

Lemma up_heap h j n fuel :
  (j < n)%nat -> (n <= length (arr h))%nat -> (j < fuel)%nat -> up_pre (kat h) n j ->
  heapf (kat (up fuel h j)) n.
Proof.
  revert h j. induction fuel as [|f IH]; intros h j Hj Hn Hf [H1 H2]; [lia|]. cbn [up].
  case_bool_decide as Hp; cbn [orb].
  { assert (j = 0)%nat as ->.
    { destruct (decide (0 < j)%nat); [|lia]. pose proof (parent_lt j ltac:(lia)). lia. }
    intros c Hc. apply H1; lia. }
  assert (0 < j)%nat as Hj0.
  { destruct j; [|lia]. by destruct Hp. }
  pose proof (parent_lt j Hj0) as Hlt.
  rewrite less_kat by lia. destruct (kat h j <? kat h (parent j)) eqn:E; bool_hyps; cbn [negb].
  - apply IH; [lia | rewrite swap_length; lia | lia |].
    split; intros c Hc.
    + intros Hcp. rewrite !kat_swap by lia. unfold transp.
      destruct (decide (c = j)) as [->|Hcj].
      { repeat case_decide; try congruence; lia. }
      destruct (decide (parent c = j)) as [Hpj|Hpj].
      { rewrite ?Hpj. repeat case_decide; try congruence; try lia.
        apply H2; [lia|done|done]. }
      destruct (decide (parent c = parent j)) as [Hpp|Hpp].
      { rewrite ?Hpp. pose proof (H1 c Hc Hcj) as H3. rewrite Hpp in H3.
        repeat case_decide; try congruence; lia. }
      repeat case_decide; try congruence. by apply H1.
    + intros Hcp Hp0. rewrite !kat_swap by lia. pose proof (parent_lt (parent j) Hp0).
      assert (Hpp : kat h (parent (parent j)) <= kat h (parent j)) by (apply H1; lia).
      unfold transp. destruct (decide (c = j)) as [->|Hcj].
      { repeat case_decide; try congruence; try lia. }
      pose proof (H1 c Hc Hcj) as H3. rewrite Hcp in H3.
      assert (parent c < c)%nat by (apply parent_lt; lia).
      repeat case_decide; try congruence; try lia.
  - intros c Hc. destruct (decide (c = j)) as [->|Hcj]; [done|]. by apply H1.
Qed.

(** The element at [i] may be larger than its children or smaller than its
    parent; the children are not smaller than the parent. *)
Definition down_pre (f : nat -> Z) (n i : nat) : Prop :=
  (forall c, (0 < c < n)%nat -> parent c <> i -> c <> i -> f (parent c) <= f c) /\
  (forall c, (0 < c < n)%nat -> parent c = i -> (0 < i)%nat -> f (parent i) <= f c).

Lemma down_heap h i n fuel :
  (i < n)%nat -> (n <= length (arr h))%nat -> (n - i < fuel)%nat -> down_pre (kat h) n i ->
  let '(h', moved) := down fuel h i n in
  (if moved then heapf (kat h') n
   else h' = h /\ up_pre (kat h) n i) /\
  ((0 < i)%nat -> kat h (parent i) <= kat h i -> heapf (kat h') n).
Proof.
  revert h i. induction fuel as [|f IH]; intros h i Hi Hn Hf [H1 H2]; [lia|].
  cbn [down].
  assert (Hstop : (forall c, (0 < c < n)%nat -> parent c = i -> kat h i <= kat h c) ->
    (h = h /\ up_pre (kat h) n i) /\ ((0 < i)%nat -> kat h (parent i) <= kat h i -> heapf (kat h) n)).
  { intros Hc. assert (Hup : up_pre (kat h) n i).
    { split; [|done]. intros c Hcn Hci. destruct (decide (parent c = i)) as [Hpi|].
      - rewrite Hpi. by apply Hc.
      - by apply H1. }
    split; [done|]. intros Hi0 Hk c Hcn. destruct (decide (c = i)) as [->|]; [done|].
    by apply Hup. }
  destruct (n <=? 2 * i + 1)%nat eqn:E1.
  { apply Nat.leb_le in E1. apply Hstop. intros c Hc Hpc. apply parent_child in Hpc; lia. }
  apply Nat.leb_gt in E1. set (j := if _ && _ then _ else _).
  assert (Hj : (j = 2 * i + 1 \/ j = 2 * i + 2)%nat /\ (j < n)%nat /\
               forall c, (0 < c < n)%nat -> parent c = i -> kat h j <= kat h c).
  { unfold j. destruct (2 * i + 1 + 1 <? n)%nat eqn:E2; cbn [andb].
    - apply Nat.ltb_lt in E2. rewrite less_kat by lia.
      replace (2 * i + 1 + 1)%nat with (2 * i + 2)%nat by lia.
      destruct (kat h (2 * i + 2) <? kat h (2 * i + 1)) eqn:E4; bool_hyps;
        (split; [lia|]); (split; [lia|]); intros c Hc Hpc; apply parent_child in Hpc;
        try lia; destruct Hpc as [->| ->]; lia.
    - apply Nat.ltb_ge in E2. split; [lia|]. split; [lia|].
      intros c Hc Hpc. apply parent_child in Hpc; [|lia]. destruct Hpc as [->| ->]; lia. }
  clearbody j. destruct Hj as (Hj & Hjn & Hmin).
  assert (Hpj : parent j = i) by (apply parent_child; lia).
  rewrite less_kat by lia. destruct (kat h j <? kat h i) eqn:E3; bool_hyps; cbn [negb].
  2: { apply Hstop. intros c Hc Hpc. pose proof (Hmin c Hc Hpc). lia. }
  specialize (IH (swap h i j) j). rewrite swap_length in IH.
  destruct (down f (swap h i j) j n) as [h' moved] eqn:Ed. cbn [fst].
  assert (Hd : down_pre (kat (swap h i j)) n j).
  { split; intros c Hc.
    - intros Hpc Hcj. rewrite !kat_swap by lia. unfold transp.
      destruct (decide (c = i)) as [->|Hci].
      { pose proof (parent_lt i ltac:(lia)). repeat case_decide; try congruence; try lia.
        apply H2; [lia|done|lia]. }
      destruct (decide (parent c = i)) as [Hpi|Hpi].
      { rewrite ?Hpi. repeat case_decide; try congruence. by apply Hmin. }
      repeat case_decide; try congruence. by apply H1.
    - intros Hpc _. rewrite Hpj, !kat_swap by lia. unfold transp.
      assert (parent c < c)%nat by (apply parent_lt; lia).
      repeat case_decide; try congruence; try lia.
      rewrite <- Hpc. apply H1; [done|lia|lia]. }
  assert (Hk : kat (swap h i j) (parent j) <= kat (swap h i j) j).
  { rewrite Hpj, !kat_swap by lia. unfold transp. repeat case_decide; try congruence; lia. }
  destruct (IH ltac:(lia) Hn ltac:(lia) Hd) as [_ IH2].
  assert (heapf (kat h') n) by (apply IH2; [lia|done]). done.
Qed.

Lemma pop_spec h x :
  pos_ok h -> arr h !! (length (arr h) - 1)%nat = Some x ->
  pos_ok (pop h) /\ length (arr (pop h)) = (length (arr h) - 1)%nat /\
  (forall c, c ∈ arr (pop h) <-> c ∈ arr h /\ c <> x) /\
  (forall k, (k < length (arr h) - 1)%nat -> kat (pop h) k = kat h k).
Proof.
  intros (Hn & Hp & Hq) Hx. pose proof (lookup_lt_Some _ _ _ Hx) as Hlt.
  assert (Hl : last (arr h) = Some x).
  { rewrite last_lookup. by replace (Nat.pred (length (arr h))) with (length (arr h) - 1)%nat by lia. }
  assert (Hinj : forall u v c, arr h !! u = Some c -> arr h !! v = Some c -> u = v).
  { intros u v c Hu Hv. by eapply NoDup_lookup. }
  unfold pop. rewrite Hl. cbn [arr pos].
  assert (Hel : forall c, c ∈ take (length (arr h) - 1) (arr h) <-> c ∈ arr h /\ c <> x).
  { intros c. rewrite !list_elem_of_lookup. split.
    - intros [k Hk]. rewrite lookup_take_Some in Hk. destruct Hk as [Hk Hkl].
      split; [eauto|]. intros ->. specialize (Hinj _ _ _ Hk Hx). lia.
    - intros [[k Hk] Hc]. exists k. apply lookup_take_Some. split; [done|].
      pose proof (lookup_lt_Some _ _ _ Hk).
      destruct (decide (k = length (arr h) - 1)%nat); [congruence|lia]. }
  split; [split; [|split]|split; [|split]]; cbn [arr pos].
  - by eapply sublist_NoDup, sublist_take.
  - intros k c Hk. apply lookup_take_Some in Hk as [Hk Hkl].
    rewrite lookup_insert_ne; [by apply Hp|]. intros ->. specialize (Hinj _ _ _ Hk Hx). lia.
  - intros c p. rewrite lookup_insert. case_decide; [naive_solver|].
    intros Hc. destruct (Hq c p Hc); [left; by apply Hel | by right].
  - rewrite length_take. lia.
  - exact Hel.
  - intros k Hk. unfold kat. cbn [arr]. by rewrite lookup_take_lt.
Qed.

(** heap.Push adds the element and keeps the order. *)
Lemma heapPush_spec h x :
  pos_ok h -> heap_ok h -> x ∉ arr h ->
  let h' := heapPush h x in
  pos_ok h' /\ heap_ok h' /\ (forall c, c ∈ arr h' <-> c ∈ arr h \/ c = x).
Proof.
  intros (Hn & Hp & Hq) Hh Hx. unfold heapPush.
  set (h1 := push h x). set (n := length (arr h)).
  assert (Hl1 : length (arr h1) = S n) by (unfold h1, push; cbn; rewrite length_app; simpl; lia).
  assert (Hok1 : pos_ok h1).
  { unfold h1, push. split; [|split]; cbn [arr pos].
    - apply NoDup_app. split; [done|]. split; [|apply NoDup_singleton].
      intros c Hc ->%list_elem_of_singleton. done.
    - intros i a Hi. apply lookup_app_Some in Hi as [Hi|[Hi Hs]].
      + rewrite lookup_insert_ne; [by apply Hp|]. intros ->. apply Hx.
        by eapply list_elem_of_lookup_2.
      + apply list_lookup_singleton_Some in Hs as [Hs <-]. rewrite lookup_insert_eq.
        do 2 f_equal. lia.
    - intros a p. rewrite lookup_insert. case_decide.
      + subst. left. set_solver.
      + intros Ha. destruct (Hq a p Ha); [left; set_solver | by right]. }
  rewrite Hl1. replace (S n - 1)%nat with n by lia.
  destruct (up_inv h1 n (S n) ltac:(lia) Hok1) as (H1 & H2 & H3 & _).
  split; [done|]. split.
  - unfold heap_ok. rewrite H2, Hl1. apply up_heap; [lia|lia|lia|].
    assert (Hk : forall k, (k < n)%nat -> kat h1 k = kat h k).
    { intros k Hk. unfold kat, h1, push; cbn [arr]. by rewrite lookup_app_l. }
    split; intros c Hc.
    + intros Hcn. pose proof (parent_lt c ltac:(lia)). rewrite !Hk by lia. apply Hh. lia.
    + intros Hpc. pose proof (parent_lt c ltac:(lia)). lia.
  - intros c. rewrite H3. unfold h1, push; cbn [arr]. set_solver.
Qed.

(** heap.Remove deletes the element at [i] and keeps the order. *)
Lemma heapRemove_spec h i x :
  pos_ok h -> heap_ok h -> arr h !! i = Some x ->
  let h' := heapRemove h i in
  pos_ok h' /\ heap_ok h' /\ (forall c, c ∈ arr h' <-> c ∈ arr h /\ c <> x) /\
  length (arr h') = (length (arr h) - 1)%nat.
Proof.
  intros Hok Hh Hx. pose proof (lookup_lt_Some _ _ _ Hx) as Hlt. unfold heapRemove.
  set (n := (length (arr h) - 1)%nat).
  assert (Hpop : forall g, pos_ok g -> length (arr g) = length (arr h) ->
    (forall c, c ∈ arr g <-> c ∈ arr h) -> arr g !! n = Some x -> heapf (kat g) n ->
    pos_ok (pop g) /\ heap_ok (pop g) /\ (forall c, c ∈ arr (pop g) <-> c ∈ arr h /\ c <> x) /\
    length (arr (pop g)) = n).
  { intros g Hg Hgl Hge Hgx Hgh. destruct (pop_spec g x Hg) as (P1 & P2 & P3 & P4).
    { by rewrite Hgl. }
    split; [done|]. split.
    - unfold heap_ok. rewrite P2, Hgl. intros c Hc. pose proof (parent_lt c ltac:(lia)).
      rewrite !P4 by lia. apply Hgh. lia.
    - split; [intros c; by rewrite P3, Hge | by rewrite P2, Hgl]. }
  case_bool_decide as Hi.
  { apply Hpop; [done|done|done|by rewrite Hi|]. intros c Hc. apply Hh. lia. }
  set (h1 := swap h i n).
  assert (Hl1 : length (arr h1) = length (arr h)) by apply swap_length.
  assert (Hok1 : pos_ok h1) by (apply swap_pos_ok; [lia|lia|done]).
  assert (Hx1 : arr h1 !! n = Some x).
  { unfold h1. rewrite swap_arr by lia. unfold transp. repeat case_decide; congruence. }
  assert (He1 : forall c, c ∈ arr h1 <-> c ∈ arr h) by (intros c; apply swap_elem; lia).
  assert (Hd : down_pre (kat h1) n i).
  { split; intros c Hc; pose proof (parent_lt c ltac:(lia)).
    - intros H1 H2. unfold h1. rewrite !kat_swap by lia. unfold transp.
      repeat case_decide; try lia. apply Hh. lia.
    - intros H1 H2. pose proof (parent_lt i H2). unfold h1. rewrite !kat_swap by lia. unfold transp.
      pose proof (Hh c ltac:(lia)) as Hc1. rewrite H1 in Hc1. pose proof (Hh i ltac:(lia)).
      repeat case_decide; lia. }
  pose proof (down_inv h1 i n (length (arr h)) ltac:(lia) ltac:(lia) Hok1) as (D1 & D2 & D3 & D4).
  pose proof (down_heap h1 i n (length (arr h)) ltac:(lia) ltac:(lia) ltac:(lia) Hd) as Dh.
  destruct (down (length (arr h)) h1 i n) as [h2 moved]. cbn [fst] in *. destruct Dh as [Dh _].
  destruct moved.
  - apply Hpop; [done|lia| |by rewrite D4|done]. intros c. by rewrite D3.
  - destruct Dh as [-> Hup].
    destruct (up_inv h1 i (length (arr h)) ltac:(lia) Hok1) as (U1 & U2 & U3 & U4).
    apply Hpop; [done|lia| |rewrite U4; [done|lia]|].
    + intros c. by rewrite U3.
    + apply up_heap; [lia|lia|lia|done].
Qed.

(** The position field tells membership and the index. *)
Lemma pos_index h x :
  pos_ok h ->
  (x ∈ arr h -> exists i, default (-1) (pos h !! x) = Z.of_nat i /\ arr h !! i = Some x) /\
  (x ∉ arr h -> default (-1) (pos h !! x) = -1).
Proof.
  intros (_ & Hp & Hq). split.
  - intros [i Hi]%list_elem_of_lookup. exists i. by rewrite (Hp i x Hi).
  - intros Hx. destruct (pos h !! x) as [p|] eqn:E; [|done]. by destruct (Hq x p E).
Qed.

Lemma heap_min h i a b :
  heap_ok h -> arr h !! 0%nat = Some a -> arr h !! i = Some b -> key a <= key b.
Proof.
  intros Hh Ha Hb.
  assert (Hk : forall i, (i < length (arr h))%nat -> kat h 0 <= kat h i).
  { intros k. induction k as [k IH] using lt_wf_ind. intros Hk.
    destruct k; [lia|]. pose proof (parent_lt (S k) ltac:(lia)) as Hp.
    pose proof (Hh (S k) ltac:(lia)). pose proof (IH _ Hp ltac:(lia)). lia. }
  specialize (Hk i (lookup_lt_Some _ _ _ Hb)). unfold kat in Hk. by rewrite Ha, Hb in Hk.
Qed.
End Heap.

Lemma heap_ok_ext {A} `{Countable A} (key key' : A -> Z) (h : hstate A) :
  (forall a, a ∈ arr h -> key a = key' a) -> heap_ok key h -> heap_ok key' h.
Proof.
  intros He Hh c Hc. specialize (Hh c Hc).
  assert (Hk : forall i, (i < length (arr h))%nat -> kat key' h i = kat key h i).
  { intros i [a Ha]%lookup_lt_is_Some_2. unfold kat. rewrite Ha. symmetry. apply He.
    by eapply list_elem_of_lookup_2. }
  pose proof (parent_lt c ltac:(lia)). by rewrite !Hk by lia.
Qed.

Lemma heap_empty_ok {A} `{Countable A} (key : A -> Z) :
  pos_ok (mkHeap [] ∅ : hstate A) /\ heap_ok key (mkHeap [] ∅).
Proof.
  split; [split; [|split]|]; cbn.
  - apply NoDup_nil_2.
  - done.
  - intros a p. by rewrite lookup_empty.
  - intros c Hc. cbn in Hc. lia.
Qed.
