(* ===== verification/DavLock.v ===== *)
(** [server/webdav/lock.go]: the in-memory WebDAV lock system. A lock object
    is identified by its token; [byExpiry] is the [container/heap] slice and
    [pos byExpiry] the byExpiryIndex field of the lock objects. A computation
    is [None] when the code panics. *)
From S2P Require Import Prelude GoString GoPath Paths GoHeap.

Inductive dav_err := ErrConfirmationFailed | ErrForbidden | ErrLocked | ErrNoSuchLock.

Record Condition := mkCond { Not : bool; Token : gostr; ETag : gostr }.

Record LockDetails := mkDetails {
  Root : gostr; Duration : Z; OwnerXML : gostr; ZeroDepth : bool; Shared : bool }.

Record memLSLock := mkLock { details : LockDetails; expiry : Z; held : bool }.

(** The lock instances rooted at a resource and the number of instances at or
    below it. *)
Record memLSNode := mkNode { locks : gset gostr; refCount : Z }.

Record memLS := mkLS {
  byName : gmap gostr memLSNode;
  byToken : gmap gostr memLSLock;
  gen : Z;
  byExpiry : hstate gostr }.

Definition newMemLS (unixNow : Z) : memLS := mkLS ∅ ∅ (u64 unixNow) (mkHeap [] ∅).

Definition set_byName (m : memLS) x : memLS := mkLS x (byToken m) (gen m) (byExpiry m).
Definition set_byToken (m : memLS) x : memLS := mkLS (byName m) x (gen m) (byExpiry m).
Definition set_byExpiry (m : memLS) x : memLS := mkLS (byName m) (byToken m) (gen m) x.

(** The value Less compares: the expiry of a lock object. *)
Definition expiryOf (locks : gmap gostr memLSLock) (t : gostr) : Z :=
  match locks !! t with Some l => expiry l | None => 0 end.

Definition byExpiryIndex (m : memLS) (t : gostr) : Z := default (-1) (pos (byExpiry m) !! t).

Definition slashClean (name : gostr) : gostr :=
  let name := match name with
              | c :: _ => if bool_decide (c = slash) then name else slash :: name
              | [] => slash :: name
              end in
  path_Clean name.

Definition nextToken (m : memLS) : memLS * gostr :=
  let g := u64 (gen m + 1) in
  (mkLS (byName m) (byToken m) g (byExpiry m), formatUint g).

(** walkToRoot calls [f] on the name and on each ancestor up to "/", until [f]
    returns false. *)
Fixpoint walkLoop {S} (fuel : nat) (f : S -> gostr -> bool -> option (S * bool)) (s : S)
  (name : gostr) (first : bool) : option (S * bool) :=
  match fuel with
  | O => None
  | Datatypes.S k =>
      match f s name first with
      | None => None
      | Some (s, false) => Some (s, false)
      | Some (s, true) =>
          if seqb name "/" then Some (s, true)
          else match lastIndexByte name slash with
               | None => None
               | Some i =>
                   let up := take i name in
                   walkLoop k f s (if seqb up "" then "/" else up) false
               end
      end
  end.

Definition walkToRoot {S} (name : gostr) (f : S -> gostr -> bool -> option (S * bool)) (s : S) :=
  walkLoop (Datatypes.S (length name)) f s name true.

Definition hasInfiniteLock (m : memLS) (n : memLSNode) : bool :=
  existsb (fun t => match byToken m !! t with
                    | Some l => negb (ZeroDepth (details l))
                    | None => false
                    end) (elements (locks n)).

Definition canCreate (m : memLS) (name : gostr) (zeroDepth wantShared : bool) : option bool :=
  snd <$> walkToRoot name (fun (_ : unit) name0 first =>
    Some (tt,
      match byName m !! name0 with
      | None => true
      | Some n =>
          if first then
            if negb (size (locks n) =? 0)%nat then
              if negb wantShared
                 || (negb zeroDepth && negb (refCount n =? Z.of_nat (size (locks n)))) then false
              else forallb (fun t => match byToken m !! t with
                                     | Some l => Shared (details l)
                                                 && Bool.eqb (ZeroDepth (details l)) zeroDepth
                                     | None => false
                                     end) (elements (locks n))
            else if negb zeroDepth && (0 <? refCount n) then false
            else true
          else negb (hasInfiniteLock m n)
      end)) tt.

(** create: one more reference on every node from the name to the root. *)
Definition createStep (names : gmap gostr memLSNode) (name0 : gostr) (first : bool)
  : option (gmap gostr memLSNode * bool) :=
  let n := default (mkNode ∅ 0) (names !! name0) in
  Some (<[name0 := mkNode (locks n) (refCount n + 1)]> names, true).

Definition create (m : memLS) (name : gostr) : option memLS :=
  match walkToRoot name createStep (byName m) with
  | Some (names, _) => Some (set_byName m names)
  | None => None
  end.

(** remove drops the lock from both maps, releases the references of its path
    and takes it out of the expiry heap. *)
Definition removeStep (names : gmap gostr memLSNode) (name0 : gostr) (first : bool)
  : option (gmap gostr memLSNode * bool) :=
  match names !! name0 with
  | None => None
  | Some x =>
      if refCount x - 1 =? 0 then Some (delete name0 names, true)
      else Some (<[name0 := mkNode (locks x) (refCount x - 1)]> names, true)
  end.

Definition remove (m : memLS) (token : gostr) : option memLS :=
  match byToken m !! token with
  | None => None
  | Some lock =>
      let root := Root (details lock) in
      let names := alter (fun n => mkNode (locks n ∖ {[token]}) (refCount n)) root (byName m) in
      match walkToRoot root removeStep names with
      | None => None
      | Some (names, _) =>
          let i := byExpiryIndex m token in
          let h := if 0 <=? i then heapRemove (expiryOf (byToken m)) (byExpiry m) (Z.to_nat i)
                   else byExpiry m in
          Some (mkLS names (delete token (byToken m)) (gen m) h)
      end
  end.

Fixpoint collectLoop (fuel : nat) (m : memLS) (now : Z) : option memLS :=
  match arr (byExpiry m) with
  | [] => Some m
  | t :: _ =>
      if now <? expiryOf (byToken m) t then Some m
      else match fuel with
           | O => None
           | S k => match remove m t with
                    | Some m => collectLoop k m now
                    | None => None
                    end
           end
  end.

Definition collectExpiredNodes (m : memLS) (now : Z) : option memLS :=
  collectLoop (length (arr (byExpiry m))) m now.

Definition set_lock (m : memLS) (t : gostr) (l : memLSLock) : memLS :=
  set_byToken m (<[t := l]> (byToken m)).

(** hold and unhold panic on an inconsistent held state. *)
Definition hold (m : memLS) (t : gostr) : option memLS :=
  match byToken m !! t with
  | None => None
  | Some lock =>
      if held lock then None
      else
        let i := byExpiryIndex m t in
        let h := if (0 <=? Duration (details lock)) && (0 <=? i)
                 then heapRemove (expiryOf (byToken m)) (byExpiry m) (Z.to_nat i)
                 else byExpiry m in
        Some (set_byExpiry (set_lock m t (mkLock (details lock) (expiry lock) true)) h)
  end.

Definition unhold (m : memLS) (t : gostr) : option memLS :=
  match byToken m !! t with
  | None => None
  | Some lock =>
      if negb (held lock) then None
      else
        let m := set_lock m t (mkLock (details lock) (expiry lock) false) in
        Some (if 0 <=? Duration (details lock)
              then set_byExpiry m (heapPush (expiryOf (byToken m)) (byExpiry m) t)
              else m)
  end.

Fixpoint lookup (m : memLS) (name : gostr) (conditions : list Condition) : option gostr :=
  match conditions with
  | [] => None
  | c :: cs =>
      match byToken m !! Token c with
      | None => lookup m name cs
      | Some lock =>
          if held lock then lookup m name cs
          else if seqb name (Root (details lock)) then Some (Token c)
          else if ZeroDepth (details lock) then lookup m name cs
          else if seqb (Root (details lock)) "/"
                  || hasPrefix name (Root (details lock) ++ "/") then Some (Token c)
          else lookup m name cs
      end
  end.

(** The locks the release function of Confirm gives back. *)
Definition Release : Type := option gostr * option gostr.

Definition lookupName (m : memLS) (name : gostr) (conditions : list Condition)
  : res dav_err (option gostr) :=
  if seqb name "" then Ok None
  else match lookup m (slashClean name) conditions with
       | None => Err ErrConfirmationFailed
       | Some t => Ok (Some t)
       end.

Definition holdOpt (m : memLS) (t : option gostr) : option memLS :=
  match t with Some t => hold m t | None => Some m end.
Definition unholdOpt (m : memLS) (t : option gostr) : option memLS :=
  match t with Some t => unhold m t | None => Some m end.

Definition Confirm (m : memLS) (now : Z) (name0 name1 : gostr) (conditions : list Condition)
  : option (memLS * res dav_err Release) :=
  let! m := collectExpiredNodes m now in
  match lookupName m name0 conditions with
  | Err e => Some (m, Err e)
  | Ok n0 =>
      match lookupName m name1 conditions with
      | Err e => Some (m, Err e)
      | Ok n1 =>
          let n1 := if bool_decide (n1 = n0) then None else n1 in
          let! m := holdOpt m n0 in
          let! m := holdOpt m n1 in
          Some (m, Ok (n0, n1))
      end
  end.

(** The function returned by Confirm. *)
Definition release (m : memLS) (r : Release) : option memLS :=
  let! m := unholdOpt m (snd r) in unholdOpt m (fst r).

Definition Create (m : memLS) (now : Z) (d : LockDetails) : option (memLS * res dav_err gostr) :=
  let! m := collectExpiredNodes m now in
  let d := mkDetails (slashClean (Root d)) (Duration d) (OwnerXML d) (ZeroDepth d) (Shared d) in
  let! ok := canCreate m (Root d) (ZeroDepth d) (Shared d) in
  if negb ok then Some (m, Err ErrLocked)
  else
    let! m := create m (Root d) in
    let '(m, token) := nextToken m in
    let finite := 0 <=? Duration d in
    let lock := mkLock d (if finite then now + Duration d else 0) false in
    let names := alter (fun n => mkNode ({[token]} ∪ locks n) (refCount n)) (Root d) (byName m) in
    let m := set_byName (set_lock m token lock) names in
    let h := mkHeap (arr (byExpiry m)) (<[token := -1]> (pos (byExpiry m))) in
    let h := if finite then heapPush (expiryOf (byToken m)) h token else h in
    Some (set_byExpiry m h, Ok token).

Definition Refresh (m : memLS) (now : Z) (token : gostr) (duration : Z)
  : option (memLS * res dav_err LockDetails) :=
  let! m := collectExpiredNodes m now in
  match byToken m !! token with
  | None => Some (m, Err ErrNoSuchLock)
  | Some lock =>
      if held lock then Some (m, Err ErrLocked)
      else
        let i := byExpiryIndex m token in
        let h := if 0 <=? i then heapRemove (expiryOf (byToken m)) (byExpiry m) (Z.to_nat i)
                 else byExpiry m in
        let d := details lock in
        let d := mkDetails (Root d) duration (OwnerXML d) (ZeroDepth d) (Shared d) in
        let finite := 0 <=? duration in
        let lock := mkLock d (if finite then now + duration else expiry lock) false in
        let m := set_byExpiry (set_lock m token lock) h in
        Some (if finite then set_byExpiry m (heapPush (expiryOf (byToken m)) h token) else m, Ok d)
  end.

Definition Unlock (m : memLS) (now : Z) (token : gostr) : option (memLS * res dav_err unit) :=
  let! m := collectExpiredNodes m now in
  match byToken m !! token with
  | None => Some (m, Err ErrNoSuchLock)
  | Some lock =>
      if held lock then Some (m, Err ErrLocked)
      else let! m := remove m token in Some (m, Ok tt)
  end.

(** parseTimeout; a negative duration is infinite. *)
Definition infiniteTimeout : Z := -1.
Definition second : Z := 10 ^ 9.

Definition parseTimeout (s : gostr) : option Z :=
  if seqb s "" then Some infiniteTimeout
  else
    let s := match indexByte s ","%char with Some i => take i s | None => s end in
    let s := trimSpace s in
    if seqb s "Infinite" then Some infiniteTimeout
    else if negb (hasPrefix s "Second-") then None
    else
      match drop 7 s with
      | [] => None
      | (c :: _) as s =>
          if (byte_val c <? 48) || (57 <? byte_val c) then None
          else match parseInt s with
               | (_, Some _) => None
               | (n, None) => if 2 ^ 32 - 1 <? n then None else Some (i64 (n * second))
               end
      end.

Example timeout_ex : map parseTimeout (strs ["Infinite, Second-4100000000"; "Second-4294967295";
    "Second-4294967296"; "Second--1"; ""; " Second-7 "])
  = [Some (-1); Some 4294967295000000000; None; None; Some (-1); Some 7000000000].
Proof. vm_compute. reflexivity. Qed.

Example create_ex :
  let m := newMemLS 100 in
  match Create m 5 (mkDetails "/a" 10 "" false false) with
  | Some (m, Ok t) =>
      (t, snd <$> Create m 6 (mkDetails "/a/b" 10 "" true false),
       snd <$> Create m 15 (mkDetails "/a/b" 10 "" true false))
  | _ => ([], None, None)
  end = (formatUint 101, Some (Err ErrLocked), Some (Ok (formatUint 102))).
Proof. vm_compute. reflexivity. Qed.

(** A lock timeout is infinite or a whole number of seconds below 2^32, and
    its value in nanoseconds does not overflow. *)
Theorem parseTimeout_bounds s d :
  parseTimeout s = Some d ->
  d = infiniteTimeout \/ exists n, 0 <= n < 2 ^ 32 /\ d = n * second.
Proof.
  unfold parseTimeout. destr_goal; [naive_solver|]. cbv zeta.
  set (s1 := trimSpace _). destruct (seqb s1 "Infinite"); [naive_solver|].
  destruct (negb _); [done|]. destruct (drop 7 s1) as [|c s2]; [done|].
  destruct (_ || _) eqn:Ed; [done|]. bool_hyps.
  destruct (parseInt (c :: s2)) as [n [e|]] eqn:Ep; [done|].
  assert (Hn : 0 <= n).
  { rewrite parseInt_cons in Ep. cbv zeta in Ep.
    destruct (bool_decide (c = "-"%char)) eqn:E1; bool_hyps; [by subst c|].
    match type of Ep with context [parseUint ?b] => destruct (parseUint b) as [u e] eqn:Eu end.
    apply parseUint_nonneg in Eu. cbn -[Z.pow] in Ep.
    destruct e as [[]|]; [done|..]; destruct (2 ^ 63 <=? u); naive_solver. }
  destruct (2 ^ 32 - 1 <? n) eqn:E; [done|]. bool_hyps. intros [= <-]. right. exists n.
  split; [lia|]. apply i64_id. unfold i64_ok, second. lia.
Qed.

Lemma parseTimeout_bounds_witness :
  parseTimeout "Second-4294967295" = Some (4294967295 * second) /\
  (4294967295 * second = infiniteTimeout \/
   exists n, 0 <= n < 2 ^ 32 /\ 4294967295 * second = n * second).
Proof.
  assert (H : parseTimeout "Second-4294967295" = Some (4294967295 * second))
    by (vm_compute; reflexivity).
  split; [exact H|exact (parseTimeout_bounds _ _ H)].
Defined.
