(* ===== verification/DavLockSpec.v ===== *)
(** The WebDAV lock system of [DavLock]: its invariant, the functional
    behaviour of every operation and the exclusivity of the granted locks. *)
From S2P Require Import Prelude GoString GoPath Paths GoHeap DavLock.

(** ** The names walkToRoot visits *)
Definition ancs (segs : list gostr) : list gostr := map mkpath (rev (inits segs)).

Definition root_segs (r : gostr) : list gostr := rev (cleanSegs true [] (splitByte r slash)).

(** The resource and its ancestors up to "/". *)
Definition ancestors (r : gostr) : list gostr := ancs (root_segs r).

Definition clean_root (r : gostr) : Prop := exists segs, Forall good_seg segs /\ r = mkpath segs.

Fixpoint foldWalk {S} (f : S -> gostr -> bool -> option (S * bool)) (s : S) (ns : list gostr)
  (first : bool) : option (S * bool) :=
  match ns with
  | [] => Some (s, true)
  | n :: ns' =>
      match f s n first with
      | None => None
      | Some (s, false) => Some (s, false)
      | Some (s, true) => foldWalk f s ns' false
      end
  end.

Lemma inits_snoc {A} (l : list A) x : inits (l ++ [x]) = inits l ++ [l ++ [x]].
Proof. induction l as [|y l IH]; [done|]. simpl. by rewrite IH, map_app. Qed.

Lemma ancs_snoc segs w : ancs (segs ++ [w]) = mkpath (segs ++ [w]) :: ancs segs.
Proof. unfold ancs. rewrite inits_snoc, rev_app_distr. done. Qed.

Lemma ancs_elem segs k : k ∈ ancs segs <-> exists p, p `prefix_of` segs /\ k = mkpath p.
Proof.
  unfold ancs. rewrite list_elem_of_fmap. split.
  - intros (p & -> & Hp). rewrite elem_of_rev in Hp. apply inits_spec in Hp. eauto.
  - intros (p & Hp & ->). exists p. split; [done|]. rewrite elem_of_rev. by apply inits_spec.
Qed.

Lemma good_prefix p segs : p `prefix_of` segs -> Forall good_seg segs -> Forall good_seg p.
Proof. intros [t ->] H. by apply Forall_app in H as [? _]. Qed.

Lemma ancs_NoDup segs : Forall good_seg segs -> NoDup (ancs segs).
Proof.
  induction segs as [|w segs IH] using rev_ind; intros Hg.
  - apply NoDup_singleton.
  - apply Forall_app in Hg as [Hs Hw]. rewrite ancs_snoc. apply NoDup_cons. split; [|by apply IH].
    rewrite ancs_elem. intros (p & Hp & He).
    apply mkpath_inj in He; [|by apply Forall_app|by eapply good_prefix].
    subst p. apply prefix_length in Hp. rewrite length_app in Hp. simpl in Hp. lia.
Qed.

Lemma mkpath_is_root segs : Forall good_seg segs -> mkpath segs = "/" -> segs = [].
Proof. intros Hg H. injection H as H. by apply joinStr_nil. Qed.

Lemma walkLoop_fold {S} (f : S -> gostr -> bool -> option (S * bool)) fuel s segs first :
  Forall good_seg segs -> (length segs < fuel)%nat ->
  walkLoop fuel f s (mkpath segs) first = foldWalk f s (ancs segs) first.
Proof.
  revert fuel s first. induction segs as [|w segs IH] using rev_ind; intros fuel s first Hg Hf.
  - destruct fuel; [simpl in *; lia|]. unfold ancs. cbn. repeat destr_goal; done.
  - destruct fuel as [|fuel]; [lia|]. rewrite length_app in Hf. simpl in Hf.
    assert (Hne : seqb (mkpath (segs ++ [w])) "/" = false).
    { apply seqb_false. intros H%mkpath_is_root; [by destruct segs|done]. }
    apply Forall_app in Hg as [Hs Hw]. apply Forall_cons in Hw as [(_ & _ & _ & Hw) _].
    rewrite ancs_snoc. cbn [walkLoop foldWalk]. rewrite Hne.
    destruct (f s (mkpath (segs ++ [w])) first) as [[s' []]|]; [|done|done].
    assert (Hup : exists i, lastIndexByte (mkpath (segs ++ [w])) slash = Some i /\
      (if seqb (take i (mkpath (segs ++ [w]))) "" then ("/" : gostr)
       else take i (mkpath (segs ++ [w]))) = mkpath segs).
    { rewrite mkpath_snoc. destruct segs as [|v l].
      - exists 0%nat. change (slash :: w) with ([] ++ slash :: w). by rewrite lastIndexByte_app.
      - exists (length (mkpath (v :: l))). rewrite lastIndexByte_app by done.
        rewrite take_app_length. done. }
    destruct Hup as (i & -> & ->). apply IH; [done|lia].
Qed.

Lemma walk_fold {S} (f : S -> gostr -> bool -> option (S * bool)) s segs :
  Forall good_seg segs -> walkToRoot (mkpath segs) f s = foldWalk f s (ancs segs) true.
Proof.
  intros Hg. unfold walkToRoot. apply walkLoop_fold; [done|].
  pose proof (mkpath_length segs Hg). lia.
Qed.

Lemma root_segs_mkpath segs : Forall good_seg segs -> root_segs (mkpath segs) = segs.
Proof.
  intros Hg. unfold root_segs. rewrite split_mkpath by done. simpl. destruct segs; [done|].
  rewrite cleanSegs_id, app_nil_r by done. apply rev_involutive.
Qed.

Lemma ancestors_mkpath segs : Forall good_seg segs -> ancestors (mkpath segs) = ancs segs.
Proof. intros Hg. unfold ancestors. by rewrite root_segs_mkpath. Qed.

Lemma slashClean_clean name : clean_root (slashClean name).
Proof.
  assert (Hr : exists s, slashClean name = path_Clean (slash :: s)).
  { unfold slashClean. destruct name as [|c name]; [by eexists|].
    case_bool_decide; subst; by eexists. }
  destruct Hr as [s ->]. rewrite rooted_clean. eexists. split; [|done].
  apply Forall_rev, cleanSegs_good; [done|]. apply Forall_forall.
  intros w Hw. by eapply splitByte_no_sep.
Qed.

Lemma walk_clean {S} (f : S -> gostr -> bool -> option (S * bool)) s r :
  clean_root r -> walkToRoot r f s = foldWalk f s (ancestors r) true.
Proof. intros (segs & Hg & ->). by rewrite walk_fold, ancestors_mkpath. Qed.

Lemma ancestors_NoDup r : clean_root r -> NoDup (ancestors r).
Proof. intros (segs & Hg & ->). rewrite ancestors_mkpath by done. by apply ancs_NoDup. Qed.

Lemma ancestors_head r : clean_root r -> exists l, ancestors r = r :: l /\ r ∉ l.
Proof.
  intros Hc. pose proof (ancestors_NoDup r Hc) as Hn. destruct Hc as (segs & Hg & ->).
  rewrite ancestors_mkpath in * by done.
  destruct segs as [|w l _] using rev_ind.
  - exists []. split; [done|]. apply not_elem_of_nil.
  - rewrite ancs_snoc in *. exists (ancs l). split; [done|]. by apply NoDup_cons in Hn as [? _].
Qed.

Lemma ancestors_refl r : clean_root r -> r ∈ ancestors r.
Proof. intros Hc. destruct (ancestors_head r Hc) as (l & -> & _). by left. Qed.

Lemma ancestors_antisym r1 r2 :
  clean_root r1 -> clean_root r2 -> r1 ∈ ancestors r2 -> r2 ∈ ancestors r1 -> r1 = r2.
Proof.
  intros (s1 & G1 & ->) (s2 & G2 & ->). rewrite !ancestors_mkpath, !ancs_elem by done.
  intros (p1 & P1 & E1) (p2 & P2 & E2).
  apply mkpath_inj in E1; [|done|by eapply good_prefix].
  apply mkpath_inj in E2; [|done|by eapply good_prefix]. subst. f_equal.
  by apply (anti_symm prefix).
Qed.

(** The sub-path test of lookup. *)
Lemma scope_prefix name r :
  clean_root name -> clean_root r ->
  seqb name r || seqb r "/" || hasPrefix name (r ++ "/") = true <-> r ∈ ancestors name.
Proof.
  intros (s1 & G1 & ->) (s2 & G2 & ->). rewrite ancestors_mkpath, ancs_elem by done.
  rewrite !orb_true_iff, !seqb_true, hasPrefix_spec. split.
  - intros [[H|H]|[t Ht]].
    + apply mkpath_inj in H; [|done|done]. subst. eauto.
    + apply mkpath_is_root in H; [|done]. subst. exists []. split; [apply prefix_nil|done].
    + destruct s2 as [|w l].
      { exists []. split; [apply prefix_nil|done]. }
      exists (w :: l). split; [|done]. exists (splitByte t slash).
      apply (f_equal (fun x => splitByte x slash)) in Ht. rewrite split_mkpath in Ht by done.
      unfold mkpath in Ht. rewrite <- (assoc_L (++)), <- app_comm_cons in Ht.
      change (splitByte (slash :: ?x) slash) with ([] :: splitByte x slash) in Ht.
      change ("/" ++ t) with (slash :: t) in Ht.
      rewrite splitByte_join_app in Ht by (done || by apply good_seg_no_slash).
      injection Ht as Ht. destruct s1; [|done]. simplify_eq.
      apply Forall_cons in G2 as [[] _]. done.
  - intros (p & [t ->] & H). apply mkpath_inj in H; [|done|].
    2: { by apply Forall_app in G1 as [? _]. }
    subst p. destruct t as [|v t]; [left; left; by rewrite app_nil_r|].
    destruct s2 as [|w l]; [left; by right|]. right.
    rewrite mkpath_app by done. exists (joinStr (v :: t) [slash]).
    by rewrite <- (assoc_L (++)).
Qed.

(** ** What create and remove do to the nodes of a path *)
Definition nodeOr0 (names : gmap gostr memLSNode) (k : gostr) : memLSNode :=
  default (mkNode ∅ 0) (names !! k).

Lemma create_fold names ns first :
  NoDup ns ->
  exists names', foldWalk createStep names ns first = Some (names', true) /\
  forall k, names' !! k =
    if decide (k ∈ ns) then Some (mkNode (locks (nodeOr0 names k)) (refCount (nodeOr0 names k) + 1))
    else names !! k.
Proof.
  intros Hn. revert names first. induction Hn as [|n ns Hx Hn IH]; intros names first.
  - exists names. split; [done|]. intros k. rewrite decide_False; [done|]. apply not_elem_of_nil.
  - cbn [foldWalk createStep]. edestruct IH as (names' & -> & H). exists names'. split; [done|].
    intros k. rewrite H. unfold nodeOr0. destruct (decide (k = n)) as [->|Hk].
    + rewrite decide_False, decide_True by set_solver. by rewrite lookup_insert_eq.
    + rewrite lookup_insert_ne by done. apply decide_ext. set_solver.
Qed.

Lemma remove_fold names ns first :
  NoDup ns -> (forall k, k ∈ ns -> is_Some (names !! k)) ->
  exists names', foldWalk removeStep names ns first = Some (names', true) /\
  forall k, names' !! k =
    if decide (k ∈ ns)
    then if refCount (nodeOr0 names k) - 1 =? 0 then None
         else Some (mkNode (locks (nodeOr0 names k)) (refCount (nodeOr0 names k) - 1))
    else names !! k.
Proof.
  intros Hn. revert names first. induction Hn as [|n ns Hx Hn IH]; intros names first Hs.
  - exists names. split; [done|]. intros k. rewrite decide_False; [done|]. apply not_elem_of_nil.
  - cbn [foldWalk]. unfold removeStep at 1. destruct (Hs n) as [x Hxn]; [by left|].
    rewrite Hxn. set (names1 := if refCount x - 1 =? 0 then delete n names
      else <[n := mkNode (locks x) (refCount x - 1)]> names).
    assert (H1 : forall k, k <> n -> names1 !! k = names !! k).
    { intros k Hk. unfold names1. destr_goal; [by rewrite lookup_delete_ne|].
      by rewrite lookup_insert_ne. }
    assert (H2 : names1 !! n = if refCount x - 1 =? 0 then None
      else Some (mkNode (locks x) (refCount x - 1))).
    { unfold names1. destr_goal; [by rewrite lookup_delete_eq|]. by rewrite lookup_insert_eq. }
    destruct (IH names1 false) as (names' & Hf & H).
    { intros k Hk. rewrite H1 by (intros ->; done). apply Hs. by right. }
    exists names'. split; [unfold names1 in Hf; by destruct (refCount x - 1 =? 0)|].
    intros k. rewrite H. unfold nodeOr0. destruct (decide (k = n)) as [->|Hk].
    + rewrite decide_False, decide_True by set_solver. by rewrite H2, Hxn.
    + rewrite H1 by done. apply decide_ext. set_solver.
Qed.

(** ** The invariant *)
Definition rootOf (l : memLSLock) : gostr := Root (details l).

(** The locks rooted at [k], and the number of locks at or below [k]. *)
Definition rooted (L : gmap gostr memLSLock) (k : gostr) : gset gostr :=
  dom (filter (fun tl => rootOf tl.2 = k) L).
Definition below (L : gmap gostr memLSLock) (k : gostr) : nat :=
  size (filter (fun tl => k ∈ ancestors (rootOf tl.2)) L).

(** Two scopes meet when the roots are equal or one lock of infinite depth is
    rooted at an ancestor of the other; such locks are compatible only when
    both are shared locks of the same resource and depth. *)
Definition overlaps (d1 d2 : LockDetails) : Prop :=
  Root d1 = Root d2 \/
  (ZeroDepth d1 = false /\ Root d1 ∈ ancestors (Root d2)) \/
  (ZeroDepth d2 = false /\ Root d2 ∈ ancestors (Root d1)).

Definition compat (d1 d2 : LockDetails) : Prop :=
  overlaps d1 d2 ->
  Root d1 = Root d2 /\ Shared d1 = true /\ Shared d2 = true /\ ZeroDepth d1 = ZeroDepth d2.

#[export] Instance overlaps_dec d1 d2 : Decision (overlaps d1 d2).
Proof. unfold overlaps. apply _. Defined.
#[export] Instance compat_dec d1 d2 : Decision (compat d1 d2).
Proof. unfold compat. apply _. Defined.

(** The locks the expiry heap holds. *)
Definition timed (l : memLSLock) : Prop := held l = false /\ 0 <= Duration (details l).

Record Inv (m : memLS) : Prop := {
  inv_roots : forall t l, byToken m !! t = Some l -> clean_root (rootOf l);
  inv_nodes : forall k, byName m !! k =
    if decide (below (byToken m) k = 0%nat) then None
    else Some (mkNode (rooted (byToken m) k) (Z.of_nat (below (byToken m) k)));
  inv_pos : pos_ok (byExpiry m);
  inv_heap : heap_ok (expiryOf (byToken m)) (byExpiry m);
  inv_elems : forall t, t ∈ arr (byExpiry m) <-> exists l, byToken m !! t = Some l /\ timed l;
  inv_gen : u64_ok (gen m);
  inv_tokens : forall t l, byToken m !! t = Some l -> exists n, 0 <= n <= gen m /\ t = formatUint n;
  inv_compat : forall t1 t2 l1 l2, t1 <> t2 -> byToken m !! t1 = Some l1 ->
    byToken m !! t2 = Some l2 -> compat (details l1) (details l2) }.

Lemma below_insert L t l k :
  L !! t = None ->
  below (<[t := l]> L) k = (below L k + if decide (k ∈ ancestors (rootOf l)) then 1 else 0)%nat.
Proof.
  intros Ht. unfold below. rewrite map_filter_insert. cbn [snd]. case_decide.
  - rewrite map_size_insert, map_lookup_filter, Ht. simpl. lia.
  - rewrite delete_id by done. lia.
Qed.

Lemma rooted_insert L t l k :
  L !! t = None ->
  rooted (<[t := l]> L) k = if decide (rootOf l = k) then {[t]} ∪ rooted L k else rooted L k.
Proof.
  intros Ht. unfold rooted. rewrite map_filter_insert. cbn [snd]. case_decide.
  - by rewrite dom_insert_L.
  - by rewrite delete_id.
Qed.

Lemma below_delete L t l k :
  L !! t = Some l ->
  below L k = (below (delete t L) k + if decide (k ∈ ancestors (rootOf l)) then 1 else 0)%nat.
Proof.
  intros Ht. rewrite <- (insert_delete_id L t l Ht) at 1. apply below_insert.
  apply lookup_delete_eq.
Qed.

Lemma elem_rooted L k t : t ∈ rooted L k <-> exists l, L !! t = Some l /\ rootOf l = k.
Proof.
  unfold rooted. rewrite elem_of_dom. unfold is_Some. setoid_rewrite map_lookup_filter_Some. done.
Qed.

Lemma rooted_delete L t k : rooted (delete t L) k = rooted L k ∖ {[t]}.
Proof.
  apply set_eq. intros u. rewrite elem_of_difference, !elem_rooted, elem_of_singleton.
  setoid_rewrite lookup_delete_Some. naive_solver.
Qed.

Lemma below_update L t l l' k :
  L !! t = Some l -> rootOf l = rootOf l' -> below (<[t := l']> L) k = below L k.
Proof.
  intros Ht Hr. rewrite (below_delete L t l k Ht), <- insert_delete_eq, below_insert, Hr by
    apply lookup_delete_eq. done.
Qed.

Lemma rooted_update L t l l' k :
  L !! t = Some l -> rootOf l = rootOf l' -> rooted (<[t := l']> L) k = rooted L k.
Proof.
  intros Ht Hr. apply set_eq. intros u. rewrite !elem_rooted.
  setoid_rewrite lookup_insert_Some. split; intros [x Hx].
  - destruct Hx as [[[-> ->]|[? ?]] ?]; [|by eauto]. exists l. split; [done|congruence].
  - destruct (decide (t = u)) as [->|]; [|naive_solver].
    exists l'. naive_solver congruence.
Qed.

Lemma below_pos L k : below L k <> 0%nat <-> exists t l, L !! t = Some l /\ k ∈ ancestors (rootOf l).
Proof.
  unfold below. rewrite map_size_ne_0_lookup. unfold is_Some.
  setoid_rewrite map_lookup_filter_Some. done.
Qed.

Lemma nodeOr0_inv m k :
  Inv m -> nodeOr0 (byName m) k = mkNode (rooted (byToken m) k) (Z.of_nat (below (byToken m) k)).
Proof.
  intros Hi. unfold nodeOr0. rewrite (inv_nodes m Hi). case_decide as Hb; [|done].
  simpl. rewrite Hb. f_equal. symmetry. apply elem_of_equiv_empty_L. intros t (l & Hl & <-)%elem_rooted.
  apply below_pos in Hb; [done|]. exists t, l. split; [done|]. apply ancestors_refl.
  by eapply inv_roots.
Qed.

Lemma index_inv m t :
  Inv m ->
  (forall l, byToken m !! t = Some l -> timed l ->
     exists i, byExpiryIndex m t = Z.of_nat i /\ arr (byExpiry m) !! i = Some t) /\
  ((forall l, byToken m !! t = Some l -> ~ timed l) ->
     byExpiryIndex m t = -1 /\ t ∉ arr (byExpiry m)).
Proof.
  intros Hi. destruct (pos_index (byExpiry m) t (inv_pos m Hi)) as [H1 H2]. split.
  - intros l Hl Ht. apply H1, (inv_elems m Hi). eauto.
  - intros Hn. assert (t ∉ arr (byExpiry m)).
    { rewrite (inv_elems m Hi). naive_solver. }
    split; [by apply H2|done].
Qed.

(** The heap of [m] without the lock [t], as remove, hold and Refresh compute it. *)
Definition unheap (m : memLS) (t : gostr) : hstate gostr :=
  if 0 <=? byExpiryIndex m t
  then heapRemove (expiryOf (byToken m)) (byExpiry m) (Z.to_nat (byExpiryIndex m t))
  else byExpiry m.

Lemma unheap_spec m t l :
  Inv m -> byToken m !! t = Some l ->
  pos_ok (unheap m t) /\ heap_ok (expiryOf (byToken m)) (unheap m t) /\
  (forall u, u ∈ arr (unheap m t) <-> u ∈ arr (byExpiry m) /\ u <> t) /\
  (timed l -> length (arr (unheap m t)) = (length (arr (byExpiry m)) - 1)%nat).
Proof.
  intros Hi Hl. unfold unheap. destruct (index_inv m t Hi) as [H1 H2].
  destruct (decide (held l = false)); [destruct (decide (0 <= Duration (details l)))|].
  - destruct (H1 l Hl) as (i & -> & Ha); [done|].
    destruct (0 <=? Z.of_nat i) eqn:E; bool_hyps; [|lia]. rewrite Nat2Z.id.
    destruct (heapRemove_spec (expiryOf (byToken m)) _ i t (inv_pos m Hi) (inv_heap m Hi) Ha)
      as (? & ? & ? & ?). done.
  - destruct H2 as [-> Hna]; [unfold timed; naive_solver|]. cbn.
    split; [apply Hi|]. split; [apply Hi|]. split; [|unfold timed; naive_solver].
    intros u. split; [|naive_solver]. intros Hu. split; [done|]. by intros ->.
  - destruct H2 as [-> Hna]; [unfold timed; naive_solver|]. cbn.
    split; [apply Hi|]. split; [apply Hi|]. split; [|unfold timed; naive_solver].
    intros u. split; [|naive_solver]. intros Hu. split; [done|]. by intros ->.
Qed.

Lemma expiryOf_ne L t l u : u <> t -> expiryOf (<[t := l]> L) u = expiryOf L u.
Proof. intros Hu. unfold expiryOf. by rewrite lookup_insert_ne. Qed.

Lemma expiryOf_delete_ne L t u : u <> t -> expiryOf (delete t L) u = expiryOf L u.
Proof. intros Hu. unfold expiryOf. by rewrite lookup_delete_ne. Qed.

(** remove deletes the lock, and no reference of its path is missing. *)
Lemma remove_spec m t l :
  Inv m -> byToken m !! t = Some l ->
  exists m', remove m t = Some m' /\ Inv m' /\ byToken m' = delete t (byToken m) /\
  gen m' = gen m /\ (timed l -> length (arr (byExpiry m')) = (length (arr (byExpiry m)) - 1)%nat).
Proof.
  intros Hi Hl. pose proof (inv_roots m Hi t l Hl) as Hr. unfold remove. rewrite Hl.
  fold (rootOf l). set (names := alter _ _ _).
  assert (Hnn : forall k, nodeOr0 names k =
    mkNode (if decide (rootOf l = k) then rooted (byToken m) k ∖ {[t]} else rooted (byToken m) k)
           (Z.of_nat (below (byToken m) k))).
  { intros k. unfold nodeOr0, names. rewrite lookup_alter. case_decide.
    - subst k. rewrite (inv_nodes m Hi). case_decide as Hb; [|done].
      apply below_pos in Hb; [done|]. eauto using ancestors_refl.
    - apply (nodeOr0_inv m k Hi). }
  rewrite walk_clean by done.
  destruct (remove_fold names (ancestors (rootOf l)) true) as (names' & -> & Hn').
  { by apply ancestors_NoDup. }
  { intros k Hk. unfold names. rewrite lookup_alter.
    assert (is_Some (byName m !! k)) as [x Hx].
    { rewrite (inv_nodes m Hi). rewrite decide_False; [by eexists|]. apply below_pos. eauto. }
    destruct (decide (rootOf l = k)) as [->|]; rewrite Hx; by eexists. }
  eexists. split; [done|]. fold (unheap m t).
  destruct (unheap_spec m t l Hi Hl) as (U1 & U2 & U3 & U4).
  split; [|done]. constructor; cbn [byToken byName byExpiry gen].
  - intros u x [_ Hx]%lookup_delete_Some. by eapply inv_roots.
  - intros k. rewrite Hn', Hnn. cbn [locks refCount].
    pose proof (below_delete _ t l k Hl) as Hb. rewrite rooted_delete.
    destruct (decide (k ∈ ancestors (rootOf l))) as [Hk|Hk].
    + destruct (Z.of_nat (below (byToken m) k) - 1 =? 0) eqn:E; bool_hyps.
      * rewrite decide_True by lia. done.
      * rewrite (decide_False (P := below _ _ = 0%nat)) by lia. do 2 f_equal; [|lia]. case_decide; [done|].
        apply set_eq. intros u. rewrite elem_of_difference, elem_of_singleton, elem_rooted.
        naive_solver.
    + rewrite Nat.add_0_r in Hb. rewrite <- Hb. unfold names.
      rewrite lookup_alter_ne by (intros <-; by apply Hk, ancestors_refl).
      rewrite (inv_nodes m Hi). case_decide; [done|]. do 2 f_equal.
      apply set_eq. intros u. rewrite elem_of_difference, elem_of_singleton, elem_rooted.
      split; [|naive_solver]. intros (x & Hx & <-). split; [by eauto|]. intros ->.
      simplify_eq. by apply Hk, ancestors_refl.
  - done.
  - eapply heap_ok_ext, U2. intros u Hu. symmetry. apply expiryOf_delete_ne. by apply U3.
  - intros u. rewrite U3, (inv_elems m Hi). setoid_rewrite lookup_delete_Some. naive_solver.
  - apply Hi.
  - intros u x [_ Hx]%lookup_delete_Some. by eapply inv_tokens.
  - intros t1 t2 l1 l2 H12 [_ H1]%lookup_delete_Some [_ H2]%lookup_delete_Some.
    by apply (inv_compat m Hi t1 t2).
Qed.

(** ** collectExpiredNodes *)
Definition expired (now : Z) (l : memLSLock) : Prop :=
  held l = false /\ 0 <= Duration (details l) /\ expiry l <= now.

#[export] Instance expired_dec now l : Decision (expired now l).
Proof. unfold expired. apply _. Defined.

Definition live (now : Z) (L : gmap gostr memLSLock) : gmap gostr memLSLock :=
  filter (fun tl => ~ expired now tl.2) L.

Lemma live_lookup now L t l : live now L !! t = Some l <-> L !! t = Some l /\ ~ expired now l.
Proof. apply map_lookup_filter_Some. Qed.

Lemma live_id now L : (forall t l, L !! t = Some l -> ~ expired now l) -> live now L = L.
Proof. intros H. by apply map_filter_id. Qed.

Lemma live_delete now L t l : L !! t = Some l -> expired now l -> live now (delete t L) = live now L.
Proof.
  intros Hl He. apply map_eq. intros u. apply option_eq. intros x.
  rewrite !live_lookup, lookup_delete_Some. naive_solver.
Qed.

Lemma collect_spec m now :
  Inv m ->
  exists m', collectExpiredNodes m now = Some m' /\ Inv m' /\
  byToken m' = live now (byToken m) /\ gen m' = gen m.
Proof.
  unfold collectExpiredNodes. remember (length (arr (byExpiry m))) as n eqn:En. symmetry in En.
  revert m En. induction n as [|n IH]; intros m En Hi.
  - destruct (arr (byExpiry m)) eqn:Ea; [|done]. exists m. simpl. rewrite Ea.
    split; [done|]. split; [done|]. split; [|done]. symmetry. apply live_id.
    intros t l Hl (? & ? & _). assert (t ∈ arr (byExpiry m)).
    { apply (inv_elems m Hi). by exists l. }
    rewrite Ea in *. by apply not_elem_of_nil in H1.
  - destruct (arr (byExpiry m)) as [|t a] eqn:Ea; [done|]. cbn [collectLoop]. rewrite Ea.
    assert (Ht : arr (byExpiry m) !! 0%nat = Some t) by by rewrite Ea.
    assert (t ∈ arr (byExpiry m)) as (l & Hl & Hd)%(inv_elems m Hi) by (rewrite Ea; by left).
    assert (Hk : expiryOf (byToken m) t = expiry l) by (unfold expiryOf; by rewrite Hl).
    destruct (now <? expiryOf (byToken m) t) eqn:E; bool_hyps.
    + exists m. split; [done|]. split; [done|]. split; [|done]. symmetry. apply live_id.
      intros u x Hx (? & ? & ?). assert (u ∈ arr (byExpiry m)) as [i Hu]%list_elem_of_lookup.
      { apply (inv_elems m Hi). by exists x. }
      pose proof (heap_min _ _ _ _ _ (inv_heap m Hi) Ht Hu) as Hmin.
      unfold expiryOf in Hmin at 2. rewrite Hx in Hmin. lia.
    + destruct (remove_spec m t l Hi Hl) as (m1 & -> & Hi1 & Hb & Hg & Hlen).
      edestruct (IH m1) as (m' & -> & Hi' & Hb' & Hg'); [|done|].
      { rewrite Hlen, Ea by done. simpl. simpl in En. lia. }
      exists m'. split; [done|]. split; [done|]. split; [|congruence].
      rewrite Hb', Hb. apply (live_delete _ _ _ l Hl). destruct Hd. split; [done|].
      split; [done|]. lia.
Qed.

(** ** canCreate decides compatibility with every lock *)
Lemma check_fold (g : gostr -> bool -> bool) ns first :
  foldWalk (fun (_ : unit) n first => Some (tt, g n first)) tt ns first =
  Some (tt, match ns with [] => true | n :: ns => g n first && forallb (fun n => g n false) ns end).
Proof.
  revert first. induction ns as [|n ns IH]; intros first; [done|]. cbn [foldWalk].
  destruct (g n first); [|done]. rewrite IH. destruct ns; [done|]. done.
Qed.

Definition compatAll (L : gmap gostr memLSLock) (d : LockDetails) : Prop :=
  forall t l, L !! t = Some l -> compat d (details l).

#[export] Instance compatAll_dec L d : Decision (compatAll L d).
Proof.
  refine (cast_if (decide (map_Forall (fun _ l => compat d (details l)) L))); done.
Defined.

Lemma forallb_rooted L k (P : memLSLock -> bool) :
  forallb (fun t => match L !! t with Some l => P l | None => false end) (elements (rooted L k)) = true
  <-> forall t l, L !! t = Some l -> rootOf l = k -> P l = true.
Proof.
  rewrite List.forallb_forall. setoid_rewrite <- list_elem_of_In.
  setoid_rewrite elem_of_elements. setoid_rewrite elem_rooted. split.
  - intros H t l Hl Hk. specialize (H t). rewrite Hl in H. apply H. eauto.
  - intros H t (l & Hl & Hk). rewrite Hl. eauto.
Qed.

Lemma infinite_rooted m n :
  hasInfiniteLock m n =
  negb (forallb (fun t => match byToken m !! t with
                          | Some l => ZeroDepth (details l) | None => true end) (elements (locks n))).
Proof.
  unfold hasInfiniteLock. induction (elements (locks n)) as [|t ts IH]; [done|]. cbn [existsb forallb].
  rewrite IH. destruct (byToken m !! t) as [l|]; [by destruct (ZeroDepth (details l))|done].
Qed.

Lemma rooted_below L k : (forall t l, L !! t = Some l -> clean_root (rootOf l)) ->
  (size (rooted L k) <= below L k)%nat /\
  (below L k = size (rooted L k) <->
   forall t l, L !! t = Some l -> k ∈ ancestors (rootOf l) -> rootOf l = k).
Proof.
  intros Hc. unfold below. rewrite <- (size_dom (D := gset gostr)). fold (rooted L k).
  set (B := dom _ : gset gostr).
  assert (Hb : forall t, t ∈ B <-> exists l, L !! t = Some l /\ k ∈ ancestors (rootOf l)).
  { intros t. unfold B. rewrite elem_of_dom. unfold is_Some.
    setoid_rewrite map_lookup_filter_Some. done. }
  assert (Hs : rooted L k ⊆ B).
  { intros t (l & Hl & <-)%elem_rooted. apply Hb. exists l. split; [done|].
    eapply ancestors_refl, Hc, Hl. }
  split; [by apply subseteq_size|]. split.
  - intros Heq t l Hl Hk. assert (rooted L k ≡ B) as Hsub.
    { apply (set_subseteq_size_equiv _ _ Hs). lia. }
    assert (t ∈ rooted L k) as (l' & ? & ?)%elem_rooted by (apply Hsub, Hb; eauto).
    by simplify_eq.
  - intros H. f_equal. apply set_eq. intros t. split; [|apply Hs].
    rewrite Hb, elem_rooted. intros (l & Hl & Hk). eauto.
Qed.

Definition checkNode (m : memLS) (zeroDepth wantShared : bool) (name0 : gostr) (first : bool) : bool :=
  match byName m !! name0 with
  | None => true
  | Some n =>
      if first then
        if negb (size (locks n) =? 0)%nat then
          if negb wantShared
             || (negb zeroDepth && negb (refCount n =? Z.of_nat (size (locks n)))) then false
          else forallb (fun t => match byToken m !! t with
                                 | Some l => Shared (details l)
                                             && Bool.eqb (ZeroDepth (details l)) zeroDepth
                                 | None => false
                                 end) (elements (locks n))
        else if negb zeroDepth && (0 <? refCount n) then false
        else true
      else negb (hasInfiniteLock m n)
  end.

Lemma strict_below r k : clean_root r -> clean_root k -> r ∈ ancestors k -> k <> r -> k ∉ ancestors r.
Proof. intros Hr Hk Ha Hne Hb. by apply Hne, ancestors_antisym. Qed.

Lemma node_inv m k :
  Inv m ->
  (byName m !! k = None /\ below (byToken m) k = 0%nat) \/
  (byName m !! k = Some (mkNode (rooted (byToken m) k) (Z.of_nat (below (byToken m) k))) /\
   below (byToken m) k <> 0%nat).
Proof. intros Hi. rewrite (inv_nodes m Hi). case_decide; [by left|by right]. Qed.

(** The first node: the locks at or below the wanted root. *)
Lemma checkNode_first m d :
  Inv m -> clean_root (Root d) ->
  checkNode m (ZeroDepth d) (Shared d) (Root d) true = true <->
  forall t l, byToken m !! t = Some l -> Root d ∈ ancestors (rootOf l) -> compat d (details l).
Proof.
  intros Hi Hr. set (L := byToken m). set (r := Root d) in *.
  pose proof (rooted_below L r (inv_roots m Hi)) as [Hle Hsz].
  assert (Hself : forall l, rootOf l = r -> compat d (details l) <->
    Shared d = true /\ Shared (details l) = true /\ ZeroDepth d = ZeroDepth (details l)).
  { intros l Hl. unfold compat. split; [|done]. intros H. apply H. by left. }
  assert (Hstrict : forall t l, L !! t = Some l -> r ∈ ancestors (rootOf l) -> rootOf l <> r ->
    compat d (details l) <-> ZeroDepth d = true).
  { intros t l Hl Ha Hne. pose proof (inv_roots m Hi t l Hl) as Hc.
    pose proof (strict_below _ _ Hr Hc Ha Hne). unfold compat, overlaps. fold r (rootOf l).
    destruct (ZeroDepth d); [split; [done|]|]; naive_solver. }
  unfold checkNode. fold L. destruct (node_inv m r Hi) as [[-> Hb]|[-> Hb]]; fold L in Hb.
  { split; [|done]. intros _ t l Hl Ha. exfalso. apply below_pos in Hb; [done|]. eauto. }
  cbn [locks refCount]. fold L.
  destruct (size (rooted L r) =? 0)%nat eqn:Es; cbn [negb].
  - apply Nat.eqb_eq in Es.
    assert (Hno : forall t l, L !! t = Some l -> rootOf l <> r).
    { intros t l Hl Hk. apply size_empty_inv in Es.
      assert (t ∈ rooted L r) by (apply elem_rooted; eauto). set_solver. }
    destruct (0 <? Z.of_nat _) eqn:E0; bool_hyps; [|lia]. rewrite andb_true_r.
    apply below_pos in Hb as (t0 & l0 & Hl0 & Ha0).
    destruct (ZeroDepth d) eqn:Ez; cbn [negb]; (split; [|try done]).
    + intros _ t l Hl Ha. apply (Hstrict t l Hl Ha); eauto.
    + done.
    + intros H. assert (false = true); [|done]. apply (Hstrict t0 l0); eauto.
  - apply Nat.eqb_neq in Es.
    assert (exists t0 l0, L !! t0 = Some l0 /\ rootOf l0 = r) as (t0 & l0 & Hl0 & Hr0).
    { destruct (set_choose_or_empty (rooted L r)) as [[t Ht]|He].
      - apply elem_rooted in Ht as (l & ? & ?). eauto.
      - rewrite He, size_empty in Es. done. }
    destruct (negb (Shared d) || _) eqn:E.
    + split; [done|]. intros H. exfalso. apply orb_prop in E as [E|E]; bool_hyps.
      * destruct (proj1 (Hself l0 Hr0)) as (? & _); [|congruence].
        apply (H t0 l0 Hl0). rewrite Hr0. by apply ancestors_refl.
      * apply H1. f_equal. apply Hsz. intros t l Hl Ha. destruct (decide (rootOf l = r)); [done|].
        pose proof (proj1 (Hstrict t l Hl Ha n) (H t l Hl Ha)). congruence.
    + apply orb_false_elim in E as [E1 E2]. apply negb_false_iff in E1.
      rewrite forallb_rooted. split.
      * intros H t l Hl Ha. destruct (decide (rootOf l = r)) as [Hk|Hk].
        -- apply Hself; [done|]. specialize (H t l Hl Hk). apply andb_prop in H as [? H].
           by apply Bool.eqb_prop in H.
        -- apply (Hstrict t l Hl Ha Hk). destruct (ZeroDepth d); [done|]. cbn in E2.
           apply negb_false_iff, Z.eqb_eq, Nat2Z.inj in E2. exfalso. apply Hk.
           by apply (proj1 Hsz E2 t).
      * intros H t l Hl Hk. destruct (proj1 (Hself l Hk)) as (? & -> & ->).
        { apply (H t l Hl). rewrite Hk. by apply ancestors_refl. }
        cbn. apply Bool.eqb_reflx.
Qed.

(** A proper ancestor: the locks rooted there. *)
Lemma checkNode_up m d k :
  Inv m -> clean_root (Root d) -> clean_root k -> k ∈ ancestors (Root d) -> k <> Root d ->
  checkNode m (ZeroDepth d) (Shared d) k false = true <->
  forall t l, byToken m !! t = Some l -> rootOf l = k -> compat d (details l).
Proof.
  intros Hi Hr Hck Ha Hne. pose proof (strict_below k (Root d) Hck Hr Ha ltac:(done)) as Hn.
  assert (Hc : forall l, rootOf l = k -> compat d (details l) <-> ZeroDepth (details l) = true).
  { intros l <-. unfold compat, overlaps. fold (rootOf l).
    destruct (ZeroDepth (details l)); [split; [done|]|]; naive_solver. }
  unfold checkNode. destruct (node_inv m k Hi) as [[-> Hb]|[-> Hb]].
  - split; [|done]. intros _ t l Hl Hk. exfalso. apply below_pos in Hb; [done|]. exists t, l.
    split; [done|]. rewrite Hk. by apply ancestors_refl.
  - rewrite infinite_rooted, negb_involutive. cbn [locks].
    rewrite List.forallb_forall. setoid_rewrite <- list_elem_of_In.
    setoid_rewrite elem_of_elements. split.
    + intros H t l Hl Hk. apply Hc; [done|]. specialize (H t). rewrite Hl in H. apply H.
      apply elem_rooted. eauto.
    + intros H t (l & Hl & Hk)%elem_rooted. rewrite Hl. apply (Hc l Hk). eauto.
Qed.

Lemma ancestors_clean r k : clean_root r -> k ∈ ancestors r -> clean_root k.
Proof.
  intros (s & G & ->). rewrite ancestors_mkpath, ancs_elem by done. intros (p & Hp & ->).
  exists p. split; [|done]. by eapply good_prefix.
Qed.

Lemma canCreate_spec m d :
  Inv m -> clean_root (Root d) ->
  canCreate m (Root d) (ZeroDepth d) (Shared d) = Some (bool_decide (compatAll (byToken m) d)).
Proof.
  intros Hi Hr. unfold canCreate. rewrite walk_clean by done.
  rewrite (check_fold (checkNode m (ZeroDepth d) (Shared d))).
  destruct (ancestors_head _ Hr) as (up & Hup & Hnot). rewrite Hup.
  cbn [fmap option_fmap option_map snd]. f_equal. symmetry. case_bool_decide as Hc; symmetry.
  - apply andb_true_intro. split.
    + apply checkNode_first; [done|done|]. eauto.
    + apply List.forallb_forall. intros k Hk%list_elem_of_In.
      assert (Ha : k ∈ ancestors (Root d)) by (rewrite Hup; by right).
      apply checkNode_up; [done|done|by eapply ancestors_clean|done|by intros ->|]. eauto.
  - apply not_true_is_false. intros [H1 H2]%andb_prop. apply Hc. intros t l Hl.
    destruct (decide (Root d ∈ ancestors (rootOf l))) as [Ha|Ha].
    { by eapply checkNode_first. }
    destruct (decide (rootOf l ∈ up)) as [Hu|Hu].
    + rewrite List.forallb_forall in H2. specialize (H2 (rootOf l)).
      eapply (checkNode_up m d (rootOf l)); [done|done|..| |done|done].
      * by eapply inv_roots.
      * rewrite Hup. by right.
      * by intros Heq; rewrite Heq in Hu.
      * apply H2. by apply list_elem_of_In.
    + intros Ho. exfalso. pose proof (inv_roots m Hi t l Hl) as Hcl.
      destruct Ho as [He|[[_ He]|[_ He]]]; fold (rootOf l) in He.
      * apply Ha. rewrite He. by apply ancestors_refl.
      * done.
      * rewrite Hup in He. apply elem_of_cons in He as [He|He]; [|done].
        apply Ha. rewrite <- He. by apply ancestors_refl.
Qed.

(** ** Updating a lock in place: hold, unhold and Refresh *)
Lemma compat_ext d1 d2 e1 e2 :
  Root d1 = Root e1 -> ZeroDepth d1 = ZeroDepth e1 -> Shared d1 = Shared e1 ->
  Root d2 = Root e2 -> ZeroDepth d2 = ZeroDepth e2 -> Shared d2 = Shared e2 ->
  compat d1 d2 -> compat e1 e2.
Proof. unfold compat, overlaps. intros -> -> -> -> -> ->. done. Qed.

Lemma compat_sym d1 d2 : compat d1 d2 -> compat d2 d1.
Proof. unfold compat, overlaps. naive_solver. Qed.

Definition sameScope (l l' : memLSLock) : Prop :=
  Root (details l) = Root (details l') /\ ZeroDepth (details l) = ZeroDepth (details l') /\
  Shared (details l) = Shared (details l').

Lemma Inv_update m t l l' h :
  Inv m -> byToken m !! t = Some l -> sameScope l l' ->
  pos_ok h -> heap_ok (expiryOf (<[t := l']> (byToken m))) h ->
  (forall u, u ∈ arr h <-> (u <> t /\ u ∈ arr (byExpiry m)) \/ (u = t /\ timed l')) ->
  Inv (mkLS (byName m) (<[t := l']> (byToken m)) (gen m) h).
Proof.
  intros Hi Hl (Hr & Hz & Hs) Hp Hh Hu. constructor; cbn [byToken byName byExpiry gen]; try done.
  - intros u x [[<- <-]|[_ Hx]]%lookup_insert_Some; [|by eapply inv_roots].
    unfold rootOf. rewrite <- Hr. by apply (inv_roots m Hi t).
  - intros k. rewrite (inv_nodes m Hi). by rewrite (below_update _ t l l'), (rooted_update _ t l l').
  - intros u. rewrite Hu, (inv_elems m Hi). setoid_rewrite lookup_insert_Some. naive_solver.
  - apply Hi.
  - intros u x [[<- <-]|[_ Hx]]%lookup_insert_Some; by eapply inv_tokens.
  - intros t1 t2 l1 l2 H12 [[<- <-]|[Hne1 H1]]%lookup_insert_Some
      [[<- <-]|[Hne2 H2]]%lookup_insert_Some; [done|..].
    + eapply compat_ext; [..|by apply (inv_compat m Hi t t2 l l2)]; done.
    + eapply compat_ext; [..|by apply (inv_compat m Hi t1 t l1 l)]; done.
    + by apply (inv_compat m Hi t1 t2).
Qed.

Lemma unheap_update m t l l' :
  Inv m -> byToken m !! t = Some l -> sameScope l l' -> ~ timed l' ->
  Inv (mkLS (byName m) (<[t := l']> (byToken m)) (gen m) (unheap m t)).
Proof.
  intros Hi Hl Hs Ht. destruct (unheap_spec m t l Hi Hl) as (U1 & U2 & U3 & _).
  apply (Inv_update m t l); try done.
  - eapply heap_ok_ext, U2. intros u Hu. symmetry. apply expiryOf_ne. by apply U3.
  - intros u. rewrite U3. naive_solver.
Qed.

Lemma reheap_update m t l l' :
  Inv m -> byToken m !! t = Some l -> sameScope l l' -> timed l' ->
  Inv (mkLS (byName m) (<[t := l']> (byToken m)) (gen m)
    (heapPush (expiryOf (<[t := l']> (byToken m))) (unheap m t) t)).
Proof.
  intros Hi Hl Hs Ht. destruct (unheap_spec m t l Hi Hl) as (U1 & U2 & U3 & _).
  destruct (heapPush_spec (expiryOf (<[t := l']> (byToken m))) (unheap m t) t) as (P1 & P2 & P3).
  - done.
  - eapply heap_ok_ext, U2. intros u Hu. symmetry. apply expiryOf_ne. by apply U3.
  - rewrite U3. naive_solver.
  - apply (Inv_update m t l); try done. intros u. rewrite P3, U3. naive_solver.
Qed.

Lemma untimed_unheap m t l : Inv m -> byToken m !! t = Some l -> ~ timed l -> unheap m t = byExpiry m.
Proof.
  intros Hi Hl Ht. unfold unheap. destruct (index_inv m t Hi) as [_ H].
  destruct H as [-> _]; [|done]. naive_solver.
Qed.

Definition with_held (l : memLSLock) (b : bool) : memLSLock := mkLock (details l) (expiry l) b.

Lemma hold_spec m t l :
  Inv m -> byToken m !! t = Some l -> held l = false ->
  exists m', hold m t = Some m' /\ Inv m' /\ gen m' = gen m /\
  byToken m' = <[t := with_held l true]> (byToken m).
Proof.
  intros Hi Hl Hh. unfold hold. rewrite Hl, Hh. eexists. split; [done|].
  assert (Hu : (if (0 <=? Duration (details l)) && (0 <=? byExpiryIndex m t)
                then heapRemove (expiryOf (byToken m)) (byExpiry m) (Z.to_nat (byExpiryIndex m t))
                else byExpiry m) = unheap m t).
  { destruct (0 <=? Duration (details l)) eqn:E; [done|]. cbn. bool_hyps. symmetry.
    apply (untimed_unheap m t l); [done|done|]. intros []. lia. }
  rewrite Hu. split; [|done]. apply (unheap_update m t l); [done|done|done|]. by intros [].
Qed.

Lemma unhold_spec m t l :
  Inv m -> byToken m !! t = Some l -> held l = true ->
  exists m', unhold m t = Some m' /\ Inv m' /\ gen m' = gen m /\
  byToken m' = <[t := with_held l false]> (byToken m).
Proof.
  intros Hi Hl Hh. unfold unhold. rewrite Hl, Hh. cbn [negb]. eexists. split; [done|].
  unfold set_lock, set_byToken, set_byExpiry. cbn [byName byToken gen byExpiry].
  rewrite <- (untimed_unheap m t l) by (try done; intros []; congruence).
  destruct (0 <=? Duration (details l)) eqn:E; bool_hyps; (split; [|done]).
  - apply (reheap_update m t l); [done|done|done|]. by split.
  - apply (unheap_update m t l); [done|done|done|]. intros [_ Hd]. cbn in Hd. lia.
Qed.

(** ** Adding a lock *)
Lemma fresh_token m : Inv m -> gen m < 2 ^ 64 - 1 -> byToken m !! formatUint (gen m + 1) = None.
Proof.
  intros Hi Hg. destruct (byToken m !! formatUint (gen m + 1)) as [l|] eqn:E; [|done].
  pose proof (inv_gen m Hi). destruct (inv_tokens m Hi _ _ E) as (n & Hn & Heq).
  apply formatUint_inj in Heq; unfold u64_ok in *; lia.
Qed.

(** Create from the insertion of the nodes on. *)
Definition addLock (m : memLS) (now : Z) (d : LockDetails) : option (memLS * gostr) :=
  let! m := create m (Root d) in
  let '(m, token) := nextToken m in
  let finite := 0 <=? Duration d in
  let lock := mkLock d (if finite then now + Duration d else 0) false in
  let names := alter (fun n => mkNode ({[token]} ∪ locks n) (refCount n)) (Root d) (byName m) in
  let m := set_byName (set_lock m token lock) names in
  let h := mkHeap (arr (byExpiry m)) (<[token := -1]> (pos (byExpiry m))) in
  let h := if finite then heapPush (expiryOf (byToken m)) h token else h in
  Some (set_byExpiry m h, token).

Definition newLock (now : Z) (d : LockDetails) : memLSLock :=
  mkLock d (if 0 <=? Duration d then now + Duration d else 0) false.

Lemma addLock_heap m t l :
  Inv m -> byToken m !! t = None -> held l = false ->
  let h0 := mkHeap (arr (byExpiry m)) (<[t := -1]> (pos (byExpiry m))) in
  let L := <[t := l]> (byToken m) in
  let h := if 0 <=? Duration (details l) then heapPush (expiryOf L) h0 t else h0 in
  pos_ok h /\ heap_ok (expiryOf L) h /\
  (forall u, u ∈ arr h <-> exists x, L !! u = Some x /\ timed x).
Proof.
  intros Hi Ht Hh h0 L h.
  assert (Hna : t ∉ arr (byExpiry m)).
  { rewrite (inv_elems m Hi). naive_solver. }
  assert (H0 : pos_ok h0 /\ heap_ok (expiryOf L) h0).
  { destruct (inv_pos m Hi) as (P1 & P2 & P3). split; [split; [done|split]|].
    - cbn. intros i a Ha. rewrite lookup_insert_ne; [by apply P2|].
      intros ->. by apply Hna, list_elem_of_lookup; exists i.
    - cbn. intros a p [[<- <-]|[_ Hp]]%lookup_insert_Some; [by right|]. by apply P3.
    - eapply (heap_ok_ext (expiryOf (byToken m))); [|apply (inv_heap m Hi)].
      intros u Hu. symmetry. apply expiryOf_ne. intros ->. done. }
  assert (Hold : forall u, u ∈ arr (byExpiry m) <-> u <> t /\ exists x, L !! u = Some x /\ timed x).
  { intros u. rewrite (inv_elems m Hi). unfold L. setoid_rewrite lookup_insert_Some. naive_solver. }
  destruct H0 as [Hp Hk]. unfold h. destruct (0 <=? Duration (details l)) eqn:E; bool_hyps.
  - destruct (heapPush_spec (expiryOf L) h0 t Hp Hk Hna) as (Q1 & Q2 & Q3).
    split; [done|]. split; [done|]. intros u. rewrite Q3. cbn. rewrite Hold. split.
    + intros [[_ H]| ->]; [done|]. exists l. unfold L. rewrite lookup_insert_eq. by repeat split.
    + intros H. destruct (decide (u = t)); [by right|by left].
  - split; [done|]. split; [done|]. intros u. cbn. rewrite Hold. split; [naive_solver|].
    intros (x & Hx & Htm). split; [|eauto]. intros ->. unfold L in Hx.
    rewrite lookup_insert_eq in Hx. simplify_eq. destruct Htm. lia.
Qed.

Lemma addLock_spec m now d :
  Inv m -> gen m < 2 ^ 64 - 1 -> clean_root (Root d) -> compatAll (byToken m) d ->
  exists m', addLock m now d = Some (m', formatUint (gen m + 1)) /\ Inv m' /\
  gen m' = gen m + 1 /\
  byToken m' = <[formatUint (gen m + 1) := newLock now d]> (byToken m).
Proof.
  intros Hi Hg Hr Hc. pose proof (inv_gen m Hi) as Hgo. pose proof (fresh_token m Hi Hg) as Hf.
  unfold addLock, create. rewrite walk_clean by done.
  destruct (create_fold (byName m) (ancestors (Root d)) true) as (names & -> & Hn).
  { by apply ancestors_NoDup. }
  cbn [mbind option_bind nextToken set_byName gen byName byToken byExpiry].
  rewrite (u64_id (gen m + 1)) by (unfold u64_ok in *; lia).
  set (t := formatUint (gen m + 1)) in *. fold (newLock now d).
  eexists. split; [done|].
  unfold set_lock, set_byName, set_byToken, set_byExpiry. cbn [byName byToken gen byExpiry].
  split; [|done].
  destruct (addLock_heap m t (newLock now d) Hi Hf eq_refl) as (A1 & A2 & A3).
  constructor; cbn [byName byToken gen byExpiry]; try done.
  - intros u x [[<- <-]|[_ Hx]]%lookup_insert_Some; [done|]. by eapply inv_roots.
  - intros k. rewrite below_insert, rooted_insert by done. rewrite lookup_alter.
    change (rootOf (newLock now d)) with (Root d).
    assert (Hnk : names !! k = if decide (k ∈ ancestors (Root d))
      then Some (mkNode (rooted (byToken m) k) (Z.of_nat (below (byToken m) k) + 1))
      else byName m !! k).
    { rewrite Hn. case_decide; [|done]. by rewrite (nodeOr0_inv m k Hi). }
    destruct (decide (k ∈ ancestors (Root d))) as [Hk|Hk].
    + rewrite (decide_False (P := (_ + 1)%nat = 0%nat)) by lia.
      destruct (decide (Root d = k)) as [->|Hne]; rewrite Hnk; cbn; do 2 f_equal; lia.
    + rewrite decide_False by (intros <-; by apply Hk, ancestors_refl).
      rewrite Hnk, (inv_nodes m Hi), Nat.add_0_r. case_decide; [done|].
      rewrite decide_False by (intros <-; by apply Hk, ancestors_refl). done.
  - unfold u64_ok in *. lia.
  - intros u x [[<- <-]|[_ Hx]]%lookup_insert_Some.
    + exists (gen m + 1). unfold u64_ok in *. split; [lia|done].
    + destruct (inv_tokens m Hi u x Hx) as (n & ? & ->). exists n. split; [lia|done].
  - intros t1 t2 l1 l2 H12 [[<- <-]|[Hne1 H1]]%lookup_insert_Some
      [[<- <-]|[Hne2 H2]]%lookup_insert_Some; [done|..].
    + by apply (Hc t2).
    + by apply compat_sym, (Hc t1).
    + by apply (inv_compat m Hi t1 t2).
Qed.

(** ** The abstract lock system: a map from tokens to locks

    Nodes, reference counts and the expiry heap do not appear: the locks that
    expired are filtered out and a new lock is checked against every other one. *)
Record absLS := mkAbs { aLocks : gmap gostr memLSLock; aGen : Z }.

Definition abs (m : memLS) : absLS := mkAbs (byToken m) (gen m).

Definition cleanDetails (d : LockDetails) : LockDetails :=
  mkDetails (slashClean (Root d)) (Duration d) (OwnerXML d) (ZeroDepth d) (Shared d).

Definition absCreate (a : absLS) (now : Z) (d : LockDetails) : absLS * res dav_err gostr :=
  let L := live now (aLocks a) in
  if decide (compatAll L (cleanDetails d)) then
    let t := formatUint (aGen a + 1) in
    (mkAbs (<[t := newLock now (cleanDetails d)]> L) (aGen a + 1), Ok t)
  else (mkAbs L (aGen a), Err ErrLocked).

Definition absUnlock (a : absLS) (now : Z) (t : gostr) : absLS * res dav_err unit :=
  let L := live now (aLocks a) in
  match L !! t with
  | None => (mkAbs L (aGen a), Err ErrNoSuchLock)
  | Some l => if held l then (mkAbs L (aGen a), Err ErrLocked)
              else (mkAbs (delete t L) (aGen a), Ok tt)
  end.

Definition refreshed (now duration : Z) (l : memLSLock) : memLSLock :=
  let d := details l in
  mkLock (mkDetails (Root d) duration (OwnerXML d) (ZeroDepth d) (Shared d))
    (if 0 <=? duration then now + duration else expiry l) (held l).

Definition absRefresh (a : absLS) (now : Z) (t : gostr) (duration : Z)
  : absLS * res dav_err LockDetails :=
  let L := live now (aLocks a) in
  match L !! t with
  | None => (mkAbs L (aGen a), Err ErrNoSuchLock)
  | Some l => if held l then (mkAbs L (aGen a), Err ErrLocked)
              else (mkAbs (<[t := refreshed now duration l]> L) (aGen a),
                    Ok (details (refreshed now duration l)))
  end.

(** The token of the first condition that names a lock nobody holds and whose
    scope covers [name]. *)
Definition covers (L : gmap gostr memLSLock) (name t : gostr) : Prop :=
  match L !! t with
  | None => False
  | Some l => held l = false /\
      (name = rootOf l \/ (ZeroDepth (details l) = false /\ rootOf l ∈ ancestors name))
  end.

#[export] Instance covers_dec L name t : Decision (covers L name t).
Proof. unfold covers. destruct (L !! t); apply _. Defined.

Definition firstCovering (L : gmap gostr memLSLock) (name : gostr) (cs : list Condition)
  : option gostr := snd <$> list_find (covers L name) (map Token cs).

Definition absName (L : gmap gostr memLSLock) (name : gostr) (cs : list Condition)
  : res dav_err (option gostr) :=
  if seqb name "" then Ok None
  else match firstCovering L (slashClean name) cs with
       | None => Err ErrConfirmationFailed
       | Some t => Ok (Some t)
       end.

Definition setHeld (b : bool) (L : gmap gostr memLSLock) (t : option gostr) : gmap gostr memLSLock :=
  match t with Some t => alter (fun l => with_held l b) t L | None => L end.

Definition absConfirm (a : absLS) (now : Z) (name0 name1 : gostr) (cs : list Condition)
  : absLS * res dav_err Release :=
  let L := live now (aLocks a) in
  match absName L name0 cs, absName L name1 cs with
  | Ok n0, Ok n1 =>
      let n1 := if bool_decide (n1 = n0) then None else n1 in
      (mkAbs (setHeld true (setHeld true L n0) n1) (aGen a), Ok (n0, n1))
  | Err e, _ | _, Err e => (mkAbs L (aGen a), Err e)
  end.

Definition absRelease (a : absLS) (r : Release) : absLS :=
  mkAbs (setHeld false (setHeld false (aLocks a) (snd r)) (fst r)) (aGen a).

(** ** Every operation refines its abstract one *)
Definition refines {R} (out : option (memLS * R)) (spec : absLS * R) : Prop :=
  exists m', out = Some (m', spec.2) /\ Inv m' /\ abs m' = spec.1.

Lemma Create_refines m now d :
  Inv m -> gen m < 2 ^ 64 - 1 -> refines (Create m now d) (absCreate (abs m) now d).
Proof.
  intros Hi Hg. unfold Create, absCreate, refines. cbn [abs aLocks aGen].
  destruct (collect_spec m now Hi) as (m1 & -> & Hi1 & Hb & Hg1). cbn [mbind option_bind].
  fold (cleanDetails d).
  rewrite (canCreate_spec m1 (cleanDetails d) Hi1) by apply slashClean_clean. rewrite <- Hb.
  cbn [mbind option_bind]. case_bool_decide as Hc; cbn [negb].
  - rewrite decide_True by done. rewrite <- Hg1 in *.
    destruct (addLock_spec m1 now (cleanDetails d) Hi1 Hg (slashClean_clean _) Hc)
      as (m' & Ha & Hi' & Hg' & Hb').
    unfold addLock in Ha. fold (cleanDetails d) in *.
    destruct (create m1 (Root (cleanDetails d))) as [m2|]; [|done].
    cbn [mbind option_bind] in *. destruct (nextToken m2) as [m3 t]. simplify_eq.
    eexists. split; [done|]. split; [done|]. unfold abs. rewrite Hb', Hg'. done.
  - rewrite decide_False by done. exists m1. split; [done|]. split; [done|]. unfold abs. by rewrite Hg1.
Qed.

Lemma Unlock_refines m now t : Inv m -> refines (Unlock m now t) (absUnlock (abs m) now t).
Proof.
  intros Hi. unfold Unlock, absUnlock, refines. cbn [abs aLocks aGen].
  destruct (collect_spec m now Hi) as (m1 & -> & Hi1 & <- & <-). cbn [mbind option_bind].
  destruct (byToken m1 !! t) as [l|] eqn:El; [|by exists m1].
  destruct (held l); [by exists m1|].
  destruct (remove_spec m1 t l Hi1 El) as (m' & -> & Hi' & Hb & Hg & _).
  exists m'. split; [done|]. split; [done|]. unfold abs. by rewrite Hb, Hg.
Qed.

Lemma Refresh_refines m now t dur :
  Inv m -> refines (Refresh m now t dur) (absRefresh (abs m) now t dur).
Proof.
  intros Hi. unfold Refresh, absRefresh, refines. cbn [abs aLocks aGen].
  destruct (collect_spec m now Hi) as (m1 & -> & Hi1 & <- & <-). cbn [mbind option_bind].
  destruct (byToken m1 !! t) as [l|] eqn:El; [|by exists m1].
  destruct (held l) eqn:Eh; [by exists m1|]. fold (unheap m1 t).
  assert (Hs : sameScope l (refreshed now dur l)) by done.
  unfold refreshed in *. rewrite Eh in *. cbn [snd fst details].
  destruct (0 <=? dur) eqn:Ed; bool_hyps;
    eexists; (split; [done|]); (split; [|done]);
    unfold set_lock, set_byToken, set_byExpiry; cbn [byName byToken gen byExpiry].
  - apply (reheap_update m1 t l); [done|done|done|]. by split.
  - apply (unheap_update m1 t l); [done|done|done|]. intros [_ H]. cbn in H. lia.
Qed.

Lemma lookup_refines m name cs :
  Inv m -> clean_root name -> lookup m name cs = firstCovering (byToken m) name cs.
Proof.
  intros Hi Hn. unfold firstCovering. induction cs as [|c cs IH]; [done|]. cbn [lookup map list_find].
  assert (Hrest : snd <$> (prod_map S id <$> list_find (covers (byToken m) name) (map Token cs)) =
                  lookup m name cs).
  { rewrite IH. by destruct (list_find _ _) as [[]|]. }
  destruct (decide (covers (byToken m) name (Token c))) as [Hc|Hc]; cbn.
  - unfold covers in Hc. destruct (byToken m !! Token c) as [l|]; [|done].
    destruct Hc as [-> [->|[Hz Ha]]].
    + by rewrite (proj2 (seqb_true _ _) eq_refl).
    + destruct (seqb name _) eqn:E; [done|]. rewrite Hz.
      destruct (_ || _) eqn:Eo; [done|]. exfalso.
      pose proof (proj2 (scope_prefix name (rootOf l) Hn ltac:(by apply ancestors_clean in Ha)) Ha) as H.
      unfold rootOf in H. rewrite E in H. simpl in H. congruence.
  - cbn in Hrest. rewrite Hrest. unfold covers in Hc.
    destruct (byToken m !! Token c) as [l|] eqn:El; [|done].
    destruct (held l) eqn:Eh; [done|].
    destruct (seqb name (Root (details l))) eqn:E.
    { exfalso. apply Hc. split; [done|]. left. by apply seqb_true. }
    destruct (ZeroDepth (details l)) eqn:Ez; [done|].
    destruct (seqb (Root (details l)) "/" || _) eqn:Eo; [|done].
    exfalso. apply Hc. split; [done|]. right. split; [done|].
    apply scope_prefix; [done|by eapply inv_roots|]. unfold rootOf. by rewrite E.
Qed.

Lemma lookupName_refines m name cs : Inv m -> lookupName m name cs = absName (byToken m) name cs.
Proof.
  intros Hi. unfold lookupName, absName. destr_goal; [done|].
  rewrite lookup_refines by (done || apply slashClean_clean). done.
Qed.

Lemma absName_ok L name cs t :
  absName L name cs = Ok (Some t) -> exists l, L !! t = Some l /\ held l = false.
Proof.
  unfold absName. destr_goal; [done|]. destr_goal; [|done]. intros [= ->].
  unfold firstCovering in *. destruct (list_find _ _) as [[i u]|] eqn:E; [|done].
  apply list_find_Some in E as (_ & Hc & _). simplify_eq/=. unfold covers in Hc.
  destruct (L !! t) as [l|]; [|done]. exists l. by destruct Hc.
Qed.

Lemma alter_held (L : gmap gostr memLSLock) t l b :
  L !! t = Some l -> <[t := with_held l b]> L = alter (fun l => with_held l b) t L.
Proof. intros H. symmetry. apply map_eq. intros u. rewrite lookup_alter, lookup_insert.
  case_decide; [|done]. subst. by rewrite H. Qed.

Lemma holdOpt_spec m t :
  Inv m -> (forall u, t = Some u -> exists l, byToken m !! u = Some l /\ held l = false) ->
  exists m', holdOpt m t = Some m' /\ Inv m' /\ gen m' = gen m /\
  byToken m' = setHeld true (byToken m) t.
Proof.
  intros Hi Ht. destruct t as [t|]; [|by exists m]. destruct (Ht t eq_refl) as (l & Hl & Hh).
  cbn. rewrite <- (alter_held _ t l true Hl). by apply hold_spec.
Qed.

Lemma unholdOpt_spec m t :
  Inv m -> (forall u, t = Some u -> exists l, byToken m !! u = Some l /\ held l = true) ->
  exists m', unholdOpt m t = Some m' /\ Inv m' /\ gen m' = gen m /\
  byToken m' = setHeld false (byToken m) t.
Proof.
  intros Hi Ht. destruct t as [t|]; [|by exists m]. destruct (Ht t eq_refl) as (l & Hl & Hh).
  cbn. rewrite <- (alter_held _ t l false Hl). by apply unhold_spec.
Qed.

Lemma setHeld_ne b L t (u : gostr) : t <> Some u -> setHeld b L t !! u = L !! u.
Proof. intros Ht. destruct t as [t|]; [|done]. cbn. apply lookup_alter_ne. congruence. Qed.

Lemma Confirm_refines m now n0 n1 cs :
  Inv m -> refines (Confirm m now n0 n1 cs) (absConfirm (abs m) now n0 n1 cs).
Proof.
  intros Hi. unfold Confirm, absConfirm, refines. cbn [abs aLocks aGen].
  destruct (collect_spec m now Hi) as (m1 & -> & Hi1 & <- & <-). cbn [mbind option_bind].
  rewrite !lookupName_refines by done.
  destruct (absName (byToken m1) n0 cs) as [t0|e] eqn:E0; [|by exists m1].
  destruct (absName (byToken m1) n1 cs) as [t1|e] eqn:E1; [|by exists m1].
  set (t1' := if bool_decide (t1 = t0) then None else t1).
  destruct (holdOpt_spec m1 t0 Hi1) as (m2 & -> & Hi2 & <- & Hb2).
  { intros u ->. by eapply absName_ok. }
  cbn [mbind option_bind].
  destruct (holdOpt_spec m2 t1' Hi2) as (m3 & -> & Hi3 & <- & Hb3).
  { intros u Hu. unfold t1' in Hu. case_bool_decide; [done|]. subst t1.
    rewrite Hb2, setHeld_ne by congruence. by eapply absName_ok. }
  exists m3. split; [done|]. split; [done|]. unfold abs. by rewrite Hb3, Hb2.
Qed.

(** The locks a release function gives back are held, and distinct. *)
Definition releasable (L : gmap gostr memLSLock) (r : Release) : Prop :=
  (forall t, fst r = Some t \/ snd r = Some t -> exists l, L !! t = Some l /\ held l = true) /\
  (forall t, fst r = Some t -> snd r <> Some t).

Lemma release_refines m r :
  Inv m -> releasable (byToken m) r ->
  exists m', release m r = Some m' /\ Inv m' /\ abs m' = absRelease (abs m) r.
Proof.
  intros Hi [Hh Hd]. unfold release, absRelease. cbn [abs aLocks aGen].
  destruct (unholdOpt_spec m (snd r) Hi) as (m1 & -> & Hi1 & <- & Hb1); [by auto|].
  cbn [mbind option_bind].
  destruct (unholdOpt_spec m1 (fst r) Hi1) as (m2 & -> & Hi2 & <- & Hb2).
  { intros u Hu. rewrite Hb1, setHeld_ne by auto. auto. }
  exists m2. split; [done|]. split; [done|]. unfold abs. by rewrite Hb2, Hb1.
Qed.
