(* ===== verification/DavLockSys.v ===== *)
(** Executions of the WebDAV lock system: any sequence of Confirm, release,
    Create, Refresh and Unlock calls from NewMemLS on. The calls take the mutex,
    so an execution is a sequence. A release function is called at most once. *)
From S2P Require Import Prelude GoString GoPath Paths GoHeap DavLock DavLockSpec.

Inductive op :=
| OConfirm (now : Z) (name0 name1 : gostr) (conditions : list Condition)
| ORelease (i : nat)
| OCreate (now : Z) (d : LockDetails)
| ORefresh (now : Z) (token : gostr) (duration : Z)
| OUnlock (now : Z) (token : gostr).

Inductive reply :=
| RConfirm (r : res dav_err Release)
| RRelease
| RCreate (r : res dav_err gostr)
| RRefresh (r : res dav_err LockDetails)
| RUnlock (r : res dav_err unit).

(** The release functions Confirm returned and nobody called yet. *)
Definition addRelease (rs : list Release) (r : res dav_err Release) : list Release :=
  match r with Ok r => rs ++ [r] | Err _ => rs end.

Definition sysStep (s : memLS * list Release) (o : op) : option ((memLS * list Release) * reply) :=
  let '(m, rs) := s in
  match o with
  | OConfirm now n0 n1 cs =>
      let! (m, r) := Confirm m now n0 n1 cs in Some ((m, addRelease rs r), RConfirm r)
  | ORelease i =>
      match rs !! i with
      | None => Some ((m, rs), RRelease)
      | Some r => let! m := release m r in Some ((m, delete i rs), RRelease)
      end
  | OCreate now d => let! (m, r) := Create m now d in Some ((m, rs), RCreate r)
  | ORefresh now t dur => let! (m, r) := Refresh m now t dur in Some ((m, rs), RRefresh r)
  | OUnlock now t => let! (m, r) := Unlock m now t in Some ((m, rs), RUnlock r)
  end.

Definition absStep (s : absLS * list Release) (o : op) : (absLS * list Release) * reply :=
  let '(a, rs) := s in
  match o with
  | OConfirm now n0 n1 cs =>
      let '(a, r) := absConfirm a now n0 n1 cs in ((a, addRelease rs r), RConfirm r)
  | ORelease i =>
      match rs !! i with
      | None => ((a, rs), RRelease)
      | Some r => ((absRelease a r, delete i rs), RRelease)
      end
  | OCreate now d => let '(a, r) := absCreate a now d in ((a, rs), RCreate r)
  | ORefresh now t dur => let '(a, r) := absRefresh a now t dur in ((a, rs), RRefresh r)
  | OUnlock now t => let '(a, r) := absUnlock a now t in ((a, rs), RUnlock r)
  end.

Fixpoint sysRun (s : memLS * list Release) (ops : list op)
  : option ((memLS * list Release) * list reply) :=
  match ops with
  | [] => Some (s, [])
  | o :: ops =>
      let! (s, r) := sysStep s o in
      let! (s, rs) := sysRun s ops in
      Some (s, r :: rs)
  end.

Fixpoint absRun (s : absLS * list Release) (ops : list op) : (absLS * list Release) * list reply :=
  match ops with
  | [] => (s, [])
  | o :: ops =>
      let '(s, r) := absStep s o in
      let '(s, rs) := absRun s ops in
      (s, r :: rs)
  end.

Definition sysInit (unixNow : Z) : memLS * list Release := (newMemLS unixNow, []).

(** ** The held locks are those of the outstanding release functions *)
Definition tokensOf (r : Release) : list gostr := option_list (fst r) ++ option_list (snd r).
Definition toks (rs : list Release) : list gostr := concat (map tokensOf rs).

Definition heldIn (L : gmap gostr memLSLock) (t : gostr) : Prop :=
  exists l, L !! t = Some l /\ held l = true.

Definition relInv (L : gmap gostr memLSLock) (rs : list Release) : Prop :=
  NoDup (toks rs) /\ forall t, t ∈ toks rs <-> heldIn L t.

Lemma heldIn_live now L t : heldIn (live now L) t <-> heldIn L t.
Proof.
  unfold heldIn. setoid_rewrite live_lookup. unfold expired. split; [naive_solver|].
  intros (l & Hl & Hh). exists l. naive_solver congruence.
Qed.

Lemma heldIn_setHeld b L t u :
  is_Some (L !! t) ->
  heldIn (setHeld b L (Some t)) u <-> (u = t /\ b = true) \/ (u <> t /\ heldIn L u).
Proof.
  intros [l Hl]. unfold heldIn. cbn [setHeld]. setoid_rewrite lookup_alter.
  destruct (decide (t = u)) as [->|Hne]; [|naive_solver].
  rewrite Hl. cbn. split; [|naive_solver].
  intros (x & [= <-] & Hx). left. split; [done|]. destruct b; done.
Qed.

Lemma heldIn_hold L (o : option gostr) u :
  (forall t, o = Some t -> is_Some (L !! t)) -> heldIn (setHeld true L o) u <-> o = Some u \/ heldIn L u.
Proof.
  intros Ho. destruct o as [t|]; [|cbn; naive_solver].
  rewrite heldIn_setHeld by auto. destruct (decide (u = t)); naive_solver.
Qed.

Lemma heldIn_unhold L (o : option gostr) u :
  (forall t, o = Some t -> is_Some (L !! t)) -> heldIn (setHeld false L o) u <-> o <> Some u /\ heldIn L u.
Proof.
  intros Ho. destruct o as [t|]; [|cbn; naive_solver].
  rewrite heldIn_setHeld by auto. destruct (decide (u = t)); naive_solver.
Qed.

Lemma tokensOf_elem r t : t ∈ tokensOf r <-> fst r = Some t \/ snd r = Some t.
Proof.
  unfold tokensOf. rewrite elem_of_app. destruct r as [[a|] [b|]]; cbn;
    rewrite ?list_elem_of_singleton, ?elem_of_nil; naive_solver.
Qed.

Lemma toks_elem rs t : t ∈ toks rs <-> exists r, r ∈ rs /\ t ∈ tokensOf r.
Proof.
  induction rs as [|x rs IH]; [cbn; setoid_rewrite elem_of_nil; naive_solver|].
  change (toks (x :: rs)) with (tokensOf x ++ toks rs). rewrite elem_of_app, IH.
  setoid_rewrite elem_of_cons. naive_solver.
Qed.

Lemma toks_app a b : toks (a ++ b) = toks a ++ toks b.
Proof. unfold toks. by rewrite map_app, concat_app. Qed.

Lemma toks_delete rs i r :
  rs !! i = Some r -> NoDup (toks rs) ->
  NoDup (toks (delete i rs)) /\ (forall t, t ∈ toks (delete i rs) <-> t ∈ toks rs /\ t ∉ tokensOf r) /\
  (forall t, fst r = Some t -> snd r <> Some t).
Proof.
  intros Hi Hn. rewrite <- (take_drop_middle rs i r Hi), toks_app in Hn.
  assert (Hd : delete i rs = take i rs ++ drop (S i) rs) by apply delete_take_drop.
  rewrite Hd. change (toks (r :: drop (S i) rs)) with (tokensOf r ++ toks (drop (S i) rs)) in Hn.
  assert (Hall : forall t, t ∈ toks rs <-> t ∈ toks (take i rs) \/ t ∈ tokensOf r \/ t ∈ toks (drop (S i) rs)).
  { intros t. rewrite <- (take_drop_middle rs i r Hi) at 1. rewrite toks_app.
    change (toks (r :: drop (S i) rs)) with (tokensOf r ++ toks (drop (S i) rs)).
    by rewrite !elem_of_app. }
  apply NoDup_app in Hn as (N1 & N2 & N3). apply NoDup_app in N3 as (N3 & N4 & N5).
  split; [|split].
  - rewrite toks_app. apply NoDup_app. split; [done|]. split; [|done].
    intros t Ht Ht'. apply (N2 t Ht), elem_of_app. by right.
  - intros t. rewrite Hall, toks_app, elem_of_app. split; [|naive_solver].
    intros [Ht|Ht]; (split; [by auto|]); intros Hr; [|by apply (N4 t)].
    apply (N2 t Ht), elem_of_app. by left.
  - intros t H1 H2. unfold tokensOf in N3. rewrite H1, H2 in N3.
    apply NoDup_app in N3 as (_ & N3 & _). apply (N3 t); cbn; by left.
Qed.

Definition sysInv (s : memLS * list Release) : Prop := Inv (fst s) /\ relInv (byToken (fst s)) (snd s).

Lemma relInv_ext L L' rs :
  (forall t, heldIn L' t <-> heldIn L t) -> relInv L rs -> relInv L' rs.
Proof. intros H [Hn Hr]. split; [done|]. intros t. by rewrite H, Hr. Qed.

Lemma live_is_Some now L t l : L !! t = Some l -> held l = true -> live now L !! t = Some l.
Proof. intros Hl Hh. apply live_lookup. split; [done|]. intros []. congruence. Qed.

(** Create, Refresh and Unlock change no held lock. *)
Lemma heldIn_update (L : gmap gostr memLSLock) t l u :
  held l = false -> ~ heldIn L t -> heldIn (<[t := l]> L) u <-> heldIn L u.
Proof.
  intros Hh Hn. unfold heldIn. setoid_rewrite lookup_insert_Some.
  destruct (decide (t = u)) as [->|]; [|naive_solver]. split; [naive_solver congruence|].
  intros H. by destruct Hn.
Qed.

Lemma absConfirm_rel a now n0 n1 cs rs :
  relInv (aLocks a) rs ->
  let '(a', r) := absConfirm a now n0 n1 cs in relInv (aLocks a') (addRelease rs r).
Proof.
  intros Hr. unfold absConfirm. set (L := live now (aLocks a)).
  assert (Hl : relInv L rs) by (eapply relInv_ext; [apply heldIn_live|done]).
  destruct (absName L n0 cs) as [t0|e] eqn:E0; [|done].
  destruct (absName L n1 cs) as [t1|e] eqn:E1; [|done].
  assert (Hok : forall o : option gostr, o = t0 \/ o = t1 -> forall t, o = Some t ->
    exists l, L !! t = Some l /\ held l = false).
  { intros o [->| ->] t ->; by eapply absName_ok. }
  set (t1' := if bool_decide (t1 = t0) then None else t1).
  assert (H1' : (t1' = None \/ t1' = t1) /\ (forall t, t0 = Some t -> t1' <> Some t)).
  { unfold t1'. case_bool_decide; [naive_solver|]. split; [by right|]. congruence. }
  clearbody t1'. destruct H1' as [H1' Hne]. cbn [addRelease aLocks].
  destruct Hl as [Hn Hl].
  assert (Hfree : forall o : option gostr, o = t0 \/ o = t1 -> forall t, o = Some t -> t ∉ toks rs).
  { intros o Ho t Ht. rewrite Hl. intros (l & H1 & H2).
    destruct (Hok o Ho t Ht) as (l' & H3 & H4). congruence. }
  assert (Hs0 : forall t, t0 = Some t -> is_Some (L !! t)).
  { intros t Ht. destruct (Hok t0 (or_introl eq_refl) t Ht) as (l & ? & _). by exists l. }
  assert (Hs1 : forall t, t1' = Some t -> is_Some (setHeld true L t0 !! t)).
  { intros t Ht. rewrite setHeld_ne by (intros H; by apply (Hne t)).
    destruct H1' as [H1'|H1']; [congruence|]. rewrite H1' in Ht.
    destruct (Hok t1 (or_intror eq_refl) t Ht) as (l & ? & _). by exists l. }
  split.
  - rewrite toks_app. apply NoDup_app. split; [done|]. cbn. rewrite app_nil_r. split.
    + intros t Ht [H|H]%tokensOf_elem; cbn in H.
      * by apply (Hfree t0 (or_introl eq_refl) t).
      * destruct H1' as [H1'|H1']; [congruence|]. subst t1'.
        by apply (Hfree t1 (or_intror eq_refl) t).
    + unfold tokensOf. cbn. destruct t0 as [u|], t1' as [v|]; cbn; try apply NoDup_nil_2;
        try apply NoDup_singleton. apply NoDup_cons. split; [|apply NoDup_singleton].
      intros ->%list_elem_of_singleton. by apply (Hne v).
  - intros t. rewrite toks_app, elem_of_app. cbn [toks concat map]. rewrite app_nil_r, tokensOf_elem.
    cbn [fst snd]. rewrite (heldIn_hold _ t1' t Hs1), (heldIn_hold _ t0 t Hs0), Hl. tauto.
Qed.

Lemma absRelease_rel a rs i r :
  relInv (aLocks a) rs -> rs !! i = Some r ->
  releasable (aLocks a) r /\ relInv (aLocks (absRelease a r)) (delete i rs).
Proof.
  intros [Hn Hr] Hi. destruct (toks_delete rs i r Hi Hn) as (D1 & D2 & D3).
  assert (Hh : forall t, fst r = Some t \/ snd r = Some t -> heldIn (aLocks a) t).
  { intros t Ht. apply Hr, toks_elem. exists r. split; [by eapply list_elem_of_lookup_2|].
    by apply tokensOf_elem. }
  split; [by split|]. split; [done|]. intros t. rewrite D2, Hr, tokensOf_elem. cbn [absRelease aLocks].
  rewrite !heldIn_unhold; [tauto| |].
  - intros u Hu. destruct (Hh u) as (l & ? & _); [by auto|]. by exists l.
  - intros u Hu. rewrite setHeld_ne by auto. destruct (Hh u) as (l & ? & _); [by auto|]. by exists l.
Qed.

(** ** Simulation *)
Lemma absStep_rel a rs o :
  relInv (aLocks a) rs ->
  (forall t, t = formatUint (aGen a + 1) -> aLocks a !! t = None) ->
  let '((a', rs'), _) := absStep (a, rs) o in relInv (aLocks a') rs'.
Proof.
  intros Hr Hf. pose proof (fun now => relInv_ext _ _ _ (heldIn_live now (aLocks a)) Hr) as Hl.
  destruct o as [now n0 n1 cs|i|now d|now t dur|now t]; cbn [absStep].
  - pose proof (absConfirm_rel a now n0 n1 cs rs Hr). by destruct (absConfirm a now n0 n1 cs).
  - destruct (rs !! i) as [r|] eqn:E; [|done]. by apply (absRelease_rel a rs i r).
  - unfold absCreate. case_decide; [|apply Hl]. eapply relInv_ext, Hl. intros u. cbn [aLocks].
    apply heldIn_update; [done|]. intros (l & [Hx _]%live_lookup & _). by rewrite Hf in Hx.
  - unfold absRefresh. destruct (live now (aLocks a) !! t) as [l|] eqn:E; [|apply Hl].
    destruct (held l) eqn:Eh; [apply Hl|]. eapply relInv_ext, Hl. intros u. cbn [aLocks].
    apply heldIn_update; [done|]. intros (x & Hx & ?). congruence.
  - unfold absUnlock. destruct (live now (aLocks a) !! t) as [l|] eqn:E; [|apply Hl].
    destruct (held l) eqn:Eh; [apply Hl|]. eapply relInv_ext, Hl. intros u. cbn [aLocks].
    unfold heldIn. setoid_rewrite lookup_delete_Some. naive_solver congruence.
Qed.

Definition absSys (s : memLS * list Release) : absLS * list Release := (abs (fst s), snd s).

Lemma absStep_gen a rs o :
  let '((a', _), _) := absStep (a, rs) o in aGen a <= aGen a' <= aGen a + 1.
Proof.
  destruct o as [now n0 n1 cs|i|now d|now t dur|now t]; cbn [absStep];
    unfold absConfirm, absCreate, absRefresh, absUnlock, absRelease; repeat destr_goal;
    simplify_eq; simpl; lia.
Qed.

Lemma sysStep_refines s o :
  sysInv s -> gen (fst s) < 2 ^ 64 - 1 ->
  exists s', sysStep s o = Some (s', snd (absStep (absSys s) o)) /\ sysInv s' /\
  absSys s' = fst (absStep (absSys s) o).
Proof.
  destruct s as [m rs]. intros [Hi Hr] Hg. cbn [fst snd] in *.
  pose proof (absStep_rel (abs m) rs o Hr ltac:(intros ? ->; by apply fresh_token)) as Hrel.
  unfold absSys. cbn [fst snd].
  assert (Hwrap : forall R (out : option (memLS * R)) (spec : absLS * R) f g,
    refines out spec ->
    (let '((a', rs'), _) := let '(a, r) := spec in ((a, f r), g r) in relInv (aLocks a') rs') ->
    exists s', (let! (m, r) := out in Some ((m, f r), g r)) =
      Some (s', snd (let '(a, r) := spec in ((a, f r), g r) : (absLS * list Release) * reply)) /\
    sysInv s' /\ (abs (fst s'), snd s') = fst (let '(a, r) := spec in ((a, f r), g r))).
  { intros R out [a r] f g (m' & -> & Hi' & Ha) Hx. cbn in *. exists (m', f r).
    split; [done|]. split; [|by cbn; rewrite Ha]. split; [done|]. cbn. by rewrite <- Ha in Hx. }
  destruct o as [now n0 n1 cs|i|now d|now t dur|now t]; cbn [absStep sysStep] in *.
  - apply Hwrap; [by apply Confirm_refines|done].
  - destruct (rs !! i) as [r|] eqn:E; [|by exists (m, rs)].
    destruct (absRelease_rel (abs m) rs i r Hr E) as [Hrl _].
    destruct (release_refines m r Hi Hrl) as (m' & -> & Hi' & Ha).
    exists (m', delete i rs). split; [done|]. cbn. rewrite Ha. split; [|done].
    split; [done|]. cbn. by rewrite <- Ha in Hrel.
  - apply (Hwrap _ _ _ (fun _ => rs)); [by apply Create_refines|done].
  - apply (Hwrap _ _ _ (fun _ => rs)); [by apply Refresh_refines|done].
  - apply (Hwrap _ _ _ (fun _ => rs)); [by apply Unlock_refines|done].
Qed.

Lemma sysRun_refines s ops :
  sysInv s -> gen (fst s) + Z.of_nat (length ops) < 2 ^ 64 ->
  exists s', sysRun s ops = Some (s', snd (absRun (absSys s) ops)) /\ sysInv s' /\
  absSys s' = fst (absRun (absSys s) ops) /\ gen (fst s') <= gen (fst s) + Z.of_nat (length ops).
Proof.
  revert s. induction ops as [|o ops IH]; intros s Hi Hg.
  { exists s. cbn. split; [done|]. split; [done|]. split; [done|]. lia. }
  cbn [length] in Hg. destruct (sysStep_refines s o Hi ltac:(lia)) as (s1 & Hs & Hi1 & Ha).
  pose proof (absStep_gen (abs (fst s)) (snd s) o) as Hgen. cbn [sysRun absRun]. rewrite Hs.
  change (abs (fst s), snd s) with (absSys s) in Hgen.
  destruct (absStep (absSys s) o) as [[a1 rs1] r1]. cbn [fst snd mbind option_bind] in *.
  unfold absSys in Ha. simplify_eq. cbn [abs aGen] in Hgen.
  destruct (IH s1 Hi1 ltac:(lia)) as (s2 & -> & Hi2 & Ha2 & Hg2). cbn [mbind option_bind].
  change (abs (fst s1), snd s1) with (absSys s1).
  destruct (absRun (absSys s1) ops) as [s3 rs3]. cbn in *. exists s2. split; [done|].
  split; [done|]. split; [done|]. lia.
Qed.

Lemma newMemLS_inv unix : 0 <= unix < 2 ^ 64 -> sysInv (sysInit unix).
Proof.
  intros Hu. pose proof (heap_empty_ok (expiryOf ∅)) as [Hp Hh].
  assert (Hno : forall (t : gostr) (l : memLSLock), (∅ : gmap gostr memLSLock) !! t <> Some l).
  { intros t l. by rewrite lookup_empty. }
  split; [constructor; cbn [newMemLS sysInit fst byToken byName byExpiry gen]|].
  - intros t l Hl. by apply Hno in Hl.
  - intros k. rewrite decide_True; [by rewrite lookup_empty|].
    destruct (decide (below ∅ k = 0%nat)) as [|Hb]; [done|].
    apply below_pos in Hb as (t & l & Hl & _). by apply Hno in Hl.
  - done.
  - done.
  - intros t. cbn. split; [by intros ?%not_elem_of_nil|]. intros (l & Hl & _). by apply Hno in Hl.
  - rewrite u64_id; done.
  - intros t l Hl. by apply Hno in Hl.
  - intros t1 t2 l1 l2 _ Hl. by apply Hno in Hl.
  - split; [apply NoDup_nil_2|]. intros t. cbn. split; [by intros ?%not_elem_of_nil|].
    intros (l & Hl & _). by apply Hno in Hl.
Qed.

Definition boundedRun (unix : Z) (ops : list op) : Prop :=
  0 <= unix < 2 ^ 63 /\ Z.of_nat (length ops) < 2 ^ 63.

Lemma reachable_inv unix ops m rs out :
  boundedRun unix ops -> sysRun (sysInit unix) ops = Some ((m, rs), out) ->
  Inv m /\ relInv (byToken m) rs /\ gen m < 2 ^ 64 - 1.
Proof.
  intros [Hu Hl] Hrun. destruct (sysRun_refines (sysInit unix) ops) as (s' & Hs & [Hi Hr] & _ & Hg).
  - apply newMemLS_inv. lia.
  - cbn. rewrite u64_id by (unfold u64_ok; lia). lia.
  - rewrite Hrun in Hs. simplify_eq. cbn [fst snd] in *. split; [done|]. split; [done|].
    cbn in Hg. rewrite u64_id in Hg by (unfold u64_ok; lia). lia.
Qed.

(** ** Properties *)

(** C1: the lock system never panics (no nil node on a path, no inconsistent
    held state) and, whatever the calls, returns exactly the replies of the
    abstract lock system, which has neither nodes nor reference counts nor a heap. *)
Theorem davlock_refines unix ops :
  boundedRun unix ops ->
  exists s', sysRun (sysInit unix) ops =
    Some (s', snd (absRun (mkAbs ∅ unix, []) ops)) /\
  absSys s' = fst (absRun (mkAbs ∅ unix, []) ops).
Proof.
  intros [Hu Hl]. destruct (sysRun_refines (sysInit unix) ops) as (s' & Hs & _ & Ha & _).
  - apply newMemLS_inv. lia.
  - cbn. rewrite u64_id by (unfold u64_ok; lia). lia.
  - assert (Hi : absSys (sysInit unix) = (mkAbs ∅ unix, [])).
    { unfold absSys, abs. cbn. by rewrite u64_id by (unfold u64_ok; lia). }
    rewrite Hi in *. eauto.
Qed.

Definition ex_dir : LockDetails := mkDetails "/a" 10 "" false false.
Definition ex_file : LockDetails := mkDetails "/a/b" 10 "" true false.
Definition ex_ops : list op :=
  [OCreate 5 ex_dir; OConfirm 6 "/a/b" "" [mkCond false (formatUint 101) ""]; OCreate 20 ex_file;
   OUnlock 21 (formatUint 101); ORelease 0; OCreate 30 ex_file].

Lemma davlock_refines_witness : boundedRun 100 ex_ops /\
  exists s', sysRun (sysInit 100) ex_ops = Some (s', snd (absRun (mkAbs ∅ 100, []) ex_ops)) /\
  absSys s' = fst (absRun (mkAbs ∅ 100, []) ex_ops).
Proof.
  assert (H : boundedRun 100 ex_ops) by (unfold boundedRun, ex_ops; cbn; lia).
  split; [exact H|exact (davlock_refines 100 ex_ops H)].
Defined.

(** In every reachable state, two locks whose scopes meet are shared locks
    of one resource with the same depth; an exclusive lock therefore has its
    whole scope for itself. *)
Theorem davlock_exclusive unix ops m rs out t1 t2 l1 l2 :
  boundedRun unix ops -> sysRun (sysInit unix) ops = Some ((m, rs), out) ->
  t1 <> t2 -> byToken m !! t1 = Some l1 -> byToken m !! t2 = Some l2 ->
  overlaps (details l1) (details l2) ->
  Root (details l1) = Root (details l2) /\ Shared (details l1) = true /\
  Shared (details l2) = true /\ ZeroDepth (details l1) = ZeroDepth (details l2).
Proof.
  intros Hb Hr Hne H1 H2. destruct (reachable_inv _ _ _ _ _ Hb Hr) as (Hi & _).
  by apply (inv_compat m Hi t1 t2).
Qed.

Definition sh : LockDetails := mkDetails "/a/../a" (-1) "" false true.
Definition sh_ops : list op := [OCreate 5 sh; OCreate 5 sh].

Definition run_state (o : option ((memLS * list Release) * list reply)) : memLS * list Release :=
  match o with Some (s, _) => s | None => (newMemLS 0, []) end.
Definition run_out (o : option ((memLS * list Release) * list reply)) : list reply :=
  match o with Some (_, r) => r | None => [] end.

Lemma davlock_exclusive_witness :
  let l := mkLock (cleanDetails sh) 0 false in
  Root (details l) = Root (details l) /\ Shared (details l) = true /\
  Shared (details l) = true /\ ZeroDepth (details l) = ZeroDepth (details l).
Proof.
  set (o := sysRun (sysInit 7) sh_ops).
  apply (davlock_exclusive 7 sh_ops (fst (run_state o)) (snd (run_state o)) (run_out o)
           (formatUint 8) (formatUint 9)).
  - unfold boundedRun, sh_ops. cbn. lia.
  - vm_compute. reflexivity.
  - vm_compute. discriminate.
  - vm_compute. reflexivity.
  - vm_compute. reflexivity.
  - left. reflexivity.
Defined.

(** In every reachable state Create, once the locks that expired by [now]
    are dropped, answers ErrLocked exactly when a remaining lock is
    incompatible with the wanted one, and leaves the others alone; otherwise it
    adds the lock, with the cleaned root and the expiry [now + Duration], under
    a token no lock has. *)
Theorem davlock_create unix ops m rs out now d :
  boundedRun unix ops -> sysRun (sysInit unix) ops = Some ((m, rs), out) ->
  let L := live now (byToken m) in
  let d' := mkDetails (slashClean (Root d)) (Duration d) (OwnerXML d) (ZeroDepth d) (Shared d) in
  exists m' r, Create m now d = Some (m', r) /\
  match r with
  | Err e => e = ErrLocked /\ byToken m' = L /\
             exists t l, L !! t = Some l /\ ~ compat d' (details l)
  | Ok t => byToken m !! t = None /\ (forall u l, L !! u = Some l -> compat d' (details l)) /\
            byToken m' = <[t := mkLock d' (if 0 <=? Duration d then now + Duration d else 0) false]> L
  end.
Proof.
  intros Hb Hr L d'. destruct (reachable_inv _ _ _ _ _ Hb Hr) as (Hi & _ & Hg).
  destruct (Create_refines m now d Hi Hg) as (m' & Hm & Hi' & Ha).
  exists m', (snd (absCreate (abs m) now d)). split; [done|].
  unfold absCreate in *. cbn [abs aLocks aGen] in *. fold L in Ha |- *.
  assert (Hd : d' = cleanDetails d) by done. clearbody d'. subst d'.
  destruct (decide (compatAll L (cleanDetails d))) as [Hc|Hc]; cbn [fst snd] in *.
  - unfold abs in Ha. injection Ha as Hm' _. split; [by apply fresh_token|]. split; [done|]. done.
  - unfold abs in Ha. injection Ha as Hm' _. split; [done|]. split; [done|].
    destruct (decide (map_Exists (fun _ l => ~ compat (cleanDetails d) (details l)) L)) as [(t & l & H)|H];
      [by exists t, l|].
    exfalso. apply Hc. intros t l Hl. destruct (decide (compat (cleanDetails d) (details l))); [done|].
    exfalso. apply H. by exists t, l.
Qed.

Lemma davlock_create_witness :
  let m := fst (run_state (sysRun (sysInit 100) [OCreate 5 ex_dir])) in
  exists m' r, Create m 6 ex_file = Some (m', r) /\ r = Err ErrLocked.
Proof.
  set (o := sysRun (sysInit 100) [OCreate 5 ex_dir]). intros m.
  destruct (davlock_create 100 [OCreate 5 ex_dir] m (snd (run_state o)) (run_out o) 6 ex_file)
    as (m' & r & H & Hr).
  - unfold boundedRun. cbn. lia.
  - vm_compute. reflexivity.
  - exists m', r. split; [exact H|]. destruct r as [t|e].
    + exfalso. assert (Hs : snd <$> Create m 6 ex_file = Some (Err ErrLocked)) by (vm_compute; reflexivity).
      rewrite H in Hs. discriminate Hs.
    + destruct Hr as [-> _]. reflexivity.
Defined.

(** ** A confirmed lock stays until it is released *)
Definition is_release (o : op) : bool := match o with ORelease _ => true | _ => false end.

Lemma absStep_keeps a rs o t l :
  is_release o = false -> (forall u, u = formatUint (aGen a + 1) -> aLocks a !! u = None) ->
  aLocks a !! t = Some l -> held l = true ->
  aLocks (fst (fst (absStep (a, rs) o))) !! t = Some l.
Proof.
  intros Ho Hf Hl Hh. pose proof (fun now => live_is_Some now _ _ _ Hl Hh) as Hlv.
  destruct o as [now n0 n1 cs|i|now d|now u dur|now u]; cbn [absStep]; [|done|..].
  - unfold absConfirm. destruct (absName _ n0 cs) as [t0|] eqn:E0; [|apply Hlv].
    destruct (absName _ n1 cs) as [t1|] eqn:E1; [|apply Hlv]. cbn [fst aLocks].
    assert (Hno : forall n, absName (live now (aLocks a)) n cs <> Ok (Some t)).
    { intros n H. apply absName_ok in H as (x & Hx & ?). rewrite Hlv in Hx. congruence. }
    rewrite !setHeld_ne; [apply Hlv| |].
    + intros ->. by apply (Hno n0).
    + case_bool_decide; [done|]. intros ->. by apply (Hno n1).
  - unfold absCreate. case_decide; [|apply Hlv]. cbn [fst aLocks].
    rewrite lookup_insert_ne; [apply Hlv|]. intros <-. by rewrite Hf in Hl.
  - unfold absRefresh. destruct (live now (aLocks a) !! u) as [x|] eqn:E; [|apply Hlv].
    destruct (held x) eqn:Ex; [apply Hlv|]. cbn [fst aLocks].
    rewrite lookup_insert_ne; [apply Hlv|]. intros ->. rewrite Hlv in E. congruence.
  - unfold absUnlock. destruct (live now (aLocks a) !! u) as [x|] eqn:E; [|apply Hlv].
    destruct (held x) eqn:Ex; [apply Hlv|]. cbn [fst aLocks].
    rewrite lookup_delete_ne; [apply Hlv|]. intros ->. rewrite Hlv in E. congruence.
Qed.

Lemma sysRun_keeps s ops s' out t l :
  sysInv s -> gen (fst s) + Z.of_nat (length ops) < 2 ^ 64 -> forallb (negb ∘ is_release) ops = true ->
  sysRun s ops = Some (s', out) ->
  byToken (fst s) !! t = Some l -> held l = true -> byToken (fst s') !! t = Some l.
Proof.
  revert s out. induction ops as [|o ops IH]; intros s out Hi Hg Hno Hrun Hl Hh.
  { cbn in Hrun. by simplify_eq. }
  cbn [length forallb] in *. apply andb_prop in Hno as [Ho Hno]. apply negb_true_iff in Ho.
  destruct (sysStep_refines s o Hi ltac:(lia)) as (s1 & Hs & Hi1 & Ha).
  pose proof (absStep_gen (abs (fst s)) (snd s) o) as Hgen.
  pose proof (absStep_keeps (abs (fst s)) (snd s) o t l Ho) as Hk.
  change (abs (fst s), snd s) with (absSys s) in Hgen, Hk. rewrite <- Ha in Hk.
  cbn [sysRun] in Hrun. rewrite Hs in Hrun. cbn [mbind option_bind] in Hrun.
  destruct (sysRun s1 ops) as [[s2 r2]|] eqn:E; [|done]. cbn in Hrun. simplify_eq.
  eapply (IH s1); [done| |done|done| |done].
  - destruct (absStep (absSys s) o) as [[a1 rs1] r1]. cbn [fst] in *.
    unfold absSys in Ha. simplify_eq. cbn [abs aGen] in Hgen. lia.
  - apply Hk; [|done|done]. intros u ->. apply fresh_token; [apply Hi|lia].
Qed.

(** A lock held through Confirm keeps its details and its expiry, and no
    Unlock, Refresh, Confirm, Create nor expiry removes or changes it, as long
    as no release function is called. *)
Theorem davlock_held_stable unix ops1 ops2 m1 rs1 out1 m2 rs2 out2 r t :
  boundedRun unix (ops1 ++ ops2) ->
  sysRun (sysInit unix) ops1 = Some ((m1, rs1), out1) -> r ∈ rs1 ->
  fst r = Some t \/ snd r = Some t ->
  forallb (negb ∘ is_release) ops2 = true ->
  sysRun (m1, rs1) ops2 = Some ((m2, rs2), out2) ->
  exists l, byToken m1 !! t = Some l /\ held l = true /\ byToken m2 !! t = Some l.
Proof.
  intros [Hu Hl] H1 Hin Ht Hno H2. rewrite length_app in Hl.
  destruct (sysRun_refines (sysInit unix) ops1) as (s' & Hs & Hi & _ & Hg).
  { apply newMemLS_inv. lia. }
  { cbn. rewrite u64_id by (unfold u64_ok; lia). lia. }
  rewrite H1 in Hs. simplify_eq. cbn in Hg. rewrite u64_id in Hg by (unfold u64_ok; lia).
  pose proof Hi as [_ [_ Hr]]. cbn [fst snd] in *.
  assert (heldIn (byToken m1) t) as (l & Hlk & Hh).
  { apply Hr, toks_elem. exists r. by rewrite tokensOf_elem. }
  exists l. split; [done|]. split; [done|].
  apply (sysRun_keeps (m1, rs1) ops2 (m2, rs2) out2 t l); try done. cbn. lia.
Qed.

Definition hold_ops : list op :=
  [OCreate 5 ex_dir; OConfirm 6 "/a/b" "" [mkCond false (formatUint 101) ""]].
Definition after_ops : list op := [OUnlock 7 (formatUint 101); OCreate 99 ex_file].

Lemma davlock_held_stable_witness :
  let s := run_state (sysRun (sysInit 100) hold_ops) in
  exists l, byToken (fst s) !! formatUint 101 = Some l /\ held l = true /\
  byToken (fst (run_state (sysRun s after_ops))) !! formatUint 101 = Some l.
Proof.
  set (o := sysRun (sysInit 100) hold_ops).
  set (p := sysRun (fst (run_state o), snd (run_state o)) after_ops).
  apply (davlock_held_stable 100 hold_ops after_ops (fst (run_state o)) (snd (run_state o)) (run_out o)
    (fst (run_state p)) (snd (run_state p)) (run_out p) (Some (formatUint 101), None)).
  - unfold boundedRun, hold_ops, after_ops. cbn. lia.
  - vm_compute. reflexivity.
  - apply list_elem_of_singleton. vm_compute. reflexivity.
  - left. reflexivity.
  - reflexivity.
  - vm_compute. reflexivity.
Defined.
