(* ===== verification/LockSystem.v ===== *)
(** The interface LockSystem of [server/webdav/lock.go]: its operations as a
    class, what the handlers may rely on as the laws of a second class, and the
    in-memory lock system of [DavLock] as an instance of both. *)
From S2P Require Import Prelude GoString GoPath Paths GoHeap DavLock DavLockSpec.

Class LockSystem (St : Type) := {
  ls_Confirm : St -> Z -> gostr -> gostr -> list Condition -> option (St * res dav_err Release);
  ls_release : St -> Release -> option St;
  ls_Create : St -> Z -> LockDetails -> option (St * res dav_err gostr);
  ls_Refresh : St -> Z -> gostr -> Z -> option (St * res dav_err LockDetails);
  ls_Unlock : St -> Z -> gostr -> option (St * res dav_err unit) }.

(** A state implements the abstract lock system [ls_view] while [ls_ok] holds. *)
Class LockSystemOK (St : Type) `{LockSystem St} := {
  ls_view : St -> absLS;
  ls_ok : St -> Prop;
  ls_Confirm_ok s now n0 n1 cs : ls_ok s -> exists s',
    ls_Confirm s now n0 n1 cs = Some (s', snd (absConfirm (ls_view s) now n0 n1 cs)) /\ ls_ok s' /\
    ls_view s' = fst (absConfirm (ls_view s) now n0 n1 cs);
  ls_release_ok s r : ls_ok s -> releasable (aLocks (ls_view s)) r -> exists s',
    ls_release s r = Some s' /\ ls_ok s' /\ ls_view s' = absRelease (ls_view s) r;
  ls_Create_ok s now d : ls_ok s -> aGen (ls_view s) < 2 ^ 64 - 1 -> exists s',
    ls_Create s now d = Some (s', snd (absCreate (ls_view s) now d)) /\ ls_ok s' /\
    ls_view s' = fst (absCreate (ls_view s) now d);
  ls_Refresh_ok s now t dur : ls_ok s -> exists s',
    ls_Refresh s now t dur = Some (s', snd (absRefresh (ls_view s) now t dur)) /\ ls_ok s' /\
    ls_view s' = fst (absRefresh (ls_view s) now t dur);
  ls_Unlock_ok s now t : ls_ok s -> exists s',
    ls_Unlock s now t = Some (s', snd (absUnlock (ls_view s) now t)) /\ ls_ok s' /\
    ls_view s' = fst (absUnlock (ls_view s) now t);
  ls_fresh s : ls_ok s -> aGen (ls_view s) < 2 ^ 64 - 1 ->
    aLocks (ls_view s) !! formatUint (aGen (ls_view s) + 1) = None;
  ls_clean s t l : ls_ok s -> aLocks (ls_view s) !! t = Some l -> clean_root (rootOf l) }.

#[export] Instance memLS_LockSystem : LockSystem memLS := {
  ls_Confirm := Confirm; ls_release := release; ls_Create := Create; ls_Refresh := Refresh; ls_Unlock := Unlock }.

#[export] Instance memLS_OK : LockSystemOK memLS.
Proof.
  refine {| ls_view := abs; ls_ok := Inv |}.
  - intros s now n0 n1 cs Hi. by apply Confirm_refines.
  - intros s r Hi Hr. by apply release_refines.
  - intros s now d Hi Hg. by apply Create_refines.
  - intros s now t dur Hi. by apply Refresh_refines.
  - intros s now t Hi. by apply Unlock_refines.
  - intros s Hi Hg. by apply fresh_token.
  - intros s t l Hi Hl. by eapply inv_roots.
Defined.

(** ** Locks that come and go *)

(** [L'] is [L] after some locks have expired. *)
Definition aged (L L' : gmap gostr memLSLock) : Prop :=
  forall t, L' !! t = L !! t \/ (L' !! t = None /\ exists l now, L !! t = Some l /\ expired now l).

Lemma aged_refl L : aged L L.
Proof. intros t. by left. Qed.

Lemma aged_live now L : aged L (live now L).
Proof.
  intros t. destruct (L !! t) as [l|] eqn:E.
  - destruct (decide (expired now l)) as [He|He].
    + right. split; [|eauto]. apply eq_None_not_Some. intros [x [Hx Hn]%live_lookup]. naive_solver.
    + left. by apply live_lookup.
  - left. apply eq_None_not_Some. intros [x [Hx _]%live_lookup]. congruence.
Qed.

Lemma aged_trans L1 L2 L3 : aged L1 L2 -> aged L2 L3 -> aged L1 L3.
Proof.
  intros A B t. destruct (B t) as [-> |(Hn & l & now & Hl & He)].
  - apply A.
  - destruct (A t) as [E|(E & _)]; [|congruence]. right. split; [done|]. rewrite <- E. eauto.
Qed.

Lemma aged_kept L L' t l : aged L L' -> L !! t = Some l -> (forall now, ~ expired now l) -> L' !! t = Some l.
Proof. intros A Hl Hn. destruct (A t) as [-> |(_ & x & now & Hx & He)]; [done|]. simplify_eq. by apply Hn in He. Qed.

Lemma aged_none L L' t : aged L L' -> L !! t = None -> L' !! t = None.
Proof. intros A Hl. destruct (A t) as [-> |(? & _)]; done. Qed.

Lemma aged_delete L L' t : aged L L' -> aged (delete t L) (delete t L').
Proof.
  intros A u. destruct (decide (u = t)) as [->|Hne]; [left; by rewrite !lookup_delete_eq|].
  rewrite !lookup_delete_ne by done. apply A.
Qed.

(** A lock that is held or never times out. *)
Lemma never_expires l : held l = true \/ Duration (details l) < 0 -> forall now, ~ expired now l.
Proof. intros H now (H1 & H2 & _). destruct H; [congruence|lia]. Qed.

(** The resource is in the scope of the lock. *)
Definition inScope (l : memLSLock) (name : gostr) : Prop :=
  slashClean name = rootOf l \/ (ZeroDepth (details l) = false /\ rootOf l ∈ ancestors (slashClean name)).

(** Some lock that stays keeps others from locking the resource exclusively. *)
Definition guarded (L : gmap gostr memLSLock) (name : gostr) : Prop :=
  exists t l, L !! t = Some l /\ inScope l name /\ (held l = true \/ Duration (details l) < 0).

Lemma guarded_refuses a name now d :
  guarded (aLocks a) name -> Root d = name -> Shared d = false -> snd (absCreate a now d) = Err ErrLocked.
Proof.
  intros (t & l & Hl & Hs & Hh) <- Hd. unfold absCreate. rewrite decide_False; [done|]. intros Hc.
  assert (Hlive : live now (aLocks a) !! t = Some l) by (apply live_lookup; split; [done|by apply never_expires]).
  destruct (Hc t l Hlive) as (_ & Hsh & _).
  - unfold overlaps, cleanDetails. cbn [Root ZeroDepth]. destruct Hs as [Hs|[H1 H2]]; [by left|].
    right. by right.
  - cbn in Hsh. congruence.
Qed.

(** ** Confirm and its release function *)
Lemma setHeld_lookup b L o (u : gostr) :
  setHeld b L o !! u = if decide (o = Some u) then (fun l => with_held l b) <$> L !! u else L !! u.
Proof.
  destruct o as [t|]; [|done]. cbn [setHeld]. rewrite lookup_alter.
  destruct (decide (t = u)) as [->|Hne]; [by rewrite decide_True|by rewrite decide_False by congruence].
Qed.

Lemma absName_scope L name cs o :
  absName L name cs = Ok o ->
  (o = None /\ name = []) \/
  exists t l, o = Some t /\ L !! t = Some l /\ held l = false /\ inScope l name.
Proof.
  unfold absName. destruct (seqb name "") eqn:E.
  - intros [= <-]. left. split; [done|]. by apply seqb_true in E.
  - unfold firstCovering. destruct (list_find _ _) as [[i t]|] eqn:Ef; [|done]. cbn. intros [= <-]. right.
    apply list_find_Some in Ef as (_ & Hc & _). unfold covers in Hc.
    destruct (L !! t) as [l|] eqn:El; [|done]. exists t, l. naive_solver.
Qed.

Lemma with_held_back l : held l = false -> with_held (with_held l true) false = l.
Proof. destruct l as [d e h]. cbn. by intros ->. Qed.

Lemma confirm_ok a now n0 n1 cs a' r :
  absConfirm a now n0 n1 cs = (a', Ok r) ->
  releasable (aLocks a') r /\ aLocks (absRelease a' r) = live now (aLocks a) /\
  (n0 <> [] -> guarded (aLocks a') n0) /\ (n1 <> [] -> guarded (aLocks a') n1).
Proof.
  unfold absConfirm. set (L := live now (aLocks a)).
  destruct (absName L n0 cs) as [t0|] eqn:E0; [|done]. destruct (absName L n1 cs) as [t1|] eqn:E1; [|done].
  set (t1' := if bool_decide (t1 = t0) then None else t1). intros [= <- <-]. cbn [aLocks absRelease fst snd].
  apply absName_scope in E0. apply absName_scope in E1.
  assert (Hfree : forall o u, o = t0 \/ o = t1 -> o = Some u -> exists l, L !! u = Some l /\ held l = false).
  { intros o u Ho ->. destruct Ho as [<- | <-]; naive_solver. }
  assert (H1' : (t1' = None /\ t1 = t0) \/ (t1' = t1 /\ t1 <> t0)) by (unfold t1'; case_bool_decide; auto).
  assert (Hlk : forall o u l, o = t0 \/ o = t1 -> o = Some u -> L !! u = Some l ->
    setHeld true (setHeld true L t0) t1' !! u = Some (with_held l true)).
  { intros o u l Ho -> Hl. rewrite !setHeld_lookup, Hl. destruct H1' as [[-> He]|[-> Hne]].
    - rewrite (decide_False (P := None = Some u)) by done. rewrite decide_True; [done|]. naive_solver.
    - destruct (decide (t1 = Some u)), (decide (t0 = Some u)); try done; naive_solver congruence. }
  clearbody t1'. split; [|split; [|split]].
  - split; cbn [fst snd].
    + intros u Hu. assert (Hq : exists o, (o = t0 \/ o = t1) /\ o = Some u) by (naive_solver congruence).
      destruct Hq as (o & Ho & ->). destruct (Hfree _ u Ho eq_refl) as (l & Hl & _).
      eexists. split; [by eapply Hlk|done].
    + intros u -> Hu. destruct H1' as [[-> _]|[-> ?]]; congruence.
  - apply map_eq. intros u. rewrite !setHeld_lookup. destruct (decide (t0 = Some u)) as [->|N0].
    + assert (N1 : t1' <> Some u) by (destruct H1' as [[-> _]|[-> ?]]; congruence).
      destruct (decide (t1' = Some u)); [done|].
      destruct (Hfree _ u (or_introl eq_refl) eq_refl) as (l & -> & Hh). cbn. by rewrite with_held_back.
    + destruct (decide (t1' = Some u)) as [->|]; [|done].
      destruct (Hfree t1 u (or_intror eq_refl)) as (l & -> & Hh); [naive_solver congruence|].
      cbn. by rewrite with_held_back.
  - intros Hn. destruct E0 as [[_ ?]|(u & l & -> & Hl & _ & Hs)]; [done|].
    exists u, (with_held l true). split; [by eapply Hlk; [left| |]|]. split; [done|by left].
  - intros Hn. destruct E1 as [[_ ?]|(u & l & -> & Hl & _ & Hs)]; [done|].
    exists u, (with_held l true). split; [by eapply Hlk; [right| |]|]. split; [done|by left].
Qed.

Lemma confirm_err a now n0 n1 cs a' e :
  absConfirm a now n0 n1 cs = (a', Err e) -> aLocks a' = live now (aLocks a) /\ aGen a' = aGen a /\ e = ErrConfirmationFailed.
Proof.
  unfold absConfirm, absName. repeat destr_goal; intros [= <- <-]; simplify_eq; done.
Qed.
