(* ===== verification/DavIf.v ===== *)
(** [server/webdav/if.go]: the parser of the If header. The loops run with the
    length of the remaining input as fuel; the outer [None] is fuel exhaustion,
    which never happens. *)
From S2P Require Import Prelude GoString DavLock.

Record ifList := mkIfList { resourceTag : gostr; conditions : list Condition }.
Definition ifHeader : Type := list ifList.

(** The token types of lex with their string. *)
Inductive token :=
| errToken
| eofToken
| strToken (s : gostr)
| notToken
| angleToken (s : gostr)
| squareToken (s : gostr)
| runeToken (c : ascii).

Definition isBlank (c : ascii) : bool := bool_decide (c = "009"%char \/ c = " "%char).

Definition isDelim (c : ascii) : bool :=
  bool_decide (c ∈ ["009"; " "; "("; ")"; "<"; ">"; "["; "]"]%char).

(** The number of bytes before the first delimiter. *)
Fixpoint tokenLen (s : gostr) : nat :=
  match s with
  | [] => 0
  | c :: s => if isDelim c then 0 else S (tokenLen s)
  end.

Definition lex (s : gostr) : token * gostr :=
  let s := dropWhile isBlank s in
  match s with
  | [] => (eofToken, [])
  | c :: s' =>
      let i := tokenLen s in
      if (i =? 0)%nat then
        let close cl mk :=
          match indexByte s cl with
          | None => (errToken, [])
          | Some j => (mk (take (j - 1) s'), drop (j + 1) s)
          end in
        if bool_decide (c = "<"%char) then close ">"%char angleToken
        else if bool_decide (c = "["%char) then close "]"%char squareToken
        else (runeToken c, s')
      else if seqb (take i s) "Not" then (notToken, drop i s)
      else (strToken (take i s), drop i s)
  end.

Definition parseCondition (s : gostr) : option (Condition * gostr) :=
  let '(t, r) := lex s in
  let '(neg, t, r) := match t with
                      | notToken => let '(t, r) := lex r in (true, t, r)
                      | _ => (false, t, r)
                      end in
  match t with
  | strToken x | angleToken x => Some (mkCond neg x [], r)
  | squareToken x => Some (mkCond neg [] x, r)
  | _ => None
  end.

Fixpoint conditionLoop (fuel : nat) (s : gostr) (acc : list Condition)
  : option (option (list Condition * gostr)) :=
  match fuel with
  | O => None
  | S f =>
      match lex s with
      | (runeToken ")"%char, r) =>
          Some (match acc with [] => None | _ => Some (acc, r) end)
      | _ => match parseCondition s with
             | None => Some None
             | Some (c, r) => conditionLoop f r (acc ++ [c])
             end
      end
  end.

Definition parseList (s : gostr) : option (option (list Condition * gostr)) :=
  match lex s with
  | (runeToken "("%char, r) => conditionLoop (S (length r)) r []
  | _ => Some None
  end.

Fixpoint parseNoTagLists (fuel : nat) (s : gostr) (h : ifHeader) : option (option ifHeader) :=
  match fuel with
  | O => None
  | S f =>
      match parseList s with
      | None => None
      | Some None => Some None
      | Some (Some (l, r)) =>
          let h := h ++ [mkIfList [] l] in
          if seqb r "" then Some (Some h) else parseNoTagLists f r h
      end
  end.

Fixpoint parseTaggedLists (fuel : nat) (s : gostr) (tag : gostr) (n : nat) (first : bool)
  (h : ifHeader) : option (option ifHeader) :=
  match fuel with
  | O => None
  | S f =>
      match lex s with
      | (angleToken t, r) =>
          if negb first && (n =? 0)%nat then Some None
          else parseTaggedLists f r t 0 false h
      | (runeToken "("%char, _) =>
          match parseList s with
          | None => None
          | Some None => Some None
          | Some (Some (l, r)) =>
              let h := h ++ [mkIfList tag l] in
              if seqb r "" then Some (Some h) else parseTaggedLists f r tag (S n) false h
          end
      | _ => Some None
      end
  end.

Definition parseIfHeader (httpHeader : gostr) : option (option ifHeader) :=
  let s := trimSpace httpHeader in
  match lex s with
  | (runeToken "("%char, _) => parseNoTagLists (S (length s)) s []
  | (angleToken _, _) => parseTaggedLists (S (length s)) s [] 0 true []
  | _ => Some None
  end.

Example if_ex :
  parseIfHeader " <http://x> (<urn:a> Not[W/" = Some None /\
  parseIfHeader "(<urn:a> [e])(Not <urn:b>) " =
    Some (Some [mkIfList [] [mkCond false "urn:a" []; mkCond false [] "e"];
                mkIfList [] [mkCond true "urn:b" []]]).
Proof. split; vm_compute; reflexivity. Qed.

(** ** Every token consumes input *)
Definition is_eof (t : token) : bool := match t with eofToken => true | _ => false end.

Lemma lex_shrinks s : is_eof (lex s).1 = false -> (length (lex s).2 < length s)%nat.
Proof.
  unfold lex. pose proof (dropWhile_length isBlank s) as Hl.
  destruct (dropWhile isBlank s) as [|c t]; [done|]. cbv zeta. intros _.
  assert (Hs : (0 < length s)%nat) by (simpl in Hl; lia).
  destruct (tokenLen (c :: t)) as [|i] eqn:Ei; cbn [Nat.eqb].
  - assert (Hc : forall cl mk,
      (length (match indexByte (c :: t) cl with
               | None => (errToken, []) | Some j => (mk (take (j - 1) t), drop (j + 1) (c :: t)) end).2
       < length s)%nat).
    { intros cl mk. destruct (indexByte (c :: t) cl) as [j|]; cbn [snd]; [|done].
      rewrite length_drop. simpl in *. lia. }
    repeat case_bool_decide; [apply Hc..|]. simpl in *. lia.
  - destruct (seqb _ _); cbn [snd]; rewrite length_drop; simpl in *; lia.
Qed.

Lemma parseCondition_shrinks s c r : parseCondition s = Some (c, r) -> (length r < length s)%nat.
Proof.
  unfold parseCondition. pose proof (lex_shrinks s) as H1.
  destruct (lex s) as [t r1]. cbn [fst snd] in H1.
  destruct t; cbn; try done; intros H; simplify_eq; auto.
  pose proof (lex_shrinks r1) as H2. specialize (H1 eq_refl). destruct (lex r1) as [t2 r2].
  destruct t2; simplify_eq; cbn in H2; specialize (H2 eq_refl); lia.
Qed.

Lemma conditionLoop_total fuel s acc :
  (length s < fuel)%nat ->
  exists o, conditionLoop fuel s acc = Some o /\
  forall l r, o = Some (l, r) -> l <> [] /\ (length r < length s)%nat.
Proof.
  revert s acc. induction fuel as [|f IH]; intros s acc Hf; [lia|]. cbn [conditionLoop].
  assert (Hnext : exists o, match parseCondition s with
      | None => Some None | Some (c, r) => conditionLoop f r (acc ++ [c]) end = Some o /\
    forall l r, o = Some (l, r) -> l <> [] /\ (length r < length s)%nat).
  { destruct (parseCondition s) as [[c r]|] eqn:Ec; [|by eexists].
    apply parseCondition_shrinks in Ec. destruct (IH r (acc ++ [c])) as (o & -> & Ho); [lia|].
    exists o. split; [done|]. intros l r' Hr. destruct (Ho l r' Hr). split; [done|lia]. }
  pose proof (lex_shrinks s) as Hl. destruct (lex s) as [t r0]. cbn [fst snd] in Hl.
  destruct t; try exact Hnext. destruct (decide (c = ")"%char)) as [->|Hc].
  - eexists. split; [reflexivity|]. intros l r Hr. destruct acc; [done|]. simplify_eq. auto.
  - destruct c as [[] [] [] [] [] [] [] []]; try exact Hnext. done.
Qed.

Lemma parseList_total s :
  exists o, parseList s = Some o /\
  forall l r, o = Some (l, r) -> l <> [] /\ (length r < length s)%nat.
Proof.
  unfold parseList. pose proof (lex_shrinks s) as Hl. destruct (lex s) as [t r0]. cbn [fst snd] in Hl.
  assert (Hnone : exists o, Some None = Some o /\
    forall (l : list Condition) (r : gostr), o = Some (l, r) -> l <> [] /\ (length r < length s)%nat).
  { by exists None. }
  destruct t; try exact Hnone. destruct (decide (c = "("%char)) as [->|Hc].
  - destruct (conditionLoop_total (S (length r0)) r0 []) as (o & Ho & H); [lia|]. exists o.
    split; [done|]. intros l r Hr. destruct (H l r Hr). specialize (Hl eq_refl). split; [done|lia].
  - destruct c as [[] [] [] [] [] [] [] []]; try exact Hnone. done.
Qed.

Definition listsOk (h : ifHeader) : Prop := Forall (fun l => conditions l <> []) h.

Lemma noTag_total fuel s h :
  (length s < fuel)%nat -> listsOk h ->
  exists o, parseNoTagLists fuel s h = Some o /\ forall h', o = Some h' -> h' <> [] /\ listsOk h'.
Proof.
  revert s h. induction fuel as [|f IH]; intros s h Hf Hh; [lia|]. cbn [parseNoTagLists].
  destruct (parseList_total s) as (o & -> & Ho). destruct o as [[l r]|]; [|by eexists].
  destruct (Ho l r eq_refl) as [Hl Hr].
  assert (Hok : listsOk (h ++ [mkIfList [] l])) by (apply Forall_app_2; auto).
  destr_goal.
  - eexists. split; [done|]. intros h' [= <-]. split; [by destruct h|done].
  - apply IH; [lia|done].
Qed.

Lemma tagged_total fuel s tag n first h :
  (length s < fuel)%nat -> listsOk h ->
  exists o, parseTaggedLists fuel s tag n first h = Some o /\
  forall h', o = Some h' -> h' <> [] /\ listsOk h'.
Proof.
  revert s tag n first h. induction fuel as [|f IH]; intros s tag n first h Hf Hh; [lia|].
  cbn [parseTaggedLists]. pose proof (lex_shrinks s) as Hl. destruct (lex s) as [t r0].
  cbn [fst snd] in Hl.
  assert (Hnone : exists o, Some None = Some o /\
    forall h' : ifHeader, o = Some h' -> h' <> [] /\ listsOk h') by by exists None.
  destruct t; try exact Hnone.
  - destr_goal; [exact Hnone|]. apply IH; [specialize (Hl eq_refl); lia|done].
  - destruct (decide (c = "("%char)) as [->|Hc].
    + destruct (parseList_total s) as (o & -> & Ho). destruct o as [[l r]|]; [|by eexists].
      destruct (Ho l r eq_refl) as [Hln Hr].
      assert (Hok : listsOk (h ++ [mkIfList tag l])) by (apply Forall_app_2; auto).
      destr_goal.
      * eexists. split; [done|]. intros h' [= <-]. split; [by destruct h|done].
      * apply IH; [lia|done].
    + destruct c as [[] [] [] [] [] [] [] []]; try exact Hnone. done.
Qed.

(** ** Printing *)
Definition printCondition (c : Condition) : gostr :=
  (if Not c then "Not " else "") ++
  (if seqb (ETag c) "" then "<" ++ Token c ++ ">" else "[" ++ ETag c ++ "]").

Definition printList (l : list Condition) : gostr := "(" ++ concat (map printCondition l) ++ ")".

(** Without a resource tag, and with one per list. *)
Definition printNoTag (h : list (list Condition)) : gostr := concat (map printList h).
Definition printTagged (h : ifHeader) : gostr :=
  concat (map (fun l => "<" ++ resourceTag l ++ ">" ++ printList (conditions l)) h).

Definition wf_cond (c : Condition) : Prop :=
  (ETag c = [] /\ ">"%char ∉ Token c) \/ (Token c = [] /\ "]"%char ∉ ETag c).

Lemma lex_close (o cl : ascii) mk x t :
  (o = "<"%char /\ cl = ">"%char /\ mk = angleToken) \/
  (o = "["%char /\ cl = "]"%char /\ mk = squareToken) ->
  cl ∉ x -> lex (o :: x ++ cl :: t) = (mk x, t).
Proof.
  intros Ho Hx.
  assert (Hi : indexByte (o :: x ++ cl :: t) cl = Some (S (length x))).
  { change (o :: x ++ cl :: t) with ((o :: x) ++ cl :: t). rewrite indexByte_app; [done|].
    rewrite not_elem_of_cons. split; [|done]. destruct Ho as [(-> & -> & _)|(-> & -> & _)]; done. }
  assert (Hd : drop (S (length x) + 1) (o :: x ++ cl :: t) = t).
  { replace (S (length x) + 1)%nat with (S (length (x ++ [cl]))) by (rewrite length_app; simpl; lia).
    cbn [drop]. replace (x ++ cl :: t) with ((x ++ [cl]) ++ t) by by rewrite <- (assoc_L (++)).
    by rewrite drop_app_length. }
  assert (Ht : take (S (length x) - 1) (x ++ cl :: t) = x).
  { replace (S (length x) - 1)%nat with (length x) by lia. apply take_app_length. }
  unfold lex. destruct Ho as [(-> & -> & ->)|(-> & -> & ->)];
    change (dropWhile isBlank (?c :: ?s)) with (c :: s); cbv beta iota zeta;
    change (tokenLen (_ :: _)) with 0%nat; cbn [Nat.eqb]; rewrite Hi, Hd, Ht; done.
Qed.

Lemma parse_print_cond c t : wf_cond c -> parseCondition (printCondition c ++ t) = Some (c, t).
Proof.
  intros Hw. unfold printCondition, parseCondition.
  set (body := if seqb (ETag c) "" then _ else _).
  assert (Hb : exists k, lex (body ++ t) = (k, t) /\
    ((k = angleToken (Token c) /\ ETag c = []) \/ (k = squareToken (ETag c) /\ Token c = []))).
  { unfold body. destruct (seqb (ETag c) "") eqn:E.
    - apply seqb_true in E. eexists. split; [|by left].
      change ("<" ++ Token c ++ ">") with ("<"%char :: (Token c ++ ">")).
      rewrite <- app_comm_cons, <- (assoc_L (++)). apply lex_close; [by left|].
      destruct Hw as [[_ H]|[-> _]]; [done|]. apply not_elem_of_nil.
    - apply seqb_false in E. destruct Hw as [[H _]|[H Hn]]; [done|]. eexists. split; [|by right].
      change ("[" ++ ETag c ++ "]") with ("["%char :: (ETag c ++ "]")).
      rewrite <- app_comm_cons, <- (assoc_L (++)). by apply lex_close; [right|]. }
  destruct Hb as (k & Hk & Hcase). destruct c as [neg tok et]. cbn [Not Token ETag] in *.
  destruct neg.
  - assert (lex (("Not " ++ body) ++ t) = (notToken, " "%char :: (body ++ t))) as ->.
    { rewrite <- (assoc_L (++)). change ("Not " ++ ?b) with ("N"%char :: "o"%char :: "t"%char :: " "%char :: b).
      reflexivity. }
    assert (Hsp : lex (" "%char :: (body ++ t)) = lex (body ++ t)) by reflexivity.
    rewrite Hsp, Hk. destruct Hcase as [[-> ->]|[-> ->]]; done.
  - rewrite app_nil_l, Hk. destruct Hcase as [[-> ->]|[-> ->]]; done.
Qed.

Lemma printCondition_lex c t :
  wf_cond c -> exists k r, lex (printCondition c ++ t) = (k, r) /\ (forall x, k <> runeToken x).
Proof.
  intros Hw. pose proof (parse_print_cond c t Hw) as Hp. unfold parseCondition in Hp.
  destruct (lex (printCondition c ++ t)) as [k r]. exists k, r. split; [done|].
  intros x ->. done.
Qed.

Lemma conditionLoop_print l t acc fuel :
  Forall wf_cond l -> acc ++ l <> [] -> (length l < fuel)%nat ->
  conditionLoop fuel (concat (map printCondition l) ++ ")" ++ t) acc = Some (Some (acc ++ l, t)).
Proof.
  intros Hl. revert acc fuel. induction Hl as [|c l Hc Hl IH]; intros acc fuel Hne Hf.
  - destruct fuel; [lia|]. cbn [map concat]. rewrite app_nil_r in *.
    cbn [conditionLoop]. change (lex ([] ++ ")" ++ t)) with (runeToken ")"%char, t).
    by destruct acc.
  - destruct fuel as [|fuel]; [simpl in Hf; lia|]. cbn [map concat conditionLoop].
    rewrite <- (assoc_L (++)).
    destruct (printCondition_lex c (concat (map printCondition l) ++ ")" ++ t) Hc) as (k & r & Hk & Hx).
    rewrite Hk, (parse_print_cond c _ Hc).
    assert (Hgoal : conditionLoop fuel (concat (map printCondition l) ++ ")" ++ t) (acc ++ [c]) =
      Some (Some (acc ++ c :: l, t))).
    { rewrite IH; [by rewrite <- (assoc_L (++))| |simpl in Hf; lia].
      rewrite <- (assoc_L (++)). by destruct acc. }
    destruct k; try exact Hgoal. by destruct (Hx c0).
Qed.

Lemma printConditions_length l : Forall wf_cond l -> (length l <= length (concat (map printCondition l)))%nat.
Proof.
  induction 1 as [|c l Hc Hl IH]; [done|]. cbn [map concat length]. rewrite length_app.
  assert (1 <= length (printCondition c))%nat; [|lia].
  unfold printCondition. rewrite length_app. destruct (seqb (ETag c) ""); simpl; lia.
Qed.

Lemma parseList_print l t :
  Forall wf_cond l -> l <> [] -> parseList (printList l ++ t) = Some (Some (l, t)).
Proof.
  intros Hl Hne. unfold parseList, printList.
  change ("(" ++ ?x) with ("("%char :: x). rewrite <- app_comm_cons, <- (assoc_L (++)).
  change (lex ("("%char :: ?x)) with (runeToken "("%char, x). cbv iota.
  rewrite (conditionLoop_print l t []); [done|done|done|].
  pose proof (printConditions_length l Hl). rewrite length_app. lia.
Qed.

Lemma printList_not_nil l t : printList l ++ t <> [].
Proof. done. Qed.

Lemma noTag_print ls acc fuel :
  Forall (fun l => l <> [] /\ Forall wf_cond l) ls -> ls <> [] -> (length ls <= fuel)%nat ->
  parseNoTagLists fuel (printNoTag ls) acc = Some (Some (acc ++ map (mkIfList []) ls)).
Proof.
  intros Hl. revert acc fuel. induction Hl as [|l ls [Hne Hc] Hl IH]; intros acc fuel Hls Hf; [done|].
  destruct fuel as [|fuel]; [simpl in Hf; lia|]. cbn [parseNoTagLists].
  change (printNoTag (l :: ls)) with (printList l ++ printNoTag ls).
  rewrite parseList_print by done. destruct ls as [|l' ls].
  - done.
  - assert (Hn : seqb (printNoTag (l' :: ls)) "" = false) by by apply seqb_false.
    rewrite Hn. rewrite IH by (done || simpl in *; lia). by rewrite <- (assoc_L (++)).
Qed.

Definition wf_tagged (l : ifList) : Prop :=
  ">"%char ∉ resourceTag l /\ conditions l <> [] /\ Forall wf_cond (conditions l).

Lemma tagged_print h acc fuel tag n first :
  Forall wf_tagged h -> h <> [] -> (2 * length h <= fuel)%nat -> first = true \/ n <> 0%nat ->
  parseTaggedLists fuel (printTagged h) tag n first acc = Some (Some (acc ++ h)).
Proof.
  intros Hh. revert acc fuel tag n first.
  induction Hh as [|l h (Ht & Hne & Hc) Hh IH]; intros acc fuel tag n first Hls Hf Hn; [done|].
  destruct fuel as [|[|fuel]]; [simpl in Hf; lia..|].
  change (printTagged (l :: h)) with
    (("<" ++ resourceTag l ++ ">" ++ printList (conditions l)) ++ printTagged h).
  assert (Hlex : lex (("<" ++ resourceTag l ++ ">" ++ printList (conditions l)) ++ printTagged h) =
    (angleToken (resourceTag l), printList (conditions l) ++ printTagged h)).
  { change ("<" ++ ?x) with ("<"%char :: x). rewrite <- app_comm_cons, <- !(assoc_L (++)).
    change (">" ++ ?x) with (">"%char :: x). apply lex_close; [by left|done]. }
  cbn [parseTaggedLists]. rewrite Hlex.
  assert (negb first && (n =? 0)%nat = false) as ->.
  { destruct Hn as [->|Hn]; [done|]. apply Nat.eqb_neq in Hn. rewrite Hn. apply andb_false_r. }
  assert (Hlp : exists r, lex (printList (conditions l) ++ printTagged h) = (runeToken "("%char, r)).
  { by eexists. }
  destruct Hlp as [r ->]. cbv iota. rewrite parseList_print by done.
  assert (Hl : mkIfList (resourceTag l) (conditions l) = l) by by destruct l. rewrite Hl.
  destruct h as [|l' h].
  - done.
  - assert (Hs : seqb (printTagged (l' :: h)) "" = false) by by apply seqb_false.
    rewrite Hs, IH by (done || (simpl in *; lia) || (by right)). by rewrite <- (assoc_L (++)).
Qed.

Lemma trimSpace_id c s :
  c = "("%char \/ c = "<"%char -> last (c :: s) = Some ")"%char -> trimSpace (c :: s) = c :: s.
Proof.
  intros Hc Hl. unfold trimSpace. apply last_Some in Hl as [l' Hl].
  assert (trimLeftEnc (length (c :: s)) space_encodings (c :: s) = c :: s) as ->.
  { by destruct Hc as [->| ->]. }
  rewrite Hl, rev_app_distr. change (rev [")"%char] ++ rev l') with (")"%char :: rev l').
  assert (forall f, trimLeftEnc f (map (@rev ascii) space_encodings) (")"%char :: rev l') =
            ")"%char :: rev l') as -> by by intros [].
  cbn [rev]. by rewrite rev_involutive.
Qed.

Lemma last_concat {A} (ls : list (list A)) x :
  ls <> [] -> Forall (fun l => last l = Some x) ls -> last (concat ls) = Some x.
Proof.
  intros Hne H. destruct (list_snoc ls Hne) as (a & b & ->). rewrite concat_app. cbn [concat].
  apply Forall_app in H as [_ Hb]. inv Hb. rewrite app_nil_r, last_app. by rewrite H1.
Qed.

Lemma printList_last l : last (printList l) = Some ")"%char.
Proof. unfold printList. rewrite !last_app. done. Qed.

(** ** Properties *)

Lemma parseIfHeader_answers s :
  exists o, parseIfHeader s = Some o /\
  forall h, o = Some h -> h <> [] /\ Forall (fun l => conditions l <> []) h.
Proof.
  unfold parseIfHeader. set (t := trimSpace s). clearbody t.
  assert (Hnone : exists o, Some None = Some o /\
    forall h' : ifHeader, o = Some h' -> h' <> [] /\ listsOk h') by by exists None.
  pose proof (noTag_total (S (length t)) t [] ltac:(lia) ltac:(by constructor)) as H1.
  pose proof (tagged_total (S (length t)) t [] 0 true [] ltac:(lia) ltac:(by constructor)) as H2.
  destruct (lex t) as [k r]. destruct k; try exact Hnone; [exact H2|].
  destruct c as [[] [] [] [] [] [] [] []]; try exact Hnone. exact H1.
Qed.

(** The If header parser terminates on every input (its fuel is never
    exhausted), and an accepted header has at least one list, each with at least
    one condition. *)
Theorem parseIfHeader_total s :
  exists o, parseIfHeader s = Some o /\
  forall h, o = Some h -> h <> [] /\ Forall (fun l => conditions l <> []) h.
Proof. apply parseIfHeader_answers. Qed.

(** Printing a header of conditions and parsing the text gives the header
    back, in the form without resource tags and in the form where every list has
    its own tag. *)
Theorem ifHeader_roundtrip (ls : list (list Condition)) (h : ifHeader) :
  ls <> [] -> Forall (fun l => l <> [] /\ Forall wf_cond l) ls ->
  h <> [] -> Forall wf_tagged h ->
  parseIfHeader (printNoTag ls) = Some (Some (map (mkIfList []) ls)) /\
  parseIfHeader (printTagged h) = Some (Some h).
Proof.
  intros Hls Hl Hh Ht. split; unfold parseIfHeader.
  - assert (trimSpace (printNoTag ls) = printNoTag ls) as ->.
    { destruct ls as [|l ls]; [done|].
      assert (Hlast : last (printNoTag (l :: ls)) = Some ")"%char).
      { apply last_concat; [done|]. apply Forall_map, Forall_forall. intros x _. apply printList_last. }
      change (printNoTag (l :: ls)) with
        ("("%char :: (concat (map printCondition l) ++ ")") ++ printNoTag ls) in *.
      apply trimSpace_id; [by left|done]. }
    assert (Hf : (length ls <= S (length (printNoTag ls)))%nat).
    { clear -ls. induction ls as [|l ls IH]; [simpl; lia|].
      change (printNoTag (l :: ls)) with (printList l ++ printNoTag ls). rewrite length_app.
      simpl in *. lia. }
    pose proof (noTag_print ls [] _ Hl Hls Hf) as Hp.
    destruct ls as [|l ls]; [done|].
    change (printNoTag (l :: ls)) with
      ("("%char :: (concat (map printCondition l) ++ ")") ++ printNoTag ls) in *.
    change (lex ("("%char :: ?x)) with (runeToken "("%char, x). exact Hp.
  - assert (trimSpace (printTagged h) = printTagged h) as ->.
    { destruct h as [|l h]; [done|].
      assert (Hlast : last (printTagged (l :: h)) = Some ")"%char).
      { apply last_concat; [done|]. apply Forall_map, Forall_forall. intros x _.
        rewrite !last_app. by rewrite printList_last. }
      change (printTagged (l :: h)) with
        ("<"%char :: (resourceTag l ++ ">" ++ printList (conditions l)) ++ printTagged h) in *.
      apply trimSpace_id; [by right|done]. }
    assert (Hf : (2 * length h <= S (length (printTagged h)))%nat).
    { clear -h. induction h as [|l h IH]; [simpl; lia|].
      change (printTagged (l :: h)) with
        (("<" ++ resourceTag l ++ ">" ++ printList (conditions l)) ++ printTagged h).
      rewrite !length_app. simpl in *. lia. }
    pose proof (tagged_print h [] _ [] 0 true Ht Hh Hf (or_introl eq_refl)) as Hp.
    destruct h as [|l h]; [done|].
    assert (Hlex : exists r, lex (printTagged (l :: h)) = (angleToken (resourceTag l), r)).
    { eexists. apply Forall_cons in Ht as [[Ht _] _].
      change (printTagged (l :: h)) with
        (("<" ++ resourceTag l ++ ">" ++ printList (conditions l)) ++ printTagged h).
      change ("<" ++ ?x) with ("<"%char :: x). rewrite <- app_comm_cons, <- !(assoc_L (++)).
      change (">" ++ ?x) with (">"%char :: x). apply lex_close; [by left|done]. }
    destruct Hlex as [r ->]. exact Hp.
Qed.

Lemma ifHeader_roundtrip_witness :
  let c := mkCond true "urn:x y" [] in let e := mkCond false [] "W/q" in
  parseIfHeader (printNoTag [[c; e]]) = Some (Some (map (mkIfList []) [[c; e]])) /\
  parseIfHeader (printTagged [mkIfList "/p" [e]]) = Some (Some [mkIfList "/p" [e]]).
Proof.
  intros c e.
  assert (Hc : wf_cond c) by (left; split; [reflexivity|by apply (bool_decide_unpack _)]).
  assert (He : wf_cond e) by (right; split; [reflexivity|by apply (bool_decide_unpack _)]).
  apply (ifHeader_roundtrip [[c; e]] [mkIfList "/p" [e]]).
  - discriminate.
  - apply Forall_singleton. split; [discriminate|]. apply Forall_cons_2; [exact Hc|].
    apply Forall_singleton. exact He.
  - discriminate.
  - apply Forall_singleton. split; [by apply (bool_decide_unpack _)|]. split; [discriminate|].
    apply Forall_singleton. exact He.
Defined.
