(* ===== verification/Window.v ===== *)
(** [internal/multipart/window.go]: the receiving window that reassembles
    concurrently uploaded chunks into a sequential stream.

    The code between two mutex operations is one step: WriteChunk is admission
    (under the mutex), the copy of the body into the ring file (without it, in
    pieces of any size) and the commit (under the mutex); Read is the choice of
    the slot, ReadAt without the mutex, and the update of the position. *)
From S2P Require Import Prelude.

(** hash/crc32 with the IEEE polynomial. *)
Fixpoint crcBits (n : nat) (c : Z) : Z :=
  match n with
  | O => c
  | S k => crcBits k (if Z.odd c then Z.lxor (Z.shiftr c 1) 0xEDB88320 else Z.shiftr c 1)
  end.
Definition crcByte (c : Z) (b : ascii) : Z := crcBits 8 (Z.lxor c (byte_val b)).
Definition crc32 (s : gostr) : Z := Z.lxor (fold_left crcByte s 0xFFFFFFFF) 0xFFFFFFFF.

Example crc32_check : crc32 "123456789" = 0xCBF43926.
Proof. vm_compute. reflexivity. Qed.

Inductive slotSt := slotFree | slotFilling | slotReady.
#[export] Instance slotSt_eq : EqDecision slotSt.
Proof. solve_decision. Defined.

Inductive werr :=
| ErrClosed
| ErrAborted
| ErrChunkInFlight
| ErrOutOfWindow
| ErrParams
| ErrOpen
| ErrIndex (idx total : Z)
| ErrLarge (idx length : Z)
| ErrIncomplete (idx n length : Z)
| ErrEOF
| ErrUnexpectedEOF.

(** The ring file is open until the first Close. *)
Record Window := mkWindow {
  ring : gostr;
  fopen : bool;
  chunkSize : Z;
  totalSize : Z;
  total : Z;
  slots : Z;
  slotState : list slotSt;
  slotChunk : list Z;
  readPos : Z;
  crcs : list Z;
  crcSet : list bool;
  err : option werr }.

Definition stAt (l : list slotSt) (i : Z) : slotSt := default slotFree (l !! Z.to_nat i).
Definition atZ (l : list Z) (i : Z) : Z := default 0 (l !! Z.to_nat i).
Definition setZ {A} (l : list A) (i : Z) (x : A) : list A := <[Z.to_nat i := x]> l.

(** NewWindow; make panics on a negative length ([None]). *)
Definition NewWindow (opened : bool) (chunkSize totalSize slots : Z) : option (res werr Window) :=
  if (chunkSize <=? 0) || (totalSize <=? 0) || (slots <=? 0) then Some (Err ErrParams)
  else if negb opened then Some (Err ErrOpen)
  else
    let total := Z.quot (i64 (totalSize + chunkSize - 1)) chunkSize in
    if total <? 0 then None
    else Some (Ok (mkWindow [] true chunkSize totalSize total slots
           (replicate (Z.to_nat slots) slotFree) (replicate (Z.to_nat slots) (-1)) 0
           (replicate (Z.to_nat total) 0) (replicate (Z.to_nat total) false) None)).

Definition ChunkLen (w : Window) (idx : Z) : Z :=
  if idx =? total w - 1 then totalSize w - idx * chunkSize w else chunkSize w.

Definition frontier (w : Window) : Z :=
  if totalSize w <=? readPos w then total w else readPos w / chunkSize w.

Definition set_slot (w : Window) (slot : Z) (st : slotSt) (c : Z) : Window :=
  mkWindow (ring w) (fopen w) (chunkSize w) (totalSize w) (total w) (slots w)
    (setZ (slotState w) slot st) (setZ (slotChunk w) slot c) (readPos w) (crcs w) (crcSet w) (err w).
Definition set_readPos (w : Window) (p : Z) : Window :=
  mkWindow (ring w) (fopen w) (chunkSize w) (totalSize w) (total w) (slots w)
    (slotState w) (slotChunk w) p (crcs w) (crcSet w) (err w).
Definition set_ring (w : Window) (r : gostr) : Window :=
  mkWindow r (fopen w) (chunkSize w) (totalSize w) (total w) (slots w)
    (slotState w) (slotChunk w) (readPos w) (crcs w) (crcSet w) (err w).
Definition set_crc (w : Window) (idx c : Z) : Window :=
  mkWindow (ring w) (fopen w) (chunkSize w) (totalSize w) (total w) (slots w)
    (slotState w) (slotChunk w) (readPos w) (setZ (crcs w) idx c) (setZ (crcSet w) idx true) (err w).

(** WriteChunk up to the release of the mutex: an answer, a wait on the
    condition variable, or the slot reserved. *)
Inductive admission :=
| AReturn (r : res werr Z)
| AWait
| AAdmit (w : Window).

Definition admit_chunk (w : Window) (idx : Z) : admission :=
  match err w with
  | Some e => AReturn (Err e)
  | None =>
      if (idx <? 0) || (total w <=? idx) then AReturn (Err (ErrIndex idx (total w)))
      else
        let length := ChunkLen w idx in
        let slot := idx mod slots w in
        let st := stAt (slotState w) slot in
        if idx * chunkSize w + length <=? readPos w then AReturn (Ok (atZ (crcs w) idx))
        else if (atZ (slotChunk w) slot =? idx) && bool_decide (st = slotReady)
        then AReturn (Ok (atZ (crcs w) idx))
        else if (atZ (slotChunk w) slot =? idx) && bool_decide (st = slotFilling)
        then AReturn (Err ErrChunkInFlight)
        else if bool_decide (st = slotFree) && (idx <? frontier w + slots w)
        then AAdmit (set_slot w slot slotFilling idx)
        else AWait
  end.

(** A WriteChunk call past admission: the bytes the body delivers, how many of
    them are in the ring file, and the outcome of the copy. *)
Record job := mkJob { jidx : Z; jbody : gostr; jcopied : nat; jout : option (option werr) }.

(** os.File.WriteAt: a hole before the offset reads as zeros. *)
Definition writeAt (f : gostr) (off : Z) (data : gostr) : gostr :=
  let o := Z.to_nat off in
  take o f ++ replicate (o - length f) zero ++ data ++ drop (o + length data) f.

Definition readAt (f : gostr) (off : Z) (n : Z) : gostr := take (Z.to_nat n) (drop (Z.to_nat off) f).

(** One Write of the copy loop: the next [k] bytes of the body. *)
Definition copyPiece (w : Window) (j : job) (k : nat) : option (Window * job) :=
  let length_ := ChunkLen w (jidx j) in
  let slot := jidx j mod slots w in
  match jout j with
  | Some _ => None
  | None =>
      let n := (jcopied j + k)%nat in
      if (k =? 0)%nat || (length (jbody j) <? n)%nat || (length_ <? Z.of_nat n) then None
      else if negb (fopen w) then
        Some (w, mkJob (jidx j) (jbody j) (jcopied j)
                   (Some (Some (ErrIncomplete (jidx j) (Z.of_nat (jcopied j)) length_))))
      else
        Some (set_ring w (writeAt (ring w) (slot * chunkSize w + Z.of_nat (jcopied j))
                            (take k (drop (jcopied j) (jbody j)))),
              mkJob (jidx j) (jbody j) n None)
  end.

(** The end of the copy: all the bytes of the chunk, or the end of the body. *)
Definition copyEnd (w : Window) (j : job) : option job :=
  let length_ := ChunkLen w (jidx j) in
  match jout j with
  | Some _ => None
  | None =>
      let out o := Some (mkJob (jidx j) (jbody j) (jcopied j) (Some o)) in
      if Z.of_nat (jcopied j) =? length_ then
        out (if length_ <? Z.of_nat (length (jbody j)) then Some (ErrLarge (jidx j) length_) else None)
      else if (jcopied j =? length (jbody j))%nat then
        out (Some (ErrIncomplete (jidx j) (Z.of_nat (jcopied j)) length_))
      else None
  end.

Definition commit (w : Window) (j : job) (copied : option werr) : Window * res werr Z :=
  let idx := jidx j in
  let slot := idx mod slots w in
  if negb (bool_decide (stAt (slotState w) slot = slotFilling)) || negb (atZ (slotChunk w) slot =? idx)
  then (w, Err match err w with Some e => e | None => ErrClosed end)
  else
    let e := match copied, err w with None, Some e => Some e | e, _ => e end in
    match e with
    | Some e => (set_slot w slot slotFree (-1), Err e)
    | None =>
        let w := set_slot w slot slotReady (atZ (slotChunk w) slot) in
        let w := set_crc w idx (crc32 (jbody j)) in
        (w, Ok (atZ (crcs w) idx))
    end.

(** Read up to the release of the mutex. *)
Record pread := mkPread { pcur : Z; pslot : Z; pn : Z; poff : Z; pend : Z }.

Inductive readAct :=
| RReturn (r : res werr gostr)
| RWait
| RGo (p : pread).

Definition readBegin (w : Window) (plen : Z) : readAct :=
  if plen =? 0 then RReturn (Ok [])
  else match err w with
  | Some e => RReturn (Err e)
  | None =>
      if totalSize w <=? readPos w then RReturn (Err ErrEOF)
      else
        let cur := readPos w / chunkSize w in
        let slot := cur mod slots w in
        if bool_decide (stAt (slotState w) slot = slotReady) && (atZ (slotChunk w) slot =? cur) then
          let chunkStart := cur * chunkSize w in
          let chunkEnd := chunkStart + ChunkLen w cur in
          let avail := chunkEnd - readPos w in
          let n := if avail <? plen then avail else plen in
          RGo (mkPread cur slot n (slot * chunkSize w + (readPos w - chunkStart)) chunkEnd)
        else RWait
  end.

Definition readFile (w : Window) (p : pread) : gostr :=
  if fopen w then readAt (ring w) (poff p) (pn p) else [].

Definition readEnd (w : Window) (p : pread) (got : gostr) : Window * res werr gostr :=
  match got with
  | [] => (w, Err match err w with Some e => e | None => ErrUnexpectedEOF end)
  | _ =>
      let w := set_readPos w (readPos w + slen got) in
      let w := if pend p <=? readPos w then set_slot w (pslot p) slotFree (-1) else w in
      (w, Ok got)
  end.

Definition CloseWithError (w : Window) (sticky : werr) : Window :=
  mkWindow (ring w) false (chunkSize w) (totalSize w) (total w) (slots w)
    (map (fun _ => slotFree) (slotState w)) (map (fun _ => -1) (slotChunk w)) (readPos w)
    (crcs w) (crcSet w) (match err w with None => Some sticky | Some e => Some e end).

Definition Close (w : Window) : Window := CloseWithError w ErrClosed.

(** Snapshot: the loop over the window with the ranges in reverse order. *)
Record Snapshot := mkSnap { Frontier : Z; ReadPos : Z; ReceivedBytes : Z; Received : list (Z * Z) }.

Fixpoint snapLoop (w : Window) (n : nat) (idx : Z) (recv : Z) (ranges : list (Z * Z))
  : Z * list (Z * Z) :=
  match n with
  | O => (recv, ranges)
  | S k =>
      let slot := idx mod slots w in
      if negb (bool_decide (stAt (slotState w) slot = slotReady)) || negb (atZ (slotChunk w) slot =? idx)
      then snapLoop w k (idx + 1) recv ranges
      else
        let start := idx * chunkSize w in
        let consumed := if start <? readPos w then readPos w - start else 0 in
        let recv := recv + (ChunkLen w idx - consumed) in
        let ranges := match ranges with
                      | (a, b) :: rest => if b =? idx - 1 then (a, idx) :: rest
                                          else (idx, idx) :: ranges
                      | [] => [(idx, idx)]
                      end in
        snapLoop w k (idx + 1) recv ranges
  end.

Definition snapshot (w : Window) : Snapshot :=
  let f := frontier w in
  let n := Z.to_nat (Z.min (slots w) (total w - f)) in
  let '(recv, ranges) := snapLoop w n f (readPos w) (if 0 <? f then [(0, f - 1)] else []) in
  mkSnap f (readPos w) recv (rev ranges).

Definition CRCs (w : Window) : list Z * list bool := (crcs w, crcSet w).

(** ** Executions: any interleaving of WriteChunk calls, one reader and Close

    [accepted] records the body of each chunk that WriteChunk committed and
    [out] the bytes Read returned. *)
Inductive rstate := RIdle | RPending (p : pread) | RGot (p : pread) (got : gostr).

Record sys := mkSys {
  win : Window; jobs : list job; rd : rstate; accepted : gmap Z gostr; out : gostr }.

Inductive event :=
| EvStart (idx : Z) (body : gostr)
| EvPiece (i : nat) (k : nat)
| EvEnd (i : nat)
| EvCommit (i : nat)
| EvReadBegin (plen : Z)
| EvReadFile
| EvReadEnd
| EvClose (sticky : werr).

(** [None]: the event is not possible in the state. *)
Definition wstep (s : sys) (e : event) : option sys :=
  let w := win s in
  match e with
  | EvStart idx body =>
      match admit_chunk w idx with
      | AAdmit w => Some (mkSys w (jobs s ++ [mkJob idx body 0 None]) (rd s) (accepted s) (out s))
      | _ => Some s
      end
  | EvPiece i k =>
      let! j := jobs s !! i in
      let! (w, j) := copyPiece w j k in
      Some (mkSys w (<[i := j]> (jobs s)) (rd s) (accepted s) (out s))
  | EvEnd i =>
      let! j := jobs s !! i in
      let! j := copyEnd w j in
      Some (mkSys w (<[i := j]> (jobs s)) (rd s) (accepted s) (out s))
  | EvCommit i =>
      let! j := jobs s !! i in
      let! o := jout j in
      let '(w, r) := commit w j o in
      Some (mkSys w (delete i (jobs s)) (rd s)
              (if is_ok r then <[jidx j := jbody j]> (accepted s) else accepted s) (out s))
  | EvReadBegin plen =>
      match rd s with
      | RIdle => match readBegin w plen with
                 | RGo p => if plen <? 0 then None
                            else Some (mkSys w (jobs s) (RPending p) (accepted s) (out s))
                 | _ => Some s
                 end
      | _ => None
      end
  | EvReadFile =>
      match rd s with
      | RPending p => Some (mkSys w (jobs s) (RGot p (readFile w p)) (accepted s) (out s))
      | _ => None
      end
  | EvReadEnd =>
      match rd s with
      | RGot p got =>
          let '(w, r) := readEnd w p got in
          Some (mkSys w (jobs s) RIdle (accepted s)
                  (match r with Ok b => out s ++ b | Err _ => out s end))
      | _ => None
      end
  | EvClose sticky => Some (mkSys (CloseWithError w sticky) (jobs s) (rd s) (accepted s) (out s))
  end.

Fixpoint wrun (s : sys) (es : list event) : option sys :=
  match es with
  | [] => Some s
  | e :: es => let! s := wstep s e in wrun s es
  end.

Definition initSys (w : Window) : sys := mkSys w [] RIdle ∅ [].

(** Two chunks of four bytes and a short third one through two slots. *)
Example window_ex :
  match NewWindow true 4 10 2 with
  | Some (Ok w) =>
      (fun s => (out s, readPos (win s), ReceivedBytes (snapshot (win s)), length (ring (win s)))) <$>
      wrun (initSys w)
        [EvStart 1 "efgh"; EvStart 0 "abcd"; EvPiece 0 4; EvPiece 1 2; EvEnd 0; EvCommit 0; EvStart 2 "ij";
         EvPiece 0 2; EvEnd 0; EvCommit 0; EvReadBegin 3; EvReadFile; EvReadEnd; EvReadBegin 3; EvReadFile;
         EvReadEnd; EvStart 2 "ij"; EvPiece 0 2; EvEnd 0; EvCommit 0; EvReadBegin 9; EvReadFile; EvReadEnd]
  | _ => None
  end = Some (("abcdefgh" : gostr), 8, 10, 8%nat).
Proof. vm_compute. reflexivity. Qed.
