(* ===== verification/WindowSpec.v ===== *)
(** The receiving window of [Window]: an invariant of every interleaving of
    writers, reader and Close, and what follows from it. *)
From S2P Require Import Prelude Window.

(** ** Indexing with machine integers *)
Lemma stAt_set l i j x :
  0 <= i < Z.of_nat (length l) -> 0 <= j ->
  stAt (setZ l i x) j = if decide (j = i) then x else stAt l j.
Proof.
  intros Hi Hj. unfold stAt, setZ. case_decide as H.
  - subst. by rewrite list_lookup_insert_eq by lia.
  - by rewrite list_lookup_insert_ne by lia.
Qed.

Lemma atZ_set l i j x :
  0 <= i < Z.of_nat (length l) -> 0 <= j ->
  atZ (setZ l i x) j = if decide (j = i) then x else atZ l j.
Proof.
  intros Hi Hj. unfold atZ, setZ. case_decide as H.
  - subst. by rewrite list_lookup_insert_eq by lia.
  - by rewrite list_lookup_insert_ne by lia.
Qed.

Lemma setZ_length {A} (l : list A) i x : length (setZ l i x) = length l.
Proof. apply length_insert. Qed.

(** ** The ring file *)
Lemma writeAt_in f off data k :
  0 <= off -> (k < length data)%nat -> writeAt f off data !! (Z.to_nat off + k)%nat = data !! k.
Proof.
  intros Ho Hk. unfold writeAt. set (o := Z.to_nat off).
  assert (Hl : (length (take o f ++ replicate (o - length f) zero) = o)%nat).
  { rewrite length_app, length_take, length_replicate. lia. }
  rewrite (assoc_L (++)), lookup_app_r by lia. rewrite Hl, Nat.add_sub', lookup_app_l by done. done.
Qed.

Lemma writeAt_out f off data i b :
  0 <= off -> f !! i = Some b -> (i < Z.to_nat off \/ Z.to_nat off + length data <= i)%nat ->
  writeAt f off data !! i = Some b.
Proof.
  intros Ho Hb Hi. pose proof (lookup_lt_Some _ _ _ Hb) as Hlt. unfold writeAt. set (o := Z.to_nat off) in *.
  destruct Hi as [Hi|Hi].
  - rewrite lookup_app_l by (rewrite length_take; lia). by rewrite lookup_take_lt.
  - rewrite lookup_app_r by (rewrite length_take; lia). rewrite length_take.
    rewrite lookup_app_r by (rewrite length_replicate; lia). rewrite length_replicate.
    rewrite lookup_app_r by lia. rewrite lookup_drop, <- Hb. f_equal. lia.
Qed.

Lemma writeAt_length f off data :
  0 <= off -> Z.of_nat (length (writeAt f off data)) =
  Z.max (Z.of_nat (length f)) (off + Z.of_nat (length data)).
Proof.
  intros Ho. unfold writeAt. rewrite !length_app, length_take, length_replicate, length_drop. lia.
Qed.

Section Params.
Context (cs ts sl : Z) (Hcs : 0 < cs) (Hts : 0 < ts) (Hsl : 0 < sl).

(** ** Chunks and the frontier *)
Definition tot : Z := (ts + cs - 1) / cs.
Definition clen (idx : Z) : Z := if idx =? tot - 1 then ts - idx * cs else cs.
Definition cend (idx : Z) : Z := idx * cs + clen idx.
Definition fr (rp : Z) : Z := if ts <=? rp then tot else rp / cs.

Lemma tot_spec : 0 < tot /\ (tot - 1) * cs < ts <= tot * cs.
Proof.
  unfold tot. pose proof (Z.div_mod (ts + cs - 1) cs ltac:(lia)).
  pose proof (Z.mod_pos_bound (ts + cs - 1) cs Hcs). nia.
Qed.

Lemma clen_spec idx : 0 <= idx < tot -> 0 < clen idx <= cs /\ cend idx <= ts.
Proof.
  intros Hi. pose proof tot_spec. unfold cend, clen. destruct (idx =? tot - 1) eqn:E; bool_hyps.
  - subst. nia.
  - nia.
Qed.

Lemma cend_eq idx : cend idx = if idx =? tot - 1 then ts else (idx + 1) * cs.
Proof. unfold cend, clen. destruct (idx =? tot - 1); lia. Qed.

Lemma cend_mono i j : 0 <= i < j -> j < tot -> cend i <= j * cs.
Proof. intros Hi Hj. rewrite cend_eq. destruct (i =? tot - 1) eqn:E; bool_hyps; nia. Qed.

Lemma cur_spec rp :
  0 <= rp < ts -> let cur := rp / cs in 0 <= cur < tot /\ cur * cs <= rp < cend cur.
Proof.
  intros Hr cur. pose proof tot_spec. pose proof (Z.div_mod rp cs ltac:(lia)).
  pose proof (Z.mod_pos_bound rp cs Hcs). fold cur in H0.
  assert (0 <= cur) by (apply Z.div_pos; lia).
  assert (cur < tot) by nia. split; [lia|]. rewrite cend_eq.
  destruct (cur =? tot - 1) eqn:E; bool_hyps; nia.
Qed.

Lemma fr_range rp : 0 <= rp -> 0 <= fr rp <= tot.
Proof.
  intros Hr. pose proof tot_spec. unfold fr. destruct (ts <=? rp) eqn:E; bool_hyps; [lia|].
  pose proof (cur_spec rp ltac:(lia)) as Hc. cbv zeta in Hc. lia.
Qed.

Lemma fr_lt rp idx : 0 <= rp <= ts -> 0 <= idx < tot -> idx < fr rp <-> cend idx <= rp.
Proof.
  intros Hr Hi. pose proof (clen_spec idx Hi). unfold fr. destruct (ts <=? rp) eqn:E; bool_hyps; [lia|].
  pose proof (cur_spec rp ltac:(lia)) as Hc. cbv zeta in Hc. split.
  - intros Hlt. pose proof (cend_mono idx (rp / cs) ltac:(lia) ltac:(lia)). lia.
  - intros Hle. destruct (decide (idx < rp / cs)); [done|].
    destruct (decide (idx = rp / cs)) as [->|]; [lia|].
    pose proof (cend_mono (rp / cs) idx ltac:(lia) ltac:(lia)).
    unfold cend in *. lia.
Qed.

Lemma fr_cur rp : 0 <= rp < ts -> fr rp = rp / cs.
Proof. intros Hr. unfold fr. destruct (ts <=? rp) eqn:E; bool_hyps; [lia|done]. Qed.

Lemma div_chunk idx rp : 0 <= idx < tot -> idx * cs <= rp < cend idx -> rp / cs = idx.
Proof.
  intros Hi Hr. pose proof (clen_spec idx Hi). unfold cend in *. symmetry.
  apply (Z.div_unique rp cs idx (rp - idx * cs)); lia.
Qed.

Lemma fr_stay idx rp : 0 <= idx < tot -> idx * cs <= rp < cend idx -> fr rp = idx.
Proof.
  intros Hi Hr. pose proof (clen_spec idx Hi). rewrite fr_cur by nia. by apply div_chunk.
Qed.

Lemma fr_next idx : 0 <= idx < tot -> fr (cend idx) = idx + 1.
Proof.
  intros Hi. pose proof tot_spec. rewrite cend_eq. unfold fr.
  destruct (idx =? tot - 1) eqn:E; bool_hyps.
  - rewrite Z.leb_refl. lia.
  - destruct (ts <=? (idx + 1) * cs) eqn:E2; bool_hyps; [nia|].
    by rewrite Z.div_mul by lia.
Qed.

Lemma mod_slot idx : 0 <= idx mod sl < sl.
Proof. apply Z.mod_pos_bound. lia. Qed.

Lemma mod_window x y : y <= x < y + sl -> x mod sl = y mod sl -> x = y.
Proof.
  intros Hr He. pose proof (Z.div_mod x sl ltac:(lia)). pose proof (Z.div_mod y sl ltac:(lia)).
  assert (x / sl - y / sl < 1) by nia. assert (0 <= x / sl - y / sl) by nia.
  assert (x / sl = y / sl) by lia. congruence.
Qed.


(** ** The invariant *)
Definition at_ring (w : Window) (p : Z) : option ascii := ring w !! Z.to_nat p.

Definition slotHas (w : Window) (idx : Z) (st : slotSt) : Prop :=
  stAt (slotState w) (idx mod sl) = st /\ atZ (slotChunk w) (idx mod sl) = idx.

(** The first [n] bytes of the slot of [idx]. *)
Definition holds (w : Window) (idx : Z) (d : gostr) (n : nat) : Prop :=
  (n <= length d)%nat /\
  forall k, (k < n)%nat -> at_ring w (idx mod sl * cs + Z.of_nat k) = d !! k.

Definition job_ok (w : Window) (j : job) : Prop :=
  0 <= jidx j < tot /\ slotHas w (jidx j) slotFilling /\
  holds w (jidx j) (jbody j) (jcopied j) /\ Z.of_nat (jcopied j) <= clen (jidx j) /\
  (jout j = Some None -> slen (jbody j) = clen (jidx j) /\ jcopied j = length (jbody j)).

Definition pread_ok (w : Window) (p : pread) : Prop :=
  readPos w < ts /\ pcur p = readPos w / cs /\ pslot p = pcur p mod sl /\
  0 < pn p <= cend (pcur p) - readPos w /\
  poff p = pslot p * cs + (readPos w - pcur p * cs) /\ pend p = cend (pcur p).

Definition got_ok (s : sys) (p : pread) (got : gostr) : Prop :=
  (length got <= Z.to_nat (pn p))%nat /\
  (got <> [] -> exists d, accepted s !! pcur p = Some d /\
     got `prefix_of` drop (Z.to_nat (readPos (win s) - pcur p * cs)) d).

Definition rd_ok (s : sys) : Prop :=
  match rd s with
  | RIdle => True
  | RPending p => pread_ok (win s) p /\ (err (win s) = None -> slotHas (win s) (pcur p) slotReady)
  | RGot p got => pread_ok (win s) p /\ (err (win s) = None -> slotHas (win s) (pcur p) slotReady) /\
                  got_ok s p got
  end.

Record par_ok (w : Window) : Prop := {
  p_cs : chunkSize w = cs; p_ts : totalSize w = ts; p_tot : total w = tot; p_sl : slots w = sl;
  p_state : Z.of_nat (length (slotState w)) = sl;
  p_chunk : Z.of_nat (length (slotChunk w)) = sl;
  p_crcs : Z.of_nat (length (crcs w)) = tot }.

Record WInv (s : sys) : Prop := {
  w_par : par_ok (win s);
  w_pos : 0 <= readPos (win s) <= ts;
  w_outlen : slen (out s) = readPos (win s);
  w_open : fopen (win s) = true <-> err (win s) = None;
  w_closed : err (win s) <> None -> forall i, 0 <= i < sl -> stAt (slotState (win s)) i = slotFree;
  w_slot : forall i, 0 <= i < sl -> stAt (slotState (win s)) i <> slotFree ->
    let idx := atZ (slotChunk (win s)) i in
    0 <= idx < tot /\ idx mod sl = i /\ fr (readPos (win s)) <= idx < fr (readPos (win s)) + sl;
  w_jobs : err (win s) = None -> forall i j, jobs s !! i = Some j -> job_ok (win s) j;
  w_distinct : err (win s) = None -> NoDup (map jidx (jobs s));
  w_filling : forall idx, slotHas (win s) idx slotFilling -> idx ∈ map jidx (jobs s);
  w_ready : forall idx, slotHas (win s) idx slotReady -> exists d,
    accepted s !! idx = Some d /\ holds (win s) idx d (length d);
  w_acc : forall idx d, accepted s !! idx = Some d ->
    0 <= idx < tot /\ slen d = clen idx /\ atZ (crcs (win s)) idx = crc32 d /\
    (err (win s) = None -> idx < fr (readPos (win s)) \/ slotHas (win s) idx slotReady);
  w_front : err (win s) = None -> readPos (win s) < ts ->
    fr (readPos (win s)) * cs < readPos (win s) -> slotHas (win s) (fr (readPos (win s))) slotReady;
  w_out : forall p, 0 <= p < readPos (win s) -> exists d, accepted s !! (p / cs) = Some d /\
    out s !! Z.to_nat p = d !! Z.to_nat (p mod cs);
  w_rd : rd_ok s;
  w_ring : Z.of_nat (length (ring (win s))) <= sl * cs }.

Lemma ChunkLen_eq w idx : par_ok w -> ChunkLen w idx = clen idx.
Proof. intros H. unfold ChunkLen, clen. by rewrite (p_cs w H), (p_ts w H), (p_tot w H). Qed.

Lemma frontier_eq w : par_ok w -> frontier w = fr (readPos w).
Proof. intros H. unfold frontier, fr. by rewrite (p_cs w H), (p_ts w H), (p_tot w H). Qed.

Lemma par_set_slot w i st c : par_ok w -> par_ok (set_slot w i st c).
Proof. intros []. constructor; cbn; rewrite ?setZ_length; done. Qed.

Lemma slotHas_set w i st c idx st' :
  par_ok w -> 0 <= i < sl ->
  slotHas (set_slot w i st c) idx st' <->
  if decide (idx mod sl = i) then st = st' /\ c = idx else slotHas w idx st'.
Proof.
  intros Hp Hi. pose proof (mod_slot idx). unfold slotHas. cbn [set_slot slotState slotChunk].
  rewrite stAt_set, atZ_set by (rewrite ?(p_state w Hp), ?(p_chunk w Hp); lia).
  destruct (decide (idx mod sl = i)); done.
Qed.

(** Changes that keep the slots, the position and the ring. *)
Lemma job_ok_set w i st c j :
  par_ok w -> 0 <= i < sl -> jidx j mod sl <> i -> job_ok (set_slot w i st c) j <-> job_ok w j.
Proof.
  intros Hp Hi Hne. unfold job_ok. rewrite slotHas_set by done. by rewrite decide_False.
Qed.

(** ** Admission *)
Lemma admit_cases w idx w' :
  par_ok w -> 0 <= readPos w <= ts -> admit_chunk w idx = AAdmit w' ->
  err w = None /\ 0 <= idx < tot /\ fr (readPos w) <= idx < fr (readPos w) + sl /\
  stAt (slotState w) (idx mod sl) = slotFree /\ w' = set_slot w (idx mod sl) slotFilling idx.
Proof.
  intros Hp Hr. unfold admit_chunk. rewrite (p_tot w Hp), (p_cs w Hp), (p_sl w Hp).
  destruct (err w); [done|]. destruct (_ || _) eqn:E1; [done|]. bool_hyps.
  rewrite ChunkLen_eq, frontier_eq by done. fold (cend idx).
  destruct (cend idx <=? readPos w) eqn:E2; [done|]. bool_hyps.
  destruct (_ && _); [done|]. destruct (_ && _); [done|].
  destruct (_ && _) eqn:E3; [|done]. bool_hyps. intros [= <-].
  split; [done|]. split; [lia|]. split; [|done]. split; [|done].
  destruct (decide (fr (readPos w) <= idx)); [done|].
  assert (cend idx <= readPos w) by (apply fr_lt; lia). lia.
Qed.

(** Reserving, releasing or filling the slot of one chunk does not touch the
    reader when that slot is not the ready slot it reads. *)
Lemma rd_ok_set s w' acc :
  rd_ok s -> readPos w' = readPos (win s) -> (err w' = None -> err (win s) = None) ->
  (forall idx, err (win s) = None -> slotHas (win s) idx slotReady -> slotHas w' idx slotReady) ->
  (forall idx d, accepted s !! idx = Some d -> acc !! idx = Some d) ->
  forall js o, rd_ok (mkSys w' js (rd s) acc o).
Proof.
  intros Hr Hp He Hs Ha js o. unfold rd_ok, pread_ok, got_ok in *. cbn [rd win accepted].
  destruct (rd s) as [|p|p got]; [done|..]; rewrite Hp.
  - destruct Hr as [H1 H2]. split; [done|]. auto.
  - destruct Hr as (H1 & H2 & H3 & H4). split; [done|]. split; [auto|]. split; [done|].
    intros Hg. destruct (H4 Hg) as (d & Hd & Hx). eauto.
Qed.

Lemma admit_inv s idx body w' :
  WInv s -> admit_chunk (win s) idx = AAdmit w' ->
  WInv (mkSys w' (jobs s ++ [mkJob idx body 0 None]) (rd s) (accepted s) (out s)).
Proof.
  intros Hi Ha. pose proof (w_par s Hi) as Hp. pose proof (mod_slot idx) as Hm.
  apply admit_cases in Ha as (He & Hidx & Hfr & Hfree & ->); [|done|apply Hi].
  assert (Hne : forall i st, slotHas (win s) i st -> st <> slotFree -> i mod sl <> idx mod sl).
  { intros i st [H1 _] H2 H3. congruence. }
  constructor; cbn [win jobs accepted out]; try apply Hi.
  - by apply par_set_slot.
  - done.
  - intros i Hr Hst. cbn [set_slot slotState slotChunk readPos] in *. revert Hst.
    rewrite stAt_set, atZ_set by (rewrite ?(p_state _ Hp), ?(p_chunk _ Hp); lia).
    destruct (decide (i = idx mod sl)) as [->|]; [intros _; lia|]. apply (w_slot s Hi i Hr).
  - intros _ i j [Hj|[_ Hj]]%lookup_app_Some.
    + pose proof (w_jobs s Hi He i j Hj) as Hok. apply job_ok_set; [done|done| |done].
      destruct Hok as (_ & Hs & _). by eapply Hne.
    + apply list_lookup_singleton_Some in Hj as [_ <-]. split; [done|]. cbn [jidx jbody jcopied jout].
      split; [|split; [|split]].
      * rewrite slotHas_set by done. by rewrite decide_True.
      * split; [lia|]. intros k Hk. lia.
      * pose proof (clen_spec idx Hidx). lia.
      * done.
  - intros _. rewrite map_app. apply NoDup_app. split; [by apply (w_distinct s Hi)|]. split.
    + intros x Hx ->%list_elem_of_singleton. cbn in Hx. apply list_elem_of_fmap in Hx as (j & Hej & [i Hj]%list_elem_of_lookup).
      destruct (w_jobs s Hi He i j Hj) as (_ & Hs & _). apply (Hne _ _ Hs); [done|]. by rewrite <- Hej.
    + apply NoDup_singleton.
  - intros i. rewrite slotHas_set by done. rewrite map_app, elem_of_app. case_decide.
    + intros [_ ->]. right. by apply list_elem_of_singleton.
    + intros Hs. left. by apply (w_filling s Hi).
  - intros i. rewrite slotHas_set by done. case_decide; [by intros [? _]|]. apply (w_ready s Hi).
  - intros i d Hd. destruct (w_acc s Hi i d Hd) as (H1 & H2 & H3 & H4).
    split; [done|]. split; [done|]. split; [done|]. intros _. destruct (H4 He) as [H5|H5]; [by left|right].
    rewrite slotHas_set by done. rewrite decide_False; [done|]. by eapply Hne.
  - intros _ H1 H2. pose proof (w_front s Hi He H1 H2) as Hs.
    rewrite slotHas_set by done. rewrite decide_False; [done|]. by eapply Hne.
  - apply rd_ok_set; try done; [apply Hi|]. intros i _ Hs.
    rewrite slotHas_set by done. rewrite decide_False; [done|]. by eapply Hne.
Qed.

(** ** Copying *)
Lemma holds_write w idx d n i off data :
  0 <= off -> 0 <= idx mod sl -> 0 <= i mod sl ->
  i mod sl * cs <= off -> off + slen data <= i mod sl * cs + cs -> Z.of_nat n <= cs ->
  idx mod sl <> i mod sl ->
  holds w idx d n -> holds (set_ring w (writeAt (ring w) off data)) idx d n.
Proof.
  intros Ho H1 H2 Hlo Hhi Hn Hne [Hlen Hh]. split; [done|]. intros k Hk.
  destruct (lookup_lt_is_Some_2 d k ltac:(lia)) as [b Hb]. specialize (Hh k Hk). rewrite Hb in *.
  unfold at_ring in *. cbn [set_ring ring]. apply writeAt_out; [done|done|]. unfold slen in *.
  destruct (decide (idx mod sl < i mod sl)); [left|right]; nia.
Qed.

Lemma holds_extend w idx d n k :
  0 <= idx mod sl -> (n + k <= length d)%nat -> holds w idx d n ->
  holds (set_ring w (writeAt (ring w) (idx mod sl * cs + Z.of_nat n) (take k (drop n d)))) idx d (n + k).
Proof.
  intros Hs Hlen [_ Hh]. split; [done|]. intros m Hm. unfold at_ring in *. cbn [set_ring ring].
  assert (Hkl : length (take k (drop n d)) = k) by (rewrite length_take, length_drop; lia).
  destruct (decide (m < n)%nat).
  - destruct (lookup_lt_is_Some_2 d m ltac:(lia)) as [b Hb]. specialize (Hh m ltac:(lia)). rewrite Hb in *.
    apply writeAt_out; [nia|done|]. left. nia.
  - replace (Z.to_nat (idx mod sl * cs + Z.of_nat m)) with
      (Z.to_nat (idx mod sl * cs + Z.of_nat n) + (m - n))%nat by nia.
    rewrite writeAt_in by (rewrite ?Hkl; nia). rewrite lookup_take_lt by lia.
    rewrite lookup_drop. f_equal. lia.
Qed.

Lemma distinct_idx s i1 i2 j1 j2 :
  NoDup (map jidx (jobs s)) -> jobs s !! i1 = Some j1 -> jobs s !! i2 = Some j2 ->
  jidx j1 = jidx j2 -> i1 = i2.
Proof.
  intros Hn H1 H2 He. eapply (NoDup_lookup _ _ _ (jidx j1) Hn).
  - by rewrite list_lookup_fmap, H1.
  - by rewrite list_lookup_fmap, H2, He.
Qed.

Lemma slotHas_inj w i j st st' :
  slotHas w i st -> slotHas w j st' -> i mod sl = j mod sl -> i = j /\ st = st'.
Proof. intros [H1 H2] [H3 H4] He. rewrite He in H1, H2. split; congruence. Qed.

Lemma map_jidx_insert (l : list job) i j j' :
  l !! i = Some j -> jidx j' = jidx j -> map jidx (<[i := j']> l) = map jidx l.
Proof.
  intros Hi Hj. change (jidx <$> <[i := j']> l = jidx <$> l). rewrite list_fmap_insert.
  apply list_insert_id. by rewrite list_lookup_fmap, Hi, Hj.
Qed.

(** A step of one job that keeps the slots and changes at most its own bytes. *)
Lemma job_step s i j w' j' :
  WInv s -> jobs s !! i = Some j -> jidx j' = jidx j ->
  (w' = win s \/ exists r, w' = set_ring (win s) r /\ Z.of_nat (length r) <= sl * cs /\
     (forall idx d n, idx mod sl <> jidx j mod sl -> Z.of_nat n <= cs ->
        holds (win s) idx d n -> holds w' idx d n) /\ err (win s) = None) ->
  (err (win s) = None -> job_ok w' j') ->
  WInv (mkSys w' (<[i := j']> (jobs s)) (rd s) (accepted s) (out s)).
Proof.
  intros Hi Hj Hidx Hw Hok.
  assert (Hsame : forall idx st, slotHas w' idx st <-> slotHas (win s) idx st).
  { destruct Hw as [->|(r & -> & _)]; done. }
  assert (Hf : par_ok w' /\ readPos w' = readPos (win s) /\ err w' = err (win s) /\
    fopen w' = fopen (win s) /\ slotState w' = slotState (win s) /\ slotChunk w' = slotChunk (win s) /\
    crcs w' = crcs (win s) /\ Z.of_nat (length (ring w')) <= sl * cs).
  { destruct Hw as [->|(r & -> & Hr & _)]; (split; [|repeat split; try done; apply Hi]);
      [apply Hi|]. destruct (w_par s Hi). by constructor. }
  destruct Hf as (Hp & Hpos & He & Ho & Hst & Hch & Hcrc & Hring).
  assert (Hkeep : forall idx d n, err (win s) = None -> idx mod sl <> jidx j mod sl -> Z.of_nat n <= cs ->
    holds (win s) idx d n -> holds w' idx d n).
  { destruct Hw as [->|(r & -> & _ & H & _)]; eauto. }
  assert (Hmap : map jidx (<[i := j']> (jobs s)) = map jidx (jobs s)) by by eapply map_jidx_insert.
  constructor; cbn [win jobs accepted out]; rewrite ?Hpos, ?He, ?Ho, ?Hst, ?Hch, ?Hcrc, ?Hmap; try apply Hi; try done.
  - intros Hn i' x Hx. apply list_lookup_insert_Some in Hx as [(<- & <- & _)|[Hne Hx]]; [by apply Hok|].
    destruct (w_jobs s Hi Hn i' x Hx) as (J1 & J2 & J3 & J4 & J5).
    split; [done|]. split; [by apply Hsame|]. split; [|done].
    pose proof (clen_spec (jidx x) J1). apply Hkeep; [done| |lia|done]. intros Heq.
    destruct (w_jobs s Hi Hn i j Hj) as (_ & K2 & _).
    destruct (slotHas_inj _ _ _ _ _ J2 K2 Heq) as [Hjx _].
    apply Hne. symmetry. by eapply (distinct_idx s), Hjx; [apply (w_distinct s Hi Hn)|..].
  - intros idx Hs%Hsame. by apply (w_filling s Hi).
  - intros idx Hs%Hsame. destruct (w_ready s Hi idx Hs) as (d & Hd & Hh). exists d. split; [done|].
    destruct (w_acc s Hi idx d Hd) as (A1 & A2 & _). pose proof (clen_spec idx A1).
    destruct (err (win s)) as [e|] eqn:Ee.
    + destruct Hw as [->|(r & _ & _ & _ & ?)]; done.
    + apply Hkeep; [done| |unfold slen in *; lia|done]. intros Heq.
      destruct (w_jobs s Hi Ee i j Hj) as (_ & K2 & _).
      by destruct (slotHas_inj _ _ _ _ _ Hs K2 Heq) as [_ ?].
  - intros idx d Hd. destruct (w_acc s Hi idx d Hd) as (A1 & A2 & A3 & A4).
    split; [done|]. split; [done|]. split; [done|]. intros Hn. destruct (A4 Hn); [by left|right; by apply Hsame].
  - intros Hn H1 H2. apply Hsame. by apply (w_front s Hi).
  - apply rd_ok_set; try done; [apply Hi|congruence|]. intros idx _ Hs. by apply Hsame.
Qed.

Lemma piece_inv s i j k w' j' :
  WInv s -> jobs s !! i = Some j -> copyPiece (win s) j k = Some (w', j') ->
  WInv (mkSys w' (<[i := j']> (jobs s)) (rd s) (accepted s) (out s)).
Proof.
  intros Hi Hj. unfold copyPiece. pose proof (w_par s Hi) as Hp.
  rewrite ChunkLen_eq, (p_cs _ Hp), (p_sl _ Hp) by done.
  destruct (jout j) eqn:Eo; [done|]. destruct (_ || _) eqn:Eg; [done|].
  apply orb_false_elim in Eg as [[Eg1 Eg2]%orb_false_elim Eg3].
  apply Nat.eqb_neq in Eg1. apply Nat.ltb_ge in Eg2. apply Z.ltb_ge in Eg3.
  pose proof (w_open s Hi) as Hopen. pose proof (mod_slot (jidx j)) as Hm.
  destruct (fopen (win s)) eqn:Ef; cbn [negb]; intros [= <- <-].
  - assert (He : err (win s) = None) by by apply Hopen.
    destruct (w_jobs s Hi He i j Hj) as (J1 & J2 & J3 & J4 & J5).
    pose proof (clen_spec (jidx j) J1) as Hc.
    assert (Hkl : slen (take k (drop (jcopied j) (jbody j))) = Z.of_nat k).
    { unfold slen. rewrite length_take, length_drop. lia. }
    apply (job_step s i j); [done|done|done| |].
    + right. eexists. split; [done|]. split; [|split; [|done]].
      * rewrite writeAt_length by nia. fold (slen (take k (drop (jcopied j) (jbody j)))).
        rewrite Hkl. pose proof (w_ring s Hi). nia.
      * intros idx d n Hne Hn Hh. eapply (holds_write _ _ _ _ (jidx j)); try done; try nia.
        apply mod_slot.
    + intros _. split; [done|]. split; [done|]. cbn [jidx jbody jcopied jout].
      split; [by apply holds_extend; [lia|..]|]. split; [done|done].
  - assert (He : err (win s) <> None) by (intros H%Hopen; done).
    apply (job_step s i j); [done|done|done|by left|]. intros H. done.
Qed.

Lemma end_inv s i j j' :
  WInv s -> jobs s !! i = Some j -> copyEnd (win s) j = Some j' ->
  WInv (mkSys (win s) (<[i := j']> (jobs s)) (rd s) (accepted s) (out s)).
Proof.
  intros Hi Hj. unfold copyEnd. rewrite ChunkLen_eq by apply Hi.
  destruct (jout j) eqn:Eo; [done|]. cbv zeta. intros Hend.
  assert (Hj' : jidx j' = jidx j /\ jbody j' = jbody j /\ jcopied j' = jcopied j /\
    (jout j' = Some None -> Z.of_nat (jcopied j) = clen (jidx j) /\ slen (jbody j) <= clen (jidx j))).
  { destruct (Z.of_nat (jcopied j) =? clen (jidx j)) eqn:E1; bool_hyps.
    - injection Hend as <-. cbn. repeat split; destruct (clen (jidx j) <? _) eqn:E2; bool_hyps; try done;
        unfold slen; lia.
    - destruct (jcopied j =? length (jbody j))%nat; [|done]. injection Hend as <-. done. }
  destruct Hj' as (H1 & H2 & H3 & H4).
  apply (job_step s i j); [done|done|done|by left|]. intros He.
  destruct (w_jobs s Hi He i j Hj) as (J1 & J2 & J3 & J4 & J5).
  split; [by rewrite H1|]. split; [by rewrite H1|]. rewrite H1, H2, H3. split; [done|]. split; [done|].
  intros Hx. destruct (H4 Hx). destruct J3 as [J3 _]. unfold slen in *. split; lia.
Qed.

(** ** Commit *)
Lemma elem_delete_NoDup {A} (l : list A) i x y :
  NoDup l -> l !! i = Some x -> y ∈ delete i l <-> y ∈ l /\ y <> x.
Proof.
  intros Hn Hi. rewrite <- (take_drop_middle l i x Hi) in Hn |- * at 2.
  rewrite delete_take_drop. rewrite !elem_of_app, elem_of_cons.
  apply NoDup_app in Hn as (N1 & N2 & N3). apply NoDup_cons in N3 as [N3 N4].
  split; [|naive_solver]. intros [H|H]; (split; [by auto|]); intros ->; [|done].
  apply (N2 x H). by left.
Qed.

Lemma lookup_delete_other {A} (l : list A) i k x : delete i l !! k = Some x -> exists k', k' <> i /\ l !! k' = Some x.
Proof.
  destruct (decide (k < i)%nat); intros H.
  - exists k. rewrite list_lookup_delete_lt in H by done. split; [lia|done].
  - exists (S k). rewrite list_lookup_delete_ge in H by lia. split; [lia|done].
Qed.

(** A slot that is being filled *)
Lemma filling_other s idx0 idx st : slotHas (win s) idx0 slotFilling -> st <> slotFilling -> slotHas (win s) idx st ->
  idx mod sl <> idx0 mod sl.
Proof. intros H Hne Hs Heq. destruct (slotHas_inj _ _ _ _ _ Hs H Heq). congruence. Qed.

Lemma filling_new s idx : WInv s -> err (win s) = None -> slotHas (win s) idx slotFilling -> accepted s !! idx = None.
Proof.
  intros Hi He Hf. destruct (accepted s !! idx) as [d|] eqn:Ed; [|done]. exfalso. pose proof (mod_slot idx) as Hm.
  destruct (w_acc s Hi _ d Ed) as (A1 & A2 & A3 & A4). destruct (A4 He) as [A5|A5].
  - pose proof (w_slot s Hi (idx mod sl) Hm) as Hs0. destruct Hf as [K1 K2]. rewrite K1, K2 in Hs0.
    specialize (Hs0 ltac:(done)). cbv zeta in Hs0. lia.
  - by apply (filling_other s idx idx slotReady Hf ltac:(done) A5).
Qed.

(** Taking job [i] out, its slot released or made ready. *)
Lemma commit_step s i j st c w1 acc :
  WInv s -> jobs s !! i = Some j -> err (win s) = None -> st <> slotFilling ->
  (st = slotReady -> c = jidx j) ->
  let w' := set_slot (win s) (jidx j mod sl) st c in
  (st = slotFree -> acc = accepted s /\ w1 = w') ->
  (st = slotReady -> acc = <[jidx j := jbody j]> (accepted s) /\
     slen (jbody j) = clen (jidx j) /\ jcopied j = length (jbody j) /\
     w1 = set_crc w' (jidx j) (crc32 (jbody j))) ->
  WInv (mkSys w1 (delete i (jobs s)) (rd s) acc (out s)).
Proof.
  intros Hi Hj He Hst Hc w' Hfree Hready. pose proof (w_par s Hi) as Hp.
  assert (Hcase : st = slotFree \/ st = slotReady) by (destruct st; auto; done).
  assert (Hw : w1 = w' \/ w1 = set_crc w' (jidx j) (crc32 (jbody j))) by naive_solver.
  pose proof (w_jobs s Hi He i j Hj) as (J1 & J2 & J3 & J4 & J5). pose proof (mod_slot (jidx j)) as Hm.
  assert (Hhas : forall idx st', slotHas w1 idx st' <->
    if decide (idx mod sl = jidx j mod sl) then st = st' /\ c = idx else slotHas (win s) idx st').
  { intros idx st'. rewrite <- slotHas_set by done. fold w'. by destruct Hw as [->| ->]. }
  assert (Hf : par_ok w1 /\ readPos w1 = readPos (win s) /\ err w1 = None /\ fopen w1 = fopen (win s) /\
    slotState w1 = setZ (slotState (win s)) (jidx j mod sl) st /\
    slotChunk w1 = setZ (slotChunk (win s)) (jidx j mod sl) c /\ ring w1 = ring (win s)).
  { destruct Hw as [->| ->]; (split; [|done]).
    - by apply par_set_slot.
    - destruct Hp. constructor; cbn; rewrite ?setZ_length; done. }
  destruct Hf as (Hp1 & Hpos & He1 & Ho & Hst1 & Hch1 & Hring).
  assert (Hother : forall idx st', st' <> slotFilling -> slotHas (win s) idx st' -> idx mod sl <> jidx j mod sl).
  { intros idx st'. by apply filling_other. }
  assert (Hholds : forall idx d n, holds w1 idx d n <-> holds (win s) idx d n).
  { intros idx d n. unfold holds, at_ring. by rewrite Hring. }
  assert (Hnew := filling_new s (jidx j) Hi He J2).
  constructor; cbn [win jobs accepted out]; rewrite ?Hpos, ?He1, ?Ho, ?Hst1, ?Hch1, ?Hring; try apply Hi; try done.
  - pose proof (w_open s Hi) as Hop. by rewrite He in Hop.
  - intros i' Hr. rewrite stAt_set, atZ_set by (rewrite ?(p_state _ Hp), ?(p_chunk _ Hp); lia).
    case_decide; [|by apply (w_slot s Hi)]. subst i'. intros Hs.
    assert (st = slotReady) as Hrd by (destruct Hcase; done). rewrite (Hc Hrd).
    pose proof (w_slot s Hi (jidx j mod sl) Hm) as Hs0. destruct J2 as [K1 K2]. rewrite K1, K2 in Hs0.
    by apply Hs0.
  - intros _ i' x (i0 & Hi0 & Hx0)%lookup_delete_other.
    destruct (w_jobs s Hi He i0 x Hx0) as (K1 & K2 & K3 & K4 & K5).
    assert (jidx x mod sl <> jidx j mod sl).
    { intros Heq. destruct (slotHas_inj _ _ _ _ _ K2 J2 Heq) as [Hxj _].
      apply Hi0. by eapply (distinct_idx s), Hxj; [apply (w_distinct s Hi He)|..]. }
    split; [done|]. split; [rewrite Hhas; by rewrite decide_False|]. split; [by apply Hholds|]. done.
  - intros _. assert (map jidx (delete i (jobs s)) = delete i (map jidx (jobs s))) as ->.
    { apply list_fmap_delete. }
    eapply sublist_NoDup; [by apply (w_distinct s Hi)|apply sublist_delete].
  - intros idx. rewrite Hhas. case_decide; [intros [? _]; done|]. intros Hs.
    assert (map jidx (delete i (jobs s)) = delete i (map jidx (jobs s))) as ->.
    { apply list_fmap_delete. }
    rewrite (elem_delete_NoDup _ i (jidx j)); [|by apply (w_distinct s Hi)|by rewrite list_lookup_fmap, Hj].
    split; [by apply (w_filling s Hi)|]. intros ->. done.
  - intros idx. rewrite Hhas. setoid_rewrite Hholds. case_decide as Hd.
    + intros [-> Hci]. destruct (Hready eq_refl) as (-> & H1 & H2 & _). rewrite (Hc eq_refl) in Hci. subst idx.
      exists (jbody j). rewrite lookup_insert_eq. split; [done|]. by rewrite <- H2.
    + intros Hs. destruct (w_ready s Hi idx Hs) as (d & Hdx & Hh). exists d. split; [|done].
      destruct Hcase as [Hs1|Hs1].
      * by destruct (Hfree Hs1) as [-> _].
      * destruct (Hready Hs1) as (-> & _). rewrite lookup_insert_ne; [done|]. intros <-. done.
  - intros idx d Hd.
    assert (Hold : accepted s !! idx = Some d -> 0 <= idx < tot /\ slen d = clen idx /\
      atZ (crcs (win s)) idx = crc32 d /\
      (idx < fr (readPos (win s)) \/ slotHas w1 idx slotReady)).
    { intros Ha. destruct (w_acc s Hi idx d Ha) as (A1 & A2 & A3 & A4).
      split; [done|]. split; [done|]. split; [done|]. destruct (A4 He) as [A5|A5]; [by left|right].
      rewrite Hhas, decide_False; [done|]. by apply (Hother _ slotReady). }
    destruct Hcase as [Hs1|Hs1].
    + destruct (Hfree Hs1) as [-> ->]. apply Hold in Hd as (A1 & A2 & A3 & A4).
      split; [done|]. split; [done|]. split; [done|]. by intros _.
    + destruct (Hready Hs1) as (-> & H1 & H2 & Hw1).
      assert (Hcr : forall x, 0 <= x -> atZ (crcs w1) x =
        if decide (x = jidx j) then crc32 (jbody j) else atZ (crcs (win s)) x).
      { intros x Hx. rewrite Hw1. cbn [set_crc crcs]. apply atZ_set; [|done].
        change (crcs w') with (crcs (win s)). rewrite (p_crcs _ Hp). lia. }
      apply lookup_insert_Some in Hd as [[<- <-]|[Hne Hd]].
      * split; [done|]. split; [done|]. rewrite Hcr by lia. rewrite decide_True by done. split; [done|].
        intros _. right. rewrite Hhas, decide_True by done. split; [done|auto].
      * apply Hold in Hd as (A1 & A2 & A3 & A4). split; [done|]. split; [done|].
        rewrite Hcr by lia. rewrite decide_False by done. split; [done|]. by intros _.
  - intros _ H1 H2. pose proof (w_front s Hi He H1 H2) as Hs. rewrite Hhas, decide_False; [done|].
    by apply (Hother _ slotReady).
  - intros p Hpp. destruct (w_out s Hi p Hpp) as (d & Hd & Hx). exists d. split; [|done].
    destruct Hcase as [Hs1|Hs1].
    + by destruct (Hfree Hs1) as [-> _].
    + destruct (Hready Hs1) as (-> & _). rewrite lookup_insert_ne; [done|]. congruence.
  - apply rd_ok_set; try done; [apply Hi| |].
    + intros idx _ Hs. rewrite Hhas, decide_False; [done|]. by apply (Hother _ slotReady).
    + intros idx d Hd. destruct Hcase as [Hs1|Hs1].
      * by destruct (Hfree Hs1) as [-> _].
      * destruct (Hready Hs1) as (-> & _). rewrite lookup_insert_ne; [done|]. congruence.
Qed.

Lemma closed_no_filling s idx st : WInv s -> err (win s) <> None -> slotHas (win s) idx st -> st = slotFree.
Proof.
  intros Hi He [H _]. pose proof (w_closed s Hi He (idx mod sl) (mod_slot idx)). congruence.
Qed.

(** After Close no job is checked any more. *)
Lemma closed_drop_job s i :
  WInv s -> err (win s) <> None ->
  WInv (mkSys (win s) (delete i (jobs s)) (rd s) (accepted s) (out s)).
Proof.
  intros Hi He. destruct Hi. constructor; cbn [win jobs accepted out rd]; try done.
  intros idx Hs. exfalso. destruct Hs as [H _]. rewrite w_closed0 in H; [done|done|]. apply mod_slot.
Qed.

Lemma commit_inv s i j o w' r :
  WInv s -> jobs s !! i = Some j -> jout j = Some o -> commit (win s) j o = (w', r) ->
  WInv (mkSys w' (delete i (jobs s)) (rd s)
          (if is_ok r then <[jidx j := jbody j]> (accepted s) else accepted s) (out s)) /\
  (forall v, r = Ok v -> v = crc32 (jbody j) /\ err (win s) = None).
Proof.
  intros Hi Hj Ho. unfold commit. pose proof (w_par s Hi) as Hp. rewrite (p_sl _ Hp).
  pose proof (mod_slot (jidx j)) as Hm.
  destruct (err (win s)) as [e|] eqn:Ee.
  - pose proof (w_closed s Hi ltac:(congruence) _ Hm) as Hf. rewrite Hf. cbn. intros [= <- <-].
    split; [|done]. cbn. apply closed_drop_job; [done|congruence].
  - destruct (w_jobs s Hi Ee i j Hj) as (J1 & [K1 K2] & J3 & J4 & J5).
    rewrite K1, K2. rewrite bool_decide_eq_true_2, Z.eqb_refl by done. cbn [negb orb].
    destruct o as [e|].
    + intros [= <- <-]. split; [|done]. cbn [is_ok].
      apply (commit_step s i j slotFree (-1)); try done; auto.
    + destruct (J5 Ho) as [L1 L2].
      set (w1 := set_slot (win s) (jidx j mod sl) slotReady (jidx j)).
      assert (Hcrc : atZ (crcs (set_crc w1 (jidx j) (crc32 (jbody j)))) (jidx j) = crc32 (jbody j)).
      { cbn [set_crc crcs]. rewrite atZ_set; [by rewrite decide_True|..|lia].
        change (crcs w1) with (crcs (win s)). rewrite (p_crcs _ Hp). lia. }
      rewrite Hcrc. intros [= <- <-]. cbn [is_ok]. split; [|naive_solver].
      apply (commit_step s i j slotReady (jidx j)); try done; eauto.
Qed.

(** ** Reading *)
Lemma readBegin_inv s plen p :
  WInv s -> rd s = RIdle -> 0 <= plen -> readBegin (win s) plen = RGo p ->
  WInv (mkSys (win s) (jobs s) (RPending p) (accepted s) (out s)).
Proof.
  intros Hi Hrd Hpl. unfold readBegin. pose proof (w_par s Hi) as Hp.
  rewrite (p_cs _ Hp), (p_sl _ Hp), (p_ts _ Hp). pose proof (w_pos s Hi) as Hpos.
  destruct (plen =? 0) eqn:E0; [done|]. bool_hyps. destruct (err (win s)) eqn:Ee; [done|].
  destruct (ts <=? readPos (win s)) eqn:E1; [done|]. bool_hyps. cbv zeta.
  destruct (_ && _) eqn:E2; [|done]. bool_hyps. rewrite ChunkLen_eq by done.
  fold (cend (readPos (win s) / cs)). intros [= <-].
  pose proof (cur_spec (readPos (win s)) ltac:(lia)) as [Hc1 Hc2].
  destruct Hi. constructor; try done. unfold rd_ok, pread_ok. cbn [rd win pcur pslot pn poff pend].
  split; [|by intros _]. split; [done|]. split; [done|]. split; [done|].
  split; [|done]. destruct (_ <? plen) eqn:E3; bool_hyps; lia.
Qed.

Lemma readFile_inv s p :
  WInv s -> rd s = RPending p ->
  WInv (mkSys (win s) (jobs s) (RGot p (readFile (win s) p)) (accepted s) (out s)).
Proof.
  intros Hi Hrd. pose proof (w_rd s Hi) as Hr. unfold rd_ok in Hr. rewrite Hrd in Hr.
  destruct Hr as [Hok Hs]. pose proof Hi as []. constructor; try done. unfold rd_ok. cbn [rd win].
  split; [done|]. split; [done|]. unfold got_ok, readFile. cbn [win accepted].
  destruct (fopen (win s)) eqn:Ef; [|cbn; split; [lia|done]].
  split; [unfold readAt; rewrite length_take; lia|]. intros _.
  assert (He : err (win s) = None) by by apply (w_open s Hi).
  destruct (w_ready s Hi _ (Hs He)) as (d & Hd & [_ Hh]). exists d. split; [done|].
  destruct (w_acc s Hi _ _ Hd) as (A1 & A2 & _).
  destruct Hok as (P1 & P2 & P3 & P4 & P5 & P6).
  pose proof (cur_spec (readPos (win s)) ltac:(pose proof (w_pos s Hi); lia)) as [C1 C2].
  rewrite <- P2 in C1, C2. pose proof (mod_slot (pcur p)) as Hm. unfold cend, slen in *.
  set (x := Z.to_nat (readPos (win s) - pcur p * cs)).
  assert (readAt (ring (win s)) (poff p) (pn p) = take (Z.to_nat (pn p)) (drop x d)) as ->.
  { unfold readAt. apply list_eq. intros k. destruct (decide (k < Z.to_nat (pn p))%nat) as [Hk|Hk].
    - rewrite !lookup_take_lt, !lookup_drop by done. rewrite <- Hh by (unfold x; lia).
      unfold at_ring. f_equal. rewrite P5, P3. unfold x. nia.
    - rewrite !lookup_take_ge by lia. done. }
  apply prefix_take.
Qed.

(** The bytes returned so far and the next ones, by position. *)
Lemma out_extend s p got d :
  WInv s -> pread_ok (win s) p -> accepted s !! pcur p = Some d ->
  got `prefix_of` drop (Z.to_nat (readPos (win s) - pcur p * cs)) d ->
  (length got <= Z.to_nat (pn p))%nat ->
  forall q, 0 <= q < readPos (win s) + slen got -> exists d, accepted s !! (q / cs) = Some d /\
    (out s ++ got) !! Z.to_nat q = d !! Z.to_nat (q mod cs).
Proof.
  intros Hi (P1 & P2 & P3 & P4 & P5 & P6) Hd [t Ht] Hlen q Hq.
  pose proof (w_outlen s Hi) as Hol. pose proof (w_pos s Hi) as Hpos.
  pose proof (cur_spec (readPos (win s)) ltac:(lia)) as [C1 C2]. rewrite <- P2 in C1, C2.
  unfold slen in *. destruct (decide (q < readPos (win s))) as [Hlt|Hge].
  - destruct (w_out s Hi q ltac:(lia)) as (d' & Hd' & Hx). exists d'. split; [done|].
    rewrite lookup_app_l by lia. done.
  - assert (Hdiv : q / cs = pcur p) by (apply div_chunk; lia).
    exists d. rewrite Hdiv. split; [done|]. rewrite lookup_app_r by lia.
    assert (Hmod : q mod cs = q - pcur p * cs) by (rewrite Z.mod_eq by lia; rewrite Hdiv; lia).
    rewrite Hmod. set (k := (Z.to_nat q - length (out s))%nat).
    transitivity ((got ++ t) !! k); [by rewrite lookup_app_l by lia|].
    rewrite <- Ht, lookup_drop. f_equal. lia.
Qed.

Lemma readEnd_inv s p got w' r :
  WInv s -> rd s = RGot p got -> readEnd (win s) p got = (w', r) ->
  WInv (mkSys w' (jobs s) RIdle (accepted s) (match r with Ok b => out s ++ b | Err _ => out s end)).
Proof.
  intros Hi Hrd. pose proof (w_rd s Hi) as Hr. unfold rd_ok in Hr. rewrite Hrd in Hr.
  destruct Hr as (Hok & Hs & Hlen & Hgot). unfold readEnd.
  destruct got as [|b got]; [intros [= <- <-]; destruct Hi; by constructor|].
  set (g := b :: got) in *. destruct (Hgot ltac:(done)) as (d & Hd & Hpre).
  pose proof (out_extend s p g d Hi Hok Hd Hpre Hlen) as Hout.
  pose proof (w_par s Hi) as Hp. pose proof (w_pos s Hi) as Hpos.
  destruct Hok as (P1 & P2 & P3 & P4 & P5 & P6).
  pose proof (cur_spec (readPos (win s)) ltac:(lia)) as [C1 C2]. rewrite <- P2 in C1, C2.
  pose proof (mod_slot (pcur p)) as Hm. pose proof (clen_spec _ C1) as [_ Hce].
  assert (Hg : 0 < slen g <= cend (pcur p) - readPos (win s)).
  { unfold slen, g. split; [simpl; lia|]. unfold g in *. simpl in *. lia. }
  assert (Hfr : fr (readPos (win s)) = pcur p) by (by apply fr_stay).
  assert (Hlen' : slen (out s ++ g) = readPos (win s) + slen g).
  { unfold slen. rewrite length_app. pose proof (w_outlen s Hi). unfold slen in *. lia. }
  assert (Hpp : par_ok (set_readPos (win s) (readPos (win s) + slen g))) by (destruct Hp; by constructor).
  change (readPos (set_readPos (win s) (readPos (win s) + slen g))) with (readPos (win s) + slen g).
  rewrite P6. destruct (cend (pcur p) <=? readPos (win s) + slen g) eqn:E; bool_hyps; intros [= <- <-].
  - assert (Hnew : readPos (win s) + slen g = cend (pcur p)) by lia.
    assert (Hfr' : fr (readPos (win s) + slen g) = pcur p + 1) by (rewrite Hnew; by apply fr_next).
    set (w1 := set_readPos (win s) _) in *.
    assert (Hhas : forall idx st, slotHas (set_slot w1 (pslot p) slotFree (-1)) idx st <->
      if decide (idx mod sl = pcur p mod sl) then slotFree = st /\ -1 = idx else slotHas (win s) idx st).
    { intros idx st. rewrite P3. by rewrite slotHas_set. }
    constructor; cbn [win jobs accepted out rd set_slot readPos err fopen slotState slotChunk crcs ring w1 set_readPos];
      try done; try apply Hi.
    + by apply par_set_slot.
    + lia.
    + intros Hn i Hir. rewrite stAt_set by (rewrite ?(p_state _ Hp); lia).
      case_decide; [done|]. by apply (w_closed s Hi).
    + intros i Hir. rewrite stAt_set, atZ_set by (rewrite ?(p_state _ Hp), ?(p_chunk _ Hp); lia).
      case_decide as Hd'; [done|]. intros Hst. pose proof (w_slot s Hi i Hir Hst) as (S1 & S2 & S3).
      split; [done|]. split; [done|]. rewrite Hfr', Hfr in *.
      assert (atZ (slotChunk (win s)) i <> pcur p) by (intros Heq; rewrite Heq in S2; congruence). lia.
    + intros Hn i j Hj. pose proof (w_jobs s Hi Hn i j Hj) as Hjo.
      pose proof Hjo as (_ & J2 & _). apply (job_ok_set w1); [done|lia| |done].
      rewrite P3. intros Heq. by destruct (slotHas_inj _ _ _ _ _ J2 (Hs Hn) Heq).
    + intros idx. rewrite Hhas. case_decide; [by intros [? _]|]. apply (w_filling s Hi).
    + intros idx. rewrite Hhas. case_decide; [by intros [? _]|]. apply (w_ready s Hi).
    + intros idx x Hx. destruct (w_acc s Hi idx x Hx) as (A1 & A2 & A3 & A4).
      split; [done|]. split; [done|]. split; [done|]. intros Hn. rewrite Hfr'.
      destruct (A4 Hn) as [A5|A5]; [left; lia|].
      destruct (decide (idx = pcur p)) as [->|Hne]; [left; lia|]. right.
      rewrite Hhas, decide_False; [done|]. intros Heq.
      by destruct (slotHas_inj _ _ _ _ _ A5 (Hs Hn) Heq).
    + intros Hn H1 H2. rewrite Hfr' in H2. exfalso. rewrite Hnew in H1, H2.
      rewrite cend_eq in *. destruct (pcur p =? tot - 1) eqn:El; bool_hyps; nia.
  - assert (Hfr' : fr (readPos (win s) + slen g) = pcur p) by (apply fr_stay; lia).
    constructor; cbn [win jobs accepted out rd readPos err fopen slotState slotChunk crcs ring set_readPos];
      try done; try apply Hi.
    + lia.
    + intros i Hir Hst. pose proof (w_slot s Hi i Hir Hst) as (S1 & S2 & S3).
      split; [done|]. split; [done|]. by rewrite Hfr', <- Hfr.
    + intros idx x Hx. destruct (w_acc s Hi idx x Hx) as (A1 & A2 & A3 & A4).
      split; [done|]. split; [done|]. split; [done|]. intros Hn. rewrite Hfr', <- Hfr. by apply A4.
    + intros Hn H1 H2. rewrite Hfr'. by apply Hs.
Qed.

(** ** Close *)
Lemma stAt_map (l : list slotSt) i : stAt (map (fun _ => slotFree) l) i = slotFree.
Proof.
  unfold stAt. change (map (fun _ => slotFree) l) with ((fun _ : slotSt => slotFree) <$> l).
  rewrite list_lookup_fmap. by destruct (l !! Z.to_nat i).
Qed.

Lemma close_inv s e : WInv s -> WInv (mkSys (CloseWithError (win s) e) (jobs s) (rd s) (accepted s) (out s)).
Proof.
  intros Hi. set (w' := CloseWithError (win s) e).
  assert (He : err w' <> None) by (unfold w'; cbn; by destruct (err (win s))).
  assert (Hno : forall idx st, slotHas w' idx st -> st = slotFree).
  { intros idx st [H _]. unfold w' in H. cbn in H. by rewrite stAt_map in H. }
  constructor; cbn [win jobs accepted out rd]; try done; try apply Hi.
  - pose proof (w_par s Hi) as []. constructor; cbn; rewrite ?length_map; done.
  - intros _ i _. apply stAt_map.
  - intros i _ H. cbn in H. by rewrite stAt_map in H.
  - intros idx H%Hno. done.
  - intros idx H%Hno. done.
  - intros idx d Hd. destruct (w_acc s Hi idx d Hd) as (A1 & A2 & A3 & _).
    split; [done|]. split; [done|]. split; [done|]. done.
  - pose proof (w_rd s Hi) as Hr. unfold rd_ok in *. cbn [rd win].
    destruct (rd s) as [|p|p got]; [done|..].
    + destruct Hr as [H1 _]. split; [done|]. done.
    + destruct Hr as (H1 & _ & H3). split; [done|]. done.
Qed.

(** ** Every reachable state *)
Lemma wstep_inv s e s' : WInv s -> wstep s e = Some s' -> WInv s'.
Proof.
  intros Hi. destruct e as [idx body|i k|i|i|plen| | |st]; cbn [wstep].
  - destruct (admit_chunk (win s) idx) eqn:E; intros [= <-]; [done|done|]. by apply admit_inv.
  - destruct (jobs s !! i) as [j|] eqn:Ej; [|done]. cbn.
    destruct (copyPiece (win s) j k) as [[w' j']|] eqn:E; [|done]. cbn. intros [= <-].
    by apply (piece_inv s i j k).
  - destruct (jobs s !! i) as [j|] eqn:Ej; [|done]. cbn.
    destruct (copyEnd (win s) j) as [j'|] eqn:E; [|done]. cbn. intros [= <-]. by apply (end_inv s i j).
  - destruct (jobs s !! i) as [j|] eqn:Ej; [|done]. cbn.
    destruct (jout j) as [o|] eqn:Eo; [|done]. cbn.
    destruct (commit (win s) j o) as [w' r] eqn:E. intros [= <-]. by apply (commit_inv s i j o).
  - destruct (rd s) eqn:Er; [|done|done]. destruct (readBegin (win s) plen) eqn:E.
    + by intros [= <-].
    + by intros [= <-].
    + destruct (plen <? 0) eqn:El; [done|]. bool_hyps. intros [= <-]. by eapply readBegin_inv.
  - destruct (rd s) eqn:Er; [done| |done]. intros [= <-]. by apply readFile_inv.
  - destruct (rd s) eqn:Er; [done|done|]. destruct (readEnd (win s) p got) as [w' r] eqn:E.
    intros [= <-]. by apply (readEnd_inv s p got).
  - intros [= <-]. by apply close_inv.
Qed.

Lemma wrun_inv s es s' : WInv s -> wrun s es = Some s' -> WInv s'.
Proof.
  revert s. induction es as [|e es IH]; intros s Hi; cbn; [by intros [= <-]|].
  destruct (wstep s e) as [s1|] eqn:E; [|done]. apply IH. by eapply wstep_inv.
Qed.

Lemma NewWindow_inv w :
  ts + cs - 1 < 2 ^ 63 -> NewWindow true cs ts sl = Some (Ok w) -> WInv (initSys w).
Proof.
  intros Hb. unfold NewWindow.
  destruct (_ || _) eqn:E; [apply orb_prop in E as [[]%orb_prop|]; bool_hyps; lia|]. cbn [negb].
  rewrite i64_id by (unfold i64_ok; lia). rewrite Z.quot_div_nonneg by lia. fold tot.
  pose proof tot_spec as Ht. destruct (tot <? 0) eqn:E2; bool_hyps; [lia|]. intros [= <-].
  assert (Hfree : forall i, stAt (replicate (Z.to_nat sl) slotFree) i = slotFree).
  { intros i. unfold stAt. destruct (replicate _ _ !! _) eqn:El; [|done].
    by apply lookup_replicate in El as [-> _]. }
  assert (Hno : forall idx d, (∅ : gmap Z gostr) !! idx <> Some d) by (intros; by rewrite lookup_empty).
  constructor; cbn [win jobs accepted out rd initSys readPos err fopen slotState slotChunk crcs ring].
  - constructor; cbn; rewrite ?length_replicate; lia.
  - lia.
  - done.
  - done.
  - done.
  - intros i _ Hst. by rewrite Hfree in Hst.
  - intros _ i j Hj. done.
  - intros _. apply NoDup_nil_2.
  - intros idx [Hst _]. cbn in Hst. by rewrite Hfree in Hst.
  - intros idx [Hst _]. cbn in Hst. by rewrite Hfree in Hst.
  - intros idx d Hd. by apply Hno in Hd.
  - intros _ _ Hlt. pose proof (fr_range 0 ltac:(lia)). nia.
  - intros p Hp. lia.
  - done.
  - cbn. nia.
Qed.

(** ** Snapshot *)
Fixpoint sumF (f : Z -> Z) (n : nat) (a : Z) : Z :=
  match n with O => 0 | S k => f a + sumF f k (a + 1) end.

Lemma sumF_app f n m a : sumF f (n + m) a = sumF f n a + sumF f m (a + Z.of_nat n).
Proof.
  revert a. induction n as [|n IH]; intros a; cbn [sumF Nat.add].
  - by rewrite Z.add_0_r.
  - rewrite IH. replace (a + 1 + Z.of_nat n) with (a + Z.of_nat (S n)) by lia. lia.
Qed.

Lemma sumF_le f g n a :
  (forall i, a <= i < a + Z.of_nat n -> f i <= g i) ->
  sumF f n a <= sumF g n a /\
  (sumF f n a = sumF g n a -> forall i, a <= i < a + Z.of_nat n -> f i = g i).
Proof.
  revert a. induction n as [|n IH]; intros a H; cbn [sumF]; [split; [lia|intros _ i ?; lia]|].
  destruct (IH (a + 1)) as [H1 H2]; [intros i Hi; apply H; lia|].
  pose proof (H a ltac:(lia)). split; [lia|]. intros Heq i Hi.
  destruct (decide (i = a)) as [->|]; [lia|]. apply H2; lia.
Qed.

Lemma sumF_ext f g n a :
  (forall i, a <= i < a + Z.of_nat n -> f i = g i) -> sumF f n a = sumF g n a.
Proof.
  revert a. induction n as [|n IH]; intros a H; cbn [sumF]; [done|].
  rewrite H by lia. f_equal. apply IH. intros i Hi. apply H. lia.
Qed.

Lemma sumF_zero n a : sumF (fun _ => 0) n a = 0.
Proof. revert a. induction n as [|n IH]; intros a; cbn [sumF]; [done|]. by rewrite IH. Qed.

Lemma sum_clen n : Z.of_nat n <= tot -> sumF clen n 0 = if Z.of_nat n =? tot then ts else Z.of_nat n * cs.
Proof.
  pose proof tot_spec as Ht. induction n as [|n IH]; intros Hn.
  - cbn [sumF]. change (Z.of_nat 0) with 0. destruct (0 =? tot) eqn:E; bool_hyps; lia.
  - replace (S n) with (n + 1)%nat by lia. rewrite sumF_app, IH by lia. cbn [sumF].
    unfold clen. destruct (Z.of_nat n =? tot) eqn:E1, (Z.of_nat (n + 1) =? tot) eqn:E2,
      (0 + Z.of_nat n =? tot - 1) eqn:E3; bool_hyps; try lia; nia.
Qed.

Definition readyB (w : Window) (idx : Z) : bool :=
  bool_decide (stAt (slotState w) (idx mod sl) = slotReady) && (atZ (slotChunk w) (idx mod sl) =? idx).

Lemma readyB_spec w idx : readyB w idx = true <-> slotHas w idx slotReady.
Proof. unfold readyB, slotHas. by rewrite andb_true_iff, bool_decide_eq_true, Z.eqb_eq. Qed.

Definition covered (l : list (Z * Z)) (idx : Z) : Prop := exists r, r ∈ l /\ fst r <= idx <= snd r.

(** Ranges in descending order, neither empty nor adjacent. *)
Fixpoint spacedRev (l : list (Z * Z)) : Prop :=
  match l with
  | [] => True
  | r :: t => fst r <= snd r /\ match t with r' :: _ => snd r' + 1 < fst r | [] => True end /\ spacedRev t
  end.

Lemma covered_cons r l idx : covered (r :: l) idx <-> fst r <= idx <= snd r \/ covered l idx.
Proof. unfold covered. setoid_rewrite elem_of_cons. naive_solver. Qed.

Definition leftover (w : Window) (idx : Z) : Z :=
  if readyB w idx then clen idx - (if idx * cs <? readPos w then readPos w - idx * cs else 0) else 0.

Lemma snapLoop_spec w n idx recv l :
  par_ok w -> spacedRev l -> (forall r, head l = Some r -> snd r < idx) ->
  let '(recv', l') := snapLoop w n idx recv l in
  recv' = recv + sumF (leftover w) n idx /\ spacedRev l' /\
  (forall i, covered l' i <-> covered l i \/ (idx <= i < idx + Z.of_nat n /\ readyB w i = true)).
Proof.
  intros Hp. revert idx recv l. induction n as [|n IH]; intros idx recv l Hl Hh; cbn [snapLoop sumF].
  { split; [lia|]. split; [done|]. intros i. split; [by left|]. intros [?|[? _]]; [done|lia]. }
  rewrite (p_sl w Hp), (p_cs w Hp), ChunkLen_eq by done.
  assert (Hneg : negb (bool_decide (stAt (slotState w) (idx mod sl) = slotReady))
    || negb (atZ (slotChunk w) (idx mod sl) =? idx) = negb (readyB w idx)).
  { unfold readyB. by rewrite negb_andb. }
  rewrite Hneg. destruct (readyB w idx) eqn:Er; cbn [negb].
  - set (l1 := match l with [] => _ | _ => _ end).
    assert (Hl1 : spacedRev l1 /\ (forall r, head l1 = Some r -> snd r < idx + 1) /\
      forall i, covered l1 i <-> covered l i \/ i = idx).
    { unfold l1. destruct l as [|[a b] rest].
      - cbn. split; [lia|]. split; [intros r [= <-]; cbn; lia|]. intros i. rewrite covered_cons. cbn.
        unfold covered. setoid_rewrite elem_of_nil. naive_solver lia.
      - specialize (Hh (a, b) eq_refl). cbn in Hh, Hl. destruct Hl as (L1 & L2 & L3).
        destruct (b =? idx - 1) eqn:Eb; bool_hyps.
        + split; [cbn; split; [lia|done]|]. split; [intros r [= <-]; cbn; lia|].
          intros i. rewrite !covered_cons. cbn [fst snd]. split; [|naive_solver lia].
          intros [H|H]; [|by auto]. destruct (decide (i = idx)); [by right|left; left; lia].
        + split; [cbn; split; [lia|]; split; [lia|done]|]. split; [intros r [= <-]; cbn; lia|].
          intros i. rewrite covered_cons. cbn [fst snd]. naive_solver lia. }
    destruct Hl1 as (H1 & H2 & H3).
    specialize (IH (idx + 1) (recv + (clen idx - (if idx * cs <? readPos w then readPos w - idx * cs else 0))) l1 H1 H2).
    fold l1. destruct (snapLoop w n (idx + 1) _ l1) as [recv' l']. destruct IH as (I1 & I2 & I3).
    split; [unfold leftover at 1; rewrite Er; lia|]. split; [done|]. intros i. rewrite I3, H3. split.
    + intros [[?| ->]|[? ?]]; [by left|right; split; [lia|done]|right; split; [lia|done]].
    + intros [?|[? ?]]; [by auto|]. destruct (decide (i = idx)); [by auto|]. right. split; [lia|done].
  - specialize (IH (idx + 1) recv l Hl ltac:(intros r Hr; specialize (Hh r Hr); lia)).
    destruct (snapLoop w n (idx + 1) recv l) as [recv' l']. destruct IH as (I1 & I2 & I3).
    split; [unfold leftover at 1; rewrite Er; lia|]. split; [done|]. intros i. rewrite I3. split.
    + intros [?|[? ?]]; [by left|right; split; [lia|done]].
    + intros [?|[? Hr]]; [by auto|]. destruct (decide (i = idx)); [congruence|]. right. split; [lia|done].
Qed.

(** A chunk is received when it is consumed or ready. *)
Lemma received_iff s idx :
  WInv s -> err (win s) = None ->
  is_Some (accepted s !! idx) <->
  0 <= idx < tot /\ (idx < fr (readPos (win s)) \/ readyB (win s) idx = true).
Proof.
  intros Hi He. rewrite readyB_spec. split.
  - intros [d Hd]. destruct (w_acc s Hi idx d Hd) as (A1 & _ & _ & A4). auto.
  - intros [Hr [Hf|Hs]].
    + apply fr_lt in Hf; [|apply Hi|done]. pose proof (clen_spec idx Hr). unfold cend in *.
      destruct (w_out s Hi (idx * cs) ltac:(nia)) as (d & Hd & _).
      rewrite Z.div_mul in Hd by lia. by exists d.
    + destruct (w_ready s Hi idx Hs) as (d & Hd & _). by exists d.
Qed.

Lemma ready_window s idx :
  WInv s -> readyB (win s) idx = true ->
  0 <= idx < tot /\ fr (readPos (win s)) <= idx < fr (readPos (win s)) + sl.
Proof.
  intros Hi [H1 H2]%readyB_spec.
  destruct (w_slot s Hi (idx mod sl) (mod_slot idx) ltac:(congruence)) as (S1 & S2 & S3).
  by rewrite H2 in *.
Qed.

Lemma received_bytes s :
  WInv s -> err (win s) = None ->
  readPos (win s) + sumF (leftover (win s)) (Z.to_nat (Z.min sl (tot - fr (readPos (win s)))))
    (fr (readPos (win s))) =
  sumF (fun i => if (i <? fr (readPos (win s))) || readyB (win s) i then clen i else 0) (Z.to_nat tot) 0.
Proof.
  intros Hi He. pose proof (w_pos s Hi) as Hpos. set (f := fr (readPos (win s))).
  set (g := fun i => if (i <? f) || readyB (win s) i then clen i else 0).
  pose proof (fr_range (readPos (win s)) ltac:(lia)) as Hf. fold f in Hf.
  set (n := Z.to_nat (Z.min sl (tot - f))).
  replace (Z.to_nat tot) with (Z.to_nat f + (n + (Z.to_nat tot - Z.to_nat f - n)))%nat by lia.
  rewrite !sumF_app.
  assert (sumF g (Z.to_nat f) 0 = sumF clen (Z.to_nat f) 0) as ->.
  { apply sumF_ext. intros i Hir. unfold g. by replace (i <? f) with true by (symmetry; apply Z.ltb_lt; lia). }
  assert (sumF g (Z.to_nat tot - Z.to_nat f - n) (0 + Z.of_nat (Z.to_nat f) + Z.of_nat n) = 0) as ->.
  { etransitivity; [|apply (sumF_zero (Z.to_nat tot - Z.to_nat f - n) (0 + Z.of_nat (Z.to_nat f) + Z.of_nat n))].
    apply sumF_ext. intros i Hir. unfold g.
    replace (i <? f) with false by (symmetry; apply Z.ltb_ge; lia). cbn [orb].
    destruct (readyB (win s) i) eqn:Er; [|done]. apply ready_window in Er as [_ Er]; [|done].
    fold f in Er. lia. }
  rewrite sum_clen by lia. rewrite !Z2Nat.id, Z.add_0_l, Z.add_0_r by lia.
  destruct (decide (readPos (win s) = ts)) as [Heq|Hne].
  - assert (f = tot) as Hft by (unfold f, fr; rewrite Heq, Z.leb_refl; done).
    rewrite Hft, Z.eqb_refl. assert (n = 0)%nat as -> by lia. cbn [sumF]. lia.
  - assert (Hcur : f = readPos (win s) / cs) by (apply fr_cur; lia).
    pose proof (cur_spec (readPos (win s)) ltac:(lia)) as [C1 C2]. rewrite <- Hcur in C1, C2.
    destruct (f =? tot) eqn:Eft; bool_hyps; [lia|].
    destruct n as [|n'] eqn:En; [lia|]. cbn [sumF].
    assert (sumF (leftover (win s)) n' (f + 1) = sumF g n' (f + 1)) as ->.
    { apply sumF_ext. intros i Hir. unfold leftover, g.
      replace (i <? f) with false by (symmetry; apply Z.ltb_ge; lia). cbn [orb].
      destruct (readyB (win s) i) eqn:Er; [|done].
      pose proof (cend_mono f i ltac:(lia) ltac:(lia)).
      replace (i * cs <? readPos (win s)) with false by (symmetry; apply Z.ltb_ge; lia). lia. }
    assert (readPos (win s) + leftover (win s) f = f * cs + g f); [|lia].
    unfold leftover, g. rewrite Z.ltb_irrefl. cbn [orb].
    destruct (readyB (win s) f) eqn:Er; destruct (f * cs <? readPos (win s)) eqn:El; bool_hyps; try lia.
    exfalso. pose proof (w_front s Hi He ltac:(lia) El) as Hw. fold f in Hw. apply readyB_spec in Hw.
    congruence.
Qed.
End Params.

(** ** Properties

    A window of [NewWindow] and any execution of it. *)
Definition reachable (cs ts sl : Z) (s : sys) : Prop :=
  ts + cs - 1 < 2 ^ 63 /\
  exists w es, NewWindow true cs ts sl = Some (Ok w) /\ wrun (initSys w) es = Some s.

Lemma window_reachable_inv cs ts sl s :
  reachable cs ts sl s -> 0 < cs /\ 0 < ts /\ 0 < sl /\ WInv cs ts sl s.
Proof.
  intros (Hb & w & es & Hw & Hr).
  assert (Hpos : 0 < cs /\ 0 < ts /\ 0 < sl).
  { unfold NewWindow in Hw. destruct (_ || _) eqn:E; [done|].
    apply orb_false_elim in E as [[]%orb_false_elim ?]. bool_hyps. lia. }
  destruct Hpos as (H1 & H2 & H3). split; [done|]. split; [done|]. split; [done|].
  eapply wrun_inv; [done..| |exact Hr]. by apply NewWindow_inv.
Qed.

(** Chunk [idx] of a file. *)
Definition chunkOf (cs : Z) (c : gostr) (idx : Z) : gostr :=
  take (Z.to_nat cs) (drop (Z.to_nat (idx * cs)) c).

Lemma chunkOf_lookup cs c idx k :
  0 < cs -> 0 <= idx -> 0 <= k < cs ->
  chunkOf cs c idx !! Z.to_nat k = c !! Z.to_nat (idx * cs + k).
Proof.
  intros Hc Hi Hk. unfold chunkOf. rewrite lookup_take_lt, lookup_drop by lia. f_equal. nia.
Qed.

Lemma reassembles_reachable cs ts sl s (file : gostr) :
  reachable cs ts sl s -> slen file = ts ->
  (forall idx body, accepted s !! idx = Some body -> body = chunkOf cs file idx) ->
  out s = take (Z.to_nat (readPos (win s))) file /\ 0 <= readPos (win s) <= ts.
Proof.
  intros Hr Hf Hb. destruct (window_reachable_inv cs ts sl s Hr) as (Hcs & Hts & Hsl & Hi).
  pose proof (w_pos _ _ _ s Hi) as Hpos. split; [|done]. pose proof (w_outlen _ _ _ s Hi) as Hol.
  unfold slen in *. apply list_eq. intros i. destruct (decide (i < Z.to_nat (readPos (win s)))%nat) as [Hlt|Hge].
  - rewrite lookup_take_lt by done.
    destruct (w_out _ _ _ s Hi (Z.of_nat i) ltac:(lia)) as (d & Hd & Hx).
    rewrite Nat2Z.id in Hx. rewrite Hx, (Hb _ _ Hd).
    pose proof (Z.mod_pos_bound (Z.of_nat i) cs Hcs).
    rewrite chunkOf_lookup; [|done|apply Z.div_pos; lia|done].
    f_equal. pose proof (Z.div_mod (Z.of_nat i) cs ltac:(lia)). lia.
  - rewrite lookup_take_ge by lia. apply lookup_ge_None_2. lia.
Qed.

(** C10: however the chunk uploads, the reads and Close interleave, and in
    whatever pieces the bodies arrive, the bytes Read has returned are the
    beginning of the file, in order and without gap, provided the bodies that
    were accepted are chunks of that file. *)
Theorem window_reassembles cs ts sl s (file : gostr) :
  reachable cs ts sl s -> slen file = ts ->
  (forall idx body, accepted s !! idx = Some body -> body = chunkOf cs file idx) ->
  out s = take (Z.to_nat (readPos (win s))) file /\ 0 <= readPos (win s) <= ts.
Proof. apply reassembles_reachable. Qed.

Definition ex_events : list event :=
  [EvStart 1 "efgh"; EvStart 0 "abcd"; EvPiece 0 4; EvPiece 1 2; EvEnd 0; EvCommit 0;
   EvPiece 0 2; EvEnd 0; EvCommit 0; EvReadBegin 3; EvReadFile; EvReadEnd].

Definition ex_win : Window :=
  mkWindow [] true 4 10 3 2 [slotFree; slotFree] [-1; -1] 0 [0; 0; 0] [false; false; false] None.

Definition ex_sys : sys := default (initSys ex_win) (wrun (initSys ex_win) ex_events).

Lemma ex_reachable : reachable 4 10 2 ex_sys.
Proof.
  split; [lia|]. exists ex_win, ex_events. split; vm_compute; reflexivity.
Qed.

Lemma ex_accepted idx (body : gostr) :
  accepted ex_sys !! idx = Some body -> (idx = 0 /\ body = "abcd") \/ (idx = 1 /\ body = "efgh").
Proof.
  assert (Ha : accepted ex_sys = {[ 0 := ("abcd" : gostr); 1 := ("efgh" : gostr) ]})
    by (vm_compute; reflexivity).
  rewrite Ha. clear Ha. intros [[<- <-]|[_ [<- <-]%lookup_singleton_Some]]%lookup_insert_Some; [by left|by right].
Qed.

Lemma window_reassembles_witness :
  out ex_sys = take (Z.to_nat (readPos (win ex_sys))) "abcdefghij" /\ 0 <= readPos (win ex_sys) <= 10.
Proof.
  apply (window_reassembles 4 10 2).
  - exact ex_reachable.
  - vm_compute. reflexivity.
  - intros idx body H. destruct (ex_accepted idx body H) as [[-> ->]|[-> ->]]; vm_compute; reflexivity.
Defined.

(** An answer of WriteChunk is truthful. A successful answer, immediate or
    after the copy, returns the CRC32 of the body accepted for that chunk, of
    exactly the length of the chunk; ErrChunkInFlight means a request for the
    same chunk is being copied, unless the window is closed. *)
Theorem window_write_answers cs ts sl s idx :
  reachable cs ts sl s ->
  match admit_chunk (win s) idx with
  | AReturn (Ok v) => exists body, accepted s !! idx = Some body /\ v = crc32 body /\
                                   slen body = ChunkLen (win s) idx
  | AReturn (Err ErrChunkInFlight) => err (win s) = None -> exists j, j ∈ jobs s /\ jidx j = idx
  | _ => True
  end /\
  (forall i j o w' v, jobs s !! i = Some j -> jout j = Some o -> commit (win s) j o = (w', Ok v) ->
     v = crc32 (jbody j) /\ slen (jbody j) = ChunkLen (win s) (jidx j)).
Proof.
  intros Hr. destruct (window_reachable_inv cs ts sl s Hr) as (Hcs & Hts & Hsl & Hi).
  pose proof (w_par _ _ _ s Hi) as Hp. pose proof (w_pos _ _ _ s Hi) as Hpos. split.
  - unfold admit_chunk. rewrite (p_cs _ _ _ _ Hp), (p_tot _ _ _ _ Hp), (p_sl _ _ _ _ Hp).
    assert (Hacc : forall body, accepted s !! idx = Some body ->
      exists body0, accepted s !! idx = Some body0 /\ atZ (crcs (win s)) idx = crc32 body0 /\
        slen body0 = ChunkLen (win s) idx).
    { intros body Hb. destruct (w_acc _ _ _ s Hi idx body Hb) as (A1 & A2 & A3 & _). exists body.
      split; [done|]. split; [done|]. rewrite A2. symmetry. by apply (ChunkLen_eq cs ts sl). }
    destruct (err (win s)) as [e|] eqn:Ee.
    { by destruct e. }
    destruct (_ || _) eqn:E1; [done|]. bool_hyps.
    assert (Hrecv : is_Some (accepted s !! idx) -> exists body0, accepted s !! idx = Some body0 /\
      atZ (crcs (win s)) idx = crc32 body0 /\ slen body0 = ChunkLen (win s) idx).
    { intros [b Hb]. by apply (Hacc b). }
    pose proof (received_iff cs ts sl Hcs Hts s idx Hi Ee) as Hiff.
    rewrite (ChunkLen_eq cs ts sl) by done. fold (cend cs ts idx).
    destruct (cend cs ts idx <=? readPos (win s)) eqn:E2; bool_hyps.
    { rewrite <- (ChunkLen_eq cs ts sl (win s)) by done. apply Hrecv, Hiff. split; [done|]. left.
      apply fr_lt; done. }
    destruct (_ && bool_decide (_ = slotReady)) eqn:E3.
    { rewrite <- (ChunkLen_eq cs ts sl (win s)) by done. apply Hrecv, Hiff. split; [done|]. right.
      apply readyB_spec. bool_hyps. done. }
    destruct (_ && bool_decide (_ = slotFilling)) eqn:E4.
    { bool_hyps. destruct (proj1 (list_elem_of_fmap _ _ _) (w_filling _ _ _ s Hi idx ltac:(done)))
        as (j & -> & Hj). intros _. by exists j. }
    destruct (bool_decide (_ = slotFree) && _); exact I.
  - intros i j o w' v Hj Ho Hc.
    destruct (commit_inv cs ts sl Hsl s i j o w' _ Hi Hj Ho Hc) as [_ Hv].
    destruct (Hv v eq_refl) as [-> He]. split; [done|].
    destruct (w_jobs _ _ _ s Hi He i j Hj) as (J1 & J2 & J3 & J4 & J5).
    rewrite (ChunkLen_eq cs ts sl) by done. destruct o as [e|]; [|by apply J5].
    exfalso. unfold commit in Hc. destruct (_ || _); [done|]. done.
Qed.

Lemma window_write_answers_witness :
  exists body, accepted ex_sys !! 1 = Some body /\ crc32 "efgh" = crc32 body /\
               slen body = ChunkLen (win ex_sys) 1.
Proof.
  pose proof (window_write_answers 4 10 2 ex_sys 1 ex_reachable) as [H _].
  assert (Ha : admit_chunk (win ex_sys) 1 = AReturn (Ok (crc32 "efgh"))) by (vm_compute; reflexivity).
  rewrite Ha in H. exact H.
Defined.

(** C35: flow control never blocks progress. While the window is open and bytes
    are missing, the chunk the reader needs next is ready (and Read goes on),
    is being copied by a request in flight, or is admitted at once: WriteChunk
    never has to wait for it. *)
Theorem window_progress cs ts sl s plen :
  reachable cs ts sl s -> err (win s) = None -> readPos (win s) < ts -> 0 < plen ->
  match admit_chunk (win s) (frontier (win s)) with
  | AReturn (Ok _) => exists p, readBegin (win s) plen = RGo p
  | AReturn (Err e) => e = ErrChunkInFlight /\ exists j, j ∈ jobs s /\ jidx j = frontier (win s)
  | AWait => False
  | AAdmit _ => True
  end.
Proof.
  intros Hr Ee Hlt Hpl. destruct (window_reachable_inv cs ts sl s Hr) as (Hcs & Hts & Hsl & Hi).
  pose proof (w_par _ _ _ s Hi) as Hp. pose proof (w_pos _ _ _ s Hi) as Hpos.
  pose proof (cur_spec cs ts Hcs Hts (readPos (win s)) ltac:(lia)) as [C1 C2].
  rewrite (frontier_eq cs ts sl) by done.
  assert (Hf : fr cs ts (readPos (win s)) = readPos (win s) / cs) by (apply fr_cur; lia).
  unfold admit_chunk, readBegin. rewrite (frontier_eq cs ts sl) by done.
  rewrite Ee, (p_cs _ _ _ _ Hp), (p_tot _ _ _ _ Hp), (p_sl _ _ _ _ Hp), (p_ts _ _ _ _ Hp), Hf.
  rewrite !(ChunkLen_eq cs ts sl) by done. set (cur := readPos (win s) / cs) in *. fold (cend cs ts cur).
  replace (cur <? 0) with false by (symmetry; apply Z.ltb_ge; lia).
  replace (tot cs ts <=? cur) with false by (symmetry; apply Z.leb_gt; lia). cbn [orb].
  replace (cend cs ts cur <=? readPos (win s)) with false by (symmetry; apply Z.leb_gt; lia).
  replace (plen =? 0) with false by (symmetry; apply Z.eqb_neq; lia).
  replace (ts <=? readPos (win s)) with false by (symmetry; apply Z.leb_gt; lia). cbv zeta.
  destruct (decide (stAt (slotState (win s)) (cur mod sl) = slotFree)) as [E|E].
  - rewrite E. rewrite !(bool_decide_eq_false_2 (slotFree = _)) by done. rewrite !andb_false_r.
    rewrite bool_decide_eq_true_2 by done.
    replace (cur <? cur + sl) with true by (symmetry; apply Z.ltb_lt; lia). done.
  - destruct (w_slot _ _ _ s Hi (cur mod sl) (mod_slot sl Hsl cur) E) as (S1 & S2 & S3).
    rewrite Hf in S3. fold cur in S3.
    assert (Hc : atZ (slotChunk (win s)) (cur mod sl) = cur).
    { apply (mod_window sl Hsl); [lia|]. by rewrite S2. }
    rewrite Hc, Z.eqb_refl. cbn [andb].
    destruct (stAt (slotState (win s)) (cur mod sl)) eqn:Est; [done| |]; cbn.
    + split; [done|].
      destruct (proj1 (list_elem_of_fmap _ _ _) (w_filling _ _ _ s Hi cur ltac:(done))) as (j & -> & Hj).
      by exists j.
    + by eexists.
Qed.

Lemma window_progress_witness :
  match admit_chunk (win ex_sys) (frontier (win ex_sys)) with
  | AReturn (Ok _) => exists p, readBegin (win ex_sys) 5 = RGo p
  | AReturn (Err e) => e = ErrChunkInFlight /\ exists j, j ∈ jobs ex_sys /\ jidx j = frontier (win ex_sys)
  | AWait => False
  | AAdmit _ => True
  end.
Proof.
  apply (window_progress 4 10 2 ex_sys 5).
  - exact ex_reachable.
  - vm_compute. reflexivity.
  - vm_compute. reflexivity.
  - lia.
Defined.

(** Snapshot is exact while the window is open. The ranges cover precisely
    the chunks a client need not resend, in order and without empty or adjacent
    ranges; the byte count never exceeds the file size, and reaches it exactly
    when every chunk has been received, which is what Complete tests. *)
Theorem window_snapshot cs ts sl s :
  reachable cs ts sl s -> err (win s) = None ->
  let sn := snapshot (win s) in
  spacedRev (rev (Received sn)) /\
  (forall idx, covered (Received sn) idx <-> is_Some (accepted s !! idx)) /\
  ReceivedBytes sn <= ts /\
  (ReceivedBytes sn = ts <-> forall idx, 0 <= idx < total (win s) -> is_Some (accepted s !! idx)).
Proof.
  intros Hr Ee. destruct (window_reachable_inv cs ts sl s Hr) as (Hcs & Hts & Hsl & Hi).
  pose proof (w_par _ _ _ s Hi) as Hp. pose proof (w_pos _ _ _ s Hi) as Hpos.
  pose proof (tot_spec cs ts Hcs Hts) as Ht.
  pose proof (fr_range cs ts Hcs Hts (readPos (win s)) ltac:(lia)) as Hf.
  unfold snapshot. rewrite (frontier_eq cs ts sl), (p_sl _ _ _ _ Hp), (p_tot _ _ _ _ Hp) by done.
  set (f := fr cs ts (readPos (win s))) in *. set (n := Z.to_nat (Z.min sl (tot cs ts - f))).
  set (l0 := if 0 <? f then [(0, f - 1)] else []).
  pose proof (snapLoop_spec cs ts sl (win s) n f (readPos (win s)) l0 Hp) as Hloop.
  destruct (snapLoop (win s) n f (readPos (win s)) l0) as [recv l].
  destruct Hloop as (H1 & H2 & H3).
  { unfold l0. destruct (0 <? f) eqn:E; bool_hyps; cbn; [split; [lia|done]|done]. }
  { unfold l0. destruct (0 <? f) eqn:E; bool_hyps; cbn; [|done]. intros r [= <-]. cbn. lia. }
  cbn [Received ReceivedBytes]. rewrite rev_involutive. split; [done|].
  assert (Hcov : forall idx, covered l idx <-> is_Some (accepted s !! idx)).
  { intros idx. rewrite H3, (received_iff cs ts sl Hcs Hts s idx Hi Ee). fold f. split.
    - intros [Hc|[Hc Hrd]].
      + destruct Hc as (r & Hr0 & Hr1). unfold l0 in Hr0. destruct (0 <? f); [|by apply not_elem_of_nil in Hr0].
        apply list_elem_of_singleton in Hr0. subst r. cbn in Hr1. split; [lia|]. left. lia.
      + destruct (ready_window cs ts sl Hsl s idx Hi Hrd) as [Hw _]. auto.
    - intros [Hc [Hlt|Hrd]].
      + left. unfold l0. replace (0 <? f) with true by (symmetry; apply Z.ltb_lt; lia).
        exists (0, f - 1). split; [by apply list_elem_of_singleton|]. cbn. lia.
      + right. destruct (ready_window cs ts sl Hsl s idx Hi Hrd) as [Hw1 Hw2]. fold f in Hw2.
        split; [|done]. unfold n. lia. }
  split.
  { intros idx. rewrite <- Hcov. unfold covered. by setoid_rewrite elem_of_rev. }
  rewrite H1. pose proof (received_bytes cs ts sl Hcs Hts Hsl s Hi Ee) as Hb. fold f n in Hb. rewrite Hb.
  assert (Hts' : ts = sumF (clen cs ts) (Z.to_nat (tot cs ts)) 0).
  { rewrite (sum_clen cs ts Hcs Hts), Z2Nat.id, Z.eqb_refl by lia. done. }
  assert (Hle : forall i, 0 <= i < 0 + Z.of_nat (Z.to_nat (tot cs ts)) ->
    (if (i <? f) || readyB sl (win s) i then clen cs ts i else 0) <= clen cs ts i).
  { intros i Hir. pose proof (clen_spec cs ts Hcs Hts i ltac:(lia)). destr_goal; lia. }
  destruct (sumF_le _ _ _ _ Hle) as [G1 G2]. rewrite <- Hts' in G1, G2. split; [done|]. split.
  - intros Heq idx Hir. specialize (G2 Heq idx ltac:(lia)).
    pose proof (clen_spec cs ts Hcs Hts idx ltac:(lia)).
    apply (received_iff cs ts sl Hcs Hts s idx Hi Ee). split; [done|]. fold f.
    destruct ((idx <? f) || readyB sl (win s) idx) eqn:E; [|lia].
    apply orb_prop in E as [E|E]; [left; by apply Z.ltb_lt|by right].
  - intros Hall. etransitivity; [|symmetry; exact Hts']. apply sumF_ext. intros i Hir.
    specialize (Hall i ltac:(lia)). apply (received_iff cs ts sl Hcs Hts s i Hi Ee) in Hall as [_ Hall].
    fold f in Hall. destruct Hall as [Hlt| ->]; [|by rewrite orb_true_r].
    by replace (i <? f) with true by (symmetry; apply Z.ltb_lt; lia).
Qed.

Lemma window_snapshot_witness :
  let sn := snapshot (win ex_sys) in
  spacedRev (rev (Received sn)) /\
  (forall idx, covered (Received sn) idx <-> is_Some (accepted ex_sys !! idx)) /\
  ReceivedBytes sn <= 10 /\
  (ReceivedBytes sn = 10 <->
   forall idx, 0 <= idx < total (win ex_sys) -> is_Some (accepted ex_sys !! idx)).
Proof.
  apply (window_snapshot 4 10 2 ex_sys).
  - exact ex_reachable.
  - vm_compute. reflexivity.
Defined.

(** The ring file never grows beyond slots * chunkSize bytes, whatever the
    size of the file, and every slot in use holds a chunk of the window. *)
Theorem window_bounded cs ts sl s :
  reachable cs ts sl s ->
  Z.of_nat (length (ring (win s))) <= sl * cs /\
  (forall i, 0 <= i < sl -> stAt (slotState (win s)) i <> slotFree ->
     frontier (win s) <= atZ (slotChunk (win s)) i < frontier (win s) + sl /\
     atZ (slotChunk (win s)) i < total (win s)).
Proof.
  intros Hr. destruct (window_reachable_inv cs ts sl s Hr) as (Hcs & Hts & Hsl & Hi).
  pose proof (w_par _ _ _ s Hi) as Hp. split; [apply Hi|]. intros i Hir Hst.
  rewrite (frontier_eq cs ts sl), (p_tot _ _ _ _ Hp) by done.
  destruct (w_slot _ _ _ s Hi i Hir Hst) as (S1 & S2 & S3). lia.
Qed.

Lemma window_bounded_witness : Z.of_nat (length (ring (win ex_sys))) <= 2 * 4.
Proof. exact (proj1 (window_bounded 4 10 2 ex_sys ex_reachable)). Defined.
