(* ===== verification/Session.v ===== *)
(** [internal/multipart/session.go]: multipart upload sessions over the window
    of [Window.v], and the helpers of [server/handles/multipart.go].

    The sessions, windows, contexts and channels live in a shared store. Each
    request, and each pipeline goroutine, is a thread; the code between two
    mutex operations is one step of it, so every interleaving is an execution.
    A mutex is only held across steps by a thread that panicked with it, or by
    Init when it waits for the mutex of a session with the manager's. *)
From S2P Require Import Prelude GoString GoPath Window.

Inductive State := StateReceiving | StateCompleted | StateFailedRetriable | StateFailedPermanent | StateAborted.
#[export] Instance State_eq : EqDecision State.
Proof. solve_decision. Defined.

Definition stateText (s : State) : gostr :=
  match s with
  | StateReceiving => "receiving" | StateCompleted => "completed"
  | StateFailedRetriable => "failed_retriable" | StateFailedPermanent => "failed_permanent"
  | StateAborted => "aborted"
  end.

(** Errors: the text, and the targets for which errors.Is answers true. *)
Inductive sentinel :=
| SCanceled | SUploadNotSupported | SPermissionDenied | SStorageNotFound | SObjectAlreadyExists
| SRelativePath | SIgnoredSystemFile | SErrClosed | SErrChunkInFlight | SErrOutOfWindow
| SErrSessionNotFound | SErrNotOwner.
#[export] Instance sentinel_eq : EqDecision sentinel.
Proof. solve_decision. Defined.

Record goerr := mkErr { msg : gostr; isa : list sentinel }.
Definition errorsIs (e : goerr) (t : sentinel) : bool := bool_decide (t ∈ isa e).
Definition newErr (t : gostr) : goerr := mkErr t [].

(** fmt.Errorf with a final %w. *)
Definition errorfW (t : gostr) (e : option goerr) : goerr :=
  match e with
  | Some e => mkErr (t ++ msg e) (isa e)
  | None => mkErr (t ++ ("%!w(<nil>)" : gostr)) []
  end.

Definition ErrSessionNotFound : goerr := mkErr "multipart upload session not found" [SErrSessionNotFound].
Definition ErrNotOwner : goerr := mkErr "multipart upload session belongs to another user" [SErrNotOwner].

(** The errors of the window; [inner] is the error an incomplete copy wraps. *)
Definition werrErr (inner : goerr) (e : werr) : goerr :=
  match e with
  | ErrClosed => mkErr "multipart upload window closed" [SErrClosed]
  | ErrAborted => mkErr "multipart upload aborted: context canceled" [SCanceled]
  | ErrChunkInFlight => mkErr "chunk is being uploaded by another request" [SErrChunkInFlight]
  | ErrOutOfWindow => mkErr "chunk is out of the receiving window" [SErrOutOfWindow]
  | ErrParams => newErr "invalid window params"
  | ErrOpen => inner
  | ErrIndex idx total =>
      newErr (("chunk index " : gostr) ++ formatInt idx ++ (" out of range [0," : gostr) ++
              formatInt total ++ (")" : gostr))
  | ErrLarge idx length =>
      newErr (("chunk " : gostr) ++ formatInt idx ++ (" larger than expected " : gostr) ++
              formatInt length ++ (" bytes" : gostr))
  | ErrIncomplete idx n length =>
      errorfW (("incomplete chunk " : gostr) ++ formatInt idx ++ (": got " : gostr) ++ formatInt n ++
               (" of " : gostr) ++ formatInt length ++ (" bytes: " : gostr)) (Some inner)
  | ErrEOF => newErr "EOF"
  | ErrUnexpectedEOF => newErr "unexpected EOF"
  end.

(** ** Data *)
Abbreviation ref := nat.

(** The fields Init sets before the session is shared; a user is its ID, a hash
    type its name. *)
Record Info := mkInfo {
  ID : gostr; Path : gostr; DstDir : gostr; Name : gostr; Size : Z; ChunkSize : Z; Total : Z;
  Mimetype : gostr; Modified : Z; Hashes : gmap gostr gostr; Creator : Z }.

(** The mutable fields. [done] and [cancel] are the channel and the context of
    the attempt; [storagePct] holds the bits of a float64; [locked]: the mutex
    is held for good by a thread that panicked. *)
Record Session := mkSession {
  info : Info; state : State; err : option goerr; attempt : Z; win : option ref;
  done : option ref; cancel : option ref; prevCRCs : list Z; prevSet : list bool;
  storagePct : Z; lastActive : Z; locked : bool }.

Definition WindowSlots : Z := 8.
Definition minute : Z := 60 * 1000000000.
Definition defaultSessionTTL : Z := 30 * minute.
Definition float64_100 : Z := 0x4059000000000000.

Record SessionSnapshot := mkSnapshot {
  s_ID : gostr; s_State : State; s_Attempt : Z; s_Path : gostr; s_Size : Z; s_ChunkSize : Z;
  s_TotalChunks : Z; s_Received : list (Z * Z); s_ReceivedBytes : Z; s_Frontier : Z;
  s_StorageProgress : Z; s_Error : gostr }.

Definition emptySnapshot : SessionSnapshot :=
  mkSnapshot [] StateReceiving 0 [] 0 0 0 [] 0 0 0 [].

Record InitReq := mkReq {
  q_User : Z; q_Path : gostr; q_Size : Z; q_ChunkSize : Z; q_Mimetype : gostr; q_Modified : Z;
  q_Hashes : gmap gostr gostr }.

(** ** Pure parts *)
Definition sessionTTL (ttl : Z) : Z := if 0 <? ttl then ttl else defaultSessionTTL.

Definition bar : ascii := "|"%char.
Definition sessionKey (userID : Z) (path : gostr) (size : Z) : gostr :=
  formatUint userID ++ bar :: path ++ bar :: formatInt size.

Definition keyOf (i : Info) : gostr := sessionKey (Creator i) (Path i) (Size i).

Fixpoint qualifyLoop (old : list (gostr * gostr)) (new : gmap gostr gostr) (shared : bool) : bool :=
  match old with
  | [] => shared
  | (t, ov) :: old =>
      match new !! t with
      | Some nv => if negb (seqb ov nv) then false else qualifyLoop old new true
      | None => qualifyLoop old new shared
      end
  end.

Definition hashesQualifyResume (old new : gmap gostr gostr) : bool :=
  qualifyLoop (map_to_list old) new false.

Definition permanentTargets : list sentinel :=
  [SUploadNotSupported; SPermissionDenied; SStorageNotFound; SObjectAlreadyExists; SRelativePath;
   SIgnoredSystemFile].

Definition isPermanentPutError (e : goerr) : bool :=
  if errorsIs e SCanceled then false else existsb (errorsIs e) permanentTargets.

(** ** The store and the threads *)
Inductive reply :=
| RInit (s : option ref) (snap : SessionSnapshot) (resumed : bool) (e : option goerr)
| RChunk (s : option ref) (snap : SessionSnapshot) (e : option goerr)
| RComplete (s : option ref) (snap : SessionSnapshot) (e : option goerr)
| RStatus (s : option ref) (snap : SessionSnapshot) (e : option goerr)
| RAbort (s : option ref) (e : option goerr)
| RGC
| RPut (s w : ref) (e : option goerr).

(** The operation that goes on with the session [get] finds. *)
Inductive sop :=
| OpChunk (idx : Z) (body : gostr)
| OpComplete
| OpStatus
| OpAbort.

(** What a call of Snapshot is returned with. *)
Inductive snapk :=
| KInit
| KChunk (e : option goerr)
| KComplete (e : goerr)
| KStatus.

Inductive thread :=
| TRet (r : reply)
| TPanic
| TTouch (s : ref) (k : thread)
| TSnap (s : ref) (k : snapk)
| TGet (user : Z) (id : gostr) (o : sop)
| TFind (user : Z) (path : gostr) (size : Z)
| TInit (req : InitReq)
| TInitStuck (s : ref)
| TTerm (s : ref) (cause : goerr) (k : thread)
| TRemove (s : ref) (k : thread)
| TNew (req : InitReq)
| TReg (s : ref) (key : gostr) (snap : SessionSnapshot)
| TChunk (s : ref) (idx : Z) (body : gostr)
| TChunkErr (s : ref) (snap : SessionSnapshot) (retry : bool)
| TWrite (s w : ref) (idx : Z) (body : gostr) (prev : option Z)
| TCopy (s w : ref) (idx : Z) (prev : option Z)
| TVerdict (s : ref) (e : goerr)
| TAwait (s : ref) (ch : option ref) (e : goerr)
| TFail (s : ref) (e : goerr)
| TMismatch (s : ref) (idx : Z)
| TComplete (s : ref)
| TCompWait (s : ref) (ch : option ref)
| TCompEnd (s : ref)
| TGC
| TSweep (deadline : Z)
| TPut (s w : ref)
| TFin1 (s w : ref) (e : option goerr)
| TFin2 (s w : ref) (e : option goerr) (crcs : list Z) (set : list bool)
| TFin3 (s w : ref) (e : option goerr) (crcs : list Z) (set : list bool)
| TFin4 (s w : ref) (e : option goerr).

(** The manager and everything it points to. *)
Record Manager := mkManager {
  byID : gmap gostr ref;
  byKey : gmap gostr gostr;
  ttl : Z;
  mlocked : bool;
  heap : gmap ref Session;
  wins : gmap ref sys;
  cancelled : gset ref;
  closed : gset ref;
  next : ref;
  now : Z;
  threads : list thread }.

Definition setMaps (m : Manager) bi bk : Manager :=
  mkManager bi bk (ttl m) (mlocked m) (heap m) (wins m) (cancelled m) (closed m) (next m) (now m) (threads m).
Definition setHeap (m : Manager) h : Manager :=
  mkManager (byID m) (byKey m) (ttl m) (mlocked m) h (wins m) (cancelled m) (closed m) (next m) (now m) (threads m).
Definition setWins (m : Manager) ws : Manager :=
  mkManager (byID m) (byKey m) (ttl m) (mlocked m) (heap m) ws (cancelled m) (closed m) (next m) (now m) (threads m).
Definition setCancelled (m : Manager) c : Manager :=
  mkManager (byID m) (byKey m) (ttl m) (mlocked m) (heap m) (wins m) c (closed m) (next m) (now m) (threads m).
Definition setClosed (m : Manager) c : Manager :=
  mkManager (byID m) (byKey m) (ttl m) (mlocked m) (heap m) (wins m) (cancelled m) c (next m) (now m) (threads m).
Definition setLocked (m : Manager) : Manager :=
  mkManager (byID m) (byKey m) (ttl m) true (heap m) (wins m) (cancelled m) (closed m) (next m) (now m) (threads m).
Definition setNext (m : Manager) n : Manager :=
  mkManager (byID m) (byKey m) (ttl m) (mlocked m) (heap m) (wins m) (cancelled m) (closed m) n (now m) (threads m).
Definition setNow (m : Manager) t : Manager :=
  mkManager (byID m) (byKey m) (ttl m) (mlocked m) (heap m) (wins m) (cancelled m) (closed m) (next m) t (threads m).
Definition setThreads (m : Manager) ts : Manager :=
  mkManager (byID m) (byKey m) (ttl m) (mlocked m) (heap m) (wins m) (cancelled m) (closed m) (next m) (now m) ts.

Definition putSession (m : Manager) (s : ref) (se : Session) : Manager := setHeap m (<[s := se]> (heap m)).
Definition putWin (m : Manager) (w : ref) (y : sys) : Manager := setWins m (<[w := y]> (wins m)).

(** Field updates of a session. *)
Definition setState (se : Session) st e : Session :=
  mkSession (info se) st e (attempt se) (win se) (done se) (cancel se) (prevCRCs se) (prevSet se) (storagePct se)
    (lastActive se) (locked se).
Definition setAttempt (se : Session) a : Session :=
  mkSession (info se) (state se) (err se) a (win se) (done se) (cancel se) (prevCRCs se) (prevSet se) (storagePct se)
    (lastActive se) (locked se).
Definition setWin (se : Session) w : Session :=
  mkSession (info se) (state se) (err se) (attempt se) w (done se) (cancel se) (prevCRCs se) (prevSet se) (storagePct se)
    (lastActive se) (locked se).
Definition setPipe (se : Session) d c : Session :=
  mkSession (info se) (state se) (err se) (attempt se) (win se) d c (prevCRCs se) (prevSet se) (storagePct se)
    (lastActive se) (locked se).
Definition setPrev (se : Session) cs bs : Session :=
  mkSession (info se) (state se) (err se) (attempt se) (win se) (done se) (cancel se) cs bs (storagePct se)
    (lastActive se) (locked se).
Definition setStoragePct (se : Session) p : Session :=
  mkSession (info se) (state se) (err se) (attempt se) (win se) (done se) (cancel se) (prevCRCs se) (prevSet se) p
    (lastActive se) (locked se).
Definition touch (se : Session) (now : Z) : Session :=
  mkSession (info se) (state se) (err se) (attempt se) (win se) (done se) (cancel se) (prevCRCs se) (prevSet se)
    (storagePct se) now (locked se).
Definition lockForever (se : Session) : Session :=
  mkSession (info se) (state se) (err se) (attempt se) (win se) (done se) (cancel se) (prevCRCs se) (prevSet se)
    (storagePct se) (lastActive se) true.

(** ** The sections of the operations *)
Definition snapshotLocked (m : Manager) (se : Session) : SessionSnapshot :=
  let i := info se in
  let snap recv bytes front pct :=
    mkSnapshot (ID i) (state se) (attempt se) (Path i) (Size i) (ChunkSize i) (Total i) recv bytes front pct
      (match err se with Some e => msg e | None => [] end) in
  if bool_decide (state se = StateCompleted) then snap [(0, Total i - 1)] (Size i) (Total i) float64_100
  else
    match (let! w := win se in wins m !! w) with
    | Some y => let ws := snapshot (Window.win y) in
                snap (Received ws) (ReceivedBytes ws) (Frontier ws) (storagePct se)
    | None => snap [] 0 0 (storagePct se)
    end.

Definition killAttemptLocked (m : Manager) (se : Session) : Manager :=
  let m := match cancel se with
           | Some c => setCancelled m ({[c]} ∪ cancelled m)
           | None => m
           end in
  match win se with
  | Some w =>
      match wins m !! w with
      | Some y => match wstep y (EvClose ErrAborted) with Some y => putWin m w y | None => m end
      | None => m
      end
  | None => m
  end.

(** The locked part of terminate. *)
Definition terminate (m : Manager) (s : ref) (se : Session) (cause : goerr) : Manager :=
  let se := if bool_decide (state se = StateReceiving) then setState se StateAborted (Some cause) else se in
  killAttemptLocked (putSession m s se) se.

Definition remove (m : Manager) (se : Session) : Manager :=
  let key := keyOf (info se) in
  setMaps m (delete (ID (info se)) (byID m))
    (if bool_decide (byKey m !! key = Some (ID (info se))) then delete key (byKey m) else byKey m).

Definition get (m : Manager) (user : Z) (id : gostr) : res goerr ref :=
  match byID m !! id with
  | None => Err ErrSessionNotFound
  | Some s =>
      match heap m !! s with
      | None => Err ErrSessionNotFound
      | Some se => if negb (Creator (info se) =? user) then Err ErrNotOwner else Ok s
      end
  end.

(** A fresh window, context and channel, and the pipeline goroutine. [None]:
    NewWindow panics. [inner] is the error of the file system when the ring
    file is not [opened]. *)
Definition startAttemptLocked (m : Manager) (s : ref) (se : Session) (opened : bool) (inner : goerr)
  : option (res goerr (Manager * Session * thread)) :=
  match NewWindow opened (ChunkSize (info se)) (Size (info se)) WindowSlots with
  | None => None
  | Some (Err e) => Some (Err (werrErr inner e))
  | Some (Ok w) =>
      let r := next m in
      let se := setWin se (Some r) in
      let se := setPipe se (Some r) (Some r) in
      let se := setState se StateReceiving None in
      let se := setStoragePct se 0 in
      let m := setNext (putWin m r (initSys w)) (r + 1)%nat in
      Some (Ok (putSession m s se, se, TPut s r))
  end.

(** The locked part of finishAttempt. *)
Definition finishAttempt (se : Session) (now : Z) (w : ref) (e : option goerr) (crcs : list Z)
    (set : list bool) : Session :=
  let se := touch se now in
  let se := if bool_decide (win se = Some w) then setWin se None else se in
  let se := setPrev se crcs set in
  match e with
  | None => setStoragePct (setState se StateCompleted None) float64_100
  | Some e =>
      if negb (bool_decide (state se = StateReceiving)) then
        match err se with None => setState se (state se) (Some e) | Some _ => se end
      else if isPermanentPutError e then setState se StateFailedPermanent (Some e)
      else setAttempt (setState se StateFailedRetriable (Some e)) (i64 (attempt se + 1))
  end.

(** Init's lookup under the manager's mutex. *)
Inductive found := FoundNone | FoundResume (s : ref) | FoundOld (s : ref) | FoundLocked (s : ref).

Definition initLookup (m : Manager) (req : InitReq) : found :=
  match (let! id := byKey m !! sessionKey (q_User req) (q_Path req) (q_Size req) in byID m !! id) with
  | None => FoundNone
  | Some s =>
      match heap m !! s with
      | None => FoundNone
      | Some se =>
          if locked se then FoundLocked s
          else if bool_decide (state se = StateFailedRetriable)
                  || (bool_decide (state se = StateReceiving) &&
                      hashesQualifyResume (Hashes (info se)) (q_Hashes req))
          then FoundResume s
          else FoundOld s
      end
  end.

(** The session Init builds. *)
Definition newInfo (req : InitReq) (id : gostr) (total : Z) : Info :=
  let '(dstDir, name) := path_Split (q_Path req) in
  mkInfo id (q_Path req) dstDir name (q_Size req) (q_ChunkSize req) total (q_Mimetype req)
    (q_Modified req) (q_Hashes req) (q_User req).

Definition newSession (m : Manager) (req : InitReq) (id : gostr) : Session :=
  mkSession (newInfo req id 0) StateReceiving None 0 None None None [] [] 0 (now m) false.

Definition setTotal (se : Session) (total : Z) : Session :=
  let i := info se in
  mkSession (mkInfo (ID i) (Path i) (DstDir i) (Name i) (Size i) (ChunkSize i) total (Mimetype i) (Modified i)
               (Hashes i) (Creator i))
    (state se) (err se) (attempt se) (win se) (done se) (cancel se) (prevCRCs se) (prevSet se) (storagePct se)
    (lastActive se) (locked se).

(** Chunk after WriteChunk has returned. *)
Definition written (s : ref) (idx : Z) (prev : option Z) (r : res goerr Z) : thread :=
  match r with
  | Err e => if errorsIs e SErrClosed || errorsIs e SCanceled then TVerdict s e else TFail s e
  | Ok crc =>
      match prev with
      | Some p => if negb (crc =? p) then TMismatch s idx else TSnap s (KChunk None)
      | None => TSnap s (KChunk None)
      end
  end.

(** s.prevSet[idx] and s.prevCRCs[idx]; [None]: the index is out of range. *)
Definition prevOf (se : Session) (idx : Z) : option (option Z) :=
  if idx <? Z.of_nat (length (prevSet se)) then
    if idx <? 0 then None
    else
      let! b := prevSet se !! Z.to_nat idx in
      if (b : bool) then let! c := prevCRCs se !! Z.to_nat idx in Some (Some c) else Some None
  else Some None.

Definition mismatchErr (idx : Z) : goerr :=
  newErr (("chunk " : gostr) ++ formatInt idx ++ (" content changed between attempts, aborting" : gostr)).

Definition result {E A} (r : res E A) (f : E -> goerr) : res goerr A :=
  match r with Ok a => Ok a | Err e => Err (f e) end.

(** ** Steps

    What a step takes from outside: the uuid and the outcome of opening the
    ring file, a timer, the pieces of a body, the end of a request's context,
    and what the storage driver does with the stream. *)
Inductive input :=
| INone
| INew (id : gostr) (opened : bool) (inner : goerr)
| IOpen (opened : bool) (inner : goerr)
| ITimeout
| IPiece (k : nat)
| IEnd
| ICommit (inner : goerr)
| ICtxDone (e : goerr)
| IPutReturns (e : option goerr)
| IProgress (p : Z)
| IDriver (e : event).

(** A driver reads the stream; op.Put closes it when the driver returns. *)
Definition driverEvent (e : event) : bool :=
  match e with
  | EvReadBegin _ | EvReadFile | EvReadEnd | EvClose ErrClosed => true
  | _ => false
  end.

Definition snapReply (s : ref) (snap : SessionSnapshot) (k : snapk) : reply :=
  match k with
  | KInit => RInit (Some s) snap true None
  | KChunk e => RChunk (Some s) snap e
  | KComplete e => RComplete (Some s) snap (Some e)
  | KStatus => RStatus (Some s) snap None
  end.

Definition opErr (o : sop) (e : goerr) : reply :=
  match o with
  | OpChunk _ _ => RChunk None emptySnapshot (Some e)
  | OpComplete => RComplete None emptySnapshot (Some e)
  | OpStatus => RStatus None emptySnapshot (Some e)
  | OpAbort => RAbort None (Some e)
  end.

Definition opNext (o : sop) (s : ref) : thread :=
  match o with
  | OpChunk idx body => TTouch s (TChunk s idx body)
  | OpComplete => TTouch s (TComplete s)
  | OpStatus => TTouch s (TSnap s KStatus)
  | OpAbort => TTerm s (newErr "multipart upload aborted by client") (TRet (RAbort (Some s) None))
  end.

Definition superseded : goerr := newErr "superseded by a new upload of the same path and size".
Definition expired : goerr := newErr "multipart upload session expired".

(** The outcome of a step of one thread: the store, the thread, and the
    goroutines it started. [None]: the thread is blocked. *)
Definition stepRes : Type := option (Manager * thread * list thread).

(** The section of Chunk under the mutex of the session. *)
Definition chunkSection (m : Manager) (s : ref) (se : Session) (idx : Z) (body : gostr) (x : input) : stepRes :=
  let go m se spawned :=
    match prevOf se idx, win se with
    | Some prev, Some w => Some (m, TWrite s w idx body prev, spawned)
    | Some _, None => Some (m, TPanic, spawned)
    | None, _ => Some (putSession m s (lockForever se), TPanic, spawned)
    end in
  match state se with
  | StateReceiving => go m se []
  | StateFailedRetriable =>
      if negb (idx =? 0) then Some (m, TChunkErr s (snapshotLocked m se) true, [])
      else match x with
      | IOpen opened inner =>
          match startAttemptLocked m s se opened inner with
          | None => Some (putSession m s (lockForever se), TPanic, [])
          | Some (Err e) => Some (m, TRet (RChunk (Some s) (snapshotLocked m se) (Some e)), [])
          | Some (Ok (m, se, t)) => go m se [t]
          end
      | _ => None
      end
  | StateCompleted => Some (m, TRet (RChunk (Some s) (snapshotLocked m se) None), [])
  | _ => Some (m, TChunkErr s (snapshotLocked m se) false, [])
  end.

(** The error Chunk builds from fields it reads after the unlock. *)
Definition chunkErr (se : Session) (retry : bool) : goerr :=
  if retry then errorfW "upload attempt failed, resend from chunk 0 to retry: " (err se)
  else errorfW (("session is " : gostr) ++ stateText (state se) ++ (": " : gostr)) (err se).

(** Init from the construction of the session to the unlock of its mutex. *)
Definition newSection (m : Manager) (req : InitReq) (x : input) : stepRes :=
  match x with
  | INew id opened inner =>
      let s := next m in
      let se := newSession m req id in
      let m1 := setNext m (s + 1)%nat in
      match startAttemptLocked m1 s se opened inner with
      | None => Some (m, TPanic, [])
      | Some (Err e) => Some (m, TRet (RInit None emptySnapshot false (Some e)), [])
      | Some (Ok (m, se, t)) =>
          let total := match (let! w := win se in wins m !! w) with Some y => total (Window.win y) | None => 0 end in
          let se := setTotal se total in
          let m := putSession m s se in
          Some (m, TReg s (keyOf (info se)) (snapshotLocked m se), [t])
      end
  | _ => None
  end.

(** One iteration of the loop of Complete up to the wait. *)
Definition completeSection (m : Manager) (s : ref) (se : Session) : thread :=
  if bool_decide (state se = StateReceiving) then
    match (let! w := win se in wins m !! w) with
    | Some y =>
        let ws := snapshot (Window.win y) in
        if ReceivedBytes ws <? Size (info se) then
          TRet (RComplete (Some s) (snapshotLocked m se)
            (Some (newErr (("cannot complete: " : gostr) ++ formatInt (ReceivedBytes ws) ++ (" of " : gostr) ++
                           formatInt (Size (info se)) ++ (" bytes received" : gostr)))))
        else TCompWait s (done se)
    | None => TCompWait s (done se)
    end
  else TTouch s (TCompEnd s).

Definition completeEnd (m : Manager) (s : ref) (se : Session) : thread :=
  let snap := snapshotLocked m se in
  if bool_decide (state se = StateCompleted) then TRemove s (TRet (RComplete (Some s) snap None))
  else TRet (RComplete (Some s) snap
         (Some (errorfW (("upload failed (" : gostr) ++ stateText (state se) ++ ("): " : gostr)) (err se)))).

(** WriteChunk, as steps of the window. *)
Definition writeSection (m : Manager) (s w : ref) (idx : Z) (body : gostr) (prev : option Z) (x : input) : stepRes :=
  let! y := wins m !! w in
  match admit_chunk (Window.win y) idx with
  | AReturn r => Some (m, written s idx prev (result r (werrErr (newErr []))), [])
  | AWait => match x with
             | ITimeout => Some (m, written s idx prev (Err (werrErr (newErr []) ErrOutOfWindow)), [])
             | _ => None
             end
  | AAdmit _ => let! y := wstep y (EvStart idx body) in Some (putWin m w y, TCopy s w idx prev, [])
  end.

Definition copySection (m : Manager) (s w : ref) (idx : Z) (prev : option Z) (x : input) : stepRes :=
  let! y := wins m !! w in
  let! (i, j) := list_find (fun j => jidx j = idx) (jobs y) in
  match x with
  | IPiece k => let! y := wstep y (EvPiece i k) in Some (putWin m w y, TCopy s w idx prev, [])
  | IEnd => let! y := wstep y (EvEnd i) in Some (putWin m w y, TCopy s w idx prev, [])
  | ICommit inner =>
      let! o := jout j in
      let! y' := wstep y (EvCommit i) in
      Some (putWin m w y', written s idx prev (result (snd (commit (Window.win y) j o)) (werrErr inner)), [])
  | _ => None
  end.

(** The pipeline goroutine while the driver runs. *)
Definition putSection (m : Manager) (s w : ref) (x : input) : stepRes :=
  match x with
  | IPutReturns e => Some (m, TFin1 s w e, [])
  | IProgress p => let! se := heap m !! s in Some (putSession m s (setStoragePct se p), TPut s w, [])
  | IDriver e =>
      if negb (driverEvent e) then None
      else let! y := wins m !! w in
           let! y := wstep y e in
           Some (putWin m w y, TPut s w, [])
  | _ => None
  end.

(** A section under the mutex of a session. *)
Definition locking (m : Manager) (s : ref) (k : Session -> stepRes) : stepRes :=
  let! se := heap m !! s in if locked se then None else k se.

(** The sessions gc collects. *)
Definition sweep (m : Manager) (deadline : Z) : list ref :=
  List.filter (fun s => match heap m !! s with Some se => lastActive se <? deadline | None => false end)
    (map snd (map_to_list (byID m))).

Definition runThread (m : Manager) (t : thread) (x : input) : stepRes :=
  match t with
  | TRet _ | TPanic | TInitStuck _ => None
  | TTouch s k => let! se := heap m !! s in Some (putSession m s (touch se (now m)), k, [])
  | TSnap s k => locking m s (fun se => Some (m, TRet (snapReply s (snapshotLocked m se) k), []))
  | TGet user id o =>
      if mlocked m then None
      else Some (m, match get m user id with Err e => TRet (opErr o e) | Ok s => opNext o s end, [])
  | TFind user path size =>
      if mlocked m then None
      else Some (m, match byKey m !! sessionKey user path size with
                    | None => TRet (RStatus None emptySnapshot (Some ErrSessionNotFound))
                    | Some id => TGet user id OpStatus
                    end, [])
  | TInit req =>
      if mlocked m then None
      else match initLookup m req with
      | FoundNone => Some (m, TNew req, [])
      | FoundResume s => Some (m, TTouch s (TSnap s KInit), [])
      | FoundOld s => Some (m, TTerm s superseded (TNew req), [])
      | FoundLocked s => Some (setLocked m, TInitStuck s, [])
      end
  | TTerm s cause k => locking m s (fun se => Some (terminate m s se cause, TRemove s k, []))
  | TRemove s k =>
      if mlocked m then None else let! se := heap m !! s in Some (remove m se, k, [])
  | TNew req => newSection m req x
  | TReg s key snap =>
      if mlocked m then None
      else let! se := heap m !! s in
           Some (setMaps m (<[ID (info se) := s]> (byID m)) (<[key := ID (info se)]> (byKey m)),
                 TRet (RInit (Some s) snap false None), [])
  | TChunk s idx body => locking m s (fun se => chunkSection m s se idx body x)
  | TChunkErr s snap retry =>
      let! se := heap m !! s in Some (m, TRet (RChunk (Some s) snap (Some (chunkErr se retry))), [])
  | TWrite s w idx body prev => writeSection m s w idx body prev x
  | TCopy s w idx prev => copySection m s w idx prev x
  | TVerdict s e => locking m s (fun se => Some (m, TAwait s (done se) e, []))
  | TAwait s ch e =>
      match x, ch with
      | ITimeout, _ => Some (m, TFail s e, [])
      | _, Some ch => if bool_decide (ch ∈ closed m) then Some (m, TFail s e, []) else None
      | _, None => None
      end
  | TFail s e => locking m s (fun se =>
      Some (m, TRet (RChunk (Some s) (snapshotLocked m se)
                 (if bool_decide (state se = StateCompleted) then None else Some e)), []))
  | TMismatch s idx => locking m s (fun se =>
      let se := setState se StateFailedPermanent (Some (mismatchErr idx)) in
      Some (killAttemptLocked (putSession m s se) se, TSnap s (KChunk (Some (mismatchErr idx))), []))
  | TComplete s => locking m s (fun se => Some (m, completeSection m s se, []))
  | TCompWait s ch =>
      match x, ch with
      | ICtxDone e, _ => Some (m, TSnap s (KComplete e), [])
      | _, Some ch => if bool_decide (ch ∈ closed m) then Some (m, TComplete s, []) else None
      | _, None => None
      end
  | TCompEnd s => locking m s (fun se => Some (m, completeEnd m s se, []))
  | TGC => Some (m, TSweep (now m - sessionTTL (ttl m)), [])
  | TSweep deadline =>
      if mlocked m then None
      else Some (m, foldr (fun s k => TTerm s expired k) (TRet RGC) (sweep m deadline), [])
  | TPut s w => putSection m s w x
  | TFin1 s w e => let! y := wins m !! w in Some (m, TFin2 s w e (fst (CRCs (Window.win y))) (snd (CRCs (Window.win y))), [])
  | TFin2 s w e crcs set =>
      let! y := wins m !! w in
      let! y := wstep y (EvClose ErrClosed) in
      Some (putWin m w y, TFin3 s w e crcs set, [])
  | TFin3 s w e crcs set => locking m s (fun se =>
      Some (putSession m s (finishAttempt se (now m) w e crcs set), TFin4 s w e, []))
  | TFin4 s w e => Some (setClosed m ({[w]} ∪ closed m), TRet (RPut s w e), [])
  end.

(** The calls: Init checks its arguments before it takes a mutex. *)
Inductive call :=
| CInit (req : InitReq)
| CChunk (user : Z) (id : gostr) (idx : Z) (body : gostr)
| CComplete (user : Z) (id : gostr)
| CStatus (user : Z) (id : gostr)
| CFind (user : Z) (path : gostr) (size : Z)
| CAbort (user : Z) (id : gostr)
| CGC.

Definition start (c : call) : thread :=
  match c with
  | CInit req =>
      if q_Size req <=? 0 then
        TRet (RInit None emptySnapshot false
          (Some (newErr (("multipart upload requires a positive X-File-Size, got " : gostr) ++ formatInt (q_Size req)))))
      else if q_ChunkSize req <=? 0 then
        TRet (RInit None emptySnapshot false
          (Some (newErr (("invalid chunk size " : gostr) ++ formatInt (q_ChunkSize req)))))
      else TInit req
  | CChunk u id idx body => TGet u id (OpChunk idx body)
  | CComplete u id => TGet u id OpComplete
  | CStatus u id => TGet u id OpStatus
  | CFind u path size => TFind u path size
  | CAbort u id => TGet u id OpAbort
  | CGC => TGC
  end.

Inductive label :=
| LCall (c : call)
| LRun (i : nat) (x : input)
| LTick (d : Z).

Definition step (m : Manager) (l : label) : option Manager :=
  match l with
  | LCall c => Some (setThreads m (threads m ++ [start c]))
  | LRun i x =>
      let! t := threads m !! i in
      let! (m', t', ts) := runThread m t x in
      Some (setThreads m' (<[i := t']> (threads m) ++ ts))
  | LTick d => if d <? 0 then None else Some (setNow m (now m + d))
  end.

Fixpoint run (m : Manager) (ls : list label) : option Manager :=
  match ls with
  | [] => Some m
  | l :: ls => let! m := step m l in run m ls
  end.

Definition newManager (ttl : Z) : Manager := mkManager ∅ ∅ ttl false ∅ ∅ ∅ ∅ 0 0 [].

(** ** The helpers of the handlers *)
Definition multipartMinChunkSize : Z := Z.shiftl 1 20.

(** [setting]: the administrator's chunk size in MB. *)
Definition multipartChunkSize (setting requested : Z) : Z :=
  let ceiling := i64 (Z.shiftl setting 20) in
  let ceiling := if ceiling <? multipartMinChunkSize then multipartMinChunkSize else ceiling in
  if (0 <? requested) && (requested <? ceiling) then Z.max requested multipartMinChunkSize else ceiling.

Definition multipartErrCode (e : goerr) : Z :=
  if errorsIs e SErrOutOfWindow then 429
  else if errorsIs e SErrChunkInFlight then 409
  else if errorsIs e SErrSessionNotFound then 404
  else if errorsIs e SErrNotOwner then 403
  else 400.

(** An upload of one chunk from Init to Complete. *)
Definition demoReq : InitReq := mkReq 7 "/d/f.bin" 3 4 "text/plain" 0 ∅.
Definition demoRun : list label :=
  [LCall (CInit demoReq); LRun 0 INone; LRun 0 (INew "u1" true (newErr [])); LRun 0 INone;
   LCall (CChunk 7 "u1" 0 "abc"); LRun 2 INone; LRun 2 INone; LRun 2 INone; LRun 2 INone;
   LRun 2 (IPiece 3); LRun 2 IEnd; LRun 2 (ICommit (newErr [])); LRun 2 INone;
   LCall (CComplete 7 "u1"); LRun 3 INone; LRun 3 INone; LRun 3 INone;
   LRun 1 (IDriver (EvReadBegin 16)); LRun 1 (IDriver EvReadFile); LRun 1 (IDriver EvReadEnd);
   LRun 1 (IPutReturns None); LRun 1 INone; LRun 1 INone; LRun 1 INone; LRun 1 INone;
   LRun 3 INone; LRun 3 INone; LRun 3 INone; LRun 3 INone; LRun 3 INone].

Example session_demo :
  (fun m => (map (fun t => match t with
                   | TRet (RInit _ _ r e) => (1, match e with None => true | _ => false end)
                   | TRet (RChunk _ _ None) => (2, true)
                   | TRet (RComplete _ sn None) => (s_ReceivedBytes sn, true)
                   | TRet (RPut _ _ None) => (4, true)
                   | _ => (0, false)
                   end) (threads m), byID m !! ("u1" : gostr), out <$> (wins m !! 1%nat)))
    <$> run (newManager 0) demoRun
  = Some ([(1, true); (4, true); (2, true); (3, true)], None, Some ("abc" : gostr)).
Proof. vm_compute. reflexivity. Qed.
