(* ===== verification/SessionSpec.v ===== *)
(** Invariants of the upload sessions of [Session.v] over every interleaving of
    requests, pipelines, garbage collection and time. *)
From S2P Require Import Prelude GoString GoPath Window WindowSpec Session.

(** ** Keys *)
Lemma bar_not_digit c : is_digit c -> c <> bar.
Proof. intros H ->. by apply (is_digit_not bar 124 H); [right|]. Qed.

Lemma digits_no_bar s : Forall is_digit s -> bar ∉ s.
Proof. intros H Hb. rewrite Forall_forall in H. exact (bar_not_digit bar (H _ Hb) eq_refl). Qed.

Lemma formatInt_no_bar n : bar ∉ formatInt n.
Proof.
  unfold formatInt. destruct (n <? 0) eqn:E; bool_hyps.
  - intros [H|H]%elem_of_cons; [done|]. revert H. apply digits_no_bar, formatUint_digits. lia.
  - apply digits_no_bar, formatUint_digits. lia.
Qed.

(** The key determines the user, the path and the size, whatever the path. *)
Lemma sessionKey_inj u p n u' p' n' :
  u64_ok u -> u64_ok u' -> i64_ok n -> i64_ok n' ->
  sessionKey u p n = sessionKey u' p' n' -> u = u' /\ p = p' /\ n = n'.
Proof.
  intros Hu Hu' Hn Hn' E. unfold sessionKey in E.
  assert (Hd : forall v, u64_ok v -> bar ∉ formatUint v).
  { intros v Hv. apply digits_no_bar, formatUint_digits. apply Hv. }
  pose proof (indexByte_app _ _ (p ++ bar :: formatInt n) (Hd u Hu)) as I1.
  rewrite E, indexByte_app in I1 by auto. injection I1 as I1.
  apply app_inj_1 in E as [E1 E2]; [|done]. injection E2 as E2.
  pose proof (lastIndexByte_app p bar (formatInt n) (formatInt_no_bar n)) as L1.
  rewrite E2, lastIndexByte_app in L1 by apply formatInt_no_bar. injection L1 as L1.
  apply app_inj_1 in E2 as [E3 E4]; [|done]. injection E4 as E4.
  split; [by apply formatUint_inj|]. split; [done|]. by apply formatInt_inj.
Qed.

(** ** Resumption *)
Lemma qualifyLoop_spec old new sh :
  qualifyLoop old new sh = true <->
  (forall t ov nv, (t, ov) ∈ old -> new !! t = Some nv -> ov = nv) /\
  (sh = true \/ exists t ov, (t, ov) ∈ old /\ is_Some (new !! t)).
Proof.
  revert sh. induction old as [|[t ov] old IH]; intros sh; cbn [qualifyLoop].
  - split.
    + intros ->. split; [|by left]. intros ??? H. by apply not_elem_of_nil in H.
    + intros [_ [->|(t & ov & H & _)]]; [done|]. by apply not_elem_of_nil in H.
  - setoid_rewrite elem_of_cons. destruct (new !! t) as [nv|] eqn:En.
    + destruct (seqb ov nv) eqn:Es; cbn [negb].
      * apply seqb_true in Es. subst nv. rewrite IH. split.
        -- intros [H1 _]. split; [naive_solver|]. right. exists t, ov. rewrite En. eauto.
        -- intros [H1 _]. split; [naive_solver|]. by left.
      * apply seqb_false in Es. split; [done|]. intros [H _]. exfalso. apply Es. eapply H; eauto.
    + rewrite IH. split.
      * intros [H1 H2]. split; [naive_solver|]. naive_solver.
      * intros [H1 H2]. split; [naive_solver|]. destruct H2 as [H2|(t' & ov' & [H2|H2] & H3)]; [by left| |].
        -- simplify_eq. rewrite En in H3. by destruct H3.
        -- right. eauto.
Qed.

Lemma hashesQualifyResume_spec old new :
  hashesQualifyResume old new = true <->
  (forall t ov nv, old !! t = Some ov -> new !! t = Some nv -> ov = nv) /\
  exists t, is_Some (old !! t) /\ is_Some (new !! t).
Proof.
  unfold hashesQualifyResume. rewrite qualifyLoop_spec. setoid_rewrite elem_of_map_to_list.
  split; intros [H1 H2]; (split; [done|]).
  - destruct H2 as [|(t & ov & H2 & H3)]; [done|]. eauto.
  - right. destruct H2 as (t & [ov H2] & H3). eauto.
Qed.

(** ** What a thread refers to *)

(** The reply a thread ends with, when it is known. *)
Fixpoint fin (t : thread) : option reply :=
  match t with
  | TRet r => Some r
  | TTouch _ k | TTerm _ _ k | TRemove _ k => fin k
  | _ => None
  end.

Definition refsReply (r : reply) : list ref :=
  match r with
  | RInit (Some s) _ _ _ | RChunk (Some s) _ _ | RComplete (Some s) _ _ | RStatus (Some s) _ _
  | RAbort (Some s) _ => [s]
  | _ => []
  end.

(** The sessions a request has found or been given. *)
Fixpoint pub (t : thread) : list ref :=
  match t with
  | TRet r => refsReply r
  | TTouch s k | TTerm s _ k | TRemove s k => s :: pub k
  | TSnap s _ | TInitStuck s | TChunk s _ _ | TChunkErr s _ _ | TWrite s _ _ _ _ | TCopy s _ _ _
  | TVerdict s _ | TAwait s _ _ | TFail s _ | TMismatch s _ | TComplete s | TCompWait s _ | TCompEnd s => [s]
  | _ => []
  end.

(** The window a thread writes to or reads from, with its session. *)
Definition winRef (t : thread) : option (ref * ref) :=
  match t with
  | TWrite s w _ _ _ | TCopy s w _ _ | TPut s w | TFin1 s w _ | TFin2 s w _ _ _ | TFin3 s w _ _ _ => Some (s, w)
  | _ => None
  end.

(** What follows a touch, a terminate or a remove is a request without a window. *)
Definition plain (t : thread) : bool :=
  match t with
  | TWrite _ _ _ _ _ | TCopy _ _ _ _ | TPut _ _ | TFin1 _ _ _ | TFin2 _ _ _ _ _ | TFin3 _ _ _ _ _
  | TFin4 _ _ _ | TReg _ _ _ => false
  | _ => true
  end.

Fixpoint conts (t : thread) : list thread :=
  match t with
  | TTouch _ k | TTerm _ _ k | TRemove _ k => k :: conts k
  | _ => []
  end.

(** The request of an Init that has not built its session yet. *)
Fixpoint reqOf (t : thread) : option InitReq :=
  match t with
  | TInit req | TNew req => Some req
  | TTouch _ k | TTerm _ _ k | TRemove _ k => reqOf k
  | _ => None
  end.

(** The arguments are values of their machine types. *)
Definition req_ok (req : InitReq) : Prop := u64_ok (q_User req) /\ i64_ok (q_Size req).

(** A pipeline attempt whose outcome is not recorded yet. *)
Definition live (t : thread) : option (ref * ref) :=
  match t with
  | TPut s w | TFin1 s w _ | TFin2 s w _ _ _ | TFin3 s w _ _ _ => Some (s, w)
  | _ => None
  end.

(** A pipeline whose storage call returned nil, the outcome recorded. *)
Definition succeeded (t : thread) (s : ref) : Prop :=
  exists w, t = TFin4 s w None \/ t = TRet (RPut s w None).

(** The thread has found the session completed. *)
Definition claims (t : thread) (s : ref) : Prop := exists snap, fin t = Some (RComplete (Some s) snap None).

(** The thread ends by forgetting the session. *)
Definition promises (t : thread) (s : ref) : Prop := claims t s \/ fin t = Some (RAbort (Some s) None).

Definition promise_shape (t : thread) (s : ref) : Prop :=
  (exists c r, t = TTerm s c (TRet r)) \/ (exists r, t = TRemove s (TRet r)) \/ (exists r, t = TRet r).

(** ** The invariant *)
Definition winOK (i : Info) (y : sys) : Prop :=
  Size i + ChunkSize i - 1 < 2 ^ 63 -> reachable (ChunkSize i) (Size i) WindowSlots y.

Definition winOf (m : Manager) (s w : ref) : Prop :=
  exists se y, heap m !! s = Some se /\ wins m !! w = Some y /\ winOK (info se) y.

Definition stored (m : Manager) (s : ref) : Prop :=
  exists i t, threads m !! i = Some t /\ succeeded t s.

Definition unreg (m : Manager) (s : ref) : Prop := forall id, byID m !! id <> Some s.

Record good (m : Manager) (t : thread) : Prop := {
  g_pub : forall s, s ∈ pub t -> is_Some (heap m !! s);
  g_win : forall s w, winRef t = Some (s, w) -> winOf m s w;
  g_claims : forall s, claims t s -> stored m s;
  g_cont : forall k, k ∈ conts t -> plain k = true;
  g_req : forall req, reqOf t = Some req -> req_ok req;
  g_promise : forall s, promises t s -> promise_shape t s;
  g_gone : forall s r, t = TRet r -> promises t s -> unreg m s }.

Definition settled (st : State) : Prop := st = StateAborted \/ st = StateFailedPermanent.
Definition running (st : State) : Prop := st = StateReceiving \/ settled st.
Definition errOK (se : Session) : Prop :=
  err se = None <-> state se = StateReceiving \/ state se = StateCompleted.

Definition isReg (t : thread) (s : ref) : Prop := exists key snap, t = TReg s key snap.

Record SInv (m : Manager) : Prop := {
  i_heap : forall s, is_Some (heap m !! s) -> (s < next m)%nat;
  i_wins : forall w, is_Some (wins m !! w) -> (w < next m)%nat;
  i_info : forall s se, heap m !! s = Some se ->
    u64_ok (Creator (info se)) /\ i64_ok (Size (info se)) /\ errOK se;
  i_win : forall s se w, heap m !! s = Some se -> win se = Some w -> winOf m s w;
  i_id : forall id s, byID m !! id = Some s -> exists se, heap m !! s = Some se /\ ID (info se) = id;
  i_key : forall k id, byKey m !! k = Some id ->
    exists s se, byID m !! id = Some s /\ heap m !! s = Some se /\ keyOf (info se) = k;
  i_uniq : forall s1 s2 se1 se2, heap m !! s1 = Some se1 -> heap m !! s2 = Some se2 ->
    ID (info se1) = ID (info se2) -> s1 = s2;
  i_thr : forall i t, threads m !! i = Some t -> good m t;
  i_pend : forall i s key snap, threads m !! i = Some (TReg s key snap) ->
    unreg m s /\ (exists se, heap m !! s = Some se /\ keyOf (info se) = key) /\
    (forall j t, threads m !! j = Some t -> s ∉ pub t) /\
    (forall j t, threads m !! j = Some t -> isReg t s -> j = i);
  i_live : forall i t s w, threads m !! i = Some t -> live t = Some (s, w) ->
    exists se, heap m !! s = Some se /\ win se = Some w /\ running (state se);
  i_live1 : forall i j t t' s w w', threads m !! i = Some t -> threads m !! j = Some t' ->
    live t = Some (s, w) -> live t' = Some (s, w') -> i = j;
  i_recv : forall s se, heap m !! s = Some se -> state se = StateReceiving ->
    exists i t w, threads m !! i = Some t /\ live t = Some (s, w);
  i_comp : forall s se, heap m !! s = Some se -> state se = StateCompleted -> stored m s }.

(** Growth of the store: sessions keep their description, windows move by the
    steps of [Window.v]. *)
Definition wext (ws ws' : gmap ref sys) : Prop :=
  forall w y, ws !! w = Some y -> exists y' es, ws' !! w = Some y' /\ wrun y es = Some y'.

Definition hext (h h' : gmap ref Session) : Prop :=
  forall s se, h !! s = Some se -> exists se', h' !! s = Some se' /\ info se' = info se.

Lemma wrun_app s es es' : wrun s (es ++ es') = (let! s := wrun s es in wrun s es').
Proof. revert s. induction es as [|e es IH]; intros s; cbn; [done|]. destruct (wstep s e); cbn; [apply IH|done]. Qed.

Lemma winOK_run i y es y' : winOK i y -> wrun y es = Some y' -> winOK i y'.
Proof.
  intros H Hr Hb. destruct (H Hb) as (Hb' & w & es0 & Hw & Hr0). split; [done|].
  exists w, (es0 ++ es). split; [done|]. rewrite wrun_app, Hr0. done.
Qed.

Lemma winOf_ext m m' s w : hext (heap m) (heap m') -> wext (wins m) (wins m') -> winOf m s w -> winOf m' s w.
Proof.
  intros Hh Hw (se & y & Hs & Hy & Hok). destruct (Hh s se Hs) as (se' & Hs' & Hi).
  destruct (Hw w y Hy) as (y' & es & Hy' & Hr). exists se', y'. split; [done|]. split; [done|]. rewrite Hi.
  by eapply winOK_run.
Qed.

Lemma good_ext m m' t :
  hext (heap m) (heap m') -> wext (wins m) (wins m') ->
  (forall s, stored m s -> stored m' s) ->
  (forall s r, t = TRet r -> promises t s -> unreg m s -> unreg m' s) ->
  good m t -> good m' t.
Proof.
  intros Hh Hw Hst Hu [G1 G2 G3 G4 G5 G6 G7]. constructor; eauto.
  - intros s Hs. destruct (G1 s Hs) as [se Hse]. destruct (Hh s se Hse) as (? & ? & _). eauto.
  - intros s w Ht. eapply winOf_ext; eauto.
Qed.

(** ** Steps that keep the maps and the pipelines *)
Record frame (m m' : Manager) : Prop := {
  f_id : byID m' = byID m;
  f_key : byKey m' = byKey m;
  f_next : next m' = next m;
  f_thr : threads m' = threads m;
  f_dom : forall s, is_Some (heap m' !! s) -> is_Some (heap m !! s);
  f_heap : forall s se, heap m !! s = Some se -> exists se', heap m' !! s = Some se' /\
    info se' = info se /\ win se' = win se /\ (errOK se -> errOK se') /\
    (state se' = state se \/ settled (state se'));
  f_wdom : forall w, is_Some (wins m' !! w) -> is_Some (wins m !! w);
  f_wins : wext (wins m) (wins m') }.

Lemma wext_refl ws : wext ws ws.
Proof. intros w y H. by exists y, []. Qed.

Lemma frame_hext m m' : frame m m' -> hext (heap m) (heap m').
Proof. intros F s se H. destruct (f_heap _ _ F s se H) as (se' & ? & ? & _). eauto. Qed.

Lemma frame_back m m' s se' : frame m m' -> heap m' !! s = Some se' ->
  exists se, heap m !! s = Some se /\ info se' = info se /\ win se' = win se /\ (errOK se -> errOK se') /\
    (state se' = state se \/ settled (state se')).
Proof.
  intros F H. destruct (f_dom _ _ F s) as [se Hs]; [eauto|]. exists se. split; [done|].
  destruct (f_heap _ _ F s se Hs) as (se2 & H2 & H3). by simplify_eq.
Qed.

Lemma settled_running st : settled st -> running st.
Proof. by right. Qed.

Lemma settled_not st : settled st -> st <> StateReceiving /\ st <> StateCompleted /\ st <> StateFailedRetriable.
Proof. by intros [-> | ->]. Qed.

Lemma SInv_frame m m' : SInv m -> frame m m' -> SInv m'.
Proof.
  intros I F. pose proof (frame_hext _ _ F) as Hh. pose proof (f_wins _ _ F) as Hw.
  assert (Hst : forall s, stored m s -> stored m' s) by (unfold stored; by rewrite (f_thr _ _ F)).
  assert (Hu : forall s, unreg m s -> unreg m' s) by (unfold unreg; by rewrite (f_id _ _ F)).
  constructor; rewrite ?(f_id _ _ F), ?(f_key _ _ F), ?(f_next _ _ F), ?(f_thr _ _ F).
  - intros s H. apply (i_heap _ I), (f_dom _ _ F s H).
  - intros w H. apply (i_wins _ I), (f_wdom _ _ F w H).
  - intros s se' H. destruct (frame_back _ _ _ _ F H) as (se & Hs & Hi & _ & He & _).
    destruct (i_info _ I s se Hs) as (H1 & H2 & H3). rewrite Hi. auto.
  - intros s se' w H Hwn. destruct (frame_back _ _ _ _ F H) as (se & Hs & Hi & Hwi & _).
    eapply winOf_ext; [done..|]. eapply (i_win _ I); [done|]. congruence.
  - intros id s H. destruct (i_id _ I id s H) as (se & Hs & <-).
    destruct (Hh s se Hs) as (se' & Hs' & Hi). exists se'. by rewrite Hi.
  - intros k id H. destruct (i_key _ I k id H) as (s & se & Hid & Hs & <-).
    destruct (Hh s se Hs) as (se' & Hs' & Hi). exists s, se'. by rewrite Hi.
  - intros s1 s2 se1 se2 H1 H2 He.
    destruct (frame_back _ _ _ _ F H1) as (a1 & A1 & B1 & _). destruct (frame_back _ _ _ _ F H2) as (a2 & A2 & B2 & _).
    eapply (i_uniq _ I); [done..|]. congruence.
  - intros i t H. eapply good_ext; [done..| |by apply (i_thr _ I i)]. eauto.
  - intros i s key snap H. destruct (i_pend _ I i s key snap H) as (P1 & (se & Hs & Hk) & P3).
    split; [by apply Hu|]. split; [|done]. destruct (Hh s se Hs) as (se' & Hs' & Hi). exists se'. by rewrite Hi.
  - intros i t s w H Hl. destruct (i_live _ I i t s w H Hl) as (se & Hs & H1 & H2).
    destruct (f_heap _ _ F s se Hs) as (se' & Hs' & _ & H3 & _ & H4). exists se'. split; [done|].
    split; [congruence|]. destruct H4 as [-> | ?]; [done|by apply settled_running].
  - apply (i_live1 _ I).
  - intros s se' H Hr. destruct (frame_back _ _ _ _ F H) as (se & Hs & _ & _ & _ & [E|E]).
    + eapply (i_recv _ I); [done|]. congruence.
    + by apply settled_not in E as (? & _).
  - intros s se' H Hr. destruct (frame_back _ _ _ _ F H) as (se & Hs & _ & _ & _ & [E|E]).
    + apply Hst. eapply (i_comp _ I); [done|]. congruence.
    + by apply settled_not in E as (_ & ? & _).
Qed.

(** Replacing one thread. *)
Lemma stored_set m i t t' s :
  threads m !! i = Some t -> (forall s, succeeded t s -> succeeded t' s) ->
  stored m s -> stored (setThreads m (<[i := t']> (threads m))) s.
Proof.
  intros Hi Hs (j & u & Hj & Hu). pose proof (lookup_lt_Some _ _ _ Hi).
  destruct (decide (j = i)) as [->|Hne].
  - exists i, t'. cbn. rewrite list_lookup_insert_eq by done. simplify_eq. auto.
  - exists j, u. cbn. rewrite list_lookup_insert_ne by done. auto.
Qed.

(** A session that only its Init knows. *)
Definition pendOK (m : Manager) (s : ref) (key : gostr) : Prop :=
  unreg m s /\ (exists se, heap m !! s = Some se /\ keyOf (info se) = key) /\
  forall j t, threads m !! j = Some t -> s ∉ pub t /\ ~ isReg t s.

Lemma SInv_thread m i t t' :
  SInv m -> threads m !! i = Some t -> live t' = live t ->
  (forall s, succeeded t s -> succeeded t' s) ->
  (forall s key snap, t' = TReg s key snap -> pendOK m s key) ->
  (forall s, s ∈ pub t' -> s ∈ pub t \/ exists id, byID m !! id = Some s) ->
  good m t' -> SInv (setThreads m (<[i := t']> (threads m))).
Proof.
  intros I Hi Hl Hs Hr Hp Hg. pose proof (lookup_lt_Some _ _ _ Hi) as Hlt.
  assert (Hst : forall s, stored m s -> stored (setThreads m (<[i := t']> (threads m))) s).
  { intros s. by apply stored_set with t. }
  assert (Hlk : forall j u, (<[i := t']> (threads m)) !! j = Some u ->
    (j = i /\ u = t') \/ (j <> i /\ threads m !! j = Some u)).
  { intros j u [(-> & -> & _)|[? ?]]%list_lookup_insert_Some; [by left|by right]. }
  assert (Hlive : forall j u p, (<[i := t']> (threads m)) !! j = Some u -> live u = Some p ->
    exists v, threads m !! j = Some v /\ live v = Some p).
  { intros j u p [[-> ->]|[_ H]]%Hlk Hu; [|eauto]. exists t. by rewrite <- Hl. }
  constructor; cbn [setThreads heap wins byID byKey next threads]; try apply I.
  - intros j u [[-> ->]|[_ Hj]]%Hlk.
    + eapply good_ext; [| |exact Hst| |exact Hg]; [by intros ? ? ?; eauto|apply wext_refl|done].
    + eapply good_ext; [| |exact Hst| |by apply (i_thr _ I j)]; [by intros ? ? ?; eauto|apply wext_refl|done].
  - intros j s key snap [[-> E]|[Hne Hj]]%Hlk.
    + symmetry in E. destruct (Hr s key snap E) as (P1 & P2 & P3). split; [done|]. split; [done|]. split.
      * intros k u [[-> ->]|[_ Hk]]%Hlk; [|by apply (P3 k)]. rewrite E. apply not_elem_of_nil.
      * intros k u [[-> ->]|[_ Hk]]%Hlk Hu; [done|]. by destruct (P3 k u Hk) as [_ []].
    + destruct (i_pend _ I j s key snap Hj) as (P1 & P2 & P3 & P4). split; [done|]. split; [done|]. split.
      * intros k u [[-> ->]|[_ Hk]]%Hlk; [|by apply (P3 k)]. intros [Hq|[id Hq]]%Hp; [by apply (P3 i t)|by apply (P1 id)].
      * intros k u [[-> ->]|[_ Hk]]%Hlk Hu; [|by apply (P4 k u)]. destruct Hu as (key' & snap' & Hu).
        destruct (Hr s key' snap' Hu) as (_ & _ & Q). destruct (Q j _ Hj) as [_ []]. by exists key, snap.
  - intros j u s w Hj Hu. destruct (Hlive _ _ _ Hj Hu) as (v & Hv & Hlv). by apply (i_live _ I j v).
  - intros j k u u' s w w' Hj Hk Hu Hu'. destruct (Hlive _ _ _ Hj Hu) as (v & Hv & Hlv).
    destruct (Hlive _ _ _ Hk Hu') as (v' & Hv' & Hlv'). by apply (i_live1 _ I j k v v' s w w').
  - intros s se H1 H2. destruct (i_recv _ I s se H1 H2) as (j & u & w & Hj & Hu).
    destruct (decide (j = i)) as [->|Hne].
    + exists i, t', w. rewrite list_lookup_insert_eq by done. split; [done|]. rewrite Hl. congruence.
    + exists j, u, w. by rewrite list_lookup_insert_ne.
  - intros s se H1 H2. apply Hst. by apply (i_comp _ I s se).
Qed.

(** ** The maps *)
Lemma remove_unreg m s se : SInv m -> heap m !! s = Some se -> unreg (remove m se) s.
Proof.
  intros I Hs id. cbn [remove setMaps byID]. intros [Hne H]%lookup_delete_Some.
  destruct (i_id _ I id s H) as (se' & Hs' & Hid). simplify_eq.
Qed.

Lemma SInv_remove m s se : SInv m -> heap m !! s = Some se -> SInv (remove m se).
Proof.
  intros I Hs.
  assert (Hu : forall s, unreg m s -> unreg (remove m se) s).
  { intros s' H id. cbn [remove setMaps byID]. intros [_ H']%lookup_delete_Some. by apply (H id). }
  constructor; cbn [remove setMaps heap wins byID byKey next threads]; try apply I.
  - intros id s' [_ H]%lookup_delete_Some. by apply (i_id _ I).
  - intros k id H. assert (Hk : byKey m !! k = Some id /\ (k = keyOf (info se) -> id <> ID (info se))).
    { case_bool_decide as E.
      - apply lookup_delete_Some in H as [Hne H]. split; [done|]. congruence.
      - split; [done|]. intros -> ->. by apply E. }
    destruct Hk as [Hk Hne]. destruct (i_key _ I k id Hk) as (s' & se' & Hid & Hs' & Hke).
    exists s', se'. split; [|done]. rewrite lookup_delete_ne; [done|]. intros Hie.
    destruct (i_id _ I id s' Hid) as (se2 & Hs2 & Hid2). simplify_eq.
    assert (s' = s) as -> by (eapply (i_uniq _ I); [done..|congruence]). simplify_eq. by apply Hne.
  - intros i t H. eapply good_ext; [..|by apply (i_thr _ I i)].
    + intros ? ? ?. eauto.
    + apply wext_refl.
    + done.
    + eauto.
  - intros i s' key snap H. destruct (i_pend _ I i s' key snap H) as (P1 & P2). split; [by apply Hu|done].
Qed.

Lemma promises_pub r s : promises (TRet r) s -> s ∈ pub (TRet r).
Proof. intros [[snap [= ->]]|[= ->]]; cbn; by apply list_elem_of_singleton. Qed.

(** Registration by Init. *)
Definition register (m : Manager) (s : ref) (se : Session) (key : gostr) : Manager :=
  setMaps m (<[ID (info se) := s]> (byID m)) (<[key := ID (info se)]> (byKey m)).

Lemma SInv_register m i s se key snap :
  SInv m -> threads m !! i = Some (TReg s key snap) -> heap m !! s = Some se ->
  SInv (setThreads (register m s se key) (<[i := TRet (RInit (Some s) snap false None)]> (threads m))).
Proof.
  intros I Hi Hs. destruct (i_pend _ I i s key snap Hi) as (P1 & (se' & Hs' & Hk) & P3 & P4). simplify_eq.
  set (t' := TRet (RInit (Some s) snap false None)). set (m' := setThreads _ _).
  pose proof (lookup_lt_Some _ _ _ Hi) as Hlt.
  assert (Hlk : forall j u, threads m' !! j = Some u -> (j = i /\ u = t') \/ (j <> i /\ threads m !! j = Some u)).
  { intros j u [(-> & -> & _)|[? ?]]%list_lookup_insert_Some; [by left|by right]. }
  assert (Hback : forall j u p, threads m' !! j = Some u -> live u = Some p -> threads m !! j = Some u).
  { intros j u p [[-> ->]|[_ H]]%Hlk Hu; done. }
  assert (Hst : forall s, stored m s -> stored m' s).
  { intros s'. apply (stored_set m i (TReg s (keyOf (info se)) snap)); [done|]. intros ? (w & [?|?]); done. }
  assert (Hu : forall s', s' <> s -> unreg m s' -> unreg m' s').
  { intros s' Hne H id. cbn. intros [[_ ->]|[_ H']]%lookup_insert_Some; [done|]. by apply (H id). }
  assert (Hgood : forall j u, threads m !! j = Some u -> good m' u).
  { intros j u Hj. eapply good_ext; [..|exact Hst| |by apply (i_thr _ I j)].
    - intros ? ? ?. eauto.
    - apply wext_refl.
    - intros s' r -> Hp. apply Hu. intros ->. apply (P3 j _ Hj). by apply promises_pub. }
  constructor; cbn [m' setThreads register setMaps heap wins byID byKey next]; try apply I.
  - intros id s' [[<- ->]|[_ H]]%lookup_insert_Some; [eauto|by apply (i_id _ I)].
  - intros k id [[<- <-]|[Hne H]]%lookup_insert_Some.
    + exists s, se. by rewrite lookup_insert_eq.
    + destruct (i_key _ I k id H) as (s' & se' & Hid & Hs' & Hke). exists s', se'. split; [|done].
      rewrite lookup_insert_ne; [done|]. intros <-. destruct (i_id _ I _ s' Hid) as (se2 & Hs2 & Hid2).
      assert (s' = s) as -> by (eapply (i_uniq _ I); eauto). by apply P1 in Hid.
  - intros j u [[-> ->]|[_ Hj]]%Hlk; [|by apply (Hgood j)].
    constructor; try done.
    + intros s' ->%list_elem_of_singleton. eauto.
    + intros s' [snap' [=]].
    + intros k H. by apply not_elem_of_nil in H.
    + intros s' [[snap' [=]]|[=]].
    + intros s' r _ [[snap' [=]]|[=]].
  - intros j s' key' snap' [[_ [=]]|[Hne Hj]]%Hlk.
    assert (Hss : s' <> s).
    { intros ->. apply Hne. apply (P4 j _ Hj). by exists key', snap'. }
    destruct (i_pend _ I j s' key' snap' Hj) as (Q1 & Q2 & Q3 & Q4).
    split; [by apply Hu|]. split; [done|]. split.
    + intros k u [[-> ->]|[_ Hk]]%Hlk; [|by apply (Q3 k)]. cbn. by rewrite list_elem_of_singleton.
    + intros k u [[-> ->]|[_ Hk]]%Hlk Hu'; [by destruct Hu' as (? & ? & [=])|by apply (Q4 k u)].
  - intros j u s' w Hj Hl. apply (i_live _ I j u); [by eapply Hback|done].
  - intros j k u u' s' w w' Hj Hk Hl Hl'. eapply (i_live1 _ I j k u u' s' w w'); eauto.
  - intros s' se' H1 H2. destruct (i_recv _ I s' se' H1 H2) as (j & u & w & Hj & Hu'). exists j, u, w.
    split; [|done]. cbn. rewrite list_lookup_insert_ne; [done|]. intros ->. by simplify_eq.
  - intros s' se' H1 H2. apply Hst. by apply (i_comp _ I s' se').
Qed.

(** ** Pipelines *)

(** A pipeline is launched for session [s], which has none. *)
Lemma SInv_launch m s se r y n :
  SInv m -> (next m <= r < n)%nat -> (s < n)%nat -> wins m !! r = None ->
  (forall se0, heap m !! s = Some se0 -> info se = info se0 /\ ~ running (state se0)) ->
  (forall s2 se2, heap m !! s2 = Some se2 -> ID (info se2) = ID (info se) -> s2 = s) ->
  u64_ok (Creator (info se)) -> i64_ok (Size (info se)) ->
  state se = StateReceiving -> err se = None -> win se = Some r -> winOK (info se) y ->
  SInv (setThreads (setNext (putSession (putWin m r y) s se) n) (threads m ++ [TPut s r])).
Proof.
  intros I Hr Hsn Hwr Hold Hid Hu Hz Hst He Hw Hok. set (m' := setThreads _ _).
  assert (Hh : hext (heap m) (heap m')).
  { intros s' se' H. cbn. destruct (decide (s' = s)) as [->|Hne].
    - exists se. rewrite lookup_insert_eq. split; [done|]. by apply (Hold se').
    - exists se'. by rewrite lookup_insert_ne. }
  assert (Hwx : wext (wins m) (wins m')).
  { intros w' y' H. exists y', []. split; [|done]. cbn. rewrite lookup_insert_ne; [done|]. congruence. }
  assert (Hlk : forall j u, threads m' !! j = Some u ->
    threads m !! j = Some u \/ (j = length (threads m) /\ u = TPut s r)).
  { intros j u [H|[Hge H]]%lookup_app_Some; [by left|right].
    apply list_lookup_singleton_Some in H as [H <-]. split; [lia|done]. }
  assert (Hst' : forall s, stored m s -> stored m' s).
  { intros s' (j & u & Hj & Hsu). exists j, u. split; [|done]. cbn. by apply lookup_app_l_Some. }
  assert (Hnl : forall j u w, threads m !! j = Some u -> live u = Some (s, w) -> False).
  { intros j u w Hj Hl. destruct (i_live _ I j u s w Hj Hl) as (se0 & Hs0 & _ & Hrun).
    by destruct (Hold se0 Hs0). }
  assert (Hwin : winOf m' s r).
  { exists se, y. cbn. by rewrite !lookup_insert_eq. }
  constructor; cbn [m' setThreads setNext putSession putWin setHeap setWins heap wins byID byKey next].
  - intros s' [se' [[<- <-]|[_ H]]%lookup_insert_Some]; [done|].
    pose proof (i_heap _ I s' ltac:(eauto)). lia.
  - intros w' [y' [[<- <-]|[_ H]]%lookup_insert_Some]; [lia|].
    pose proof (i_wins _ I w' ltac:(eauto)). lia.
  - intros s' se' [[<- <-]|[_ H]]%lookup_insert_Some; [|by apply (i_info _ I s')].
    split; [done|]. split; [done|]. unfold errOK. naive_solver.
  - intros s' se' w' [[<- <-]|[_ H]]%lookup_insert_Some Hw'; [by simplify_eq|].
    eapply winOf_ext; [done..|]. by eapply (i_win _ I).
  - intros id s' H. destruct (i_id _ I id s' H) as (se' & Hs' & <-).
    destruct (Hh s' se' Hs') as (se2 & H2 & Hi). exists se2. by rewrite Hi.
  - intros k id H. destruct (i_key _ I k id H) as (s' & se' & Hid' & Hs' & <-).
    destruct (Hh s' se' Hs') as (se2 & H2 & Hi). exists s', se2. by rewrite Hi.
  - intros s1 s2 se1 se2 [[<- <-]|[_ H1]]%lookup_insert_Some [[<- <-]|[_ H2]]%lookup_insert_Some E.
    + done.
    + symmetry. by apply (Hid s2 se2).
    + by apply (Hid s1 se1).
    + by apply (i_uniq _ I s1 s2 se1 se2).
  - intros j u [Hj|[_ ->]]%Hlk.
    + eapply good_ext; [done..| |by apply (i_thr _ I j)]. done.
    + constructor; try done.
      * intros s' H. by apply not_elem_of_nil in H.
      * by intros s' w' [= <- <-].
      * by intros s' [? [=]].
      * intros k H. by apply not_elem_of_nil in H.
      * by intros s' [[? [=]]|[=]].
  - intros j s' key snap [Hj|[_ [=]]]%Hlk.
    destruct (i_pend _ I j s' key snap Hj) as (P1 & (se' & Hs' & Hk) & P3 & P4).
    split; [done|]. split.
    { destruct (Hh s' se' Hs') as (se2 & H2 & Hi). exists se2. by rewrite Hi. }
    split.
    + intros k u [Hk'|[_ ->]]%Hlk; [by apply (P3 k)|]. apply not_elem_of_nil.
    + intros k u [Hk'|[_ ->]]%Hlk Hu'; [by apply (P4 k u)|]. by destruct Hu' as (? & ? & [=]).
  - intros j u s' w' [Hj|[_ ->]]%Hlk Hl.
    + destruct (i_live _ I j u s' w' Hj Hl) as (se' & Hs' & H1 & H2). exists se'.
      rewrite lookup_insert_ne; [done|]. intros <-. by eapply Hnl.
    + injection Hl as <- <-. exists se. rewrite lookup_insert_eq. split; [done|]. split; [done|]. by left.
  - intros j k u u' s' w w' [Hj|[-> ->]]%Hlk [Hk|[-> ->]]%Hlk Hl Hl'.
    + by apply (i_live1 _ I j k u u' s' w w').
    + injection Hl' as <- <-. exfalso. by eapply Hnl.
    + injection Hl as <- <-. exfalso. by eapply Hnl.
    + done.
  - intros s' se' [[<- <-]|[_ H1]]%lookup_insert_Some H2.
    + exists (length (threads m)), (TPut s r), r. split; [|done]. cbn.
      rewrite lookup_app_r by lia. by rewrite Nat.sub_diag.
    + destruct (i_recv _ I s' se' H1 H2) as (j & u & w & Hj & Hl). exists j, u, w. split; [|done].
      cbn. by apply lookup_app_l_Some.
  - intros s' se' [[<- <-]|[_ H1]]%lookup_insert_Some H2; [congruence|]. apply Hst'. by apply (i_comp _ I s' se').
Qed.

(** What finishAttempt records. *)
Lemma finishAttempt_spec se t w e crcs set :
  running (state se) -> errOK se -> win se = Some w ->
  let se' := finishAttempt se t w e crcs set in
  info se' = info se /\ win se' = None /\ errOK se' /\ state se' <> StateReceiving /\
  (state se' = StateCompleted -> e = None).
Proof.
  intros Hr He Hw. unfold finishAttempt. cbn [touch win]. rewrite Hw, (bool_decide_eq_true_2 (Some w = Some w)) by done.
  destruct e as [e|]; [|cbn; unfold errOK; cbn; naive_solver]. cbn [touch setWin setPrev state err].
  unfold errOK in *. cbn [touch setWin setPrev state err]. destruct Hr as [Hr|Hr].
  - rewrite Hr in *. rewrite bool_decide_eq_true_2 by done. cbn [negb].
    destruct (isPermanentPutError e); cbn; naive_solver.
  - apply settled_not in Hr as (H1 & H2 & _). rewrite bool_decide_eq_false_2 by done. cbn [negb].
    destruct (err se) eqn:Ee; cbn; [|naive_solver]. rewrite Ee. naive_solver.
Qed.

Lemma SInv_finish m i s w e crcs set se :
  SInv m -> threads m !! i = Some (TFin3 s w e crcs set) -> heap m !! s = Some se ->
  SInv (setThreads (putSession m s (finishAttempt se (now m) w e crcs set)) (<[i := TFin4 s w e]> (threads m))).
Proof.
  intros I Hi Hs. set (t' := TFin4 s w e).
  destruct (i_live _ I i _ s w Hi eq_refl) as (se0 & Hs0 & Hw & Hrun). simplify_eq.
  destruct (i_info _ I s se Hs) as (Hu & Hz & He).
  pose proof (finishAttempt_spec se (now m) w e crcs set Hrun He Hw) as (F1 & F2 & F3 & F4 & F5).
  set (se' := finishAttempt _ _ _ _ _ _) in *. set (m' := setThreads _ _).
  pose proof (lookup_lt_Some _ _ _ Hi) as Hlt.
  assert (Hlk : forall j u, threads m' !! j = Some u -> (j = i /\ u = t') \/ (j <> i /\ threads m !! j = Some u)).
  { intros j u [(-> & -> & _)|[? ?]]%list_lookup_insert_Some; [by left|by right]. }
  assert (Hh : hext (heap m) (heap m')).
  { intros s' a H. cbn. destruct (decide (s' = s)) as [->|Hne].
    - exists se'. rewrite lookup_insert_eq. by simplify_eq.
    - exists a. by rewrite lookup_insert_ne. }
  assert (Hst : forall s, stored m s -> stored m' s).
  { intros s'. apply (stored_set m i (TFin3 s w e crcs set)); [done|]. intros ? (? & [?|?]); done. }
  assert (Hl : forall j u p, threads m' !! j = Some u -> live u = Some p ->
    threads m !! j = Some u /\ j <> i).
  { intros j u p [[-> ->]|[? ?]]%Hlk Hl; done. }
  assert (Hne : forall j u s' w', threads m' !! j = Some u -> live u = Some (s', w') -> s' <> s).
  { intros j u s' w' Hj Hlu ->. destruct (Hl _ _ _ Hj Hlu) as [Hj' Hji]. apply Hji.
    by apply (i_live1 _ I j i u (TFin3 s w e crcs set) s w' w). }
  constructor; cbn [m' setThreads putSession setHeap heap wins byID byKey next]; try apply I.
  - intros s' [a [[<- <-]|[_ H]]%lookup_insert_Some]; apply (i_heap _ I); eauto.
  - intros s' a [[<- <-]|[_ H]]%lookup_insert_Some; [by rewrite F1|by apply (i_info _ I s')].
  - intros s' a w' [[<- <-]|[_ H]]%lookup_insert_Some Hw'; [congruence|].
    eapply winOf_ext; [done|apply wext_refl|]. by eapply (i_win _ I).
  - intros id s' H. destruct (i_id _ I id s' H) as (a & Hs' & <-).
    destruct (Hh s' a Hs') as (b & H2 & Hi2). exists b. by rewrite Hi2.
  - intros k id H. destruct (i_key _ I k id H) as (s' & a & Hid' & Hs' & <-).
    destruct (Hh s' a Hs') as (b & H2 & Hi2). exists s', b. by rewrite Hi2.
  - intros s1 s2 a b [[<- <-]|[_ H1]]%lookup_insert_Some [[<- <-]|[_ H2]]%lookup_insert_Some E;
      rewrite ?F1 in E; [done|by eapply (i_uniq _ I)..].
  - intros j u [[-> ->]|[_ Hj]]%Hlk.
    + constructor; try done.
      * intros s' H. by apply not_elem_of_nil in H.
      * by intros s' [? [=]].
      * intros k H. by apply not_elem_of_nil in H.
      * by intros s' [[? [=]]|[=]].
    + eapply good_ext; [done|apply wext_refl|done| |by apply (i_thr _ I j)]. done.
  - intros j s' key snap [[_ [=]]|[_ Hj]]%Hlk.
    destruct (i_pend _ I j s' key snap Hj) as (P1 & (a & Hs' & Hk) & P3 & P4). split; [done|]. split.
    { destruct (Hh s' a Hs') as (b & H2 & Hi2). exists b. by rewrite Hi2. }
    split.
    + intros k u [[-> ->]|[_ Hk']]%Hlk; [apply not_elem_of_nil|by apply (P3 k)].
    + intros k u [[-> ->]|[_ Hk']]%Hlk Hu'; [by destruct Hu' as (? & ? & [=])|by apply (P4 k u)].
  - intros j u s' w' Hj Hlu. pose proof (Hne _ _ _ _ Hj Hlu). destruct (Hl _ _ _ Hj Hlu) as [Hj' _].
    destruct (i_live _ I j u s' w' Hj' Hlu) as (a & Ha & H1). exists a. by rewrite lookup_insert_ne.
  - intros j k u u' s' w1 w2 Hj Hk Hlu Hlu'. destruct (Hl _ _ _ Hj Hlu), (Hl _ _ _ Hk Hlu').
    by apply (i_live1 _ I j k u u' s' w1 w2).
  - intros s' a [[<- <-]|[Hss H1]]%lookup_insert_Some H2; [done|].
    destruct (i_recv _ I s' a H1 H2) as (j & u & w' & Hj & Hlu). exists j, u, w'. split; [|done]. cbn.
    rewrite list_lookup_insert_ne; [done|]. intros <-. simplify_eq. cbn in Hlu. congruence.
  - intros s' a [[<- <-]|[_ H1]]%lookup_insert_Some H2; [|apply Hst; by apply (i_comp _ I s' a)].
    exists i, t'. cbn. rewrite list_lookup_insert_eq by done. split; [done|]. exists w. left.
    unfold t'. by rewrite (F5 H2).
Qed.

(** ** The cases of a step *)
Lemma frame_refl m : frame m m.
Proof. constructor; try done; [|apply wext_refl]. intros s se H. exists se. eauto 10. Qed.

Lemma frame_trans m1 m2 m3 : frame m1 m2 -> frame m2 m3 -> frame m1 m3.
Proof.
  intros F G. constructor.
  1-4: etransitivity; [apply G|apply F].
  - intros s H. by apply (f_dom _ _ F), (f_dom _ _ G).
  - intros s se H. destruct (f_heap _ _ F s se H) as (a & A1 & A2 & A3 & A4 & A5).
    destruct (f_heap _ _ G s a A1) as (b & B1 & B2 & B3 & B4 & B5). exists b.
    split; [done|]. split; [congruence|]. split; [congruence|]. split; [auto|].
    destruct B5 as [-> |?]; [done|by right].
  - intros w H. by apply (f_wdom _ _ F), (f_wdom _ _ G).
  - intros w y H. destruct (f_wins _ _ F w y H) as (y1 & es1 & H1 & R1).
    destruct (f_wins _ _ G w y1 H1) as (y2 & es2 & H2 & R2). exists y2, (es1 ++ es2).
    split; [done|]. by rewrite wrun_app, R1.
Qed.

Lemma frame_session m s se se' :
  heap m !! s = Some se -> info se' = info se -> win se' = win se -> (errOK se -> errOK se') ->
  (state se' = state se \/ settled (state se')) -> frame m (putSession m s se').
Proof.
  intros Hs H1 H2 H3 H4. constructor; try done; cbn [putSession setHeap heap wins]; [|intros s' a H|apply wext_refl].
  - intros s' [a [[<- _]|[_ H]]%lookup_insert_Some]; eauto.
  - destruct (decide (s' = s)) as [->|Hne].
    + exists se'. rewrite lookup_insert_eq. by simplify_eq.
    + exists a. rewrite lookup_insert_ne by done. eauto 10.
Qed.

Lemma frame_win m w y e y' :
  wins m !! w = Some y -> wstep y e = Some y' -> frame m (putWin m w y').
Proof.
  intros Hw He. constructor; try done; cbn [putWin setWins heap wins].
  - intros s se H. exists se. eauto 10.
  - intros w' [a [[<- _]|[_ H]]%lookup_insert_Some]; eauto.
  - intros w' a H. destruct (decide (w' = w)) as [->|Hne].
    + exists y', [e]. rewrite lookup_insert_eq. split; [done|]. simplify_eq. cbn. by rewrite He.
    + exists a, []. by rewrite lookup_insert_ne.
Qed.

(** Changes outside the sessions, the windows and the maps. *)
Lemma frame_other m m' :
  byID m' = byID m -> byKey m' = byKey m -> next m' = next m -> threads m' = threads m ->
  heap m' = heap m -> wins m' = wins m -> frame m m'.
Proof.
  intros ? ? ? ? Hh Hw. constructor; try done; rewrite ?Hh, ?Hw; try done; [|apply wext_refl].
  intros s se Hs. exists se. eauto 10.
Qed.

Lemma frame_kill m se : frame m (killAttemptLocked m se).
Proof.
  unfold killAttemptLocked. set (m1 := match cancel se with Some _ => _ | None => _ end).
  assert (F : frame m m1) by (unfold m1; destruct (cancel se); [by apply frame_other|apply frame_refl]).
  eapply frame_trans; [exact F|]. destruct (win se) as [w|]; [|apply frame_refl].
  destruct (wins m1 !! w) as [y|] eqn:E; [|apply frame_refl].
  destruct (wstep y _) as [y'|] eqn:E2; [|apply frame_refl]. by eapply frame_win.
Qed.

Lemma frame_terminate m s se cause : heap m !! s = Some se -> frame m (terminate m s se cause).
Proof.
  intros Hs. unfold terminate. case_bool_decide as E; (eapply frame_trans; [|apply frame_kill]);
    eapply frame_session; try done.
  - intros _. unfold errOK. cbn. naive_solver.
  - by right; left.
  - by left.
Qed.

Lemma frame_touch m s se t : heap m !! s = Some se -> frame m (putSession m s (touch se t)).
Proof. intros Hs. eapply frame_session; [done..|by left]. Qed.

Lemma SInv_quiet m m' i t t' :
  SInv m -> threads m !! i = Some t -> frame m m' -> live t' = live t ->
  (forall s, succeeded t s -> succeeded t' s) ->
  (forall s, ~ isReg t' s) ->
  (forall s, s ∈ pub t' -> s ∈ pub t \/ exists id, byID m !! id = Some s) ->
  good m' t' -> SInv (setThreads m' (<[i := t']> (threads m) ++ [])).
Proof.
  intros I Hi F Hl Hs Hr Hp Hg. rewrite app_nil_r, <- (f_thr _ _ F).
  eapply SInv_thread; [by eapply SInv_frame|by rewrite (f_thr _ _ F)|done|done| | |done].
  - intros s key snap ->. exfalso. apply (Hr s). by exists key, snap.
  - by rewrite (f_id _ _ F).
Qed.

Lemma good_intro m t :
  (forall s, s ∈ pub t -> is_Some (heap m !! s)) -> (forall s w, winRef t = Some (s, w) -> winOf m s w) ->
  (forall k, k ∈ conts t -> plain k = true) -> (forall req, reqOf t = Some req -> req_ok req) ->
  (forall s, ~ promises t s) -> good m t.
Proof.
  intros H1 H2 H3 H4 H5. constructor; try done.
  - intros s Hc. destruct (H5 s). by left.
  - intros s Hc. by destruct (H5 s).
  - intros s r _ Hc. by destruct (H5 s).
Qed.

Lemma no_promise t s : fin t = None -> ~ promises t s.
Proof. intros H. unfold promises, claims. rewrite H. naive_solver. Qed.

(** A request that goes on with the sessions it knows. *)
Lemma good_next m t t' :
  good m t -> (forall s, s ∈ pub t' -> is_Some (heap m !! s)) ->
  winRef t' = None \/ winRef t' = winRef t -> conts t' = [] -> reqOf t' = None ->
  (forall s, ~ promises t' s) -> good m t'.
Proof.
  intros G Hp Hw Hc Hr Hn. apply good_intro; [done|..|done].
  - intros s w E. destruct Hw as [Hw|Hw]; [congruence|]. apply (g_win _ _ G). congruence.
  - intros k. rewrite Hc. by intros ?%not_elem_of_nil.
  - by rewrite Hr.
Qed.

Lemma plain_next k : plain k = true -> winRef k = None /\ live k = None /\ forall s, ~ isReg k s.
Proof. destruct k; try done; intros _; (split; [done|split; [done|intros r0 (? & ? & [=])]]). Qed.

(** Into the continuation of a touch. *)
Lemma good_cont m t k :
  good m t -> conts t = k :: conts k -> pub k ⊆ pub t -> reqOf k = reqOf t ->
  (forall s, ~ promises k s) -> good m k.
Proof.
  intros G Hc Hp Hr Hn. apply good_intro; [..|done].
  - intros s Hs. apply (g_pub _ _ G), Hp, Hs.
  - intros s w E. destruct (plain_next k) as (H & _); [|congruence].
    apply (g_cont _ _ G). rewrite Hc. by left.
  - intros k' Hk. apply (g_cont _ _ G). rewrite Hc. by right.
  - intros req. rewrite Hr. apply (g_req _ _ G).
Qed.

Definition keeps (m : Manager) (i : nat) (r : stepRes) : Prop :=
  match r with
  | Some (m', t', ts) => SInv (setThreads m' (<[i := t']> (threads m) ++ ts))
  | None => True
  end.

(** A step from [t] to [t'] with the store [m'], [t'] a request that promises nothing. *)
Lemma keeps_quiet m m' i t t' :
  SInv m -> threads m !! i = Some t -> frame m m' -> live t' = live t ->
  (forall s, ~ succeeded t s) -> (forall s, ~ isReg t' s) ->
  (forall s, s ∈ pub t' -> s ∈ pub t \/ exists id, byID m !! id = Some s) ->
  (forall s w, winRef t' = Some (s, w) -> winOf m' s w) ->
  (forall k, k ∈ conts t' -> plain k = true) -> (forall req, reqOf t' = Some req -> req_ok req) ->
  (forall s, ~ promises t' s) -> keeps m i (Some (m', t', [])).
Proof.
  intros I Hi F Hl Hs Hr Hp Hw Hc Hq Hn. eapply SInv_quiet; try done.
  - intros s H. by apply Hs in H.
  - apply good_intro; try done. intros s H. assert (E : is_Some (heap m !! s)).
    { destruct (Hp s H) as [H1|[id H1]].
      - by apply (g_pub _ _ (i_thr _ I i t Hi)).
      - destruct (i_id _ I id s H1) as (se & ? & _). eauto. }
    destruct E as [se E]. destruct (f_heap _ _ F s se E) as (se' & ? & _). eauto.
Qed.

Ltac no_elem := let H := fresh in intros ? H; exfalso; revert H; apply not_elem_of_nil.
Ltac not_succ := let w := fresh in intros ? (w & [[=]|[=]]).
Ltac not_reg := intros ? (? & ? & [=]).
Ltac not_prom := first [ intros ?; apply no_promise; reflexivity | intros ? [[? [=]]|[=]] ].
Ltac same_pub := let H := fresh in intros ? H; left; exact H.

(** The remaining conditions of a thread whose next state knows the same session. *)
Ltac quiet I Hi :=
  eapply (keeps_quiet _ _ _ _ _ I Hi);
  [try apply frame_refl | reflexivity | not_succ | not_reg | same_pub | done | no_elem | done | not_prom].

Lemma locking_keeps m i s k :
  (forall se, heap m !! s = Some se -> locked se = false -> keeps m i (k se)) -> keeps m i (locking m s k).
Proof.
  intros H. unfold locking. destruct (heap m !! s) as [se|] eqn:E; cbn; [|done].
  destruct (locked se) eqn:El; [done|]. by apply H.
Qed.

Lemma snap_keeps m i s k x : SInv m -> threads m !! i = Some (TSnap s k) -> keeps m i (runThread m (TSnap s k) x).
Proof.
  intros I Hi. cbn [runThread]. apply locking_keeps. intros se Hs Hl.
  destruct k; quiet I Hi.
Qed.

Lemma touch_keeps m i s k x : SInv m -> threads m !! i = Some (TTouch s k) -> keeps m i (runThread m (TTouch s k) x).
Proof.
  intros I Hi. cbn [runThread]. destruct (heap m !! s) as [se|] eqn:Hs; cbn [mbind option_bind]; [|done].
  pose proof (i_thr _ I i _ Hi) as G.
  assert (Hk : plain k = true) by (apply (g_cont _ _ G); by left).
  destruct (plain_next k Hk) as (K1 & K2 & K3).
  assert (Hn : forall s, ~ promises k s).
  { intros s' Hp. destruct (g_promise _ _ G s' Hp) as [(? & ? & [=])|[(? & [=])|(? & [=])]]. }
  eapply (keeps_quiet _ _ _ _ _ I Hi); try done.
  - by apply frame_touch.
  - not_succ.
  - intros s' H. left. by right.
  - intros s' w. by rewrite K1.
  - intros k' H. apply (g_cont _ _ G). by right.
  - apply (g_req _ _ G).
Qed.

Lemma get_keeps m i u id o x : SInv m -> threads m !! i = Some (TGet u id o) -> keeps m i (runThread m (TGet u id o) x).
Proof.
  intros I Hi. cbn [runThread]. destruct (mlocked m); [done|]. unfold get.
  destruct (byID m !! id) as [s|] eqn:Hid; [|destruct o; quiet I Hi].
  destruct (heap m !! s) as [se|] eqn:Hs; [|destruct o; quiet I Hi].
  destruct (negb _) eqn:Ec; [destruct o; quiet I Hi|].
  assert (Hp : forall s', s' ∈ pub (opNext o s) -> s' = s).
  { intros s'. destruct o; cbn; rewrite ?elem_of_cons, ?elem_of_nil; naive_solver. }
  destruct o as [idx body| | |].
  1-3: eapply (keeps_quiet _ _ _ _ _ I Hi); try done;
    [apply frame_refl|not_succ|not_reg| |by intros k ->%list_elem_of_singleton|not_prom];
    intros s' ->%Hp; eauto.
  eapply (SInv_quiet _ _ _ _ _ I Hi); try done; [apply frame_refl|not_succ|not_reg|intros s' ->%Hp; eauto|].
  constructor; try done.
  - intros s' ->%Hp. eauto.
  - intros s' [? [=]].
  - by intros k ->%list_elem_of_singleton.
  - intros s' [[? [=]]|[= ->]]. left. eauto.
Qed.

Lemma find_keeps m i u p n x : SInv m -> threads m !! i = Some (TFind u p n) -> keeps m i (runThread m (TFind u p n) x).
Proof.
  intros I Hi. cbn [runThread]. destruct (mlocked m); [done|].
  destruct (byKey m !! _); quiet I Hi.
Qed.

Lemma init_keeps m i req x : SInv m -> threads m !! i = Some (TInit req) -> keeps m i (runThread m (TInit req) x).
Proof.
  intros I Hi. pose proof (g_req _ _ (i_thr _ I i _ Hi) req eq_refl) as Hq.
  cbn [runThread]. destruct (mlocked m); [done|]. unfold initLookup.
  destruct (mbind _ _) as [s|] eqn:E.
  2: { eapply (keeps_quiet _ _ _ _ _ I Hi); try done; [apply frame_refl|not_succ|not_reg|no_elem|no_elem|naive_solver|not_prom]. }
  destruct (byKey m !! _) as [id|]; [|done]. cbn in E.
  assert (Hp : forall s' : ref, s' = s -> s' ∈ pub (TInit req) \/ exists id, byID m !! id = Some s') by (intros ? ->; eauto).
  destruct (heap m !! s) as [se|] eqn:Hs.
  2: { eapply (keeps_quiet _ _ _ _ _ I Hi); try done; [apply frame_refl|not_succ|not_reg|no_elem|no_elem|naive_solver|not_prom]. }
  destruct (locked se); [|destruct (_ || _)].
  - eapply (keeps_quiet _ _ _ _ _ I Hi); try done; [by apply frame_other|not_succ|not_reg| |no_elem|not_prom].
    intros s' ->%list_elem_of_singleton. by apply Hp.
  - eapply (keeps_quiet _ _ _ _ _ I Hi); try done; [apply frame_refl|not_succ|not_reg| | |not_prom].
    + intros s' [-> | ->%list_elem_of_singleton]%elem_of_cons; by apply Hp.
    + by intros k ->%list_elem_of_singleton.
  - eapply (keeps_quiet _ _ _ _ _ I Hi); try done; [apply frame_refl|not_succ|not_reg| | |naive_solver|not_prom].
    + intros s' ->%list_elem_of_singleton. by apply Hp.
    + by intros k ->%list_elem_of_singleton.
Qed.

(** terminate: the promise of the thread goes on to remove. *)
Lemma term_keeps m i s c k x : SInv m -> threads m !! i = Some (TTerm s c k) -> keeps m i (runThread m (TTerm s c k) x).
Proof.
  intros I Hi. cbn [runThread]. apply locking_keeps. intros se Hs _.
  pose proof (frame_terminate m s se c Hs) as F. pose proof (i_thr _ I i _ Hi) as G.
  apply (good_ext _ (terminate m s se c)) in G.
  - eapply (SInv_quiet _ _ _ _ _ I Hi); try done; [not_succ|not_reg|same_pub|]. destruct G as [G1 G2 G3 G4 G5 G6 G7].
    constructor; try done. intros s' Hp. destruct (G6 s' Hp) as [(c' & r & E)|[(r & [=])|(r & [=])]].
    injection E as -> -> ->. right. left. eauto.
  - by apply frame_hext.
  - by apply F.
  - intros s' (j & u & Hj & Hu). exists j, u. by rewrite (f_thr _ _ F).
  - done.
Qed.

Lemma remove_keeps m i s k x : SInv m -> threads m !! i = Some (TRemove s k) -> keeps m i (runThread m (TRemove s k) x).
Proof.
  intros I Hi. cbn [runThread]. destruct (mlocked m); [done|].
  destruct (heap m !! s) as [se|] eqn:Hs; cbn [mbind option_bind]; [|done].
  pose proof (SInv_remove m s se I Hs) as I'. pose proof (i_thr _ I' i _ Hi) as [G1 G2 G3 G4 G5 G6 G7].
  destruct (plain_next k) as (K1 & K2 & K3); [apply G4; by left|].
  apply (SInv_quiet (remove m se) _ _ (TRemove s k) k I' Hi); try done; [apply frame_refl|not_succ| |].
  { intros s' H. left. by right. }
  constructor; try done.
  - intros s' H. apply G1. by right.
  - intros s' w. by rewrite K1.
  - intros k' H. apply G4. by right.
  - intros s' Hp. destruct (G6 s' Hp) as [(c' & r & [=])|[(r & E)|(r & [=])]]. injection E as -> ->.
    right. right. eauto.
  - intros s' r -> Hp. destruct (G6 s' Hp) as [(c' & r' & [=])|[(r' & E)|(r' & [=])]]. injection E as -> _.
    by apply remove_unreg.
Qed.

Lemma sweep_elem m d s : s ∈ sweep m d -> exists id, byID m !! id = Some s.
Proof.
  unfold sweep. rewrite list_elem_of_In, List.filter_In, <- list_elem_of_In. intros [H _].
  apply list_elem_of_fmap in H as ([id s'] & -> & H). apply elem_of_map_to_list in H. eauto.
Qed.

Lemma terms_props l :
  let t := foldr (fun s k => TTerm s expired k) (TRet RGC) l in
  pub t = l /\ fin t = Some RGC /\ reqOf t = None /\ (forall k, k ∈ conts t -> plain k = true) /\
  winRef t = None /\ live t = None /\ forall s, ~ isReg t s.
Proof.
  induction l as [|s l (H1 & H2 & H3 & H4 & _)]; cbn.
  - repeat split; try done; [no_elem|not_reg].
  - split; [by f_equal|]. split; [done|]. split; [done|]. split; [|split; [done|split; [done|not_reg]]].
    intros k [-> | Hk]%elem_of_cons; [by destruct l|by apply H4].
Qed.

Lemma sweep_keeps m i d x : SInv m -> threads m !! i = Some (TSweep d) -> keeps m i (runThread m (TSweep d) x).
Proof.
  intros I Hi. cbn [runThread]. destruct (mlocked m); [done|].
  destruct (terms_props (sweep m d)) as (H1 & H2 & H3 & H4 & H5 & H6 & H7).
  eapply (keeps_quiet _ _ _ _ _ I Hi); try done; [apply frame_refl|not_succ|..].
  - intros s. rewrite H1. intros H. right. by eapply sweep_elem.
  - intros s w. by rewrite H5.
  - by rewrite H3.
  - intros s. unfold promises, claims. rewrite H2. naive_solver.
Qed.

(** ** Chunk and Complete *)
Lemma written_props s idx prev r :
  let t := written s idx prev r in
  pub t = [s] /\ fin t = None /\ reqOf t = None /\ conts t = [] /\ winRef t = None /\ live t = None /\
  forall s', ~ isReg t s'.
Proof.
  unfold written. destruct r as [crc|e].
  - destruct prev as [p|]; [destruct (negb _)|]; repeat split; not_reg.
  - destruct (_ || _); repeat split; not_reg.
Qed.

Lemma written_keeps m m' i t s idx prev r :
  SInv m -> threads m !! i = Some t -> frame m m' -> live t = None -> (forall s, ~ succeeded t s) -> pub t = [s] ->
  keeps m i (Some (m', written s idx prev r, [])).
Proof.
  intros I Hi F Hl Hs Hp. destruct (written_props s idx prev r) as (H1 & H2 & H3 & H4 & H5 & H6 & H7).
  eapply (keeps_quiet _ _ _ _ _ I Hi); try done.
  - by rewrite H6.
  - intros s'. rewrite H1, Hp. by left.
  - intros s' w. by rewrite H5.
  - rewrite H4. no_elem.
  - by rewrite H3.
  - intros s'. by apply no_promise.
Qed.

(** A step of the window of a writing thread. *)
Lemma copy_step_keeps m i t s w idx prev y e y' :
  SInv m -> threads m !! i = Some t -> winRef t = Some (s, w) -> live t = None ->
  (forall s, ~ succeeded t s) -> pub t = [s] -> wins m !! w = Some y -> wstep y e = Some y' ->
  keeps m i (Some (putWin m w y', TCopy s w idx prev, [])).
Proof.
  intros I Hi Hw Hl Hs Hp Hy He. pose proof (frame_win m w y e y' Hy He) as F.
  eapply (keeps_quiet _ _ _ _ _ I Hi); try done; [not_reg| | |no_elem|not_prom].
  - intros s'. rewrite Hp. by left.
  - intros s' w' [= <- <-]. eapply winOf_ext; [by apply frame_hext|apply F|].
    by apply (g_win _ _ (i_thr _ I i t Hi)).
Qed.

Lemma write_keeps m i s w idx body prev x :
  SInv m -> threads m !! i = Some (TWrite s w idx body prev) ->
  keeps m i (runThread m (TWrite s w idx body prev) x).
Proof.
  intros I Hi. cbn [runThread]. unfold writeSection.
  destruct (wins m !! w) as [y|] eqn:Hy; cbn [mbind option_bind]; [|done].
  destruct (admit_chunk _ _) as [r| |w'].
  - eapply written_keeps; try done; [apply frame_refl|not_succ].
  - destruct x; try done. eapply written_keeps; try done; [apply frame_refl|not_succ].
  - destruct (wstep y _) as [y'|] eqn:He; cbn [mbind option_bind]; [|done].
    eapply copy_step_keeps; try done. not_succ.
Qed.

Lemma copy_keeps m i s w idx prev x :
  SInv m -> threads m !! i = Some (TCopy s w idx prev) -> keeps m i (runThread m (TCopy s w idx prev) x).
Proof.
  intros I Hi. cbn [runThread]. unfold copySection.
  destruct (wins m !! w) as [y|] eqn:Hy; cbn [mbind option_bind]; [|done].
  destruct (list_find _ _) as [[n j]|]; cbn [mbind option_bind]; [|done].
  destruct x as [| | | |k| |inner| | | |]; try done.
  1-2: destruct (wstep y _) as [y'|] eqn:He; cbn [mbind option_bind]; [|done];
    eapply copy_step_keeps; try done; not_succ.
  destruct (jout j); cbn [mbind option_bind]; [|done].
  destruct (wstep y _) as [y'|] eqn:He; cbn [mbind option_bind]; [|done].
  eapply written_keeps; try done; [by eapply frame_win|not_succ].
Qed.

Lemma mismatch_keeps m i s idx x :
  SInv m -> threads m !! i = Some (TMismatch s idx) -> keeps m i (runThread m (TMismatch s idx) x).
Proof.
  intros I Hi. cbn [runThread]. apply locking_keeps. intros se Hs _. cbv zeta.
  quiet I Hi. eapply frame_trans; [|apply frame_kill]. eapply frame_session; try done.
  - intros _. unfold errOK. cbn. naive_solver.
  - right. by right.
Qed.

Lemma complete_keeps m i s x :
  SInv m -> threads m !! i = Some (TComplete s) -> keeps m i (runThread m (TComplete s) x).
Proof.
  intros I Hi. cbn [runThread]. apply locking_keeps. intros se Hs _. unfold completeSection.
  case_bool_decide.
  - destruct (mbind _ _); [destruct (_ <? _)|]; quiet I Hi.
  - eapply (keeps_quiet _ _ _ _ _ I Hi); try done; [apply frame_refl|not_succ|not_reg| | |not_prom].
    + intros s' [-> | He]%elem_of_cons; left; [by apply list_elem_of_singleton|exact He].
    + by intros k ->%list_elem_of_singleton.
Qed.

Lemma compEnd_keeps m i s x :
  SInv m -> threads m !! i = Some (TCompEnd s) -> keeps m i (runThread m (TCompEnd s) x).
Proof.
  intros I Hi. cbn [runThread]. apply locking_keeps. intros se Hs _. unfold completeEnd.
  case_bool_decide as E; [|quiet I Hi].
  assert (Hp : forall s', s' ∈ [s; s] -> s' = s) by (intros s'; rewrite !elem_of_cons, elem_of_nil; naive_solver).
  eapply (SInv_quiet _ _ _ _ _ I Hi); try done; [apply frame_refl|not_succ|not_reg| |].
  - intros s' ->%Hp. left. by left.
  - constructor; try done.
    + intros s' ->%Hp. eauto.
    + intros s' [snap [= -> _]]. by eapply (i_comp _ I).
    + by intros k ->%list_elem_of_singleton.
    + intros s' [[snap [= -> _]]|[=]]. right. left. eauto.
Qed.

(** ** Starting an attempt *)
Definition started (se : Session) (r : ref) : Session :=
  setStoragePct (setState (setPipe (setWin se (Some r)) (Some r) (Some r)) StateReceiving None) 0.

Lemma start_ok m s se opened inner m1 se1 t :
  startAttemptLocked m s se opened inner = Some (Ok (m1, se1, t)) ->
  exists w, NewWindow true (ChunkSize (info se)) (Size (info se)) WindowSlots = Some (Ok w) /\
    se1 = started se (next m) /\ t = TPut s (next m) /\
    m1 = putSession (setNext (putWin m (next m) (initSys w)) (next m + 1)%nat) s se1.
Proof.
  unfold startAttemptLocked. destruct opened.
  - destruct (NewWindow true _ _ _) as [[w|e]|] eqn:E; [|done..]. intros [= <- <- <-]. eauto.
  - unfold NewWindow. destruct (_ || _); done.
Qed.

Lemma NewWindow_OK i w :
  NewWindow true (ChunkSize i) (Size i) WindowSlots = Some (Ok w) -> winOK i (initSys w).
Proof. intros H Hb. split; [done|]. by exists w, []. Qed.

Lemma fresh_win m : SInv m -> forall r, (next m <= r)%nat -> wins m !! r = None.
Proof.
  intros I r Hr. destruct (wins m !! r) eqn:E; [|done]. pose proof (i_wins _ I r ltac:(eauto)). lia.
Qed.

(** A quiet change of a thread next to a new one. *)
Lemma keeps_spawn m m1 m' i t t' u :
  SInv (setThreads m1 (threads m ++ [u])) -> threads m !! i = Some t ->
  keeps (setThreads m1 (threads m ++ [u])) i (Some (setThreads m' (threads m ++ [u]), t', [])) ->
  keeps m i (Some (m', t', [u])).
Proof.
  intros I Hi. unfold keeps. cbn [setThreads threads]. rewrite app_nil_r.
  rewrite insert_app_l by (by eapply lookup_lt_Some). done.
Qed.

Lemma chunk_go_keeps m i s idx body se :
  SInv m -> threads m !! i = Some (TChunk s idx body) -> heap m !! s = Some se ->
  keeps m i (match prevOf se idx, win se with
    | Some prev, Some w => Some (m, TWrite s w idx body prev, [])
    | Some _, None => Some (m, TPanic, [])
    | None, _ => Some (putSession m s (lockForever se), TPanic, [])
    end).
Proof.
  intros I Hi Hs. destruct (prevOf se idx) as [prev|].
  - destruct (win se) as [w|] eqn:Hw.
    + eapply (keeps_quiet _ _ _ _ _ I Hi); try done; [apply frame_refl|not_succ|not_reg|same_pub| |no_elem|not_prom].
      intros s' w' [= <- <-]. by eapply (i_win _ I).
    + eapply (keeps_quiet _ _ _ _ _ I Hi); try done; [apply frame_refl|not_succ|not_reg|no_elem|no_elem|not_prom].
  - eapply (keeps_quiet _ _ _ _ _ I Hi); try done; [|not_succ|not_reg|no_elem|no_elem|not_prom].
    eapply frame_session; [done..|by left].
Qed.

Lemma restart_launch m s se w :
  SInv m -> heap m !! s = Some se -> state se = StateFailedRetriable ->
  NewWindow true (ChunkSize (info se)) (Size (info se)) WindowSlots = Some (Ok w) ->
  let r := next m in
  SInv (setThreads (putSession (setNext (putWin m r (initSys w)) (r + 1)%nat) s (started se r))
          (threads m ++ [TPut s r])).
Proof.
  intros I Hs Hst Hw r. destruct (i_info _ I s se Hs) as (H1 & H2 & _).
  apply (SInv_launch m s (started se r) r (initSys w) (r + 1)%nat I); try done.
  - unfold r. lia.
  - pose proof (i_heap _ I s ltac:(eauto)). unfold r. lia.
  - by apply fresh_win.
  - intros se0 Hs0. simplify_eq. split; [done|]. rewrite Hst. by intros [?|[?|?]].
  - intros s2 se2 Hs2 E. by eapply (i_uniq _ I).
  - by apply NewWindow_OK.
Qed.

Lemma chunk_keeps m i s idx body x :
  SInv m -> threads m !! i = Some (TChunk s idx body) -> keeps m i (runThread m (TChunk s idx body) x).
Proof.
  intros I Hi. cbn [runThread]. apply locking_keeps. intros se Hs _. unfold chunkSection.
  destruct (state se) eqn:Hst; [by apply chunk_go_keeps|quiet I Hi| |quiet I Hi|quiet I Hi].
  destruct (negb (idx =? 0)); [quiet I Hi|]. destruct x as [| |opened inner| | | | | | | |]; try done.
  destruct (startAttemptLocked m s se opened inner) as [[[[m1 se1] u]|e]|] eqn:E; [|quiet I Hi|].
  - apply start_ok in E as (w & Hw & Hse1 & Hu & Hm1).
    pose proof (restart_launch m s se w I Hs Hst Hw) as IL. cbv zeta in IL. rewrite <- Hse1, <- Hu, <- Hm1 in IL.
    assert (Hi' : threads (setThreads m1 (threads m ++ [u])) !! i = Some (TChunk s idx body))
      by (by apply lookup_app_l_Some).
    assert (Hs' : heap (setThreads m1 (threads m ++ [u])) !! s = Some se1) by (rewrite Hm1; apply lookup_insert_eq).
    pose proof (chunk_go_keeps _ i s idx body se1 IL Hi' Hs') as K.
    destruct (prevOf se1 idx); [destruct (win se1)|]; eapply keeps_spawn; eauto.
  - eapply (keeps_quiet _ _ _ _ _ I Hi); try done; [|not_succ|not_reg|no_elem|no_elem|not_prom].
    eapply frame_session; [done..|by left].
Qed.

(** uuid.NewString never returns the identifier of an earlier session. *)
Definition fresh_input (m : Manager) (x : input) : Prop :=
  match x with
  | INew id _ _ => forall s se, heap m !! s = Some se -> ID (info se) <> id
  | _ => True
  end.

Lemma newInfo_fields req id :
  ID (newInfo req id 0) = id /\ Creator (newInfo req id 0) = q_User req /\ Size (newInfo req id 0) = q_Size req /\
  ChunkSize (newInfo req id 0) = q_ChunkSize req.
Proof. unfold newInfo. by destruct (path_Split _). Qed.

Lemma new_launch m req id w total :
  SInv m -> req_ok req -> (forall s se, heap m !! s = Some se -> ID (info se) <> id) ->
  NewWindow true (q_ChunkSize req) (q_Size req) WindowSlots = Some (Ok w) ->
  let s := next m in let r := (s + 1)%nat in
  SInv (setThreads (setNext (putSession (putWin m r (initSys w)) s
          (setTotal (started (newSession m req id) r) total)) (r + 1)%nat) (threads m ++ [TPut s r])).
Proof.
  intros I [Hu Hz] Hf Hw s r. destruct (newInfo_fields req id) as (N1 & N2 & N3 & N4).
  assert (Hn : heap m !! s = None).
  { destruct (heap m !! s) eqn:E; [|done]. pose proof (i_heap _ I s ltac:(eauto)). unfold s in *. lia. }
  apply SInv_launch; try done; cbn [started newSession setTotal setStoragePct setState setPipe setWin info ID Creator Size].
  - unfold r, s. lia.
  - unfold r, s. lia.
  - apply fresh_win; [done|unfold r, s; lia].
  - intros se0. by rewrite Hn.
  - intros s2 se2 H2 E. exfalso. rewrite N1 in E. by apply (Hf s2 se2).
  - by rewrite N2.
  - by rewrite N3.
  - intros Hb. split; [done|]. exists w, []. split; [|done]. cbn. by rewrite N3, N4.
Qed.

Lemma new_keeps m i req x :
  SInv m -> fresh_input m x -> threads m !! i = Some (TNew req) -> keeps m i (runThread m (TNew req) x).
Proof.
  intros I Hf Hi. cbn [runThread]. unfold newSection. destruct x as [|id opened inner| | | | | | | | |]; try done.
  cbn [fresh_input] in Hf. pose proof (g_req _ _ (i_thr _ I i _ Hi) req eq_refl) as Hq.
  destruct (startAttemptLocked _ _ _ _ _) as [[[[m1 se1] u]|e]|] eqn:E; [|quiet I Hi|quiet I Hi].
  apply start_ok in E as (w & Hw & Hse1 & Hu & Hm1). destruct (newInfo_fields req id) as (N1 & N2 & N3 & N4).
  cbn [newSession info] in Hw. rewrite N3, N4 in Hw. set (total := match _ with Some _ => _ | None => _ end).
  set (se2 := setTotal se1 total). set (t' := TReg _ _ _).
  pose proof (new_launch m req id w total I Hq Hf Hw) as IL. cbv zeta in IL.
  assert (Hm : setThreads (putSession m1 (next m) se2) (threads m ++ [u]) =
    setThreads (setNext (putSession (putWin m (next m + 1)%nat (initSys w)) (next m)
          (setTotal (started (newSession m req id) (next m + 1)%nat) total)) (next m + 1 + 1)%nat)
          (threads m ++ [TPut (next m) (next m + 1)%nat])).
  { rewrite Hm1, Hu. unfold se2. rewrite Hse1. unfold setThreads, putSession, setHeap. cbn -[setTotal started]. by rewrite insert_insert_eq. }
  rewrite <- Hm in IL. unfold keeps. rewrite <- insert_app_l by (by eapply lookup_lt_Some).
  set (M := setThreads (putSession m1 (next m) se2) (threads m ++ [u])) in *.
  change (SInv (setThreads M (<[i := t']> (threads M)))).
  assert (Hnone : heap m !! next m = None).
  { destruct (heap m !! next m) eqn:E; [|done]. pose proof (i_heap _ I (next m) ltac:(eauto)). lia. }
  assert (Hid : byID M = byID m) by (unfold M; by rewrite Hm1).
  assert (Hold : forall j v, threads M !! j = Some v -> threads m !! j = Some v \/ v = TPut (next m) (next m + 1)%nat).
  { intros j v [H|[_ H]]%lookup_app_Some; [by left|]. apply list_lookup_singleton_Some in H as [_ <-]. by right. }
  eapply (SInv_thread M i (TNew req)); [exact IL|by apply lookup_app_l_Some|done|not_succ| |no_elem|].
  - intros s key snap [= <- <- _]. split; [|split].
    + intros id' H. rewrite Hid in H. destruct (i_id _ I id' _ H) as (se & Hs & _). congruence.
    + exists se2. split; [apply lookup_insert_eq|done].
    + intros j v [H| ->]%Hold; [|split; [apply not_elem_of_nil|by intros (? & ? & [=])]]. split.
      * intros Hp. destruct (g_pub _ _ (i_thr _ I j v H) _ Hp). congruence.
      * intros (key' & snap' & ->). destruct (i_pend _ I j _ _ _ H) as (_ & (se & Hs & _) & _). congruence.
  - apply good_intro; [no_elem|done|no_elem|done|not_prom].
Qed.

(** The pipeline goroutine. *)
Lemma pipe_keeps m i t s w m' t' :
  SInv m -> threads m !! i = Some t -> live t = Some (s, w) -> frame m m' -> live t' = Some (s, w) ->
  winRef t = Some (s, w) -> winRef t' = Some (s, w) -> pub t' = [] -> fin t' = None -> reqOf t' = None ->
  conts t' = [] -> (forall s, ~ succeeded t s) -> (forall s, ~ isReg t' s) -> keeps m i (Some (m', t', [])).
Proof.
  intros I Hi Hl F Hl' Hw Hw' Hp Hf Hq Hc Hs Hr.
  eapply (keeps_quiet _ _ _ _ _ I Hi); try done.
  - congruence.
  - rewrite Hp. no_elem.
  - intros s' w'. rewrite Hw'. intros [= <- <-]. eapply winOf_ext; [by apply frame_hext|apply F|].
    by apply (g_win _ _ (i_thr _ I i t Hi)).
  - rewrite Hc. no_elem.
  - by rewrite Hq.
  - intros s'. by apply no_promise.
Qed.

Lemma put_keeps m i s w x :
  SInv m -> threads m !! i = Some (TPut s w) -> keeps m i (runThread m (TPut s w) x).
Proof.
  intros I Hi. cbn [runThread]. unfold putSection.
  destruct x as [| | | | | | | |e|p|e]; try done.
  - eapply pipe_keeps; try done; [apply frame_refl|not_succ|not_reg].
  - destruct (heap m !! s) as [se|] eqn:Hs; cbn [mbind option_bind]; [|done].
    eapply pipe_keeps; try done; [|not_succ|not_reg]. eapply frame_session; [done..|by left].
  - destruct (negb _); [done|]. destruct (wins m !! w) as [y|] eqn:Hy; cbn [mbind option_bind]; [|done].
    destruct (wstep y e) as [y'|] eqn:He; cbn [mbind option_bind]; [|done].
    eapply pipe_keeps; try done; [by eapply frame_win|not_succ|not_reg].
Qed.

Lemma fin_keeps m i t s w e x :
  SInv m -> threads m !! i = Some t ->
  t = TFin1 s w e \/ (exists crcs set, t = TFin2 s w e crcs set) \/ (exists crcs set, t = TFin3 s w e crcs set) \/
  t = TFin4 s w e ->
  keeps m i (runThread m t x).
Proof.
  intros I Hi [-> | [(crcs & set & ->)|[(crcs & set & ->)| ->]]]; cbn [runThread].
  - destruct (wins m !! w) as [y|]; cbn [mbind option_bind]; [|done].
    eapply pipe_keeps; try done; [apply frame_refl|not_succ|not_reg].
  - destruct (wins m !! w) as [y|] eqn:Hy; cbn [mbind option_bind]; [|done].
    destruct (wstep y _) as [y'|] eqn:He; cbn [mbind option_bind]; [|done].
    eapply pipe_keeps; try done; [by eapply frame_win|not_succ|not_reg].
  - apply locking_keeps. intros se Hs _. unfold keeps. rewrite app_nil_r. by apply SInv_finish.
  - eapply (SInv_quiet _ _ _ _ _ I Hi); try done; [by apply frame_other| |not_reg|no_elem|].
    + intros s' (w' & [[= -> -> ->]|[=]]). exists w'. by right.
    + apply good_intro; [no_elem|done|no_elem|done|not_prom].
Qed.

Lemma wait_keeps m i t x :
  SInv m -> threads m !! i = Some t ->
  (exists s e, t = TVerdict s e) \/ (exists s ch e, t = TAwait s ch e) \/ (exists s e, t = TFail s e) \/
  (exists s ch, t = TCompWait s ch) \/ (exists s snap r, t = TChunkErr s snap r) \/ t = TGC ->
  keeps m i (runThread m t x).
Proof.
  intros I Hi [(s & e & ->)|[(s & ch & e & ->)|[(s & e & ->)|[(s & ch & ->)|[(s & snap & r & ->)| ->]]]]];
    cbn [runThread].
  - apply locking_keeps. intros se Hs _. quiet I Hi.
  - assert (K : keeps m i (Some (m, TFail s e, []))) by quiet I Hi.
    destruct x, ch; try done; case_bool_decide; done.
  - apply locking_keeps. intros se Hs _. quiet I Hi.
  - assert (K : keeps m i (Some (m, TComplete s, []))) by quiet I Hi.
    destruct x, ch; try done; try (case_bool_decide; done); quiet I Hi.
  - destruct (heap m !! s); cbn [mbind option_bind]; [|done]. quiet I Hi.
  - quiet I Hi.
Qed.

Lemma run_keeps m i t x :
  SInv m -> fresh_input m x -> threads m !! i = Some t -> keeps m i (runThread m t x).
Proof.
  intros I Hf Hi. destruct t; try done; try (apply wait_keeps; [done..|]; naive_solver).
  - by apply touch_keeps.
  - by apply snap_keeps.
  - by apply get_keeps.
  - by apply find_keeps.
  - by apply init_keeps.
  - by apply term_keeps.
  - by apply remove_keeps.
  - by apply new_keeps.
  - cbn [runThread]. destruct (mlocked m); [done|]. destruct (heap m !! s) as [se|] eqn:Hs; cbn; [|done].
    rewrite app_nil_r. by apply SInv_register.
  - by apply chunk_keeps.
  - by apply write_keeps.
  - by apply copy_keeps.
  - by apply mismatch_keeps.
  - by apply complete_keeps.
  - by apply compEnd_keeps.
  - by apply sweep_keeps.
  - by apply put_keeps.
  - eapply fin_keeps; eauto.
  - eapply fin_keeps; eauto 10.
  - eapply fin_keeps; eauto 10.
  - eapply fin_keeps; eauto 10.
Qed.
