(* ===== verification/SessionSys.v ===== *)
(** Reachable states of the upload sessions, the life cycle of a session and
    the properties of [internal/multipart/session.go]. *)
From S2P Require Import Prelude GoString GoPath Window WindowSpec Session SessionSpec.

(** The environment: identifiers are fresh and arguments are machine integers. *)
Definition label_ok (m : Manager) (l : label) : Prop :=
  match l with
  | LCall (CInit req) => req_ok req
  | LRun _ x => fresh_input m x
  | _ => True
  end.

Inductive steps : Manager -> Manager -> Prop :=
| steps_refl m : steps m m
| steps_step m l m1 m2 : label_ok m l -> step m l = Some m1 -> steps m1 m2 -> steps m m2.

Definition reach (m : Manager) : Prop := exists ttl, steps (newManager ttl) m.

Lemma start_props c :
  pub (start c) = [] /\ winRef (start c) = None /\ live (start c) = None /\ conts (start c) = [] /\
  (forall s, ~ succeeded (start c) s) /\ (forall s, ~ isReg (start c) s) /\ (forall s, ~ promises (start c) s).
Proof.
  destruct c; cbn [start]; try (destruct (_ <=? _); [|destruct (_ <=? _)]);
    (repeat split; [not_succ|not_reg|not_prom]).
Qed.

Lemma start_req c req : reqOf (start c) = Some req -> c = CInit req.
Proof. destruct c; cbn [start]; try done. repeat (destruct (_ <=? _)); cbn; congruence. Qed.

Lemma SInv_call m c : SInv m -> label_ok m (LCall c) -> SInv (setThreads m (threads m ++ [start c])).
Proof.
  intros I Hok. destruct (start_props c) as (H1 & H2 & H3 & H4 & H5 & H6 & H7). set (m' := setThreads _ _).
  assert (Hlk : forall j u, threads m' !! j = Some u -> threads m !! j = Some u \/ u = start c).
  { intros j u [H|[_ H]]%lookup_app_Some; [by left|right]. by apply list_lookup_singleton_Some in H as [_ <-]. }
  assert (Hst : forall s, stored m s -> stored m' s).
  { intros s' (j & u & Hj & Hu). exists j, u. split; [|done]. by apply lookup_app_l_Some. }
  assert (Hl : forall j u p, threads m' !! j = Some u -> live u = Some p -> threads m !! j = Some u).
  { intros j u p [H| ->]%Hlk Hu; [done|congruence]. }
  constructor; try apply I.
  - intros j u [H| ->]%Hlk.
    + eapply good_ext; [..|by apply (i_thr _ I j)]; [by intros ? ? ?; eauto|apply wext_refl|done|done].
    + apply good_intro; [rewrite H1; no_elem|by rewrite H2|rewrite H4; no_elem| |done].
      intros req ->%start_req. exact Hok.
  - intros j s key snap [H|E]%Hlk; [|exfalso; apply (H6 s); by exists key, snap].
    destruct (i_pend _ I j s key snap H) as (P1 & P2 & P3 & P4). split; [done|]. split; [done|]. split.
    + intros k u [Hk| ->]%Hlk; [by apply (P3 k)|]. rewrite H1. apply not_elem_of_nil.
    + intros k u [Hk| ->]%Hlk Hu; [by apply (P4 k u)|by apply H6 in Hu].
  - intros j u s w Hj Hu. apply (i_live _ I j u); [by eapply Hl|done].
  - intros j k u u' s w w' Hj Hk Hu Hu'. eapply (i_live1 _ I j k u u' s w w'); eauto.
  - intros s se Hs Hr. destruct (i_recv _ I s se Hs Hr) as (j & u & w & Hj & Hu). exists j, u, w.
    split; [|done]. by apply lookup_app_l_Some.
  - intros s se Hs Hr. apply Hst. by apply (i_comp _ I s se).
Qed.

Lemma step_inv m l m' : SInv m -> label_ok m l -> step m l = Some m' -> SInv m'.
Proof.
  intros I Hok. destruct l as [c|i x|d]; cbn [step].
  - intros [= <-]. by apply SInv_call.
  - destruct (threads m !! i) as [t|] eqn:Hi; cbn [mbind option_bind]; [|done].
    pose proof (run_keeps m i t x I Hok Hi) as K.
    destruct (runThread m t x) as [[[m1 t1] ts]|]; cbn [mbind option_bind]; [|done]. by intros [= <-].
  - destruct (d <? 0); [done|]. intros [= <-]. eapply SInv_frame; [exact I|]. by apply frame_other.
Qed.

Lemma new_inv ttl : SInv (newManager ttl).
Proof.
  constructor; cbn; try (intros *; rewrite ?lookup_empty; try done; by intros [? ?]).
Qed.

Lemma steps_inv m m' : steps m m' -> SInv m -> SInv m'.
Proof. induction 1; [done|]. eauto using step_inv. Qed.

Lemma reach_SInv m : reach m -> SInv m.
Proof. intros [ttl H]. eapply steps_inv; [done|]. apply new_inv. Qed.

Lemma steps_trans m1 m2 m3 : steps m1 m2 -> steps m2 m3 -> steps m1 m3.
Proof. induction 1; [done|]. eauto using steps. Qed.

(** ** The life cycle of a session *)
Inductive stStep : State -> State -> Prop :=
| ss_same st : stStep st st
| ss_abort : stStep StateReceiving StateAborted
| ss_permanent st : stStep st StateFailedPermanent
| ss_retry : stStep StateReceiving StateFailedRetriable
| ss_restart : stStep StateFailedRetriable StateReceiving
| ss_complete st : running st -> stStep st StateCompleted.

Record evolves (se se' : Session) : Prop := {
  e_info : info se' = info se;
  e_state : stStep (state se) (state se');
  e_locked : locked se = true -> se' = se \/ (state se' = state se /\ locked se' = true) }.

Lemma evolves_refl se : evolves se se.
Proof. constructor; [done|constructor|by left]. Qed.

(** A step changes at most one session. *)
Definition changes (h h' : gmap ref Session) : Prop :=
  h' = h \/ exists s se', h' = <[s := se']> h /\ forall se, h !! s = Some se -> evolves se se'.

Lemma changes_evolves h h' s se : changes h h' -> h !! s = Some se -> exists se', h' !! s = Some se' /\ evolves se se'.
Proof.
  intros [-> | (s0 & se0 & -> & H)] Hs; [eauto using evolves_refl|].
  destruct (decide (s0 = s)) as [->|Hne].
  - exists se0. rewrite lookup_insert_eq. eauto.
  - exists se. rewrite lookup_insert_ne by done. eauto using evolves_refl.
Qed.

Lemma changes_put h s se se' : h !! s = Some se -> evolves se se' -> changes h (<[s := se']> h).
Proof. intros Hs He. right. exists s, se'. split; [done|]. intros ? ?. by simplify_eq. Qed.

Lemma kill_heap m se : heap (killAttemptLocked m se) = heap m.
Proof.
  unfold killAttemptLocked. destruct (cancel se); (destruct (win se) as [w|]; [|done]); cbn [setCancelled wins];
    (destruct (wins m !! w) as [y|]; [|done]); by destruct (wstep y _).
Qed.

Lemma evolves_finish se t w e crcs set :
  running (state se) -> errOK se -> win se = Some w -> locked se = false ->
  evolves se (finishAttempt se t w e crcs set).
Proof.
  intros Hr He Hw Hl. constructor; [by apply finishAttempt_spec| |by rewrite Hl].
  unfold finishAttempt. destruct e as [e|]; [|by constructor]. cbv zeta.
  rewrite (bool_decide_eq_true_2 (win (touch se t) = Some w)) by done.
  cbn [setPrev setWin touch state err]. case_bool_decide as E; cbn [negb].
  - rewrite E. destruct (isPermanentPutError e); constructor.
  - destruct (err se); cbn; constructor.
Qed.

Definition heapStep (m : Manager) (r : stepRes) : Prop :=
  match r with
  | Some (m', _, _) => changes (heap m) (heap m')
  | None => True
  end.

Lemma locking_heap m s k :
  (forall se, heap m !! s = Some se -> locked se = false -> heapStep m (k se)) -> heapStep m (locking m s k).
Proof.
  intros H. unfold locking. destruct (heap m !! s) as [se|] eqn:E; cbn [mbind option_bind]; [|done].
  destruct (locked se) eqn:El; [done|]. by apply H.
Qed.

Lemma chunk_heap m s se idx body x :
  heap m !! s = Some se -> locked se = false -> heapStep m (chunkSection m s se idx body x).
Proof.
  intros Hs Hl. unfold chunkSection.
  assert (Hk : forall e, e = lockForever se -> changes (heap m) (<[s := e]> (heap m))).
  { intros e ->. eapply changes_put; [done|]. constructor; [done|constructor|by rewrite Hl]. }
  destruct (state se) eqn:Hst; try by left.
  - destruct (prevOf se idx); [destruct (win se); by left|]. by apply Hk.
  - destruct (negb _); [by left|]. destruct x as [| |opened inner| | | | | | | |]; try done.
    destruct (startAttemptLocked _ _ _ _ _) as [[[[m1 se1] u]|e]|] eqn:E; [|by left|by apply Hk].
    apply start_ok in E as (w & _ & -> & _ & ->).
    assert (He : forall se2, info se2 = info se -> state se2 = StateReceiving -> evolves se se2).
    { intros se2 H1 H2. constructor; [done|rewrite Hst, H2; constructor|by rewrite Hl]. }
    destruct (prevOf _ _); [destruct (win _)|]; cbn [heapStep putSession setHeap heap setNext putWin setWins];
      rewrite ?insert_insert_eq; (eapply changes_put; [done|by apply He]).
Qed.

Lemma new_heap m req x : SInv m -> heapStep m (newSection m req x).
Proof.
  intros I. unfold newSection. destruct x as [|id opened inner| | | | | | | | |]; try done.
  destruct (startAttemptLocked _ _ _ _ _) as [[[[m1 se1] u]|e]|] eqn:E; [|by left..].
  apply start_ok in E as (w & _ & -> & _ & ->).
  cbn [heapStep putSession setHeap heap setNext putWin setWins]. rewrite insert_insert_eq. right.
  eexists _, _. split; [reflexivity|]. intros se Hs. pose proof (i_heap _ I (next m) ltac:(eauto)). lia.
Qed.

Ltac same_heap := first [left; reflexivity | exact Logic.I].

Lemma runThread_heap m i t x : SInv m -> threads m !! i = Some t -> heapStep m (runThread m t x).
Proof.
  intros I Hi. destruct t as [r| |s k|s k|u id o|u p n|req|s|s c k|s k|req|s key snap|s idx body|s snap b
    |s w idx body prev|s w idx prev|s e|s ch e|s e|s idx|s|s ch|s| |d|s w|s w e|s w e cs st|s w e cs st|s w e];
    cbn [runThread]; try done; try (apply locking_heap; intros se Hs Hl).
  all: try same_heap.
  - destruct (heap m !! s) as [se|] eqn:Hs; cbn [mbind option_bind]; [|done].
    eapply changes_put; [done|]. constructor; [done|constructor|]. by right.
  - destruct (mlocked m); [done|]. same_heap.
  - destruct (mlocked m); [done|]. same_heap.
  - destruct (mlocked m); [done|]. destruct (initLookup m req); same_heap.
  - unfold terminate. case_bool_decide as E; cbn [heapStep]; rewrite kill_heap; eapply changes_put; try done.
    + constructor; [done|rewrite E; constructor|by rewrite Hl].
    + apply evolves_refl.
  - destruct (mlocked m); [done|]. destruct (heap m !! s); same_heap.
  - by apply new_heap.
  - destruct (mlocked m); [done|]. destruct (heap m !! s); same_heap.
  - by apply chunk_heap.
  - destruct (heap m !! s); same_heap.
  - unfold writeSection. destruct (wins m !! w) as [y|]; cbn [mbind option_bind]; [|done].
    destruct (admit_chunk _ _); [same_heap|destruct x; try done; same_heap|]. destruct (wstep y _); same_heap.
  - unfold copySection. destruct (wins m !! w) as [y|]; cbn [mbind option_bind]; [|done].
    destruct (list_find _ _) as [[n j]|]; cbn [mbind option_bind]; [|done].
    destruct x; try done; try (destruct (wstep y _); same_heap).
    destruct (jout j); cbn [mbind option_bind]; [|done]. destruct (wstep y _); same_heap.
  - destruct x, ch; try done; try same_heap; case_bool_decide; same_heap.
  - cbn [heapStep]. rewrite kill_heap. eapply changes_put; [done|].
    constructor; [done|constructor|by rewrite Hl].
  - destruct x, ch; try done; try same_heap; case_bool_decide; same_heap.
  - destruct (mlocked m); [done|]. same_heap.
  - unfold putSection. destruct x as [| | | | | | | |e|p|e]; try done; [same_heap|..].
    + destruct (heap m !! s) as [se|] eqn:Hs; cbn [mbind option_bind]; [|done].
      eapply changes_put; [done|]. constructor; [done|constructor|]. by right.
    + destruct (negb _); [done|]. destruct (wins m !! w) as [y|]; cbn [mbind option_bind]; [|done].
      destruct (wstep y e); same_heap.
  - destruct (wins m !! w); same_heap.
  - destruct (wins m !! w) as [y|]; cbn [mbind option_bind]; [|done]. destruct (wstep y _); same_heap.
  - destruct (i_live _ I i _ s w Hi eq_refl) as (se0 & Hs0 & Hw & Hrun). simplify_eq.
    destruct (i_info _ I s se Hs) as (_ & _ & He). eapply changes_put; [done|]. by apply evolves_finish.
Qed.

Lemma step_evolves m l m' s se :
  SInv m -> step m l = Some m' -> heap m !! s = Some se -> exists se', heap m' !! s = Some se' /\ evolves se se'.
Proof.
  intros I Hst Hs. destruct l as [c|i x|d]; cbn [step] in Hst.
  - injection Hst as <-. exists se. eauto using evolves_refl.
  - destruct (threads m !! i) as [t|] eqn:Hi; cbn [mbind option_bind] in Hst; [|done].
    pose proof (runThread_heap m i t x I Hi) as H.
    destruct (runThread m t x) as [[[m1 t1] ts]|]; cbn [mbind option_bind] in Hst; [|done].
    injection Hst as <-. by apply (changes_evolves (heap m) (heap m1)).
  - destruct (d <? 0); [done|]. injection Hst as <-. exists se. eauto using evolves_refl.
Qed.

(** ** Executions given by their labels *)
Definition label_okb (m : Manager) (l : label) : bool :=
  match l with
  | LCall (CInit req) => (0 <=? q_User req) && (q_User req <? 2 ^ 64) && (- 2 ^ 63 <=? q_Size req) && (q_Size req <? 2 ^ 63)
  | LRun _ (INew id _ _) => forallb (fun p : ref * Session => negb (seqb (ID (info (snd p))) id)) (map_to_list (heap m))
  | _ => true
  end.

Lemma label_okb_ok m l : label_okb m l = true -> label_ok m l.
Proof.
  destruct l as [[req| | | | | |]|i x|d]; try done; cbn.
  - intros H. bool_hyps. split; [unfold u64_ok|unfold i64_ok]; lia.
  - destruct x; try done. cbn. rewrite List.forallb_forall. intros H s se Hs E.
    specialize (H (s, se)). rewrite <- list_elem_of_In, elem_of_map_to_list in H. specialize (H Hs). cbn in H.
    rewrite E, seqb_refl in H. done.
Qed.

Fixpoint runOK (m : Manager) (ls : list label) : option Manager :=
  match ls with
  | [] => Some m
  | l :: ls => if label_okb m l then let! m := step m l in runOK m ls else None
  end.

Lemma runOK_steps m ls m' : runOK m ls = Some m' -> steps m m'.
Proof.
  revert m. induction ls as [|l ls IH]; intros m; cbn; [intros [= <-]; constructor|].
  destruct (label_okb m l) eqn:E; [|done]. destruct (step m l) as [m1|] eqn:Es; [|done]. cbn. intros H.
  econstructor; [by apply label_okb_ok|done|by apply IH].
Qed.

Definition demoAt (n : nat) : Manager := default (newManager 0) (runOK (newManager 0) (take n demoRun)).

Lemma demo_reach (n : nat) m : runOK (newManager 0) (take n demoRun) = Some m -> reach m.
Proof. intros H. exists 0. by eapply runOK_steps. Qed.

(** ** Properties *)

(** A session never has two pipelines. Whatever the interleaving of uploads,
    aborts, expiry and retries, at most one upload to the storage runs per
    session, it reads the current window of the session, and the session is
    then receiving, aborted or failed for good; conversely a receiving session
    always has a pipeline running, whose verdict Complete waits for. *)
Theorem session_single_pipeline m s se :
  reach m -> heap m !! s = Some se ->
  (forall i j t t' w w', threads m !! i = Some t -> threads m !! j = Some t' ->
     live t = Some (s, w) -> live t' = Some (s, w') -> i = j) /\
  (forall i t w, threads m !! i = Some t -> live t = Some (s, w) ->
     win se = Some w /\ state se <> StateCompleted /\ state se <> StateFailedRetriable) /\
  (state se = StateReceiving -> exists i t w, threads m !! i = Some t /\ live t = Some (s, w) /\ win se = Some w).
Proof.
  intros I%reach_SInv Hs. split; [|split].
  - intros i j t t' w w' Hi Hj H H'. by apply (i_live1 _ I i j t t' s w w').
  - intros i t w Hi Hl. destruct (i_live _ I i t s w Hi Hl) as (se' & Hs' & Hw & Hr). simplify_eq.
    split; [done|]. destruct Hr as [-> |(H1 & H2 & H3)%settled_not]; done.
  - intros Hr. destruct (i_recv _ I s se Hs Hr) as (i & t & w & Hi & Hl). exists i, t, w. split; [done|].
    split; [done|]. destruct (i_live _ I i t s w Hi Hl) as (se' & Hs' & Hw & _). congruence.
Qed.

Lemma session_single_pipeline_witness :
  exists m se, heap m !! 0%nat = Some se /\ state se = StateReceiving /\
    exists i t w, threads m !! i = Some t /\ live t = Some (0%nat, w) /\ win se = Some w.
Proof.
  destruct (heap (demoAt 13) !! 0%nat) as [se|] eqn:Hs; [|vm_compute in Hs; discriminate].
  exists (demoAt 13), se.
  assert (Hr : state se = StateReceiving) by (vm_compute in Hs; injection Hs as <-; reflexivity).
  split; [exact Hs|]. split; [exact Hr|].
  apply (session_single_pipeline (demoAt 13) 0 se); [|exact Hs|exact Hr].
  apply (demo_reach 13). vm_compute. reflexivity.
Defined.

Lemma unreg_get m s se u :
  SInv m -> heap m !! s = Some se -> unreg m s -> get m u (ID (info se)) = Err ErrSessionNotFound.
Proof.
  intros I Hs Hu. unfold get. destruct (byID m !! ID (info se)) as [s'|] eqn:E; [|done]. exfalso.
  destruct (i_id _ I _ s' E) as (se' & Hs' & Hid). assert (s' = s) as -> by (by eapply (i_uniq _ I)).
  by apply Hu in E.
Qed.

(** C17: the outcome a client is told is true and final. Complete answers success
    only if the storage call of a pipeline of that session returned nil and the
    verdict is recorded; and once Complete has answered success or Abort has
    answered, no request ever finds the session again. *)
Theorem session_outcome m i s se r :
  reach m -> heap m !! s = Some se -> threads m !! i = Some (TRet r) ->
  (forall snap, r = RComplete (Some s) snap None ->
     exists j w, threads m !! j = Some (TFin4 s w None) \/ threads m !! j = Some (TRet (RPut s w None))) /\
  ((exists snap, r = RComplete (Some s) snap None) \/ r = RAbort (Some s) None ->
   forall u, get m u (ID (info se)) = Err ErrSessionNotFound).
Proof.
  intros I%reach_SInv Hs Hi. pose proof (i_thr _ I i _ Hi) as G. split.
  - intros snap ->. destruct (g_claims _ _ G s) as (j & t & Hj & w & Ht); [by exists snap|].
    exists j, w. destruct Ht as [-> | ->]; auto.
  - intros Hr u. apply (unreg_get m s); [done..|]. apply (g_gone _ _ G s r eq_refl).
    destruct Hr as [[snap ->]| ->]; [left; by exists snap|by right].
Qed.

Lemma session_outcome_witness :
  exists m se snap, heap m !! 0%nat = Some se /\ threads m !! 3%nat = Some (TRet (RComplete (Some 0%nat) snap None)) /\
    s_ReceivedBytes snap = 3 /\ get m 7 (ID (info se)) = Err ErrSessionNotFound.
Proof.
  destruct (heap (demoAt 30) !! 0%nat) as [se|] eqn:Hs; [|vm_compute in Hs; discriminate].
  assert (H : exists snap, threads (demoAt 30) !! 3%nat = Some (TRet (RComplete (Some 0%nat) snap None)) /\
    s_ReceivedBytes snap = 3) by (eexists; split; vm_compute; reflexivity).
  destruct H as (snap & Ht & Hb). exists (demoAt 30), se, snap.
  split; [exact Hs|]. split; [exact Ht|]. split; [exact Hb|].
  apply (session_outcome (demoAt 30) 3 0 se (RComplete (Some 0%nat) snap None)).
  - apply (demo_reach 30). vm_compute. reflexivity.
  - exact Hs.
  - exact Ht.
  - left. exists snap. reflexivity.
Defined.

(** A lookup by destination finds only the caller's own upload. The entry for
    (user, path, size) leads to a registered session of exactly that user, path
    and size, which Find then accepts; Init resumes such a session only if it
    failed retriably, or if it is receiving and the two hash sets share a type
    and agree on every shared type. *)
Theorem session_lookup m u p n id :
  reach m -> u64_ok u -> i64_ok n -> byKey m !! sessionKey u p n = Some id ->
  exists s se, get m u id = Ok s /\ heap m !! s = Some se /\
    Creator (info se) = u /\ Path (info se) = p /\ Size (info se) = n /\
    forall req s', q_User req = u -> q_Path req = p -> q_Size req = n -> initLookup m req = FoundResume s' ->
      s' = s /\
      (state se = StateFailedRetriable \/
       (state se = StateReceiving /\
        (exists t, is_Some (Hashes (info se) !! t) /\ is_Some (q_Hashes req !! t)) /\
        forall t a b, Hashes (info se) !! t = Some a -> q_Hashes req !! t = Some b -> a = b)).
Proof.
  intros I%reach_SInv Hu Hn Hk. destruct (i_key _ I _ _ Hk) as (s & se & Hid & Hs & He).
  destruct (i_info _ I s se Hs) as (Hu' & Hn' & _). unfold keyOf in He.
  apply sessionKey_inj in He as (E1 & E2 & E3); [|done..]. exists s, se.
  split; [unfold get; by rewrite Hid, Hs, E1, Z.eqb_refl|]. do 4 (split; [done|]).
  intros req s' <- <- <-. unfold initLookup. rewrite Hk. cbn [mbind option_bind]. rewrite Hid, Hs.
  destruct (locked se); [done|]. destruct (_ || _) eqn:Eb; [|done]. intros [= <-]. split; [done|].
  apply orb_prop in Eb as [Eb|Eb]; bool_hyps; [by left|right].
  match goal with H : hashesQualifyResume _ _ = true |- _ => apply hashesQualifyResume_spec in H as [] end. done.
Qed.

Lemma session_lookup_witness :
  exists m s se, get m 7 "u1" = Ok s /\ heap m !! s = Some se /\
    Creator (info se) = 7 /\ Path (info se) = "/d/f.bin" /\ Size (info se) = 3.
Proof.
  exists (demoAt 13). destruct (session_lookup (demoAt 13) 7 "/d/f.bin" 3 "u1") as (s & se & H1 & H2 & H3 & H4 & H5 & _).
  - apply (demo_reach 13). vm_compute. reflexivity.
  - unfold u64_ok. lia.
  - unfold i64_ok. lia.
  - vm_compute. reflexivity.
  - exists s, se. auto.
Defined.

(** The storage receives the file. The bytes a pipeline has read from the
    window of its session are the beginning of the file, in order, provided the
    chunk bodies accepted into that window are the chunks of a file of the
    announced size. *)
Theorem session_stream m i t s w se y (file : gostr) :
  reach m -> threads m !! i = Some t -> live t = Some (s, w) ->
  heap m !! s = Some se -> wins m !! w = Some y ->
  Size (info se) + ChunkSize (info se) - 1 < 2 ^ 63 -> slen file = Size (info se) ->
  (forall idx body, accepted y !! idx = Some body -> body = chunkOf (ChunkSize (info se)) file idx) ->
  out y = take (Z.to_nat (readPos (Window.win y))) file /\ 0 <= readPos (Window.win y) <= Size (info se).
Proof.
  intros I%reach_SInv Hi Hl Hs Hy Hb Hf Hc. destruct (i_live _ I i t s w Hi Hl) as (se' & Hs' & Hw & _).
  destruct (i_win _ I s se' w Hs' Hw) as (se2 & y2 & H1 & H2 & H3). simplify_eq.
  by eapply reassembles_reachable; [apply H3|..].
Qed.

Lemma session_stream_witness :
  exists m y, wins m !! 1%nat = Some y /\ out y = ("abc" : gostr) /\
    (out y = take (Z.to_nat (readPos (Window.win y))) "abc" /\ 0 <= readPos (Window.win y) <= 3).
Proof.
  destruct (heap (demoAt 20) !! 0%nat) as [se|] eqn:Hs; [|vm_compute in Hs; discriminate].
  destruct (wins (demoAt 20) !! 1%nat) as [y|] eqn:Hy; [|vm_compute in Hy; discriminate].
  exists (demoAt 20), y. split; [exact Hy|].
  assert (Ho : out y = "abc") by (vm_compute in Hy; injection Hy as <-; reflexivity).
  assert (Ha : accepted y = {[ 0 := ("abc" : gostr) ]}) by (vm_compute in Hy; injection Hy as <-; reflexivity).
  assert (Hz : Size (info se) = 3 /\ ChunkSize (info se) = 4)
    by (vm_compute in Hs; injection Hs as <-; split; reflexivity).
  destruct Hz as [Hz1 Hz2]. split; [exact Ho|]. rewrite <- Hz1.
  apply (session_stream (demoAt 20) 1 (TPut 0 1) 0 1 se y "abc").
  - apply (demo_reach 20). vm_compute. reflexivity.
  - vm_compute. reflexivity.
  - reflexivity.
  - exact Hs.
  - exact Hy.
  - lia.
  - rewrite Hz1. reflexivity.
  - intros idx body. rewrite Ha, Hz2. intros H. apply lookup_singleton_Some in H as [<- <-]. vm_compute. reflexivity.
Defined.

Lemma finished_step st st' :
  stStep st st' -> st = StateCompleted \/ settled st -> st' = StateCompleted \/ settled st'.
Proof.
  unfold settled. intros H Hs. inversion H; subst; destruct Hs as [Hs|[Hs|Hs]]; try discriminate; auto.
Qed.

Lemma finished_steps m m' s se :
  steps m m' -> SInv m -> heap m !! s = Some se -> state se = StateCompleted \/ settled (state se) ->
  exists se', heap m' !! s = Some se' /\ info se' = info se /\ (state se' = StateCompleted \/ settled (state se')).
Proof.
  intros H. revert se. induction H as [m|m l m1 m2 Hok Hst Hsteps IH]; intros se I Hs Hf; [eauto|].
  destruct (step_evolves m l m1 s se I Hst Hs) as (se1 & Hs1 & [E1 E2 _]).
  destruct (IH se1) as (se2 & H2 & H3 & H4); [by eapply step_inv|done|by eapply finished_step|].
  exists se2. split; [done|]. split; [congruence|done].
Qed.

(** The life cycle. A session that has completed, was aborted or failed for
    good never receives again, whatever the requests that still hold it do; its
    description never changes; and a single step takes a session only along the
    documented transitions (a retry starts from failed_retriable only). *)
Theorem session_lifecycle m s se :
  reach m -> heap m !! s = Some se ->
  (forall m', steps m m' -> state se = StateCompleted \/ settled (state se) ->
     exists se', heap m' !! s = Some se' /\ info se' = info se /\ (state se' = StateCompleted \/ settled (state se'))) /\
  (forall l m', step m l = Some m' ->
     exists se', heap m' !! s = Some se' /\ info se' = info se /\ stStep (state se) (state se')).
Proof.
  intros I%reach_SInv Hs. split.
  - intros m' Hst Hf. by apply (finished_steps m m' s se).
  - intros l m' Hst. destruct (step_evolves m l m' s se I Hst Hs) as (se' & H1 & [H2 H3 _]). eauto.
Qed.

Lemma session_lifecycle_witness :
  exists m se, heap m !! 0%nat = Some se /\ state se = StateCompleted /\
    forall m', steps m m' -> exists se', heap m' !! 0%nat = Some se' /\ info se' = info se /\
      (state se' = StateCompleted \/ settled (state se')).
Proof.
  destruct (heap (demoAt 30) !! 0%nat) as [se|] eqn:Hs; [|vm_compute in Hs; discriminate].
  assert (Hc : state se = StateCompleted) by (vm_compute in Hs; injection Hs as <-; reflexivity).
  exists (demoAt 30), se. split; [exact Hs|]. split; [exact Hc|]. intros m' Hm'.
  apply (session_lifecycle (demoAt 30) 0 se); [|exact Hs|exact Hm'|left; exact Hc].
  apply (demo_reach 30). vm_compute. reflexivity.
Defined.

Lemma locked_steps m m' s se :
  steps m m' -> SInv m -> heap m !! s = Some se -> locked se = true ->
  exists se', heap m' !! s = Some se' /\ locked se' = true /\ state se' = state se.
Proof.
  intros H. revert se. induction H as [m|m l m1 m2 Hok Hst Hsteps IH]; intros se I Hs Hl; [eauto|].
  destruct (step_evolves m l m1 s se I Hst Hs) as (se1 & Hs1 & [_ _ E3]).
  assert (E : locked se1 = true /\ state se1 = state se) by (destruct (E3 Hl) as [-> |[? ?]]; done).
  destruct E as [E4 E5]. destruct (IH se1) as (se2 & H2 & H3 & H4); [by eapply step_inv|done|done|].
  exists se2. split; [done|]. split; [done|congruence].
Qed.

(** A negative chunk index wedges the session. Chunk does not check the index
    the client sends before it indexes the CRC table, so that on a receiving
    session a negative index panics with the mutex of the session held: from
    then on no section under that mutex runs, the session stays receiving
    whatever happens, and an Init for the same user, path and size blocks with
    the mutex of the manager. *)
Theorem chunk_negative_index m i s idx body se :
  reach m -> threads m !! i = Some (TChunk s idx body) -> heap m !! s = Some se ->
  locked se = false -> state se = StateReceiving -> idx < 0 ->
  exists m1, step m (LRun i INone) = Some m1 /\ threads m1 !! i = Some TPanic /\
    forall m2, steps m1 m2 ->
      (exists se2, heap m2 !! s = Some se2 /\ state se2 = StateReceiving) /\
      (forall k, locking m2 s k = None) /\
      (forall req, (let! id := byKey m2 !! sessionKey (q_User req) (q_Path req) (q_Size req) in byID m2 !! id) = Some s ->
         initLookup m2 req = FoundLocked s).
Proof.
  intros I%reach_SInv Hi Hs Hl Hr Hneg. set (m1 := setThreads (putSession m s (lockForever se)) (<[i := TPanic]> (threads m) ++ [])).
  assert (Hst : step m (LRun i INone) = Some m1).
  { cbn [step]. rewrite Hi. cbn [mbind option_bind runThread]. unfold locking. rewrite Hs. cbn [mbind option_bind].
    rewrite Hl. unfold chunkSection, prevOf. rewrite Hr.
    replace (idx <? Z.of_nat (length (prevSet se))) with true by (symmetry; apply Z.ltb_lt; lia).
    by replace (idx <? 0) with true by (symmetry; apply Z.ltb_lt; lia). }
  exists m1. split; [done|]. split.
  { cbn. rewrite app_nil_r. apply list_lookup_insert_eq. by eapply lookup_lt_Some. }
  intros m2 Hm2. destruct (locked_steps m1 m2 s (lockForever se) Hm2) as (se2 & H1 & H2 & H3).
  - by apply (step_inv m (LRun i INone)).
  - apply lookup_insert_eq.
  - done.
  - split; [exists se2; split; [done|by rewrite H3]|]. split.
    + intros k. unfold locking. rewrite H1. cbn. by rewrite H2.
    + intros req E. unfold initLookup. by rewrite E, H1, H2.
Qed.

Definition wedgeRun : list label :=
  take 4 demoRun ++ [LCall (CChunk 7 "u1" (-1) "x"); LRun 2 INone; LRun 2 INone].
Definition wedgeAt : Manager := default (newManager 0) (runOK (newManager 0) wedgeRun).

Lemma chunk_negative_index_witness :
  exists m1, step wedgeAt (LRun 2 INone) = Some m1 /\ threads m1 !! 2%nat = Some TPanic /\
    forall m2, steps m1 m2 -> forall k, locking m2 0 k = None.
Proof.
  destruct (heap wedgeAt !! 0%nat) as [se|] eqn:Hs; [|vm_compute in Hs; discriminate].
  assert (Hf : locked se = false /\ state se = StateReceiving)
    by (vm_compute in Hs; injection Hs as <-; split; reflexivity).
  destruct (chunk_negative_index wedgeAt 2 0 (-1) "x" se) as (m1 & H1 & H2 & H3).
  - exists 0. apply (runOK_steps _ wedgeRun). vm_compute. reflexivity.
  - vm_compute. reflexivity.
  - exact Hs.
  - apply Hf.
  - apply Hf.
  - lia.
  - exists m1. split; [exact H1|]. split; [exact H2|]. intros m2 Hm2. apply (H3 m2 Hm2).
Defined.
