(* ===== verification/Auth.v ===== *)
(** Access control: the permission bits of [internal/model/user.go], the checks
    of [server/common/check.go] and the search for the nearest meta of
    [internal/op/meta.go]. strings.EqualFold, the regexp2 matcher and the
    database are parameters. *)
From S2P Require Import Prelude GoString GoPath Paths.

(** ** Users *)
Inductive role := GENERAL | GUEST | ADMIN.

Record User := mkUser { userID : Z; Role : role; BasePath : gostr; Permission : Z;
                        PwdHash : gostr; Salt : gostr }.

Definition IsGuest (u : User) : bool := match Role u with GUEST => true | _ => false end.
Definition IsAdmin (u : User) : bool := match Role u with ADMIN => true | _ => false end.

(** (permission >> n) & 1 == 1 on int32. *)
Definition permBit (permission : Z) (n : Z) : bool := Z.land (Z.shiftr permission n) 1 =? 1.

Definition CanSeeHides (permission : Z) : bool := Z.land permission 1 =? 1.
Definition CanAccessWithoutPassword p := permBit p 1.
Definition CanAddOfflineDownloadTasks p := permBit p 2.
Definition CanWriteContent p := permBit p 3.
Definition CanRename p := permBit p 4.
Definition CanMove p := permBit p 5.
Definition CanCopy p := permBit p 6.
Definition CanRemove p := permBit p 7.
Definition CanWebdavRead p := permBit p 8.
Definition CanWebdavManage p := permBit p 9.
Definition CanFTPAccess p := permBit p 10.
Definition CanFTPManage p := permBit p 11.
Definition CanReadArchives p := permBit p 12.
Definition CanDecompress p := permBit p 13.
Definition CanShare p := permBit p 14.
Definition CanCustomizeShareID p := permBit p 15.

Definition permissions : list (Z -> bool) :=
  [CanSeeHides; CanAccessWithoutPassword; CanAddOfflineDownloadTasks; CanWriteContent; CanRename;
   CanMove; CanCopy; CanRemove; CanWebdavRead; CanWebdavManage; CanFTPAccess; CanFTPManage;
   CanReadArchives; CanDecompress; CanShare; CanCustomizeShareID].

Definition JoinPath (u : User) (reqPath : gostr) : res path_err gostr := joinBasePath (BasePath u) reqPath.

(** Passwords: SHA-256 in hexadecimal is a parameter. *)
Inductive pwd_err := EmptyPassword | WrongPassword.

Section Password.
Context (sha256hex : gostr -> gostr).

Definition StaticHashSalt : gostr := "https://github.com/alist-org/alist".
Definition StaticHash (password : gostr) : gostr := sha256hex (password ++ "-" ++ StaticHashSalt).
Definition HashPwd (static salt : gostr) : gostr := sha256hex (static ++ "-" ++ salt).
Definition TwoHashPwd (password salt : gostr) : gostr := HashPwd (StaticHash password) salt.

Definition ValidatePwdStaticHash (u : User) (pwdStaticHash : gostr) : res pwd_err unit :=
  if seqb pwdStaticHash "" then Err EmptyPassword
  else if negb (seqb (PwdHash u) (HashPwd pwdStaticHash (Salt u))) then Err WrongPassword
  else Ok tt.

Definition ValidateRawPassword (u : User) (password : gostr) : res pwd_err unit :=
  ValidatePwdStaticHash u (StaticHash password).

(** SetPassword with the salt random.String(16) drew. *)
Definition SetPassword (u : User) (pwd salt : gostr) : User :=
  mkUser (userID u) (Role u) (BasePath u) (Permission u) (TwoHashPwd pwd salt) salt.
End Password.

(** ** Metas *)
Record Meta := mkMeta {
  mPath : gostr; ReadUsers : list Z; ReadUsersSub : bool; WriteUsers : list Z; WriteUsersSub : bool;
  Password : gostr; PSub : bool; mWrite : bool; WSub : bool; Hide : gostr; HSub : bool }.

Section Checks.
Context (equalFold : gostr -> gostr -> bool).

(** The loop of MetaCoversPath. *)
Fixpoint coversLoop (fuel : nat) (metaPath reqPath : gostr) : bool :=
  match fuel with
  | O => false
  | S f =>
      if seqb reqPath "/" then false
      else let reqPath := path_Dir reqPath in
           if equalFold metaPath reqPath then true else coversLoop f metaPath reqPath
  end.

Definition MetaCoversPath (metaPath reqPath : gostr) (applyToSubFolder : bool) : bool :=
  let metaPath := fixAndCleanPath metaPath in
  let reqPath := fixAndCleanPath reqPath in
  if equalFold metaPath reqPath then true
  else if negb applyToSubFolder then false
  else coversLoop (S (length reqPath)) metaPath reqPath.

Definition restricted (users : list Z) (id : Z) (covers : bool) : bool :=
  negb (length users =? 0)%nat && negb (existsb (Z.eqb id) users) && covers.

Definition CanRead (user : option User) (meta : option Meta) (path : gostr) : bool :=
  match user with
  | None => true
  | Some u => match meta with
              | Some m => negb (restricted (ReadUsers m) (userID u)
                                  (MetaCoversPath (mPath m) path (ReadUsersSub m)))
              | None => true
              end
  end.

Definition CanWrite (user : option User) (meta : option Meta) (path : gostr) : bool :=
  match user with
  | None => true
  | Some u => match meta with
              | Some m => negb (restricted (WriteUsers m) (userID u)
                                  (MetaCoversPath (mPath m) path (WriteUsersSub m)))
              | None => true
              end
  end.

Definition CanWriteContentBypassUserPerms (meta : option Meta) (path : gostr) : bool :=
  match meta with
  | None => false
  | Some m => if negb (mWrite m) then false
              else if pathEqual (mPath m) path then true
              else isSubPath (mPath m) path && WSub m
  end.

(** [matches re s]: [None] when the pattern does not compile (MustCompile
    panics). *)
Context (matches : gostr -> gostr -> option bool).

Fixpoint hiddenBy (patterns : list gostr) (name : gostr) : option bool :=
  match patterns with
  | [] => Some false
  | p :: ps => match matches p name with
               | None => None
               | Some true => Some true
               | Some false => hiddenBy ps name
               end
  end.

Definition newline : ascii := ascii_of_nat 10.

(** CanAccess dereferences the user: it is not called with nil. *)
Definition CanAccess (user : User) (meta : option Meta) (reqPath password : gostr) : option bool :=
  let hidden :=
    match meta with
    | Some m =>
        if negb (CanSeeHides (Permission user)) && negb (seqb (Hide m) "")
           && MetaCoversPath (mPath m) (path_Dir reqPath) (HSub m)
        then hiddenBy (splitByte (Hide m) newline) (path_Base reqPath)
        else Some false
    | None => Some false
    end in
  match hidden with
  | None => None
  | Some hidden => Some (
    if hidden then false
    else if negb (CanRead (Some user) meta reqPath) then false
    else if CanAccessWithoutPassword (Permission user) then true
    else match meta with
         | None => true
         | Some m =>
             if seqb (Password m) "" then true
             else if negb (MetaCoversPath (mPath m) reqPath (PSub m)) then true
             else seqb (Password m) password
         end)
  end.

End Checks.

(** ** Ancestors of a path *)
Lemma coversLoop_spec equalFold fuel m segs :
  Forall clean_seg segs -> (length segs < fuel)%nat ->
  coversLoop equalFold fuel m (mkpath segs) = true <->
  exists p, p `prefix_of` segs /\ p <> segs /\ equalFold m (mkpath p) = true.
Proof.
  revert fuel. induction segs as [|w segs IH] using rev_ind; intros fuel Hg Hf.
  - destruct fuel; [lia|]. cbn. split; [done|]. intros (p & Hp & Hne & _).
    by apply prefix_nil_inv in Hp.
  - destruct fuel as [|fuel]; [lia|]. rewrite length_app in Hf. simpl in Hf.
    apply Forall_app in Hg as [Hs Hw]. apply Forall_cons in Hw as [Hw _].
    assert (Hgs : Forall good_seg segs) by (eapply Forall_impl; [done|]; by intros ? []).
    assert (Hne : seqb (mkpath (segs ++ [w])) "/" = false).
    { apply seqb_false. intros H. injection H as H. apply joinStr_nil in H.
      - by destruct segs.
      - apply Forall_app. split; [done|]. apply Forall_singleton. apply Hw. }
    cbn [coversLoop]. rewrite Hne, path_Dir_snoc by (done || apply Hw).
    assert (Hpre : forall p, p `prefix_of` segs ++ [w] /\ p <> segs ++ [w] <-> p `prefix_of` segs).
    { intros p. split.
      - intros [[t Ht] Hn]. destruct t as [|x t _] using rev_ind; [by rewrite app_nil_r in Ht|].
        rewrite (assoc_L (++)) in Ht. apply app_inj_tail in Ht as [-> _]. by exists t.
      - intros [t ->]. split; [by exists (t ++ [w]); rewrite (assoc_L (++))|].
        intros He. apply (f_equal length) in He. rewrite !length_app in He. simpl in He. lia. }
    destruct (equalFold m (mkpath segs)) eqn:Ee.
    + split; [|done]. intros _. exists segs. split; [by exists [w]|]. split; [|done].
      intros He. apply (f_equal length) in He. rewrite length_app in He. simpl in He. lia.
    + rewrite IH by (done || lia). split.
      * intros (p & Hp & Hn & He). exists p. destruct (proj2 (Hpre p) Hp). done.
      * intros (p & Hp & Hn & He). exists p. split; [by apply Hpre|]. split; [|done]. congruence.
Qed.

Lemma covers_iff equalFold metaPath reqPath sub :
  MetaCoversPath equalFold metaPath reqPath sub = true <->
  exists p, p `prefix_of` norm_segs reqPath /\ (sub = true \/ p = norm_segs reqPath) /\
            equalFold (fixAndCleanPath metaPath) (mkpath p) = true.
Proof.
  unfold MetaCoversPath. rewrite (fixAndCleanPath_mkpath reqPath).
  destruct (equalFold _ (mkpath (norm_segs reqPath))) eqn:Ee.
  { split; [|done]. intros _. exists (norm_segs reqPath). auto. }
  destruct sub; cbn [negb].
  - pose proof (mkpath_length _ (norm_segs_good reqPath)).
    rewrite coversLoop_spec; [|apply norm_segs_clean|lia].
    split; [naive_solver|]. intros (p & Hp & _ & He). exists p. split; [done|]. split; [|done].
    intros ->. congruence.
  - split; [done|]. intros (p & Hp & [?| ->] & He); congruence.
Qed.

(** ** The nearest meta *)
Inductive meta_err := MetaNotFound | MultipleMetas | DbError.

Section Nearest.
Context (equalFold : gostr -> gostr -> bool).
Context (getMetaByPath : gostr -> res meta_err Meta) (getMetaSnapshot : res meta_err (list Meta)).

(** The inner loop: the only meta whose path folds to [path]. *)
Fixpoint matchMeta (metas : list Meta) (path : gostr) (matched : option Meta)
  : res meta_err (option Meta) :=
  match metas with
  | [] => Ok matched
  | m :: ms =>
      if negb (equalFold (fixAndCleanPath (mPath m)) path) then matchMeta ms path matched
      else match matched with
           | Some _ => Err MultipleMetas
           | None => matchMeta ms path (Some m)
           end
  end.

Fixpoint nearestLoop (fuel : nat) (path : gostr) : option (res meta_err Meta) :=
  match fuel with
  | O => None
  | S f =>
      match getMetaByPath (fixAndCleanPath path) with
      | Ok m => Some (Ok m)
      | Err DbError => Some (Err DbError)
      | Err MultipleMetas => Some (Err MultipleMetas)
      | Err MetaNotFound =>
          match getMetaSnapshot with
          | Err e => Some (Err e)
          | Ok metas =>
              match matchMeta metas path None with
              | Err e => Some (Err e)
              | Ok (Some m) => Some (Ok m)
              | Ok None =>
                  if seqb path "/" then Some (Err MetaNotFound)
                  else nearestLoop f (path_Dir path)
              end
          end
      end
  end.

Definition GetNearestMeta (path : gostr) : option (res meta_err Meta) :=
  let path := fixAndCleanPath path in
  nearestLoop (S (length path)) path.

Lemma matchMeta_spec metas path matched :
  match matchMeta metas path matched with
  | Ok None => matched = None /\
      forall m, m ∈ metas -> equalFold (fixAndCleanPath (mPath m)) path = false
  | Ok (Some m) => matched = Some m \/
      (m ∈ metas /\ equalFold (fixAndCleanPath (mPath m)) path = true)
  | Err e => e = MultipleMetas
  end.
Proof.
  revert matched. induction metas as [|x metas IH]; intros matched; cbn [matchMeta].
  - destruct matched; [by left|]. split; [done|]. intros m ?%not_elem_of_nil. done.
  - destruct (equalFold (fixAndCleanPath (mPath x)) path) eqn:Ex; cbn [negb].
    + destruct matched; [done|]. specialize (IH (Some x)).
      destruct (matchMeta metas path (Some x)) as [[m|]|]; [|by destruct IH|done].
      right. destruct IH as [[= <-]|[? ?]]; [by split; [left|]|by split; [right|]].
    + specialize (IH matched). destruct (matchMeta metas path matched) as [[m|]|]; [| |done].
      * destruct IH as [?|[? ?]]; [by left|]. right. by split; [right|].
      * destruct IH as [? IH]. split; [done|]. intros m [->|Hm]%elem_of_cons; [done|by apply IH].
Qed.

(** What the database returns for a path is a meta of that path. *)
Hypothesis db_path : forall p m, getMetaByPath p = Ok m -> equalFold (fixAndCleanPath (mPath m)) p = true.

(** No meta of the snapshot sits on a path between [p], excluded, and [segs]. *)
Definition none_between (p : option (list gostr)) (segs : list gostr) : Prop :=
  forall metas q m, getMetaSnapshot = Ok metas -> q `prefix_of` segs ->
    match p with Some p => p `prefix_of` q /\ p <> q | None => True end ->
    m ∈ metas -> equalFold (fixAndCleanPath (mPath m)) (mkpath q) = false.

Definition nearest_ok (segs : list gostr) (r : res meta_err Meta) : Prop :=
  match r with
  | Ok m => exists p, p `prefix_of` segs /\
      equalFold (fixAndCleanPath (mPath m)) (mkpath p) = true /\ none_between (Some p) segs
  | Err MetaNotFound => none_between None segs \/ getMetaSnapshot = Err MetaNotFound
  | Err _ => True
  end.

Lemma fix_clean segs : Forall clean_seg segs -> fixAndCleanPath (mkpath segs) = mkpath segs.
Proof. intros H. by rewrite fixAndCleanPath_mkpath, norm_segs_mkpath. Qed.

Lemma between_self segs : none_between (Some segs) segs.
Proof.
  intros metas q m _ Hq [Hp Hne] _. exfalso. apply Hne. by apply (anti_symm prefix).
Qed.

Lemma nearestLoop_spec fuel segs :
  Forall clean_seg segs -> (length segs < fuel)%nat ->
  exists r, nearestLoop fuel (mkpath segs) = Some r /\ nearest_ok segs r.
Proof.
  revert fuel. induction segs as [|w segs IH] using rev_ind; intros fuel Hg Hf;
    (destruct fuel as [|fuel]; [lia|]); cbn [nearestLoop]; rewrite fix_clean by done.
  - destruct (getMetaByPath (mkpath [])) as [m|[]] eqn:Em; try by eexists.
    { eexists. split; [done|]. exists []. split; [done|]. split; [by apply db_path|]. apply between_self. }
    destruct getMetaSnapshot as [metas|[]] eqn:Es; try by eexists.
    { pose proof (matchMeta_spec metas (mkpath []) None) as Hm.
      destruct (matchMeta metas (mkpath []) None) as [[m|]|e]; [| |subst e; by eexists].
      - destruct Hm as [?|[Hin Heq]]; [done|]. eexists. split; [done|]. exists [].
        split; [done|]. split; [done|]. apply between_self.
      - destruct Hm as [_ Hm]. eexists. split; [done|]. left. intros metas' q m Hs Hq _ Hin.
        apply prefix_nil_inv in Hq as ->. apply Hm. congruence. }
    eexists. split; [done|]. by right.
  - apply Forall_app in Hg as [Hs Hw]. apply Forall_cons in Hw as [Hw _].
    rewrite length_app in Hf. simpl in Hf.
    assert (Hgs : Forall good_seg segs) by (eapply Forall_impl; [done|]; by intros ? []).
    assert (Hne : seqb (mkpath (segs ++ [w])) "/" = false).
    { apply seqb_false. intros H. injection H as H. apply joinStr_nil in H.
      - by destruct segs.
      - apply Forall_app. split; [done|]. apply Forall_singleton. apply Hw. }
    destruct (getMetaByPath _) as [m|[]] eqn:Em; try by eexists.
    { eexists. split; [done|]. exists (segs ++ [w]). split; [done|]. split; [by apply db_path|].
      apply between_self. }
    destruct getMetaSnapshot as [metas|[]] eqn:Es; try by eexists.
    2: { eexists. split; [done|]. by right. }
    pose proof (matchMeta_spec metas (mkpath (segs ++ [w])) None) as Hm.
    destruct (matchMeta metas _ None) as [[m|]|e]; [| |subst e; by eexists].
    { destruct Hm as [?|[Hin Heq]]; [done|]. eexists. split; [done|]. exists (segs ++ [w]).
      split; [done|]. split; [done|]. apply between_self. }
    destruct Hm as [_ Hm]. rewrite Hne, path_Dir_snoc by (done || apply Hw).
    destruct (IH fuel Hs ltac:(lia)) as (r & Hr & Hok). exists r. split; [done|].
    assert (Hext : forall p, none_between p segs -> none_between p (segs ++ [w])).
    { intros p Hp metas' q m Hs' [t Ht] Hpq Hin. destruct t as [|x t _] using rev_ind.
      - rewrite app_nil_r in Ht. subst q. apply Hm. congruence.
      - rewrite (assoc_L (++)) in Ht. apply app_inj_tail in Ht as [-> _].
        by eapply Hp; [exact Hs'|exists t|..]. }
    destruct r as [m|[]]; [|naive_solver|done|done].
    destruct Hok as (p & Hp & He & Hb). exists p. split; [|by auto].
    destruct Hp as [t ->]. exists (t ++ [w]). by rewrite (assoc_L (++)).
Qed.

Lemma getNearest_spec path :
  exists r, GetNearestMeta path = Some r /\ nearest_ok (norm_segs path) r.
Proof.
  unfold GetNearestMeta. rewrite fixAndCleanPath_mkpath. apply nearestLoop_spec.
  - apply norm_segs_clean.
  - pose proof (mkpath_length _ (norm_segs_good path)). lia.
Qed.
End Nearest.

Lemma permBit_testbit p n : 0 <= n -> permBit p n = Z.testbit p n.
Proof.
  intros Hn. unfold permBit. change 1 with (Z.ones 1) at 1. rewrite Z.land_ones by lia.
  rewrite Z.shiftr_div_pow2 by lia. change (2 ^ 1) with 2.
  rewrite <- Z.testbit_spec' by lia. by destruct (Z.testbit p n).
Qed.

(** ** Properties *)

(** The sixteen permission checks of a user read sixteen different bits of
    the permission word, in the documented order. *)
Theorem permission_bits p :
  map (fun can => can p) permissions = map (Z.testbit p) (map Z.of_nat (seq 0 16)).
Proof.
  assert (H0 : CanSeeHides p = permBit p 0) by (unfold CanSeeHides, permBit; by rewrite Z.shiftr_0_r).
  cbn [map permissions seq]. rewrite H0.
  unfold CanAccessWithoutPassword, CanAddOfflineDownloadTasks, CanWriteContent, CanRename, CanMove, CanCopy,
    CanRemove, CanWebdavRead, CanWebdavManage, CanFTPAccess, CanFTPManage, CanReadArchives, CanDecompress,
    CanShare, CanCustomizeShareID.
  rewrite !permBit_testbit by lia. done.
Qed.

(** GetNearestMeta terminates on every path and returns a meta whose path
    is, up to case folding, the path or one of its ancestors, with no meta of
    the snapshot on a path strictly in between; it answers MetaNotFound only
    when no ancestor has a meta. *)
Theorem getNearestMeta_nearest equalFold getMetaByPath getMetaSnapshot path :
  (forall p m, getMetaByPath p = Ok m -> equalFold (fixAndCleanPath (mPath m)) p = true) ->
  exists r, GetNearestMeta equalFold getMetaByPath getMetaSnapshot path = Some r /\
  match r with
  | Ok m => exists p, p `prefix_of` norm_segs path /\
      equalFold (fixAndCleanPath (mPath m)) (mkpath p) = true /\
      forall metas q m', getMetaSnapshot = Ok metas -> q `prefix_of` norm_segs path ->
        p `prefix_of` q -> p <> q -> m' ∈ metas ->
        equalFold (fixAndCleanPath (mPath m')) (mkpath q) = false
  | Err MetaNotFound =>
      getMetaSnapshot = Err MetaNotFound \/
      forall metas q m', getMetaSnapshot = Ok metas -> q `prefix_of` norm_segs path -> m' ∈ metas ->
        equalFold (fixAndCleanPath (mPath m')) (mkpath q) = false
  | Err _ => True
  end.
Proof.
  intros Hdb. destruct (getNearest_spec equalFold getMetaByPath getMetaSnapshot Hdb path) as (r & Hr & Hok).
  exists r. split; [done|]. destruct r as [m|[]]; [|..]; [| |done|done].
  - destruct Hok as (p & Hp & He & Hb). exists p. split; [done|]. split; [done|].
    intros metas q m' Hs Hq Hpq Hne Hin. by eapply Hb.
  - destruct Hok as [Hb|?]; [right|by left]. intros metas q m' Hs Hq Hin. by eapply Hb.
Qed.

Definition ex_meta : Meta := mkMeta "/Private" [] false [] false "secret" true false false "" false.
Definition ex_db (p : gostr) : res meta_err Meta :=
  if seqb p "/Private" then Ok ex_meta else Err MetaNotFound.

Lemma ex_db_path p m : ex_db p = Ok m -> seqb (fixAndCleanPath (mPath m)) p = true.
Proof.
  unfold ex_db. destruct (seqb p "/Private") eqn:E; [|discriminate].
  intros H. injection H as <-. apply seqb_true in E. subst p. vm_compute. reflexivity.
Defined.

Lemma getNearestMeta_nearest_witness :
  exists r, GetNearestMeta seqb ex_db (Ok [ex_meta]) "\Private/../Private/a//b" = Some r /\ r = Ok ex_meta.
Proof.
  destruct (getNearestMeta_nearest seqb ex_db (Ok [ex_meta]) "\Private/../Private/a//b" ex_db_path)
    as (r & Hr & _).
  assert (Hc : GetNearestMeta seqb ex_db (Ok [ex_meta]) "\Private/../Private/a//b" = Some (Ok ex_meta))
    by (vm_compute; reflexivity).
  exists r. split; [exact Hr|]. rewrite Hc in Hr. injection Hr as <-. reflexivity.
Defined.

(** C30: a password set on a folder for its sub-folders protects every path the
    meta is the nearest one of, however the path is spelled: a user without the
    "access without password" permission gets access only with that password,
    and, when the folder has a list of readers for its sub-folders, only when
    on the list. *)
Theorem access_needs_password equalFold matches getMetaByPath getMetaSnapshot user m path password :
  (forall p m, getMetaByPath p = Ok m -> equalFold (fixAndCleanPath (mPath m)) p = true) ->
  GetNearestMeta equalFold getMetaByPath getMetaSnapshot path = Some (Ok m) ->
  CanAccess equalFold matches user (Some m) path password = Some true ->
  (PSub m = true -> Password m <> [] -> Z.testbit (Permission user) 1 = false -> password = Password m) /\
  (ReadUsersSub m = true -> ReadUsers m <> [] -> userID user ∈ ReadUsers m).
Proof.
  intros Hdb Hn Ha. destruct (getNearest_spec equalFold getMetaByPath getMetaSnapshot Hdb path) as (r & Hr & Hok).
  rewrite Hn in Hr. injection Hr as <-. destruct Hok as (p & Hp & He & _).
  assert (Hcov : MetaCoversPath equalFold (mPath m) path true = true).
  { apply covers_iff. exists p. auto. }
  unfold CanAccess in Ha. destruct (if _ && _ then _ else _) as [[]|]; [done| |done].
  destruct (CanRead equalFold (Some user) (Some m) path) eqn:Er; [|done]. cbn [negb] in Ha. split.
  - intros Hps Hpw Hb.
    assert (Hbit : CanAccessWithoutPassword (Permission user) = false).
    { unfold CanAccessWithoutPassword. by rewrite permBit_testbit. }
    rewrite Hbit, Hps, Hcov in Ha. change [] with (list_ascii_of_string "") in Hpw.
    apply seqb_false in Hpw. rewrite Hpw in Ha. cbn in Ha.
    injection Ha as Ha. apply seqb_true in Ha. done.
  - intros Hrs Hru. cbn [CanRead] in Er. rewrite Hrs, Hcov in Er. unfold restricted in Er.
    rewrite andb_true_r in Er. apply negb_true_iff, andb_false_iff in Er as [Er|Er].
    + apply negb_false_iff, Nat.eqb_eq in Er. by destruct (ReadUsers m).
    + apply negb_false_iff, existsb_exists in Er as (x & Hx & Heq). apply Z.eqb_eq in Heq. subst x.
      by apply list_elem_of_In.
Qed.

Definition ex_user : User := mkUser 7 GENERAL "/" 1 "" "".

Lemma access_needs_password_witness :
  CanAccess seqb (fun _ _ => None) ex_user (Some ex_meta) "/x/../Private/a" "secret" = Some true /\
  ((PSub ex_meta = true -> Password ex_meta <> [] -> Z.testbit (Permission ex_user) 1 = false ->
    ("secret" : gostr) = Password ex_meta) /\
   (ReadUsersSub ex_meta = true -> ReadUsers ex_meta <> [] -> userID ex_user ∈ ReadUsers ex_meta)).
Proof.
  assert (Hc : CanAccess seqb (fun _ _ => None) ex_user (Some ex_meta) "/x/../Private/a" "secret" = Some true)
    by (vm_compute; reflexivity).
  split; [exact Hc|].
  apply (access_needs_password seqb (fun _ _ => None) ex_db (Ok [ex_meta]) ex_user ex_meta
           "/x/../Private/a" "secret" ex_db_path).
  - vm_compute. reflexivity.
  - exact Hc.
Defined.

(** After SetPassword the password is accepted, and another password only
    when its salted hash is the same. *)
Theorem password_roundtrip sha256hex u pwd salt pwd' :
  (forall s, sha256hex s <> []) ->
  ValidateRawPassword sha256hex (SetPassword sha256hex u pwd salt) pwd = Ok tt /\
  (ValidateRawPassword sha256hex (SetPassword sha256hex u pwd salt) pwd' =
     if decide (TwoHashPwd sha256hex pwd' salt = TwoHashPwd sha256hex pwd salt) then Ok tt
     else Err WrongPassword).
Proof.
  intros Hh.
  assert (Hv : forall q, ValidateRawPassword sha256hex (SetPassword sha256hex u pwd salt) q =
    if decide (TwoHashPwd sha256hex q salt = TwoHashPwd sha256hex pwd salt) then Ok tt
    else Err WrongPassword).
  { intros q. unfold ValidateRawPassword, ValidatePwdStaticHash. cbn [PwdHash Salt SetPassword].
    assert (seqb (StaticHash sha256hex q) "" = false) as -> by (apply seqb_false, Hh).
    change (HashPwd sha256hex (StaticHash sha256hex q) salt) with (TwoHashPwd sha256hex q salt).
    destruct (decide _) as [->|Hne]; [by rewrite seqb_refl|].
    destruct (seqb _ _) eqn:E; [|done]. by apply seqb_true in E. }
  split; [|apply Hv]. rewrite Hv. by rewrite decide_True.
Qed.

Lemma password_roundtrip_witness :
  let h (s : gostr) : gostr := "#"%char :: s in
  ValidateRawPassword h (SetPassword h ex_user "pw" "salt") "pw" = Ok tt /\
  ValidateRawPassword h (SetPassword h ex_user "pw" "salt") "px" = Err WrongPassword.
Proof.
  intros h. destruct (password_roundtrip h ex_user "pw" "salt" "px") as [H1 H2].
  - intros s. discriminate.
  - split; [exact H1|]. etransitivity; [exact H2|]. vm_compute. reflexivity.
Defined.
