(* ===== verification/DavHandler.v ===== *)
(** The lock handling of [server/webdav/webdav.go]: confirmLocks, which every
    writing request calls first, and the LOCK and UNLOCK handlers. They are
    written and proved against the interface [LockSystem]; the file system,
    url.Parse, the XML decoder and the metas are parameters. *)
From S2P Require Import Prelude GoString GoPath Paths DavLock DavLockSpec DavLockSys LockSystem DavIf Auth.

(** ** Results *)
Inductive herr :=
| EInvalidIf | EInvalidLockToken | EInvalidDepth | EInvalidTimeout | EPrefixMismatch | EPermission | ELockInfo
| EJoin (e : path_err)
| EFs
| EMeta
| EDav (e : dav_err).

Definition StatusBadRequest : Z := 400.
Definition StatusForbidden : Z := 403.
Definition StatusNotFound : Z := 404.
Definition StatusConflict : Z := 409.
Definition StatusPreconditionFailed : Z := 412.
Definition StatusLocked : Z := 423.
Definition StatusInternalServerError : Z := 500.
Definition StatusNoContent : Z := 204.

Definition failure : Type := Z * herr.

(** The release function confirmLocks returns: the temporary locks with the
    time they were taken, or the locks Confirm holds. *)
Inductive relFn :=
| RelUnlock (now : Z) (srcToken dstToken : gostr)
| RelConfirm (r : Release).

Inductive fs_err := ObjectNotFound | OtherFsErr.

(** parseDepth: 0, 1, infinity (-1) and everything else (-2). *)
Definition infiniteDepth : Z := -1.
Definition invalidDepth : Z := -2.
Definition parseDepth (s : gostr) : Z :=
  if seqb s "0" then 0 else if seqb s "1" then 1 else if seqb s "infinity" then infiniteDepth else invalidDepth.

Definition positiveTokenConditions (conditions : list Condition) : list Condition :=
  List.filter (fun c => negb (seqb (Token c) "") && negb (Not c)) conditions.

Definition hasNegatedTokenCondition (conditions : list Condition) : bool :=
  existsb (fun c => negb (seqb (Token c) "") && Not c) conditions.

Definition stripPrefix (prefix p : gostr) : res failure gostr :=
  if seqb prefix "" then Ok p
  else
    let r := trimPrefix p prefix in
    if (length r <? length p)%nat then Ok r else Err (StatusNotFound, EPrefixMismatch).

Section Handler.
Context {St : Type} `{LS : LockSystem St} {Obj : Type}.
(** The handler's prefix, the request's Host, and the user of its context. *)
Context (prefix host : gostr) (user : option User).
(** url.Parse: the Host and Path of a URL. *)
Context (urlParse : gostr -> option (gostr * gostr)).
(** fs.Get and findETag. *)
Context (fsGet : gostr -> res fs_err Obj) (findETag : gostr -> Obj -> option gostr).

(** [loaded] is the object once fs.Get was called, [None] in it when missing. *)
Fixpoint etagLoop (name : gostr) (conditions : list Condition) (loaded : option (option Obj))
  : res herr bool :=
  match conditions with
  | [] => Ok true
  | c :: conditions =>
      if seqb (ETag c) "" then etagLoop name conditions loaded
      else
        let? obj := match loaded with
                    | Some o => Ok o
                    | None => match fsGet name with
                              | Ok o => Ok (Some o)
                              | Err ObjectNotFound => Ok None
                              | Err OtherFsErr => Err EFs
                              end
                    end in
        let? matches := match obj with
                        | None => Ok false
                        | Some o => match findETag name o with
                                    | Some etag => Ok (seqb etag (ETag c))
                                    | None => Err EFs
                                    end
                        end in
        if negb (if Not c then negb matches else matches) then Ok false
        else etagLoop name conditions (Some obj)
  end.

Definition ifETagConditionsMatch (name : gostr) (conditions : list Condition) : res herr bool :=
  etagLoop name conditions None.

Definition lock (s : St) (now : Z) (root : gostr) : option (St * res failure gostr) :=
  let! (s, r) := ls_Create s now (mkDetails root infiniteTimeout [] true false) in
  Some (s, match r with
           | Ok token => Ok token
           | Err ErrLocked => Err (StatusLocked, EDav ErrLocked)
           | Err e => Err (StatusInternalServerError, EDav e)
           end).

(** confirmLocks without an If header: temporary locks on both resources. *)
Definition tempLocks (s : St) (now : Z) (src dst : gostr) : option (St * res failure relFn) :=
  let! (s, r1) := if seqb src "" then Some (s, Ok []) else lock s now src in
  match r1 with
  | Err f => Some (s, Err f)
  | Ok srcToken =>
      let! (s, r2) := if seqb dst "" then Some (s, Ok []) else lock s now dst in
      match r2 with
      | Err f =>
          if seqb srcToken "" then Some (s, Err f)
          else let! (s, _) := ls_Unlock s now srcToken in Some (s, Err f)
      | Ok dstToken => Some (s, Ok (RelUnlock now srcToken dstToken))
      end
  end.

(** The resource a list of conditions applies to; [None]: the list is skipped. *)
Definition listResource (src tag : gostr) : option (res failure gostr) :=
  if seqb tag "" then Some (Ok src)
  else
    let! (h, p) := urlParse tag in
    if negb (seqb h host) then None
    else Some (
      let? p := stripPrefix prefix p in
      match user with
      | None => Ok p
      | Some u => match JoinPath u p with
                  | Ok p => Ok p
                  | Err e => Err (StatusForbidden, EJoin e)
                  end
      end).

(** The loop over the lists: an answer, or the two flags. [clock i] is the time
    read for list [i]. *)
Fixpoint listLoop (clock : nat -> Z) (s : St) (src dst : gostr) (lists : list ifList) (i : nat)
    (etagMismatch negated : bool) : option (St * (res failure relFn + bool * bool)) :=
  match lists with
  | [] => Some (s, inr (etagMismatch, negated))
  | l :: lists =>
      match listResource src (resourceTag l) with
      | None => listLoop clock s src dst lists (S i) etagMismatch negated
      | Some (Err f) => Some (s, inl (Err f))
      | Some (Ok lsrc) =>
          match ifETagConditionsMatch lsrc (conditions l) with
          | Err e => Some (s, inl (Err (StatusInternalServerError, e)))
          | Ok false => listLoop clock s src dst lists (S i) true negated
          | Ok true =>
              let negated := negated || hasNegatedTokenCondition (conditions l) in
              let! (s, r) := ls_Confirm s (clock i) lsrc dst (positiveTokenConditions (conditions l)) in
              match r with
              | Err ErrConfirmationFailed => listLoop clock s src dst lists (S i) etagMismatch negated
              | Err e => Some (s, inl (Err (StatusInternalServerError, EDav e)))
              | Ok rel => Some (s, inl (Ok (RelConfirm rel)))
              end
          end
      end
  end.

(** A corrupt token paired with a negated condition: report a lock conflict. *)
Fixpoint probeLoop (now : Z) (s : St) (names : list gostr) : option (St * failure) :=
  match names with
  | [] => Some (s, (StatusPreconditionFailed, EDav ErrLocked))
  | name :: names =>
      if seqb name "" then probeLoop now s names
      else
        let! (s, r) := lock s now name in
        match r with
        | Err f => Some (s, f)
        | Ok token =>
            let! (s, u) := ls_Unlock s now token in
            match u with
            | Err e => Some (s, (StatusInternalServerError, EDav e))
            | Ok _ => probeLoop now s names
            end
        end
  end.

(** [None]: the code panics or the parser runs out of fuel. *)
Definition confirmLocks (clock : nat -> Z) (s : St) (hdr src dst : gostr) : option (St * res failure relFn) :=
  if seqb hdr "" then tempLocks s (clock 0%nat) src dst
  else
    let! ih := parseIfHeader hdr in
    match ih with
    | None => Some (s, Err (StatusBadRequest, EInvalidIf))
    | Some lists =>
        let! (s, out) := listLoop clock s src dst lists 0 false false in
        match out with
        | inl r => Some (s, r)
        | inr (etagMismatch, hasNegatedToken) =>
            if etagMismatch || negb hasNegatedToken then Some (s, Err (StatusPreconditionFailed, EDav ErrLocked))
            else let! (s, f) := probeLoop (clock (length lists)) s [src; dst] in Some (s, Err f)
        end
    end.

Definition callRelease (s : St) (r : relFn) : option St :=
  match r with
  | RelUnlock now srcToken dstToken =>
      let! (s, _) := if seqb dstToken "" then Some (s, Ok tt) else ls_Unlock s now dstToken in
      let! (s, _) := if seqb srcToken "" then Some (s, Ok tt) else ls_Unlock s now srcToken in
      Some s
  | RelConfirm r => ls_release s r
  end.

(** The path of a LOCK or UNLOCK request and the right to write there. *)
Definition davPath (u : User) (equalFold : gostr -> gostr -> bool)
    (nearestMeta : gostr -> option (res meta_err Meta)) (urlPath : gostr) : option (res failure gostr) :=
  match stripPrefix prefix urlPath with
  | Err f => Some (Err f)
  | Ok p =>
      match JoinPath u p with
      | Err e => Some (Err (StatusForbidden, EJoin e))
      | Ok p =>
          let! m := nearestMeta p in
          let ok meta := if negb (CanWrite equalFold (Some u) meta p) then Err (StatusForbidden, EPermission)
                         else Ok p in
          Some match m with
               | Ok m => ok (Some m)
               | Err MetaNotFound => ok None
               | Err _ => Err (StatusInternalServerError, EMeta)
               end
      end
  end.

Definition unlockStatus (r : res dav_err unit) : Z :=
  match r with
  | Ok _ => StatusNoContent
  | Err ErrForbidden => StatusForbidden
  | Err ErrLocked => StatusLocked
  | Err ErrNoSuchLock => StatusConflict
  | Err _ => StatusInternalServerError
  end.

(** The token between the angle brackets of the Lock-Token header. *)
Definition lockToken (t : gostr) : option gostr :=
  match t with
  | "<"%char :: (_ :: _) as r =>
      match rev (tl t) with
      | ">"%char :: r => Some (rev r)
      | _ => None
      end
  | _ => None
  end.

Definition handleUnlock (u : User) (equalFold : gostr -> gostr -> bool)
    (nearestMeta : gostr -> option (res meta_err Meta)) (now : Z) (s : St) (hdr urlPath : gostr) : option (St * Z) :=
  match lockToken hdr with
  | None => Some (s, StatusBadRequest)
  | Some t =>
      let! p := davPath u equalFold nearestMeta urlPath in
      match p with
      | Err (status, _) => Some (s, status)
      | Ok _ => let! (s, r) := ls_Unlock s now t in Some (s, unlockStatus r)
      end
  end.

(** What readLockInfo accepts: no body, or a write lock of one scope. *)
Inductive lockInfo := LIRefresh | LILock (shared : bool) (owner : gostr).

(** The answer to LOCK: a status alone, or the lock the body describes. *)
Inductive lockReply :=
| LStatus (status : Z)
| LGranted (token : gostr) (ld : LockDetails) (created : bool) (newToken : bool).

Definition refreshToken (ih : ifHeader) : gostr :=
  match ih with
  | [l] => match conditions l with [c] => Token c | _ => [] end
  | _ => []
  end.

(** LOCK without a body. *)
Definition refreshLock (now : Z) (s : St) (ifHdr : gostr) (duration : Z) : option (St * lockReply) :=
  let! ih := parseIfHeader ifHdr in
  match ih with
  | None => Some (s, LStatus StatusBadRequest)
  | Some ih =>
      let token := refreshToken ih in
      if seqb token "" then Some (s, LStatus StatusBadRequest)
      else
        let! (s, r) := ls_Refresh s now token duration in
        Some (s, match r with
                 | Ok ld => LGranted token ld false false
                 | Err ErrNoSuchLock => LStatus StatusPreconditionFailed
                 | Err _ => LStatus StatusInternalServerError
                 end)
  end.

(** LOCK with a body. *)
Definition newLock_ (u : User) (equalFold : gostr -> gostr -> bool)
    (nearestMeta : gostr -> option (res meta_err Meta)) (now : Z) (s : St) (depthHdr urlPath : gostr)
    (shared : bool) (owner : gostr) (duration : Z) : option (St * lockReply) :=
  let depth := if seqb depthHdr "" then infiniteDepth else parseDepth depthHdr in
  if negb (depth =? 0) && negb (depth =? infiniteDepth) then Some (s, LStatus StatusBadRequest)
  else
    let! p := davPath u equalFold nearestMeta urlPath in
    match p with
    | Err (status, _) => Some (s, LStatus status)
    | Ok reqPath =>
        match fsGet reqPath with
        | Err OtherFsErr => Some (s, LStatus StatusInternalServerError)
        | r =>
            let created := negb (is_ok r) in
            let ld := mkDetails reqPath duration owner (depth =? 0) shared in
            let! (s, r) := ls_Create s now ld in
            Some (s, match r with
                     | Ok token => LGranted token ld created true
                     | Err ErrLocked => LStatus StatusLocked
                     | Err _ => LStatus StatusInternalServerError
                     end)
        end
    end.

Definition handleLock (u : User) (equalFold : gostr -> gostr -> bool)
    (nearestMeta : gostr -> option (res meta_err Meta)) (now : Z) (s : St)
    (timeoutHdr ifHdr depthHdr urlPath : gostr) (li : res Z lockInfo) : option (St * lockReply) :=
  match parseTimeout timeoutHdr with
  | None => Some (s, LStatus StatusBadRequest)
  | Some duration =>
      match li with
      | Err status => Some (s, LStatus status)
      | Ok LIRefresh => refreshLock now s ifHdr duration
      | Ok (LILock shared owner) =>
          newLock_ u equalFold nearestMeta now s depthHdr urlPath shared owner duration
      end
  end.
End Handler.

(** ** Temporary locks *)
Section Proofs.
Context {St : Type} {LS : LockSystem St} {LSO : LockSystemOK St}.

Definition locksOf (s : St) : gmap gostr memLSLock := aLocks (ls_view s).
Definition genOf (s : St) : Z := aGen (ls_view s).

(** [s'] is [s] after locks have expired, with up to [n] more tokens drawn. *)
Record after (n : Z) (s s' : St) : Prop := {
  af_ok : ls_ok s';
  af_aged : aged (locksOf s) (locksOf s');
  af_gen : genOf s' <= genOf s + n }.

Lemma after_refl n s : ls_ok s -> 0 <= n -> after n s s.
Proof. intros Hs Hn. constructor; [done|apply aged_refl|lia]. Qed.

Lemma after_trans n k s1 s2 s3 : after n s1 s2 -> after k s2 s3 -> after (n + k) s1 s3.
Proof. intros [A1 A2 A3] [B1 B2 B3]. constructor; [done|by eapply aged_trans|lia]. Qed.

(** The state after a temporary lock [t] on [root] was taken. *)
Record locked (s s' : St) (root t : gostr) : Prop := {
  lk_ok : ls_ok s';
  lk_gen : genOf s' <= genOf s + 1;
  lk_new : locksOf s !! t = None;
  lk_token : t <> [];
  lk_lock : exists l L, locksOf s' = <[t := l]> L /\ aged (locksOf s) L /\ held l = false /\
    Duration (details l) < 0 /\ inScope l root }.

Lemma lock_spec s now root :
  ls_ok s -> genOf s < 2 ^ 64 - 1 ->
  exists s' r, lock s now root = Some (s', r) /\
  match r with
  | Ok t => locked s s' root t
  | Err f => f = (StatusLocked, EDav ErrLocked) /\ after 0 s s'
  end.
Proof.
  intros Hs Hg. unfold lock. set (d := mkDetails _ _ _ _ _).
  destruct (ls_Create_ok s now d Hs Hg) as (s' & -> & Hs' & Hv). cbn [mbind option_bind].
  exists s'. eexists. split; [done|]. unfold locksOf, genOf in *. unfold absCreate in *.
  pose proof (ls_fresh s Hs Hg) as Hf. case_decide; cbn [fst snd] in *.
  - constructor; unfold locksOf, genOf; rewrite ?Hv; cbn [aLocks aGen]; [done|lia|done|apply formatUint_not_nil|].
    eexists _, _. split; [done|]. split; [apply aged_live|]. split; [done|]. split; [done|]. by left.
  - split; [done|]. constructor; unfold locksOf, genOf; rewrite ?Hv; cbn; [done|apply aged_live|lia].
Qed.

Lemma unlock_spec s now t :
  ls_ok s -> exists s' r, ls_Unlock s now t = Some (s', r) /\ ls_ok s' /\ genOf s' = genOf s /\
  match live now (locksOf s) !! t with
  | None => r = Err ErrNoSuchLock /\ locksOf s' = live now (locksOf s)
  | Some l => if held l then r = Err ErrLocked /\ locksOf s' = live now (locksOf s)
              else r = Ok tt /\ locksOf s' = delete t (live now (locksOf s))
  end.
Proof.
  intros Hs. destruct (ls_Unlock_ok s now t Hs) as (s' & -> & Hs' & Hv). exists s'. eexists.
  split; [done|]. unfold locksOf, genOf. rewrite Hv. unfold absUnlock.
  destruct (live now (aLocks (ls_view s)) !! t) as [l|]; [destruct (held l)|]; done.
Qed.

(** Removing a lock that was new gives the locks before it, some expired. *)
Lemma aged_drop (L X : gmap gostr memLSLock) t l L0 :
  aged L L0 -> L !! t = None -> aged (<[t := l]> L0) X -> aged L (delete t X).
Proof.
  intros H1 H2 H3. eapply aged_trans; [exact H1|]. replace L0 with (delete t (<[t := l]> L0)) by
    (rewrite delete_insert_id; [done|by eapply aged_none]). by apply aged_delete.
Qed.

Lemma unlock_new n s s1 s2 now root t :
  locked s s1 root t -> after n s1 s2 ->
  exists s', ls_Unlock s2 now t = Some (s', Ok tt) /\ after (n + 1) s s'.
Proof.
  intros [K1 K2 K3 K4 (l & L & E & A & Hh & Hd & Hs)] [B1 B2 B3].
  destruct (unlock_spec s2 now t B1) as (s' & r & -> & Hs' & Hg & Hr).
  assert (Hl : live now (locksOf s2) !! t = Some l).
  { eapply (aged_kept (locksOf s1)).
    - eapply aged_trans; [exact B2|apply aged_live].
    - rewrite E. apply lookup_insert_eq.
    - apply never_expires. by right. }
  rewrite Hl, Hh in Hr. destruct Hr as [-> HL]. exists s'. split; [done|].
  constructor; [done| |lia]. rewrite HL. eapply aged_drop; [exact A|done|].
  rewrite <- E. eapply aged_trans; [exact B2|apply aged_live].
Qed.

Lemma locked_guarded n s s1 s2 root t :
  locked s s1 root t -> after n s1 s2 -> guarded (locksOf s2) root.
Proof.
  intros [K1 K2 K3 K4 (l & L & E & A & Hh & Hd & Hs)] [B1 B2 B3]. exists t, l. split; [|auto].
  eapply aged_kept; [exact B2|rewrite E; apply lookup_insert_eq|]. apply never_expires. by right.
Qed.

Lemma locked_keeps s s1 root t name :
  locked s s1 root t -> guarded (locksOf s) name -> guarded (locksOf s1) name.
Proof.
  intros [K1 K2 K3 K4 (l & L & E & A & _)] (u & x & Hx & Hin & Hn). exists u, x. split; [|auto].
  rewrite E, lookup_insert_ne by congruence. eapply aged_kept; [exact A|done|]. by apply never_expires.
Qed.

Lemma seqb_nil (a : gostr) : seqb a "" = true <-> a = [].
Proof. apply seqb_true. Qed.

(** What a release function is worth: the resources stay guarded until it is
    called, and calling it leaves the locks of the state [s0], some expired. *)
Definition granted (s0 s : St) (rel : relFn) (src dst : gostr) : Prop :=
  (src <> [] -> guarded (locksOf s) src) /\ (dst <> [] -> guarded (locksOf s) dst) /\
  exists s', callRelease s rel = Some s' /\ ls_ok s' /\ aged (locksOf s0) (locksOf s').

Lemma seqb_nil_ne (a : gostr) : a <> [] -> seqb a "" = false.
Proof. apply seqb_false. Qed.

(** The first temporary lock, then the second. *)
Lemma tempLocks_spec s now src dst :
  ls_ok s -> genOf s + 2 < 2 ^ 64 ->
  exists s' r, tempLocks s now src dst = Some (s', r) /\ ls_ok s' /\
  match r with
  | Err _ => aged (locksOf s) (locksOf s')
  | Ok rel => granted s s' rel src dst
  end.
Proof.
  intros Hs Hg. unfold tempLocks.
  assert (H2 : forall s1, ls_ok s1 -> genOf s1 <= genOf s + 1 ->
    exists s2 r2, (if seqb dst "" then Some (s1, Ok []) else lock s1 now dst) = Some (s2, r2) /\
    match r2 with
    | Ok t => (dst = [] /\ t = [] /\ s2 = s1) \/ (dst <> [] /\ locked s1 s2 dst t)
    | Err f => after 0 s1 s2
    end).
  { intros s1 Hs1 Hg1. destruct (seqb dst "") eqn:E.
    - apply seqb_nil in E. eexists _, _. split; [done|]. by left.
    - apply seqb_false in E. destruct (lock_spec s1 now dst Hs1 ltac:(lia)) as (s2 & [t|f] & -> & Hr);
        eexists _, _; (split; [done|]); [by right|apply Hr]. }
  destruct (seqb src "") eqn:Esrc.
  - apply seqb_nil in Esrc. cbn [mbind option_bind]. destruct (H2 s Hs ltac:(lia)) as (s2 & [t|f] & -> & Hr);
      cbn [mbind option_bind]; [|exists s2; eexists; split; [done|split; apply Hr]].
    eexists _, _. split; [done|]. destruct Hr as [(-> & -> & ->)|[Hd K]].
    + split; [done|]. split; [done|]. split; [done|]. exists s. split; [done|]. split; [done|apply aged_refl].
    + split; [apply K|]. pose proof (after_refl 0 s2 (lk_ok _ _ _ _ K) ltac:(lia)) as R.
      split; [done|]. split; [intros _; by eapply locked_guarded|].
      destruct (unlock_new 0 s s2 s2 now dst t K R) as (s' & Hu & [A1 A2 _]). exists s'. cbn [callRelease].
      rewrite (seqb_nil_ne t) by apply K. rewrite Hu. split; [done|]. done.
  - apply seqb_false in Esrc. destruct (lock_spec s now src Hs ltac:(lia)) as (s1 & [t1|f] & -> & Hr); cbn [mbind option_bind].
    2: { eexists _, _. split; [done|]. destruct Hr as [_ [A1 A2 _]]. done. }
    destruct (H2 s1 (lk_ok _ _ _ _ Hr) (lk_gen _ _ _ _ Hr)) as (s2 & [t2|f] & -> & Hr2); cbn [mbind option_bind].
    + eexists _, _. split; [done|]. destruct Hr2 as [(-> & -> & ->)|[Hd K]].
      * pose proof (after_refl 0 s1 (lk_ok _ _ _ _ Hr) ltac:(lia)) as R. split; [apply Hr|].
        split; [intros _; by eapply locked_guarded|]. split; [done|].
        destruct (unlock_new 0 s s1 s1 now src t1 Hr R) as (s' & Hu & [A1 A2 _]). exists s'. cbn [callRelease].
        rewrite (proj2 (seqb_nil []) eq_refl). cbn [mbind option_bind].
        rewrite (seqb_nil_ne t1) by apply Hr. by rewrite Hu.
      * pose proof (after_refl 0 s2 (lk_ok _ _ _ _ K) ltac:(lia)) as R. split; [apply K|].
        pose proof (after_refl 0 s1 (lk_ok _ _ _ _ Hr) ltac:(lia)) as R1.
        split; [intros _; eapply locked_keeps; [exact K|by eapply locked_guarded]|].
        split; [intros _; by eapply locked_guarded|].
        destruct (unlock_new 0 s1 s2 s2 now dst t2 K R) as (s3 & Hu3 & R3).
        destruct (unlock_new _ s s1 s3 now src t1 Hr R3) as (s4 & Hu4 & [A1 A2 _]).
        exists s4. cbn [callRelease]. rewrite (seqb_nil_ne t2) by apply K. rewrite Hu3. cbn [mbind option_bind].
        rewrite (seqb_nil_ne t1) by apply Hr. by rewrite Hu4.
    + rewrite (seqb_nil_ne t1) by apply Hr. destruct (unlock_new 0 s s1 s2 now src t1 Hr Hr2) as (s3 & -> & [A1 A2 _]).
      eexists _, _. split; [done|]. done.
Qed.

Lemma granted_aged s0 s1 s rel src dst :
  aged (locksOf s0) (locksOf s1) -> granted s1 s rel src dst -> granted s0 s rel src dst.
Proof.
  intros A (G1 & G2 & s' & G3 & G4 & G5). split; [done|]. split; [done|]. exists s'.
  split; [done|]. split; [done|]. by eapply aged_trans.
Qed.

Lemma Confirm_spec s now n0 n1 cs :
  ls_ok s -> exists s' r, ls_Confirm s now n0 n1 cs = Some (s', r) /\ ls_ok s' /\
  match r with
  | Ok rel => granted s s' (RelConfirm rel) n0 n1
  | Err e => e = ErrConfirmationFailed /\ aged (locksOf s) (locksOf s') /\ genOf s' = genOf s
  end.
Proof.
  intros Hs. destruct (ls_Confirm_ok s now n0 n1 cs Hs) as (s' & -> & Hs' & Hv). exists s'. eexists.
  split; [done|]. split; [done|]. destruct (absConfirm (ls_view s) now n0 n1 cs) as [a [rel|e]] eqn:E; cbn [fst snd] in *.
  - destruct (confirm_ok _ _ _ _ _ _ _ E) as (H1 & H2 & H3 & H4). unfold granted, locksOf. rewrite Hv.
    split; [done|]. split; [done|]. rewrite <- Hv in H1. destruct (ls_release_ok s' rel Hs' H1) as (s2 & Hr & Hs2 & Hv2).
    exists s2. split; [done|]. split; [done|]. rewrite Hv2, Hv, H2. apply aged_live.
  - destruct (confirm_err _ _ _ _ _ _ _ E) as (H1 & H2 & H3). split; [done|]. unfold locksOf, genOf. rewrite Hv.
    split; [|done]. rewrite H1. apply aged_live.
Qed.

Section Env.
Context {Obj : Type} (prefix host : gostr) (user : option User) (urlParse : gostr -> option (gostr * gostr)).
Context (fsGet : gostr -> res fs_err Obj) (findETag : gostr -> Obj -> option gostr).

Notation listLoop := (listLoop prefix host user urlParse fsGet findETag).
Notation listResource := (listResource prefix host user urlParse).

Lemma listLoop_spec clock s src dst lists i em ng :
  ls_ok s -> exists s' out, listLoop clock s src dst lists i em ng = Some (s', out) /\ ls_ok s' /\
  match out with
  | inl (Ok rel) => exists l name, l ∈ lists /\ listResource src (resourceTag l) = Some (Ok name) /\
                                   granted s s' rel name dst
  | inl (Err _) => aged (locksOf s) (locksOf s')
  | inr _ => aged (locksOf s) (locksOf s') /\ genOf s' = genOf s
  end.
Proof.
  revert s i em ng. induction lists as [|l lists IH]; intros s i em ng Hs; cbn [DavHandler.listLoop].
  { eexists _, _. split; [done|]. split; [done|]. split; [apply aged_refl|done]. }
  assert (Hskip : forall s1 em ng, ls_ok s1 -> aged (locksOf s) (locksOf s1) -> genOf s1 = genOf s ->
    exists s' out, listLoop clock s1 src dst lists (S i) em ng = Some (s', out) /\ ls_ok s' /\
    match out with
    | inl (Ok rel) => exists l0 name, l0 ∈ l :: lists /\ listResource src (resourceTag l0) = Some (Ok name) /\
                                     granted s s' rel name dst
    | inl (Err _) => aged (locksOf s) (locksOf s')
    | inr _ => aged (locksOf s) (locksOf s') /\ genOf s' = genOf s
    end).
  { intros s1 em' ng' Hs1 Ha Hg. destruct (IH s1 (S i) em' ng' Hs1) as (s' & out & He & Hok & Hm).
    exists s', out. split; [done|]. split; [done|]. destruct out as [[rel|f]|fl].
    - destruct Hm as (l0 & name & H1 & H2 & H3). exists l0, name. split; [by right|]. split; [done|].
      by eapply granted_aged.
    - by eapply aged_trans.
    - destruct Hm as [H1 H2]. split; [by eapply aged_trans|congruence]. }
  pose proof (aged_refl (locksOf s)) as Hr.
  destruct (listResource src (resourceTag l)) as [[lsrc|f]|] eqn:El; [| |by apply Hskip].
  2: { eexists _, _. split; [done|]. done. }
  destruct (ifETagConditionsMatch _ _ _ _) as [[|]|e]; [|by apply Hskip|eexists _, _; split; done].
  destruct (Confirm_spec s (clock i) lsrc dst (positiveTokenConditions (conditions l)) Hs) as (s1 & r & -> & Hs1 & Hm).
  cbn [mbind option_bind]. destruct r as [rel|e].
  - eexists _, _. split; [done|]. split; [done|]. exists l, lsrc. split; [by left|]. done.
  - destruct Hm as (-> & Ha & Hg). by apply Hskip.
Qed.

Lemma davProbes_spec now s names :
  ls_ok s -> genOf s + Z.of_nat (length names) < 2 ^ 64 ->
  exists s' f, probeLoop now s names = Some (s', f) /\ ls_ok s' /\ aged (locksOf s) (locksOf s').
Proof.
  revert s. induction names as [|name names IH]; intros s Hs Hg; cbn [probeLoop].
  { eexists _, _. split; [done|]. split; [done|apply aged_refl]. }
  cbn [length] in Hg. destruct (seqb name ""); [apply IH; [done|lia]|].
  destruct (lock_spec s now name Hs ltac:(lia)) as (s1 & [t|f] & -> & Hr); cbn [mbind option_bind].
  - destruct (unlock_new 0 s s1 s1 now name t Hr) as (s2 & Hu & [A1 A2 A3]);
      [apply after_refl; [apply Hr|lia]|]. rewrite Hu. cbn [mbind option_bind].
    destruct (IH s2 A1 ltac:(lia)) as (s3 & f & -> & Hs3 & Ha). eexists _, _. split; [done|]. split; [done|].
    by eapply aged_trans.
  - destruct Hr as (_ & [A1 A2 A3]). eexists _, _. split; [done|]. done.
Qed.
End Env.
End Proofs.

(** ** Properties *)

(** The lock system refuses an exclusive lock on the resource. *)
Definition closedTo (a : absLS) (name : gostr) : Prop :=
  forall now d, Root d = name -> Shared d = false -> snd (absCreate a now d) = Err ErrLocked.

(** The source, or the resource a tagged list of the If header names for it. *)
Definition claimed prefix host user urlParse (hdr src name : gostr) : Prop :=
  name = src \/
  exists lists l, parseIfHeader hdr = Some (Some lists) /\ l ∈ lists /\ resourceTag l <> [] /\
    listResource prefix host user urlParse src (resourceTag l) = Some (Ok name).


(** An environment for the examples: a prefix-free handler on host h, a user
    with base path /, and an empty file system. *)
Definition ex_user : User := mkUser 7 GENERAL "/" 0 [] [].
Definition ex_urlParse (u : gostr) : option (gostr * gostr) :=
  if seqb u "http://h/b" then Some (("h" : gostr), ("/b" : gostr)) else None.
Definition ex_fsGet (p : gostr) : res fs_err unit := Err ObjectNotFound.
Definition ex_findETag (p : gostr) (o : unit) : option gostr := None.
Definition ex_confirm := confirmLocks [] "h" (Some ex_user) ex_urlParse ex_fsGet ex_findETag (fun i => Z.of_nat i).


(** An If list tagged with another resource stands in for the source. A
    request on any source, locked by someone else or not, is confirmed when its
    If header names any resource on which the client has a lock, with the token
    of that lock: only that lock is held, the locks on the source play no part.
    (LockSystem.Confirm documents exclusive access to the named resources; the
    handler passes it the tagged resource instead of the source.) *)
Theorem confirmLocks_tagged {St : Type} `{LSO : LockSystemOK St} {Obj : Type} prefix host user urlParse
    (fsGet : gostr -> res fs_err Obj) findETag clock (s : St) hdr src tag t p l :
  ls_ok s -> parseIfHeader hdr = Some (Some [mkIfList tag [mkCond false t []]]) -> t <> [] ->
  listResource prefix host user urlParse src tag = Some (Ok p) -> p <> [] ->
  live (clock 0%nat) (locksOf s) !! t = Some l -> held l = false -> inScope l p ->
  exists s', confirmLocks prefix host user urlParse fsGet findETag clock s hdr src [] =
    Some (s', Ok (RelConfirm (Some t, None))) /\
  locksOf s' = setHeld true (live (clock 0%nat) (locksOf s)) (Some t).
Proof.
  intros Hs Hp Ht Hres Hpn Hl Hh Hin. unfold confirmLocks.
  assert (Hhdr : hdr <> []) by (intros ->; vm_compute in Hp; discriminate).
  rewrite (seqb_nil_ne hdr Hhdr), Hp. cbn [mbind option_bind listLoop resourceTag]. rewrite Hres.
  unfold ifETagConditionsMatch. cbn [conditions etagLoop ETag]. rewrite (proj2 (seqb_nil []) eq_refl). cbv iota.
  assert (Hpos : positiveTokenConditions [mkCond false t []] = [mkCond false t []]).
  { unfold positiveTokenConditions. cbn [List.filter Token Not]. by rewrite (seqb_nil_ne t Ht). }
  rewrite Hpos. destruct (ls_Confirm_ok s (clock 0%nat) p [] [mkCond false t []] Hs) as (s' & -> & _ & Hv).
  assert (Ha : absConfirm (ls_view s) (clock 0%nat) p [] [mkCond false t []] =
    (mkAbs (setHeld true (live (clock 0%nat) (locksOf s)) (Some t)) (genOf s), Ok (Some t, None))).
  { unfold absConfirm, absName. fold (locksOf s). rewrite (seqb_nil_ne p Hpn), (proj2 (seqb_nil []) eq_refl).
    unfold firstCovering. cbn [map Token list_find].
    rewrite decide_True; [done|]. unfold covers. by rewrite Hl. }
  rewrite Ha in Hv |- *. exists s'. split; [done|]. unfold locksOf at 1. by rewrite Hv.
Qed.

(** /a is locked with token 101, /b with token 102. *)
Definition ex_ops : list op :=
  [OCreate 0 (mkDetails "/a" (-1) [] false false); OCreate 0 (mkDetails "/b" (-1) [] false false)].
Definition ex_locked : memLS :=
  match sysRun (sysInit 100) ex_ops with Some ((m, _), _) => m | None => newMemLS 0 end.

Lemma ex_locked_ok : ls_ok ex_locked.
Proof.
  assert (E : exists rs out, sysRun (sysInit 100) ex_ops = Some ((ex_locked, rs), out))
    by (eexists _, _; vm_compute; reflexivity).
  destruct E as (rs & out & E). apply (reachable_inv 100 ex_ops ex_locked rs out); [|exact E].
  split; [lia|cbn; lia].
Qed.

Lemma confirmLocks_tagged_witness :
  is_Some (byToken ex_locked !! formatUint 101) /\
  exists s', ex_confirm ex_locked "<http://h/b> (<102>)" "/a" [] = Some (s', Ok (RelConfirm (Some (formatUint 102), None))).
Proof.
  split; [vm_compute; eexists; reflexivity|].
  assert (Hl : exists l, live 0 (locksOf ex_locked) !! formatUint 102 = Some l /\ held l = false /\ inScope l "/b").
  { eexists. split; [vm_compute; reflexivity|]. split; [reflexivity|]. left. vm_compute. reflexivity. }
  destruct Hl as (l & H1 & H2 & H3).
  destruct (confirmLocks_tagged [] "h" (Some ex_user) ex_urlParse ex_fsGet ex_findETag (fun i => Z.of_nat i) ex_locked
    "<http://h/b> (<102>)" "/a" "http://h/b" (formatUint 102) "/b" l) as (s' & H & _).
  - exact ex_locked_ok.
  - vm_compute. reflexivity.
  - vm_compute. discriminate.
  - vm_compute. reflexivity.
  - discriminate.
  - exact H1.
  - exact H2.
  - exact H3.
  - exists s'. exact H.
Defined.

(** UNLOCK. The handler answers 204 exactly when the request path may be
    written and the Lock-Token header names a lock that is neither expired nor
    held by a request, and then that lock is gone and no other; with any other
    answer no lock changes but those that expired. *)
Theorem handleUnlock_spec {St : Type} `{LSO : LockSystemOK St} prefix u equalFold nearestMeta now (s : St) hdr urlPath :
  ls_ok s -> (forall p, is_Some (nearestMeta p)) ->
  exists s' status, handleUnlock prefix u equalFold nearestMeta now s hdr urlPath = Some (s', status) /\ ls_ok s' /\
  (status = StatusNoContent <->
   exists t l p, lockToken hdr = Some t /\ davPath prefix u equalFold nearestMeta urlPath = Some (Ok p) /\
     live now (locksOf s) !! t = Some l /\ held l = false) /\
  if decide (status = StatusNoContent)
  then exists t, lockToken hdr = Some t /\ locksOf s' = delete t (live now (locksOf s))
  else aged (locksOf s) (locksOf s').
Proof.
  intros Hs Hm. unfold handleUnlock. pose proof (aged_refl (locksOf s)) as Ha.
  destruct (lockToken hdr) as [t|].
  2: { eexists _, _. split; [done|]. split; [done|]. split; [|by rewrite decide_False]. split; [done|]. naive_solver. }
  assert (Hp : exists r, davPath prefix u equalFold nearestMeta urlPath = Some r /\
    forall st e, r = Err (st, e) -> st <> StatusNoContent).
  { unfold davPath, stripPrefix.
    destruct (seqb prefix ""); [|destruct (_ <? _)%nat; [|eexists; split; [done|by intros ?? [= <- _]]]];
    (destruct (JoinPath _ _) as [q|]; [|eexists; split; [done|by intros ?? [= <- _]]]);
    (destruct (Hm q) as [m ->]); (eexists; split; [done|]); intros st e; cbn;
    destruct m as [m|[]]; try destruct (negb _); by intros [= <- _]. }
  destruct Hp as (r & -> & Hr). cbn [mbind option_bind]. destruct r as [p|[st e]].
  - destruct (unlock_spec s now t Hs) as (s' & r & -> & Hs' & _ & Hq). cbn [mbind option_bind].
    eexists _, _. split; [done|]. split; [done|].
    destruct (live now (locksOf s) !! t) as [l|] eqn:El; [destruct (held l) eqn:Eh|]; destruct Hq as [-> Hq]; cbn.
    + split; [|rewrite decide_False by done; rewrite Hq; by apply aged_live]. split; [done|]. intros (t' & l' & p' & [= <-] & _ & E & ?). congruence.
    + split; [|rewrite decide_True by done; eauto]. split; [|done]. intros _. exists t, l, p. done.
    + split; [|rewrite decide_False by done; rewrite Hq; by apply aged_live]. split; [done|]. intros (t' & l' & p' & [= <-] & _ & E & ?). congruence.
  - eexists _, _. split; [done|]. split; [done|]. specialize (Hr st e eq_refl).
    split; [|by rewrite decide_False]. split; [done|]. intros (? & ? & ? & _ & [=] & _).
Qed.

Lemma handleUnlock_spec_witness :
  exists s', handleUnlock [] ex_user seqb (fun _ => Some (Err MetaNotFound)) 5 ex_locked "<101>" "/x" = Some (s', 204) /\
    locksOf s' = delete (formatUint 101) (live 5 (locksOf ex_locked)).
Proof.
  destruct (handleUnlock_spec [] ex_user seqb (fun _ => Some (Err MetaNotFound)) 5 ex_locked "<101>" "/x")
    as (s' & st & H1 & _ & H2 & H3).
  - exact ex_locked_ok.
  - intros p. eexists. reflexivity.
  - assert (Hst : st = 204).
    { apply H2. eexists (formatUint 101), _, "/x". split; [vm_compute; reflexivity|].
      split; [vm_compute; reflexivity|]. split; vm_compute; reflexivity. }
    subst st. destruct (decide _) as [_|n]; [|destruct (n eq_refl)]. destruct H3 as (t & Ht & Hd).
    vm_compute in Ht. injection Ht as <-. exists s'. split; [exact H1|exact Hd].
Defined.

(** What an answer to LOCK says of the locks. *)
Definition lockOutcome {St : Type} `{LSO : LockSystemOK St} (path : option (res failure gostr)) (now dur : Z)
    (s s' : St) (r : lockReply) : Prop :=
  let L := live now (locksOf s) in
  match r with
  | LStatus _ => aged (locksOf s) (locksOf s')
  | LGranted t ld _ true =>
      path = Some (Ok (Root ld)) /\ Duration ld = dur /\ locksOf s !! t = None /\
      compatAll L (cleanDetails ld) /\ locksOf s' = <[t := newLock now (cleanDetails ld)]> L
  | LGranted t ld _ false =>
      exists l, L !! t = Some l /\ held l = false /\ locksOf s' = <[t := refreshed now dur l]> L /\
        ld = details (refreshed now dur l) /\
        Root ld = rootOf l /\ ZeroDepth ld = ZeroDepth (details l) /\ Shared ld = Shared (details l)
  end.

Lemma refused {St : Type} `{LSO : LockSystemOK St} path now dur (s : St) st :
  ls_ok s -> exists s' r, Some (s, LStatus st) = Some (s', r) /\ ls_ok s' /\ lockOutcome path now dur s s' r.
Proof. intros Hs. eexists _, _. split; [done|]. split; [done|]. apply aged_refl. Qed.

Lemma refreshLock_spec {St : Type} `{LSO : LockSystemOK St} path now (s : St) ifHdr dur :
  ls_ok s -> exists s' r, refreshLock now s ifHdr dur = Some (s', r) /\ ls_ok s' /\ lockOutcome path now dur s s' r.
Proof.
  intros Hs. unfold refreshLock.
  destruct (parseIfHeader_answers ifHdr) as ([ih|] & Hp & _); rewrite Hp; cbn [mbind option_bind]; [|by apply refused].
  destruct (seqb (refreshToken ih) ""); [by apply refused|].
  destruct (ls_Refresh_ok s now (refreshToken ih) dur Hs) as (s' & -> & Hs' & Hv). cbn [mbind option_bind].
  eexists _, _. split; [done|]. split; [done|]. unfold lockOutcome, locksOf. rewrite Hv. unfold absRefresh.
  destruct (live now (aLocks (ls_view s)) !! refreshToken ih) as [l|] eqn:El; [|cbn; apply aged_live].
  destruct (held l) eqn:Eh; [cbn; apply aged_live|]. cbn [snd fst aLocks]. by exists l.
Qed.

Lemma newLock_spec {St : Type} `{LSO : LockSystemOK St} {Obj : Type} prefix (fsGet : gostr -> res fs_err Obj)
    u equalFold nearestMeta now (s : St) depthHdr urlPath sh ow dur :
  ls_ok s -> genOf s < 2 ^ 64 - 1 -> (forall p, is_Some (nearestMeta p)) ->
  exists s' r, newLock_ prefix fsGet u equalFold nearestMeta now s depthHdr urlPath sh ow dur = Some (s', r) /\
  ls_ok s' /\ lockOutcome (davPath prefix u equalFold nearestMeta urlPath) now dur s s' r.
Proof.
  intros Hs Hg Hm. unfold newLock_. cbv zeta. destruct (_ && _); [by apply refused|].
  assert (Hp : exists r, davPath prefix u equalFold nearestMeta urlPath = Some r).
  { unfold davPath. destruct (stripPrefix _ _); [|by eexists]. destruct (JoinPath _ _) as [q|]; [|by eexists].
    destruct (Hm q) as [m ->]. by eexists. }
  destruct Hp as ([p|[st e]] & ->); cbn [mbind option_bind]; [|by apply refused].
  set (ld := mkDetails p dur ow _ sh).
  assert (Hc : forall created, exists s' r, (let! (s, r) := ls_Create s now ld in
      Some (s, match r with Ok token => LGranted token ld created true | Err ErrLocked => LStatus StatusLocked
               | Err _ => LStatus StatusInternalServerError end)) = Some (s', r) /\ ls_ok s' /\
    lockOutcome (Some (Ok p)) now dur s s' r).
  { intros created. destruct (ls_Create_ok s now ld Hs Hg) as (s' & -> & Hs' & Hv). cbn [mbind option_bind].
    eexists _, _. split; [done|]. split; [done|]. unfold lockOutcome, locksOf. rewrite Hv. unfold absCreate.
    case_decide; cbn [fst snd aLocks]; [|apply aged_live]. split; [done|]. split; [done|]. split; [|done].
    by apply ls_fresh. }
  destruct (fsGet p) as [o|[|]]; [apply Hc|apply Hc|by apply refused].
Qed.

(** LOCK. A granted new lock is the one the answer describes: it is rooted
    at the request path, which the user may write, its token is fresh, and it is
    compatible with every lock that has not expired; a refreshed lock keeps its
    resource, depth and scope. A request that is refused leaves no lock. *)
Theorem handleLock_spec {St : Type} `{LSO : LockSystemOK St} {Obj : Type} prefix (fsGet : gostr -> res fs_err Obj)
    u equalFold nearestMeta now (s : St) timeoutHdr ifHdr depthHdr urlPath li :
  ls_ok s -> genOf s < 2 ^ 64 - 1 -> (forall p, is_Some (nearestMeta p)) ->
  exists s' r, handleLock prefix fsGet u equalFold nearestMeta now s timeoutHdr ifHdr depthHdr urlPath li = Some (s', r) /\
  ls_ok s' /\
  match parseTimeout timeoutHdr with
  | Some dur => lockOutcome (davPath prefix u equalFold nearestMeta urlPath) now dur s s' r
  | None => r = LStatus StatusBadRequest /\ s' = s
  end.
Proof.
  intros Hs Hg Hm. unfold handleLock. destruct (parseTimeout timeoutHdr) as [dur|]; [|by eexists _, _].
  destruct li as [[|sh ow]|st]; [by apply refreshLock_spec|by apply newLock_spec|by apply refused].
Qed.

Lemma handleLock_spec_witness :
  exists s' r, handleLock [] ex_fsGet ex_user seqb (fun _ => Some (Err MetaNotFound)) 5 ex_locked
      "Second-60" [] "0" "/c" (Ok (LILock true [])) = Some (s', r) /\
    lockOutcome (Some (Ok ("/c" : gostr))) 5 60000000000 ex_locked s' r.
Proof.
  destruct (handleLock_spec [] ex_fsGet ex_user seqb (fun _ => Some (Err MetaNotFound)) 5 ex_locked
    "Second-60" [] "0" "/c" (Ok (LILock true []))) as (s' & r & H1 & _ & H2).
  - exact ex_locked_ok.
  - vm_compute. reflexivity.
  - intros p. eexists. reflexivity.
  - exists s', r. split; [exact H1|].
    assert (E : parseTimeout "Second-60" = Some 60000000000) by (vm_compute; reflexivity). rewrite E in H2.
    assert (P : davPath [] ex_user seqb (fun _ => Some (Err MetaNotFound)) "/c" = Some (Ok ("/c" : gostr)))
      by (vm_compute; reflexivity). rewrite P in H2. exact H2.
Defined.
