(* ===== verification/Bencode.v ===== *)
(** [pkg/torrent/bencode.go]: the bencode encoder and decoder. A Go map and an
    OrderedDict are association lists with distinct keys; the encoder sorts the
    keys. The decoder runs with fuel and the outer [None] is fuel exhaustion. *)
From S2P Require Import Prelude GoString GoOrder.

Inductive berr :=
| Unsupported
| BEOF
| UnexpectedEOF
| BNum (e : num_err)
| LengthOutOfBounds (n : Z)
| UnexpectedByte (b : ascii).

Inductive bval :=
| BInt (n : Z)
| BStr (s : gostr)
| BList (l : list bval)
| BDict (d : list (gostr * bval))
| BOther.

(** ** OrderedDict *)
Fixpoint odSet {A} (d : list (gostr * A)) (key : gostr) (value : A) : list (gostr * A) :=
  match d with
  | [] => [(key, value)]
  | (k, v) :: d => if seqb k key then (k, value) :: d else (k, v) :: odSet d key value
  end.

Fixpoint odGet {A} (d : list (gostr * A)) (key : gostr) : option A :=
  match d with
  | [] => None
  | (k, v) :: d => if seqb k key then Some v else odGet d key
  end.

(** sort.Strings on the keys. *)
Fixpoint insertKey {A} (e : gostr * A) (l : list (gostr * A)) : list (gostr * A) :=
  match l with
  | [] => [e]
  | e' :: l' => if str_leb (fst e) (fst e') then e :: l else e' :: insertKey e l'
  end.

Fixpoint sortKeys {A} (l : list (gostr * A)) : list (gostr * A) :=
  match l with
  | [] => []
  | e :: l => insertKey e (sortKeys l)
  end.

(** ** Encoding *)
Definition encodeInt (v : Z) : gostr := "i" ++ formatInt v ++ "e".
Definition encodeString (v : gostr) : gostr := formatInt (slen v) ++ ":" ++ v.

Fixpoint seqRes {E A} (l : list (res E A)) : res E (list A) :=
  match l with
  | [] => Ok []
  | r :: l => let? a := r in let? b := seqRes l in Ok (a :: b)
  end.

Definition encodeEntry (e : gostr * res berr gostr) : res berr gostr :=
  let? b := snd e in Ok (encodeString (fst e) ++ b).

Fixpoint encodeValue (v : bval) : res berr gostr :=
  match v with
  | BInt n => Ok (encodeInt n)
  | BStr s => Ok (encodeString s)
  | BList l =>
      let? bs := seqRes (map encodeValue l) in Ok ("l" ++ concat bs ++ "e")
  | BDict d =>
      let entries := map (fun kv => (fst kv, encodeValue (snd kv))) d in
      let? bs := seqRes (map encodeEntry (sortKeys entries)) in
      Ok ("d" ++ concat bs ++ "e")
  | BOther => Err Unsupported
  end.

Definition BencodeEncode (v : bval) : res berr gostr := encodeValue v.

(** ** Decoding *)
Definition readUntil (s : gostr) (c : ascii) : res berr (gostr * gostr) :=
  match indexByte s c with
  | None => Err BEOF
  | Some i => Ok (take i s, drop (S i) s)
  end.

Definition decodeInt (s : gostr) : res berr (Z * gostr) :=
  let? (buf, r) := readUntil s "e"%char in
  match parseInt buf with
  | (n, None) => Ok (n, r)
  | (_, Some e) => Err (BNum e)
  end.

Definition maxString : Z := 100 * 1024 * 1024.

Definition decodeString (s : gostr) : res berr (gostr * gostr) :=
  let? (buf, r) := readUntil s ":"%char in
  match parseInt buf with
  | (_, Some e) => Err (BNum e)
  | (length_, None) =>
      if (length_ <? 0) || (maxString <? length_) then Err (LengthOutOfBounds length_)
      else
        let n := Z.to_nat length_ in
        if (n =? 0)%nat then Ok ([], r)
        else match r with
             | [] => Err BEOF
             | _ => if (length r <? n)%nat then Err UnexpectedEOF
                    else Ok (take n r, drop n r)
             end
  end.

Definition isDigit (c : ascii) : bool := (48 <=? byte_val c) && (byte_val c <=? 57).

Fixpoint decodeValue (fuel : nat) (s : gostr) : option (res berr (bval * gostr)) :=
  match fuel with
  | O => None
  | S f =>
      match s with
      | [] => Some (Err BEOF)
      | c :: r =>
          if bool_decide (c = "i"%char) then
            Some (let? (n, r) := decodeInt r in Ok (BInt n, r))
          else if bool_decide (c = "l"%char) then decodeList f r []
          else if bool_decide (c = "d"%char) then decodeDict f r []
          else if isDigit c then
            Some (let? (b, r) := decodeString s in Ok (BStr b, r))
          else Some (Err (UnexpectedByte c))
      end
  end
with decodeList (fuel : nat) (s : gostr) (list_ : list bval) : option (res berr (bval * gostr)) :=
  match fuel with
  | O => None
  | S f =>
      match s with
      | [] => Some (Err BEOF)
      | c :: r =>
          if bool_decide (c = "e"%char) then Some (Ok (BList list_, r))
          else match decodeValue f s with
               | None => None
               | Some (Err e) => Some (Err e)
               | Some (Ok (v, r)) => decodeList f r (list_ ++ [v])
               end
      end
  end
with decodeDict (fuel : nat) (s : gostr) (dict : list (gostr * bval))
  : option (res berr (bval * gostr)) :=
  match fuel with
  | O => None
  | S f =>
      match s with
      | [] => Some (Err BEOF)
      | c :: r =>
          if bool_decide (c = "e"%char) then Some (Ok (BDict dict, r))
          else match decodeString s with
               | Err e => Some (Err e)
               | Ok (key, r) =>
                   match decodeValue f r with
                   | None => None
                   | Some (Err e) => Some (Err e)
                   | Some (Ok (v, r)) => decodeDict f r (odSet dict key v)
                   end
               end
      end
  end.

Definition fuelFor (s : gostr) : nat := 2 * length s + 3.

(** BencodeDecode ignores the bytes after the first value. *)
Definition BencodeDecode (data : gostr) : option (res berr bval) :=
  match decodeValue (fuelFor data) data with
  | None => None
  | Some (Ok (v, _)) => Some (Ok v)
  | Some (Err e) => Some (Err e)
  end.

Example bencode_ex :
  BencodeEncode (BDict [("b" : gostr, BList [BInt (-3); BStr "x"]); ("a" : gostr, BInt 0)]) =
    Ok ("d1:ai0e1:bli-3e1:xee" : gostr) /\
  BencodeDecode "d1:ai0e1:bli-3e1:xeeTAIL" =
    Some (Ok (BDict [("a" : gostr, BInt 0); ("b" : gostr, BList [BInt (-3); BStr "x"])])) /\
  BencodeDecode "l4:abe" = Some (Err UnexpectedEOF).
Proof. split; [|split]; vm_compute; reflexivity. Qed.

(** ** Every decoder consumes input *)
Lemma readUntil_shrinks s c a r : readUntil s c = Ok (a, r) -> (length r < length s)%nat.
Proof.
  unfold readUntil. destruct (indexByte s c) as [i|] eqn:E; [|done]. intros [= <- <-].
  apply indexByte_Some in E as (t & _ & _ & Hlt). rewrite length_drop. lia.
Qed.

Lemma decodeString_shrinks s b r : decodeString s = Ok (b, r) -> (length r < length s)%nat.
Proof.
  unfold decodeString. intros ([buf r1] & Hu & H)%res_bind_ok. apply readUntil_shrinks in Hu.
  destruct (parseInt buf) as [n [e|]]; [done|]. destruct (_ || _); [done|].
  destruct (_ =? 0)%nat; [by simplify_eq|]. destruct r1; [done|].
  destruct (_ <? _)%nat; [done|]. simplify_eq. rewrite length_drop. lia.
Qed.

Lemma decodeInt_shrinks s n r : decodeInt s = Ok (n, r) -> (length r < length s)%nat.
Proof.
  unfold decodeInt. intros ([buf r1] & Hu & H)%res_bind_ok. apply readUntil_shrinks in Hu.
  destruct (parseInt buf) as [m [e|]]; by simplify_eq.
Qed.

(** [o] answers, and a decoded value leaves less input than [n]. *)
Definition answers (o : option (res berr (bval * gostr))) (n : nat) : Prop :=
  exists r, o = Some r /\ forall v t, r = Ok (v, t) -> (length t < n)%nat.

Lemma decode_total f :
  (forall s, (2 * length s < f)%nat -> answers (decodeValue f s) (length s)) /\
  (forall s l, (2 * length s + 1 < f)%nat -> answers (decodeList f s l) (length s)) /\
  (forall s d, (2 * length s + 1 < f)%nat -> answers (decodeDict f s d) (length s)).
Proof.
  induction f as [|f (IHv & IHl & IHd)]; [split; [|split]; intros; lia|]. split; [|split].
  - intros [|c s] Hf; [by eexists|]. cbn [decodeValue]. cbn [length] in *.
    destruct (bool_decide (c = "i"%char)).
    { eexists. split; [done|]. intros v t ([n r] & Hn & [= <- <-])%res_bind_ok.
      apply decodeInt_shrinks in Hn. lia. }
    destruct (bool_decide (c = "l"%char)).
    { destruct (IHl s [] ltac:(lia)) as (r & -> & Hr). exists r. split; [done|].
      intros v t Hv. specialize (Hr v t Hv). lia. }
    destruct (bool_decide (c = "d"%char)).
    { destruct (IHd s [] ltac:(lia)) as (r & -> & Hr). exists r. split; [done|].
      intros v t Hv. specialize (Hr v t Hv). lia. }
    destruct (isDigit c); [|by eexists]. eexists. split; [done|].
    intros v t ([b r] & Hn & [= <- <-])%res_bind_ok. by apply decodeString_shrinks in Hn.
  - intros [|c s] l Hf; [by eexists|]. cbn [decodeList].
    destruct (bool_decide (c = "e"%char)).
    { eexists. split; [done|]. intros v t [= <- <-]. simpl. lia. }
    destruct (IHv (c :: s) ltac:(lia)) as (r & -> & Hr). destruct r as [[v t]|e]; [|by eexists].
    specialize (Hr v t eq_refl). destruct (IHl t (l ++ [v]) ltac:(lia)) as (r' & -> & Hr').
    exists r'. split; [done|]. intros v' t' Hv'. specialize (Hr' v' t' Hv'). lia.
  - intros [|c s] d Hf; [by eexists|]. cbn [decodeDict].
    destruct (bool_decide (c = "e"%char)).
    { eexists. split; [done|]. intros v t [= <- <-]. simpl. lia. }
    destruct (decodeString (c :: s)) as [[k t0]|e] eqn:Ek; [|by eexists].
    apply decodeString_shrinks in Ek.
    destruct (IHv t0 ltac:(lia)) as (r & -> & Hr). destruct r as [[v t]|e]; [|by eexists].
    specialize (Hr v t eq_refl). destruct (IHd t (odSet d k v) ltac:(lia)) as (r' & -> & Hr').
    exists r'. split; [done|]. intros v' t' Hv'. specialize (Hr' v' t' Hv'). lia.
Qed.

(** ** Sorting the keys *)
Definition keysSorted {A} : list (gostr * A) -> Prop :=
  fix go l := match l with
              | [] => True
              | e :: l' => match l' with e' :: _ => str_leb (fst e) (fst e') = true | [] => True end /\ go l'
              end.

Lemma insertKey_perm {A} (e : gostr * A) l : insertKey e l ≡ₚ e :: l.
Proof.
  induction l as [|e' l IH]; simpl; [done|]. destruct (str_leb _ _); [done|].
  rewrite IH. apply Permutation_swap.
Qed.

Lemma sortKeys_perm {A} (l : list (gostr * A)) : sortKeys l ≡ₚ l.
Proof. induction l as [|e l IH]; simpl; [done|]. by rewrite insertKey_perm, IH. Qed.

Lemma insertKey_sorted {A} (e : gostr * A) l : keysSorted l -> keysSorted (insertKey e l).
Proof.
  induction l as [|e' l IH]; [done|]. intros [H1 H2]. cbn [insertKey].
  destruct (str_leb (fst e) (fst e')) eqn:E; [done|].
  specialize (IH H2). destruct l as [|e2 l]; cbn [insertKey] in *.
  - split; [by apply str_leb_total|done].
  - destruct (str_leb (fst e) (fst e2)) eqn:E2; (split; [|done]); [by apply str_leb_total|done].
Qed.

Lemma sortKeys_sorted {A} (l : list (gostr * A)) : keysSorted (sortKeys l).
Proof. induction l as [|e l IH]; [done|]. by apply insertKey_sorted. Qed.

Lemma sortKeys_id {A} (l : list (gostr * A)) : keysSorted l -> sortKeys l = l.
Proof.
  induction l as [|e l IH]; [done|]. intros [H1 H2]. cbn [sortKeys]. rewrite (IH H2).
  destruct l as [|e' l]; [done|]. cbn [insertKey]. by rewrite H1.
Qed.

Lemma sortKeys_map {A B} (f : A -> B) l :
  sortKeys (map (fun kv => (fst kv, f (snd kv))) l) = map (fun kv => (fst kv, f (snd kv))) (sortKeys l).
Proof.
  assert (Hi : forall e l, insertKey (fst e, f (snd e)) (map (fun kv => (fst kv, f (snd kv))) l) =
    map (fun kv => (fst kv, f (snd kv))) (insertKey e l)).
  { intros e l'. induction l' as [|e' l' IH]; [done|]. cbn [map insertKey fst].
    destruct (str_leb (fst e) (fst e')); [done|]. cbn [map]. by rewrite IH. }
  induction l as [|e l IH]; [done|]. cbn [map sortKeys]. by rewrite IH, Hi.
Qed.

Lemma odSet_fresh {A} (d : list (gostr * A)) k v : k ∉ map fst d -> odSet d k v = d ++ [(k, v)].
Proof.
  induction d as [|[k' v'] d IH]; [done|]. cbn [map fst odSet]. rewrite not_elem_of_cons. intros [Hne Hd].
  destruct (seqb k' k) eqn:E; [apply seqb_true in E; by subst|]. by rewrite IH.
Qed.

(** ** Values the encoder accepts, and their canonical form *)
Fixpoint norm (v : bval) : bval :=
  match v with
  | BList l => BList (map norm l)
  | BDict d => BDict (sortKeys (map (fun kv => (fst kv, norm (snd kv))) d))
  | _ => v
  end.

Inductive wfv : bval -> Prop :=
| wf_int n : i64_ok n -> wfv (BInt n)
| wf_str s : slen s <= maxString -> wfv (BStr s)
| wf_list l : Forall wfv l -> wfv (BList l)
| wf_dict d : NoDup (map fst d) -> Forall (fun kv => slen (fst kv) <= maxString) d ->
    Forall wfv (map snd d) -> wfv (BDict d).

Lemma wf_value (d : list (gostr * bval)) kv : Forall wfv (map snd d) -> kv ∈ d -> wfv (snd kv).
Proof. intros H Hkv. rewrite Forall_forall in H. apply H, list_elem_of_fmap. eauto. Qed.

Lemma bval_ind2 (P : bval -> Prop) :
  (forall n, P (BInt n)) -> (forall s, P (BStr s)) -> (forall l, Forall P l -> P (BList l)) ->
  (forall d, Forall (fun kv => P (snd kv)) d -> P (BDict d)) -> P BOther -> forall v, P v.
Proof.
  intros Hi Hs Hl Hd Ho. fix IH 1. intros [n|s|l|d|]; [apply Hi|apply Hs| | |apply Ho].
  - apply Hl. induction l as [|x l IHl]; constructor; [apply IH|exact IHl].
  - apply Hd. induction d as [|[k x] d IHd]; constructor; [apply IH|exact IHd].
Qed.

Lemma seqRes_ok {E A B} (f : A -> res E B) (g : A -> B) l :
  Forall (fun x => f x = Ok (g x)) l -> seqRes (map f l) = Ok (map g l).
Proof. induction 1 as [|x l Hx Hl IH]; [done|]. cbn [map seqRes]. by rewrite Hx, IH. Qed.

(** The bytes of an accepted value. *)
Definition enc (v : bval) : gostr := match encodeValue v with Ok b => b | Err _ => [] end.

Lemma enc_ok v : wfv v -> encodeValue v = Ok (enc v).
Proof.
  intros H. assert (exists b, encodeValue v = Ok b) as [b Hb]; [|unfold enc; by rewrite Hb].
  revert H. induction v as [n|s|l IH|d IH|] using bval_ind2; intros H; inv H; [by eexists..| |].
  - cbn [encodeValue]. rewrite (seqRes_ok _ enc); [by eexists|].
    rewrite Forall_forall in *. intros x Hx. destruct (IH x Hx) as [b Hb]; [auto|].
    unfold enc. by rewrite Hb.
  - cbn [encodeValue]. rewrite sortKeys_map, map_map.
    rewrite (seqRes_ok _ (fun kv => encodeString (fst kv) ++ enc (snd kv))); [by eexists|].
    apply Forall_forall. intros kv Hkv. rewrite sortKeys_perm in Hkv. rewrite Forall_forall in IH.
    unfold encodeEntry. cbn [fst snd]. destruct (IH kv Hkv) as [b Hb].
    { rewrite Forall_forall in H3. apply H3. apply list_elem_of_fmap. eauto. }
    unfold enc. by rewrite Hb.
Qed.

Lemma enc_list l : Forall wfv l -> enc (BList l) = "l" ++ concat (map enc l) ++ "e".
Proof.
  intros H. unfold enc at 1. cbn [encodeValue]. rewrite (seqRes_ok _ enc); [done|].
  eapply Forall_impl; [done|]. intros x. apply enc_ok.
Qed.

Definition encEntry (kv : gostr * bval) : gostr := encodeString (fst kv) ++ enc (snd kv).

Lemma enc_dict d : Forall wfv (map snd d) ->
  enc (BDict d) = "d" ++ concat (map encEntry (sortKeys d)) ++ "e".
Proof.
  intros H. unfold enc. cbn [encodeValue]. rewrite sortKeys_map, map_map.
  rewrite (seqRes_ok _ encEntry); [done|].
  apply Forall_forall. intros kv Hkv. rewrite sortKeys_perm in Hkv. 
  unfold encodeEntry, encEntry. cbn [fst snd]. rewrite enc_ok; [done|].
  by apply (wf_value d).
Qed.

Lemma wfv_norm v : wfv v -> wfv (norm v).
Proof.
  induction v as [n|s|l IH|d IH|] using bval_ind2; intros H; try done; inv H; cbn [norm].
  - apply wf_list. apply Forall_map. rewrite Forall_forall in *. auto.
  - set (d' := map (fun kv => (fst kv, norm (snd kv))) d).
    assert (Hk : map fst d' = map fst d) by (unfold d'; by rewrite map_map).
    apply wf_dict.
    + rewrite (Permutation_map fst (sortKeys_perm d')), Hk. done.
    + rewrite sortKeys_perm. unfold d'. apply Forall_map. done.
    + rewrite (Permutation_map snd (sortKeys_perm d')). unfold d'. rewrite map_map. cbn [snd].
      apply Forall_map. rewrite Forall_forall in IH |- *. intros kv Hkv. apply IH; [done|].
      by apply (wf_value d).
Qed.

(** The encoding depends only on the canonical form. *)
Lemma enc_norm v : wfv v -> enc (norm v) = enc v.
Proof.
  induction v as [n|s|l IH|d IH|] using bval_ind2; intros H; try done.
  - pose proof (wfv_norm _ H) as Hn. inv H. cbn [norm] in *. inv Hn. rewrite !enc_list by done.
    do 3 f_equal. rewrite map_map. apply map_ext_in. intros x Hx%list_elem_of_In.
    rewrite Forall_forall in *. auto.
  - pose proof (wfv_norm _ H) as Hn. inv H. cbn [norm] in *. inv Hn. rewrite !enc_dict by done.
    do 3 f_equal. rewrite (sortKeys_id (sortKeys _)) by apply sortKeys_sorted.
    rewrite sortKeys_map, map_map. apply map_ext_in. intros kv Hkv%list_elem_of_In.
    rewrite sortKeys_perm in Hkv. unfold encEntry. cbn [fst snd]. f_equal.
    rewrite Forall_forall in IH. apply IH; [done|]. by apply (wf_value d).
Qed.

(** ** Decoding an encoding *)
Lemma no_char_format n c : 0 <= n -> byte_val c < 48 \/ 57 < byte_val c -> c ∉ formatUint n.
Proof.
  intros Hn Hc Hin. pose proof (formatUint_digits n Hn) as Hd. rewrite Forall_forall in Hd.
  apply Hd in Hin. unfold is_digit in Hin. lia.
Qed.

Lemma readUntil_app a c t : c ∉ a -> readUntil (a ++ c :: t) c = Ok (a, t).
Proof.
  intros Ha. unfold readUntil. rewrite indexByte_app by done. rewrite take_app_length. do 2 f_equal.
  change (a ++ c :: t) with (a ++ [c] ++ t). rewrite (assoc_L (++)).
  replace (S (length a)) with (length (a ++ [c])) by (rewrite length_app; simpl; lia).
  apply drop_app_length.
Qed.

Lemma decodeString_enc s t : slen s <= maxString -> decodeString (encodeString s ++ t) = Ok (s, t).
Proof.
  intros Hs. unfold encodeString, decodeString. rewrite <- !(assoc_L (++)).
  assert (Hn : 0 <= slen s) by (unfold slen; lia).
  assert (Hf : formatInt (slen s) = formatUint (slen s)).
  { unfold formatInt. destruct (slen s <? 0) eqn:E; bool_hyps; [lia|done]. }
  change (":" ++ s ++ t) with (":"%char :: (s ++ t)).
  rewrite readUntil_app. 2: { rewrite Hf. apply no_char_format; [done|]. right. done. }
  cbn [res_bind]. rewrite parseInt_formatInt by (unfold i64_ok, maxString in *; lia).
  destruct (_ || _) eqn:E; [apply orb_prop in E as [|]; bool_hyps; unfold maxString in *; lia|].
  unfold slen. rewrite Nat2Z.id. destruct s as [|c s]; [done|].
  change ((length (c :: s) =? 0)%nat) with false. cbv iota.
  change ((c :: s) ++ t) with (c :: (s ++ t)) at 1.
  assert ((length ((c :: s) ++ t) <? length (c :: s))%nat = false) as ->.
  { apply Nat.ltb_ge. rewrite length_app. lia. }
  by rewrite take_app_length, drop_app_length.
Qed.

Lemma decodeInt_enc n t : i64_ok n -> decodeInt (formatInt n ++ "e" ++ t) = Ok (n, t).
Proof.
  intros Hn. unfold decodeInt. change ("e" ++ t) with ("e"%char :: t).
  rewrite readUntil_app.
  - cbn [res_bind]. by rewrite parseInt_formatInt.
  - unfold formatInt. destruct (n <? 0) eqn:E; bool_hyps.
    + rewrite not_elem_of_cons. split; [done|]. apply no_char_format; [lia|]. right. done.
    + apply no_char_format; [lia|]. right. done.
Qed.

Lemma encodeString_head s : exists c r, encodeString s = c :: r /\ is_digit c.
Proof.
  unfold encodeString. assert (Hf : formatInt (slen s) = formatUint (slen s)).
  { unfold formatInt, slen. destruct (_ <? 0) eqn:E; bool_hyps; [lia|done]. }
  rewrite Hf. pose proof (formatUint_not_nil (slen s)). destruct (formatUint (slen s)) as [|c r] eqn:E; [done|].
  exists c, (r ++ ":" ++ s). split; [done|].
  apply (formatUint_head (slen s)); [unfold slen; lia|by rewrite E].
Qed.

Lemma digit_dispatch c :
  is_digit c -> bool_decide (c = "i"%char) = false /\ bool_decide (c = "l"%char) = false /\
  bool_decide (c = "d"%char) = false /\ bool_decide (c = "e"%char) = false /\ isDigit c = true.
Proof.
  unfold is_digit, isDigit. intros Hd. repeat split; try (apply bool_decide_eq_false_2; intros ->; revert Hd; vm_compute; naive_solver).
  apply andb_true_intro. split; apply Z.leb_le; lia.
Qed.

Lemma enc_head v : wfv v -> exists c r, enc v = c :: r /\ c <> "e"%char.
Proof.
  intros H. inv H.
  - by eexists _, _.
  - destruct (encodeString_head s) as (c & r & Hc & Hd). exists c, r. split; [done|]. intros ->.
    destruct (digit_dispatch _ Hd) as (_ & _ & _ & He & _). done.
  - rewrite enc_list by done. by eexists _, _.
  - rewrite enc_dict by done. by eexists _, _.
Qed.

Definition decodes (v : bval) : Prop :=
  forall t f, (2 * length (enc v) < f)%nat -> decodeValue f (enc v ++ t) = Some (Ok (norm v, t)).

Lemma decodeList_enc l acc t f :
  Forall wfv l -> Forall decodes l -> (2 * length (concat (map enc l)) + 2 < f)%nat ->
  decodeList f (concat (map enc l) ++ "e" ++ t) acc = Some (Ok (BList (acc ++ map norm l), t)).
Proof.
  intros Hw. revert acc f. induction l as [|v l IH]; intros acc f Hd Hf.
  - destruct f; [lia|]. cbn [map concat]. rewrite app_nil_r. done.
  - destruct f as [|f]; [lia|]. inv Hw. inv Hd. cbn [map concat] in *. rewrite length_app in Hf.
    rewrite <- (assoc_L (++)). destruct (enc_head v H1) as (c & r & Hc & Hne).
    assert (Hlen : (1 <= length (enc v))%nat) by (rewrite Hc; simpl; lia).
    set (rest := concat (map enc l) ++ "e" ++ t).
    assert (Hv : decodeValue f (enc v ++ rest) = Some (Ok (norm v, rest))) by (apply H3; lia).
    assert (Hstep : decodeList (S f) (enc v ++ rest) acc =
      match decodeValue f (enc v ++ rest) with
      | None => None | Some (Err e) => Some (Err e)
      | Some (Ok (v, r)) => decodeList f r (acc ++ [v]) end).
    { rewrite Hc. cbn [app decodeList]. by rewrite bool_decide_eq_false_2. }
    rewrite Hstep, Hv. unfold rest. rewrite IH by (done || lia). by rewrite <- (assoc_L (++)).
Qed.

Lemma decodeDict_enc d acc t f :
  Forall wfv (map snd d) -> Forall (fun kv => slen (fst kv) <= maxString) d ->
  Forall (fun kv => decodes (snd kv)) d -> NoDup (map fst acc ++ map fst d) ->
  (2 * length (concat (map encEntry d)) + 2 < f)%nat ->
  decodeDict f (concat (map encEntry d) ++ "e" ++ t) acc =
  Some (Ok (BDict (acc ++ map (fun kv => (fst kv, norm (snd kv))) d), t)).
Proof.
  revert acc f. induction d as [|[k v] d IH]; intros acc f Hw Hk Hd Hn Hf.
  - destruct f; [lia|]. cbn [map concat]. rewrite app_nil_r. done.
  - destruct f as [|f]; [lia|]. inv Hw. inv Hk. inv Hd. cbn [map concat fst snd] in *.
    rewrite length_app in Hf. rewrite <- (assoc_L (++)).
    unfold encEntry in Hf at 1. unfold encEntry at 1. cbn [fst snd] in *. rewrite length_app in Hf.
    rewrite <- (assoc_L (++)). destruct (encodeString_head k) as (c & r & Hc & Hdg).
    assert (Hlen : (1 <= length (encodeString k))%nat) by (rewrite Hc; simpl; lia).
    set (rest := concat (map encEntry d) ++ "e" ++ t).
    assert (Hv : decodeValue f (enc v ++ rest) = Some (Ok (norm v, rest))) by (apply H5; lia).
    assert (Hstep : decodeDict (S f) (encodeString k ++ enc v ++ rest) acc =
      match decodeString (encodeString k ++ enc v ++ rest) with
      | Err e => Some (Err e)
      | Ok (key, r) => match decodeValue f r with
                       | None => None | Some (Err e) => Some (Err e)
                       | Some (Ok (v, r)) => decodeDict f r (odSet acc key v) end
      end).
    { rewrite Hc. cbn [app decodeDict]. destruct (digit_dispatch c Hdg) as (_ & _ & _ & -> & _). done. }
    rewrite Hstep, decodeString_enc, Hv by done.
    assert (Hfresh : k ∉ map fst acc).
    { apply NoDup_app in Hn as (_ & Hn & _). intros Hin. apply (Hn k Hin). by left. }
    rewrite odSet_fresh by done. unfold rest. rewrite IH; try done.
    + by rewrite <- (assoc_L (++)).
    + rewrite map_app, <- (assoc_L (++)). done.
    + lia.
Qed.

Lemma decode_enc v : wfv v -> decodes v.
Proof.
  induction v as [n|s|l IH|d IH|] using bval_ind2; intros Hw t f Hf; inv Hw; (destruct f as [|f]; [lia|]).
  - assert (Hh : enc (BInt n) ++ t = "i"%char :: (formatInt n ++ "e" ++ t)).
    { unfold enc. cbn [encodeValue]. unfold encodeInt. by rewrite <- !(assoc_L (++)). }
    rewrite Hh. cbn [decodeValue]. cbn. by rewrite decodeInt_enc.
  - destruct (encodeString_head s) as (c & r & Hc & Hd).
    change (enc (BStr s)) with (encodeString s) in *.
    assert (Hstep : decodeValue (S f) (encodeString s ++ t) =
      Some (let? (b, r) := decodeString (encodeString s ++ t) in Ok (BStr b, r))).
    { rewrite Hc. cbn [app decodeValue]. destruct (digit_dispatch c Hd) as (-> & -> & -> & _ & ->). done. }
    rewrite Hstep, decodeString_enc by done. done.
  - rewrite enc_list in * by done.
    assert (Hh : ("l" ++ concat (map enc l) ++ "e") ++ t = "l"%char :: (concat (map enc l) ++ "e" ++ t)).
    { by rewrite <- !(assoc_L (++)). }
    rewrite Hh. rewrite !length_app in Hf. cbn [length] in Hf.
    change (decodeValue (S f) ("l"%char :: ?x)) with (decodeList f x []).
    change (length "l") with 1%nat in Hf. change (length "e") with 1%nat in Hf.
    rewrite decodeList_enc; [done|done| |lia]. rewrite Forall_forall in *. auto.
  - rewrite enc_dict in * by done.
    assert (Hh : ("d" ++ concat (map encEntry (sortKeys d)) ++ "e") ++ t =
      "d"%char :: (concat (map encEntry (sortKeys d)) ++ "e" ++ t)).
    { by rewrite <- !(assoc_L (++)). }
    rewrite Hh. rewrite !length_app in Hf.
    change (decodeValue (S f) ("d"%char :: ?x)) with (decodeDict f x []).
    change (length "d") with 1%nat in Hf. change (length "e") with 1%nat in Hf.
    rewrite decodeDict_enc.
    + cbn [norm]. by rewrite sortKeys_map.
    + by rewrite (Permutation_map snd (sortKeys_perm d)).
    + by rewrite sortKeys_perm.
    + rewrite sortKeys_perm. rewrite Forall_forall in IH |- *. intros kv Hkv. apply IH; [done|].
      by apply (wf_value d).
    + cbn [map app]. by rewrite (Permutation_map fst (sortKeys_perm d)).
    + lia.
Qed.

Lemma BencodeDecode_enc v : wfv v -> BencodeDecode (enc v) = Some (Ok (norm v)).
Proof.
  intros Hw. unfold BencodeDecode, fuelFor. rewrite <- (app_nil_r (enc v)) at 2.
  rewrite (decode_enc v Hw); [done|]. lia.
Qed.

(** ** Properties *)

(** Decoding the encoding of a value gives the value back, with the keys of
    every dictionary in ascending order; the bytes are canonical, since the
    sorted value has the same encoding. *)
Theorem bencode_roundtrip v :
  wfv v -> exists b, BencodeEncode v = Ok b /\ BencodeDecode b = Some (Ok (norm v)) /\
  BencodeEncode (norm v) = Ok b.
Proof.
  intros Hw. exists (enc v). split; [by apply enc_ok|]. split; [by apply BencodeDecode_enc|].
  unfold BencodeEncode. rewrite enc_ok by by apply wfv_norm. by rewrite enc_norm.
Qed.

Definition ex_bval : bval :=
  BDict [("b" : gostr, BList [BInt (-3); BStr "x"]); ("a" : gostr, BInt 0)].

Lemma bencode_roundtrip_witness :
  exists b, BencodeEncode ex_bval = Ok b /\ BencodeDecode b = Some (Ok (norm ex_bval)) /\
  BencodeEncode (norm ex_bval) = Ok b.
Proof.
  apply bencode_roundtrip. apply wf_dict.
  - apply (bool_decide_unpack _). vm_compute. exact I.
  - apply Forall_cons_2; [vm_compute; discriminate|]. apply Forall_singleton. vm_compute. discriminate.
  - apply Forall_cons_2; [|apply Forall_singleton; apply wf_int; unfold i64_ok; lia].
    apply wf_list. apply Forall_cons_2; [apply wf_int; unfold i64_ok; lia|].
    apply Forall_singleton. apply wf_str. vm_compute. discriminate.
Defined.

(** The decoder answers on every input: it terminates with a value or an
    error within a number of steps linear in the input. *)
Theorem bencode_decode_total data : exists r, BencodeDecode data = Some r.
Proof.
  unfold BencodeDecode, fuelFor. destruct (decode_total (2 * length data + 3)) as [Hv _].
  destruct (Hv data ltac:(lia)) as (r & -> & _). destruct r as [[v t]|e]; by eexists.
Qed.
