(* ===== verification/Torrent.v ===== *)
(** [pkg/torrent/torrent.go]: the torrent structure with the CAS extension, its
    encoding and decoding. SHA-1 and MD5 are parameters. *)
From S2P Require Import Prelude GoString Bencode.

Record CASInfo := mkCAS {
  FileMD5 : gostr; SliceMD5 : gostr; SliceMD5s : list gostr; SliceSize : Z; Cloud : gostr }.

Record TorrentFile := mkFile { fLength : Z; fPath : list gostr; fMD5Sum : gostr }.

Record TorrentInfo := mkInfo {
  PieceLength : Z; Pieces : gostr; Name : gostr; Length : Z; Files : list TorrentFile; MD5Sum : gostr }.

Record Torrent := mkTorrent {
  Info : TorrentInfo; InfoHash : gostr; Announce : gostr; AnnounceList : list (list gostr);
  CreationDate : Z; Comment : gostr; CreatedBy : gostr; CAS : option CASInfo }.

Definition DefaultPieceSize : Z := 10 * 1024 * 1024.

Definition NewTorrent (now : Z) (name : gostr) (fileSize : Z) (fileMD5 : gostr) : Torrent :=
  mkTorrent (mkInfo DefaultPieceSize [] name fileSize [] fileMD5) [] [] [] now
    "Generated by OpenList with CAS extension" "OpenList" None.

Definition SetPieces (t : Torrent) (pieces : gostr) : Torrent :=
  let i := Info t in
  mkTorrent (mkInfo (PieceLength i) pieces (Name i) (Length i) (Files i) (MD5Sum i)) (InfoHash t)
    (Announce t) (AnnounceList t) (CreationDate t) (Comment t) (CreatedBy t) (CAS t).

Definition SetCASInfo (t : Torrent) (cas : CASInfo) : Torrent :=
  mkTorrent (Info t) (InfoHash t) (Announce t) (AnnounceList t) (CreationDate t) (Comment t)
    (CreatedBy t) (Some cas).

(** A map of the encoder. *)
Definition dict := list (gostr * bval).

Definition setStr (d : dict) (k : gostr) (s : gostr) : dict :=
  if seqb s "" then d else odSet d k (BStr s).

(** The dictionary of one file in the multi-file mode. *)
Definition fileDict (f : TorrentFile) : dict :=
  let d := odSet [] "length" (BInt (fLength f)) in
  let d := odSet d "path" (BList (map BStr (fPath f))) in
  setStr d "md5sum" (fMD5Sum f).

Definition infoDict (i : TorrentInfo) : dict :=
  let d := odSet [] "piece length" (BInt (PieceLength i)) in
  let d := odSet d "pieces" (BStr (Pieces i)) in
  let d := odSet d "name" (BStr (Name i)) in
  match Files i with
  | _ :: _ => odSet d "files" (BList (map (fun f => BDict (fileDict f)) (Files i)))
  | [] => setStr (odSet d "length" (BInt (Length i))) "md5sum" (MD5Sum i)
  end.

Definition casDict (c : CASInfo) : dict :=
  let d := odSet [] "cloud" (BStr (Cloud c)) in
  let d := odSet d "file_md5" (BStr (FileMD5 c)) in
  let d := odSet d "slice_md5" (BStr (SliceMD5 c)) in
  let d := odSet d "slice_size" (BInt (SliceSize c)) in
  match SliceMD5s c with
  | _ :: _ => odSet d "slice_md5s" (BList (map BStr (SliceMD5s c)))
  | [] => d
  end.

Definition rootDict (t : Torrent) : dict :=
  let d := setStr [] "announce" (Announce t) in
  let d := match AnnounceList t with
           | _ :: _ => odSet d "announce-list"
                         (BList (map (fun tier => BList (map BStr tier)) (AnnounceList t)))
           | [] => d
           end in
  let d := setStr d "comment" (Comment t) in
  let d := setStr d "created by" (CreatedBy t) in
  let d := if 0 <? CreationDate t then odSet d "creation date" (BInt (CreationDate t)) else d in
  let d := odSet d "info" (BDict (infoDict (Info t))) in
  match CAS t with
  | Some c => odSet d "x-cas" (BDict (casDict c))
  | None => d
  end.

Inductive torrent_err := DecodeErr (e : berr) | EncodeErr (e : berr) | RootNotDict | InfoNotDict.

Section Hashes.
Context (sha1 md5hex : gostr -> gostr).

Definition set_InfoHash (t : Torrent) (h : gostr) : Torrent :=
  mkTorrent (Info t) h (Announce t) (AnnounceList t) (CreationDate t) (Comment t) (CreatedBy t) (CAS t).

(** Encode also stores the info hash in the torrent. *)
Definition Encode (t : Torrent) : res torrent_err (Torrent * gostr) :=
  match BencodeEncode (BDict (infoDict (Info t))) with
  | Err e => Err (EncodeErr e)
  | Ok infoBytes =>
      let t := set_InfoHash t (sha1 infoBytes) in
      match BencodeEncode (BDict (rootDict t)) with
      | Err e => Err (EncodeErr e)
      | Ok b => Ok (t, b)
      end
  end.

(** The lookups of Decode: a missing key or another type leaves the zero value. *)
Definition getStr (d : dict) (k : gostr) : gostr :=
  match odGet d k with Some (BStr b) => b | _ => [] end.
Definition getInt (d : dict) (k : gostr) : Z :=
  match odGet d k with Some (BInt n) => n | _ => 0 end.
Definition getList (d : dict) (k : gostr) : list bval :=
  match odGet d k with Some (BList l) => l | _ => [] end.

Definition strings_of (l : list bval) : list gostr :=
  omap (fun v => match v with BStr b => Some b | _ => None end) l.

Definition tiers_of (l : list bval) : list (list gostr) :=
  omap (fun v => match v with
                 | BList tier => match strings_of tier with [] => None | urls => Some urls end
                 | _ => None
                 end) l.

Definition files_of (l : list bval) : list TorrentFile :=
  omap (fun v => match v with
                 | BDict d => Some (mkFile (getInt d "length") (strings_of (getList d "path"))
                                      (getStr d "md5sum"))
                 | _ => None
                 end) l.

Definition info_of (d : dict) : TorrentInfo :=
  mkInfo (getInt d "piece length") (getStr d "pieces") (getStr d "name") (getInt d "length")
    (files_of (getList d "files")) (getStr d "md5sum").

Definition cas_of (d : dict) : CASInfo :=
  mkCAS (getStr d "file_md5") (getStr d "slice_md5") (strings_of (getList d "slice_md5s"))
    (getInt d "slice_size") (getStr d "cloud").

Definition decodeRoot (root : dict) : res torrent_err Torrent :=
  let mk info hash :=
    mkTorrent info hash (getStr root "announce") (tiers_of (getList root "announce-list"))
      (getInt root "creation date") (getStr root "comment") (getStr root "created by")
      (match odGet root "x-cas" with Some (BDict c) => Some (cas_of c) | _ => None end) in
  match odGet root "info" with
  | None => Ok (mk (mkInfo 0 [] [] 0 [] []) [])
  | Some (BDict d) =>
      match BencodeEncode (BDict d) with
      | Err e => Err (EncodeErr e)
      | Ok infoBytes => Ok (mk (info_of d) (sha1 infoBytes))
      end
  | Some _ => Err InfoNotDict
  end.

Definition Decode (data : gostr) : option (res torrent_err Torrent) :=
  match BencodeDecode data with
  | None => None
  | Some (Err e) => Some (Err (DecodeErr e))
  | Some (Ok (BDict root)) => Some (decodeRoot root)
  | Some (Ok _) => Some (Err RootNotDict)
  end.

(** GetPieceHashes: one hash per 20 bytes, a shorter rest is dropped. *)
Fixpoint pieceHashes (count : nat) (pieces : gostr) : list gostr :=
  match count with
  | O => []
  | S k => take 20 pieces :: pieceHashes k (drop 20 pieces)
  end.
Definition GetPieceHashes (t : Torrent) : list gostr :=
  pieceHashes (length (Pieces (Info t)) / 20) (Pieces (Info t)).

Definition GetTotalSize (t : Torrent) : Z :=
  match Files (Info t) with
  | [] => Length (Info t)
  | fs => fold_left (fun total f => i64 (total + fLength f)) fs 0
  end.

Definition HasCASInfo (t : Torrent) : bool :=
  match CAS t with
  | Some c => negb (seqb (FileMD5 c) "") && negb (seqb (SliceMD5 c) "")
  | None => false
  end.

(** BuildCASInfoFromMD5s; [md5hex] is GetMD5Str, the upper-case digest. *)
Definition BuildCASInfoFromMD5s (fileMD5 : gostr) (sliceMD5s : list gostr) (sliceSize : Z) : CASInfo :=
  let sliceMD5 := match sliceMD5s with
                  | _ :: _ :: _ => md5hex (joinStr sliceMD5s [ascii_of_nat 10])
                  | _ => fileMD5
                  end in
  mkCAS fileMD5 sliceMD5 sliceMD5s sliceSize "189".
End Hashes.

(** ** Dictionaries *)
Lemma odGet_set {A} (d : list (gostr * A)) k v k' :
  odGet (odSet d k v) k' = if seqb k k' then Some v else odGet d k'.
Proof.
  induction d as [|[k0 v0] d IH]; cbn [odSet odGet]; [done|].
  destruct (seqb k0 k) eqn:E.
  - apply seqb_true in E. subst k0. cbn [odGet]. by destruct (seqb k k').
  - cbn [odGet]. rewrite IH. destruct (seqb k0 k') eqn:E0; [|done].
    apply seqb_true in E0. subst k0. destruct (seqb k k') eqn:E1; [|done].
    apply seqb_true in E1. subst k'. by rewrite seqb_refl in E.
Qed.

Lemma odGet_None {A} (d : list (gostr * A)) k : k ∉ map fst d -> odGet d k = None.
Proof.
  induction d as [|[k0 v0] d IH]; cbn [map fst odGet]; [done|]. rewrite not_elem_of_cons. intros [Hne Hd].
  destruct (seqb k0 k) eqn:E; [apply seqb_true in E; by subst|]. by apply IH.
Qed.

Lemma odGet_Some {A} (d : list (gostr * A)) k v :
  NoDup (map fst d) -> odGet d k = Some v <-> (k, v) ∈ d.
Proof.
  induction d as [|[k0 v0] d IH]; cbn [map fst odGet]; intros Hn.
  - split; [done|]. by intros ?%not_elem_of_nil.
  - apply NoDup_cons in Hn as [Hx Hn]. rewrite elem_of_cons. destruct (seqb k0 k) eqn:E.
    + apply seqb_true in E. subst k0. split; [intros [= <-]; by left|].
      intros [[= ->]|Hin]; [done|]. exfalso. apply Hx, list_elem_of_fmap. by exists (k, v).
    + apply seqb_false in E. rewrite IH by done. split; [by right|]. intros [[= ? ?]|?]; [by subst|done].
Qed.

Lemma odGet_perm {A} (d d' : list (gostr * A)) k :
  NoDup (map fst d) -> d ≡ₚ d' -> odGet d k = odGet d' k.
Proof.
  intros Hn Hp. assert (Hn' : NoDup (map fst d')) by by rewrite <- (Permutation_map fst Hp).
  apply option_eq. intros v. rewrite !odGet_Some by done. by rewrite Hp.
Qed.

Lemma odGet_map {A B} (f : A -> B) (d : list (gostr * A)) k :
  odGet (map (fun kv => (fst kv, f (snd kv))) d) k = f <$> odGet d k.
Proof. induction d as [|[k0 v0] d IH]; cbn [map odGet fst snd]; [done|]. by destruct (seqb k0 k). Qed.

Definition wfd (d : dict) : Prop :=
  NoDup (map fst d) /\ Forall (fun kv => slen (fst kv) <= maxString /\ wfv (snd kv)) d.

Lemma wfd_nil : wfd [].
Proof. split; [apply NoDup_nil_2|constructor]. Qed.

Lemma odSet_keys {A} (d : list (gostr * A)) k v x : x ∈ map fst (odSet d k v) -> x = k \/ x ∈ map fst d.
Proof.
  induction d as [|[k0 v0] d IH]; cbn [odSet map fst].
  - intros ?%list_elem_of_singleton. by left.
  - destruct (seqb k0 k) eqn:E; cbn [map fst]; rewrite elem_of_cons; [intros [->|?]|intros [->|?]].
    + right. by left.
    + right. by right.
    + right. by left.
    + destruct IH as [->|?]; [done|by left|]. right. by right.
Qed.

Lemma wfd_set d k v : wfd d -> slen k <= maxString -> wfv v -> wfd (odSet d k v).
Proof.
  intros [Hn Hf] Hk Hv. induction d as [|[k0 v0] d IH]; cbn [odSet].
  - split; [apply NoDup_singleton|]. by apply Forall_singleton.
  - cbn [map fst] in Hn. apply NoDup_cons in Hn as [Hx Hn]. apply Forall_cons in Hf as [H0 Hf].
    destruct (seqb k0 k) eqn:E.
    + apply seqb_true in E. subst k0. split; [by apply NoDup_cons|]. by apply Forall_cons.
    + destruct (IH Hn Hf) as [I1 I2]. apply seqb_false in E. split; [|by apply Forall_cons].
      cbn [map fst]. apply NoDup_cons. split; [|done]. intros [?|?]%odSet_keys; done.
Qed.

Lemma wfd_wfv d : wfd d -> wfv (BDict d).
Proof.
  intros [Hn Hf]. apply wf_dict; [done|..].
  - eapply Forall_impl; [done|]. by intros ? [].
  - apply Forall_map. eapply Forall_impl; [done|]. by intros ? [].
Qed.

(** The canonical dictionary has the same entries. *)
Definition normDict (d : dict) : dict := sortKeys (map (fun kv => (fst kv, norm (snd kv))) d).

Lemma get_norm d k : wfd d -> odGet (normDict d) k = norm <$> odGet d k.
Proof.
  intros [Hn _]. unfold normDict. rewrite <- odGet_map. apply odGet_perm; [|apply sortKeys_perm].
  rewrite (Permutation_map fst (sortKeys_perm _)), map_map. done.
Qed.

Lemma getStr_norm d k : wfd d -> getStr (normDict d) k = getStr d k.
Proof. intros Hw. unfold getStr. rewrite get_norm by done. destruct (odGet d k) as [[]|]; done. Qed.

Lemma getInt_norm d k : wfd d -> getInt (normDict d) k = getInt d k.
Proof. intros Hw. unfold getInt. rewrite get_norm by done. destruct (odGet d k) as [[]|]; done. Qed.

Lemma getList_norm d k : wfd d -> getList (normDict d) k = map norm (getList d k).
Proof. intros Hw. unfold getList. rewrite get_norm by done. destruct (odGet d k) as [[]|]; done. Qed.

Lemma strings_norm l : strings_of (map norm l) = strings_of l.
Proof. unfold strings_of. induction l as [|[] l IH]; cbn [map norm omap list_omap]; [done|..]; by rewrite ?IH. Qed.

Lemma strings_map l : strings_of (map BStr l) = l.
Proof. unfold strings_of. induction l as [|s l IH]; cbn; [done|]. by rewrite IH. Qed.

Lemma wfd_setStr d k s : wfd d -> slen k <= maxString -> slen s <= maxString -> wfd (setStr d k s).
Proof. intros Hd Hk Hs. unfold setStr. destruct (seqb s ""); [done|]. apply wfd_set; [done|done|by constructor]. Qed.

Lemma wf_strings l : Forall (fun s => slen s <= maxString) l -> wfv (BList (map BStr l)).
Proof. intros H. constructor. apply Forall_map. eapply Forall_impl; [done|]. intros s Hs. by constructor. Qed.

(** Lookups after a chain of assignments. *)
Lemma odGet_setStr d k s k' :
  odGet (setStr d k s) k' = if seqb k k' then (if seqb s "" then odGet d k' else Some (BStr s)) else odGet d k'.
Proof.
  unfold setStr. destruct (seqb s "") eqn:E; [by destruct (seqb k k')|]. by rewrite odGet_set.
Qed.

(** ** Torrents that survive a round trip

    Integers are int64 values, no string is longer than the decoder accepts, a
    tracker tier has a tracker, the creation date is not negative, and a
    torrent with several files has no length or MD5 of its own. *)
Definition short (s : gostr) : Prop := slen s <= maxString.

Record wf_file (f : TorrentFile) : Prop := {
  wff_len : i64_ok (fLength f); wff_path : Forall short (fPath f); wff_md5 : short (fMD5Sum f) }.

Record wf_torrent (t : Torrent) : Prop := {
  wft_piece : i64_ok (PieceLength (Info t)); wft_pieces : short (Pieces (Info t));
  wft_name : short (Name (Info t)); wft_len : i64_ok (Length (Info t)); wft_md5 : short (MD5Sum (Info t));
  wft_files : Forall wf_file (Files (Info t));
  wft_mode : Files (Info t) <> [] -> Length (Info t) = 0 /\ MD5Sum (Info t) = [];
  wft_announce : short (Announce t);
  wft_list : Forall (fun tier => tier <> [] /\ Forall short tier) (AnnounceList t);
  wft_date : 0 <= CreationDate t < 2 ^ 63; wft_comment : short (Comment t); wft_by : short (CreatedBy t);
  wft_cas : forall c, CAS t = Some c -> short (FileMD5 c) /\ short (SliceMD5 c) /\ short (Cloud c) /\
    i64_ok (SliceSize c) /\ Forall short (SliceMD5s c) }.

Ltac wfd_chain :=
  repeat lazymatch goal with
  | |- wfd (odSet _ _ _) => apply wfd_set
  | |- wfd (setStr _ _ _) => apply wfd_setStr
  | |- wfd [] => apply wfd_nil
  | |- wfd _ => assumption
  | |- slen (list_ascii_of_string _) <= _ => apply Z.leb_le; vm_compute; reflexivity
  | |- slen _ <= _ => assumption
  | |- wfv (BInt _) => apply wf_int; assumption
  | |- wfv (BStr _) => apply wf_str; assumption
  end.

Lemma wfd_file f : wf_file f -> wfd (fileDict f).
Proof. intros []. unfold fileDict. wfd_chain. by apply wf_strings. Qed.

Lemma wfd_info t : wf_torrent t -> wfd (infoDict (Info t)).
Proof.
  intros []. unfold infoDict. destruct (Files (Info t)) as [|f fs] eqn:E.
  - wfd_chain.
  - wfd_chain. constructor. apply Forall_map. eapply Forall_impl; [exact wft_files0|].
    intros x Hx. by apply wfd_wfv, wfd_file.
Qed.

Lemma wfd_cas c :
  short (FileMD5 c) -> short (SliceMD5 c) -> short (Cloud c) -> i64_ok (SliceSize c) ->
  Forall short (SliceMD5s c) -> wfd (casDict c).
Proof.
  intros. unfold casDict. destruct (SliceMD5s c) as [|s l] eqn:E; wfd_chain.
  by apply wf_strings.
Qed.

Lemma wfd_root t : wf_torrent t -> wfd (rootDict t).
Proof.
  intros Hw. pose proof (wfd_wfv _ (wfd_info t Hw)) as Hinfo. destruct Hw. unfold rootDict.
  set (d1 := setStr [] "announce" (Announce t)). assert (H1 : wfd d1) by (unfold d1; wfd_chain).
  set (d2 := match AnnounceList t with [] => d1 | _ => _ end).
  assert (H2 : wfd d2).
  { unfold d2. destruct (AnnounceList t) as [|x l] eqn:E; [done|]. wfd_chain. constructor.
    apply Forall_map. eapply Forall_impl; [exact wft_list0|]. intros tier [_ Hs]. by apply wf_strings. }
  set (d3 := setStr (setStr d2 _ _) _ _). assert (H3 : wfd d3) by (unfold d3; wfd_chain).
  set (d4 := if 0 <? CreationDate t then odSet d3 "creation date" (BInt (CreationDate t)) else d3).
  assert (H4 : wfd d4).
  { unfold d4. destruct (0 <? CreationDate t); [|done]. assert (i64_ok (CreationDate t)) by (unfold i64_ok; lia). wfd_chain. }
  set (d5 := odSet d4 _ _). assert (H5 : wfd d5) by (unfold d5; wfd_chain; done).
  destruct (CAS t) as [c|] eqn:E; [|done]. destruct (wft_cas0 c eq_refl) as (? & ? & ? & ? & ?).
  wfd_chain. by apply wfd_wfv, wfd_cas.
Qed.

Ltac keys := repeat match goal with
  |- context [seqb (list_ascii_of_string ?a) (list_ascii_of_string ?b)] =>
    let v := eval vm_compute in (seqb (list_ascii_of_string a) (list_ascii_of_string b)) in
    change (seqb (list_ascii_of_string a) (list_ascii_of_string b)) with v; cbv iota end.

Ltac lookups := rewrite ?odGet_setStr, ?odGet_set; keys; cbn [odGet].

Lemma str_default s : (match (if seqb s "" then None else Some (BStr s)) with
                       | Some (BStr b) => b | _ => [] end) = s.
Proof. destruct (seqb s "") eqn:E; [|done]. apply seqb_true in E. by subst. Qed.

Lemma file_back f : wf_file f -> files_of (map norm [BDict (fileDict f)]) = [f].
Proof.
  intros Hw. pose proof (wfd_file f Hw) as Hd. cbn [map norm]. fold (normDict (fileDict f)).
  unfold files_of. cbn [omap list_omap].
  rewrite getInt_norm, getStr_norm, getList_norm, strings_norm by done.
  destruct f as [n p m]. do 2 f_equal; unfold getInt, getList, getStr, fileDict; cbn [fLength fPath fMD5Sum]; lookups.
  - done.
  - apply strings_map.
  - apply str_default.
Qed.

Lemma files_back fs :
  Forall wf_file fs -> files_of (map norm (map (fun f => BDict (fileDict f)) fs)) = fs.
Proof.
  induction 1 as [|f fs Hf Hfs IH]; [done|]. pose proof (file_back f Hf) as H1. unfold files_of in *.
  cbn [map omap list_omap norm] in *. rewrite IH. by injection H1 as ->.
Qed.

Lemma info_back t : wf_torrent t -> info_of (normDict (infoDict (Info t))) = Info t.
Proof.
  intros Hw. pose proof (wfd_info t Hw) as Hd. unfold info_of.
  rewrite !getInt_norm, !getStr_norm, getList_norm by done.
  pose proof (wft_mode t Hw) as Hmode. pose proof (files_back _ (wft_files t Hw)) as Hfiles.
  destruct (Info t) as [pl pc nm ln fs md]. cbn [Files Length MD5Sum] in *.
  f_equal; unfold getInt, getStr, getList, infoDict; cbn [PieceLength Pieces Name Length Files MD5Sum];
    destruct fs as [|f fs]; lookups; try done.
  - by destruct Hmode as [-> _].
  - apply str_default.
  - by destruct Hmode as [_ ->].
Qed.

Lemma cas_back c : wfd (casDict c) -> cas_of (normDict (casDict c)) = c.
Proof.
  intros Hd. unfold cas_of. rewrite getInt_norm, !getStr_norm, getList_norm, strings_norm by done.
  destruct c as [fm sm sms sz cl].
  f_equal; unfold getInt, getStr, getList, casDict; cbn [FileMD5 SliceMD5 SliceMD5s SliceSize Cloud];
    destruct sms as [|s sms]; lookups; try done.
  by rewrite strings_map.
Qed.

Lemma tiers_back l :
  Forall (fun tier => tier <> [] /\ Forall short tier) l ->
  tiers_of (map norm (map (fun tier => BList (map BStr tier)) l)) = l.
Proof.
  induction 1 as [|tier l [Hne _] Hl IH]; [done|]. unfold tiers_of in *.
  cbn [map omap list_omap norm]. rewrite strings_norm, strings_map, IH. by destruct tier.
Qed.

Section RoundTrip.
Context (sha1 : gostr -> gostr).

Lemma root_fields t k :
  odGet (rootDict t) k =
  if seqb "x-cas" k then (match CAS t with Some c => Some (BDict (casDict c)) | None => None end)
  else if seqb "info" k then Some (BDict (infoDict (Info t)))
  else if seqb "creation date" k then (if 0 <? CreationDate t then Some (BInt (CreationDate t)) else None)
  else if seqb "created by" k then (if seqb (CreatedBy t) "" then None else Some (BStr (CreatedBy t)))
  else if seqb "comment" k then (if seqb (Comment t) "" then None else Some (BStr (Comment t)))
  else if seqb "announce-list" k then
    (match AnnounceList t with [] => None
     | _ => Some (BList (map (fun tier => BList (map BStr tier)) (AnnounceList t))) end)
  else if seqb "announce" k then (if seqb (Announce t) "" then None else Some (BStr (Announce t)))
  else None.
Proof.
  assert (Hx : forall (a b : gostr), seqb a b = false -> seqb a k = true -> seqb b k = false).
  { intros a b Hab Ha. apply seqb_true in Ha. subst. apply seqb_false. apply seqb_false in Hab. congruence. }
  unfold rootDict. set (d1 := setStr [] "announce" (Announce t)).
  set (d2 := match AnnounceList t with [] => d1 | _ => _ end).
  set (d3 := setStr (setStr d2 _ _) _ _). set (d4 := if 0 <? CreationDate t then odSet d3 "creation date" (BInt (CreationDate t)) else d3).
  set (d5 := odSet d4 _ _).
  assert (H1 : odGet d1 k = if seqb "announce" k
    then (if seqb (Announce t) "" then None else Some (BStr (Announce t))) else None).
  { unfold d1. rewrite odGet_setStr. done. }
  assert (H2 : odGet d2 k = if seqb "announce-list" k then
    (match AnnounceList t with [] => None
     | _ => Some (BList (map (fun tier => BList (map BStr tier)) (AnnounceList t))) end) else odGet d1 k).
  { unfold d2. destruct (AnnounceList t); [|by rewrite odGet_set].
    destruct (seqb "announce-list" k) eqn:E; [|done]. rewrite H1.
    by rewrite (Hx "announce-list" "announce" ltac:(done) E). }
  assert (H3 : odGet d3 k =
    if seqb "created by" k then (if seqb (CreatedBy t) "" then None else Some (BStr (CreatedBy t)))
    else if seqb "comment" k then (if seqb (Comment t) "" then None else Some (BStr (Comment t)))
    else odGet d2 k).
  { unfold d3. rewrite !odGet_setStr, H2, H1.
    destruct (seqb "created by" k) eqn:E1; [|destruct (seqb "comment" k) eqn:E2; [|done]].
    - by rewrite (Hx "created by" "comment" ltac:(done) E1), (Hx "created by" "announce-list" ltac:(done) E1),
        (Hx "created by" "announce" ltac:(done) E1).
    - by rewrite (Hx "comment" "announce-list" ltac:(done) E2), (Hx "comment" "announce" ltac:(done) E2). }
  assert (H4 : odGet d4 k = if seqb "creation date" k
    then (if 0 <? CreationDate t then Some (BInt (CreationDate t)) else None) else odGet d3 k).
  { unfold d4. destruct (0 <? CreationDate t); [by rewrite odGet_set|].
    destruct (seqb "creation date" k) eqn:E; [|done]. rewrite H3, H2, H1.
    by rewrite (Hx "creation date" "created by" ltac:(done) E), (Hx "creation date" "comment" ltac:(done) E),
      (Hx "creation date" "announce-list" ltac:(done) E), (Hx "creation date" "announce" ltac:(done) E). }
  assert (H5 : odGet d5 k = if seqb "info" k then Some (BDict (infoDict (Info t))) else odGet d4 k).
  { unfold d5. by rewrite odGet_set. }
  rewrite <- H1, <- H2, <- H3, <- H4, <- H5. destruct (CAS t) as [c|]; [by rewrite odGet_set|].
  destruct (seqb "x-cas" k) eqn:E; [|done]. rewrite H5, H4, H3, H2, H1.
  by rewrite (Hx "x-cas" "info" ltac:(done) E), (Hx "x-cas" "creation date" ltac:(done) E),
    (Hx "x-cas" "created by" ltac:(done) E), (Hx "x-cas" "comment" ltac:(done) E),
    (Hx "x-cas" "announce-list" ltac:(done) E), (Hx "x-cas" "announce" ltac:(done) E).
Qed.

Lemma decode_root t :
  wf_torrent t -> InfoHash t = sha1 (enc (BDict (infoDict (Info t)))) ->
  decodeRoot sha1 (normDict (rootDict t)) = Ok t.
Proof.
  intros Hw Hh. pose proof (wfd_root t Hw) as Hd. pose proof (wfd_info t Hw) as Hi.
  unfold decodeRoot. rewrite (get_norm _ "info") by done. rewrite root_fields. keys. cbn [fmap option_fmap option_map norm].
  fold (normDict (infoDict (Info t))).
  assert (BencodeEncode (BDict (normDict (infoDict (Info t)))) = Ok (enc (BDict (infoDict (Info t))))) as ->.
  { change (BDict (normDict (infoDict (Info t)))) with (norm (BDict (infoDict (Info t)))).
    pose proof (wfd_wfv _ Hi) as Hv. unfold BencodeEncode. rewrite enc_ok by by apply wfv_norm. by rewrite enc_norm. }
  rewrite info_back, <- Hh, !getStr_norm, getInt_norm, getList_norm, (get_norm _ "x-cas") by done.
  unfold getStr, getInt, getList. rewrite !root_fields. keys. rewrite !str_default.
  pose proof (wft_date t Hw). pose proof (tiers_back _ (wft_list t Hw)) as Htiers.
  pose proof (wft_cas t Hw) as Hcas.
  destruct t as [inf hash ann al cd cm cb cas]. cbn [Info InfoHash Announce AnnounceList CreationDate Comment CreatedBy CAS] in *.
  f_equal. f_equal.
  - destruct al; [done|]. exact Htiers.
  - destruct (0 <? cd) eqn:E; bool_hyps; [done|lia].
  - destruct cas as [c|]; [|done]. cbn [fmap option_fmap option_map norm]. fold (normDict (casDict c)).
    destruct (Hcas c eq_refl) as (? & ? & ? & ? & ?). f_equal. by apply cas_back, wfd_cas.
Qed.
End RoundTrip.

(** ** Properties *)

(** C39: decoding an encoded torrent gives the torrent back, tracker tiers, file
    list and CAS extension included, with the info hash Encode stored; the hash
    Decode computes from the re-encoded info dictionary is the one Encode
    computed from the original one. *)
Theorem torrent_roundtrip sha1 t :
  wf_torrent t ->
  exists t' b, Encode sha1 t = Ok (t', b) /\ Decode sha1 b = Some (Ok t') /\
  t' = set_InfoHash t (InfoHash t') /\
  exists infoBytes, BencodeEncode (BDict (infoDict (Info t))) = Ok infoBytes /\ InfoHash t' = sha1 infoBytes.
Proof.
  intros Hw. pose proof (wfd_wfv _ (wfd_info t Hw)) as Hi.
  set (t' := set_InfoHash t (sha1 (enc (BDict (infoDict (Info t)))))).
  assert (Hw' : wf_torrent t') by (destruct Hw; by constructor).
  pose proof (wfd_wfv _ (wfd_root t' Hw')) as Hr.
  exists t', (enc (BDict (rootDict t'))). unfold Encode, BencodeEncode. rewrite (enc_ok _ Hi).
  fold t'. rewrite (enc_ok _ Hr). split; [done|]. split; [|split; [done|by eexists]].
  unfold Decode. rewrite BencodeDecode_enc by done. cbn [norm]. fold (normDict (rootDict t')).
  by rewrite decode_root.
Qed.

Definition ex_torrent : Torrent :=
  mkTorrent (mkInfo 16384 "0123456789abcdefghij" "dir" 0
               [mkFile 3 (strs ["a"; "b.txt"]) "md"; mkFile 4 (strs ["c"]) []] [])
    [] "http://t" [strs ["http://t"; "udp://u"]] 1700000000 "c" []
    (Some (mkCAS "F" "S" (strs ["x"; "y"]) 10485760 "189")).

Lemma shorts (l : list gostr) : forallb (fun s => slen s <=? maxString) l = true -> Forall short l.
Proof.
  intros H. apply Forall_forall. intros s Hs. rewrite List.forallb_forall in H.
  apply Z.leb_le, H. by apply list_elem_of_In.
Qed.

Lemma short_b s : (slen s <=? maxString) = true -> short s.
Proof. apply Z.leb_le. Qed.

Lemma ex_torrent_wf : wf_torrent ex_torrent.
Proof.
  assert (Hi : forall n, 0 <= n < 2 ^ 63 -> i64_ok n) by (unfold i64_ok; lia).
  constructor.
  - apply Hi. cbn. lia.
  - apply short_b. vm_compute. reflexivity.
  - apply short_b. vm_compute. reflexivity.
  - apply Hi. cbn. lia.
  - apply short_b. vm_compute. reflexivity.
  - apply Forall_cons_2; [|apply Forall_singleton]; constructor.
    + apply Hi. cbn. lia.
    + apply shorts. vm_compute. reflexivity.
    + apply short_b. vm_compute. reflexivity.
    + apply Hi. cbn. lia.
    + apply shorts. vm_compute. reflexivity.
    + apply short_b. vm_compute. reflexivity.
  - intros _. split; reflexivity.
  - apply short_b. vm_compute. reflexivity.
  - apply Forall_singleton. split; [discriminate|]. apply shorts. vm_compute. reflexivity.
  - cbn. lia.
  - apply short_b. vm_compute. reflexivity.
  - apply short_b. vm_compute. reflexivity.
  - intros c [= <-]. split; [|split; [|split; [|split]]].
    + apply short_b. vm_compute. reflexivity.
    + apply short_b. vm_compute. reflexivity.
    + apply short_b. vm_compute. reflexivity.
    + apply Hi. cbn. lia.
    + apply shorts. vm_compute. reflexivity.
Qed.

Lemma torrent_roundtrip_witness :
  let sha1 (s : gostr) : gostr := take 20 (rev s) in
  exists t' b, Encode sha1 ex_torrent = Ok (t', b) /\ Decode sha1 b = Some (Ok t') /\
  t' = set_InfoHash ex_torrent (InfoHash t') /\
  exists infoBytes, BencodeEncode (BDict (infoDict (Info ex_torrent))) = Ok infoBytes /\
    InfoHash t' = sha1 infoBytes.
Proof. intros sha1. apply (torrent_roundtrip sha1 ex_torrent). exact ex_torrent_wf. Defined.
