(* ===== verification/HashWriter.v ===== *)
(** [pkg/torrent/hash_writer.go] and [pkg/torrent/generate.go]: the writer that
    computes the MD5 of a file, the MD5 of its slices and the SHA-1 of its
    pieces in one pass, and the torrents built from it. A hash.Hash is the list
    of bytes written to it since the last Reset; the digests are parameters. *)
From S2P Require Import Prelude GoString Bencode Torrent.

Record HashWriter := mkHW {
  fileBuf : gostr;
  sliceBuf : gostr;
  pieceBuf : gostr;
  sliceSize : Z;
  pieceSize : Z;
  sliceWritten : Z;
  pieceWritten : Z;
  totalWritten : Z;
  sliceMD5Hexs : list gostr;
  pieceSums : gostr }.

Definition NewHashWriter (sliceSize pieceSize : Z) : HashWriter :=
  let sliceSize := if sliceSize <=? 0 then DefaultPieceSize else sliceSize in
  let pieceSize := if pieceSize <=? 0 then DefaultPieceSize else pieceSize in
  mkHW [] [] [] sliceSize pieceSize 0 0 0 [] [].

Definition NewDefaultHashWriter : HashWriter := NewHashWriter DefaultPieceSize DefaultPieceSize.

Section Digests.
Context (sha1 : gostr -> gostr).
(** MD5 in upper-case hexadecimal. *)
Context (md5hex : gostr -> gostr).

Definition finishSlice (hw : HashWriter) : HashWriter :=
  mkHW (fileBuf hw) [] (pieceBuf hw) (sliceSize hw) (pieceSize hw) 0 (pieceWritten hw)
    (totalWritten hw) (sliceMD5Hexs hw ++ [md5hex (sliceBuf hw)]) (pieceSums hw).

Definition finishPiece (hw : HashWriter) : HashWriter :=
  mkHW (fileBuf hw) (sliceBuf hw) [] (sliceSize hw) (pieceSize hw) (sliceWritten hw) 0
    (totalWritten hw) (sliceMD5Hexs hw) (pieceSums hw ++ sha1 (pieceBuf hw)).

(** One iteration of Write's loop on the bytes that remain. *)
Definition writeOnce (hw : HashWriter) (p : gostr) : HashWriter * gostr :=
  let sliceRemain := sliceSize hw - sliceWritten hw in
  let pieceRemain := pieceSize hw - pieceWritten hw in
  let canWrite := Z.min sliceRemain pieceRemain in
  let canWrite := Z.min canWrite (slen p) in
  let chunk := take (Z.to_nat canWrite) p in
  let hw := mkHW (fileBuf hw ++ chunk) (sliceBuf hw ++ chunk) (pieceBuf hw ++ chunk)
              (sliceSize hw) (pieceSize hw) (sliceWritten hw + canWrite) (pieceWritten hw + canWrite)
              (totalWritten hw + canWrite) (sliceMD5Hexs hw) (pieceSums hw) in
  let hw := if sliceSize hw <=? sliceWritten hw then finishSlice hw else hw in
  let hw := if pieceSize hw <=? pieceWritten hw then finishPiece hw else hw in
  (hw, drop (Z.to_nat canWrite) p).

(** [None]: the loop did not end within the fuel. *)
Fixpoint writeLoop (fuel : nat) (hw : HashWriter) (p : gostr) : option HashWriter :=
  match p with
  | [] => Some hw
  | _ => match fuel with
         | O => None
         | S f => let '(hw, p) := writeOnce hw p in writeLoop f hw p
         end
  end.

Definition Write (hw : HashWriter) (p : gostr) : option HashWriter := writeLoop (length p) hw p.

Definition Finish (hw : HashWriter) : HashWriter :=
  let hw := if 0 <? sliceWritten hw then finishSlice hw else hw in
  if 0 <? pieceWritten hw then finishPiece hw else hw.

Definition GetFileMD5 (hw : HashWriter) : gostr := md5hex (fileBuf hw).

Definition GetSliceMD5 (hw : HashWriter) (fileMD5 : gostr) : gostr :=
  match sliceMD5Hexs hw with
  | _ :: _ :: _ => md5hex (joinStr (sliceMD5Hexs hw) [ascii_of_nat 10])
  | _ => fileMD5
  end.

Definition BuildTorrent (now : Z) (hw : HashWriter) (fileName : gostr) (fileSize : Z) : Torrent :=
  let fileMD5 := GetFileMD5 hw in
  let sliceMD5 := GetSliceMD5 hw fileMD5 in
  let t := NewTorrent now fileName fileSize fileMD5 in
  let t := SetPieces t (pieceSums hw) in
  SetCASInfo t (mkCAS fileMD5 sliceMD5 (sliceMD5Hexs hw) (sliceSize hw) "189").

Definition BuildTorrentBytes (now : Z) (hw : HashWriter) (fileName : gostr) (fileSize : Z) :=
  Encode sha1 (BuildTorrent now hw fileName fileSize).

(** A reader is the sequence of its Read results. *)
Inductive io_err := EOF | IOErr (msg : gostr) | ShortWrite | InvalidWrite.

(** The read loop of GenerateFromReader; the outer [None] is a reader that
    never reports EOF. *)
Fixpoint hashAll (hw : HashWriter) (reads : list (gostr * option io_err))
  : option (res io_err HashWriter) :=
  match reads with
  | [] => None
  | (b, e) :: rest =>
      let! hw := match b with [] => Some hw | _ => Write hw b end in
      match e with
      | Some EOF => Some (Ok hw)
      | Some e => Some (Err e)
      | None => hashAll hw rest
      end
  end.

Inductive gen_err := ReadErr (e : io_err) | TorrentErr (e : torrent_err).

Definition setPieceLength (t : Torrent) (n : Z) : Torrent :=
  let i := Info t in
  mkTorrent (mkInfo n (Pieces i) (Name i) (Length i) (Files i) (MD5Sum i)) (InfoHash t)
    (Announce t) (AnnounceList t) (CreationDate t) (Comment t) (CreatedBy t) (CAS t).

Definition encodeResult (t : Torrent) : res gen_err gostr :=
  match Encode sha1 t with Ok (_, b) => Ok b | Err e => Err (TorrentErr e) end.

Definition plainTorrent (now : Z) (hw : HashWriter) (fileName : gostr) (fileSize pieceSize : Z) : Torrent :=
  SetPieces (setPieceLength (NewTorrent now fileName fileSize (GetFileMD5 hw)) pieceSize) (pieceSums hw).

Definition GenerateFromReader (now : Z) (reads : list (gostr * option io_err)) (fileName : gostr)
  (fileSize pieceSize : Z) : option (res gen_err gostr) :=
  let pieceSize := if pieceSize <=? 0 then DefaultPieceSize else pieceSize in
  match hashAll (NewHashWriter pieceSize pieceSize) reads with
  | None => None
  | Some (Err e) => Some (Err (ReadErr e))
  | Some (Ok hw) =>
      let hw := Finish hw in
      Some (encodeResult (plainTorrent now hw fileName fileSize pieceSize))
  end.

Definition casTorrent (now : Z) (hw : HashWriter) (fileName : gostr) (fileSize pieceSize : Z) : Torrent :=
  let fileMD5 := GetFileMD5 hw in
  SetCASInfo (plainTorrent now hw fileName fileSize pieceSize)
    (mkCAS fileMD5 (GetSliceMD5 hw fileMD5) (sliceMD5Hexs hw) pieceSize "189").

Definition GenerateFromReaderWithCAS (now : Z) (reads : list (gostr * option io_err)) (fileName : gostr)
  (fileSize pieceSize : Z) : option (res gen_err gostr) :=
  let pieceSize := if pieceSize <=? 0 then DefaultPieceSize else pieceSize in
  match hashAll (NewHashWriter pieceSize pieceSize) reads with
  | None => None
  | Some (Err e) => Some (Err (ReadErr e))
  | Some (Ok hw) =>
      let hw := Finish hw in
      Some (encodeResult (casTorrent now hw fileName fileSize pieceSize))
  end.

(** CopyAndHash: [dst] is the sequence of Write results of the destination, or
    nil. *)
Fixpoint CopyAndHash (dst : option (list (Z * option io_err))) (reads : list (gostr * option io_err))
  (hw : HashWriter) (written : Z) : option (HashWriter * Z * option io_err) :=
  match reads with
  | [] => None
  | (b, er) :: rest =>
      let cont hw dst written :=
        match er with
        | Some EOF => Some (hw, written, None)
        | Some e => Some (hw, written, Some e)
        | None => CopyAndHash dst rest hw written
        end in
      match b with
      | [] => cont hw dst written
      | _ =>
          let! hw := Write hw b in
          match dst with
          | None => cont hw None (written + slen b)
          | Some [] => None
          | Some ((nw, ew) :: ws) =>
              let '(nw, ew) := if (nw <? 0) || (slen b <? nw)
                               then (0, match ew with None => Some InvalidWrite | e => e end)
                               else (nw, ew) in
              let written := written + nw in
              match ew with
              | Some e => Some (hw, written, Some e)
              | None => if negb (slen b =? nw) then Some (hw, written, Some ShortWrite)
                        else cont hw (Some ws) written
              end
          end
      end
  end.

(** ** Slices of a byte sequence *)
Fixpoint chunksLoop (fuel n : nat) (data : gostr) : list gostr :=
  match fuel, data with
  | S f, _ :: _ => take n data :: chunksLoop f n (drop n data)
  | _, _ => []
  end.

Definition chunksOf (n : Z) (data : gostr) : list gostr := chunksLoop (length data) (Z.to_nat n) data.

Definition tailChunk (r : gostr) : list gostr := match r with [] => [] | _ => [r] end.

Lemma chunksLoop_spec fuel n cs r :
  (0 < n)%nat -> Forall (fun c => length c = n) cs -> (length r < n)%nat ->
  (length (concat cs ++ r) <= fuel)%nat -> chunksLoop fuel n (concat cs ++ r) = cs ++ tailChunk r.
Proof.
  intros Hn Hc. revert fuel. induction Hc as [|c cs Hc Hcs IH]; intros fuel Hr Hf.
  - cbn [concat app] in *. destruct r as [|x r]; [by destruct fuel|]. destruct fuel; [simpl in Hf; lia|].
    cbn [chunksLoop tailChunk]. rewrite take_ge, drop_ge by lia. by destruct fuel.
  - cbn [concat] in *. rewrite <- (assoc_L (++)) in *. destruct c as [|x c]; [simpl in Hc; lia|].
    destruct fuel; [simpl in Hf; lia|]. cbn [app chunksLoop].
    change (x :: c ++ concat cs ++ r) with ((x :: c) ++ concat cs ++ r).
    assert (take n ((x :: c) ++ concat cs ++ r) = x :: c) as -> by (rewrite <- Hc; apply take_app_length).
    assert (drop n ((x :: c) ++ concat cs ++ r) = concat cs ++ r) as ->
      by (rewrite <- Hc; apply drop_app_length).
    rewrite IH; [done|done|].
    rewrite length_app in Hf. simpl in Hf. lia.
Qed.

Lemma chunksOf_spec n cs r :
  0 < n -> Forall (fun c => slen c = n) cs -> slen r < n ->
  chunksOf n (concat cs ++ r) = cs ++ tailChunk r.
Proof.
  intros Hn Hc Hr. unfold chunksOf. apply chunksLoop_spec; unfold slen in *; [lia| |lia|lia].
  eapply Forall_impl; [done|]. cbn. lia.
Qed.

(** ** The writer after the bytes [data] *)
Record HWInv (hw : HashWriter) (data : gostr) : Prop := {
  h_file : fileBuf hw = data;
  h_total : totalWritten hw = slen data;
  h_ss : 0 < sliceSize hw;
  h_ps : 0 < pieceSize hw;
  h_slice : exists cs, data = concat cs ++ sliceBuf hw /\ Forall (fun c => slen c = sliceSize hw) cs /\
    sliceMD5Hexs hw = map md5hex cs;
  h_sw : sliceWritten hw = slen (sliceBuf hw) /\ sliceWritten hw < sliceSize hw;
  h_piece : exists cs, data = concat cs ++ pieceBuf hw /\ Forall (fun c => slen c = pieceSize hw) cs /\
    pieceSums hw = concat (map sha1 cs);
  h_pw : pieceWritten hw = slen (pieceBuf hw) /\ pieceWritten hw < pieceSize hw }.

Lemma concat_snoc {A} (cs : list (list A)) c : concat (cs ++ [c]) = concat cs ++ c.
Proof. rewrite concat_app. cbn. by rewrite app_nil_r. Qed.

Lemma writeOnce_inv hw data p :
  HWInv hw data -> p <> [] ->
  let '(hw', p') := writeOnce hw p in
  exists c, c <> [] /\ p = c ++ p' /\ HWInv hw' (data ++ c) /\
  sliceSize hw' = sliceSize hw /\ pieceSize hw' = pieceSize hw.
Proof.
  intros [] Hp. unfold writeOnce. set (n := Z.min (Z.min _ _) (slen p)).
  assert (Hl : 0 < slen p) by (unfold slen; destruct p; [done|simpl; lia]).
  assert (Hn : 0 < n <= slen p) by (unfold n; lia).
  assert (Hns : n <= sliceSize hw - sliceWritten hw /\ n <= pieceSize hw - pieceWritten hw) by (unfold n; lia).
  set (c := take (Z.to_nat n) p).
  assert (Hc : slen c = n) by (unfold slen, c in *; rewrite length_take; lia).
  clearbody n. destruct h_slice0 as (ss & S1 & S2 & S3). destruct h_piece0 as (ps & P1 & P2 & P3).
  destruct h_sw0 as [W1 W2], h_pw0 as [W3 W4].
  cbn [sliceSize sliceWritten pieceSize pieceWritten].
  exists c. split; [intros ->; unfold slen in Hc; simpl in Hc; lia|]. split; [symmetry; apply take_drop|].
  assert (Hsl : forall a b : gostr, slen (a ++ b) = slen a + slen b)
    by (intros; unfold slen; rewrite length_app; lia).
  assert (Hslice : forall b : bool, b = (sliceSize hw <=? sliceWritten hw + n) ->
    (exists cs, data ++ c = concat cs ++ (if b then [] else sliceBuf hw ++ c) /\
      Forall (fun c => slen c = sliceSize hw) cs /\
      (if b then sliceMD5Hexs hw ++ [md5hex (sliceBuf hw ++ c)] else sliceMD5Hexs hw) = map md5hex cs) /\
    (if b then 0 else sliceWritten hw + n) = slen (if b then [] else sliceBuf hw ++ c) /\
    (if b then 0 else sliceWritten hw + n) < sliceSize hw).
  { intros b Hb. destruct b; symmetry in Hb; bool_hyps; (split; [|split; [first [done|rewrite Hsl; lia]|lia]]).
    - exists (ss ++ [sliceBuf hw ++ c]). rewrite concat_snoc, app_nil_r, S1, map_app, S3.
      split; [by rewrite (assoc_L (++))|]. split; [|done]. apply Forall_app. split; [done|].
      apply Forall_singleton. rewrite Hsl. lia.
    - exists ss. split; [by rewrite S1, (assoc_L (++))|done]. }
  assert (Hpiece : forall b : bool, b = (pieceSize hw <=? pieceWritten hw + n) ->
    (exists cs, data ++ c = concat cs ++ (if b then [] else pieceBuf hw ++ c) /\
      Forall (fun c => slen c = pieceSize hw) cs /\
      (if b then pieceSums hw ++ sha1 (pieceBuf hw ++ c) else pieceSums hw) = concat (map sha1 cs)) /\
    (if b then 0 else pieceWritten hw + n) = slen (if b then [] else pieceBuf hw ++ c) /\
    (if b then 0 else pieceWritten hw + n) < pieceSize hw).
  { intros b Hb. destruct b; symmetry in Hb; bool_hyps; (split; [|split; [first [done|rewrite Hsl; lia]|lia]]).
    - exists (ps ++ [pieceBuf hw ++ c]). rewrite concat_snoc, app_nil_r, P1, map_app, concat_app, P3.
      split; [by rewrite (assoc_L (++))|]. split; [|cbn; by rewrite app_nil_r]. apply Forall_app. split; [done|].
      apply Forall_singleton. rewrite Hsl. lia.
    - exists ps. split; [by rewrite P1, (assoc_L (++))|done]. }
  specialize (Hslice _ eq_refl). specialize (Hpiece _ eq_refl).
  assert (Htot : totalWritten hw + n = slen (data ++ c)) by (rewrite Hsl; lia).
  assert (Hfile : fileBuf hw ++ c = data ++ c) by by rewrite h_file0.
  destruct (sliceSize hw <=? sliceWritten hw + n); cbn [finishSlice pieceSize pieceWritten];
    destruct (pieceSize hw <=? pieceWritten hw + n); destruct Hslice as [H1 H2], Hpiece as [H3 H4];
    (split; [|done]); constructor; cbn; done.
Qed.

Lemma writeLoop_inv fuel hw data p :
  HWInv hw data -> (length p <= fuel)%nat ->
  exists hw', writeLoop fuel hw p = Some hw' /\ HWInv hw' (data ++ p) /\
  sliceSize hw' = sliceSize hw /\ pieceSize hw' = pieceSize hw.
Proof.
  revert hw data p. induction fuel as [|f IH]; intros hw data p Hi Hf; (destruct p as [|x p]; [|try (simpl in Hf; lia)]).
  - exists hw. by rewrite app_nil_r.
  - exists hw. by rewrite app_nil_r.
  - cbn [writeLoop]. pose proof (writeOnce_inv hw data (x :: p) Hi ltac:(done)) as Ho.
    destruct (writeOnce hw (x :: p)) as [hw1 p1]. destruct Ho as (c & Hc & Hp & Hi1 & E1 & E2).
    destruct (IH hw1 (data ++ c) p1 Hi1) as (hw' & -> & Hi' & E3 & E4).
    { apply (f_equal length) in Hp. rewrite length_app in Hp. destruct c; [done|]. simpl in *. lia. }
    exists hw'. rewrite Hp, (assoc_L (++)). split; [done|]. split; [done|]. split; congruence.
Qed.

Lemma Write_inv hw data p :
  HWInv hw data -> exists hw', Write hw p = Some hw' /\ HWInv hw' (data ++ p) /\
  sliceSize hw' = sliceSize hw /\ pieceSize hw' = pieceSize hw.
Proof. intros Hi. by apply writeLoop_inv. Qed.

Lemma NewHashWriter_inv ss ps :
  HWInv (NewHashWriter ss ps) [] /\
  sliceSize (NewHashWriter ss ps) = (if ss <=? 0 then DefaultPieceSize else ss) /\
  pieceSize (NewHashWriter ss ps) = (if ps <=? 0 then DefaultPieceSize else ps).
Proof.
  unfold NewHashWriter.
  assert (H : forall n, 0 < (if n <=? 0 then DefaultPieceSize else n)).
  { intros n. destruct (n <=? 0) eqn:E; bool_hyps; [done|lia]. }
  split; [|done]. constructor; cbn.
  - done.
  - done.
  - apply H.
  - apply H.
  - by exists [].
  - split; [done|apply H].
  - by exists [].
  - split; [done|apply H].
Qed.

(** What Finish leaves behind. *)
Lemma Finish_spec hw data :
  HWInv hw data ->
  let hw' := Finish hw in
  fileBuf hw' = data /\ totalWritten hw' = slen data /\
  sliceMD5Hexs hw' = map md5hex (chunksOf (sliceSize hw) data) /\
  pieceSums hw' = concat (map sha1 (chunksOf (pieceSize hw) data)) /\ sliceSize hw' = sliceSize hw.
Proof.
  intros []. destruct h_slice0 as (ss & S1 & S2 & S3). destruct h_piece0 as (ps & P1 & P2 & P3).
  destruct h_sw0 as [W1 W2], h_pw0 as [W3 W4].
  assert (Hs : chunksOf (sliceSize hw) data = ss ++ tailChunk (sliceBuf hw)).
  { rewrite S1. apply chunksOf_spec; [done|done|lia]. }
  assert (Hp : chunksOf (pieceSize hw) data = ps ++ tailChunk (pieceBuf hw)).
  { rewrite P1. apply chunksOf_spec; [done|done|lia]. }
  assert (Hz : forall b : gostr, (0 <? slen b) = match b with [] => false | _ => true end).
  { intros [|x b]; [done|]. apply Z.ltb_lt. unfold slen. simpl. lia. }
  unfold Finish. rewrite W1, Hz, Hs, Hp, !map_app, concat_app, <- S3, <- P3.
  assert (Hpw : pieceWritten (if match sliceBuf hw with [] => false | _ => true end
    then finishSlice hw else hw) = slen (pieceBuf hw)) by by destruct (sliceBuf hw).
  rewrite Hpw, Hz.
  destruct (sliceBuf hw) as [|x sb] eqn:Es, (pieceBuf hw) as [|y pb] eqn:Ep; cbn; rewrite ?app_nil_r, ?Es, ?Ep;
    by repeat split.
Qed.
End Digests.

(** ** Sequences of writes and reads *)
Fixpoint writeAll (sha1 md5hex : gostr -> gostr) (hw : HashWriter) (ps : list gostr) : option HashWriter :=
  match ps with
  | [] => Some hw
  | p :: ps => let! hw := Write sha1 md5hex hw p in writeAll sha1 md5hex hw ps
  end.

Lemma writeAll_inv sha1 md5hex hw data ps :
  HWInv sha1 md5hex hw data -> exists hw', writeAll sha1 md5hex hw ps = Some hw' /\
  HWInv sha1 md5hex hw' (data ++ concat ps) /\
  sliceSize hw' = sliceSize hw /\ pieceSize hw' = pieceSize hw.
Proof.
  revert hw data. induction ps as [|p ps IH]; intros hw data Hi; cbn [writeAll concat].
  - exists hw. by rewrite app_nil_r.
  - destruct (Write_inv sha1 md5hex hw data p Hi) as (hw1 & -> & Hi1 & E1 & E2). cbn.
    destruct (IH hw1 (data ++ p) Hi1) as (hw' & -> & Hi' & E3 & E4). exists hw'.
    rewrite (assoc_L (++)). split; [done|]. split; [done|]. split; congruence.
Qed.

(** The bytes a reader delivers up to the end of file. *)
Fixpoint readData (reads : list (gostr * option io_err)) : gostr :=
  match reads with
  | [] => []
  | (b, None) :: rest => b ++ readData rest
  | (b, Some _) :: _ => b
  end.

(** The reader ends with EOF, and not before with another error. *)
Fixpoint endsEOF (reads : list (gostr * option io_err)) : Prop :=
  match reads with
  | [] => False
  | (_, None) :: rest => endsEOF rest
  | (_, Some e) :: _ => e = EOF
  end.

Lemma hashAll_inv sha1 md5hex hw data reads :
  HWInv sha1 md5hex hw data -> endsEOF reads ->
  exists hw', hashAll sha1 md5hex hw reads = Some (Ok hw') /\
  HWInv sha1 md5hex hw' (data ++ readData reads) /\
  sliceSize hw' = sliceSize hw /\ pieceSize hw' = pieceSize hw.
Proof.
  revert hw data. induction reads as [|[b e] reads IH]; intros hw data Hi He; [done|].
  cbn [hashAll readData endsEOF] in *.
  assert (Hw : exists hw1, match b with [] => Some hw | _ => Write sha1 md5hex hw b end = Some hw1 /\
    HWInv sha1 md5hex hw1 (data ++ b) /\ sliceSize hw1 = sliceSize hw /\ pieceSize hw1 = pieceSize hw).
  { destruct b; [exists hw; by rewrite app_nil_r|]. by apply Write_inv. }
  destruct Hw as (hw1 & -> & Hi1 & E1 & E2). cbn. destruct e as [e|].
  - subst e. by exists hw1.
  - destruct (IH hw1 (data ++ b) Hi1 He) as (hw' & -> & Hi' & E3 & E4). exists hw'.
    rewrite (assoc_L (++)). split; [done|]. split; [done|]. split; congruence.
Qed.

Lemma piece_hashes_concat hs k :
  Forall (fun h => length h = 20%nat) hs -> k = length hs -> pieceHashes k (concat hs) = hs.
Proof.
  intros H ->. induction H as [|h hs Hh Hs IH]; [done|]. cbn [length concat pieceHashes].
  assert (take 20 (h ++ concat hs) = h) as -> by (rewrite <- Hh; apply take_app_length).
  assert (drop 20 (h ++ concat hs) = concat hs) as -> by (rewrite <- Hh; apply drop_app_length).
  by rewrite IH.
Qed.

Lemma concat_20 (hs : list gostr) :
  Forall (fun h => length h = 20%nat) hs -> length (concat hs) = (20 * length hs)%nat.
Proof. induction 1 as [|h hs Hh Hs IH]; [done|]. cbn [concat length]. rewrite length_app, Hh, IH. lia. Qed.

(** ** Properties *)

(** However a file is cut into Write calls, after Finish the writer holds
    the MD5 of the whole file, the MD5 of every slice and the SHA-1 of every
    piece of it, in order, the last one of the remaining bytes; Write always
    terminates. *)
Theorem hashwriter_digests sha1 md5hex ss ps writes :
  let hw0 := NewHashWriter ss ps in
  exists hw, writeAll sha1 md5hex hw0 writes = Some hw /\
  let data := concat writes in
  let hw' := Finish sha1 md5hex hw in
  GetFileMD5 md5hex hw' = md5hex data /\ totalWritten hw' = slen data /\
  sliceMD5Hexs hw' = map md5hex (chunksOf (sliceSize hw0) data) /\
  pieceSums hw' = concat (map sha1 (chunksOf (pieceSize hw0) data)).
Proof.
  intros hw0. destruct (NewHashWriter_inv sha1 md5hex ss ps) as [Hi _].
  destruct (writeAll_inv sha1 md5hex hw0 [] writes Hi) as (hw & Hw & Hi' & E1 & E2).
  exists hw. split; [done|]. cbn [app] in Hi'. cbv zeta.
  destruct (Finish_spec sha1 md5hex hw (concat writes) Hi') as (F1 & F2 & F3 & F4 & _).
  unfold GetFileMD5. rewrite F1, F2, F3, F4, E1, E2. done.
Qed.

(** A torrent generated from a reader decodes to one whose piece hashes are
    the SHA-1 of the pieces of the bytes read, whose MD5 is that of the file,
    and whose CAS extension lists the MD5 of the slices, provided the digests
    have their documented lengths and the hashes fit in a bencode string. *)
Theorem generate_roundtrip sha1 md5hex now reads name size pieceSize :
  (forall s, length (sha1 s) = 20%nat) -> (forall s, short (md5hex s)) ->
  endsEOF reads -> short name -> 0 <= now < 2 ^ 63 -> i64_ok size -> i64_ok pieceSize ->
  let n := if pieceSize <=? 0 then DefaultPieceSize else pieceSize in
  let data := readData reads in
  20 * Z.of_nat (length (chunksOf n data)) <= maxString ->
  exists b t, GenerateFromReaderWithCAS sha1 md5hex now reads name size pieceSize = Some (Ok b) /\
  Decode sha1 b = Some (Ok t) /\
  GetPieceHashes t = map sha1 (chunksOf n data) /\ MD5Sum (Info t) = md5hex data /\
  PieceLength (Info t) = n /\ Length (Info t) = size /\ Name (Info t) = name /\
  exists c, CAS t = Some c /\ FileMD5 c = md5hex data /\ SliceSize c = n /\
    SliceMD5s c = map md5hex (chunksOf n data).
Proof.
  intros Hsha Hmd He Hname Hnow Hsize Hps n data Hmax.
  destruct (NewHashWriter_inv sha1 md5hex n n) as (Hi & E1 & E2).
  destruct (hashAll_inv sha1 md5hex _ [] reads Hi He) as (hw & Hw & Hi' & E3 & E4).
  cbn [app] in Hi'. destruct (Finish_spec sha1 md5hex hw data Hi') as (F1 & F2 & F3 & F4 & F5).
  assert (Hn : 0 < n) by (unfold n; destruct (pieceSize <=? 0) eqn:E; bool_hyps; [done|lia]).
  assert (Hnn : (if n <=? 0 then DefaultPieceSize else n) = n).
  { destruct (n <=? 0) eqn:E; bool_hyps; [lia|done]. }
  rewrite E3, E1, Hnn in F3. rewrite E4, E2, Hnn in F4.
  set (hw' := Finish sha1 md5hex hw) in *.
  assert (H20 : Forall (fun h => length h = 20%nat) (map sha1 (chunksOf n data))).
  { apply Forall_map, Forall_forall. intros x _. apply Hsha. }
  set (t0 := casTorrent md5hex now hw' name size n).
  assert (Hwf : wf_torrent t0).
  { constructor; cbn.
    - unfold n in *. destruct (pieceSize <=? 0); [unfold i64_ok, DefaultPieceSize; lia|done].
    - unfold short, slen. rewrite F4, concat_20, length_map by done. lia.
    - done.
    - done.
    - apply Hmd.
    - constructor.
    - done.
    - apply short_b. vm_compute. reflexivity.
    - constructor.
    - done.
    - apply short_b. vm_compute. reflexivity.
    - apply short_b. vm_compute. reflexivity.
    - intros c [= <-]. cbn. split; [apply Hmd|]. split; [|split; [|split]].
      + unfold GetSliceMD5. destruct (sliceMD5Hexs hw') as [|? [|]]; apply Hmd.
      + apply short_b. vm_compute. reflexivity.
      + unfold n. destruct (pieceSize <=? 0); [unfold i64_ok, DefaultPieceSize; lia|done].
      + rewrite F3. apply Forall_map, Forall_forall. intros x _. apply Hmd. }
  pose proof (wfd_wfv _ (wfd_info t0 Hwf)) as Hinfo.
  set (t := set_InfoHash t0 (sha1 (enc (BDict (infoDict (Info t0)))))).
  assert (Hwf' : wf_torrent t) by (destruct Hwf; by constructor).
  pose proof (wfd_wfv _ (wfd_root t Hwf')) as Hroot.
  exists (enc (BDict (rootDict t))), t. split; [|split; [|split]].
  - unfold GenerateFromReaderWithCAS. fold n. rewrite Hw. fold hw' t0.
    unfold encodeResult, Encode, BencodeEncode. rewrite (enc_ok _ Hinfo). fold t. by rewrite (enc_ok _ Hroot).
  - unfold Decode. rewrite BencodeDecode_enc by done. cbn [norm]. fold (normDict (rootDict t)).
    by rewrite decode_root.
  - unfold GetPieceHashes. change (Pieces (Info t)) with (pieceSums hw'). rewrite F4.
    apply piece_hashes_concat; [done|]. rewrite concat_20 by done.
    rewrite Nat.mul_comm, Nat.div_mul by done. done.
  - cbn. unfold GetFileMD5. rewrite F1. split; [done|]. split; [done|]. split; [done|]. split; [done|].
    eexists. split; [done|]. cbn. by rewrite F3.
Qed.

Lemma generate_roundtrip_witness :
  let sha1 (s : gostr) : gostr := take 20 (s ++ replicate 20 zero) in
  let md5hex (s : gostr) : gostr := take 4 s in
  let reads : list (gostr * option io_err) := [("abcde" : gostr, None); ("fg" : gostr, Some EOF)] in
  exists b t, GenerateFromReaderWithCAS sha1 md5hex 5 reads "f" 7 3 = Some (Ok b) /\
  Decode sha1 b = Some (Ok t) /\ GetPieceHashes t = map sha1 (strs ["abc"; "def"; "g"]).
Proof.
  intros sha1 md5hex reads.
  destruct (generate_roundtrip sha1 md5hex 5 reads "f" 7 3) as (b & t & H1 & H2 & H3 & _).
  - intros s. unfold sha1. rewrite length_take, length_app, length_replicate. lia.
  - intros s. unfold short, md5hex, slen, maxString. rewrite length_take. lia.
  - reflexivity.
  - apply short_b. vm_compute. reflexivity.
  - lia.
  - unfold i64_ok. lia.
  - unfold i64_ok. lia.
  - vm_compute. discriminate.
  - exists b, t. split; [exact H1|]. split; [exact H2|]. exact H3.
Defined.

(** When CopyAndHash ends without error, the hash writer has seen exactly
    the bytes of the source and the returned count is their number, with or
    without a destination. *)
Theorem copyAndHash_counts sha1 md5hex dst reads hw data written hw' w' :
  HWInv sha1 md5hex hw data ->
  CopyAndHash sha1 md5hex dst reads hw written = Some (hw', w', None) ->
  HWInv sha1 md5hex hw' (data ++ readData reads) /\ w' = written + slen (readData reads).
Proof.
  revert dst hw data written. induction reads as [|[b er] reads IH]; intros dst hw data written Hi; [done|].
  cbn [CopyAndHash readData].
  assert (Hcont : forall hw1 dst1 w1, HWInv sha1 md5hex hw1 (data ++ b) -> w1 = written + slen b ->
    match er with
    | Some EOF => Some (hw1, w1, None) | Some e => Some (hw1, w1, Some e)
    | None => CopyAndHash sha1 md5hex dst1 reads hw1 w1 end = Some (hw', w', None) ->
    HWInv sha1 md5hex hw' (data ++ match er with None => b ++ readData reads | Some _ => b end) /\
    w' = written + slen (match er with None => b ++ readData reads | Some _ => b end)).
  { intros hw1 dst1 w1 Hi1 Hw1 H. destruct er as [[]|]; try done.
    - by injection H as <- <-.
    - apply (IH dst1 hw1 (data ++ b) w1 Hi1) in H as [H1 H2]. rewrite <- (assoc_L (++)) in H1.
      split; [done|]. unfold slen in *. rewrite length_app. lia. }
  destruct b as [|x b'] eqn:Eb.
  { cbv zeta. intros H.
    assert (Hgoal : HWInv sha1 md5hex hw (data ++ [])) by by rewrite app_nil_r.
    eapply (Hcont hw dst written); [done|unfold slen; simpl; lia|]. destruct er as [[]|]; done. }
  rewrite <- Eb in *. cbv zeta.
  destruct (Write_inv sha1 md5hex hw data b Hi) as (hw1 & Hwr & Hi1 & _).
  rewrite Hwr. cbn [mbind option_bind].
  destruct dst as [[|[nw ew] ws]|]; [done| |].
  - intros H. destruct ((nw <? 0) || (slen b <? nw)) eqn:Eg; [by destruct ew|].
    destruct ew; [done|]. destruct (slen b =? nw) eqn:Ew; [|done]. bool_hyps. cbn [negb] in H.
    eapply (Hcont hw1 (Some ws) (written + nw)); [done|lia|]. destruct er as [[]|]; done.
  - intros H. eapply (Hcont hw1 None (written + slen b)); [done|lia|]. destruct er as [[]|]; done.
Qed.

Lemma copyAndHash_counts_witness :
  let h (s : gostr) : gostr := s in
  let reads : list (gostr * option io_err) := [("ab" : gostr, None); ("c" : gostr, Some EOF)] in
  exists hw', CopyAndHash h h (Some [(2, None); (1, None)]) reads (NewHashWriter 2 2) 0 = Some (hw', 3, None) /\
  HWInv h h hw' "abc".
Proof.
  intros h reads. set (o := CopyAndHash h h (Some [(2, None); (1, None)]) reads (NewHashWriter 2 2) 0).
  destruct o as [[[hw' w'] e]|] eqn:E; [|vm_compute in E; discriminate E].
  assert (Hw : w' = 3 /\ e = None) by (vm_compute in E; injection E as _ <- <-; split; reflexivity).
  destruct Hw as [-> ->]. exists hw'. split; [reflexivity|].
  exact (proj1 (copyAndHash_counts h h (Some [(2, None); (1, None)]) reads (NewHashWriter 2 2) [] 0 hw' 3
           (proj1 (NewHashWriter_inv h h 2 2)) E)).
Defined.
