(* ===== verification/ReaderIO.v ===== *)
(** Programs that read through an [io.ReaderAt]: a finite tree of ReadAt calls,
    so that the same parser runs on any reader (a byte slice, a section of
    another reader, the caching reader of [RawReader]). A leaf is a result, a
    Go panic or the end of the fuel of a loop. [wp] reasons about every answer
    a reader may give, [run] executes a program on one reader. *)
From S2P Require Import Prelude.

Inductive rerr :=
| EOF
| ErrUnexpectedEOF
| ErrBudgetExceeded
| ErrNegativeOffset
| ErrRange (e : gostr).  (** an error of the remote side *)

#[export] Instance rerr_eq_dec : EqDecision rerr.
Proof. solve_decision. Defined.

(** The bytes that ReadAt stored (its count is their number) and its error. *)
Definition answer : Type := gostr * option rerr.

Inductive prog (A : Type) : Type :=
| Ret (a : A)
| Read (len off : Z) (k : answer -> prog A)
| Panic
| OutOfFuel.
Arguments Ret {A} a.
Arguments Read {A} len off k.
Arguments Panic {A}.
Arguments OutOfFuel {A}.

Fixpoint bind {A B} (p : prog A) (f : A -> prog B) : prog B :=
  match p with
  | Ret a => f a
  | Read len off k => Read len off (fun x => bind (k x) f)
  | Panic => Panic
  | OutOfFuel => OutOfFuel
  end.

#[export] Instance prog_bind : MBind prog := fun A B f p => bind p f.
#[export] Instance prog_ret : MRet prog := fun A a => Ret a.

(** A call of ReadAt with a buffer of [len] bytes. *)
Definition readAt (len off : Z) : prog answer := Read len off Ret.

(** int64 addition. *)
Notation "a +! b" := (i64 (a + b)) (at level 50, left associativity) : go_scope.

(** ** Slices: index and slice expressions panic out of range. *)
Definition idx (b : gostr) (i : Z) : prog Z :=
  if (0 <=? i) && (i <? slen b) then
    match b !! Z.to_nat i with
    | Some c => Ret (byte_val c)
    | None => Panic
    end
  else Panic.

Definition cut (b : gostr) (i j : Z) : gostr := take (Z.to_nat (j - i)) (drop (Z.to_nat i) b).

(** The slice expression [b[i:j]]. *)
Definition sub (b : gostr) (i j : Z) : prog gostr :=
  if (0 <=? i) && (i <=? j) && (j <=? slen b) then Ret (cut b i j) else Panic.

(** ** encoding/binary: byte orders. *)
Inductive byteOrder := LittleEndian | BigEndian.

Fixpoint le_val (b : gostr) : Z :=
  match b with
  | [] => 0
  | c :: b' => byte_val c + 256 * le_val b'
  end.

Definition uint_val (bo : byteOrder) (b : gostr) : Z :=
  match bo with
  | LittleEndian => le_val b
  | BigEndian => le_val (rev b)
  end.

Definition uintN (n : Z) (bo : byteOrder) (b : gostr) : prog Z :=
  if n <=? slen b then Ret (uint_val bo (take (Z.to_nat n) b)) else Panic.

Definition Uint16 := uintN 2.
Definition Uint32 := uintN 4.
Definition Uint64 := uintN 8.

(** ** A loop [for i := from; i < from + n; i++]. *)
Fixpoint for_ {St} (n : nat) (i : Z) (body : Z -> St -> prog St) (s : St) : prog St :=
  match n with
  | O => Ret s
  | S n' => s' ← body i s; for_ n' (i + 1) body s'
  end.

(** ** Readers *)

(** ReadAt of a byte slice ([bytes.Reader]), also of a whole file. *)
Definition bytesReadAt (f : gostr) (len off : Z) : answer :=
  if off <? 0 then ([], Some ErrNegativeOffset)
  else
    let d := take (Z.to_nat len) (drop (Z.to_nat off) f) in
    (d, if slen d <? len then Some EOF else None).

(** The program [p] run on the byte slice [f], inside another program. *)
Fixpoint onBytes {A} (f : gostr) (p : prog A) : prog A :=
  match p with
  | Ret a => Ret a
  | Read len off k => onBytes f (k (bytesReadAt f len off))
  | Panic => Panic
  | OutOfFuel => OutOfFuel
  end.

(** The program [p] run on [io.NewSectionReader(ra, base, n)]. *)
Fixpoint section {A} (base n : Z) (p : prog A) : prog A :=
  match p with
  | Ret a => Ret a
  | Read len off k =>
      if (off <? 0) || (n <=? off) then section base n (k ([], Some EOF))
      else
        let off' := off + base in
        let max := (base + n) - off' in
        if max <? len then
          Read max off' (fun '(d, e) =>
            section base n (k (d, match e with None => Some EOF | Some e' => Some e' end)))
        else Read len off' (fun x => section base n (k x))
  | Panic => Panic
  | OutOfFuel => OutOfFuel
  end.

Class ReaderAt (R : Type) := ReadAt : R -> Z -> Z -> R * answer.

#[export] Instance bytes_ReaderAt : ReaderAt gostr :=
  fun f len off => (f, bytesReadAt f len off).

Inductive outcome (A : Type) : Type :=
| Done (a : A)
| Panicked
| Exhausted.
Arguments Done {A} a.
Arguments Panicked {A}.
Arguments Exhausted {A}.

Fixpoint run {R A} `{ReaderAt R} (p : prog A) (r : R) : outcome (R * A) :=
  match p with
  | Ret a => Done (r, a)
  | Read len off k => let '(r', x) := ReadAt r len off in run (k x) r'
  | Panic => Panicked
  | OutOfFuel => Exhausted
  end.

(** ** Weakest preconditions

    [ok len off x]: the reader may answer [x]. A program may only ask for between
    1 and [maxRead] bytes at an offset that is not negative. *)
Definition maxRead : Z := 262144.

Definition ok_request (len off : Z) : Prop := 0 < len <= maxRead /\ 0 <= off.

Fixpoint wp {A} (ok : Z -> Z -> answer -> Prop) (p : prog A) (Q : A -> Prop) : Prop :=
  match p with
  | Ret a => Q a
  | Read len off k => ok_request len off /\ forall x, ok len off x -> wp ok (k x) Q
  | Panic => False
  | OutOfFuel => False
  end.

(** The contract of io.ReaderAt: no more than [len] bytes, and an error when
    there are fewer. *)
Definition contract (len off : Z) (x : answer) : Prop :=
  slen x.1 <= len /\ (x.2 = None -> slen x.1 = len).

(** The answers of a reader of the file [f]. *)
Definition exact (f : gostr) (len off : Z) (x : answer) : Prop := x = bytesReadAt f len off.

Lemma wp_bind {A B} ok (p : prog A) (f : A -> prog B) Q :
  wp ok p (fun a => wp ok (f a) Q) -> wp ok (p ≫= f) Q.
Proof.
  unfold mbind, prog_bind.
  induction p as [a|len off k IH| |]; simpl; try done.
  intros [Hr Hk]. split; [done|]. intros x Hx. by apply IH, Hk.
Qed.

Lemma wp_mono {A} ok (p : prog A) (Q Q' : A -> Prop) :
  wp ok p Q -> (forall a, Q a -> Q' a) -> wp ok p Q'.
Proof.
  induction p as [a|len off k IH| |]; simpl; intros HQ HI; eauto.
  destruct HQ as [Hr Hk]. split; [done|]. intros x Hx. apply IH; [by apply Hk|done].
Qed.

Lemma wp_ret {A} ok (a : A) (Q : A -> Prop) : Q a -> wp ok (mret a) Q.
Proof. done. Qed.

Lemma wp_weaken {A} (ok ok' : Z -> Z -> answer -> Prop) (p : prog A) Q :
  (forall len off x, ok' len off x -> ok len off x) -> wp ok p Q -> wp ok' p Q.
Proof.
  intros Hok. induction p as [a|len off k IH| |]; simpl; try done.
  intros [Hr Hk]. split; [done|]. eauto.
Qed.

Lemma slen_cut b i j : 0 <= i <= j -> j <= slen b -> slen (cut b i j) = j - i.
Proof.
  unfold cut, slen. intros ? ?. rewrite length_take, length_drop. lia.
Qed.

Lemma slen_take (n : nat) (b : gostr) : slen (take n b) = Z.min (Z.of_nat n) (slen b).
Proof. unfold slen. rewrite length_take. lia. Qed.

Lemma slen_drop (n : nat) (b : gostr) : slen (drop n b) = Z.max 0 (slen b - Z.of_nat n).
Proof. unfold slen. rewrite length_drop. lia. Qed.

Lemma wp_idx ok b i (Q : Z -> Prop) :
  0 <= i < slen b -> (forall v, 0 <= v < 256 -> Q v) -> wp ok (idx b i) Q.
Proof.
  intros Hi HQ. unfold idx.
  replace ((0 <=? i) && (i <? slen b)) with true
    by (symmetry; apply andb_true_intro; split; [apply Z.leb_le|apply Z.ltb_lt]; lia).
  destruct (lookup_lt_is_Some_2 b (Z.to_nat i)) as [c ->]; [unfold slen in Hi; lia|].
  simpl. apply HQ, byte_val_range.
Qed.

Lemma sub_eq b i j : 0 <= i <= j -> j <= slen b -> sub b i j = Ret (cut b i j).
Proof.
  intros Hi Hj. unfold sub.
  replace ((0 <=? i) && (i <=? j) && (j <=? slen b)) with true; [done|].
  symmetry. rewrite !andb_true_iff, !Z.leb_le. lia.
Qed.

Lemma wp_sub ok b i j (Q : gostr -> Prop) :
  0 <= i <= j -> j <= slen b -> (forall s, slen s = j - i -> Q s) -> wp ok (sub b i j) Q.
Proof.
  intros Hi Hj HQ. rewrite sub_eq by done. apply HQ, slen_cut; done.
Qed.

Lemma le_val_bound b : 0 <= le_val b < 256 ^ slen b.
Proof.
  induction b as [|c b IH]; simpl.
  - unfold slen. simpl. lia.
  - pose proof (byte_val_range c). unfold slen in *. cbn [length].
    rewrite Nat2Z.inj_succ, Z.pow_succ_r by lia. nia.
Qed.

Lemma uint_val_bound bo b : 0 <= uint_val bo b < 256 ^ slen b.
Proof.
  destruct bo; simpl; [apply le_val_bound|].
  pose proof (le_val_bound (rev b)) as Hb. unfold slen in *. by rewrite length_rev in Hb.
Qed.

Lemma wp_uintN ok n bo b (Q : Z -> Prop) :
  0 <= n <= slen b -> (forall v, 0 <= v < 256 ^ n -> Q v) -> wp ok (uintN n bo b) Q.
Proof.
  intros Hn HQ. unfold uintN.
  replace (n <=? slen b) with true by (symmetry; apply Z.leb_le; lia).
  apply HQ. pose proof (uint_val_bound bo (take (Z.to_nat n) b)) as Hb.
  rewrite slen_take in Hb. by replace (Z.min (Z.of_nat (Z.to_nat n)) (slen b)) with n in Hb by lia.
Qed.

Lemma wp_Uint16 ok bo b (Q : Z -> Prop) :
  2 <= slen b -> (forall v, 0 <= v < 65536 -> Q v) -> wp ok (Uint16 bo b) Q.
Proof. intros ? HQ. apply wp_uintN; [lia|]. exact HQ. Qed.

Lemma wp_Uint32 ok bo b (Q : Z -> Prop) :
  4 <= slen b -> (forall v, 0 <= v < 4294967296 -> Q v) -> wp ok (Uint32 bo b) Q.
Proof. intros ? HQ. apply wp_uintN; [lia|]. exact HQ. Qed.

Lemma wp_Uint64 ok bo b (Q : Z -> Prop) :
  8 <= slen b -> (forall v, 0 <= v < 18446744073709551616 -> Q v) -> wp ok (Uint64 bo b) Q.
Proof. intros ? HQ. apply wp_uintN; [lia|]. exact HQ. Qed.

(** A loop keeps an invariant that may depend on the counter. *)
Lemma wp_for {St} (I : Z -> St -> Prop) ok (n : nat) (body : Z -> St -> prog St) i s (Q : St -> Prop) :
  I i s ->
  (forall j s', i <= j < i + Z.of_nat n -> I j s' -> wp ok (body j s') (I (j + 1))) ->
  (forall s', I (i + Z.of_nat n) s' -> Q s') ->
  wp ok (for_ n i body s) Q.
Proof.
  revert i s. induction n as [|n IH]; intros i s HI Hb HQ; cbn [for_].
  - apply HQ. by rewrite Z.add_0_r.
  - apply wp_bind. eapply wp_mono; [apply Hb; [lia|done]|].
    intros s' HI'. apply IH; [done| |].
    + intros j s'' Hj. apply Hb. lia.
    + intros s'' Hs. apply HQ. by replace (i + Z.of_nat (S n)) with (i + 1 + Z.of_nat n) by lia.
Qed.

Lemma bytesReadAt_contract f len off :
  0 < len -> 0 <= off -> contract len off (bytesReadAt f len off).
Proof.
  intros Hl Ho. unfold bytesReadAt, contract.
  replace (off <? 0) with false by (symmetry; apply Z.ltb_ge; lia). simpl.
  rewrite slen_take. split; [lia|].
  destruct (Z.ltb_spec (Z.min (Z.of_nat (Z.to_nat len)) (slen (drop (Z.to_nat off) f))) len);
    [done|lia].
Qed.

(** A property that holds under the contract holds on a byte slice and on a
    section. *)
Lemma wp_onBytes {A} ok (f : gostr) (p : prog A) Q : wp contract p Q -> wp ok (onBytes f p) Q.
Proof.
  induction p as [a|len off k IH| |]; simpl; try done.
  intros [[Hl Ho] Hk]. apply IH, Hk, bytesReadAt_contract; lia.
Qed.

Lemma wp_section {A} base n (p : prog A) Q :
  0 <= base -> wp contract p Q -> wp contract (section base n p) Q.
Proof.
  intros Hb. induction p as [a|len off k IH| |]; simpl; try done.
  intros [[Hl Ho] Hk].
  destruct (Z.ltb_spec off 0); [lia|]. destruct (Z.leb_spec n off); simpl.
  - apply IH, Hk. split; simpl; [unfold slen; simpl; lia|done].
  - destruct (Z.ltb_spec (base + n - (off + base)) len); simpl.
    + split; [unfold ok_request; lia|]. intros [d e] [Hd He]. apply IH, Hk.
      split; simpl in *; [lia|]. destruct e; done.
    + split; [unfold ok_request; lia|]. intros x Hx. by apply IH, Hk.
Qed.

(** Running a program on a reader that keeps an invariant and answers as
    [ok] says. *)
Lemma run_wp {R A} `{ReaderAt R} ok (I : R -> Prop) (p : prog A) r Q :
  (forall r len off, I r -> ok_request len off ->
     I (ReadAt r len off).1 /\ ok len off (ReadAt r len off).2) ->
  I r -> wp ok p Q -> exists r' a, run p r = Done (r', a) /\ I r' /\ Q a.
Proof.
  intros Hr. revert r. induction p as [a|len off k IH| |]; simpl; intros r HI HQ; try done.
  - eauto.
  - destruct HQ as [Hreq Hk]. destruct (Hr r len off HI Hreq) as [HI' Hok].
    destruct (ReadAt r len off) as [r' x]; simpl in *. by apply IH, Hk.
Qed.

(** Two readers that answer alike run alike. *)
Lemma run_sim {R1 R2 A} `{ReaderAt R1} `{ReaderAt R2} (S : R1 -> R2 -> Prop) ok
    (p : prog A) r1 r2 Q :
  (forall r1 r2 len off, S r1 r2 -> ok_request len off ->
     S (ReadAt r1 len off).1 (ReadAt r2 len off).1 /\
     (ReadAt r1 len off).2 = (ReadAt r2 len off).2 /\ ok len off (ReadAt r2 len off).2) ->
  S r1 r2 -> wp ok p Q ->
  exists r1' r2' a, run p r1 = Done (r1', a) /\ run p r2 = Done (r2', a) /\ S r1' r2'.
Proof.
  intros Hs. revert r1 r2. induction p as [a|len off k IH| |]; simpl; intros r1 r2 HS HQ; try done.
  - eauto 6.
  - destruct HQ as [Hreq Hk]. destruct (Hs r1 r2 len off HS Hreq) as (HS' & Heq & Hok).
    destruct (ReadAt r1 len off) as [r1' x1], (ReadAt r2 len off) as [r2' x2]; simpl in *. subst x1.
    by apply IH, Hk.
Qed.

(** ** Automation: one step through a program, under any contract. Conditions
    are split with their equations as hypotheses. *)
Ltac wp_cases :=
  match goal with
  | |- wp _ (if ?b then _ else _) _ => destruct b eqn:?; bool_hyps
  | |- wp _ (match ?x with _ => _ end) _ => destruct x eqn:?
  end.

Ltac wp_prim :=
  lazymatch goal with
  | |- wp _ (_ ≫= _) _ => apply wp_bind
  | |- wp _ (mret _) _ => apply wp_ret
  | |- wp _ (idx _ _) _ => apply wp_idx; [lia|intros ? ?]
  | |- wp _ (sub _ _ _) _ => apply wp_sub; [lia|lia|intros ? ?]
  | |- wp _ (Uint16 _ _) _ => apply wp_Uint16; [lia|intros ? ?]
  | |- wp _ (Uint32 _ _) _ => apply wp_Uint32; [lia|intros ? ?]
  | |- wp _ (Uint64 _ _) _ => apply wp_Uint64; [lia|intros ? ?]
  end.

Ltac wp_step := cbv beta zeta; first [wp_prim | wp_cases].
Ltac wp_steps := repeat wp_step.

(** Proves a specification by [lem] and weakens its postcondition. *)
Ltac wp_use lem := eapply wp_mono; [eapply lem|].

Lemma run_exact {A} (f : gostr) (p : prog A) Q :
  wp (exact f) p Q -> exists a, run p f = Done (f, a) /\ Q a.
Proof.
  intros Hp. destruct (run_wp (exact f) (fun r => r = f) p f Q) as (r' & a & Hrun & -> & Ha); [|done..|eauto].
  intros r len off -> _. done.
Qed.
