(* ===== verification/RawTiff.v ===== *)
(** TIFF structures in RAW photos: src/internal/rawpreview/tiff.go, and the
    function slice of reader.go through which all parsers read. *)
From S2P Require Import Prelude ReaderIO.

(** At most [len] bytes at [off], clamped to the size of the file. *)
Definition slice (size off len : Z) : prog (res rerr gostr) :=
  if (off <? 0) || (size <=? off) then mret (Err EOF)
  else
    let length := Z.min len (size - off) in
    if length <=? 0 then mret (Err EOF)
    else
      '(d, e) ← readAt length off;
      if 0 <? slen d then mret (Ok d)
      else mret (Err match e with None => EOF | Some e' => e' end).

(** slice, where the caller treats an error and fewer than [n] bytes alike. *)
Definition sliceMin (size off len n : Z) : prog (option gostr) :=
  r ← slice size off len;
  mret match r with
       | Err _ => None
       | Ok b => if slen b <? n then None else Some b
       end.

Definition tiffTypeSize : list Z := [0; 1; 1; 2; 4; 8; 1; 1; 2; 4; 8; 4; 8; 4; 0; 0; 8; 8; 8].

Definition typeSize (t : Z) : Z :=
  if t <? Z.of_nat (length tiffTypeSize) then default 0 (tiffTypeSize !! Z.to_nat t) else 0.

(** The byte order and the offset of IFD0. *)
Definition tiffHeader (b : gostr) : prog (option (byteOrder * Z)) :=
  if slen b <? 8 then mret None
  else
    b0 ← idx b 0;
    b1 ← idx b 1;
    match (if (b0 =? 73) && (b1 =? 73) then Some LittleEndian
           else if (b0 =? 77) && (b1 =? 77) then Some BigEndian
           else None) with
    | None => mret None
    | Some bo =>
        s ← sub b 4 8;
        off ← Uint32 bo s;
        if off <? 8 then mret None else mret (Some (bo, off))
    end.

Record ifdEntry := mkEntry {
  tag : Z; typ : Z; count : Z; valOff : Z; inline : gostr }.

Record ifd := mkIfd { bo : byteOrder; entries : list ifdEntry }.

Definition maxIFDEntries : Z := 512.

Definition readEntry (o : byteOrder) (raw : gostr) (i : Z) : prog ifdEntry :=
  e ← sub raw (i * 12) (i * 12 + 12);
  s ← sub e 0 2; tag ← Uint16 o s;
  s ← sub e 2 4; typ ← Uint16 o s;
  s ← sub e 4 8; count ← Uint32 o s;
  let ts := typeSize typ in
  if (0 <? ts) && (ts * count <=? 4) then
    v ← sub e 8 12;
    mret (mkEntry tag typ count 0 v)
  else
    s ← sub e 8 12; v ← Uint32 o s;
    mret (mkEntry tag typ count v []).

(** One directory at [off] and the offset of the next one. *)
Definition readIFD (size : Z) (o : byteOrder) (off : Z) : prog (option (ifd * Z)) :=
  if (off <? 2) || (size <? off +! 2) then mret None
  else
    r ← sliceMin size off 2 2;
    match r with
    | None => mret None
    | Some b =>
        n ← Uint16 o b;
        if (n =? 0) || (maxIFDEntries <? n) then mret None
        else
          r ← sliceMin size (off +! 2) (n * 12 + 4) (n * 12);
          match r with
          | None => mret None
          | Some raw =>
              es ← for_ (Z.to_nat n) 0 (fun i es =>
                     ent ← readEntry o raw i;
                     mret (es ++ [ent])) [];
              next ← (if n * 12 + 4 <=? slen raw then
                        s ← sub raw (n * 12) (n * 12 + 4); Uint32 o s
                      else mret 0);
              mret (Some (mkIfd o es, next))
          end
    end.

Definition entry (f : ifd) (t : Z) : option ifdEntry :=
  List.find (fun e => tag e =? t) (entries f).

Definition memZ (x : Z) (l : list Z) : bool := existsb (Z.eqb x) l.

Definition decode (f : ifd) (b : gostr) (typ : Z) : prog (option Z) :=
  if memZ typ [1; 2; 7; 6] then
    if 1 <=? slen b then v ← idx b 0; mret (Some v) else mret None
  else if memZ typ [3; 8] then
    if 2 <=? slen b then v ← Uint16 (bo f) b; mret (Some v) else mret None
  else if memZ typ [4; 9; 13] then
    if 4 <=? slen b then v ← Uint32 (bo f) b; mret (Some v) else mret None
  else if memZ typ [16; 17; 18] then
    if 8 <=? slen b then v ← Uint64 (bo f) b; mret (Some v) else mret None
  else mret None.

(** The first value of a tag when it is stored in the entry. *)
Definition uint (f : ifd) (t : Z) : prog (option Z) :=
  match entry f t with
  | None => mret None
  | Some e => if slen (inline e) =? 0 then mret None else decode f (inline e) (typ e)
  end.

Fixpoint uintsLoop (fuel : nat) (f : ifd) (b : gostr) (typ n ts i : Z) (out : list Z)
    : prog (list Z) :=
  match fuel with
  | O => OutOfFuel
  | S fuel' =>
      if (i <? n) && ((i + 1) * ts <=? slen b) then
        s ← sub b (i * ts) (slen b);
        v ← decode f s typ;
        uintsLoop fuel' f b typ n ts (i + 1)
          (match v with Some x => out ++ [x] | None => out end)
      else mret out
  end.

(** Up to [maxN] values of a tag. *)
Definition uints (f : ifd) (size t maxN : Z) : prog (list Z) :=
  match entry f t with
  | None => mret []
  | Some e =>
      if count e =? 0 then mret []
      else
        let ts := typeSize (typ e) in
        if ts =? 0 then mret []
        else
          let n := Z.min (count e) maxN in
          r ← (if slen (inline e) =? 0 then slice size (valOff e) (n * ts)
               else mret (Ok (inline e)));
          match r with
          | Err _ => mret []
          | Ok b => uintsLoop (S (Z.to_nat n)) f b (typ e) n ts 0 []
          end
  end.

(** ** What a read gives, from any reader that keeps the contract of io.ReaderAt *)
Lemma wp_slice size off len (Q : res rerr gostr -> Prop) :
  len <= maxRead ->
  (forall e, Q (Err e)) ->
  (forall b, 0 <= off < size -> 0 < slen b <= Z.min len (size - off) -> Q (Ok b)) ->
  wp contract (slice size off len) Q.
Proof.
  intros Hl He Hb. unfold slice. wp_steps; try done.
  simpl. split; [unfold ok_request; lia|]. intros [d e] [Hd _]. simpl in *.
  destruct (Z.ltb_spec 0 (slen d)); simpl; [|done]. apply Hb; lia.
Qed.

Lemma wp_sliceMin size off len n (Q : option gostr -> Prop) :
  len <= maxRead ->
  Q None ->
  (forall b, 0 <= off < size -> n <= slen b -> 0 < slen b <= Z.min len (size - off) -> Q (Some b)) ->
  wp contract (sliceMin size off len n) Q.
Proof.
  intros Hl He Hb. unfold sliceMin. apply wp_bind, wp_slice; [done|done|].
  intros b ? ?. apply wp_ret. destruct (Z.ltb_spec (slen b) n); [done|]. by apply Hb.
Qed.

Ltac wp_read :=
  lazymatch goal with
  | |- wp _ (slice _ _ _) _ => apply wp_slice; [unfold maxRead; try lia|intros ?|intros ? ? ?]
  | |- wp _ (sliceMin _ _ _ _) _ => apply wp_sliceMin; [unfold maxRead; try lia| |intros ? ? ? ?]
  end.

Ltac raw_step := cbv beta zeta; first [wp_read | wp_prim | wp_cases].
Ltac raw_steps := repeat raw_step.

Lemma tiffHeader_spec ok b :
  wp ok (tiffHeader b) (fun r => forall o off, r = Some (o, off) -> 8 <= off < 4294967296).
Proof.
  unfold tiffHeader. raw_steps; naive_solver lia.
Qed.

Lemma typeSize_range t : 0 <= typeSize t <= 8.
Proof.
  unfold typeSize. destruct (Z.ltb_spec t (Z.of_nat (length tiffTypeSize))); [|lia].
  destruct (tiffTypeSize !! Z.to_nat t) as [x|] eqn:E; simpl; [|lia].
  assert (Hall : Forall (fun x => 0 <= x <= 8) tiffTypeSize)
    by (repeat constructor; lia).
  by eapply Forall_lookup_1 in Hall.
Qed.

(** A well-formed entry: the fields of a directory entry at their width; the
    inline value has four bytes. *)
Definition entry_ok (e : ifdEntry) : Prop :=
  0 <= count e < 4294967296 /\ 0 <= valOff e < 4294967296 /\
  (slen (inline e) = 0 \/ slen (inline e) = 4).

Definition ifd_ok (f : ifd) : Prop := Forall entry_ok (entries f).

Lemma readEntry_spec ok o raw i :
  0 <= i -> i * 12 + 12 <= slen raw -> wp ok (readEntry o raw i) entry_ok.
Proof.
  intros Hi Hr. unfold readEntry.
  raw_steps; unfold entry_ok; simpl; repeat split; try lia; by left.
Qed.

Lemma readIFD_spec size o off :
  wp contract (readIFD size o off)
    (fun r => forall f next, r = Some (f, next) -> ifd_ok f /\ 0 <= next < 4294967296).
Proof.
  unfold readIFD, maxIFDEntries.
  raw_steps; try done.
  apply (wp_for (fun _ es => Forall entry_ok es)); [constructor| |].
  - intros j es Hj Hes. apply wp_bind. wp_use readEntry_spec; [lia|lia|].
    intros ent Hent. apply wp_ret, Forall_app_2; [done|by constructor].
  - intros es Hes. apply wp_bind.
    apply (wp_mono _ _ (fun v => 0 <= v < 4294967296)); [by raw_steps|].
    intros next Hn. apply wp_ret. intros f next' [= <- <-]. done.
Qed.

Lemma entry_ok_find f t e : ifd_ok f -> entry f t = Some e -> entry_ok e.
Proof.
  unfold ifd_ok, entry. rewrite Forall_forall. intros Hf He.
  apply List.find_some in He as [He _]. by apply Hf, list_elem_of_In.
Qed.

Lemma decode_spec ok f b t :
  wp ok (decode f b t) (fun v => forall x, v = Some x -> 0 <= x < 2 ^ 64 /\ (slen b < 8 -> x < 4294967296)).
Proof.
  unfold decode. raw_steps; intros x [= <-]; lia.
Qed.

(** A value stored in the entry has at most 32 bits. *)
Lemma uint_spec ok f t :
  ifd_ok f -> wp ok (uint f t) (fun v => forall x, v = Some x -> 0 <= x < 4294967296).
Proof.
  intros Hf. unfold uint. raw_steps; try done.
  eapply entry_ok_find in Heqo as (_ & _ & Hi); [|done].
  wp_use decode_spec. intros v Hv x ->. destruct (Hv x eq_refl) as [? Hx]. split; [lia|]. apply Hx. lia.
Qed.

Lemma uintsLoop_spec ok fuel f b t n ts i out :
  Z.max 0 (n - i) < Z.of_nat fuel -> 0 <= i -> 0 <= ts ->
  Forall (fun x => 0 <= x < 2 ^ 64) out ->
  wp ok (uintsLoop fuel f b t n ts i out)
    (fun l => Forall (fun x => 0 <= x < 2 ^ 64) l /\
              Z.of_nat (length l) <= Z.of_nat (length out) + Z.max 0 (n - i)).
Proof.
  revert i out. induction fuel as [|fuel IH]; intros i out Hf Hi Hts Hout; simpl; [lia|].
  destruct ((i <? n) && ((i + 1) * ts <=? slen b)) eqn:E; bool_hyps.
  - apply wp_bind, wp_sub; [nia|lia|]. intros s Hs.
    apply wp_bind. wp_use decode_spec. intros v Hv.
    wp_use IH; [lia|lia|done| |].
    + destruct v as [x|]; [|done]. apply Forall_app_2; [done|]. constructor; [|constructor].
      by apply Hv.
    + intros l [? Hl]. split; [done|]. destruct v; [rewrite length_app in Hl; simpl in Hl|]; lia.
  - apply wp_ret. split; [done|lia].
Qed.

(** Up to [maxN] values, each one 64 bits wide. *)
Lemma uints_spec f size t maxN :
  ifd_ok f -> 0 <= maxN <= 16 ->
  wp contract (uints f size t maxN)
    (fun l => Forall (fun x => 0 <= x < 2 ^ 64) l /\ Z.of_nat (length l) <= maxN).
Proof.
  intros Hf Hm. unfold uints. pose proof (typeSize_range) as Ht.
  destruct (entry f t) as [e|] eqn:He; [|apply wp_ret; simpl; split; [constructor|lia]].
  apply entry_ok_find in He as (Hc & _ & _); [|done].
  specialize (Ht (typ e)).
  assert (Hnil : Forall (fun x => 0 <= x < 2 ^ 64) [] /\ Z.of_nat (length (@nil Z)) <= maxN)
    by (split; [constructor|simpl; lia]).
  raw_steps; try done; try nia.
  all: wp_use uintsLoop_spec; [lia|lia|lia|constructor|];
    intros l [? Hl]; split; [done|simpl in Hl; lia].
Qed.
