(* ===== verification/RawJpeg.v ===== *)
(** JPEG structures in RAW photos: src/internal/rawpreview/jpeg.go. *)
From S2P Require Import Prelude GoString ReaderIO RawTiff.

Record jpegInfo := mkInfo {
  Length : Z; Width : Z; Height : Z; Orientation : Z;
  ThumbOffset : Z; ThumbLength : Z }.

Definition noInfo : jpegInfo := mkInfo 0 0 0 0 0 0.

Definition setLength (i : jpegInfo) (l : Z) : jpegInfo :=
  mkInfo l (Width i) (Height i) (Orientation i) (ThumbOffset i) (ThumbLength i).
Definition setFrame (i : jpegInfo) (w h : Z) : jpegInfo :=
  mkInfo (Length i) w h (Orientation i) (ThumbOffset i) (ThumbLength i).
Definition setOrientation (i : jpegInfo) (o : Z) : jpegInfo :=
  mkInfo (Length i) (Width i) (Height i) o (ThumbOffset i) (ThumbLength i).
Definition setThumb (i : jpegInfo) (o l : Z) : jpegInfo :=
  mkInfo (Length i) (Width i) (Height i) (Orientation i) o l.

(** [c0 c1 c2] are the bytes FF D8 FF. *)
Definition soi3 (c0 c1 c2 : ascii) : bool :=
  (byte_val c0 =? 255) && (byte_val c1 =? 216) && (byte_val c2 =? 255).

Definition isSOI (b : gostr) : bool :=
  match b with
  | c0 :: c1 :: c2 :: _ => soi3 c0 c1 c2
  | _ => false
  end.

(** The index of the first SOI marker, or -1; [i] is the position of [b]. *)
Fixpoint findSOIFrom (b : gostr) (i : Z) : Z :=
  match b with
  | c0 :: ((c1 :: c2 :: _) as b') => if soi3 c0 c1 c2 then i else findSOIFrom b' (i + 1)
  | _ => -1
  end.

Definition findSOI (b : gostr) : Z := findSOIFrom b 0.

Definition isSOF (marker : Z) : bool :=
  (192 <=? marker) && (marker <=? 207) &&
  negb (marker =? 196) && negb (marker =? 200) && negb (marker =? 204).

Definition eoiMark : gostr := bytes_of [255; 217].

(** bytes.Index; [None] for -1. *)
Definition bytesIndex (b p : gostr) : option Z := Z.of_nat <$> index b p.

(** The end of the EOI marker in the [max] bytes at [start], relative to [start]. *)
Fixpoint findEOILoop (fuel : nat) (size start max scanned : Z) (carry : bool) : prog (option Z) :=
  match fuel with
  | O => OutOfFuel
  | S fuel' =>
      if scanned <? max then
        r ← sliceMin size (start +! scanned) (Z.min 65536 (max - scanned)) 1;
        match r with
        | None => mret None
        | Some b =>
            b0 ← (if carry then idx b 0 else mret 0);
            if carry && (b0 =? 217) then mret (Some (scanned + 1))
            else
              match bytesIndex b eoiMark with
              | Some i => mret (Some (scanned + i + 2))
              | None =>
                  bl ← idx b (slen b - 1);
                  findEOILoop fuel' size start max (scanned + slen b) (bl =? 255)
              end
        end
      else mret None
  end.

Definition findEOI (size start max : Z) : prog (option Z) :=
  findEOILoop (S (Z.to_nat max)) size start max 0 false.

Definition exifPrefix : gostr := bytes_of [69; 120; 105; 102; 0; 0].

(** The orientation and the thumbnail locator of an APP1 payload. The directory
    is read from the payload itself. *)
Definition readExifAPP1 (b : gostr) (payloadOff : Z) (info : jpegInfo) : prog jpegInfo :=
  if (slen b <? 8) || negb (hasPrefix b exifPrefix) then mret info
  else
    tiff ← sub b 6 (slen b);
    let base := payloadOff + 6 in
    h ← tiffHeader tiff;
    match h with
    | None => mret info
    | Some (o, ifd0) =>
        r ← onBytes tiff (readIFD (slen tiff) o ifd0);
        match r with
        | None => mret info
        | Some (e0, next) =>
            v ← uint e0 0x0112;
            let info := match v with
                        | Some v => if (1 <=? v) && (v <=? 8) then setOrientation info v else info
                        | None => info
                        end in
            if next <=? 0 then mret info
            else
              r ← onBytes tiff (readIFD (slen tiff) o next);
              match r with
              | None => mret info
              | Some (e1, _) =>
                  o1 ← uint e1 0x0201;
                  l1 ← uint e1 0x0202;
                  match o1, l1 with
                  | Some o1, Some l1 =>
                      if 0 <? l1 then mret (setThumb info (base +! i64 o1) (i64 l1)) else mret info
                  | _, _ => mret info
                  end
              end
        end
    end.

(** The fill bytes before a marker: the position, the header and the marker
    after them. *)
Fixpoint fillBytes (fuel : nat) (size off pos : Z) (hdr : gostr) (marker : Z)
    : prog (option (Z * gostr * Z)) :=
  match fuel with
  | O => OutOfFuel
  | S fuel' =>
      if negb (marker =? 255) then mret (Some (pos, hdr, marker))
      else
        let pos := pos + 1 in
        r ← sliceMin size (off +! pos) 4 4;
        match r with
        | None => mret None
        | Some hdr =>
            h0 ← idx hdr 0;
            if negb (h0 =? 255) then mret None
            else
              m ← idx hdr 1;
              fillBytes fuel' size off pos hdr m
        end
  end.

(** What a marker segment does: the answer of probeJPEGAt, or the information
    to go on with. *)
Definition segment (size off limit : Z) (needLength : bool) (pos segLen marker : Z)
    (info : jpegInfo) : prog (jpegInfo * bool + jpegInfo) :=
  if isSOF marker then
    r ← sliceMin size (off +! pos +! 4) 5 5;
    match r with
    | None => mret (inl (info, false))
    | Some b =>
        s ← sub b 1 3; h ← Uint16 BigEndian s;
        s ← sub b 3 5; w ← Uint16 BigEndian s;
        mret (inr (setFrame info w h))
    end
  else if marker =? 225 then
    r ← slice size (off +! pos +! 4) (Z.min (segLen - 2) 131072);
    match r with
    | Err _ => mret (inr info)
    | Ok b => info ← readExifAPP1 b (pos + 4) info; mret (inr info)
    end
  else if marker =? 218 then
    if negb needLength then mret (inl (info, 0 <? Width info))
    else
      let start := pos + 2 + segLen in
      r ← findEOI size (off +! start) (limit - start);
      match r with
      | None => mret (inl (info, false))
      | Some e =>
          let info := setLength info (start + e) in
          mret (inl (info, 0 <? Width info))
      end
  else mret (inr info).

Fixpoint probeLoop (fuel : nat) (size off limit : Z) (needLength : bool) (pos : Z)
    (info : jpegInfo) : prog (jpegInfo * bool) :=
  match fuel with
  | O => OutOfFuel
  | S fuel' =>
      if pos + 4 <=? limit then
        r ← sliceMin size (off +! pos) 4 4;
        match r with
        | None => mret (info, false)
        | Some hdr =>
            h0 ← idx hdr 0;
            if negb (h0 =? 255) then mret (info, false)
            else
              m ← idx hdr 1;
              r ← fillBytes (S (Z.to_nat (size - off))) size off pos hdr m;
              match r with
              | None => mret (info, false)
              | Some (pos, hdr, marker) =>
                  if marker =? 217 then
                    let info := setLength info (pos + 2) in
                    mret (info, 0 <? Width info)
                  else if (marker =? 1) || ((208 <=? marker) && (marker <=? 215)) then
                    probeLoop fuel' size off limit needLength (pos + 2) info
                  else
                    s ← sub hdr 2 4;
                    segLen ← Uint16 BigEndian s;
                    if segLen <? 2 then mret (info, false)
                    else
                      r ← segment size off limit needLength pos segLen marker info;
                      match r with
                      | inl ans => mret ans
                      | inr info =>
                          probeLoop fuel' size off limit needLength (pos + (2 + segLen)) info
                      end
              end
        end
      else mret (info, false)
  end.

Definition probeJPEGAt (size off max : Z) (needLength : bool) : prog (jpegInfo * bool) :=
  r ← sliceMin size off 2 2;
  match r with
  | None => mret (noInfo, false)
  | Some head =>
      h0 ← idx head 0;
      h1 ← idx head 1;
      if negb (h0 =? 255) || negb (h1 =? 216) then mret (noInfo, false)
      else
        let limit := Z.min max (size - off) in
        probeLoop (S (Z.to_nat limit)) size off limit needLength 2 noInfo
  end.

(** The exact length of the JPEG at [off], by walking to its EOI marker. *)
Definition probeJPEG (size off max : Z) : prog (jpegInfo * bool) :=
  probeJPEGAt size off max true.

(** Only the segments before the image data. *)
Definition probeJPEGHeader (size off : Z) : prog (jpegInfo * bool) :=
  probeJPEGAt size off 1048576 false.

(** ** What the walk over a JPEG answers, from any reader *)
Lemma index_bound s p i : index s p = Some i -> (i + length p <= length s)%nat.
Proof.
  revert i. induction s as [|c s IH]; intros i; simpl.
  - destruct (hasPrefix [] p) eqn:E; [|done]. intros [= <-].
    apply hasPrefix_length in E. simpl in *. lia.
  - destruct (hasPrefix (c :: s) p) eqn:E.
    + intros [= <-]. apply hasPrefix_length in E. simpl in *. lia.
    + destruct (index s p) as [j|]; [|done]. intros [= <-]. specialize (IH j eq_refl). lia.
Qed.

Lemma bytesIndex_bound b p i : bytesIndex b p = Some i -> 0 <= i /\ i + slen p <= slen b.
Proof.
  unfold bytesIndex. intros (j & Hj & ->)%fmap_Some. apply index_bound in Hj.
  unfold slen. lia.
Qed.

Lemma findEOILoop_spec fuel size start max scanned carry :
  Z.max 0 (max - scanned) < Z.of_nat fuel -> 0 <= scanned ->
  wp contract (findEOILoop fuel size start max scanned carry)
    (fun r => forall e, r = Some e -> 0 < e <= max).
Proof.
  revert scanned carry. induction fuel as [|fuel IH]; intros scanned carry Hf Hs; simpl; [lia|].
  destruct (Z.ltb_spec scanned max); [|by apply wp_ret].
  raw_step. raw_step; [done|]. raw_step.
  apply (wp_mono _ _ (fun _ => True)); [by raw_steps|]. intros b0 _.
  raw_step.
  - apply wp_ret. intros e [= <-]. lia.
  - destruct (bytesIndex b eoiMark) as [i|] eqn:E.
    + apply bytesIndex_bound in E. change (slen eoiMark) with 2 in E.
      apply wp_ret. intros e [= <-]. lia.
    + raw_steps. apply IH; lia.
Qed.

Lemma findEOI_spec size start max :
  wp contract (findEOI size start max) (fun r => forall e, r = Some e -> 0 < e <= max).
Proof. apply findEOILoop_spec; lia. Qed.

(** The fields of [info] are in range, for [n] bytes from the start of the JPEG
    to the end of the file; the locator of a thumbnail may lie behind the end by
    the range of its 32-bit field. *)
Definition info_ok (n : Z) (info : jpegInfo) : Prop :=
  0 <= Length info <= n /\
  0 <= Width info < 65536 /\ 0 <= Height info < 65536 /\ 0 <= Orientation info <= 8 /\
  0 <= ThumbOffset info < n + 2 ^ 33 /\ 0 <= ThumbLength info < 4294967296.

Lemma readExifAPP1_spec ok b payloadOff info n :
  info_ok n info -> 0 <= payloadOff <= n -> n <= 2 ^ 62 ->
  wp ok (readExifAPP1 b payloadOff info) (info_ok n).
Proof.
  intros Hi Hp Hb. unfold readExifAPP1.
  raw_step; [by raw_step|]. raw_step. raw_step. raw_step.
  wp_use tiffHeader_spec. intros h Hh. destruct h as [[o ifd0]|]; [|by apply wp_ret].
  apply wp_bind, wp_onBytes. wp_use readIFD_spec. intros [[e0 next]|] Hr; [|by apply wp_ret].
  destruct (Hr _ _ eq_refl) as [He0 Hn]. apply wp_bind. wp_use uint_spec; [done|]. intros v Hv.
  set (info' := match v with Some v => _ | None => _ end).
  assert (Hi' : info_ok n info').
  { subst info'. destruct v as [v|]; [|done]. destruct ((1 <=? v) && (v <=? 8)) eqn:E; [|done].
    bool_hyps. unfold info_ok in *. simpl. lia. }
  clearbody info'. raw_step; [by apply wp_ret|].
  apply wp_bind, wp_onBytes. wp_use readIFD_spec. intros [[e1 next1]|] Hr1; [|by apply wp_ret].
  destruct (Hr1 _ _ eq_refl) as [He1 _].
  apply wp_bind. wp_use uint_spec; [done|]. intros o1 Ho.
  apply wp_bind. wp_use uint_spec; [done|]. intros l1 Hl.
  destruct o1 as [o1|]; [|by apply wp_ret]. destruct l1 as [l1|]; [|by apply wp_ret].
  specialize (Ho _ eq_refl). specialize (Hl _ eq_refl).
  raw_step; [|by apply wp_ret]. apply wp_ret. unfold info_ok in *. simpl.
  i64_norm. lia.
Qed.

Section Probe.
Context (size : Z) (Hsize : 0 <= size <= 2 ^ 62).

Lemma fillBytes_spec fuel off pos hdr marker :
  0 <= off < size -> 0 <= pos -> off + pos < size -> size - off - pos < Z.of_nat fuel ->
  4 <= slen hdr -> off + pos + 4 <= size ->
  wp contract (fillBytes fuel size off pos hdr marker)
    (fun r => forall p h m, r = Some (p, h, m) -> pos <= p /\ off + p + 4 <= size /\ 4 <= slen h).
Proof.
  intros Ho. revert pos hdr marker.
  induction fuel as [|fuel IH]; intros pos hdr marker Hp Hlt Hf Hh Hend; simpl; [lia|].
  raw_step; [apply wp_ret; intros p h m [= <- <- <-]; lia|].
  i64_norm. raw_steps; try done. wp_use IH; [lia..|]. intros r Hr p h m ->.
  destruct (Hr p h m eq_refl) as (? & ? & ?). lia.
Qed.

(** The answer of a probe: with [true] there is a width. *)
Definition probe_ok (n : Z) (r : jpegInfo * bool) : Prop :=
  info_ok n r.1 /\ (r.2 = true -> 0 < Width r.1).

Lemma segment_spec off limit needLength pos segLen marker info :
  0 <= off < size -> 0 <= pos -> off + pos + 4 <= size -> 2 <= segLen < 65536 ->
  limit <= size - off -> info_ok (size - off) info ->
  wp contract (segment size off limit needLength pos segLen marker info)
    (fun r => match r with
              | inl ans => probe_ok (size - off) ans
              | inr info' => info_ok (size - off) info'
              end).
Proof.
  intros Ho Hp Hend Hs Hlim Hi. unfold segment, probe_ok. i64_norm.
  raw_steps; simpl; try done; try (split; [done|lia]).
  - unfold info_ok in *. simpl. lia.
  - wp_use readExifAPP1_spec; [done|lia..|]. done.
  - wp_use findEOI_spec. intros [e|] He; apply wp_ret; simpl; [|done].
    specialize (He e eq_refl). split; [|lia]. unfold info_ok in *. simpl. lia.
Qed.

Lemma probeLoop_spec fuel off limit needLength pos info :
  0 <= off < size -> 2 <= pos -> limit <= size - off -> Z.max 0 (limit - pos) < Z.of_nat fuel ->
  info_ok (size - off) info ->
  wp contract (probeLoop fuel size off limit needLength pos info) (probe_ok (size - off)).
Proof.
  intros Ho. revert pos info.
  induction fuel as [|fuel IH]; intros pos info Hp Hlim Hf Hi; cbn [probeLoop]; [lia|].
  assert (Hno : probe_ok (size - off) (info, false)) by done.
  destruct (Z.leb_spec (pos + 4) limit); [|by apply wp_ret].
  i64_norm. raw_steps; try done.
  wp_use fillBytes_spec; [lia..|]. intros r Hr.
  destruct r as [[[p h] m]|]; [|by apply wp_ret].
  destruct (Hr p h m eq_refl) as (? & ? & ?). raw_steps; try done.
  - split; simpl; [|lia]. unfold info_ok in *. simpl. lia.
  - apply IH; [lia..|done].
  - wp_use segment_spec; [lia..|done|]. intros [ans|info'] Hans; raw_steps; [done|].
    apply IH; [lia..|done].
Qed.

(** The walk terminates without a panic, and what it answers fits the file. *)
Lemma probeJPEGAt_spec off max needLength :
  wp contract (probeJPEGAt size off max needLength)
    (fun r => probe_ok (size - off) r /\ (r.2 = true -> 0 <= off < size) \/ r = (noInfo, false)).
Proof.
  unfold probeJPEGAt. raw_steps; try (by right).
  apply (wp_mono _ _ (probe_ok (size - off))); [|by left].
  apply probeLoop_spec; [lia..|]. unfold info_ok, noInfo. simpl. lia.
Qed.
End Probe.
