(* ===== verification/RawWalk.v ===== *)
(** The containers of RAW photos: src/internal/rawpreview/tiff_walk.go and
    containers.go. The slice [out] that the functions extend is an argument and
    part of the result. *)
From S2P Require Import Prelude GoString ReaderIO RawTiff RawJpeg.

Record Candidate := mkCand {
  Offset : Z; CLength : Z; CWidth : Z; CHeight : Z; COrientation : Z; Source : gostr }.

Definition MaxParseBytes : Z := 25165824.
Definition MaxScanBytes : Z := 8388608.

(** The thumbnail in the EXIF data of the JPEG [c]. *)
Definition addThumb (size off : Z) (info : jpegInfo) (c : Candidate) (out : list Candidate)
    : prog (list Candidate) :=
  if (0 <? ThumbLength info) && (0 <? ThumbOffset info) then
    let toff := off +! ThumbOffset info in
    let tlen := ThumbLength info in
    if toff +! tlen <=? size then
      '(ti, ok) ← probeJPEGHeader size toff;
      mret (if (ok : bool)
            then out ++ [mkCand toff tlen (Width ti) (Height ti) (COrientation c)
                           (Source c ++ "+exifthumb")]
            else out)
    else mret out
  else mret out.

(** Appends the JPEG that the locator points at, if there is one, and the
    thumbnail in its EXIF data. *)
Definition addCandidate (size off length orient : Z) (source : gostr) (out : list Candidate)
    : prog (bool * list Candidate) :=
  if (off <=? 0) || (length <? 256) || (size <? off +! 4) then mret (false, out)
  else
    let length := Z.min length (i64 (size - off)) in
    r ← slice size off 3;
    match r with
    | Err _ => mret (false, out)
    | Ok b =>
        if negb (isSOI b) then mret (false, out)
        else
          '(info, ok) ← probeJPEGHeader size off;
          if negb ok then mret (false, out)
          else
            let o := if negb (Orientation info =? 0) then Orientation info else orient in
            let c := mkCand off length (Width info) (Height info) o source in
            out ← addThumb size off info c (out ++ [c]);
            mret (true, out)
    end.

Definition addPair (size : Z) (f : ifd) (offTag lenTag orient : Z) (source : gostr)
    (out : list Candidate) : prog (bool * list Candidate) :=
  offs ← uints f size offTag 1;
  lens ← uints f size lenTag 1;
  match offs, lens with
  | o :: _, l :: _ => addCandidate size (i64 o) (i64 l) orient source out
  | _, _ => mret (false, out)
  end.

(** The part of the walk that looks for JPEGs in one directory. *)
Definition visitIFD (size : Z) (f : ifd) (source : gostr) (found : bool) (out : list Candidate)
    : prog (bool * list Candidate) :=
  v ← uint f 0x0112;
  let orient := match v with
                | Some v => if (1 <=? v) && (v <=? 8) then i64 v else 0
                | None => 0
                end in
  '(ok, out) ← addPair size f 0x0201 0x0202 orient source out;
  let found := found || ok in
  c ← uint f 0x0103;
  '(found, out) ←
    (if match c with Some c => (c =? 6) || (c =? 7) || (c =? 99) | None => false end then
       '(ok1, out) ← addPair size f 0x0111 0x0117 orient source out;
       '(ok2, out) ← addPair size f 0x0144 0x0145 orient source out;
       mret (found || ok1 || ok2, out)
     else mret (found, out));
  match entry f 0x002e with
  | Some e =>
      if (1024 <? count e) && (0 <? valOff e) then
        '(ok, out) ← addCandidate size (valOff e) (i64 (count e)) orient
                       (source ++ ":jpgfromraw") out;
        mret (found || ok, out)
      else mret (found, out)
  | None => mret (found, out)
  end.

Definition maxWalkedIFDs : nat := 64.

(** The walk over the queue of directory offsets. *)
Fixpoint walkIFDs (fuel : nat) (size : Z) (o : byteOrder) (source : gostr)
    (visited : gset Z) (queue : list Z) (found : bool) (out : list Candidate)
    : prog (bool * list Candidate) :=
  match fuel with
  | O => OutOfFuel
  | S fuel' =>
      match queue with
      | [] => mret (found, out)
      | off :: queue =>
          if negb (bool_decide (set_size visited < maxWalkedIFDs)%nat) then mret (found, out)
          else if (off <=? 0) || (size <=? off) || bool_decide (off ∈ visited) then
            walkIFDs fuel' size o source visited queue found out
          else
            let visited := {[off]} ∪ visited in
            r ← readIFD size o off;
            match r with
            | None => walkIFDs fuel' size o source visited queue found out
            | Some (f, next) =>
                let queue := if 0 <? next then queue ++ [next] else queue in
                subs ← uints f size 0x014a 16;
                let queue := queue ++ map i64 subs in
                v ← uint f 0x8769;
                let queue := match v with Some v => queue ++ [i64 v] | None => queue end in
                '(found, out) ← visitIFD size f source found out;
                walkIFDs fuel' size o source visited queue found out
            end
      end
  end.

(** Every visited directory queues at most 18 others. *)
Definition walkFuel : nat := 64 * 20 + 2.

Definition tiffCandidates (size : Z) (source : gostr) (out : list Candidate)
    : prog (bool * list Candidate) :=
  r ← slice size 0 8;
  match r with
  | Err _ => mret (false, out)
  | Ok head =>
      h ← tiffHeader head;
      match h with
      | None => mret (false, out)
      | Some (o, ifd0) => walkIFDs walkFuel size o source ∅ [ifd0] false out
      end
  end.

(** ** containers.go *)
Definition addProbed (size off maxLen : Z) (source : gostr) (out : list Candidate)
    : prog (bool * list Candidate) :=
  '(info, ok) ← probeJPEG size off (Z.min maxLen MaxParseBytes);
  if negb ok || (Length info <=? 0) then mret (false, out)
  else addCandidate size off (Length info) (Orientation info) source out.

(** Fujifilm RAF *)
Definition rafMagic : gostr := "FUJIFILMCCD-RAW ".

Definition rafCandidates (size : Z) (out : list Candidate) : prog (bool * list Candidate) :=
  r ← sliceMin size 0 0x60 0x60;
  match r with
  | None => mret (false, out)
  | Some head =>
      m ← sub head 0 16;
      if negb (seqb m rafMagic) then mret (false, out)
      else
        s ← sub head 0x54 0x58; off ← Uint32 BigEndian s;
        s ← sub head 0x58 0x5c; length ← Uint32 BigEndian s;
        addCandidate size off length 0 "raf" out
  end.

(** Canon CR3 *)
Record bmffBox := mkBox { btyp : gostr; buuid : gostr; boff : Z; blength : Z }.

Definition hexDigit (n : Z) : ascii := ascii_of_N (Z.to_N (if n <? 10 then 48 + n else 87 + n)).

(** hex.EncodeToString *)
Definition hexEncode (b : gostr) : gostr :=
  flat_map (fun c => [hexDigit (byte_val c / 16); hexDigit (byte_val c mod 16)]) b.

Definition bmffContainers : list gostr :=
  strs ["moov"; "trak"; "mdia"; "minf"; "stbl"; "uuid"; "udta"; "edts"; "dinf"]%string.

(** The box at [off]: its length with the header, and the box. *)
Definition readBox (size off end_ : Z) : prog (option (Z * bmffBox)) :=
  r ← sliceMin size off 16 8;
  match r with
  | None => mret None
  | Some h =>
      s ← sub h 0 4; boxLen ← Uint32 BigEndian s;
      typ ← sub h 4 8;
      hd ← (if boxLen =? 1 then
              if slen h <? 16 then mret None
              else s ← sub h 8 16; l ← Uint64 BigEndian s; mret (Some (i64 l, 16))
            else if boxLen =? 0 then mret (Some (i64 (end_ - off), 8))
            else mret (Some (boxLen, 8)));
      match hd with
      | None => mret None
      | Some (boxLen, hdr) =>
          let tolerate := (boxLen <? hdr) || (end_ <? off +! boxLen) in
          let boxLen := if tolerate then i64 (end_ - off) else boxLen in
          if tolerate && (boxLen <? hdr) then mret None
          else
            let b := mkBox typ [] (off +! hdr) (i64 (boxLen - hdr)) in
            if seqb typ "uuid" && (16 <=? blength b) then
              r ← slice size (boff b) 16;
              match r with
              | Ok u =>
                  if slen u =? 16
                  then mret (Some (boxLen, mkBox typ (hexEncode u) (boff b +! 16) (i64 (blength b - 16))))
                  else mret (Some (boxLen, b))
              | Err _ => mret (Some (boxLen, b))
              end
            else mret (Some (boxLen, b))
      end
  end.

(** The boxes in [off, end): [fn] sees each one and says whether [inner] walks
    its payload. *)
Fixpoint bmffBoxes {St} (fuel : nat) (size off end_ : Z) (inner : Z -> Z -> St -> prog St)
    (fn : bmffBox -> St -> prog (bool * St)) (s : St) : prog St :=
  match fuel with
  | O => OutOfFuel
  | S fuel' =>
      if off +! 8 <=? end_ then
        r ← readBox size off end_;
        match r with
        | None => mret s
        | Some (boxLen, b) =>
            '(into, s) ← fn b s;
            s ← (if (into : bool) then inner (boff b) (boff b +! blength b) s else mret s);
            bmffBoxes fuel' size (off +! boxLen) end_ inner fn s
        end
      else mret s
  end.

(** [depth] levels may still be walked. *)
Fixpoint walkBMFF {St} (depth : nat) (size off end_ : Z)
    (fn : bmffBox -> St -> prog (bool * St)) (s : St) : prog St :=
  match depth with
  | O => mret s
  | S depth' =>
      bmffBoxes (S (S (Z.to_nat (size - off)))) size off end_
        (fun off end_ s => walkBMFF depth' size off end_ fn s) fn s
  end.

(** A depth above 6 is not walked. *)
Definition bmffDepth : nat := 7.

Definition cr3Probe (size : Z) (b : bmffBox) (head : Z) (source : gostr)
    (s : bool * list Candidate) : prog (bool * (bool * list Candidate)) :=
  let '(found, out) := s in
  r ← slice size (boff b) (Z.min (blength b) head);
  match r with
  | Err _ => mret (false, (found, out))
  | Ok h =>
      let i := findSOI h in
      if 0 <=? i then
        '(ok, out) ← addProbed size (boff b +! i) (i64 (blength b - i)) source out;
        mret (false, (found || ok, out))
      else mret (false, (found, out))
  end.

Definition cr3Box (size : Z) (b : bmffBox) (s : bool * list Candidate)
    : prog (bool * (bool * list Candidate)) :=
  if seqb (btyp b) "THMB" || seqb (btyp b) "PRVW" then cr3Probe size b 64 ("cr3:" ++ btyp b) s
  else if seqb (btyp b) "mdat" then cr3Probe size b 4096 "cr3:mdat" s
  else mret (bool_decide (btyp b ∈ bmffContainers), s).

Definition cr3Candidates (size : Z) (out : list Candidate) : prog (bool * list Candidate) :=
  walkBMFF bmffDepth size 0 size (cr3Box size) (false, out).

(** Canon CRW *)
Fixpoint crwDir (depth : nat) (size : Z) (o : byteOrder) (base off : Z) (out : list Candidate)
    : prog (bool * list Candidate) :=
  match depth with
  | O => mret (false, out)
  | S depth' =>
      if (off <? 0) || (size <? off +! 2) then mret (false, out)
      else
        r ← sliceMin size off 2 2;
        match r with
        | None => mret (false, out)
        | Some b =>
            n ← Uint16 o b;
            if (n =? 0) || (512 <? n) then mret (false, out)
            else
              r ← sliceMin size (off +! 2) (n * 10) (n * 10);
              match r with
              | None => mret (false, out)
              | Some raw =>
                  for_ (Z.to_nat n) 0 (fun i '(found, out) =>
                    e ← sub raw (i * 10) (i * 10 + 10);
                    s ← sub e 0 2; tag ← Uint16 o s;
                    if negb (Z.land tag 0xc000 =? 0) then mret (found, out)
                    else
                      s ← sub e 2 6; length ← Uint32 o s;
                      s ← sub e 6 10; v ← Uint32 o s;
                      let doff := base +! v in
                      let dt := Z.land (Z.shiftr tag 11) 7 in
                      if (dt =? 5) || (dt =? 6) then
                        '(ok, out) ← crwDir depth' size o base doff out;
                        mret (found || ok, out)
                      else
                        '(ok, out) ← addCandidate size doff length 0 "crw" out;
                        mret (found || ok, out)) (false, out)
              end
        end
  end.

(** A depth above 3 is not read. *)
Definition crwDepth : nat := 4.

Definition crwMagic : gostr := "HEAPCCDR".

Definition crwCandidates (size : Z) (out : list Candidate) : prog (bool * list Candidate) :=
  r ← sliceMin size 0 26 26;
  match r with
  | None => mret (false, out)
  | Some head =>
      m ← sub head 6 14;
      if negb (seqb m crwMagic) then mret (false, out)
      else
        e ← sub head 0 2;
        match (if seqb e "II" then Some LittleEndian
               else if seqb e "MM" then Some BigEndian
               else None) with
        | None => mret (false, out)
        | Some o =>
            s ← sub head 2 6; base ← Uint32 o s;
            if (base <? 26) || (size <=? base) then mret (false, out)
            else
              r ← sliceMin size (size - 4) 4 4;
              match r with
              | None => mret (false, out)
              | Some tail =>
                  v ← Uint32 o tail;
                  crwDir crwDepth size o base (base +! v) out
              end
        end
  end.

(** Minolta MRW *)
Definition mrwMagic : gostr := bytes_of [0; 77; 82; 77].
Definition ttwMagic : gostr := bytes_of [0; 84; 84; 87].

Fixpoint mrwBlocks (fuel : nat) (size end_ off : Z) (out : list Candidate)
    : prog (bool * list Candidate) :=
  match fuel with
  | O => OutOfFuel
  | S fuel' =>
      if off +! 8 <=? end_ then
        r ← sliceMin size off 8 8;
        match r with
        | None => mret (false, out)
        | Some h =>
            s ← sub h 4 8; blockLen ← Uint32 BigEndian s;
            if blockLen <=? 0 then mret (false, out)
            else
              t ← sub h 0 4;
              '(ok, inner) ←
                (if seqb t ttwMagic
                 then section (off +! 8) blockLen (tiffCandidates blockLen "mrw" [])
                 else mret (false, []));
              if (ok : bool) then
                mret (true, out ++ map (fun c =>
                  mkCand (Offset c +! (off +! 8)) (CLength c) (CWidth c) (CHeight c)
                    (COrientation c) (Source c)) inner)
              else mrwBlocks fuel' size end_ (off +! (8 + blockLen)) out
        end
      else mret (false, out)
  end.

Definition mrwCandidates (size : Z) (out : list Candidate) : prog (bool * list Candidate) :=
  r ← sliceMin size 0 8 8;
  match r with
  | None => mret (false, out)
  | Some head =>
      m ← sub head 0 4;
      if negb (seqb m mrwMagic) then mret (false, out)
      else
        s ← sub head 4 8; v ← Uint32 BigEndian s;
        let end_ := Z.min (8 + v) size in
        mrwBlocks (S (Z.to_nat end_)) size end_ 8 out
  end.

(** Sigma X3F *)
Definition x3fCandidates (size : Z) (out : list Candidate) : prog (bool * list Candidate) :=
  r ← slice size 0 4;
  match r with
  | Err _ => mret (false, out)
  | Ok head =>
      if negb (seqb head "FOVb") then mret (false, out)
      else
        r ← sliceMin size (size - 4) 4 4;
        match r with
        | None => mret (false, out)
        | Some tail =>
            dir ← Uint32 LittleEndian tail;
            r ← sliceMin size dir 12 12;
            match r with
            | None => mret (false, out)
            | Some d =>
                m ← sub d 0 4;
                if negb (seqb m "SECd") then mret (false, out)
                else
                  s ← sub d 8 12; n ← Uint32 LittleEndian s;
                  if (n =? 0) || (256 <? n) then mret (false, out)
                  else
                    r ← sliceMin size (dir + 12) (n * 12) (n * 12);
                    match r with
                    | None => mret (false, out)
                    | Some raw =>
                        for_ (Z.to_nat n) 0 (fun i '(found, out) =>
                          e ← sub raw (i * 12) (i * 12 + 12);
                          s ← sub e 0 4; off ← Uint32 LittleEndian s;
                          s ← sub e 4 8; length ← Uint32 LittleEndian s;
                          if length <? 256 then mret (found, out)
                          else
                            r ← slice size off (Z.min length 128);
                            match r with
                            | Err _ => mret (found, out)
                            | Ok h =>
                                let j := findSOI h in
                                if 0 <=? j then
                                  '(ok, out) ← addCandidate size (off + j) (length - j) 0 "x3f" out;
                                  mret (found || ok, out)
                                else mret (found, out)
                            end) (false, out)
                    end
            end
        end
  end.

(** ** Every candidate lies inside the file *)
Definition cand_ok (size : Z) (c : Candidate) : Prop :=
  0 < Offset c /\ 0 < CLength c /\ Offset c + CLength c <= size /\
  0 < CWidth c < 65536 /\ 0 <= CHeight c < 65536 /\ 0 <= COrientation c <= 8.

Definition outs_ok (size : Z) (r : bool * list Candidate) : Prop := Forall (cand_ok size) r.2.

(** What addCandidate adds: nothing, or the candidate at [off] and more. *)
Definition added (size off : Z) (out : list Candidate) (r : bool * list Candidate) : Prop :=
  r = (false, out) \/
  exists c l, r = (true, out ++ c :: l) /\ Offset c = off /\ Forall (cand_ok size) (c :: l).

Lemma added_ok size off out r : Forall (cand_ok size) out -> added size off out r -> outs_ok size r.
Proof.
  intros Ho [->|(c & l & -> & _ & Hl)]; [done|]. unfold outs_ok. simpl. by apply Forall_app_2.
Qed.

Lemma visit_size (visited : gset Z) off :
  off ∉ visited -> set_size ({[off]} ∪ visited) = S (set_size visited).
Proof.
  intros Hv. change (size ({[off]} ∪ visited) = S (size visited)).
  rewrite size_union by set_solver. by rewrite size_singleton.
Qed.

Section Containers.
Context (size : Z) (Hsize : 0 <= size <= 2 ^ 62).

Lemma addThumb_spec off info c out :
  0 <= off < size -> info_ok (size - off) info -> 0 <= COrientation c <= 8 ->
  wp contract (addThumb size off info c out)
    (fun out' => exists l, out' = out ++ l /\ Forall (cand_ok size) l).
Proof.
  intros Ho Hi Hc. unfold addThumb, info_ok in *.
  assert (Hno : exists l, out = out ++ l /\ Forall (cand_ok size) l)
    by (exists []; by rewrite app_nil_r).
  cbv zeta. i64_norm. raw_steps; try done.
  wp_use probeJPEGAt_spec; [done|]. intros [ti ok] [[[Hti Hw] Hoff]|[= -> ->]]; [|by apply wp_ret].
  apply wp_ret. destruct ok; [|done]. eexists [_]. split; [done|]. constructor; [|constructor].
  specialize (Hw eq_refl). unfold info_ok, cand_ok in *. simpl in *. lia.
Qed.

Lemma addCandidate_spec off length orient source out :
  0 <= orient <= 8 ->
  wp contract (addCandidate size off length orient source out) (added size off out).
Proof.
  intros Hor. unfold addCandidate.
  raw_steps; try (by left). i64_norm.
  wp_use probeJPEGAt_spec; [done|]. intros [info ok] [[[Hi Hw] Hoff]|[= -> ->]]; [|by left].
  destruct ok; [|by left]. simpl in *. raw_step.
  assert (Hc : cand_ok size (mkCand off (Z.min length (size - off)) (Width info) (Height info)
             (if negb (Orientation info =? 0) then Orientation info else orient) source)).
  { specialize (Hw eq_refl). unfold info_ok, cand_ok in *. simpl in *. repeat split; try lia;
    destruct (negb _); lia. }
  wp_use addThumb_spec; [lia|done|apply Hc|]. intros out' (l & -> & Hl).
  apply wp_ret. right. eexists _, l. rewrite <- app_assoc. split; [done|]. split; [done|].
  by constructor.
Qed.

Lemma addPair_spec f offTag lenTag orient source out :
  ifd_ok f -> 0 <= orient <= 8 -> Forall (cand_ok size) out ->
  wp contract (addPair size f offTag lenTag orient source out) (outs_ok size).
Proof.
  intros Hf Hor Ho. unfold addPair.
  apply wp_bind. wp_use uints_spec; [done|lia|]. intros offs _.
  apply wp_bind. wp_use uints_spec; [done|lia|]. intros lens _.
  raw_steps; [done|done|]. wp_use addCandidate_spec; [done|]. intros r. by apply added_ok.
Qed.

Lemma visitIFD_spec f source found out :
  ifd_ok f -> Forall (cand_ok size) out ->
  wp contract (visitIFD size f source found out) (outs_ok size).
Proof.
  intros Hf Ho. unfold visitIFD.
  apply wp_bind. wp_use uint_spec; [done|]. intros v Hv. cbv zeta.
  set (orient := match v with Some v => _ | None => _ end).
  assert (Hor : 0 <= orient <= 8).
  { subst orient. destruct v as [v|]; [|lia]. destruct ((1 <=? v) && (v <=? 8)) eqn:E; [|lia].
    bool_hyps. i64_norm. lia. }
  clearbody orient.
  apply wp_bind. wp_use addPair_spec; [done..|]. intros [ok1 out1] H1.
  apply wp_bind. wp_use uint_spec; [done|]. intros c _.
  apply wp_bind. apply (wp_mono _ _ (outs_ok size)).
  - raw_step; [|by apply wp_ret]. apply wp_bind. wp_use addPair_spec; [done..|].
    intros [ok2 out2] H2. apply wp_bind. wp_use addPair_spec; [done..|].
    intros [ok3 out3] H3. by apply wp_ret.
  - intros [found2 out2] H2. raw_steps; try done.
    wp_use addCandidate_spec; [done|]. intros [ok3 out3] Hr. apply wp_ret.
    by apply (added_ok _ _ _ _ H2) in Hr.
Qed.

Lemma walkIFDs_spec fuel o source visited queue found out :
  (20 * (64 - set_size visited) + length queue < fuel)%nat -> Forall (cand_ok size) out ->
  wp contract (walkIFDs fuel size o source visited queue found out) (outs_ok size).
Proof.
  revert visited queue found out.
  induction fuel as [|fuel IH]; intros visited queue found out Hf Ho; cbn [walkIFDs]; [lia|].
  destruct queue as [|off queue]; [by apply wp_ret|]. cbn [length] in Hf.
  raw_step; [by apply wp_ret|]. raw_step; [apply IH; [lia|done]|].
  unfold maxWalkedIFDs in *.
  apply wp_bind. wp_use readIFD_spec. intros r Hr.
  destruct r as [[f next]|]; [|apply IH; [rewrite visit_size by done; lia|done]].
  destruct (Hr f next eq_refl) as [Hfd _].
  apply wp_bind. wp_use uints_spec; [done|lia|]. intros subs [_ Hsub].
  apply wp_bind. wp_use uint_spec; [done|]. intros v _. cbv zeta.
  apply wp_bind. wp_use visitIFD_spec; [done..|]. intros [found1 out1] Hout1.
  apply IH; [|done]. rewrite visit_size by done.
  assert (forall q : list Z, length (match v with Some v => q ++ [i64 v] | None => q end) <= S (length q))%nat
    as Hq by (intros q; destruct v; [rewrite length_app; simpl|]; lia).
  eapply Nat.le_lt_trans; [apply Nat.add_le_mono_l, Hq|].
  rewrite length_app, length_map. destruct (0 <? next); [rewrite length_app; simpl|]; lia.
Qed.

Lemma tiffCandidates_spec source out :
  Forall (cand_ok size) out -> wp contract (tiffCandidates size source out) (outs_ok size).
Proof.
  intros Ho. unfold tiffCandidates. raw_step. raw_step; [by apply wp_ret|].
  apply wp_bind. wp_use tiffHeader_spec. intros [[o ifd0]|] _; [|by apply wp_ret].
  apply walkIFDs_spec; [|done]. vm_compute. lia.
Qed.

Lemma addProbed_spec off maxLen source out :
  wp contract (addProbed size off maxLen source out) (added size off out).
Proof.
  unfold addProbed, probeJPEG. apply wp_bind. wp_use probeJPEGAt_spec; [done|].
  intros [info ok] [[[Hi _] _]|[= -> ->]]; [|by left]. raw_steps; [by left|].
  apply addCandidate_spec. apply Hi.
Qed.

Lemma rafCandidates_spec out :
  Forall (cand_ok size) out -> wp contract (rafCandidates size out) (outs_ok size).
Proof.
  intros Ho. unfold rafCandidates. raw_steps; try done.
  wp_use addCandidate_spec; [lia|]. intros r. by apply added_ok.
Qed.

(** A box has at least 8 bytes, so the walk goes forward until the end, or until
    the position wraps around and leaves the file. *)
Lemma readBox_spec off end_ :
  wp contract (readBox size off end_)
    (fun r => forall l b, r = Some (l, b) -> 0 <= off < size /\ 8 <= l < 2 ^ 63).
Proof.
  unfold readBox.
  raw_step. raw_step; [done|]. do 7 raw_step.
  apply (wp_mono _ _ (fun hd => forall l hdr, hd = Some (l, hdr) -> 8 <= hdr /\ l < 2 ^ 63)).
  { raw_steps; intros ? ? [= <- <-];
      try match goal with |- context [i64 ?x] => pose proof (i64_range x); unfold i64_ok in * end; lia. }
  intros [[l hdr]|] Hl; [|by apply wp_ret]. destruct (Hl l hdr eq_refl) as [Hhdr Hl'].
  cbv zeta. set (len := if _ || _ then _ else _).
  assert (Hlen : len < 2 ^ 63).
  { subst len. destr_goal; [|done]. pose proof (i64_range (end_ - off)). unfold i64_ok in *. lia. }
  assert (Hcut : ((l <? hdr) || (end_ <? off +! l)) && (len <? hdr) = false -> 8 <= len).
  { subst len. destruct (Z.ltb_spec l hdr); simpl; [intros ?; bool_hyps; lia|].
    destruct (end_ <? off +! l); simpl; intros ?; bool_hyps; lia. }
  clearbody len. raw_step; [by apply wp_ret|]. specialize (Hcut eq_refl).
  raw_steps; try (intros ? ? [= <- <-]; lia).
Qed.

Lemma i64_wrap x : 0 <= x < 2 ^ 64 -> i64 x = x \/ i64 x < 0.
Proof.
  intros Hx. unfold i64. destruct (decide (x < 2 ^ 63)).
  - left. rewrite Z.mod_small; lia.
  - right. replace (x + 2 ^ 63) with (x - 2 ^ 63 + 1 * 2 ^ 64) by lia.
    rewrite Z.mod_add, Z.mod_small; lia.
Qed.

Section Boxes.
Context {St : Type} (I : St -> Prop) (fn : bmffBox -> St -> prog (bool * St)).
Context (fn_spec : forall b s, I s -> wp contract (fn b s) (fun r => I r.2)).

Lemma bmffBoxes_spec fuel off end_ inner s :
  (forall off end_ s, I s -> wp contract (inner off end_ s) I) ->
  (1 <= fuel)%nat -> (0 <= off -> Z.max 0 (size - off) + 2 <= Z.of_nat fuel) -> I s ->
  wp contract (bmffBoxes fuel size off end_ inner fn s) I.
Proof.
  intros Hin. revert off s.
  induction fuel as [|fuel IH]; intros off s Hf1 Hf Hs; cbn [bmffBoxes]; [lia|].
  raw_step; [|by apply wp_ret]. apply wp_bind. wp_use readBox_spec. intros [[l b]|] Hb; [|by apply wp_ret].
  destruct (Hb l b eq_refl) as [Hoff Hl]. apply wp_bind. wp_use fn_spec; [done|]. intros [into s1] Hs1.
  apply wp_bind. apply (wp_mono _ _ I).
  - destruct into; [by apply Hin|by apply wp_ret].
  - intros s2 Hs2. apply IH; [lia| |done].
    destruct (i64_wrap (off + l)) as [->|?]; lia.
Qed.

Lemma walkBMFF_spec depth off end_ s :
  I s -> wp contract (walkBMFF depth size off end_ fn s) I.
Proof.
  revert off end_ s. induction depth as [|depth IH]; intros off end_ s Hs; cbn [walkBMFF]; [by apply wp_ret|].
  apply bmffBoxes_spec; [by intros; apply IH|lia|lia|done].
Qed.
End Boxes.

Lemma cr3Probe_spec b head source s :
  head <= 4096 -> outs_ok size s -> wp contract (cr3Probe size b head source s) (fun r => outs_ok size r.2).
Proof.
  intros Hh Hs. unfold cr3Probe. destruct s as [found out]. raw_steps; try done.
  wp_use addProbed_spec. intros [ok out'] Hr. apply wp_ret.
  by apply (added_ok _ _ _ _ Hs) in Hr.
Qed.

Lemma cr3Candidates_spec out :
  Forall (cand_ok size) out -> wp contract (cr3Candidates size out) (outs_ok size).
Proof.
  intros Ho. apply walkBMFF_spec; [|done]. intros b s Hs. unfold cr3Box.
  raw_steps; [apply cr3Probe_spec; [lia|done]|apply cr3Probe_spec; [lia|done]|done].
Qed.

Lemma crwDir_spec depth o base off out :
  Forall (cand_ok size) out -> wp contract (crwDir depth size o base off out) (outs_ok size).
Proof.
  revert off out. induction depth as [|depth IH]; intros off out Ho; cbn [crwDir]; [by apply wp_ret|].
  raw_steps; try done. apply (wp_for (fun _ => outs_ok size)); [done| |done].
  intros j [found out'] Hj Hs. raw_steps; try done.
  - wp_use IH; [exact Hs|]. intros [ok out2] Hr. by apply wp_ret.
  - wp_use addCandidate_spec; [lia|]. intros [ok out2] Hr. apply wp_ret.
    by apply (added_ok _ _ _ _ Hs) in Hr.
Qed.

Lemma crwCandidates_spec out :
  Forall (cand_ok size) out -> wp contract (crwCandidates size out) (outs_ok size).
Proof.
  intros Ho. unfold crwCandidates. raw_steps; try done. by apply crwDir_spec.
Qed.

Lemma x3fCandidates_spec out :
  Forall (cand_ok size) out -> wp contract (x3fCandidates size out) (outs_ok size).
Proof.
  intros Ho. unfold x3fCandidates. raw_steps; try done.
  apply (wp_for (fun _ => outs_ok size)); [done| |done].
  intros j [found out'] Hj Hs. raw_steps; try done.
  wp_use addCandidate_spec; [lia|]. intros [ok out2] Hr. apply wp_ret.
  by apply (added_ok _ _ _ _ Hs) in Hr.
Qed.
End Containers.

(** In a TTW block the offsets are shifted; the block may lie about its length,
    so that its candidates need not lie in the file. *)
Definition width_ok (c : Candidate) : Prop :=
  0 < Offset c /\ 0 < CLength c /\ Offset c + CLength c < 2 ^ 62 + 2 ^ 34 /\
  0 < CWidth c < 65536 /\ 0 <= CHeight c < 65536 /\ 0 <= COrientation c <= 8.

Lemma cand_width_ok size c : size <= 2 ^ 62 -> cand_ok size c -> width_ok c.
Proof. unfold cand_ok, width_ok. lia. Qed.

Lemma mrwBlocks_spec fuel size end_ off out :
  0 <= size <= 2 ^ 62 -> 0 <= off <= 2 ^ 62 + 2 ^ 33 -> end_ <= size -> Z.max 0 (end_ - off) < Z.of_nat fuel ->
  Forall width_ok out ->
  wp contract (mrwBlocks fuel size end_ off out) (fun r => Forall width_ok r.2).
Proof.
  intros Hsize. revert off out.
  induction fuel as [|fuel IH]; intros off out Hoff Hend Hf Ho; cbn [mrwBlocks]; [lia|].
  i64_norm. raw_steps; try done; [|apply IH; i64_norm; [lia..|done]].
  apply (wp_mono _ _ (outs_ok v)).
  { apply wp_section; [i64_norm; lia|]. apply tiffCandidates_spec; [lia|done]. }
  intros [ok inner] Hin. destruct ok; [|apply IH; i64_norm; [lia..|done]].
  apply wp_ret. apply Forall_app_2; [done|]. apply Forall_map.
  eapply Forall_impl; [exact Hin|]. intros c Hc. unfold cand_ok, width_ok in *. simpl. i64_norm. lia.
Qed.

Lemma mrwCandidates_spec size out :
  0 <= size <= 2 ^ 62 -> Forall width_ok out ->
  wp contract (mrwCandidates size out) (fun r => Forall width_ok r.2).
Proof.
  intros Hsize Ho. unfold mrwCandidates. raw_steps; try done. apply mrwBlocks_spec; [lia..|done].
Qed.
