(* ===== verification/RawPreview.v ===== *)
(** The previews of a RAW photo: src/internal/rawpreview/extract.go. *)
From Stdlib Require Import Sorting.Sorted.
From S2P Require Import Prelude GoString ReaderIO RawTiff RawJpeg RawWalk.

Definition area (c : Candidate) : Z := i64 (CWidth c * CHeight c).

Definition soiMark : gostr := bytes_of [255; 216; 255].

(** The search for JPEG start markers. *)
Fixpoint scanLoop (fuel : nat) (size limit pos found : Z) (out : list Candidate)
    : prog (Z * list Candidate) :=
  match fuel with
  | O => OutOfFuel
  | S fuel' =>
      if (pos <? limit) && (found <? 6) then
        r ← sliceMin size pos (Z.min 262144 (limit - pos)) 3;
        match r with
        | None => mret (found, out)
        | Some b =>
            match bytesIndex b soiMark with
            | None =>
                if slen b <=? 2 then mret (found, out)
                else scanLoop fuel' size limit (pos +! (slen b - 2)) found out
            | Some j =>
                let at_ := pos +! j in
                let before := length out in
                '(ok, out) ← addProbed size at_ (Z.min (size - at_) MaxParseBytes) "scan" out;
                if (ok : bool) && (before <? length out)%nat then
                  match out !! before with
                  | None => Panic
                  | Some c =>
                      scanLoop fuel' size limit (Offset c +! CLength c) (found + 1) out
                  end
                else scanLoop fuel' size limit (at_ +! 3) found out
            end
        end
      else mret (found, out)
  end.

Definition scanCandidates (size : Z) (out : list Candidate) : prog (bool * list Candidate) :=
  let limit := Z.min size MaxScanBytes in
  '(found, out) ← scanLoop (S (Z.to_nat limit)) size limit 0 0 out;
  mret (0 <? found, out).

(** The filter of normalise: usable entries, the first one of every offset. *)
Fixpoint usable (size : Z) (seen : gset Z) (l : list Candidate) : list Candidate :=
  match l with
  | [] => []
  | c :: l' =>
      if (CWidth c <=? 0) || (CHeight c <=? 0) || (CLength c <=? 0) then usable size seen l'
      else if (Offset c <? 0) || (size <? Offset c +! CLength c) then usable size seen l'
      else if bool_decide (Offset c ∈ seen) then usable size seen l'
      else c :: usable size ({[Offset c]} ∪ seen) l'
  end.

(** The order of slices.SortFunc in normalise: [a] may stand before [b]. *)
Definition candLe (a b : Candidate) : bool :=
  (area b <? area a) || ((area a =? area b) && (CLength b <=? CLength a)).

(** Insertion sort, which SortFunc uses on up to twelve elements; on more of
    them elements that compare equal may come in another order. *)
Fixpoint insertCand (c : Candidate) (l : list Candidate) : list Candidate :=
  match l with
  | [] => [c]
  | d :: l' => if candLe c d then c :: l else d :: insertCand c l'
  end.

Definition sortCands (l : list Candidate) : list Candidate := foldr insertCand [] l.

Definition normalise (inp : list Candidate) (size : Z) : list Candidate :=
  sortCands (usable size ∅ inp).

Inductive previewErr :=
| ErrTooSmall
| ErrReadHeader (e : rerr)
| ErrNoJPEG.

(** The lower-case extension of a file name, without the dot; [toLower] is
    strings.ToLower. *)
Definition extOf (toLower : gostr -> gostr) (name : gostr) : gostr :=
  match lastIndexByte name "."%char with
  | None => []
  | Some i => toLower (drop (S i) name)
  end.

(** The part of the header from [i] to [j] is [m]. *)
Definition magicIs (magic : gostr) (i j : Z) (m : gostr) : prog bool :=
  if j <=? slen magic then s ← sub magic i j; mret (seqb s m) else mret false.

(** The parser that the first bytes of the file choose. *)
Definition dispatch (size : Z) (ext magic : gostr) : prog (bool * list Candidate) :=
  raf ← magicIs magic 0 16 rafMagic;
  if (raf : bool) then rafCandidates size []
  else
    cr3 ← magicIs magic 4 8 "ftyp";
    if (cr3 : bool) then cr3Candidates size []
    else
      crw ← magicIs magic 6 14 crwMagic;
      if (crw : bool) then crwCandidates size []
      else
        mrw ← magicIs magic 0 4 mrwMagic;
        if (mrw : bool) then mrwCandidates size []
        else
          x3f ← magicIs magic 0 4 "FOVb";
          if (x3f : bool) then x3fCandidates size [] else tiffCandidates size ext [].

Definition FindPreviews (size : Z) (ext : gostr) : prog (res previewErr (list Candidate)) :=
  if size <? 1024 then mret (Err ErrTooSmall)
  else
    r ← slice size 0 16;
    match r with
    | Err e => mret (Err (ErrReadHeader e))
    | Ok magic =>
        '(ok, out) ← dispatch size ext magic;
        '(_, out) ← (if negb ok || (length out =? 0)%nat
                     then scanCandidates size out
                     else mret (true, out));
        let out := normalise out size in
        if (length out =? 0)%nat then mret (Err ErrNoJPEG) else mret (Ok out)
    end.

(** The smallest rendition whose short edge reaches [minEdge]. *)
Fixpoint bestFit (minEdge : Z) (l : list Candidate) (best : option Candidate) : option Candidate :=
  match l with
  | [] => best
  | c :: l' =>
      if Z.min (CWidth c) (CHeight c) <? minEdge then bestFit minEdge l' best
      else
        match best with
        | None => bestFit minEdge l' (Some c)
        | Some b => bestFit minEdge l' (if area c <? area b then Some c else best)
        end
  end.

Definition Pick (cands : list Candidate) (minEdge maxBytes : Z) : option Candidate :=
  match cands with
  | [] => None
  | c0 :: _ =>
      if minEdge <=? 0 then
        match List.find (fun c => (maxBytes <=? 0) || (CLength c <=? maxBytes)) cands with
        | Some c => Some c
        | None => last cands
        end
      else
        match bestFit minEdge cands None with
        | Some c => Some c
        | None => Some c0
        end
  end.

(** ** The candidates of every parser *)
Lemma outs_width size r : size <= 2 ^ 62 -> outs_ok size r -> Forall width_ok r.2.
Proof.
  intros Hs. unfold outs_ok. intros H. eapply Forall_impl; [exact H|]. intros c. by apply cand_width_ok.
Qed.

Lemma magicIs_spec ok magic i j m :
  0 <= i <= j -> wp ok (magicIs magic i j m) (fun _ => True).
Proof. intros ?. unfold magicIs. by raw_steps. Qed.

Section Extract.
Context (size : Z) (Hsize : 0 <= size <= 2 ^ 62).

Lemma dispatch_spec ext magic :
  wp contract (dispatch size ext magic) (fun r => Forall width_ok r.2).
Proof.
  assert (Hw : forall p, wp contract p (outs_ok size) -> wp contract p (fun r => Forall width_ok r.2)).
  { intros p Hp. eapply wp_mono; [exact Hp|]. intros r. apply outs_width. lia. }
  unfold dispatch.
  repeat (raw_step; wp_use magicIs_spec; [lia|]; intros ? _; raw_step).
  all: first [apply mrwCandidates_spec; [lia|constructor] | apply Hw].
  - by apply rafCandidates_spec.
  - by apply cr3Candidates_spec.
  - by apply crwCandidates_spec.
  - by apply x3fCandidates_spec.
  - by apply tiffCandidates_spec.
Qed.

(** The scan goes forward: behind a JPEG, or three bytes after a false mark, or
    by a chunk less the overlap. *)
Lemma scanLoop_spec fuel limit pos found out :
  limit <= size -> 0 <= pos <= 2 ^ 62 + 3 -> Z.max 0 (limit - pos) < Z.of_nat fuel ->
  Forall width_ok out ->
  wp contract (scanLoop fuel size limit pos found out) (fun r => Forall width_ok r.2).
Proof.
  intros Hlim. revert pos found out.
  induction fuel as [|fuel IH]; intros pos found out Hp Hf Ho; cbn [scanLoop]; [lia|].
  raw_step; [|by apply wp_ret]. raw_step. raw_step; [by apply wp_ret|].
  cbv beta zeta. destruct (bytesIndex b soiMark) as [j|] eqn:Ej.
  - apply bytesIndex_bound in Ej. change (slen soiMark) with 3 in Ej. i64_norm.
    apply wp_bind. wp_use addProbed_spec; [done|]. intros [ok out'] [[= -> ->]|(c & l & [= -> ->] & Hoff & Hcl)].
    + simpl. apply IH; [lia..|done].
    + simpl. rewrite length_app. cbn [length].
      replace (length out <? length out + S (length l))%nat with true
        by (symmetry; apply Nat.ltb_lt; lia).
      rewrite list_lookup_middle by done.
      assert (Hc : cand_ok size c) by (by inversion Hcl). unfold cand_ok in Hc. i64_norm.
      apply IH; [lia..|]. apply Forall_app_2; [done|].
      eapply Forall_impl; [exact Hcl|]. intros c'. apply cand_width_ok. lia.
  - raw_step; [by apply wp_ret|]. i64_norm. apply IH; [lia..|done].
Qed.

Lemma scanCandidates_spec out :
  Forall width_ok out -> wp contract (scanCandidates size out) (fun r => Forall width_ok r.2).
Proof.
  intros Ho. unfold scanCandidates. apply wp_bind. unfold MaxScanBytes.
  wp_use scanLoop_spec; [lia..|done|]. intros [found out'] Hr. by apply wp_ret.
Qed.

(** What normalise keeps lies in the file, at pairwise different offsets. *)
Definition inFile (c : Candidate) : Prop :=
  0 < Offset c /\ 0 < CLength c /\ Offset c + CLength c <= size /\
  0 < CWidth c < 65536 /\ 0 < CHeight c < 65536.

Lemma usable_spec seen l :
  Forall width_ok l ->
  Forall inFile (usable size seen l) /\ NoDup (map Offset (usable size seen l)) /\
  (forall c, c ∈ usable size seen l -> c ∈ l /\ Offset c ∉ seen).
Proof.
  intros Hl. revert seen. induction Hl as [|c l Hc Hl IH]; intros seen; simpl.
  - split; [constructor|]. split; [constructor|]. intros c. by rewrite elem_of_nil.
  - assert (Hskip : forall s, s = seen ->
      Forall inFile (usable size s l) /\ NoDup (map Offset (usable size s l)) /\
      (forall c', c' ∈ usable size s l -> c' ∈ c :: l /\ Offset c' ∉ seen)).
    { intros s ->. destruct (IH seen) as (? & ? & Hin). split; [done|]. split; [done|].
      intros c' Hc'. destruct (Hin c' Hc'). split; [by right|done]. }
    destruct ((CWidth c <=? 0) || (CHeight c <=? 0) || (CLength c <=? 0)) eqn:E1; [by apply Hskip|].
    destruct ((Offset c <? 0) || (size <? Offset c +! CLength c)) eqn:E2; [by apply Hskip|].
    destruct (bool_decide (Offset c ∈ seen)) eqn:E3; [by apply Hskip|].
    destruct (IH ({[Offset c]} ∪ seen)) as (Hf & Hn & Hin). unfold width_ok in Hc.
    rewrite (i64_id (Offset c + CLength c)) in E2 by (unfold i64_ok; lia). bool_hyps.
    split; [constructor; [|done]; unfold inFile; lia|]. split.
    + simpl. constructor; [|done]. rewrite list_elem_of_fmap. intros (c' & Heq & Hc').
      apply Hin in Hc' as [_ Hc']. set_solver.
    + intros c' [->|Hc']%elem_of_cons; [split; [by left|done]|].
      destruct (Hin c' Hc') as [? Hs]. split; [by right|set_solver].
Qed.

Lemma candLe_total a b : candLe a b = false -> candLe b a = true.
Proof.
  unfold candLe. intros H. bool_hyps. apply orb_true_iff.
  destruct (Z.eqb_spec (area a) (area b)) as [E|E]; simpl in *; bool_hyps.
  - right. rewrite E, Z.eqb_refl. simpl. apply Z.leb_le. lia.
  - left. apply Z.ltb_lt. lia.
Qed.

Lemma insertCand_perm c l : insertCand c l ≡ₚ c :: l.
Proof.
  induction l as [|d l IH]; simpl; [done|]. destruct (candLe c d); [done|].
  rewrite IH. apply Permutation_swap.
Qed.

Lemma sortCands_perm l : sortCands l ≡ₚ l.
Proof. induction l as [|c l IH]; simpl; [done|]. by rewrite insertCand_perm, IH. Qed.

Lemma insertCand_sorted c l : Sorted candLe l -> Sorted candLe (insertCand c l).
Proof.
  induction 1 as [|d l Hl IH Hd]; simpl; [by repeat constructor|].
  destruct (candLe c d) eqn:E; [by repeat constructor; rewrite ?E|].
  constructor; [done|]. apply candLe_total in E. destruct l as [|e l]; simpl.
  - constructor. by rewrite E.
  - destruct (candLe c e); constructor; [by rewrite E|by inversion Hd].
Qed.

Lemma sortCands_sorted l : Sorted candLe (sortCands l).
Proof. induction l as [|c l IH]; simpl; [constructor|by apply insertCand_sorted]. Qed.

(** A good answer of FindPreviews. *)
Definition previews_ok (l : list Candidate) : Prop :=
  l <> [] /\ Forall inFile l /\ NoDup (map Offset l) /\ Sorted candLe l.

Lemma normalise_spec l :
  Forall width_ok l -> normalise l size <> [] -> previews_ok (normalise l size).
Proof.
  intros Hl Hne. destruct (usable_spec ∅ l Hl) as (Hf & Hn & _).
  split; [done|]. unfold normalise. split; [|split].
  - by rewrite sortCands_perm.
  - by rewrite sortCands_perm.
  - apply sortCands_sorted.
Qed.

Lemma FindPreviews_wp ext :
  wp contract (FindPreviews size ext)
    (fun r => match r with Ok l => previews_ok l | Err _ => True end).
Proof.
  unfold FindPreviews. raw_step; [by apply wp_ret|]. raw_step. raw_step; [by apply wp_ret|].
  apply wp_bind. wp_use dispatch_spec. intros [ok out] Ho. apply wp_bind.
  apply (wp_mono _ _ (fun r => Forall width_ok r.2)).
  - raw_step; [by apply scanCandidates_spec|by apply wp_ret].
  - intros [ok2 out2] Ho2. cbv zeta. destruct (normalise out2 size) as [|c l] eqn:En; [by apply wp_ret|].
    apply wp_ret. rewrite <- En. apply normalise_spec; [done|]. by rewrite En.
Qed.
End Extract.

(** ** The choice of a rendition *)
Definition shortEdge (c : Candidate) : Z := Z.min (CWidth c) (CHeight c).

Lemma bestFit_spec e l best :
  (forall b, best = Some b -> e <= shortEdge b) ->
  match bestFit e l best with
  | Some c =>
      (c ∈ l \/ best = Some c) /\ e <= shortEdge c /\
      (forall d, d ∈ l \/ best = Some d -> e <= shortEdge d -> area c <= area d)
  | None => best = None /\ forall d, d ∈ l -> shortEdge d < e
  end.
Proof.
  revert best. induction l as [|c l IH]; intros best Hb; cbn [bestFit].
  - destruct best as [b|]; [|split; [done|by intros d ?%elem_of_nil]].
    split; [by right|]. split; [by apply Hb|]. intros d [?%elem_of_nil|[= ->]]; [done|lia].
  - fold (shortEdge c). destruct (Z.ltb_spec (shortEdge c) e) as [Hlt|Hge].
    + specialize (IH best Hb). destruct (bestFit e l best) as [r|].
      * destruct IH as (Hin & He & Hmin). split; [destruct Hin; [left; by right|by right]|]. split; [done|].
        intros d [[->|Hd]%elem_of_cons|Hd] Hed; [lia|by apply Hmin; [left|]|by apply Hmin; [right|]].
      * destruct IH as [? Hno]. split; [done|]. intros d [->|Hd]%elem_of_cons; [done|by apply Hno].
    + set (b' := match best with Some b => if area c <? area b then Some c else best | None => Some c end).
      assert (Hgo : bestFit e l b' = match best with
        | Some b => bestFit e l (if area c <? area b then Some c else best)
        | None => bestFit e l (Some c) end) by (by destruct best).
      rewrite <- Hgo. clear Hgo.
      assert (Hb' : exists b, b' = Some b /\ e <= shortEdge b /\ area b <= area c /\
                (b = c \/ best = Some b) /\ forall d, best = Some d -> area b <= area d).
      { subst b'. destruct best as [b|]; [|exists c; naive_solver lia].
        destruct (Z.ltb_spec (area c) (area b)); [exists c|exists b]; naive_solver lia. }
      clearbody b'. destruct Hb' as (b & -> & Heb & Hab & Horig & Hbest).
      specialize (IH (Some b) ltac:(by intros ? [= <-])).
      destruct (bestFit e l (Some b)) as [r|]; [|by destruct IH].
      destruct IH as (Hin & He & Hmin). split; [|split; [done|]].
      * destruct Hin as [?|[= ->]]; [left; by right|]. destruct Horig as [->|?]; [left; by left|by right].
      * intros d [[->|Hd]%elem_of_cons|Hd] Hed.
        -- transitivity (area b); [|done]. apply Hmin; [by right|done].
        -- apply Hmin; [by left|done].
        -- transitivity (area b); [apply Hmin; [by right|done]|by apply Hbest].
Qed.

Lemma find_first {A} (p : A -> bool) l c :
  List.find p l = Some c -> exists a b, l = a ++ c :: b /\ p c = true /\ Forall (fun d => p d = false) a.
Proof.
  induction l as [|d l IH]; simpl; [done|]. destruct (p d) eqn:E.
  - intros [= ->]. exists [], l. done.
  - intros H. destruct (IH H) as (a & b & -> & Hc & Ha). exists (d :: a), b. split; [done|]. split; [done|].
    by constructor.
Qed.

(** ** The theorems *)
Section Readers.
Context {R : Type} {RR : ReaderAt R} (RInv : R -> Prop).

(** On every reader that keeps the contract of io.ReaderAt, whatever it answers,
    FindPreviews returns; it never indexes out of range. The previews it
    returns lie inside the file, at different offsets, the largest first. *)
Theorem findPreviews_safe size ext r :
  0 <= size <= 2 ^ 62 ->
  (forall r len off, RInv r -> ok_request len off ->
     RInv (ReadAt r len off).1 /\ contract len off (ReadAt r len off).2) ->
  RInv r ->
  exists r' ans, run (FindPreviews size ext) r = Done (r', ans) /\
    match ans with
    | Ok l => l <> [] /\ Forall (inFile size) l /\ NoDup (map Offset l) /\ Sorted candLe l
    | Err _ => True
    end.
Proof.
  intros Hs Hr HI.
  destruct (run_wp contract RInv _ r _ Hr HI (FindPreviews_wp size Hs ext)) as (r' & ans & Hrun & _ & Ha).
  eauto.
Qed.
End Readers.

Lemma findPreviews_safe_witness :
  exists r' ans, run (FindPreviews 1024 "nef") (repeat "I"%char 1024) = Done (r', ans) /\
    match ans with
    | Ok l => l <> [] /\ Forall (inFile 1024) l /\ NoDup (map Offset l) /\ Sorted candLe l
    | Err _ => True
    end.
Proof.
  apply (findPreviews_safe (fun _ => True) 1024 "nef"); [lia| |done].
  intros r len off _ [[Hl _] Ho]. split; [done|]. by apply bytesReadAt_contract.
Defined.

(** Pick on the previews of a file: a rendition for a short edge of [minEdge] is
    the smallest one that reaches it, or the largest one if none does; without
    [minEdge] it is the first one, thus the largest, that fits in [maxBytes], or
    the last one if none fits. *)
Theorem pick_spec cands minEdge maxBytes :
  match Pick cands minEdge maxBytes with
  | None => cands = []
  | Some c =>
      c ∈ cands /\
      if minEdge <=? 0 then
        (exists a b, cands = a ++ c :: b /\ (maxBytes <= 0 \/ CLength c <= maxBytes) /\
           Forall (fun d => 0 < maxBytes < CLength d) a) \/
        (last cands = Some c /\ Forall (fun d => 0 < maxBytes < CLength d) cands)
      else
        (minEdge <= shortEdge c /\
           forall d, d ∈ cands -> minEdge <= shortEdge d -> area c <= area d) \/
        (head cands = Some c /\ forall d, d ∈ cands -> shortEdge d < minEdge)
  end.
Proof.
  unfold Pick. destruct cands as [|c0 l]; [done|]. destruct (minEdge <=? 0).
  - destruct (List.find _ (c0 :: l)) as [c|] eqn:Hf.
    + apply find_first in Hf as (a & b & -> & Hc & Ha). split; [apply elem_of_app; right; by left|].
      left. exists a, b. split; [done|]. split; [bool_hyps; apply orb_true_iff in Hc; bool_hyps; lia || (destruct Hc; bool_hyps; lia)|].
      eapply Forall_impl; [exact Ha|]. intros d Hd. simpl in Hd. bool_hyps. lia.
    + destruct (last (c0 :: l)) as [c|] eqn:Hl; [|by apply last_None in Hl].
      split; [by eapply list_elem_of_lookup_2; rewrite <- last_lookup|]. right. split; [done|].
      apply Forall_forall. intros d Hd%list_elem_of_In.
      pose proof (List.find_none _ _ Hf d Hd) as Hn. simpl in Hn. bool_hyps. lia.
  - pose proof (bestFit_spec minEdge (c0 :: l) None ltac:(done)) as Hb.
    destruct (bestFit minEdge (c0 :: l) None) as [c|].
    + destruct Hb as ([Hin|?] & He & Hmin); [|done]. split; [done|]. left. split; [done|].
      intros d Hd. apply Hmin. by left.
    + destruct Hb as [_ Hno]. split; [by left|]. right. split; [done|exact Hno].
Qed.
