(* ===== verification/RawFound.v ===== *)
(** What the parsers of [RawJpeg] and [RawWalk] find in a file that is read
    exactly: the EOI search against a search in the whole window, the walk over a
    well-formed JPEG, and previews that FindPreviews finds: the whole path from
    the first bytes of a Fujifilm RAF file to the candidate. *)
From S2P Require Import Prelude GoString ReaderIO RawTiff RawJpeg RawWalk RawPreview.

(** ** The marker structure of a JPEG *)
Definition byte (v : Z) : ascii := ascii_of_N (Z.to_N v).

Definition be16 (v : Z) : gostr := [byte (v / 256); byte (v mod 256)].

(** A marker segment: FF, the marker, the length with its own two bytes. *)
Definition segBytes (s : Z * gostr) : gostr :=
  [byte 255; byte s.1] ++ be16 (slen s.2 + 2) ++ s.2.

(** A segment that the walk skips: not SOF, SOS, APP1, EOI, a marker without
    payload or a fill byte. *)
Definition plain_segment (s : Z * gostr) : Prop :=
  0 <= s.1 < 255 /\ isSOF s.1 = false /\ s.1 <> 217 /\ s.1 <> 218 /\ s.1 <> 225 /\ s.1 <> 1 /\
  ~ (208 <= s.1 <= 215) /\ slen s.2 < 65534.

Record jpeg := mkJpeg {
  before : list (Z * gostr);      (** segments before the frame header *)
  sof : Z; precision : ascii; height : Z; width : Z; components : gostr;
  after : list (Z * gostr);       (** segments up to the scan *)
  scan : gostr;                   (** the payload of SOS *)
  entropy : gostr }.              (** the entropy coded data *)

Definition sofBytes (j : jpeg) : gostr :=
  segBytes (sof j, precision j :: be16 (height j) ++ be16 (width j) ++ components j).

Definition jpegHead (j : jpeg) : gostr :=
  [byte 255; byte 216] ++ flat_map segBytes (before j) ++ sofBytes j ++
  flat_map segBytes (after j) ++ segBytes (218, scan j).

Definition jpegBytes (j : jpeg) : gostr := jpegHead j ++ entropy j ++ eoiMark.

(** Inside entropy coded data FF is never followed by D9. *)
Definition jpeg_ok (j : jpeg) : Prop :=
  Forall plain_segment (before j) /\ Forall plain_segment (after j) /\
  0 <= sof j < 255 /\ isSOF (sof j) = true /\
  0 < width j < 65536 /\ 0 <= height j < 65536 /\
  slen (components j) < 65529 /\ slen (scan j) < 65534 /\
  index (entropy j) eoiMark = None.

(** ** Exact reads *)
Lemma slen_pos_take n (d : gostr) : 0 < n -> d <> [] -> 0 < slen (take (Z.to_nat n) d).
Proof.
  intros Hn Hd. rewrite slen_take. destruct d; [done|]. unfold slen. simpl. lia.
Qed.

Lemma wp_slice_exact f off len (Q : res rerr gostr -> Prop) :
  0 <= off < slen f -> 0 < len <= maxRead ->
  Q (Ok (take (Z.to_nat len) (drop (Z.to_nat off) f))) -> wp (exact f) (slice (slen f) off len) Q.
Proof.
  intros Hoff Hlen HQ. unfold slice.
  replace ((off <? 0) || (slen f <=? off)) with false
    by (symmetry; apply orb_false_iff; split; [apply Z.ltb_ge|apply Z.leb_gt]; lia).
  cbv zeta. destruct (Z.leb_spec (Z.min len (slen f - off)) 0); [lia|].
  apply wp_bind. simpl. split; [unfold ok_request; lia|]. intros x ->. unfold bytesReadAt.
  destruct (Z.ltb_spec off 0); [lia|]. cbv zeta.
  assert (Ht : take (Z.to_nat (Z.min len (slen f - off))) (drop (Z.to_nat off) f) =
               take (Z.to_nat len) (drop (Z.to_nat off) f)).
  { destruct (Z.le_ge_cases len (slen f - off)); [by rewrite Z.min_l by lia|].
    rewrite Z.min_r by lia. rewrite !take_ge; [done| |]; rewrite length_drop; unfold slen in *; lia. }
  rewrite Ht. cbv beta iota.
  assert (Hpos : 0 < slen (take (Z.to_nat len) (drop (Z.to_nat off) f))).
  { apply slen_pos_take; [lia|]. intros Hn. apply (f_equal slen) in Hn. rewrite slen_drop in Hn.
    unfold slen in *. simpl in Hn. lia. }
  destruct (Z.ltb_spec 0 (slen (take (Z.to_nat len) (drop (Z.to_nat off) f)))); [done|lia].
Qed.

Lemma wp_slice_end f off len (Q : res rerr gostr -> Prop) :
  (forall e, Q (Err e)) -> off < 0 \/ slen f <= off -> wp (exact f) (slice (slen f) off len) Q.
Proof.
  intros HQ Hoff. unfold slice.
  replace ((off <? 0) || (slen f <=? off)) with true; [by apply wp_ret|].
  symmetry. apply orb_true_iff. destruct Hoff; [left; apply Z.ltb_lt|right; apply Z.leb_le]; lia.
Qed.

(** The bytes of [f] from [off] on are [d]. *)
Definition at_pos (f : gostr) (off : Z) (d : gostr) : Prop :=
  0 <= off /\ drop (Z.to_nat off) f = d.

Lemma at_pos_slen f off d : at_pos f off d -> d <> [] -> off < slen f /\ slen d = slen f - off.
Proof.
  intros [Ho Hd] Hne. apply (f_equal slen) in Hd. rewrite slen_drop in Hd.
  assert (0 < slen d) by (destruct d; [done|unfold slen; simpl; lia]). lia.
Qed.

Lemma at_pos_app f off a b : at_pos f off (a ++ b) -> at_pos f (off + slen a) b.
Proof.
  intros [Ho Hd]. split; [pose proof (slen_nonneg a); lia|].
  unfold slen. rewrite Z2Nat.inj_add, Nat2Z.id by lia. rewrite <- drop_drop, Hd.
  by rewrite drop_app_length.
Qed.

Lemma wp_sliceMin_exact f off len n d (Q : option gostr -> Prop) :
  at_pos f off d -> d <> [] -> 0 < len <= maxRead -> n <= len -> n <= slen d ->
  Q (Some (take (Z.to_nat len) d)) -> wp (exact f) (sliceMin (slen f) off len n) Q.
Proof.
  intros Hd Hne Hlen Hn Hnd HQ. destruct (at_pos_slen _ _ _ Hd Hne) as [Hlt Hs].
  destruct Hd as [Ho Hd].
  unfold sliceMin. apply wp_bind, wp_slice_exact; [lia|done|]. rewrite Hd. apply wp_ret.
  destruct (Z.ltb_spec (slen (take (Z.to_nat len) d)) n) as [E|]; [|done].
  rewrite slen_take in E. lia.
Qed.

(** ** The EOI search *)
Definition occ (w : gostr) (i : nat) : Prop :=
  (exists c d, w !! i = Some c /\ w !! S i = Some d /\ byte_val c = 255 /\ byte_val d = 217).

Lemma occ_cons c w i : occ (c :: w) (S i) <-> occ w i.
Proof. done. Qed.

Lemma occ_bound w i : occ w i -> (S i < length w)%nat.
Proof. intros (c & d & _ & Hd & _). by eapply lookup_lt_Some. Qed.

Lemma eoiMark_eq : eoiMark = [byte 255; byte 217].
Proof. vm_compute. reflexivity. Qed.

Lemma byte_val_eq c v : 0 <= v < 256 -> byte v = c <-> byte_val c = v.
Proof.
  intros Hv. assert (Hb : byte_val (byte v) = v).
  { unfold byte_val, byte. rewrite N_ascii_embedding by lia. lia. }
  split; [by intros <-|]. intros Hc. apply byte_val_inj. by rewrite Hb.
Qed.

Lemma hasPrefix_eoi w : hasPrefix w eoiMark = true <-> occ w 0.
Proof.
  rewrite eoiMark_eq. unfold occ. destruct w as [|c w]; simpl; [split; [done|naive_solver]|].
  destruct w as [|d w]; simpl.
  - rewrite andb_false_r. split; [done|naive_solver].
  - rewrite andb_true_r, andb_true_iff, !bool_decide_eq_true.
    rewrite (byte_val_eq c 255), (byte_val_eq d 217) by lia. naive_solver.
Qed.

Lemma index_eoi_None w : index w eoiMark = None <-> forall i, ~ occ w i.
Proof.
  induction w as [|c w IH].
  - split; [|done]. intros _ i (? & ? & ? & _). by rewrite lookup_nil in *.
  - cbn [index]. pose proof (hasPrefix_eoi (c :: w)) as Hp.
    destruct (hasPrefix (c :: w) eoiMark).
    + split; [done|]. intros Hn. by destruct (Hn 0%nat); apply Hp.
    + rewrite fmap_None, IH. split; intros Hn i; [|apply (Hn (S i))].
      destruct i as [|i]; [intros ?%Hp; done|apply Hn].
Qed.

Lemma index_eoi_Some w i :
  index w eoiMark = Some i <-> occ w i /\ forall j, (j < i)%nat -> ~ occ w j.
Proof.
  revert i. induction w as [|c w IH]; intros i.
  - split; [done|]. intros [(? & ? & ? & _) _]. by rewrite lookup_nil in *.
  - cbn [index]. pose proof (hasPrefix_eoi (c :: w)) as Hp.
    destruct (hasPrefix (c :: w) eoiMark).
    + assert (H0 : occ (c :: w) 0) by by apply Hp. split.
      * intros [= <-]. split; [done|]. lia.
      * intros [_ Hn]. destruct i as [|i]; [done|]. by destruct (Hn 0%nat); [lia|].
    + rewrite fmap_Some. setoid_rewrite IH. split.
      * intros (k & [Hk Hn] & ->). split; [done|]. intros [|j] Hj; [by intros ?%Hp|]. apply Hn. lia.
      * intros [Hi Hn]. destruct i as [|i]; [by apply Hp in Hi|]. exists i. split; [|done].
        split; [done|]. intros j Hj. apply (Hn (S j)). lia.
Qed.

(** [w] is the window; [n] of its bytes are scanned. *)
Definition eoi_carry (w : gostr) (n : nat) (carry : bool) : Prop :=
  carry = true <-> exists c m, n = S m /\ w !! m = Some c /\ byte_val c = 255.

Lemma occ_chunk w n c i :
  occ (take c (drop n w)) i -> occ w (n + i).
Proof.
  intros (x & y & Hx & Hy & ?).
  apply lookup_take_Some in Hx as [Hx _], Hy as [Hy _]. rewrite lookup_drop in Hx, Hy.
  exists x, y. split; [done|]. by replace (S (n + i)) with (n + S i)%nat by lia.
Qed.

Lemma occ_in_chunk w n c i :
  occ w (n + i) -> (S i < c)%nat -> occ (take c (drop n w)) i.
Proof.
  intros (x & y & Hx & Hy & ?) Hi. exists x, y.
  rewrite !lookup_take_lt, !lookup_drop by lia.
  split; [done|]. by replace (n + S i)%nat with (S (n + i)) by lia.
Qed.

Lemma lookup_head_last (b : gostr) :
  b <> [] -> exists c d, b !! 0%nat = Some c /\ b !! (length b - 1)%nat = Some d.
Proof.
  intros Hb. destruct b as [|c b]; [done|]. exists c. simpl. rewrite Nat.sub_0_r.
  destruct (lookup_lt_is_Some_2 (c :: b) (length b)) as [d Hd]; [simpl; lia|]. eauto.
Qed.

Lemma wp_idx_exact ok b i c (Q : Z -> Prop) :
  0 <= i -> b !! Z.to_nat i = Some c -> Q (byte_val c) -> wp ok (idx b i) Q.
Proof.
  intros Hi Hc HQ. unfold idx. apply lookup_lt_Some in Hc as Hl.
  replace ((0 <=? i) && (i <? slen b)) with true
    by (symmetry; apply andb_true_iff; split; [apply Z.leb_le|apply Z.ltb_lt]; unfold slen; lia).
  by rewrite Hc.
Qed.

Definition eoiEnd (w : gostr) : option Z := (fun i : nat => Z.of_nat i + 2) <$> index w eoiMark.

Lemma eoiEnd_first w i : occ w i -> (forall j, (j < i)%nat -> ~ occ w j) -> eoiEnd w = Some (Z.of_nat i + 2).
Proof.
  intros Hi Hj. unfold eoiEnd.
  by replace (index w eoiMark) with (Some i) by (symmetry; by apply index_eoi_Some).
Qed.

Lemma eoiEnd_none w : (forall j, ~ occ w j) -> eoiEnd w = None.
Proof. intros Hj. unfold eoiEnd. by apply index_eoi_None in Hj as ->. Qed.

(** What the next chunk [take c (drop n w)] decides. *)
Lemma chunk_found w n c i carry :
  (forall j, (S j < n)%nat -> ~ occ w j) -> eoi_carry w n carry ->
  (carry = true -> forall d, take c (drop n w) !! 0%nat = Some d -> byte_val d <> 217) ->
  index (take c (drop n w)) eoiMark = Some i -> eoiEnd w = Some (Z.of_nat n + Z.of_nat i + 2).
Proof.
  intros Hno Hc Hb [Hi Hfirst]%index_eoi_Some.
  replace (Z.of_nat n + Z.of_nat i) with (Z.of_nat (n + i)) by lia.
  apply eoiEnd_first; [by eapply occ_chunk|]. intros j Hj Ho.
  destruct (decide (S j < n)%nat); [by eapply Hno|].
  destruct (decide (S j = n)) as [E|E].
  - destruct Ho as (x & y & Hx & Hy & Hx' & Hy'). rewrite E in Hy.
    assert (carry = true) by (apply Hc; eauto).
    destruct (decide (c = 0%nat)) as [->|]; [apply occ_bound in Hi; simpl in Hi; lia|].
    apply (Hb H y); [|done]. rewrite lookup_take_lt, lookup_drop by lia. by rewrite Nat.add_0_r.
  - apply occ_bound in Hi. rewrite length_take in Hi. apply (Hfirst (j - n)%nat); [lia|].
    apply occ_in_chunk; [by replace (n + (j - n))%nat with j by lia|lia].
Qed.

Lemma chunk_next w n c carry b d :
  b = take c (drop n w) -> b <> [] ->
  (forall j, (S j < n)%nat -> ~ occ w j) -> eoi_carry w n carry ->
  (carry = true -> forall d, b !! 0%nat = Some d -> byte_val d <> 217) ->
  index b eoiMark = None -> b !! (length b - 1)%nat = Some d ->
  (forall j, (S j < n + length b)%nat -> ~ occ w j) /\
  eoi_carry w (n + length b) (byte_val d =? 255).
Proof.
  intros -> Hne Hno Hc Hb Hnone Hd. rewrite index_eoi_None in Hnone.
  assert (Hlen : (0 < length (take c (drop n w)))%nat) by (destruct (take c (drop n w)); [done|simpl; lia]).
  split.
  - intros j Hj Ho. destruct (decide (S j < n)%nat); [by eapply Hno|].
    destruct (decide (S j = n)) as [E|E].
    + destruct Ho as (x & y & Hx & Hy & Hx' & Hy'). rewrite E in Hy.
      assert (carry = true) by (apply Hc; eauto).
      apply (Hb H y); [|done]. rewrite length_take in Hlen.
      rewrite lookup_take_lt, lookup_drop by lia. by rewrite Nat.add_0_r.
    + apply (Hnone (j - n)%nat). rewrite length_take in Hj.
      apply occ_in_chunk; [by replace (n + (j - n))%nat with j by lia|lia].
  - apply lookup_take_Some in Hd as [Hd Hlt]. rewrite lookup_drop in Hd.
    set (L := length (take c (drop n w))) in *.
    unfold eoi_carry. split.
    + intros E%Z.eqb_eq. exists d, (n + (L - 1))%nat. split; [lia|done].
    + intros (x & m & Hm & Hx & E). replace (n + (L - 1))%nat with m in Hd by lia.
      rewrite Hd in Hx. injection Hx as ->. by apply Z.eqb_eq.
Qed.

Section FindEOI.
Context (f : gostr) (start max : Z).
Context (Hf : slen f <= 2 ^ 62) (Hstart : 0 <= start <= 2 ^ 62) (Hmax : 0 <= max <= 2 ^ 62).

Definition window : gostr := take (Z.to_nat max) (drop (Z.to_nat start) f).

Lemma window_chunk n c :
  0 <= c -> Z.of_nat n + c <= max ->
  take (Z.to_nat c) (drop (Z.to_nat (start + Z.of_nat n)) f) = take (Z.to_nat c) (drop n window).
Proof.
  intros Hc Hn. unfold window. rewrite skipn_firstn_comm, take_take, drop_drop.
  f_equal; [lia|]. f_equal. lia.
Qed.

Lemma window_end n : slen window <= Z.of_nat n -> (forall j, (S j < n)%nat -> ~ occ window j) ->
  eoiEnd window = None.
Proof.
  intros Hw Hno. apply eoiEnd_none. intros j Hj. pose proof (occ_bound _ _ Hj) as Hb.
  unfold slen in Hw. apply (Hno j); [lia|done].
Qed.

Lemma slen_window : slen window = Z.min max (Z.max 0 (slen f - start)).
Proof. unfold window. rewrite slen_take, slen_drop. lia. Qed.

Lemma findEOILoop_exact fuel n carry :
  Z.of_nat n <= max -> max - Z.of_nat n < Z.of_nat fuel ->
  (forall j, (S j < n)%nat -> ~ occ window j) -> eoi_carry window n carry ->
  wp (exact f) (findEOILoop fuel (slen f) start max (Z.of_nat n) carry)
    (fun r => r = eoiEnd window).
Proof.
  revert n carry. induction fuel as [|fuel IH]; intros n carry Hn Hfuel Hno Hc; cbn [findEOILoop]; [lia|].
  pose proof slen_window as Hw.
  destruct (Z.ltb_spec (Z.of_nat n) max) as [Hlt|Hge];
    [|apply wp_ret; symmetry; apply (window_end n); [lia|done]].
  i64_norm. apply wp_bind. unfold sliceMin. apply wp_bind.
  destruct (Z.le_gt_cases (slen f) (start + Z.of_nat n)).
  { apply wp_slice_end; [|by right]. intros e. do 2 apply wp_ret. symmetry.
    apply (window_end n); [lia|done]. }
  apply wp_slice_exact; [lia|unfold maxRead; lia|]. rewrite window_chunk by lia.
  set (c := Z.to_nat (Z.min 65536 (max - Z.of_nat n))). apply wp_ret.
  assert (Hb : 0 < slen (take c (drop n window))) by (rewrite slen_take, slen_drop; lia).
  destruct (Z.ltb_spec (slen (take c (drop n window))) 1); [lia|].
  destruct (lookup_head_last (take c (drop n window))) as (h & l & Hh & Hl);
    [intros E; rewrite E in Hb; done|].
  apply wp_bind, (wp_mono _ _ (fun b0 => carry = true -> b0 = byte_val h)).
  { destruct carry; [|by apply wp_ret]. by eapply wp_idx_exact; [lia|exact Hh|]. }
  intros b0 Hb0. destruct (carry && (b0 =? 217)) eqn:E.
  { bool_hyps. subst carry. destruct (proj1 Hc eq_refl) as (x & m & -> & Hx & Hx').
    apply wp_ret. symmetry. rewrite (eoiEnd_first _ m); [f_equal; lia| |intros j Hj; apply Hno; lia].
    apply lookup_take_Some in Hh as [Hh _]. rewrite lookup_drop, Nat.add_0_r in Hh.
    exists x, h. rewrite <- (Hb0 eq_refl). done. }
  assert (Hcarry : carry = true -> forall d, take c (drop n window) !! 0%nat = Some d -> byte_val d <> 217).
  { intros -> d Hd. rewrite Hh in Hd. injection Hd as <-. simpl in E. rewrite (Hb0 eq_refl) in E. by bool_hyps. }
  unfold bytesIndex. destruct (index (take c (drop n window)) eoiMark) as [i|] eqn:Ei;
    cbn [fmap option_fmap option_map].
  - apply wp_ret. symmetry. by eapply chunk_found.
  - apply wp_bind. eapply wp_idx_exact; [lia| |].
    { replace (Z.to_nat (slen (take c (drop n window)) - 1)) with (length (take c (drop n window)) - 1)%nat
        by (unfold slen; lia). exact Hl. }
    destruct (chunk_next window n c carry _ l eq_refl ltac:(intros E'; rewrite E' in Hb; done) Hno Hc Hcarry Ei Hl)
      as [Hno' Hc'].
    replace (Z.of_nat n + slen (take c (drop n window)))
      with (Z.of_nat (n + length (take c (drop n window)))) by (unfold slen; lia).
    apply IH; [|unfold slen in *; lia|done|done].
    rewrite Nat2Z.inj_add. fold (slen (take c (drop n window))). rewrite slen_take. lia.
Qed.

(** The chunked search is the search in the whole window. *)
Lemma findEOI_exact :
  wp (exact f) (findEOI (slen f) start max) (fun r => r = eoiEnd window).
Proof.
  apply (findEOILoop_exact _ 0); [lia|lia|lia|].
  split; [done|]. by intros (c & m & ? & _).
Qed.
End FindEOI.

(** ** The walk over a well-formed JPEG *)
Lemma byte_val_byte v : 0 <= v < 256 -> byte_val (byte v) = v.
Proof. intros Hv. by apply byte_val_eq. Qed.

Lemma be16_val v : 0 <= v < 65536 -> uint_val BigEndian (be16 v) = v.
Proof.
  intros Hv. pose proof (Z.div_mod v 256 ltac:(lia)). pose proof (Z.mod_pos_bound v 256 ltac:(lia)).
  assert (0 <= v / 256 < 256) by lia. simpl. rewrite !byte_val_byte by lia. lia.
Qed.

Lemma slen_segBytes s : slen (segBytes s) = slen s.2 + 4.
Proof. unfold segBytes. rewrite !slen_app. unfold be16, slen. simpl. lia. Qed.

Lemma wp_uint16_be ok v (Q : Z -> Prop) : 0 <= v < 65536 -> Q v -> wp ok (Uint16 BigEndian (be16 v)) Q.
Proof.
  intros Hv HQ. unfold Uint16, uintN. change (2 <=? slen (be16 v)) with true. cbv iota.
  change (take (Z.to_nat 2) (be16 v)) with (be16 v). by rewrite be16_val.
Qed.

Section Probe.
Context (f : gostr) (off limit : Z) (needLength : bool).
Context (Hf : slen f <= 2 ^ 62) (Hoff : 0 <= off) (Hlim : limit <= slen f - off).

Lemma probe_segment fuel pos m p d info Q :
  at_pos f (off + pos) (segBytes (m, p) ++ d) -> 2 <= pos -> pos + 4 <= limit ->
  0 <= m < 255 -> m <> 217 -> m <> 1 -> ~ (208 <= m <= 215) -> slen p < 65534 ->
  wp (exact f)
    (segment (slen f) off limit needLength pos (slen p + 2) m info)
    (fun r => wp (exact f)
       match r with
       | inl ans => mret ans
       | inr info => probeLoop fuel (slen f) off limit needLength (pos + (slen p + 4)) info
       end Q) ->
  wp (exact f) (probeLoop (S fuel) (slen f) off limit needLength pos info) Q.
Proof.
  intros Hat Hpos Hl Hm H1 H2 H3 Hp Hseg. cbn [probeLoop].
  pose proof (slen_nonneg p) as Hp0.
  destruct (Z.leb_spec (pos + 4) limit); [|lia]. i64_norm. apply wp_bind.
  eapply wp_sliceMin_exact; [exact Hat|done|unfold maxRead; lia|lia| |].
  { rewrite slen_app, slen_segBytes. simpl. pose proof (slen_nonneg d). lia. }
  change (take (Z.to_nat 4) (segBytes (m, p) ++ d)) with (byte 255 :: byte m :: be16 (slen p + 2)).
  apply wp_bind. eapply wp_idx_exact; [lia|reflexivity|]. rewrite byte_val_byte by lia.
  apply wp_bind. eapply wp_idx_exact; [lia|reflexivity|]. rewrite byte_val_byte by lia.
  apply wp_bind. cbn [fillBytes]. destruct (Z.eqb_spec m 255); [lia|]. apply wp_ret.
  destruct (Z.eqb_spec m 217); [done|].
  replace ((m =? 1) || ((208 <=? m) && (m <=? 215))) with false
    by (symmetry; rewrite orb_false_iff, andb_false_iff, Z.eqb_neq, !Z.leb_gt; lia).
  apply wp_bind. change (sub _ 2 4) with (Ret (be16 (slen p + 2))). apply wp_bind, wp_uint16_be; [lia|].
  destruct (Z.ltb_spec (slen p + 2) 2); [lia|]. apply wp_bind.
  by replace (pos + (2 + (slen p + 2))) with (pos + (slen p + 4)) by lia.
Qed.

Lemma skip_segments segs : forall fuel pos d info Q,
  Forall plain_segment segs ->
  at_pos f (off + pos) (flat_map segBytes segs ++ d) -> 2 <= pos ->
  pos + slen (flat_map segBytes segs) <= limit -> Z.max 0 (limit - pos) < Z.of_nat fuel ->
  (forall fuel', Z.max 0 (limit - (pos + slen (flat_map segBytes segs))) < Z.of_nat fuel' ->
     at_pos f (off + (pos + slen (flat_map segBytes segs))) d ->
     wp (exact f) (probeLoop fuel' (slen f) off limit needLength
                     (pos + slen (flat_map segBytes segs)) info) Q) ->
  wp (exact f) (probeLoop fuel (slen f) off limit needLength pos info) Q.
Proof.
  induction segs as [|[m p] segs IH]; intros fuel pos d info Q Hs Hat Hpos Hend Hfuel HQ;
    cbn [flat_map] in Hat, Hend, HQ.
  - change (slen (@nil ascii)) with 0 in *. rewrite !Z.add_0_r in *. by apply HQ.
  - inversion Hs as [|? ? (? & ? & ? & ? & ? & ? & ? & ?) Hs']; subst. cbn [fst snd] in *.
    rewrite <- app_assoc in Hat.
    assert (E : slen (segBytes (m, p) ++ flat_map segBytes segs) = slen p + 4 + slen (flat_map segBytes segs))
      by (by rewrite slen_app, slen_segBytes). rewrite E in Hend, HQ.
    pose proof (slen_nonneg (flat_map segBytes segs)). pose proof (slen_nonneg p).
    destruct fuel as [|fuel]; [lia|]. eapply probe_segment; [exact Hat|lia..|].
    unfold segment. destruct (isSOF m); [done|]. destruct (Z.eqb_spec m 225); [done|].
    destruct (Z.eqb_spec m 218); [done|]. apply wp_ret.
    apply at_pos_app in Hat. rewrite slen_segBytes, <- Z.add_assoc in Hat. simpl in Hat.
    eapply IH; [done|exact Hat|lia|lia|lia|].
    replace (pos + (slen p + 4) + slen (flat_map segBytes segs))
      with (pos + (slen p + 4 + slen (flat_map segBytes segs))) by lia. exact HQ.
Qed.

Lemma probe_sof fuel pos m c h w rest d info Q :
  let p := c :: be16 h ++ be16 w ++ rest in
  at_pos f (off + pos) (segBytes (m, p) ++ d) -> 2 <= pos -> pos + slen (segBytes (m, p)) <= limit ->
  0 <= m < 255 -> isSOF m = true -> slen rest < 65529 -> 0 <= h < 65536 -> 0 <= w < 65536 ->
  wp (exact f) (probeLoop fuel (slen f) off limit needLength (pos + slen (segBytes (m, p))) (setFrame info w h)) Q ->
  wp (exact f) (probeLoop (S fuel) (slen f) off limit needLength pos info) Q.
Proof.
  intros p Hat Hpos Hend Hm Hsof Hrest Hh Hw HQ.
  assert (Hp : slen p = slen rest + 5) by (subst p; unfold slen; simpl; lia).
  pose proof (slen_nonneg rest). rewrite slen_segBytes in *. cbn [snd] in *.
  assert (Hne : m <> 217 /\ m <> 1 /\ ~ (208 <= m <= 215)).
  { unfold isSOF in Hsof. bool_hyps. lia. }
  eapply probe_segment; [exact Hat|lia..|]. unfold segment. rewrite Hsof. i64_norm.
  apply wp_bind.
  assert (Hat' : at_pos f (off + pos + 4) (p ++ d)).
  { change (segBytes (m, p) ++ d) with (([byte 255; byte m] ++ be16 (slen p + 2)) ++ (p ++ d)) in Hat.
    by apply at_pos_app in Hat. }
  eapply wp_sliceMin_exact; [exact Hat'|done|unfold maxRead; lia|lia| |].
  { rewrite slen_app. pose proof (slen_nonneg d). lia. }
  change (take (Z.to_nat 5) (p ++ d)) with (c :: be16 h ++ be16 w).
  apply wp_bind. change (sub _ 1 3) with (Ret (be16 h)). apply wp_bind, wp_uint16_be; [lia|].
  apply wp_bind. change (sub _ 3 5) with (Ret (be16 w)). apply wp_bind, wp_uint16_be; [lia|].
  by apply wp_ret.
Qed.

Lemma eoiEnd_app e d : index e eoiMark = None -> eoiEnd (e ++ eoiMark ++ d) = Some (slen e + 2).
Proof.
  intros He. rewrite index_eoi_None in He.
  apply eoiEnd_first; rewrite eoiMark_eq.
  - exists (byte 255), (byte 217). rewrite !byte_val_byte by lia.
    split; [by rewrite lookup_app_r, Nat.sub_diag by lia|].
    by rewrite lookup_app_r, Nat.sub_succ_l, Nat.sub_diag by lia.
  - intros j Hj (x & y & Hx & Hy & Hx' & Hy').
    destruct (decide (S j = length e)) as [E|E].
    + rewrite E, lookup_app_r, Nat.sub_diag in Hy by lia. injection Hy as <-.
      by rewrite byte_val_byte in Hy' by lia.
    + apply (He j). exists x, y. rewrite lookup_app_l in Hx, Hy by lia. done.
Qed.

Lemma probe_sos_header fuel pos p d info Q :
  at_pos f (off + pos) (segBytes (218, p) ++ d) -> 2 <= pos -> pos + 4 <= limit -> slen p < 65534 ->
  needLength = false -> Q (info, 0 <? Width info) ->
  wp (exact f) (probeLoop (S fuel) (slen f) off limit needLength pos info) Q.
Proof.
  intros Hat Hpos Hl Hp Hnl HQ. eapply probe_segment; [exact Hat|lia..|].
  unfold segment. rewrite Hnl. exact HQ.
Qed.

Lemma probe_sos fuel pos p e d info Q :
  at_pos f (off + pos) (segBytes (218, p) ++ (e ++ eoiMark ++ d)) -> 2 <= pos ->
  pos + slen (segBytes (218, p)) + slen e + 2 <= limit -> slen p < 65534 ->
  needLength = true -> index e eoiMark = None ->
  Q (setLength info (pos + slen (segBytes (218, p)) + slen e + 2), 0 <? Width info) ->
  wp (exact f) (probeLoop (S fuel) (slen f) off limit needLength pos info) Q.
Proof.
  intros Hat Hpos Hl Hp Hnl He HQ. rewrite slen_segBytes in *. cbn [snd] in *.
  pose proof (slen_nonneg p). pose proof (slen_nonneg e).
  eapply probe_segment; [exact Hat|lia..|]. unfold segment.
  change (isSOF 218) with false. change (218 =? 225) with false. change (218 =? 218) with true.
  rewrite Hnl. cbn [negb]. cbv iota zeta. i64_norm. apply wp_bind. wp_use findEOI_exact; [lia..|]. intros r ->.
  apply at_pos_app in Hat as [_ Hat]. rewrite slen_segBytes in Hat. cbn [snd] in Hat.
  unfold window. replace (off + (pos + 2 + (slen p + 2))) with (off + pos + (slen p + 4)) by lia.
  rewrite Hat, take_app_ge by (unfold slen in *; lia).
  rewrite (take_app_ge eoiMark) by (change (length eoiMark) with 2%nat; unfold slen in *; lia).
  rewrite eoiEnd_app by done. apply wp_ret.
  cbn beta iota zeta delta [Width setLength].
  replace (pos + 2 + (slen p + 2) + (slen e + 2)) with (pos + (slen p + 4) + slen e + 2) by lia.
  exact HQ.
Qed.
End Probe.

(** The dimensions that the walk finds. *)
Definition jpegInfoOf (j : jpeg) (l : Z) : jpegInfo := mkInfo l (width j) (height j) 0 0 0.

Lemma jpegHead_slen j :
  slen (jpegHead j) = 2 + slen (flat_map segBytes (before j)) + slen (sofBytes j) +
                      slen (flat_map segBytes (after j)) + slen (segBytes (218, scan j)).
Proof. unfold jpegHead. rewrite !slen_app. change (slen [byte 255; byte 216]) with 2. lia. Qed.

(** The walk reaches the scan. *)
Lemma probe_to_scan f off max needLength j d Q :
  slen f <= 2 ^ 62 -> at_pos f off (jpegHead j ++ d) -> jpeg_ok j -> slen (jpegHead j) <= max ->
  (forall fuel pos, pos + slen (segBytes (218, scan j)) = slen (jpegHead j) -> 2 <= pos ->
     at_pos f (off + pos) (segBytes (218, scan j) ++ d) ->
     wp (exact f) (probeLoop (S fuel) (slen f) off (Z.min max (slen f - off)) needLength pos
                     (jpegInfoOf j 0)) Q) ->
  wp (exact f) (probeJPEGAt (slen f) off max needLength) Q.
Proof.
  intros Hf Hat (Hb & Ha & Hm & Hsof & Hw & Hh & Hc & Hs & He) Hmax HQ.
  destruct (at_pos_slen _ _ _ Hat ltac:(done)) as [Hlt Hlen].
  rewrite slen_app in Hlen. pose proof (slen_nonneg d). assert (Hoff : 0 <= off) by apply Hat.
  pose proof (jpegHead_slen j) as Hh'. pose proof (slen_nonneg (flat_map segBytes (before j))).
  pose proof (slen_nonneg (flat_map segBytes (after j))). pose proof (slen_nonneg (components j)).
  pose proof (slen_nonneg (scan j)).
  assert (Hsb : slen (sofBytes j) = slen (components j) + 9).
  { unfold sofBytes. rewrite slen_segBytes. unfold slen. simpl. lia. }
  assert (Hsc : slen (segBytes (218, scan j)) = slen (scan j) + 4) by apply slen_segBytes.
  unfold probeJPEGAt. apply wp_bind.
  eapply wp_sliceMin_exact; [exact Hat|done|unfold maxRead; lia|lia|rewrite slen_app; lia|].
  change (take (Z.to_nat 2) (jpegHead j ++ d)) with [byte 255; byte 216].
  apply wp_bind. eapply wp_idx_exact; [lia|reflexivity|]. rewrite byte_val_byte by lia.
  apply wp_bind. eapply wp_idx_exact; [lia|reflexivity|]. rewrite byte_val_byte by lia.
  cbn [Z.eqb negb orb]. cbv iota zeta.
  assert (Hat2 : at_pos f (off + 2) (flat_map segBytes (before j) ++ sofBytes j ++
    flat_map segBytes (after j) ++ segBytes (218, scan j) ++ d)).
  { unfold jpegHead in Hat. rewrite <- !app_assoc in Hat. by apply at_pos_app in Hat. }
  eapply skip_segments; [lia..|exact Hb|exact Hat2|lia|lia|lia|].
  intros fuel Hfuel Hat3. destruct fuel as [|fuel]; [lia|].
  pose proof (at_pos_app _ _ _ _ Hat3) as Hat4. rewrite <- Z.add_assoc in Hat4.
  eapply probe_sof; [lia..|exact Hat3|lia| |done|done|lia|done|lia|]; fold (sofBytes j); [lia|].
  eapply skip_segments; [lia..|exact Ha|exact Hat4|lia|lia| |].
  { rewrite Hsb in *. lia. }
  intros fuel2 Hfuel2 Hat5. destruct fuel2 as [|fuel2]; [lia|].
  apply HQ; [lia|lia|exact Hat5].
Qed.

Lemma probe_jpeg f off max j d :
  slen f <= 2 ^ 62 -> at_pos f off (jpegBytes j ++ d) -> jpeg_ok j -> slen (jpegBytes j) <= max ->
  wp (exact f) (probeJPEG (slen f) off max)
    (fun r => r = (jpegInfoOf j (slen (jpegBytes j)), true)).
Proof.
  intros Hf Hat Hj Hmax. unfold jpegBytes in *. rewrite <- !app_assoc in Hat.
  destruct (at_pos_slen _ _ _ Hat ltac:(done)) as [Hlt Hlen].
  rewrite !slen_app in *. change (slen eoiMark) with 2 in *. pose proof (slen_nonneg d).
  pose proof (slen_nonneg (entropy j)).
  unfold probeJPEG. eapply probe_to_scan; [done|exact Hat|done|lia|].
  assert (Hoff : 0 <= off) by apply Hat.
  intros fuel pos Hpos Hp2 Hat'.
  pose proof Hj as (_ & _ & _ & _ & Hw & _ & _ & Hs & He).
  eapply probe_sos; [done|lia|lia|exact Hat'|lia|lia|lia|done|done|].
  unfold jpegInfoOf, setLength. simpl.
  replace (0 <? width j) with true by (symmetry; apply Z.ltb_lt; lia). do 2 f_equal. lia.
Qed.

Lemma probe_jpegHeader f off j d :
  slen f <= 2 ^ 62 -> at_pos f off (jpegHead j ++ d) -> jpeg_ok j -> slen (jpegHead j) <= 1048576 ->
  wp (exact f) (probeJPEGHeader (slen f) off) (fun r => r = (jpegInfoOf j 0, true)).
Proof.
  intros Hf Hat Hj Hmax. unfold probeJPEGHeader. eapply probe_to_scan; [done|exact Hat|done|lia|].
  destruct (at_pos_slen _ _ _ Hat ltac:(done)) as [Hlt Hlen]. rewrite slen_app in Hlen.
  pose proof (slen_nonneg d). assert (Hoff : 0 <= off) by apply Hat.
  intros fuel pos Hpos Hp2 Hat'. pose proof Hj as (_ & _ & _ & _ & Hw & _ & _ & Hs & He).
  rewrite slen_segBytes in Hpos. cbn [snd] in Hpos. pose proof (slen_nonneg (scan j)).
  eapply probe_sos_header; [done|lia|lia|exact Hat'|lia|lia|lia|done|].
  simpl. by replace (0 <? width j) with true by (symmetry; apply Z.ltb_lt; lia).
Qed.

(** ** The theorems *)

(** The chunked EOI search finds the end of the first FF D9 in the window of
    [max] bytes from [start], also across the boundary of two chunks, and
    nothing if there is none. *)
Theorem findEOI_reference f start max :
  slen f <= 2 ^ 62 -> 0 <= start <= 2 ^ 62 -> 0 <= max <= 2 ^ 62 ->
  run (findEOI (slen f) start max) f =
    Done (f, (fun i : nat => Z.of_nat i + 2) <$>
               index (take (Z.to_nat max) (drop (Z.to_nat start) f)) eoiMark).
Proof.
  intros Hf Hs Hm. destruct (run_exact f _ _ (findEOI_exact f start max Hf Hs Hm)) as (a & -> & ->).
  reflexivity.
Qed.

(** The marker walk measures every well-formed JPEG, wherever it lies in a file:
    its exact length and the dimensions of its frame header. *)
Theorem probeJPEG_measures f pre j post max :
  f = pre ++ jpegBytes j ++ post -> slen f <= 2 ^ 62 -> jpeg_ok j -> slen (jpegBytes j) <= max ->
  run (probeJPEG (slen f) (slen pre) max) f =
    Done (f, (mkInfo (slen (jpegBytes j)) (width j) (height j) 0 0 0, true)).
Proof.
  intros -> Hf Hj Hmax.
  destruct (run_exact _ _ _ (probe_jpeg (pre ++ jpegBytes j ++ post) (slen pre) max j post Hf
    ltac:(split; [apply slen_nonneg|unfold slen; by rewrite Nat2Z.id, drop_app_length]) Hj Hmax))
    as (a & -> & ->).
  reflexivity.
Qed.

Definition sampleJPEG : jpeg :=
  mkJpeg [(224, list_ascii_of_string "JFIF")] 192 (byte 8) 3 5 (list_ascii_of_string "abcdefgh")
    [(196, [])] (list_ascii_of_string "scan") ([byte 255; byte 0; byte 255]).

Lemma sampleJPEG_ok : jpeg_ok sampleJPEG.
Proof.
  unfold jpeg_ok, sampleJPEG. simpl.
  split; [|split]; [constructor; [|constructor]..|]; unfold plain_segment; simpl;
    repeat split; try (vm_compute; congruence); lia.
Qed.

Lemma findEOI_reference_witness :
  run (findEOI 6 0 6) (bytes_of [1; 255; 0; 255; 217; 9]) = Done (bytes_of [1; 255; 0; 255; 217; 9], Some 5).
Proof.
  apply (findEOI_reference (bytes_of [1; 255; 0; 255; 217; 9]) 0 6); [vm_compute; congruence|lia|lia].
Defined.

Lemma probeJPEG_measures_witness :
  run (probeJPEG 48 3 100) (bytes_of [1; 2; 3] ++ jpegBytes sampleJPEG ++ [byte 7]) =
    Done (bytes_of [1; 2; 3] ++ jpegBytes sampleJPEG ++ [byte 7], (mkInfo 44 5 3 0 0 0, true)).
Proof.
  apply (probeJPEG_measures _ (bytes_of [1; 2; 3]) sampleJPEG [byte 7] 100 eq_refl).
  - vm_compute. congruence.
  - exact sampleJPEG_ok.
  - vm_compute. congruence.
Defined.

(** ** Previews found by FindPreviews *)

Definition be32 (v : Z) : gostr :=
  [byte (v / 16777216); byte (v / 65536 mod 256); byte (v / 256 mod 256); byte (v mod 256)].

Lemma be32_val v : 0 <= v < 4294967296 -> uint_val BigEndian (be32 v) = v.
Proof.
  intros Hv.
  assert (0 <= v / 16777216 < 256) by (split; [apply Z.div_pos|apply Z.div_lt_upper_bound]; lia).
  simpl. rewrite !byte_val_byte by (try apply Z.mod_pos_bound; lia).
  Z.div_mod_to_equations. lia.
Qed.

Lemma wp_uint32_be ok v (Q : Z -> Prop) :
  0 <= v < 4294967296 -> Q v -> wp ok (Uint32 BigEndian (be32 v)) Q.
Proof.
  intros Hv HQ. unfold Uint32, uintN. change (4 <=? slen (be32 v)) with true. cbv iota.
  change (take (Z.to_nat 4) (be32 v)) with (be32 v). by rewrite be32_val.
Qed.

(** The fixed header of a RAF file: the magic, 68 bytes that are not read, and
    the locator of the JPEG. *)
Definition rafHeader (mid : gostr) (off length : Z) (last4 : gostr) : gostr :=
  rafMagic ++ mid ++ be32 off ++ be32 length ++ last4.

(** A locator that points at a well-formed JPEG without EXIF data gives its
    candidate. *)
Lemma addCandidate_exact f off length orient source out j d :
  slen f <= 2 ^ 62 -> at_pos f off (jpegHead j ++ d) -> jpeg_ok j -> slen (jpegHead j) <= 1048576 ->
  0 < off -> 256 <= length ->
  wp (exact f) (addCandidate (slen f) off length orient source out)
    (fun r => r = (true, out ++ [mkCand off (Z.min length (slen f - off)) (width j) (height j) orient source])).
Proof.
  intros Hf Hat Hj Hhead Hoff Hlen. unfold addCandidate.
  destruct (at_pos_slen _ _ _ Hat ltac:(done)) as [Hlt Hl]. rewrite slen_app, jpegHead_slen in Hl.
  pose proof (slen_nonneg (flat_map segBytes (before j))). pose proof (slen_nonneg (flat_map segBytes (after j))).
  pose proof (slen_nonneg d). pose proof (slen_nonneg (sofBytes j)).
  rewrite slen_segBytes in Hl. pose proof (slen_nonneg (218, scan j).2).
  i64_norm.
  replace ((off <=? 0) || (length <? 256) || (slen f <? off + 4)) with false
    by (symmetry; rewrite !orb_false_iff, Z.leb_gt, !Z.ltb_ge; lia).
  cbv zeta. apply wp_bind, wp_slice_exact; [lia|unfold maxRead; lia|].
  destruct Hat as [Ho Hd]. rewrite Hd.
  assert (Hsoi : isSOI (take (Z.to_nat 3) (jpegHead j ++ d)) = true).
  { assert (Hhd : exists t, jpegHead j ++ d = byte 255 :: byte 216 :: byte 255 :: t).
    { unfold jpegHead, sofBytes. destruct (before j) as [|[m p] segs]; simpl; eauto. }
    destruct Hhd as [t ->]. vm_compute. reflexivity. }
  rewrite Hsoi. cbn [negb]. apply wp_bind. wp_use probe_jpegHeader; [done|by split|done|done|].
  intros r ->. cbn [negb]. unfold jpegInfoOf. cbn [Orientation Width Height Z.eqb negb].
  apply wp_bind. unfold addThumb. cbn [ThumbLength Z.ltb]. apply wp_ret. by apply wp_ret.
Qed.

Section Raf.
Context (mid last4 : gostr) (off length : Z) (rest : gostr).
Context (Hmid : slen mid = 68) (Hlast : slen last4 = 4).
Context (Hoff : 0 < off < 4294967296) (Hlength : 256 <= length < 4294967296).

Definition rafFile : gostr := rafHeader mid off length last4 ++ rest.

Lemma rafFile_slen : slen rafFile = 96 + slen rest.
Proof. unfold rafFile, rafHeader. rewrite !slen_app, Hmid, Hlast. change (slen rafMagic) with 16. unfold slen. simpl. lia. Qed.

Lemma raf_take n : (n <= 96)%nat -> take n rafFile = take n (rafHeader mid off length last4).
Proof.
  intros Hn. unfold rafFile. rewrite take_app_le; [done|].
  pose proof rafFile_slen as Hs. unfold rafFile in Hs. rewrite slen_app in Hs. unfold slen in Hs. lia.
Qed.

Lemma raf_cut i j a b c :
  rafHeader mid off length last4 = a ++ b ++ c -> i = slen a -> j = slen a + slen b ->
  cut (rafHeader mid off length last4) i j = b.
Proof.
  intros E -> ->. unfold cut. rewrite E.
  replace (Z.to_nat (slen a)) with (List.length a) by (unfold slen; lia).
  rewrite drop_app_length.
  replace (Z.to_nat (slen a + slen b - slen a)) with (List.length b) by (unfold slen; lia).
  apply take_app_length.
Qed.

Lemma rafCandidates_exact j d out :
  slen rafFile <= 2 ^ 62 -> at_pos rafFile off (jpegHead j ++ d) -> jpeg_ok j ->
  slen (jpegHead j) <= 1048576 ->
  wp (exact rafFile) (rafCandidates (slen rafFile) out)
    (fun r => r = (true, out ++ [mkCand off (Z.min length (slen rafFile - off)) (width j) (height j) 0 "raf"])).
Proof.
  intros Hf Hat Hj Hh. pose proof rafFile_slen as Hs. pose proof (slen_nonneg rest).
  assert (Hhd : take (Z.to_nat 96) rafFile = rafHeader mid off length last4).
  { rewrite raf_take by lia. apply take_ge.
    unfold rafFile in Hs. rewrite slen_app in Hs. unfold slen in Hs. lia. }
  assert (Hlen : slen (rafHeader mid off length last4) = 96).
  { unfold rafFile in Hs. rewrite slen_app in Hs. lia. }
  unfold rafCandidates. apply wp_bind.
  eapply (wp_sliceMin_exact _ _ _ _ rafFile); [by split| |unfold maxRead; lia|lia|lia|].
  { intros E. rewrite E in Hs. change (slen []) with 0 in Hs. lia. }
  rewrite Hhd. apply wp_bind. rewrite sub_eq by lia.
  rewrite (raf_cut 0 16 [] rafMagic _ eq_refl) by done.
  apply wp_ret. rewrite seqb_refl. cbn [negb].
  apply wp_bind. rewrite sub_eq by lia.
  rewrite (raf_cut 84 88 (rafMagic ++ mid) (be32 off) (be32 length ++ last4));
    [|by rewrite <- app_assoc|rewrite slen_app, Hmid; done|rewrite slen_app, Hmid; done].
  apply wp_ret, wp_bind, wp_uint32_be; [lia|].
  apply wp_bind. rewrite sub_eq by lia.
  rewrite (raf_cut 88 92 (rafMagic ++ mid ++ be32 off) (be32 length) last4);
    [|by rewrite <- !app_assoc|rewrite !slen_app, Hmid; done|rewrite !slen_app, Hmid; done].
  apply wp_ret, wp_bind, wp_uint32_be; [lia|].
  wp_use addCandidate_exact; [done|exact Hat|done|done|lia|lia|]. done.
Qed.
End Raf.

Definition rafWith (mid last4 gap : gostr) (j : jpeg) (post : gostr) : gostr :=
  rafFile mid last4 (96 + slen gap) (slen (jpegBytes j)) (gap ++ jpegBytes j ++ post).

(** A Fujifilm RAF file whose header points at a well-formed JPEG: FindPreviews
    finds that JPEG, with its exact place, length and dimensions. *)
Theorem raf_preview_found mid last4 gap j post ext :
  let f := rafWith mid last4 gap j post in
  slen mid = 68 -> slen last4 = 4 -> 1024 <= slen f <= 2 ^ 32 -> jpeg_ok j -> 0 < height j ->
  256 <= slen (jpegBytes j) -> slen (jpegHead j) <= 1048576 ->
  run (FindPreviews (slen f) ext) f =
    Done (f, Ok [mkCand (96 + slen gap) (slen (jpegBytes j)) (width j) (height j) 0 "raf"]).
Proof.
  intros f Hmid Hlast Hf Hj Hh Hlen Hhead.
  pose proof (slen_nonneg gap). pose proof (slen_nonneg post).
  assert (Hs : slen f = 96 + slen gap + slen (jpegBytes j) + slen post).
  { unfold f, rafWith. rewrite rafFile_slen by done. rewrite !slen_app. lia. }
  assert (Hat : at_pos f (96 + slen gap) (jpegHead j ++ (entropy j ++ eoiMark) ++ post)).
  { split; [lia|]. pose proof (rafFile_slen mid last4 (96 + slen gap) (slen (jpegBytes j)) [] Hmid Hlast) as Hh0.
    unfold rafFile in Hh0. rewrite app_nil_r in Hh0. change (slen []) with 0 in Hh0.
    unfold f, rafWith, rafFile. rewrite app_assoc.
    replace (Z.to_nat (96 + slen gap)) with
      (List.length (rafHeader mid (96 + slen gap) (slen (jpegBytes j)) last4 ++ gap))
      by (rewrite length_app; unfold slen in *; lia).
    rewrite drop_app_length. unfold jpegBytes. by rewrite <- app_assoc. }
  destruct (run_exact f (FindPreviews (slen f) ext) (fun r => r =
      Ok [mkCand (96 + slen gap) (slen (jpegBytes j)) (width j) (height j) 0 "raf"])) as (a & -> & ->);
    [|done].
  unfold FindPreviews. destruct (Z.ltb_spec (slen f) 1024); [lia|].
  apply wp_bind, wp_slice_exact; [lia|unfold maxRead; lia|].
  change (drop (Z.to_nat 0) f) with f.
  assert (Hmagic : take (Z.to_nat 16) f = rafMagic) by reflexivity. rewrite Hmagic.
  apply wp_bind. unfold dispatch. apply wp_bind.
  change (magicIs rafMagic 0 16 rafMagic) with (Ret true). apply wp_ret.
  wp_use rafCandidates_exact; [done|done|lia|lia|change (slen f <= 2 ^ 62); lia|exact Hat|done|done|].
  change (rafFile mid last4 _ _ _) with f.
  intros r ->. cbn [negb orb List.length app Nat.eqb]. apply wp_bind, wp_ret.
  cbv zeta. rewrite Z.min_l by lia. unfold normalise. cbn [usable Offset CLength CWidth CHeight].
  pose proof Hj as (_ & _ & _ & _ & Hw & _).
  replace ((width j <=? 0) || (height j <=? 0) || (slen (jpegBytes j) <=? 0)) with false
    by (symmetry; rewrite !orb_false_iff, !Z.leb_gt; lia).
  i64_norm.
  replace ((96 + slen gap <? 0) || (slen f <? 96 + slen gap + slen (jpegBytes j))) with false
    by (symmetry; rewrite orb_false_iff, !Z.ltb_ge; lia).
  rewrite bool_decide_eq_false_2 by set_solver.
  exact eq_refl.
Qed.

Definition bigJPEG : jpeg :=
  mkJpeg [(224, list_ascii_of_string "JFIF")] 192 (byte 8) 768 1024 (list_ascii_of_string "abcdefgh")
    [(196, [])] (list_ascii_of_string "scan") (repeat (byte 0) 300).

Lemma bigJPEG_ok : jpeg_ok bigJPEG.
Proof.
  unfold jpeg_ok, bigJPEG. simpl.
  split; [|split]; [constructor; [|constructor]..|]; unfold plain_segment; simpl;
    repeat split; try (vm_compute; congruence); lia.
Qed.

Lemma raf_preview_found_witness :
  let f := rafWith (repeat (byte 0) 68) (repeat (byte 0) 4) (repeat (byte 1) 10) bigJPEG (repeat (byte 2) 700) in
  run (FindPreviews (slen f) "raf") f = Done (f, Ok [mkCand 106 341 1024 768 0 "raf"]).
Proof.
  apply (raf_preview_found (repeat (byte 0) 68) (repeat (byte 0) 4) (repeat (byte 1) 10) bigJPEG (repeat (byte 2) 700) "raf").
  - reflexivity.
  - reflexivity.
  - vm_compute. split; congruence.
  - exact bigJPEG_ok.
  - reflexivity.
  - vm_compute. congruence.
  - vm_compute. congruence.
Defined.
