(* ===== verification/RawReader.v ===== *)
(** The reader with a block cache: CachedReaderAt of
    src/internal/rawpreview/reader.go, and Locate of extract.go. *)
From S2P Require Import Prelude ReaderIO RawTiff RawWalk RawPreview.

(** What a range request delivers: its bytes and how the stream ends, [None]
    for the regular end. *)
Definition stream : Type := gostr * option rerr.

Class RangeReader (M : Type) := RangeRead : M -> Z -> Z -> M * res rerr stream.

Definition blockSize : Z := 131072.

Record CachedReaderAt (M : Type) := mkCached {
  rr : M; csize : Z; budget : Z; maxBlocks : nat;
  blocks : gmap Z gostr; order : list Z; nread : Z; requests : Z }.
Arguments mkCached {M}.
Arguments rr {M}. Arguments csize {M}. Arguments budget {M}. Arguments maxBlocks {M}.
Arguments blocks {M}. Arguments order {M}. Arguments nread {M}. Arguments requests {M}.

Section Cached.
Context {M : Type} `{RangeReader M}.
Notation Cached := (CachedReaderAt M).

Definition NewCachedReaderAt (m : M) (size : Z) : Cached :=
  mkCached m size MaxParseBytes 64 ∅ [] 0 0.

Definition SetBudget (c : Cached) (n : Z) : Cached :=
  mkCached (rr c) (csize c) n (maxBlocks c) (blocks c) (order c) (nread c) (requests c).

Definition Stats (c : Cached) : Z * Z := (nread c, requests c).

Definition setRR (c : Cached) (m : M) : Cached :=
  mkCached m (csize c) (budget c) (maxBlocks c) (blocks c) (order c) (nread c) (requests c).
Definition countRequest (c : Cached) : Cached :=
  mkCached (rr c) (csize c) (budget c) (maxBlocks c) (blocks c) (order c) (nread c) (requests c + 1).
Definition addRead (c : Cached) (n : Z) : Cached :=
  mkCached (rr c) (csize c) (budget c) (maxBlocks c) (blocks c) (order c) (nread c +! n) (requests c).
Definition putBlock (c : Cached) (i : Z) (b : gostr) : Cached :=
  mkCached (rr c) (csize c) (budget c) (maxBlocks c) (<[i := b]> (blocks c)) (order c ++ [i])
    (nread c) (requests c).

(** The oldest blocks are dropped until [maxBlocks] are left. *)
Fixpoint evictLoop (max : nat) (bs : gmap Z gostr) (l : list Z) : gmap Z gostr * list Z :=
  match l with
  | [] => (bs, [])
  | i :: l' => if (max <? length l)%nat then evictLoop max (delete i bs) l' else (bs, l)
  end.

Definition evict (c : Cached) : Cached :=
  let '(bs, l) := evictLoop (maxBlocks c) (blocks c) (order c) in
  mkCached (rr c) (csize c) (budget c) (maxBlocks c) bs l (nread c) (requests c).

(** io.ReadFull: the bytes and the error. *)
Definition readFull (s : stream) (length : Z) : gostr * option rerr :=
  let '(d, e) := s in
  if length <=? slen d then (take (Z.to_nat length) d, None)
  else
    (d, Some (match e with
              | Some e => e
              | None => if slen d =? 0 then EOF else ErrUnexpectedEOF
              end)).

Definition tolerated (e : option rerr) : bool :=
  match e with
  | None | Some EOF | Some ErrUnexpectedEOF => true
  | _ => false
  end.

Definition request (c : Cached) (off length : Z) : Cached * res rerr gostr :=
  let '(m, r) := RangeRead (rr c) off length in
  let c := setRR c m in
  match r with
  | Err e => (c, Err e)
  | Ok s =>
      let c := countRequest c in
      let '(d, e) := readFull s length in
      if negb (tolerated e) then (c, Err (default EOF e))
      else if slen d =? 0 then (c, Err EOF)
      else (c, Ok d)
  end.

(** The blocks of [buf], which was read at [off]; [n] bytes of it are stored. *)
Fixpoint storeBlocks (fuel : nat) (c : Cached) (off : Z) (buf : gostr) (n : Z) : Cached :=
  match fuel with
  | O => c
  | S fuel' =>
      if n <? slen buf then
        storeBlocks fuel'
          (putBlock c (Z.quot (off + n) blockSize) (cut buf n (Z.min (n + blockSize) (slen buf))))
          off buf (n + blockSize)
      else c
  end.

(** The last block of the run of missing blocks that starts at [i]. *)
Fixpoint runEnd (fuel : nat) (c : Cached) (j last : Z) : Z :=
  match fuel with
  | O => j
  | S fuel' =>
      if j + 1 <=? last then
        match blocks c !! (j + 1) with
        | Some _ => j
        | None => runEnd fuel' c (j + 1) last
        end
      else j
  end.

(** Blocks [i] to [last]. *)
Fixpoint fetchLoop (fuel : nat) (c : Cached) (i last : Z) : Cached * option rerr :=
  match fuel with
  | O => (c, None)
  | S fuel' =>
      if i <=? last then
        match blocks c !! i with
        | Some _ => fetchLoop fuel' c (i + 1) last
        | None =>
            let j := runEnd (Z.to_nat (last - i)) c i last in
            let off := i * blockSize in
            let length := Z.min ((j - i + 1) * blockSize) (csize c - off) in
            if length <=? 0 then (c, Some EOF)
            else if budget c <? nread c +! length then (c, Some ErrBudgetExceeded)
            else
              let '(c, r) := request c off length in
              match r with
              | Err e => (c, Some e)
              | Ok buf =>
                  let c := addRead c (slen buf) in
                  let c := evict (storeBlocks (S (S (Z.to_nat (Z.quot (slen buf) blockSize)))) c off buf 0) in
                  fetchLoop fuel' c (j + 1) last
              end
        end
      else (c, None)
  end.

Definition fetch (c : Cached) (start end_ : Z) : Cached * option rerr :=
  let first := Z.quot start blockSize in
  let last := Z.quot (end_ - 1) blockSize in
  fetchLoop (S (Z.to_nat (last - first + 1))) c first last.

(** The copy out of the blocks: [n] bytes are copied. *)
Fixpoint copyLoop (fuel : nat) (c : Cached) (off end_ : Z) (p : gostr) : answer :=
  match fuel with
  | O => (p, None)
  | S fuel' =>
      if slen p <? end_ - off then
        let pos := off + slen p in
        match blocks c !! Z.quot pos blockSize with
        | None => (p, Some ErrUnexpectedEOF)
        | Some b =>
            let inb := Z.rem pos blockSize in
            if slen b <=? inb then (p, Some EOF)
            else
              copyLoop fuel' c off end_
                (p ++ take (Z.to_nat (end_ - off - slen p)) (drop (Z.to_nat inb) b))
        end
      else (p, None)
  end.

Definition cachedReadAt (c : Cached) (len off : Z) : Cached * answer :=
  if off <? 0 then (c, ([], Some ErrNegativeOffset))
  else if csize c <=? off then (c, ([], Some EOF))
  else
    let end_ := Z.min (off +! len) (csize c) in
    let '(c, e) := fetch c off end_ in
    match e with
    | Some e => (c, ([], Some e))
    | None =>
        let '(p, e) := copyLoop (S (Z.to_nat (end_ - off))) c off end_ [] in
        match e with
        | Some e => (c, (p, Some e))
        | None =>
            if (csize c <=? off + slen p) && (slen p <? len) then (c, (p, Some EOF))
            else (c, (p, None))
        end
    end.

#[export] Instance cached_ReaderAt : ReaderAt Cached := cachedReadAt.

(** Locate: the previews, the bytes transferred and the requests made. *)
Definition Locate (m : M) (size : Z) (ext : gostr)
    : outcome (res previewErr (list Candidate) * Z * Z) :=
  match run (FindPreviews size ext) (NewCachedReaderAt m size) with
  | Done (c, cands) => Done (cands, (Stats c).1, (Stats c).2)
  | Panicked => Panicked
  | Exhausted => Exhausted
  end.
End Cached.

(** ** The contract of io.ReaderAt and the budget, with any remote side *)
Section Bounds.
Context {M : Type} {RRd : RangeReader M}.
Notation Cached := (CachedReaderAt M).

Definition same_config (c c' : Cached) : Prop :=
  csize c' = csize c /\ budget c' = budget c /\ maxBlocks c' = maxBlocks c.

(** Not more than the budget is transferred, not more than [maxBlocks] blocks
    are held. *)
Definition within (c : Cached) : Prop :=
  0 <= nread c <= budget c /\ (length (order c) <= maxBlocks c)%nat /\
  0 <= budget c <= 2 ^ 61 /\ 0 <= csize c <= 2 ^ 62.

Lemma evictLoop_spec max bs l :
  exists d, l = d ++ (evictLoop max bs l).2 /\ (length (evictLoop max bs l).2 <= max)%nat /\
    ((length l <= max)%nat -> d = []) /\
    forall x, (evictLoop max bs l).1 !! x = if bool_decide (x ∈ d) then None else bs !! x.
Proof.
  revert bs. induction l as [|i l IH]; intros bs; cbn [evictLoop].
  - exists []. simpl. split; [done|]. split; [lia|]. done.
  - destruct (Nat.ltb_spec max (length (i :: l))) as [Hlt|Hge].
    + destruct (IH (delete i bs)) as (d & Hd & Hlen & _ & Hx). exists (i :: d).
      split; [simpl; by f_equal|]. split; [done|]. split; [lia|]. intros x. rewrite Hx.
      destruct (decide (x = i)) as [->|Hne].
      * rewrite (bool_decide_eq_true_2 (i ∈ i :: d)) by (by left).
        case_bool_decide; [done|]. by rewrite lookup_delete_eq.
      * rewrite lookup_delete_ne by done.
        rewrite (bool_decide_ext (x ∈ i :: d) (x ∈ d)); [done|]. rewrite elem_of_cons. naive_solver.
    + exists []. simpl. split; [done|]. split; [done|]. done.
Qed.

Lemma evict_spec (c : Cached) :
  exists d, order c = d ++ order (evict c) /\ (length (order (evict c)) <= maxBlocks c)%nat /\
    ((length (order c) <= maxBlocks c)%nat -> d = []) /\
    (forall x, blocks (evict c) !! x = if bool_decide (x ∈ d) then None else blocks c !! x) /\
    same_config c (evict c) /\ nread (evict c) = nread c /\ rr (evict c) = rr c.
Proof.
  destruct (evictLoop_spec (maxBlocks c) (blocks c) (order c)) as (d & Hd & Hl & Hz & Hx).
  unfold evict. destruct (evictLoop (maxBlocks c) (blocks c) (order c)) as [bs l]. simpl in *.
  exists d. done.
Qed.

Lemma storeBlocks_config fuel (c : Cached) off buf n :
  same_config c (storeBlocks fuel c off buf n) /\ nread (storeBlocks fuel c off buf n) = nread c /\
  rr (storeBlocks fuel c off buf n) = rr c.
Proof.
  revert c n. induction fuel as [|fuel IH]; intros c n; simpl; [done|].
  destruct (n <? slen buf); [|done].
  by destruct (IH (putBlock c (Z.quot (off + n) blockSize) (cut buf n (Z.min (n + blockSize) (slen buf))))
    (n + blockSize)) as (? & ? & ?).
Qed.

Lemma request_spec (c : Cached) off length :
  let '(c', r) := request c off length in
  same_config c c' /\ nread c' = nread c /\ order c' = order c /\ blocks c' = blocks c /\
  (forall buf, r = Ok buf -> 0 < slen buf /\ (0 <= length -> slen buf <= length)).
Proof.
  unfold request. destruct (RangeRead (rr c) off length) as [m [[d e]|e]]; [|done].
  unfold readFull. destruct (Z.leb_spec length (slen d)); simpl.
  - destruct (Z.eqb_spec (slen (take (Z.to_nat length) d)) 0) as [E|E]; [done|].
    repeat split; injection H0 as <-; rewrite slen_take in *; pose proof (slen_nonneg d); lia.
  - pose proof (slen_nonneg d).
    destruct e as [e|]; [|destruct (Z.eqb_spec (slen d) 0)]; simpl; try done.
    + destruct e; simpl; try done; destruct (Z.eqb_spec (slen d) 0); try done;
        repeat split; injection H1 as <-; lia.
    + destruct (Z.eqb_spec (slen d) 0); [done|]. repeat split; injection H1 as <-; lia.
Qed.

Lemma fetchLoop_within fuel (c : Cached) i last :
  within c -> 0 <= i ->
  within (fetchLoop fuel c i last).1 /\ same_config c (fetchLoop fuel c i last).1.
Proof.
  revert c i. induction fuel as [|fuel IH]; intros c i Hc Hi; cbn [fetchLoop]; [done|].
  destruct (Z.leb_spec i last); [|done].
  destruct (blocks c !! i) eqn:Eb; [apply IH; [done|lia]|]. cbv zeta.
  set (j := runEnd (Z.to_nat (last - i)) c i last).
  set (len := Z.min ((j - i + 1) * blockSize) (csize c - i * blockSize)).
  destruct (Z.leb_spec len 0); [done|].
  destruct (Z.ltb_spec (budget c) (nread c +! len)) as [|Hbud]; [done|].
  pose proof (request_spec c (i * blockSize) len) as Hreq.
  destruct (request c (i * blockSize) len) as [c1 [buf|e]];
    destruct Hreq as ((E1 & E2 & E3) & E4 & E5 & E6 & Hbuf).
  - destruct (Hbuf buf eq_refl) as [Hb0 Hb]. specialize (Hb ltac:(lia)).
    assert (Hlen : len <= 2 ^ 62) by (unfold within in Hc; subst len; unfold blockSize; lia).
    rewrite i64_id in Hbud by (unfold within, i64_ok in *; lia).
    assert (Hj : i <= j).
    { subst j. clear. generalize (Z.to_nat (last - i)). intros n. revert i.
      induction n as [|n IHn]; intros i; simpl; [lia|].
      destruct (Z.leb_spec (i + 1) last); [|lia]. destruct (blocks c !! (i + 1)); [lia|].
      specialize (IHn (i + 1)). lia. }
    set (c2 := storeBlocks _ (addRead c1 (slen buf)) _ _ _).
    destruct (storeBlocks_config (S (S (Z.to_nat (Z.quot (slen buf) blockSize)))) (addRead c1 (slen buf))
      (i * blockSize) buf 0) as ((F1 & F2 & F3) & F4 & F5). fold c2 in F1, F2, F3, F4, F5. simpl in *.
    destruct (evict_spec c2) as (d & _ & Hl & _ & _ & (G1 & G2 & G3) & G4 & G5).
    assert (Hn : nread (evict c2) = nread c + slen buf).
    { rewrite G4, F4, E4. apply i64_id. unfold within, i64_ok in *. lia. }
    assert (Hw : within (evict c2)).
    { unfold within in *. rewrite Hn, G1, G2, G3, F1, F2, F3, E1, E2, E3.
      rewrite F3, E3 in Hl. lia. }
    destruct (IH (evict c2) (j + 1) Hw ltac:(lia)) as [Hw' (K1 & K2 & K3)]. split; [done|].
    unfold same_config. rewrite K1, K2, K3, G1, G2, G3, F1, F2, F3. done.
  - unfold within, same_config in *. simpl. rewrite E1, E2, E3, E4, E5. done.
Qed.
End Bounds.

Section Contract.
Context {M : Type} {RRd : RangeReader M}.
Notation Cached := (CachedReaderAt M).

Lemma copyLoop_spec fuel (c : Cached) off end_ p :
  slen p <= end_ - off -> end_ - off - slen p < Z.of_nat fuel -> 0 <= off ->
  slen (copyLoop fuel c off end_ p).1 <= end_ - off /\
  ((copyLoop fuel c off end_ p).2 = None -> slen (copyLoop fuel c off end_ p).1 = end_ - off).
Proof.
  revert p. induction fuel as [|fuel IH]; intros p Hp Hf Ho; cbn [copyLoop]; [lia|].
  destruct (Z.ltb_spec (slen p) (end_ - off)); [|simpl; lia]. cbv zeta.
  destruct (blocks c !! _) as [b|]; [|simpl; split; [lia|done]].
  pose proof (slen_nonneg p).
  assert (Hrem : 0 <= Z.rem (off + slen p) blockSize) by (apply Z.rem_nonneg; unfold blockSize; lia).
  destruct (Z.leb_spec (slen b) (Z.rem (off + slen p) blockSize)) as [|Hinb]; [simpl; split; [lia|done]|].
  revert Hrem Hinb. generalize (Z.rem (off + slen p) blockSize). intros inb Hrem Hinb.
  set (q := take _ _).
  assert (Hq : 1 <= slen q <= end_ - off - slen p) by (subst q; rewrite slen_take, slen_drop; lia).
  apply IH; rewrite ?slen_app; lia.
Qed.

Lemma cachedReadAt_contract (c : Cached) len off :
  within c -> ok_request len off ->
  within (ReadAt c len off).1 /\ same_config c (ReadAt c len off).1 /\
  contract len off (ReadAt c len off).2.
Proof.
  intros Hc [Hlen Hoff]. unfold ReadAt, cached_ReaderAt, cachedReadAt.
  assert (Herr : forall e, contract len off ([], Some e))
    by (intros e; split; [simpl; unfold slen; simpl; lia|done]).
  destruct (Z.ltb_spec off 0); [lia|]. destruct (Z.leb_spec (csize c) off); [by split; [|split; [|apply Herr]]|].
  cbv zeta. unfold maxRead in *.
  assert (Hend : off +! len = off + len) by (apply i64_id; unfold within, i64_ok in *; lia).
  rewrite Hend. set (end_ := Z.min (off + len) (csize c)).
  assert (He : off < end_ <= off + len) by lia. assert (He' : end_ <= csize c) by lia.
  destruct (fetchLoop_within (S (Z.to_nat (Z.quot (end_ - 1) blockSize - Z.quot off blockSize + 1))) c
    (Z.quot off blockSize) (Z.quot (end_ - 1) blockSize) Hc ltac:(apply Z.quot_pos; unfold blockSize; lia))
    as [Hw Hsame]. pose proof Hsame as (Es & _ & _).
  unfold fetch. remember (S (Z.to_nat (end_ - off))) as fuel eqn:Hfuel.
  destruct (fetchLoop _ c _ _) as [c1 e1]. simpl in *.
  destruct e1 as [e1|]; [by split; [|split; [|apply Herr]]|].
  destruct (copyLoop_spec fuel c1 off end_ [] ltac:(unfold slen; simpl; lia)
    ltac:(unfold slen; simpl; lia) Hoff) as [Hle Hnone].
  destruct (copyLoop _ c1 off end_ []) as [p e]. simpl in *.
  destruct e as [e|]; [split; [done|]; split; [done|]; split; [simpl; lia|done]|].
  specialize (Hnone eq_refl). rewrite Es.
  destruct (Z.leb_spec (csize c) (off + slen p)); simpl.
  - destruct (Z.ltb_spec (slen p) len); simpl;
      (split; [done|]; split; [done|]); split; simpl; try lia; done.
  - split; [done|]. split; [done|]. split; simpl; lia.
Qed.

Lemma new_within (m : M) size : 0 <= size <= 2 ^ 62 -> within (NewCachedReaderAt m size).
Proof. intros Hs. unfold within, NewCachedReaderAt, MaxParseBytes. simpl. lia. Qed.

End Contract.

(** ** Exact reads: a remote side that serves the file [f] *)
Class Serves {M : Type} `{RangeReader M} (f : gostr) : Prop :=
  serves : forall m off len, 0 <= off -> 0 < len -> off + len <= slen f ->
    exists m', RangeRead m off len = (m', Ok (take (Z.to_nat len) (drop (Z.to_nat off) f), None)).

Section Exact.
Context {M : Type} {RRd : RangeReader M} (f : gostr) {HServes : Serves f}.
Context (Hsize : slen f <= 2 ^ 62).
Notation Cached := (CachedReaderAt M).

Definition fileBlock (i : Z) : gostr := take (Z.to_nat blockSize) (drop (Z.to_nat (i * blockSize)) f).

(** The blocks held are blocks of the file, each one listed once. *)
Record holds (c : Cached) : Prop := mkHolds {
  holds_size : csize c = slen f;
  holds_nodup : NoDup (order c);
  holds_dom : forall i, i ∈ order c <-> is_Some (blocks c !! i);
  holds_block : forall i b, blocks c !! i = Some b -> 0 <= i /\ i * blockSize < slen f /\ b = fileBlock i }.

(** [buf] is the file from block [i] on, up to the end of block [i + k + n - 1]
    or of the file. *)
Definition buf_of (i k : Z) (n : nat) (buf : gostr) : Prop :=
  buf = take (Z.to_nat (slen buf)) (drop (Z.to_nat (i * blockSize)) f) /\
  (slen buf = (k + Z.of_nat n) * blockSize \/ i * blockSize + slen buf = slen f) /\
  slen buf <= (k + Z.of_nat n) * blockSize /\
  match n with
  | O => slen buf <= k * blockSize
  | S _ => (k + Z.of_nat n - 1) * blockSize < slen buf
  end.

Lemma buf_block i k n buf :
  0 <= i -> 0 <= k -> buf_of i k (S n) buf ->
  cut buf (k * blockSize) (Z.min (k * blockSize + blockSize) (slen buf)) = fileBlock (i + k).
Proof.
  intros Hi Hk (Hbuf & Hend & Hle & Hlt). unfold cut, fileBlock.
  replace (Z.to_nat ((i + k) * blockSize)) with (Z.to_nat (i * blockSize) + Z.to_nat (k * blockSize))%nat
    by (unfold blockSize; lia).
  rewrite <- drop_drop. remember (slen buf) as L eqn:HL. rewrite Hbuf.
  rewrite skipn_firstn_comm, take_take. set (d := drop (Z.to_nat (k * blockSize)) _).
  assert (Hd : Z.of_nat (length d) = Z.max 0 (slen f - (i + k) * blockSize)).
  { subst d. fold (slen (drop (Z.to_nat (k * blockSize)) (drop (Z.to_nat (i * blockSize)) f))).
    rewrite !slen_drop. unfold blockSize. lia. }
  unfold blockSize in *. destruct (Z.le_gt_cases (k * 131072 + 131072) L).
  - f_equal. lia.
  - rewrite !take_ge; [done| |]; lia.
Qed.

(** The loop of fetch stores the blocks of the range read. *)
Lemma storeBlocks_spec fuel (c : Cached) i buf k n :
  0 <= i -> 0 <= k -> buf_of i k n buf -> (n < fuel)%nat ->
  order (storeBlocks fuel c (i * blockSize) buf (k * blockSize)) = order c ++ seqZ (i + k) (Z.of_nat n) /\
  (forall x, blocks (storeBlocks fuel c (i * blockSize) buf (k * blockSize)) !! x =
     if bool_decide (i + k <= x < i + k + Z.of_nat n) then Some (fileBlock x) else blocks c !! x).
Proof.
  intros Hi. revert c k n.
  induction fuel as [|fuel IH]; intros c k n Hk Hbuf Hfuel; [lia|]. cbn [storeBlocks].
  destruct n as [|n].
  - destruct Hbuf as (_ & _ & _ & Hle). destruct (Z.ltb_spec (k * blockSize) (slen buf)); [lia|].
    split; [by rewrite app_nil_r|]. intros x. rewrite bool_decide_eq_false_2; [done|lia].
  - assert (Hlt : k * blockSize < slen buf).
    { destruct Hbuf as (_ & _ & _ & Hlt). unfold blockSize in *. lia. }
    destruct (Z.ltb_spec (k * blockSize) (slen buf)); [|lia].
    rewrite (buf_block i k n buf) by done.
    replace (Z.quot (i * blockSize + k * blockSize) blockSize) with (i + k)
      by (rewrite <- Z.mul_add_distr_r, Z.quot_mul; unfold blockSize; lia).
    replace (k * blockSize + blockSize) with ((k + 1) * blockSize) by (unfold blockSize; lia).
    assert (Hb' : buf_of i (k + 1) n buf).
    { destruct Hbuf as (H1 & H2 & H3 & H4). unfold buf_of.
      replace (k + 1 + Z.of_nat n) with (k + Z.of_nat (S n)) by lia.
      repeat split; [done|done|done|]. destruct n; [|done].
      replace (k + 1) with (k + Z.of_nat 1) by lia. done. }
    destruct (IH (putBlock c (i + k) (fileBlock (i + k))) (k + 1) n ltac:(lia) Hb' ltac:(lia)) as [Ho Hx].
    split.
    + rewrite Ho. simpl. rewrite <- app_assoc. f_equal.
      replace (Z.of_nat (S n)) with (Z.succ (Z.of_nat n)) by lia. rewrite (seqZ_cons (i + k)) by lia. simpl.
      f_equal. f_equal; lia.
    + intros x. rewrite Hx. simpl. destruct (decide (x = i + k)) as [->|Hne].
      * rewrite lookup_insert_eq. rewrite bool_decide_eq_false_2, bool_decide_eq_true_2 by lia. done.
      * rewrite lookup_insert_ne by done.
        rewrite (bool_decide_ext (i + (k + 1) <= x < i + (k + 1) + Z.of_nat n)
          (i + k <= x < i + k + Z.of_nat (S n))); [done|]. lia.
Qed.

Lemma runEnd_spec fuel (c : Cached) j last :
  j <= last -> j <= runEnd fuel c j last <= last /\
  forall x, j < x <= runEnd fuel c j last -> blocks c !! x = None.
Proof.
  revert j. induction fuel as [|fuel IH]; intros j Hj; cbn [runEnd]; [split; [lia|intros; lia]|].
  destruct (Z.leb_spec (j + 1) last); [|split; [lia|intros; lia]].
  destruct (blocks c !! (j + 1)) eqn:E; [split; [lia|intros; lia]|].
  destruct (IH (j + 1) ltac:(lia)) as [Hr Hx]. split; [lia|]. intros x Hlt.
  destruct (decide (x = j + 1)) as [->|]; [done|]. apply Hx. lia.
Qed.

Lemma request_exact (c : Cached) off len :
  0 <= off -> 0 < len -> off + len <= slen f ->
  exists c', request c off len = (c', Ok (take (Z.to_nat len) (drop (Z.to_nat off) f))) /\
    same_config c c' /\ nread c' = nread c /\ order c' = order c /\ blocks c' = blocks c.
Proof.
  intros Ho Hl He. destruct (serves (rr c) off len Ho Hl He) as [m' Hm].
  pose proof (request_spec c off len) as Hspec. unfold request in *. rewrite Hm in *.
  assert (Hd : slen (take (Z.to_nat len) (drop (Z.to_nat off) f)) = len) by (rewrite slen_take, slen_drop; lia).
  unfold readFull in *. rewrite Hd in *. rewrite Z.leb_refl in *.
  rewrite firstn_firstn, Nat.min_id in *. simpl in *.
  rewrite Hd in *. destruct (Z.eqb_spec len 0); [lia|]. destruct Hspec as (? & ? & ? & ? & _). eauto 6.
Qed.

(** What is stored for a run of missing blocks: the state before the eviction. *)
Definition stored (c c2 : Cached) (i j : Z) : Prop :=
  same_config c c2 /\ order c2 = order c ++ seqZ i (j - i + 1) /\
  (forall x, blocks c2 !! x = if bool_decide (i <= x <= j) then Some (fileBlock x) else blocks c !! x) /\
  nread c <= nread c2 <= nread c + (j - i + 1) * blockSize.

Lemma fetchLoop_step fuel (c : Cached) i last :
  within c -> holds c -> 0 <= i <= last -> last * blockSize < slen f -> blocks c !! i = None ->
  (exists j, i <= j <= last /\ budget c < nread c + (j - i + 1) * blockSize /\
     (forall x, i <= x <= j -> blocks c !! x = None) /\
     fetchLoop (S fuel) c i last = (c, Some ErrBudgetExceeded)) \/
  (exists c2 j, i <= j <= last /\ stored c c2 i j /\ nread c2 <= budget c /\
     (forall x, i <= x <= j -> blocks c !! x = None) /\
     fetchLoop (S fuel) c i last = fetchLoop fuel (evict c2) (j + 1) last).
Proof.
  intros Hw Hh Hi Hlast Hnone. cbn [fetchLoop].
  destruct (Z.leb_spec i last); [|lia]. rewrite Hnone. cbv zeta.
  destruct (runEnd_spec (Z.to_nat (last - i)) c i last ltac:(lia)) as [Hj Hmiss].
  set (j := runEnd (Z.to_nat (last - i)) c i last) in *. rewrite (holds_size c Hh).
  set (len := Z.min ((j - i + 1) * blockSize) (slen f - i * blockSize)).
  assert (Hlen : 0 < len <= (j - i + 1) * blockSize /\ i * blockSize + len <= slen f /\ len <= 2 ^ 62).
  { subst len. unfold blockSize in *. lia. }
  destruct (Z.leb_spec len 0); [lia|].
  rewrite i64_id by (unfold within, i64_ok in *; lia).
  assert (Hmiss' : forall x, i <= x <= j -> blocks c !! x = None).
  { intros x Hx. destruct (decide (x = i)) as [->|]; [done|]. apply Hmiss. lia. }
  destruct (Z.ltb_spec (budget c) (nread c + len)) as [|Hbud];
    [left; exists j; split; [lia|]; split; [lia|done]|].
  right. destruct (request_exact c (i * blockSize) len) as (c1 & Hreq & (E1 & E2 & E3) & E4 & E5 & E6);
    [unfold blockSize; lia|lia|lia|].
  rewrite Hreq. set (buf := take (Z.to_nat len) (drop (Z.to_nat (i * blockSize)) f)).
  assert (Hbl : slen buf = len).
  { subst buf. rewrite slen_take, slen_drop. unfold blockSize in *. lia. }
  set (c2 := storeBlocks _ (addRead c1 (slen buf)) _ buf 0).
  destruct (storeBlocks_config (S (S (Z.to_nat (Z.quot (slen buf) blockSize)))) (addRead c1 (slen buf))
    (i * blockSize) buf 0) as ((F1 & F2 & F3) & F4 & F5). fold c2 in F1, F2, F3, F4, F5.
  cbn [addRead csize budget maxBlocks nread rr] in *.
  assert (Hq : (Z.to_nat (j - i + 1) < S (S (Z.to_nat (Z.quot (slen buf) blockSize))))%nat).
  { assert (j - i <= Z.quot (slen buf) blockSize); [|lia].
    rewrite Z.quot_div_nonneg by (unfold blockSize; lia). apply Z.div_le_lower_bound; [unfold blockSize; lia|].
    rewrite Hbl. subst len. unfold blockSize in *. lia. }
  destruct (storeBlocks_spec (S (S (Z.to_nat (Z.quot (slen buf) blockSize)))) (addRead c1 (slen buf))
    i buf 0 (Z.to_nat (j - i + 1))) as [Ho Hx]; [lia|lia| |done|].
  { unfold buf_of. rewrite Z2Nat.id by lia. rewrite Hbl. split; [done|].
    replace (Z.to_nat (j - i + 1)) with (S (Z.to_nat (j - i))) by lia.
    subst len. unfold blockSize in *. lia. }
  change (0 * blockSize) with 0 in Ho, Hx. fold c2 in Ho, Hx. rewrite Z2Nat.id in Ho, Hx by lia.
  rewrite Z.add_0_r in Ho. cbn [addRead order blocks] in Ho, Hx.
  rewrite E4, Hbl, i64_id in F4 by (unfold within, i64_ok in *; lia).
  exists c2, j. split; [lia|]. split; [|split; [lia|done]].
  split; [|split; [|split; [|lia]]].
  - unfold same_config. rewrite F1, F2, F3. done.
  - by rewrite Ho, E5.
  - intros x. rewrite Hx, E6. rewrite (bool_decide_ext (i + 0 <= x < i + 0 + (j - i + 1)) (i <= x <= j)); [done|lia].
Qed.

Lemma stored_holds (c c2 : Cached) i j :
  holds c -> 0 <= i <= j -> j * blockSize < slen f -> (forall x, i <= x <= j -> blocks c !! x = None) ->
  stored c c2 i j -> holds c2.
Proof.
  intros Hh Hi Hj Hnone ((Es & _ & _) & Ho & Hx & _). constructor.
  - rewrite Es. by apply holds_size.
  - rewrite Ho. apply NoDup_app. split; [by apply holds_nodup|]. split; [|apply NoDup_seqZ].
    intros x Hin%(holds_dom c Hh) Hs%elem_of_seqZ. rewrite Hnone in Hin by lia. by destruct Hin.
  - intros x. rewrite Ho, elem_of_app, elem_of_seqZ, Hx, (holds_dom c Hh). case_bool_decide as E.
    + split; [by eauto|]. intros _. right. lia.
    + split; [intros [?|?]; [done|lia]|by left].
  - intros x b. rewrite Hx. case_bool_decide as E.
    + intros [= <-]. split; [lia|]. split; [unfold blockSize in *; lia|done].
    + apply (holds_block c Hh).
Qed.

Lemma evict_holds (c : Cached) : holds c -> holds (evict c).
Proof.
  intros Hh. destruct (evict_spec c) as (d & Hd & _ & _ & Hx & (Es & _ & _) & _).
  pose proof (holds_nodup c Hh) as Hn. rewrite Hd in Hn. apply NoDup_app in Hn as (_ & Hdis & Hn).
  constructor.
  - rewrite Es. by apply holds_size.
  - done.
  - intros i. rewrite Hx. case_bool_decide as E.
    + split; [intros Hin; by destruct (Hdis i E)|by intros []].
    + rewrite <- (holds_dom c Hh), Hd, elem_of_app. naive_solver.
  - intros i b. rewrite Hx. case_bool_decide; [done|]. apply (holds_block c Hh).
Qed.

Lemma stored_within (c c2 : Cached) i j :
  within c -> stored c c2 i j -> nread c2 <= budget c -> within (evict c2).
Proof.
  intros Hw ((E1 & E2 & E3) & _ & _ & Hn) Hb.
  destruct (evict_spec c2) as (d & _ & Hl & _ & _ & (G1 & G2 & G3) & G4 & _).
  unfold within in *. rewrite G1, G2, G3, G4, E1, E2, E3. rewrite E3 in Hl. lia.
Qed.

(** fetch keeps the blocks true to the file, whatever it answers. *)
Lemma fetchLoop_holds fuel (c : Cached) i last :
  within c -> holds c -> 0 <= i -> last * blockSize < slen f -> holds (fetchLoop fuel c i last).1.
Proof.
  revert c i. induction fuel as [|fuel IH]; intros c i Hw Hh Hi Hlast; [done|].
  destruct (Z.le_gt_cases i last).
  - destruct (blocks c !! i) as [b|] eqn:E.
    + cbn [fetchLoop]. destruct (Z.leb_spec i last); [|lia]. rewrite E. apply IH; [done|done|lia|done].
    + destruct (fetchLoop_step fuel c i last Hw Hh ltac:(lia) Hlast E)
        as [(j & Hj & _ & _ & ->)|(c2 & j & Hj & Hst & Hb & Hnone & ->)]; [done|].
      apply IH; [by eapply stored_within| |lia|done].
      apply evict_holds. eapply (stored_holds c c2 i j); [done|lia| |done|done]. unfold blockSize in *. lia.
  - cbn [fetchLoop]. destruct (Z.leb_spec i last); [lia|done].
Qed.

(** The file fits into the cache, so nothing is ever evicted, no block is read
    twice and the budget is never reached. *)
Definition small (c : Cached) : Prop :=
  within c /\ holds c /\ slen f <= Z.of_nat (maxBlocks c) * blockSize <= budget c /\
  nread c <= Z.of_nat (length (order c)) * blockSize.

Lemma order_bound (l : list Z) (n : nat) :
  NoDup l -> (forall x, x ∈ l -> 0 <= x < Z.of_nat n) -> (length l <= n)%nat.
Proof.
  intros Hn Hl. assert (Hs : l ⊆+ seqZ 0 (Z.of_nat n)).
  { apply NoDup_submseteq; [done|]. intros x Hx%Hl. apply elem_of_seqZ. lia. }
  apply submseteq_length in Hs. rewrite length_seqZ in Hs. lia.
Qed.

Lemma small_room (c : Cached) i j :
  small c -> 0 <= i <= j -> j * blockSize < slen f -> (forall x, i <= x <= j -> blocks c !! x = None) ->
  Z.of_nat (length (order c)) + (j - i + 1) <= Z.of_nat (maxBlocks c).
Proof.
  intros (Hw & Hh & Hs & _) Hi Hj Hnone.
  assert (Hb : (length (order c ++ seqZ i (j - i + 1)) <= maxBlocks c)%nat).
  { apply order_bound.
    - apply NoDup_app. split; [by apply holds_nodup|]. split; [|apply NoDup_seqZ].
      intros x Hin%(holds_dom c Hh) Hx%elem_of_seqZ. rewrite Hnone in Hin by lia. by destruct Hin.
    - intros x [Hin|Hin]%elem_of_app.
      + apply (holds_dom c Hh) in Hin as [b Hin]. apply (holds_block c Hh) in Hin.
        unfold blockSize in *. lia.
      + apply elem_of_seqZ in Hin. unfold blockSize in *. lia. }
  rewrite length_app, length_seqZ in Hb. lia.
Qed.

Lemma fetchLoop_small fuel (c : Cached) i last :
  small c -> 0 <= i -> last * blockSize < slen f -> last - i + 1 < Z.of_nat fuel ->
  exists c', fetchLoop fuel c i last = (c', None) /\ small c' /\ blocks c ⊆ blocks c' /\
    forall x, i <= x <= last -> is_Some (blocks c' !! x).
Proof.
  revert c i. induction fuel as [|fuel IH]; intros c i Hsm Hi Hlast Hfuel.
  - exists c. split; [done|]. split; [done|]. split; [done|]. intros x Hx. lia.
  - destruct (Z.le_gt_cases i last) as [Hle|Hgt].
    + destruct (blocks c !! i) as [b|] eqn:E.
      * cbn [fetchLoop]. destruct (Z.leb_spec i last); [|lia]. rewrite E.
        destruct (IH c (i + 1) Hsm ltac:(lia) Hlast ltac:(lia)) as (c' & -> & Hsm' & Hsub & Hall).
        exists c'. split; [done|]. split; [done|]. split; [done|]. intros x Hx.
        destruct (decide (x = i)) as [->|]; [|apply Hall; lia]. exists b. by eapply lookup_weaken.
      * pose proof Hsm as (Hw & Hh & Hs & Hn).
        destruct (fetchLoop_step fuel c i last Hw Hh ltac:(lia) Hlast E)
          as [(j & Hj & Hb & Hnone & _)|(c2 & j & Hj & Hst & Hb & Hnone & ->)].
        { pose proof (small_room c i j Hsm ltac:(lia) ltac:(unfold blockSize in *; lia) Hnone).
          unfold blockSize in *. lia. }
        pose proof (small_room c i j Hsm ltac:(lia) ltac:(unfold blockSize in *; lia) Hnone) as Hroom.
        assert (Hh2 : holds c2)
          by (eapply (stored_holds c c2 i j); [done|lia|unfold blockSize in *; lia|done|done]).
        pose proof (stored_within c c2 i j Hw Hst Hb) as Hw'.
        pose proof (evict_holds c2 Hh2) as Hh'.
        destruct Hst as ((E1 & E2 & E3) & Ho & Hx & Hnr).
        destruct (evict_spec c2) as (d & Hd & _ & Hz & Hbl & (G1 & G2 & G3) & G4 & _).
        assert (Hlen2 : Z.of_nat (length (order c2)) = Z.of_nat (length (order c)) + (j - i + 1)).
        { rewrite Ho, length_app, length_seqZ. lia. }
        rewrite (Hz ltac:(rewrite E3; lia)) in Hd. simpl in Hd.
        assert (Hbl' : forall x, blocks (evict c2) !! x =
          if bool_decide (i <= x <= j) then Some (fileBlock x) else blocks c !! x).
        { intros x. rewrite Hbl, (Hz ltac:(rewrite E3; lia)). by rewrite Hx. }
        assert (Hsm' : small (evict c2)).
        { split; [done|]. split; [done|]. rewrite G2, G3, G4, E2, E3, <- Hd, Hlen2.
          unfold blockSize in *. lia. }
        destruct (IH (evict c2) (j + 1) Hsm' ltac:(lia) Hlast ltac:(lia)) as (c' & -> & Hs' & Hsub & Hall).
        exists c'. split; [done|]. split; [done|]. split.
        { etrans; [|exact Hsub]. apply map_subseteq_spec. intros x b Hxb. rewrite Hbl'.
          case_bool_decide; [|done]. by rewrite Hnone in Hxb. }
        intros x Hx'. destruct (Z.le_gt_cases x j); [|apply Hall; lia].
        exists (fileBlock x). eapply lookup_weaken; [|exact Hsub]. rewrite Hbl'.
        rewrite bool_decide_eq_true_2 by lia. done.
    + exists c. cbn [fetchLoop]. destruct (Z.leb_spec i last); [lia|].
      split; [done|]. split; [done|]. split; [done|]. intros x Hx. lia.
Qed.

(** ** The copy out of the blocks *)
Lemma block_prefix pos a :
  0 <= pos ->
  take a (drop (Z.to_nat (Z.rem pos blockSize)) (fileBlock (Z.quot pos blockSize)))
    `prefix_of` drop (Z.to_nat pos) f.
Proof.
  intros Hpos. unfold fileBlock.
  rewrite Z.quot_div_nonneg, Z.rem_mod_nonneg by (unfold blockSize; lia).
  pose proof (Z.div_mod pos blockSize ltac:(unfold blockSize; lia)) as Hdm.
  pose proof (Z.mod_pos_bound pos blockSize ltac:(unfold blockSize; lia)) as Hmod.
  assert (0 <= pos / blockSize) by (apply Z.div_pos; unfold blockSize; lia).
  rewrite skipn_firstn_comm, drop_drop, take_take.
  replace (Z.to_nat (pos / blockSize * blockSize) + Z.to_nat (pos mod blockSize))%nat with (Z.to_nat pos)
    by (unfold blockSize in *; lia).
  eexists. symmetry. apply take_drop.
Qed.

Lemma prefix_app_drop (p q d : gostr) :
  p `prefix_of` d -> q `prefix_of` drop (length p) d -> p ++ q `prefix_of` d.
Proof. intros [t ->] [u Hu]. rewrite drop_app_length in Hu. exists u. by rewrite Hu, app_assoc. Qed.

Lemma copyLoop_prefix fuel (c : Cached) off end_ p :
  holds c -> 0 <= off -> p `prefix_of` drop (Z.to_nat off) f ->
  (copyLoop fuel c off end_ p).1 `prefix_of` drop (Z.to_nat off) f.
Proof.
  intros Hh Ho. revert p. induction fuel as [|fuel IH]; intros p Hp; cbn [copyLoop]; [done|].
  destruct (slen p <? end_ - off); [|done]. cbv zeta.
  destruct (blocks c !! _) as [b|] eqn:Eb; [|done].
  destruct (slen b <=? Z.rem (off + slen p) blockSize); [done|]. apply IH, prefix_app_drop; [done|].
  apply (holds_block c Hh) in Eb as (_ & _ & ->). rewrite drop_drop.
  replace (Z.to_nat off + length p)%nat with (Z.to_nat (off + slen p)) by (unfold slen; lia).
  apply block_prefix. unfold slen. lia.
Qed.

Lemma fileBlock_slen i :
  0 <= i -> slen (fileBlock i) = Z.min blockSize (Z.max 0 (slen f - i * blockSize)).
Proof. intros Hi. unfold fileBlock. rewrite slen_take, slen_drop. unfold blockSize. lia. Qed.

Lemma copyLoop_full fuel (c : Cached) off end_ p :
  holds c -> 0 <= off -> end_ <= slen f ->
  (forall x, Z.quot off blockSize <= x <= Z.quot (end_ - 1) blockSize -> is_Some (blocks c !! x)) ->
  slen p <= end_ - off -> end_ - off - slen p < Z.of_nat fuel ->
  (copyLoop fuel c off end_ p).2 = None.
Proof.
  intros Hh Ho He Hall. revert p.
  induction fuel as [|fuel IH]; intros p Hp Hf; cbn [copyLoop]; [lia|].
  destruct (Z.ltb_spec (slen p) (end_ - off)); [|done]. cbv zeta. pose proof (slen_nonneg p).
  set (pos := off + slen p). assert (Hpos : 0 <= pos < end_) by lia.
  assert (Hk : 0 <= Z.quot pos blockSize) by (apply Z.quot_pos; unfold blockSize; lia).
  destruct (Hall (Z.quot pos blockSize)) as [b Hb].
  { split; apply Z.quot_le_mono; unfold blockSize; lia. }
  rewrite Hb. apply (holds_block c Hh) in Hb as (_ & _ & ->).
  assert (Hin : 0 <= Z.rem pos blockSize < slen (fileBlock (Z.quot pos blockSize))).
  { rewrite fileBlock_slen by done.
    pose proof (Z.quot_rem pos blockSize ltac:(unfold blockSize; lia)).
    pose proof (Z.rem_bound_pos pos blockSize ltac:(lia) ltac:(unfold blockSize; lia)).
    unfold blockSize in *. lia. }
  destruct (Z.leb_spec (slen (fileBlock (Z.quot pos blockSize))) (Z.rem pos blockSize)); [lia|].
  revert Hin. generalize (Z.rem pos blockSize). intros inb Hin.
  apply IH; rewrite slen_app, slen_take, slen_drop; lia.
Qed.

(** ReadAt answers with bytes of the file, and stays true to it. *)
Lemma cachedReadAt_sound (c : Cached) len off :
  within c -> holds c -> ok_request len off ->
  holds (ReadAt c len off).1 /\ (ReadAt c len off).2.1 `prefix_of` drop (Z.to_nat off) f.
Proof.
  intros Hw Hh [Hlen Hoff]. unfold ReadAt, cached_ReaderAt, cachedReadAt.
  assert (Hnil : [] `prefix_of` drop (Z.to_nat off) f) by apply prefix_nil.
  destruct (Z.ltb_spec off 0); [lia|]. rewrite (holds_size c Hh). destruct (Z.leb_spec (slen f) off); [done|].
  cbv zeta. unfold maxRead in *.
  rewrite (i64_id (off + len)) by (unfold within, i64_ok in *; lia).
  set (end_ := Z.min (off + len) (slen f)). unfold fetch.
  assert (Hl : Z.quot (end_ - 1) blockSize * blockSize < slen f).
  { rewrite Z.quot_div_nonneg by (unfold blockSize; lia).
    pose proof (Z.div_mod (end_ - 1) blockSize ltac:(unfold blockSize; lia)).
    pose proof (Z.mod_pos_bound (end_ - 1) blockSize ltac:(unfold blockSize; lia)).
    unfold blockSize in *. lia. }
  pose proof (fetchLoop_holds (S (Z.to_nat (Z.quot (end_ - 1) blockSize - Z.quot off blockSize + 1))) c
    (Z.quot off blockSize) (Z.quot (end_ - 1) blockSize) Hw Hh
    ltac:(apply Z.quot_pos; unfold blockSize; lia) Hl) as Hh'.
  destruct (fetchLoop _ c _ _) as [c1 [e1|]]; [done|]. simpl in Hh'.
  pose proof (copyLoop_prefix (S (Z.to_nat (end_ - off))) c1 off end_ [] Hh' Hoff Hnil) as Hp.
  destruct (copyLoop _ c1 off end_ []) as [p [e|]]; [done|].
  by destruct ((csize c1 <=? off + slen p) && (slen p <? len)).
Qed.

(** On a file that fits into the cache it reads like the file itself. *)
Lemma cachedReadAt_small (c : Cached) len off :
  small c -> ok_request len off ->
  exists c', ReadAt c len off = (c', bytesReadAt f len off) /\ small c'.
Proof.
  intros Hsm [Hlen Hoff]. pose proof Hsm as (Hw & Hh & _ & _).
  unfold ReadAt, cached_ReaderAt, cachedReadAt, bytesReadAt.
  destruct (Z.ltb_spec off 0); [lia|]. rewrite (holds_size c Hh). destruct (Z.leb_spec (slen f) off).
  { exists c. split; [|done]. rewrite drop_ge by (unfold slen in *; lia). rewrite take_nil.
    change (slen []) with 0. by destruct (Z.ltb_spec 0 len); [|lia]. }
  cbv zeta. unfold maxRead in *.
  rewrite (i64_id (off + len)) by (unfold within, i64_ok in *; lia).
  set (end_ := Z.min (off + len) (slen f)). unfold fetch.
  assert (Hl : Z.quot (end_ - 1) blockSize * blockSize < slen f).
  { rewrite Z.quot_div_nonneg by (unfold blockSize; lia).
    pose proof (Z.div_mod (end_ - 1) blockSize ltac:(unfold blockSize; lia)).
    pose proof (Z.mod_pos_bound (end_ - 1) blockSize ltac:(unfold blockSize; lia)).
    unfold blockSize in *. lia. }
  destruct (fetchLoop_small (S (Z.to_nat (Z.quot (end_ - 1) blockSize - Z.quot off blockSize + 1))) c
    (Z.quot off blockSize) (Z.quot (end_ - 1) blockSize) Hsm
    ltac:(apply Z.quot_pos; unfold blockSize; lia) Hl ltac:(lia)) as (c1 & -> & Hsm1 & _ & Hall).
  pose proof Hsm1 as (_ & Hh1 & _ & _).
  remember (S (Z.to_nat (end_ - off))) as fuel eqn:Hfuel.
  destruct (copyLoop_spec fuel c1 off end_ [] ltac:(change (slen []) with 0; lia)
    ltac:(change (slen []) with 0; lia) Hoff) as [_ Hfull].
  pose proof (copyLoop_full fuel c1 off end_ [] Hh1 Hoff ltac:(lia) Hall ltac:(change (slen []) with 0; lia)
    ltac:(change (slen []) with 0; lia)) as Hnone.
  pose proof (copyLoop_prefix fuel c1 off end_ [] Hh1 Hoff ltac:(apply prefix_nil)) as [t Ht].
  destruct (copyLoop fuel c1 off end_ []) as [p e]. simpl in *. subst e. specialize (Hfull eq_refl).
  assert (Hp : take (Z.to_nat len) (drop (Z.to_nat off) f) = p).
  { assert (Hdl : slen (drop (Z.to_nat off) f) = slen p + slen t) by (rewrite Ht; apply slen_app).
    rewrite slen_drop in Hdl. rewrite Ht. destruct (Z.le_gt_cases len (slen p)).
    - rewrite take_app_le by (unfold slen in *; lia). apply take_ge. unfold slen in *. lia.
    - assert (t = []) as -> by (destruct t; [done|unfold slen in *; simpl in *; lia]).
      rewrite app_nil_r. apply take_ge. unfold slen in *. lia. }
  rewrite Hp, (holds_size c1 Hh1). exists c1. split; [|done].
  destruct (Z.ltb_spec (slen p) len); [|by rewrite andb_false_r].
  destruct (Z.leb_spec (slen f) (off + slen p)); [done|lia].
Qed.

Lemma new_holds (m : M) : holds (NewCachedReaderAt m (slen f)).
Proof.
  constructor; simpl; [done|constructor| |done].
  intros i. rewrite lookup_empty. split; [intros Hi; by apply elem_of_nil in Hi|by intros []].
Qed.

Lemma new_small (m : M) : slen f <= 64 * blockSize -> small (NewCachedReaderAt m (slen f)).
Proof.
  intros Hf. split; [apply new_within; split; [apply slen_nonneg|done]|]. split; [apply new_holds|].
  unfold NewCachedReaderAt, MaxParseBytes, blockSize in *.
  cbn [maxBlocks budget nread order]. simpl. lia.
Qed.

(** With a remote side that serves the file, a read of the cache never shows
    wrong bytes, in every state the cache can reach. *)
Theorem cachedReadAt_true (c : Cached) len off :
  within c -> holds c -> ok_request len off ->
  exists c' p e, ReadAt c len off = (c', (p, e)) /\ within c' /\ holds c' /\
    p = take (length p) (drop (Z.to_nat off) f) /\ slen p <= len /\ (e = None -> slen p = len).
Proof.
  intros Hw Hh Hreq. destruct (cachedReadAt_contract c len off Hw Hreq) as (Hw' & _ & Hlen & Hnone).
  destruct (cachedReadAt_sound c len off Hw Hh Hreq) as [Hh' [t Ht]].
  destruct (ReadAt c len off) as [c' [p e]]. simpl in *. exists c', p, e.
  split; [done|]. split; [done|]. split; [done|]. split; [|done]. by rewrite Ht, take_app_length.
Qed.

(** On a file of at most 64 blocks (8 MiB) Locate finds what FindPreviews finds
    on the file itself, and transfers each block at most once. *)
Theorem locate_exact (m : M) ext :
  slen f <= 64 * blockSize ->
  exists ans bytes reqs, Locate m (slen f) ext = Done (ans, bytes, reqs) /\
    run (FindPreviews (slen f) ext) f = Done (f, ans) /\ 0 <= bytes <= 64 * blockSize.
Proof.
  intros Hf. pose proof (slen_nonneg f).
  destruct (run_sim (fun c r => small c /\ maxBlocks c = 64%nat /\ r = f) contract (FindPreviews (slen f) ext)
    (NewCachedReaderAt m (slen f)) f
    (fun r => match r with Ok l => previews_ok (slen f) l | Err _ => True end))
    as (c & r & ans & Hrun & Hrun' & Hsm & Hm & ->).
  - intros c r len off (Hc & Hm & ->) Hreq.
    destruct (cachedReadAt_small c len off Hc Hreq) as (c' & Hread & Hsm).
    destruct (cachedReadAt_contract c len off (proj1 Hc) Hreq) as (_ & (_ & _ & Hmb) & Hcon).
    rewrite Hread in *. simpl in *. split; [|done]. split; [done|]. by rewrite Hmb.
  - split; [by apply new_small|done].
  - apply FindPreviews_wp. lia.
  - exists ans, (nread c), (requests c). unfold Locate. rewrite Hrun. split; [done|]. split; [done|].
    destruct Hsm as (Hw & _ & _ & Hn). unfold within in Hw. rewrite Hm in Hw. unfold blockSize in *. lia.
Qed.

(** ** A block that the read needs may be evicted *)
Definition reads (c : Cached) (l : list (Z * Z)) : Cached :=
  foldl (fun c '(len, off) => (ReadAt c len off).1) c l.

Definition cached_seq (l : list Z) (c : Cached) : Prop :=
  within c /\ holds c /\ order c = l /\ nread c <= Z.of_nat (length l) * blockSize /\
  budget c = MaxParseBytes /\ maxBlocks c = 64%nat.

Lemma fetch_one fuel l (c : Cached) k :
  cached_seq l c -> (length l <= 64)%nat -> k ∉ l -> 0 <= k -> k * blockSize < slen f ->
  exists c2, fetchLoop (S (S fuel)) c k k = (evict c2, None) /\ stored c c2 k k /\ holds c2 /\
    nread c2 <= budget c.
Proof.
  intros (Hw & Hh & Ho & Hn & Hb & Hm) Hl Hk Hk0 Hkf.
  assert (Hnone : blocks c !! k = None).
  { apply eq_None_not_Some. intros Hs. apply (holds_dom c Hh) in Hs. by rewrite Ho in Hs. }
  destruct (fetchLoop_step (S fuel) c k k Hw Hh ltac:(lia) Hkf Hnone)
    as [(j & Hj & Hbud & _)|(c2 & j & Hj & Hst & Hb2 & Hmiss & Heq)].
  { rewrite Hb in Hbud. unfold MaxParseBytes, blockSize in *. lia. }
  replace j with k in * by lia. exists c2. rewrite Heq. cbn [fetchLoop].
  destruct (Z.leb_spec (k + 1) k); [lia|]. split; [done|]. split; [done|]. split; [|done].
  eapply (stored_holds c c2 k k); [done|lia|done|done|done].
Qed.

Lemma fetchLoop_hit fuel (c : Cached) i last :
  i <= last -> is_Some (blocks c !! i) -> fetchLoop (S fuel) c i last = fetchLoop fuel c (i + 1) last.
Proof. intros Hi [b Hb]. cbn [fetchLoop]. destruct (Z.leb_spec i last); [by rewrite Hb|lia]. Qed.

Lemma read_one l (c : Cached) k :
  cached_seq l c -> (length l < 64)%nat -> k ∉ l -> 0 <= k -> k * blockSize < slen f ->
  cached_seq (l ++ [k]) (ReadAt c 1 (k * blockSize)).1.
Proof.
  intros Hc Hl Hk Hk0 Hkf. pose proof Hc as (Hw & Hh & Ho & Hn & Hb & Hm).
  destruct (cachedReadAt_contract c 1 (k * blockSize) Hw) as (Hw' & _ & _);
    [unfold ok_request, maxRead, blockSize; lia|].
  destruct (fetch_one 0 l c k Hc ltac:(lia) Hk Hk0 Hkf) as (c2 & Hf & Hst & Hh2 & Hb2).
  assert (Hst' : (ReadAt c 1 (k * blockSize)).1 = evict c2).
  { unfold ReadAt, cached_ReaderAt, cachedReadAt.
    destruct (Z.ltb_spec (k * blockSize) 0); [unfold blockSize in *; lia|].
    rewrite (holds_size c Hh). destruct (Z.leb_spec (slen f) (k * blockSize)); [lia|]. cbv zeta.
    rewrite i64_id by (unfold i64_ok, blockSize in *; lia).
    rewrite Z.min_l by lia. unfold fetch.
    replace (k * blockSize + 1 - 1) with (k * blockSize) by lia.
    rewrite Z.quot_mul by (unfold blockSize; lia).
    replace (k - k + 1) with 1 by lia. change (Z.to_nat 1) with 1%nat. rewrite Hf.
    destruct (copyLoop _ _ _ _ _) as [p [e|]]; [done|].
    by destruct ((csize (evict c2) <=? k * blockSize + slen p) && (slen p <? 1)). }
  rewrite Hst' in *. destruct Hst as ((E1 & E2 & E3) & Hord & _ & Hnr).
  destruct (evict_spec c2) as (d & Hd & _ & Hz & _ & (G1 & G2 & G3) & G4 & _).
  replace (k - k + 1) with 1 in * by lia. change (seqZ k 1) with [0 + k] in Hord. rewrite Z.add_0_l in Hord.
  rewrite (Hz ltac:(rewrite Hord, E3, length_app, Ho; simpl; lia)) in Hd. simpl in Hd.
  split; [done|]. split; [by apply evict_holds|]. split; [by rewrite <- Hd, Hord, Ho|].
  rewrite G2, G3, G4, E2, E3, length_app. simpl. split; [unfold blockSize in *; lia|done].
Qed.

Lemma read_all ks l (c : Cached) :
  cached_seq l c -> NoDup (l ++ ks) -> (length (l ++ ks) <= 64)%nat ->
  (forall k, k ∈ ks -> 0 <= k /\ k * blockSize < slen f) ->
  cached_seq (l ++ ks) (reads c (map (fun k => (1, k * blockSize)) ks)).
Proof.
  revert l c. induction ks as [|k ks IH]; intros l c Hc Hn Hl Hks; simpl.
  - by rewrite app_nil_r.
  - rewrite (cons_middle k l ks), app_assoc in *. destruct (Hks k ltac:(left)) as [Hk0 Hkf].
    apply IH; [|done|done|intros k' Hk'; apply Hks; by right].
    apply read_one; [done| | |done|done].
    + rewrite !length_app in Hl. simpl in Hl. lia.
    + apply NoDup_app in Hn as (Hn & _ & _). apply NoDup_app in Hn as (_ & Hdis & _).
      intros Hin. apply (Hdis k Hin). by left.
Qed.

Lemma evicted_next l (c : Cached) k :
  cached_seq (k :: l) c -> length l = 63%nat -> k + 1 ∉ k :: l -> 0 <= k -> (k + 1) * blockSize + 1 <= slen f ->
  (ReadAt c 2 ((k + 1) * blockSize - 1)).2 = ([], Some ErrUnexpectedEOF).
Proof.
  intros Hc Hl Hk Hk0 Hkf. pose proof Hc as (Hw & Hh & Ho & _).
  destruct (fetch_one 0 (k :: l) c (k + 1) Hc ltac:(simpl; lia) Hk ltac:(lia) ltac:(lia))
    as (c2 & Hf & ((_ & _ & E3) & Hord & _ & _) & _ & _).
  unfold ReadAt, cached_ReaderAt, cachedReadAt. set (off := (k + 1) * blockSize - 1).
  assert (Hq : Z.quot off blockSize = k).
  { subst off. rewrite Z.quot_div_nonneg by (unfold blockSize; lia). symmetry.
    apply (Z.div_unique_pos _ _ _ (blockSize - 1)); unfold blockSize; lia. }
  destruct (Z.ltb_spec off 0); [subst off; unfold blockSize in *; lia|].
  rewrite (holds_size c Hh). destruct (Z.leb_spec (slen f) off); [subst off; lia|]. cbv zeta.
  rewrite i64_id by (subst off; unfold i64_ok, blockSize in *; lia).
  rewrite Z.min_l by (subst off; lia). unfold fetch. rewrite Hq.
  replace (off + 2 - 1) with ((k + 1) * blockSize) by (subst off; lia).
  rewrite Z.quot_mul by (unfold blockSize; lia).
  replace (k + 1 - k + 1) with 2 by lia. change (Z.to_nat 2) with 2%nat.
  rewrite fetchLoop_hit, Hf; [|lia|apply (holds_dom c Hh); rewrite Ho; by left].
  destruct (evict_spec c2) as (d & Hd & Hlen & _ & Hbl & (_ & _ & G3) & _).
  assert (Hkd : k ∈ d).
  { pose proof Hc as (_ & _ & _ & _ & _ & Hm). rewrite Hord, Ho in Hd. destruct d as [|k' d].
    - apply (f_equal length) in Hd. rewrite E3, Hm in Hlen. simpl in Hd, Hlen.
      rewrite length_app in Hd. simpl in Hd. unfold seqZ in Hd. rewrite length_fmap, length_seq in Hd. lia.
    - injection Hd as <- _. by left. }
  cbn [copyLoop]. change (slen []) with 0. rewrite Z.add_0_r, Hq, Hbl, bool_decide_eq_true_2 by done.
  by replace (off + 2 - off) with 2 by lia.
Qed.

(** Defect: fetch evicts the oldest block even if the read in progress needs it.
    After one-byte reads of block 5 and of 63 blocks from block 10 on, a
    two-byte read across the end of block 5 gives no data, although the file has
    them, the remote side serves them and the budget allows them. *)
Theorem cached_evicts_needed (m : M) :
  73 * blockSize <= slen f ->
  let c := reads (NewCachedReaderAt m (slen f)) (map (fun k => (1, k * blockSize)) (5 :: seqZ 10 63)) in
  within c /\ holds c /\ nread c <= 64 * blockSize < budget c /\
  (ReadAt c 2 (6 * blockSize - 1)).2 = ([], Some ErrUnexpectedEOF) /\
  bytesReadAt f 2 (6 * blockSize - 1) =
    (take 2 (drop (Z.to_nat (6 * blockSize - 1)) f), None).
Proof.
  intros Hf c. pose proof (slen_nonneg f).
  assert (Hn : NoDup (5 :: seqZ 10 63)) by (apply NoDup_cons; split; [rewrite elem_of_seqZ; lia|apply NoDup_seqZ]).
  assert (Hnew : cached_seq [] (NewCachedReaderAt m (slen f))).
  { split; [by apply new_within|]. split; [by apply new_holds|]. split; [done|].
    split; [unfold blockSize; simpl; lia|done]. }
  pose proof (read_all (5 :: seqZ 10 63) [] _ Hnew Hn ltac:(vm_compute; lia)) as Hc.
  specialize (Hc ltac:(intros k [->|Hk%elem_of_seqZ]%elem_of_cons; unfold blockSize in *; lia)).
  fold c in Hc. clearbody c. pose proof Hc as (Hw & Hh & Ho & Hnr & Hb & _).
  split; [done|]. split; [done|]. split; [|split].
  - rewrite Hb. change (length ([] ++ 5 :: seqZ 10 63)) with 64%nat in Hnr.
    unfold MaxParseBytes, blockSize in *. lia.
  - apply (evicted_next (seqZ 10 63) c 5 Hc); [done| |lia|unfold blockSize in *; lia].
    rewrite elem_of_cons, elem_of_seqZ. lia.
  - unfold bytesReadAt. destruct (Z.ltb_spec (6 * blockSize - 1) 0); [unfold blockSize in *; lia|]. cbv zeta.
    rewrite slen_take, slen_drop. f_equal.
    destruct (Z.ltb_spec (Z.min (Z.of_nat (Z.to_nat 2)) (Z.max 0 (slen f - Z.of_nat (Z.to_nat (6 * blockSize - 1))))) 2);
      [unfold blockSize in *; lia|done].
Qed.
End Exact.

(** ** Instances: a remote side that serves a file *)
Section Remote.
Context (f : gostr).

Instance fileRemote : RangeReader unit :=
  fun m off len => (m, Ok (take (Z.to_nat len) (drop (Z.to_nat off) f), None)).

Instance fileRemote_serves : Serves f.
Proof. intros m off len _ _ _. by exists m. Qed.
End Remote.


Lemma locate_exact_witness :
  exists ans bytes reqs,
    @Locate unit (fileRemote (repeat "I"%char 1024)) tt (slen (repeat "I"%char 1024)) "nef" = Done (ans, bytes, reqs) /\
    run (FindPreviews (slen (repeat "I"%char 1024)) "nef") (repeat "I"%char 1024) =
      Done (repeat "I"%char 1024, ans) /\ 0 <= bytes <= 64 * blockSize.
Proof.
  apply (@locate_exact unit (fileRemote (repeat "I"%char 1024)) (repeat "I"%char 1024)
    (fileRemote_serves (repeat "I"%char 1024))); vm_compute; congruence.
Defined.

Lemma cachedReadAt_true_witness :
  exists c' p e,
    @ReadAt (CachedReaderAt unit) (@cached_ReaderAt unit (fileRemote "abcdef"%string))
      (NewCachedReaderAt tt 6) 3 2 = (c', (p, e)) /\
    within c' /\ holds "abcdef"%string c' /\
    p = take (length p) (drop (Z.to_nat 2) "abcdef"%string) /\ slen p <= 3 /\ (e = None -> slen p = 3).
Proof.
  apply (@cachedReadAt_true unit (fileRemote "abcdef"%string) "abcdef"%string (fileRemote_serves "abcdef"%string)).
  - vm_compute. congruence.
  - apply new_within. lia.
  - apply (new_holds "abcdef"%string tt).
  - unfold ok_request, maxRead. lia.
Defined.

(** Nine and a half megabytes. *)
Definition bigFile : gostr := repeat "x"%char (Z.to_nat (73 * blockSize)).

Lemma bigFile_slen : slen bigFile = 73 * blockSize.
Proof. unfold bigFile, slen. rewrite repeat_length. unfold blockSize. lia. Qed.

Lemma cached_evicts_needed_witness :
  let c := @reads unit (fileRemote bigFile) (NewCachedReaderAt tt (slen bigFile))
             (map (fun k => (1, k * blockSize)) (5 :: seqZ 10 63)) in
  within c /\ holds bigFile c /\ nread c <= 64 * blockSize < budget c /\
  (@ReadAt (CachedReaderAt unit) (@cached_ReaderAt unit (fileRemote bigFile)) c 2 (6 * blockSize - 1)).2 =
    ([], Some ErrUnexpectedEOF) /\
  bytesReadAt bigFile 2 (6 * blockSize - 1) =
    (take 2 (drop (Z.to_nat (6 * blockSize - 1)) bigFile), None).
Proof.
  apply (@cached_evicts_needed unit (fileRemote bigFile) bigFile (fileRemote_serves bigFile));
    rewrite bigFile_slen; unfold blockSize; lia.
Defined.
