(* ===== verification/RawSettings.v ===== *)
(** The settings of the preview extraction: src/internal/rawpreview/rawpreview.go.
    The current settings are an immutable snapshot behind an atomic pointer; a
    setter copies it, changes the copy and swaps the pointer, and tries again
    when another setter was faster. *)
From S2P Require Import Prelude GoString RawPreview.

Record settings := mkSettings {
  enabled : bool; negotiate : bool; extensions : gset gostr;
  thumbSize : Z; maxBytes : Z; cacheBytes : Z }.

Definition DefaultExtensions : list gostr := strs
  ["3fr"; "ari"; "arw"; "bay"; "cap"; "cr2"; "cr3"; "crw"; "dcr"; "dcs";
   "dng"; "drf"; "eip"; "erf"; "fff"; "gpr"; "iiq"; "k25"; "kdc"; "mdc";
   "mef"; "mos"; "mrw"; "nef"; "nrw"; "obm"; "orf"; "ori"; "pef"; "ptx";
   "pxn"; "raf"; "raw"; "rw2"; "rwl"; "rwz"; "sr2"; "srf"; "srw"; "x3f"]%string.

Section Settings.
(** strings.ToLower *)
Context (toLower : gostr -> gostr).

Definition toSet (exts : list gostr) : gset gostr :=
  foldl (fun set e =>
    let e := toLower (trimSpace (trimPrefix e ".")) in
    if bool_decide (e = []) then set else {[e]} ∪ set) ∅ exts.

Definition initial : settings :=
  mkSettings true true (toSet DefaultExtensions) 320 (24 * 2 ^ 20) (64 * 2 ^ 20).

(** What a setter does to its copy. *)
Inductive change :=
| SetEnabled (v : bool)
| SetNegotiate (v : bool)
| SetExtensions (exts : list gostr)
| SetThumbSize (px : Z)
| SetMaxPreviewBytes (n : Z)
| SetCacheBytes (n : Z).

Definition apply (ch : change) (s : settings) : settings :=
  match ch with
  | SetEnabled v => mkSettings v (negotiate s) (extensions s) (thumbSize s) (maxBytes s) (cacheBytes s)
  | SetNegotiate v => mkSettings (enabled s) v (extensions s) (thumbSize s) (maxBytes s) (cacheBytes s)
  | SetExtensions exts =>
      let set := toSet exts in
      let set := if bool_decide (set_size set = 0)%nat then toSet DefaultExtensions else set in
      mkSettings (enabled s) (negotiate s) set (thumbSize s) (maxBytes s) (cacheBytes s)
  | SetThumbSize px =>
      let px := if px <? 32 then 32 else if 4096 <? px then 4096 else px in
      mkSettings (enabled s) (negotiate s) (extensions s) px (maxBytes s) (cacheBytes s)
  | SetMaxPreviewBytes n =>
      let n := if n <? 262144 then 262144 else n in
      mkSettings (enabled s) (negotiate s) (extensions s) (thumbSize s) n (cacheBytes s)
  | SetCacheBytes n =>
      let n := if n <? 0 then 0 else n in
      mkSettings (enabled s) (negotiate s) (extensions s) (thumbSize s) (maxBytes s) n
  end.

Definition Negotiate (s : settings) : bool := enabled s && negotiate s.

Definition IsRaw (s : settings) (name : gostr) : bool :=
  bool_decide (extOf toLower name ∈ extensions s).

Definition Handles (s : settings) (name : gostr) : bool := enabled s && IsRaw s name.

Definition Extensions (s : settings) : list gostr := elements (extensions s).

(** ** mutate, run by several goroutines

    [heap] holds every snapshot ever stored, the pointer [current] is an index
    into it; a setter has not started, holds the pointer it loaded, or is done. *)
Inductive setter :=
| Start (ch : change)
| Loaded (ch : change) (old : nat)
| Finished (ch : change).

Record world := mkWorld { heap : list settings; current : nat; setters : list setter }.

(** One step of setter [i]: the load, or the copy, the change and the
    CompareAndSwap. A failed swap goes back to the load. *)
Definition mutateStep (w : world) (i : nat) : option world :=
  match setters w !! i with
  | Some (Start ch) =>
      Some (mkWorld (heap w) (current w) (<[i := Loaded ch (current w)]> (setters w)))
  | Some (Loaded ch old) =>
      match heap w !! old with
      | None => None
      | Some s =>
          if bool_decide (current w = old) then
            Some (mkWorld (heap w ++ [apply ch s]) (length (heap w)) (<[i := Finished ch]> (setters w)))
          else Some (mkWorld (heap w) (current w) (<[i := Start ch]> (setters w)))
      end
  | _ => None
  end.

Inductive reach (w0 : world) : world -> list nat -> Prop :=
| reach_refl : reach w0 w0 []
| reach_step w tr i w' : reach w0 w tr -> mutateStep w i = Some w' -> reach w0 w' (tr ++ [i]).

Definition world0 (s : settings) (l : list change) : world := mkWorld [s] 0 (map Start l).

Definition load (w : world) : settings := default initial (heap w !! current w).

(** ** Well-formed settings *)
Record settings_ok (s : settings) : Prop := mkOk {
  ok_thumb : 32 <= thumbSize s <= 4096;
  ok_max : 262144 <= maxBytes s;
  ok_cache : 0 <= cacheBytes s;
  ok_ext : extensions s <> ∅ }.

Definition change_of (s : setter) : change :=
  match s with Start ch | Loaded ch _ | Finished ch => ch end.

Definition finished (s : setter) : bool := match s with Finished _ => true | _ => false end.

Definition weight (cur : nat) (s : setter) : nat :=
  match s with
  | Start _ => 3
  | Loaded _ old => if bool_decide (cur = old) then 2 else 4
  | Finished _ => 0
  end.

Definition pending (l : list setter) : nat := sum_list_with (fun s => if finished s then 0 else 1)%nat l.

Definition potential (w : world) : nat :=
  (sum_list_with (weight (current w)) (setters w) + 2 * pending (setters w) * pending (setters w))%nat.

Lemma apply_ok ch s :
  toSet DefaultExtensions <> ∅ -> settings_ok s -> settings_ok (apply ch s).
Proof.
  intros Hd [? ? ? ?]. destruct ch; constructor; simpl; try done.
  - case_bool_decide as E; [done|]. intros H. apply E. change (size (toSet exts) = 0%nat). by apply size_empty_iff, leibniz_equiv_iff.
  - destruct (Z.ltb_spec px 32); [lia|]. destruct (Z.ltb_spec 4096 px); lia.
  - destruct (Z.ltb_spec n 262144); lia.
  - destruct (Z.ltb_spec n 0); lia.
Qed.

Section Run.
Context (s0 : settings) (l : list change).

(** [done]: the setters that have finished, in the order of their swaps. *)
Record inv (w : world) (sigma : list nat) : Prop := mkInv {
  inv_changes : map change_of (setters w) = l;
  inv_nodup : NoDup sigma;
  inv_sigma : forall i, i ∈ sigma <-> exists ch, setters w !! i = Some (Finished ch);
  inv_current : heap w !! current w =
    Some (foldl (fun s i => match l !! i with Some ch => apply ch s | None => s end) s0 sigma);
  inv_loaded : forall i ch old, setters w !! i = Some (Loaded ch old) -> is_Some (heap w !! old) }.

Lemma inv_init : inv (world0 s0 l) [].
Proof.
  constructor; simpl.
  - rewrite map_map. by rewrite map_id.
  - constructor.
  - intros i. rewrite list_lookup_fmap. split; [by intros ?%elem_of_nil|].
    intros [ch Hc]. by destruct (l !! i).
  - done.
  - intros i ch old. rewrite list_lookup_fmap. by destruct (l !! i).
Qed.

Lemma inv_setters w sigma i x y :
  inv w sigma -> setters w !! i = Some x -> change_of y = change_of x ->
  map change_of (<[i := y]> (setters w)) = l.
Proof.
  intros Hi Hx Hc. change (change_of <$> <[i := y]> (setters w) = l). rewrite list_fmap_insert, Hc.
  rewrite list_insert_id; [apply (inv_changes _ _ Hi)|]. by rewrite list_lookup_fmap, Hx.
Qed.

Lemma inv_same w sigma i x y :
  inv w sigma -> setters w !! i = Some x -> finished x = false -> change_of y = change_of x ->
  finished y = false -> (forall ch old, y = Loaded ch old -> is_Some (heap w !! old)) ->
  inv (mkWorld (heap w) (current w) (<[i := y]> (setters w))) sigma.
Proof.
  intros Hi Hx Hfx Hc Hfy Hl. assert (Hlt : (i < length (setters w))%nat) by by eapply lookup_lt_Some.
  constructor; simpl; try apply Hi.
  - by eapply inv_setters.
  - intros j. rewrite (inv_sigma _ _ Hi). destruct (decide (i = j)) as [<-|Hne].
    + rewrite list_lookup_insert_eq, Hx by done. split; intros [ch [= ->]]; done.
    + by rewrite list_lookup_insert_ne by done.
  - intros j ch old. destruct (decide (i = j)) as [<-|Hne].
    + rewrite list_lookup_insert_eq by done. intros [= ->]. by eapply Hl.
    + rewrite list_lookup_insert_ne by done. apply (inv_loaded _ _ Hi).
Qed.

Lemma inv_change w sigma i x : inv w sigma -> setters w !! i = Some x -> l !! i = Some (change_of x).
Proof.
  intros Hi Hx. rewrite <- (inv_changes _ _ Hi). change (map change_of ?k) with (change_of <$> k).
  by rewrite list_lookup_fmap, Hx.
Qed.

Lemma inv_finish w sigma i ch s :
  inv w sigma -> setters w !! i = Some (Loaded ch (current w)) -> heap w !! current w = Some s ->
  inv (mkWorld (heap w ++ [apply ch s]) (length (heap w)) (<[i := Finished ch]> (setters w))) (sigma ++ [i]).
Proof.
  intros Hi Hx Hs. assert (Hlt : (i < length (setters w))%nat) by by eapply lookup_lt_Some.
  constructor; simpl.
  - by eapply inv_setters.
  - apply NoDup_app. split; [apply Hi|]. split; [|apply NoDup_singleton].
    intros j Hj ->%list_elem_of_singleton. apply (inv_sigma _ _ Hi) in Hj as [ch' Hj]. by rewrite Hx in Hj.
  - intros j. rewrite elem_of_app, list_elem_of_singleton, (inv_sigma _ _ Hi).
    destruct (decide (i = j)) as [<-|Hne].
    + rewrite list_lookup_insert_eq by done. split; [by eauto|by right].
    + rewrite list_lookup_insert_ne by done. split; [intros [?|?]; [done|by subst]|by left].
  - rewrite lookup_app_r, Nat.sub_diag by lia. simpl. rewrite foldl_app. simpl.
    rewrite (inv_change _ _ _ _ Hi Hx). simpl. rewrite (inv_current _ _ Hi) in Hs. by injection Hs as ->.
  - intros j ch' old. destruct (decide (i = j)) as [<-|Hne]; [by rewrite list_lookup_insert_eq by done|].
    rewrite list_lookup_insert_ne by done. intros Hj%(inv_loaded _ _ Hi).
    rewrite lookup_app_l; [done|]. by apply lookup_lt_is_Some.
Qed.

Lemma inv_step w sigma i w' :
  inv w sigma -> mutateStep w i = Some w' -> exists sigma', inv w' sigma'.
Proof.
  intros Hi Hst. unfold mutateStep in Hst. destruct (setters w !! i) as [[ch|ch old|ch]|] eqn:Hx; [| |done|done].
  - injection Hst as <-. exists sigma. eapply inv_same; [done|exact Hx|done|done|done|].
    intros ch' old [= <- <-]. rewrite (inv_current _ _ Hi). by eexists.
  - destruct (heap w !! old) as [s|] eqn:Hs; [|done]. case_bool_decide as E; injection Hst as <-.
    + subst old. exists (sigma ++ [i]). by apply inv_finish.
    + exists sigma. by eapply inv_same.
Qed.

Lemma inv_reach w tr : reach (world0 s0 l) w tr -> exists sigma, inv w sigma.
Proof.
  remember (world0 s0 l) as w0 eqn:E. induction 1 as [|w tr i w' _ IH Hst].
  - subst. exists []. apply inv_init.
  - destruct IH as [sigma Hi]. by eapply inv_step.
Qed.

(** Every step lowers the potential. *)
Lemma weight_shift cur cur' k :
  (sum_list_with (weight cur') k <= sum_list_with (weight cur) k + 2 * pending k)%nat.
Proof.
  unfold pending. induction k as [|x k IH]; simpl; [lia|].
  destruct x as [ch|ch old|ch]; simpl; repeat case_bool_decide; lia.
Qed.

Lemma pending_app a b : pending (a ++ b) = (pending a + pending b)%nat.
Proof. apply sum_list_with_app. Qed.

Lemma pending_cons x b : pending (x :: b) = ((if finished x then 0 else 1) + pending b)%nat.
Proof. done. Qed.

Lemma potential_step w i w' : mutateStep w i = Some w' -> (potential w' < potential w)%nat.
Proof.
  unfold mutateStep, potential. intros Hst.
  destruct (setters w !! i) as [x|] eqn:Hx; [|done].
  apply list_elem_of_split_length in Hx as (a & b & Hl & Hi). rewrite Hl in *.
  assert (Hins : forall y, <[i := y]> (a ++ x :: b) = a ++ y :: b).
  { intros y. by rewrite Hi, insert_app_r_alt, Nat.sub_diag by lia. }
  destruct x as [ch|ch old|ch]; [| |done].
  - injection Hst as <-. simpl. rewrite Hins, !sum_list_with_app, !pending_app, !pending_cons. simpl.
    rewrite bool_decide_eq_true_2 by done. lia.
  - destruct (heap w !! old); [|done]. case_bool_decide as E; injection Hst as <-; simpl;
      rewrite Hins, !sum_list_with_app, !pending_app, !pending_cons; simpl.
    + rewrite bool_decide_eq_true_2 by done.
      pose proof (weight_shift (current w) (length (heap w)) a).
      pose proof (weight_shift (current w) (length (heap w)) b). nia.
    + rewrite bool_decide_eq_false_2 by done. lia.
Qed.

Lemma potential_init : potential (world0 s0 l) = (3 * length l + 2 * length l * length l)%nat.
Proof.
  unfold potential. simpl.
  assert (Hw : sum_list_with (weight 0) (map Start l) = (3 * length l)%nat) by (induction l; simpl in *; lia).
  assert (Hp : pending (map Start l) = length l) by (unfold pending; induction l; simpl in *; lia).
  by rewrite Hw, Hp.
Qed.

Lemma heap_ok w tr :
  toSet DefaultExtensions <> ∅ -> settings_ok s0 -> reach (world0 s0 l) w tr -> Forall settings_ok (heap w).
Proof.
  intros Hd H0. remember (world0 s0 l) as w0 eqn:E. induction 1 as [|w tr i w' _ IH Hst]; subst.
  - simpl. by constructor.
  - unfold mutateStep in Hst.
    destruct (setters w !! i) as [[ch|ch old|ch]|]; [by injection Hst as <-| |done|done].
    destruct (heap w !! old) as [s|] eqn:Hs; [|done]. case_bool_decide; injection Hst as <-; simpl; [|done].
    apply Forall_app_2; [done|]. constructor; [|constructor]. apply apply_ok; [done|]. by eapply Forall_lookup_1.
Qed.
End Run.

(** C40: on every interleaving of setters the snapshots that readers can see are
    well formed: sizes clamped to their range, the list of extensions never
    empty. *)
Theorem settings_well_formed s0 l w tr :
  toSet DefaultExtensions <> ∅ -> settings_ok s0 -> reach (world0 s0 l) w tr ->
  settings_ok (load w) /\ Forall settings_ok (heap w).
Proof.
  intros Hd H0 Hr. pose proof (heap_ok s0 l w tr Hd H0 Hr) as Hok. split; [|done].
  destruct (inv_reach s0 l w tr Hr) as [sigma Hi]. unfold load. rewrite (inv_current _ _ _ _ Hi). simpl.
  eapply Forall_lookup_1; [exact Hok|apply (inv_current _ _ _ _ Hi)].
Qed.

(** No change is lost: the current settings are the changes of the finished
    setters, each one once, applied one after the other. And a run of [n]
    setters ends: it has at most 3n + 2n^2 steps. *)
Theorem mutate_atomic s0 l w tr :
  reach (world0 s0 l) w tr ->
  (exists sigma, NoDup sigma /\
    (forall i, i ∈ sigma <-> exists ch, setters w !! i = Some (Finished ch)) /\
    load w = foldl (fun s i => match l !! i with Some ch => apply ch s | None => s end) s0 sigma) /\
  (length tr <= 3 * length l + 2 * length l * length l)%nat.
Proof.
  intros Hr. split.
  - destruct (inv_reach s0 l w tr Hr) as [sigma Hi]. exists sigma.
    split; [apply Hi|]. split; [apply Hi|]. unfold load. by rewrite (inv_current _ _ _ _ Hi).
  - rewrite <- (potential_init s0 l). enough (length tr + potential w <= potential (world0 s0 l))%nat by lia.
    remember (world0 s0 l) as w0 eqn:E. clear E. induction Hr as [|w tr i w' _ IH Hst]; simpl; [lia|].
    apply potential_step in Hst. rewrite length_app. simpl. lia.
Qed.
End Settings.

(** A run of given setters. *)
Definition runSetters (toLower : gostr -> gostr) (w : world) (tr : list nat) : option world :=
  foldl (fun w i => w ≫= fun w => mutateStep toLower w i) (Some w) tr.

Lemma runSetters_reach toLower w tr w' : runSetters toLower w tr = Some w' -> reach toLower w w' tr.
Proof.
  revert w'. induction tr as [|i tr IH] using rev_ind; intros w'.
  - intros [= <-]. constructor.
  - unfold runSetters. rewrite foldl_app. simpl. intros (w1 & Hw & Hst)%bind_Some.
    by econstructor; [apply IH|].
Qed.

(** Two setters; the second one loads before the first one swaps, fails and
    tries again. *)
Definition overtaken : list change := [SetThumbSize 5; SetCacheBytes (-1)].
Definition noLower (s : gostr) : gostr := s.

Lemma default_nonempty : toSet noLower DefaultExtensions <> ∅.
Proof.
  assert (H : bool_decide (list_ascii_of_string "raf" ∈ toSet noLower DefaultExtensions) = true)
    by (vm_compute; reflexivity).
  apply bool_decide_eq_true in H. intros E. rewrite E in H. by apply not_elem_of_empty in H.
Qed.

Definition sample : settings := mkSettings true true {[list_ascii_of_string "raf"]} 320 25165824 67108864.

Lemma sample_ok : settings_ok sample.
Proof. constructor; cbn [sample thumbSize maxBytes cacheBytes extensions]; [lia|lia|lia|set_solver]. Qed.

Lemma settings_well_formed_witness :
  exists w, settings_ok (load noLower w) /\ Forall settings_ok (heap w) /\
    thumbSize (load noLower w) = 32 /\ cacheBytes (load noLower w) = 0.
Proof.
  assert (Hr : exists w, runSetters noLower (world0 sample overtaken) [0; 1; 0; 1; 1; 1]%nat = Some w /\
    thumbSize (load noLower w) = 32 /\ cacheBytes (load noLower w) = 0)
    by (eexists; split; [vm_compute; reflexivity|split; vm_compute; reflexivity]).
  destruct Hr as (w & Hr & Ht & Hc). exists w. apply runSetters_reach in Hr.
  destruct (settings_well_formed noLower sample overtaken w [0; 1; 0; 1; 1; 1]%nat
    default_nonempty sample_ok Hr) as [H1 H2].
  done.
Defined.

Lemma mutate_atomic_witness :
  exists w, (exists sigma, NoDup sigma /\
      (forall i, i ∈ sigma <-> exists ch, setters w !! i = Some (Finished ch)) /\
      load noLower w = foldl (fun s i => match overtaken !! i with Some ch => apply noLower ch s | None => s end)
                         sample sigma) /\
    setters w = map Finished overtaken.
Proof.
  assert (Hr : exists w, runSetters noLower (world0 sample overtaken) [0; 1; 0; 1; 1; 1]%nat = Some w /\
    setters w = map Finished overtaken)
    by (eexists; split; vm_compute; reflexivity).
  destruct Hr as (w & Hr & Hs). exists w. apply runSetters_reach in Hr.
  split; [|done]. exact (proj1 (mutate_atomic noLower sample overtaken w _ Hr)).
Defined.
