(* ===== verification/S3List.v ===== *)
(** The object listing of the S3 server: src/server/s3/list.go with
    ListBucket (backend.go), prefixParser, getDirEntries and getBucketByName
    (utils.go). The directory tree is walked in the order of the flat keyspace
    and cut into pages; the reference is the flat keyspace itself ([objects],
    [specItems]), which knows nothing of directories or pages.

    The list type of the gofakes3 library is the class [ObjectList]; fs.Get and
    fs.List are the parameters [fsGet] and [fsList]; [ctxErr] is what ctx.Err
    answers at each point where the code asks. *)
From stdpp Require Import sorting.
From S2P Require Import Prelude GoString GoOrder GoPath.

(** ** Data *)
Record Obj := mkObj { oName : gostr; oDir : bool; oSize : Z; oTime : Z }.

Record Content := mkContent {
  Key : gostr; LastModified : Z; ETag : gostr; Size : Z; StorageClass : gostr
}.

#[export] Instance Content_eq : EqDecision Content.
Proof. solve_decision. Defined.

Record ListBucketPage := mkListPage { pMarker : gostr; HasMarker : bool; pMaxKeys : Z }.

Record Prefix := mkPrefix {
  HasPrefix : bool; PrefixStr : gostr; HasDelimiter : bool; Delimiter : gostr
}.

Record Bucket := mkBucket { bName : gostr; bPath : gostr }.

Inductive s3err := ErrNoSuchKey | BucketNotFound (name : gostr) | OtherErr (n : nat).

#[export] Instance s3err_eq : EqDecision s3err.
Proof. solve_decision. Defined.

(** gofakes3.ObjectList: its methods, and its fields [Contents] and
    [CommonPrefixes]. *)
Class ObjectList (L : Type) := {
  NewObjectList : L;
  Add : L -> Content -> L;
  AddPrefix : L -> gostr -> L;
  Contents : L -> list Content;
  CommonPrefixes : L -> list gostr
}.

Class ObjectListLaws L `{ObjectList L} := {
  new_contents : Contents NewObjectList = [];
  new_prefixes : CommonPrefixes NewObjectList = [];
  add_contents l c : Contents (Add l c) = Contents l ++ [c];
  add_prefixes l c : CommonPrefixes (Add l c) = CommonPrefixes l;
  addPrefix_contents l p : Contents (AddPrefix l p) = Contents l;
  addPrefix_fresh l p :
    p ∉ CommonPrefixes l -> CommonPrefixes (AddPrefix l p) = CommonPrefixes l ++ [p]
}.

(** Where the code asks ctx.Err: at the start and the end of the directory read
    in walkPage, and after fs.Get and fs.List in getDirEntries. *)
Inductive ctxPoint := WalkStart | AfterGet | AfterList | WalkRead.

Definition maxListPageKeys : Z := 1000.
Definition emptyObjectName : gostr := "ThisIsAnEmptyFolderInTheS3Bucket".

Definition getFileHash : gostr := [].

(** listSortKey *)
Definition listSortKey (e : Obj) : gostr := if oDir e then oName e ++ "/" else oName e.

Definition prefixParser (p : gostr) : gostr * gostr :=
  match lastIndexByte p slash with
  | None => ([], p)
  | Some i => (take i p, drop (S i) p)
  end.

(** The loop of getBucketByName over the configured buckets. *)
Fixpoint findBucket (name : gostr) (l : list Bucket) : res s3err Bucket :=
  match l with
  | [] => Err (BucketNotFound name)
  | b :: l' => if seqb (bName b) name then Ok b else findBucket name l'
  end.

Section Listing.
Context {L : Type} {OL : ObjectList L}.
Context (now : Z) (StorageStandard : gostr).
Context (ctxErr : ctxPoint -> gostr -> option s3err).
Context (fsGet : gostr -> res s3err Obj) (fsList : gostr -> res s3err (list Obj)).
Context (getAndParseBuckets : res s3err (list Bucket)).

(** ** A page *)
Record objectPage := mkPage {
  result : L; IsTruncated : bool; NextMarker : gostr;
  marker : gostr; maxKeys : Z; count : Z; lastKey : gostr
}.

Definition newObjectPage (page : ListBucketPage) : objectPage :=
  let maxKeys := pMaxKeys page in
  let maxKeys := if (maxKeys <=? 0) || (maxListPageKeys <? maxKeys) then maxListPageKeys else maxKeys in
  let marker := if HasMarker page then pMarker page else [] in
  mkPage NewObjectList false [] marker maxKeys 0 [].

Definition setTruncated (p : objectPage) : objectPage :=
  mkPage (result p) true (NextMarker p) (marker p) (maxKeys p) (count p) (lastKey p).

Definition setResult (p : objectPage) (l : L) (key : gostr) : objectPage :=
  mkPage l (IsTruncated p) (NextMarker p) (marker p) (maxKeys p) (count p + 1) key.

Definition addContent (p : objectPage) (item : Content) : objectPage * bool :=
  if str_leb (Key item) (marker p) then (p, true)
  else if maxKeys p <=? count p then (setTruncated p, false)
  else (setResult p (Add (result p) item) (Key item), true).

Definition addPrefix_ (p : objectPage) (prefix : gostr) : objectPage * bool :=
  if str_leb prefix (marker p) then (p, true)
  else if maxKeys p <=? count p then (setTruncated p, false)
  else (setResult p (AddPrefix (result p) prefix) prefix, true).

Definition finish (p : objectPage) : objectPage :=
  if IsTruncated p then
    mkPage (result p) true (lastKey p) (marker p) (maxKeys p) (count p) (lastKey p)
  else p.

(** ** Reading a directory *)
Definition checkCtx (pt : ctxPoint) (fp : gostr) : res s3err unit :=
  match ctxErr pt fp with Some e => Err e | None => Ok tt end.

Definition getDirEntries (fp : gostr) : res s3err (list Obj) :=
  let fi := fsGet fp in
  let? _ := checkCtx AfterGet fp in
  match fi with
  | Err _ => Err ErrNoSuchKey
  | Ok fi =>
      if negb (oDir fi) then Err ErrNoSuchKey
      else
        let entries := fsList fp in
        let? _ := checkCtx AfterList fp in
        entries
  end.

(** ** The walk *)
Definition emptyContent (fdPath : gostr) : Content :=
  mkContent (path_Join [fdPath; emptyObjectName]) now getFileHash 0 StorageStandard.

Definition fileContent (objectPath : gostr) (e : Obj) : Content :=
  mkContent objectPath (oTime e) getFileHash (oSize e) StorageStandard.

(** The loop over the sorted entries; [walk] is the recursive call on a
    subdirectory. The result is [None] if the recursion runs out of fuel, an
    error, or the page and whether to go on. *)
Fixpoint walkEntries (walk : gostr -> objectPage -> option (res s3err (objectPage * bool)))
    (fdPath name : gostr) (addPrefix : bool) (entries : list Obj) (page : objectPage)
    : option (res s3err (objectPage * bool)) :=
  match entries with
  | [] => Some (Ok (page, true))
  | e :: entries' =>
      let object := oName e in
      let objectPath := path_Join [fdPath; object] in
      if negb (hasPrefix object name) then walkEntries walk fdPath name addPrefix entries' page
      else if oDir e then
        let subtreePrefix := objectPath ++ "/" in
        if addPrefix then
          let '(page, more) := addPrefix_ page subtreePrefix in
          if more then walkEntries walk fdPath name addPrefix entries' page
          else Some (Ok (page, false))
        else if str_leb subtreePrefix (marker page) && negb (hasPrefix (marker page) subtreePrefix)
        then walkEntries walk fdPath name addPrefix entries' page
        else
          let! r := walk objectPath page in
          match r with
          | Err e => Some (Err e)
          | Ok (page, false) => Some (Ok (page, false))
          | Ok (page, true) => walkEntries walk fdPath name addPrefix entries' page
          end
      else
        let '(page, more) := addContent page (fileContent objectPath e) in
        if more then walkEntries walk fdPath name addPrefix entries' page
        else Some (Ok (page, false))
  end.

Fixpoint walkPage (fuel : nat) (bucket fdPath name : gostr) (addPrefix : bool) (page : objectPage)
    : option (res s3err (objectPage * bool)) :=
  match fuel with
  | O => None
  | S fuel' =>
      let fp := path_Join [bucket; fdPath] in
      match
        (let? _ := checkCtx WalkStart fp in
         let? dirEntries := getDirEntries fp in
         let? _ := checkCtx WalkRead fp in
         Ok dirEntries)
      with
      | Err e => Some (Err e)
      | Ok [] =>
          if negb (hasPrefix emptyObjectName name) then Some (Ok (page, true))
          else Some (Ok (addContent page (emptyContent fdPath)))
      | Ok dirEntries =>
          walkEntries (fun objectPath page => walkPage fuel' bucket objectPath [] false page)
            fdPath name addPrefix (sortBy listSortKey dirEntries) page
      end
  end.

Definition listPage (fuel : nat) (bucket fdPath name : gostr) (addPrefix : bool)
    (page : ListBucketPage) : option (res s3err objectPage) :=
  let! r := walkPage fuel bucket fdPath name addPrefix (newObjectPage page) in
  Some (match r with Err e => Err e | Ok (p, _) => Ok (finish p) end).

Definition getBucketByName (name : gostr) : res s3err Bucket :=
  let? buckets := getAndParseBuckets in findBucket name buckets.

Definition emptyPrefix : Prefix := mkPrefix false [] false [].

(** An empty list, as gofakes3.NewObjectList returns it. *)
Definition emptyResult : objectPage := newObjectPage (mkListPage [] false 0).

Definition ListBucket (fuel : nat) (bucketName : gostr) (prefix : option Prefix)
    (page : ListBucketPage) : option (res s3err objectPage) :=
  match getBucketByName bucketName with
  | Err e => Some (Err e)
  | Ok bucket =>
      let prefix := default emptyPrefix prefix in
      let hasDelimiter :=
        if seqb (trimSpace (Delimiter prefix)) [] then false else HasDelimiter prefix in
      let '(path, remaining) := prefixParser (PrefixStr prefix) in
      let! r := listPage fuel (bPath bucket) path remaining hasDelimiter page in
      Some (match r with
            | Err e => if bool_decide (e = ErrNoSuchKey) then Ok emptyResult else Err e
            | Ok p => Ok p
            end)
  end.
End Listing.
Arguments objectPage L : clear implicits.
