(* ===== verification/S3ListSpec.v ===== *)
(** The S3 listing is the flat keyspace, page by page: the walk over the tree of
    src/server/s3/list.go ([S3List]) against a reference that lists every
    object, keeps the keys with the prefix, rolls them up at the delimiter and
    sorts. *)
From stdpp Require Import sorting.
From S2P Require Import Prelude GoString GoOrder GoPath S3List.

(** ** The storage as a tree *)
Inductive tree :=
| TFile (size mtime : Z)
| TDir (l : list (gostr * tree)).

Section TreeInd.
Variable P : tree -> Prop.
Hypothesis Hfile : forall s m, P (TFile s m).
Hypothesis Hdir : forall l, Forall (fun e => P e.2) l -> P (TDir l).

Lemma tree_ind2 t : P t.
Proof.
  revert t. fix IH 1. intros [s m|l]; [apply Hfile|]. apply Hdir.
  induction l as [|[n t] l IHl]; constructor; [apply IH|apply IHl].
Qed.
End TreeInd.

Fixpoint theight (t : tree) : nat :=
  match t with
  | TFile _ _ => 0
  | TDir l => S (fold_right Nat.max 0%nat (map (fun e => theight e.2) l))
  end.

(** Names are good path elements and differ. *)
Fixpoint wf (t : tree) : Prop :=
  match t with
  | TFile _ _ => True
  | TDir l =>
      NoDup (map fst l) /\ Forall (fun e => good_seg e.1) l /\
      fold_right and True (map (fun e => wf e.2) l)
  end.

Definition objOf (e : gostr * tree) : Obj :=
  match e.2 with
  | TFile s m => mkObj e.1 false s m
  | TDir _ => mkObj e.1 true 0 0
  end.

Definition child (l : list (gostr * tree)) (n : gostr) : option tree :=
  snd <$> find (fun e => seqb e.1 n) l.

Fixpoint tree_at (t : tree) (segs : list gostr) : option tree :=
  match segs with
  | [] => Some t
  | n :: segs' =>
      match t with
      | TFile _ _ => None
      | TDir l => let! c := child l n in tree_at c segs'
      end
  end.

(** ** The flat keyspace *)
Section Spec.
Context (now : Z) (Std : gostr).

Definition key_of (segs : list gostr) : gostr := joinStr segs [slash].

Fixpoint objects (dir : list gostr) (t : tree) : list Content :=
  match t with
  | TFile s m => [mkContent (key_of dir) m [] s Std]
  | TDir [] => [mkContent (key_of (dir ++ [emptyObjectName])) now [] 0 Std]
  | TDir l => concat (map (fun e => objects (dir ++ [e.1]) e.2) l)
  end.

(** An item of a listing: an object or a common prefix. *)
Inductive item := IContent (c : Content) | IPrefix (p : gostr).

#[export] Instance item_eq : EqDecision item.
Proof. solve_decision. Defined.

Definition ikey (i : item) : gostr := match i with IContent c => Key c | IPrefix p => p end.

(** The prefix up to the first delimiter after [P], for keys that have one. *)
Definition roll (P : gostr) (delimited : bool) (c : Content) : item :=
  if delimited then
    match indexByte (drop (length P) (Key c)) slash with
    | Some i => IPrefix (take (length P + i + 1) (Key c))
    | None => IContent c
    end
  else IContent c.

Definition specItems (P : gostr) (delimited : bool) (root : tree) : list item :=
  sortBy ikey (remove_dups
    (map (roll P delimited) (List.filter (fun c => hasPrefix (Key c) P) (objects [] root)))).

Definition contentOf (i : item) : option Content := match i with IContent c => Some c | _ => None end.
Definition prefixOf (i : item) : option gostr := match i with IPrefix p => Some p | _ => None end.

(** The page of a sorted list of items after [mark]. *)
Definition after (mark : gostr) (l : list item) : list item :=
  List.filter (fun i => str_ltb mark (ikey i)) l.

(** ** The walk on the tree *)
Definition entryKey (e : gostr * tree) : gostr := listSortKey (objOf e).

Fixpoint full (dir : list gostr) (t : tree) : list item :=
  match t with
  | TFile s m => [IContent (mkContent (key_of dir) m [] s Std)]
  | TDir [] => [IContent (mkContent (key_of (dir ++ [emptyObjectName])) now [] 0 Std)]
  | TDir l =>
      concat (map snd (sortBy fst (map (fun e => (entryKey e, full (dir ++ [e.1]) e.2)) l)))
  end.

Definition isDir (t : tree) : bool := match t with TDir _ => true | _ => false end.

Definition entryItems (dir : list gostr) (name : gostr) (delimited : bool) (e : gostr * tree) : list item :=
  if hasPrefix e.1 name then
    if delimited && isDir e.2 then [IPrefix (key_of (dir ++ [e.1]) ++ "/")]
    else full (dir ++ [e.1]) e.2
  else [].

Definition top (dir : list gostr) (name : gostr) (delimited : bool) (l : list (gostr * tree)) : list item :=
  match l with
  | [] => if hasPrefix emptyObjectName name
          then [IContent (mkContent (key_of (dir ++ [emptyObjectName])) now [] 0 Std)] else []
  | _ => concat (map (entryItems dir name delimited) (sortBy entryKey l))
  end.

(** ** Keys *)
Lemma joinStr_snoc (segs : list gostr) w sep :
  segs <> [] -> joinStr (segs ++ [w]) sep = joinStr segs sep ++ sep ++ w.
Proof.
  induction segs as [|v segs IH]; [done|]. intros _. destruct segs as [|u segs]; [done|].
  rewrite <- app_comm_cons, !joinStr_cons, IH by done. by rewrite !(assoc_L (++)).
Qed.

(** What precedes the names in a directory. *)
Definition pre (dir : list gostr) : gostr := match dir with [] => [] | _ => key_of dir ++ "/" end.

Lemma key_snoc dir n : key_of (dir ++ [n]) = pre dir ++ n.
Proof.
  unfold pre, key_of. destruct dir as [|v dir]; [done|]. rewrite joinStr_snoc by done.
  by rewrite (assoc_L (++)).
Qed.

Lemma pre_snoc dir n : pre (dir ++ [n]) = pre dir ++ n ++ "/".
Proof.
  unfold pre at 1. destruct (dir ++ [n]) eqn:E; [by destruct dir|]. rewrite <- E, key_snoc.
  by rewrite <- (assoc_L (++)).
Qed.

Lemma wf_dir l :
  wf (TDir l) <-> NoDup (map fst l) /\ Forall (fun e => good_seg e.1) l /\ Forall (fun e => wf e.2) l.
Proof.
  simpl. assert (fold_right and True (map (fun e : gostr * tree => wf e.2) l) <-> Forall (fun e => wf e.2) l) as ->;
    [|done].
  induction l as [|e l IH]; simpl; [split; [constructor|done]|]. by rewrite Forall_cons, IH.
Qed.

Lemma entryKey_eq e : entryKey e = e.1 ++ (if isDir e.2 then ["/"%char] else []).
Proof. destruct e as [n [s m|l]]; [|done]. unfold entryKey, objOf, listSortKey. simpl. by rewrite app_nil_r. Qed.

(** The first slash decides where a name ends. *)
Lemma name_cut a b (x y : gostr) :
  slash ∉ a -> slash ∉ b -> a ++ slash :: x = b ++ slash :: y -> a = b /\ x = y.
Proof.
  revert b. induction a as [|c a IH]; intros [|d b] Ha Hb H; simpl in *.
  - by injection H as ->.
  - injection H as <- _. destruct Hb; left.
  - injection H as -> _. destruct Ha; left.
  - injection H as -> H. apply not_elem_of_cons in Ha as [_ Ha], Hb as [_ Hb]. by destruct (IH b Ha Hb H) as [-> ->].
Qed.

Lemma entryKey_inj e e' :
  good_seg e.1 -> good_seg e'.1 -> entryKey e = entryKey e' -> e.1 = e'.1.
Proof.
  rewrite !entryKey_eq. intros (_ & _ & _ & H1) (_ & _ & _ & H2).
  destruct (isDir e.2), (isDir e'.2); rewrite ?app_nil_r; intros H; try done.
  - by apply name_cut in H as [? _].
  - destruct H2. rewrite <- H. apply elem_of_app. right. by left.
  - destruct H1. rewrite H. apply elem_of_app. right. by left.
Qed.

Lemma entryKey_nodup l : wf (TDir l) -> NoDup (map entryKey l).
Proof.
  intros (Hn & Hg & _)%wf_dir. induction l as [|e l IH]; simpl in *; [constructor|].
  apply NoDup_cons in Hn as [Hni Hn]. apply Forall_cons in Hg as [He Hg].
  constructor; [|by apply IH]. intros (e' & Heq & He')%list_elem_of_fmap. destruct Hni.
  rewrite (entryKey_inj e e'); [by apply list_elem_of_fmap_2|done| |done].
  rewrite Forall_forall in Hg. by apply Hg.
Qed.

Lemma full_entries dir l :
  l <> [] -> wf (TDir l) ->
  full dir (TDir l) = concat (map (entryItems dir [] false) (sortBy entryKey l)).
Proof.
  intros Hl Hwf. destruct l as [|e0 l]; [done|]. cbn [full].
  rewrite (sortBy_map entryKey fst (fun e => (entryKey e, full (dir ++ [e.1]) e.2)));
    [|done|by apply entryKey_nodup].
  by rewrite map_map.
Qed.

Lemma full_top dir l : wf (TDir l) -> full dir (TDir l) = top dir [] false l.
Proof. intros Hwf. destruct l as [|e l]; [done|]. by rewrite full_entries. Qed.

(** Every key below an entry starts with the key of the entry; a file's key is it. *)
Lemma full_prefix t : forall dir x, wf t -> x ∈ full dir t ->
  match t with TFile _ _ => ikey x = key_of dir | TDir _ => exists s, s <> [] /\ ikey x = pre dir ++ s end.
Proof.
  induction t as [s m|l IH] using tree_ind2; intros dir x Hwf Hx.
  - apply list_elem_of_singleton in Hx as ->. done.
  - destruct l as [|e0 l0] eqn:El.
    { apply list_elem_of_singleton in Hx as ->. exists emptyObjectName. split; [done|]. simpl. by rewrite key_snoc. }
    rewrite <- El in *. rewrite full_entries in Hx by (by subst || done).
    apply elem_concat_map in Hx as (e & He & Hx). rewrite sortBy_perm in He. unfold entryItems in Hx. simpl in Hx.
    apply wf_dir in Hwf as (_ & Hg & Hw). rewrite Forall_forall in IH, Hg, Hw.
    specialize (IH e He (dir ++ [e.1]) x (Hw e He) Hx). destruct (Hg e He) as (Hn & _).
    destruct (e.2) as [s m|l'].
    + exists e.1. by rewrite IH, key_snoc.
    + destruct IH as (s & Hs & ->). rewrite pre_snoc. exists ((e.1 ++ "/") ++ s).
      split; [by destruct (e.1)|]. by rewrite !(assoc_L (++)).
Qed.

(** The items of an entry, seen from its directory. *)
Lemma entryItems_key dir name delimited e x :
  wf e.2 -> x ∈ entryItems dir name delimited e ->
  exists s, ikey x = pre dir ++ entryKey e ++ s /\ (isDir e.2 = false -> s = []).
Proof.
  intros Hwf Hx. unfold entryItems in Hx. rewrite entryKey_eq. destruct (hasPrefix e.1 name); [|by apply elem_of_nil in Hx].
  destruct (delimited && isDir e.2) eqn:E.
  - bool_hyps. apply list_elem_of_singleton in Hx as ->. exists []. simpl. rewrite key_snoc, app_nil_r. 
    match goal with H : isDir _ = true |- _ => rewrite H end. split; [by rewrite <- (assoc_L (++))|done].
  - pose proof (full_prefix _ _ _ Hwf Hx) as Hp. destruct (e.2) as [s m|l]; simpl in *.
    + exists []. rewrite Hp, key_snoc, !app_nil_r. done.
    + destruct Hp as (s & _ & ->). exists s. rewrite pre_snoc. split; [by rewrite !(assoc_L (++))|done].
Qed.

Definition ilt := keyLt ikey.

Lemma entry_order e e' s s' :
  good_seg e.1 -> good_seg e'.1 -> slt (entryKey e) (entryKey e') -> (isDir e.2 = false -> s = []) ->
  slt (entryKey e ++ s) (entryKey e' ++ s').
Proof.
  intros (_ & _ & _ & H1) (_ & _ & _ & H2) Hlt Hs. destruct (isDir e.2) eqn:E.
  - apply slt_ext; [done|]. intros t Ht. rewrite !entryKey_eq, E in *. destruct (isDir e'.2).
    + rewrite <- (assoc_L (++)) in Ht. apply name_cut in Ht as [Heq _]; [|done|done].
      rewrite Heq in Hlt. by apply slt_irrefl in Hlt.
    + rewrite app_nil_r in Ht. destruct H2. rewrite Ht. rewrite !elem_of_app. left. right. by left.
  - rewrite Hs, app_nil_r by done. by apply slt_ext_r.
Qed.

Lemma entries_sorted dir name delimited l :
  wf (TDir l) -> Forall (fun e => StronglySorted ilt (full (dir ++ [e.1]) e.2)) l ->
  StronglySorted ilt (concat (map (entryItems dir name delimited) (sortBy entryKey l))).
Proof.
  intros Hwf Hf. pose proof (sortBy_strict entryKey l (entryKey_nodup l Hwf)) as Hsrt.
  apply wf_dir in Hwf as (_ & Hg & Hw). rewrite Forall_forall in Hf, Hg, Hw.
  eapply StronglySorted_concat; [exact Hsrt| |].
  - apply Forall_forall. intros e He. rewrite sortBy_perm in He. unfold entryItems.
    destruct (hasPrefix _ _); [|constructor]. destruct (_ && _); [repeat constructor|auto].
  - intros e e' x x' He He' Hlt Hx Hx'. rewrite sortBy_perm in He, He'.
    apply entryItems_key in Hx as (s & Hk & Hs), Hx' as (s' & Hk' & _); [|by apply Hw|by apply Hw].
    unfold ilt, keyLt in *. rewrite Hk, Hk'. apply slt_app, entry_order; auto.
Qed.

Lemma full_sorted t : forall dir, wf t -> StronglySorted ilt (full dir t).
Proof.
  induction t as [s m|l IH] using tree_ind2; intros dir Hwf; [repeat constructor|].
  destruct l as [|e0 l0] eqn:El; [repeat constructor|].
  rewrite <- El in *. rewrite full_entries by (by subst || done).
  apply entries_sorted; [done|]. apply wf_dir in Hwf as (_ & _ & Hw). rewrite Forall_forall in *. auto.
Qed.

Lemma top_sorted dir name delimited l :
  wf (TDir l) -> StronglySorted ilt (top dir name delimited l).
Proof.
  intros Hwf. destruct l as [|e0 l0] eqn:El; [simpl; destruct (hasPrefix _ _); repeat constructor|].
  rewrite <- El in *. replace (top dir name delimited l) with
    (concat (map (entryItems dir name delimited) (sortBy entryKey l))) by (by subst).
  apply entries_sorted; [done|]. apply wf_dir in Hwf as (_ & _ & Hw). rewrite Forall_forall in *.
  intros e He. by apply full_sorted, Hw.
Qed.

(** ** The walk lists the objects *)
Lemma objects_dir dir l c :
  c ∈ objects dir (TDir l) <->
    (l = [] /\ c = mkContent (key_of (dir ++ [emptyObjectName])) now [] 0 Std) \/
    (exists e, e ∈ l /\ c ∈ objects (dir ++ [e.1]) e.2).
Proof.
  destruct l as [|e0 l0].
  - simpl. rewrite list_elem_of_singleton. split; [auto|]. intros [[_ ->]|(e & He & _)]; [done|].
    by apply elem_of_nil in He.
  - cbn [objects]. rewrite elem_concat_map. split; [auto|]. by intros [[? _]|?].
Qed.

Lemma full_dir dir l x :
  wf (TDir l) -> x ∈ full dir (TDir l) <->
    (l = [] /\ x = IContent (mkContent (key_of (dir ++ [emptyObjectName])) now [] 0 Std)) \/
    (exists e, e ∈ l /\ x ∈ full (dir ++ [e.1]) e.2).
Proof.
  intros Hwf. destruct l as [|e0 l0] eqn:El.
  - simpl. rewrite list_elem_of_singleton. split; [auto|]. intros [[_ ->]|(e & He & _)]; [done|].
    by apply elem_of_nil in He.
  - rewrite <- El in *. rewrite full_entries, elem_concat_map by (by subst || done).
    setoid_rewrite (sortBy_perm entryKey l). unfold entryItems. simpl. split; [auto|]. intros [[? _]|?]; [by subst|done].
Qed.

Lemma full_objects t : forall dir x, wf t -> x ∈ full dir t <-> exists c, c ∈ objects dir t /\ x = IContent c.
Proof.
  induction t as [s m|l IH] using tree_ind2; intros dir x Hwf.
  - simpl. rewrite list_elem_of_singleton. setoid_rewrite list_elem_of_singleton. naive_solver.
  - rewrite full_dir by done. setoid_rewrite objects_dir. apply wf_dir in Hwf as (_ & _ & Hw).
    rewrite Forall_forall in IH, Hw. split.
    + intros [[-> ->]|(e & He & Hx)]; [by eexists; split; [by left|]|].
      apply (IH e He) in Hx as (c & Hc & ->); [|by apply Hw]. exists c. split; [right; eauto|done].
    + intros (c & [[-> ->]|(e & He & Hc)] & ->); [by left|]. right. exists e. split; [done|].
      apply (IH e He); [by apply Hw|eauto].
Qed.

Lemma objects_ne t : forall dir, exists c, c ∈ objects dir t.
Proof.
  induction t as [s m|l IH] using tree_ind2; intros dir; [eexists; by left|].
  setoid_rewrite objects_dir. destruct l as [|e l]; [eexists; by left|].
  apply Forall_cons in IH as [He _]. destruct (He (dir ++ [e.1])) as [c Hc]. exists c. right.
  exists e. split; [by left|done].
Qed.

(** The key of an object below an entry. *)
Lemma object_key dir e c :
  wf e.2 -> c ∈ objects (dir ++ [e.1]) e.2 ->
  exists s, Key c = pre dir ++ entryKey e ++ s /\ (isDir e.2 = false -> s = []).
Proof.
  intros Hwf Hc. change (Key c) with (ikey (IContent c)).
  apply (entryItems_key dir [] false e (IContent c) Hwf). unfold entryItems. simpl.
  apply full_objects; [done|eauto].
Qed.

Lemma empty_no_slash : slash ∉ emptyObjectName.
Proof. by apply (bool_decide_eq_true_1 (slash ∉ emptyObjectName)). Qed.

Lemma hasPrefix_cut a name s : slash ∉ name -> hasPrefix (a ++ slash :: s) name = hasPrefix a name.
Proof.
  revert name. induction a as [|x a IH]; intros [|y name] Hn; try done; simpl.
  - destruct (bool_decide_reflect (y = slash)) as [->|]; [|done]. destruct Hn; left.
  - apply not_elem_of_cons in Hn as [_ Hn]. by rewrite IH.
Qed.

Lemma hasPrefix_app_l k a b : hasPrefix (k ++ a) (k ++ b) = hasPrefix a b.
Proof. induction k as [|x k IH]; [done|]. simpl. by rewrite bool_decide_eq_true_2. Qed.

Lemma roll_entry dir name delimited e c :
  slash ∉ name -> good_seg e.1 -> wf e.2 -> c ∈ objects (dir ++ [e.1]) e.2 ->
  hasPrefix (Key c) (pre dir ++ name) = hasPrefix e.1 name /\
  (hasPrefix e.1 name = true ->
   roll (pre dir ++ name) delimited c =
     if delimited && isDir e.2 then IPrefix (key_of (dir ++ [e.1]) ++ "/") else IContent c).
Proof.
  intros Hn (_ & _ & _ & Hs) Hwf Hc. destruct (object_key dir e c Hwf Hc) as (s & Hk & Hfile).
  rewrite Hk, hasPrefix_app_l, entryKey_eq. split.
  - destruct (isDir e.2); [rewrite <- (assoc_L (++)); by apply hasPrefix_cut|].
    by rewrite Hfile, !app_nil_r.
  - intros (rest & Hr)%hasPrefix_spec. unfold roll. destruct delimited; [|done]. simpl.
    rewrite Hk, entryKey_eq, Hr, <- !(assoc_L (++)), (assoc_L (++) (pre dir) name), drop_app_length.
    rewrite Hr in Hs. assert (Hrest : slash ∉ rest) by (intros ?; apply Hs, elem_of_app; by right).
    destruct (isDir e.2).
    + simpl. rewrite indexByte_app by done. f_equal. rewrite key_snoc.
      change ("/"%char :: s) with (list_ascii_of_string "/" ++ s). rewrite !(assoc_L (++)).
      apply take_app_length'. rewrite !length_app. simpl. lia.
    + rewrite Hfile by done. simpl. rewrite app_nil_r. apply indexByte_None in Hrest. by rewrite Hrest.
Qed.

Lemma top_objects dir name delimited l x :
  slash ∉ name -> wf (TDir l) ->
  x ∈ top dir name delimited l <->
    exists c, c ∈ objects dir (TDir l) /\ hasPrefix (Key c) (pre dir ++ name) = true /\
      x = roll (pre dir ++ name) delimited c.
Proof.
  intros Hn Hwf. setoid_rewrite objects_dir. destruct l as [|e0 l0] eqn:El.
  - cbn [top]. set (c0 := mkContent _ _ _ _ _).
    assert (Hp : hasPrefix (Key c0) (pre dir ++ name) = hasPrefix emptyObjectName name)
      by (unfold c0; cbn [Key]; by rewrite key_snoc, hasPrefix_app_l).
    assert (Hr : hasPrefix emptyObjectName name = true -> roll (pre dir ++ name) delimited c0 = IContent c0).
    { intros (rest & Hr)%hasPrefix_spec. unfold roll. destruct delimited; [|done].
      unfold c0. cbn [Key]. rewrite key_snoc, Hr, (assoc_L (++)), drop_app_length.
      replace (indexByte rest slash) with (@None nat); [done|]. symmetry. apply indexByte_None. intros Hin.
      apply empty_no_slash. rewrite Hr. apply elem_of_app. by right. }
    split.
    + destruct (hasPrefix emptyObjectName name) eqn:E; [|intros H; by apply elem_of_nil in H].
      intros ->%list_elem_of_singleton. exists c0. split; [by left|]. split; [done|]. by rewrite Hr.
    + intros (c & [[_ ->]|(e & He & _)] & Hpc & ->); [|by apply elem_of_nil in He].
      fold c0 in Hpc |- *. rewrite Hp in Hpc. rewrite Hpc, Hr by done. by left.
  - rewrite <- El in *. assert (Htop : top dir name delimited l = concat (map (entryItems dir name delimited) (sortBy entryKey l)))
      by (by subst).
    rewrite Htop, elem_concat_map. setoid_rewrite (sortBy_perm entryKey l).
    apply wf_dir in Hwf as (_ & Hg & Hw). rewrite Forall_forall in Hg, Hw. unfold entryItems. split.
    + intros (e & He & Hx). destruct (hasPrefix e.1 name) eqn:E; [|by apply elem_of_nil in Hx].
      destruct (delimited && isDir e.2) eqn:Ed.
      * apply list_elem_of_singleton in Hx as ->. destruct (objects_ne e.2 (dir ++ [e.1])) as [c Hc].
        destruct (roll_entry dir name delimited e c Hn (Hg e He) (Hw e He) Hc) as [Hp Hr].
        exists c. rewrite Hp, (Hr E), Ed. split; [right; by exists e|done].
      * apply full_objects in Hx as (c & Hc & ->); [|by apply Hw].
        destruct (roll_entry dir name delimited e c Hn (Hg e He) (Hw e He) Hc) as [Hp Hr].
        exists c. rewrite Hp, (Hr E), Ed. split; [right; by exists e|done].
    + intros (c & [[-> _]|(e & He & Hc)] & Hpc & ->); [done|].
      destruct (roll_entry dir name delimited e c Hn (Hg e He) (Hw e He) Hc) as [Hp Hr].
      rewrite Hp in Hpc. exists e. split; [done|]. rewrite Hpc, (Hr Hpc).
      destruct (delimited && isDir e.2); [by left|]. apply full_objects; [by apply Hw|eauto].
Qed.

(** ** Directories and prefixes *)
Lemma child_Some l n t : NoDup (map fst l) -> child l n = Some t <-> (n, t) ∈ l.
Proof.
  intros Hnd. unfold child. induction l as [|[m u] l IH]; simpl in *; [split; [done|intros H; by apply elem_of_nil in H]|].
  apply NoDup_cons in Hnd as [Hni Hnd]. rewrite elem_of_cons. destruct (seqb m n) eqn:E.
  - apply seqb_true in E as ->. simpl. split; [intros [= ->]; by left|]. intros [[= ->]|H]; [done|].
    destruct Hni. change n with ((n, t).1). by apply list_elem_of_fmap_2.
  - apply seqb_false in E. rewrite (IH Hnd). split; [by right|]. intros [[= <- _]|H]; done.
Qed.

Lemma pre_app a b : pre (a ++ b) = pre a ++ pre b.
Proof.
  induction b as [|w b IH] using rev_ind; [by rewrite !app_nil_r|].
  rewrite (assoc_L (++)), !pre_snoc, IH. by rewrite !(assoc_L (++)).
Qed.

Lemma objects_below dir : forall base t c,
  wf t -> isDir t = true -> Forall good_seg dir ->
  (c ∈ objects base t /\ (exists s, Key c = pre (base ++ dir) ++ s)) <->
  match tree_at t dir with
  | Some (TDir l) => c ∈ objects (base ++ dir) (TDir l)
  | _ => False
  end.
Proof.
  induction dir as [|n dir IH]; intros base [|l] c Hwf Ht Hg; try done.
  - simpl tree_at. rewrite app_nil_r. split; [by intros [? _]|]. intros Hc. split; [done|].
    assert (Hx : IContent c ∈ full base (TDir l)) by (apply full_objects; eauto).
    apply full_prefix in Hx as (s & _ & Hk); [|done]. eauto.
  - apply Forall_cons in Hg as [(_ & _ & _ & Hn) Hg].
    replace (base ++ n :: dir) with ((base ++ [n]) ++ dir) by (by rewrite <- (assoc_L (++))).
    pose proof Hwf as (Hnd & Hgl & Hw)%wf_dir. rewrite Forall_forall in Hgl, Hw.
    assert (Hkey : pre ((base ++ [n]) ++ dir) = pre base ++ n ++ slash :: pre dir).
    { rewrite pre_app, pre_snoc. by rewrite <- !(assoc_L (++)). }
    simpl tree_at. split.
    + rewrite objects_dir. intros ([[-> ->]|(e & He & Hc)] & s & Hk).
      { simpl in Hk. rewrite key_snoc, Hkey, <- !(assoc_L (++)) in Hk. apply (inj (pre base ++.)) in Hk.
        destruct empty_no_slash. rewrite Hk. rewrite elem_of_app. right. by left. }
      destruct (object_key base e c (Hw e He) Hc) as (s' & Hk' & Hs').
      destruct (Hgl e He) as (_ & _ & _ & Hes).
      rewrite Hk' , Hkey, <- !(assoc_L (++)) in Hk. apply (inj (pre base ++.)) in Hk. rewrite entryKey_eq in Hk.
      destruct (isDir e.2) eqn:Ed; [|destruct Hes; rewrite Hs', !app_nil_r in Hk by done; rewrite Hk, elem_of_app; right; by left].
      rewrite <- (assoc_L (++)) in Hk. apply name_cut in Hk as [Hen Hss]; [|done|done].
      assert (Hch : child l n = Some e.2) by (apply child_Some; [done|]; rewrite <- Hen; by destruct e).
      rewrite Hch. simpl. apply (IH (base ++ [n]) e.2 c); [by apply Hw|done|done|].
      rewrite <- Hen. split; [done|]. exists s. rewrite Hk', pre_app, pre_snoc, entryKey_eq, Ed, Hss.
      by rewrite <- !(assoc_L (++)).
    + destruct (child l n) as [t'|] eqn:Hch; [|done]. simpl. apply child_Some in Hch; [|done].
      destruct t' as [s m|l']; [by destruct dir|]. intros Hc.
      apply (IH (base ++ [n]) (TDir l') c) in Hc as [Hc Hs]; [|apply (Hw _ Hch)|done|done].
      split; [|done]. apply objects_dir. right. by exists (n, TDir l').
Qed.

Lemma wf_tree_at dir root t : wf root -> tree_at root dir = Some t -> wf t.
Proof.
  revert root. induction dir as [|n dir IH]; intros root Hwf Ht; [by injection Ht as <-|].
  destruct root as [|l0]; [done|]. simpl in Ht. destruct (child l0 n) as [t'|] eqn:Hch; [|done].
  apply wf_dir in Hwf as (Hnd & _ & Hw). apply child_Some in Hch; [|done]. rewrite Forall_forall in Hw.
  by apply (IH t' (Hw _ Hch)).
Qed.

Lemma spec_top dir name delimited root :
  slash ∉ name -> wf root -> isDir root = true -> Forall good_seg dir ->
  specItems (pre dir ++ name) delimited root =
    match tree_at root dir with Some (TDir l) => top dir name delimited l | _ => [] end.
Proof.
  intros Hn Hwf Hr Hg.
  assert (Hmem : forall x, x ∈ map (roll (pre dir ++ name) delimited)
      (List.filter (fun c => hasPrefix (Key c) (pre dir ++ name)) (objects [] root)) <->
    exists c, (c ∈ objects [] root /\ exists s, Key c = pre dir ++ s) /\
      hasPrefix (Key c) (pre dir ++ name) = true /\ x = roll (pre dir ++ name) delimited c).
  { intros x. rewrite list_elem_of_fmap. setoid_rewrite list_elem_of_In. setoid_rewrite filter_In.
    setoid_rewrite <- list_elem_of_In. split.
    - intros (c & -> & Hc & Hp). exists c. repeat split; try done.
      apply hasPrefix_spec in Hp as (s & ->). exists (name ++ s). by rewrite (assoc_L (++)).
    - intros (c & [Hc _] & Hp & ->). exists c. auto. }
  setoid_rewrite (fun c => objects_below dir [] root c Hwf Hr Hg) in Hmem.
  unfold specItems. destruct (tree_at root dir) as [[s m|l]|] eqn:Ht.
  - destruct (map _ _) as [|x t]; [done|]. destruct (proj1 (Hmem x)) as (_ & [] & _). by left.
  - pose proof (wf_tree_at dir root _ Hwf Ht) as Hwl.
    pose proof (top_sorted dir name delimited l Hwl) as Hs. apply sortBy_unique; [|done].
    apply NoDup_Permutation; [|apply NoDup_remove_dups|].
    + clear -Hs. induction Hs as [|x t _ IH Hx]; constructor; [|done]. intros Hin.
      rewrite Forall_forall in Hx. by apply (slt_irrefl (ikey x)), Hx.
    + intros x. rewrite elem_of_remove_dups, Hmem, top_objects by done. done.
  - destruct (map _ _) as [|x t]; [done|]. destruct (proj1 (Hmem x)) as (_ & [] & _). by left.
Qed.
End Spec.
