(* ===== verification/S3ListSys.v ===== *)
(** The pages of the S3 listing: [listPage] over a storage that serves a tree
    answers the next [maxKeys] items of the reference listing after the marker,
    and a client that follows the markers reads the whole listing. *)
From stdpp Require Import sorting.
From S2P Require Import Prelude GoString GoOrder GoPath S3List S3ListSpec.

(** ** Paths of the storage *)
Lemma key_of_clean segs :
  segs <> [] -> Forall good_seg segs -> path_Clean (key_of segs) = key_of segs.
Proof.
  intros Hne Hg. assert (Hk : key_of segs <> []) by (intros H; by apply joinStr_nil in H).
  unfold path_Clean. destruct (key_of segs) as [|c k] eqn:E; [done|]. rewrite <- E.
  replace (hasPrefix (key_of segs) "/") with false.
  - assert (rev (cleanSegs false [] (splitByte (key_of segs) slash)) = segs) as ->.
    { unfold key_of. by rewrite splitByte_join, cleanSegs_id, app_nil_r, rev_involutive
        by (done || by apply good_seg_no_slash). }
    change ([] ++ joinStr segs [slash]) with (key_of segs). by rewrite E.
  - symmetry. apply not_true_iff_false. intros (t & Ht)%hasPrefix_spec.
    destruct segs as [|w segs]; [done|]. apply Forall_cons in Hg as [(Hw & _ & _ & Hs) _].
    destruct w as [|d w]; [done|]. apply not_elem_of_cons in Hs as [Hs _].
    unfold key_of in Ht. destruct segs; simpl in Ht; by injection Ht as -> _.
Qed.

Lemma path_Join_key dir n :
  Forall good_seg dir -> good_seg n -> path_Join [key_of dir; n] = key_of (dir ++ [n]).
Proof.
  intros Hd Hn. assert (Hne : n <> []) by apply Hn.
  assert (Hg : Forall good_seg (dir ++ [n])) by (apply Forall_app; auto).
  transitivity (path_Clean (key_of (dir ++ [n]))); [|apply key_of_clean; [by destruct dir|done]].
  unfold path_Join. destruct dir as [|w dir].
  - by rewrite filter_cons_False, filter_cons_True by (done || naive_solver).
  - assert (Hk : key_of (w :: dir) <> []) by (intros H; by apply joinStr_nil in H).
    rewrite !filter_cons_True by done. cbn [filter list_filter]. f_equal.
    rewrite (key_snoc (w :: dir)). simpl. by rewrite <- (assoc_L (++)).
Qed.

Lemma path_Join_bucket base dir :
  Forall good_seg base -> Forall good_seg dir ->
  path_Join [mkpath base; key_of dir] = mkpath (base ++ dir).
Proof.
  intros Hb Hd. destruct dir as [|w dir].
  - rewrite app_nil_r. unfold path_Join. rewrite filter_cons_True, filter_cons_False by naive_solver.
    by apply mkpath_good_clean.
  - assert (Hk : key_of (w :: dir) <> []) by (intros H; by apply joinStr_nil in H).
    unfold path_Join. rewrite !filter_cons_True by done.
    change (path_Clean (mkpath base ++ [slash] ++ key_of (w :: dir)) = mkpath (base ++ w :: dir)).
    unfold mkpath at 1. rewrite <- (app_comm_cons _ _ slash), rooted_clean. f_equal.
    rewrite <- (rev_involutive (base ++ w :: dir)). f_equal.
    assert (Hs : splitByte (key_of (w :: dir)) slash = w :: dir)
      by (apply splitByte_join; [done|by apply good_seg_no_slash]).
    destruct base as [|v base].
    + change (joinStr [] [slash] ++ [slash] ++ key_of (w :: dir)) with ([] ++ slash :: key_of (w :: dir)).
      rewrite splitByte_app, Hs by apply not_elem_of_nil.
      change (cleanSegs true [] (w :: dir) = rev (w :: dir)). rewrite cleanSegs_id by done. apply app_nil_r.
    + change ([slash] ++ key_of (w :: dir)) with (slash :: key_of (w :: dir)).
      rewrite splitByte_join_app, Hs, cleanSegs_id, app_nil_r
        by (done || by apply good_seg_no_slash || by apply Forall_app).
      done.
Qed.

Lemma empty_good : good_seg emptyObjectName.
Proof. repeat split; try done. apply empty_no_slash. Qed.

(** ** Adding items to a page *)
Section Pages.
Context {L : Type} {OL : ObjectList L} {OLL : ObjectListLaws L}.

Definition addItem (p : objectPage L) (i : item) : objectPage L * bool :=
  match i with IContent c => addContent p c | IPrefix s => addPrefix_ p s end.

Fixpoint addItems (p : objectPage L) (l : list item) : objectPage L * bool :=
  match l with
  | [] => (p, true)
  | i :: l' => let '(p, more) := addItem p i in if more then addItems p l' else (p, false)
  end.

Lemma addItems_app p l1 l2 :
  addItems p (l1 ++ l2) =
    let '(p, more) := addItems p l1 in if more then addItems p l2 else (p, false).
Proof.
  revert p. induction l1 as [|i l1 IH]; intros p; simpl; [done|].
  destruct (addItem p i) as [p' [|]]; [apply IH|done].
Qed.

Lemma addItem_marker p i : marker (addItem p i).1 = marker p.
Proof. destruct i; simpl; unfold addContent, addPrefix_; by repeat case_match. Qed.

Lemma addItem_skip p i : sle (ikey i) (marker p) -> addItem p i = (p, true).
Proof. unfold sle. destruct i; simpl; unfold addContent, addPrefix_; by intros ->. Qed.

Lemma addItems_marker p l : marker (addItems p l).1 = marker p.
Proof.
  revert p. induction l as [|i l IH]; intros p; simpl; [done|].
  pose proof (addItem_marker p i) as H. destruct (addItem p i) as [p' [|]]; simpl in *; [by rewrite IH|done].
Qed.

Lemma addItems_skip p l : Forall (fun i => sle (ikey i) (marker p)) l -> addItems p l = (p, true).
Proof. induction 1 as [|i l Hi _ IH]; simpl; [done|]. by rewrite addItem_skip. Qed.

(** The page holds exactly the items [taken], the last ones first read. *)
Record pageOf (p : objectPage L) (taken : list item) : Prop := {
  page_contents : Contents (result p) = omap contentOf taken;
  page_prefixes : CommonPrefixes (result p) = omap prefixOf taken;
  page_count : count p = Z.of_nat (length taken);
  page_last : lastKey p = from_option ikey [] (last taken);
  page_max : count p <= maxKeys p;
}.

Lemma addItem_add p taken i :
  pageOf p taken -> slt (marker p) (ikey i) -> count p < maxKeys p ->
  Forall (fun j => slt (ikey j) (ikey i)) taken ->
  exists p', addItem p i = (p', true) /\ pageOf p' (taken ++ [i]) /\
    IsTruncated p' = IsTruncated p /\ maxKeys p' = maxKeys p /\ marker p' = marker p.
Proof.
  intros [Hc Hp Hn Hl Hm] Hgt Hlt Hall.
  assert (Hle : str_leb (ikey i) (marker p) = false) by (unfold str_leb; by rewrite Hgt).
  assert (Hmax : maxKeys p <=? count p = false) by (apply Z.leb_gt; lia).
  exists (setResult p (match i with IContent c => Add (result p) c | IPrefix s => AddPrefix (result p) s end) (ikey i)).
  split; [destruct i; simpl in *; unfold addContent, addPrefix_; by rewrite Hle, Hmax|].
  split; [|done]. split; cbn [setResult result count lastKey maxKeys].
  - rewrite omap_app. destruct i; simpl; [by rewrite add_contents, Hc|]. by rewrite addPrefix_contents, Hc, app_nil_r.
  - rewrite omap_app. destruct i as [c|s]; simpl; [by rewrite add_prefixes, Hp, app_nil_r|].
    rewrite addPrefix_fresh, Hp; [done|]. rewrite Hp. intros (j & Hj & Hs)%list_elem_of_omap.
    rewrite Forall_forall in Hall. specialize (Hall j Hj). destruct j; [done|]. injection Hs as ->.
    by apply slt_irrefl in Hall.
  - rewrite length_app. simpl. lia.
  - by rewrite last_snoc.
  - lia.
Qed.

(** A sorted list added to a page: the items after the marker, as many as fit. *)
Lemma addItems_page l : forall p taken,
  pageOf p taken -> StronglySorted ilt l -> Forall (fun j => Forall (fun i => slt (ikey j) (ikey i)) l) taken ->
  IsTruncated p = false ->
  exists p', addItems p l = (p', negb (IsTruncated p')) /\
    let want := taken ++ after (marker p) l in
    pageOf p' (take (Z.to_nat (maxKeys p)) want) /\
    IsTruncated p' = bool_decide (maxKeys p < Z.of_nat (length want)).
Proof.
  induction l as [|i l IH]; intros p taken Hp Hs Hall Htr; simpl.
  - exists p. rewrite Htr, app_nil_r. split; [done|]. destruct Hp as [Hc Hq Hn Hl Hm].
    rewrite take_ge by lia. split; [done|]. symmetry. apply bool_decide_eq_false. lia.
  - apply StronglySorted_inv in Hs as [Hs Hi].
    assert (Hall' : Forall (fun j => Forall (fun i => slt (ikey j) (ikey i)) l) taken)
      by (eapply Forall_impl; [exact Hall|]; intros j [? ?]%Forall_cons; done).
    assert (Hti : Forall (fun j => slt (ikey j) (ikey i)) taken)
      by (eapply Forall_impl; [exact Hall|]; intros j [? ?]%Forall_cons; done).
    destruct (str_ltb (marker p) (ikey i)) eqn:E.
    + pose proof Hp as [Hc Hq Hn Hl Hm]. destruct (decide (count p < maxKeys p)) as [Hlt|Hge].
      * destruct (addItem_add p taken i Hp E Hlt Hti) as (p' & -> & Hp' & Ht' & Hx' & Hmk).
        destruct (IH p' (taken ++ [i]) Hp' Hs) as (p2 & Hp2 & Hrest).
        { apply Forall_app. split; [done|]. constructor; [|constructor]. exact Hi. }
        { by rewrite Ht'. }
        rewrite Hmk, Hx', <- (assoc_L (++)) in Hrest. eauto.
      * assert (Hadd : addItem p i = (setTruncated p, false)).
        { assert (Hle : str_leb (ikey i) (marker p) = false) by (unfold str_leb; by rewrite E).
          assert (Hmax : maxKeys p <=? count p = true) by (apply Z.leb_le; lia).
          destruct i; simpl in *; unfold addContent, addPrefix_; by rewrite Hle, Hmax. }
        rewrite Hadd. exists (setTruncated p). split; [done|]. rewrite take_app_le, take_ge by lia.
        split; [by split|]. symmetry. apply bool_decide_eq_true. rewrite length_app. simpl. lia.
    + rewrite addItem_skip by (apply sle_not_slt; unfold slt; congruence). by apply IH.
Qed.

Lemma new_page page : pageOf (newObjectPage (L := L) page) [].
Proof.
  unfold newObjectPage. split; simpl; [apply new_contents|apply new_prefixes|done|done|].
  destruct (_ || _) eqn:E; bool_hyps; unfold maxListPageKeys in *; lia.
Qed.

Lemma addItems_new page l :
  StronglySorted ilt l ->
  let p0 := newObjectPage (L := L) page in
  exists p, addItems p0 l = (p, negb (IsTruncated p)) /\
    pageOf p (take (Z.to_nat (maxKeys p0)) (after (marker p0) l)) /\
    IsTruncated p = bool_decide (maxKeys p0 < Z.of_nat (length (after (marker p0) l))).
Proof. intros Hs p0. apply (addItems_page l p0 []); [apply new_page|done|constructor|done]. Qed.
End Pages.

(** ** The walk *)
Section Walk.
Context {L : Type} {OL : ObjectList L} {OLL : ObjectListLaws L}.
Context (now : Z) (Std : gostr) (ctxErr : ctxPoint -> gostr -> option s3err).
Context (fsGet : gostr -> res s3err Obj) (fsList : gostr -> res s3err (list Obj)).

(** fs.Get and fs.List serve the tree [root] under the path of [base]. *)
Definition serves (base : list gostr) (root : tree) : Prop :=
  forall segs, Forall good_seg segs ->
    match tree_at root segs with
    | Some t => (exists o, fsGet (mkpath (base ++ segs)) = Ok o /\ oDir o = isDir t) /\
        match t with TDir l => fsList (mkpath (base ++ segs)) = Ok (map objOf l) | _ => True end
    | None => exists e, fsGet (mkpath (base ++ segs)) = Err e
    end.

Notation full := (full now Std).
Notation top := (top now Std).
Notation entryItems := (entryItems now Std).

Lemma walkEntries_items walk dir name delimited es p :
  Forall good_seg dir -> Forall (fun e => good_seg e.1 /\ wf e.2) es ->
  Forall (fun e => isDir e.2 = true ->
    forall p : objectPage L, walk (key_of (dir ++ [e.1])) p = Some (Ok (addItems p (full (dir ++ [e.1]) e.2)))) es ->
  walkEntries Std walk (key_of dir) name delimited (map objOf es) p =
    Some (Ok (addItems p (concat (map (entryItems dir name delimited) es)))).
Proof.
  intros Hd Hg Hw. revert p. induction es as [|e es IH]; intros p; [done|].
  apply Forall_cons in Hg as [[Hge Hwf] Hg], Hw as [He Hw]. specialize (IH Hg Hw).
  cbn [map walkEntries concat].
  assert (Hname : oName (objOf e) = e.1) by (destruct e as [n [s m|l]]; done).
  assert (Hdir : oDir (objOf e) = isDir e.2) by (destruct e as [n [s m|l]]; done).
  rewrite Hname, Hdir, path_Join_key, addItems_app by done. clear Hname Hdir. unfold S3ListSpec.entryItems at 1.
  destruct (hasPrefix e.1 name); [|apply IH]. cbn [negb].
  destruct (isDir e.2) eqn:Ed.
  - destruct delimited; simpl andb.
    + cbn [addItems addItem]. destruct (addPrefix_ p _) as [p' [|]]; [apply IH|done].
    + destruct (_ && _) eqn:Eskip.
      * apply andb_prop in Eskip as [H1 H2]. apply negb_true_iff in H2.
        rewrite addItems_skip; [apply IH|]. apply Forall_forall. intros x Hx.
        pose proof (full_prefix _ _ _ _ _ Hwf Hx) as Hp. destruct (e.2) as [|l]; [done|].
        destruct Hp as (s & _ & ->). rewrite pre_snoc, (assoc_L (++)), <- key_snoc. apply sle_ext; [exact H1|].
        intros t Ht. by rewrite Ht, hasPrefix_same in H2.
      * rewrite (He eq_refl). simpl. destruct (addItems p _) as [p' [|]]; [apply IH|done].
  - rewrite andb_false_r. destruct e as [n [s m|l]]; [|done]. cbn [snd fst S3ListSpec.full addItems addItem fileContent objOf oTime oSize].
    simpl. destruct (addContent p _) as [p' [|]]; [apply IH|done].
Qed.

Hypothesis ctx_alive : forall pt fp, ctxErr pt fp = None.

Lemma theight_child l e : e ∈ l -> (theight e.2 < theight (TDir l))%nat.
Proof.
  intros He. simpl. induction l as [|e' l IH]; [by apply elem_of_nil in He|]. simpl.
  apply elem_of_cons in He as [->|He]; [lia|]. specialize (IH He). lia.
Qed.

Lemma tree_at_app t a b : tree_at t (a ++ b) = (let! t' := tree_at t a in tree_at t' b).
Proof.
  revert t. induction a as [|n a IH]; intros t; [done|]. simpl. destruct t as [|l]; [done|].
  destruct (child l n); [apply IH|done].
Qed.

Lemma tree_at_height t a t' : tree_at t a = Some t' -> (theight t' <= theight t)%nat.
Proof.
  revert t. induction a as [|n a IH]; intros t H; [by injection H as ->|]. simpl in H. destruct t as [|l]; [done|].
  unfold child in H. destruct (find _ l) as [e|] eqn:E; [|done]. simpl in H. apply IH in H.
  apply find_some in E as [He _]. apply list_elem_of_In, theight_child in He. lia.
Qed.

Section Tree.
Context (base : list gostr) (root : tree).
Hypothesis base_good : Forall good_seg base.
Hypothesis root_wf : wf root.
Hypothesis served : serves base root.

Lemma read_dir dir :
  Forall good_seg dir ->
  getDirEntries ctxErr fsGet fsList (mkpath (base ++ dir)) =
    match tree_at root dir with Some (TDir l) => Ok (map objOf l) | _ => Err ErrNoSuchKey end.
Proof.
  intros Hd. specialize (served dir Hd). unfold getDirEntries, checkCtx. rewrite !ctx_alive. cbn [res_bind].
  destruct (tree_at root dir) as [t|]; [|by destruct served as [e ->]].
  destruct served as [(o & -> & ->) Hl]. destruct t as [s m|l]; [done|exact Hl].
Qed.

Lemma walkPage_items fuel : forall dir l name delimited (p : objectPage L),
  Forall good_seg dir -> tree_at root dir = Some (TDir l) -> (theight (TDir l) <= fuel)%nat ->
  walkPage now Std ctxErr fsGet fsList fuel (mkpath base) (key_of dir) name delimited p =
    Some (Ok (addItems p (top dir name delimited l))).
Proof.
  induction fuel as [|fuel IH]; intros dir l name delimited p Hd Ht Hf; [simpl in Hf; lia|].
  cbn [walkPage]. rewrite path_Join_bucket, read_dir, Ht by done. unfold checkCtx. rewrite !ctx_alive.
  cbn [res_bind]. pose proof (wf_tree_at dir root _ root_wf Ht) as Hwf.
  destruct l as [|e0 l0] eqn:El.
  - cbn [map]. unfold S3ListSpec.top. destruct (hasPrefix emptyObjectName name); [|done].
    cbn [negb addItems addItem]. unfold emptyContent. rewrite path_Join_key by (done || apply empty_good).
    unfold getFileHash. by destruct (addContent p _) as [p' [|]].
  - rewrite <- El in *. replace (top dir name delimited l) with
      (concat (map (entryItems dir name delimited) (sortBy entryKey l))) by (by subst).
    replace (map objOf l) with (objOf e0 :: map objOf l0) at 1 by (by subst). cbv iota.
    rewrite (sortBy_map entryKey listSortKey objOf) by (done || by apply entryKey_nodup).
    pose proof Hwf as (Hnd & Hg & Hw)%wf_dir. rewrite Forall_forall in Hg, Hw.
    apply walkEntries_items; [done|apply Forall_forall; intros e He; rewrite sortBy_perm in He; auto|].
    apply Forall_forall. intros e He Hdir q. rewrite sortBy_perm in He. pose proof (theight_child l e He).
    destruct (e.2) as [s m|l'] eqn:Ee; [done|].
    rewrite full_top by (rewrite <- Ee; auto). apply IH; [|by rewrite tree_at_app, Ht; simpl; 
      rewrite (proj2 (child_Some l e.1 (TDir l') Hnd)) by (rewrite <- Ee; by destruct e)|lia].
    apply Forall_app. auto.
Qed.

(** ** ListBucket *)
Context (getAndParseBuckets : res s3err (list Bucket)) (bucketName : gostr).
Hypothesis bucket_found :
  getBucketByName getAndParseBuckets bucketName = Ok (mkBucket bucketName (mkpath base)).

Notation ListBucket := (ListBucket (L := L) now Std ctxErr fsGet fsList getAndParseBuckets).

Lemma prefixParser_pre dir name :
  slash ∉ name -> prefixParser (pre dir ++ name) = (key_of dir, name).
Proof.
  intros Hn. unfold prefixParser, pre. destruct dir as [|w dir].
  - simpl. by rewrite (proj2 (lastIndexByte_None name slash)).
  - rewrite <- (assoc_L (++)). change ("/" ++ name) with (slash :: name). rewrite lastIndexByte_app by done.
    rewrite take_app_length. by rewrite <- Nat.add_1_r, drop_app_add.
Qed.

(** The next page of the listing [items] after the marker of the request. *)
Definition isPage (page : ListBucketPage) (items : list item) (p : objectPage L) : Prop :=
  let p0 := newObjectPage (L := L) page in
  let want := after (marker p0) items in
  let taken := take (Z.to_nat (maxKeys p0)) want in
  Contents (result p) = omap contentOf taken /\ CommonPrefixes (result p) = omap prefixOf taken /\
  IsTruncated p = bool_decide (maxKeys p0 < Z.of_nat (length want)) /\
  NextMarker p = if IsTruncated p then from_option ikey [] (last taken) else [].

Definition asked (dir : list gostr) (name : gostr) (hasDelimiter : bool) (delimiter : gostr) : Prefix :=
  mkPrefix true (pre dir ++ name) hasDelimiter delimiter.

Definition delimits (pfx : Prefix) : bool :=
  if seqb (trimSpace (Delimiter pfx)) [] then false else HasDelimiter pfx.

Lemma addItem_next p i : NextMarker (addItem (L := L) p i).1 = NextMarker p.
Proof. destruct i; simpl; unfold addContent, addPrefix_; by repeat case_match. Qed.

Lemma addItems_next p l : NextMarker (addItems (L := L) p l).1 = NextMarker p.
Proof.
  revert p. induction l as [|i l IH]; intros p; simpl; [done|].
  pose proof (addItem_next p i) as H. destruct (addItem p i) as [p' [|]]; simpl in *; [by rewrite IH|done].
Qed.

Lemma specItems_sorted P delimited dir name :
  P = pre dir ++ name -> slash ∉ name -> Forall good_seg dir -> isDir root = true ->
  StronglySorted ilt (specItems now Std P delimited root).
Proof.
  intros -> Hn Hd Hr. rewrite spec_top by done. destruct (tree_at root dir) as [[|l]|] eqn:Ht; try constructor.
  apply top_sorted. by eapply wf_tree_at.
Qed.

Lemma listBucket_spec fuel pfx dir name page :
  PrefixStr pfx = pre dir ++ name -> slash ∉ name -> Forall good_seg dir -> isDir root = true ->
  (theight root <= fuel)%nat ->
  exists p, ListBucket fuel bucketName (Some pfx) page = Some (Ok p) /\
    isPage page (specItems now Std (PrefixStr pfx) (delimits pfx) root) p.
Proof.
  intros HP Hn Hd Hr Hf. unfold S3List.ListBucket. rewrite bucket_found.
  change (default emptyPrefix (Some pfx)) with pfx. cbn [bPath]. fold (delimits pfx).
  rewrite HP, prefixParser_pre by done. unfold listPage.
  pose proof (specItems_sorted _ (delimits pfx) dir name eq_refl Hn Hd Hr) as Hs. rewrite spec_top in * by done.
  assert (Hmiss : forall fuel', fuel = S fuel' -> (forall l, tree_at root dir <> Some (TDir l)) ->
    walkPage now Std ctxErr fsGet fsList fuel (mkpath base) (key_of dir) name (delimits pfx)
      (newObjectPage (L := L) page) = Some (Err ErrNoSuchKey)).
  { intros fuel' -> Hno. cbn [walkPage].
    rewrite path_Join_bucket, read_dir by done. unfold checkCtx. rewrite !ctx_alive. cbn [res_bind].
    destruct (tree_at root dir) as [[|l]|]; try done. by destruct (Hno l). }
  assert (exists fuel', fuel = S fuel') as [fuel' Hfuel].
  { destruct fuel; [|eauto]. destruct root; simpl in *; [done|lia]. }
  destruct (tree_at root dir) as [[s m|l]|] eqn:Ht.
  2: { rewrite (walkPage_items fuel dir l) by (done || (apply tree_at_height in Ht; lia)).
       pose proof (addItems_new (L := L) page _ Hs) as (p & Hp & Hof & Htr). rewrite Hp. eexists. split; [done|].
       pose proof (addItems_next (newObjectPage page) (top dir name (delimits pfx) l)) as Hnx. rewrite Hp in Hnx.
       cbn [fst] in Hnx. destruct Hof as [Hc Hq _ Hl _]. unfold isPage, finish.
       destruct (IsTruncated p) eqn:E; cbn [result IsTruncated NextMarker]; rewrite ?E; auto. }
  all: rewrite (Hmiss _ Hfuel) by done; simpl; eexists; split; [done|]; unfold isPage; simpl;
    rewrite take_nil; rewrite new_contents, new_prefixes; split_and!; try done.
  all: symmetry; apply bool_decide_eq_false; unfold maxListPageKeys; destruct (_ || _) eqn:E; bool_hyps; lia.
Qed.
(** ** A client that follows the markers *)
Lemma top_key_ne dir name delimited l :
  wf (TDir l) -> Forall (fun i => ikey i <> []) (top dir name delimited l).
Proof.
  intros Hwf. destruct l as [|e0 l0] eqn:El.
  - simpl. destruct (hasPrefix _ _); repeat constructor. cbn [ikey Key]. rewrite key_snoc. by intros []%app_nil.
  - rewrite <- El in *. replace (top dir name delimited l) with
      (concat (map (entryItems dir name delimited) (sortBy entryKey l))) by (by subst).
    apply wf_dir in Hwf as (_ & Hg & Hw). rewrite Forall_forall in Hg, Hw. apply Forall_forall.
    intros i (e & He & Hi)%elem_concat_map. rewrite sortBy_perm in He.
    apply entryItems_key in Hi as (s & -> & _); [|by apply Hw]. rewrite entryKey_eq.
    destruct (Hg e He) as (Hne & _). by intros [_ [[? _]%app_nil _]%app_nil]%app_nil.
Qed.

Lemma after_all l : Forall (fun i => ikey i <> []) l -> after [] l = l.
Proof. induction 1 as [|i l Hi _ IH]; [done|]. simpl. destruct (ikey i); [done|]. simpl. by rewrite IH. Qed.

Lemma after_app mark a b : after mark (a ++ b) = after mark a ++ after mark b.
Proof. apply List.filter_app. Qed.

Lemma after_none mark l : Forall (fun i => sle (ikey i) mark) l -> after mark l = [].
Proof.
  induction 1 as [|i l Hi _ IH]; [done|]. simpl. destruct (str_ltb mark (ikey i)) eqn:E; [|done].
  by apply sle_not_slt in Hi.
Qed.

Lemma after_keep mark l : Forall (fun i => slt mark (ikey i)) l -> after mark l = l.
Proof. unfold slt. induction 1 as [|i l Hi _ IH]; [done|]. simpl. by rewrite Hi, IH. Qed.

Lemma after_sorted mark l : StronglySorted ilt l -> StronglySorted ilt (after mark l).
Proof.
  induction 1 as [|i l _ IH Hi]; [constructor|]. simpl. destruct (str_ltb _ _); [|done]. constructor; [done|].
  rewrite Forall_forall in *. intros j Hj. apply list_elem_of_In, filter_In in Hj as [Hj _]. by apply Hi, list_elem_of_In.
Qed.

(** What follows the last key of a page is the rest of the listing. *)
Lemma after_last mark l n i :
  StronglySorted ilt l -> last (take n (after mark l)) = Some i ->
  after (ikey i) l = drop n (after mark l).
Proof.
  intros Hs Hl. pose proof (after_sorted mark l Hs) as Ha.
  assert (Hout : after (ikey i) l = after (ikey i) (after mark l)).
  { assert (Hin : slt mark (ikey i)).
    { assert (Hi : i ∈ after mark l) by (apply last_Some_elem_of, elem_of_take in Hl as (? & Hl & _); by apply list_elem_of_lookup_2 in Hl).
      apply list_elem_of_In, filter_In in Hi. apply Hi. }
    clear -Hin. induction l as [|j l IH]; [done|]. simpl. destruct (str_ltb mark (ikey j)) eqn:E; simpl.
    - by rewrite IH.
    - destruct (str_ltb (ikey i) (ikey j)) eqn:E2; [|done]. assert (slt mark (ikey j)) by (by trans (ikey i)).
      unfold slt in *. congruence. }
  rewrite Hout. rewrite <- (take_drop n (after mark l)) at 1. rewrite after_app.
  assert (Hsp : take n (after mark l) ++ drop n (after mark l) = after mark l) by apply take_drop.
  apply last_Some in Hl as [a Ha']. rewrite Ha' in Hsp |- *. rewrite <- Hsp, <- (assoc_L (++)) in Ha.
  apply StronglySorted_app in Ha as (Hab & _ & Hib). simpl in Hib. apply StronglySorted_inv in Hib as [_ Hib].
  rewrite after_none, after_keep; [done|exact Hib|]. apply Forall_app. split; [|repeat constructor; by apply sle_slt; left].
  apply Forall_forall. intros j Hj. apply sle_slt. right. apply (Hab j i Hj). by left.
Qed.

Fixpoint readAll (rounds fuel : nat) (pfx : Prefix) (page : ListBucketPage)
    : option (list Content * list gostr) :=
  match rounds with
  | O => None
  | S rounds' =>
      match ListBucket fuel bucketName (Some pfx) page with
      | Some (Ok p) =>
          if IsTruncated p then
            let! (cs, ps) := readAll rounds' fuel pfx (mkListPage (NextMarker p) true (pMaxKeys page)) in
            Some (Contents (result p) ++ cs, CommonPrefixes (result p) ++ ps)
          else Some (Contents (result p), CommonPrefixes (result p))
      | _ => None
      end
  end.

Lemma readAll_spec rounds fuel pfx dir name page :
  PrefixStr pfx = pre dir ++ name -> slash ∉ name -> Forall good_seg dir -> isDir root = true ->
  (theight root <= fuel)%nat ->
  let want := after (marker (newObjectPage (L := L) page)) (specItems now Std (PrefixStr pfx) (delimits pfx) root) in
  (length want < rounds)%nat ->
  readAll rounds fuel pfx page = Some (omap contentOf want, omap prefixOf want).
Proof.
  intros HP Hn Hd Hr Hf. pose proof (specItems_sorted _ (delimits pfx) dir name HP Hn Hd Hr) as Hs.
  revert page. induction rounds as [|rounds IH]; intros page want Hw; [lia|].
  cbn [readAll]. destruct (listBucket_spec fuel pfx dir name page HP Hn Hd Hr Hf) as (p & -> & Hc & Hp & Ht & Hnx).
  fold want in Hc, Hp, Ht, Hnx. set (max := maxKeys (newObjectPage (L := L) page)) in *.
  assert (Hmax : 0 < max).
  { unfold max, newObjectPage, maxListPageKeys. simpl. destruct (_ || _) eqn:E; bool_hyps; lia. }
  rewrite Ht in Hnx |- *. case_bool_decide as Hlen.
  - destruct (last (take (Z.to_nat max) want)) as [i|] eqn:El.
    2: { apply last_None in El. apply (f_equal length) in El. rewrite length_take in El. simpl in El. lia. }
    pose proof (after_last _ _ _ _ Hs El) as Hdrop. fold want in Hdrop. rewrite Hnx. cbn [from_option].
    rewrite (IH (mkListPage (ikey i) true (pMaxKeys page))); cbn [newObjectPage marker HasMarker pMarker];
      rewrite Hdrop; [|rewrite length_drop; lia]. simpl. rewrite Hc, Hp, <- !omap_app, take_drop. done.
  - rewrite take_ge in Hc, Hp by lia. by rewrite Hc, Hp.
Qed.
(** ** The theorems *)


(** C19: a client that starts without a marker and follows NextMarker while the
    answers are truncated gets the whole listing: every object with the prefix
    and every common prefix, once and in the order of the keys, whatever the
    page size. It needs at most one request more than there are items. *)
Theorem listing_complete rounds fuel pfx dir name max :
  PrefixStr pfx = pre dir ++ name -> slash ∉ name -> Forall good_seg dir -> isDir root = true ->
  (theight root <= fuel)%nat ->
  let items := specItems now Std (PrefixStr pfx) (delimits pfx) root in
  (length items < rounds)%nat ->
  readAll rounds fuel pfx (mkListPage [] false max) = Some (omap contentOf items, omap prefixOf items) /\
  StronglySorted ilt items.
Proof.
  intros HP Hn Hd Hr Hf items Hlen. split; [|by eapply specItems_sorted].
  assert (Hall : after [] items = items).
  { apply after_all. unfold items. rewrite HP, spec_top by done.
    destruct (tree_at root dir) as [[|l]|] eqn:Ht; try constructor. apply top_key_ne. by eapply wf_tree_at. }
  rewrite (readAll_spec rounds fuel pfx dir name) by (done || (cbn [newObjectPage marker HasMarker]; by fold items; rewrite Hall)).
  cbn [newObjectPage marker HasMarker]. fold items. by rewrite Hall.
Qed.
End Tree.
End Walk.
Arguments ListBucket {L OL}.

(** ** A prefix that leaves the bucket *)
Section Escape.
Context {L : Type} {OL : ObjectList L} {OLL : ObjectListLaws L}.
Context (now : Z) (Std : gostr) (ctxErr : ctxPoint -> gostr -> option s3err).
Context (fsGet : gostr -> res s3err Obj) (fsList : gostr -> res s3err (list Obj)).
Context (getAndParseBuckets : res s3err (list Bucket)).

Lemma join_parent base b :
  Forall good_seg base -> good_seg b -> path_Join [mkpath (base ++ [b]); ".." : gostr] = mkpath base.
Proof.
  intros Hb Hg. change (path_Clean (mkpath (base ++ [b]) ++ slash :: "..") = mkpath base).
  assert (Hall : Forall good_seg (base ++ [b])) by (apply Forall_app; auto).
  unfold mkpath at 1. rewrite <- app_comm_cons, rooted_clean.
  rewrite splitByte_join_app by (first [by apply good_seg_no_slash | by destruct base]).
  rewrite cleanSegs_app, (cleanSegs_id true [] (base ++ [b])), app_nil_r, rev_app_distr by done.
  change (rev [b] ++ rev base) with (b :: rev base). rewrite splitByte_nosep by (by apply (bool_decide_eq_true_1 (slash ∉ (".." : gostr)))).
  destruct Hg as (_ & _ & Hdd & _). simpl. rewrite (proj2 (seqb_false b "..")) by done. simpl. by rewrite rev_involutive.
Qed.

Lemma join_dotdot n : good_seg n -> path_Join [".." : gostr; n] = "../" ++ n.
Proof.
  intros (Hne & H1 & H2 & H3). unfold path_Join. rewrite !filter_cons_True by done.
  change (path_Clean (".." ++ slash :: n) = "../" ++ n). unfold path_Clean.
  rewrite splitByte_app by (by apply (bool_decide_eq_true_1 (slash ∉ (".." : gostr)))).
  rewrite splitByte_nosep by done. simpl. by rewrite (proj2 (seqb_false n "")), (proj2 (seqb_false n ".")), (proj2 (seqb_false n "..")) by done.
Qed.

(** Defect: the prefix of a request is not confined to the bucket. With prefix
    "../" ListBucket lists the directory above the bucket's. *)
Theorem listBucket_escapes base b bucketName n size mtime fuel :
  Forall good_seg base -> good_seg b -> good_seg n ->
  (forall pt fp, ctxErr pt fp = None) ->
  getBucketByName getAndParseBuckets bucketName = Ok (mkBucket bucketName (mkpath (base ++ [b]))) ->
  fsGet (mkpath base) = Ok (mkObj [] true 0 0) ->
  fsList (mkpath base) = Ok [mkObj n false size mtime] ->
  exists p, ListBucket (L := L) now Std ctxErr fsGet fsList getAndParseBuckets (S fuel) bucketName
      (Some (mkPrefix true "../" false [])) (mkListPage [] false 1000) = Some (Ok p) /\
    Contents (result p) = [mkContent ("../" ++ n) mtime [] size Std].
Proof.
  intros Hb Hg Hn Hctx Hbk Hget Hlist. unfold ListBucket. rewrite Hbk.
  change (prefixParser _) with ((".." : gostr), ([] : gostr)). cbn [bPath]. unfold listPage. cbn [walkPage].
  rewrite join_parent by done. unfold getDirEntries, checkCtx. rewrite !Hctx, Hget, Hlist.
  cbn [res_bind oDir negb]. cbn -[path_Join newObjectPage addContent finish].
  rewrite join_dotdot by done. unfold addContent. cbn -[finish].
  eexists. split; [done|]. cbn. by rewrite add_contents, new_contents.
Qed.
End Escape.

(** ** An example *)
Definition plain : Type := list Content * list gostr.

#[export] Instance plain_list : ObjectList plain := {
  NewObjectList := ([], []);
  Add l c := (l.1 ++ [c], l.2);
  AddPrefix l p := (l.1, if decide (p ∈ l.2) then l.2 else l.2 ++ [p]);
  Contents := fst;
  CommonPrefixes := snd
}.

#[export] Instance plain_laws : ObjectListLaws plain.
Proof. split; try done. intros l p H. simpl. by rewrite decide_False. Qed.

Definition treeGet (root : tree) (p : gostr) : res s3err Obj :=
  match tree_at root (drop 2 (splitByte p slash)) with
  | Some t => Ok (mkObj [] (isDir t) 0 0)
  | None => Err (OtherErr 0)
  end.
Definition treeList (root : tree) (p : gostr) : res s3err (list Obj) :=
  match tree_at root (drop 2 (splitByte p slash)) with
  | Some (TDir l) => Ok (map objOf l)
  | _ => Err (OtherErr 1)
  end.

Lemma tree_serves root w : good_seg w -> serves (treeGet root) (treeList root) [w] root.
Proof.
  intros Hw segs Hs. unfold treeGet, treeList. rewrite split_mkpath by (by apply Forall_cons). simpl. rewrite drop_0.
  destruct (tree_at root segs) as [[s m|l]|]; eauto.
Qed.

Definition demoTree : tree :=
  TDir [("b" : gostr, TDir [("x" : gostr, TFile 3 7); ("y" : gostr, TDir [])]);
        ("c" : gostr, TFile 1 9); ("b.txt" : gostr, TFile 5 8)].
Definition bkt : gostr := "bkt".
Definition demoBuckets : res s3err (list Bucket) := Ok [mkBucket bkt (mkpath [bkt])].
Definition noErr : ctxPoint -> gostr -> option s3err := fun _ _ => None.
Definition demoPrefix : Prefix := mkPrefix true "b" true "/".

Lemma bkt_good : good_seg bkt.
Proof. repeat split; try done. by apply (bool_decide_eq_true_1 (slash ∉ bkt)). Qed.

Lemma demo_wf : wf demoTree.
Proof.
  repeat split; repeat constructor; try done;
    try (by apply (bool_decide_eq_true_1 (_ ∉ _))).
Qed.

(** The listing of "b" with a delimiter, in two pages of one item. *)
Example listing_demo :
  readAll (L := plain) 0 [] noErr (treeGet demoTree) (treeList demoTree) demoBuckets bkt 3 2 demoPrefix
    (mkListPage [] false 1) =
  Some ([mkContent "b.txt" 8 [] 5 []], ["b/" : gostr]).
Proof. vm_compute. reflexivity. Qed.


Lemma listing_complete_witness :
  readAll (L := plain) 0 [] noErr (treeGet demoTree) (treeList demoTree) demoBuckets bkt 6 3
      (mkPrefix false [] false []) (mkListPage [] false 1) =
    Some (omap contentOf (specItems 0 [] [] false demoTree), omap prefixOf (specItems 0 [] [] false demoTree)) /\
  StronglySorted ilt (specItems 0 [] [] false demoTree).
Proof.
  refine (listing_complete 0 [] noErr (treeGet demoTree) (treeList demoTree) (fun _ _ => eq_refl) [bkt] demoTree
    _ demo_wf (tree_serves demoTree bkt bkt_good) demoBuckets bkt eq_refl 6 3 (mkPrefix false [] false []) [] [] 1
    eq_refl _ _ eq_refl _ _).
  - constructor; [apply bkt_good|constructor].
  - apply not_elem_of_nil.
  - constructor.
  - simpl. lia.
  - vm_compute. lia.
Defined.
