(* ===== verification/Mounts.v ===== *)
(** Which storage serves a path: src/internal/op/path.go and the resolution part
    of src/internal/op/storage.go (getStoragesByPath, GetBalancedStorage,
    GetStorageAndActualPath, GetStorageVirtualMountPath,
    getStorageVirtualFilesByPath without a details callback), with
    GetActualMountPath and GetFullPath of src/pkg/utils.

    A driver is an element of a type [D] with its storage record. The functions
    take the entries of storagesMap as a list, in the order in which Range
    happens to visit them. *)
From S2P Require Import Prelude GoString GoOrder GoPath Paths.

(** model.Storage: the fields internal/op/storage.go works on. *)
Record Storage := mkStorage {
  sID : Z; MountPath : gostr; Order : Z; DriverName : gostr; Status : gostr;
  Addition : gostr; Remark : gostr; sModified : Z; Disabled : bool
}.

#[export] Instance Storage_eq : EqDecision Storage.
Proof. solve_decision. Defined.

(** model.ObjMask *)
Definition Virtual : Z := 1.
Definition NoRename : Z := 2.
Definition NoRemove : Z := 4.
Definition NoMove : Z := 8.
Definition NoCopy : Z := 16.
Definition NoWrite : Z := 32.
Definition Locked : Z := Z.lor (Z.lor NoRename NoRemove) NoMove.
Definition ReadOnly : Z := Z.lor Locked NoWrite.

(** model.Object of a virtual file *)
Record VObject := mkVObject { vName : gostr; vModified : Z; vFolder : bool; vMask : Z }.

Inductive op_err := StorageNotFound (msg : gostr).

Definition balance : gostr := ".balance".

(** strings.LastIndex *)
Fixpoint lastIndex (s sub : gostr) : option nat :=
  match s with
  | [] => if bool_decide (sub = []) then Some 0%nat else None
  | _ :: s' =>
      match lastIndex s' sub with
      | Some i => Some (S i)
      | None => if hasPrefix s sub then Some 0%nat else None
      end
  end.

Definition GetActualMountPath (mountPath : gostr) : gostr :=
  match lastIndex mountPath balance with
  | Some i => take i mountPath
  | None => mountPath
  end.

Definition GetFullPath (mountPath path : gostr) : gostr :=
  path_Join [GetActualMountPath mountPath; path].

(** strings.Count of a byte *)
Definition countByte (s : gostr) (c : ascii) : Z :=
  Z.of_nat (length (filter (fun d => d = c) s)).

(** strings.CutPrefix *)
Definition cutPrefix (s p : gostr) : option gostr :=
  if hasPrefix s p then Some (drop (length p) s) else None.

Section Resolve.
Context {D : Type} (GetStorage : D -> Storage).

Definition mountOf (d : D) : gostr := MountPath (GetStorage d).

(** ** Resolution *)

(** The callback of storagesMap.Range in getStoragesByPath. *)
Definition rangeStep (path : gostr) (acc : list D * Z) (entry : gostr * D) : list D * Z :=
  let '(storages, curSlashCount) := acc in
  let mountPath := GetActualMountPath entry.1 in
  if isSubPath mountPath path then
    let slashCount := countByte (pathAddSeparatorSuffix mountPath) slash in
    let '(storages, curSlashCount) :=
      if curSlashCount <? slashCount then ([], slashCount) else (storages, curSlashCount) in
    if slashCount =? curSlashCount then (storages ++ [entry.2], curSlashCount)
    else (storages, curSlashCount)
  else (storages, curSlashCount).

Definition getStoragesByPath (entries : list (gostr * D)) (path : gostr) : list D :=
  sortBy mountOf (foldl (rangeStep path) ([], 0) entries).1.

(** GetBalancedStorage: [balanceMap] is the counter of each group. *)
Definition GetBalancedStorage (entries : list (gostr * D)) (balanceMap : gmap gostr Z) (path : gostr)
    : gmap gostr Z * option D :=
  let path := fixAndCleanPath path in
  let storages := getStoragesByPath entries path in
  let storageNum := Z.of_nat (length storages) in
  match storages with
  | [] => (balanceMap, None)
  | [s] => (balanceMap, Some s)
  | s0 :: _ =>
      let virtualPath := GetActualMountPath (mountOf s0) in
      let i := default 0 (balanceMap !! virtualPath) in
      let i := Z.rem (i + 1) storageNum in
      (<[virtualPath := i]> balanceMap, storages !! Z.to_nat i)
  end.

Definition notFound (rawPath : gostr) : op_err :=
  if seqb rawPath "/" then StorageNotFound "please add a storage first"
  else StorageNotFound ("rawPath: " ++ rawPath).

Definition GetStorageAndActualPath (entries : list (gostr * D)) (balanceMap : gmap gostr Z)
    (rawPath : gostr) : gmap gostr Z * res op_err (D * gostr) :=
  let rawPath := fixAndCleanPath rawPath in
  let '(balanceMap, storage) := GetBalancedStorage entries balanceMap rawPath in
  match storage with
  | None => (balanceMap, Err (notFound rawPath))
  | Some d =>
      let mountPath := GetActualMountPath (mountOf d) in
      (balanceMap, Ok (d, fixAndCleanPath (trimPrefix rawPath mountPath)))
  end.

Definition GetStorageVirtualMountPath (entries : list (gostr * D)) (rawPath : gostr)
    : res op_err gostr :=
  let rawPath := fixAndCleanPath rawPath in
  match getStoragesByPath entries rawPath with
  | [] => Err (notFound rawPath)
  | s0 :: _ => Ok (fixAndCleanPath (GetActualMountPath (mountOf s0)))
  end.

(** ** Virtual files *)

(** The order of the listing: Order, then the mount path. *)
Definition orderLe (a b : D) : bool :=
  if Order (GetStorage a) =? Order (GetStorage b) then str_leb (mountOf a) (mountOf b)
  else Order (GetStorage a) <=? Order (GetStorage b).

Fixpoint insertOrd (d : D) (l : list D) : list D :=
  match l with
  | [] => [d]
  | e :: l' => if orderLe d e then d :: l else e :: insertOrd d l'
  end.
Fixpoint sortOrd (l : list D) : list D :=
  match l with [] => [] | d :: l' => insertOrd d (sortOrd l') end.

(** [files[idx].Mask = m] *)
Definition setMask (files : list VObject) (idx : nat) (m : Z) : list VObject :=
  alter (fun o => mkVObject (vName o) (vModified o) (vFolder o) m) idx files.

(** The body of the loop; [set] maps a name to its index in [files]. *)
Definition virtualStep (prefix filterByName : gostr) (acc : list VObject * gmap gostr nat) (v : D)
    : list VObject * gmap gostr nat :=
  let '(files, set) := acc in
  match cutPrefix (GetActualMountPath (mountOf v)) prefix with
  | None => acc
  | Some p =>
      if seqb p [] then acc
      else
        let '(name, _, found) := cutByte p slash in
        if negb (seqb filterByName []) && negb (seqb name filterByName) then acc
        else
          match set !! name with
          | Some idx =>
              (if found then files else setMask files idx (Z.lor Locked Virtual), set)
          | None =>
              let mask := if found then Z.lor ReadOnly Virtual else Z.lor Locked Virtual in
              (files ++ [mkVObject name (sModified (GetStorage v)) true mask],
               <[name := length files]> set)
          end
  end.

Definition getStorageVirtualFilesByPath (values : list D) (prefix filterByName : gostr) : list VObject :=
  let storages := sortOrd values in
  let prefix := if hasSuffix prefix "/" then prefix else prefix ++ "/" in
  (foldl (virtualStep prefix filterByName) ([], ∅) storages).1.

Definition GetStorageVirtualFilesByPath (values : list D) (prefix : gostr) : list VObject :=
  getStorageVirtualFilesByPath values prefix [].
End Resolve.

(** ** Examples: the tests of storage_test.go *)
Definition demoStorage (m : string) (o : Z) : Storage :=
  mkStorage 0 m o "Local" [] [] [] 0 false.
Definition demoMounts : list Storage :=
  [demoStorage "/a/b" 0; demoStorage "/adc" 0; demoStorage "/a/c" 1; demoStorage "/a/d" 2;
   demoStorage "/a/d/e1" 3; demoStorage "/a/d/e" 4; demoStorage "/a/d/e1.balance" 4].
Definition demoEntries : list (gostr * Storage) := map (fun s => (MountPath s, s)) demoMounts.

Example virtual_ex :
  map vName (GetStorageVirtualFilesByPath id demoMounts "/a") = strs ["b"; "c"; "d"].
Proof. vm_compute. reflexivity. Qed.

Example balanced_ex :
  (fun r => (MountPath r.1, r.2)) <$>
    match (GetStorageAndActualPath id demoEntries ∅ "/a/d/e1/x/../y").2 with Ok r => Some r | _ => None end
  = Some (("/a/d/e1.balance" : gostr), ("/y" : gostr)).
Proof. vm_compute. reflexivity. Qed.
