(* ===== verification/MountsSpec.v ===== *)
(** Path resolution is the longest mounted prefix, element by element: the
    theorems on [Mounts]. *)
From stdpp Require Import sorting.
From S2P Require Import Prelude GoString GoOrder GoPath Paths Mounts.

(** ** Mount paths *)

(** The mount path without its balance suffix is clean. *)
Definition actual_clean (m : gostr) : Prop :=
  fixAndCleanPath (GetActualMountPath m) = GetActualMountPath m.

Definition mount_segs (m : gostr) : list gostr := norm_segs (GetActualMountPath m).

Lemma actual_mkpath m : actual_clean m -> GetActualMountPath m = mkpath (mount_segs m).
Proof. unfold actual_clean, mount_segs. intros H. by rewrite <- fixAndCleanPath_mkpath. Qed.

Lemma mount_segs_good m : Forall good_seg (mount_segs m).
Proof. apply norm_segs_good. Qed.

Lemma countByte_app a b c : countByte (a ++ b) c = countByte a c + countByte b c.
Proof. unfold countByte. rewrite filter_app, length_app. lia. Qed.

Lemma countByte_none a c : c ∉ a -> countByte a c = 0.
Proof.
  intros H. unfold countByte. replace (filter (fun d => d = c) a) with ([] : gostr); [done|].
  symmetry. induction a as [|x a IH]; [done|]. apply not_elem_of_cons in H as [Hx Ha].
  rewrite filter_cons_False by congruence. by apply IH.
Qed.

Lemma count_join l : l <> [] -> Forall (fun w => slash ∉ w) l ->
  countByte (joinStr l [slash]) slash = Z.of_nat (length l) - 1.
Proof.
  induction l as [|w l IH]; [done|]. intros _ [Hw Hl]%Forall_cons. destruct l as [|v l].
  - simpl. by rewrite countByte_none.
  - rewrite joinStr_cons, !countByte_app, IH, countByte_none by done.
    change (countByte [slash] slash) with 1. cbn [length]. lia.
Qed.

Lemma slash_count l : Forall good_seg l ->
  countByte (pathAddSeparatorSuffix (mkpath l)) slash = Z.of_nat (length l) + 1.
Proof.
  intros H. rewrite addSep_mkpath by done. destruct l as [|w l]; [done|].
  unfold mkpath. change (slash :: joinStr (w :: l) [slash]) with ([slash] ++ joinStr (w :: l) [slash]).
  rewrite !countByte_app, count_join by (done || by apply good_seg_no_slash).
  change (countByte [slash] slash) with 1. lia.
Qed.

Lemma clean_join l : Forall clean_seg l -> backslash ∉ joinStr l [slash].
Proof.
  induction l as [|w l IH]; intros H; [apply not_elem_of_nil|]. apply Forall_cons in H as [[_ Hw] H].
  destruct l as [|v l]; [done|]. rewrite joinStr_cons, !not_elem_of_app by done. repeat split; [done| |by apply IH].
  apply not_elem_of_cons. split; [done|apply not_elem_of_nil].
Qed.

Section Spec.
Context {D : Type} (GetStorage : D -> Storage).
Notation mountOf := (mountOf GetStorage).

(** What Range yields: keys are the mount paths of the drivers, once each. *)
Record entries_ok (entries : list (gostr * D)) : Prop := {
  ent_key e : e ∈ entries -> e.1 = mountOf e.2;
  ent_nodup : NoDup (map fst entries);
  ent_clean e : e ∈ entries -> actual_clean e.1;
}.

Definition covers (path : gostr) (e : gostr * D) : Prop := mount_segs e.1 `prefix_of` norm_segs path.
Definition depth (e : gostr * D) : nat := length (mount_segs e.1).

#[export] Instance covers_dec path e : Decision (covers path e).
Proof. unfold covers. apply _. Defined.

Definition matching (path : gostr) (n : nat) (entries : list (gostr * D)) : list (gostr * D) :=
  filter (fun e => covers path e /\ depth e = n) entries.

Lemma sub_covers path e : isSubPath (GetActualMountPath e.1) path = true <-> covers path e.
Proof. apply isSubPath_segs. Qed.

Lemma range_inv path entries :
  (forall e, e ∈ entries -> actual_clean e.1) ->
  let '(st, cur) := foldl (rangeStep path) ([], 0) entries in
  0 <= cur /\ (forall e, e ∈ entries -> covers path e -> Z.of_nat (depth e) + 1 <= cur) /\
  ((cur = 0 /\ st = []) \/
   st = map snd (matching path (Z.to_nat (cur - 1)) entries) /\ 1 <= cur /\ st <> []).
Proof.
  induction entries as [|e entries IH] using rev_ind; intros Hc.
  - simpl. split; [lia|]. split; [intros e He; by apply elem_of_nil in He|by left].
  - rewrite foldl_app. simpl. destruct (foldl _ _ _) as [st cur]. 
    destruct IH as (H0 & Hmax & Hst); [intros e' He'; apply Hc, elem_of_app; by left|].
    assert (Hcl : actual_clean e.1) by (apply Hc, elem_of_app; right; by left).
    assert (Hcount : countByte (pathAddSeparatorSuffix (GetActualMountPath e.1)) slash = Z.of_nat (depth e) + 1)
      by (rewrite actual_mkpath by done; apply slash_count, mount_segs_good).
    unfold rangeStep. rewrite Hcount.
    assert (Hmax' : forall c, cur <= c -> Z.of_nat (depth e) + 1 <= c \/ ~ covers path e ->
      forall e', e' ∈ entries ++ [e] -> covers path e' -> Z.of_nat (depth e') + 1 <= c).
    { intros c Hle Hor e' [He'|He'%list_elem_of_singleton]%elem_of_app Hcov; [specialize (Hmax e' He' Hcov); lia|].
      subst e'. destruct Hor; [done|done]. }
    unfold matching in *. destruct (isSubPath _ _) eqn:E.
    2: { assert (Hn : ~ covers path e) by (rewrite <- sub_covers; congruence). split; [done|].
         split; [apply Hmax'; auto; lia|]. rewrite filter_app, filter_cons_False, app_nil_r by tauto. done. }
    apply sub_covers in E. destruct (Z.ltb_spec cur (Z.of_nat (depth e) + 1)).
    + rewrite Z.eqb_refl. split; [lia|]. split; [apply Hmax'; [lia|by left]|]. right. split; [|split; [lia|done]].
      replace (Z.to_nat (Z.of_nat (depth e) + 1 - 1)) with (depth e) by lia.
      rewrite filter_app, filter_cons_True, map_app by done.
      replace (filter _ entries) with ([] : list (gostr * D)); [done|]. symmetry.
      assert (Hno : forall e', e' ∈ entries -> ~ (covers path e' /\ depth e' = depth e)).
      { intros e' He' [Hcov Hd]. specialize (Hmax e' He' Hcov). lia. }
      clear -Hno. induction entries as [|x l IHl]; [done|]. rewrite filter_cons_False by (apply Hno; by left).
      apply IHl. intros e' He'. apply Hno. by right.
    + destruct Hst as [[-> ->]|(Hst & H1 & Hne)]; [lia|].
      destruct (Z.eqb_spec (Z.of_nat (depth e) + 1) cur) as [Heq|Hneq].
      * split; [done|]. split; [apply Hmax'; [lia|left; lia]|]. right. split; [|split; [done|by destruct st]].
        rewrite filter_app, filter_cons_True, map_app, Hst; [done|]. split; [done|lia].
      * split; [done|]. split; [apply Hmax'; [lia|left; lia]|]. right. split; [|done].
        rewrite filter_app, filter_cons_False, app_nil_r; [done|]. intros [_ ?]. lia.
Qed.

(** ** The longest mounted prefix *)
Definition longest (path : gostr) (entries : list (gostr * D)) (e : gostr * D) : Prop :=
  covers path e /\ Forall (fun e' => covers path e' -> (depth e' <= depth e)%nat) entries.

#[export] Instance longest_dec path entries e : Decision (longest path entries e).
Proof. unfold longest. apply _. Defined.

Lemma filter_ext_in {A} (P Q : A -> Prop) `{!forall x, Decision (P x)} `{!forall x, Decision (Q x)} (l : list A) :
  (forall x, x ∈ l -> P x <-> Q x) -> filter P l = filter Q l.
Proof.
  induction l as [|x l IH]; intros Hpq; [done|]. rewrite !filter_cons, IH by (intros y Hy; apply Hpq; by right).
  pose proof (Hpq x ltac:(by left)). by repeat case_decide; try tauto.
Qed.

Lemma range_longest path entries :
  (forall e, e ∈ entries -> actual_clean e.1) ->
  (foldl (rangeStep path) ([], 0) entries).1 = map snd (filter (longest path entries) entries).
Proof.
  intros Hc. pose proof (range_inv path entries Hc) as H. destruct (foldl _ _ _) as [st cur].
  destruct H as (_ & Hmax & [[-> ->]|(-> & H1 & Hne)]); simpl.
  - rewrite (filter_ext_in _ (fun _ => False)); [by clear; induction entries|].
    intros e He. split; [|done]. intros [Hcov _]. specialize (Hmax e He Hcov). lia.
  - f_equal. apply filter_ext_in. intros e He.
    assert (exists e0, e0 ∈ entries /\ covers path e0 /\ depth e0 = Z.to_nat (cur - 1)) as (e0 & He0 & Hc0 & Hd0).
    { unfold matching in Hne. destruct (filter _ entries) as [|e0 l] eqn:E; [done|].
      assert (Hin : e0 ∈ e0 :: l) by (by left). rewrite <- E in Hin. apply list_elem_of_filter in Hin. naive_solver. }
    unfold longest. rewrite Forall_forall. split.
    + intros [Hcov Hd]. split; [done|]. intros e' He' Hcov'. specialize (Hmax e' He' Hcov'). lia.
    + intros [Hcov Hl]. split; [done|]. specialize (Hl e0 He0 Hc0). specialize (Hmax e He Hcov). lia.
Qed.

Lemma entries_mounts entries : entries_ok entries -> map mountOf (map snd entries) = map fst entries.
Proof.
  intros [Hk _ _]. rewrite map_map. apply map_ext_in. intros e He. symmetry. apply Hk. by apply list_elem_of_In.
Qed.

Lemma longest_mounts path entries :
  entries_ok entries -> NoDup (map mountOf (map snd (filter (longest path entries) entries))).
Proof.
  intros [Hk Hn _]. rewrite map_map.
  assert (Heq : map (fun e => mountOf e.2) (filter (longest path entries) entries) =
    map fst (filter (longest path entries) entries)).
  { apply map_ext_in. intros e He%list_elem_of_In. symmetry. apply Hk. by apply list_elem_of_filter in He as []. }
  rewrite Heq. eapply sublist_NoDup; [exact Hn|]. apply fmap_sublist, sublist_filter.
Qed.

Lemma storages_eq path entries :
  entries_ok entries ->
  getStoragesByPath GetStorage entries path = sortBy mountOf (map snd (filter (longest path entries) entries)).
Proof. intros [_ _ Hc]. unfold getStoragesByPath. by rewrite range_longest. Qed.

Lemma storages_mem path entries d :
  entries_ok entries ->
  d ∈ getStoragesByPath GetStorage entries path <->
  exists e, e ∈ entries /\ e.2 = d /\ longest path entries e.
Proof.
  intros He. rewrite storages_eq, sortBy_perm, list_elem_of_fmap by done.
  setoid_rewrite list_elem_of_filter. naive_solver.
Qed.

(** The answer does not depend on the order in which Range visits the map. *)
Lemma storages_perm path entries entries' :
  entries_ok entries -> entries ≡ₚ entries' ->
  getStoragesByPath GetStorage entries path = getStoragesByPath GetStorage entries' path.
Proof.
  intros He Hp. assert (He' : entries_ok entries').
  { destruct He as [Hk Hn Hc]. split; [intros e H; rewrite <- Hp in H; auto| |intros e H; rewrite <- Hp in H; auto].
    by rewrite <- Hp. }
  rewrite !storages_eq by done. symmetry. apply sortBy_unique; [|by apply sortBy_strict, longest_mounts].
  assert (Hl : filter (longest path entries') entries' = filter (longest path entries) entries').
  { apply filter_ext_in. intros e _. unfold longest. by rewrite Hp. }
  rewrite sortBy_perm, Hl. apply Permutation_map. by apply filter_Permutation.
Qed.

(** All candidates are mounted at the same place. *)
Lemma storages_same path entries d d' :
  entries_ok entries ->
  d ∈ getStoragesByPath GetStorage entries path -> d' ∈ getStoragesByPath GetStorage entries path ->
  mount_segs (mountOf d) = mount_segs (mountOf d') /\ mount_segs (mountOf d) `prefix_of` norm_segs path.
Proof.
  intros He (e & Hin & <- & Hc & Hl)%storages_mem (e' & Hin' & <- & Hc' & Hl')%storages_mem; try done.
  rewrite <- !(ent_key _ He) by done. split; [|done]. rewrite Forall_forall in Hl, Hl'.
  specialize (Hl e' Hin' Hc'). specialize (Hl' e Hin Hc). destruct Hc as [a Ha], Hc' as [b Hb].
  rewrite Hb in Ha. apply app_inj_1 in Ha; [by symmetry; apply Ha|]. unfold depth in *. lia.
Qed.

(** ** The round robin of a group *)
Definition balance_ok (bm : gmap gostr Z) : Prop := forall k i, bm !! k = Some i -> 0 <= i.

Definition groupOf (l : list D) : gostr :=
  match l with [] => [] | d :: _ => GetActualMountPath (mountOf d) end.

Definition counter (bm : gmap gostr Z) (l : list D) : Z := default 0 (bm !! groupOf l).

Lemma counter_nonneg bm l : balance_ok bm -> 0 <= counter bm l.
Proof. intros H. unfold counter. destruct (bm !! groupOf l) eqn:E; simpl; [by eapply H|lia]. Qed.

Lemma balanced_step entries bm path l :
  balance_ok bm -> getStoragesByPath GetStorage entries (fixAndCleanPath path) = l -> (2 <= length l)%nat ->
  let i := (counter bm l + 1) mod Z.of_nat (length l) in
  GetBalancedStorage GetStorage entries bm path = (<[groupOf l := i]> bm, l !! Z.to_nat i) /\
  balance_ok (<[groupOf l := i]> bm).
Proof.
  intros Hbm Hl Hlen i. pose proof (counter_nonneg bm l Hbm). split.
  - unfold GetBalancedStorage. rewrite Hl. destruct l as [|d [|d' l']]; simpl in Hlen; [lia|lia|].
    unfold counter in i. cbn [groupOf] in *. rewrite Z.rem_mod_nonneg by (unfold counter in *; cbn [groupOf] in *; simpl; lia).
    done.
  - intros k j. rewrite lookup_insert_Some. intros [[_ <-]|[_ Hj]]; [|by eapply Hbm].
    apply Z.mod_pos_bound. lia.
Qed.

Fixpoint callAll (entries : list (gostr * D)) (bm : gmap gostr Z) (paths : list gostr) : list (option D) :=
  match paths with
  | [] => []
  | p :: paths' =>
      let '(bm, d) := GetBalancedStorage GetStorage entries bm p in d :: callAll entries bm paths'
  end.

Lemma callAll_eq entries l paths : forall bm,
  balance_ok bm -> (2 <= length l)%nat ->
  Forall (fun p => getStoragesByPath GetStorage entries (fixAndCleanPath p) = l) paths ->
  callAll entries bm paths =
    map (fun k => l !! Z.to_nat ((counter bm l + 1 + Z.of_nat k) mod Z.of_nat (length l))) (seq 0 (length paths)).
Proof.
  induction paths as [|p paths IH]; intros bm Hbm Hlen Hall; [done|].
  apply Forall_cons in Hall as [Hp Hall]. cbn [callAll length seq map].
  destruct (balanced_step entries bm p l Hbm Hp Hlen) as [-> Hbm']. rewrite Z.add_0_r. f_equal.
  rewrite (IH _ Hbm' Hlen Hall). unfold counter at 1. rewrite lookup_insert_eq. cbn [from_option].
  rewrite <- seq_shift, map_map. apply map_ext. intros k. do 2 f_equal.
  unfold id. rewrite <- Z.add_assoc, Zplus_mod_idemp_l. f_equal. lia.
Qed.

Lemma rotation {A} (l : list A) i :
  NoDup l -> (0 < length l)%nat ->
  map (fun k => l !! Z.to_nat ((i + Z.of_nat k) mod Z.of_nat (length l))) (seq 0 (length l)) ≡ₚ map Some l.
Proof.
  intros Hn Hlen. set (n := Z.of_nat (length l)).
  assert (Hidx : forall k, (Z.to_nat ((i + Z.of_nat k) mod n) < length l)%nat).
  { intros k. pose proof (Z.mod_pos_bound (i + Z.of_nat k) n ltac:(unfold n; lia)). unfold n in *. lia. }
  apply submseteq_length_Permutation; [|by rewrite !length_map, length_seq].
  apply NoDup_submseteq.
  - apply NoDup_fmap_2_strong; [|apply NoDup_seq]. intros k k' Hk Hk' Heq.
    apply elem_of_seq in Hk, Hk'. destruct (lookup_lt_is_Some_2 _ _ (Hidx k)) as [x Hx].
    assert (Hkk := NoDup_lookup l _ _ x Hn Hx (eq_trans (eq_sym Heq) Hx)).
    apply Z2Nat.inj in Hkk; [|apply Z.mod_pos_bound; unfold n; lia..].
    assert (Hd : ((i + Z.of_nat k) - (i + Z.of_nat k')) mod n = 0).
    { rewrite Zminus_mod, Hkk, Z.sub_diag. apply Z.mod_0_l. unfold n. lia. }
    replace (i + Z.of_nat k - (i + Z.of_nat k')) with (Z.of_nat k - Z.of_nat k') in Hd by lia.
    apply Z.mod_divide in Hd as [q Hq]; [|unfold n; lia]. unfold n in *. assert (q = 0) by (destruct (Z.lt_trichotomy q 0) as [?|[?|?]]; nia). subst q. lia.
  - intros x (k & -> & _)%list_elem_of_fmap. destruct (lookup_lt_is_Some_2 _ _ (Hidx k)) as [y Hy].
    fold n. rewrite Hy. apply list_elem_of_fmap_2. by eapply list_elem_of_lookup_2.
Qed.

(** ** The actual path *)
Lemma trim_mount M A :
  Forall clean_seg M -> Forall clean_seg A ->
  fixAndCleanPath (trimPrefix (mkpath (M ++ A)) (mkpath M)) = mkpath A.
Proof.
  intros HM HA. destruct M as [|m M].
  - change (mkpath ([] ++ A)) with ([slash] ++ joinStr A [slash]). change (mkpath []) with [slash].
    rewrite trimPrefix_app. rewrite fixAndCleanPath_mkpath. f_equal.
    rewrite <- (norm_segs_mkpath A) at 2 by done. unfold norm_segs, mkpath.
    destruct A as [|w A]; [done|].
    rewrite !replaceByte_id.
    + done.
    + apply not_elem_of_cons. split; [done|]. by apply clean_join.
    + by apply clean_join.
  - destruct A as [|w A].
    + rewrite app_nil_r. rewrite <- (app_nil_r (mkpath (m :: M))) at 1. rewrite trimPrefix_app. done.
    + rewrite mkpath_app, trimPrefix_app, fixAndCleanPath_mkpath, norm_segs_mkpath by done. done.
Qed.

(** ** Virtual files *)

(** What a driver shows below a directory [P]: the next element of its mount
    path, whether more elements follow, and the time of the storage. *)
Definition kid : Type := gostr * bool * Z.
Definition kname (k : kid) : gostr := k.1.1.
Definition deeper (k : kid) : bool := k.1.2.

Definition childOf (P M : list gostr) : option (gostr * bool) :=
  if decide (P `prefix_of` M) then
    match drop (length P) M with
    | [] => None
    | n :: rest => Some (n, bool_decide (rest <> []))
    end
  else None.

Definition kidOf (P : list gostr) (filterByName : gostr) (v : D) : option kid :=
  let! (n, found) := childOf P (mount_segs (mountOf v)) in
  if negb (seqb filterByName []) && negb (seqb n filterByName) then None
  else Some (n, found, sModified (GetStorage v)).

Definition addKid (acc : list VObject * gmap gostr nat) (k : kid) : list VObject * gmap gostr nat :=
  let '(files, set) := acc in
  match set !! kname k with
  | Some idx => (if deeper k then files else setMask files idx (Z.lor Locked Virtual), set)
  | None =>
      let mask := if deeper k then Z.lor ReadOnly Virtual else Z.lor Locked Virtual in
      (files ++ [mkVObject (kname k) k.2 true mask], <[kname k := length files]> set)
  end.

Lemma prefix_slash P : Forall good_seg P ->
  (if hasSuffix (mkpath P) "/" then mkpath P else mkpath P ++ "/") = pathAddSeparatorSuffix (mkpath P).
Proof. done. Qed.

Lemma cut_join n A :
  slash ∉ n -> cutByte (joinStr (n :: A) [slash]) slash = (n, joinStr A [slash], bool_decide (A <> [])).
Proof.
  intros Hs. destruct A as [|v A].
  - cbn [joinStr]. unfold cutByte. by rewrite (proj2 (indexByte_None n slash)).
  - rewrite joinStr_cons by done. change ([slash] ++ ?x) with (slash :: x). by rewrite cutByte_app.
Qed.

Lemma cut_mount P M :
  Forall clean_seg P -> Forall clean_seg M ->
  match cutPrefix (mkpath M) (pathAddSeparatorSuffix (mkpath P)) with
  | None => childOf P M = None
  | Some p => childOf P M =
      (if seqb p [] then None else let '(name, _, found) := cutByte p slash in Some (name, found))
  end.
Proof.
  intros HP HM. assert (HPg : Forall good_seg P) by (eapply Forall_impl; [exact HP|]; by intros ? []).
  assert (HMg : Forall good_seg M) by (eapply Forall_impl; [exact HM|]; by intros ? []).
  pose proof (isSubPath_segs (mkpath P) (mkpath M)) as Hsub. rewrite !norm_segs_mkpath in Hsub by done.
  unfold isSubPath in Hsub. rewrite !fixAndCleanPath_mkpath, !norm_segs_mkpath, orb_true_iff in Hsub by done.
  unfold cutPrefix, childOf. rewrite addSep_mkpath in * by done.
  destruct (decide (P `prefix_of` M)) as [[A ->]|Hno].
  - rewrite drop_app_length. destruct P as [|w P].
    + change (hasPrefix (mkpath ([] ++ A)) [slash]) with true. cbv iota.
      change (drop (length [slash]) (mkpath ([] ++ A))) with (joinStr A [slash]).
      destruct A as [|n A]; [done|]. apply Forall_cons in HMg as [(Hn & _ & _ & Hs) _].
      rewrite (proj2 (seqb_false _ _)) by (destruct A; simpl; [done|]; by intros []%app_nil).
      by rewrite cut_join.
    + destruct A as [|n A].
      * assert (E : hasPrefix (mkpath ((w :: P) ++ [])) (mkpath (w :: P) ++ [slash]) = false).
        { apply not_true_iff_false. intros E%hasPrefix_length. rewrite app_nil_r, length_app in E. simpl in E. lia. }
        by rewrite E.
      * rewrite mkpath_app by done. change (mkpath (n :: A)) with (slash :: joinStr (n :: A) [slash]).
        replace (mkpath (w :: P) ++ slash :: joinStr (n :: A) [slash])
          with ((mkpath (w :: P) ++ [slash]) ++ joinStr (n :: A) [slash]) by (by rewrite <- (assoc_L (++))).
        rewrite hasPrefix_same, drop_app_length.
        apply Forall_app in HMg as [_ [(Hn & _ & _ & Hs) _]%Forall_cons].
        rewrite (proj2 (seqb_false _ _)) by (destruct A; simpl; [done|]; by intros []%app_nil).
        by rewrite cut_join.
  - destruct (hasPrefix _ _) eqn:E; [|done]. destruct Hno. apply Hsub. by right.
Qed.

Lemma virtualStep_kid P name v acc :
  Forall clean_seg P -> actual_clean (mountOf v) ->
  virtualStep GetStorage (pathAddSeparatorSuffix (mkpath P)) name acc v =
    match kidOf P name v with Some k => addKid acc k | None => acc end.
Proof.
  intros HP Hc. unfold virtualStep, kidOf. rewrite actual_mkpath by done.
  pose proof (cut_mount P (mount_segs (mountOf v)) HP (norm_segs_clean _)) as H.
  destruct acc as [files set]. destruct (cutPrefix _ _) as [p|]; [|by rewrite H]. rewrite H.
  destruct (seqb p []); [done|]. destruct (cutByte p slash) as [[n r] found]. simpl.
  destruct (_ && _); [done|]. unfold addKid, kname, deeper. simpl. by destruct (set !! n), found.
Qed.

(** First occurrences, in order. *)
Definition firsts (l : list gostr) : list gostr :=
  foldl (fun acc n => if decide (n ∈ acc) then acc else acc ++ [n]) [] l.

Definition fileOf (ks : list kid) (n : gostr) : VObject :=
  mkVObject n (from_option snd 0 (List.find (fun k => seqb (kname k) n) ks)) true
    (if existsb (fun k => seqb (kname k) n && negb (deeper k)) ks
     then Z.lor Locked Virtual else Z.lor ReadOnly Virtual).

Definition listing (ks : list kid) : list VObject := map (fileOf ks) (firsts (map kname ks)).

Lemma firsts_snoc l n : firsts (l ++ [n]) = if decide (n ∈ firsts l) then firsts l else firsts l ++ [n].
Proof. unfold firsts. by rewrite foldl_app. Qed.

Lemma firsts_elem l n : n ∈ firsts l <-> n ∈ l.
Proof.
  revert n. induction l as [|m l IH] using rev_ind; intros n; [done|].
  rewrite firsts_snoc, elem_of_app, list_elem_of_singleton.
  case_decide as H; [|rewrite elem_of_app, list_elem_of_singleton; by rewrite IH].
  rewrite IH in H |- *. split; [auto|]. by intros [?| ->].
Qed.

Lemma firsts_nodup l : NoDup (firsts l).
Proof.
  induction l as [|m l IH] using rev_ind; [constructor|]. rewrite firsts_snoc. case_decide; [done|].
  apply NoDup_app. split; [done|]. split; [|by apply NoDup_singleton].
  intros x Hx ->%list_elem_of_singleton. done.
Qed.

Lemma fileOf_other ks k n : kname k <> n -> fileOf (ks ++ [k]) n = fileOf ks n.
Proof.
  intros Hne. unfold fileOf. rewrite existsb_app. simpl. rewrite (proj2 (seqb_false (kname k) n)) by done.
  simpl. rewrite orb_false_r. f_equal. induction ks as [|j ks IH]; simpl.
  - by rewrite (proj2 (seqb_false (kname k) n)).
  - destruct (seqb (kname j) n); [done|apply IH].
Qed.

Lemma fileOf_again ks k :
  kname k ∈ map kname ks ->
  fileOf (ks ++ [k]) (kname k) =
    if deeper k then fileOf ks (kname k)
    else mkVObject (kname k) (vModified (fileOf ks (kname k))) true (Z.lor Locked Virtual).
Proof.
  intros Hin. unfold fileOf. rewrite existsb_app. simpl. rewrite seqb_refl. simpl.
  assert (Hf : List.find (fun j => seqb (kname j) (kname k)) (ks ++ [k]) =
               List.find (fun j => seqb (kname j) (kname k)) ks).
  { clear -Hin. induction ks as [|j ks IH]; [by apply elem_of_nil in Hin|]. simpl.
    destruct (seqb (kname j) (kname k)) eqn:E; [done|]. apply IH.
    apply elem_of_cons in Hin as [Hin|Hin]; [|done]. by apply seqb_false in E. }
  rewrite Hf. destruct (deeper k); simpl; [by rewrite orb_false_r|by rewrite orb_true_r].
Qed.

Lemma fileOf_new ks k :
  kname k ∉ map kname ks ->
  fileOf (ks ++ [k]) (kname k) =
    mkVObject (kname k) k.2 true (if deeper k then Z.lor ReadOnly Virtual else Z.lor Locked Virtual).
Proof.
  intros Hin. unfold fileOf. rewrite existsb_app. simpl. rewrite seqb_refl. simpl.
  assert (Hn : forall j, j ∈ ks -> seqb (kname j) (kname k) = false).
  { intros j Hj. apply seqb_false. intros E. apply Hin. rewrite <- E. by apply list_elem_of_fmap_2. }
  assert (existsb (fun j => seqb (kname j) (kname k) && negb (deeper j)) ks = false) as ->.
  { apply not_true_iff_false. intros (j & Hj & E)%existsb_exists. apply list_elem_of_In, Hn in Hj. by rewrite Hj in E. }
  assert (List.find (fun j => seqb (kname j) (kname k)) (ks ++ [k]) = Some k) as ->.
  { clear Hin. induction ks as [|j ks IH]; simpl; [by rewrite seqb_refl|].
    rewrite (Hn j) by (by left). apply IH. intros j' Hj'. apply Hn. by right. }
  by destruct (deeper k).
Qed.

(** The state of the loop after the kids [ks]. *)
Definition loop_ok (ks : list kid) (acc : list VObject * gmap gostr nat) : Prop :=
  acc.1 = listing ks /\ forall n i, acc.2 !! n = Some i <-> firsts (map kname ks) !! i = Some n.

Lemma addKid_ok ks acc k : loop_ok ks acc -> loop_ok (ks ++ [k]) (addKid acc k).
Proof.
  destruct acc as [files set]. intros [Hf Hs]. simpl in Hf, Hs. subst files. unfold addKid.
  assert (Hmem : is_Some (set !! kname k) <-> kname k ∈ map kname ks).
  { rewrite <- firsts_elem, list_elem_of_lookup. unfold is_Some. by setoid_rewrite Hs. }
  unfold loop_ok, listing. rewrite map_app. cbn [map]. rewrite firsts_snoc.
  destruct (set !! kname k) as [idx|] eqn:E.
  - assert (Hin : kname k ∈ map kname ks) by (apply Hmem; eauto).
    rewrite decide_True by (by apply firsts_elem). cbn [fst snd]. split; [|exact Hs]. apply Hs in E.
    destruct (deeper k) eqn:Ed.
    + apply map_ext_in. intros n Hn. destruct (decide (kname k = n)) as [<-|Hne].
      * by rewrite fileOf_again, Ed.
      * by rewrite fileOf_other.
    + apply list_eq. intros i. unfold setMask. rewrite list_lookup_fmap.
      destruct (decide (i = idx)) as [->|Hi].
      * rewrite list_lookup_alter, !list_lookup_fmap, E. cbn [fmap option_fmap option_map].
        by rewrite decide_True, fileOf_again, Ed by done.
      * rewrite list_lookup_alter_ne, list_lookup_fmap by done.
        destruct (firsts (map kname ks) !! i) as [n|] eqn:En; [|done]. cbn [fmap option_fmap option_map]. f_equal.
        symmetry. apply fileOf_other. intros <-. apply Hi.
        eapply NoDup_lookup; [apply firsts_nodup|exact En|exact E].
  - assert (Hni : kname k ∉ map kname ks) by (intros [? Hx]%Hmem; congruence).
    rewrite decide_False by (by rewrite firsts_elem). cbn [fst snd]. split.
    + rewrite map_app. cbn [map]. rewrite fileOf_new by done. f_equal. apply map_ext_in.
      intros n Hn%list_elem_of_In. symmetry. apply fileOf_other. intros <-. by rewrite firsts_elem in Hn.
    + intros n i. unfold listing. rewrite length_map. rewrite lookup_snoc_Some, lookup_insert_Some, Hs.
      split.
      * intros [[<- <-]|[Hne Hi]]; [by right|left]. split; [by eapply lookup_lt_Some|done].
      * intros [[_ Hi]|[-> ->]]; [right|by left]. split; [|done].
        intros <-. apply list_elem_of_lookup_2 in Hi. by rewrite firsts_elem in Hi.
Qed.

Lemma virtualLoop_kids P name l :
  Forall clean_seg P -> (forall v, v ∈ l -> actual_clean (mountOf v)) ->
  loop_ok (omap (kidOf P name) l)
    (foldl (virtualStep GetStorage (pathAddSeparatorSuffix (mkpath P)) name) ([], ∅) l).
Proof.
  intros HP. induction l as [|v l IH] using rev_ind; intros Hc.
  - split; [done|]. intros n i. unfold firsts. simpl. rewrite lookup_empty, lookup_nil. done.
  - rewrite foldl_app, omap_app. cbn [foldl]. rewrite virtualStep_kid; [|done|apply Hc, elem_of_app; right; by left].
    specialize (IH ltac:(intros v' Hv'; apply Hc, elem_of_app; by left)). cbn [omap list_omap].
    destruct (kidOf P name v) as [k|]; [by apply addKid_ok|by rewrite app_nil_r].
Qed.

Lemma insertOrd_perm v l : insertOrd GetStorage v l ≡ₚ v :: l.
Proof.
  induction l as [|w l IH]; simpl; [done|]. destruct (orderLe _ _ _); [done|]. rewrite IH. apply Permutation_swap.
Qed.

Lemma sortOrd_perm l : sortOrd GetStorage l ≡ₚ l.
Proof. induction l as [|v l IH]; simpl; [done|]. by rewrite insertOrd_perm, IH. Qed.

Lemma orderLe_total v w : orderLe GetStorage v w = false -> orderLe GetStorage w v = true.
Proof.
  unfold orderLe. rewrite (Z.eqb_sym (Order (GetStorage w))). destruct (_ =? _); [apply str_leb_total|].
  rewrite Z.leb_gt, Z.leb_le. lia.
Qed.

Definition ordered (v w : D) : Prop := orderLe GetStorage v w = true.

Lemma insertOrd_sorted v l : Sorted.Sorted ordered l -> Sorted.Sorted ordered (insertOrd GetStorage v l).
Proof.
  induction 1 as [|w l Hs IH Hd]; simpl; [repeat constructor|].
  destruct (orderLe GetStorage v w) eqn:E; [repeat constructor; done|]. apply orderLe_total in E.
  constructor; [done|]. destruct Hd as [|u l Hu]; simpl; [by repeat constructor|].
  destruct (orderLe GetStorage v u); by constructor.
Qed.

Lemma sortOrd_sorted l : Sorted.Sorted ordered (sortOrd GetStorage l).
Proof. induction l as [|v l IH]; simpl; [constructor|]. by apply insertOrd_sorted. Qed.

Lemma childOf_Some P M n f : childOf P M = Some (n, f) <-> exists rest, M = P ++ n :: rest /\ f = bool_decide (rest <> []).
Proof.
  unfold childOf. case_decide as H.
  - destruct H as [A ->]. rewrite drop_app_length. destruct A as [|m A].
    + split; [done|]. intros (rest & Hr & _). apply app_inv_head in Hr. done.
    + split; [intros [= -> <-]; eauto|]. intros (rest & Hr%app_inv_head & ->). by simplify_eq.
  - split; [done|]. intros (rest & -> & _). destruct H. by apply prefix_app_r.
Qed.

Lemma listing_mem ks n : n ∈ map vName (listing ks) <-> n ∈ map kname ks.
Proof.
  unfold listing. rewrite map_map. simpl. rewrite map_id. apply firsts_elem.
Qed.

Lemma kids_elem P l n :
  n ∈ map kname (omap (kidOf P []) l) <-> exists v rest, v ∈ l /\ mount_segs (mountOf v) = P ++ n :: rest.
Proof.
  rewrite list_elem_of_fmap. setoid_rewrite list_elem_of_omap. split.
  - intros (k & -> & v & Hv & Hk). unfold kidOf in Hk.
    destruct (childOf P _) as [[m f]|] eqn:E; [|done]. injection Hk as <-.
    apply childOf_Some in E as (rest & Hr & _). exists v, rest. done.
  - intros (v & rest & Hv & Hr). exists (n, bool_decide (rest <> []), sModified (GetStorage v)).
    split; [done|]. exists v. split; [done|]. unfold kidOf.
    rewrite (proj2 (childOf_Some _ _ _ _) (ex_intro _ rest (conj Hr eq_refl))). done.
Qed.

Lemma kids_exact P l n :
  existsb (fun k => seqb (kname k) n && negb (deeper k)) (omap (kidOf P []) l) = true <->
  exists v, v ∈ l /\ mount_segs (mountOf v) = P ++ [n].
Proof.
  rewrite existsb_exists. setoid_rewrite <- list_elem_of_In. setoid_rewrite list_elem_of_omap. split.
  - intros (k & (v & Hv & Hk) & Hb). apply andb_prop in Hb as [Hn Hd]. apply seqb_true in Hn. unfold kidOf in Hk.
    destruct (childOf P _) as [[m f]|] eqn:E; [|done]. injection Hk as <-. unfold kname, deeper in *. simpl in *. subst m.
    apply childOf_Some in E as (rest & Hr & ->). exists v. split; [done|]. apply negb_true_iff, bool_decide_eq_false in Hd.
    destruct rest as [|r rest]; [exact Hr|]. by destruct Hd.
  - intros (v & Hv & Hr). exists (n, false, sModified (GetStorage v)). split; [|by rewrite seqb_refl].
    exists v. split; [done|]. unfold kidOf. by rewrite (proj2 (childOf_Some P _ n false) (ex_intro _ [] (conj Hr eq_refl))).
Qed.

(** ** Resolution *)
Lemma exists_longest entries raw e :
  e ∈ entries -> covers raw e -> exists e', e' ∈ entries /\ longest raw entries e'.
Proof.
  assert (Hw : forall n e, e ∈ entries -> covers raw e -> (list_max (map depth entries) - depth e < n)%nat ->
    exists e', e' ∈ entries /\ longest raw entries e'); [|intros Hin Hc; apply (Hw _ e Hin Hc (Nat.lt_succ_diag_r _))].
  clear e. induction n as [|n IH]; intros e Hin Hc Hn; [lia|].
  destruct (decide (longest raw entries e)) as [Hl|Hl]; [eauto|].
  assert (Hl' : ~ Forall (fun e' => covers raw e' -> (depth e' <= depth e)%nat) entries) by (unfold longest in Hl; tauto).
  apply not_Forall_Exists in Hl'; [|apply _]. apply Exists_exists in Hl' as (e' & Hin' & Hne).
  unfold compose in Hne. cbv beta in Hne.
  assert (Hc' : covers raw e') by (destruct (decide (covers raw e')); [done|tauto]).
  apply (IH e' Hin' Hc').
  assert (depth e' <= list_max (map depth entries))%nat.
  { pose proof (proj1 (list_max_le (map depth entries) _) (le_n _)) as Hmax. rewrite Forall_forall in Hmax.
    apply Hmax. by apply list_elem_of_fmap_2. }
  destruct (decide (depth e' <= depth e)%nat); [tauto|lia].
Qed.

Lemma longest_fix entries raw e : longest (fixAndCleanPath raw) entries e <-> longest raw entries e.
Proof. unfold longest, covers. by rewrite norm_segs_fix. Qed.

Lemma balanced_mem entries bm raw :
  entries_ok entries -> balance_ok bm ->
  match (GetBalancedStorage GetStorage entries bm raw).2 with
  | Some d => exists e, e ∈ entries /\ e.2 = d /\ longest raw entries e
  | None => Forall (fun e => ~ covers raw e) entries
  end.
Proof.
  intros He Hbm. set (l := getStoragesByPath GetStorage entries (fixAndCleanPath raw)).
  assert (Hmem : forall d, d ∈ l <-> exists e, e ∈ entries /\ e.2 = d /\ longest raw entries e).
  { intros d. unfold l. rewrite storages_mem by done. by setoid_rewrite longest_fix. }
  destruct (decide (2 <= length l)%nat) as [Hlen|Hlen].
  - destruct (balanced_step entries bm raw l Hbm eq_refl Hlen) as [-> _]. cbn [snd].
    set (i := (counter bm l + 1) mod Z.of_nat (length l)).
    pose proof (Z.mod_pos_bound (counter bm l + 1) (Z.of_nat (length l)) ltac:(lia)) as Hb. fold i in Hb.
    destruct (lookup_lt_is_Some_2 l (Z.to_nat i) ltac:(lia)) as [d Hd]. rewrite Hd.
    apply Hmem. by eapply list_elem_of_lookup_2.
  - unfold GetBalancedStorage. fold l. destruct l as [|d [|d' l']] eqn:El; simpl in Hlen; [| |lia].
    + simpl. apply Forall_forall. intros e Hin Hc. destruct (exists_longest entries raw e Hin Hc) as (e' & Hin' & Hl).
      assert (Hd : e'.2 ∈ ([] : list D)) by (apply Hmem; eauto). by apply elem_of_nil in Hd.
    + simpl. apply Hmem. by left.
Qed.

Lemma actual_path entries raw e :
  entries_ok entries -> e ∈ entries -> covers raw e ->
  let ap := fixAndCleanPath (trimPrefix (fixAndCleanPath raw) (GetActualMountPath (mountOf e.2))) in
  fixAndCleanPath ap = ap /\ GetFullPath (mountOf e.2) ap = fixAndCleanPath raw.
Proof.
  intros He Hin [A HA]. rewrite (ent_key _ He e Hin) in HA.
  assert (Hcl : actual_clean (mountOf e.2)) by (rewrite <- (ent_key _ He e Hin); by apply He).
  pose proof (norm_segs_clean raw) as Hall. rewrite HA in Hall. apply Forall_app in Hall as [HM HAc].
  rewrite (fixAndCleanPath_mkpath raw), HA, actual_mkpath, trim_mount by done.
  split; [rewrite fixAndCleanPath_mkpath; by rewrite norm_segs_mkpath|].
  unfold GetFullPath. rewrite actual_mkpath by done. apply path_Join_rooted; [apply norm_segs_good|].
  eapply Forall_impl; [exact HAc|]. by intros ? [].
Qed.

(** ** The theorems *)

(** C9: a path is resolved to a driver mounted at the longest mounted prefix of
    its elements, whatever the order in which the map is visited; the actual
    path is clean and joined to the mount path it gives the path back. The call
    fails exactly when no mount path covers the path. *)
Theorem resolve_path entries bm raw :
  entries_ok entries -> balance_ok bm ->
  match (GetStorageAndActualPath GetStorage entries bm raw).2 with
  | Ok (d, ap) =>
      (exists e, e ∈ entries /\ e.2 = d /\ longest raw entries e) /\
      fixAndCleanPath ap = ap /\ GetFullPath (mountOf d) ap = fixAndCleanPath raw
  | Err e => e = notFound (fixAndCleanPath raw) /\ Forall (fun e => ~ covers raw e) entries
  end /\
  forall entries', entries ≡ₚ entries' ->
    GetStorageAndActualPath GetStorage entries bm raw = GetStorageAndActualPath GetStorage entries' bm raw.
Proof.
  intros He Hbm. split.
  2: { intros entries' Hp. unfold GetStorageAndActualPath, GetBalancedStorage. by rewrite (storages_perm _ _ _ He Hp). }
  unfold GetStorageAndActualPath. pose proof (balanced_mem entries bm (fixAndCleanPath raw) He Hbm) as Hb.
  destruct (GetBalancedStorage _ _ _ _) as [bm' [d|]]; simpl in *.
  - destruct Hb as (e & Hin & <- & Hl). rewrite longest_fix in Hl. split; [by exists e|]. apply (actual_path entries); [done|done|apply Hl].
  - split; [done|]. eapply Forall_impl; [exact Hb|]. intros e. unfold covers. by rewrite norm_segs_fix.
Qed.

(** As many consecutive calls as a group has drivers, for paths the group
    serves, use every driver of the group exactly once. *)
Theorem balanced_fair entries bm paths l :
  entries_ok entries -> balance_ok bm -> (2 <= length l)%nat -> length paths = length l ->
  Forall (fun p => getStoragesByPath GetStorage entries (fixAndCleanPath p) = l) paths ->
  callAll entries bm paths ≡ₚ map Some l.
Proof.
  intros He Hbm Hlen Hn Hall. rewrite (callAll_eq entries l) by done. rewrite Hn. apply rotation; [|lia].
  destruct paths as [|p paths]; [simpl in Hn; lia|]. apply Forall_cons in Hall as [<- _].
  rewrite storages_eq by done. eapply (NoDup_fmap_1 mountOf). rewrite sortBy_perm. by apply longest_mounts.
Qed.

(** The virtual files of a directory are exactly the next elements of the
    mount paths below it, each once; an entry is writable (locked, not read-only)
    exactly if a storage is mounted there. *)
Theorem virtual_files values P :
  Forall clean_seg P -> (forall v, v ∈ values -> actual_clean (mountOf v)) ->
  let files := GetStorageVirtualFilesByPath GetStorage values (mkpath P) in
  NoDup (map vName files) /\
  (forall n, n ∈ map vName files <-> exists v rest, v ∈ values /\ mount_segs (mountOf v) = P ++ n :: rest) /\
  forall o, o ∈ files -> vFolder o = true /\
    ((vMask o = Z.lor Locked Virtual /\ exists v, v ∈ values /\ mount_segs (mountOf v) = P ++ [vName o]) \/
     (vMask o = Z.lor ReadOnly Virtual /\ forall v, v ∈ values -> mount_segs (mountOf v) <> P ++ [vName o])).
Proof.
  intros HP Hc files. set (l := sortOrd GetStorage values). set (ks := omap (kidOf P []) l).
  assert (Hl : forall v, v ∈ l <-> v ∈ values) by (intros v; unfold l; by rewrite sortOrd_perm).
  assert (Hf : files = listing ks).
  { unfold files, GetStorageVirtualFilesByPath, getStorageVirtualFilesByPath. apply virtualLoop_kids; [done|].
    intros v Hv. by apply Hc, Hl. }
  rewrite Hf. split; [|split].
  - unfold listing. rewrite map_map. simpl. rewrite map_id. apply firsts_nodup.
  - intros n. rewrite listing_mem. unfold ks. rewrite kids_elem. by setoid_rewrite Hl.
  - intros o (n & -> & _)%list_elem_of_fmap. split; [done|]. unfold fileOf. cbn [vName vMask].
    pose proof (kids_exact P l n) as He. fold ks in He. setoid_rewrite Hl in He.
    destruct (existsb _ ks); [left|right]; (split; [done|]); [by apply He|]. intros v Hv Hm.
    assert (false = true) by (apply He; eauto). done.
Qed.
End Spec.

(** ** Witnesses *)
Lemma demo_entries_ok : entries_ok id demoEntries.
Proof.
  assert (Hall : Forall (fun e => e.1 = mountOf id e.2 /\ actual_clean e.1) demoEntries)
    by (repeat constructor).
  rewrite Forall_forall in Hall. split; [apply Hall| |apply Hall].
  by apply (bool_decide_eq_true_1 (NoDup _)).
Qed.

Lemma resolve_path_witness :
  match (GetStorageAndActualPath id demoEntries ∅ "/a/d/e/../e1/f").2 with
  | Ok (d, ap) =>
      (exists e, e ∈ demoEntries /\ e.2 = d /\ longest "/a/d/e/../e1/f" demoEntries e) /\
      fixAndCleanPath ap = ap /\ GetFullPath (mountOf id d) ap = fixAndCleanPath "/a/d/e/../e1/f"
  | Err e => e = notFound (fixAndCleanPath "/a/d/e/../e1/f") /\
      Forall (fun e => ~ covers "/a/d/e/../e1/f" e) demoEntries
  end /\
  forall entries', demoEntries ≡ₚ entries' ->
    GetStorageAndActualPath id demoEntries ∅ "/a/d/e/../e1/f" =
    GetStorageAndActualPath id entries' ∅ "/a/d/e/../e1/f".
Proof. apply (resolve_path id); [apply demo_entries_ok|]. intros k i Hi. by rewrite lookup_empty in Hi. Defined.

Lemma balanced_fair_witness :
  callAll id demoEntries ∅ (strs ["/a/d/e1/x"; "/a/d/e1"]) ≡ₚ
  map Some [demoStorage "/a/d/e1" 3; demoStorage "/a/d/e1.balance" 4].
Proof.
  apply (balanced_fair id); [apply demo_entries_ok| |simpl; lia|done|].
  - intros k i Hi. by rewrite lookup_empty in Hi.
  - repeat constructor; vm_compute; reflexivity.
Defined.

Lemma virtual_files_witness :
  let files := GetStorageVirtualFilesByPath id demoMounts (mkpath (strs ["a"])) in
  NoDup (map vName files) /\
  (forall n, n ∈ map vName files <->
     exists v rest, v ∈ demoMounts /\ mount_segs (mountOf id v) = strs ["a"] ++ n :: rest) /\
  forall o, o ∈ files -> vFolder o = true /\
    ((vMask o = Z.lor Locked Virtual /\
        exists v, v ∈ demoMounts /\ mount_segs (mountOf id v) = strs ["a"] ++ [vName o]) \/
     (vMask o = Z.lor ReadOnly Virtual /\
        forall v, v ∈ demoMounts -> mount_segs (mountOf id v) <> strs ["a"] ++ [vName o])).
Proof.
  apply (virtual_files id).
  - apply (norm_segs_clean "/a").
  - intros v Hv. assert (Hall : Forall (fun v => actual_clean (mountOf id v)) demoMounts) by repeat constructor.
    rewrite Forall_forall in Hall. by apply Hall.
Defined.
