(* ===== verification/Storages.v ===== *)
(** The registry of mounted storages: the operations of
    src/internal/op/storage.go that create, load, enable, disable, update and
    delete a storage, and initStorage.

    The state is storagesMap, the driver objects with the storage record
    embedded in them, the database table and the calls made to drivers, caches
    and hooks ([events]). The table is the class [Table]: a call may fail for
    reasons of its own. What a driver answers during an operation is an
    [oracle]. *)
From S2P Require Import Prelude GoString GoPath Paths Mounts.

(** ** The table of storages (internal/db on gorm) *)
Class Table (E T : Type) := {
  rows : T -> gmap Z Storage;
  dbGetStorageById : T -> Z -> T * res E Storage;
  dbCreateStorage : T -> Storage -> T * res E Z;
  dbUpdateStorage : T -> Storage -> T * option E;
  dbDeleteStorageById : T -> Z -> T * option E
}.

Definition withID (s : Storage) (id : Z) : Storage :=
  mkStorage id (MountPath s) (Order s) (DriverName s) (Status s) (Addition s) (Remark s) (sModified s) (Disabled s).
Definition withMount (s : Storage) (m : gostr) : Storage :=
  mkStorage (sID s) m (Order s) (DriverName s) (Status s) (Addition s) (Remark s) (sModified s) (Disabled s).
Definition withModified (s : Storage) (t : Z) : Storage :=
  mkStorage (sID s) (MountPath s) (Order s) (DriverName s) (Status s) (Addition s) (Remark s) t (Disabled s).
Definition withDisabled (s : Storage) (b : bool) : Storage :=
  mkStorage (sID s) (MountPath s) (Order s) (DriverName s) (Status s) (Addition s) (Remark s) (sModified s) b.
Definition withAddition (s : Storage) (a : gostr) : Storage :=
  mkStorage (sID s) (MountPath s) (Order s) (DriverName s) (Status s) a (Remark s) (sModified s) (Disabled s).

(** model.Storage.SetStatus *)
Definition SetStatus (s : Storage) (st : gostr) : Storage :=
  mkStorage (sID s) (MountPath s) (Order s) (DriverName s) st (Addition s) (Remark s) (sModified s) (Disabled s).

(** The columns: an id names one row, MountPath is unique; a failed call changes
    nothing; Save inserts the row if it is missing. *)
Class TableLaws E T `{Table E T} := {
  get_rows t id : rows (dbGetStorageById t id).1 = rows t;
  get_ok t id s : (dbGetStorageById t id).2 = Ok s -> rows t !! id = Some s;
  create_ok t s id :
    (dbCreateStorage t s).2 = Ok id ->
    rows t !! id = None /\ rows (dbCreateStorage t s).1 = <[id := withID s id]> (rows t) /\
    forall j r, rows t !! j = Some r -> MountPath r <> MountPath s;
  create_err t s e : (dbCreateStorage t s).2 = Err e -> rows (dbCreateStorage t s).1 = rows t;
  update_ok t s :
    (dbUpdateStorage t s).2 = None ->
    rows (dbUpdateStorage t s).1 = <[sID s := s]> (rows t) /\
    forall j r, rows t !! j = Some r -> j <> sID s -> MountPath r <> MountPath s;
  update_err t s e : (dbUpdateStorage t s).2 = Some e -> rows (dbUpdateStorage t s).1 = rows t;
  delete_ok t id : (dbDeleteStorageById t id).2 = None -> rows (dbDeleteStorageById t id).1 = delete id (rows t);
  delete_err t id e : (dbDeleteStorageById t id).2 = Some e -> rows (dbDeleteStorageById t id).1 = rows t
}.

(** ** Drivers *)

(** A call of a driver method: it returns an error or none, or panics. *)
Inductive call (E : Type) := Returned (e : option E) | Panics (msg : gostr).
Arguments Returned {E} e.
Arguments Panics {E} msg.

Record oracle (E : Type) := mkOracle {
  oNow : Z;
  oUnmarshal : call E;       (* unmarshalling of the addition *)
  oInitReference : call E;
  oInit : call E;
  oDrop : option E;
  oMarshal : res E gostr     (* the addition as it is saved *)
}.
Arguments mkOracle {E}. Arguments oNow {E}. Arguments oUnmarshal {E}. Arguments oInitReference {E}. Arguments oInit {E}.
Arguments oDrop {E}. Arguments oMarshal {E}.

Inductive event :=
| EvHook (kind : gostr) (d : nat)
| EvDrop (d : nat)
| EvDropTree (d : nat)
| EvInvalidate (d : nat).

(** What the operations answer, by message. *)
Inductive storage_err (E : Type) :=
| FailedGetDriver (name : gostr)
| FailedGet (e : E)
| FailedCreate (e : E)
| FailedUpdate (e : E)
| FailedDelete (e : E)
| FailedGetStorageDriver (mountPath : gostr)
| FailedInit
| FailedDrop (e : E)
| AlreadyEnabled
| AlreadyDisabled
| DriverChanged.
Arguments FailedGetDriver {E}. Arguments FailedGet {E}. Arguments FailedCreate {E}. Arguments FailedUpdate {E}.
Arguments FailedDelete {E}. Arguments FailedGetStorageDriver {E}. Arguments FailedInit {E}.
Arguments FailedDrop {E}. Arguments AlreadyEnabled {E}. Arguments AlreadyDisabled {E}. Arguments DriverChanged {E}.

Definition WORK : gostr := "work".
Definition DISABLED : gostr := "disabled".

(** The mount path in a remark "ref:/mount", up to the end of the line. *)
Definition refMountPath (remark : gostr) : gostr :=
  match indexByte remark (ascii_of_nat 10) with
  | Some (S i) => drop 4 (take (S i) remark)
  | _ => drop 4 remark
  end.

Section Registry.
Context {E T : Type} {TT : Table E T}.
Context (hasDriver : gostr -> bool)          (* the drivers of GetDriver *)
        (isReference : gostr -> bool)        (* driver.Reference *)
        (errStatus : gostr -> E -> gostr)    (* the status text of an error *)
        (refMissing : gostr -> E)            (* the error of a missing reference *)
        (notReference : gostr -> E -> E).    (* IsNotSupportError replaced *)

Record registry := mkReg {
  storagesMap : gmap gostr nat;
  drivers : gmap nat Storage;
  nextDriver : nat;
  table : T;
  events : list event
}.

Definition setTable (r : registry) (t : T) : registry :=
  mkReg (storagesMap r) (drivers r) (nextDriver r) t (events r).
Definition setMap (r : registry) (m : gmap gostr nat) : registry :=
  mkReg m (drivers r) (nextDriver r) (table r) (events r).
Definition setDriver (r : registry) (d : nat) (s : Storage) : registry :=
  mkReg (storagesMap r) (<[d := s]> (drivers r)) (nextDriver r) (table r) (events r).
Definition emit (r : registry) (e : event) : registry :=
  mkReg (storagesMap r) (drivers r) (nextDriver r) (table r) (events r ++ [e]).

(** driverNew(): a driver object with an empty storage record. *)
Definition newDriver (r : registry) : registry * nat :=
  let d := nextDriver r in
  (mkReg (storagesMap r) (<[d := mkStorage 0 [] 0 [] [] [] [] 0 false]> (drivers r)) (S d) (table r) (events r), d).

Definition HasStorage (r : registry) (mountPath : gostr) : bool :=
  bool_decide (is_Some (storagesMap r !! fixAndCleanPath mountPath)).

Definition GetStorageByMountPath (r : registry) (mountPath : gostr) : option nat :=
  storagesMap r !! fixAndCleanPath mountPath.

Definition GetAllStorages (r : registry) : list nat := (map_to_list (storagesMap r)).*2.

(** saveDriverStorage; MustSaveDriverStorage only logs the error. *)
Definition MustSaveDriverStorage (r : registry) (o : oracle E) (d : nat) : registry :=
  match drivers r !! d, oMarshal o with
  | Some s, Ok str =>
      let s := withAddition s str in
      let r := setDriver r d s in
      setTable r (dbUpdateStorage (table r) s).1
  | _, _ => r
  end.

(** The deferred function of initStorage and the end of its body: store the
    driver under its mount path, set the status, save. *)
Definition storeDriver (r : registry) (o : oracle E) (d : nat) (status : gostr) : registry :=
  match drivers r !! d with
  | None => r
  | Some s =>
      let r := setMap r (<[MountPath s := d]> (storagesMap r)) in
      let r := setDriver r d (SetStatus s status) in
      MustSaveDriverStorage r o d
  end.

(** The error of the part of initStorage before Init, or a panic. *)
Definition prepare (r : registry) (o : oracle E) (s : Storage) : call E :=
  match oUnmarshal o with
  | Returned None =>
      if isReference (DriverName s) && hasPrefix (Remark s) "ref:/" then
        match GetStorageByMountPath r (refMountPath (Remark s)) with
        | None => Returned (Some (refMissing (refMountPath (Remark s))))
        | Some _ =>
            match oInitReference o with
            | Returned (Some e) => Returned (Some (notReference (DriverName s) e))
            | c => c
            end
        end
      else Returned None
  | c => c
  end.

(** After a panic the deferred function stores the driver with the text of the
    panic as its status, and initStorage returns the zero value of its named
    result: no error. *)
Definition initStorage (r : registry) (o : oracle E) (storage : Storage) (d : nat)
    : registry * option (storage_err E) :=
  let r := setDriver r d storage in
  match prepare r o storage with
  | Panics msg => (storeDriver r o d msg, None)
  | Returned (Some e) => (storeDriver r o d (errStatus (DriverName storage) e), Some FailedInit)
  | Returned None =>
      match oInit o with
      | Panics msg => (storeDriver r o d msg, None)
      | Returned (Some e) => (storeDriver r o d (errStatus (DriverName storage) e), Some FailedInit)
      | Returned None => (storeDriver r o d WORK, None)
      end
  end.

Definition CreateStorage (r : registry) (o : oracle E) (storage : Storage)
    : registry * (Z * option (storage_err E)) :=
  let storage := withModified storage (oNow o) in
  let storage := withMount storage (fixAndCleanPath (MountPath storage)) in
  if negb (hasDriver (DriverName storage)) then (r, (0, Some (FailedGetDriver (DriverName storage))))
  else
    let '(r, d) := newDriver r in
    let '(t, id) := dbCreateStorage (table r) storage in
    let r := setTable r t in
    match id with
    | Err e => (r, (sID storage, Some (FailedCreate e)))
    | Ok id =>
        let storage := withID storage id in
        let '(r, err) := initStorage r o storage d in
        (emit r (EvHook "add" d), (id, err))
    end.

Definition LoadStorage (r : registry) (o : oracle E) (storage : Storage)
    : registry * option (storage_err E) :=
  let storage := withMount storage (fixAndCleanPath (MountPath storage)) in
  if negb (hasDriver (DriverName storage)) then (r, Some (FailedGetDriver (DriverName storage)))
  else
    let '(r, d) := newDriver r in
    let '(r, err) := initStorage r o storage d in
    (emit r (EvHook "add" d), err).

Definition getRow (r : registry) (id : Z) : registry * res E Storage :=
  let '(t, s) := dbGetStorageById (table r) id in (setTable r t, s).

Definition saveRow (r : registry) (s : Storage) : registry * option E :=
  let '(t, e) := dbUpdateStorage (table r) s in (setTable r t, e).

Definition EnableStorage (r : registry) (o : oracle E) (id : Z) : registry * option (storage_err E) :=
  let '(r, storage) := getRow r id in
  match storage with
  | Err e => (r, Some (FailedGet e))
  | Ok storage =>
      if negb (Disabled storage) then (r, Some AlreadyEnabled)
      else
        let storage := withDisabled storage false in
        let '(r, e) := saveRow r storage in
        match e with
        | Some e => (r, Some (FailedUpdate e))
        | None => LoadStorage r o storage
        end
  end.

Definition DisableStorage (r : registry) (o : oracle E) (id : Z) : registry * option (storage_err E) :=
  let '(r, storage) := getRow r id in
  match storage with
  | Err e => (r, Some (FailedGet e))
  | Ok storage =>
      if Disabled storage then (r, Some AlreadyDisabled)
      else
        match GetStorageByMountPath r (MountPath storage) with
        | None => (r, Some (FailedGetStorageDriver (MountPath storage)))
        | Some d =>
            let r := emit r (EvDrop d) in
            match oDrop o with
            | Some e => (r, Some (FailedDrop e))
            | None =>
                let storage := SetStatus (withDisabled storage true) DISABLED in
                let '(r, e) := saveRow r storage in
                match e with
                | Some e => (r, Some (FailedUpdate e))
                | None =>
                    let r := setMap r (delete (MountPath storage) (storagesMap r)) in
                    (emit r (EvHook "del" d), None)
                end
            end
        end
  end.

Definition UpdateStorage (r : registry) (o : oracle E) (storage : Storage)
    : registry * option (storage_err E) :=
  let '(r, oldStorage) := getRow r (sID storage) in
  match oldStorage with
  | Err e => (r, Some (FailedGet e))
  | Ok oldStorage =>
      if negb (seqb (DriverName oldStorage) (DriverName storage)) then (r, Some DriverChanged)
      else
        let storage := withModified storage (oNow o) in
        let storage := withMount storage (fixAndCleanPath (MountPath storage)) in
        let '(r, e) := saveRow r storage in
        match e with
        | Some e => (r, Some (FailedUpdate e))
        | None =>
            if Disabled storage then (r, None)
            else
              match GetStorageByMountPath r (MountPath oldStorage) with
              | None => (r, Some (FailedGetStorageDriver (MountPath oldStorage)))
              | Some d =>
                  let r := emit (emit r (EvDropTree d)) (EvInvalidate d) in
                  let r := if negb (seqb (MountPath oldStorage) (MountPath storage))
                           then setMap r (delete (MountPath oldStorage) (storagesMap r)) else r in
                  let r := emit r (EvDrop d) in
                  match oDrop o with
                  | Some e => (r, Some (FailedDrop e))
                  | None =>
                      let '(r, err) := initStorage r o storage d in
                      (emit r (EvHook "update" d), err)
                  end
              end
        end
  end.

Definition DeleteStorageById (r : registry) (o : oracle E) (id : Z) : registry * option (storage_err E) :=
  let '(r, storage) := getRow r id in
  match storage with
  | Err e => (r, Some (FailedGet e))
  | Ok storage =>
      let unmount :=
        if Disabled storage then Ok (r, None)
        else
          match GetStorageByMountPath r (MountPath storage) with
          | None => Err (FailedGetStorageDriver (MountPath storage))
          | Some d =>
              let r := emit r (EvDrop d) in
              let r := setMap r (delete (MountPath storage) (storagesMap r)) in
              let r := emit (emit (emit r (EvDropTree d)) (EvInvalidate d)) (EvHook "del" d) in
              Ok (r, FailedDrop <$> oDrop o)
          end in
      match unmount with
      | Err e => (r, Some e)
      | Ok (r, dropErr) =>
          let '(t, e) := dbDeleteStorageById (table r) id in
          let r := setTable r t in
          match e with
          | Some e => (r, Some (FailedDelete e))
          | None => (r, dropErr)
          end
      end
  end.
End Registry.
Arguments registry T : clear implicits.
