(* ===== verification/StoragesSpec.v ===== *)
(** The registry of storages keeps its invariant: every mounted driver carries
    an enabled row of the table with the mount path under which it is found.
    Two theorems show how an update of the disabled flag breaks the agreement. *)
From S2P Require Import Prelude GoString GoPath Paths Mounts MountsSpec Storages.

Section Spec.
Context {E T : Type} {TT : Table E T} {TL : TableLaws E T}.
Context (hasDriver isReference : gostr -> bool) (errStatus : gostr -> E -> gostr)
        (refMissing : gostr -> E) (notReference : gostr -> E -> E).

Notation registry := (registry T).
Notation initStorage := (initStorage isReference errStatus refMissing notReference).
Notation storeDriver := (storeDriver (E := E)).
Notation CreateStorage := (CreateStorage hasDriver isReference errStatus refMissing notReference).
Notation LoadStorage := (LoadStorage hasDriver isReference errStatus refMissing notReference).
Notation EnableStorage := (EnableStorage hasDriver isReference errStatus refMissing notReference).
Notation UpdateStorage := (UpdateStorage isReference errStatus refMissing notReference).

(** ** The invariant *)

(** The table has an enabled row for the storage [s], at its mount path. *)
Definition backed (r : registry) (s : Storage) : Prop :=
  exists row, rows (table r) !! sID s = Some row /\ MountPath row = MountPath s /\ Disabled row = false.

Definition mounted (r : registry) (k : gostr) (d : nat) : Prop :=
  exists s, drivers r !! d = Some s /\ MountPath s = k /\ Disabled s = false /\ backed r s.

Record Inv (r : registry) : Prop := {
  i_map k d : storagesMap r !! k = Some d -> mounted r k d;
  i_fresh d : is_Some (drivers r !! d) -> (d < nextDriver r)%nat;
  i_rows id s : rows (table r) !! id = Some s -> sID s = id /\ fixAndCleanPath (MountPath s) = MountPath s;
  i_uniq id id' s s' : rows (table r) !! id = Some s -> rows (table r) !! id' = Some s' ->
    MountPath s = MountPath s' -> id = id'
}.

Lemma backed_table r r' s : rows (table r) = rows (table r') -> backed r s -> backed r' s.
Proof. unfold backed. by intros ->. Qed.

(** Changes that leave map, drivers and rows alone. *)
Lemma Inv_same r r' :
  storagesMap r' = storagesMap r -> drivers r' = drivers r -> nextDriver r' = nextDriver r ->
  rows (table r') = rows (table r) -> Inv r -> Inv r'.
Proof.
  intros Hm Hd Hn Ht [H1 H2 H3 H4]. split.
  - intros k d Hk. rewrite Hm in Hk. destruct (H1 k d Hk) as (s & Hs & ? & ? & Hb). exists s. rewrite Hd.
    split; [done|]. split; [done|]. split; [done|]. by eapply backed_table.
  - intros d. rewrite Hd, Hn. apply H2.
  - intros id s. rewrite Ht. apply H3.
  - intros id id' s s'. rewrite Ht. apply H4.
Qed.

Lemma Inv_emit r e : Inv r -> Inv (emit r e).
Proof. by apply Inv_same. Qed.

Lemma Inv_unmap r k : Inv r -> Inv (setMap r (delete k (storagesMap r))).
Proof.
  intros [H1 H2 H3 H4]. split; try done. intros k' d. simpl. intros [_ Hk]%lookup_delete_Some. by apply H1.
Qed.

Lemma Inv_get r id : Inv r -> Inv (getRow (E := E) r id).1 /\
  forall s, (getRow (E := E) r id).2 = Ok s -> rows (table r) !! id = Some s.
Proof.
  intros Hi. unfold getRow. pose proof (get_rows (table r) id) as Hr. pose proof (get_ok (table r) id) as Ho.
  destruct (dbGetStorageById (table r) id) as [t s]. simpl in *. split; [by apply (Inv_same r)|exact Ho].
Qed.

(** Saving a row keeps the invariant if the mounted drivers still agree with it. *)
Lemma Inv_save r s t e :
  dbUpdateStorage (table r) s = (t, e) -> Inv r -> fixAndCleanPath (MountPath s) = MountPath s ->
  (e = None -> forall k d s0, storagesMap r !! k = Some d -> drivers r !! d = Some s0 -> sID s0 = sID s ->
     MountPath s0 = MountPath s /\ Disabled s = false) ->
  Inv (setTable r t).
Proof.
  intros Hdb Hi Hfix Hagree. destruct e as [e|].
  - apply (Inv_same r); try done. simpl.
    pose proof (update_err (table r) s e). rewrite Hdb in *. simpl in *. auto.
  - pose proof (update_ok (table r) s) as Hok. rewrite Hdb in Hok. destruct (Hok eq_refl) as [Hrows Huniq]. simpl in *.
    destruct Hi as [H1 H2 H3 H4]. split; simpl; [|done| |].
    + intros k d Hk. destruct (H1 k d Hk) as (s0 & Hs0 & Hm & Hd & row & Hrow & Hrm & Hrd).
      exists s0. repeat split; try done. unfold backed. simpl. rewrite Hrows.
      destruct (decide (sID s0 = sID s)) as [Heq|Hne].
      * destruct (Hagree eq_refl k d s0 Hk Hs0 Heq) as [Hm' Hd']. exists s.
        rewrite Heq, lookup_insert_eq. done.
      * exists row. by rewrite lookup_insert_ne.
    + intros id s0. rewrite Hrows, lookup_insert_Some. intros [[<- <-]|[_ Hr]]; [done|by apply H3].
    + intros id id' s1 s2. rewrite Hrows, !lookup_insert_Some. intros [[<- <-]|[Hn Hr]] [[<- <-]|[Hn' Hr']] Hm; try done.
      * by destruct (Huniq _ _ Hr' (not_eq_sym Hn')).
      * by destruct (Huniq _ _ Hr (not_eq_sym Hn)).
      * by eapply H4.
Qed.

Lemma backed_fix r s : Inv r -> backed r s -> fixAndCleanPath (MountPath s) = MountPath s.
Proof. intros Hi (row & Hrow & <- & _). by apply (i_rows _ Hi _ _ Hrow). Qed.

Lemma backed_unique r s s' : Inv r -> backed r s -> backed r s' -> MountPath s = MountPath s' -> sID s = sID s'.
Proof.
  intros Hi (row & Hrow & Hm & _) (row' & Hrow' & Hm' & _) Heq. eapply (i_uniq _ Hi); [done|done|congruence].
Qed.

Lemma backed_id r s s' : backed r s -> backed r s' -> sID s = sID s' -> MountPath s = MountPath s'.
Proof. intros (row & Hrow & <- & _) (row' & Hrow' & <- & _) Heq. rewrite Heq in Hrow. congruence. Qed.

(** The record of a driver may be replaced by one of the same storage. *)
Lemma Inv_setDriver r d s :
  Inv r -> (d < nextDriver r)%nat -> backed r s -> Disabled s = false ->
  (forall k, storagesMap r !! k = Some d -> k = MountPath s) ->
  Inv (setDriver r d s).
Proof.
  intros [H1 H2 H3 H4] Hd Hb Hdis Hkeys. split; simpl; try done.
  - intros k d' Hk. destruct (decide (d' = d)) as [->|Hne].
    + exists s. simpl. rewrite lookup_insert_eq. rewrite (Hkeys k Hk). done.
    + destruct (H1 k d' Hk) as (s0 & Hs0 & ?). exists s0. simpl. by rewrite lookup_insert_ne.
  - intros d' [s' Hs']. apply lookup_insert_Some in Hs' as [[<- _]|[_ Hs']]; [done|]. apply H2. eauto.
Qed.

Lemma Inv_mount r d s :
  Inv r -> drivers r !! d = Some s -> backed r s -> Disabled s = false ->
  Inv (setMap r (<[MountPath s := d]> (storagesMap r))).
Proof.
  intros [H1 H2 H3 H4] Hs Hb Hdis. split; simpl; try done.
  intros k d'. rewrite lookup_insert_Some. intros [[<- <-]|[_ Hk]]; [exists s; done|by apply H1].
Qed.

Lemma Inv_mustSave r o d s :
  Inv r -> drivers r !! d = Some s -> backed r s -> Disabled s = false ->
  (forall k, storagesMap r !! k = Some d -> k = MountPath s) ->
  Inv (MustSaveDriverStorage (E := E) r o d).
Proof.
  intros Hi Hs Hb Hdis Hkeys. unfold MustSaveDriverStorage. rewrite Hs. destruct (oMarshal o) as [str|e]; [|done].
  assert (Hd : (d < nextDriver r)%nat) by (apply (i_fresh _ Hi); eauto).
  pose proof (Inv_setDriver r d (withAddition s str) Hi Hd Hb Hdis Hkeys) as Hi'.
  destruct (dbUpdateStorage (table r) (withAddition s str)) as [t e] eqn:Edb. cbn [setDriver table].
  rewrite Edb. cbn [fst].
  apply (Inv_save (setDriver r d (withAddition s str)) (withAddition s str) t e Edb Hi'); [by apply (backed_fix r s)|].
  intros _ k d' s0 Hk Hs0 Hid. split; [|done]. destruct (i_map _ Hi' k d' Hk) as (s1 & Hs1 & _ & _ & Hb1).
  rewrite Hs0 in Hs1. injection Hs1 as <-. by apply (backed_id (setDriver r d (withAddition s str))).
Qed.

Lemma Inv_storeDriver r o d s status :
  Inv r -> drivers r !! d = Some s -> backed r s -> Disabled s = false ->
  (forall k, storagesMap r !! k = Some d -> k = MountPath s) ->
  Inv (storeDriver r o d status).
Proof.
  intros Hi Hs Hb Hdis Hkeys. unfold Storages.storeDriver. rewrite Hs.
  assert (Hd : (d < nextDriver r)%nat) by (apply (i_fresh _ Hi); eauto).
  pose proof (Inv_mount r d s Hi Hs Hb Hdis) as Hi1. set (r1 := setMap r _) in *.
  assert (Hk1 : forall k, storagesMap r1 !! k = Some d -> k = MountPath s).
  { intros k. unfold r1. simpl. rewrite lookup_insert_Some. intros [[<- _]|[_ Hk]]; auto. }
  pose proof (Inv_setDriver r1 d (SetStatus s status) Hi1 Hd Hb Hdis Hk1) as Hi2.
  apply (Inv_mustSave _ o d (SetStatus s status)); [done| |done|done|exact Hk1].
  simpl. by rewrite lookup_insert_eq.
Qed.

Lemma Inv_initStorage r o s d :
  Inv r -> (d < nextDriver r)%nat -> backed r s -> Disabled s = false ->
  (forall k, storagesMap r !! k = Some d -> k = MountPath s) ->
  Inv (initStorage r o s d).1.
Proof.
  intros Hi Hd Hb Hdis Hkeys. pose proof (Inv_setDriver r d s Hi Hd Hb Hdis Hkeys) as Hi1.
  assert (Hst : forall status, Inv (storeDriver (setDriver r d s) o d status)).
  { intros status. apply (Inv_storeDriver _ o d s); [done| |done|done|done]. simpl. by rewrite lookup_insert_eq. }
  unfold Storages.initStorage. destruct (prepare _ _ _ _ _ _) as [[e|]|msg]; [apply Hst| |apply Hst].
  destruct (oInit o) as [[e|]|msg]; apply Hst.
Qed.

(** ** The operations *)
Notation DisableStorage := (DisableStorage (E := E)).
Notation DeleteStorageById := (DeleteStorageById (E := E)).

Lemma fix_idem p : fixAndCleanPath (fixAndCleanPath p) = fixAndCleanPath p.
Proof. by rewrite (fixAndCleanPath_mkpath (fixAndCleanPath p)), norm_segs_fix, <- fixAndCleanPath_mkpath. Qed.

(** No key leads to a driver object that does not exist yet. *)
Lemma new_driver r :
  Inv r -> let '(r', d) := newDriver r in
  Inv r' /\ (d < nextDriver r')%nat /\ table r' = table r /\ forall k, storagesMap r' !! k <> Some d.
Proof.
  intros Hi. unfold newDriver. assert (Hno : forall k, storagesMap r !! k <> Some (nextDriver r)).
  { intros k Hk. destruct (i_map _ Hi k _ Hk) as (s & Hs & _). pose proof (i_fresh _ Hi _ (ex_intro _ _ Hs)). lia. }
  split; [|split; [simpl; lia|done]]. destruct Hi as [H1 H2 H3 H4]. split; simpl; try done.
  - intros k d Hk. destruct (H1 k d Hk) as (s & Hs & ?). exists s. simpl. rewrite lookup_insert_ne; [done|].
    intros <-. by apply (Hno k).
  - intros d [s' Hs']. apply lookup_insert_Some in Hs' as [[<- _]|[_ Hs']]; [lia|].
    pose proof (H2 d (ex_intro _ _ Hs')). lia.
Qed.

(** Loading a storage the table has as an enabled row. *)
Lemma Inv_Load r o s :
  Inv r -> backed r (withMount s (fixAndCleanPath (MountPath s))) -> Disabled s = false ->
  Inv (LoadStorage r o s).1.
Proof.
  intros Hi Hb Hd. unfold Storages.LoadStorage. destruct (negb _); [done|].
  pose proof (new_driver r Hi) as Hn. destruct (newDriver r) as [r1 d]. destruct Hn as (Hi1 & Hlt & Ht & Hno).
  pose proof (Inv_initStorage r1 o (withMount s (fixAndCleanPath (MountPath s))) d Hi1 Hlt) as Hinit.
  assert (Hb1 : backed r1 (withMount s (fixAndCleanPath (MountPath s)))) by (eapply backed_table; [|exact Hb]; by rewrite Ht).
  specialize (Hinit Hb1 Hd ltac:(intros k Hk; by apply Hno in Hk)).
  destruct (initStorage r1 o _ d) as [r2 err]. by apply Inv_emit.
Qed.

Lemma Inv_Create r o s : Inv r -> Disabled s = false -> Inv (CreateStorage r o s).1.
Proof.
  intros Hi Hd. unfold Storages.CreateStorage. destruct (negb _); [done|].
  set (s1 := withMount _ _). pose proof (new_driver r Hi) as Hn. destruct (newDriver r) as [r1 d].
  destruct Hn as (Hi1 & Hlt & Ht & Hno).
  pose proof (create_ok (table r1) s1) as Hok. pose proof (create_err (table r1) s1) as Herr.
  destruct (dbCreateStorage (table r1) s1) as [t [id|e]]; simpl in *.
  2: { apply (Inv_same r1); eauto. }
  destruct (Hok id eq_refl) as (Hfree & Hrows & Huniq).
  assert (Hi2 : Inv (setTable r1 t)).
  { destruct Hi1 as [H1 H2 H3 H4]. split; simpl; try done.
    - intros k d' Hk. destruct (H1 k d' Hk) as (s0 & Hs0 & ? & ? & row & Hrow & ? & ?). exists s0.
      repeat split; try done. exists row. simpl. rewrite Hrows, lookup_insert_ne; [done|]. intros ->. congruence.
    - intros id' s0. rewrite Hrows, lookup_insert_Some. intros [[<- <-]|[_ Hr]]; [|by apply H3].
      split; [done|]. simpl. apply fix_idem.
    - intros i j a b. rewrite Hrows, !lookup_insert_Some. intros [[<- <-]|[_ Hr]] [[<- <-]|[_ Hr']] Hm; try done.
      + by destruct (Huniq _ _ Hr').
      + by destruct (Huniq _ _ Hr).
      + by eapply H4. }
  pose proof (Inv_initStorage (setTable r1 t) o (withID s1 id) d Hi2 Hlt) as Hinit.
  assert (Hb : backed (setTable r1 t) (withID s1 id)).
  { exists (withID s1 id). simpl. rewrite Hrows, lookup_insert_eq. done. }
  specialize (Hinit Hb Hd ltac:(intros k Hk; by apply Hno in Hk)).
  destruct (initStorage (setTable r1 t) o _ d) as [r2 err]. by apply Inv_emit.
Qed.

(** The driver under a mount path of the table carries the row of that path. *)
Lemma mounted_row r id row d :
  Inv r -> rows (table r) !! id = Some row -> storagesMap r !! MountPath row = Some d ->
  exists s, drivers r !! d = Some s /\ sID s = id /\ MountPath s = MountPath row /\ Disabled row = false.
Proof.
  intros Hi Hrow Hk. destruct (i_map _ Hi _ d Hk) as (s & Hs & Hm & _ & row' & Hrow' & Hm' & Hd').
  assert (sID s = id) as Hid by (eapply (i_uniq _ Hi); [exact Hrow'|exact Hrow|congruence]).
  exists s. split; [done|]. split; [done|]. split; [done|]. rewrite Hid in Hrow'. congruence.
Qed.

Lemma getRow_same r id :
  let r1 := (getRow (E := E) r id).1 in
  rows (table r1) = rows (table r) /\ storagesMap r1 = storagesMap r /\ drivers r1 = drivers r.
Proof.
  unfold getRow. pose proof (get_rows (table r) id). by destruct (dbGetStorageById (table r) id).
Qed.

Lemma Inv_Enable r o id : Inv r -> Inv (EnableStorage r o id).1.
Proof.
  intros Hi. unfold Storages.EnableStorage. destruct (Inv_get r id Hi) as [Hi1 Hrow].
  destruct (getRow_same r id) as (Htab & _ & _). destruct (getRow r id) as [r1 [s|e]]; [|done]. cbn [fst snd] in *. specialize (Hrow s eq_refl).
  destruct (i_rows _ Hi _ _ Hrow) as [Hid Hfix]. destruct (negb (Disabled s)) eqn:Ed; [done|].
  apply negb_false_iff in Ed. unfold saveRow.
  destruct (dbUpdateStorage (table r1) (withDisabled s false)) as [t e] eqn:Edb.
  assert (Hi2 : Inv (setTable r1 t)).
  { apply (Inv_save r1 _ t e Edb Hi1 Hfix). intros _ k d s0 Hk Hs0 Hsid. simpl in Hsid.
    destruct (i_map _ Hi1 k d Hk) as (s1 & Hs1 & _ & _ & row & Hr & _ & Hrd). exfalso.
    rewrite Hs0 in Hs1. injection Hs1 as <-. rewrite Htab, Hsid, Hid in Hr. congruence. }
  destruct e as [e|]; [done|]. apply Inv_Load; [done| |done].
  pose proof (update_ok (table r1) (withDisabled s false)) as Hok. rewrite Edb in Hok.
  destruct (Hok eq_refl) as [Hrows _]. exists (withDisabled s false). simpl in *. rewrite Hrows, lookup_insert_eq.
  by rewrite Hfix.
Qed.

(** A row may be saved with its mount path once no driver is mounted on it, or
    for the driver that is. *)
Lemma Inv_Disable r o id : Inv r -> Inv (DisableStorage r o id).1.
Proof.
  intros Hi. unfold Storages.DisableStorage. destruct (Inv_get r id Hi) as [Hi1 Hrow].
  destruct (getRow_same r id) as (Htab & _ & _). destruct (getRow r id) as [r1 [s|e]]; [|done].
  cbn [fst snd] in *. specialize (Hrow s eq_refl). destruct (i_rows _ Hi _ _ Hrow) as [Hid Hfix].
  destruct (Disabled s); [done|]. unfold GetStorageByMountPath. rewrite Hfix.
  destruct (storagesMap r1 !! MountPath s) as [d|] eqn:Hk; [|done].
  destruct (oDrop o) as [e|]; [by apply Inv_emit|]. unfold saveRow. cbn [emit table].
  destruct (dbUpdateStorage (table r1) _) as [t e] eqn:Edb. destruct e as [e|].
  { apply (Inv_save (emit r1 (EvDrop d)) _ t (Some e) Edb (Inv_emit _ _ Hi1)); done. }
  apply Inv_emit. pose proof (Inv_unmap r1 (MountPath s) Hi1) as Hi2.
  set (r2 := setMap r1 (delete (MountPath s) (storagesMap r1))) in *.
  apply (Inv_same (setTable r2 t)); try done. apply (Inv_save r2 _ t None Edb Hi2); [done|].
  intros _ k d' s0 Hk' Hs0 Hsid. exfalso. simpl in Hk', Hs0, Hsid. apply lookup_delete_Some in Hk' as [Hne Hk'].
  destruct (i_map _ Hi1 k d' Hk') as (s1 & Hs1 & Hm & _ & row & Hr & Hrm & _). rewrite Hs0 in Hs1. injection Hs1 as <-.
  rewrite Htab, Hsid, Hid, Hrow in Hr. injection Hr as <-. congruence.
Qed.

Lemma delete_row r id t e :
  dbDeleteStorageById (table r) id = (t, e) -> Inv r ->
  (e = None -> forall k d s, storagesMap r !! k = Some d -> drivers r !! d = Some s -> sID s <> id) ->
  Inv (setTable r t).
Proof.
  intros Hdb Hi Hno. destruct e as [e|].
  - apply (Inv_same r); try done. pose proof (delete_err (table r) id e) as H. rewrite Hdb in H. by apply H.
  - pose proof (delete_ok (table r) id) as H. rewrite Hdb in H. specialize (H eq_refl). simpl in H.
    destruct Hi as [H1 H2 H3 H4]. split; simpl; [|done| |].
    + intros k d Hk. destruct (H1 k d Hk) as (s & Hs & ? & ? & row & Hrow & ? & ?). exists s.
      repeat split; try done. exists row. simpl. rewrite H, lookup_delete_ne; [done|].
      intros Heq. by apply (Hno eq_refl k d s Hk Hs).
    + intros id' s. rewrite H, lookup_delete_Some. intros [_ Hr]. by apply H3.
    + intros i j a b. rewrite H, !lookup_delete_Some. intros [_ Hr] [_ Hr']. by eapply H4.
Qed.

Lemma Inv_Delete r o id : Inv r -> Inv (DeleteStorageById r o id).1.
Proof.
  intros Hi. unfold Storages.DeleteStorageById. destruct (Inv_get r id Hi) as [Hi1 Hrow].
  destruct (getRow_same r id) as (Htab & _ & _). destruct (getRow r id) as [r1 [s|e]]; [|done].
  cbn [fst snd] in *. specialize (Hrow s eq_refl). destruct (i_rows _ Hi _ _ Hrow) as [Hid Hfix].
  assert (Hend : forall r2 dropErr, Inv r2 -> rows (table r2) = rows (table r) ->
    (forall k d s0, storagesMap r2 !! k = Some d -> drivers r2 !! d = Some s0 -> sID s0 <> id) ->
    Inv (let '(t, e) := dbDeleteStorageById (table r2) id in
         let r := setTable r2 t in
         match e with Some e => (r, Some (FailedDelete e)) | None => (r, dropErr) end).1).
  { intros r2 de Hi2 Ht Hno. destruct (dbDeleteStorageById (table r2) id) as [t e] eqn:Edb.
    pose proof (delete_row r2 id t e Edb Hi2 (fun _ => Hno)). by destruct e. }
  assert (Hother : forall k d s0, storagesMap r1 !! k = Some d -> drivers r1 !! d = Some s0 -> sID s0 = id ->
    k = MountPath s /\ Disabled s = false).
  { intros k d s0 Hk Hs0 Heq. destruct (i_map _ Hi1 k d Hk) as (s1 & Hs1 & Hm & _ & row & Hr & Hrm & Hrd).
    rewrite Hs0 in Hs1. injection Hs1 as <-. rewrite Htab, Heq, Hrow in Hr. injection Hr as <-. by split; [congruence|]. }
  destruct (Disabled s) eqn:Ed.
  - apply Hend; [done|done|]. intros k d s0 Hk Hs0 Heq. by destruct (Hother k d s0 Hk Hs0 Heq).
  - unfold GetStorageByMountPath. rewrite Hfix. destruct (storagesMap r1 !! MountPath s) as [d|] eqn:Hk; [|done].
    pose proof (Inv_unmap r1 (MountPath s) Hi1) as Hi2.
    apply Hend; [repeat apply Inv_emit; by apply (Inv_same (setMap r1 (delete (MountPath s) (storagesMap r1))))|done|].
    simpl. intros k d' s0 Hk' Hs0 Heq. apply lookup_delete_Some in Hk' as [Hne Hk'].
    destruct (Hother k d' s0 Hk' Hs0 Heq) as [? _]. congruence.
Qed.

Lemma renamed_ok r old new :
  Inv r -> let r2 := if negb (seqb old new) then setMap r (delete old (storagesMap r)) else r in
  Inv r2 /\ table r2 = table r /\ drivers r2 = drivers r /\ nextDriver r2 = nextDriver r /\
  forall k d, storagesMap r2 !! k = Some d -> storagesMap r !! k = Some d /\ (old = new \/ k <> old).
Proof.
  intros Hi. destruct (seqb old new) eqn:Eq; simpl.
  - apply seqb_true in Eq. do 4 (split; [done|]). intros k d Hk. split; [done|by left].
  - split; [by apply Inv_unmap|]. do 3 (split; [done|]). intros k d [Hne Hk]%lookup_delete_Some. auto.
Qed.

Lemma Inv_Update r o s :
  Inv r -> (Disabled s = true -> forall row, rows (table r) !! sID s = Some row -> Disabled row = true) ->
  Inv (UpdateStorage r o s).1.
Proof.
  intros Hi Hdis. unfold Storages.UpdateStorage. destruct (Inv_get r (sID s) Hi) as [Hi1 Hrow].
  destruct (getRow_same r (sID s)) as (Htab & _ & _). destruct (getRow r (sID s)) as [r1 [old|e]]; [|done].
  cbn [fst snd] in *. specialize (Hrow old eq_refl). destruct (i_rows _ Hi _ _ Hrow) as [Hid Hfix].
  destruct (negb _); [done|]. set (s1 := withMount _ _).
  assert (Hfix1 : fixAndCleanPath (MountPath s1) = MountPath s1) by apply fix_idem.
  unfold saveRow. destruct (dbUpdateStorage (table r1) s1) as [t e] eqn:Edb.
  destruct e as [e|]; [by apply (Inv_save r1 s1 t (Some e) Edb Hi1 Hfix1)|].
  assert (Hown : forall k d s0, storagesMap r1 !! k = Some d -> drivers r1 !! d = Some s0 -> sID s0 = sID s1 ->
    k = MountPath old /\ MountPath s0 = MountPath old /\ Disabled old = false).
  { intros k d s0 Hk Hs0 Heq. destruct (i_map _ Hi1 k d Hk) as (s2 & Hs2 & Hm & _ & row & Hr & Hrm & Hrd).
    rewrite Hs0 in Hs2. injection Hs2 as <-. simpl in Heq. rewrite Htab, Heq, Hrow in Hr. injection Hr as <-.
    by split; [congruence|]. }
  destruct (Disabled s1) eqn:Ed1.
  - apply (Inv_save r1 s1 t None Edb Hi1 Hfix1). intros _ k d s0 Hk Hs0 Heq. exfalso.
    destruct (Hown k d s0 Hk Hs0 Heq) as (_ & _ & Ho). specialize (Hdis Ed1 old Hrow). congruence.
  - unfold GetStorageByMountPath. cbn [setTable storagesMap]. rewrite Hfix.
    pose proof (update_ok (table r1) s1) as Hok. rewrite Edb in Hok. destruct (Hok eq_refl) as [Hrows _]. simpl in Hrows.
    destruct (storagesMap r1 !! MountPath old) as [d|] eqn:Hk.
    2: { apply (Inv_save r1 s1 t None Edb Hi1 Hfix1). intros _ k d s0 Hk' Hs0 Heq.
         destruct (Hown k d s0 Hk' Hs0 Heq) as (-> & _). congruence. }
    set (r2 := if negb (seqb (MountPath old) (MountPath s1)) then setMap r1 (delete (MountPath old) (storagesMap r1)) else r1).
    destruct (renamed_ok r1 (MountPath old) (MountPath s1) Hi1) as (Hi2 & Ht2 & Hd2 & Hn2 & Hk2). fold r2 in Hi2, Ht2, Hd2, Hn2, Hk2.
    assert (Hi3 : Inv (setTable r2 t)).
    { rewrite <- Ht2 in Edb. apply (Inv_save r2 s1 t None Edb Hi2 Hfix1). intros _ k d' s0 Hk' Hs0 Heq.
      destruct (Hk2 k d' Hk') as [Hk1 Hor]. rewrite Hd2 in Hs0. destruct (Hown k d' s0 Hk1 Hs0 Heq) as (-> & -> & _).
      by destruct Hor. }
    destruct (i_map _ Hi1 _ d Hk) as (s0 & Hs0 & Hm0 & _).
    assert (Hlt : (d < nextDriver (setTable r2 t))%nat) by (simpl; rewrite Hn2; apply (i_fresh _ Hi1); eauto).
    assert (Hb : backed (setTable r2 t) s1) by (exists s1; simpl; by rewrite Hrows, lookup_insert_eq).
    assert (Hkd : forall k, storagesMap (setTable r2 t) !! k = Some d -> k = MountPath s1).
    { intros k Hk'. destruct (Hk2 k d Hk') as [Hk1 Hor]. destruct (i_map _ Hi1 k d Hk1) as (s2 & Hs2 & Hm2 & _).
      rewrite Hs0 in Hs2. injection Hs2 as <-. destruct Hor; congruence. }
    match goal with |- context [emit ?r0 (EvDrop d)] => set (r3 := emit r0 (EvDrop d)) end.
    assert (Hsame : storagesMap r3 = storagesMap (setTable r2 t) /\ drivers r3 = drivers (setTable r2 t) /\
      nextDriver r3 = nextDriver (setTable r2 t) /\ table r3 = t) by (unfold r3, r2; by destruct (negb _)).
    destruct Hsame as (Hm3 & Hd3 & Hn3 & Ht3).
    assert (Hi4 : Inv r3) by (apply (Inv_same (setTable r2 t)); try done; by rewrite Ht3).
    destruct (oDrop o) as [e|]; [done|].
    assert (Hinit : Inv (initStorage r3 o s1 d).1).
    { apply Inv_initStorage; [done|by rewrite Hn3| |done|by rewrite Hm3].
      eapply backed_table; [|exact Hb]. by rewrite Ht3. }
    destruct (initStorage r3 o s1 d) as [r4 err]. by apply Inv_emit.
Qed.

(** ** Runs *)
Inductive op :=
| OpCreate (s : Storage) | OpLoad (s : Storage) | OpEnable (id : Z) | OpDisable (id : Z)
| OpUpdate (s : Storage) | OpDelete (id : Z).

Definition exec (r : registry) (o : oracle E) (p : op) : registry :=
  match p with
  | OpCreate s => (CreateStorage r o s).1
  | OpLoad s => (LoadStorage r o s).1
  | OpEnable id => (EnableStorage r o id).1
  | OpDisable id => (DisableStorage r o id).1
  | OpUpdate s => (UpdateStorage r o s).1
  | OpDelete id => (DeleteStorageById r o id).1
  end.

(** Storages are created enabled, loaded from enabled rows, and an update does
    not disable an enabled storage. *)
Definition op_ok (r : registry) (p : op) : Prop :=
  match p with
  | OpCreate s => Disabled s = false
  | OpLoad s => rows (table r) !! sID s = Some s /\ Disabled s = false
  | OpUpdate s => Disabled s = true -> forall row, rows (table r) !! sID s = Some row -> Disabled row = true
  | _ => True
  end.

Inductive reach (r0 : registry) : registry -> Prop :=
| reach_refl : reach r0 r0
| reach_step r o p : reach r0 r -> op_ok r p -> reach r0 (exec r o p).

(** At the start of the program nothing is mounted. *)
Definition start (r : registry) : Prop :=
  storagesMap r = ∅ /\ drivers r = ∅ /\
  (forall id s, rows (table r) !! id = Some s -> sID s = id /\ fixAndCleanPath (MountPath s) = MountPath s) /\
  (forall id id' s s', rows (table r) !! id = Some s -> rows (table r) !! id' = Some s' ->
     MountPath s = MountPath s' -> id = id').

Lemma exec_Inv r o p : Inv r -> op_ok r p -> Inv (exec r o p).
Proof.
  destruct p as [s|s|id|id|s|id]; simpl; intros Hi Hok.
  - by apply Inv_Create.
  - destruct Hok as [Hrow Hd]. apply Inv_Load; [done| |done]. exists s. simpl.
    destruct (i_rows _ Hi _ _ Hrow) as [_ Hfix]. by rewrite Hfix.
  - by apply Inv_Enable.
  - by apply Inv_Disable.
  - by apply Inv_Update.
  - by apply Inv_Delete.
Qed.

Lemma reach_Inv r0 r : start r0 -> reach r0 r -> Inv r.
Proof.
  intros (Hm & Hd & Hr & Hu). induction 1 as [|r o p _ IH Hok]; [|by apply exec_Inv].
  split; [intros k d; by rewrite Hm|intros d [s Hs]; by rewrite Hd in Hs|exact Hr|exact Hu].
Qed.

(** The storage record of a driver, as GetStorage returns it. *)
Definition storageOf (r : registry) (d : nat) : Storage :=
  default (mkStorage 0 [] 0 [] [] [] [] 0 false) (drivers r !! d).

Lemma registry_entries r :
  Inv r -> (forall k, is_Some (storagesMap r !! k) -> actual_clean k) ->
  entries_ok (storageOf r) (map_to_list (storagesMap r)).
Proof.
  intros Hi Hc. split.
  - intros [k d] He%elem_of_map_to_list. simpl. destruct (i_map _ Hi k d He) as (s & Hs & <- & _).
    unfold mountOf, storageOf. by rewrite Hs.
  - apply NoDup_fst_map_to_list.
  - intros [k d] He%elem_of_map_to_list. apply Hc. simpl. eauto.
Qed.

(** ** The theorems *)


(** In every reachable state a request path is served by a driver whose row
    in the table is enabled, the mount path of that row without its balance
    suffix and the actual path give the request path back, and the call fails
    exactly if no mounted path covers the request path. *)
Theorem registry_resolve r0 r bm raw :
  start r0 -> reach r0 r -> balance_ok bm ->
  (forall k, is_Some (storagesMap r !! k) -> actual_clean k) ->
  match (GetStorageAndActualPath (storageOf r) (map_to_list (storagesMap r)) bm raw).2 with
  | Ok (d, ap) => exists s row, drivers r !! d = Some s /\ rows (table r) !! sID s = Some row /\
      Disabled row = false /\ MountPath row = MountPath s /\
      GetFullPath (MountPath row) ap = fixAndCleanPath raw
  | Err _ => forall k, is_Some (storagesMap r !! k) -> ~ mount_segs k `prefix_of` norm_segs raw
  end.
Proof.
  intros Hs Hr Hbm Hc. pose proof (reach_Inv _ _ Hs Hr) as Hi. pose proof (registry_entries r Hi Hc) as He.
  unfold GetStorageAndActualPath.
  pose proof (balanced_mem (storageOf r) _ bm (fixAndCleanPath raw) He Hbm) as Hb.
  destruct (GetBalancedStorage _ _ _ _) as [bm' [d|]]; simpl in *.
  - destruct Hb as ([k d'] & Hin & Hd & Hl). simpl in Hd. subst d'. rewrite longest_fix in Hl. destruct Hl as [Hcov _].
    pose proof (actual_path (storageOf r) _ raw (k, d) He Hin Hcov) as [_ Hfull]. simpl in Hfull.
    apply elem_of_map_to_list in Hin. destruct (i_map _ Hi k d Hin) as (s & Hds & Hm & _ & row & Hrow & Hrm & Hrd).
    exists s, row. split; [done|]. split; [done|]. split; [done|]. split; [by rewrite Hrm|].
    rewrite Hrm. unfold mountOf, storageOf in *. rewrite Hds in *. exact Hfull.
  - intros k [d Hk] Hcov. rewrite Forall_forall in Hb. apply (Hb (k, d)); [by apply elem_of_map_to_list|].
    unfold covers. simpl. by rewrite norm_segs_fix.
Qed.

Lemma saveRow_ok r s :
  (dbUpdateStorage (table r) s).2 = None ->
  saveRow (E := E) r s = (setTable r (dbUpdateStorage (table r) s).1, None) /\
  rows (dbUpdateStorage (table r) s).1 = <[sID s := s]> (rows (table r)).
Proof.
  intros Hok. destruct (update_ok _ _ Hok) as [Hrows _]. unfold saveRow.
  destruct (dbUpdateStorage (table r) s) as [t e]. simpl in *. by subst e.
Qed.

Lemma getRow_ok r id s :
  (dbGetStorageById (table r) id).2 = Ok s ->
  getRow (E := E) r id = (setTable r (dbGetStorageById (table r) id).1, Ok s).
Proof. unfold getRow. destruct (dbGetStorageById (table r) id) as [t x]. simpl. by intros ->. Qed.

(** Defect: an update that sets the disabled flag of a mounted storage succeeds
    and disables the row, but the driver stays mounted and keeps serving. *)
Theorem update_keeps_mounted r o id s d :
  Inv r -> rows (table r) !! id = Some s -> storagesMap r !! MountPath s = Some d ->
  let new := withModified (withDisabled s true) (oNow o) in
  (dbGetStorageById (table r) id).2 = Ok s ->
  (dbUpdateStorage (dbGetStorageById (table r) id).1 new).2 = None ->
  let '(r', err) := UpdateStorage r o (withDisabled s true) in
  err = None /\ (exists row, rows (table r') !! id = Some row /\ Disabled row = true) /\
  storagesMap r' !! MountPath s = Some d.
Proof.
  intros Hi Hrow Hk new Hget Hsave. destruct (i_rows _ Hi _ _ Hrow) as [Hid Hfix].
  subst id. unfold Storages.UpdateStorage. rewrite (getRow_ok r (sID (withDisabled s true)) s) by done.
  cbn [withDisabled DriverName]. rewrite seqb_refl. cbn [negb].
  change (withMount _ _) with (withMount new (fixAndCleanPath (MountPath s))). rewrite Hfix.
  change (withMount new (MountPath s)) with new. change (sID (withDisabled s true)) with (sID s).
  destruct (saveRow_ok (setTable r (dbGetStorageById (table r) (sID s)).1) new Hsave) as [-> Hrows]. simpl.
  split; [done|]. split; [|done]. exists new. cbn [setTable table] in Hrows. rewrite Hrows. by rewrite lookup_insert_eq.
Qed.

(** Defect: an update that clears the disabled flag enables the row and fails,
    because no driver is mounted; afterwards EnableStorage, DisableStorage and
    DeleteStorageById of the storage all fail and change nothing. *)
Theorem update_enable_stuck r o id s :
  Inv r -> rows (table r) !! id = Some s -> Disabled s = true ->
  let new := withModified (withDisabled s false) (oNow o) in
  (dbGetStorageById (table r) id).2 = Ok s ->
  (dbUpdateStorage (dbGetStorageById (table r) id).1 new).2 = None ->
  let '(r', err) := UpdateStorage r o (withDisabled s false) in
  err = Some (FailedGetStorageDriver (MountPath s)) /\ rows (table r') !! id = Some new /\
  forall o' p, p = OpEnable id \/ p = OpDisable id \/ p = OpDelete id ->
    storagesMap (exec r' o' p) = storagesMap r' /\ rows (table (exec r' o' p)) = rows (table r').
Proof.
  intros Hi Hrow Hdis new Hget Hsave. destruct (i_rows _ Hi _ _ Hrow) as [Hid Hfix].
  assert (Hno : storagesMap r !! MountPath s = None).
  { destruct (storagesMap r !! MountPath s) as [d|] eqn:Hk; [|done].
    destruct (mounted_row r id s d Hi Hrow Hk) as (_ & _ & _ & _ & ?). congruence. }
  subst id. unfold Storages.UpdateStorage. rewrite (getRow_ok r (sID (withDisabled s false)) s) by done.
  cbn [withDisabled DriverName]. rewrite seqb_refl. cbn [negb].
  change (withMount _ _) with (withMount new (fixAndCleanPath (MountPath s))). rewrite Hfix.
  change (withMount new (MountPath s)) with new. change (sID (withDisabled s false)) with (sID s).
  destruct (saveRow_ok (setTable r (dbGetStorageById (table r) (sID s)).1) new Hsave) as [-> Hrows].
  cbn [setTable table] in Hrows. set (t := (dbUpdateStorage _ new).1) in *.
  change (Disabled new) with false. cbv iota. unfold GetStorageByMountPath. cbn [setTable storagesMap]. rewrite Hfix, Hno.
  cbn [setTable table]. assert (Hnew : rows t !! sID s = Some new) by (rewrite Hrows; apply lookup_insert_eq).
  split; [done|]. split; [done|]. set (r1 := setTable _ t).
  assert (Hgetnew : forall x, (dbGetStorageById (table r1) (sID s)).2 = Ok x -> x = new).
  { intros x Hx%get_ok. unfold r1 in Hx. simpl in Hx. congruence. }
  assert (Hsame : rows (dbGetStorageById (table r1) (sID s)).1 = rows (table r1)) by apply get_rows.
  assert (Hcases : getRow (E := E) r1 (sID s) = (setTable r1 (dbGetStorageById (table r1) (sID s)).1, Ok new) \/
    exists e, getRow (E := E) r1 (sID s) = (setTable r1 (dbGetStorageById (table r1) (sID s)).1, Err e)).
  { unfold getRow. destruct (dbGetStorageById (table r1) (sID s)) as [t1 [x|e]]; [left|right; eauto].
    simpl in Hgetnew. by rewrite (Hgetnew x eq_refl). }
  intros o' p Hp. unfold exec.
  destruct Hp as [->|[->| ->]]; [unfold Storages.EnableStorage|unfold Storages.DisableStorage|unfold Storages.DeleteStorageById];
    (destruct Hcases as [->|[e ->]]; [|by split]); change (Disabled new) with false; change (MountPath new) with (MountPath s);
    cbv iota; cbn [negb]; unfold GetStorageByMountPath; rewrite ?Hfix; cbn [r1 setTable storagesMap]; rewrite ?Hno; by split.
Qed.
End Spec.

(** ** An example: a table in memory *)
Definition clash (t : gmap Z Storage) (id : Z) (s : Storage) : Prop :=
  map_Exists (fun j r => j <> id /\ MountPath r = MountPath s) t.

#[export] Instance clash_dec t id s : Decision (clash t id s).
Proof. unfold clash. apply _. Defined.

#[export] Instance memTable : Table unit (gmap Z Storage) := {
  rows t := t;
  dbGetStorageById t id := (t, match t !! id with Some s => Ok s | None => Err tt end);
  dbCreateStorage t s :=
    let id := fresh (dom t) in
    if decide (clash t id s) then (t, Err tt) else (<[id := withID s id]> t, Ok id);
  dbUpdateStorage t s :=
    if decide (clash t (sID s) s) then (t, Some tt) else (<[sID s := s]> t, None);
  dbDeleteStorageById t id := (delete id t, None)
}.

Lemma no_clash t id s j r : ~ clash t id s -> t !! j = Some r -> j <> id -> MountPath r <> MountPath s.
Proof. intros Hno Hr Hne Hm. apply Hno. exists j, r. done. Qed.

#[export] Instance memTable_laws : TableLaws unit (gmap Z Storage).
Proof.
  split; try done; simpl.
  - intros t id s. destruct (t !! id); [by intros [= ->]|done].
  - intros t s id. case_decide as Hc; [done|]. simpl. intros [= <-].
    assert (Hf : t !! fresh (dom t) = None) by (apply not_elem_of_dom, is_fresh).
    split; [done|]. split; [done|]. intros j r Hr. apply (no_clash _ _ _ _ _ Hc Hr). intros ->. congruence.
  - intros t s e. by case_decide.
  - intros t s. case_decide as Hc; [done|]. intros _. split; [done|].
    intros j r Hr Hne. by apply (no_clash _ _ _ _ _ Hc Hr).
  - intros t s e. by case_decide.
Qed.

Definition emptyReg : registry (gmap Z Storage) := mkReg ∅ ∅ 0 ∅ [].
Definition quiet : oracle unit := mkOracle 7 (Returned None) (Returned None) (Returned None) None (Ok []).
Definition demoCreate : op := OpCreate (mkStorage 0 "a//b.balance" 0 "Local" [] [] [] 0 false).
Definition demoReg : registry (gmap Z Storage) :=
  exec (fun _ => true) (fun _ => false) (fun _ _ => []) (fun _ => tt) (fun _ e => e) emptyReg quiet demoCreate.

Lemma demo_start : start (E := unit) emptyReg.
Proof.
  assert (Hno : forall i s, rows (table emptyReg) !! i <> Some s) by (intros i s; exact (lookup_empty_Some (M := gmap Z) i s)).
  split; [done|]. split; [done|]. split; [intros i s Hs; by apply Hno in Hs|]. intros i j s s' Hs. by apply Hno in Hs.
Qed.

Definition demoKey : gostr := "/a/b.balance".


Lemma registry_resolve_witness :
  match (GetStorageAndActualPath (storageOf demoReg) (map_to_list (storagesMap demoReg)) ∅ "/a/b/c").2 with
  | Ok (d, ap) => exists s row, drivers demoReg !! d = Some s /\ rows (table demoReg) !! sID s = Some row /\
      Disabled row = false /\ MountPath row = MountPath s /\
      GetFullPath (MountPath row) ap = fixAndCleanPath "/a/b/c"
  | Err _ => forall k, is_Some (storagesMap demoReg !! k) -> ~ mount_segs k `prefix_of` norm_segs "/a/b/c"
  end.
Proof.
  apply (registry_resolve (fun _ => true) (fun _ => false) (fun _ _ => []) (fun _ => tt) (fun _ e => e) emptyReg demoReg ∅ "/a/b/c" demo_start).
  - apply (reach_step _ _ _ _ _ emptyReg emptyReg quiet demoCreate); [constructor|done].
  - intros k i Hi. by rewrite lookup_empty in Hi.
  - assert (Hm : storagesMap demoReg = {[ demoKey := 0%nat ]}) by (vm_compute; reflexivity).
    intros k [d Hk]. rewrite Hm in Hk. apply lookup_singleton_Some in Hk as [<- _]. vm_compute. reflexivity.
Defined.
