(* ===== verification/Objects.v ===== *)
(** The objects of a listing: src/internal/model/obj.go and object.go (wrappers,
    masks, sorting, merging) and MappingName of src/pkg/utils/str.go.

    A driver returns objects of its own types; an [Obj] is one of them ([Leaf]:
    the fields of model.Object, and the display name of the types that have
    GetDisplayName) or one of the two wrappers of the package. Times are numbers,
    0 the zero time. sort.Slice and the natural order of names are parameters. *)
From S2P Require Import Prelude GoString Mounts.

(** ** Objects *)

(** model.ObjMask; the other bits are in [Mounts]. *)
Definition Temp : Z := 64.

Record Object := mkObject {
  oID : gostr; oPath : gostr; oName : gostr; oSize : Z; oModified : Z; oCtime : Z;
  oIsFolder : bool; oHashInfo : list (gostr * gostr); oMask : Z
}.

Inductive Obj :=
| Leaf (o : Object) (display : option gostr)
| ObjWrapName (name : gostr) (obj : Obj)
| ObjWrapMask (obj : Obj) (mask : Z).

#[export] Instance Object_eq : EqDecision Object.
Proof. solve_decision. Defined.
#[export] Instance Obj_eq : EqDecision Obj.
Proof. solve_decision. Defined.

Fixpoint leafOf (o : Obj) : Object :=
  match o with Leaf o _ => o | ObjWrapName _ o => leafOf o | ObjWrapMask o _ => leafOf o end.

Fixpoint GetName (o : Obj) : gostr :=
  match o with Leaf o _ => oName o | ObjWrapName name _ => name | ObjWrapMask o _ => GetName o end.

(** The other methods are promoted from the wrapped object. *)
Definition IsDir (o : Obj) : bool := oIsFolder (leafOf o).
Definition GetSize (o : Obj) : Z := oSize (leafOf o).
Definition ModTime (o : Obj) : Z := oModified (leafOf o).
Definition CreateTime (o : Obj) : Z :=
  if oCtime (leafOf o) =? 0 then ModTime o else oCtime (leafOf o).
Definition GetID (o : Obj) : gostr := oID (leafOf o).
Definition GetPath (o : Obj) : gostr := oPath (leafOf o).

Fixpoint GetObjMask (o : Obj) : Z :=
  match o with Leaf o _ => oMask o | ObjWrapName _ o => GetObjMask o | ObjWrapMask _ mask => mask end.

Definition ObjHasMask (o : Obj) (mask : Z) : bool := negb (Z.land (GetObjMask o) mask =? 0).

(** ** Names *)

(** strings.ReplaceAll of a non-empty string, leftmost first and without
    overlaps; [skip] bytes belong to the occurrence just replaced. *)
Fixpoint replaceFrom (old new : gostr) (skip : nat) (s : gostr) : gostr :=
  match s with
  | [] => []
  | c :: s' =>
      match skip with
      | S k => replaceFrom old new k s'
      | O => if hasPrefix s old then new ++ replaceFrom old new (length old - 1) s'
             else c :: replaceFrom old new 0 s'
      end
  end.

Definition replaceAll (s old new : gostr) : gostr := replaceFrom old new 0 s.

(** conf.FilenameCharMap in the order in which the loop visits it; the keys are
    not empty. *)
Abbreviation charmap := (list ((ascii * gostr) * gostr)).

Definition MappingName (m : charmap) (name : gostr) : gostr :=
  foldl (fun name kv => replaceAll name (kv.1.1 :: kv.1.2) kv.2) name m.

Definition shownName (m : charmap) (o : Obj) : gostr :=
  MappingName m (match o with Leaf _ (Some display) => display | _ => GetName o end).

Definition WrapObjName (m : charmap) (o : Obj) : Obj := ObjWrapName (shownName m o) o.

Definition WrapObjsName (m : charmap) (objs : list Obj) : list Obj := map (WrapObjName m) objs.

Definition UnwrapObjName (o : Obj) : Obj :=
  match o with ObjWrapName _ o => o | _ => o end.

(** ** Sorting *)
Section Sorting.
Context (sortSlice : (Obj -> Obj -> bool) -> list Obj -> list Obj) (naturalLess : gostr -> gostr -> bool).

(** The function SortFiles gives to sort.Slice. *)
Definition sortLess (orderBy orderDirection : gostr) (a b : Obj) : bool :=
  let desc := seqb orderDirection "desc" in
  if seqb orderBy "name" then
    let c := naturalLess (GetName a) (GetName b) in
    if desc then negb c else c
  else if seqb orderBy "size" then
    if desc then GetSize b <=? GetSize a else GetSize a <=? GetSize b
  else if seqb orderBy "modified" then
    if desc then ModTime b <? ModTime a else ModTime a <? ModTime b
  else false.

Definition SortFiles (objs : list Obj) (orderBy orderDirection : gostr) : list Obj :=
  if seqb orderBy "" then objs else sortSlice (sortLess orderBy orderDirection) objs.

(** The function ExtractFolder gives to sort.SliceStable. *)
Definition extractLess (front : bool) (a b : Obj) : bool :=
  if IsDir a || IsDir b then
    if negb (IsDir a) then negb front
    else if negb (IsDir b) then front
    else false
  else false.

(** sort.SliceStable as a stable insertion sort; for a strict weak order there
    is one stable result. *)
Fixpoint insertStable (less : Obj -> Obj -> bool) (x : Obj) (l : list Obj) : list Obj :=
  match l with
  | [] => [x]
  | y :: l' => if less y x then y :: insertStable less x l' else x :: y :: l'
  end.

Definition sliceStable (less : Obj -> Obj -> bool) (l : list Obj) : list Obj :=
  foldr (insertStable less) [] l.

Definition ExtractFolder (objs : list Obj) (extractFolder : gostr) : list Obj :=
  if seqb extractFolder "" then objs
  else sliceStable (extractLess (seqb extractFolder "front")) objs.

End Sorting.

(** ** Merging *)
Section Merge.
Context (matches : gostr -> gostr -> bool).   (* regexp2: pattern, name *)

Record ObjMerge := mkObjMerge { regs : list gostr; mset : gset gostr }.

Definition NewObjMerge : ObjMerge := mkObjMerge [] ∅.

(** InitHideReg; MustCompile panics on a bad pattern, which the caller's
    settings check excludes. *)
Definition InitHideReg (om : ObjMerge) (hides : gostr) : ObjMerge :=
  mkObjMerge (splitByte hides (ascii_of_nat 10)) (mset om).

Definition Reset (om : ObjMerge) : ObjMerge := mkObjMerge (regs om) ∅.

Definition clickObj (om : ObjMerge) (o : Obj) : ObjMerge * bool :=
  if existsb (fun reg => matches reg (GetName o)) (regs om) then (om, false)
  else (mkObjMerge (regs om) ({[GetName o]} ∪ mset om), bool_decide (GetName o ∉ mset om)).

Fixpoint insertObjs (om : ObjMerge) (objs objs_ : list Obj) : ObjMerge * list Obj :=
  match objs_ with
  | [] => (om, objs)
  | o :: objs_ =>
      let '(om, ok) := clickObj om o in
      insertObjs om (if ok then objs ++ [o] else objs) objs_
  end.

Definition Merge (om : ObjMerge) (objs objs_ : list Obj) : ObjMerge * list Obj :=
  let '(om, newObjs) := insertObjs om [] objs in
  insertObjs om newObjs objs_.

End Merge.

(** ** Lemmas *)
Lemma GetName_Wrap m o : GetName (WrapObjName m o) = shownName m o.
Proof. done. Qed.

Lemma IsDir_Wrap m o : IsDir (WrapObjName m o) = IsDir o.
Proof. done. Qed.

Lemma IsDir_Unwrap o : IsDir (UnwrapObjName o) = IsDir o.
Proof. by destruct o. Qed.

Lemma GetSize_Unwrap o : GetSize (UnwrapObjName o) = GetSize o.
Proof. by destruct o. Qed.

Lemma GetObjMask_Unwrap o : GetObjMask (UnwrapObjName o) = GetObjMask o.
Proof. by destruct o. Qed.

Lemma insertStable_perm less x l : insertStable less x l ≡ₚ x :: l.
Proof.
  induction l as [|y l IH]; simpl; [done|]. destruct (less y x); [|done].
  rewrite IH. apply Permutation_swap.
Qed.

Lemma sliceStable_perm less l : sliceStable less l ≡ₚ l.
Proof.
  induction l as [|x l IH]; simpl; [done|]. rewrite insertStable_perm. by rewrite IH.
Qed.

Lemma ExtractFolder_perm l e : ExtractFolder l e ≡ₚ l.
Proof. unfold ExtractFolder. destruct (seqb e ""); [done|apply sliceStable_perm]. Qed.

Definition dirsOf (l : list Obj) : list Obj := filter (fun o => IsDir o = true) l.
Definition filesOf (l : list Obj) : list Obj := filter (fun o => IsDir o = false) l.

Lemma insertStable_all less x l1 l2 :
  Forall (fun y => less y x = true) l1 -> insertStable less x (l1 ++ l2) = l1 ++ insertStable less x l2.
Proof. induction 1 as [|y l1 Hy Hl IH]; simpl; [done|]. by rewrite Hy, IH. Qed.

Lemma insertStable_none less x l : Forall (fun y => less y x = false) l -> insertStable less x l = x :: l.
Proof. destruct 1 as [|y l Hy Hl]; simpl; [done|]. by rewrite Hy. Qed.

Lemma Forall_dirs (Q : Obj -> Prop) l : (forall o, IsDir o = true -> Q o) -> Forall Q (dirsOf l).
Proof. intros H. apply Forall_forall. intros o [Ho _]%list_elem_of_filter. by apply H. Qed.

Lemma Forall_files (Q : Obj -> Prop) l : (forall o, IsDir o = false -> Q o) -> Forall Q (filesOf l).
Proof. intros H. apply Forall_forall. intros o [Ho _]%list_elem_of_filter. by apply H. Qed.

Lemma extract_partition front l :
  sliceStable (extractLess front) l = if front then dirsOf l ++ filesOf l else filesOf l ++ dirsOf l.
Proof.
  unfold dirsOf, filesOf. induction l as [|x l IH]; simpl; [by destruct front|].
  rewrite IH, !filter_cons. clear IH. destruct (IsDir x) eqn:Hx, front; simpl.
  - apply insertStable_none, Forall_app. split.
    + apply Forall_dirs. intros o Ho. unfold extractLess. by rewrite Ho, Hx.
    + apply Forall_files. intros o Ho. unfold extractLess. by rewrite Ho, Hx.
  - rewrite insertStable_all.
    + f_equal. apply insertStable_none, Forall_dirs. intros o Ho. unfold extractLess. by rewrite Ho, Hx.
    + apply Forall_files. intros o Ho. unfold extractLess. by rewrite Ho, Hx.
  - rewrite insertStable_all.
    + f_equal. apply insertStable_none, Forall_files. intros o Ho. unfold extractLess. by rewrite Ho, Hx.
    + apply Forall_dirs. intros o Ho. unfold extractLess. by rewrite Ho, Hx.
  - apply insertStable_none, Forall_app. split.
    + apply Forall_files. intros o Ho. unfold extractLess. by rewrite Ho, Hx.
    + apply Forall_dirs. intros o Ho. unfold extractLess. by rewrite Ho, Hx.
Qed.

(** ExtractFolder puts the folders first ("front") or last (any other setting
    but the empty one) and keeps the order within the folders and within the
    files. *)
Theorem extractFolder_partition objs e :
  ExtractFolder objs e =
    if seqb e "" then objs
    else if seqb e "front" then dirsOf objs ++ filesOf objs else filesOf objs ++ dirsOf objs.
Proof. unfold ExtractFolder. destruct (seqb e ""); [done|]. apply extract_partition. Qed.

Section MergeLemmas.
Context (matches : gostr -> gostr -> bool).

Definition hidden (rs : list gostr) (o : Obj) : bool := existsb (fun reg => matches reg (GetName o)) rs.

(** The objects a merger with the names [seen] adds from a list. *)
Fixpoint firsts (rs : list gostr) (seen : gset gostr) (l : list Obj) : list Obj :=
  match l with
  | [] => []
  | o :: l =>
      if hidden rs o then firsts rs seen l
      else if bool_decide (GetName o ∈ seen) then firsts rs seen l
      else o :: firsts rs ({[GetName o]} ∪ seen) l
  end.

Definition seenAfter (rs : list gostr) (seen : gset gostr) (l : list Obj) : gset gostr :=
  list_to_set (map GetName (filter (fun o => hidden rs o = false) l)) ∪ seen.

Lemma insertObjs_firsts om objs l :
  insertObjs matches om objs l =
    (mkObjMerge (regs om) (seenAfter (regs om) (mset om) l), objs ++ firsts (regs om) (mset om) l).
Proof.
  revert om objs. induction l as [|o l IH]; intros [rs seen] objs; simpl.
  { unfold seenAfter. simpl. by rewrite app_nil_r, (left_id_L ∅ (∪)). }
  unfold clickObj. simpl. fold (hidden rs o). unfold seenAfter in *. rewrite filter_cons.
  destruct (hidden rs o) eqn:Hh; rewrite IH; simpl; [done|]. clear IH.
  f_equal; [f_equal; set_solver|].
  destruct (decide (GetName o ∈ seen)) as [Hs|Hs].
  - rewrite (bool_decide_eq_false_2 (GetName o ∉ seen)), (bool_decide_eq_true_2 (GetName o ∈ seen)) by (done || tauto).
    assert ({[GetName o]} ∪ seen = seen) as -> by set_solver. done.
  - rewrite (bool_decide_eq_true_2 (GetName o ∉ seen)), (bool_decide_eq_false_2 (GetName o ∈ seen)) by done.
    by rewrite <- (assoc_L (++)).
Qed.

Lemma mergeFirsts_app rs seen l1 l2 :
  firsts rs seen (l1 ++ l2) = firsts rs seen l1 ++ firsts rs (seenAfter rs seen l1) l2.
Proof.
  revert seen. induction l1 as [|o l1 IH]; intros seen; simpl.
  { unfold seenAfter. simpl. by rewrite (left_id_L ∅ (∪)). }
  unfold seenAfter in *. rewrite filter_cons. destruct (hidden rs o) eqn:Hh; simpl; [apply IH|].
  destruct (bool_decide_reflect (GetName o ∈ seen)) as [Hs|Hs]; rewrite IH.
  - do 2 f_equal. set_solver.
  - simpl. do 3 f_equal. set_solver.
Qed.

Lemma mergeFirsts_elem rs seen l o :
  o ∈ firsts rs seen l -> o ∈ l /\ hidden rs o = false /\ GetName o ∉ seen.
Proof.
  revert seen. induction l as [|x l IH]; intros seen; simpl; [set_solver|].
  destruct (hidden rs x) eqn:Hh; [intros H%IH; set_solver|].
  destruct (bool_decide_reflect (GetName x ∈ seen)) as [Hs|Hs]; [intros H%IH; set_solver|].
  rewrite elem_of_cons. intros [->|H%IH]; set_solver.
Qed.

Lemma firsts_NoDup rs seen l : NoDup (map GetName (firsts rs seen l)).
Proof.
  revert seen. induction l as [|x l IH]; intros seen; simpl; [constructor|].
  destruct (hidden rs x); [apply IH|].
  destruct (bool_decide_reflect (GetName x ∈ seen)) as [Hs|Hs]; [apply IH|].
  simpl. constructor; [|apply IH]. rewrite list_elem_of_fmap. intros (o & Heq & Ho).
  apply mergeFirsts_elem in Ho as (_ & _ & Ho). set_solver.
Qed.

Lemma firsts_names rs seen l n :
  n ∈ map GetName (firsts rs seen l) <-> n ∉ seen /\ exists o, o ∈ l /\ hidden rs o = false /\ GetName o = n.
Proof.
  revert seen. induction l as [|x l IH]; intros seen; simpl; [set_solver|].
  assert (Hskip : (hidden rs x = true \/ GetName x ∈ seen) ->
    (n ∉ seen /\ exists o, o ∈ l /\ hidden rs o = false /\ GetName o = n) <->
    (n ∉ seen /\ exists o, o ∈ x :: l /\ hidden rs o = false /\ GetName o = n)).
  { intros Hx. split; intros (H & o & Ho & Hr & Hn); (split; [done|]); exists o.
    - split; [by right|done].
    - apply elem_of_cons in Ho as [->|Ho]; [|done]. destruct Hx; congruence. }
  destruct (hidden rs x) eqn:Hh; [rewrite IH; auto|].
  destruct (bool_decide_reflect (GetName x ∈ seen)) as [Hs|Hs]; [rewrite IH; auto|].
  simpl. rewrite elem_of_cons, IH. clear Hskip. split.
  - intros [->|(H & o & Ho & Hr)].
    + split; [done|]. exists x. split; [by left|done].
    + split; [set_solver|]. exists o. split; [by right|done].
  - intros (H & o & Ho & Hr & <-). apply elem_of_cons in Ho as [->|Ho]; [by left|].
    destruct (decide (GetName o = GetName x)) as [->|Hne]; [by left|right].
    split; [set_solver|by exists o].
Qed.

(** Merging two listings with a fresh merger gives no name twice, nothing that a
    hide rule matches, every other name of either listing, and of a name in
    both the object of the first. *)
Theorem merge_names hides objs objs_ :
  let om := InitHideReg NewObjMerge hides in
  let l := (Merge matches om objs objs_).2 in
  NoDup (map GetName l) /\
  (forall n, n ∈ map GetName l <-> exists o, o ∈ objs ++ objs_ /\ hidden (regs om) o = false /\ GetName o = n) /\
  (forall o, o ∈ l -> o ∈ objs \/ o ∈ objs_ /\ forall o', o' ∈ objs -> GetName o' <> GetName o).
Proof.
  intros om l. assert (Hl : l = firsts (regs om) ∅ (objs ++ objs_)).
  { unfold l, Merge. rewrite insertObjs_firsts. simpl. rewrite insertObjs_firsts. simpl. by rewrite mergeFirsts_app. }
  rewrite Hl. split_and!.
  - apply firsts_NoDup.
  - intros n. rewrite firsts_names. set_solver.
  - intros o. rewrite mergeFirsts_app, elem_of_app. intros [H%mergeFirsts_elem|H%mergeFirsts_elem]; [naive_solver|].
    destruct H as (Ho & Hh & Hs). right. split; [done|]. intros o' Ho' Heq. apply Hs.
    unfold seenAfter. rewrite (right_id_L ∅ (∪)), elem_of_list_to_set, list_elem_of_fmap.
    exists o'. split; [done|]. apply list_elem_of_filter. split; [|done]. unfold hidden in *. by rewrite Heq.
Qed.

End MergeLemmas.
