(* ===== verification/KeyedCache.v ===== *)
(** The caches of src/internal/cache: KeyedCache (keyed_cache.go), TypedCache
    (typed_cache.go) and their entries (type.go).

    A method runs under the mutex of the cache; the function of a method takes
    the value of time.Now() it reads. An Expirable other than a time (the
    closers of a link) is a value of [X] with the method [expired]. *)
From S2P Require Import Prelude.

(** ** Entries *)
Inductive expiry (X : Type) := ExpirationTime (t : Z) | Expirable (x : X).
Arguments ExpirationTime {X} t.
Arguments Expirable {X} x.

Record CacheEntry (X A : Type) := mkEntry { eData : A; eExpiry : expiry X }.
Arguments mkEntry {X A} eData eExpiry.
Arguments eData {X A} c.
Arguments eExpiry {X A} c.

Section Cache.
Context {X A : Type} (expired : X -> bool).

(** After(t): strictly later. *)
Definition Expired (now : Z) (e : CacheEntry X A) : bool :=
  match eExpiry e with ExpirationTime t => t <? now | Expirable x => expired x end.

(** ** KeyedCache *)
Abbreviation KeyedCache := (gmap gostr (CacheEntry X A)).

Definition SetWithExpirable (c : KeyedCache) (key : gostr) (value : A) (exp : expiry X) : KeyedCache :=
  <[key := mkEntry value exp]> c.

Definition SetWithTTL (c : KeyedCache) (now : Z) (key : gostr) (value : A) (ttl : Z) : KeyedCache :=
  SetWithExpirable c key value (ExpirationTime (now + ttl)).

(** Get: the entry is deleted when it has expired. *)
Definition KGet (c : KeyedCache) (now : Z) (key : gostr) : KeyedCache * option A :=
  match c !! key with
  | None => (c, None)
  | Some entry => if negb (Expired now entry) then (c, Some (eData entry)) else (delete key c, None)
  end.

Definition KDelete (c : KeyedCache) (key : gostr) : KeyedCache := delete key c.

(** Pop does not ask whether the entry has expired. *)
Definition Pop (c : KeyedCache) (key : gostr) : KeyedCache * option A :=
  match c !! key with
  | Some entry => (delete key c, Some (eData entry))
  | None => (c, None)
  end.

Definition KClear (_ : KeyedCache) : KeyedCache := ∅.

Definition GC (c : KeyedCache) (now : Z) : KeyedCache :=
  filter (fun kv => Expired now kv.2 = false) c.

(** ** TypedCache *)
Abbreviation TypedCache := (gmap gostr (gmap gostr (CacheEntry X A))).

Definition SetTypeWithExpirable (c : TypedCache) (key typeKey : gostr) (value : A) (exp : expiry X) : TypedCache :=
  let cache := default ∅ (c !! key) in
  <[key := <[typeKey := mkEntry value exp]> cache]> c.

Definition GetType (c : TypedCache) (now : Z) (key typeKey : gostr) : TypedCache * option A :=
  match c !! key with
  | None => (c, None)
  | Some cache =>
      match cache !! typeKey with
      | None => (c, None)
      | Some entry =>
          if negb (Expired now entry) then (c, Some (eData entry))
          else
            let cache := delete typeKey cache in
            (if bool_decide (cache = ∅) then delete key c else <[key := cache]> c, None)
      end
  end.

Definition DeleteKey (c : TypedCache) (key : gostr) : TypedCache := delete key c.

Definition TypedGC (c : TypedCache) (now : Z) : TypedCache :=
  omap (fun cache =>
          let live := filter (fun kv => Expired now kv.2 = false) cache in
          if bool_decide (filter (fun kv => Expired now kv.2 = true) cache = ∅) then Some cache
          else if bool_decide (live = ∅) then None else Some live) c.

(** ** A cache is the last write, until it expires *)

Inductive kop :=
| OSet (key : gostr) (value : A) (exp : expiry X)
| OGet (key : gostr)
| ODelete (key : gostr)
| OPop (key : gostr)
| OClear
| OGC.

Definition kstep (c : KeyedCache) (now : Z) (o : kop) : KeyedCache :=
  match o with
  | OSet key value exp => SetWithExpirable c key value exp
  | OGet key => (KGet c now key).1
  | ODelete key => KDelete c key
  | OPop key => (Pop c key).1
  | OClear => KClear c
  | OGC => GC c now
  end.

Definition krun (c : KeyedCache) (l : list (Z * kop)) : KeyedCache :=
  foldl (fun c s => kstep c s.1 s.2) c l.

(** What the last write to [key] in a history (the latest operation first) left. *)
Fixpoint lastWrite (key : gostr) (l : list (Z * kop)) : option (CacheEntry X A) :=
  match l with
  | [] => None
  | (_, o) :: l =>
      match o with
      | OSet k v exp => if seqb k key then Some (mkEntry v exp) else lastWrite key l
      | ODelete k | OPop k => if seqb k key then None else lastWrite key l
      | OClear => None
      | OGet _ | OGC => lastWrite key l
      end
  end.

(** Times do not go back and an expired Expirable stays expired: [expired] is
    read once for the whole run, so it is constant here. *)
Fixpoint monotone (now : Z) (l : list (Z * kop)) : Prop :=
  match l with [] => True | (t, _) :: l => t <= now /\ monotone t l end.

Lemma Expired_mono t now e : t <= now -> Expired t e = true -> Expired now e = true.
Proof. unfold Expired. destruct (eExpiry e); [|done]. intros ? ?%Z.ltb_lt. apply Z.ltb_lt. lia. Qed.

(** What the cache holds is the last write, or nothing if that has expired. *)
Definition agrees (now : Z) (c : KeyedCache) (l : list (Z * kop)) : Prop :=
  forall key, c !! key = lastWrite key l \/
    c !! key = None /\ exists e, lastWrite key l = Some e /\ Expired now e = true.

Lemma agrees_mono t now c l : t <= now -> agrees t c l -> agrees now c l.
Proof.
  intros Ht H key. destruct (H key) as [?|(? & e & ? & He)]; [by left|right].
  split; [done|]. exists e. split; [done|]. by eapply Expired_mono.
Qed.

Lemma agrees_step now c l o : agrees now c l -> agrees now (kstep c now o) ((now, o) :: l).
Proof.
  intros H key. specialize (H key). destruct o as [k v exp|k|k|k| |]; simpl.
  - unfold SetWithExpirable. destruct (seqb k key) eqn:E.
    + apply seqb_true in E as ->. left. by rewrite lookup_insert_eq.
    + apply seqb_false in E. by rewrite lookup_insert_ne.
  - unfold KGet. destruct (c !! k) as [e|] eqn:Hk; [|done].
    destruct (Expired now e) eqn:He; simpl; [|done].
    destruct (decide (k = key)) as [->|Hne]; [|by rewrite lookup_delete_ne].
    right. rewrite lookup_delete_eq. split; [done|]. exists e.
    destruct H as [H|[H _]]; [|congruence]. by rewrite <- H.
  - unfold KDelete. destruct (seqb k key) eqn:E.
    + apply seqb_true in E as ->. left. by rewrite lookup_delete_eq.
    + apply seqb_false in E. by rewrite lookup_delete_ne.
  - unfold Pop. destruct (seqb k key) eqn:E.
    + apply seqb_true in E as ->. left. destruct (c !! key) eqn:?; simpl; [by rewrite lookup_delete_eq|done].
    + apply seqb_false in E. destruct (c !! k); simpl; [by rewrite lookup_delete_ne|done].
  - left. apply lookup_empty.
  - unfold GC. rewrite map_lookup_filter. destruct H as [H|(H & e & He)]; [|right; rewrite H; eauto].
    rewrite <- H. destruct (c !! key) as [e|]; simpl; [|by left].
    destruct (Expired now e) eqn:Hx; [right|left].
    + rewrite option_guard_False by (simpl; congruence). eauto.
    + rewrite option_guard_True by done. done.
Qed.

Lemma agrees_run now l : monotone now l -> agrees now (krun ∅ (rev l)) l.
Proof.
  revert now. induction l as [|[t o] l IH]; intros now; simpl.
  - intros _ key. left. apply lookup_empty.
  - intros [Ht Hl]. apply (agrees_mono t); [done|]. unfold krun. rewrite foldl_app. simpl.
    apply agrees_step. by apply IH.
Qed.

(** A Get after any history of sets, gets, deletes, pops, clears and collections
    at times that do not decrease answers what the last write to the key left,
    unless that has expired: the deletions of expired entries by Get and by the
    hourly collection cannot be seen. *)
Theorem keyed_cache_last_write now l key :
  monotone now l ->
  (KGet (krun ∅ (rev l)) now key).2 =
    match lastWrite key l with
    | Some e => if Expired now e then None else Some (eData e)
    | None => None
    end.
Proof.
  intros H%agrees_run. unfold KGet. destruct (H key) as [-> | (-> & e & -> & ->)]; [|done].
  destruct (lastWrite key l) as [e|]; [|done]. by destruct (Expired now e).
Qed.

(** Collecting a TypedCache leaves what every unexpired lookup answers, and no
    expired entry; a key whose entries are all gone goes too. *)
Lemma typedGC_lookup c now key typeKey :
  map_Forall (fun _ cache => cache <> ∅) c ->
  (GetType (TypedGC c now) now key typeKey).2 = (GetType c now key typeKey).2 /\
  map_Forall (fun _ cache => cache <> ∅ /\ map_Forall (fun _ e => Expired now e = false) cache) (TypedGC c now).
Proof.
  intros Hne. split.
  - unfold GetType, TypedGC. rewrite lookup_omap. destruct (c !! key) as [cache|]; simpl; [|done].
    destruct (bool_decide_reflect (filter (fun kv => Expired now kv.2 = true) cache = ∅)) as [Hf|Hf].
    { destruct (cache !! typeKey) as [e|]; [|done]. by destruct (Expired now e). }
    assert (Hl : filter (fun kv => Expired now kv.2 = false) cache !! typeKey =
                 match cache !! typeKey with Some e => if Expired now e then None else Some e | None => None end).
    { rewrite map_lookup_filter. destruct (cache !! typeKey) as [e|]; simpl; [|done].
      destruct (Expired now e) eqn:He; [by rewrite option_guard_False by (simpl; congruence)|].
      by rewrite option_guard_True. }
    destruct (bool_decide_reflect (filter (fun kv => Expired now kv.2 = false) cache = ∅)) as [He|He].
    + rewrite He, lookup_empty in Hl. destruct (cache !! typeKey) as [e|]; [|done].
      by destruct (Expired now e).
    + rewrite Hl. destruct (cache !! typeKey) as [e|]; [|done]. destruct (Expired now e) eqn:Hx; simpl; [done|].
      by rewrite Hx.
  - intros k cache. unfold TypedGC. rewrite lookup_omap. destruct (c !! k) as [cache0|] eqn:Hk; simpl; [|done].
    destruct (bool_decide_reflect (filter (fun kv => Expired now kv.2 = true) cache0 = ∅)) as [Hf|Hf].
    + intros [= <-]. split; [by apply (Hne k)|]. intros tk e He. destruct (Expired now e) eqn:Hx; [|done].
      assert (Hs : filter (fun kv => Expired now kv.2 = true) cache0 !! tk = Some e)
        by (by apply map_lookup_filter_Some). by rewrite Hf, lookup_empty in Hs.
    + destruct (bool_decide_reflect (filter (fun kv => Expired now kv.2 = false) cache0 = ∅)) as [He|He]; [done|].
      intros [= <-]. split; [done|]. intros tk e Ht. by apply map_lookup_filter_Some in Ht as [_ Ht].
Qed.

End Cache.
Arguments kop X A : clear implicits.

Example keyed_ex :
  let l := [(9, OGC); (8, OGet "b"); (4, OSet "b" 2 (ExpirationTime 6)); (3, OSet "a" 1 (ExpirationTime 12))] in
  (KGet (X:=unit) (fun _ => false) (krun (fun _ => false) ∅ (rev l)) 10 "a").2 = Some 1 /\
  (KGet (X:=unit) (fun _ => false) (krun (fun _ => false) ∅ (rev l)) 10 "b").2 = None.
Proof. vm_compute. done. Qed.

Lemma keyed_cache_last_write_witness :
  let l := [(9, OGC); (8, OGet "b"); (4, OSet "b" 2 (ExpirationTime 6)); (3, OSet "a" 1 (ExpirationTime 12))] in
  (KGet (X:=unit) (fun _ => false) (krun (fun _ => false) ∅ (rev l)) 10 "a").2 = Some 1.
Proof.
  intros l. rewrite (keyed_cache_last_write (fun _ => false) 10 l "a"); [vm_compute; reflexivity|].
  simpl. lia.
Defined.
