(* ===== verification/DirCache.v ===== *)
(** The directory cache of src/internal/op/cache.go: a listing with its sorted
    copy (directoryCache) and the operations of CacheManager that move or delete
    listings and links.

    [caches] is the part of CacheManager these operations touch. Of the link
    cache it keeps the keys that have an entry. [clock n] is what the n-th call
    of time.Now() reads; [ticks] counts the calls. A directoryCache is shared
    through the pointer in its cache entry; an operation changes it under its
    mutex between looking the entry up and anything else it does to the same
    key, so the pointer is replaced here by the entry itself ([alterDir]). *)
From S2P Require Import Prelude GoString GoPath Paths Mounts Objects KeyedCache.

(** The fields of model.Storage and driver.Config that file operations read. *)
Record fsConfig := mkConfig {
  cMountPath : gostr; cStatus : gostr; cModified : Z;
  cOrderBy : gostr; cOrderDirection : gostr; cExtractFolder : gostr;
  cCacheExpiration : Z; cCustomCachePolicies : gostr;
  LocalSort : bool; NoCache : bool; CheckStatus : bool;
  NoOverwriteUpload : bool; OnlyIndices : bool
}.

(** ** directoryCache *)
Record directoryCache := mkDir { objs : list Obj; sorted : list Obj; dirtyFlags : Z }.

Definition dirtyRemove : Z := 1.
Definition dirtyUpdate : Z := 2.

Definition newDirectoryCache (l : list Obj) : directoryCache := mkDir l l 0.

(** The first object with the name, the objects before and after it. *)
Fixpoint splitName (name : gostr) (l : list Obj) : option (list Obj * Obj * list Obj) :=
  match l with
  | [] => None
  | o :: l' =>
      if seqb (GetName o) name then Some ([], o, l')
      else '(pre, x, post) ← splitName name l'; Some (o :: pre, x, post)
  end.

Definition RemoveObject (dc : directoryCache) (name : gostr) : directoryCache :=
  match splitName name (objs dc) with
  | Some (pre, _, post) => mkDir (pre ++ post) (sorted dc) (Z.lor (dirtyFlags dc) dirtyRemove)
  | None => dc
  end.

Definition UpdateObject (dc : directoryCache) (oldName : gostr) (newObj : Obj) : directoryCache :=
  let flags := Z.lor (dirtyFlags dc) dirtyUpdate in
  let appended := mkDir (objs dc ++ [newObj]) (sorted dc) flags in
  if seqb oldName "" then appended
  else match splitName oldName (objs dc) with
       | Some (pre, _, post) => mkDir (pre ++ newObj :: post) (sorted dc) flags
       | None => appended
       end.

Section Caches.
Context (sortSlice : (Obj -> Obj -> bool) -> list Obj -> list Obj) (naturalLess : gostr -> gostr -> bool)
        (clock : nat -> Z).

Definition sortListing (cfg : fsConfig) (l : list Obj) : list Obj :=
  let l := if LocalSort cfg then SortFiles sortSlice naturalLess l (cOrderBy cfg) (cOrderDirection cfg) else l in
  ExtractFolder l (cExtractFolder cfg).

Definition GetSortedObjects (cfg : fsConfig) (dc : directoryCache) : directoryCache * list Obj :=
  if dirtyFlags dc =? 0 then (dc, sorted dc)
  else
    let s := if negb (Z.land (dirtyFlags dc) dirtyUpdate =? 0) then sortListing cfg (objs dc) else objs dc in
    (mkDir (objs dc) s 0, s).

(** ** CacheManager *)
Abbreviation dirEntry := (CacheEntry unit directoryCache).

Record caches := mkCaches { dirCache : gmap gostr dirEntry; linkCache : gset gostr; ticks : nat }.

Definition setDirs (c : caches) (m : gmap gostr dirEntry) : caches := mkCaches m (linkCache c) (ticks c).
Definition tick (c : caches) : caches := mkCaches (dirCache c) (linkCache c) (S (ticks c)).
Definition now (c : caches) : Z := clock (ticks c).

Definition neverExpired : unit -> bool := fun _ => false.

(** Cache.dirCache.Get: the clock is read when there is an entry. *)
Definition dirGet (c : caches) (key : gostr) : caches * option directoryCache :=
  match dirCache c !! key with
  | None => (c, None)
  | Some _ =>
      let '(m, dc) := KGet neverExpired (dirCache c) (now c) key in
      (tick (setDirs c m), dc)
  end.

Definition dirSetWithTTL (c : caches) (key : gostr) (dc : directoryCache) (ttl : Z) : caches :=
  tick (setDirs c (SetWithTTL (dirCache c) (now c) key dc ttl)).

Definition alterDir (f : directoryCache -> directoryCache) (c : caches) (key : gostr) : caches :=
  setDirs c (alter (fun e => mkEntry (f (eData e)) (eExpiry e)) key (dirCache c)).

Definition deleteLink (c : caches) (key : gostr) : caches :=
  mkCaches (dirCache c) (linkCache c ∖ {[key]}) (ticks c).

Definition Key (cfg : fsConfig) (path : gostr) : gostr := GetFullPath (cMountPath cfg) path.

Definition path_join2 (a b : gostr) : gostr := path_Join [a; b].

(** One object of the loop of deleteDirectoryTree. *)
Definition deleteEntry (deleteTree : caches -> gostr -> caches) (key : gostr) (c : caches) (obj : Obj) : caches :=
  let child := path_join2 key (GetName obj) in
  if IsDir obj then deleteTree c child else deleteLink c child.

(** The recursion ends because each call that goes on has popped a listing. *)
Fixpoint deleteTreeLoop (fuel : nat) (c : caches) (key : gostr) : caches :=
  match fuel with
  | O => c
  | S fuel =>
      match Pop (dirCache c) key with
      | (m, Some dc) => foldl (deleteEntry (deleteTreeLoop fuel) key) (setDirs c m) (objs dc)
      | (_, None) => c
      end
  end.

Definition deleteDirectoryTree (c : caches) (key : gostr) : caches :=
  deleteTreeLoop (S (size (dirCache c))) c key.

Definition DeleteDirectoryTree (cfg : fsConfig) (c : caches) (dirPath : gostr) : caches :=
  if NoCache cfg then c else deleteDirectoryTree c (Key cfg dirPath).

Definition DeleteDirectory (cfg : fsConfig) (c : caches) (dirPath : gostr) : caches :=
  if NoCache cfg then c else setDirs c (KDelete (dirCache c) (Key cfg dirPath)).

Definition removeDirectoryObject (cfg : fsConfig) (c : caches) (dirPath : gostr) (obj : Obj) : caches :=
  let key := Key cfg dirPath in
  let c := if IsDir obj then c else deleteLink c (path_join2 key (GetName obj)) in
  if NoCache cfg then c
  else
    match dirGet c key with
    | (c, Some _) =>
        let c := if IsDir obj then deleteDirectoryTree c (path_join2 key (GetName obj)) else c in
        alterDir (fun dc => RemoveObject dc (GetName obj)) c key
    | (c, None) => c
    end.

(** ClearAll, of the two caches here. *)
Definition ClearAll (c : caches) : caches := mkCaches ∅ ∅ (ticks c).

End Caches.

(** ** Lemmas: listings *)
Lemma splitName_Some name l pre x post :
  splitName name l = Some (pre, x, post) ->
  l = pre ++ x :: post /\ GetName x = name /\ Forall (fun o => GetName o <> name) pre.
Proof.
  revert pre. induction l as [|o l IH]; intros pre; simpl; [done|].
  destruct (seqb (GetName o) name) eqn:E.
  - intros [= <- <- <-]. apply seqb_true in E. done.
  - apply seqb_false in E. destruct (splitName name l) as [[[pre' x'] post']|]; simpl; [|done].
    intros [= <- <- <-]. destruct (IH pre') as (-> & Hx & Hp); [done|]. split_and!; [done..|by constructor].
Qed.

Lemma splitName_None name l : splitName name l = None <-> name ∉ map GetName l.
Proof.
  induction l as [|o l IH]; simpl; [set_solver|]. rewrite not_elem_of_cons.
  destruct (seqb (GetName o) name) eqn:E.
  - apply seqb_true in E. split; [done|]. intros [H _]. congruence.
  - apply seqb_false in E. destruct (splitName name l) as [[[pre x] post]|]; simpl; naive_solver.
Qed.

Lemma RemoveObject_objs dc name o :
  NoDup (map GetName (objs dc)) ->
  o ∈ objs (RemoveObject dc name) <-> o ∈ objs dc /\ GetName o <> name.
Proof.
  intros Hnd. unfold RemoveObject. destruct (splitName name (objs dc)) as [[[pre x] post]|] eqn:E; simpl.
  - apply splitName_Some in E as (Heq & Hx & Hp). rewrite Heq in *. rewrite map_app in Hnd. simpl in Hnd.
    apply NoDup_app in Hnd as (_ & _ & [Hn _]%NoDup_cons). rewrite Forall_forall in Hp.
    rewrite !elem_of_app, elem_of_cons. split.
    + intros [H|H]; [split; [by left|by apply Hp]|]. split; [by do 2 right|].
      intros Hy. apply Hn. rewrite Hx, <- Hy. apply list_elem_of_fmap_2. done.
    + intros [[H|[->|H]] Hy]; [by left|done|by right].
  - apply splitName_None in E. split; [|by intros []]. intros H. split; [done|].
    intros <-. apply E. by apply list_elem_of_fmap_2.
Qed.

Lemma RemoveObject_names dc name :
  NoDup (map GetName (objs dc)) -> NoDup (map GetName (objs (RemoveObject dc name))).
Proof.
  intros Hnd. unfold RemoveObject. destruct (splitName name (objs dc)) as [[[pre x] post]|] eqn:E; simpl; [|done].
  apply splitName_Some in E as (Heq & _). rewrite Heq, map_app in Hnd. rewrite map_app.
  apply NoDup_app in Hnd as (H1 & H2 & [_ H3]%NoDup_cons). apply NoDup_app. set_solver.
Qed.

Lemma UpdateObject_objs dc (old : gostr) new o :
  NoDup (map GetName (objs dc)) ->
  o ∈ objs (UpdateObject dc old new) <-> o = new \/ o ∈ objs dc /\ (old = "" \/ GetName o <> old).
Proof.
  intros Hnd. unfold UpdateObject. destruct (seqb old "") eqn:Eo; simpl.
  { apply seqb_true in Eo. rewrite elem_of_app, list_elem_of_singleton. naive_solver. }
  apply seqb_false in Eo. destruct (splitName old (objs dc)) as [[[pre x] post]|] eqn:E; simpl.
  - apply splitName_Some in E as (Heq & Hx & Hp). rewrite Heq in *. rewrite map_app in Hnd. simpl in Hnd.
    apply NoDup_app in Hnd as (_ & _ & [Hn _]%NoDup_cons). rewrite Forall_forall in Hp.
    rewrite !elem_of_app, !elem_of_cons. split.
    + intros [H|[->|H]]; [right; split; [by left|right; by apply Hp]|by left|].
      right. split; [by do 2 right|]. right. intros Hy. apply Hn. rewrite Hx, <- Hy. by apply list_elem_of_fmap_2.
    + intros [->|[[H|[->|H]] [?|Hy]]]; naive_solver.
  - apply splitName_None in E. rewrite elem_of_app, list_elem_of_singleton. split; [|naive_solver].
    intros [H| ->]; [right|by left]. split; [done|]. right. intros <-. apply E. by apply list_elem_of_fmap_2.
Qed.

(** Replacing the object [old] by one with the name [n]: no duplicates unless
    another object has that name already. *)
Lemma UpdateObject_names dc (old : gostr) new :
  NoDup (map GetName (objs dc)) ->
  (forall o, o ∈ objs dc -> GetName o = GetName new -> old <> "" /\ GetName o = old) ->
  NoDup (map GetName (objs (UpdateObject dc old new))).
Proof.
  intros Hnd Hn.
  assert (Happ : GetName new ∉ map GetName (objs dc) -> NoDup (map GetName (objs dc ++ [new]))).
  { intros H. rewrite map_app. apply NoDup_app. split_and!; [done| |apply NoDup_singleton]. simpl. set_solver. }
  unfold UpdateObject. destruct (seqb old "") eqn:Eo; simpl.
  { apply seqb_true in Eo. apply Happ. intros (o & Ho & Hin)%list_elem_of_fmap. 
    by destruct (Hn o) as [Hne _]. }
  destruct (splitName old (objs dc)) as [[[pre x] post]|] eqn:E; simpl.
  - apply splitName_Some in E as (Heq & Hx & Hp). rewrite Heq in *. rewrite !map_app in *. simpl in *.
    apply NoDup_app in Hnd as (H1 & H2 & [Hnx H3]%NoDup_cons).
    assert (Hnew : forall o, o ∈ pre \/ o ∈ post -> GetName o <> GetName new).
    { intros o Ho Heqn. destruct (Hn o) as [_ Hold]; [set_solver|done|].
      destruct Ho as [Ho|Ho]; [rewrite Forall_forall in Hp; by apply (Hp o)|].
      apply Hnx. rewrite Hx, <- Hold. by apply list_elem_of_fmap_2. }
    apply NoDup_app. split_and!; [done| |].
    + intros n Hin. rewrite not_elem_of_cons. split; [|set_solver].
      apply list_elem_of_fmap in Hin as (o & -> & Hin). apply Hnew. by left.
    + constructor; [|done]. intros (o & Ho & Hin)%list_elem_of_fmap. apply (Hnew o); auto.
  - apply splitName_None in E. apply Happ. intros (o & Ho & Hin)%list_elem_of_fmap.
    destruct (Hn o) as [_ Hold]; [done..|]. apply E. rewrite <- Hold. by apply list_elem_of_fmap_2.
Qed.

(** ** Lemmas: deleting trees *)

(** [o] of the listing at [key] has nothing cached. *)
Definition gone (c : caches) (key : gostr) (o : Obj) : Prop :=
  if IsDir o then dirCache c !! path_join2 key (GetName o) = None
  else path_join2 key (GetName o) ∉ linkCache c.

(** [c'] is [c] without some listings and links; whatever a deleted listing
    names is deleted as well. *)
Record deletion (c c' : caches) : Prop := {
  del_dirs : dirCache c' ⊆ dirCache c;
  del_links : linkCache c' ⊆ linkCache c;
  del_ticks : ticks c' = ticks c;
  del_closed : forall key e o, dirCache c !! key = Some e -> dirCache c' !! key = None ->
    o ∈ objs (eData e) -> gone c' key o
}.

Lemma gone_mono c c' key o :
  dirCache c' ⊆ dirCache c -> linkCache c' ⊆ linkCache c -> gone c key o -> gone c' key o.
Proof.
  unfold gone. intros Hd Hl. destruct (IsDir o); [|set_solver].
  intros H. by eapply lookup_weaken_None.
Qed.

Lemma deletion_refl c : deletion c c.
Proof. split; [done..|]. intros key e o H1 H2. congruence. Qed.

Lemma deletion_trans c1 c2 c3 : deletion c1 c2 -> deletion c2 c3 -> deletion c1 c3.
Proof.
  intros [D1 L1 T1 C1] [D2 L2 T2 C2]. split.
  - by etrans.
  - by etrans.
  - congruence.
  - intros key e o H1 H3 Ho. destruct (dirCache c2 !! key) as [e2|] eqn:E2.
    + assert (e2 = e) as -> by (pose proof (lookup_weaken _ _ _ _ E2 D1); congruence).
      by eapply C2.
    + eapply gone_mono; [done..|]. by eapply C1.
Qed.

Lemma deletion_None c c' key : deletion c c' -> dirCache c !! key = None -> dirCache c' !! key = None.
Proof. intros D H. eapply lookup_weaken_None; [done|apply D]. Qed.

Lemma deletion_size c c' : deletion c c' -> (size (dirCache c') <= size (dirCache c))%nat.
Proof. intros D. apply map_subseteq_size, (del_dirs _ _ D). Qed.

Lemma deleteLink_deletion c key : deletion c (deleteLink c key).
Proof. split; [done|simpl; set_solver|done|]. simpl. intros k e o H1 H2. congruence. Qed.

(** The keys a listing leads to. *)
Definition childKey (m : gmap gostr (CacheEntry unit directoryCache)) (k1 k2 : gostr) : Prop :=
  exists e o, m !! k1 = Some e /\ o ∈ objs (eData e) /\ IsDir o = true /\ k2 = path_join2 k1 (GetName o).

Lemma childKey_mono m m' k1 k2 : m' ⊆ m -> childKey m' k1 k2 -> childKey m k1 k2.
Proof. intros Hm (e & o & He & H). exists e, o. split; [by eapply lookup_weaken|done]. Qed.

Lemma rtc_childKey_mono m m' k1 k2 : m' ⊆ m -> rtc (childKey m') k1 k2 -> rtc (childKey m) k1 k2.
Proof. intros Hm. induction 1; [done|]. eapply rtc_l; [by eapply childKey_mono|done]. Qed.

(** What [c'] lost compared to [c] was reachable from a key of [from]. *)
Definition onlyBelow (from : gostr -> Prop) (c c' : caches) : Prop :=
  forall k, is_Some (dirCache c !! k) -> dirCache c' !! k = None ->
    exists k0, from k0 /\ rtc (childKey (dirCache c)) k0 k.

Lemma onlyBelow_trans from c1 c2 c3 :
  dirCache c2 ⊆ dirCache c1 -> onlyBelow from c1 c2 -> onlyBelow from c2 c3 -> onlyBelow from c1 c3.
Proof.
  intros Hs H1 H2 k Hk H3. destruct (dirCache c2 !! k) as [e|] eqn:E; [|by apply H1].
  destruct (H2 k) as (k0 & Hf & Hr); [by eexists|done|]. exists k0. split; [done|].
  by eapply rtc_childKey_mono.
Qed.

Lemma deleteTreeLoop_spec fuel : forall c key,
  (size (dirCache c) < fuel)%nat ->
  deletion c (deleteTreeLoop fuel c key) /\ dirCache (deleteTreeLoop fuel c key) !! key = None /\
  onlyBelow (eq key) c (deleteTreeLoop fuel c key).
Proof.
  induction fuel as [|fuel IH]; intros c key Hf; [lia|]. simpl. unfold Pop.
  destruct (dirCache c !! key) as [e|] eqn:He; [|split_and!; [apply deletion_refl|done|intros k [] ?; congruence]].
  set (c1 := setDirs c (delete key (dirCache c))).
  assert (Hs : (size (dirCache c1) < fuel)%nat).
  { assert (size (dirCache c) <> 0)%nat by (intros H0%map_size_empty_iff; by rewrite H0, lookup_empty in He).
    simpl. rewrite map_size_delete_Some by eauto. lia. }
  assert (Hloop : forall l c1, (size (dirCache c1) < fuel)%nat ->
    let c2 := foldl (deleteEntry (deleteTreeLoop fuel) key) c1 l in
    deletion c1 c2 /\ (forall o, o ∈ l -> gone c2 key o) /\
    onlyBelow (fun k0 => exists o, o ∈ l /\ IsDir o = true /\ k0 = path_join2 key (GetName o)) c1 c2).
  { clear - IH. induction l as [|o l IHl]; intros c1 Hs; simpl.
    { split_and!; [apply deletion_refl|set_solver|intros k [] ?; congruence]. }
    set (c2 := deleteEntry (deleteTreeLoop fuel) key c1 o).
    assert (Hc2 : deletion c1 c2 /\ gone c2 key o /\
      onlyBelow (fun k0 => IsDir o = true /\ k0 = path_join2 key (GetName o)) c1 c2).
    { unfold c2, deleteEntry, gone. destruct (IsDir o).
      - destruct (IH c1 (path_join2 key (GetName o)) Hs) as (D & G & B). split_and!; [done..|].
        intros k Hk Hn. destruct (B k Hk Hn) as (k0 & <- & Hr). eauto.
      - split_and!; [apply deleteLink_deletion|simpl; set_solver|].
        intros k [x Hx] Hn. simpl in Hn. congruence. }
    destruct Hc2 as (D1 & G1 & B1).
    destruct (IHl c2) as (D2 & G2 & B2); [pose proof (deletion_size _ _ D1); lia|]. split_and!.
    - by eapply deletion_trans.
    - intros o' [->|Ho]%elem_of_cons; [|by apply G2]. eapply gone_mono; [apply D2..|done].
    - eapply onlyBelow_trans; [apply D1| |].
      + intros k Hk Hn. destruct (B1 k Hk Hn) as (k0 & [Hd ->] & Hr). eexists. split; [|done]. exists o. set_solver.
      + intros k Hk Hn. destruct (B2 k Hk Hn) as (k0 & (o' & Ho & Hd & ->) & Hr). eexists. split; [|done].
        exists o'. set_solver. }
  destruct (Hloop (objs (eData e)) c1 Hs) as (D & G & B). clear Hloop IH.
  set (c' := foldl _ c1 _) in *. destruct D as [D1 D2 D3 D4].
  assert (Hsub : dirCache c1 ⊆ dirCache c) by apply delete_subseteq.
  assert (Hkey : dirCache c1 !! key = None) by apply lookup_delete_eq.
  split_and!.
  - split; [by etrans|done|done|]. intros k e' o Hk Hn Ho. destruct (decide (k = key)) as [->|Hne].
    + rewrite He in Hk. injection Hk as <-. by apply G.
    + eapply D4; [|done|done]. simpl. by rewrite lookup_delete_ne.
  - by eapply lookup_weaken_None.
  - intros k Hk Hn. exists key. split; [done|]. destruct (decide (k = key)) as [->|Hne]; [done|].
    destruct (B k) as (k0 & (o & Ho & Hd & ->) & Hr); [simpl; by rewrite lookup_delete_ne|done|].
    eapply rtc_l; [|by eapply rtc_childKey_mono]. exists e, o. done.
Qed.

(** DeleteDirectoryTree deletes the listing at its key and, with every listing it
    deletes, the listings and links of everything named there; it deletes no
    listing that cannot be reached from its key through cached listings. *)
Theorem deleteDirectoryTree_closed c key :
  let c' := deleteDirectoryTree c key in
  deletion c c' /\ dirCache c' !! key = None /\ onlyBelow (eq key) c c'.
Proof. apply deleteTreeLoop_spec. lia. Qed.
