(* ===== verification/OpFs.v ===== *)
(** The file operations of src/internal/op/fs.go: List, Get, MakeDir, Move,
    Rename, Copy, Remove, Put and PutURL of a storage, on top of the directory
    cache, with urlTreeSplitLineFormPath of src/internal/op/path.go.

    An operation is a computation [M] on the caches and the remote side: it
    passes the state on and returns a value or an error. A driver is a record of
    its methods over a state [R] of the remote side, [None] for an interface it
    does not implement. A wrapped error is its cause. Operations run one after
    the other: singleflight then calls its function, and the goroutines of the
    update hooks are left out. *)
From S2P Require Import Prelude GoString GoPath Paths Mounts Storages Objects KeyedCache DirCache.

Inductive op_error (E : Type) :=
| StorageNotInit (status : gostr)
| NotFolder
| NotFile
| ObjectNotFound
| ObjectAlreadyExists
| PermissionDenied
| NotImplement
| NotSupport
| FileExists
| RootNotAllowed
| MoveInPlace
| NoRootInterface
| OutOfFuel
| Other (e : E).
Arguments StorageNotInit {E}. Arguments NotFolder {E}. Arguments NotFile {E}. Arguments ObjectNotFound {E}.
Arguments ObjectAlreadyExists {E}. Arguments PermissionDenied {E}. Arguments NotImplement {E}.
Arguments NotSupport {E}. Arguments FileExists {E}. Arguments RootNotAllowed {E}. Arguments MoveInPlace {E}.
Arguments NoRootInterface {E}. Arguments OutOfFuel {E}. Arguments Other {E}.

Record ListArgs := mkListArgs {
  ReqPath : gostr; S3ShowPlaceholder : bool; Refresh : bool; WithStorageDetails : bool; SkipHook : bool
}.

(** model.FileStreamer: the methods Put calls. [fFullSize] is the size after
    CacheFullAndWriter has read a stream of unknown length. *)
Record fileStream := mkFile {
  fName : gostr; fSize : Z; fModTime : Z; fCreateTime : Z; fFullSize : Z; fExist : option Obj
}.

Definition SetExist (f : fileStream) (o : Obj) : fileStream :=
  mkFile (fName f) (fSize f) (fModTime f) (fCreateTime f) (fFullSize f) (Some o).
Definition CacheFullAndWriter (f : fileStream) : fileStream :=
  mkFile (fName f) (fFullSize f) (fModTime f) (fCreateTime f) (fFullSize f) (fExist f).

Section Driver.
Context (R E : Type).

Inductive rootKind :=
| GetRooter (f : R -> R * res (op_error E) Obj)
| IRootId (id : gostr)
| IRootPath (path : gostr)
| NoRoot.

(** A method that may return the new object. *)
Abbreviation answer := (R * (option Obj * option (op_error E)))%type.

Record Driver := mkDriver {
  dConfig : fsConfig;
  dRoot : rootKind;
  dList : R -> Obj -> ListArgs -> R * res (op_error E) (list Obj);
  dGet : option (R -> gostr -> R * res (op_error E) Obj);
  dMakeDir : option (R -> Obj -> gostr -> answer);
  dMove : option (R -> Obj -> Obj -> answer);
  dRename : option (R -> Obj -> gostr -> answer);
  dCopy : option (R -> Obj -> Obj -> answer);
  dRemove : option (R -> Obj -> R * option (op_error E));
  dPut : option (R -> Obj -> fileStream -> answer);
  dPutURL : option (R -> Obj -> gostr -> gostr -> answer)
}.

End Driver.
Arguments GetRooter {R E}. Arguments IRootId {R E}. Arguments IRootPath {R E}. Arguments NoRoot {R E}.
Arguments dConfig {R E}. Arguments dRoot {R E}. Arguments dList {R E}. Arguments dGet {R E}. Arguments dMakeDir {R E}.
Arguments dMove {R E}. Arguments dRename {R E}. Arguments dCopy {R E}. Arguments dRemove {R E}. Arguments dPut {R E}.
Arguments dPutURL {R E}. Arguments mkDriver {R E}.

(** ** Errors and names *)
Definition IsObjectNotFound {E} (e : op_error E) : bool := match e with ObjectNotFound => true | _ => false end.
Definition IsObjectAlreadyExists {E} (e : op_error E) : bool :=
  match e with ObjectAlreadyExists => true | _ => false end.
Definition IsNotImplementError {E} (e : op_error E) : bool := match e with NotImplement => true | _ => false end.
Definition IsNotSupportError {E} (e : op_error E) : bool := match e with NotSupport => true | _ => false end.

Definition RootName : gostr := "root".

Fixpoint findName (name : gostr) (l : list Obj) : option Obj :=
  match l with
  | [] => None
  | o :: l => if seqb (GetName o) name then Some o else findName name l
  end.

(** strings.Replace(s, old, new, 1) *)
Definition replaceFirst (s old new : gostr) : gostr :=
  match index s old with
  | Some i => take i s ++ new ++ drop (i + length old) s
  | None => s
  end.

Definition urlTreeSplitLineFormPath (path : gostr) : gostr * gostr :=
  let path := replaceFirst path "https:/" "https://" in
  let path := replaceFirst path "http:/" "http://" in
  let '(pp, file) :=
    if contains path ":https:/" || contains path ":http:/" then
      let fPath := (cutByte path ":"%char).1.1 in
      let pp := (path_Split fPath).1 in
      (pp, drop (length pp) path)
    else if contains path "/https:/" || contains path "/http:/" then
      let i := match index path "/http://" with
               | Some i => i
               | None => default 0%nat (index path "/https://")
               end in
      (take i path, drop (i + 1) path)
    else path_Split path in
  ((if seqb pp "" then "/" : gostr else pp), file).

(** ** The state and the computations *)
Section Ops.
Context {R E : Type} (d : Driver R E).
Context (sortSlice : (Obj -> Obj -> bool) -> list Obj -> list Obj) (naturalLess : gostr -> gostr -> bool)
        (clock : nat -> Z)
        (charMap : charmap)                                   (* conf.FilenameCharMap *)
        (doublestarMatch : gostr -> gostr -> option bool).    (* None for a bad pattern *)

Abbreviation cfg := (dConfig d).

Record fs := mkFs { cache : caches; remote : R }.

Definition M (A : Type) : Type := fs -> fs * res (op_error E) A.

#[global] Instance M_ret : MRet M := fun A a st => (st, Ok a).
#[global] Instance M_bind : MBind M := fun A B k m st =>
  match m st with
  | (st, Ok a) => k a st
  | (st, Err e) => (st, Err e)
  end.

Definition fail {A} (e : op_error E) : M A := fun st => (st, Err e).

(** The result of a call as a value: x, err := ... *)
Definition try {A} (m : M A) : M (res (op_error E) A) := fun st => let '(st, r) := m st in (st, Ok r).

Definition ofRes {A} (r : res (op_error E) A) : M A := fun st => (st, r).

Definition onCache {A} (f : caches -> caches * A) : M A := fun st =>
  let '(c, a) := f (cache st) in (mkFs c (remote st), Ok a).
Definition updCache (f : caches -> caches) : M unit := fun st => (mkFs (f (cache st)) (remote st), Ok tt).
Definition call {A} (f : R -> R * A) : M A := fun st =>
  let '(s, a) := f (remote st) in (mkFs (cache st) s, Ok a).

Definition timeNow : M Z := onCache (fun c => (tick c, now clock c)).

(** A driver method that answers the new object or an error. *)
Definition callObj (f : R -> R * (option Obj * option (op_error E))) : M (option Obj) :=
  '(o, err) ← call f;
  match err with Some e => fail e | None => mret o end.

Definition checkStatus : M unit :=
  if CheckStatus cfg && negb (seqb (cStatus cfg) WORK) then fail (StorageNotInit (cStatus cfg)) else mret tt.

Definition isGetter : bool := match dGet d with Some _ => true | None => false end.

Definition wrapObjsName (l : list Obj) : list Obj := if isGetter then l else WrapObjsName charMap l.
Definition wrapObjName (o : Obj) : Obj := if isGetter then o else WrapObjName charMap o.

(** Cache.dirCache.Get and GetSortedObjects *)
Definition cachedObjs (key : gostr) : M (option (list Obj)) :=
  onCache (fun c =>
    match dirGet clock c key with
    | (c, Some dc) =>
        let s := GetSortedObjects sortSlice naturalLess cfg dc in
        (alterDir (fun _ => s.1) c key, Some s.2)
    | (c, None) => (c, None)
    end).

(** cache.UpdateObject(oldName, ...) when the directory is cached; [mk] makes
    the object (it may read the clock). *)
Definition updateCached (key : gostr) (mk : M (gostr * Obj)) : M unit :=
  dc ← onCache (fun c => dirGet clock c key);
  match dc with
  | Some _ =>
      '(oldName, newObj) ← mk;
      updCache (fun c => alterDir (fun dc => UpdateObject dc oldName newObj) c key)
  | None => mret tt
  end.

(** ** The time a listing is kept, in minutes *)
Fixpoint policyTTL (policies : list gostr) (path : gostr) (ttl : Z) : Z :=
  match policies with
  | [] => ttl
  | p :: policies =>
      let '(pattern, ttlstr, ok) := cutByte (trimSpace p) ":"%char in
      if negb ok then policyTTL policies path ttl
      else match doublestarMatch pattern path with
           | Some true =>
               match parseInt ttlstr with
               | (configTtl, None) => configTtl
               | _ => policyTTL policies path ttl
               end
           | _ => policyTTL policies path ttl
           end
  end.

Definition minute : Z := 60 * 1000000000.

Definition listTTL (path : gostr) : Z :=
  let ttl := cCacheExpiration cfg in
  let ttl := if 0 <? slen (cCustomCachePolicies cfg)
             then policyTTL (splitByte (cCustomCachePolicies cfg) (ascii_of_nat 10)) path ttl else ttl in
  i64 (minute * ttl).

(** ** list and Get *)
Definition listFn : Type := gostr -> ListArgs -> (list Obj -> option (op_error E)) -> M (list Obj).
Definition getFn : Type := gostr -> bool -> M Obj.

Definition getRoot : M Obj :=
  match dRoot d with
  | GetRooter f => r ← call f; ofRes r
  | IRootId id => mret (Leaf (mkObject id [] RootName 0 (cModified cfg) 0 true [] Locked) None)
  | IRootPath path => mret (Leaf (mkObject [] path RootName 0 (cModified cfg) 0 true [] Locked) None)
  | NoRoot => fail NoRootInterface
  end.

Definition excluded (excludeTemp : bool) (f : Obj) : bool := excludeTemp && ObjHasMask f Temp.

(** The callback Get gives to list. *)
Definition getValidator (name : gostr) (excludeTemp : bool) (l : list Obj) : option (op_error E) :=
  match findName name l with
  | Some f => if excluded excludeTemp f then Some ObjectNotFound else None
  | None => None
  end.

(** Get after the cache: the driver's own Get if it has one (an answer that
    settles the call is [Some]), then the listing of the directory. An error of
    the listing is dropped. *)
Definition driverGet (path : gostr) : M (option Obj) :=
  match dGet d with
  | None => mret None
  | Some g =>
      r ← call (fun s => g s path);
      match r with
      | Ok obj => mret (Some obj)
      | Err e => if negb (IsNotImplementError e) && negb (IsNotSupportError e) then fail e else mret None
      end
  end.

Definition getListed (listf : listFn) (dir name : gostr) (excludeTemp refreshList : bool) : M Obj :=
  r ← try (listf dir (mkListArgs [] false refreshList false false) (getValidator name excludeTemp));
  match r with
  | Ok l => match findName name l with Some obj => mret obj | None => fail ObjectNotFound end
  | Err _ => fail ObjectNotFound
  end.

Definition getWith (listf : listFn) (path : gostr) (excludeTemp : bool) : M Obj :=
  _ ← checkStatus;
  let path := fixAndCleanPath path in
  if seqb path "/" then getRoot
  else
    let '(dir, name) := path_Split path in
    files ← cachedObjs (Key cfg dir);
    let found := files ≫= findName name in
    let rest (refreshList : bool) : M Obj :=
      got ← driverGet path;
      match got with
      | Some obj => mret obj
      | None =>
          if negb (bool_decide (is_Some files)) || refreshList then getListed listf dir name excludeTemp refreshList
          else fail ObjectNotFound
      end in
    match found with
    | Some f => if excluded excludeTemp f then rest true else mret f
    | None => rest false
    end.

Definition unwrapped (get : getFn) (path : gostr) : M Obj :=
  obj ← get path true; mret (UnwrapObjName obj).

(** The function list gives to singleflight. *)
Definition fetchListing (get : getFn) (path : gostr) (args : ListArgs) : M (list Obj) :=
  let key := Key cfg path in
  dir ← unwrapped get path;
  if negb (IsDir dir) then fail NotFolder
  else
    r ← call (fun s => dList d s dir args);
    files ← ofRes r;
    let files := sortListing sortSlice naturalLess cfg (wrapObjsName files) in
    _ ← (if NoCache cfg then mret tt
         else match files with
              | _ :: _ => updCache (fun c => dirSetWithTTL clock c key (newDirectoryCache files) (listTTL path))
              | [] => updCache (fun c => deleteDirectoryTree c key)
              end);
    mret files.

Definition listWith (get : getFn) : listFn := fun path args validate =>
  _ ← checkStatus;
  let path := fixAndCleanPath path in
  cached ← (if Refresh args then mret None else cachedObjs (Key cfg path));
  let hit := match cached with
             | Some l => match validate l with None => Some l | Some _ => None end
             | None => None
             end in
  match hit with
  | Some l => mret l
  | None =>
      l ← fetchListing get path args;
      match validate l with Some e => fail e | None => mret l end
  end.

(** list (list_op here) and Get call each other; a path of n elements needs n + 1 calls. *)
Fixpoint listLoop (fuel : nat) : listFn :=
  match fuel with
  | O => fun _ _ _ => fail OutOfFuel
  | S fuel => listWith (getWith (listLoop fuel))
  end.

Definition depth (path : gostr) : nat := length (norm_segs path).

Definition list_op (path : gostr) (args : ListArgs) (validate : list Obj -> option (op_error E))
    : M (list Obj) :=
  listLoop (S (depth path)) path args validate.

Definition List (path : gostr) (args : ListArgs) : M (list Obj)   := list_op path args (fun _ => None).

Definition Get (path : gostr) (excludeTemp : bool) : M Obj := getWith (listLoop (depth path)) path excludeTemp.

Definition GetUnwrap (path : gostr) : M Obj := unwrapped Get path.

(** ** Changing operations *)

Definition linkDelete (key : gostr) : M unit := updCache (fun c => deleteLink c key).

(** MakeDir after Get has said that the directory is missing. *)
Definition makeDirIn (parentPath dirName : gostr) : M unit :=
  parentDir ← GetUnwrap parentPath;
  if negb (IsDir parentDir) then fail NotFolder
  else if ObjHasMask parentDir NoWrite then fail PermissionDenied
  else
    match dMakeDir d with
    | None => fail NotImplement
    | Some mk =>
        '(newObj, err) ← call (fun s => mk s parentDir dirName);
        match err with
        | Some e => if negb (IsObjectAlreadyExists e) then fail e else mret tt
        | None => mret tt
        end;;
        if NoCache cfg then mret tt
        else updateCached (Key cfg parentPath)
               (match newObj with
                | Some o => mret ("" : gostr, wrapObjName o)
                | None =>
                    t ← timeNow;
                    mret ("" : gostr, wrapObjName (Leaf (mkObject [] [] dirName 0 t t true [] Temp) None))
                end)
    end.

(** The body of MakeDir; [rec] is the call for the parent. *)
Definition makeDirWith (rec : gostr -> M unit) (path : gostr) : M unit :=
  checkStatus;;
  let path := fixAndCleanPath path in
  r ← try (Get path false);
  match r with
  | Ok f => if IsDir f then mret tt else fail FileExists
  | Err e =>
      if negb (IsObjectNotFound e) then fail e
      else
        let '(parentPath, dirName) := path_Split path in
        rec parentPath;;
        makeDirIn parentPath dirName
  end.

Fixpoint makeDirLoop (fuel : nat) (path : gostr) : M unit :=
  match fuel with
  | O => fail OutOfFuel
  | S fuel => makeDirWith (makeDirLoop fuel) path
  end.

Definition MakeDir (path : gostr) : M unit := makeDirLoop (S (depth path)) path.

(** The object the cache gets for a moved or copied one. *)
Definition movedObj (src : Obj) (newObj : option Obj) : Obj :=
  match newObj with Some o => wrapObjName o | None => ObjWrapMask src Temp end.

Definition Move (srcPath dstDirPath : gostr) : M unit :=
  checkStatus;;
  let srcPath := fixAndCleanPath srcPath in
  if pathEqual srcPath "/" then fail RootNotAllowed
  else
    let srcDirPath := path_Dir srcPath in
    let dstDirPath := fixAndCleanPath dstDirPath in
    if seqb dstDirPath srcDirPath then fail MoveInPlace
    else
      srcRawObj ← Get srcPath true;
      if ObjHasMask srcRawObj NoMove then fail PermissionDenied
      else
        let srcObj := UnwrapObjName srcRawObj in
        dstDir ← GetUnwrap dstDirPath;
        if ObjHasMask dstDir NoWrite then fail PermissionDenied
        else
          newObj ← match dMove d with
                   | Some mv => callObj (fun s => mv s srcObj dstDir)
                   | None => fail NotImplement
                   end;
          let srcKey := Key cfg srcDirPath in
          let dstKey := Key cfg dstDirPath in
          let name := GetName srcRawObj in
          (if IsDir srcRawObj then mret tt
           else linkDelete (path_join2 srcKey name);; linkDelete (path_join2 dstKey name));;
          if NoCache cfg then mret tt
          else
            dc ← onCache (fun c => dirGet clock c srcKey);
            match dc with
            | Some _ =>
                (if IsDir srcRawObj then updCache (fun c => deleteDirectoryTree c (path_join2 srcKey name))
                 else mret tt);;
                updCache (fun c => alterDir (fun dc => RemoveObject dc name) c srcKey)
            | None => mret tt
            end;;
            updateCached dstKey (mret (name, movedObj srcRawObj newObj)).

Definition Rename (srcPath dstName : gostr) : M unit :=
  checkStatus;;
  let srcPath := fixAndCleanPath srcPath in
  if pathEqual srcPath "/" then fail RootNotAllowed
  else
    srcRawObj ← Get srcPath true;
    if ObjHasMask srcRawObj NoRename then fail PermissionDenied
    else
      let oldName := GetName srcRawObj in
      let srcObj := UnwrapObjName srcRawObj in
      newObj ← match dRename d with
               | Some rn => callObj (fun s => rn s srcObj dstName)
               | None => fail NotImplement
               end;
      let dirKey := Key cfg (path_Dir srcPath) in
      (if IsDir srcRawObj then mret tt
       else linkDelete (path_join2 dirKey oldName);; linkDelete (path_join2 dirKey dstName));;
      if NoCache cfg then mret tt
      else
        dc ← onCache (fun c => dirGet clock c dirKey);
        match dc with
        | Some _ =>
            (if IsDir srcRawObj then updCache (fun c => deleteDirectoryTree c (path_join2 dirKey oldName))
             else mret tt);;
            let newObj := default (ObjWrapMask (ObjWrapName dstName srcObj) Temp) newObj in
            updCache (fun c => alterDir (fun dc => UpdateObject dc oldName (wrapObjName newObj)) c dirKey)
        | None => mret tt
        end.

Definition Copy (srcPath dstDirPath : gostr) : M unit :=
  checkStatus;;
  let srcPath := fixAndCleanPath srcPath in
  let dstDirPath := fixAndCleanPath dstDirPath in
  if seqb dstDirPath (path_Dir srcPath) then fail NotImplement
  else
    srcRawObj ← Get srcPath true;
    let srcObj := UnwrapObjName srcRawObj in
    dstDir ← GetUnwrap dstDirPath;
    if ObjHasMask dstDir NoWrite then fail PermissionDenied
    else
      newObj ← match dCopy d with
               | Some cp => callObj (fun s => cp s srcObj dstDir)
               | None => fail NotImplement
               end;
      let dstKey := Key cfg dstDirPath in
      let name := GetName srcRawObj in
      (if IsDir srcRawObj then mret tt else linkDelete (path_join2 dstKey name));;
      if NoCache cfg then mret tt
      else updateCached dstKey (mret (name, movedObj srcRawObj newObj)).

Definition Remove (path : gostr) : M unit :=
  checkStatus;;
  let path := fixAndCleanPath path in
  if pathEqual path "/" then fail RootNotAllowed
  else
    r ← try (Get path true);
    match r with
    | Err e => if IsObjectNotFound e then mret tt else fail e
    | Ok rawObj =>
        if ObjHasMask rawObj NoRemove then fail PermissionDenied
        else
          match dRemove d with
          | None => fail NotImplement
          | Some rm =>
              err ← call (fun s => rm s (UnwrapObjName rawObj));
              match err with
              | Some e => fail e
              | None => updCache (fun c => removeDirectoryObject clock cfg c (path_Dir path) rawObj)
              end
          end
    end.

(** What Put and PutURL leave in the cache. *)
Definition cacheNew (dstDirPath : gostr) (mk : M Obj) : M unit :=
  updateCached (Key cfg dstDirPath) (o ← mk; let o := wrapObjName o in mret (GetName o, o)).

Definition putOptObj (newObj : option Obj) (mk : M Obj) : M Obj :=
  match newObj with Some o => mret o | None => mk end.

(** The object a Put without a result leaves in the cache. *)
Definition putObj (file : fileStream) : Obj :=
  Leaf (mkObject [] [] (fName file) (fSize file) (fModTime file) (fCreateTime file) false [] Temp) None.

(** What Put does with a file that is already there. *)
Definition putExisting (skipNoOverwrite : bool) (dstPath tempName : gostr) (fi : res (op_error E) Obj)
    (file : fileStream) : M fileStream :=
  match fi with
  | Err _ => mret file
  | Ok o =>
      if GetSize o =? 0 then Remove dstPath;; mret file
      else if NoOverwriteUpload cfg && negb skipNoOverwrite then Rename dstPath tempName;; mret file
      else mret (SetExist file o)
  end.

(** The end of Put: with NoOverwriteUpload the old file is renamed back or
    removed. *)
Definition putFinish (tempPath : gostr) (fi : res (op_error E) Obj) (file : fileStream)
    (err : option (op_error E)) : M unit :=
  let replaced := match fi with Ok o => NoOverwriteUpload cfg && (0 <? GetSize o) | Err _ => false end in
  match err with
  | Some e => (if replaced then _ ← try (Rename tempPath (fName file)); mret tt else mret tt);; fail e
  | None => if replaced then Remove tempPath else mret tt
  end.

(** [skipNoOverwrite]: the context has conf.SkipNoOverwriteKey. *)
Definition Put (skipNoOverwrite : bool) (dstDirPath : gostr) (file : fileStream) : M unit :=
  checkStatus;;
  let '(dstDirPath, file) :=
    if OnlyIndices cfg then
      let '(dir, link) := urlTreeSplitLineFormPath (path_join2 dstDirPath (fName file)) in
      (dir, mkFile link 0 0 0 0 None)
    else (dstDirPath, file) in
  let dstDirPath := fixAndCleanPath dstDirPath in
  let dstPath := path_join2 dstDirPath (fName file) in
  let tempName := fName file ++ (".openlist_to_delete" : gostr) in
  let tempPath := path_join2 dstDirPath tempName in
  fi ← try (GetUnwrap dstPath);
  file ← putExisting skipNoOverwrite dstPath tempName fi file;
  made ← try (MakeDir dstDirPath);
  match made with
  | Err e => if negb (IsObjectAlreadyExists e) then fail e else mret tt
  | Ok _ => mret tt
  end;;
  parentDir ← GetUnwrap dstDirPath;
  if ObjHasMask parentDir NoWrite then fail PermissionDenied
  else
    let file := if fSize file <? 0 then CacheFullAndWriter file else file in
    match dPut d with
    | None => fail NotImplement
    | Some put =>
        '(newObj, err) ← call (fun s => put s parentDir file);
        match err with
        | None =>
            linkDelete (Key cfg dstPath);;
            if NoCache cfg then mret tt
            else cacheNew dstDirPath (putOptObj newObj (mret (putObj file)))
        | Some _ => mret tt
        end;;
        putFinish tempPath fi file err
    end.

Definition PutURL (dstDirPath dstName url : gostr) : M unit :=
  checkStatus;;
  let dstDirPath := fixAndCleanPath dstDirPath in
  let dstPath := path_join2 dstDirPath dstName in
  r ← try (Get dstPath false);
  match r with
  | Ok _ => fail ObjectAlreadyExists
  | Err _ =>
      MakeDir dstDirPath;;
      dstDir ← GetUnwrap dstDirPath;
      if ObjHasMask dstDir NoWrite then fail PermissionDenied
      else
        newObj ← match dPutURL d with
                 | Some put => callObj (fun s => put s dstDir dstName url)
                 | None => fail NotImplement
                 end;
        linkDelete (Key cfg dstPath);;
        if NoCache cfg then mret tt
        else cacheNew dstDirPath
               (putOptObj newObj
                  (t ← timeNow; mret (Leaf (mkObject [] [] dstName 0 t t false [] Temp) None)))
  end.

End Ops.

(** ** Lemmas: findName *)
Lemma findName_Some n l f : findName n l = Some f -> f ∈ l /\ GetName f = n.
Proof.
  induction l as [|o l IH]; simpl; [done|]. destruct (seqb (GetName o) n) eqn:Hn.
  - apply seqb_true in Hn. intros [= <-]. split; [by left|done].
  - intros H%IH. split; [right; apply H|apply H].
Qed.

Lemma findName_None n l : findName n l = None -> forall f, f ∈ l -> GetName f <> n.
Proof.
  induction l as [|o l IH]; simpl; [intros _ f H; by apply elem_of_nil in H|].
  destruct (seqb (GetName o) n) eqn:Hn; [done|]. apply seqb_false in Hn.
  intros H f [->|Hf]%elem_of_cons; [done|by apply IH].
Qed.
