(* ===== verification/FsTree.v ===== *)
(** File trees: the abstract state of the remote side of a storage. A tree maps
    the elements of a path to whether it is a directory; the root is the empty
    path, always a directory, and not an entry. *)
From S2P Require Import Prelude GoString GoPath Paths Mounts DirCache.

Abbreviation fpath := (list gostr).
Abbreviation ftree := (gmap fpath bool).

Definition isDirAt (t : ftree) (p : fpath) : Prop := p = [] \/ t !! p = Some true.

Record wfTree (t : ftree) : Prop := {
  wf_clean : forall p b, t !! p = Some b -> p <> [] /\ Forall clean_seg p;
  wf_parent : forall p n b, t !! (p ++ [n]) = Some b -> isDirAt t p
}.

#[export] Instance isDirAt_dec t p : Decision (isDirAt t p).
Proof. unfold isDirAt. apply _. Defined.

(** ** Operations *)
Definition treeRemove (t : ftree) (p : fpath) : ftree := filter (fun kv => ~ p `prefix_of` kv.1) t.

Definition relocate (p q : fpath) (kv : fpath * bool) : option (fpath * bool) :=
  if decide (p `prefix_of` kv.1) then Some (q ++ drop (length p) kv.1, kv.2) else None.

(** The entries at and below [p] copied to [q]. *)
Definition treeCopy (t : ftree) (p q : fpath) : ftree :=
  list_to_map (omap (relocate p q) (map_to_list t)) ∪ t.

Definition treeMove (t : ftree) (p q : fpath) : ftree := treeRemove (treeCopy t p q) p.

(** ** Lookups *)
Lemma treeRemove_under t p s : treeRemove t p !! (p ++ s) = None.
Proof.
  apply map_lookup_filter_None. right. intros b _ H. apply H. simpl. by apply prefix_app_r.
Qed.

Lemma treeRemove_at t p : treeRemove t p !! p = None.
Proof. pose proof (treeRemove_under t p []) as H. by rewrite app_nil_r in H. Qed.

Lemma treeRemove_other t p k : ~ p `prefix_of` k -> treeRemove t p !! k = t !! k.
Proof.
  intros Hk. unfold treeRemove. rewrite map_lookup_filter. destruct (t !! k); simpl; [|done].
  by rewrite option_guard_True.
Qed.

Lemma relocate_Some p q kv x :
  relocate p q kv = Some x <-> exists s, kv.1 = p ++ s /\ x = (q ++ s, kv.2).
Proof.
  unfold relocate. destruct (decide (p `prefix_of` kv.1)) as [[s Hs]|Hn].
  - rewrite Hs, drop_app_length. split; [intros [= <-]; eauto|].
    intros (s' & Heq & ->). apply app_inv_head in Heq as ->. done.
  - split; [done|]. intros (s & Hs & _). destruct Hn. by exists s.
Qed.

Lemma treeCopy_under t p q s :
  treeCopy t p q !! (q ++ s) = match t !! (p ++ s) with Some b => Some b | None => t !! (q ++ s) end.
Proof.
  unfold treeCopy. set (l := omap _ _).
  assert (Hin : forall b, (q ++ s, b) ∈ l <-> t !! (p ++ s) = Some b).
  { intros b. unfold l. rewrite list_elem_of_omap. split.
    - intros ([k b'] & Hk%elem_of_map_to_list & (s' & Heq & [= Hq ->])%relocate_Some). simpl in *.
      apply app_inv_head in Hq as ->. by subst k.
    - intros Hb. exists (p ++ s, b). split; [by apply elem_of_map_to_list|]. apply relocate_Some. eauto. }
  assert (Hnd : NoDup l.*1).
  { unfold l. generalize (NoDup_fst_map_to_list t). generalize (map_to_list t). clear.
    intros ml H. induction ml as [|kv ml IH]; simpl; [constructor|].
    apply NoDup_cons in H as [H1 H2]. destruct (relocate p q kv) as [x|] eqn:E; simpl; [|by apply IH].
    constructor; [|by apply IH]. apply relocate_Some in E as (s' & Hs & ->). simpl.
    intros ([k b] & Hk & Hb)%list_elem_of_fmap. simpl in Hk. subst k.
    apply list_elem_of_omap in Hb as ([k b'] & Hb & (s2 & H3 & [= H4 ->])%relocate_Some). simpl in *.
    apply app_inv_head in H4 as <-. apply H1. rewrite Hs, <- H3. by apply (list_elem_of_fmap_2 fst) in Hb. }
  destruct (t !! (p ++ s)) as [b|] eqn:E.
  - apply lookup_union_Some_l. apply elem_of_list_to_map; [done|]. by apply Hin.
  - apply lookup_union_r. apply not_elem_of_list_to_map. intros ([k b] & Hk & Hb)%list_elem_of_fmap.
    simpl in Hk. subst k. apply Hin in Hb. congruence.
Qed.

Lemma treeCopy_at t p q b : t !! p = Some b -> treeCopy t p q !! q = Some b.
Proof. intros H. pose proof (treeCopy_under t p q []) as Hc. by rewrite !app_nil_r, H in Hc. Qed.

Lemma treeCopy_other t p q k : ~ q `prefix_of` k -> treeCopy t p q !! k = t !! k.
Proof.
  intros Hk. unfold treeCopy. apply lookup_union_r. apply not_elem_of_list_to_map.
  intros ([k' b] & Heq & Hb)%list_elem_of_fmap. simpl in Heq. subst k'.
  apply list_elem_of_omap in Hb as ([k2 b'] & _ & (s & _ & [= -> _])%relocate_Some).
  apply Hk. by apply prefix_app_r.
Qed.

Lemma treeMove_from t p q : treeMove t p q !! p = None.
Proof. apply treeRemove_at. Qed.

Lemma treeMove_at t p q b : t !! p = Some b -> ~ p `prefix_of` q -> treeMove t p q !! q = Some b.
Proof. intros H Hp. unfold treeMove. rewrite treeRemove_other by done. by apply treeCopy_at. Qed.

Lemma treeMove_other t p q k : ~ p `prefix_of` k -> ~ q `prefix_of` k -> treeMove t p q !! k = t !! k.
Proof. intros H1 H2. unfold treeMove. rewrite treeRemove_other by done. by apply treeCopy_other. Qed.

(** ** Well-formed trees *)
Section Wf.
Context (t : ftree) (W : wfTree t).

Lemma wf_prefix p s b : t !! (p ++ s) = Some b -> s <> [] -> isDirAt t p.
Proof.
  revert b. induction s as [|n s IH] using rev_ind; intros b Hb Hs; [done|].
  rewrite (assoc_L (++)) in Hb. apply (wf_parent _ W) in Hb.
  destruct s as [|m s]; [by rewrite app_nil_r in Hb|].
  destruct Hb as [Hn|Hd]; [by destruct p|]. by eapply IH.
Qed.

(** Nothing lives below a path that does not exist. *)
Lemma wf_absent p s : p <> [] -> t !! p = None -> t !! (p ++ s) = None.
Proof.
  intros Hp Hn. destruct s as [|n s]; [by rewrite app_nil_r|].
  destruct (t !! (p ++ n :: s)) as [b|] eqn:E; [|done].
  apply wf_prefix in E as [?|?]; [done|congruence|done].
Qed.

Lemma wf_seg p n b : t !! (p ++ [n]) = Some b -> Forall clean_seg p /\ clean_seg n.
Proof. intros H%(wf_clean _ W). destruct H as [_ [H1 [H2 _]%Forall_cons]%Forall_app]. done. Qed.

Lemma isDirAt_clean p : isDirAt t p -> Forall clean_seg p.
Proof. intros [->|H]; [done|]. by apply (wf_clean _ W) in H as []. Qed.

Lemma treeRemove_wf p : wfTree (treeRemove t p).
Proof.
  split.
  - intros k b [H _]%map_lookup_filter_Some. by eapply wf_clean.
  - intros k n b [H Hn]%map_lookup_filter_Some. simpl in Hn.
    assert (Hk : ~ p `prefix_of` k) by (intros Hp; apply Hn; by apply prefix_app_r).
    destruct (wf_parent _ W _ _ _ H) as [?|Hd]; [by left|right]. by rewrite treeRemove_other.
Qed.

Lemma treeInsert_wf p n b :
  isDirAt t p -> clean_seg n -> (t !! (p ++ [n]) = Some true -> b = true) -> wfTree (<[p ++ [n] := b]> t).
Proof.
  intros Hp Hn Hb. split.
  - intros k b'. destruct (decide (k = p ++ [n])) as [->|Hne].
    + intros _. split; [by destruct p|]. apply Forall_app. split; [by apply isDirAt_clean|by constructor].
    + rewrite lookup_insert_ne by done. apply W.
  - intros k m b' H. assert (Hk : isDirAt t k).
    { destruct (decide (k ++ [m] = p ++ [n])) as [[-> ->]%app_inj_tail|Hne]; [done|].
      rewrite lookup_insert_ne in H by done. by eapply wf_parent. }
    destruct Hk as [->|Hk]; [by left|right]. destruct (decide (k = p ++ [n])) as [->|Hne].
    + rewrite lookup_insert_eq. f_equal. by apply Hb.
    + by rewrite lookup_insert_ne.
Qed.

Lemma treeCopy_wf p q n :
  p <> [] -> isDirAt t q -> clean_seg n -> t !! (q ++ [n]) = None -> wfTree (treeCopy t p (q ++ [n])).
Proof.
  intros Hp Hq Hn Hnone.
  assert (Hun : forall s, treeCopy t p (q ++ [n]) !! (q ++ [n] ++ s) = t !! (p ++ s)).
  { intros s. rewrite (assoc_L (++)), treeCopy_under. destruct (t !! (p ++ s)) eqn:E; [done|].
    apply wf_absent; [by destruct q|done]. }
  assert (Hq' : isDirAt (treeCopy t p (q ++ [n])) q).
  { destruct Hq as [->|Hq]; [by left|right]. rewrite treeCopy_other; [done|].
    intros [s Hs]. apply (f_equal length) in Hs. rewrite !length_app in Hs. simpl in Hs. lia. }
  split.
  - intros k b H. destruct (decide (q ++ [n] `prefix_of` k)) as [[s ->]|Hk].
    + rewrite <- (assoc_L (++)), Hun in H. apply (wf_clean _ W) in H as [_ [_ Hs]%Forall_app].
      split; [by destruct q|]. rewrite !Forall_app. split_and!; [by apply isDirAt_clean|by constructor|done].
    + rewrite treeCopy_other in H by done. by eapply wf_clean.
  - intros k m b H. destruct (decide (q ++ [n] `prefix_of` (k ++ [m]))) as [[s Hs]|Hk].
    + destruct s as [|x s _] using rev_ind.
      * rewrite app_nil_r in Hs. apply app_inj_tail in Hs as [-> ->]. done.
      * rewrite (assoc_L (++)) in Hs. apply app_inj_tail in Hs as [-> ->].
        assert (H' : treeCopy t p (q ++ [n]) !! (q ++ [n] ++ s ++ [x]) = Some b) by (by rewrite !(assoc_L (++)) in *).
        rewrite Hun, (assoc_L (++)) in H'. apply (wf_parent _ W) in H'. right.
        rewrite <- (assoc_L (++)), Hun. destruct H' as [H'|H']; [|done]. by destruct p.
    + rewrite treeCopy_other in H by done. destruct (wf_parent _ W _ _ _ H) as [?|Hd]; [by left|right].
      rewrite treeCopy_other; [done|]. intros Hx. apply Hk. by apply prefix_app_r.
Qed.

End Wf.

Lemma treeMove_wf t p q n :
  wfTree t -> p <> [] -> isDirAt t q -> clean_seg n -> t !! (q ++ [n]) = None -> wfTree (treeMove t p (q ++ [n])).
Proof. intros W Hp Hq Hn Hnone. by apply treeRemove_wf, treeCopy_wf. Qed.

(** ** Cache keys: the key of a path of a storage is the path below the mount
    point. The functions of [path] and [utils] on clean paths in terms of their
    elements. *)

Lemma clean_good l : Forall clean_seg l -> Forall good_seg l.
Proof. intros H. eapply Forall_impl; [done|]. by intros ? []. Qed.

(** path.Join of a rooted clean path and any other element *)
Lemma path_Join_rel a s :
  Forall good_seg a -> s <> [] ->
  path_Join [mkpath a; s] = mkpath (rev (cleanSegs true (rev a) (splitByte s slash))).
Proof.
  intros Ha Hs. assert (path_Join [mkpath a; s] = path_Clean (mkpath a ++ [slash] ++ s)) as ->.
  { unfold path_Join. rewrite filter_cons_True by done. by rewrite filter_cons_True. }
  unfold mkpath at 1. rewrite <- (app_comm_cons _ _ slash), rooted_clean. f_equal.
  destruct a as [|w l]; [done|]. change ([slash] ++ s) with (slash :: s).
  rewrite splitByte_join_app, cleanSegs_app, (cleanSegs_id true [] (w :: l)), app_nil_r
    by (done || by apply good_seg_no_slash). done.
Qed.

Lemma path_join2_snoc a n :
  Forall good_seg a -> good_seg n -> path_join2 (mkpath a) n = mkpath (a ++ [n]).
Proof.
  intros Ha Hn. unfold path_join2. rewrite path_Join_rel by (done || apply Hn).
  rewrite splitByte_nosep by apply Hn. rewrite cleanSegs_id by (by constructor). simpl.
  by rewrite rev_involutive.
Qed.

(** A path with its trailing slash, as path.Split leaves it *)
Definition slashed (p : fpath) : gostr := match p with [] => [slash] | _ => mkpath p ++ [slash] end.

Lemma split_slashed p :
  Forall good_seg p -> exists k, splitByte (slashed p) slash = [] :: p ++ replicate (S k) [].
Proof.
  intros Hp. unfold slashed. destruct p as [|w l]; [by exists 0%nat|].
  exists 0%nat. change (mkpath (w :: l) ++ [slash]) with (mkpath (w :: l) ++ slash :: []).
  assert (mkpath (w :: l) ++ slash :: [] = slash :: joinStr ((w :: l) ++ [[]]) [slash]) as ->.
  { by rewrite <- (mkpath_snoc (w :: l) []). }
  transitivity ([] :: splitByte (joinStr ((w :: l) ++ [[]]) [slash]) slash).
  { apply (splitByte_app [] _ slash), not_elem_of_nil. }
  f_equal. apply splitByte_join; [by destruct l|].
  apply Forall_app. split; [by apply good_seg_no_slash|]. constructor; [apply not_elem_of_nil|done].
Qed.

Lemma cleanSegs_slashed acc p :
  Forall good_seg p -> cleanSegs true acc (splitByte (slashed p) slash) = rev p ++ acc.
Proof.
  intros Hp. destruct (split_slashed p Hp) as [k ->]. 
  transitivity (cleanSegs true acc (p ++ replicate (S k) [])); [done|].
  rewrite cleanSegs_app, (cleanSegs_id true acc p) by done. generalize (rev p ++ acc). intros l.
  induction (S k) as [|j IH]; [done|exact IH].
Qed.

Lemma path_Split_snoc p n :
  Forall good_seg p -> good_seg n -> path_Split (mkpath (p ++ [n])) = (slashed p, n).
Proof.
  intros Hp (Hn & _ & _ & Hs). unfold path_Split, slashed. rewrite mkpath_snoc. destruct p as [|w l].
  - change (slash :: n) with ([] ++ slash :: n). by rewrite lastIndexByte_app.
  - rewrite (lastIndexByte_app _ slash n Hs).
    replace (mkpath (w :: l) ++ slash :: n) with ((mkpath (w :: l) ++ [slash]) ++ n) by (by rewrite <- (assoc_L (++))).
    replace (S (length (mkpath (w :: l)))) with (length (mkpath (w :: l) ++ [slash])) by (rewrite length_app; simpl; lia).
    by rewrite take_app_length, drop_app_length.
Qed.

Lemma norm_segs_slashed p : Forall clean_seg p -> norm_segs (slashed p) = p.
Proof.
  intros Hp. unfold norm_segs. rewrite replaceByte_id.
  - rewrite cleanSegs_slashed, app_nil_r by (by apply clean_good). apply rev_involutive.
  - unfold slashed. destruct p as [|w l]; [vm_compute; set_solver|].
    rewrite not_elem_of_app. split; [by apply mkpath_no_backslash|]. vm_compute. set_solver.
Qed.

Lemma fix_slashed p : Forall clean_seg p -> fixAndCleanPath (slashed p) = mkpath p.
Proof. intros Hp. by rewrite fixAndCleanPath_mkpath, norm_segs_slashed. Qed.

Lemma fix_mkpath p : Forall clean_seg p -> fixAndCleanPath (mkpath p) = mkpath p.
Proof. intros Hp. by rewrite fixAndCleanPath_mkpath, norm_segs_mkpath. Qed.

Lemma mkpath_root p : Forall good_seg p -> seqb (mkpath p) "/" = bool_decide (p = []).
Proof.
  intros Hp. destruct (seqb (mkpath p) "/") eqn:E; symmetry.
  - apply seqb_true in E. apply bool_decide_eq_true_2. apply (mkpath_inj p []); [done..|]. exact E.
  - apply seqb_false in E. apply bool_decide_eq_false_2. intros ->. by apply E.
Qed.

Section Keys.
Context (cfg : fsConfig) (ms : fpath).
Context (Hms : Forall clean_seg ms) (Hmount : GetActualMountPath (cMountPath cfg) = mkpath ms).

Definition keyOf (p : fpath) : gostr := mkpath (ms ++ p).

Lemma Key_mkpath p : Forall clean_seg p -> Key cfg (mkpath p) = keyOf p.
Proof.
  intros Hp. unfold Key, GetFullPath, keyOf. rewrite Hmount.
  apply path_Join_rooted; by apply clean_good.
Qed.

Lemma Key_slashed p : Forall clean_seg p -> Key cfg (slashed p) = keyOf p.
Proof.
  intros Hp. unfold Key, GetFullPath, keyOf. rewrite Hmount, path_Join_rel; [|by apply clean_good|by destruct p].
  rewrite cleanSegs_slashed by (by apply clean_good).
  by rewrite <- rev_app_distr, rev_involutive.
Qed.

Lemma keyOf_inj p q : Forall clean_seg p -> Forall clean_seg q -> keyOf p = keyOf q -> p = q.
Proof.
  intros Hp Hq H. apply mkpath_inj in H; [by apply app_inv_head in H|..]; apply clean_good, Forall_app; done.
Qed.

Lemma join_keyOf p n : Forall clean_seg p -> clean_seg n -> path_join2 (keyOf p) n = keyOf (p ++ [n]).
Proof.
  intros Hp Hn. unfold keyOf. rewrite path_join2_snoc; [by rewrite <- (assoc_L (++))| |by apply Hn].
  apply clean_good, Forall_app. done.
Qed.

End Keys.
