(* ===== verification/OpFsSpec.v ===== *)
(** What the operations of [OpFs] rely on and what they keep.

    A driver is lawful when its remote side is a file tree ([tree]), its objects
    are handles for paths of it ([denotes]), and its methods change tree and
    handles as their names say or fail without effect ([DriverLaws]). The
    invariant [Coh]: every cached listing is the listing of a directory of the
    tree, every cached object that is not temporary is a handle for its path,
    and the directory above a cached one is cached. Listings do not expire
    before [horizon], the time up to which the clock runs. *)
From S2P Require Import Prelude GoString GoPath Paths Mounts Storages Objects KeyedCache DirCache OpFs FsTree.

Section Spec.
Context {R E : Type} (d : Driver R E).
Context (sortSlice : (Obj -> Obj -> bool) -> list Obj -> list Obj) (naturalLess : gostr -> gostr -> bool)
        (clock : nat -> Z) (charMap : charmap) (doublestarMatch : gostr -> gostr -> option bool).
Context (dinv : R -> Prop) (tree : R -> ftree) (denotes : R -> Obj -> fpath -> Prop).

Abbreviation state := (fs (R:=R)).
Abbreviation cfg := (dConfig d).
Abbreviation shown := (shownName charMap).
Abbreviation mapped := (MappingName charMap).

(** ** Lawful drivers *)

(** A call that changes nothing: the tree stays and handles stay valid. *)
Record ro (s s' : R) : Prop := {
  ro_inv : dinv s';
  ro_tree : tree s' = tree s;
  ro_handle : forall o p, denotes s o p -> denotes s' o p
}.

(** A call that may return the object it made at [p]. *)
Definition made (s' : R) (newObj : option Obj) (p : fpath) (n : gostr) (dir : bool) : Prop :=
  forall o, newObj = Some o -> shown o = n /\ IsDir o = dir /\ denotes s' o p.

Class DriverLaws : Prop := {
  law_wf s : dinv s -> wfTree (tree s);
  law_root c s : dinv s ->
    let '(st', r) := getRoot d (mkFs c s) in
    ro s (remote st') /\ r <> Err ObjectNotFound /\
    forall o, r = Ok o -> denotes (remote st') (UnwrapObjName o) [] /\ IsDir o = true;
  law_list s o p args : dinv s -> denotes s o p ->
    let '(s', r) := dList d s o args in
    ro s s' /\ forall l, r = Ok l ->
      isDirAt (tree s) p /\ NoDup (map shown l) /\
      (forall n b, tree s !! (p ++ [n]) = Some b <-> exists x, x ∈ l /\ shown x = n /\ IsDir x = b) /\
      forall x, x ∈ l -> denotes s' x (p ++ [shown x]) /\ ObjHasMask x Temp = false;
  law_mkdir mk s o p n : dMakeDir d = Some mk -> dinv s -> denotes s o p ->
    let '(s', (newObj, err)) := mk s o n in
    match err with
    | Some e => ro s s' /\ (IsObjectAlreadyExists e = true -> is_Some (tree s !! (p ++ [mapped n])))
    | None =>
        isDirAt (tree s) p /\ tree s !! (p ++ [mapped n]) = None /\
        dinv s' /\ tree s' = <[p ++ [mapped n] := true]> (tree s) /\
        (forall o' q, denotes s o' q -> denotes s' o' q) /\ made s' newObj (p ++ [mapped n]) (mapped n) true
    end;
  law_rename rn s o p n0 n b : dRename d = Some rn -> dinv s -> denotes s o (p ++ [n0]) ->
    tree s !! (p ++ [n0]) = Some b ->
    let '(s', (newObj, err)) := rn s o n in
    match err with
    | Some _ => ro s s'
    | None =>
        tree s !! (p ++ [mapped n]) = None /\
        dinv s' /\ tree s' = treeMove (tree s) (p ++ [n0]) (p ++ [mapped n]) /\
        (forall o' q, denotes s o' q -> ~ p ++ [n0] `prefix_of` q -> denotes s' o' q) /\
        made s' newObj (p ++ [mapped n]) (mapped n) b
    end;
  law_move mv s o dst p n q b : dMove d = Some mv -> dinv s -> denotes s o (p ++ [n]) -> denotes s dst q ->
    tree s !! (p ++ [n]) = Some b ->
    let '(s', (newObj, err)) := mv s o dst in
    match err with
    | Some _ => ro s s'
    | None =>
        isDirAt (tree s) q /\ tree s !! (q ++ [n]) = None /\ ~ p ++ [n] `prefix_of` q /\
        dinv s' /\ tree s' = treeMove (tree s) (p ++ [n]) (q ++ [n]) /\
        (forall o' r, denotes s o' r -> ~ p ++ [n] `prefix_of` r -> denotes s' o' r) /\
        made s' newObj (q ++ [n]) n b
    end;
  law_copy cp s o dst p n q b : dCopy d = Some cp -> dinv s -> denotes s o (p ++ [n]) -> denotes s dst q ->
    tree s !! (p ++ [n]) = Some b ->
    let '(s', (newObj, err)) := cp s o dst in
    match err with
    | Some _ => ro s s'
    | None =>
        isDirAt (tree s) q /\ tree s !! (q ++ [n]) = None /\
        dinv s' /\ tree s' = treeCopy (tree s) (p ++ [n]) (q ++ [n]) /\
        (forall o' r, denotes s o' r -> denotes s' o' r) /\ made s' newObj (q ++ [n]) n b
    end;
  law_remove rm s o p b : dRemove d = Some rm -> dinv s -> denotes s o p -> tree s !! p = Some b ->
    let '(s', err) := rm s o in
    match err with
    | Some _ => ro s s'
    | None =>
        dinv s' /\ tree s' = treeRemove (tree s) p /\
        (forall o' r, denotes s o' r -> ~ p `prefix_of` r -> denotes s' o' r)
    end;
  law_put put s o p f : dPut d = Some put -> dinv s -> denotes s o p ->
    let '(s', (newObj, err)) := put s o f in
    match err with
    | Some _ => ro s s'
    | None =>
        isDirAt (tree s) p /\ tree s !! (p ++ [mapped (fName f)]) <> Some true /\
        dinv s' /\ tree s' = <[p ++ [mapped (fName f)] := false]> (tree s) /\
        (forall o' r, denotes s o' r -> r <> p ++ [mapped (fName f)] -> denotes s' o' r) /\
        made s' newObj (p ++ [mapped (fName f)]) (mapped (fName f)) false
    end;
  law_putURL put s o p n url : dPutURL d = Some put -> dinv s -> denotes s o p ->
    let '(s', (newObj, err)) := put s o n url in
    match err with
    | Some _ => ro s s'
    | None =>
        isDirAt (tree s) p /\ tree s !! (p ++ [mapped n]) <> Some true /\
        dinv s' /\ tree s' = <[p ++ [mapped n] := false]> (tree s) /\
        (forall o' r, denotes s o' r -> r <> p ++ [mapped n] -> denotes s' o' r) /\
        made s' newObj (p ++ [mapped n]) (mapped n) false
    end
}.

(** The storage works and its reads do not fail. *)
Record reliable : Prop := {
  rel_ready : CheckStatus cfg && negb (seqb (cStatus cfg) WORK) = false;
  rel_root c s : dinv s -> exists o, (getRoot d (mkFs c s)).2 = Ok o;
  rel_list s o p args : dinv s -> denotes s o p -> isDirAt (tree s) p -> exists l, (dList d s o args).2 = Ok l
}.

(** ** The invariant *)
Context (ms : fpath) (horizon : Z).
Abbreviation key := (keyOf ms).

Record goodList (s : R) (p : fpath) (l : list Obj) : Prop := {
  gl_dir : isDirAt (tree s) p;
  gl_names : NoDup (map GetName l);
  gl_objs n b : tree s !! (p ++ [n]) = Some b <-> exists o, o ∈ l /\ GetName o = n /\ IsDir o = b;
  gl_handles o : o ∈ l -> ObjHasMask o Temp = false -> denotes s (UnwrapObjName o) (p ++ [GetName o])
}.

Record entryOK (s : R) (p : fpath) (e : CacheEntry unit directoryCache) : Prop := {
  ok_list : goodList s p (objs (eData e));
  ok_sorted : dirtyFlags (eData e) = 0 -> sorted (eData e) ≡ₚ objs (eData e);
  ok_expiry : exists t, eExpiry e = ExpirationTime t /\ horizon <= t
}.

Definition cachedAt (st : state) (p : fpath) : Prop := is_Some (dirCache (cache st) !! key p).

Record Coh (st : state) : Prop := {
  coh_inv : dinv (remote st);
  coh_entry p e : Forall clean_seg p -> dirCache (cache st) !! key p = Some e -> entryOK (remote st) p e;
  coh_conn p n : Forall clean_seg (p ++ [n]) -> cachedAt st (p ++ [n]) -> cachedAt st p;
  coh_nocache p : NoCache cfg = true -> Forall clean_seg p -> ~ cachedAt st p
}.

(** ** Computations *)
Definition runs {A} (m : M (R:=R) (E:=E) A) (st : state) (Q : state -> res (op_error E) A -> Prop) : Prop :=
  Q (m st).1 (m st).2.

Lemma runs_bind {A B} (m : M A) (k : A -> M B) st (Q : state -> res (op_error E) B -> Prop) :
  runs m st (fun st' r => match r with Ok a => runs (k a) st' Q | Err e => Q st' (Err e) end) ->
  runs (m ≫= k) st Q.
Proof. unfold runs, mbind, M_bind. by destruct (m st) as [st' [a|e]]. Qed.

Lemma runs_mono {A} (m : M A) st (Q Q' : state -> res (op_error E) A -> Prop) :
  runs m st Q -> (forall st' r, Q st' r -> Q' st' r) -> runs m st Q'.
Proof. unfold runs. auto. Qed.

Lemma runs_try {A} (m : M A) st (Q : state -> res (op_error E) (res (op_error E) A) -> Prop) :
  runs m st (fun st' r => Q st' (Ok r)) -> runs (try m) st Q.
Proof. unfold runs, try. by destruct (m st). Qed.

Lemma runs_ret {A} (a : A) st (Q : state -> res (op_error E) A -> Prop) : Q st (Ok a) -> runs (mret a) st Q.
Proof. done. Qed.

Lemma runs_fail {A} e st (Q : state -> res (op_error E) A -> Prop) : Q st (Err e) -> runs (fail e) st Q.
Proof. done. Qed.

Lemma runs_call {A} (f : R -> R * A) st (Q : state -> res (op_error E) A -> Prop) :
  (let '(s, a) := f (remote st) in Q (mkFs (cache st) s) (Ok a)) -> runs (call f) st Q.
Proof. unfold runs, call. by destruct (f (remote st)). Qed.

Lemma runs_upd f st (Q : state -> res (op_error E) unit -> Prop) :
  Q (mkFs (f (cache st)) (remote st)) (Ok tt) -> runs (updCache f) st Q.
Proof. done. Qed.

Lemma runs_onCache {A} (f : caches -> caches * A) st (Q : state -> res (op_error E) A -> Prop) :
  (let '(c, a) := f (cache st) in Q (mkFs c (remote st)) (Ok a)) -> runs (onCache f) st Q.
Proof. unfold runs, onCache. by destruct (f (cache st)). Qed.

(** ** Steps that only read *)
Record reads (st st' : state) : Prop := {
  rd_coh : Coh st';
  rd_ro : ro (remote st) (remote st');
  rd_keeps p n b : tree (remote st) !! (p ++ [n]) = Some b -> cachedAt st p -> cachedAt st' p
}.

Definition grows (P : fpath -> Prop) (st st' : state) : Prop :=
  forall q, Forall clean_seg q -> cachedAt st' q -> cachedAt st q \/ P q.

Lemma ro_refl s : dinv s -> ro s s.
Proof. by split. Qed.

Lemma ro_trans s1 s2 s3 : ro s1 s2 -> ro s2 s3 -> ro s1 s3.
Proof. intros [? H1 ?] [? H2 ?]. split; [done|by rewrite H2|auto]. Qed.

Lemma reads_refl st : Coh st -> reads st st.
Proof. intros H. split; [done|apply ro_refl, H|done]. Qed.

Lemma reads_trans st1 st2 st3 : reads st1 st2 -> reads st2 st3 -> reads st1 st3.
Proof.
  intros [C1 R1 K1] [C2 R2 K2]. split; [done|by eapply ro_trans|].
  intros p n b Ht Hc. eapply K2; [rewrite (ro_tree _ _ R1); exact Ht|by eapply K1].
Qed.

Lemma grows_refl P st : grows P st st.
Proof. intros q. auto. Qed.

Lemma grows_trans P st1 st2 st3 : grows P st1 st2 -> grows P st2 st3 -> grows P st1 st3.
Proof. intros H1 H2 q Hq [?|?]%H2; auto. Qed.

Lemma grows_weaken (P Q : fpath -> Prop) st st' : (forall q, P q -> Q q) -> grows P st st' -> grows Q st st'.
Proof. intros H Hg q Hq [?|?]%Hg; auto. Qed.

Lemma goodList_perm s p l l' : l ≡ₚ l' -> goodList s p l -> goodList s p l'.
Proof.
  intros Hl [H1 H2 H3 H4]. split; [done|by rewrite <- Hl| |].
  - intros n b. rewrite H3. by setoid_rewrite Hl.
  - intros o. rewrite <- Hl. apply H4.
Qed.

Lemma goodList_ro s s' p l : ro s s' -> goodList s p l -> goodList s' p l.
Proof.
  intros [_ Ht Hh] [H1 H2 H3 H4]. split; [by rewrite Ht|done|intros n b; by rewrite Ht|auto].
Qed.

Lemma entryOK_ro s s' p e : ro s s' -> entryOK s p e -> entryOK s' p e.
Proof. intros Hro [H1 H2 H3]. split; [by eapply goodList_ro|done|done]. Qed.

End Spec.
