(* ===== verification/OpFsRead.v ===== *)
(** The reading operations of [OpFs] on a lawful driver: List and Get keep the
    invariant, change nothing on the remote side and answer what the tree says.
    They end: a path of n elements needs n + 1 nested listings. *)
From S2P Require Import Prelude GoString GoPath Paths Mounts Storages Objects KeyedCache DirCache OpFs FsTree OpFsSpec.

Section Read.
Context {R E : Type} (d : Driver R E).
Context (sortSlice : (Obj -> Obj -> bool) -> list Obj -> list Obj) (naturalLess : gostr -> gostr -> bool)
        (clock : nat -> Z) (charMap : charmap) (doublestarMatch : gostr -> gostr -> option bool).
Context (dinv : R -> Prop) (tree : R -> ftree) (denotes : R -> Obj -> fpath -> Prop).
Context (ms : fpath) (horizon : Z).

Abbreviation state := (fs (R:=R)).
Abbreviation cfg := (dConfig d).
Abbreviation key := (keyOf ms).
Abbreviation Coh := (Coh d dinv tree denotes ms horizon).
Abbreviation cachedAt := (cachedAt (R:=R) ms).
Abbreviation goodList := (goodList tree denotes).
Abbreviation entryOK := (entryOK tree denotes horizon).
Abbreviation reads := (reads d dinv tree denotes ms horizon).
Abbreviation grows := (grows (R:=R) ms).
Abbreviation ro := (ro dinv tree denotes).
Abbreviation listF := (listLoop d sortSlice naturalLess clock charMap doublestarMatch).
Abbreviation getF := (getWith d sortSlice naturalLess clock).

Context (Hperm : forall less l, sortSlice less l ≡ₚ l).
Context (Hclock : forall n, clock n <= horizon).
Context (Httl : forall path n, horizon <= clock n + listTTL d doublestarMatch path).
Context (Hms : Forall clean_seg ms) (Hmount : GetActualMountPath (cMountPath cfg) = mkpath ms).
Context (Hget : dGet d = None).
Context (Laws : DriverLaws d charMap dinv tree denotes).

(** ** The cache *)
Lemma sortListing_perm l : sortListing sortSlice naturalLess cfg l ≡ₚ l.
Proof.
  unfold sortListing. rewrite ExtractFolder_perm. destruct (LocalSort cfg); [|done].
  unfold SortFiles. destruct (seqb _ _); [done|apply Hperm].
Qed.

Lemma wfT s : dinv s -> wfTree (tree s).
Proof. eapply law_wf. exact Laws. Qed.

Lemma Coh_wf st : Coh st -> wfTree (tree (remote st)).
Proof. intros C. apply wfT, C. Qed.

Lemma dirGet_cached st p :
  Coh st -> Forall clean_seg p ->
  dirGet clock (cache st) (key p) =
    match dirCache (cache st) !! key p with
    | Some e => (tick (cache st), Some (eData e))
    | None => (cache st, None)
    end.
Proof.
  intros C Hp. unfold dirGet, KGet. destruct (dirCache (cache st) !! key p) as [e|] eqn:He; [|done].
  destruct (coh_entry _ _ _ _ _ _ _ C p e Hp He) as [_ _ (t & Ht & Hh)].
  unfold Expired. rewrite Ht. unfold now. pose proof (Hclock (ticks (cache st))).
  replace (t <? clock (ticks (cache st))) with false by (symmetry; apply Z.ltb_ge; lia). simpl.
  by destruct (cache st).
Qed.

(** A state whose own listings are those of a coherent one, or good. *)
Lemma Coh_same st st' :
  Coh st -> ro (remote st) (remote st') ->
  (forall p, Forall clean_seg p -> cachedAt st' p <-> cachedAt st p) ->
  (forall p e, Forall clean_seg p -> dirCache (cache st') !! key p = Some e -> entryOK (remote st') p e) ->
  Coh st'.
Proof.
  intros [C1 C2 C3 C4] Hro Hc He. split.
  - apply Hro.
  - done.
  - intros p n Hpn. rewrite !Hc by (done || by apply Forall_app in Hpn as []). by apply C3.
  - intros p Hn Hp. rewrite Hc by done. by apply C4.
Qed.

Lemma Coh_remote st s' : Coh st -> ro (remote st) s' -> Coh (mkFs (cache st) s').
Proof.
  intros C Hro. apply (Coh_same st); [done|done|done|]. intros p e Hp He.
  eapply entryOK_ro; [done|]. by eapply coh_entry.
Qed.

Lemma reads_remote st s' : Coh st -> ro (remote st) s' -> reads st (mkFs (cache st) s').
Proof. intros C Hro. split; [by apply Coh_remote|done|done]. Qed.

Lemma grows_cache st s' P : grows P st (mkFs (cache st) s').
Proof. intros q. auto. Qed.

(** Reading the clock or a link matters to nothing. *)
Lemma Coh_dirs st c' : Coh st -> dirCache c' = dirCache (cache st) -> Coh (mkFs c' (remote st)).
Proof.
  intros C H. apply (Coh_same st); [done|by apply ro_refl, C| |].
  - intros p _. unfold cachedAt. simpl. by rewrite H.
  - simpl. rewrite H. intros p e. apply C.
Qed.

Lemma cachedAt_dirs c1 c2 s1 s2 p : dirCache c1 = dirCache c2 -> cachedAt (mkFs c1 s1) p <-> cachedAt (mkFs c2 s2) p.
Proof. intros H. unfold cachedAt. simpl. by rewrite H. Qed.

Lemma GetSortedObjects_spec s p e :
  entryOK s p e ->
  let r := GetSortedObjects sortSlice naturalLess cfg (eData e) in
  goodList s p r.2 /\ entryOK s p (mkEntry r.1 (eExpiry e)).
Proof.
  intros [G S X]. unfold GetSortedObjects. destruct (dirtyFlags (eData e) =? 0) eqn:Hd; simpl.
  - apply Z.eqb_eq in Hd. split; [eapply goodList_perm; [symmetry; by apply S|done]|]. split; [done|done|done].
  - assert (Hs : (if negb (Z.land (dirtyFlags (eData e)) dirtyUpdate =? 0)
                  then sortListing sortSlice naturalLess cfg (objs (eData e)) else objs (eData e)) ≡ₚ objs (eData e))
      by (destruct (negb _); [apply sortListing_perm|done]).
    split; [by eapply goodList_perm|]. split; [done|done|done].
Qed.

Lemma cachedObjs_runs st p :
  Coh st -> Forall clean_seg p ->
  runs (cachedObjs d sortSlice naturalLess clock (key p) : M (E:=E) _) st (fun st' r =>
    reads st st' /\ (forall q, cachedAt st' q <-> cachedAt st q) /\ remote st' = remote st /\
    ((exists l, r = Ok (Some l) /\ cachedAt st p /\ goodList (remote st) p l) \/
     r = Ok None /\ ~ cachedAt st p)).
Proof.
  intros C Hp. unfold runs, cachedObjs, onCache. rewrite dirGet_cached by done.
  destruct (dirCache (cache st) !! key p) as [e|] eqn:He; simpl.
  - destruct (GetSortedObjects_spec (remote st) p e) as [Hg Hok]; [by eapply coh_entry|].
    set (r := GetSortedObjects _ _ _ _) in *.
    set (c' := alterDir _ (tick (cache st)) (key p)).
    assert (Hl : forall q, Forall clean_seg q -> dirCache c' !! key q =
      if decide (q = p) then Some (mkEntry r.1 (eExpiry e)) else dirCache (cache st) !! key q).
    { intros q Hq. simpl. destruct (decide (q = p)) as [->|Hne]; [by rewrite lookup_alter_eq, He|].
      rewrite lookup_alter_ne; [done|]. intros H%keyOf_inj; [done|done..]. }
    assert (Hc : forall q, cachedAt (mkFs c' (remote st)) q <-> cachedAt st q).
    { intros q. unfold cachedAt. simpl. destruct (decide (key q = key p)) as [->|Hne].
      - rewrite lookup_alter_eq, He. simpl. split; eauto.
      - by rewrite lookup_alter_ne. }
    split_and!; [|done|done|left; exists r.2; split_and!; [done|by exists e|done]].
    split; [|apply ro_refl, C|intros q n b _; by rewrite Hc].
    apply (Coh_same st); [done|apply ro_refl, C|done|]. intros q e' Hq. rewrite Hl by done.
    destruct (decide (q = p)) as [->|Hne]; [by intros [= <-]|by apply C].
  - assert (mkFs (cache st) (remote st) = st) as -> by (by destruct st).
    split_and!; [by apply reads_refl|done|done|right; split; [done|]]. unfold cachedAt. rewrite He. by intros [].
Qed.

(** *** Deleting a tree of listings *)
Lemma childKey_reach st :
  Coh st -> forall k k', rtc (childKey (dirCache (cache st))) k k' ->
  forall p, Forall clean_seg p -> k = key p -> exists s, Forall clean_seg (p ++ s) /\ k' = key (p ++ s).
Proof.
  intros C k k'. induction 1 as [k|k k1 k' (e & o & He & Ho & Hd & ->) _ IH]; intros p Hp ->.
  { exists []. by rewrite app_nil_r. }
  destruct (coh_entry _ _ _ _ _ _ _ C _ _ Hp He) as [[_ _ Hobjs _] _ _].
  assert (tree (remote st) !! (p ++ [GetName o]) = Some true) as Ht by (apply Hobjs; eauto).
  destruct (wf_seg _ (Coh_wf _ C) _ _ _ Ht) as [_ Hn].
  destruct (IH (p ++ [GetName o])) as (s & Hs & ->).
  - apply Forall_app. by split; [|constructor].
  - by apply join_keyOf.
  - exists (GetName o :: s). by rewrite <- (assoc_L (++)) in *.
Qed.

Lemma deleteTree_below st p :
  Coh st -> Forall clean_seg p ->
  let c' := deleteDirectoryTree (cache st) (key p) in
  (forall s, Forall clean_seg (p ++ s) -> dirCache c' !! key (p ++ s) = None) /\
  (forall q, Forall clean_seg q -> ~ p `prefix_of` q -> dirCache c' !! key q = dirCache (cache st) !! key q) /\
  dirCache c' ⊆ dirCache (cache st).
Proof.
  intros C Hp c'. destruct (deleteDirectoryTree_closed (cache st) (key p)) as ([D1 _ _ D4] & K & B).
  fold c' in D1, D4, K, B. split_and!; [| |done].
  - induction s as [|n s IH] using rev_ind; [by rewrite app_nil_r|]. rewrite (assoc_L (++)). intros Hs.
    destruct (dirCache (cache st) !! key ((p ++ s) ++ [n])) as [e1|] eqn:E1; [|by eapply lookup_weaken_None].
    assert (Hps : Forall clean_seg (p ++ s) /\ clean_seg n)
      by (apply Forall_app in Hs as [? [? _]%Forall_cons]; done).
    destruct Hps as [Hps Hn]. specialize (IH Hps).
    destruct (coh_conn _ _ _ _ _ _ _ C (p ++ s) n Hs) as [e He]; [by eexists|].
    destruct (coh_entry _ _ _ _ _ _ _ C _ _ Hps He) as [[_ _ Hobjs _] _ _].
    destruct (coh_entry _ _ _ _ _ _ _ C _ _ Hs E1) as [[Hd _ _ _] _ _].
    destruct Hd as [Hd|Hd]; [by destruct (p ++ s)|].
    apply Hobjs in Hd as (o & Ho & <- & Hdir).
    pose proof (D4 _ _ o He IH Ho) as Hg. unfold gone in Hg. rewrite Hdir in Hg.
    by rewrite join_keyOf in Hg.
  - intros q Hq Hnp. destruct (dirCache (cache st) !! key q) as [e|] eqn:He; [|by eapply lookup_weaken_None].
    destruct (dirCache c' !! key q) as [e'|] eqn:He'.
    { pose proof (lookup_weaken _ _ _ _ He' D1). congruence. }
    exfalso. destruct (B (key q)) as (k0 & <- & Hr); [by eexists|done|].
    destruct (childKey_reach st C _ _ Hr p Hp eq_refl) as (s & Hs & Hk).
    apply keyOf_inj in Hk as ->; [|done..]. apply Hnp. by apply prefix_app_r.
Qed.

Lemma deleteTree_Coh st p :
  Coh st -> Forall clean_seg p -> Coh (mkFs (deleteDirectoryTree (cache st) (key p)) (remote st)).
Proof.
  intros C Hp. destruct (deleteTree_below st p C Hp) as (D1 & D2 & D3).
  set (c' := deleteDirectoryTree _ _) in *. split.
  - apply C.
  - intros q e Hq He. eapply C; [done|]. by eapply lookup_weaken.
  - intros q n Hqn [e He]. simpl in He. assert (Hq : Forall clean_seg q) by (by apply Forall_app in Hqn as []).
    assert (Hnp : ~ p `prefix_of` q ++ [n]) by (intros [s Hs]; rewrite Hs, D1 in He; [done|by rewrite <- Hs]).
    unfold cachedAt. simpl. rewrite D2; [|done|].
    + eapply C; [done|]. eexists. by eapply lookup_weaken.
    + intros Hpq. apply Hnp. by apply prefix_app_r.
  - intros q Hn Hq [e He]. eapply C; [done..|]. eexists. by eapply lookup_weaken.
Qed.

Lemma set_Coh st p l ttl :
  Coh st -> NoCache cfg = false -> goodList (remote st) p l ->
  (forall q n, p = q ++ [n] -> cachedAt st q) ->
  (forall n, horizon <= clock n + ttl) ->
  let st' := mkFs (dirSetWithTTL clock (cache st) (key p) (newDirectoryCache l) ttl) (remote st) in
  Coh st' /\ cachedAt st' p /\ forall q, Forall clean_seg q -> cachedAt st' q <-> q = p \/ cachedAt st q.
Proof.
  intros C Hnc G Hpar Ht st'.
  assert (Hp : Forall clean_seg p) by (eapply isDirAt_clean; [by apply Coh_wf|apply G]).
  assert (Hl : forall q, Forall clean_seg q -> dirCache (cache st') !! key q =
    if decide (q = p) then Some (mkEntry (newDirectoryCache l) (ExpirationTime (now clock (cache st) + ttl)))
    else dirCache (cache st) !! key q).
  { intros q Hq. simpl. unfold SetWithTTL, SetWithExpirable. destruct (decide (q = p)) as [->|Hne]; [by rewrite lookup_insert_eq|].
    rewrite lookup_insert_ne; [done|]. intros H%keyOf_inj; [done|done..]. }
  assert (Hc : forall q, Forall clean_seg q -> cachedAt st' q <-> q = p \/ cachedAt st q).
  { intros q Hq. unfold cachedAt. rewrite Hl by done. destruct (decide (q = p)); naive_solver. }
  split_and!; [|by apply Hc; auto|done]. split.
  - apply C.
  - intros q e Hq. rewrite Hl by done. destruct (decide (q = p)) as [->|Hne]; [|by apply C].
    intros [= <-]. split; [done|done|]. eexists. split; [done|apply Ht].
  - intros q n Hqn. assert (Hq : Forall clean_seg q) by (by apply Forall_app in Hqn as []).
    rewrite !Hc by done. intros [Heq|Hqc]; right; [by eapply Hpar|by eapply C].
  - intros q Hn. congruence.
Qed.

(** ** Get and list *)
Definition noTemp (l : list Obj) : Prop := forall o, o ∈ l -> ObjHasMask o Temp = false.

(** [f] is the object at [p]. *)
Record objAt (s : R) (p : fpath) (f : Obj) : Prop := {
  oa_handle : p = [] \/ ObjHasMask f Temp = false -> denotes s (UnwrapObjName f) p;
  oa_root : p = [] -> IsDir f = true;
  oa_tree q n : p = q ++ [n] -> tree s !! p = Some (IsDir f) /\ GetName f = n
}.

Definition exists_at (t : ftree) (p : fpath) : Prop := p = [] \/ is_Some (t !! p).

Abbreviation reliable := (reliable d dinv tree denotes).

Record listPost (k : nat) (path : gostr) (v : list Obj -> option (op_error E)) (st st' : state)
    (r : res (op_error E) (list Obj)) : Prop := {
  lp_reads : reads st st';
  lp_grows : grows (fun q => q `prefix_of` norm_segs path) st st';
  lp_ok l : r = Ok l -> goodList (remote st') (norm_segs path) l /\ v l = None /\
    (NoCache cfg = false -> l <> [] -> cachedAt st' (norm_segs path));
  lp_err e : r = Err e -> (exists l, v l = Some e) \/ (cachedAt st' (norm_segs path) -> cachedAt st (norm_segs path));
  lp_total : (length (norm_segs path) < k)%nat -> reliable -> isDirAt (tree (remote st)) (norm_segs path) ->
    exists l, goodList (remote st') (norm_segs path) l /\ (v l = None \/ noTemp l) /\
      r = match v l with Some e => Err e | None => Ok l end
}.

Record getPost (k : nat) (path : gostr) (excl : bool) (st st' : state) (r : res (op_error E) Obj) : Prop := {
  gp_reads : reads st st';
  gp_grows : grows (fun q => q <> norm_segs path /\ q `prefix_of` norm_segs path) st st';
  gp_ok f : r = Ok f -> objAt (remote st') (norm_segs path) f /\
    (excl = true -> norm_segs path = [] \/ ObjHasMask f Temp = false) /\
    forall q n, norm_segs path = q ++ [n] -> NoCache cfg = false -> cachedAt st' q;
  gp_missing : r = Err ObjectNotFound -> norm_segs path <> [] /\ (excl = false ->
    forall q n, norm_segs path = q ++ [n] -> cachedAt st' q -> tree (remote st') !! norm_segs path = None);
  gp_total : (length (norm_segs path) <= k)%nat -> reliable -> exists_at (tree (remote st)) (norm_segs path) ->
    exists f, r = Ok f;
  gp_absent : (length (norm_segs path) <= k)%nat -> reliable -> ~ exists_at (tree (remote st)) (norm_segs path) ->
    r = Err ObjectNotFound
}.

Definition listSpec (k : nat) (listf : listFn (R:=R) (E:=E)) : Prop := forall path args v st,
  Coh st -> runs (listf path args v) st (listPost k path v st).

Definition getSpec (k : nat) (getf : getFn (R:=R) (E:=E)) : Prop := forall path excl st,
  Coh st -> runs (getf path excl) st (getPost k path excl st).

Lemma goodList_found s q l n f : goodList s q l -> findName n l = Some f -> objAt s (q ++ [n]) f.
Proof.
  intros G [Hf <-]%findName_Some. split.
  - intros [H|H]; [by destruct q|]. by apply G.
  - by destruct q.
  - intros q' n' [-> <-]%app_inj_tail. split; [|done]. apply G. by exists f.
Qed.

Lemma goodList_missing s q l n : goodList s q l -> findName n l = None -> tree s !! (q ++ [n]) = None.
Proof.
  intros G Hn. destruct (tree s !! (q ++ [n])) as [b|] eqn:Hb; [|done].
  apply G in Hb as (o & Ho & Heq & _). by destruct (findName_None _ _ Hn o Ho).
Qed.

(** Posts compose with reads that come first. *)
Lemma getPost_after k path excl st st1 st' r :
  reads st st1 -> grows (fun q => q <> norm_segs path /\ q `prefix_of` norm_segs path) st st1 ->
  getPost k path excl st1 st' r -> getPost k path excl st st' r.
Proof.
  intros H1 G1 [A B C D F G]. pose proof (ro_tree _ _ _ _ _ (rd_ro _ _ _ _ _ _ _ _ H1)) as Ht. split.
  - by eapply reads_trans.
  - by eapply grows_trans.
  - done.
  - done.
  - by rewrite <- Ht.
  - by rewrite <- Ht.
Qed.

Lemma listPost_after k path v st st1 st' r :
  reads st st1 -> grows (fun q => q <> norm_segs path /\ q `prefix_of` norm_segs path) st st1 ->
  listPost k path v st1 st' r -> listPost k path v st st' r.
Proof.
  intros H1 G1 [A B C D F]. pose proof (ro_tree _ _ _ _ _ (rd_ro _ _ _ _ _ _ _ _ H1)) as Ht. split.
  - by eapply reads_trans.
  - eapply grows_trans; [|exact B]. eapply grows_weaken; [|exact G1]. by intros q [].
  - done.
  - intros e He. destruct (D e He) as [?|Hc]; [by left|right]. intros H%Hc.
    destruct (G1 (norm_segs path)) as [?|[? _]]; [apply norm_segs_clean|done..].
  - by rewrite <- Ht.
Qed.

Section Get.
Context (k : nat) (listf : listFn (R:=R) (E:=E)) (Hlist : listSpec k listf).

Lemma getListed_runs path q n excl refresh st :
  norm_segs path = q ++ [n] -> Coh st -> (refresh = true -> excl = true) ->
  (refresh = false -> ~ cachedAt st q) ->
  runs (getListed listf (slashed q) n excl refresh) st (getPost k path excl st).
Proof.
  intros Hp C Hr1 Hr2.
  assert (Hq : Forall clean_seg q) by (pose proof (norm_segs_clean path) as H; rewrite Hp in H; by apply Forall_app in H as []).
  unfold getListed. apply runs_bind, runs_try. eapply runs_mono; [by apply Hlist|].
  intros st' r [A B Ok_ Err_ T]. rewrite norm_segs_slashed in B, Ok_, Err_, T by done. simpl.
  assert (Hg : grows (fun q' => q' <> norm_segs path /\ q' `prefix_of` norm_segs path) st st').
  { eapply grows_weaken; [|exact B]. simpl. rewrite Hp. intros q' Hq'. split; [|by apply prefix_app_r].
    intros ->. destruct Hq' as [s Hs]. apply (f_equal length) in Hs. rewrite !length_app in Hs. simpl in Hs. lia. }
  rewrite Hp in Hg. pose proof (ro_tree _ _ _ _ _ (rd_ro _ _ _ _ _ _ _ _ A)) as Ht.
  assert (Hdir : exists_at (tree (remote st)) (q ++ [n]) -> isDirAt (tree (remote st)) q).
  { intros [H|[b H]]; [by destruct q|]. eapply wf_parent; [by apply Coh_wf|done]. }
  assert (Htot : (length (q ++ [n]) <= k)%nat -> reliable -> isDirAt (tree (remote st)) q ->
    exists l, goodList (remote st') q l /\ r = Ok l).
  { intros Hk Hrel Hd. rewrite length_app in Hk. simpl in Hk.
    destruct (T ltac:(lia) Hrel Hd) as (l & G & Hv & ->). exists l. split; [done|].
    destruct Hv as [->|Hv]; [done|]. unfold getValidator.
    destruct (findName n l) as [f|] eqn:Hf; [|done]. apply findName_Some in Hf as [Hf _].
    unfold excluded. by rewrite Hv, andb_false_r. }
  destruct r as [l|e].
  - destruct (Ok_ l eq_refl) as (G & Hv & Hc). unfold getValidator in Hv.
    destruct (findName n l) as [f|] eqn:Hf; unfold runs; simpl; split; rewrite ?Hp; try done.
    + intros f' [= <-]. split_and!; [by eapply goodList_found| |].
      * intros ->. right. unfold excluded in Hv. destruct (ObjHasMask f Temp); [done|done].
      * intros q' n' [-> ->]%app_inj_tail Hn. apply Hc; [done|]. intros ->. done.
    + by exists f.
    + intros Hk Hrel Hx. exfalso. apply Hx. right. rewrite <- Ht.
      destruct (oa_tree _ _ _ (goodList_found _ _ _ _ _ G Hf) q n eq_refl) as [-> _]. by eexists.
    + intros _. split; [by destruct q|]. intros _ q' n' [-> ->]%app_inj_tail _. by eapply goodList_missing.
    + intros _ _ [H|[b H]]; [by destruct q|]. rewrite <- Ht in H.
      rewrite (goodList_missing _ _ _ _ G Hf) in H. done.
  - unfold runs; simpl; split; rewrite ?Hp; try done.
    + intros _. split; [by destruct q|]. intros Hx q' n' [-> ->]%app_inj_tail Hc. destruct (Err_ e eq_refl) as [[l Hl]|Hn].
      * unfold getValidator in Hl. destruct (findName n' l); [|done]. unfold excluded in Hl. by rewrite Hx in Hl.
      * destruct refresh; [by rewrite Hr1 in Hx|]. by destruct Hr2; [|apply Hn].
    + intros Hk Hrel Hx. destruct (Htot Hk Hrel (Hdir Hx)) as (l & _ & ?). done.
Qed.

Lemma getRoot_cache st : cache (getRoot (E:=E) d st).1 = cache st.
Proof.
  unfold getRoot, mbind, M_bind, call, ofRes. destruct (dRoot d); try done. by destruct (f (remote st)).
Qed.

Lemma getRoot_runs path excl st :
  norm_segs path = [] -> Coh st -> CheckStatus cfg && negb (seqb (cStatus cfg) WORK) = false ->
  runs (getRoot d) st (getPost k path excl st).
Proof.
  intros Hp C Hready. unfold runs.
  pose proof (law_root d charMap dinv tree denotes (cache st) (remote st) (coh_inv _ _ _ _ _ _ _ C)) as Hl.
  pose proof (fun H => rel_root d dinv tree denotes H (cache st) (remote st) (coh_inv _ _ _ _ _ _ _ C)) as Hr.
  assert (mkFs (cache st) (remote st) = st) as Hst by (by destruct st). rewrite Hst in Hl, Hr.
  pose proof (getRoot_cache st) as Hc.
  destruct (getRoot d st) as [st' r]. simpl in *. destruct Hl as (Hro & Hnf & Hok).
  assert (st' = mkFs (cache st) (remote st')) as Hst' by (destruct st'; simpl in *; by subst).
  rewrite Hst'. split; rewrite ?Hp; simpl.
  - by apply reads_remote.
  - apply grows_cache.
  - intros f ->. destruct (Hok f eq_refl) as [Hd Hi]. split_and!; [|by left|by intros []].
    split; [done|done|by intros []].
  - done.
  - auto.
  - intros _ _ []. by left.
Qed.

Lemma getWith_spec : getSpec k (getF listf).
Proof.
  intros path excl st C. unfold getWith. apply runs_bind. unfold checkStatus.
  destruct (CheckStatus cfg && negb (seqb (cStatus cfg) WORK)) eqn:Hready.
  { unfold runs, fail. simpl. split; try done.
    - by apply reads_refl.
    - apply grows_refl.
    - intros _ Hrel. rewrite (rel_ready _ _ _ _ Hrel) in Hready. done.
    - intros _ Hrel. rewrite (rel_ready _ _ _ _ Hrel) in Hready. done. }
  unfold runs at 1. simpl. rewrite fixAndCleanPath_mkpath, mkpath_root by apply norm_segs_good.
  destruct (bool_decide_reflect (norm_segs path = [])) as [Hp|Hp]; [by apply getRoot_runs|].
  destruct (list_snoc _ Hp) as (q & n & Heq). pose proof (norm_segs_clean path) as Hcl. rewrite Heq in Hcl.
  apply Forall_app in Hcl as [Hq [Hn _]%Forall_cons].
  rewrite Heq, path_Split_snoc by (apply Hn || by apply clean_good).
  rewrite (Key_slashed cfg ms) by done. apply runs_bind.
  eapply runs_mono; [by apply cachedObjs_runs|]. simpl.
  intros st1 r (Hrd & Hc & Hrem & Hr).
  assert (Hg : grows (fun q => q <> norm_segs path /\ q `prefix_of` norm_segs path) st st1)
    by (intros q' _ H; left; by apply Hc).
  assert (Hd : driverGet d (mkpath (q ++ [n])) = mret None) by (unfold driverGet; by rewrite Hget).
  assert (C1 : Coh st1) by apply Hrd.
  destruct Hr as [(l & -> & Hcached & G)|[-> Hcached]]; simpl.
  2:{ eapply getPost_after; [done|done|]. rewrite Hd. apply runs_bind. simpl. unfold runs at 1. simpl.
      apply getListed_runs; [done|done|done|]. intros _. by rewrite Hc. }
  rewrite <- Hrem in G. destruct (findName n l) as [f|] eqn:Hf; [destruct (excluded excl f) eqn:Hx|].
  - eapply getPost_after; [done|done|]. rewrite Hd. apply runs_bind. unfold runs at 1. simpl.
    apply getListed_runs; [done|done| |done]. intros _. unfold excluded in Hx. by destruct excl.
  - eapply getPost_after; [done|done|]. unfold runs. simpl. split; rewrite ?Heq; try done.
    + by apply reads_refl.
    + apply grows_refl.
    + intros f' [= <-]. split_and!; [by eapply goodList_found| |].
      * intros ->. right. unfold excluded in Hx. by destruct (ObjHasMask f Temp).
      * intros q' n' [-> ->]%app_inj_tail _. by apply Hc.
    + by exists f.
    + intros _ _ Hno. destruct Hno. right.
      destruct (oa_tree _ _ _ (goodList_found _ _ _ _ _ G Hf) q n eq_refl) as [-> _]. by eexists.
  - eapply getPost_after; [done|done|]. rewrite Hd. apply runs_bind. unfold runs. simpl.
    split; rewrite ?Heq; try done.
    + by apply reads_refl.
    + apply grows_refl.
    + intros _. split; [by destruct q|]. intros _ q' n' [-> ->]%app_inj_tail _. by eapply goodList_missing.
    + intros _ _ [H|[b H]]; [by destruct q|]. by rewrite (goodList_missing _ _ _ _ G Hf) in H.
Qed.

End Get.

Lemma wrap_goodList s p l :
  isDirAt (tree s) p -> NoDup (map (shownName charMap) l) ->
  (forall n b, tree s !! (p ++ [n]) = Some b <-> exists x, x ∈ l /\ shownName charMap x = n /\ IsDir x = b) ->
  (forall x, x ∈ l -> denotes s x (p ++ [shownName charMap x]) /\ ObjHasMask x Temp = false) ->
  goodList s p (WrapObjsName charMap l) /\ noTemp (WrapObjsName charMap l).
Proof.
  intros Hd Hn Ho Hh. split; [split|].
  - done.
  - unfold WrapObjsName. rewrite map_map. exact Hn.
  - intros n b. rewrite Ho. unfold WrapObjsName. split.
    + intros (x & Hx & <- & <-). exists (WrapObjName charMap x). split_and!; [by apply list_elem_of_fmap_2|done..].
    + intros (o & (x & -> & Hx)%list_elem_of_fmap & <- & <-). by exists x.
  - intros o (x & -> & Hx)%list_elem_of_fmap _. exact (proj1 (Hh x Hx)).
  - intros o (x & -> & Hx)%list_elem_of_fmap. exact (proj2 (Hh x Hx)).
Qed.

Lemma goodList_nil s p r n b :
  wfTree (tree s) -> goodList s p [] -> tree s !! (r ++ [n]) = Some b -> ~ p `prefix_of` r.
Proof.
  intros W G Hb [s' ->]. destruct (list_snoc (rev (s' ++ [n]))) as (a & m & Ha).
  { rewrite rev_app_distr. done. }
  apply (f_equal (@rev _)) in Ha. rewrite rev_involutive, rev_app_distr in Ha. simpl in Ha.
  rewrite <- (assoc_L (++)), Ha in Hb. change (m :: rev a) with ([m] ++ rev a) in Hb. rewrite (assoc_L (++)) in Hb.
  destruct (tree s !! (p ++ [m])) as [b'|] eqn:Hm.
  - apply G in Hm as (o & Ho & _). by apply elem_of_nil in Ho.
  - rewrite (wf_absent _ W) in Hb; [done|by destruct p|done].
Qed.

(** What list stores: the listing, or nothing below an empty directory. *)
Lemma store_runs p l path st :
  Coh st -> goodList (remote st) p l -> (forall q n, p = q ++ [n] -> NoCache cfg = false -> cachedAt st q) ->
  runs (if NoCache cfg then mret tt
        else match l with
             | _ :: _ => updCache (fun c => dirSetWithTTL clock c (key p) (newDirectoryCache l)
                                              (listTTL d doublestarMatch path))
             | [] => updCache (fun c => deleteDirectoryTree c (key p))
             end : M (E:=E) unit) st
    (fun st' r => r = Ok tt /\ remote st' = remote st /\ reads st st' /\ grows (eq p) st st' /\
       (NoCache cfg = false -> l <> [] -> cachedAt st' p)).
Proof.
  intros C G Hpar. assert (W : wfTree (tree (remote st))) by (by apply Coh_wf).
  assert (Hp : Forall clean_seg p) by (eapply isDirAt_clean; [done|apply G]).
  destruct (NoCache cfg) eqn:Hnc.
  { unfold runs. simpl. split_and!; [done..|by apply reads_refl|apply grows_refl|done]. }
  destruct l as [|o l]; unfold runs, updCache; simpl.
  - split_and!; [done..| | |done].
    + destruct (deleteTree_below st p C Hp) as (_ & D2 & _). split; [by apply deleteTree_Coh|apply ro_refl, C|].
      intros r n b Hb. unfold cachedAt. simpl. rewrite D2; [done| |].
      * by apply (wf_seg _ W) in Hb as [].
      * by eapply goodList_nil.
    + destruct (deleteTree_below st p C Hp) as (_ & _ & D3). intros q _ [e He]. left. exists e. by eapply lookup_weaken.
  - destruct (set_Coh st p (o :: l) (listTTL d doublestarMatch path)) as (C' & Hc & Hq); [done..|by eauto|apply Httl|].
    split_and!; [done..| | |done].
    + split; [done|apply ro_refl, C|]. intros r n b Hb Hr. apply Hq; [|by right].
      by apply (wf_seg _ W) in Hb as [].
    + intros q Hcl H. apply Hq in H; [|done]. naive_solver.
Qed.

Section List.
Context (k : nat) (getf : getFn (R:=R) (E:=E)) (Hgetf : getSpec k getf).

Lemma fetchListing_runs path args st :
  Coh st ->
  runs (fetchListing d sortSlice naturalLess clock charMap doublestarMatch getf (mkpath (norm_segs path)) args) st
    (fun st' r =>
       reads st st' /\ grows (fun q => q `prefix_of` norm_segs path) st st' /\
       (forall l, r = Ok l -> goodList (remote st') (norm_segs path) l /\ noTemp l /\
          (NoCache cfg = false -> l <> [] -> cachedAt st' (norm_segs path))) /\
       (forall e, r = Err e -> cachedAt st' (norm_segs path) -> cachedAt st (norm_segs path)) /\
       ((length (norm_segs path) <= k)%nat -> reliable -> isDirAt (tree (remote st)) (norm_segs path) -> exists l, r = Ok l)).
Proof.
  intros C. unfold fetchListing, unwrapped. apply runs_bind, runs_bind.
  eapply runs_mono; [by apply Hgetf|]. intros st1 r [A B Ok_ _ T _].
  rewrite norm_segs_mkpath in B, Ok_, T by apply norm_segs_clean. set (p := norm_segs path) in *.
  assert (B' : grows (fun q => q `prefix_of` p) st st1) by (eapply grows_weaken; [|exact B]; by intros q []).
  assert (Hun : cachedAt st1 p -> cachedAt st p).
  { intros H. destruct (B p) as [?|[? _]]; [apply norm_segs_clean|done..]. }
  assert (Hex : isDirAt (tree (remote st)) p -> exists_at (tree (remote st)) p)
    by (intros [?|H]; [by left|right; by eexists]).
  destruct r as [f|e].
  2:{ split_and!; [done..| |]; [by intros _ _|]. intros Hk Hrel Hd. by destruct (T Hk Hrel (Hex Hd)). }
  destruct (Ok_ f eq_refl) as ([Hh Hroot Htree] & Ht & Hpar). apply runs_ret. rewrite IsDir_Unwrap.
  assert (Htr : tree (remote st1) = tree (remote st)) by apply A.
  destruct (IsDir f) eqn:Hdir; simpl.
  2:{ apply runs_fail. split_and!; [done..|by intros _ _|]. intros Hk Hrel Hd. exfalso.
      destruct Hd as [Hd|Hd]; [specialize (Hroot Hd); congruence|].
      destruct (list_snoc p) as (q & n & Hq); [intros ->; by apply (wf_clean _ (Coh_wf _ C)) in Hd as []|].
      destruct (Htree q n Hq) as [Hf _]. congruence. }
  assert (Hden : denotes (remote st1) (UnwrapObjName f) p) by (apply Hh, Ht; done).
  pose proof (law_list d charMap dinv tree denotes (remote st1) (UnwrapObjName f) p args (coh_inv _ _ _ _ _ _ _ (rd_coh _ _ _ _ _ _ _ _ A)) Hden) as Hl.
  pose proof (fun H => rel_list d dinv tree denotes H (remote st1) (UnwrapObjName f) p args
                (coh_inv _ _ _ _ _ _ _ (rd_coh _ _ _ _ _ _ _ _ A)) Hden) as Hrl.
  apply runs_bind, runs_call. destruct (dList d (remote st1) (UnwrapObjName f) args) as [s' r].
  destruct Hl as [Hro Hl]. simpl in Hrl. apply runs_bind. unfold ofRes at 1, runs at 1. simpl. assert (A2 : reads st1 (mkFs (cache st1) s')) by (by apply reads_remote; [apply A|]).
  destruct r as [files|e]; simpl.
  2:{ split_and!; [by eapply reads_trans|done|done|by intros _ _|].
      intros Hk Hrel Hd. destruct (Hrl Hrel) as [l ?]; [by rewrite Htr|done]. }
  destruct (Hl files eq_refl) as (Hd & Hnd & Hobj & Hhand).
  set (st2 := mkFs (cache st1) s') in *.
  set (files' := sortListing sortSlice naturalLess cfg (wrapObjsName d charMap files)).
  assert (Hf' : files' ≡ₚ WrapObjsName charMap files).
  { unfold files', wrapObjsName, isGetter. rewrite Hget. apply sortListing_perm. }
  destruct (wrap_goodList s' p files) as [G N].
  { by rewrite (ro_tree _ _ _ _ _ Hro). } { done. } { by rewrite (ro_tree _ _ _ _ _ Hro). } { done. }
  apply (goodList_perm _ _ _ _ _ files') in G; [|done].
  assert (N' : noTemp files') by (intros o; rewrite Hf'; apply N).
  apply runs_bind. eapply runs_mono.
  { rewrite (Key_mkpath cfg ms) by (done || apply norm_segs_clean).
    apply (store_runs p files' (mkpath p) st2); [apply A2|exact G|]. intros q n Hq Hnc. by eapply Hpar. }
  intros st3 r (-> & Hrem & A3 & G3 & Hc). apply runs_ret. split_and!.
  - eapply reads_trans; [exact A|]. by eapply reads_trans.
  - eapply grows_trans; [exact B'|]. eapply grows_weaken; [|exact G3]. by intros q <-.
  - intros l [= <-]. rewrite Hrem. done.
  - done.
  - by exists files'.
Qed.

Lemma listWith_spec : listSpec (S k) (listWith d sortSlice naturalLess clock charMap doublestarMatch getf).
Proof.
  intros path args v st C. unfold listWith. apply runs_bind. unfold checkStatus.
  destruct (CheckStatus cfg && negb (seqb (cStatus cfg) WORK)) eqn:Hready.
  { unfold runs, fail. simpl. split; try done.
    - by apply reads_refl.
    - apply grows_refl.
    - by right.
    - intros _ Hrel. rewrite (rel_ready _ _ _ _ Hrel) in Hready. done. }
  unfold runs at 1. simpl. rewrite fixAndCleanPath_mkpath, (Key_mkpath cfg ms) by (done || apply norm_segs_clean).
  assert (Hfetch : forall st1, Coh st1 ->
    runs (fetchListing d sortSlice naturalLess clock charMap doublestarMatch getf (mkpath (norm_segs path)) args ≫=
          (fun l => match v l with Some e => fail e | None => mret l end)) st1 (listPost (S k) path v st1)).
  { intros st1 C1. apply runs_bind. eapply runs_mono; [by apply fetchListing_runs|].
    intros st' r (A & B & Ok_ & Err_ & T). destruct r as [l|e].
    - destruct (Ok_ l eq_refl) as (G & N & Hc). unfold runs. destruct (v l) as [e|] eqn:Hv; simpl; split; try done.
      + intros e' [= <-]. left. by exists l.
      + intros Hk Hrel Hd. exists l. rewrite Hv. auto.
      + by intros l' [= <-].
      + intros Hk Hrel Hd. exists l. rewrite Hv. auto.
    - unfold runs. simpl. split; try done.
      + intros e' [= <-]. right. by eapply Err_.
      + intros Hk Hrel Hd. destruct (T ltac:(lia) Hrel Hd) as [l ?]. done. }
  apply runs_bind. destruct (Refresh args).
  { unfold runs at 1. simpl. by apply Hfetch. }
  eapply runs_mono; [apply cachedObjs_runs; [done|apply norm_segs_clean]|]. simpl.
  intros st1 r (A & Hc & Hrem & Hr).
  assert (Hg : grows (fun q => q <> norm_segs path /\ q `prefix_of` norm_segs path) st st1)
    by (intros q' _ H; left; by apply Hc).
  destruct Hr as [(l & -> & Hcached & G)|[-> Hcached]]; simpl.
  2:{ eapply listPost_after; [done|done|]. apply Hfetch, A. }
  destruct (v l) as [e|] eqn:Hv.
  { eapply listPost_after; [done|done|]. apply Hfetch, A. }
  rewrite <- Hrem in G. unfold runs. simpl. split; try done.
  - eapply grows_weaken; [|exact Hg]. by intros q [].
  - intros l' [= <-]. split_and!; [done..|]. intros _ _. by apply Hc.
  - intros _ _ _. exists l. rewrite Hv. auto.
Qed.

End List.

Lemma listLoop_runs k : listSpec k (listF k).
Proof.
  induction k as [|k IH].
  - intros path args v st C. unfold runs. simpl. split; try done.
    + by apply reads_refl.
    + apply grows_refl.
    + by right.
    + lia.
  - apply listWith_spec, getWith_spec, IH.
Qed.

Lemma Get_runs path excl st :
  Coh st ->
  runs (Get d sortSlice naturalLess clock charMap doublestarMatch path excl) st (getPost (depth path) path excl st).
Proof. intros C. apply getWith_spec; [|done]. apply listLoop_runs. Qed.

Lemma list_runs path args v st :
  Coh st ->
  runs (list_op d sortSlice naturalLess clock charMap doublestarMatch path args v) st
    (listPost (S (depth path)) path v st).
Proof. intros C. by apply listLoop_runs. Qed.

(** GetUnwrap answers a handle. *)
Lemma GetUnwrap_runs path st :
  Coh st ->
  runs (GetUnwrap d sortSlice naturalLess clock charMap doublestarMatch path) st (fun st' r =>
    reads st st' /\ grows (fun q => q <> norm_segs path /\ q `prefix_of` norm_segs path) st st' /\
    (forall o, r = Ok o -> denotes (remote st') o (norm_segs path) /\
       exists_at (tree (remote st')) (norm_segs path) /\
       (IsDir o = true -> isDirAt (tree (remote st')) (norm_segs path))) /\
    (reliable -> exists_at (tree (remote st)) (norm_segs path) -> exists o, r = Ok o) /\
    (reliable -> ~ exists_at (tree (remote st)) (norm_segs path) -> r = Err ObjectNotFound)).
Proof.
  intros C. unfold GetUnwrap, unwrapped. apply runs_bind. eapply runs_mono; [by apply Get_runs|].
  intros st' r [A B Ok_ _ T N]. unfold depth in *. destruct r as [f|e].
  - apply runs_ret. destruct (Ok_ f eq_refl) as ([Hh Hroot Ht] & Htemp & _). split_and!; [done..| | |].
    + intros o [= <-]. rewrite IsDir_Unwrap. split; [apply Hh, Htemp; done|].
      destruct (decide (norm_segs path = [])) as [Hp|Hp]; [by split; left|].
      destruct (list_snoc _ Hp) as (q & n & Hq). destruct (Ht q n Hq) as [Hf _].
      split; [right; by eexists|intros Hi; right; congruence].
    + by eexists.
    + intros Hrel Hx. by specialize (N ltac:(done) Hrel Hx).
  - split_and!; [done..| |].
    + intros Hrel Hx. by destruct (T ltac:(done) Hrel Hx).
    + intros Hrel Hx. by specialize (N ltac:(done) Hrel Hx) as [= ->].
Qed.

End Read.
