(* ===== verification/OpFsWrite.v ===== *)
(** The changing operations of [OpFs] on a lawful driver keep the invariant and
    do to the tree what they say. *)
From S2P Require Import Prelude GoString GoPath Paths Mounts Storages Objects KeyedCache DirCache OpFs.
From S2P Require Import FsTree OpFsSpec OpFsRead.

Section Write.
Context {R E : Type} (d : Driver R E).
Context (sortSlice : (Obj -> Obj -> bool) -> list Obj -> list Obj) (naturalLess : gostr -> gostr -> bool)
        (clock : nat -> Z) (charMap : charmap) (doublestarMatch : gostr -> gostr -> option bool).
Context (dinv : R -> Prop) (tree : R -> ftree) (denotes : R -> Obj -> fpath -> Prop).
Context (ms : fpath) (horizon : Z).

Abbreviation state := (fs (R:=R)).
Abbreviation cfg := (dConfig d).
Abbreviation key := (keyOf ms).
Abbreviation Coh := (Coh d dinv tree denotes ms horizon).
Abbreviation cachedAt := (cachedAt (R:=R) ms).
Abbreviation goodList := (goodList tree denotes).
Abbreviation entryOK := (entryOK tree denotes horizon).
Abbreviation reads := (reads d dinv tree denotes ms horizon).
Abbreviation grows := (grows (R:=R) ms).
Abbreviation ro := (ro dinv tree denotes).
Abbreviation reliable := (reliable d dinv tree denotes).
Abbreviation mapped := (MappingName charMap).
Abbreviation dirEntry := (CacheEntry unit directoryCache).

Context (Hperm : forall less l, sortSlice less l ≡ₚ l).
Context (Hclock : forall n, clock n <= horizon).
Context (Httl : forall path n, horizon <= clock n + listTTL d doublestarMatch path).
Context (Hms : Forall clean_seg ms) (Hmount : GetActualMountPath (cMountPath cfg) = mkpath ms).
Context (Hget : dGet d = None).
Context (Laws : DriverLaws d charMap dinv tree denotes).

Abbreviation GetF := (Get d sortSlice naturalLess clock charMap doublestarMatch).
Abbreviation GetUnwrapF := (GetUnwrap d sortSlice naturalLess clock charMap doublestarMatch).

Definition Get_ok path excl st (C : Coh st) :=
  Get_runs d sortSlice naturalLess clock charMap doublestarMatch dinv tree denotes ms horizon
    Hperm Hclock Httl Hms Hmount Hget Laws path excl st C.
Definition GetUnwrap_ok path st (C : Coh st) :=
  GetUnwrap_runs d sortSlice naturalLess clock charMap doublestarMatch dinv tree denotes ms horizon
    Hperm Hclock Httl Hms Hmount Hget Laws path st C.

(** ** Entries after a change *)
Lemma entryOK_stable s s' p e :
  entryOK s p e -> isDirAt (tree s') p ->
  (forall n, tree s' !! (p ++ [n]) = tree s !! (p ++ [n])) ->
  (forall o n, is_Some (tree s !! (p ++ [n])) -> denotes s o (p ++ [n]) -> denotes s' o (p ++ [n])) ->
  entryOK s' p e.
Proof.
  intros [[G1 G2 G3 G4] S X] Hd Ht Hh. split; [|done|done]. split; [done|done|intros n b; by rewrite Ht|].
  intros o Ho Hm. apply Hh; [|by apply G4]. exists (IsDir o). apply G3. by exists o.
Qed.

Lemma name_nonempty s p l o : wfTree (tree s) -> goodList s p l -> o ∈ l -> GetName o <> "".
Proof.
  intros W G Ho. assert (tree s !! (p ++ [GetName o]) = Some (IsDir o)) as Ht by (apply G; eauto).
  apply (wf_seg _ W) in Ht as [_ [[Hn _] _]]. exact Hn.
Qed.

(** Putting [new] in place of the object [old] (or adding it). *)
Lemma goodList_update s s' p dc (old : gostr) new :
  wfTree (tree s) -> goodList s p (objs dc) -> isDirAt (tree s') p ->
  (forall m, m <> GetName new -> m <> old -> tree s' !! (p ++ [m]) = tree s !! (p ++ [m])) ->
  tree s' !! (p ++ [GetName new]) = Some (IsDir new) ->
  (old <> GetName new -> tree s' !! (p ++ [old]) = None) ->
  (old = GetName new \/ tree s !! (p ++ [GetName new]) = None) ->
  (forall o m, m <> GetName new -> m <> old -> denotes s o (p ++ [m]) -> denotes s' o (p ++ [m])) ->
  (ObjHasMask new Temp = false -> denotes s' (UnwrapObjName new) (p ++ [GetName new])) ->
  goodList s' p (objs (UpdateObject dc old new)).
Proof.
  intros W G Hd Hsame Hnew Hold Hdup Hh Hhn. pose proof G as [_ G2 G3 G4].
  assert (Hin : forall o, o ∈ objs (UpdateObject dc old new) <-> o = new \/ o ∈ objs dc /\ GetName o <> old).
  { intros o. rewrite UpdateObject_objs by done. split; [|naive_solver].
    intros [?|[Ho [->|?]]]; [by left|right|by right]. split; [done|]. by eapply name_nonempty. }
  assert (Hneq : forall o, o ∈ objs dc -> GetName o = GetName new -> GetName o = old).
  { intros o Ho Hn. destruct Hdup as [->|Hnone]; [done|]. rewrite <- Hn in Hnone.
    assert (tree s !! (p ++ [GetName o]) = Some (IsDir o)) as Ht by (apply G3; eauto). congruence. }
  split; [done| | |].
  - apply UpdateObject_names; [done|]. intros o Ho Hn. split; [|by apply Hneq].
    intros ->. apply (name_nonempty s p (objs dc) o W G Ho). by apply Hneq.
  - intros n b. destruct (decide (n = GetName new)) as [->|Hn].
    + rewrite Hnew. split.
      * intros [= <-]. exists new. split; [apply Hin; by left|done].
      * intros (o & Ho & Heq & <-). apply Hin in Ho as [->|[Ho Hne]]; [done|]. by destruct Hne, (Hneq o).
    + destruct (decide (n = old)) as [->|Hno].
      * rewrite Hold by done. split; [done|]. intros (o & Ho & Heq & _).
        apply Hin in Ho as [->|[Ho Hne]]; congruence.
      * rewrite Hsame, G3 by done. split; intros (o & Ho & Heq & Hb); exists o; (split; [|done]).
        -- apply Hin. right. split; [done|congruence].
        -- apply Hin in Ho as [->|[Ho _]]; [congruence|done].
  - intros o Ho Hm. apply Hin in Ho as [->|[Ho Hne]]; [by apply Hhn|].
    apply Hh; [|done|by apply G4]. intros Heq. apply Hne. by apply Hneq.
Qed.

Lemma goodList_remove s s' p dc n :
  goodList s p (objs dc) -> isDirAt (tree s') p ->
  (forall m, m <> n -> tree s' !! (p ++ [m]) = tree s !! (p ++ [m])) ->
  tree s' !! (p ++ [n]) = None ->
  (forall o m, m <> n -> denotes s o (p ++ [m]) -> denotes s' o (p ++ [m])) ->
  goodList s' p (objs (RemoveObject dc n)).
Proof.
  intros [_ G2 G3 G4] Hd Hsame Hnone Hh. split; [done|by apply RemoveObject_names| |].
  - intros m b. destruct (decide (m = n)) as [->|Hne].
    + rewrite Hnone. split; [done|]. intros (o & Ho & Heq & _). by apply RemoveObject_objs in Ho as [].
    + rewrite Hsame, G3 by done. split; intros (o & Ho & Heq & Hb); exists o; (split; [|done]).
      * apply RemoveObject_objs; [done|]. by rewrite Heq.
      * by apply RemoveObject_objs in Ho as [].
  - intros o [Ho Hne]%RemoveObject_objs Hm; [|done]. by apply Hh; [|apply G4].
Qed.

Lemma entryOK_update s s' p e (old : gostr) new :
  entryOK s p e -> goodList s' p (objs (UpdateObject (eData e) old new)) ->
  entryOK s' p (mkEntry (UpdateObject (eData e) old new) (eExpiry e)).
Proof.
  intros [_ _ X] G. split; [done| |done]. simpl. intros Hf. exfalso. revert Hf. unfold UpdateObject.
  assert (Hl : Z.lor (dirtyFlags (eData e)) dirtyUpdate <> 0) by (intros [_ H]%Z.lor_eq_0_iff; done).
  destruct (seqb old ""); [done|]. by destruct (splitName _ _) as [[[? ?] ?]|].
Qed.

Lemma entryOK_remove s s' p e n :
  entryOK s p e -> goodList s' p (objs (RemoveObject (eData e) n)) ->
  entryOK s' p (mkEntry (RemoveObject (eData e) n) (eExpiry e)).
Proof.
  intros [_ S X] G. split; [done| |done]. simpl. unfold RemoveObject.
  destruct (splitName _ _) as [[[pre x] post]|] eqn:Hs; [|exact S]. simpl.
  intros [_ H]%Z.lor_eq_0_iff. done.
Qed.

(** ** The cache during an operation *)

(** The directory at [p], if cached, has not expired. *)
Definition freshAt (st : state) (p : fpath) : Prop :=
  forall e, dirCache (cache st) !! key p = Some e -> exists t, eExpiry e = ExpirationTime t /\ horizon <= t.

Lemma dirGet_fresh st p :
  freshAt st p ->
  dirGet clock (cache st) (key p) =
    match dirCache (cache st) !! key p with
    | Some e => (tick (cache st), Some (eData e))
    | None => (cache st, None)
    end.
Proof.
  intros F. unfold dirGet, KGet. destruct (dirCache (cache st) !! key p) as [e|] eqn:He; [|done].
  destruct (F e He) as (t & Ht & Hh).
  unfold Expired. rewrite Ht. unfold now. pose proof (Hclock (ticks (cache st))).
  replace (t <? clock (ticks (cache st))) with false by (symmetry; apply Z.ltb_ge; lia). simpl.
  by destruct (cache st).
Qed.

Lemma Coh_fresh st c' p s' :
  Coh st -> Forall clean_seg p -> dirCache c' ⊆ dirCache (cache st) -> freshAt (mkFs c' s') p.
Proof. intros C Hp Hs e He. eapply C; [done|]. by eapply lookup_weaken. Qed.

Definition sameDirs (st st' : state) : Prop :=
  dirCache (cache st') = dirCache (cache st) /\ remote st' = remote st.

(** updateCached: nothing, or the entry with the object replaced. *)
Lemma updateCached_runs st p (mk : M (R:=R) (E:=E) (gostr * Obj)) (Ψ : gostr -> Obj -> Prop) :
  freshAt st p ->
  (forall st1, sameDirs st st1 -> runs mk st1 (fun st2 r => sameDirs st st2 /\ exists old new, r = Ok (old, new) /\ Ψ old new)) ->
  runs (updateCached clock (key p) mk) st (fun st' r =>
    r = Ok tt /\ remote st' = remote st /\
    (dirCache (cache st) !! key p = None /\ dirCache (cache st') = dirCache (cache st) \/
     exists e old new, dirCache (cache st) !! key p = Some e /\ Ψ old new /\
       dirCache (cache st') = <[key p := mkEntry (UpdateObject (eData e) old new) (eExpiry e)]> (dirCache (cache st)))).
Proof.
  intros F Hmk. unfold updateCached. apply runs_bind, runs_onCache. rewrite dirGet_fresh by done.
  destruct (dirCache (cache st) !! key p) as [e|] eqn:He.
  - apply runs_bind. eapply runs_mono; [by apply Hmk|]. intros st2 r ([Hd Hr] & old & new & -> & HΨ).
    apply runs_upd. simpl. split_and!; [done..|]. right. exists e, old, new. split_and!; [done..|].
    rewrite Hd. apply map_eq. intros k. destruct (decide (k = key p)) as [->|Hne].
    + by rewrite lookup_alter_eq, lookup_insert_eq, He.
    + by rewrite lookup_alter_ne, lookup_insert_ne.
  - apply runs_ret. split_and!; [done..|]. by left.
Qed.

Lemma timeNow_same st st1 :
  sameDirs st st1 -> runs (timeNow clock : M (E:=E) _) st1 (fun st2 r => sameDirs st st2 /\ exists t, r = Ok t).
Proof. intros [H1 H2]. apply runs_onCache. split; [done|by eexists]. Qed.

(** A coherent state from what its listings are. *)
Lemma Coh_change st st' :
  Coh st -> dinv (remote st') ->
  (forall p e, Forall clean_seg p -> dirCache (cache st') !! key p = Some e -> entryOK (remote st') p e) ->
  (forall p, Forall clean_seg p -> cachedAt st' p -> cachedAt st p) ->
  (forall p n, Forall clean_seg (p ++ [n]) -> cachedAt st (p ++ [n]) -> cachedAt st' (p ++ [n]) -> cachedAt st p -> cachedAt st' p) ->
  Coh st'.
Proof.
  intros C Hi He Hn Hc. split; [done|done| |].
  - intros p n Hpn H. pose proof (Hn _ Hpn H) as H0. eapply Hc; [done..|]. by eapply C.
  - intros p Hnc Hp H. eapply C; [done..|]. by apply Hn.
Qed.

(** ** Trees: what is below a path *)
Lemma not_below T t p : wfTree T -> t <> [] -> T !! t <> Some true -> isDirAt T p -> ~ t `prefix_of` p.
Proof.
  intros W Ht Hn Hp [s ->]. destruct s as [|x s].
  - rewrite app_nil_r in Hp. by destruct Hp.
  - destruct Hp as [Hp|Hp]; [by destruct t|]. apply (wf_prefix _ W) in Hp; [|done]. by destruct Hp.
Qed.

Lemma child_not_below (t p : fpath) n q m : t = q ++ [m] -> ~ t `prefix_of` p -> t `prefix_of` p ++ [n] -> p = q /\ n = m.
Proof.
  intros -> Hp [s Hs]. destruct s as [|x s _] using rev_ind.
  - rewrite app_nil_r in Hs. by apply app_inj_tail in Hs.
  - rewrite (assoc_L (++)) in Hs. apply app_inj_tail in Hs as [-> _]. exfalso. apply Hp. by exists s.
Qed.

Lemma no_empty_name T p : wfTree T -> T !! (p ++ [[]]) = None.
Proof.
  intros W. destruct (T !! (p ++ [[]])) eqn:H; [|done]. by apply (wf_seg _ W) in H as [_ [[Hn _] _]].
Qed.

Section Change.
Context (st : state) (C : Coh st) (s' : R) (Hi : dinv s').
Abbreviation T := (tree (remote st)).

(** A new object at [q ++ [m]], perhaps with a tree below it. *)
Section Insert.
Context (q : fpath) (m : gostr) (b : bool).
Context (Hq : isDirAt T q) (Hold : T !! (q ++ [m]) <> Some true).
Context (Hsame : forall r, ~ q ++ [m] `prefix_of` r -> tree s' !! r = T !! r).
Context (Hnew : tree s' !! (q ++ [m]) = Some b).
Context (Hhand : forall o r, ~ q ++ [m] `prefix_of` r -> denotes (remote st) o r -> denotes s' o r).

Lemma insert_stable p e : p <> q -> entryOK (remote st) p e -> entryOK s' p e.
Proof.
  intros Hp He. assert (W : wfTree T) by (by eapply Coh_wf).
  assert (Hnp : ~ q ++ [m] `prefix_of` p) by (eapply not_below; [done|by destruct q|done|apply He]).
  assert (Hch : forall n, ~ q ++ [m] `prefix_of` p ++ [n]).
  { intros n H. by destruct (child_not_below _ p n q m eq_refl Hnp H). }
  eapply entryOK_stable; [done| | |].
  - destruct He as [[[->|Hd] _ _ _] _ _]; [by left|right]. by rewrite Hsame.
  - intros n. by apply Hsame.
  - intros o n _. by apply Hhand.
Qed.

Lemma insert_update e (old : gostr) new :
  entryOK (remote st) q e -> GetName new = m -> IsDir new = b ->
  old = m \/ old = "" /\ T !! (q ++ [m]) = None ->
  (ObjHasMask new Temp = false -> denotes s' (UnwrapObjName new) (q ++ [m])) ->
  entryOK s' q (mkEntry (UpdateObject (eData e) old new) (eExpiry e)).
Proof.
  intros He Hm Hb Ho Hd. assert (W : wfTree T) by (by eapply Coh_wf).
  assert (Hq' : forall n, n <> m -> ~ q ++ [m] `prefix_of` q ++ [n]).
  { intros n Hn H. apply child_not_below with (q := q) (m := m) in H as [_ ?]; [done|done|].
    intros [x Hx]. apply (f_equal length) in Hx. rewrite !length_app in Hx. simpl in Hx. lia. }
  eapply entryOK_update; [done|]. eapply goodList_update; [done|apply He|..]; rewrite ?Hm.
  - destruct Hq as [->|Hd']; [by left|right]. rewrite Hsame; [done|].
    intros [x Hx]. apply (f_equal length) in Hx. rewrite !length_app in Hx. simpl in Hx. lia.
  - intros n Hn _. by apply Hsame, Hq'.
  - by rewrite Hnew, Hb.
  - intros Hne. destruct Ho as [?|[-> _]]; [done|]. apply no_empty_name, (wfT d charMap dinv tree denotes Laws), Hi.
  - destruct Ho as [?|[_ ?]]; [by left|by right].
  - intros o n Hn _. apply Hhand. by apply Hq'.
  - done.
Qed.

Lemma insert_Coh c' :
  (~ cachedAt st q /\ dirCache c' = dirCache (cache st) \/
   exists e old new, dirCache (cache st) !! key q = Some e /\
     (GetName new = m /\ IsDir new = b /\ (old = m \/ old = "" /\ T !! (q ++ [m]) = None) /\
      (ObjHasMask new Temp = false -> denotes s' (UnwrapObjName new) (q ++ [m]))) /\
     dirCache c' = <[key q := mkEntry (UpdateObject (eData e) old new) (eExpiry e)]> (dirCache (cache st))) ->
  Coh (mkFs c' s') /\ forall p, cachedAt (mkFs c' s') p -> cachedAt st p.
Proof.
  intros Hc. assert (Hcl : Forall clean_seg q) by (eapply isDirAt_clean; [by eapply Coh_wf|done]).
  assert (Hmono : forall p, cachedAt (mkFs c' s') p <-> cachedAt st p).
  { intros p. unfold cachedAt. simpl. destruct Hc as [[_ ->]|(e & old & new & He & _ & ->)]; [done|].
    destruct (decide (key p = key q)) as [->|Hne]; [by rewrite lookup_insert_eq, He|by rewrite lookup_insert_ne]. }
  split; [|intros p; apply Hmono]. apply (Coh_change st); [done|done| |intros p _; apply Hmono|intros p n _ _ _; apply Hmono].
  simpl. intros p e' Hp He'. destruct Hc as [[Hnc Hc]|(e & old & new & He & (H1 & H2 & H3 & H4) & Hc)]; rewrite Hc in He'.
  - eapply insert_stable; [|by eapply C]. intros ->. apply Hnc. by eexists.
  - destruct (decide (p = q)) as [->|Hne].
    + rewrite lookup_insert_eq in He'. injection He' as <-. eapply insert_update; [by eapply C|done..].
    + rewrite lookup_insert_ne in He' by (intros H%keyOf_inj; [congruence|done..]).
      eapply insert_stable; [done|by eapply C].
Qed.

(** The object the cache gets for the new one. *)
Definition newEntry (old : gostr) (new : Obj) : Prop :=
  GetName new = m /\ IsDir new = b /\ (old = m \/ old = "" /\ T !! (q ++ [m]) = None) /\
  (ObjHasMask new Temp = false -> denotes s' (UnwrapObjName new) (q ++ [m])).

(** The end of an operation that made the object. *)
Lemma finish_insert c' (mk : M (R:=R) (E:=E) (gostr * Obj)) :
  dirCache c' = dirCache (cache st) ->
  (forall st1, sameDirs (mkFs c' s') st1 ->
     runs mk st1 (fun st2 r => sameDirs (mkFs c' s') st2 /\ exists old new, r = Ok (old, new) /\ newEntry old new)) ->
  runs (if NoCache cfg then mret tt else updateCached clock (key q) mk) (mkFs c' s') (fun st' r =>
    r = Ok tt /\ remote st' = s' /\ Coh st' /\ forall p, cachedAt st' p -> cachedAt st p).
Proof.
  intros Hc Hmk. assert (Hcl : Forall clean_seg q) by (eapply isDirAt_clean; [by eapply Coh_wf|done]).
  destruct (NoCache cfg) eqn:Hnc.
  { apply runs_ret. destruct (insert_Coh c') as [HC Hm]; [|done]. left. split; [|done]. by apply C. }
  eapply runs_mono; [apply updateCached_runs with (Ψ := newEntry); [|done]|].
  - eapply Coh_fresh; [exact C|done|by rewrite Hc].
  - intros [c2 s2] r (-> & Hrem & Hd). simpl in *. subst s2. rewrite Hc in Hd.
    destruct (insert_Coh c2) as [HC Hm]; [|done].
    destruct Hd as [[Hn Hd]|Hd]; [left|right; exact Hd]. split; [|done]. unfold OpFsSpec.cachedAt. rewrite Hn. by intros [].
Qed.

End Insert.
End Change.

(** ** MakeDir *)
Lemma wrap_shown o : wrapObjName d charMap o = WrapObjName charMap o.
Proof. unfold wrapObjName, isGetter. by rewrite Hget. Qed.

(** What making [p] may add: directories on the way to it. *)
Definition grown (t t' : ftree) (p : fpath) : Prop :=
  forall q, t' !! q = t !! q \/ q `prefix_of` p /\ t !! q = None /\ t' !! q = Some true.

Lemma grown_refl t p : grown t t p.
Proof. by left. Qed.

Lemma grown_trans t1 t2 t3 p : grown t1 t2 p -> grown t2 t3 p -> grown t1 t3 p.
Proof.
  intros H1 H2 q. destruct (H1 q) as [<-|(Hp & Hn & Ht)]; [apply H2|].
  right. split_and!; [done..|]. destruct (H2 q) as [->|(_ & Hn2 & _)]; congruence.
Qed.

Lemma grown_weaken t t' p n : grown t t' p -> grown t t' (p ++ [n]).
Proof. intros H q. destruct (H q) as [?|[? ?]]; [by left|right]. split; [by apply prefix_app_r|done]. Qed.

Lemma strict_prefix_snoc (q : fpath) n r : (r <> q /\ r `prefix_of` q) \/ r = q -> r <> q ++ [n] /\ r `prefix_of` q ++ [n].
Proof.
  intros Hr. assert (r `prefix_of` q) as Hp by (destruct Hr as [[_ ?]| ->]; done). split; [|by apply prefix_app_r].
  intros ->. destruct Hp as [s Hs]. apply (f_equal length) in Hs. rewrite !length_app in Hs. simpl in Hs. lia.
Qed.

Lemma updateCached_uncached st p mk :
  dirCache (cache st) !! key p = None -> runs (updateCached (R:=R) (E:=E) clock (key p) mk) st (fun st' r => st' = st /\ r = Ok tt).
Proof.
  intros H. unfold updateCached. apply runs_bind, runs_onCache. unfold dirGet. rewrite H. apply runs_ret.
  by destruct st.
Qed.

Lemma makeDirIn_runs q n st :
  Coh st -> Forall clean_seg q -> mapped n = n -> (cachedAt st q -> tree (remote st) !! (q ++ [n]) = None) ->
  runs (makeDirIn d sortSlice naturalLess clock charMap doublestarMatch (slashed q) n) st (fun st' r =>
    Coh st' /\ grows (fun r => r <> q ++ [n] /\ r `prefix_of` q ++ [n]) st st' /\
    match r with
    | Ok _ =>
        isDirAt (tree (remote st)) q /\ tree (remote st) !! (q ++ [n]) = None /\
        tree (remote st') = <[q ++ [n] := true]> (tree (remote st)) \/
        tree (remote st') = tree (remote st) /\ is_Some (tree (remote st) !! (q ++ [n]))
    | Err _ => tree (remote st') = tree (remote st)
    end).
Proof.
  intros C Hq Hn Habs. unfold makeDirIn. apply runs_bind.
  eapply runs_mono; [by apply GetUnwrap_ok|]. rewrite norm_segs_slashed by done.
  intros st1 r (A & G & Ok_ & _ & _).
  pose proof (ro_tree _ _ _ _ _ (rd_ro _ _ _ _ _ _ _ _ A)) as Ht. assert (C1 : Coh st1) by apply A.
  assert (G1 : grows (fun r => r <> q ++ [n] /\ r `prefix_of` q ++ [n]) st st1).
  { eapply grows_weaken; [|exact G]. intros r0 H0. apply strict_prefix_snoc. by left. }
  assert (Hun : cachedAt st1 q -> cachedAt st q) by (intros H; by destruct (G q Hq H) as [?|[? _]]).
  destruct r as [parentDir|e]; [|split_and!; done].
  destruct (Ok_ parentDir eq_refl) as (Hden & _ & Hdir).
  destruct (IsDir parentDir); simpl; [|apply runs_fail; split_and!; done].
  specialize (Hdir eq_refl). destruct (ObjHasMask parentDir NoWrite); [apply runs_fail; split_and!; done|].
  destruct (dMakeDir d) as [mk|] eqn:Hmk; [|apply runs_fail; split_and!; done].
  apply runs_bind, runs_call. simpl.
  pose proof (law_mkdir _ _ _ _ _ mk (remote st1) parentDir q n Hmk (coh_inv _ _ _ _ _ _ _ C1) Hden) as Hl.
  rewrite Hn in Hl. destruct (mk (remote st1) parentDir n) as [s' [newObj err]]. rewrite Key_slashed with (ms := ms) by done.
  apply runs_bind. destruct err as [e|].
  - destruct Hl as [Hro Hex]. assert (C2 : Coh (mkFs (cache st1) s')) by (by eapply Coh_remote).
    assert (Ht2 : tree s' = tree (remote st)) by (rewrite (ro_tree _ _ _ _ _ Hro); done).
    destruct (IsObjectAlreadyExists e); simpl; [|apply runs_fail; split_and!; done].
    specialize (Hex eq_refl). rewrite Ht in Hex. apply runs_ret.
    destruct (NoCache cfg); [apply runs_ret; split_and!; [done..|by right]|].
    eapply runs_mono; [apply updateCached_uncached|intros st' r [-> ->]; split_and!; [done..|by right]].
    simpl. destruct (dirCache (cache st1) !! key q) eqn:Ec; [|done].
    rewrite Habs in Hex by (apply Hun; by eexists). by destruct Hex.
  - destruct Hl as (Hpd & Hnone & Hi & Htree & Hh & Hmade). apply runs_ret.
    assert (Hsame : forall r, ~ q ++ [n] `prefix_of` r -> tree s' !! r = tree (remote st1) !! r).
    { intros r Hr. rewrite Htree, lookup_insert_ne; [done|]. intros <-. by apply Hr. }
    eapply runs_mono; [eapply (finish_insert st1 C1 s' Hi q n true); [done| |exact Hsame| |by auto|done|]|].
    + by rewrite Hnone.
    + by rewrite Htree, lookup_insert_eq.
    + intros st2 H2. destruct newObj as [o|].
      * apply runs_ret. split; [done|]. do 2 eexists. split; [done|]. destruct (Hmade o eq_refl) as (Hs & Hd & Hden').
        rewrite wrap_shown. split_and!; [done|done|by right|done].
      * apply runs_bind. eapply runs_mono; [by apply timeNow_same|]. intros st3 r (H3 & t & ->). apply runs_ret.
        split; [done|]. do 2 eexists. split; [done|]. rewrite wrap_shown. split_and!; [done|done|by right|done].
    + intros st' r (-> & Hrem & C2 & Hm). split_and!; [done| |].
      * intros r Hr Hc. apply G1; [done|]. by apply Hm.
      * left. split_and!; [by rewrite <- Ht|by rewrite <- Ht|]. by rewrite Hrem, Htree, Ht.
Qed.

Definition plain (path : gostr) : Prop := Forall (fun n => mapped n = n) (norm_segs path).

Lemma exists_dir t p : isDirAt t p -> exists_at t p.
Proof. intros [?|H]; [by left|right; by eexists]. Qed.

Lemma objAt_exists s p f : objAt tree denotes s p f -> exists_at (tree s) p /\ (IsDir f = true -> isDirAt (tree s) p).
Proof.
  intros [_ _ Ht]. destruct (decide (p = [])) as [Hp|Hp]; [by split; left|].
  destruct (list_snoc _ Hp) as (q & n & Hq). destruct (Ht q n Hq) as [Hf _].
  split; [right; by eexists|intros Hi; right; congruence].
Qed.

Lemma makeDirLoop_runs k : forall path st,
  Coh st -> plain path ->
  runs (makeDirLoop d sortSlice naturalLess clock charMap doublestarMatch k path) st (fun st' r =>
    Coh st' /\ grows (fun q => q <> norm_segs path /\ q `prefix_of` norm_segs path) st st' /\
    grown (tree (remote st)) (tree (remote st')) (norm_segs path) /\
    forall u, r = Ok u -> exists_at (tree (remote st')) (norm_segs path) /\
                   (reliable -> isDirAt (tree (remote st')) (norm_segs path))).
Proof.
  induction k as [|k IH]; intros path st C Hpl; simpl.
  { apply runs_fail. split_and!; [done|apply grows_refl|apply grown_refl|done]. }
  unfold makeDirWith. apply runs_bind. unfold checkStatus. destruct (CheckStatus cfg && _).
  { apply runs_fail. split_and!; [done|apply grows_refl|apply grown_refl|done]. }
  apply runs_ret. rewrite fixAndCleanPath_mkpath. pose proof (norm_segs_clean path) as Hcl. unfold plain in Hpl.
  set (p := norm_segs path) in *. apply runs_bind, runs_try. eapply runs_mono; [by apply Get_ok|].
  intros st1 r [A G Ok_ Mi T _]. rewrite norm_segs_mkpath in G, Ok_, Mi, T by done.
  assert (Hlen : (length p <= depth (mkpath p))%nat) by (unfold depth; by rewrite norm_segs_mkpath).
  pose proof (ro_tree _ _ _ _ _ (rd_ro _ _ _ _ _ _ _ _ A)) as Ht. assert (C1 : Coh st1) by apply A.
  assert (Hgr : grown (tree (remote st)) (tree (remote st1)) p) by (rewrite Ht; apply grown_refl).
  destruct r as [f|e]; simpl.
  { destruct (Ok_ f eq_refl) as (Hf & _ & _). destruct (objAt_exists _ _ _ Hf) as [Hx Hd].
    destruct (IsDir f); [apply runs_ret|apply runs_fail]; split_and!; try done. intros _ _. split; [done|by intros _; apply Hd]. }
  destruct (IsObjectNotFound e) eqn:He; simpl; [|apply runs_fail; split_and!; done].
  assert (e = ObjectNotFound) as -> by (by destruct e). destruct (Mi eq_refl) as [Hp Habs].
  destruct (list_snoc _ Hp) as (q & n & Hq). specialize (Habs eq_refl q n Hq).
  rewrite Hq in Hcl, Hpl. apply Forall_app in Hcl as [Hcq [Hcn _]%Forall_cons]. apply Forall_app in Hpl as [Hplq [Hpn _]%Forall_cons].
  rewrite Hq, path_Split_snoc by (apply Hcn || by apply clean_good). apply runs_bind.
  eapply runs_mono; [apply IH; [done|]|].
  { unfold plain. by rewrite norm_segs_slashed. }
  rewrite norm_segs_slashed by done. intros st2 r (C2 & G2 & Hgr2 & Hok2).
  assert (G12 : grows (fun r => r <> q ++ [n] /\ r `prefix_of` q ++ [n]) st st2).
  { eapply grows_trans; [rewrite <- Hq; exact G|]. eapply grows_weaken; [|exact G2].
    intros r0 H0. apply strict_prefix_snoc. by left. }
  assert (Hgr12 : grown (tree (remote st)) (tree (remote st2)) (q ++ [n]))
    by (eapply grown_trans; [rewrite <- Hq; exact Hgr|by apply grown_weaken]).
  assert (Hkeep : tree (remote st2) !! (q ++ [n]) = tree (remote st1) !! (q ++ [n])).
  { destruct (Hgr2 (q ++ [n])) as [?|[[x Hx] _]]; [done|]. apply (f_equal length) in Hx.
    rewrite !length_app in Hx. simpl in Hx. lia. }
  destruct r as [u|e].
  2:{ split_and!; [done|exact G12|exact Hgr12|done]. }
  eapply runs_mono; [apply makeDirIn_runs; [done|done|done|]|].
  { intros Hc. rewrite Hkeep. rewrite Hq in Habs. apply Habs. by destruct (G2 q Hcq Hc) as [?|[? _]]. }
  intros st3 r (C3 & G3 & Hr). split_and!; [done|by eapply grows_trans| |].
  - eapply grown_trans; [exact Hgr12|]. destruct r as [u'|e]; [|rewrite Hr; apply grown_refl].
    destruct Hr as [(_ & Hn & ->)|[-> _]]; [|apply grown_refl]. intros r.
    destruct (decide (r = q ++ [n])) as [->|Hne]; [right|left].
    + by rewrite lookup_insert_eq.
    + by rewrite lookup_insert_ne.
  - intros u' ->. destruct Hr as [(_ & Hn & ->)|[-> Hex]].
    + split; [right|intros _; right]; by rewrite lookup_insert_eq.
    + split; [by right|]. intros Hrel. exfalso. rewrite Hkeep in Hex.
      destruct (T Hlen Hrel) as [f ?]; [|done]. right. rewrite Hq, <- Ht. done.
Qed.

(** MakeDir makes the missing directories on the way to its path and nothing else. *)
Lemma MakeDir_runs path st :
  Coh st -> plain path ->
  runs (MakeDir d sortSlice naturalLess clock charMap doublestarMatch path) st (fun st' r =>
    Coh st' /\ grown (tree (remote st)) (tree (remote st')) (norm_segs path) /\
    forall u, r = Ok u -> exists_at (tree (remote st')) (norm_segs path) /\
                   (reliable -> isDirAt (tree (remote st')) (norm_segs path))).
Proof.
  intros C Hp. eapply runs_mono; [by apply makeDirLoop_runs|]. intros st' r (C' & _ & H1 & H2). done.
Qed.

(** ** Taking a subtree away *)
Section Drop.
Context (st : state) (C : Coh st) (s' : R) (Hi : dinv s').
Abbreviation T := (tree (remote st)).
Context (q : fpath) (m : gostr) (b : bool) (Hsrc : T !! (q ++ [m]) = Some b).

(** The listings at and below the subtree are gone, the others are right for
    the new tree. *)
Lemma drop_Coh c' :
  (forall p, Forall clean_seg p -> q ++ [m] `prefix_of` p -> dirCache c' !! key p = None) ->
  (forall p, Forall clean_seg p -> ~ q ++ [m] `prefix_of` p ->
     (dirCache (cache st) !! key p = None -> dirCache c' !! key p = None) /\
     (forall e, dirCache (cache st) !! key p = Some e -> exists e', dirCache c' !! key p = Some e' /\ entryOK s' p e')) ->
  Coh (mkFs c' s').
Proof.
  intros H1 H2. apply (Coh_change st); [done|done|..]; simpl.
  - intros p e Hp He. destruct (decide (q ++ [m] `prefix_of` p)) as [Hx|Hx]; [by rewrite H1 in He|].
    destruct (H2 p Hp Hx) as [Hn Hs]. destruct (dirCache (cache st) !! key p) as [e0|]; [|by rewrite Hn in He].
    destruct (Hs e0 eq_refl) as (e' & He' & Hok). congruence.
  - intros p Hp [e He]. simpl in He. destruct (decide (q ++ [m] `prefix_of` p)) as [Hx|Hx]; [by rewrite H1 in He|].
    destruct (H2 p Hp Hx) as [Hn _]. unfold OpFsSpec.cachedAt. destruct (dirCache (cache st) !! key p); [by eexists|].
    by rewrite Hn in He.
  - intros p n Hpn _ [e He] [e0 He0]. simpl in He. assert (Hp : Forall clean_seg p) by (by apply Forall_app in Hpn as []).
    destruct (decide (q ++ [m] `prefix_of` p)) as [Hx|Hx]; [rewrite H1 in He; [done|done|by apply prefix_app_r]|].
    destruct (H2 p Hp Hx) as [_ Hs]. destruct (Hs e0 He0) as (e' & He' & _). by eexists.
Qed.

(** The listings after deleteDirectoryTree on a directory, or nothing on a file. *)
Lemma drop_dirs c :
  dirCache c = dirCache (cache st) ->
  let c' := if b then deleteDirectoryTree c (key (q ++ [m])) else c in
  (forall p, Forall clean_seg p -> q ++ [m] `prefix_of` p -> dirCache c' !! key p = None) /\
  (forall p, Forall clean_seg p -> ~ q ++ [m] `prefix_of` p -> dirCache c' !! key p = dirCache (cache st) !! key p).
Proof.
  intros Hc. assert (W : wfTree T) by (by eapply Coh_wf).
  assert (Ht : Forall clean_seg (q ++ [m])) by (by apply (wf_clean _ W) in Hsrc as []).
  destruct b; simpl.
  - assert (C1 : Coh (mkFs c (remote st))) by (by eapply Coh_dirs).
    destruct (deleteTree_below d charMap dinv tree denotes ms horizon Hms Laws _ _ C1 Ht) as (D1 & D2 & _). simpl in *.
    split; [intros p Hp [x ->]; by apply D1|]. intros p Hp Hx. rewrite D2, Hc by done. done.
  - split; [|by rewrite Hc]. intros p Hp Hx. rewrite Hc. destruct (dirCache (cache st) !! key p) as [e|] eqn:He; [|done].
    exfalso. revert Hx. eapply not_below; [done|by destruct q|by rewrite Hsrc|]. by eapply C.
Qed.

(** A listing without an entry for the subtree or for its new place. *)
Context (q2 : fpath) (m2 : gostr) (Hdst : q2 ++ [m2] = q ++ [m] \/ T !! (q2 ++ [m2]) = None).
Context (Hsame : forall r, ~ q ++ [m] `prefix_of` r -> ~ q2 ++ [m2] `prefix_of` r -> tree s' !! r = T !! r).
Context (Hhand : forall o r, ~ q ++ [m] `prefix_of` r -> denotes (remote st) o r -> denotes s' o r).

Lemma drop_dir p : ~ q ++ [m] `prefix_of` p -> isDirAt T p -> isDirAt (tree s') p /\ ~ q2 ++ [m2] `prefix_of` p.
Proof.
  intros Hp Hd. assert (~ q2 ++ [m2] `prefix_of` p) as Hp2.
  { destruct Hdst as [->|Hn]; [done|]. eapply not_below; [by eapply Coh_wf|by destruct q2|by rewrite Hn|done]. }
  split; [|done]. destruct Hd as [->|Hd]; [by left|right]. by rewrite Hsame.
Qed.

Lemma drop_stable p e :
  ~ q ++ [m] `prefix_of` p -> p <> q -> p <> q2 -> entryOK (remote st) p e -> entryOK s' p e.
Proof.
  intros Hp H1 H2 He. destruct (drop_dir p Hp) as [Hd Hp2]; [apply He|].
  assert (Hch : forall n, ~ q ++ [m] `prefix_of` p ++ [n] /\ ~ q2 ++ [m2] `prefix_of` p ++ [n]).
  { intros n. split; intros H.
    - by destruct (child_not_below _ p n q m eq_refl Hp H).
    - by destruct (child_not_below _ p n q2 m2 eq_refl Hp2 H). }
  eapply entryOK_stable; [done|done| |].
  - intros n. apply Hsame; apply Hch.
  - intros o n _. apply Hhand, Hch.
Qed.

Lemma self_not_below (r : fpath) n : ~ r ++ [n] `prefix_of` r.
Proof. intros [x Hx]. apply (f_equal length) in Hx. rewrite !length_app in Hx. simpl in Hx. lia. Qed.

Lemma sibling (r : fpath) n n' : n <> n' -> ~ r ++ [n] `prefix_of` r ++ [n'].
Proof. intros Hn H. destruct (child_not_below _ r n' r n eq_refl (self_not_below r n) H). congruence. Qed.

(** The listing that had the object and does not get the new one. *)
Lemma drop_remove e :
  q <> q2 \/ q2 ++ [m2] = q ++ [m] -> tree s' !! (q ++ [m]) = None -> entryOK (remote st) q e ->
  entryOK s' q (mkEntry (RemoveObject (eData e) m) (eExpiry e)).
Proof.
  intros Hq Hnone He. destruct (drop_dir q (self_not_below q m)) as [Hd Hp2]; [apply He|].
  assert (Hch : forall n, n <> m -> ~ q ++ [m] `prefix_of` q ++ [n] /\ ~ q2 ++ [m2] `prefix_of` q ++ [n]).
  { intros n Hn. split; [by apply sibling, not_eq_sym|]. intros H.
    destruct (child_not_below _ q n q2 m2 eq_refl Hp2 H) as [-> ->].
    destruct Hq as [Hq|Hq]; [done|]. by apply app_inj_tail in Hq as [_ ?]. }
  eapply entryOK_remove; [done|]. eapply goodList_remove; [apply He|done| |done|].
  - intros n Hn. apply Hsame; by apply Hch.
  - intros o n Hn. apply Hhand. by apply Hch.
Qed.

(** The listing that gets the new object, in place of [old]. *)
Lemma drop_update e (old : gostr) new :
  (q2 = q /\ old = m \/ q2 <> q /\ old = m2) -> T !! (q2 ++ [m2]) = None -> ~ q ++ [m] `prefix_of` q2 ++ [m2] ->
  tree s' !! (q ++ [m]) = None -> tree s' !! (q2 ++ [m2]) = Some (IsDir new) ->
  GetName new = m2 -> (ObjHasMask new Temp = false -> denotes s' (UnwrapObjName new) (q2 ++ [m2])) ->
  entryOK (remote st) q2 e ->
  entryOK s' q2 (mkEntry (UpdateObject (eData e) old new) (eExpiry e)).
Proof.
  intros Hq Hn2 Hnp Hnone Hnew Hm Hden He.
  assert (Hnp2 : ~ q ++ [m] `prefix_of` q2) by (intros H; apply Hnp; by apply prefix_app_r).
  destruct (drop_dir q2 Hnp2) as [Hd Hp2]; [apply He|].
  assert (Hch : forall n, n <> m2 -> n <> old -> ~ q ++ [m] `prefix_of` q2 ++ [n] /\ ~ q2 ++ [m2] `prefix_of` q2 ++ [n]).
  { intros n H1 H2. split; [|by apply sibling, not_eq_sym]. intros H.
    destruct (child_not_below _ q2 n q m eq_refl Hnp2 H) as [-> ->]. destruct Hq as [[_ ?]|[? _]]; done. }
  eapply entryOK_update; [done|]. eapply goodList_update; [by eapply Coh_wf|apply He|done|..]; rewrite ?Hm.
  - intros n H1 H2. apply Hsame; by apply Hch.
  - done.
  - intros Hne. destruct Hq as [[-> ->]|[_ ->]]; [done|by destruct Hne].
  - by right.
  - intros o n H1 H2. apply Hhand. by apply Hch.
  - done.
Qed.

End Drop.

(** ** Finding the object an operation is about *)
Lemma pathEqual_root p : Forall clean_seg p -> pathEqual (mkpath p) "/" = bool_decide (p = []).
Proof.
  intros Hp. unfold pathEqual. rewrite fix_mkpath by done. change (fixAndCleanPath "/") with ("/" : gostr).
  apply mkpath_root. by apply clean_good.
Qed.

(** Get of a source: the object, its handle and its parent's listing. *)
Lemma Get_src q n st :
  Coh st -> Forall clean_seg (q ++ [n]) ->
  runs (GetF (mkpath (q ++ [n])) true) st (fun st' r =>
    reads st st' /\
    (forall f, r = Ok f -> GetName f = n /\ tree (remote st') !! (q ++ [n]) = Some (IsDir f) /\
       denotes (remote st') (UnwrapObjName f) (q ++ [n]) /\ (NoCache cfg = false -> cachedAt st' q)) /\
    (reliable -> is_Some (tree (remote st) !! (q ++ [n])) -> exists f, r = Ok f) /\
    (reliable -> tree (remote st) !! (q ++ [n]) = None -> r = Err ObjectNotFound)).
Proof.
  intros C Hp. eapply runs_mono; [by apply Get_ok|]. intros st' r [A _ Ok_ _ T N].
  unfold depth in T, N. rewrite norm_segs_mkpath in Ok_, T, N by done. split_and!; [done| | |].
  - intros f ->. destruct (Ok_ f eq_refl) as ([Hh _ Ht] & Htemp & Hc). destruct (Ht q n eq_refl) as [Hf Hn].
    split_and!; [done|done|apply Hh, Htemp; done|by apply (Hc q n)].
  - intros Hrel Hx. apply T; [done|done|by right].
  - intros Hrel Hx. apply N; [done|done|]. intros [H|[b H]]; [by destruct q|congruence].
Qed.

Lemma linkDelete_runs k st : runs (linkDelete (E:=E) k) st (fun st' r => r = Ok tt /\ sameDirs st st').
Proof. by apply runs_upd. Qed.

Lemma callObj_runs f st (Q : state -> res (op_error E) (option Obj) -> Prop) :
  (let '(s, (o, err)) := f (remote st) in
   Q (mkFs (cache st) s) (match err with Some e => Err e | None => Ok o end)) ->
  runs (callObj f) st Q.
Proof.
  intros H. unfold callObj. apply runs_bind, runs_call. destruct (f (remote st)) as [s [o [e|]]]; [by apply runs_fail|by apply runs_ret].
Qed.

Lemma key_dir q n : Forall clean_seg (q ++ [n]) -> Key cfg (path_Dir (mkpath (q ++ [n]))) = key q.
Proof.
  intros H. pose proof H as [Hq [Hn _]%Forall_cons]%Forall_app. rewrite path_Dir_snoc by (apply Hn || by apply clean_good).
  by apply Key_mkpath.
Qed.

Lemma movedObj_entry src newObj s' n b p :
  GetName src = n -> IsDir src = b -> made charMap denotes s' newObj p n b ->
  GetName (movedObj d charMap src newObj) = n /\ IsDir (movedObj d charMap src newObj) = b /\
  (ObjHasMask (movedObj d charMap src newObj) Temp = false -> denotes s' (UnwrapObjName (movedObj d charMap src newObj)) p).
Proof.
  intros Hn Hb Hm. unfold movedObj. destruct newObj as [o|]; [|by split_and!].
  rewrite wrap_shown. destruct (Hm o eq_refl) as (H1 & H2 & H3). done.
Qed.

(** ** Copy *)
Lemma Copy_runs src dst st :
  Coh st -> norm_segs src <> [] ->
  runs (Copy d sortSlice naturalLess clock charMap doublestarMatch src dst) st (fun st' r =>
    Coh st' /\
    match r with
    | Ok _ => exists q n, norm_segs src = q ++ [n] /\ is_Some (tree (remote st) !! (q ++ [n])) /\
        isDirAt (tree (remote st)) (norm_segs dst) /\ tree (remote st) !! (norm_segs dst ++ [n]) = None /\
        tree (remote st') = treeCopy (tree (remote st)) (q ++ [n]) (norm_segs dst ++ [n])
    | Err _ => tree (remote st') = tree (remote st)
    end).
Proof.
  intros C Hsrc. unfold Copy. apply runs_bind. unfold checkStatus. destruct (CheckStatus cfg && _); [by apply runs_fail|].
  apply runs_ret. rewrite !fixAndCleanPath_mkpath. pose proof (norm_segs_clean src) as Hcs. pose proof (norm_segs_clean dst) as Hcd.
  destruct (list_snoc _ Hsrc) as (q & n & Hq). rewrite Hq in *. set (q2 := norm_segs dst) in *.
  destruct (seqb _ _); [by apply runs_fail|].
  apply runs_bind. eapply runs_mono; [by apply Get_src|]. intros st1 r (A1 & Ok1 & _ & _).
  pose proof (ro_tree _ _ _ _ _ (rd_ro _ _ _ _ _ _ _ _ A1)) as Ht1. assert (C1 : Coh st1) by apply A1.
  destruct r as [raw|e]; [|split; done]. destruct (Ok1 raw eq_refl) as (Hname & Hraw & Hden & _).
  apply runs_bind. eapply runs_mono; [by apply GetUnwrap_ok|]. rewrite norm_segs_mkpath by done.
  intros st2 r (A2 & _ & Ok2 & _). pose proof (ro_tree _ _ _ _ _ (rd_ro _ _ _ _ _ _ _ _ A2)) as Ht2.
  assert (C2 : Coh st2) by apply A2. assert (Ht : tree (remote st2) = tree (remote st)) by congruence.
  destruct r as [dd|e]; [|split; done]. destruct (Ok2 dd eq_refl) as (Hdd & _ & _).
  destruct (ObjHasMask dd NoWrite); [apply runs_fail; done|].
  apply (ro_handle _ _ _ _ _ (rd_ro _ _ _ _ _ _ _ _ A2)) in Hden. rewrite <- Ht2 in Hraw.
  apply runs_bind. destruct (dCopy d) as [cp|] eqn:Hcp; [|apply runs_fail; done].
  apply callObj_runs.
  pose proof (law_copy _ _ _ _ _ cp _ _ _ _ _ _ _ Hcp (coh_inv _ _ _ _ _ _ _ C2) Hden Hdd Hraw) as Hl.
  destruct (cp (remote st2) (UnwrapObjName raw) dd) as [s' [newObj err]]. destruct err as [e|].
  { split; [by eapply Coh_remote|]. simpl. rewrite (ro_tree _ _ _ _ _ Hl). done. }
  destruct Hl as (Hd & Hnone & Hi & Htree & Hh & Hmade).
  apply runs_bind.
  assert (Hlink : runs (if IsDir raw then mret tt else linkDelete (E:=E) (path_join2 (Key cfg (mkpath q2)) (GetName raw)))
    (mkFs (cache st2) s') (fun st' r => r = Ok tt /\ sameDirs (mkFs (cache st2) s') st')).
  { destruct (IsDir raw); [by apply runs_ret|apply linkDelete_runs]. }
  eapply runs_mono; [exact Hlink|]. intros [c3 s3] r (-> & [Hc3 Hs3]). simpl in *. subst s3.
  rewrite (Key_mkpath cfg ms) by done. destruct (movedObj_entry raw newObj s' n (IsDir raw) (q2 ++ [n])) as (H1 & H2 & H3); [done..|].
  eapply runs_mono; [eapply (finish_insert st2 C2 s' Hi q2 n (IsDir raw)); [done|by rewrite Hnone| | |by auto|done|]|].
  - intros r Hr. rewrite Htree. by apply treeCopy_other.
  - rewrite Htree. by apply treeCopy_at.
  - intros st4 H4. apply runs_ret. split; [done|]. do 2 eexists. split; [done|]. split_and!; [done|done|by left|done].
  - intros st4 r (-> & Hrem & C4 & _). split; [done|]. exists q, n. rewrite <- Ht, Hrem.
    split_and!; [done|by rewrite Hraw; eexists|done..].
Qed.

Lemma alterDir_lookup (f : directoryCache -> directoryCache) c p q :
  Forall clean_seg p -> Forall clean_seg q ->
  dirCache (alterDir f c (key p)) !! key q =
    if decide (q = p) then (fun e => mkEntry (f (eData e)) (eExpiry e)) <$> dirCache c !! key p
    else dirCache c !! key q.
Proof.
  intros Hp Hq. simpl. destruct (decide (q = p)) as [->|Hne]; [by rewrite lookup_alter_eq|].
  rewrite lookup_alter_ne; [done|]. intros H%keyOf_inj; [congruence|done..].
Qed.

(** ** Remove *)
Lemma Remove_runs path st :
  Coh st ->
  runs (Remove d sortSlice naturalLess clock charMap doublestarMatch path) st (fun st' r =>
    Coh st' /\
    match r with
    | Ok _ => norm_segs path <> [] /\
        ((is_Some (tree (remote st) !! norm_segs path) /\
          tree (remote st') = treeRemove (tree (remote st)) (norm_segs path)) \/
         tree (remote st') = tree (remote st) /\ (reliable -> tree (remote st) !! norm_segs path = None))
    | Err _ => tree (remote st') = tree (remote st)
    end).
Proof.
  intros C. unfold Remove. apply runs_bind. unfold checkStatus. destruct (CheckStatus cfg && _); [by apply runs_fail|].
  apply runs_ret. rewrite fixAndCleanPath_mkpath. pose proof (norm_segs_clean path) as Hcl.
  set (p := norm_segs path) in *. rewrite pathEqual_root by done.
  destruct (bool_decide_reflect (p = [])) as [Hp|Hp]; [by apply runs_fail|].
  destruct (list_snoc _ Hp) as (q & n & Hq). rewrite Hq in *.
  apply runs_bind, runs_try. eapply runs_mono; [by apply Get_src|]. intros st1 r (A1 & Ok1 & T1 & _).
  pose proof (ro_tree _ _ _ _ _ (rd_ro _ _ _ _ _ _ _ _ A1)) as Ht1. assert (C1 : Coh st1) by apply A1.
  destruct r as [raw|e]; simpl.
  2:{ destruct (IsObjectNotFound e) eqn:He; [apply runs_ret|by apply runs_fail]. split_and!; [done|by destruct q|].
      right. split; [done|]. intros Hrel. destruct (tree (remote st) !! (q ++ [n])) eqn:Hx; [|done].
      destruct (T1 Hrel) as [f [=]]. by eexists. }
  destruct (Ok1 raw eq_refl) as (Hname & Hraw & Hden & Hcached).
  destruct (ObjHasMask raw NoRemove); [by apply runs_fail|].
  destruct (dRemove d) as [rm|] eqn:Hrm; [|by apply runs_fail].
  apply runs_bind, runs_call.
  pose proof (law_remove _ _ _ _ _ rm _ _ _ _ Hrm (coh_inv _ _ _ _ _ _ _ C1) Hden Hraw) as Hl.
  destruct (rm (remote st1) (UnwrapObjName raw)) as [s' [e|]].
  { apply runs_fail. split; [by eapply Coh_remote|]. simpl. by rewrite (ro_tree _ _ _ _ _ Hl). }
  destruct Hl as (Hi & Htree & Hh'). pose proof (fun o r H1 H2 => Hh' o r H2 H1) as Hh. clear Hh'. apply runs_upd. simpl.
  split; [|split; [by destruct q|left; split; [rewrite <- Ht1, Hraw; by eexists|by rewrite Htree, Ht1]]].
  assert (W : wfTree (tree (remote st1))) by (by eapply Coh_wf).
  pose proof Hcl as [Hcq [Hcn _]%Forall_cons]%Forall_app.
  unfold removeDirectoryObject. rewrite key_dir by done. rewrite Hname.
  set (c0 := if IsDir raw then cache st1 else _).
  assert (Hc0 : dirCache c0 = dirCache (cache st1)) by (unfold c0; by destruct (IsDir raw)).
  assert (Hsame : forall r, ~ q ++ [n] `prefix_of` r -> ~ q ++ [n] `prefix_of` r -> tree s' !! r = tree (remote st1) !! r)
    by (intros r Hr _; rewrite Htree; by apply treeRemove_other).
  destruct (NoCache cfg) eqn:Hnc.
  { eapply (Coh_change st1); [done|done|..]; simpl; unfold OpFsSpec.cachedAt; simpl; rewrite Hc0.
    - intros r e Hr He. exfalso. eapply C1; [done..|by eexists].
    - done.
    - done. }
  assert (F : freshAt (mkFs c0 s') q) by (eapply Coh_fresh; [exact C1|done|by rewrite Hc0]).
  apply dirGet_fresh in F. simpl in F. rewrite F, Hc0. clear F.
  destruct (Hcached eq_refl) as [e0 He0]. rewrite He0.
  rewrite join_keyOf by done.
  destruct (drop_dirs st1 C1 q n (IsDir raw) Hraw (tick c0)) as [D1 D2]; [done|].
  apply (drop_Coh st1 C1 s' Hi q n).
  - intros r Hr Hx. rewrite alterDir_lookup by done. destruct (decide (r = q)) as [->|Hne]; [|by apply D1].
    by apply self_not_below in Hx.
  - intros r Hr Hx. rewrite alterDir_lookup, (D2 r Hr Hx) by done.
    destruct (decide (r = q)) as [->|Hne].
    + split; [congruence|]. intros e He. rewrite (D2 q Hr Hx), He. simpl. eexists. split; [done|].
      eapply (drop_remove st1 C1 s' q n (IsDir raw) Hraw q n (or_introl eq_refl) Hsame Hh); [by right| |by eapply C1].
      rewrite Htree. apply treeRemove_at.
    + split; [done|]. intros e He. exists e. split; [done|].
      eapply (drop_stable st1 C1 s' q n q n (or_introl eq_refl) Hsame Hh); [done..|by eapply C1].
Qed.

(** ** Rename and Move *)
Lemma runs_dropIf (b : bool) c (s' : R) k :
  runs (if b then updCache (E:=E) (fun c => deleteDirectoryTree c k) else mret tt) (mkFs c s')
    (fun st' r => r = Ok tt /\ st' = mkFs (if b then deleteDirectoryTree c k else c) s').
Proof. by destruct b. Qed.

Lemma runs_links (b : bool) k1 k2 st :
  runs (if b then mret tt else linkDelete (E:=E) k1;; linkDelete k2) st (fun st' r => r = Ok tt /\ sameDirs st st').
Proof. by destruct b. Qed.

(** Without a cache nothing of the storage is cached, whatever happens. *)
Lemma Coh_nocache st c' s' :
  Coh st -> NoCache cfg = true -> dirCache c' = dirCache (cache st) -> dinv s' -> Coh (mkFs c' s').
Proof.
  intros C Hnc Hc Hi. eapply (Coh_change st); [done|done|..]; simpl; unfold OpFsSpec.cachedAt; simpl; rewrite Hc; try done.
  intros r e Hr He. exfalso. eapply C; [done..|by eexists].
Qed.

Lemma Rename_runs src dstName st :
  Coh st ->
  runs (Rename d sortSlice naturalLess clock charMap doublestarMatch src dstName) st (fun st' r =>
    Coh st' /\
    match r with
    | Ok _ => exists q n, norm_segs src = q ++ [n] /\ is_Some (tree (remote st) !! (q ++ [n])) /\
        tree (remote st) !! (q ++ [mapped dstName]) = None /\
        tree (remote st') = treeMove (tree (remote st)) (q ++ [n]) (q ++ [mapped dstName])
    | Err _ => tree (remote st') = tree (remote st)
    end).
Proof.
  intros C. unfold Rename. apply runs_bind. unfold checkStatus. destruct (CheckStatus cfg && _); [by apply runs_fail|].
  apply runs_ret. rewrite fixAndCleanPath_mkpath. pose proof (norm_segs_clean src) as Hcl.
  set (p := norm_segs src) in *. rewrite pathEqual_root by done.
  destruct (bool_decide_reflect (p = [])) as [Hp|Hp]; [by apply runs_fail|].
  destruct (list_snoc _ Hp) as (q & n & Hq). rewrite Hq in *. pose proof Hcl as [Hcq [Hcn _]%Forall_cons]%Forall_app.
  apply runs_bind. eapply runs_mono; [by apply Get_src|]. intros st1 r (A1 & Ok1 & _ & _).
  pose proof (ro_tree _ _ _ _ _ (rd_ro _ _ _ _ _ _ _ _ A1)) as Ht1. assert (C1 : Coh st1) by apply A1.
  destruct r as [raw|e]; [|split; done]. destruct (Ok1 raw eq_refl) as (Hname & Hraw & Hden & Hcached).
  destruct (ObjHasMask raw NoRename); [by apply runs_fail|].
  apply runs_bind. destruct (dRename d) as [rn|] eqn:Hrn; [|by apply runs_fail]. apply callObj_runs.
  pose proof (law_rename _ _ _ _ _ rn _ _ _ _ dstName _ Hrn (coh_inv _ _ _ _ _ _ _ C1) Hden Hraw) as Hl.
  destruct (rn (remote st1) (UnwrapObjName raw) dstName) as [s' [newObj err]]. destruct err as [e|].
  { split; [by eapply Coh_remote|]. simpl. by rewrite (ro_tree _ _ _ _ _ Hl). }
  destruct Hl as (Hnone & Hi & Htree & Hh' & Hmade). pose proof (fun o r H1 H2 => Hh' o r H2 H1) as Hh. clear Hh'.
  set (m := mapped dstName) in *.
  assert (Heff : exists q0 n0, q ++ [n] = q0 ++ [n0] /\ is_Some (tree (remote st) !! (q0 ++ [n0])) /\
     tree (remote st) !! (q0 ++ [m]) = None /\ tree s' = treeMove (tree (remote st)) (q0 ++ [n0]) (q0 ++ [m])).
  { exists q, n. rewrite <- Ht1. split_and!; [done|rewrite Hraw; by eexists|done..]. }
  assert (Hnm : n <> m) by (intros ->; congruence).
  assert (Hsame : forall r, ~ q ++ [n] `prefix_of` r -> ~ q ++ [m] `prefix_of` r -> tree s' !! r = tree (remote st1) !! r)
    by (intros r H1 H2; rewrite Htree; by apply treeMove_other).
  rewrite !key_dir, Hname by done. apply runs_bind. eapply runs_mono; [apply runs_links|].
  intros [c3 s3] r (-> & [Hc3 Hs3]). simpl in *. subst s3.
  destruct (NoCache cfg) eqn:Hnc.
  { apply runs_ret. split; [by eapply (Coh_nocache st1)|done]. }
  apply runs_bind, runs_onCache.
  assert (F : freshAt (mkFs c3 s') q) by (eapply Coh_fresh; [exact C1|done|by rewrite Hc3]).
  apply dirGet_fresh in F. simpl in *. rewrite F, Hc3. clear F.
  destruct (Hcached eq_refl) as [e0 He0]. rewrite He0, join_keyOf by done.
  apply runs_bind. eapply runs_mono; [apply runs_dropIf|]. intros st4 r [-> ->]. apply runs_upd. simpl. split; [|done].
  destruct (drop_dirs st1 C1 q n (IsDir raw) Hraw (tick c3)) as [D1 D2]; [done|].
  rewrite wrap_shown. set (new := WrapObjName charMap _).
  assert (Hnew : GetName new = m /\ IsDir new = IsDir raw /\
    (ObjHasMask new Temp = false -> denotes s' (UnwrapObjName new) (q ++ [m]))).
  { unfold new. destruct newObj as [o|]; simpl.
    - destruct (Hmade o eq_refl) as (H1 & H2 & H3). done.
    - split_and!; [done|by destruct raw|done]. }
  destruct Hnew as (Hn1 & Hn2 & Hn3). apply (drop_Coh st1 C1 s' Hi q n).
  - intros r Hr Hx. rewrite alterDir_lookup by done. destruct (decide (r = q)) as [->|Hne]; [|by apply D1].
    by apply self_not_below in Hx.
  - intros r Hr Hx. rewrite alterDir_lookup, (D2 r Hr Hx) by done. destruct (decide (r = q)) as [->|Hne].
    + split; [congruence|]. intros e He. rewrite (D2 q Hr Hx), He. simpl. eexists. split; [done|].
      assert (Hnp : ~ q ++ [n] `prefix_of` q ++ [m]) by (by apply sibling).
      eapply (drop_update st1 C1 s' q n q m); try done.
      * by right.
      * by left.
      * rewrite Htree. apply treeMove_from.
      * rewrite Htree, Hn2. by apply treeMove_at.
      * by eapply C1.
    + split; [done|]. intros e He. exists e. split; [done|].
      eapply (drop_stable st1 C1 s' q n q m); [by right|done..|by eapply C1].
Qed.

(** The end of Move: the listing of the source forgets the object, the listing
    of the destination gets it. *)
Section MoveEnd.
Context (st : state) (C : Coh st) (s' : R) (Hi : dinv s').
Abbreviation T := (tree (remote st)).
Context (q : fpath) (n : gostr) (q2 : fpath) (raw : Obj) (newObj : option Obj).
Context (Hname : GetName raw = n) (Hraw : T !! (q ++ [n]) = Some (IsDir raw)).
Context (Hq2 : Forall clean_seg q2) (Hneq : q2 <> q) (Hnone : T !! (q2 ++ [n]) = None) (Hnb : ~ q ++ [n] `prefix_of` q2).
Context (Htree : tree s' = treeMove T (q ++ [n]) (q2 ++ [n])).
Context (Hh : forall o r, ~ q ++ [n] `prefix_of` r -> denotes (remote st) o r -> denotes s' o r).
Context (Hmade : made charMap denotes s' newObj (q2 ++ [n]) n (IsDir raw)).
Context (Hcached : cachedAt st q).

Lemma moveEnd_runs c :
  dirCache c = dirCache (cache st) ->
  runs (dc ← onCache (fun c => dirGet clock c (key q));
        match dc with
        | Some _ =>
            (if IsDir raw then updCache (fun c => deleteDirectoryTree c (key (q ++ [n]))) else mret tt);;
            updCache (fun c => alterDir (fun dc => RemoveObject dc n) c (key q))
        | None => mret tt
        end;;
        updateCached (R:=R) (E:=E) clock (key q2) (mret (n, movedObj d charMap raw newObj))) (mkFs c s')
    (fun st' r => Coh st' /\ remote st' = s' /\ r = Ok tt).
Proof.
  intros Hc. assert (W : wfTree T) by (by eapply Coh_wf).
  destruct (wf_seg _ W _ _ _ Hraw) as [Hcq Hcn].
  apply runs_bind, runs_onCache.
  assert (F : freshAt (mkFs c s') q) by (eapply Coh_fresh; [exact C|done|by rewrite Hc]).
  apply dirGet_fresh in F. simpl in *. rewrite F, Hc. clear F. destruct Hcached as [e0 He0]. rewrite He0.
  apply runs_bind, runs_bind. eapply runs_mono; [apply runs_dropIf|]. intros st4 r [-> ->]. apply runs_upd. simpl.
  destruct (drop_dirs st C q n (IsDir raw) Hraw (tick c)) as [D1 D2]; [done|].
  set (c4 := if IsDir raw then deleteDirectoryTree _ _ else _) in *.
  assert (Hl : forall r, Forall clean_seg r -> ~ q ++ [n] `prefix_of` r ->
    dirCache (alterDir (fun dc => RemoveObject dc n) c4 (key q)) !! key r =
      if decide (r = q) then (fun e => mkEntry (RemoveObject (eData e) n) (eExpiry e)) <$> dirCache (cache st) !! key q
      else dirCache (cache st) !! key r).
  { intros r Hr Hx. rewrite alterDir_lookup by done. destruct (decide (r = q)) as [->|]; by rewrite D2. }
  assert (Hself : ~ q ++ [n] `prefix_of` q) by apply self_not_below.
  eapply runs_mono; [apply updateCached_runs with (Ψ := fun old new => old = n /\ new = movedObj d charMap raw newObj)|].
  - intros e. simpl cache. rewrite Hl by done. rewrite decide_False by done. intros He.
    destruct (coh_entry _ _ _ _ _ _ _ C q2 e Hq2 He) as [_ _ X]. exact X.
  - intros st1 H1. apply runs_ret. split; [done|]. eauto.
  - intros [c5 s5] r (-> & Hs5 & Hd). simpl in Hs5, Hd. subst s5. split; [|done].
    destruct (movedObj_entry raw newObj s' n (IsDir raw) (q2 ++ [n]) Hname eq_refl Hmade) as (N1 & N2 & N3).
    assert (Hsame : forall r, ~ q ++ [n] `prefix_of` r -> ~ q2 ++ [n] `prefix_of` r -> tree s' !! r = T !! r)
      by (intros r H1 H2; rewrite Htree; by apply treeMove_other).
    assert (Hnp : ~ q ++ [n] `prefix_of` q2 ++ [n]).
    { intros H. by destruct (child_not_below _ q2 n q n eq_refl Hnb H). }
    assert (Hfrom : tree s' !! (q ++ [n]) = None) by (rewrite Htree; apply treeMove_from).
    assert (Hat : tree s' !! (q2 ++ [n]) = Some (IsDir raw)) by (rewrite Htree; by apply treeMove_at).
    assert (Hl5 : forall r, Forall clean_seg r -> r <> q2 ->
      dirCache c5 !! key r = dirCache (alterDir (fun dc => RemoveObject dc n) c4 (key q)) !! key r).
    { intros r Hr Hne. destruct Hd as [[_ ->]|(e & old & new & _ & _ & ->)]; [done|].
      rewrite lookup_insert_ne; [done|]. intros H%keyOf_inj; [congruence|done..]. }
    apply (drop_Coh st C s' Hi q n).
    + intros r Hr Hx. assert (r <> q2) by (intros ->; done). rewrite Hl5 by done. rewrite alterDir_lookup by done.
      destruct (decide (r = q)) as [->|Hne]; [done|by apply D1].
    + intros r Hr Hx. destruct (decide (r = q2)) as [->|Hne2].
      * specialize (Hl q2 Hr Hx). rewrite decide_False in Hl by done.
        destruct Hd as [[Hn Hd]|(e & old & new & He & [-> ->] & Hd)].
        -- change (dirCache (alterDir (fun dc => RemoveObject dc n) c4 (key q)) !! key q2 = None) in Hn.
           rewrite Hl in Hn. split; [|intros e He; congruence]. intros _.
           change (dirCache c5 = dirCache (alterDir (fun dc => RemoveObject dc n) c4 (key q))) in Hd. rewrite Hd. congruence.
        -- change (dirCache (alterDir (fun dc => RemoveObject dc n) c4 (key q)) !! key q2 = Some e) in He.
           rewrite Hl in He. split; [congruence|]. intros e' He'. assert (e' = e) as -> by congruence.
           eexists. split; [rewrite Hd; apply lookup_insert_eq|].
           eapply (drop_update st C s' q n q2 n); try done.
           ++ by right.
           ++ by right.
           ++ by rewrite N2.
           ++ by eapply C.
      * rewrite Hl5, Hl by done. destruct (decide (r = q)) as [->|Hne].
        -- split; [congruence|]. intros e He. rewrite He. simpl. eexists. split; [done|].
           eapply (drop_remove st C s' q n (IsDir raw) Hraw q2 n); [by right|done|done|left; congruence|done|by eapply C].
        -- split; [done|]. intros e He. exists e. split; [done|].
           eapply (drop_stable st C s' q n q2 n); [by right|done..|by eapply C].
Qed.

End MoveEnd.

Lemma Move_runs src dst st :
  Coh st ->
  runs (Move d sortSlice naturalLess clock charMap doublestarMatch src dst) st (fun st' r =>
    Coh st' /\
    match r with
    | Ok _ => exists q n, norm_segs src = q ++ [n] /\ norm_segs dst <> q /\ is_Some (tree (remote st) !! (q ++ [n])) /\
        isDirAt (tree (remote st)) (norm_segs dst) /\ ~ q ++ [n] `prefix_of` norm_segs dst /\
        tree (remote st) !! (norm_segs dst ++ [n]) = None /\
        tree (remote st') = treeMove (tree (remote st)) (q ++ [n]) (norm_segs dst ++ [n])
    | Err _ => tree (remote st') = tree (remote st)
    end).
Proof.
  intros C. unfold Move. apply runs_bind. unfold checkStatus. destruct (CheckStatus cfg && _); [by apply runs_fail|].
  apply runs_ret. rewrite !fixAndCleanPath_mkpath. pose proof (norm_segs_clean src) as Hcs. pose proof (norm_segs_clean dst) as Hcd.
  set (p := norm_segs src) in *. set (q2 := norm_segs dst) in *. rewrite pathEqual_root by done.
  destruct (bool_decide_reflect (p = [])) as [Hp|Hp]; [by apply runs_fail|].
  destruct (list_snoc _ Hp) as (q & n & Hq). rewrite Hq in *. pose proof Hcs as [Hcq [Hcn _]%Forall_cons]%Forall_app.
  destruct (seqb (mkpath q2) (path_Dir (mkpath (q ++ [n])))) eqn:Hin; [by apply runs_fail|].
  assert (Hneq : q2 <> q).
  { intros ->. apply seqb_false in Hin. apply Hin. by rewrite path_Dir_snoc by (apply Hcn || by apply clean_good). }
  apply runs_bind. eapply runs_mono; [by apply Get_src|]. intros st1 r (A1 & Ok1 & _ & _).
  pose proof (ro_tree _ _ _ _ _ (rd_ro _ _ _ _ _ _ _ _ A1)) as Ht1. assert (C1 : Coh st1) by apply A1.
  destruct r as [raw|e]; [|split; done]. destruct (Ok1 raw eq_refl) as (Hname & Hraw & Hden & Hcached).
  destruct (ObjHasMask raw NoMove); [by apply runs_fail|].
  apply runs_bind. eapply runs_mono; [by apply GetUnwrap_ok|]. rewrite norm_segs_mkpath by done.
  intros st2 r (A2 & _ & Ok2 & _). pose proof (ro_tree _ _ _ _ _ (rd_ro _ _ _ _ _ _ _ _ A2)) as Ht2.
  assert (C2 : Coh st2) by apply A2. assert (Ht : tree (remote st2) = tree (remote st)) by congruence.
  destruct r as [dd|e]; [|split; done]. destruct (Ok2 dd eq_refl) as (Hdd & _ & _).
  destruct (ObjHasMask dd NoWrite); [by apply runs_fail|].
  assert (Hcached2 : NoCache cfg = false -> cachedAt st2 q) by (intros H; eapply (rd_keeps _ _ _ _ _ _ _ _ A2); [exact Hraw|by apply Hcached]).
  apply (ro_handle _ _ _ _ _ (rd_ro _ _ _ _ _ _ _ _ A2)) in Hden. rewrite <- Ht2 in Hraw.
  apply runs_bind. destruct (dMove d) as [mv|] eqn:Hmv; [|by apply runs_fail]. apply callObj_runs.
  pose proof (law_move _ _ _ _ _ mv _ _ _ _ _ _ _ Hmv (coh_inv _ _ _ _ _ _ _ C2) Hden Hdd Hraw) as Hl.
  destruct (mv (remote st2) (UnwrapObjName raw) dd) as [s' [newObj err]]. destruct err as [e|].
  { split; [by eapply Coh_remote|]. simpl. by rewrite (ro_tree _ _ _ _ _ Hl). }
  destruct Hl as (Hd & Hnone & Hnb & Hi & Htree & Hh & Hmade).
  rewrite key_dir, Hname, (Key_mkpath cfg ms) by done. rewrite (join_keyOf ms Hms q n) by done.
  apply runs_bind. eapply runs_mono; [apply runs_links|].
  intros [c3 s3] r (-> & [Hc3 Hs3]). simpl in *. subst s3.
  assert (Heff : exists q0 n0, q ++ [n] = q0 ++ [n0] /\ q2 <> q0 /\ is_Some (tree (remote st) !! (q0 ++ [n0])) /\
     isDirAt (tree (remote st)) q2 /\ ~ q0 ++ [n0] `prefix_of` q2 /\ tree (remote st) !! (q2 ++ [n0]) = None /\
     tree s' = treeMove (tree (remote st)) (q0 ++ [n0]) (q2 ++ [n0])).
  { exists q, n. rewrite <- Ht. split_and!; [done|done|rewrite Hraw; by eexists|done..]. }
  destruct (NoCache cfg) eqn:Hnc.
  { apply runs_ret. split; [by eapply (Coh_nocache st2)|done]. }
  eapply runs_mono; [eapply (moveEnd_runs st2 C2 s' Hi q n q2 raw newObj); try done; [by auto|by apply Hcached2]|].
  intros st4 r (C4 & Hrem & ->). split; [done|]. by rewrite Hrem.
Qed.

(** ** Put *)
Definition same_outside (P : fpath -> Prop) (t t' : ftree) : Prop := forall r, P r -> t' !! r = t !! r.

Lemma same_outside_refl P t : same_outside P t t.
Proof. done. Qed.

Lemma same_outside_trans P t1 t2 t3 : same_outside P t1 t2 -> same_outside P t2 t3 -> same_outside P t1 t3.
Proof. intros H1 H2 r Hr. by rewrite H2, H1. Qed.

(** The paths a file made at [t] with the temporary name [u] does not concern. *)
Definition elsewhere (q : fpath) (t u r : fpath) : Prop :=
  ~ r `prefix_of` q /\ ~ t `prefix_of` r /\ ~ u `prefix_of` r.

Lemma Remove_region path st :
  Coh st ->
  runs (Remove d sortSlice naturalLess clock charMap doublestarMatch path) st (fun st' r =>
    Coh st' /\ same_outside (fun r => ~ norm_segs path `prefix_of` r) (tree (remote st)) (tree (remote st'))).
Proof.
  intros C. eapply runs_mono; [by apply Remove_runs|]. intros st' r [C' H]. split; [done|]. intros k Hk.
  destruct r as [u|e]; [|by rewrite H]. destruct H as [_ [[_ ->]|[-> _]]]; [by apply treeRemove_other|done].
Qed.

Lemma Rename_region q n m st :
  Coh st -> Forall clean_seg (q ++ [n]) ->
  runs (Rename d sortSlice naturalLess clock charMap doublestarMatch (mkpath (q ++ [n])) m) st (fun st' r =>
    Coh st' /\ same_outside (fun r => ~ q ++ [n] `prefix_of` r /\ ~ q ++ [mapped m] `prefix_of` r)
                 (tree (remote st)) (tree (remote st'))).
Proof.
  intros C Hcl. eapply runs_mono; [by apply Rename_runs|]. intros st' r [C' H]. split; [done|]. intros k [Hk1 Hk2].
  destruct r as [u|e]; [|by rewrite H]. rewrite norm_segs_mkpath in H by done.
  destruct H as (q0 & n0 & [-> ->]%app_inj_tail & _ & _ & ->). by apply treeMove_other.
Qed.

Lemma join2_mkpath q n : Forall clean_seg q -> clean_seg n -> path_join2 (mkpath q) n = mkpath (q ++ [n]).
Proof. intros Hq Hn. apply path_join2_snoc; [by apply clean_good|apply Hn]. Qed.

Section Put.
Context (dst : gostr) (name : gostr) (Hdst : plain dst) (Hname : clean_seg name) (Hmap : mapped name = name).
Abbreviation q := (norm_segs dst).
Abbreviation t := (q ++ [name]).

Lemma clean_t : Forall clean_seg t.
Proof. apply Forall_app. split; [apply norm_segs_clean|by constructor]. Qed.

(** The middle of Put and PutURL: what the driver made enters the listing. *)
Lemma put_made st s' (newObj : option Obj) (mk : M (R:=R) (E:=E) Obj) c :
  Coh st -> dirCache c = dirCache (cache st) ->
  isDirAt (tree (remote st)) q -> tree (remote st) !! t <> Some true -> dinv s' ->
  tree s' = <[t := false]> (tree (remote st)) ->
  (forall o r, denotes (remote st) o r -> r <> t -> denotes s' o r) -> made charMap denotes s' newObj t name false ->
  (forall st1, sameDirs (mkFs c s') st1 -> runs mk st1 (fun st2 r => sameDirs (mkFs c s') st2 /\
     exists o, r = Ok o /\ shownName charMap o = name /\ IsDir o = false /\ ObjHasMask o Temp = true)) ->
  runs (if NoCache cfg then mret tt else cacheNew d clock charMap (mkpath q) (putOptObj newObj mk)) (mkFs c s') (fun st' r =>
    r = Ok tt /\ remote st' = s' /\ Coh st').
Proof.
  intros C Hc Hd Hold Hi Htree Hh Hmade Hmk. unfold cacheNew. rewrite (Key_mkpath cfg ms) by (done || apply norm_segs_clean).
  eapply runs_mono; [eapply (finish_insert st C s' Hi q name false); try done|].
  - intros r Hr. rewrite Htree, lookup_insert_ne; [done|]. intros <-. by apply Hr.
  - by rewrite Htree, lookup_insert_eq.
  - intros o r Hr Hden. apply Hh; [done|]. intros ->. by apply Hr.
  - intros st1 H1. apply runs_bind. destruct newObj as [o|]; simpl.
    + apply runs_ret, runs_ret. split; [done|]. do 2 eexists. split; [done|]. rewrite wrap_shown.
      destruct (Hmade o eq_refl) as (N1 & N2 & N3). split_and!; [done|done|by left|done].
    + eapply runs_mono; [by apply Hmk|]. intros st2 r (H2 & o & -> & N1 & N2 & N3). apply runs_ret. split; [done|].
      do 2 eexists. split; [done|]. rewrite wrap_shown. split_and!; [done|done|by left|].
      intros Hm. change (ObjHasMask o Temp = false) in Hm. congruence.
  - intros st1 r (-> & Hr & C1 & _). done.
Qed.

Lemma PutURL_runs url st :
  Coh st ->
  runs (PutURL d sortSlice naturalLess clock charMap doublestarMatch dst name url) st (fun st' r =>
    Coh st' /\
    same_outside (fun r => ~ r `prefix_of` q /\ r <> t) (tree (remote st)) (tree (remote st')) /\
    forall u, r = Ok u -> isDirAt (tree (remote st')) q /\ tree (remote st') !! t = Some false).
Proof.
  intros C. unfold PutURL. apply runs_bind. unfold checkStatus. destruct (CheckStatus cfg && _); [by apply runs_fail|].
  apply runs_ret. rewrite fixAndCleanPath_mkpath. pose proof (norm_segs_clean dst) as Hcq. pose proof clean_t as Hct.
  rewrite join2_mkpath by done. apply runs_bind, runs_try. eapply runs_mono; [by apply Get_ok|].
  intros st1 r [A1 _ _ _ _ _]. pose proof (ro_tree _ _ _ _ _ (rd_ro _ _ _ _ _ _ _ _ A1)) as Ht1.
  assert (C1 : Coh st1) by apply A1. rewrite <- Ht1. destruct r as [f|e0]; [by apply runs_fail|].
  apply runs_bind. eapply runs_mono; [apply MakeDir_runs; [done|]|].
  { unfold plain. by rewrite norm_segs_mkpath. }
  rewrite norm_segs_mkpath by done. intros st2 r (C2 & Hgr & _).
  assert (S2 : same_outside (fun r => ~ r `prefix_of` q /\ r <> t) (tree (remote st1)) (tree (remote st2))).
  { intros k [Hk _]. by destruct (Hgr k) as [?|[? _]]. }
  destruct r as [u|e]; [|done]. apply runs_bind. eapply runs_mono; [by apply GetUnwrap_ok|].
  rewrite norm_segs_mkpath by done. intros st3 r (A3 & _ & Ok3 & _).
  pose proof (ro_tree _ _ _ _ _ (rd_ro _ _ _ _ _ _ _ _ A3)) as Ht3. assert (C3 : Coh st3) by apply A3.
  rewrite <- Ht3 in S2. destruct r as [dd|e]; [|done]. destruct (Ok3 dd eq_refl) as (Hdd & _ & _).
  destruct (ObjHasMask dd NoWrite); [by apply runs_fail|].
  apply runs_bind. destruct (dPutURL d) as [put|] eqn:Hput; [|by apply runs_fail]. apply callObj_runs.
  pose proof (law_putURL _ _ _ _ _ put _ _ _ name url Hput (coh_inv _ _ _ _ _ _ _ C3) Hdd) as Hl. rewrite Hmap in Hl.
  destruct (put (remote st3) dd name url) as [s' [newObj err]]. destruct err as [e|].
  { split_and!; [by eapply Coh_remote| |done]. simpl. by rewrite (ro_tree _ _ _ _ _ Hl). }
  destruct Hl as (Hd & Hold & Hi & Htree & Hh & Hmade).
  apply runs_bind. eapply runs_mono; [apply linkDelete_runs|]. intros [c4 s4] r (-> & [Hc4 Hs4]). simpl in *. subst s4.
  eapply runs_mono; [eapply (put_made st3 s' newObj); try done|].
  - intros st5 H5. apply runs_bind. eapply runs_mono; [by apply timeNow_same|]. intros st6 r (H6 & tm & ->). apply runs_ret.
    split; [done|]. eexists. split; [done|]. done.
  - intros st5 r (-> & Hrem & C5). split; [done|]. rewrite Hrem, Htree. split.
    + intros k Hk. rewrite lookup_insert_ne; [by apply S2|]. destruct Hk as [_ ?]. congruence.
    + intros _ _. rewrite lookup_insert_eq. split; [|done]. destruct Hd as [->|Hd]; [by left|right].
      rewrite lookup_insert_ne; [done|]. intros H. by apply (f_equal length) in H; rewrite length_app in H; simpl in H; lia.
Qed.

Definition tempName : gostr := name ++ (".openlist_to_delete" : gostr).
Context (Htemp : mapped tempName = tempName).
Abbreviation u := (q ++ [tempName]).

Lemma tempName_clean : clean_seg tempName.
Proof.
  destruct Hname as [(H1 & H2 & H3 & H4) H5]. unfold tempName.
  assert (Hd : forall c, c ∉ name -> c ∉ (".openlist_to_delete" : gostr) -> c ∉ name ++ (".openlist_to_delete" : gostr))
    by (intros c; rewrite not_elem_of_app; done).
  assert (Hlen : (19 <= length (name ++ (".openlist_to_delete" : gostr)))%nat) by (rewrite length_app; vm_compute (length _); lia).
  unfold clean_seg, good_seg. split_and!.
  - intros [H _]%app_nil. by apply H1.
  - intros H. rewrite H in Hlen. vm_compute in Hlen. lia.
  - intros H. rewrite H in Hlen. vm_compute in Hlen. lia.
  - apply Hd; [done|]. vm_compute. set_solver.
  - apply Hd; [done|]. vm_compute. set_solver.
Qed.

Lemma temp_ne : name <> tempName.
Proof. unfold tempName. intros H. apply (f_equal length) in H. rewrite length_app in H. vm_compute (length (_ : gostr)) in H. simpl in H. lia. Qed.

Abbreviation outside := (elsewhere q t u).

Lemma clean_u : Forall clean_seg u.
Proof. apply Forall_app. split; [apply norm_segs_clean|constructor; [apply tempName_clean|done]]. Qed.

Lemma putExisting_runs skip fi file st :
  Coh st ->
  runs (putExisting d sortSlice naturalLess clock charMap doublestarMatch skip (mkpath t) tempName fi file) st (fun st' r =>
    Coh st' /\ same_outside outside (tree (remote st)) (tree (remote st')) /\
    forall f, r = Ok f -> fName f = fName file).
Proof.
  intros C. unfold putExisting. destruct fi as [o|e]; [|apply runs_ret; split_and!; [done..|by intros f [= ->]]].
  destruct (GetSize o =? 0); [|destruct (NoOverwriteUpload cfg && negb skip)].
  - apply runs_bind. eapply runs_mono; [by apply Remove_region|]. rewrite norm_segs_mkpath by apply clean_t.
    intros st' r [C' H]. assert (S' : same_outside outside (tree (remote st)) (tree (remote st')))
      by (intros k (_ & Hk & _); by apply H).
    destruct r; [apply runs_ret|]; split_and!; try done. by intros f [= ->].
  - apply runs_bind. eapply runs_mono; [apply Rename_region; [done|apply clean_t]|]. rewrite Htemp.
    intros st' r [C' H]. assert (S' : same_outside outside (tree (remote st)) (tree (remote st')))
      by (intros k (_ & Hk1 & Hk2); by apply H).
    destruct r; [apply runs_ret|]; split_and!; try done. by intros f [= ->].
  - apply runs_ret. split_and!; [done..|by intros f [= <-]].
Qed.

Lemma putFinish_runs fi file err st :
  fName file = name -> Coh st ->
  runs (putFinish d sortSlice naturalLess clock charMap doublestarMatch (mkpath u) fi file err) st (fun st' r =>
    Coh st' /\ same_outside outside (tree (remote st)) (tree (remote st')) /\
    forall x, r = Ok x -> err = None /\ (forall k, ~ u `prefix_of` k -> tree (remote st') !! k = tree (remote st) !! k)).
Proof.
  intros Hf C. unfold putFinish. set (replaced := match fi with Ok _ => _ | Err _ => _ end). destruct err as [e|].
  - apply runs_bind. assert (Hr : runs (if replaced then _ ← try (Rename d sortSlice naturalLess clock charMap doublestarMatch (mkpath u) (fName file)); mret tt else mret tt) st (fun st' r =>
      Coh st' /\ same_outside outside (tree (remote st)) (tree (remote st')))).
    { destruct replaced; [|by apply runs_ret]. apply runs_bind, runs_try.
      eapply runs_mono; [apply Rename_region; [done|apply clean_u]|]. rewrite Hf, Hmap. intros st' r [C' H].
      apply runs_ret. split; [done|]. intros k (_ & Hk1 & Hk2). by apply H. }
    eapply runs_mono; [exact Hr|]. intros st' r [C' S']. destruct r; [apply runs_fail|]; done.
  - destruct replaced; [|by apply runs_ret].
    eapply runs_mono; [by apply Remove_region|]. rewrite norm_segs_mkpath by apply clean_u. intros st' r [C' H].
    split_and!; [done|intros k (_ & _ & Hk); by apply H|]. intros x _. split; [done|]. intros k Hk. by apply H.
Qed.

Lemma Put_runs skip file st :
  Coh st -> OnlyIndices cfg = false -> fName file = name ->
  runs (Put d sortSlice naturalLess clock charMap doublestarMatch skip dst file) st (fun st' r =>
    Coh st' /\ same_outside outside (tree (remote st)) (tree (remote st')) /\
    forall x, r = Ok x -> isDirAt (tree (remote st')) q /\ tree (remote st') !! t = Some false).
Proof.
  intros C Hind Hf. unfold Put. apply runs_bind. unfold checkStatus. destruct (CheckStatus cfg && _); [by apply runs_fail|].
  apply runs_ret. rewrite Hind. rewrite fixAndCleanPath_mkpath, Hf. fold tempName.
  pose proof (norm_segs_clean dst) as Hcq. rewrite !join2_mkpath by (done || apply tempName_clean).
  apply runs_bind, runs_try. eapply runs_mono; [by apply GetUnwrap_ok|].
  intros st1 fi (A1 & _). pose proof (ro_tree _ _ _ _ _ (rd_ro _ _ _ _ _ _ _ _ A1)) as Ht1.
  assert (C1 : Coh st1) by apply A1. rewrite <- Ht1. clear A1 Ht1.
  apply runs_bind. eapply runs_mono; [by apply putExisting_runs|]. intros st2 r (C2 & S2 & F2).
  destruct r as [file2|e2]; [|split_and!; done]. specialize (F2 file2 eq_refl).
  apply runs_bind, runs_try. eapply runs_mono; [apply MakeDir_runs; [done|]|].
  { unfold plain. by rewrite norm_segs_mkpath. }
  rewrite norm_segs_mkpath by done. intros st3 made (C3 & Hgr & _).
  assert (S3 : same_outside outside (tree (remote st1)) (tree (remote st3))).
  { eapply same_outside_trans; [exact S2|]. intros k (Hk & _). by destruct (Hgr k) as [?|[? _]]. }
  assert (Hrest : runs (match made with
      | Err e => if negb (IsObjectAlreadyExists e) then fail e else mret tt
      | Ok _ => mret tt
      end : M (E:=E) unit) st3 (fun st' r => st' = st3)).
  { destruct made as [|e]; [by apply runs_ret|]. by destruct (negb _). }
  apply runs_bind. eapply runs_mono; [exact Hrest|]. clear Hrest. intros st' [x|e3] ->; [|split_and!; done].
  apply runs_bind. eapply runs_mono; [by apply GetUnwrap_ok|]. rewrite norm_segs_mkpath by done.
  intros st4 r (A4 & _ & Ok4 & _). pose proof (ro_tree _ _ _ _ _ (rd_ro _ _ _ _ _ _ _ _ A4)) as Ht4.
  assert (C4 : Coh st4) by apply A4. rewrite <- Ht4 in S3.
  destruct r as [dd|e4]; [|split_and!; done]. destruct (Ok4 dd eq_refl) as (Hdd & _ & _).
  destruct (ObjHasMask dd NoWrite); [apply runs_fail; split_and!; done|].
  set (file3 := if fSize file2 <? 0 then CacheFullAndWriter file2 else file2).
  assert (F3 : fName file3 = name) by (unfold file3; destruct (fSize file2 <? 0); simpl; congruence).
  destruct (dPut d) as [put|] eqn:Hput; [|apply runs_fail; split_and!; done].
  apply runs_bind, runs_call.
  pose proof (law_put _ _ _ _ _ put _ _ _ file3 Hput (coh_inv _ _ _ _ _ _ _ C4) Hdd) as Hl. rewrite F3, Hmap in Hl.
  destruct (put (remote st4) dd file3) as [s' [newObj err]]. apply runs_bind. destruct err as [e|].
  { apply runs_ret. assert (C5 : Coh (mkFs (cache st4) s')) by (by eapply Coh_remote).
    eapply runs_mono; [by apply putFinish_runs|]. simpl. rewrite (ro_tree _ _ _ _ _ Hl). intros st6 r (C6 & S6 & O6).
    split_and!; [done|by eapply same_outside_trans|]. intros x' ->. by destruct (O6 x' eq_refl). }
  destruct Hl as (Hd & Hold & Hi & Htree & Hh & Hmade).
  apply runs_bind. eapply runs_mono; [apply linkDelete_runs|]. intros [c5 s5] r (-> & [Hc5 Hs5]). simpl in Hc5, Hs5. subst s5.
  eapply runs_mono; [eapply (put_made st4 s' newObj); try done|].
  - intros st6 H6. apply runs_ret. split; [done|]. eexists. split; [done|].
    change (mapped (fName file3) = name /\ false = false /\ ObjHasMask (putObj file3) Temp = true). by rewrite F3.
  - intros st6 r (-> & Hrem & C6). eapply runs_mono; [by apply putFinish_runs|]. intros st7 r (C7 & S7 & O7).
    rewrite Hrem, Htree in S7. split_and!; [done| |].
    + eapply same_outside_trans; [exact S3|]. intros k Hk. rewrite S7 by done. rewrite lookup_insert_ne; [done|].
      intros <-. by destruct Hk as (_ & Hk & _).
    + intros x' ->. destruct (O7 x' eq_refl) as [_ Hk]. rewrite Hrem, Htree in Hk. split.
      * destruct Hd as [Hq0|Hd]; [by left|right]. rewrite Hk by apply self_not_below.
        rewrite lookup_insert_ne; [done|]. intros H. apply (f_equal length) in H. rewrite length_app in H. simpl in H. lia.
      * rewrite Hk; [apply lookup_insert_eq|]. apply sibling. intros H. by apply temp_ne.
Qed.

End Put.

End Write.
