(* ===== verification/OpFsMem.v ===== *)
(** A lawful driver: a file tree in memory whose objects carry their path. It
    shows that the laws of [OpFsSpec] can hold, and it is the driver of the
    examples. *)
From S2P Require Import Prelude GoString GoPath Paths Mounts Storages Objects KeyedCache DirCache OpFs FsTree OpFsSpec.

#[export] Instance clean_seg_dec w : Decision (clean_seg w).
Proof. unfold clean_seg, good_seg. apply _. Defined.

Abbreviation mem := ftree.
Abbreviation memAnswer := (mem * (option Obj * option (op_error unit)))%type.

Definition memObj (p : fpath) (b : bool) : Obj :=
  Leaf (mkObject [] (mkpath p) (default [] (last p)) (if b then 0 else 1) 0 0 b [] 0) None.

Definition memPath (o : Obj) : fpath := norm_segs (GetPath o).

(** The name of [k] in the directory [p]. *)
Definition childName (p k : fpath) : option gostr :=
  match drop (length p) k with
  | [n] => if decide (take (length p) k = p) then Some n else None
  | _ => None
  end.

Definition memChild (p : fpath) (kv : fpath * bool) : option Obj :=
  _ ← childName p kv.1; Some (memObj kv.1 kv.2).

Definition memList (t : mem) (dir : Obj) (args : ListArgs) : mem * res (op_error unit) (list Obj) :=
  let p := memPath dir in
  if decide (isDirAt t p) then (t, Ok (omap (memChild p) (map_to_list t))) else (t, Err NotFolder).

(** Whether [n] can be made in the directory [q]. *)
Definition memFree (t : mem) (q : fpath) (n : gostr) : Prop :=
  isDirAt t q /\ t !! (q ++ [n]) = None /\ clean_seg n.
#[export] Instance memFree_dec t q n : Decision (memFree t q n).
Proof. unfold memFree. apply _. Defined.

Definition memMakeDir (t : mem) (dir : Obj) (n : gostr) : memAnswer :=
  let p := memPath dir in
  if decide (memFree t p n) then (<[p ++ [n] := true]> t, (None, None))
  else if decide (is_Some (t !! (p ++ [n]))) then (t, (None, Some ObjectAlreadyExists))
  else (t, (None, Some NotFolder)).

(** A path without its last element. *)
Definition memParent (p : fpath) : fpath := take (length p - 1) p.

Definition memRename (t : mem) (o : Obj) (n : gostr) : memAnswer :=
  let p := memPath o in
  let q := memParent p in
  match t !! p with
  | Some b =>
      if decide (memFree t q n) then (treeMove t p (q ++ [n]), (Some (memObj (q ++ [n]) b), None))
      else (t, (None, Some ObjectAlreadyExists))
  | None => (t, (None, Some ObjectNotFound))
  end.

Definition memMove (t : mem) (o dst : Obj) : memAnswer :=
  let p := memPath o in
  let q := memPath dst in
  let n := default [] (last p) in
  match t !! p with
  | Some b =>
      if decide (memFree t q n /\ ~ p `prefix_of` q) then (treeMove t p (q ++ [n]), (None, None))
      else (t, (None, Some ObjectAlreadyExists))
  | None => (t, (None, Some ObjectNotFound))
  end.

Definition memCopy (t : mem) (o dst : Obj) : memAnswer :=
  let p := memPath o in
  let q := memPath dst in
  let n := default [] (last p) in
  match t !! p with
  | Some b =>
      if decide (memFree t q n) then (treeCopy t p (q ++ [n]), (None, None))
      else (t, (None, Some ObjectAlreadyExists))
  | None => (t, (None, Some ObjectNotFound))
  end.

Definition memRemove (t : mem) (o : Obj) : mem * option (op_error unit) := (treeRemove t (memPath o), None).

Definition memPutNamed (t : mem) (dir : Obj) (n : gostr) : memAnswer :=
  let p := memPath dir in
  if decide (isDirAt t p /\ t !! (p ++ [n]) <> Some true /\ clean_seg n)
  then (<[p ++ [n] := false]> t, (Some (memObj (p ++ [n]) false), None))
  else (t, (None, Some NotFolder)).

Definition memConfig : fsConfig :=
  mkConfig "/m" WORK 0 "name" "asc" "front" 30 "/tmp/**:5" true false true true false.

Definition memDriver : Driver mem unit :=
  mkDriver memConfig (IRootPath "/") memList None (Some memMakeDir) (Some memMove) (Some memRename) (Some memCopy)
    (Some memRemove) (Some (fun t dir f => memPutNamed t dir (fName f))) (Some (fun t dir n _ => memPutNamed t dir n)).

(** An object is a handle for the path it carries, and has its name. *)
Definition memDenotes (_ : mem) (o : Obj) (p : fpath) : Prop :=
  memPath o = p /\ forall q n, p = q ++ [n] -> GetName o = n.

(** ** The laws *)
Lemma childName_Some p k n : childName p k = Some n <-> k = p ++ [n].
Proof.
  unfold childName. split.
  - destruct (drop (length p) k) as [|x [|y l]] eqn:Hd; try done.
    destruct (decide (take (length p) k = p)) as [Ht|]; [|done]. intros [= <-].
    rewrite <- (take_drop (length p) k), Ht, Hd. done.
  - intros ->. rewrite drop_app_length, take_app_length. by rewrite decide_True.
Qed.

Lemma memObj_name q n b : GetName (memObj (q ++ [n]) b) = n.
Proof. unfold memObj. simpl. by rewrite last_snoc. Qed.

Lemma memObj_path p b : Forall clean_seg p -> memPath (memObj p b) = p.
Proof. intros H. unfold memPath. simpl. by apply norm_segs_mkpath. Qed.

Lemma memObj_denotes t q n b : Forall clean_seg (q ++ [n]) -> memDenotes t (memObj (q ++ [n]) b) (q ++ [n]).
Proof. intros H. split; [by apply memObj_path|]. intros q' n' [_ ->]%app_inj_tail. apply memObj_name. Qed.

Lemma mapped_nil n : MappingName [] n = n.
Proof. done. Qed.

Lemma shown_memObj q n b : shownName [] (memObj (q ++ [n]) b) = n.
Proof. apply memObj_name. Qed.

Lemma memChild_in p t o :
  o ∈ omap (memChild p) (map_to_list t) <-> exists n b, t !! (p ++ [n]) = Some b /\ o = memObj (p ++ [n]) b.
Proof.
  rewrite list_elem_of_omap. split.
  - intros ([k b] & Hk%elem_of_map_to_list & Ho). unfold memChild in Ho. simpl in *.
    destruct (childName p k) as [n|] eqn:Hn; simpl in Ho; [|done]. injection Ho as <-.
    apply childName_Some in Hn as ->. eauto.
  - intros (n & b & Hb & ->). exists (p ++ [n], b). split; [by apply elem_of_map_to_list|].
    unfold memChild. simpl. by rewrite (proj2 (childName_Some p (p ++ [n]) n)).
Qed.

Lemma memChild_NoDup p t : NoDup (map (shownName []) (omap (memChild p) (map_to_list t))).
Proof.
  generalize (NoDup_fst_map_to_list t). generalize (map_to_list t). intros l.
  induction l as [|[k b] l IH]; simpl; [constructor|]. intros [Hk Hl]%NoDup_cons.
  unfold memChild at 1. simpl. destruct (childName p k) as [n|] eqn:Hn; simpl; [|by apply IH].
  apply childName_Some in Hn as ->. constructor; [|by apply IH].
  intros (o & Heq & Ho)%list_elem_of_fmap. apply list_elem_of_omap in Ho as ([k' b'] & Hk' & Ho).
  unfold memChild in Ho. simpl in Ho. destruct (childName p k') as [n'|] eqn:Hn'; simpl in Ho; [|done].
  injection Ho as <-. apply childName_Some in Hn' as ->. rewrite !shown_memObj in Heq. subst n'.
  apply Hk. by apply (list_elem_of_fmap_2 fst) in Hk'.
Qed.

Lemma mem_ro (t : mem) : wfTree t -> ro wfTree id memDenotes t t.
Proof. by split. Qed.

Lemma memParent_snoc q n : memParent (q ++ [n]) = q.
Proof. unfold memParent. rewrite length_app. simpl. replace (length q + 1 - 1)%nat with (length q) by lia. apply take_app_length. Qed.

Lemma memPut_law t o p n :
  wfTree t -> memPath o = p ->
  let '(s', (newObj, err)) := memPutNamed t o n in
  match err with
  | Some _ => ro wfTree id memDenotes t s'
  | None =>
      isDirAt t p /\ t !! (p ++ [n]) <> Some true /\ wfTree s' /\ s' = <[p ++ [n] := false]> t /\
      (forall o' r, memDenotes t o' r -> r <> p ++ [n] -> memDenotes s' o' r) /\
      made [] memDenotes s' newObj (p ++ [n]) n false
  end.
Proof.
  intros W Hp. unfold memPutNamed. rewrite Hp. destruct (decide _) as [(Hd & Hn & Hc)|]; [|by apply mem_ro].
  split_and!; [done|done|by apply treeInsert_wf|done|done|].
  intros o' [= <-]. split_and!; [apply shown_memObj|done|]. apply memObj_denotes.
  apply Forall_app. split; [by eapply isDirAt_clean|by constructor].
Qed.

#[export] Instance memLaws : DriverLaws memDriver [] wfTree id memDenotes.
Proof.
  split.
  - done.
  - intros c t W. simpl. split; [by apply mem_ro|]. split; [done|]. intros o [= <-]. split; [|done]. split; [done|]. intros q n H. by destruct q.
  - intros t o p args W [Hp _]. simpl. unfold memList. rewrite Hp. destruct (decide (isDirAt t p)) as [Hd|]; [|by split; [apply mem_ro|]].
    split; [by apply mem_ro|]. intros l [= <-]. split_and!; [done|apply memChild_NoDup| |].
    + intros n b. split.
      * intros Hb. exists (memObj (p ++ [n]) b). split_and!; [apply memChild_in; eauto|apply shown_memObj|done].
      * intros (x & (n' & b' & Hb & ->)%memChild_in & <- & <-). by rewrite shown_memObj.
    + intros x (n & b & Hb & ->)%memChild_in. rewrite shown_memObj. split; [|done]. apply memObj_denotes.
      by apply (wf_clean _ W) in Hb as [].
  - intros mk t o p n [= <-] W [Hp _]. unfold memMakeDir. rewrite Hp.
    destruct (decide (memFree t p n)) as [(Hd & Hn & Hc)|]; [|destruct (decide _)].
    + split_and!; [done|done|by apply treeInsert_wf|done|done|done].
    + split; [by apply mem_ro|done].
    + split; [by apply mem_ro|done].
  - intros rn t o p n0 n b [= <-] W [Hp _] Hb. unfold memRename. rewrite Hp. cbv [id] in Hb. rewrite Hb, memParent_snoc.
    destruct (decide _) as [(Hd & Hn & Hc)|]; [|by apply mem_ro].
    split_and!; [done|apply treeMove_wf; try done; by destruct p|done|done|].
    intros o' [= <-]. split_and!; [apply shown_memObj|done|]. apply memObj_denotes.
    apply Forall_app. split; [by eapply isDirAt_clean|by constructor].
  - intros mv t o dst p n q b [= <-] W [Hp _] [Hq _] Hb. unfold memMove. rewrite Hp, Hq. cbv [id] in Hb. rewrite Hb, last_snoc. simpl.
    destruct (decide _) as [[(Hd & Hn & Hc) Hnp]|]; [|by apply mem_ro].
    split_and!; [done|done|done|apply treeMove_wf; try done; by destruct p|done|done|done].
  - intros cp t o dst p n q b [= <-] W [Hp _] [Hq _] Hb. unfold memCopy. rewrite Hp, Hq. cbv [id] in Hb. rewrite Hb, last_snoc. simpl.
    destruct (decide _) as [(Hd & Hn & Hc)|]; [|by apply mem_ro].
    split_and!; [done|done|apply treeCopy_wf; try done; by destruct p|done|done|done].
  - intros rm t o p b [= <-] W [Hp _] Hb. unfold memRemove. rewrite Hp. split_and!; [by apply treeRemove_wf|done|done].
  - intros put t o p f [= <-] W [Hp _]. by apply memPut_law.
  - intros put t o p n url [= <-] W [Hp _]. by apply memPut_law.
Qed.

Lemma memReliable : reliable memDriver wfTree id memDenotes.
Proof.
  split; [done| |].
  - intros c t _. by eexists.
  - intros t o p args _ [Hp _] Hd. simpl. unfold memList. rewrite Hp. rewrite decide_True by done. by eexists.
Qed.
