(* ===== verification/OpFsSys.v ===== *)
(** The file operations as a whole: any sequence of operations on a lawful
    driver, started with an empty cache, refines the same sequence on the bare
    file tree; listings and lookups tell the truth after it. The recursion of
    list and Get ends. What goes wrong when listings fail or expire, and an
    upload over a directory, are examples on the driver in memory. *)
From S2P Require Import Prelude GoString GoPath Paths Mounts Storages Objects KeyedCache DirCache OpFs.
From S2P Require Import FsTree OpFsSpec OpFsRead OpFsWrite OpFsMem.

(** ** Sequences of operations *)
Inductive fsop :=
| OList (path : gostr) (args : ListArgs)
| OGet (path : gostr) (excludeTemp : bool)
| OMakeDir (path : gostr)
| OMove (src dst : gostr)
| ORename (src name : gostr)
| OCopy (src dst : gostr)
| ORemove (path : gostr)
| OPut (skip : bool) (dst : gostr) (file : fileStream)
| OPutURL (dst name url : gostr).

(** What an operation that succeeds ([ok]) or fails may do to the tree. *)
Definition effect (mapped : gostr -> gostr) (t : ftree) (o : fsop) (ok : bool) (t' : ftree) : Prop :=
  match o, ok with
  | OList _ _, _ | OGet _ _, _ => t' = t
  | OMakeDir path, _ =>
      grown t t' (norm_segs path) /\ (ok = true -> isDirAt t' (norm_segs path))
  | OMove src dst, true => exists q n, norm_segs src = q ++ [n] /\ is_Some (t !! (q ++ [n])) /\
      isDirAt t (norm_segs dst) /\ ~ q ++ [n] `prefix_of` norm_segs dst /\
      t !! (norm_segs dst ++ [n]) = None /\ t' = treeMove t (q ++ [n]) (norm_segs dst ++ [n])
  | ORename src name, true => exists q n, norm_segs src = q ++ [n] /\ is_Some (t !! (q ++ [n])) /\
      t !! (q ++ [mapped name]) = None /\ t' = treeMove t (q ++ [n]) (q ++ [mapped name])
  | OCopy src dst, true => exists q n, norm_segs src = q ++ [n] /\ is_Some (t !! (q ++ [n])) /\
      isDirAt t (norm_segs dst) /\ t !! (norm_segs dst ++ [n]) = None /\
      t' = treeCopy t (q ++ [n]) (norm_segs dst ++ [n])
  | ORemove path, true => norm_segs path <> [] /\ t' = treeRemove t (norm_segs path)
  | OPut _ dst file, _ =>
      same_outside (elsewhere (norm_segs dst) (norm_segs dst ++ [fName file])
                      (norm_segs dst ++ [tempName (fName file)])) t t' /\
      (ok = true -> isDirAt t' (norm_segs dst) /\ t' !! (norm_segs dst ++ [fName file]) = Some false)
  | OPutURL dst name _, _ =>
      same_outside (fun r => ~ r `prefix_of` norm_segs dst /\ r <> norm_segs dst ++ [name]) t t' /\
      (ok = true -> isDirAt t' (norm_segs dst) /\ t' !! (norm_segs dst ++ [name]) = Some false)
  | _, false => t' = t
  end.

Fixpoint effects (mapped : gostr -> gostr) (t : ftree) (l : list (fsop * bool)) (t' : ftree) : Prop :=
  match l with
  | [] => t' = t
  | (o, ok) :: l => exists t1, effect mapped t o ok t1 /\ effects mapped t1 l t'
  end.

Section Sys.
Context {R E : Type} (d : Driver R E).
Context (sortSlice : (Obj -> Obj -> bool) -> list Obj -> list Obj) (naturalLess : gostr -> gostr -> bool)
        (clock : nat -> Z) (charMap : charmap) (doublestarMatch : gostr -> gostr -> option bool).
Context (dinv : R -> Prop) (tree : R -> ftree) (denotes : R -> Obj -> fpath -> Prop).
Context (ms : fpath) (horizon : Z).

Abbreviation state := (fs (R:=R)).
Abbreviation cfg := (dConfig d).
Abbreviation mapped := (MappingName charMap).
Abbreviation Coh := (Coh d dinv tree denotes ms horizon).
Abbreviation cachedAt := (cachedAt (R:=R) ms).
Abbreviation reliable := (reliable d dinv tree denotes).

Definition runOp (o : fsop) : M (R:=R) (E:=E) unit :=
  match o with
  | OList path args => _ ← List d sortSlice naturalLess clock charMap doublestarMatch path args; mret tt
  | OGet path excl => _ ← Get d sortSlice naturalLess clock charMap doublestarMatch path excl; mret tt
  | OMakeDir path => MakeDir d sortSlice naturalLess clock charMap doublestarMatch path
  | OMove src dst => Move d sortSlice naturalLess clock charMap doublestarMatch src dst
  | ORename src name => Rename d sortSlice naturalLess clock charMap doublestarMatch src name
  | OCopy src dst => Copy d sortSlice naturalLess clock charMap doublestarMatch src dst
  | ORemove path => Remove d sortSlice naturalLess clock charMap doublestarMatch path
  | OPut skip dst file => Put d sortSlice naturalLess clock charMap doublestarMatch skip dst file
  | OPutURL dst name url => PutURL d sortSlice naturalLess clock charMap doublestarMatch dst name url
  end.

(** The state after a sequence, and which operations succeeded. *)
Fixpoint runOps (st : state) (l : list fsop) : state * list (fsop * bool) :=
  match l with
  | [] => (st, [])
  | o :: l =>
      let '(st, r) := runOp o st in
      let '(st, rs) := runOps st l in
      (st, (o, is_ok r) :: rs)
  end.

Definition start (s : R) : state := mkFs (mkCaches ∅ ∅ 0) s.

(** Names an upload or a new directory is given survive the name mapping, and
    the name of an upload is one path element. *)
Definition allowed (o : fsop) : Prop :=
  match o with
  | OMakeDir path => plain charMap path
  | OCopy src _ => norm_segs src <> []
  | OPut _ dst file => OnlyIndices cfg = false /\ plain charMap dst /\ clean_seg (fName file) /\
      mapped (fName file) = fName file /\ mapped (tempName (fName file)) = tempName (fName file)
  | OPutURL dst name _ => plain charMap dst /\ clean_seg name /\ mapped name = name
  | _ => True
  end.

(** What the theorems assume: sort.Slice permutes, no listing expires before the
    clock stops at [horizon], the mount path is clean, the driver is lawful and
    has no Get of its own. *)
Record setting : Prop := {
  set_perm less l : sortSlice less l ≡ₚ l;
  set_clock n : clock n <= horizon;
  set_ttl path n : horizon <= clock n + listTTL d doublestarMatch path;
  set_ms : Forall clean_seg ms;
  set_mount : GetActualMountPath (cMountPath cfg) = mkpath ms;
  set_noget : dGet d = None;
  set_laws : DriverLaws d charMap dinv tree denotes
}.

Lemma start_Coh s : dinv s -> Coh (start s).
Proof.
  intros Hi. split; [done|..]; simpl.
  - intros p e _ He. by rewrite lookup_empty in He.
  - intros p n _ [e He]. simpl in He. by rewrite lookup_empty in He.
  - intros p _ _ [e He]. simpl in He. by rewrite lookup_empty in He.
Qed.

Lemma treeRemove_absent t p : wfTree t -> p <> [] -> t !! p = None -> treeRemove t p = t.
Proof.
  intros W Hp Hn. apply map_eq. intros k. destruct (decide (p `prefix_of` k)) as [[x ->]|Hk].
  - by rewrite treeRemove_under, (wf_absent _ W).
  - by apply treeRemove_other.
Qed.

Section Settled.
Context (H : setting).

Lemma runOp_Coh o st : Coh st -> allowed o -> Coh (runOp o st).1.
Proof.
  destruct H as [Hperm Hclock Httl Hms Hmount Hget Laws]. intros C Ha. destruct o; simpl in *.
  - pose proof (list_runs d sortSlice naturalLess clock charMap doublestarMatch dinv tree denotes ms horizon
      Hperm Hclock Httl Hms Hmount Hget Laws path args (fun _ => None) st C) as [A _ _ _ _].
    unfold mbind, M_bind, List. by destruct (list_op _ _ _ _ _ _ _ _ _ st) as [st' []]; apply A.
  - pose proof (Get_runs d sortSlice naturalLess clock charMap doublestarMatch dinv tree denotes ms horizon
      Hperm Hclock Httl Hms Hmount Hget Laws path excludeTemp st C) as [A _ _ _ _ _].
    unfold mbind, M_bind. by destruct (Get _ _ _ _ _ _ _ _ st) as [st' []]; apply A.
  - by eapply MakeDir_runs.
  - by eapply Move_runs.
  - by eapply Rename_runs.
  - by eapply Copy_runs.
  - by eapply Remove_runs.
  - destruct Ha as (H1 & H2 & H3 & H4 & H5). by eapply (Put_runs d sortSlice naturalLess clock charMap doublestarMatch dinv tree denotes ms horizon
      Hperm Hclock Httl Hms Hmount Hget Laws dst (fName file) H2 H3 H4 H5).
  - destruct Ha as (H1 & H2 & H3). by eapply (PutURL_runs d sortSlice naturalLess clock charMap doublestarMatch dinv tree denotes ms horizon
      Hperm Hclock Httl Hms Hmount Hget Laws dst name H1 H2 H3).
Qed.

Lemma runOp_effect o st :
  Coh st -> reliable -> allowed o ->
  effect mapped (tree (remote st)) o (is_ok (runOp o st).2) (tree (remote (runOp o st).1)).
Proof.
  destruct H as [Hperm Hclock Httl Hms Hmount Hget Laws]. intros C Hrel Ha. destruct o; simpl in *.
  - pose proof (list_runs d sortSlice naturalLess clock charMap doublestarMatch dinv tree denotes ms horizon
      Hperm Hclock Httl Hms Hmount Hget Laws path args (fun _ => None) st C) as [A _ _ _ _].
    unfold mbind, M_bind, List. by destruct (list_op _ _ _ _ _ _ _ _ _ st) as [st' []]; apply A.
  - pose proof (Get_runs d sortSlice naturalLess clock charMap doublestarMatch dinv tree denotes ms horizon
      Hperm Hclock Httl Hms Hmount Hget Laws path excludeTemp st C) as [A _ _ _ _ _].
    unfold mbind, M_bind. by destruct (Get _ _ _ _ _ _ _ _ st) as [st' []]; apply A.
  - pose proof (MakeDir_runs d sortSlice naturalLess clock charMap doublestarMatch dinv tree denotes ms horizon
      Hperm Hclock Httl Hms Hmount Hget Laws path st C Ha) as (_ & Hg & Hok).
    split; [done|]. destruct (_ st).2 as [u|e]; [|done]. intros _. by apply (Hok u).
  - pose proof (Move_runs d sortSlice naturalLess clock charMap doublestarMatch dinv tree denotes ms horizon
      Hperm Hclock Httl Hms Hmount Hget Laws src dst st C) as (_ & Hok).
    destruct (_ st).2 as [u|e]; [|exact Hok]. destruct Hok as (q & n & H1 & _ & H2). by exists q, n.
  - pose proof (Rename_runs d sortSlice naturalLess clock charMap doublestarMatch dinv tree denotes ms horizon
      Hperm Hclock Httl Hms Hmount Hget Laws src name st C) as (_ & Hok).
    by destruct (_ st).2.
  - pose proof (Copy_runs d sortSlice naturalLess clock charMap doublestarMatch dinv tree denotes ms horizon
      Hperm Hclock Httl Hms Hmount Hget Laws src dst st C Ha) as (_ & Hok).
    by destruct (_ st).2.
  - pose proof (Remove_runs d sortSlice naturalLess clock charMap doublestarMatch dinv tree denotes ms horizon
      Hperm Hclock Httl Hms Hmount Hget Laws path st C) as (_ & Hok).
    destruct (_ st).2 as [u|e]; [|exact Hok]. destruct Hok as [Hp [[_ Ht]|[Ht Hn]]]; split; try done.
    rewrite Ht. symmetry. apply treeRemove_absent; [|done|by apply Hn]. by eapply Coh_wf.
  - destruct Ha as (H1 & H2 & H3 & H4 & H5).
    pose proof (Put_runs d sortSlice naturalLess clock charMap doublestarMatch dinv tree denotes ms horizon
      Hperm Hclock Httl Hms Hmount Hget Laws dst (fName file) H2 H3 H4 H5 skip file st C H1 eq_refl) as (_ & Hs & Hok).
    split; [done|]. destruct (_ st).2 as [u|e]; [|done]. intros _. by apply (Hok u).
  - destruct Ha as (H1 & H2 & H3).
    pose proof (PutURL_runs d sortSlice naturalLess clock charMap doublestarMatch dinv tree denotes ms horizon
      Hperm Hclock Httl Hms Hmount Hget Laws dst name H1 H2 H3 url st C) as (_ & Hs & Hok).
    split; [done|]. destruct (_ st).2 as [u|e]; [|done]. intros _. by apply (Hok u).
Qed.

Lemma runOps_Coh l : forall st, Coh st -> Forall allowed l -> Coh (runOps st l).1.
Proof.
  induction l as [|o l IH]; intros st C Hl; simpl; [done|]. apply Forall_cons in Hl as [Ho Hl].
  pose proof (runOp_Coh o st C Ho) as C1. destruct (runOp o st) as [st1 r]. simpl in C1.
  specialize (IH st1 C1 Hl). by destruct (runOps st1 l).
Qed.

Lemma runOps_effects l : forall st, Coh st -> reliable -> Forall allowed l ->
  effects mapped (tree (remote st)) (runOps st l).2 (tree (remote (runOps st l).1)).
Proof.
  induction l as [|o l IH]; intros st C Hrel Hl; simpl; [done|]. apply Forall_cons in Hl as [Ho Hl].
  pose proof (runOp_Coh o st C Ho) as C1. pose proof (runOp_effect o st C Hrel Ho) as He.
  destruct (runOp o st) as [st1 r]. simpl in C1, He. specialize (IH st1 C1 Hrel Hl).
  destruct (runOps st1 l) as [st2 rs]. simpl in *. by exists (tree (remote st1)).
Qed.

End Settled.



(** After any sequence of file operations on a reliable driver, Get finds what
    the remote tree has at the path, with its name and kind, and answers "object
    not found" for everything else. *)
Theorem fs_get_true l s path excludeTemp :
  setting -> reliable -> dinv s -> Forall allowed l ->
  let st := (runOps (start s) l).1 in
  let r := (Get d sortSlice naturalLess clock charMap doublestarMatch path excludeTemp st).2 in
  (forall q n, norm_segs path = q ++ [n] ->
     match tree (remote st) !! norm_segs path with
     | Some b => exists f, r = Ok f /\ GetName f = n /\ IsDir f = b
     | None => r = Err ObjectNotFound
     end) /\
  (norm_segs path = [] -> exists f, r = Ok f /\ IsDir f = true).
Proof.
  intros H Hrel Hi Hl st r. assert (C : Coh st) by (apply runOps_Coh; [done|by apply start_Coh|done]).
  destruct H as [Hperm Hclock Httl Hms Hmount Hget Laws].
  pose proof (Get_runs d sortSlice naturalLess clock charMap doublestarMatch dinv tree denotes ms horizon
    Hperm Hclock Httl Hms Hmount Hget Laws path excludeTemp st C) as [A _ Ok_ _ T N].
  pose proof (ro_tree _ _ _ _ _ (rd_ro _ _ _ _ _ _ _ _ A)) as Ht. fold r in Ok_, T, N.
  assert (Hle : (length (norm_segs path) <= depth path)%nat) by done. split.
  - intros q n Hp. destruct (tree (remote st) !! norm_segs path) as [b|] eqn:Hb.
    + destruct (T Hle Hrel) as [f Hf]; [right; by eexists|]. exists f. destruct (Ok_ f Hf) as ([_ _ Hx] & _).
      destruct (Hx q n Hp) as [Hf1 Hf2]. rewrite Ht, Hb in Hf1. split_and!; [done|done|congruence].
    + apply N; [done|done|]. intros [Hx|[b Hx]]; [|congruence]. rewrite Hp in Hx. by destruct q.
  - intros Hp. destruct (T Hle Hrel) as [f Hf]; [by left|]. exists f. split; [done|].
    destruct (Ok_ f Hf) as ([_ Hroot _] & _). by apply Hroot.
Qed.


End Sys.

(** ** The recursion ends *)
Section Fuel.
Context {R E : Type} (d : Driver R E).
Context (sortSlice : (Obj -> Obj -> bool) -> list Obj -> list Obj) (naturalLess : gostr -> gostr -> bool)
        (clock : nat -> Z) (charMap : charmap) (doublestarMatch : gostr -> gostr -> option bool).

Abbreviation list_op' := (list_op d sortSlice naturalLess clock charMap doublestarMatch).
Abbreviation Get' := (Get d sortSlice naturalLess clock charMap doublestarMatch).
Abbreviation MakeDir' := (MakeDir d sortSlice naturalLess clock charMap doublestarMatch).
Abbreviation listWith' := (listWith d sortSlice naturalLess clock charMap doublestarMatch).
Abbreviation getWith' := (getWith d sortSlice naturalLess clock).
Abbreviation makeDirWith' := (makeDirWith d sortSlice naturalLess clock charMap doublestarMatch).

(** Get calls list only for the directory of its path. *)
Lemma getWith_ext (f g : listFn (R:=R) (E:=E)) path excl :
  (forall q n, norm_segs path = q ++ [n] -> forall args v st, f (slashed q) args v st = g (slashed q) args v st) ->
  forall st, getWith d sortSlice naturalLess clock f path excl st = getWith d sortSlice naturalLess clock g path excl st.
Proof.
  intros Hfg st. unfold getWith, mbind, M_bind. destruct (checkStatus d st) as [st1 [u|e]]; [|done].
  rewrite fixAndCleanPath_mkpath, mkpath_root by apply norm_segs_good.
  destruct (bool_decide_reflect (norm_segs path = [])) as [Hp|Hp]; [done|].
  destruct (list_snoc _ Hp) as (q & n & Hq). pose proof (norm_segs_clean path) as Hcl. rewrite Hq in Hcl.
  apply Forall_app in Hcl as [Hcq [Hcn _]%Forall_cons].
  rewrite Hq, path_Split_snoc by (apply Hcn || by apply clean_good).
  destruct (cachedObjs _ _ _ _ _ st1) as [st2 [files|e]]; [|done].
  assert (Hl : forall b st3, getListed f (slashed q) n excl b st3 = getListed g (slashed q) n excl b st3).
  { intros b st3. unfold getListed, mbind, M_bind, try. by rewrite (Hfg q n Hq). }
  assert (Hrest : forall b st3,
    match driverGet d (mkpath (q ++ [n])) st3 with
    | (st4, Ok got) => match got with
        | Some obj => mret obj
        | None => if negb (bool_decide (is_Some files)) || b then getListed f (slashed q) n excl b else fail ObjectNotFound
        end st4
    | (st4, Err e) => (st4, Err e)
    end =
    match driverGet d (mkpath (q ++ [n])) st3 with
    | (st4, Ok got) => match got with
        | Some obj => mret obj
        | None => if negb (bool_decide (is_Some files)) || b then getListed g (slashed q) n excl b else fail ObjectNotFound
        end st4
    | (st4, Err e) => (st4, Err e)
    end).
  { intros b st3. destruct (driverGet d _ st3) as [st4 [[obj|]|e]]; [done| |done].
    destruct (negb (bool_decide (is_Some files)) || b); [apply Hl|done]. }
  destruct (option_bind _ _ (findName n) files) as [o|]; [|apply Hrest]. destruct (excluded excl o); [apply Hrest|done].
Qed.

(** list gives the cleaned path to Get. *)
Lemma listWith_ext (f g : getFn (R:=R) (E:=E)) path args v :
  (forall excl st, f (fixAndCleanPath path) excl st = g (fixAndCleanPath path) excl st) ->
  forall st, listWith' f path args v st = listWith' g path args v st.
Proof.
  intros Hfg st. unfold listWith, mbind, M_bind.
  assert (Hf : forall st',
    fetchListing d sortSlice naturalLess clock charMap doublestarMatch f (fixAndCleanPath path) args st' =
    fetchListing d sortSlice naturalLess clock charMap doublestarMatch g (fixAndCleanPath path) args st').
  { intros st'. unfold fetchListing, unwrapped, mbind, M_bind. by rewrite Hfg. }
  destruct (checkStatus d st) as [st1 [u|e]]; [|done]. destruct (Refresh args); simpl.
  - by rewrite Hf.
  - destruct (cachedObjs _ _ _ _ _ st1) as [st2 [[l|]|e]]; [|by rewrite Hf|done].
    destruct (v l); [by rewrite Hf|done].
Qed.

(** MakeDir calls itself only for the directory of its path. *)
Lemma makeDirWith_ext (f g : gostr -> M (R:=R) (E:=E) unit) path :
  (forall st e, (getRoot d st).2 = Err e -> IsObjectNotFound e = false) ->
  (forall q n, norm_segs path = q ++ [n] -> forall st, f (slashed q) st = g (slashed q) st) ->
  forall st, makeDirWith' f path st = makeDirWith' g path st.
Proof.
  intros Hroot Hfg st. unfold makeDirWith, mbind, M_bind, try.
  destruct (checkStatus d st) as [st1 [u|e]] eqn:Hst; [|done].
  destruct (Get' (fixAndCleanPath path) false st1) as [st2 [f0|e]] eqn:HG; [done|].
  destruct (IsObjectNotFound e) eqn:He; simpl; [|done].
  destruct (decide (norm_segs path = [])) as [Hp|Hp].
  - exfalso. unfold Get, getWith, mbind, M_bind in HG.
    assert (checkStatus d st1 = (st1, Ok u)) as Hst1.
    { unfold checkStatus in *. by destruct (CheckStatus (dConfig d) && _); inversion Hst. }
    rewrite Hst1, (fixAndCleanPath_mkpath (fixAndCleanPath path)), norm_segs_fix, mkpath_root, bool_decide_eq_true_2 in HG by (done || apply norm_segs_good).
    pose proof (Hroot st1 e) as Hr. rewrite HG in Hr. by rewrite Hr in He.
  - destruct (list_snoc _ Hp) as (q & n & Hq). pose proof (norm_segs_clean path) as Hcl.
    rewrite fixAndCleanPath_mkpath, Hq in *. apply Forall_app in Hcl as [Hcq [Hcn _]%Forall_cons].
    rewrite path_Split_snoc by (apply Hcn || by apply clean_good). by rewrite (Hfg q n).
Qed.


End Fuel.

(** ** Examples and witnesses *)
Definition demoTree : ftree :=
  <[strs [] ++ [("x" : gostr)] := false]> (<[strs ["a"; "b"] ++ [("f" : gostr)] := false]>
    (<[strs ["a"] ++ [("b" : gostr)] := true]> (<[strs [] ++ [("a" : gostr)] := true]> ∅))).

Lemma demoTree_wf : wfTree demoTree.
Proof.
  assert (wfTree ∅) as W by (split; [intros p b H|intros p n b H]; by rewrite lookup_empty in H).
  unfold demoTree. repeat apply treeInsert_wf; try done; try (by left); try (right; vm_compute; reflexivity);
    try (vm_compute; intros [=]); apply (bool_decide_eq_true_1 (clean_seg _)); vm_compute; reflexivity.
Qed.

Definition noClock : nat -> Z := fun _ => 0.
Definition noMatch : gostr -> gostr -> option bool := fun _ _ => Some false.

Lemma memSetting : setting memDriver sliceStable noClock [] noMatch wfTree id memDenotes (strs ["m"]) 1.
Proof.
  split.
  - apply sliceStable_perm.
  - intros n. unfold noClock. lia.
  - intros path n. assert (listTTL memDriver noMatch path = 1800000000000) as -> by (vm_compute; reflexivity).
    unfold noClock. lia.
  - apply (bool_decide_eq_true_1 (Forall clean_seg _)). vm_compute. reflexivity.
  - vm_compute. reflexivity.
  - done.
  - apply memLaws.
Qed.

Definition noArgs : ListArgs := mkListArgs [] false false false false.
Definition demoFile (n : gostr) : fileStream := mkFile n 3 0 0 3 None.

Definition demoOps : list fsop :=
  [OList "/a/b" noArgs; OMakeDir "/c/d"; OMove "/a/b" "/c/d"; ORename "/c/d/b/f" "g"; OCopy "/c" "/a";
   OPut false "/c/d" (demoFile "h"); ORemove "/c/d/b"; OPutURL "/e" "u" "http"; OGet "/a/c/d/b/g" true].

Lemma demoOps_allowed : Forall (allowed memDriver []) demoOps.
Proof.
  repeat constructor; unfold plain; try (vm_compute; done);
    apply (bool_decide_eq_true_1 (clean_seg _)) || apply (bool_decide_eq_true_1 (Forall _ _)); vm_compute; reflexivity.
Qed.

Abbreviation demoRun := (runOps memDriver sliceStable str_ltb noClock [] noMatch (start demoTree)).



Lemma fs_get_true_witness :
  let st := (demoRun demoOps).1 in
  let r := (Get memDriver sliceStable str_ltb noClock [] noMatch "/a/c" true st).2 in
  match id (remote st) !! norm_segs "/a/c" with
  | Some b => exists f, r = Ok f /\ GetName f = "c" /\ IsDir f = b
  | None => r = Err ObjectNotFound
  end.
Proof.
  exact (proj1 (fs_get_true memDriver sliceStable str_ltb noClock [] noMatch wfTree id memDenotes (strs ["m"]) 1
    demoOps demoTree "/a/c" true memSetting memReliable demoTree_wf demoOps_allowed) (strs ["a"]) "c" eq_refl).
Defined.

Abbreviation demoRemove := (Remove memDriver sliceStable str_ltb noClock [] noMatch "/a").



(** An upload named like a directory deletes the directory: a directory has
    size 0, and Put removes what is there with size 0. *)
Theorem put_removes_directory :
  let '(st', r) := Put memDriver sliceStable str_ltb noClock [] noMatch false "/" (demoFile "a") (start demoTree) in
  r = Ok tt /\ demoTree !! strs ["a"] = Some true /\ is_Some (demoTree !! strs ["a"; "b"; "f"]) /\
  remote st' !! strs ["a"] = Some false /\ remote st' !! strs ["a"; "b"; "f"] = None.
Proof. vm_compute. repeat split; by eexists. Qed.

(** A driver whose listings fail. *)
Definition failingList : Driver mem unit :=
  mkDriver memConfig (IRootPath "/") (fun t _ _ => (t, Err (Other tt))) None (Some memMakeDir) (Some memMove)
    (Some memRename) (Some memCopy) (Some memRemove) None None.

(** When the listing of the parent directory fails, Remove reports success and
    removes nothing: Get drops the error and says "object not found". *)
Theorem remove_listing_fails :
  let '(st', r) := Remove failingList sliceStable str_ltb noClock [] noMatch "/a" (start demoTree) in
  r = Ok tt /\ remote st' !! strs ["a"] = Some true /\ remote st' !! strs ["a"; "b"; "f"] = Some false.
Proof. vm_compute. done. Qed.

(** The cache after the hourly collection of expired entries. *)
Definition collect (clock : nat -> Z) (st : fs (R:=mem)) : fs (R:=mem) :=
  let c := cache st in
  mkFs (mkCaches (GC neverExpired (dirCache c) (now clock c)) (linkCache c) (ticks c)) (remote st).

(** Listings of "/a" are kept for a minute, others for half an hour. *)
Definition shortConfig : fsConfig :=
  mkConfig "/m" WORK 0 "name" "asc" "front" 30 "/a:1" true false true true false.
Definition shortDriver : Driver mem unit :=
  mkDriver shortConfig (IRootPath "/") memList None (Some memMakeDir) (Some memMove) (Some memRename) (Some memCopy)
    (Some memRemove) None None.
Definition exactMatch (pattern path : gostr) : option bool := Some (seqb pattern path).
Definition lateClock (n : nat) : Z := if decide (n < 5)%nat then 0 else 2 * minute.

(** When the listing of a directory has expired and was collected while that of
    a directory below it lives on, removing the upper directory leaves the lower
    listing in the cache: it is still answered. *)
Theorem expired_listing_stale :
  let st := (List shortDriver sliceStable str_ltb lateClock [] exactMatch "/a/b" noArgs (start demoTree)).1 in
  let st := (List shortDriver sliceStable str_ltb lateClock [] exactMatch "/" noArgs st).1 in
  let st := (List shortDriver sliceStable str_ltb lateClock [] exactMatch "/" noArgs st).1 in
  let '(st, r) := Remove shortDriver sliceStable str_ltb lateClock [] exactMatch "/a" (collect lateClock st) in
  let l := (List shortDriver sliceStable str_ltb lateClock [] exactMatch "/a/b" noArgs st).2 in
  r = Ok tt /\ remote st !! strs ["a"] = None /\ (exists objs, l = Ok objs /\ map GetName objs = strs ["f"]).
Proof. vm_compute. split_and!; [done|done|]. eexists. split; [done|]. done. Qed.
