(* ===== verification/FsView.v ===== *)
(** The file system as a user sees it: src/internal/fs/list.go, get.go and the
    operations of other.go. A path of the whole system is resolved to a storage
    (Mounts), the storage's operation runs (OpFs), and a listing is merged with
    the virtual files of the mount points, without what the rules of a meta hide
    and what the user may not read (Objects, Auth).

    The mounted storages share one remote side [R] (each driver uses its part of
    it) and the directory cache. The metas are those of the database during the
    call. With storage details each virtual file is wrapped in an object that
    shows the same name, kind and mask; the wrapper is left out. *)
From S2P Require Import Prelude GoString GoPath Paths Auth Mounts Storages Objects KeyedCache DirCache OpFs.
From S2P Require Import FsTree OpFsMem OpFsSys.

(** Objects and Mounts name the same bits. *)
Definition virtualObj (v : VObject) : Obj :=
  Leaf (mkObject [] [] (vName v) 0 (vModified v) 0 (vFolder v) [] (vMask v)) None.

Inductive fs_error (E : Type) :=
| EStorage (e : op_err)
| EOp (e : op_error E)
| EMeta (e : meta_err)
| EPanic.   (* regexp2.MustCompile *)
Arguments EStorage {E}. Arguments EOp {E}. Arguments EMeta {E}. Arguments EPanic {E}.

Record FsListArgs := mkFsListArgs { fRefresh : bool; fWithStorageDetails : bool }.

Section View.
Context {R E D : Type} (GetStorage : D -> Storage) (drv : D -> Driver R E).
Context (sortSlice : (Obj -> Obj -> bool) -> list Obj -> list Obj) (naturalLess : gostr -> gostr -> bool)
        (clock : nat -> Z) (charMap : charmap) (doublestarMatch : gostr -> gostr -> option bool).
Context (equalFold : gostr -> gostr -> bool)
        (compiles : gostr -> bool) (matches : gostr -> gostr -> bool)   (* regexp2 *)
        (getMetaByPath : gostr -> res meta_err Meta) (getMetaSnapshot : res meta_err (list Meta))
        (entries : list (gostr * D)).                                   (* storagesMap *)

Abbreviation values := (map snd entries).
Abbreviation nearest := (GetNearestMeta equalFold getMetaByPath getMetaSnapshot).

Record world := mkWorld { balanceMap : gmap gostr Z; ops : fs (R:=R) }.

(** op.GetStorageAndActualPath *)
Definition resolve (path : gostr) (w : world) : world * res (fs_error E) (D * gostr) :=
  let '(bm, r) := GetStorageAndActualPath GetStorage entries (balanceMap w) path in
  (mkWorld bm (ops w), match r with Ok x => Ok x | Err e => Err (EStorage e) end).

(** An operation of a storage. *)
Definition runOn {A} (m : M (R:=R) (E:=E) A) (w : world) : world * res (fs_error E) A :=
  let '(st, r) := m (ops w) in
  (mkWorld (balanceMap w) st, match r with Ok x => Ok x | Err e => Err (EOp e) end).

(** ** Listings *)
Definition whetherHide (user : option User) (meta : option Meta) (path : gostr) : bool :=
  match user with
  | None => false
  | Some u =>
      if CanSeeHides (Permission u) then false
      else match meta with
           | None => false
           | Some m => if seqb (Hide m) "" then false else MetaCoversPath equalFold (mPath m) path (HSub m)
           end
  end.

(** The meta of an object of the listing: that of its own path for a folder,
    that of the listed directory for a file. *)
Definition metaFor (parentMeta : option Meta) (objPath : gostr) (obj : Obj) : res (fs_error E) (option Meta) :=
  if IsDir obj then
    match nearest objPath with
    | Some (Ok m) => Ok (Some m)
    | Some (Err MetaNotFound) => Ok None
    | Some (Err e) => Err (EMeta e)
    | None => Err (EMeta DbError)   (* GetNearestMeta always answers *)
    end
  else Ok parentMeta.

Fixpoint filterReadableObjs (objs : list Obj) (user : option User) (reqPath : gostr) (parentMeta : option Meta)
    : res (fs_error E) (list Obj) :=
  match objs with
  | [] => Ok []
  | obj :: objs =>
      let objPath := path_join2 reqPath (GetName obj) in
      match metaFor parentMeta objPath obj with
      | Err e => Err e
      | Ok meta =>
          match filterReadableObjs objs user reqPath parentMeta with
          | Err e => Err e
          | Ok result => Ok (if CanRead equalFold user meta objPath then obj :: result else result)
          end
      end
  end.

(** The objects of the storage and the virtual files. *)
Definition listSources (path : gostr) (args : FsListArgs) (w : world)
    : world * res (fs_error E) (list Obj * list Obj) :=
  let virtualFiles := map virtualObj (getStorageVirtualFilesByPath GetStorage values path []) in
  let none := match virtualFiles with [] => true | _ => false end in
  match resolve path w with
  | (w, Err e) => (w, if none then Err e else Ok ([], virtualFiles))
  | (w, Ok (d, actualPath)) =>
      let largs := mkListArgs path false (fRefresh args) (fWithStorageDetails args) false in
      match runOn (List (drv d) sortSlice naturalLess clock charMap doublestarMatch actualPath largs) w with
      | (w, Err e) => (w, if none then Err e else Ok ([], virtualFiles))
      | (w, Ok objs) => (w, Ok (objs, virtualFiles))
      end
  end.

(** The merger with the hide rules, or a panic on a rule that does not compile. *)
Definition hider (user : option User) (meta : option Meta) (path : gostr) : res (fs_error E) ObjMerge :=
  match meta with
  | Some m =>
      if whetherHide user meta path then
        if forallb compiles (splitByte (Hide m) newline) then Ok (InitHideReg NewObjMerge (Hide m)) else Err EPanic
      else Ok NewObjMerge
  | None => Ok NewObjMerge
  end.

Definition fsList (user : option User) (meta : option Meta) (path : gostr) (args : FsListArgs) (w : world)
    : world * res (fs_error E) (list Obj) :=
  match listSources path args w with
  | (w, Err e) => (w, Err e)
  | (w, Ok (objs, virtualFiles)) =>
      (w, match hider user meta path with
          | Err e => Err e
          | Ok om => filterReadableObjs (Merge matches om objs virtualFiles).2 user path meta
          end)
  end.

(** ** Single objects *)
Definition rootObj : Obj :=
  Leaf (mkObject [] [] "root" 0 0 0 true [] (Z.lor ReadOnly Virtual)) None.

Definition fsGet (path : gostr) (w : world) : world * res (fs_error E) Obj :=
  let path := fixAndCleanPath path in
  let root := seqb path "/" in
  let '(dir, name) := path_Split path in
  let virtualFiles := if root then [] else map virtualObj (getStorageVirtualFilesByPath GetStorage values dir name) in
  match findName name virtualFiles with
  | Some f => (w, Ok f)
  | None =>
      match resolve path w with
      | (w, Err e) => (w, if root then Ok rootObj else Err e)
      | (w, Ok (d, actualPath)) =>
          runOn (Get (drv d) sortSlice naturalLess clock charMap doublestarMatch actualPath false) w
      end
  end.

(** An operation on the storage a path resolves to. *)
Definition onStorage {A} (op : D -> gostr -> M (R:=R) (E:=E) A) (path : gostr) (w : world)
    : world * res (fs_error E) A :=
  match resolve path w with
  | (w, Err e) => (w, Err e)
  | (w, Ok (d, actualPath)) => runOn (op d actualPath) w
  end.

Definition fsMakeDir : gostr -> world -> world * res (fs_error E) unit :=
  onStorage (fun d => MakeDir (drv d) sortSlice naturalLess clock charMap doublestarMatch).
Definition fsRename (srcPath dstName : gostr) : world -> world * res (fs_error E) unit :=
  onStorage (fun d p => Rename (drv d) sortSlice naturalLess clock charMap doublestarMatch p dstName) srcPath.
Definition fsRemove : gostr -> world -> world * res (fs_error E) unit :=
  onStorage (fun d => Remove (drv d) sortSlice naturalLess clock charMap doublestarMatch).

End View.

(** ** Lemmas *)
Lemma firsts_findName matches rs seen l o :
  o ∈ firsts matches rs seen l <->
  hidden matches rs o = false /\ GetName o ∉ seen /\ findName (GetName o) l = Some o.
Proof.
  revert seen. induction l as [|x l IH]; intros seen; simpl; [split; [by intros ?%not_elem_of_nil|by intros (_ & _ & ?)]|].
  assert (Hskip : hidden matches rs o = false -> GetName o ∉ seen -> hidden matches rs x = true \/ GetName x ∈ seen ->
    seqb (GetName x) (GetName o) = false).
  { intros Ho Hs Hx. apply seqb_false. intros En. unfold hidden in *. rewrite En in Hx. destruct Hx; [congruence|done]. }
  assert (Hin : (hidden matches rs x = true \/ GetName x ∈ seen) -> o ∈ firsts matches rs seen l <->
    hidden matches rs o = false /\ GetName o ∉ seen /\
    (if seqb (GetName x) (GetName o) then Some x else findName (GetName o) l) = Some o).
  { intros Hx. rewrite IH. split; intros (Ho & Hs & Hf); (split_and!; [done|done|]); by rewrite (Hskip Ho Hs Hx) in *. }
  destruct (hidden matches rs x) eqn:Hh; [apply Hin; by left|].
  destruct (bool_decide_reflect (GetName x ∈ seen)) as [Hs|Hs]; [apply Hin; by right|]. clear Hin Hskip.
  rewrite elem_of_cons, IH, not_elem_of_union, not_elem_of_singleton. destruct (seqb (GetName x) (GetName o)) eqn:En.
  - apply seqb_true in En. split; [intros [->|(_ & [Hne _] & _)]; [done|congruence]|]. intros (_ & _ & [= ->]). by left.
  - apply seqb_false in En. split; [intros [->|(Ho & [_ ?] & ?)]; done|]. intros (Ho & ? & ?). right.
    split_and!; [done|congruence|done|done].
Qed.

Lemma dropTrailing_last f s c : f c = false -> dropTrailing f (s ++ [c]) = s ++ [c].
Proof. intros Hc. induction s as [|a s IH]; simpl; [by rewrite Hc|]. rewrite IH. by destruct s. Qed.

Lemma path_Base_snoc P n : good_seg n -> path_Base (mkpath (P ++ [n])) = n.
Proof.
  intros (Hn & _ & _ & Hs). destruct (list_snoc _ Hn) as (n' & c & ->).
  assert (Hc : bool_decide (c = slash) = false).
  { apply bool_decide_eq_false. intros ->. apply Hs. apply elem_of_app. right. by left. }
  assert (exists pre, mkpath (P ++ [n' ++ [c]]) = pre ++ slash :: n' ++ [c]) as [pre Hm].
  { rewrite mkpath_snoc. destruct P; [by exists []|by eexists]. }
  assert (Hd : dropTrailing (fun c => bool_decide (c = slash)) (pre ++ slash :: n' ++ [c]) = pre ++ slash :: n' ++ [c]).
  { rewrite !app_comm_cons, (assoc_L (++)). by apply dropTrailing_last. }
  unfold path_Base. rewrite Hm. destruct (pre ++ slash :: n' ++ [c]) eqn:Hp; [by destruct pre|]. rewrite <- Hp in *.
  rewrite Hd, lastIndexByte_app by done. clear Hd Hm Hp.
  assert (drop (S (length pre)) (pre ++ slash :: n' ++ [c]) = n' ++ [c]) as ->.
  { rewrite <- (Nat.add_1_r (length pre)), <- drop_drop, drop_app_length. done. }
  destruct (seqb (n' ++ [c]) "") eqn:E; [apply seqb_true in E; by destruct n'|done].
Qed.

Lemma findName_first n l : n ∈ map GetName l -> exists o, findName n l = Some o /\ GetName o = n.
Proof.
  induction l as [|x l IH]; simpl; [by intros ?%not_elem_of_nil|]. destruct (seqb (GetName x) n) eqn:E.
  - apply seqb_true in E. intros _. by exists x.
  - apply seqb_false in E. intros [->|H]%elem_of_cons; [done|by apply IH].
Qed.

Section Shown.
Context {R E D : Type} (GetStorage : D -> Storage) (drv : D -> Driver R E).
Context (sortSlice : (Obj -> Obj -> bool) -> list Obj -> list Obj) (naturalLess : gostr -> gostr -> bool)
        (clock : nat -> Z) (charMap : charmap) (doublestarMatch : gostr -> gostr -> option bool).
Context (equalFold : gostr -> gostr -> bool) (compiles : gostr -> bool) (matches : gostr -> gostr -> bool)
        (getMetaByPath : gostr -> res meta_err Meta) (getMetaSnapshot : res meta_err (list Meta))
        (entries : list (gostr * D)).

Abbreviation metaFor' := (metaFor (E:=E) equalFold getMetaByPath getMetaSnapshot).
Abbreviation nearest' := (GetNearestMeta equalFold getMetaByPath getMetaSnapshot).
Abbreviation fsList' := (fsList GetStorage drv sortSlice naturalLess clock charMap doublestarMatch equalFold compiles
  matches getMetaByPath getMetaSnapshot entries).
Abbreviation listSources' := (listSources GetStorage drv sortSlice naturalLess clock charMap doublestarMatch entries).

(** The user may read the object, by the meta that counts for it. *)
Definition readable (user : option User) (meta : option Meta) (path : gostr) (o : Obj) : Prop :=
  exists m, metaFor' meta (path_join2 path (GetName o)) o = Ok m /\
            CanRead equalFold user m (path_join2 path (GetName o)) = true.

(** A rule of the meta hides the name from the user. *)
Definition hidesName (user : option User) (meta : option Meta) (path name : gostr) : Prop :=
  whetherHide equalFold user meta path = true /\
  exists m rule, meta = Some m /\ rule ∈ splitByte (Hide m) newline /\ matches rule name = true.

Lemma filter_shown user path meta objs l o :
  filterReadableObjs (E:=E) equalFold getMetaByPath getMetaSnapshot objs user path meta = Ok l ->
  o ∈ l <-> o ∈ objs /\ readable user meta path o.
Proof.
  revert l. induction objs as [|x objs IH]; intros l; simpl.
  { intros [= <-]. split; [by intros ?%not_elem_of_nil|by intros [?%not_elem_of_nil _]]. }
  destruct (metaFor' meta _ x) as [m|e] eqn:Hm; [|done].
  destruct (filterReadableObjs _ _ _ objs _ _ _) as [r|e]; [|done]. intros [= <-].
  specialize (IH r eq_refl). rewrite elem_of_cons.
  destruct (CanRead equalFold user m _) eqn:Hr; [rewrite elem_of_cons|]; rewrite IH.
  - split; [|tauto]. intros [->|[? ?]]; [|tauto]. split; [by left|]. by exists m.
  - split; [intros []; split; [by right|done]|]. intros [[->|?] Hx]; [|done]. destruct Hx as (m' & Hm' & Hr'). congruence.
Qed.

Lemma filter_sub user path meta objs l :
  filterReadableObjs (E:=E) equalFold getMetaByPath getMetaSnapshot objs user path meta = Ok l -> l `sublist_of` objs.
Proof.
  revert l. induction objs as [|x objs IH]; intros l; simpl; [by intros [= <-]|].
  destruct (metaFor' meta _ x) as [m|e]; [|done].
  destruct (filterReadableObjs _ _ _ objs _ _ _) as [r|e]; [|done]. intros [= <-].
  specialize (IH r eq_refl). destruct (CanRead _ _ _ _); by constructor.
Qed.

Lemma hider_hides user meta path om o :
  hider (E:=E) equalFold compiles user meta path = Ok om ->
  mset om = ∅ /\ (hidden matches (regs om) o = true <-> hidesName user meta path (GetName o)).
Proof.
  unfold hider, hidesName. destruct meta as [m|]; [|intros [= <-]; split; [done|by split; [|intros (_ & ? & ? & ? & _)]]].
  destruct (whetherHide equalFold user (Some m) path); [|intros [= <-]; split; [done|by split; [|intros [? _]]]].
  destruct (forallb _ _); [|done]. intros [= <-]. split; [done|]. unfold hidden. simpl. rewrite existsb_exists. split.
  - intros (r & Hr & Hm). split; [done|]. exists m, r. by rewrite list_elem_of_In.
  - intros (_ & m' & r & [= <-] & Hr & Hm). exists r. by rewrite <- list_elem_of_In.
Qed.

Lemma fsList_inv user meta path args w w1 objs vs w' l :
  listSources' path args w = (w1, Ok (objs, vs)) ->
  fsList' user meta path args w = (w', Ok l) ->
  w' = w1 /\ exists om, hider (E:=E) equalFold compiles user meta path = Ok om /\
    filterReadableObjs (E:=E) equalFold getMetaByPath getMetaSnapshot (firsts matches (regs om) ∅ (objs ++ vs)) user path meta = Ok l.
Proof.
  intros Hs. unfold fsList. rewrite Hs. destruct (hider equalFold compiles user meta path) as [om|e] eqn:Hh; [|done].
  intros [= <- Hf]. split; [done|]. exists om. split; [done|].
  destruct (hider_hides _ _ _ _ (virtualObj (mkVObject [] 0 true 0)) Hh) as [Hm _].
  unfold Merge in Hf. rewrite insertObjs_firsts, insertObjs_firsts in Hf. simpl in Hf.
  rewrite Hm in Hf. by rewrite mergeFirsts_app.
Qed.

(** A listing shows every name at most once; of a name it shows the storage's
    object before a virtual file and the first before others, if no rule hides
    the name from the user and the user may read the object. *)
Theorem fsList_shows user meta path args w w1 objs vs w' l :
  listSources' path args w = (w1, Ok (objs, vs)) ->
  fsList' user meta path args w = (w', Ok l) ->
  NoDup (map GetName l) /\
  forall o, o ∈ l <-> findName (GetName o) (objs ++ vs) = Some o /\
    ~ hidesName user meta path (GetName o) /\ readable user meta path o.
Proof.
  intros Hs Hl. destruct (fsList_inv _ _ _ _ _ _ _ _ _ _ Hs Hl) as (_ & om & Hh & Hf). split.
  - eapply sublist_NoDup; [apply firsts_NoDup|]. apply (fmap_sublist GetName), (filter_sub _ _ _ _ _ Hf).
  - intros o. destruct (hider_hides _ _ _ _ o Hh) as [_ Hi]. rewrite (filter_shown _ _ _ _ _ _ Hf), firsts_findName, <- Hi.
    rewrite not_true_iff_false. split; [intros ((H1 & _ & H2) & H3)|intros (H1 & H2 & H3)]; split_and!; try done.
Qed.

(** CanAccess with the patterns of regexp2. *)
Definition matchRule (rule name : gostr) : option bool := if compiles rule then Some (matches rule name) else None.

Lemma hiddenBy_exists rules name :
  forallb compiles rules = true ->
  hiddenBy matchRule rules name = Some (existsb (fun r => matches r name) rules).
Proof.
  induction rules as [|r rules IH]; simpl; [done|]. intros [Hr Hrs]%andb_true_iff.
  unfold matchRule. rewrite Hr. destruct (matches r name); [done|]. by apply IH.
Qed.

(** What CanAccess says about an entry of a directory with the password of its
    meta: no rule hides it and the user may read it. *)
Lemma CanAccess_child u meta P n om :
  Forall clean_seg P -> clean_seg n ->
  hider (E:=E) equalFold compiles (Some u) meta (mkpath P) = Ok om ->
  CanAccess equalFold matchRule u meta (mkpath (P ++ [n])) (from_option Password [] meta) = Some true <->
  ~ hidesName (Some u) meta (mkpath P) n /\ CanRead equalFold (Some u) meta (mkpath (P ++ [n])) = true.
Proof.
  intros HP Hn Hh. unfold CanAccess. rewrite path_Dir_snoc by (apply Hn || by apply clean_good).
  rewrite path_Base_snoc by apply Hn.
  assert (Hpw : match meta with
    | None => true
    | Some m => if seqb (Password m) "" then true
                else if negb (MetaCoversPath equalFold (mPath m) (mkpath (P ++ [n])) (PSub m)) then true
                else seqb (Password m) (from_option Password [] meta)
    end = true).
  { destruct meta as [m|]; [|done]. simpl. rewrite seqb_refl. destruct (seqb _ _); [done|]. by destruct (negb _). }
  rewrite Hpw. clear Hpw. set (can := CanRead equalFold (Some u) meta (mkpath (P ++ [n]))). clearbody can.
  assert (Htail : forall h : bool, Some (if h then false else if negb can then false else
      if CanAccessWithoutPassword (Permission u) then true else true) = Some true <-> h = false /\ can = true).
  { intros h. destruct h; [by split; [|intros []]|]. destruct can; simpl; [|by split; [|intros []]].
    by destruct (CanAccessWithoutPassword _). }
  unfold hidesName, hider in *. destruct meta as [m|]; cbn [whetherHide] in *.
  2:{ etransitivity; [apply (Htail false)|]. destruct (CanSeeHides _); (split; intros [_ ?]; (split; [|done]); [by intros [? _]|done]). }
  assert (Hcond : (negb (CanSeeHides (Permission u)) && negb (seqb (Hide m) "") &&
     MetaCoversPath equalFold (mPath m) (mkpath P) (HSub m)) =
     (if CanSeeHides (Permission u) then false else if seqb (Hide m) "" then false
      else MetaCoversPath equalFold (mPath m) (mkpath P) (HSub m))).
  { by destruct (CanSeeHides _), (seqb _ _). }
  rewrite Hcond. clear Hcond. destruct (if CanSeeHides _ then _ else _).
  - destruct (forallb _ _) eqn:Hc; [|done]. rewrite hiddenBy_exists, Htail by done.
    assert (Hx : existsb (fun r => matches r n) (splitByte (Hide m) newline) = true <->
      (true = true /\ exists m0 rule, Some m = Some m0 /\ rule ∈ splitByte (Hide m0) newline /\ matches rule n = true)).
    { rewrite existsb_exists. split.
      - intros (r & Hr & Hm). split; [done|]. exists m, r. by rewrite list_elem_of_In.
      - intros (_ & m' & r & [= <-] & Hr & Hm). exists r. by rewrite <- list_elem_of_In. }
    by rewrite <- Hx, not_true_iff_false.
  - etransitivity; [apply (Htail false)|]. split; intros [_ ?]; (split; [|done]); [by intros [? _]|done].
Qed.

(** C24: a listing shows exactly the entries the user gets access to: the name of an
    entry without a meta of its own is in the listing if and only if CanAccess,
    with the password of the directory's meta, admits the path of the entry. *)
Theorem listing_accessible u P meta args w w1 objs vs w' l n :
  Forall clean_seg P -> clean_seg n ->
  nearest' (mkpath (P ++ [n])) = Some (from_option Ok (Err MetaNotFound) meta) ->
  listSources' (mkpath P) args w = (w1, Ok (objs, vs)) ->
  fsList' (Some u) meta (mkpath P) args w = (w', Ok l) ->
  n ∈ map GetName l <-> n ∈ map GetName (objs ++ vs) /\
    CanAccess equalFold matchRule u meta (mkpath (P ++ [n])) (from_option Password [] meta) = Some true.
Proof.
  intros HP Hn Hnear Hs Hl. destruct (fsList_inv _ _ _ _ _ _ _ _ _ _ Hs Hl) as (_ & om & Hh & _).
  destruct (fsList_shows _ _ _ _ _ _ _ _ _ _ Hs Hl) as [_ Hsh]. rewrite (CanAccess_child u meta P n om) by done.
  assert (Hr : forall o, GetName o = n -> readable (Some u) meta (mkpath P) o <->
    CanRead equalFold (Some u) meta (mkpath (P ++ [n])) = true).
  { intros o Ho. unfold readable. rewrite Ho, path_join2_snoc by (apply Hn || by apply clean_good).
    assert (metaFor' meta (mkpath (P ++ [n])) o = Ok meta) as ->.
    { unfold metaFor. destruct (IsDir o); [|done]. rewrite Hnear. by destruct meta. }
    split; [by intros (m & [= <-] & ?)|]. intros Hc. by exists meta. }
  split.
  - intros (o & -> & Ho)%list_elem_of_fmap. apply Hsh in Ho as (Hf & Hh' & Hr'). split_and!; [|done|by apply (Hr o)].
    apply list_elem_of_fmap. exists o. split; [done|]. by apply findName_Some in Hf as [? _].
  - intros (Hin & Hh' & Hc). destruct (findName_first n (objs ++ vs) Hin) as (o & Hf & <-).
    apply list_elem_of_fmap. exists o. split; [done|]. apply Hsh. split_and!; [done|done|by apply Hr].
Qed.

End Shown.

(** ** Examples and witnesses *)

(** Two storages in memory: one at "/m", one at "/m/v/w". *)
Definition demoStores : list (gostr * Storage) :=
  map (fun s => (MountPath s, s)) [demoStorage "/m" 0; demoStorage "/m/v/w" 1].

(** Below "/m" names with an x in the first place are hidden. *)
Definition demoMeta : Meta := mkMeta "/m" [] false [] false "pw" true false false "x" true.
Definition demoMetas (p : gostr) : res meta_err Meta := if seqb p "/m" then Ok demoMeta else Err MetaNotFound.
Definition demoUser : User := mkUser 7 GENERAL "/" 0 [] [].

Abbreviation demoSources := (listSources (D:=Storage) id (fun _ => memDriver) sliceStable str_ltb noClock [] noMatch
  demoStores "/m" (mkFsListArgs false false)).
Abbreviation demoList := (fsList (D:=Storage) id (fun _ => memDriver) sliceStable str_ltb noClock [] noMatch seqb
  (fun _ => true) (fun rule name => hasPrefix name rule) demoMetas (Ok [demoMeta]) demoStores (Some demoUser)
  (Some demoMeta) "/m" (mkFsListArgs false false)).
Definition demoWorld : world (R:=mem) := mkWorld ∅ (start demoTree).

Definition okValue {A} (x : world (R:=mem) * res (fs_error unit) A) (a : A) : A := match x.2 with Ok v => v | Err _ => a end.

Lemma okValue_pair {A} (x : world (R:=mem) * res (fs_error unit) A) a : is_ok x.2 = true -> x = (x.1, Ok (okValue x a)).
Proof. destruct x as [w [v|e]]; [done|discriminate]. Qed.

Lemma demo_sources : demoSources demoWorld = ((demoSources demoWorld).1, Ok (okValue (demoSources demoWorld) ([], []))).
Proof. apply okValue_pair. vm_compute. reflexivity. Qed.

Lemma demo_listed : demoList demoWorld = ((demoList demoWorld).1, Ok (okValue (demoList demoWorld) [])).
Proof. apply okValue_pair. vm_compute. reflexivity. Qed.

Example demo_list :
  map GetName (okValue (demoList demoWorld) []) = strs ["a"; "v"].
Proof. vm_compute. reflexivity. Qed.

Lemma fsList_shows_witness :
  NoDup (map GetName (okValue (demoList demoWorld) [])) /\
  map GetName (okValue (demoList demoWorld) []) = strs ["a"; "v"].
Proof.
  split; [|exact demo_list]. pose proof demo_sources as Hs. destruct (okValue (demoSources demoWorld) _) as [objs vs].
  exact (proj1 (fsList_shows (D:=Storage) id (fun _ => memDriver) sliceStable str_ltb noClock [] noMatch seqb
    (fun _ => true) (fun rule name => hasPrefix name rule) demoMetas (Ok [demoMeta]) demoStores (Some demoUser)
    (Some demoMeta) "/m" (mkFsListArgs false false) demoWorld _ _ _ _ _ Hs demo_listed)).
Defined.

Lemma listing_accessible_witness :
  let src := okValue (demoSources demoWorld) ([], []) in
  ("x" : gostr) ∈ map GetName (okValue (demoList demoWorld) []) <->
  ("x" : gostr) ∈ map GetName (src.1 ++ src.2) /\
    CanAccess seqb (matchRule (fun _ => true) (fun rule name => hasPrefix name rule)) demoUser (Some demoMeta)
      (mkpath (strs ["m"] ++ [("x" : gostr)])) "pw" = Some true.
Proof.
  intros src. pose proof demo_sources as Hs. fold src in Hs. clearbody src. destruct src as [objs vs].
  refine (listing_accessible (D:=Storage) id (fun _ => memDriver) sliceStable str_ltb noClock [] noMatch seqb
    (fun _ => true) (fun rule name => hasPrefix name rule) demoMetas (Ok [demoMeta]) demoStores demoUser (strs ["m"])
    (Some demoMeta) (mkFsListArgs false false) demoWorld _ _ _ _ _ "x" _ _ _ Hs demo_listed).
  - apply (bool_decide_eq_true_1 (Forall clean_seg _)). vm_compute. reflexivity.
  - apply (bool_decide_eq_true_1 (clean_seg _)). vm_compute. reflexivity.
  - vm_compute. reflexivity.
Defined.
