(* ===== verification/UrlTree.v ===== *)
(** The driver UrlTree of src/drivers/url_tree: a tree of links kept as text in
    the settings of the storage (types.go, util.go) and its operations
    (driver.go), as a [Driver] of [OpFs].

    A pointer to a node of the tree is the position of the node, the indices of
    the children on the way from the root. HEAD requests are a parameter: the
    size the server announces for a URL, if any. *)
From S2P Require Import Prelude GoString GoPath Paths Mounts Storages Objects KeyedCache DirCache OpFs.

(** ** Nodes: types.go *)
Inductive Node := mkNode {
  Url : gostr; nName : gostr; Level : Z; nModified : Z; nSize : Z; Children : list Node
}.

Definition setChildren (n : Node) (l : list Node) : Node := mkNode (Url n) (nName n) (Level n) (nModified n) (nSize n) l.
Definition setName (n : Node) (name : gostr) : Node := mkNode (Url n) name (Level n) (nModified n) (nSize n) (Children n).
Definition addChild (n c : Node) : Node := setChildren n (Children n ++ [c]).

Definition isFile (n : Node) : bool := negb (seqb (Url n) "").

(** The position of the node getByPath returns; of several children with the
    name it goes back to the next one when the search below the first fails. *)
Fixpoint firstChild (f : Node -> option (list nat)) (i : nat) (l : list Node) : option (list nat) :=
  match l with
  | [] => None
  | c :: l => match f c with Some q => Some (i :: q) | None => firstChild f (S i) l end
  end.

Fixpoint getByPath (paths : list gostr) (node : Node) : option (list nat) :=
  match paths with
  | [] => None
  | p :: rest =>
      if negb (seqb (nName node) p) then None
      else match rest with
           | [] => Some []
           | _ => firstChild (getByPath rest) 0 (Children node)
           end
  end.

(** The sizes of the folders, from the leaves to the root. *)
Fixpoint calSize (n : Node) : Node :=
  if isFile n then n
  else
    let l := map calSize (Children n) in
    mkNode (Url n) (nName n) (Level n) (nModified n) (foldl (fun size c => i64 (size + nSize c)) 0 l) l.

Fixpoint setLevel (level : Z) (n : Node) : Node :=
  mkNode (Url n) (nName n) level (nModified n) (nSize n) (map (setLevel (level + 1)) (Children n)).

Fixpoint deepCopy (level : Z) (n : Node) : Node :=
  mkNode (Url n) (nName n) level (nModified n) (nSize n) (map (deepCopy (level + 1)) (Children n)).

(** ** Text: util.go *)
Inductive tree_err :=
| OddIndent (line : gostr)
| UrlRequired (line : gostr)
| InfoColon (line : gostr)
| EmptyName (line : gostr)
| BadSize (line : gostr)
| BadModified (line : gostr)
| ParentToChild.

Definition nl : ascii := ascii_of_nat 10.
Definition colon : ascii := ":"%char.

Section Text.
Context (head_ : gostr -> option Z).   (* getSizeFromUrl *)

Definition isFolder (line : gostr) : bool := hasSuffix line ":".

Definition trimSuffix (s p : gostr) : gostr := if hasSuffix s p then take (length s - length p) s else s.

Definition sizeOf (headSize haveSize : bool) (url : gostr) (size : Z) : Z :=
  if negb haveSize && headSize then default size (head_ url) else size.

Definition parseFileLine (line : gostr) (headSize : bool) : res tree_err Node :=
  if negb (contains line "http://") && negb (contains line "https://") then Err (UrlRequired line)
  else
    let index := match index line "http://" with Some i => i | None => default 0%nat (index line "https://") end in
    let url := drop index line in
    let info := take index line in
    let node name size modified haveSize :=
      mkNode url name 0 modified (sizeOf headSize haveSize url size) [] in
    if (0 <? index)%nat then
      if negb (hasSuffix info ":") then Err (InfoColon line)
      else
        let info := take (length info - 1) info in
        if seqb info "" then Err (EmptyName line)
        else
          match splitByte info colon with
          | name :: size :: rest =>
              match parseInt size with
              | (_, Some _) => Err (BadSize line)
              | (size, None) =>
                  match rest with
                  | [] => Ok (node name size 0 true)
                  | modified :: _ =>
                      match parseInt modified with
                      | (_, Some _) => Err (BadModified line)
                      | (modified, None) => Ok (node name size modified true)
                      end
                  end
              end
          | name :: [] => Ok (node name 0 0 false)
          | [] => Ok (node [] 0 0 false)   (* strings.Split never answers an empty list here *)
          end
    else Ok (node (path_Base url) 0 0 false).

Fixpoint countSpaces (line : gostr) : nat :=
  match line with
  | c :: line => if bool_decide (c = " "%char) then S (countSpaces line) else O
  | [] => O
  end.

(** The stack of BuildTree, the innermost open folder first: a folder gets its
    children while it is on the stack and joins its parent when it is popped.
    The root has level -1 and is never popped. *)
Definition stack : Type := (Node * list Node)%type.   (* the top, the folders below it *)

Fixpoint popTo (level : Z) (top : Node) (below : list Node) : stack :=
  match below with
  | [] => (top, [])
  | p :: below' => if level <=? Level top then popTo level (addChild p top) below' else (top, below)
  end.

Definition buildLine (headSize : bool) (st : stack) (line : gostr) : res tree_err stack :=
  let indent := countSpaces line in
  if negb (Nat.even indent) then Err (OddIndent line)
  else
    let level := Z.of_nat indent / 2 in
    let line := trimSpace (drop indent line) in
    if seqb line "" then Ok st
    else
      let '(top, below) := popTo level st.1 st.2 in
      if isFolder line then Ok (mkNode [] (trimSuffix line ":") level 0 0 [], top :: below)
      else
        match parseFileLine line headSize with
        | Err e => Err e
        | Ok f => Ok (addChild top (mkNode (Url f) (nName f) level (nModified f) (nSize f) []), below)
        end.

Fixpoint buildLoop (headSize : bool) (st : stack) (lines : list gostr) : res tree_err stack :=
  match lines with
  | [] => Ok st
  | line :: lines =>
      match buildLine headSize st line with
      | Ok st => buildLoop headSize st lines
      | Err e => Err e
      end
  end.

Definition rootNode : Node := mkNode [] "root" (-1) 0 0 [].

Definition BuildTree (text : gostr) (headSize : bool) : res tree_err Node :=
  match buildLoop headSize (rootNode, []) (splitByte text nl) with
  | Ok (top, below) => Ok (popTo (-1) top below).1
  | Err e => Err e
  end.

Fixpoint indentOf (k : nat) : gostr := match k with O => [] | S k => "  " ++ indentOf k end.

(** The text of a file after the indentation. *)
Definition fileLine (n : Node) : gostr :=
  if (nSize n =? 0) && (nModified n =? 0) then
    if seqb (path_Base (Url n)) (nName n) then Url n else nName n ++ ":" ++ Url n
  else
    nName n ++ ":" ++ formatInt (nSize n) ++ ":" ++
    (if nModified n =? 0 then [] else formatInt (nModified n) ++ ":") ++ Url n.

Fixpoint StringifyTree (n : Node) : gostr :=
  if Level n =? -1 then joinStr (map StringifyTree (Children n)) [nl]
  else
    indentOf (Z.to_nat (Level n)) ++
    (if seqb (Url n) "" then nName n ++ ":" ++ flat_map (fun c => nl :: StringifyTree c) (Children n)
     else fileLine n).

Definition splitPath (path : gostr) : list gostr :=
  if seqb path "/" then ["root" : gostr]
  else match splitByte (trimSuffix path "/") slash with
       | _ :: parts => ("root" : gostr) :: parts
       | [] => []
       end.

Definition GetNodeFromRootByPath (root : Node) (path : gostr) : option (list nat) :=
  getByPath (splitPath path) root.

(** time.Unix(modified, 0) in nanoseconds *)
Definition unixTime (seconds : Z) : Z := seconds * 1000000000.

Definition nodeToObj (n : Node) (path : gostr) : Obj :=
  Leaf (mkObject [] path (nName n) (nSize n) (unixTime (nModified n)) 0 (negb (isFile n)) [] 0) None.

(** ** The driver: driver.go *)

Fixpoint nodeAt (pos : list nat) (n : Node) : option Node :=
  match pos with
  | [] => Some n
  | i :: pos => c ← Children n !! i; nodeAt pos c
  end.

(** Changes the node at a position. *)
Fixpoint modifyAt (f : Node -> Node) (pos : list nat) (n : Node) : Node :=
  match pos with
  | [] => f n
  | i :: pos => setChildren n (alter (modifyAt f pos) i (Children n))
  end.

Record urls := mkUrls { root : Node; UrlStructure : gostr }.

Context (HeadSize Writable : bool).

Definition Init (text : gostr) : res tree_err urls :=
  match BuildTree text HeadSize with
  | Ok node => Ok (mkUrls (calSize node) text)
  | Err e => Err e
  end.

(** updateStorage: the text in the settings, which are saved, is that of the tree. *)
Definition updateStorage (n : Node) : urls := mkUrls n (StringifyTree n).

Abbreviation err := (op_error tree_err).
Abbreviation urlsAnswer := (urls * (option Obj * option err))%type.

(** The node of an object and its position. *)
Definition lookupNode (d : urls) (path : gostr) : option (list nat * Node) :=
  pos ← GetNodeFromRootByPath (root d) path; n ← nodeAt pos (root d); Some (pos, n).

Definition urlGet (d : urls) (path : gostr) : urls * res err Obj :=
  (d, match lookupNode d path with Some (_, n) => Ok (nodeToObj n path) | None => Err ObjectNotFound end).

Definition urlList (d : urls) (dir : Obj) (args : ListArgs) : urls * res err (list Obj) :=
  (d, match lookupNode d (GetPath dir) with
      | None => Err ObjectNotFound
      | Some (_, n) =>
          if isFile n then Err NotFolder
          else Ok (map (fun c => nodeToObj c (path_join2 (GetPath dir) (nName c))) (Children n))
      end).

(** Link: the URL of a file. *)
Definition urlLink (d : urls) (file : Obj) : res err gostr :=
  match lookupNode d (GetPath file) with
  | None => Err ObjectNotFound
  | Some (_, n) => if isFile n then Ok (Url n) else Err NotFile
  end.

Definition refuse (d : urls) (e : err) : urlsAnswer := (d, (None, Some e)).

Definition urlMakeDir (d : urls) (parentDir : Obj) (dirName : gostr) : urlsAnswer :=
  if negb Writable then refuse d PermissionDenied
  else match lookupNode d (GetPath parentDir) with
       | None => refuse d ObjectNotFound
       | Some (pos, node) =>
           if isFile node then refuse d NotFolder
           else
             let dir := mkNode [] dirName (Level node + 1) 0 0 [] in
             (updateStorage (modifyAt (fun n => addChild n dir) pos (root d)),
              (Some (nodeToObj dir (path_join2 (GetPath parentDir) dirName)), None))
       end.

(** The children without those of a name, and the last child of that name. *)
Definition without (name : gostr) (l : list Node) : list Node := filter (fun c => nName c <> name) l.
Definition lastNamed (name : gostr) (l : list Node) : option Node := last (filter (fun c => nName c = name) l).

(** Move. The new child is put at the end of the destination first, which shifts
    no position; the loop over the source's directory sees the [k] children it
    had before. *)
Definition urlMove (d : urls) (srcObj dstDir : Obj) : urlsAnswer :=
  if negb Writable then refuse d PermissionDenied
  else if hasPrefix (GetPath dstDir) (GetPath srcObj) then refuse d (Other ParentToChild)
  else match lookupNode d (GetPath dstDir) with
       | None => refuse d NotFolder
       | Some (dstPos, dstNode) =>
           if isFile dstNode then refuse d NotFolder
           else
             let '(srcDir, srcName) := path_Split (GetPath srcObj) in
             match lookupNode d srcDir with
             | None => refuse d ObjectNotFound
             | Some (srcPos, srcParent) =>
                 match lastNamed srcName (Children srcParent) with
                 | None => refuse d ObjectNotFound
                 | Some srcNode =>
                     let srcNode := setLevel (Level dstNode + 1) srcNode in
                     let k := length (Children srcParent) in
                     let r := modifyAt (fun n => addChild n srcNode) dstPos (root d) in
                     let r := modifyAt (fun n =>
                       setChildren n (without srcName (take k (Children n)) ++ drop k (Children n))) srcPos r in
                     (updateStorage (calSize r),
                      (Some (nodeToObj (calSize srcNode) (path_join2 (GetPath dstDir) srcName)), None))
                 end
             end
       end.

Definition urlRename (d : urls) (srcObj : Obj) (newName : gostr) : urlsAnswer :=
  if negb Writable then refuse d PermissionDenied
  else match lookupNode d (GetPath srcObj) with
       | None => refuse d ObjectNotFound
       | Some (pos, n) =>
           (updateStorage (modifyAt (fun n => setName n newName) pos (root d)),
            (Some (nodeToObj (setName n newName) (path_join2 (path_Dir (GetPath srcObj)) newName)), None))
       end.

Definition urlCopy (d : urls) (srcObj dstDir : Obj) : urlsAnswer :=
  if negb Writable then refuse d PermissionDenied
  else if hasPrefix (GetPath dstDir) (GetPath srcObj) then refuse d (Other ParentToChild)
  else match lookupNode d (GetPath dstDir) with
       | None => refuse d NotFolder
       | Some (dstPos, dstNode) =>
           if isFile dstNode then refuse d NotFolder
           else match lookupNode d (GetPath srcObj) with
                | None => refuse d ObjectNotFound
                | Some (_, srcNode) =>
                    let newNode := deepCopy (Level dstNode + 1) srcNode in
                    (updateStorage (calSize (modifyAt (fun n => addChild n newNode) dstPos (root d))),
                     (Some (nodeToObj (calSize newNode) (path_join2 (GetPath dstDir) (path_Base (GetPath srcObj)))), None))
                end
       end.

Definition urlRemove (d : urls) (obj : Obj) : urls * option err :=
  if negb Writable then (d, Some PermissionDenied)
  else
    let '(objDir, objName) := path_Split (GetPath obj) in
    match lookupNode d objDir with
    | None => (d, Some ObjectNotFound)
    | Some (pos, nodeParent) =>
        match lastNamed objName (Children nodeParent) with
        | None => (d, Some ObjectNotFound)
        | Some deletedObj =>
            let r := modifyAt (fun n => setChildren n (without objName (Children n))) pos (root d) in
            (updateStorage (if 0 <? nSize deletedObj then calSize r else r), None)
        end
    end.

Definition urlPutURL (d : urls) (dstDir : Obj) (name url : gostr) : urlsAnswer :=
  if negb Writable then refuse d PermissionDenied
  else match lookupNode d (GetPath dstDir) with
       | None => refuse d NotFolder
       | Some (pos, dirNode) =>
           if isFile dirNode then refuse d NotFolder
           else
             let add size := modifyAt (fun n => addChild n (mkNode url name (Level dirNode + 1) 0 size [])) pos (root d) in
             let '(r, size) :=
               if HeadSize then match head_ url with Some size => (calSize (add size), size) | None => (add 0, 0) end
               else (add 0, 0) in
             (updateStorage r,
              (Some (nodeToObj (mkNode url name (Level dirNode + 1) 0 size []) (path_join2 (GetPath dstDir) name)), None))
       end.

(** Put reads the link from the name of the stream. *)
Definition urlPut (d : urls) (dstDir : Obj) (stream : fileStream) : urlsAnswer :=
  if negb Writable then refuse d PermissionDenied
  else match lookupNode d (GetPath dstDir) with
       | None => refuse d ObjectNotFound
       | Some (pos, node) =>
           if isFile node then refuse d NotFolder
           else match parseFileLine (fName stream) HeadSize with
                | Err e => refuse d (Other e)
                | Ok file => (updateStorage (modifyAt (fun n => addChild n file) pos (root d)), (None, None))
                end
       end.

(** config, over the settings of the storage *)
Definition urlConfig (cfg : fsConfig) : fsConfig :=
  mkConfig (cMountPath cfg) (cStatus cfg) (cModified cfg) (cOrderBy cfg) (cOrderDirection cfg) (cExtractFolder cfg)
    (cCacheExpiration cfg) (cCustomCachePolicies cfg) true true true false true.

Definition urlTreeDriver (cfg : fsConfig) : Driver urls tree_err :=
  mkDriver (urlConfig cfg) (IRootPath "/") urlList (Some urlGet) (Some urlMakeDir) (Some urlMove) (Some urlRename)
    (Some urlCopy) (Some urlRemove) (Some urlPut) (Some urlPutURL).

End Text.

(** The tree of urls_test.go *)
Definition testText : gostr := joinStr (strs
  ["folder1:"; "  name1:https://url1"; "  http://url2"; "  folder2:"; "    http://url3"; "    http://url4";
   "  http://url5"; "folder3:"; "  http://url6"; "  http://url7"; "http://url8"]) [nl].

Example test_get :
  match BuildTree (fun _ => None) testText false with
  | Ok root => GetNodeFromRootByPath root "/folder1/folder2/url3" = Some [0; 2; 0]%nat /\
               StringifyTree root = testText
  | Err _ => False
  end.
Proof. vm_compute. split; reflexivity. Qed.
