(* ===== verification/UrlTreeSpec.v ===== *)
(** The text of a UrlTree storage: printing a tree and parsing the text gives
    the tree back, if its names and links can be written as text. *)
From S2P Require Import Prelude GoString GoPath Paths Mounts Storages Objects KeyedCache DirCache OpFs UrlTree.

Section NodeInd.
Context (P : Node -> Prop)
  (H : forall u n lv m sz l, Forall P l -> P (mkNode u n lv m sz l)).
Fixpoint Node_rect' (n : Node) : P n :=
  match n with
  | mkNode u nm lv m sz l =>
      H u nm lv m sz l ((fix go (l : list Node) : Forall P l :=
        match l with [] => List.Forall_nil P | c :: l => @List.Forall_cons _ P c l (Node_rect' c) (go l) end) l)
  end.
End NodeInd.

(** ** What can be written as text *)

(** A URL parseFileLine finds at its start. *)
Definition goodUrl (u : gostr) : Prop :=
  hasPrefix u "http://" = true \/ hasPrefix u "https://" = true /\ contains u "http://" = false.

(** No white space at the start of a name, and none at the end of a link. *)
Definition noLead (name : gostr) : Prop := forall t, leadingSpace space_encodings (name ++ colon :: t) = 0%nat.
Definition noTrail (u : gostr) : Prop := forall t, leadingSpace (map (@rev ascii) space_encodings) (rev u ++ t) = 0%nat.

Definition goodName (name : gostr) : Prop := colon ∉ name /\ nl ∉ name /\ noLead name.
Definition goodLink (u : gostr) : Prop := goodUrl u /\ hasSuffix u ":" = false /\ nl ∉ u /\ noTrail u.

Record printableFile (n : Node) : Prop := {
  pf_link : goodLink (Url n);
  pf_name : goodName (nName n);
  pf_noempty : nName n <> [] \/ nSize n <> 0 \/ nModified n <> 0;
  pf_size : i64_ok (nSize n);
  pf_modified : i64_ok (nModified n);
  pf_leaf : Children n = []
}.

Record printableFolder (n : Node) : Prop := {
  pd_url : Url n = [];
  pd_modified : nModified n = 0;
  pd_line : nl ∉ nName n;
  pd_lead : noLead (nName n)
}.

(** Every node below the root is printable and has the level of its depth. *)
Inductive printable : Z -> Node -> Prop :=
| printable_file lv n : Level n = lv -> printableFile n -> printable lv n
| printable_folder lv n : Level n = lv -> printableFolder n -> Forall (printable (lv + 1)) (Children n) -> printable lv n.

Record printableRoot (r : Node) : Prop := {
  pr_url : Url r = [];
  pr_name : nName r = "root";
  pr_level : Level r = -1;
  pr_modified : nModified r = 0;
  pr_children : Forall (printable 0) (Children r)
}.

(** The tree without the sizes of its folders, which the text does not have. *)
Fixpoint unsized (n : Node) : Node :=
  mkNode (Url n) (nName n) (Level n) (nModified n) (if isFile n then nSize n else 0) (map unsized (Children n)).

(** ** White space *)
Lemma trimLeftEnc_le f e s : (length (trimLeftEnc f e s) <= length s)%nat.
Proof.
  revert s. induction f as [|f IH]; intros s; simpl; [done|]. destruct (leadingSpace e s) as [|k]; [done|].
  etransitivity; [apply IH|]. rewrite length_drop. lia.
Qed.

Lemma trimSpace_head c s : trimSpace (c :: s) = c :: s -> c <> " "%char.
Proof.
  intros H ->. apply (f_equal length) in H. revert H. unfold trimSpace. rewrite length_rev.
  set (l := trimLeftEnc (length (" "%char :: s)) space_encodings (" "%char :: s)).
  assert (Hl : (length l <= length s)%nat) by (apply (trimLeftEnc_le (length s) space_encodings s)).
  pose proof (trimLeftEnc_le (length l) (map (@rev ascii) space_encodings) (rev l)) as H1. rewrite length_rev in H1.
  clearbody l. cbn [length]. lia.
Qed.

(** White space that is not there is not trimmed. *)
Lemma trimSpace_none s :
  leadingSpace space_encodings s = 0%nat -> leadingSpace (map (@rev ascii) space_encodings) (rev s) = 0%nat ->
  trimSpace s = s.
Proof.
  intros H1 H2.
  assert (Hid : forall f e s, leadingSpace e s = 0%nat -> trimLeftEnc f e s = s) by (intros [|f] e t H; simpl; [done|by rewrite H]).
  unfold trimSpace. by rewrite (Hid _ _ s), Hid, rev_involutive.
Qed.

(** ** The lines *)
Lemma countSpaces_indent k s : (forall c, head s = Some c -> c <> " "%char) -> countSpaces (indentOf k ++ s) = (2 * k)%nat.
Proof.
  intros Hs. induction k as [|k IH]; simpl.
  - destruct s as [|c s]; simpl; [done|]. rewrite bool_decide_eq_false_2; [done|]. by apply Hs.
  - rewrite IH. simpl. lia.
Qed.

Lemma indentOf_length k : length (indentOf k) = (2 * k)%nat.
Proof. induction k as [|k IH]; simpl; [done|]. rewrite IH. lia. Qed.

Lemma drop_indent k s : drop (2 * k) (indentOf k ++ s) = s.
Proof. rewrite <- (indentOf_length k). apply drop_app_length. Qed.

(** ** The line of a file *)
Lemma prefix_split w t a b : colon ∉ a -> colon ∉ w -> hasPrefix (w ++ colon :: t) (a ++ colon :: b) = true -> a = w /\ hasPrefix t b = true.
Proof.
  revert w. induction a as [|c a IH]; intros w Ha Hw; destruct w as [|d w]; simpl.
  - done.
  - intros [Hc%bool_decide_eq_true _]%andb_prop. subst d. by destruct Hw; left.
  - intros [Hc%bool_decide_eq_true _]%andb_prop. subst c. by destruct Ha; left.
  - apply not_elem_of_cons in Ha as [_ Ha], Hw as [_ Hw].
    intros [Hc%bool_decide_eq_true H]%andb_prop. destruct (IH w Ha Hw H) as [-> ?]. by rewrite Hc.
Qed.

(** Searching "http://" or "https://" skips a part that ends with a colon. *)
Lemma index_part w t a b :
  colon ∉ a -> a <> [] -> colon ∉ w -> hasPrefix t (slash :: b) = false ->
  index (w ++ colon :: t) (a ++ colon :: slash :: b) = (fun i => length w + S i)%nat <$> index t (a ++ colon :: slash :: b).
Proof.
  intros Ha Hne Hw Ht. induction w as [|c w IH].
  - assert (Hp : hasPrefix (colon :: t) (a ++ colon :: slash :: b) = false).
    { destruct a as [|x a]; [done|]. simpl. rewrite bool_decide_eq_false_2; [done|]. intros ->. by destruct Ha; left. }
    cbn [app index]. rewrite Hp. by destruct (index t _).
  - assert (Hp : hasPrefix ((c :: w) ++ colon :: t) (a ++ colon :: slash :: b) = false).
    { apply not_true_iff_false. intros E. destruct (prefix_split _ _ _ _ Ha Hw E) as [_ E']. congruence. }
    change ((c :: w) ++ colon :: t) with (c :: (w ++ colon :: t)) in *. cbn [index]. rewrite Hp.
    apply not_elem_of_cons in Hw as [_ Hw]. rewrite IH by done. by destruct (index t _).
Qed.

Definition httpMark : gostr := "http://".
Definition httpsMark : gostr := "https://".

Lemma index_marks w t :
  colon ∉ w -> hasPrefix t "/" = false ->
  index (w ++ colon :: t) httpMark = (fun i => length w + S i)%nat <$> index t httpMark /\
  index (w ++ colon :: t) httpsMark = (fun i => length w + S i)%nat <$> index t httpsMark.
Proof.
  intros Hw Ht.
  assert (Ht' : hasPrefix t "//" = false).
  { destruct t as [|c t]; [done|]. simpl in *. by destruct (bool_decide _). }
  split.
  - apply (index_part w t "http" "/"); try done; try (by apply (bool_decide_eq_true_1 (_ ∉ _))).
  - apply (index_part w t "https" "/"); try done; try (by apply (bool_decide_eq_true_1 (_ ∉ _))).
Qed.

(** Where parseFileLine finds the URL. *)
Definition marked (t : gostr) (i : nat) : Prop :=
  index t httpMark = Some i \/ index t httpMark = None /\ index t httpsMark = Some i.

Lemma goodUrl_marked u : goodUrl u -> marked u 0.
Proof.
  assert (H0 : forall p, hasPrefix u p = true -> index u p = Some 0%nat) by (intros p Hp; destruct u; simpl; by rewrite Hp).
  intros [H|[H1 H2]]; [left; by apply H0|right]. split; [|by apply H0].
  unfold contains in H2. by destruct (index u _).
Qed.

Lemma goodUrl_head u : goodUrl u -> hasPrefix u "/" = false /\ u <> [].
Proof. intros [H|[H _]]; apply hasPrefix_spec in H as [t ->]; done. Qed.

Lemma marked_part w t i : colon ∉ w -> hasPrefix t "/" = false -> marked t i -> marked (w ++ colon :: t) (length w + S i).
Proof.
  intros Hw Ht. destruct (index_marks w t Hw Ht) as [H1 H2]. unfold marked. rewrite H1, H2.
  intros [H|[Hn H]]; [left; by rewrite H|right]. by rewrite Hn, H.
Qed.

(** A line "info:url" *)
Lemma parse_info head_ info u parts i :
  goodUrl u -> info <> [] -> splitByte info colon = parts -> marked (info ++ colon :: u) i -> i = S (length info) ->
  parseFileLine head_ (info ++ colon :: u) false =
    match parts with
    | name :: size :: rest =>
        match parseInt size with
        | (_, Some _) => Err (BadSize (info ++ colon :: u))
        | (size, None) =>
            match rest with
            | [] => Ok (mkNode u name 0 0 size [])
            | modified :: _ =>
                match parseInt modified with
                | (_, Some _) => Err (BadModified (info ++ colon :: u))
                | (modified, None) => Ok (mkNode u name 0 modified size [])
                end
            end
        end
    | name :: [] => Ok (mkNode u name 0 0 0 [])
    | [] => Ok (mkNode u [] 0 0 0 [])
    end.
Proof.
  intros Hu Hne <- Hm ->. unfold parseFileLine.
  assert (Hc : negb (contains (info ++ colon :: u) "http://") && negb (contains (info ++ colon :: u) "https://") = false /\
    match index (info ++ colon :: u) "http://" with
    | Some i => i
    | None => default 0%nat (index (info ++ colon :: u) "https://")
    end = S (length info)).
  { unfold contains. fold httpMark httpsMark. destruct Hm as [->|[-> ->]]; done. }
  destruct Hc as [-> ->]. cbv zeta.
  assert (Hline : info ++ colon :: u = (info ++ [colon]) ++ u) by (by rewrite <- (assoc_L (++))).
  assert (Hlen : S (length info) = length (info ++ [colon])) by (rewrite length_app; simpl; lia).
  rewrite Hline, Hlen, take_app_length, drop_app_length.
  assert (hasSuffix (info ++ [colon]) ":" = true) as -> by (apply hasSuffix_spec; by exists info).
  assert (take (length (info ++ [colon]) - 1) (info ++ [colon]) = info) as ->.
  { rewrite length_app. simpl. replace (length info + 1 - 1)%nat with (length info) by lia. apply take_app_length. }
  assert (seqb info "" = false) as -> by (by apply seqb_false). rewrite <- Hlen. done.
Qed.

Lemma digits_not l c : Forall is_digit l -> ~ is_digit c -> c ∉ l.
Proof. intros H Hc Hin. rewrite Forall_forall in H. by apply Hc, H. Qed.

Lemma formatInt_plain z : colon ∉ formatInt z /\ formatInt z <> [] /\ forall t, hasPrefix (formatInt z ++ t) "/" = false.
Proof.
  assert (Hd : forall c, byte_val c = 58 \/ byte_val c = 47 -> ~ is_digit c) by (unfold is_digit; lia).
  assert (Hu : forall n, 0 <= n -> colon ∉ formatUint n /\ formatUint n <> [] /\ forall t, hasPrefix (formatUint n ++ t) "/" = false).
  { intros n Hn. pose proof (formatUint_digits n Hn) as Hf. split_and!; [|apply formatUint_not_nil|].
    - apply digits_not; [done|]. apply Hd. by left.
    - intros t. pose proof (formatUint_not_nil n). destruct (formatUint n) as [|c l]; [done|].
      apply Forall_cons in Hf as [Hc _]. simpl. rewrite bool_decide_eq_false_2; [done|].
      intros <-. apply (Hd "/"%char); [by right|done]. }
  unfold formatInt. destruct (z <? 0) eqn:Hz; bool_hyps; [|by apply Hu].
  destruct (Hu (- z)) as (H1 & H2 & H3); [lia|]. split_and!; [|done|done].
  rewrite not_elem_of_cons. split; [done|done].
Qed.

(** Parsing the line of a printable file gives the file, at level 0. *)
Lemma parse_fileLine head_ n :
  printableFile n ->
  parseFileLine head_ (fileLine n) false = Ok (mkNode (Url n) (nName n) 0 (nModified n) (nSize n) []).
Proof.
  intros H. pose proof (goodUrl_marked _ (proj1 (pf_link _ H))) as Hm. destruct (goodUrl_head _ (proj1 (pf_link _ H))) as [Hs _].
  pose proof (formatInt_plain (nSize n)) as (Hz1 & Hz2 & Hz3).
  pose proof (formatInt_plain (nModified n)) as (Hd1 & Hd2 & Hd3).
  destruct (pf_name _ H) as (Hn & _ & _). unfold fileLine.
  destruct ((nSize n =? 0) && (nModified n =? 0)) eqn:E0.
  - apply andb_prop in E0 as [E1 E2]. apply Z.eqb_eq in E1, E2. rewrite E1, E2.
    destruct (seqb (path_Base (Url n)) (nName n)) eqn:Eb.
    + apply seqb_true in Eb. unfold parseFileLine, contains. fold httpMark httpsMark.
      assert (Hi : forall o1 o2 : option nat, o1 = index (Url n) httpMark -> o2 = index (Url n) httpsMark ->
        negb (match o1 with Some _ => true | None => false end) && negb (match o2 with Some _ => true | None => false end) = false /\
        match o1 with Some i => i | None => default 0%nat o2 end = 0%nat).
      { intros o1 o2 -> ->. destruct Hm as [->|[-> ->]]; done. }
      destruct (Hi _ _ eq_refl eq_refl) as [-> ->]. cbv zeta. by rewrite drop_0, Eb.
    + change (nName n ++ ":" ++ Url n) with (nName n ++ colon :: Url n).
      assert (nName n <> []) by (destruct (pf_noempty _ H) as [?|[?|?]]; done).
      erewrite parse_info; [|apply (proj1 (pf_link _ H))|done|by apply splitByte_nosep|by apply marked_part|lia]. done.
  - destruct (nModified n =? 0) eqn:E2.
    + apply Z.eqb_eq in E2. rewrite E2.
      assert (Hl : nName n ++ ":" ++ formatInt (nSize n) ++ ":" ++ [] ++ Url n =
        (nName n ++ colon :: formatInt (nSize n)) ++ colon :: Url n) by (by rewrite <- (assoc_L (++))).
      rewrite Hl. erewrite parse_info; [|apply (proj1 (pf_link _ H))| |by rewrite splitByte_app, splitByte_nosep| |].
      * cbv iota beta. rewrite parseInt_formatInt by apply H. done.
      * by destruct (nName n).
      * rewrite <- Hl. apply (marked_part (nName n) (formatInt (nSize n) ++ colon :: Url n)); [done|apply Hz3|].
        by apply marked_part.
      * rewrite length_app. simpl. lia.
    + assert (Hl : nName n ++ ":" ++ formatInt (nSize n) ++ ":" ++ (formatInt (nModified n) ++ ":") ++ Url n =
        (nName n ++ colon :: formatInt (nSize n) ++ colon :: formatInt (nModified n)) ++ colon :: Url n).
      { rewrite <- !(assoc_L (++)). simpl. rewrite <- !(assoc_L (++)). done. }
      rewrite Hl. erewrite parse_info; [|apply (proj1 (pf_link _ H))| |by rewrite !splitByte_app, splitByte_nosep| |].
      * cbv iota beta. rewrite parseInt_formatInt by apply H. cbv iota beta. rewrite parseInt_formatInt by apply H. done.
      * by destruct (nName n).
      * rewrite <- Hl.
        apply (marked_part (nName n) (formatInt (nSize n) ++ colon :: (formatInt (nModified n) ++ ":") ++ Url n)); [done|apply Hz3|].
        rewrite <- (assoc_L (++)).
        apply (marked_part (formatInt (nSize n)) (formatInt (nModified n) ++ colon :: Url n)); [done|apply Hd3|].
        by apply marked_part.
      * rewrite !length_app. simpl. rewrite length_app. simpl. lia.
Qed.

Lemma fileLine_url n : exists w, fileLine n = w ++ Url n.
Proof.
  unfold fileLine. destruct (_ && _).
  - destruct (seqb _ _); [by exists []|]. exists (nName n ++ ":"). by rewrite <- (assoc_L (++)).
  - set (x := if nModified n =? 0 then _ else _). exists (nName n ++ ":" ++ formatInt (nSize n) ++ ":" ++ x).
    by rewrite <- !(assoc_L (++)).
Qed.

Lemma colon_noTrail t : leadingSpace (map (@rev ascii) space_encodings) (colon :: t) = 0%nat.
Proof. by destruct t. Qed.

Lemma http_noLead u : goodUrl u -> leadingSpace space_encodings u = 0%nat.
Proof. intros [H|[H _]]; apply hasPrefix_spec in H as [t ->]; done. Qed.

Lemma fileLine_trim n : printableFile n -> trimSpace (fileLine n) = fileLine n.
Proof.
  intros H. apply trimSpace_none.
  - destruct (pf_name _ H) as (_ & _ & Hl). unfold fileLine. destruct (_ && _); [|apply Hl].
    destruct (seqb _ _); [apply http_noLead, (proj1 (pf_link _ H))|apply Hl].
  - destruct (fileLine_url n) as [w ->]. rewrite rev_app_distr. apply (pf_link _ H).
Qed.

Lemma formatInt_nl z : nl ∉ formatInt z.
Proof.
  assert (Hu : forall n, 0 <= n -> nl ∉ formatUint n).
  { intros n Hn. apply digits_not; [by apply formatUint_digits|]. unfold is_digit. vm_compute. intuition discriminate. }
  unfold formatInt. destruct (z <? 0) eqn:Hz; bool_hyps; [|by apply Hu]. rewrite not_elem_of_cons. split; [done|]. apply Hu. lia.
Qed.

Lemma fileLine_nl n : printableFile n -> nl ∉ fileLine n.
Proof.
  intros H. destruct (pf_name _ H) as (_ & Hn & _). destruct (pf_link _ H) as (_ & _ & Hu & _).
  assert (Hc : nl ∉ (":" : gostr)) by (by apply (bool_decide_eq_true_1 (_ ∉ _))).
  pose proof (formatInt_nl (nSize n)). pose proof (formatInt_nl (nModified n)).
  unfold fileLine. destruct (_ && _); [destruct (seqb _ _); [done|]|].
  - by rewrite !not_elem_of_app.
  - rewrite !not_elem_of_app. split_and!; try done. destruct (_ =? _); [apply not_elem_of_nil|by rewrite not_elem_of_app].
Qed.

(** ** The lines of a tree *)
Definition content (n : Node) : gostr := if seqb (Url n) "" then nName n ++ ":" else fileLine n.

Fixpoint lines (n : Node) : list gostr :=
  (indentOf (Z.to_nat (Level n)) ++ content n) :: (if seqb (Url n) "" then flat_map lines (Children n) else []).

Lemma file_url n : printableFile n -> seqb (Url n) "" = false.
Proof. intros H. apply seqb_false. apply (goodUrl_head _ (proj1 (pf_link _ H))). Qed.

Lemma folder_url n : printableFolder n -> seqb (Url n) "" = true.
Proof. intros H. apply seqb_true, H. Qed.

Lemma lines_not_nil n : lines n <> [].
Proof. by destruct n. Qed.

Lemma joinStr_app a b sep : a <> [] -> b <> [] -> joinStr (a ++ b) sep = joinStr a sep ++ sep ++ joinStr b sep.
Proof.
  intros Ha Hb. induction a as [|x a IH]; [done|]. destruct a as [|y a].
  - change ([x] ++ b) with (x :: b). by rewrite (joinStr_cons x b).
  - change ((x :: y :: a) ++ b) with (x :: (y :: a) ++ b). rewrite (joinStr_cons x ((y :: a) ++ b)) by done.
    rewrite IH by done. rewrite (joinStr_cons x (y :: a)) by done. by rewrite <- !(assoc_L (++)).
Qed.

Lemma joinStr_flat {A} (f : A -> list gostr) l0 l :
  (forall a, f a <> []) -> l0 <> [] ->
  joinStr (l0 ++ flat_map f l) [nl] = joinStr l0 [nl] ++ flat_map (fun a => nl :: joinStr (f a) [nl]) l.
Proof.
  intros Hf. revert l0. induction l as [|a l IH]; intros l0 Hl; simpl; [by rewrite !app_nil_r|].
  rewrite (assoc_L (++)), IH by (by destruct l0). rewrite joinStr_app by (done || apply Hf).
  by rewrite <- !(assoc_L (++)).
Qed.

(** The text of a node is its lines. *)
Lemma Stringify_lines n lv :
  0 <= lv -> printable lv n -> StringifyTree n = joinStr (lines n) [nl] /\ Forall (fun l => nl ∉ l) (lines n).
Proof.
  revert lv. induction n as [u nm lv0 m sz l IH] using Node_rect'. intros lv Hlv Hp.
  assert (Hi : forall k, nl ∉ indentOf k).
  { induction k as [|k IHk]; simpl; [apply not_elem_of_nil|]. rewrite !not_elem_of_cons. done. }
  assert (Hline : nl ∉ content (mkNode u nm lv0 m sz l)).
  { unfold content. inv Hp.
    - rewrite file_url by done. by apply fileLine_nl.
    - rewrite folder_url by done. rewrite not_elem_of_app. split; [by apply pd_line in H0|].
      by apply (bool_decide_eq_true_1 (_ ∉ _)). }
  assert (Hlev : lv0 = lv) by (by inv Hp). simpl StringifyTree. cbn [lines Level Children Url].
  assert ((lv0 =? -1) = false) as -> by lia.
  destruct (seqb u "") eqn:Hu.
  - assert (Hch : Forall (printable (lv + 1)) l).
    { inv Hp; [|done]. apply file_url in H0. simpl in H0. congruence. }
    split.
    + rewrite (joinStr_flat lines [indentOf (Z.to_nat lv0) ++ content (mkNode u nm lv0 m sz l)] l lines_not_nil ltac:(done)
        : joinStr (_ :: flat_map lines l) [nl] = _). simpl joinStr.
      unfold content. simpl Url. rewrite Hu. simpl nName. rewrite <- !(assoc_L (++)). do 3 f_equal.
      clear -IH Hch Hlv. induction l as [|c l IHl]; simpl; [done|].
      apply Forall_cons in IH as [Hc IH], Hch as [Hpc Hch]. destruct (Hc (lv + 1)) as [-> _]; [lia|done|].
      by rewrite IHl.
    + constructor; [by rewrite not_elem_of_app|]. apply Forall_flat_map.
      rewrite Forall_forall in IH, Hch. apply Forall_forall. intros c Hc. apply (IH c Hc (lv + 1)); [lia|by apply Hch].
  - split; [|constructor; [by rewrite not_elem_of_app|done]]. simpl joinStr. unfold content. simpl Url. by rewrite Hu.
Qed.

(** ** The stack *)
Definition pop (l : Z) (st : stack) : stack := popTo l st.1 st.2.

Lemma pop_result l st : (pop l st).2 = [] \/ Level (pop l st).1 < l.
Proof.
  unfold pop. destruct st as [t b]. simpl. revert t. induction b as [|p b IH]; intros t; simpl; [by left|].
  destruct (l <=? Level t) eqn:E; [apply IH|]. right. simpl. lia.
Qed.

Lemma pop_stable l t b : b = [] \/ Level t < l -> pop l (t, b) = (t, b).
Proof.
  unfold pop. simpl. intros [-> |H]; [done|]. destruct b; simpl; [done|]. assert ((l <=? Level t) = false) as -> by lia. done.
Qed.

Lemma pop_trans k l st : k <= l -> pop k (pop l st) = pop k st.
Proof.
  intros Hk. destruct st as [t b]. unfold pop at 2 3. simpl. revert t. induction b as [|p b IH]; intros t; simpl; [done|].
  destruct (l <=? Level t) eqn:E.
  - rewrite IH. assert ((k <=? Level t) = true) as -> by lia. done.
  - done.
Qed.

Lemma pop_step k t p b : k <= Level t -> pop k (t, p :: b) = pop k (addChild p t, b).
Proof. intros H. unfold pop. simpl. by assert ((k <=? Level t) = true) as -> by lia. Qed.

(** ** Building *)
Definition addChildren (n : Node) (l : list Node) : Node := setChildren n (Children n ++ l).

Lemma addChildren_cons n c l : addChildren (addChild n c) l = addChildren n (c :: l).
Proof. unfold addChildren, addChild, setChildren. simpl. by rewrite <- (assoc_L (++)). Qed.

Lemma addChildren_nil n : addChildren n [] = n.
Proof. unfold addChildren, setChildren. rewrite app_nil_r. by destruct n. Qed.

Lemma content_spec n lv : printable lv n ->
  trimSpace (content n) = content n /\ content n <> [] /\ (forall c, head (content n) = Some c -> c <> " "%char).
Proof.
  intros Hp. assert (H : trimSpace (content n) = content n /\ content n <> []).
  { unfold content. inv Hp.
    - rewrite file_url by done. split; [by apply fileLine_trim|]. intros E. pose proof (parse_fileLine (fun _ => None) n H0) as Hl.
      by rewrite E in Hl.
    - rewrite folder_url by done. split; [|by destruct (nName n)].
      apply trimSpace_none; [apply (pd_lead _ H0 [])|]. rewrite rev_app_distr. by apply colon_noTrail. }
  destruct H as [H1 H2]. split_and!; [done|done|]. intros c Hc. destruct (content n); [done|]. injection Hc as ->.
  by eapply trimSpace_head.
Qed.

Section Build.
Context (head_ : gostr -> option Z).

(** One line: the stack is popped to the level of the node, which is then added
    to the top (a file) or pushed (a folder). *)
Lemma buildLine_spec n lv st :
  0 <= lv -> printable lv n ->
  buildLine head_ false st (indentOf (Z.to_nat lv) ++ content n) =
    let '(top, below) := pop lv st in
    Ok (if isFile n then (addChild top n, below) else (mkNode [] (nName n) lv 0 0 [], top :: below)).
Proof.
  intros Hlv Hp. destruct (content_spec n lv Hp) as (Ht & Hne & Hh). unfold buildLine.
  rewrite countSpaces_indent by done.
  assert (Nat.even (2 * Z.to_nat lv) = true) as -> by (apply Nat.even_spec; by exists (Z.to_nat lv)).
  assert (Z.of_nat (2 * Z.to_nat lv) / 2 = lv) as -> by (rewrite Nat2Z.inj_mul, Z2Nat.id, Z.mul_comm, Z.div_mul by lia; done).
  rewrite drop_indent, Ht. assert (seqb (content n) "" = false) as -> by (by apply seqb_false). cbn [negb]. cbv zeta.
  fold (pop lv st). destruct (pop lv st) as [top below]. unfold isFile. inv Hp.
  - rewrite file_url by done. unfold content. rewrite file_url by done.
    assert (isFolder (fileLine n) = false) as ->.
    { unfold isFolder. apply not_true_iff_false. intros [t Ht']%hasSuffix_spec. destruct (pf_link _ H0) as (_ & Hl & _).
      apply not_true_iff_false in Hl. apply Hl. apply hasSuffix_spec.
      destruct (goodUrl_head _ (proj1 (pf_link _ H0))) as [_ Hu]. destruct (list_snoc _ Hu) as (u & c & Huc). exists u.
      destruct (fileLine_url n) as [w Hw]. rewrite Hw, Huc in Ht'. rewrite (assoc_L (++)) in Ht'. apply app_inj_tail in Ht' as [_ ->]. done. }
    rewrite parse_fileLine by done. simpl. do 2 f_equal. unfold addChild, setChildren. do 3 f_equal.
    pose proof (pf_leaf _ H0). by destruct n; simpl in *; subst.
  - rewrite folder_url by done. unfold content. rewrite folder_url by done.
    assert (Hs : hasSuffix (nName n ++ ":") ":" = true) by (apply hasSuffix_spec; by exists (nName n)).
    unfold isFolder, trimSuffix. rewrite Hs. cbn [negb]. do 3 f_equal.
    rewrite length_app. simpl. replace (length (nName n) + 1 - 1)%nat with (length (nName n)) by lia. by rewrite take_app_length.
Qed.

Definition builds (l : list gostr) (lv : Z) (nodes : list Node) : Prop := forall st,
  exists st', buildLoop head_ false st l = Ok st' /\
  forall k, k <= lv -> pop k st' = pop k (let '(t, b) := pop lv st in (addChildren t nodes, b)).

Lemma buildLoop_app l1 l2 st st' : buildLoop head_ false st l1 = Ok st' ->
  buildLoop head_ false st (l1 ++ l2) = buildLoop head_ false st' l2.
Proof.
  revert st. induction l1 as [|x l1 IH]; intros st; simpl; [by intros [= ->]|].
  destruct (buildLine _ _ _ _); [apply IH|done].
Qed.

Lemma builds_list lv (l : list Node) :
  Forall (fun c => builds (lines c) lv [unsized c]) l -> builds (flat_map lines l) lv (map unsized l).
Proof.
  induction 1 as [|c l Hc Hl IH]; intros st; simpl.
  - exists st. split; [done|]. intros k Hk. destruct (pop lv st) as [t b] eqn:Hp. rewrite addChildren_nil, <- Hp.
    by rewrite pop_trans.
  - destruct (Hc st) as (st1 & Hr1 & H1). destruct (IH st1) as (st2 & Hr2 & H2). exists st2.
    split; [by rewrite (buildLoop_app _ _ _ _ Hr1)|]. intros k Hk. rewrite H2 by done. rewrite H1 by lia.
    pose proof (pop_result lv st) as Hres. destruct (pop lv st) as [t b]. simpl in Hres.
    rewrite pop_stable by done. change (addChildren t [unsized c]) with (addChild t (unsized c)).
    by rewrite addChildren_cons.
Qed.

Lemma builds_node n lv : 0 <= lv -> printable lv n -> builds (lines n) lv [unsized n].
Proof.
  revert lv. induction n as [u nm lv0 m sz l IH] using Node_rect'. intros lv Hlv Hp st.
  assert (lv0 = lv) as -> by (by inv Hp). pose proof (buildLine_spec _ lv st Hlv Hp) as Hb. cbn [lines Level].
  cbn [buildLoop]. rewrite Hb. destruct (pop lv st) as [top below]. unfold isFile. cbn [Url Children] in *. inv Hp.
  - rewrite (file_url _ H0 : seqb u "" = false). cbn [negb]. eexists. split; [done|]. intros k Hk. do 2 f_equal.
    unfold addChildren, addChild. do 2 f_equal. f_equal. simpl. unfold isFile. simpl.
    rewrite (file_url _ H0 : seqb u "" = false). simpl. pose proof (pf_leaf _ H0) as Hl. simpl in Hl. by rewrite Hl.
  - rewrite (folder_url _ H0 : seqb u "" = true). cbn [negb]. simpl in H1.
    assert (Hl : builds (flat_map lines l) (lv + 1) (map unsized l)).
    { apply builds_list. rewrite Forall_forall in IH, H1. apply Forall_forall. intros c Hc. apply IH; [done|lia|by apply H1]. }
    destruct (Hl (mkNode [] nm lv 0 0 [], top :: below)) as (st' & Hr & Hk). exists st'. split; [done|].
    intros k Hle. rewrite Hk by lia. rewrite pop_stable by (simpl; right; lia).
    rewrite pop_step by (simpl; lia). do 2 f_equal. unfold addChild, addChildren. do 3 f_equal. simpl.
    unfold isFile. simpl. rewrite (folder_url _ H0 : seqb u "" = true). simpl.
    pose proof (pd_url _ H0) as Hu. pose proof (pd_modified _ H0) as Hm. simpl in Hu, Hm. by rewrite Hu, Hm.
Qed.

Lemma urltree_text r :
  printableRoot r -> BuildTree head_ (StringifyTree r) false = Ok (unsized r).
Proof.
  intros [Hu Hn Hl Hm Hc]. unfold BuildTree.
  assert (Ht : splitByte (StringifyTree r) nl = match Children r with [] => [[]] | _ => flat_map lines (Children r) end /\
    builds (flat_map lines (Children r)) 0 (map unsized (Children r))).
  { split.
    - assert (StringifyTree r = joinStr (flat_map lines (Children r)) [nl] /\ Forall (fun l => nl ∉ l) (flat_map lines (Children r)))
        as [-> Hf].
      { destruct r as [u nm lv m sz l]. simpl in *. rewrite Hl. simpl. split.
        - clear -Hc. induction Hc as [|c l Hc Hl IH]; [done|]. simpl map.
          destruct (Stringify_lines c 0) as [-> _]; [lia|done|]. destruct l as [|c' l]; [simpl; by rewrite app_nil_r|].
          rewrite (joinStr_cons _ (map StringifyTree (c' :: l))) by done. rewrite IH. simpl flat_map at 2.
          rewrite joinStr_app; [done|apply lines_not_nil|]. simpl. by destruct c'.
        - apply Forall_flat_map. eapply Forall_impl; [exact Hc|]. intros c Hp. by apply (Stringify_lines c 0). }
      destruct (Children r) as [|c l]; [done|]. apply splitByte_join; [|done]. by destruct c.
    - apply builds_list. eapply Forall_impl; [exact Hc|]. intros c Hp. by apply builds_node. }
  destruct Ht as [-> Hb]. destruct (Hb (rootNode, [])) as ([t b] & Hr & Hk).
  assert (Hloop : buildLoop head_ false (rootNode, []) (match Children r with [] => [[]] | _ => flat_map lines (Children r) end) = Ok (t, b)).
  { by destruct (Children r). }
  rewrite Hloop. fold (pop (-1) (t, b)). change (popTo (-1) t b) with (pop (-1) (t, b)). rewrite Hk by lia. simpl.
  destruct r as [u nm lv m sz l]. simpl in *. subst. done.
Qed.
End Build.
