(* ===== verification/UrlTreeSys.v ===== *)
(** The driver UrlTree as a whole: after any sequence of its operations the text
    in the settings gives the tree in memory back when the storage is started
    again. What the text cannot keep, and the upload of a link into a folder,
    which it does not keep, are examples. *)
From S2P Require Import Prelude GoString GoPath Paths Mounts Storages Objects KeyedCache DirCache OpFs UrlTree UrlTreeSpec.

(** ** Trees that can be written *)
Definition okNode (lv : Z) (n : Node) : Prop := if lv =? -1 then printableRoot n else printable lv n.

Lemma okNode_printable lv n : 0 <= lv -> okNode lv n <-> printable lv n.
Proof. unfold okNode. intros H. by assert ((lv =? -1) = false) as -> by lia. Qed.

Lemma okNode_children lv n : -1 <= lv -> okNode lv n -> Forall (printable (lv + 1)) (Children n) /\ Level n = lv.
Proof.
  unfold okNode. destruct (lv =? -1) eqn:E; bool_hyps.
  - intros _ []. by subst lv.
  - intros Hlv Hp. inv Hp; [|done]. pose proof (pf_leaf _ H0) as ->. done.
Qed.

Lemma okNode_set lv n l :
  -1 <= lv -> okNode lv n -> isFile n = false -> Forall (printable (lv + 1)) l -> okNode lv (setChildren n l).
Proof.
  unfold okNode, isFile. destruct (lv =? -1) eqn:E; bool_hyps.
  - intros _ [] _ Hl. subst lv. by split.
  - intros Hlv Hp Hf Hl. inv Hp; [by rewrite file_url in Hf|]. apply printable_folder; [done| |done]. by destruct H0.
Qed.

Lemma okNode_at lv n pos m : -1 <= lv -> okNode lv n -> nodeAt pos n = Some m -> okNode (lv + Z.of_nat (length pos)) m.
Proof.
  revert lv n. induction pos as [|i pos IH]; intros lv n Hlv Hn; simpl.
  - intros [= <-]. by rewrite Z.add_0_r.
  - destruct (Children n !! i) as [c|] eqn:Hc; simpl; [|done]. intros Hm.
    destruct (okNode_children lv n Hlv Hn) as [Hch _]. rewrite Forall_lookup in Hch. specialize (Hch _ _ Hc).
    assert (Hok : okNode (lv + 1) c) by (apply okNode_printable; [lia|done]).
    specialize (IH (lv + 1) c ltac:(lia) Hok Hm). by replace (lv + Z.of_nat (S (length pos))) with (lv + 1 + Z.of_nat (length pos)) by lia.
Qed.

Lemma okNode_modify lv n pos m f :
  -1 <= lv -> okNode lv n -> nodeAt pos n = Some m ->
  (okNode (lv + Z.of_nat (length pos)) m -> okNode (lv + Z.of_nat (length pos)) (f m)) ->
  okNode lv (modifyAt f pos n).
Proof.
  revert lv n. induction pos as [|i pos IH]; intros lv n Hlv Hn; simpl.
  - intros [= <-]. rewrite Z.add_0_r. auto.
  - destruct (Children n !! i) as [c|] eqn:Hc; simpl; [|done]. intros Hm Hf.
    destruct (okNode_children lv n Hlv Hn) as [Hch _]. assert (Hch' := Hch). rewrite Forall_lookup in Hch'. specialize (Hch' _ _ Hc).
    apply okNode_set; [done|done| |].
    + unfold isFile. unfold okNode in Hn. destruct (lv =? -1); [by destruct Hn as [-> _]|]. inv Hn; [|by rewrite folder_url].
      pose proof (pf_leaf _ H0) as Hl. by rewrite Hl in Hc.
    + apply Forall_alter; [done|]. intros c' Hc' _. rewrite Hc in Hc'. injection Hc' as <-.
      apply okNode_printable; [lia|]. apply IH; [lia|by apply okNode_printable; [lia|]|done|].
      by replace (lv + 1 + Z.of_nat (length pos)) with (lv + Z.of_nat (S (length pos))) by lia.
Qed.

Lemma nodeAt_modify f pos n m : nodeAt pos n = Some m -> nodeAt pos (modifyAt f pos n) = Some (f m).
Proof.
  revert n. induction pos as [|i pos IH]; intros n; simpl; [by intros [= <-]|].
  rewrite list_lookup_alter_eq. destruct (Children n !! i) as [c|]; simpl; [|done]. apply IH.
Qed.

(** ** Sizes and levels *)
Lemma calSize_fields n : Url (calSize n) = Url n /\ nName (calSize n) = nName n /\ Level (calSize n) = Level n /\
  nModified (calSize n) = nModified n.
Proof. destruct n as [u nm lv m sz l]. unfold calSize; fold calSize. by destruct (isFile _). Qed.

Lemma calSize_idem n : calSize (calSize n) = calSize n.
Proof.
  induction n as [u nm lv m sz l IH] using Node_rect'. simpl. unfold isFile. simpl.
  destruct (negb (seqb u "")) eqn:E; simpl; unfold isFile; simpl; rewrite E; [done|].
  assert (map calSize (map calSize l) = map calSize l) as -> by (by induction IH; simpl; f_equal). done.
Qed.

Lemma calSize_unsized n lv : printable lv n -> calSize (unsized n) = calSize n.
Proof.
  revert lv. induction n as [u nm lv0 m sz l IH] using Node_rect'. intros lv Hp. simpl. unfold isFile. simpl. inv Hp.
  - rewrite (file_url _ H0 : seqb u "" = false). simpl. pose proof (pf_leaf _ H0) as Hl. simpl in Hl. by rewrite Hl.
  - rewrite (folder_url _ H0 : seqb u "" = true). simpl. simpl in H1.
    assert (map calSize (map unsized l) = map calSize l) as ->; [|done]. clear -IH H1.
    induction l as [|c l IHl]; simpl; [done|]. apply Forall_cons in IH as [Hc IH], H1 as [Hpc H1].
    by rewrite (Hc _ Hpc), IHl.
Qed.

Lemma calSize_unsized_root r : printableRoot r -> calSize (unsized r) = calSize r.
Proof.
  intros [Hu _ _ _ Hc]. destruct r as [u nm lv m sz l]. simpl in *. subst u. unfold isFile. simpl.
  assert (map calSize (map unsized l) = map calSize l) as ->; [|done].
  induction Hc as [|c l Hp Hl IH]; simpl; [done|]. by rewrite (calSize_unsized _ _ Hp), IH.
Qed.

(** A node of another level, size or place has the same line. *)
Lemma printable_same lv lv' n n' :
  printable lv n -> Level n' = lv' -> Url n' = Url n -> nName n' = nName n -> nModified n' = nModified n ->
  (isFile n = true -> nSize n' = nSize n /\ Children n' = []) ->
  (isFile n = false -> Forall (printable (lv' + 1)) (Children n')) -> printable lv' n'.
Proof.
  intros Hp Hlv Hu Hn Hm Hf Hd. unfold isFile in *. inv Hp.
  - destruct Hf as [Hs Hl]; [by rewrite file_url|]. apply printable_file; [done|]. destruct H0. split; congruence.
  - apply printable_folder; [done| |apply Hd; by rewrite folder_url]. destruct H0. split; congruence.
Qed.

Lemma printable_calSize n lv : printable lv n -> printable lv (calSize n).
Proof.
  revert lv. induction n as [u nm lv0 m sz l IH] using Node_rect'. intros lv Hp. simpl.
  destruct (isFile _) eqn:E; [done|]. assert (lv0 = lv) as -> by (by inv Hp).
  eapply printable_same; [exact Hp|done..| |]; simpl; [by rewrite E|]. intros _.
  unfold isFile in E. inv Hp; [by rewrite (file_url _ H0) in E|]. simpl in H1. apply Forall_map.
  rewrite Forall_forall in IH, H1. apply Forall_forall. intros c Hc. apply IH; [done|by apply H1].
Qed.

Lemma printableRoot_calSize r : printableRoot r -> printableRoot (calSize r).
Proof.
  intros [Hu Hn Hl Hm Hc]. destruct r as [u nm lv m sz l]. simpl in *. subst u. unfold isFile. simpl. split; simpl; try done.
  apply Forall_map. eapply Forall_impl; [exact Hc|]. intros c. apply printable_calSize.
Qed.

Lemma printable_setLevel n lv lv' : printable lv n -> printable lv' (setLevel lv' n).
Proof.
  revert lv lv'. induction n as [u nm lv0 m sz l IH] using Node_rect'. intros lv lv' Hp. simpl.
  eapply printable_same; [exact Hp|done..| |]; simpl.
  - intros E. split; [done|]. inv Hp; [by rewrite (pf_leaf _ H0 : l = [])|].
    unfold isFile in E. by rewrite (folder_url _ H0) in E.
  - intros E. unfold isFile in E. inv Hp; [by rewrite (file_url _ H0) in E|]. simpl in H1. apply Forall_map.
    rewrite Forall_forall in IH, H1. apply Forall_forall. intros c Hc. eapply IH; [done|by apply H1].
Qed.

Lemma deepCopy_setLevel n lv : deepCopy lv n = setLevel lv n.
Proof. reflexivity. Qed.

(** A node with children keeps its position and has children when another node
    gets a child at the end. *)
Lemma nodeAt_add c spos dpos r m :
  nodeAt spos r = Some m -> Children m <> [] ->
  exists m', nodeAt spos (modifyAt (fun n => addChild n c) dpos r) = Some m' /\ Children m' <> [].
Proof.
  revert dpos r. induction spos as [|i spos IH]; intros dpos r; simpl.
  - intros [= <-] Hne. eexists. split; [done|]. destruct dpos as [|j dpos]; simpl; [by destruct (Children r)|].
    intros H. apply Hne. apply length_zero_iff_nil. apply length_zero_iff_nil in H. by rewrite length_alter in H.
  - destruct (Children r !! i) as [x|] eqn:Hx; simpl; [|done]. intros Hm Hne. destruct dpos as [|j dpos]; simpl.
    + rewrite (lookup_app_l_Some _ _ _ _ Hx). simpl. by exists m.
    + destruct (decide (i = j)) as [<-|Hij].
      * rewrite list_lookup_alter_eq, Hx. simpl. by apply IH.
      * rewrite list_lookup_alter_ne, Hx by done. simpl. by exists m.
Qed.

(** ** The operations *)
Section Ops.
Context (head_ : gostr -> option Z) (Writable : bool).

Abbreviation lookupRoot d := (lookupNode d).

Lemma lookupNode_ok d path pos m :
  printableRoot (root d) -> lookupNode d path = Some (pos, m) ->
  nodeAt pos (root d) = Some m /\ okNode (-1 + Z.of_nat (length pos)) m /\ Level m = -1 + Z.of_nat (length pos).
Proof.
  intros Hr. unfold lookupNode. destruct (GetNodeFromRootByPath (root d) path) as [pos'|]; simpl; [|done].
  destruct (nodeAt pos' (root d)) as [m'|] eqn:Hm; simpl; [|done]. intros [= <- <-]. split; [done|].
  assert (Hok : okNode (-1 + Z.of_nat (length pos')) m') by (eapply okNode_at; [lia|exact Hr|done]). split; [done|].
  apply okNode_children in Hok; [by destruct Hok|lia].
Qed.

(** Adding a printable child to a folder. *)
Lemma add_ok d path pos m c :
  printableRoot (root d) -> lookupNode d path = Some (pos, m) -> isFile m = false ->
  printable (Level m + 1) c -> printableRoot (modifyAt (fun n => addChild n c) pos (root d)).
Proof.
  intros Hr Hl Hf Hc. destruct (lookupNode_ok _ _ _ _ Hr Hl) as (Hm & Hok & Hlv).
  apply (okNode_modify (-1) (root d) pos m); [lia|done|done|]. intros _. rewrite Hlv in Hc.
  apply okNode_set; [lia|done|done|]. apply Forall_app. split; [|by apply Forall_singleton].
  apply okNode_children; [lia|done].
Qed.

Lemma dir_printable lv name : nl ∉ name -> noLead name -> printable lv (mkNode [] name lv 0 0 []).
Proof. intros H1 H2. apply printable_folder; [done|by split|by constructor]. Qed.

Lemma urlMakeDir_ok d o name :
  printableRoot (root d) -> nl ∉ name -> noLead name -> printableRoot (root (urlMakeDir Writable d o name).1).
Proof.
  intros Hr H1 H2. unfold urlMakeDir. destruct (negb Writable); [done|].
  destruct (lookupNode d (GetPath o)) as [[pos m]|] eqn:Hl; [|done]. destruct (isFile m) eqn:Hf; [done|]. simpl.
  eapply add_ok; [done|exact Hl|done|by apply dir_printable].
Qed.

Lemma urlPutURL_ok d o name url :
  printableRoot (root d) -> goodName name -> name <> [] -> goodLink url ->
  printableRoot (root (urlPutURL head_ false Writable d o name url).1).
Proof.
  intros Hr Hn Hne Hu. unfold urlPutURL. destruct (negb Writable); [done|].
  destruct (lookupNode d (GetPath o)) as [[pos m]|] eqn:Hl; [|done]. destruct (isFile m) eqn:Hf; [done|]. simpl.
  eapply add_ok; [done|exact Hl|done|]. apply printable_file; [done|]. split; try done. by left.
Qed.

(** Taking children away from a node. *)
Lemma filter_ok (r : Node) pos m (f : list Node -> list Node) :
  printableRoot r -> nodeAt pos r = Some m -> Children m <> [] -> (forall l, f l `sublist_of` l) ->
  printableRoot (modifyAt (fun n => setChildren n (f (Children n))) pos r).
Proof.
  intros Hr Hm Hne Hf. apply (okNode_modify (-1) r pos m); [lia|done|done|]. intros Hok.
  destruct (okNode_children (-1 + Z.of_nat (length pos)) m ltac:(lia) Hok) as [Hch _]. apply okNode_set; [lia|done| |].
  - unfold isFile. unfold okNode in Hok. destruct (_ =? -1); [by destruct Hok as [-> _]|]. inv Hok; [|by rewrite folder_url].
    by destruct (pf_leaf _ H0).
  - rewrite Forall_forall in Hch. apply Forall_forall. intros c Hc. apply Hch.
    eapply sublist_subseteq; [apply Hf|done].
Qed.

Lemma lastNamed_mem name l n : lastNamed name l = Some n -> n ∈ l.
Proof.
  unfold lastNamed. intros H. apply last_Some in H as [l' H].
  assert (Hin : n ∈ filter (fun c => nName c = name) l) by (rewrite H; apply elem_of_app; right; by left).
  by apply list_elem_of_filter in Hin as [_ ?].
Qed.

Lemma lastNamed_nonempty name l n : lastNamed name l = Some n -> l <> [].
Proof. intros H%lastNamed_mem ->. by apply elem_of_nil in H. Qed.

Lemma urlRemove_ok d o : printableRoot (root d) -> printableRoot (root (urlRemove Writable d o).1).
Proof.
  intros Hr. unfold urlRemove. destruct (negb Writable); [done|]. destruct (path_Split (GetPath o)) as [dir name].
  destruct (lookupNode d dir) as [[pos m]|] eqn:Hl; [|done]. destruct (lastNamed name (Children m)) as [x|] eqn:Hx; [|done].
  simpl. destruct (lookupNode_ok _ _ _ _ Hr Hl) as (Hm & _).
  assert (Hf : printableRoot (modifyAt (fun n => setChildren n (without name (Children n))) pos (root d))).
  { apply (filter_ok _ pos m (without name)); [done|done|by eapply lastNamed_nonempty|intros l; apply sublist_filter]. }
  destruct (0 <? nSize x); [by apply printableRoot_calSize|done].
Qed.

Lemma urlMove_ok d o dst : printableRoot (root d) -> printableRoot (root (urlMove Writable d o dst).1).
Proof.
  intros Hr. unfold urlMove. destruct (negb Writable); [done|]. destruct (hasPrefix _ _); [done|].
  destruct (lookupNode d (GetPath dst)) as [[dpos dn]|] eqn:Hd; [|done]. destruct (isFile dn) eqn:Hf; [done|].
  destruct (path_Split (GetPath o)) as [dir name].
  destruct (lookupNode d dir) as [[spos sp]|] eqn:Hs; [|done]. destruct (lastNamed name (Children sp)) as [x|] eqn:Hx; [|done].
  simpl. apply printableRoot_calSize. destruct (lookupNode_ok _ _ _ _ Hr Hs) as (Hm & Hok & _).
  destruct (okNode_children (-1 + Z.of_nat (length spos)) sp ltac:(lia) Hok) as [Hch _]. rewrite Forall_forall in Hch.
  pose proof (lastNamed_mem _ _ _ Hx) as Hin.
  assert (Ha : printableRoot (modifyAt (fun n => addChild n (setLevel (Level dn + 1) x)) dpos (root d))).
  { eapply add_ok; [done|exact Hd|done|]. eapply printable_setLevel. by apply Hch. }
  set (r1 := modifyAt _ dpos _) in *. 
  destruct (nodeAt_add (setLevel (Level dn + 1) x) spos dpos (root d) sp Hm) as (m1 & Hm1 & Hne);
    [by eapply lastNamed_nonempty|].
  fold r1 in Hm1.
  eapply (filter_ok r1 spos m1 (fun l => without name (take (length (Children sp)) l) ++ drop (length (Children sp)) l)); [done|done|done|].
  intros l. rewrite <- (take_drop (length (Children sp)) l) at 3. apply sublist_app; [apply sublist_filter|done].
Qed.

Lemma firstChild_nonempty f i l q : firstChild f i l = Some q -> q <> [].
Proof.
  revert i. induction l as [|c l IH]; intros i; simpl; [done|]. destruct (f c); [by intros [= <-]|apply IH].
Qed.

(** The position of a rooted path other than "/" is not the root. *)
Lemma lookup_below d path pos m :
  hasPrefix path "/" = true -> path <> "/" -> lookupNode d path = Some (pos, m) -> pos <> [].
Proof.
  intros Hp Hne. unfold lookupNode, GetNodeFromRootByPath, splitPath.
  assert (seqb path "/" = false) as -> by (by apply seqb_false).
  assert (Hs : exists w ws, splitByte (trimSuffix path "/") slash = [] :: w :: ws).
  { apply hasPrefix_spec in Hp as [t ->]. unfold trimSuffix. destruct (hasSuffix _ _) eqn:E.
    - destruct t as [|c t]; [done|]. 
      assert (take (length (("/" : gostr) ++ c :: t) - length ("/" : gostr)) (("/" : gostr) ++ c :: t) = slash :: take (length t) (c :: t)) as ->.
      { done. }
      simpl. destruct (splitByte (take (length t) (c :: t)) slash) as [|w ws] eqn:Es; [by apply splitByte_not_nil in Es|by exists w, ws].
    - simpl. destruct (splitByte t slash) as [|w ws] eqn:Es; [by apply splitByte_not_nil in Es|by exists w, ws]. }
  destruct Hs as (w & ws & ->). cbn [getByPath]. destruct (negb _); [done|].
  destruct (firstChild _ _ _) as [q|] eqn:Hq; simpl; [|done].
  apply firstChild_nonempty in Hq.
  destruct (nodeAt q (root d)) as [x|]; simpl; [|done]. by intros [= <- <-].
Qed.

Lemma urlCopy_ok d o dst :
  printableRoot (root d) -> hasPrefix (GetPath o) "/" = true -> hasPrefix (GetPath dst) "/" = true ->
  printableRoot (root (urlCopy Writable d o dst).1).
Proof.
  intros Hr Hp Hpd. unfold urlCopy. destruct (negb Writable); [done|]. destruct (hasPrefix (GetPath dst) (GetPath o)) eqn:Hpre; [done|].
  destruct (lookupNode d (GetPath dst)) as [[dpos dn]|] eqn:Hd; [|done]. destruct (isFile dn) eqn:Hf; [done|].
  destruct (lookupNode d (GetPath o)) as [[spos x]|] eqn:Hs; [|done]. simpl. apply printableRoot_calSize.
  eapply add_ok; [done|exact Hd|done|]. rewrite deepCopy_setLevel.
  assert (Hne : spos <> []).
  { eapply lookup_below; [exact Hp| |exact Hs]. intros E. rewrite E in Hpre. congruence. }
  destruct (lookupNode_ok _ _ _ _ Hr Hs) as (_ & Hok & _). eapply printable_setLevel.
  apply (okNode_printable (-1 + Z.of_nat (length spos))); [by destruct spos; simpl; [|lia]|exact Hok].
Qed.

Lemma rename_printable lv n name : printable lv n -> goodName name -> name <> [] -> printable lv (setName n name).
Proof.
  intros Hp (Hc & Hn & Hl) Hne. inv Hp.
  - apply printable_file; [done|]. destruct H0. split; try done. by left.
  - apply printable_folder; [done| |done]. by destruct H0.
Qed.

Lemma urlRename_ok d o name :
  printableRoot (root d) -> hasPrefix (GetPath o) "/" = true -> GetPath o <> "/" -> goodName name -> name <> [] ->
  printableRoot (root (urlRename Writable d o name).1).
Proof.
  intros Hr Hp Hnr Hn Hne. unfold urlRename. destruct (negb Writable); [done|].
  destruct (lookupNode d (GetPath o)) as [[pos m]|] eqn:Hs; [|done]. simpl.
  assert (Hpos : pos <> []) by (by eapply lookup_below).
  destruct (lookupNode_ok _ _ _ _ Hr Hs) as (Hm & _ & _).
  apply (okNode_modify (-1) (root d) pos m); [lia|done|done|].
  intros Hok. apply okNode_printable; [by destruct pos; simpl; [|lia]|]. apply rename_printable; [|done|done].
  apply okNode_printable; [by destruct pos; simpl; [|lia]|done].
Qed.
End Ops.

(** ** Sequences of operations *)
Inductive urlop :=
| UMakeDir (parentDir : Obj) (dirName : gostr)
| UMove (srcObj dstDir : Obj)
| URename (srcObj : Obj) (newName : gostr)
| UCopy (srcObj dstDir : Obj)
| URemove (obj : Obj)
| UPutURL (dstDir : Obj) (name url : gostr).

(** Paths of objects are rooted; names and links can be written as text. *)
Definition urlAllowed (o : urlop) : Prop :=
  match o with
  | UMakeDir _ name => nl ∉ name /\ noLead name
  | URename src name => hasPrefix (GetPath src) "/" = true /\ GetPath src <> "/" /\ goodName name /\ name <> []
  | UCopy src dst => hasPrefix (GetPath src) "/" = true /\ hasPrefix (GetPath dst) "/" = true
  | UPutURL _ name url => goodName name /\ name <> [] /\ goodLink url
  | UMove _ _ | URemove _ => True
  end.

Section Persist.
Context (head_ : gostr -> option Z) (Writable : bool).

Definition urlStep (d : urls) (o : urlop) : urls :=
  match o with
  | UMakeDir dir name => (urlMakeDir Writable d dir name).1
  | UMove src dst => (urlMove Writable d src dst).1
  | URename src name => (urlRename Writable d src name).1
  | UCopy src dst => (urlCopy Writable d src dst).1
  | URemove o => (urlRemove Writable d o).1
  | UPutURL dst name url => (urlPutURL head_ false Writable d dst name url).1
  end.

(** An operation changes nothing or saves the text of the new tree. *)
Lemma urlStep_saves d o : urlStep d o = d \/ exists r, urlStep d o = updateStorage r.
Proof.
  destruct o as [dir name|src dst|src name|src dst|o|dst name url]; simpl;
    [unfold urlMakeDir|unfold urlMove|unfold urlRename|unfold urlCopy|unfold urlRemove|unfold urlPutURL];
    destruct (negb Writable); try (by left);
    try (destruct (hasPrefix _ _); [by left|]);
    try (destruct (lookupNode d (GetPath _)) as [[p m]|]; [|by left]);
    try (destruct (isFile m); [by left|]);
    try (destruct (path_Split _) as [dir' name']; destruct (lookupNode d dir') as [[p' m']|]; [|by left];
         destruct (lastNamed _ _); [|by left]);
    try (destruct (lookupNode d (GetPath _)) as [[p' m']|]; [|by left]);
    right; by eexists.
Qed.

Lemma urlStep_ok d o : printableRoot (root d) -> urlAllowed o -> printableRoot (root (urlStep d o)).
Proof.
  intros Hr Ha. destruct o; simpl in *.
  - destruct Ha. by apply urlMakeDir_ok.
  - by apply urlMove_ok.
  - destruct Ha as (? & ? & ? & ?). by apply urlRename_ok.
  - destruct Ha. by apply urlCopy_ok.
  - by apply urlRemove_ok.
  - destruct Ha as (? & ? & ?). by apply urlPutURL_ok.
Qed.

(** Starting the storage again with the saved text. *)
Definition restarts (d : urls) : Prop :=
  Init head_ false (UrlStructure d) = Ok (mkUrls (calSize (root d)) (UrlStructure d)).

Lemma restarts_save r : printableRoot r -> restarts (updateStorage r).
Proof.
  intros Hr. unfold restarts, Init, updateStorage. simpl. rewrite urltree_text by done. by rewrite calSize_unsized_root.
Qed.

End Persist.

(** ** Examples and witnesses *)
Definition noHead : gostr -> option Z := fun _ => None.
Definition urlText : gostr := joinStr (strs ["a:"; "  x:5:https://h/1"; "  c:"; "https://h/2"]) [nl].
Definition pathObj (path : gostr) : Obj := Leaf (mkObject [] path [] 0 0 0 false [] 0) None.

Definition demoUrls : urls := match Init noHead false urlText with Ok d => d | Err _ => mkUrls rootNode [] end.

Definition demoUrlOps : list urlop :=
  [UMakeDir (pathObj "/a/c") "d"; UPutURL (pathObj "/a/c/d") "y" "https://h/3"; UMove (pathObj "/a/c") (pathObj "/");
   URename (pathObj "/c/d/y") "z"; UCopy (pathObj "/c/d") (pathObj "/a"); URemove (pathObj "/c")].

(** Demo names and links: none has a colon, a newline or white space at its ends. *)
Lemma goodName_demo name :
  bool_decide (colon ∉ name) = true -> bool_decide (nl ∉ name) = true -> noLead name -> goodName name.
Proof. intros H1%bool_decide_eq_true H2%bool_decide_eq_true H3. done. Qed.

Lemma goodLink_demo u :
  hasPrefix u "https://" && negb (contains u "http://") = true -> hasSuffix u ":" = false ->
  bool_decide (nl ∉ u) = true -> noTrail u -> goodLink u.
Proof.
  intros [H1 H2]%andb_prop H3 H4%bool_decide_eq_true H5. split_and!; [|done|done|done]. right. split; [done|].
  by apply negb_true_iff.
Qed.

Ltac demo_name := apply goodName_demo; [reflexivity|reflexivity|intros t; reflexivity].
Ltac demo_link := apply goodLink_demo; [reflexivity|reflexivity|reflexivity|intros t; reflexivity].

Lemma demo_file lv u name size :
  goodLink u -> goodName name -> bool_decide (name <> []) = true -> bool_decide (- 2 ^ 63 <= size < 2 ^ 63) = true ->
  printable lv (mkNode u name lv 0 size []).
Proof.
  intros Hu Hn Hne%bool_decide_eq_true Hs%bool_decide_eq_true. apply printable_file; [done|]. split; try done. by left.
Qed.

Lemma demo_folder lv name size l :
  bool_decide (nl ∉ name) = true -> noLead name -> Forall (printable (lv + 1)) l -> printable lv (mkNode [] name lv 0 size l).
Proof. intros Hn%bool_decide_eq_true Hl Hc. apply printable_folder; [done|by split|done]. Qed.

Lemma demo_printable : printableRoot (root demoUrls).
Proof.
  assert (H : root demoUrls = mkNode [] "root" (-1) 0 5
    [mkNode [] "a" 0 0 5 [mkNode "https://h/1" "x" 1 0 5 []; mkNode [] "c" 1 0 0 []]; mkNode "https://h/2" "2" 0 0 0 []])
    by (vm_compute; reflexivity).
  rewrite H. split; [done..|]. apply Forall_cons. split; [|apply Forall_singleton].
  - apply demo_folder; [reflexivity|intros t; reflexivity|]. apply Forall_cons. split; [|apply Forall_singleton].
    + apply demo_file; [demo_link|demo_name|reflexivity|reflexivity].
    + apply demo_folder; [reflexivity|intros t; reflexivity|by apply Forall_nil].
  - apply demo_file; [demo_link|demo_name|reflexivity|reflexivity].
Qed.

Lemma demoUrlOps_allowed : Forall urlAllowed demoUrlOps.
Proof.
  repeat apply Forall_cons_2; try (by apply Forall_nil); simpl.
  - split; [by apply (bool_decide_eq_true_1 (_ ∉ _))|intros t; reflexivity].
  - split_and!; [demo_name|done|demo_link].
  - done.
  - split_and!; [reflexivity|done|demo_name|done].
  - done.
  - done.
Qed.

(** Printing a tree and parsing the text gives the tree back: names, links,
    sizes and times of the files, folders and order; the sizes of the folders
    are not in the text. *)
Theorem urltree_roundtrip head_ r :
  printableRoot r -> BuildTree head_ (StringifyTree r) false = Ok (unsized r).
Proof. apply urltree_text. Qed.

Lemma urltree_roundtrip_witness :
  BuildTree noHead (StringifyTree (root demoUrls)) false = Ok (unsized (root demoUrls)).
Proof. apply (urltree_roundtrip noHead (root demoUrls) demo_printable). Defined.


(** Uploading a link into a folder puts a node of level 0 there: it is saved
    without indentation and is a file of the top folder after a restart. *)
Theorem put_leaves_folder :
  let d := (urlPut noHead false true demoUrls (pathObj "/a") (mkFile "y:https://h/3" 0 0 0 0 None)).1 in
  is_Some (lookupNode d "/a/y") /\
  match Init noHead false (UrlStructure d) with
  | Ok d' => lookupNode d' "/a/y" = None /\ is_Some (lookupNode d' "/y")
  | Err _ => False
  end.
Proof. vm_compute. split; [by eexists|]. split; [done|by eexists]. Qed.

(** A name with a colon, or a link of another scheme, makes the saved text
    unreadable: the storage does not start any more. *)
Theorem colon_name_unreadable :
  let d := (urlRename true demoUrls (pathObj "/a/x") "1:2:x").1 in
  let e := (urlPutURL noHead false true demoUrls (pathObj "/a") "y" "ftp://h/3").1 in
  is_ok (Init noHead false (UrlStructure d)) = false /\ is_ok (Init noHead false (UrlStructure e)) = false.
Proof. vm_compute. done. Qed.

(** So does an https link with "http://" inside. *)
Theorem nested_link_unreadable :
  is_ok (Init noHead false "x:https://web.archive.org/web/2020/http://h/1") = false /\
  is_ok (Init noHead false
    (UrlStructure (urlPutURL noHead false true demoUrls (pathObj "/a") "y" "https://p/http://h/3").1)) = false.
Proof. vm_compute. done. Qed.

(** A directory cannot be moved into a sibling whose name it starts. *)
Theorem move_sibling_refused :
  let d := (urlMakeDir true demoUrls (pathObj "/") "ab").1 in
  (urlMove true d (pathObj "/a") (pathObj "/ab")).2 = (None, Some (Other ParentToChild)).
Proof. vm_compute. done. Qed.
