(* ===== verification/Sign.v ===== *)
(** Signed download paths: src/pkg/sign/hmac.go, src/internal/sign, the check of
    src/server/middlewares/down.go and the reset of the token in
    src/server/handles/setting.go.

    HMAC-SHA256 is the parameter [hmac]; [base64] is base64.URLEncoding with
    padding. The clock is an argument: [now] is the second, [nowNs] the time the
    expiration is added to. *)
From S2P Require Import Prelude GoString GoPath Paths Auth HttpRange UrlTree.

(** ** encoding/base64 *)
Definition base64Alphabet : gostr := "ABCDEFGHIJKLMNOPQRSTUVWXYZabcdefghijklmnopqrstuvwxyz0123456789-_".
Definition base64Char (n : Z) : ascii := nth (Z.to_nat (Z.land n 63)) base64Alphabet "="%char.

(** The characters of a group of up to three bytes; what is missing is zero. *)
Definition base64Group (a b c : Z) : Z := Z.lor (Z.shiftl a 16) (Z.lor (Z.shiftl b 8) c).

Fixpoint base64 (s : gostr) : gostr :=
  match s with
  | [] => []
  | [a] =>
      let v := base64Group (byte_val a) 0 0 in
      [base64Char (Z.shiftr v 18); base64Char (Z.shiftr v 12); "="%char; "="%char]
  | [a; b] =>
      let v := base64Group (byte_val a) (byte_val b) 0 in
      [base64Char (Z.shiftr v 18); base64Char (Z.shiftr v 12); base64Char (Z.shiftr v 6); "="%char]
  | a :: b :: c :: s =>
      let v := base64Group (byte_val a) (byte_val b) (byte_val c) in
      base64Char (Z.shiftr v 18) :: base64Char (Z.shiftr v 12) :: base64Char (Z.shiftr v 6) :: base64Char v :: base64 s
  end.

Example base64_ex : base64 "light work." = "bGlnaHQgd29yay4=" /\ base64 "light work" = "bGlnaHQgd29yaw==".
Proof. done. Qed.

(** ** The signature *)
Inductive sign_err := ErrSignExpired | ErrSignInvalid | ErrExpireInvalid | ErrExpireMissing.

Section Sign.
Context (hmac : gostr -> gostr -> gostr).   (* the key, the message *)

Definition Sign (secret data : gostr) (expire : Z) : gostr :=
  let expireTimeStamp := formatInt expire in
  base64 (hmac secret (data ++ ":" ++ expireTimeStamp)) ++ ":" ++ expireTimeStamp.

Definition Verify (now : Z) (secret data sign : gostr) : option sign_err :=
  let exp := match lastIndexByte sign ":"%char with Some i => drop (S i) sign | None => sign end in
  if seqb exp "" then Some ErrExpireMissing
  else
    match parseInt exp with
    | (_, Some _) => Some ErrExpireInvalid
    | (expires, None) =>
        if (expires <? now) && negb (expires =? 0) then Some ErrSignExpired
        else if negb (seqb (Sign secret data expires) sign) then Some ErrSignInvalid
        else None
    end.

(** ** The two instances *)

(** The setting of the token, and the secrets the instances were made with. A
    use of an instance makes it first. *)
Record signs := mkSigns { token : gostr; instance : option gostr; instanceArchive : option gostr }.

Definition Instance_ (s : signs) : signs := mkSigns (token s) (Some (token s)) (instanceArchive s).
Definition InstanceArchive (s : signs) : signs := mkSigns (token s) (instance s) (Some (token s ++ "-archive")).

Definition once (s : signs) : signs := match instance s with Some _ => s | None => Instance_ s end.
Definition onceArchive (s : signs) : signs := match instanceArchive s with Some _ => s | None => InstanceArchive s end.

Definition secretOf (s : signs) : gostr := default [] (instance s).
Definition secretArchive (s : signs) : gostr := default [] (instanceArchive s).

(** [expire]: the setting of the expiration in hours; time.Duration is int64. *)
Definition expiration (nowNs expire : Z) : Z :=
  if expire =? 0 then 0 else (nowNs + i64 (expire * 3600000000000)) / 1000000000.

Definition SignPath (nowNs expire : Z) (data : gostr) (s : signs) : signs * gostr :=
  let s := once s in (s, Sign (secretOf s) data (expiration nowNs expire)).
Definition SignArchive (nowNs expire : Z) (data : gostr) (s : signs) : signs * gostr :=
  let s := onceArchive s in (s, Sign (secretArchive s) data (expiration nowNs expire)).
Definition VerifyPath (now : Z) (data sign : gostr) (s : signs) : signs * option sign_err :=
  let s := once s in (s, Verify now (secretOf s) data sign).
Definition VerifyArchive (now : Z) (data sign : gostr) (s : signs) : signs * option sign_err :=
  let s := onceArchive s in (s, Verify now (secretArchive s) data sign).

(** ResetToken, when the setting is saved. *)
Definition ResetToken (random : gostr) (s : signs) : signs := Instance_ (mkSigns random (instance s) (instanceArchive s)).

(** ** Downloads *)
Context (equalFold : gostr -> gostr -> bool)
        (getMetaByPath : gostr -> res meta_err Meta) (getMetaSnapshot : res meta_err (list Meta))
        (SignAll : bool) (IsStorageSignEnabled : gostr -> bool).

Definition needSign (meta : option Meta) (path : gostr) : bool :=
  if SignAll then true
  else if IsStorageSignEnabled path then true
  else
    match meta with
    | None => false
    | Some m =>
        if seqb (Password m) "" then false
        else if negb (PSub m) && negb (MetaCoversPath equalFold (mPath m) path false) then false
        else true
    end.

Inductive down_err := DownMeta (e : meta_err) | DownSign (e : sign_err).

(** The middleware: the error it answers with, none when the request goes on. *)
Definition Down (verifyFunc : gostr -> gostr -> option sign_err) (rawPath sign : gostr) : option down_err :=
  let go meta := if needSign meta rawPath then DownSign <$> verifyFunc rawPath (trimSuffix sign "/") else None in
  match GetNearestMeta equalFold getMetaByPath getMetaSnapshot rawPath with
  | Some (Ok m) => go (Some m)
  | Some (Err MetaNotFound) => go None
  | Some (Err e) => Some (DownMeta e)
  | None => Some (DownMeta DbError)   (* GetNearestMeta always answers *)
  end.
End Sign.

(** ** Lemmas *)
Lemma lor_shiftl a b k : 0 <= k -> 0 <= b < 2 ^ k -> Z.lor (Z.shiftl a k) b = a * 2 ^ k + b.
Proof.
  intros Hk Hb. assert (L : Z.land (Z.shiftl a k) b = 0).
  { apply Z.bits_inj'. intros n Hn. rewrite Z.land_spec, Z.bits_0. destruct (Z.lt_ge_cases n k).
    - by rewrite Z.shiftl_spec_low.
    - rewrite <- (Z.mod_small b (2 ^ k)) by done. rewrite Z.mod_pow2_bits_high by lia. apply andb_false_r. }
  rewrite <- Z.lxor_lor, <- Z.add_nocarry_lxor by done. by rewrite Z.shiftl_mul_pow2.
Qed.

Lemma base64Group_val a b c : 0 <= b < 256 -> 0 <= c < 256 -> base64Group a b c = a * 65536 + b * 256 + c.
Proof.
  intros Hb Hc. unfold base64Group. rewrite (lor_shiftl b c 8) by lia. rewrite lor_shiftl by lia. lia.
Qed.

Lemma alphabet_inj : forallb (fun i => forallb (fun j => bool_decide (nth i base64Alphabet "="%char = nth j base64Alphabet "="%char -> i = j))
  (seq 0 65)) (seq 0 65) = true.
Proof. vm_compute. reflexivity. Qed.

Lemma base64Char_inj m n : base64Char m = base64Char n -> m mod 64 = n mod 64.
Proof.
  unfold base64Char. rewrite !(Z.land_ones _ 6) by done. intros H. pose proof alphabet_inj as A. rewrite forallb_forall in A.
  pose proof (Z.mod_pos_bound m 64 ltac:(lia)). pose proof (Z.mod_pos_bound n 64 ltac:(lia)). change (2 ^ 6) with 64 in *.
  specialize (A (Z.to_nat (m mod 64)) ltac:(apply in_seq; lia)). cbv beta in A. rewrite forallb_forall in A.
  specialize (A (Z.to_nat (n mod 64)) ltac:(apply in_seq; lia)). apply bool_decide_eq_true_1 in A. apply A in H. lia.
Qed.

Lemma base64Char_pad n : base64Char n <> "="%char.
Proof.
  unfold base64Char. rewrite (Z.land_ones _ 6) by done. intros H. pose proof alphabet_inj as A. rewrite forallb_forall in A.
  pose proof (Z.mod_pos_bound n (2 ^ 6) ltac:(lia)). change (2 ^ 6) with 64 in *.
  specialize (A (Z.to_nat (n mod 64)) ltac:(apply in_seq; lia)). cbv beta in A. rewrite forallb_forall in A.
  specialize (A 64%nat ltac:(apply in_seq; lia)). apply bool_decide_eq_true_1 in A. apply A in H. lia.
Qed.

(** A number of three bytes from its four digits *)
Lemma sextets_inj v w : 0 <= v < 2 ^ 24 -> 0 <= w < 2 ^ 24 ->
  Z.shiftr v 18 mod 64 = Z.shiftr w 18 mod 64 -> Z.shiftr v 12 mod 64 = Z.shiftr w 12 mod 64 ->
  Z.shiftr v 6 mod 64 = Z.shiftr w 6 mod 64 -> v mod 64 = w mod 64 -> v = w.
Proof.
  intros Hv Hw. rewrite !Z.shiftr_div_pow2 by done. change (2 ^ 18) with (64 * 64 * 64). change (2 ^ 12) with (64 * 64). change (2 ^ 6) with 64.
  change (2 ^ 24) with (64 * 64 * 64 * 64) in *. rewrite <- !Z.div_div by lia. intros H1 H2 H3 H4.
  assert (D : forall x y, x mod 64 = y mod 64 -> x / 64 = y / 64 -> x = y).
  { intros x y Hm Hd. pose proof (Z.div_mod x 64). pose proof (Z.div_mod y 64). lia. }
  do 3 (apply D; [done|]). rewrite !Z.mod_small in H1; [done| |].
  - split; [repeat apply Z.div_pos; lia|]. repeat (apply Z.div_lt_upper_bound; [lia|]). lia.
  - split; [repeat apply Z.div_pos; lia|]. repeat (apply Z.div_lt_upper_bound; [lia|]). lia.
Qed.

Definition byteOf (o : option ascii) : Z := match o with Some c => byte_val c | None => 0 end.

Lemma byteOf_range o : 0 <= byteOf o < 256.
Proof. destruct o; [apply byte_val_range|done]. Qed.

Lemma group_inj a b c a' b' c' :
  let v := base64Group (byteOf a) (byteOf b) (byteOf c) in let w := base64Group (byteOf a') (byteOf b') (byteOf c') in
  base64Char (Z.shiftr v 18) = base64Char (Z.shiftr w 18) -> base64Char (Z.shiftr v 12) = base64Char (Z.shiftr w 12) ->
  base64Char (Z.shiftr v 6) = base64Char (Z.shiftr w 6) -> base64Char v = base64Char w ->
  byteOf a = byteOf a' /\ byteOf b = byteOf b' /\ byteOf c = byteOf c'.
Proof.
  intros v w H1 H2 H3 H4. pose proof (byteOf_range a). pose proof (byteOf_range b). pose proof (byteOf_range c).
  pose proof (byteOf_range a'). pose proof (byteOf_range b'). pose proof (byteOf_range c').
  assert (E : v = w).
  { unfold v, w in *. rewrite !base64Group_val in * by done. change (2 ^ 24) with 16777216 in *.
    apply sextets_inj; [lia|lia|by apply base64Char_inj..]. }
  unfold v, w in E. rewrite !base64Group_val in E by done. lia.
Qed.

Lemma base64Char_mod m n : m mod 64 = n mod 64 -> base64Char m = base64Char n.
Proof. intros H. unfold base64Char. rewrite !(Z.land_ones _ 6) by done. change (2 ^ 6) with 64. by rewrite H. Qed.

Lemma group_low6 a : base64Char (Z.shiftr (base64Group a 0 0) 6) = base64Char 0.
Proof.
  apply base64Char_mod. rewrite base64Group_val, Z.shiftr_div_pow2 by done. replace (a * 65536 + 0 * 256 + 0) with (a * 16 * 64 * 2 ^ 6) by lia.
  rewrite Z.div_mul by done. by rewrite Z.mod_mul.
Qed.

Lemma group_low0 a b : 0 <= b < 256 -> base64Char (base64Group a b 0) = base64Char 0.
Proof.
  intros Hb. apply base64Char_mod. rewrite base64Group_val by done. replace (a * 65536 + b * 256 + 0) with ((a * 1024 + b * 4) * 64) by lia.
  by rewrite Z.mod_mul.
Qed.

(** Different strings have different encodings. *)
Lemma base64_inj s : forall t, base64 s = base64 t -> s = t.
Proof.
  assert (P : forall n, base64Char n = "="%char -> False) by (intros n; apply base64Char_pad).
  assert (P' : forall n, "="%char = base64Char n -> False) by (intros n H; by apply (P n)).
  enough (H : forall n s t, (length s <= n)%nat -> base64 s = base64 t -> s = t) by (intros t; by apply (H (length s))).
  clear s. induction n as [|n IH]; intros s t Hn; [destruct s; [|simpl in Hn; lia]; by destruct t as [|? [|? [|]]]|].
  destruct s as [|a [|b [|c s]]], t as [|a' [|b' [|c' t]]]; try done; cbn -[base64Group]; intros H; injection H; intros;
    try (exfalso; eauto using P, P'; done).
  - destruct (group_inj (Some a) None None (Some a') None None) as (E & _); [done|done| |..]; cbn -[base64Group].
    + by rewrite !group_low6.
    + by rewrite !group_low0.
    + apply byte_val_inj in E. by rewrite E.
  - destruct (group_inj (Some a) (Some b) None (Some a') (Some b') None) as (E & E' & _); [done|done|done| |]; cbn -[base64Group].
    + by rewrite !group_low0 by apply byte_val_range.
    + apply byte_val_inj in E. apply byte_val_inj in E'. by rewrite E, E'.
  - destruct (group_inj (Some a) (Some b) (Some c) (Some a') (Some b') (Some c')) as (E & E' & E''); [done..|].
    apply byte_val_inj in E, E', E''. rewrite E, E', E''. do 3 f_equal. apply IH; [simpl in Hn; lia|done].
Qed.

Section Spec.
Context (hmac : gostr -> gostr -> gostr).

Definition collision (secret : gostr) : Prop := exists m m', m <> m' /\ hmac secret m = hmac secret m'.

Lemma formatInt_no_char c e : ~ is_digit c -> c <> "-"%char -> c ∉ formatInt e.
Proof. intros H1 H2 H. pose proof (formatInt_digit_or_minus e) as F. rewrite Forall_forall in F. by destruct (F c H). Qed.

Lemma formatInt_no_colon e : ":"%char ∉ formatInt e.
Proof. apply formatInt_no_char; [intros [_ H]; by apply H|done]. Qed.

Lemma formatInt_no_slash e : "/"%char ∉ formatInt e.
Proof. apply formatInt_no_char; [intros [H _]; by apply H|done]. Qed.

Lemma last_colon_inj x x' (y y' : gostr) : ":"%char ∉ y -> ":"%char ∉ y' -> x ++ ":" ++ y = x' ++ ":" ++ y' -> x = x' /\ y = y'.
Proof.
  intros Hy Hy' H. pose proof (lastIndexByte_app x ":"%char y Hy) as L. change (x ++ ":"%char :: y) with (x ++ ":" ++ y) in L. rewrite H in L.
  change (x' ++ ":" ++ y') with (x' ++ ":"%char :: y') in L. rewrite lastIndexByte_app in L by done. injection L as L.
  apply app_inj_1 in H as [-> H]; [|done]. by injection H.
Qed.

(** A signature determines what it was made for, or there is a collision. *)
Lemma Sign_binds secret d e d' e' : i64_ok e -> i64_ok e' -> Sign hmac secret d e = Sign hmac secret d' e' -> e = e' /\ (d = d' \/ collision secret).
Proof.
  intros He He' H. unfold Sign in H. apply last_colon_inj in H as [H1 H2]; [|apply formatInt_no_colon..].
  apply formatInt_inj in H2; [|done..]. subst e'. split; [done|]. apply base64_inj in H1.
  destruct (decide (d = d')) as [|Hd]; [by left|right]. eexists _, _. split; [|exact H1]. by intros E%app_inv_tail.
Qed.

Definition unexpired (now e : Z) : Prop := e = 0 \/ now <= e.

Lemma Verify_sound now secret data sign : Verify hmac now secret data sign = None ->
  exists e, i64_ok e /\ sign = Sign hmac secret data e /\ unexpired now e.
Proof.
  unfold Verify. cbv zeta. set (exp := match lastIndexByte sign ":"%char with Some i => _ | None => _ end).
  destruct (seqb exp ""); [done|]. destruct (parseInt exp) as [e [err|]] eqn:Ep; [done|]. destruct (_ && _) eqn:Ex; [done|].
  destruct (negb (seqb _ _)) eqn:Es; [done|]. intros _. exists e. split; [by eapply parseInt_range|]. split.
  - by apply negb_false_iff, seqb_true in Es.
  - unfold unexpired. apply andb_false_iff in Ex as [Ex|Ex]; [apply Z.ltb_ge in Ex; by right|left]. by apply negb_false_iff, Z.eqb_eq in Ex.
Qed.

Lemma Verify_complete now secret data e : i64_ok e -> Verify hmac now secret data (Sign hmac secret data e) = if (e <? now) && negb (e =? 0) then Some ErrSignExpired else None.
Proof.
  intros He. set (x := Sign hmac secret data e). assert (Hd : match lastIndexByte x ":"%char with Some i => drop (S i) x | None => x end = formatInt e).
  { unfold x, Sign. rewrite (lastIndexByte_app _ ":"%char (formatInt e)) by apply formatInt_no_colon.
    match goal with |- drop (S (length ?y)) _ = _ => change (drop (S (length y)) (y ++ [":"%char] ++ formatInt e) = formatInt e); set (z := y) end.
    rewrite (assoc_L (++)), drop_app_length'; [done|]. rewrite length_app. simpl. lia. }
  unfold Verify. rewrite Hd. clear Hd. unfold x. destruct (seqb (formatInt e) "") eqn:E; [by apply seqb_true, formatInt_not_nil in E|].
  rewrite parseInt_formatInt by done. by rewrite seqb_refl.
Qed.

Lemma trim_sign secret d e : trimSuffix (Sign hmac secret d e) "/" = Sign hmac secret d e.
Proof.
  unfold trimSuffix, hasSuffix. unfold Sign at 1. rewrite !rev_app_distr, <- !(assoc_L (++)).
  destruct (rev (formatInt e)) as [|c l] eqn:E.
  - apply (f_equal (@rev _)) in E. rewrite rev_involutive in E. by apply formatInt_not_nil in E.
  - simpl. rewrite bool_decide_false; [done|]. intros Hc. apply (formatInt_no_slash e). apply elem_of_rev. rewrite E, Hc. by left.
Qed.

(** ** The downloads *)
Section Downloads.
Context (equalFold : gostr -> gostr -> bool)
        (getMetaByPath : gostr -> res meta_err Meta) (getMetaSnapshot : res meta_err (list Meta))
        (SignAll : bool) (IsStorageSignEnabled : gostr -> bool).

(** The path is one that needs a signature. *)
Definition signNeeded (path : gostr) : bool :=
  needSign equalFold SignAll IsStorageSignEnabled
    (match GetNearestMeta equalFold getMetaByPath getMetaSnapshot path with Some (Ok m) => Some m | _ => None end) path.

Abbreviation down now secret path sign :=
  (Down equalFold getMetaByPath getMetaSnapshot SignAll IsStorageSignEnabled (Verify hmac now secret) path sign).

Lemma down_verified now secret path sign : signNeeded path = true -> down now secret path sign = None ->
  Verify hmac now secret path (trimSuffix sign "/") = None.
Proof.
  unfold signNeeded, Down. destruct (GetNearestMeta _ _ _ path) as [[m|[]]|]; try done; intros ->; by destruct (Verify _ _ _ _ _).
Qed.

(** C31: a path that needs a signature is served only with a signature for this path
    that has not expired: what is accepted is the signature of the path for an
    expiration that is not over, and a signature that was made for a path is
    accepted for no other, unless two messages with the same HMAC are known. *)
Theorem down_signed now secret path sign : signNeeded path = true -> down now secret path sign = None ->
  (exists e, i64_ok e /\ trimSuffix sign "/" = Sign hmac secret path e /\ unexpired now e) /\
  (forall data e, i64_ok e -> sign = Sign hmac secret data e -> unexpired now e /\ (data = path \/ collision secret)).
Proof.
  intros Hn Hd. apply down_verified in Hd; [|done]. destruct (Verify_sound _ _ _ _ Hd) as (e & He & Hs & Hu). split; [by exists e|].
  intros data e' He' ->. rewrite trim_sign in Hs. apply Sign_binds in Hs as [-> Hc]; [|done..]. split; [done|]. by destruct Hc; [left|right].
Qed.

(** And such a signature is accepted until it expires. *)
Lemma down_accepts now secret path e : i64_ok e -> unexpired now e ->
  (forall err, GetNearestMeta equalFold getMetaByPath getMetaSnapshot path = Some (Err err) -> err = MetaNotFound) ->
  GetNearestMeta equalFold getMetaByPath getMetaSnapshot path <> None ->
  down now secret path (Sign hmac secret path e) = None.
Proof.
  intros He Hu Herr Hne. unfold Down. rewrite trim_sign, Verify_complete by done.
  assert (Hx : (e <? now) && negb (e =? 0) = false).
  { apply andb_false_iff. destruct Hu as [->|Hu]; [by right|left]. by apply Z.ltb_ge. }
  rewrite Hx. destruct (GetNearestMeta _ _ _ path) as [[m|err]|]; [by destruct (needSign _ _ _ _)| |done].
  rewrite (Herr err) by done. by destruct (needSign _ _ _ _).
Qed.
End Downloads.
End Spec.

(** ** Runs *)

(** The key and the message stand for their HMAC. *)
Definition plainMac (key msg : gostr) : gostr := key ++ "|" ++ msg.
Definition signedMeta : Meta := mkMeta "/m" [] false [] false "pw" true false false "" true.

Lemma down_signed_witness :
  let sign := Sign plainMac "secret" "/m/f" 100 in
  signNeeded seqb (fun p => if seqb p "/m" then Ok signedMeta else Err MetaNotFound) (Ok [signedMeta]) false (fun _ => false) "/m/f" = true /\
  (exists e, i64_ok e /\ trimSuffix sign "/" = Sign plainMac "secret" "/m/f" e /\ unexpired 99 e).
Proof.
  split; [vm_compute; done|].
  exact (proj1 (down_signed plainMac seqb (fun p => if seqb p "/m" then Ok signedMeta else Err MetaNotFound) (Ok [signedMeta]) false (fun _ => false)
    99 "secret" "/m/f" (Sign plainMac "secret" "/m/f" 100) ltac:(vm_compute; reflexivity) ltac:(vm_compute; reflexivity))).
Defined.

(** ResetToken renews the instance for files only: a link to an archive that was
    signed with the old token stays valid. *)
Theorem archive_signs_survive :
  let s0 := mkSigns "old" None None in
  let '(s1, fileSign) := SignPath plainMac 0 0 "/f" s0 in
  let '(s2, archiveSign) := SignArchive plainMac 0 0 "/a.zip" s1 in
  let s3 := ResetToken "new" s2 in
  (VerifyPath plainMac 7 "/f" fileSign s3).2 = Some ErrSignInvalid /\
  (VerifyArchive plainMac 7 "/a.zip" archiveSign s3).2 = None.
Proof. vm_compute. done. Qed.

