(* ===== verification/LinkSys.v ===== *)
(** Links to files and who may use them: Link of src/internal/op/fs.go with
    src/internal/op/link_lifecycle.go, the reference counter SyncClosers of
    src/pkg/utils/io.go and the duplicate suppression of src/pkg/singleflight,
    as threads whose atomic steps interleave.

    A thread calls Link and, when it was given the link, closes it once. Each
    atomic operation on the counter is a step of its own; the mutexes of the
    cache and of singleflight make their bodies one step. Entries of the cache
    may vanish at any time (DeleteKey, Clear, the collection, the expiration).
    What fn does before the link is cached (GetUnwrap, the driver's Link, the
    rendition of a raw photo) is the input of one step: nobody else can see the
    link before. *)
From S2P Require Import Prelude GoString GoPath Paths Mounts Storages Objects KeyedCache DirCache OpFs.

(** ** Keys *)
Definition LinkCacheIP : Z := 1.
Definition LinkCacheUA : Z := 2.

Record LinkArgs := mkLinkArgs { aIP : gostr; aUserAgent : gostr; aType : gostr; aRedirect : bool }.

Definition linkTypeKey (mode : Z) (args : LinkArgs) : gostr :=
  let typeKey := "proxy/" ++ aType args in
  let typeKey := if aRedirect args then "redirect/" ++ aType args else typeKey in
  let typeKey := if negb (Z.land mode LinkCacheIP =? 0) then typeKey ++ "/" ++ aIP args else typeKey in
  if negb (Z.land mode LinkCacheUA =? 0) then typeKey ++ "/" ++ aUserAgent args else typeKey.

Definition linkFlightKey (key typeKey : gostr) : gostr := key ++ "/" ++ typeKey.

(** ** The state *)
Definition i32 (z : Z) : Z := (z + 2 ^ 31) mod 2 ^ 32 - 2 ^ 31.
Definition closersClosed : Z := - 2 ^ 31.

(** model.Link: the counter and the closers of its SyncClosers (how many there
    are, and how often they have been run), Expiration and RequireReference. *)
Record Link := mkLink {
  lRef : Z; lClosers : nat; lClosed : nat; lExpiration : bool; lRequireReference : bool
}.

(** What a call of fn may get from the driver. *)
Record linkSpec := mkSpec { sClosers : nat; sExpiration : bool; sRequireReference : bool }.

(** Where a thread is. [k] is the key and the type key of its call, [c] the call
    of singleflight; [owned] says that AcquireReference counted the holder. *)
Abbreviation lkey := (gostr * gostr)%type.

Inductive pc :=
| PStart (k : lkey)                       (* before linkCache.GetType *)
| PCached (k : lkey) (id : nat)           (* before acquire on a cached link *)
| PCachedStore (k : lkey) (id : nat)      (* AcquireReference found it closed *)
| PDo (k : lkey)                          (* before linkG.Do *)
| PFn (k : lkey) (c : nat)                (* runs fn *)
| PEnd (k : lkey) (c : nat) (r : option nat)   (* fn has returned a link or an error *)
| PWait (k : lkey) (c : nat)              (* waits for the call of another thread *)
| PFlight (k : lkey) (id : nat)           (* before acquire on the result of Do *)
| PFlightStore (k : lkey) (id : nat)
| PHold (id : nat) (owned : bool)         (* Link has returned the link *)
| PLoad (id : nat) (owned : bool)         (* in Close, before Load *)
| PCas (id : nat) (owned : bool) (ref : Z)
| PFinal (id : nat)                       (* Close has to run the closers *)
| PDone
| PErr.

Record world := mkWorld {
  links : gmap nat Link; nextLink : nat;
  linkCache_ : gmap lkey nat;
  flights : gmap gostr nat;               (* Group.m *)
  calls : gmap nat (option (option nat)); (* call.val once the call is done; None inside: an error *)
  nextCall : nat;
  threads : list pc
}.

Definition setThread (w : world) (t : nat) (p : pc) : world :=
  mkWorld (links w) (nextLink w) (linkCache_ w) (flights w) (calls w) (nextCall w) (<[t := p]> (threads w)).
Definition setLink (w : world) (id : nat) (l : Link) : world :=
  mkWorld (<[id := l]> (links w)) (nextLink w) (linkCache_ w) (flights w) (calls w) (nextCall w) (threads w).
Definition setRef (l : Link) (ref : Z) : Link := mkLink ref (lClosers l) (lClosed l) (lExpiration l) (lRequireReference l).
Definition setCache (w : world) (m : gmap lkey nat) : world :=
  mkWorld (links w) (nextLink w) m (flights w) (calls w) (nextCall w) (threads w).

(** SyncClosers.Expired *)
Definition closed (l : Link) : bool := lRef l <? 0.

(** ** The steps *)

(** The first step of acquire: the add of AcquireReference, or nothing for a
    link with an expiration. *)
Definition acquireAdd (w : world) (t : nat) (id : nat) (l : Link) (refused : pc) : world :=
  if lExpiration l then setThread w t (PHold id false)
  else
    let ref := i32 (lRef l + 1) in
    setThread (setLink w id (setRef l ref)) t (if 0 <? ref then PHold id true else refused).

(** The second step when the link was closed: the store, and the answer. *)
Definition acquireStore (w : world) (t : nat) (id : nat) (l : Link) (again : pc) : world :=
  setThread (setLink w id (setRef l closersClosed)) t
    (if lRequireReference l then again else PHold id false).

(** admitLink: a link with an expiration and resources, or one that requires a
    reference, is closed and refused. *)
Definition admits (s : linkSpec) : bool :=
  negb (sExpiration s && (sRequireReference s || (0 <? sClosers s)%nat)).

(** fn: the new link is admitted and cached; [spec] is what the driver answers. *)
Definition runFn (w : world) (t : nat) (k : lkey) (c : nat) (spec : option linkSpec) : world :=
  match spec with
  | None => setThread w t (PEnd k c None)
  | Some s =>
      let id := nextLink w in
      let ok := admits s in
      let l := mkLink (if ok then 0 else closersClosed) (sClosers s) (if ok then 0 else 1)
                 (sExpiration s) (sRequireReference s) in
      let w := mkWorld (<[id := l]> (links w)) (S id) (if ok then <[k := id]> (linkCache_ w) else linkCache_ w)
                 (flights w) (calls w) (nextCall w) (threads w) in
      setThread w t (PEnd k c (if ok then Some id else None))
  end.

(** The end of doCall: the waiting threads may go on and the key is free. *)
Definition endCall (w : world) (t : nat) (k : lkey) (c : nat) (r : option nat) : world :=
  let key := linkFlightKey k.1 k.2 in
  let w := mkWorld (links w) (nextLink w) (linkCache_ w)
             (if bool_decide (flights w !! key = Some c) then delete key (flights w) else flights w)
             (<[c := Some r]> (calls w)) (nextCall w) (threads w) in
  setThread w t (match r with Some id => PFlight k id | None => PErr end).

Definition startCall (w : world) (t : nat) (k : lkey) : world :=
  let key := linkFlightKey k.1 k.2 in
  match flights w !! key with
  | Some c => setThread w t (PWait k c)
  | None =>
      let c := nextCall w in
      setThread (mkWorld (links w) (nextLink w) (linkCache_ w) (<[key := c]> (flights w)) (<[c := None]> (calls w)) (S c)
                   (threads w)) t (PFn k c)
  end.

(** One step of a thread; [spec] is used by the thread that runs fn. *)
Definition step (spec : option linkSpec) (w : world) (t : nat) : option world :=
  p ← threads w !! t;
  match p with
  | PStart k =>
      match linkCache_ w !! k with
      | None => Some (setThread w t (PDo k))
      | Some id =>
          l ← links w !! id;
          Some (if negb (lExpiration l) && closed l then setThread (setCache w (delete k (linkCache_ w))) t (PDo k)
                else setThread w t (PCached k id))
      end
  | PCached k id => l ← links w !! id; Some (acquireAdd w t id l (PCachedStore k id))
  | PCachedStore k id => l ← links w !! id; Some (acquireStore w t id l (PDo k))
  | PDo k => Some (startCall w t k)
  | PFn k c => Some (runFn w t k c spec)
  | PEnd k c r => Some (endCall w t k c r)
  | PWait k c =>
      match calls w !! c with
      | Some (Some r) => Some (setThread w t (match r with Some id => PFlight k id | None => PErr end))
      | _ => None
      end
  | PFlight k id => l ← links w !! id; Some (acquireAdd w t id l (PFlightStore k id))
  | PFlightStore k id => l ← links w !! id; Some (acquireStore w t id l (PDo k))
  | PHold id owned => Some (setThread w t (PLoad id owned))
  | PLoad id owned =>
      l ← links w !! id;
      Some (setThread w t (if lRef l <? 0 then PDone else PCas id owned (lRef l)))
  | PCas id owned ref =>
      l ← links w !! id;
      Some (if negb (lRef l =? ref) then setThread w t (PLoad id owned)
            else if 1 <? ref then setThread (setLink w id (setRef l (ref - 1))) t PDone
            else setThread (setLink w id (setRef l closersClosed)) t (PFinal id))
  | PFinal id =>
      l ← links w !! id;
      Some (setThread (setLink w id (mkLink (lRef l) (lClosers l) (S (lClosed l)) (lExpiration l) (lRequireReference l))) t PDone)
  | PDone | PErr => None
  end.

Inductive steps : world -> world -> Prop :=
| step_thread spec w t w' : step spec w t = Some w' -> steps w w'
| step_evict w k : steps w (setCache w (delete k (linkCache_ w))).

(** Threads that call Link with the keys, at the start. *)
Definition initial (ks : list lkey) : world := mkWorld ∅ 0 ∅ ∅ ∅ 0 (map PStart ks).

Definition reachable (ks : list lkey) (w : world) : Prop := rtc steps (initial ks) w.

(** ** Examples *)
Definition runSteps (l : list (nat * option linkSpec)) (w : world) : option world :=
  foldl (fun w x => w ← w; step x.2 w x.1) (Some w) l.

Definition demoKey : lkey := (("/m/f" : gostr), linkTypeKey 0 (mkLinkArgs [] [] [] false)).
Definition demoSpec : option linkSpec := Some (mkSpec 1 false true).

(** Thread 1 waits for the call of thread 0, both get the link; thread 0 closes
    first, thread 1 last and runs the closers. *)
Definition demoSchedule : list (nat * option linkSpec) :=
  map (fun t => (t, demoSpec)) [0; 0; 1; 1; 0; 0; 0; 1; 1; 0; 0; 0; 1; 1; 1; 1]%nat.

Example link_demo :
  (fun w => (threads w, (fun l => (lRef l, lClosed l)) <$> links w !! 0%nat)) <$> runSteps demoSchedule (initial [demoKey; demoKey]) =
  Some ([PDone; PDone], Some (closersClosed, 1%nat)).
Proof. vm_compute. reflexivity. Qed.
