(* ===== verification/LinkSpec.v ===== *)
(** Reference counting of links: on every interleaving the resources of a link
    are alive while a caller holds it, and are released exactly once. *)
From S2P Require Import Prelude GoString GoPath Paths Mounts Storages Objects KeyedCache DirCache OpFs LinkSys.

(** ** Counting threads *)
Definition about (p : pc) : option nat :=
  match p with
  | PCached _ id | PCachedStore _ id | PFlight _ id | PFlightStore _ id | PHold id _ | PLoad id _ | PCas id _ _
  | PFinal id => Some id
  | PEnd _ _ r => r
  | _ => None
  end.

(** The thread holds a reference to the link. *)
Definition holds (id : nat) (p : pc) : bool :=
  match p with PHold i true | PLoad i true | PCas i true _ => bool_decide (i = id) | _ => false end.
(** It holds the link without a reference. *)
Definition loose (id : nat) (p : pc) : bool :=
  match p with PHold i false | PLoad i false | PCas i false _ => bool_decide (i = id) | _ => false end.
Definition storing (id : nat) (p : pc) : bool :=
  match p with PCachedStore _ i | PFlightStore _ i => bool_decide (i = id) | _ => false end.
Definition finishing (id : nat) (p : pc) : bool :=
  match p with PFinal i => bool_decide (i = id) | _ => false end.
(** It ran fn for the link and has not acquired it yet, or has just got it. *)
Definition leads (id : nat) (p : pc) : bool :=
  match p with PEnd _ _ (Some i) | PFlight _ i => bool_decide (i = id) | _ => false end.

Definition count (f : pc -> bool) (ts : list pc) : Z := Z.of_nat (length (filter (fun p => f p = true) ts)).

Lemma count_cons f p ts : count f (p :: ts) = (if f p then 1 else 0) + count f ts.
Proof. unfold count. rewrite filter_cons. destruct (f p); simpl; lia. Qed.

Lemma count_set f ts t p q :
  ts !! t = Some p -> count f (<[t := q]> ts) = count f ts - (if f p then 1 else 0) + (if f q then 1 else 0).
Proof.
  revert t. induction ts as [|x ts IH]; intros [|t]; simpl; try done.
  - intros [= ->]. rewrite !count_cons. lia.
  - intros H. rewrite !count_cons, (IH t) by done. lia.
Qed.

Lemma count_nonneg f ts : 0 <= count f ts.
Proof. unfold count. lia. Qed.

Lemma count_le f ts : count f ts <= Z.of_nat (length ts).
Proof. unfold count. pose proof (length_filter (fun p => f p = true) ts). lia. Qed.

Lemma count_pos f ts t p : ts !! t = Some p -> f p = true -> 0 < count f ts.
Proof.
  revert t. induction ts as [|x ts IH]; intros [|t]; simpl; try done.
  - intros [= ->] Hf. rewrite count_cons, Hf. pose proof (count_nonneg f ts). lia.
  - intros H Hf. rewrite count_cons. specialize (IH t H Hf). destruct (f x); lia.
Qed.

Lemma count_ex f ts : 0 < count f ts -> exists t p, ts !! t = Some p /\ f p = true.
Proof.
  induction ts as [|x ts IH]; [done|]. rewrite count_cons. destruct (f x) eqn:E.
  - intros _. by exists 0%nat, x.
  - intros H. destruct IH as (t & p & H1 & H2); [lia|]. by exists (S t), p.
Qed.

(** ** The invariant *)
Record linkOK (ts : list pc) (id : nat) (l : Link) : Prop := {
  (* with an expiration: never counted, closed at most once *)
  lk_exp : lExpiration l = true -> count (holds id) ts = 0 /\ count (storing id) ts = 0 /\
    (lRef l = 0 /\ lClosed l = 0%nat /\ count (finishing id) ts = 0 \/
     lRef l = closersClosed /\ Z.of_nat (lClosed l) + count (finishing id) ts = 1);
  (* open: the counter is the number of holders *)
  lk_open : lExpiration l = false -> 0 <= lRef l ->
    lRef l = count (holds id) ts /\ count (loose id) ts = 0 /\ count (storing id) ts = 0 /\
    lClosed l = 0%nat /\ count (finishing id) ts = 0 /\ (lRef l = 0 -> 0 < count (leads id) ts);
  (* closed: no holder, and the closers run once *)
  lk_closed : lExpiration l = false -> lRef l < 0 ->
    closersClosed <= lRef l <= closersClosed + count (storing id) ts /\ count (holds id) ts = 0 /\
    Z.of_nat (lClosed l) + count (finishing id) ts = 1;
  (* nobody holds a link that requires a reference without one *)
  lk_req : lExpiration l = false -> lRequireReference l = true -> count (loose id) ts = 0
}.

Definition admitted (l : Link) : bool := admits (mkSpec (lClosers l) (lExpiration l) (lRequireReference l)).
Definition known (w : world) (id : nat) : Prop := exists l, links w !! id = Some l /\ admitted l = true.

Record Inv (w : world) : Prop := {
  i_bound : Z.of_nat (length (threads w)) < 2 ^ 31 - 1;
  i_next id : is_Some (links w !! id) -> (id < nextLink w)%nat;
  i_about t p id : threads w !! t = Some p -> about p = Some id -> known w id;
  i_cas t id owned ref : threads w !! t = Some (PCas id owned ref) -> 0 <= ref;
  i_cache k id : linkCache_ w !! k = Some id -> known w id;
  i_calls c id : calls w !! c = Some (Some (Some id)) -> known w id;
  i_link id l : links w !! id = Some l -> linkOK (threads w) id l
}.

Lemma about_preds p id : about p <> Some id ->
  holds id p = false /\ loose id p = false /\ storing id p = false /\ finishing id p = false /\ leads id p = false.
Proof.
  intros H. destruct p as [| | | | |k c [r|]| | | |i []|i []|i [] r|i| |]; simpl in *; split_and!; try done;
    apply bool_decide_eq_false; congruence.
Qed.

(** A thread that has nothing to do with a link before and after. *)
Lemma linkOK_frame ts t p q id l :
  ts !! t = Some p -> about p <> Some id -> about q <> Some id -> linkOK ts id l -> linkOK (<[t := q]> ts) id l.
Proof.
  intros Ht Hp Hq [H1 H2 H3 H4].
  destruct (about_preds p id Hp) as (P1 & P2 & P3 & P4 & P5), (about_preds q id Hq) as (Q1 & Q2 & Q3 & Q4 & Q5).
  assert (Hc : forall f : pc -> bool, f p = false -> f q = false -> count f (<[t := q]> ts) = count f ts).
  { intros f E1 E2. rewrite (count_set f ts t p q Ht), E1, E2. lia. }
  split; rewrite ?(Hc (holds id)), ?(Hc (loose id)), ?(Hc (storing id)), ?(Hc (finishing id)), ?(Hc (leads id)) by done; done.
Qed.

(** The effect of a step on the counts of one link. *)
Lemma linkOK_step ts t p q id l l' :
  ts !! t = Some p ->
  (let d (f : nat -> pc -> bool) := (if f id q then 1 else 0) - (if f id p then 1 else 0) in
   forall h lo st fi le,
   (if holds id p then 1 else 0) <= h -> (if loose id p then 1 else 0) <= lo -> (if storing id p then 1 else 0) <= st ->
   (if finishing id p then 1 else 0) <= fi -> (if leads id p then 1 else 0) <= le -> h < 2 ^ 31 - 1 -> st < 2 ^ 31 - 1 ->
   (lExpiration l = true -> h = 0 /\ st = 0 /\
      (lRef l = 0 /\ lClosed l = 0%nat /\ fi = 0 \/ lRef l = closersClosed /\ Z.of_nat (lClosed l) + fi = 1)) ->
   (lExpiration l = false -> 0 <= lRef l ->
      lRef l = h /\ lo = 0 /\ st = 0 /\ lClosed l = 0%nat /\ fi = 0 /\ (lRef l = 0 -> 0 < le)) ->
   (lExpiration l = false -> lRef l < 0 ->
      closersClosed <= lRef l <= closersClosed + st /\ h = 0 /\ Z.of_nat (lClosed l) + fi = 1) ->
   (lExpiration l = false -> lRequireReference l = true -> lo = 0) ->
   (lExpiration l' = true -> h + d holds = 0 /\ st + d storing = 0 /\
      (lRef l' = 0 /\ lClosed l' = 0%nat /\ fi + d finishing = 0 \/
       lRef l' = closersClosed /\ Z.of_nat (lClosed l') + (fi + d finishing) = 1)) /\
   (lExpiration l' = false -> 0 <= lRef l' ->
      lRef l' = h + d holds /\ lo + d loose = 0 /\ st + d storing = 0 /\ lClosed l' = 0%nat /\ fi + d finishing = 0 /\
      (lRef l' = 0 -> 0 < le + d leads)) /\
   (lExpiration l' = false -> lRef l' < 0 ->
      closersClosed <= lRef l' <= closersClosed + (st + d storing) /\ h + d holds = 0 /\
      Z.of_nat (lClosed l') + (fi + d finishing) = 1) /\
   (lExpiration l' = false -> lRequireReference l' = true -> lo + d loose = 0)) ->
  Z.of_nat (length ts) < 2 ^ 31 - 1 ->
  linkOK ts id l -> linkOK (<[t := q]> ts) id l'.
Proof.
  intros Ht H Hb [H1 H2 H3 H4].
  assert (Hge : forall f : pc -> bool, (if f p then 1 else 0) <= count f ts).
  { intros f. destruct (f p) eqn:E; [pose proof (count_pos f ts t p Ht E); lia|apply count_nonneg]. }
  pose proof (count_le (holds id) ts). pose proof (count_le (storing id) ts).
  destruct (H (count (holds id) ts) (count (loose id) ts) (count (storing id) ts) (count (finishing id) ts)
    (count (leads id) ts)) as (G1 & G2 & G3 & G4); [apply Hge..|lia|lia|done|done|done|done|]. clear H.
  split; rewrite !(count_set _ ts t p q Ht); intros; [destruct G1 as (? & ? & ?)|destruct G2 as (? & ? & ? & ? & ? & ?)|destruct G3 as (? & ? & ?)|specialize (G4 ltac:(done) ltac:(done))];
    try done; split_and?; intros; lia.
Qed.

Lemma known_set w t q id : known (setThread w t q) id <-> known w id.
Proof. done. Qed.

(** Changing one link and moving one thread that deals with it. *)
Lemma Inv_touch w t p q id l l' :
  Inv w -> threads w !! t = Some p -> links w !! id = Some l ->
  admitted l' = admitted l ->
  (about p = Some id \/ about p = None) -> (about q = Some id /\ known w id \/ about q = None) ->
  (forall i o r, q = PCas i o r -> 0 <= r) ->
  linkOK (<[t := q]> (threads w)) id l' ->
  Inv (setThread (setLink w id l') t q).
Proof.
  intros I Ht Hl Ha Hp Hq Hr Hok. pose proof I as [B N A C K E L].
  assert (Hk : forall i, known w i -> known (setThread (setLink w id l') t q) i).
  { intros i (x & Hx & Hax). unfold known. simpl. destruct (decide (i = id)) as [->|Hne].
    - exists l'. rewrite lookup_insert_eq. split; [done|]. congruence.
    - exists x. by rewrite lookup_insert_ne. }
  split; simpl.
  - by rewrite length_insert.
  - intros i [x Hx]. destruct (decide (i = id)) as [->|Hne]; [apply N; by eexists|].
    rewrite lookup_insert_ne in Hx by done. apply N. by eexists.
  - intros t' p' i Ht' Hi. apply Hk. destruct (decide (t' = t)) as [->|Hne].
    + rewrite list_lookup_insert_eq in Ht' by (by eapply lookup_lt_Some). injection Ht' as <-.
      destruct Hq as [[Hq Hkn]|Hq]; [|congruence]. rewrite Hq in Hi. by injection Hi as <-.
    + rewrite list_lookup_insert_ne in Ht' by done. by eapply A.
  - intros t' i o r Ht'. destruct (decide (t' = t)) as [->|Hne].
    + rewrite list_lookup_insert_eq in Ht' by (by eapply lookup_lt_Some). injection Ht' as ->. by eapply Hr.
    + rewrite list_lookup_insert_ne in Ht' by done. by eapply C.
  - intros k i Hi. by apply Hk, (K k).
  - intros c i Hi. by apply Hk, (E c).
  - intros i x Hx. destruct (decide (i = id)) as [->|Hne].
    + rewrite lookup_insert_eq in Hx. by injection Hx as <-.
    + rewrite lookup_insert_ne in Hx by done. eapply linkOK_frame; [exact Ht| | |by apply L].
      * destruct Hp as [-> | ->]; congruence.
      * destruct Hq as [[-> _]| ->]; congruence.
Qed.

(** Moving a thread only. *)
Lemma Inv_stay w t p q id l :
  Inv w -> threads w !! t = Some p -> links w !! id = Some l ->
  (about p = Some id \/ about p = None) -> (about q = Some id /\ known w id \/ about q = None) ->
  (forall i o r, q = PCas i o r -> 0 <= r) ->
  linkOK (<[t := q]> (threads w)) id l -> Inv (setThread w t q).
Proof.
  intros I Ht Hl Hp Hq Hr Hok. pose proof (Inv_touch w t p q id l l I Ht Hl eq_refl Hp Hq Hr Hok) as H.
  unfold setLink in H. rewrite insert_id in H by done. by destruct w.
Qed.

Lemma Inv_free w t p q :
  Inv w -> threads w !! t = Some p -> about p = None -> about q = None -> (forall i o r, q <> PCas i o r) ->
  Inv (setThread w t q).
Proof.
  intros I Ht Hp Hq Hr. pose proof I as [B N A C K E L]. split; simpl; try done.
  - by rewrite length_insert.
  - intros t' p' i Ht' Hi. destruct (decide (t' = t)) as [->|Hne].
    + rewrite list_lookup_insert_eq in Ht' by (by eapply lookup_lt_Some). injection Ht' as <-. congruence.
    + rewrite list_lookup_insert_ne in Ht' by done. by eapply A.
  - intros t' i o r Ht'. destruct (decide (t' = t)) as [->|Hne].
    + rewrite list_lookup_insert_eq in Ht' by (by eapply lookup_lt_Some). injection Ht' as ->. by destruct (Hr i o r).
    + rewrite list_lookup_insert_ne in Ht' by done. by eapply C.
  - intros i x Hx. eapply linkOK_frame; [exact Ht|congruence|congruence|by apply L].
Qed.

(** The caches and the calls may change to anything known. *)
Lemma Inv_maps w m f c n :
  Inv w -> (forall k id, m !! k = Some id -> known w id) -> (forall k id, c !! k = Some (Some (Some id)) -> known w id) ->
  Inv (mkWorld (links w) (nextLink w) m f c n (threads w)).
Proof. intros [B N A C K E L] Hm Hc. by split. Qed.

Ltac count_step :=
  let d := fresh "d" in intros d; subst d; cbn [holds loose storing finishing leads about setRef lRef lClosed lClosers lExpiration lRequireReference];
  rewrite ?bool_decide_eq_true_2 by done; unfold closersClosed; intros;
  repeat match goal with |- context [lExpiration ?l] => destruct (lExpiration l) eqn:? end;
  repeat match goal with |- context [lRequireReference ?l] => destruct (lRequireReference l) eqn:? end;
  repeat match goal with H : true = true -> _ |- _ => specialize (H eq_refl) | H : false = true -> _ |- _ => clear H
                       | H : true = false -> _ |- _ => clear H | H : false = false -> _ |- _ => specialize (H eq_refl) end;
  split_and!; intros; try discriminate; try lia.

Lemma Inv_acquireAdd w t p id l refused :
  Inv w -> threads w !! t = Some p -> links w !! id = Some l -> known w id ->
  (exists k, p = PCached k id /\ refused = PCachedStore k id \/ p = PFlight k id /\ refused = PFlightStore k id) ->
  Inv (acquireAdd w t id l refused).
Proof.
  intros I Ht Hl Hk Hp. pose proof (i_link _ I id l Hl) as Hok. pose proof (i_bound _ I) as Hb. unfold acquireAdd.
  assert (Hap : about p = Some id) by (destruct Hp as (k & [[-> _]|[-> _]]); done).
  destruct (lExpiration l) eqn:He.
  { eapply Inv_stay; [done|exact Ht|exact Hl|by left|by left|done|]. eapply linkOK_step; [exact Ht| |done|exact Hok].
    destruct Hp as (k & [[-> _]|[-> _]]); count_step. }
  assert (Hrange : - 2 ^ 31 <= lRef l < 2 ^ 31 - 1).
  { destruct Hok as [_ H2 H3 _]. pose proof (count_le (holds id) (threads w)). pose proof (count_le (storing id) (threads w)).
    unfold closersClosed in *. destruct (Z.le_gt_cases 0 (lRef l)); [specialize (H2 He)|specialize (H3 He)]; lia. }
  assert (Hi : i32 (lRef l + 1) = lRef l + 1) by (unfold i32; rewrite Z.mod_small by lia; lia). rewrite Hi.
  eapply Inv_touch; [done|exact Ht|exact Hl|done|by left| | |].
  - left. split; [|done]. destruct (0 <? _); [done|]. by destruct Hp as (k & [[_ ->]|[_ ->]]).
  - intros i o r. destruct (0 <? _); [done|]. by destruct Hp as (k & [[_ ->]|[_ ->]]).
  - eapply linkOK_step; [exact Ht| |done|exact Hok].
    destruct (0 <? lRef l + 1) eqn:Hr; bool_hyps; destruct Hp as (k & [[-> ->]|[-> ->]]); count_step.
Qed.

Lemma Inv_acquireStore w t p id l again :
  Inv w -> threads w !! t = Some p -> links w !! id = Some l -> known w id ->
  (exists k, p = PCachedStore k id \/ p = PFlightStore k id) -> (exists k, again = PDo k) ->
  Inv (acquireStore w t id l again).
Proof.
  intros I Ht Hl Hk Hp [k' ->]. pose proof (i_link _ I id l Hl) as Hok. pose proof (i_bound _ I) as Hb. unfold acquireStore.
  eapply Inv_touch; [done|exact Ht|exact Hl|done| | | |].
  - left. destruct Hp as (k & [-> | ->]); done.
  - destruct (lRequireReference l); [by right|by left].
  - intros i o r. by destruct (lRequireReference l).
  - eapply linkOK_step; [exact Ht| |done|exact Hok].
    destruct (lRequireReference l) eqn:Hrr; destruct Hp as (k & [-> | ->]); count_step.
Qed.

(** A link nobody has heard of. *)
Lemma fresh_counts w id :
  Inv w -> links w !! id = None ->
  count (holds id) (threads w) = 0 /\ count (loose id) (threads w) = 0 /\ count (storing id) (threads w) = 0 /\
  count (finishing id) (threads w) = 0.
Proof.
  intros I Hn.
  assert (H : forall f : nat -> pc -> bool, (forall p, f id p = true -> about p = Some id) -> count (f id) (threads w) = 0).
  { intros f Hf. destruct (decide (0 < count (f id) (threads w))) as [Hp|Hp]; [|pose proof (count_nonneg (f id) (threads w)); lia].
    apply count_ex in Hp as (t & p & Ht & Hp). destruct (i_about _ I t p id Ht (Hf p Hp)) as (l & Hl & _). congruence. }
  split_and!; apply H; intros p Hp; destruct p as [| | | | |k c [r|]| | | |i []|i []|i [] r|i| |]; simpl in *; try done;
    by apply bool_decide_eq_true in Hp as ->.
Qed.

Lemma Inv_runFn w t k c spec : Inv w -> threads w !! t = Some (PFn k c) -> Inv (runFn w t k c spec).
Proof.
  intros I Ht. destruct spec as [s|]; simpl; [|by eapply Inv_free].
  set (id := nextLink w). assert (Hn : links w !! id = None).
  { destruct (links w !! id) eqn:E; [|done]. pose proof (i_next _ I id ltac:(by eexists)). unfold id in *. lia. }
  destruct (fresh_counts w id I Hn) as (F1 & F2 & F3 & F4).
  assert (Hset : forall f q, count f (<[t := q]> (threads w)) = count f (threads w) - (if f (PFn k c) then 1 else 0) + (if f q then 1 else 0))
    by (intros f q; by apply count_set).
  pose proof I as [B N A C K E L].
  set (l := mkLink _ _ _ _ _).
  assert (Hk : forall i, known w i -> forall m f cs n ts, known (mkWorld (<[id := l]> (links w)) (S id) m f cs n ts) i).
  { intros i (x & Hx & Hax) *. exists x. simpl. rewrite lookup_insert_ne by congruence. done. }
  assert (Hnew : admits s = true -> forall m f cs n ts, known (mkWorld (<[id := l]> (links w)) (S id) m f cs n ts) id).
  { intros Ha *. exists l. simpl. rewrite lookup_insert_eq. split; [done|]. unfold l, admitted. by destruct s. }
  split; simpl.
  - by rewrite length_insert.
  - intros i [x Hx]. destruct (decide (i = id)) as [->|Hne]; [lia|]. rewrite lookup_insert_ne in Hx by done.
    specialize (N i ltac:(by eexists)). unfold id. lia.
  - intros t' p' i Ht' Hi. destruct (decide (t' = t)) as [->|Hne].
    + rewrite list_lookup_insert_eq in Ht' by (by eapply lookup_lt_Some). injection Ht' as <-. simpl in Hi.
      destruct (admits s) eqn:Ha; [|done]. injection Hi as <-. by apply Hnew.
    + rewrite list_lookup_insert_ne in Ht' by done. by apply Hk, (A t' p').
  - intros t' i o r Ht'. destruct (decide (t' = t)) as [->|Hne].
    + by rewrite list_lookup_insert_eq in Ht' by (by eapply lookup_lt_Some).
    + rewrite list_lookup_insert_ne in Ht' by done. by eapply C.
  - intros k' i Hi. destruct (admits s) eqn:Ha; [|by apply Hk, (K k')].
    destruct (decide (k' = k)) as [->|Hne].
    + rewrite lookup_insert_eq in Hi. injection Hi as <-. by apply Hnew.
    + rewrite lookup_insert_ne in Hi by done. by apply Hk, (K k').
  - intros c' i Hi. by apply Hk, (E c').
  - intros i x Hx. destruct (decide (i = id)) as [->|Hne].
    + rewrite lookup_insert_eq in Hx. injection Hx as <-. unfold l. unfold admits in *.
      pose proof (count_nonneg (leads id) (threads w)).
      destruct s as [n ex req]. simpl in *. destruct ex, (req || (0 <? n)%nat) eqn:Hc; simpl; rewrite ?Hc; simpl;
        (split; simpl; rewrite !Hset; simpl; rewrite ?bool_decide_eq_true_2 by done; unfold closersClosed; intros; try discriminate;
         split_and?; intros; try lia).
    + rewrite lookup_insert_ne in Hx by done. eapply linkOK_frame; [exact Ht|done| |by apply L].
      simpl. destruct (admits s); congruence.
Qed.

Lemma Inv_endCall w t k c r : Inv w -> threads w !! t = Some (PEnd k c r) -> Inv (endCall w t k c r).
Proof.
  intros I Ht. unfold endCall.
  assert (Hk : forall id, r = Some id -> known w id) by (intros id ->; by apply (i_about _ I t _ id Ht)).
  set (w' := mkWorld _ _ _ _ _ _ _).
  assert (I' : Inv w').
  { apply Inv_maps; [done|apply (i_cache _ I)|]. intros c' id. destruct (decide (c' = c)) as [->|Hne].
    - rewrite lookup_insert_eq. intros [= ->]. by apply Hk.
    - rewrite lookup_insert_ne by done. apply (i_calls _ I). }
  destruct r as [id|]; [|by eapply (Inv_free w' t (PEnd k c None) PErr)].
  destruct (Hk id eq_refl) as (l & Hl & Ha).
  eapply (Inv_stay w' t (PEnd k c (Some id)) (PFlight k id) id l); try done; [by left|by left; split; [|by exists l]|].
  eapply linkOK_step; [exact Ht| |apply (i_bound _ I)|by apply (i_link _ I)]. count_step.
Qed.

Lemma Inv_startCall w t k : Inv w -> threads w !! t = Some (PDo k) -> Inv (startCall w t k).
Proof.
  intros I Ht. unfold startCall. destruct (flights w !! _) as [c|]; [by eapply Inv_free|].
  eapply (Inv_free (mkWorld _ _ _ _ _ _ _)); try done. apply Inv_maps; [done|apply (i_cache _ I)|].
  intros c' id. destruct (decide (c' = nextCall w)) as [->|Hne]; [by rewrite lookup_insert_eq|].
  rewrite lookup_insert_ne by done. apply (i_calls _ I).
Qed.

(** A thread that goes on with a known link. *)
Lemma Inv_move w t p q id :
  Inv w -> threads w !! t = Some p -> known w id -> (about p = Some id \/ about p = None) -> about q = Some id ->
  (forall i o r, q = PCas i o r -> 0 <= r) ->
  (forall f, In f [holds; loose; storing; finishing] -> f id p = f id q) -> (leads id p = true -> leads id q = true) ->
  Inv (setThread w t q).
Proof.
  intros I Ht Hk Hp Hq Hr Hf Hle. pose proof Hk as (l & Hl & _).
  eapply (Inv_stay w t p q id l); try done; [by left|].
  eapply linkOK_step; [exact Ht| |apply (i_bound _ I)|by apply (i_link _ I)].
  assert (holds id p = holds id q /\ loose id p = loose id q /\ storing id p = storing id q /\ finishing id p = finishing id q)
    as (E1 & E2 & E3 & E4) by (split_and!; apply Hf; simpl; tauto).
  intros d *; subst d; cbv beta. rewrite E1, E2, E3, E4. destruct (leads id p); [rewrite (Hle eq_refl)|destruct (leads id q)]; intros;
    split_and!; intros; repeat match goal with H : lExpiration l = _ -> _ , G : lExpiration l = _ |- _ => specialize (H G)
      | H : lRequireReference l = _ -> _ , G : lRequireReference l = _ |- _ => specialize (H G) end; lia.
Qed.

Lemma Inv_closeCas w t id owned ref l :
  Inv w -> threads w !! t = Some (PCas id owned ref) -> links w !! id = Some l -> lRef l = ref ->
  Inv (if 1 <? ref then setThread (setLink w id (setRef l (ref - 1))) t PDone
       else setThread (setLink w id (setRef l closersClosed)) t (PFinal id)).
Proof.
  intros I Ht Hl Hr. pose proof (i_cas _ I t id owned ref Ht) as H0. pose proof (i_link _ I id l Hl) as Hok.
  pose proof (i_bound _ I) as Hb. pose proof (i_about _ I t _ id Ht eq_refl) as Hk.
  destruct (1 <? ref) eqn:H1; bool_hyps.
  - eapply Inv_touch; [done|exact Ht|exact Hl|done|by left|by right|done|].
    eapply linkOK_step; [exact Ht| |done|exact Hok]. destruct owned; count_step.
  - eapply Inv_touch; [done|exact Ht|exact Hl|done|by left|by left|done|].
    eapply linkOK_step; [exact Ht| |done|exact Hok]. destruct owned; count_step.
Qed.

Lemma Inv_final w t id l :
  Inv w -> threads w !! t = Some (PFinal id) -> links w !! id = Some l ->
  Inv (setThread (setLink w id (mkLink (lRef l) (lClosers l) (S (lClosed l)) (lExpiration l) (lRequireReference l))) t PDone).
Proof.
  intros I Ht Hl. eapply Inv_touch; [done|exact Ht|exact Hl|done|by left|by right|done|].
  eapply linkOK_step; [exact Ht| |apply (i_bound _ I)|by apply (i_link _ I)]. count_step.
Qed.

Lemma Inv_step spec w t w' : Inv w -> step spec w t = Some w' -> Inv w'.
Proof.
  intros I. unfold step. destruct (threads w !! t) as [p|] eqn:Ht; [|done]. simpl.
  assert (Hab : forall id, about p = Some id -> known w id) by (intros id; by apply (i_about _ I t)).
  destruct p as [k|k id|k id|k|k c|k c r|k c|k id|k id|id o|id o|id o ref|id| |]; try done;
    try (specialize (Hab _ eq_refl); destruct (links w !! id) as [l|] eqn:Hl; [simpl|done]).
  - destruct (linkCache_ w !! k) as [id|] eqn:Hc; [|intros [= <-]; by eapply Inv_free].
    destruct (links w !! id) as [l|] eqn:Hl; [simpl|done]. intros [= <-]. destruct (_ && _).
    + eapply (Inv_free (setCache w _)); try done. apply Inv_maps; [done| |apply (i_calls _ I)].
      intros k' i Hi. apply lookup_delete_Some in Hi as [_ Hi]. by apply (i_cache _ I k').
    + eapply (Inv_move w t (PStart k) _ id); try done; [by apply (i_cache _ I k)|by right|].
      by intros f [<-|[<-|[<-|[<-|[]]]]].
  - intros [= <-]. eapply Inv_acquireAdd; try done. exists k. by left.
  - intros [= <-]. eapply Inv_acquireStore; try done; [exists k; by left|by exists k].
  - intros [= <-]. by eapply Inv_startCall.
  - intros [= <-]. by eapply Inv_runFn.
  - intros [= <-]. by eapply Inv_endCall.
  - destruct (calls w !! c) as [[[id|]|]|] eqn:Hc; try done; intros [= <-].
    + eapply (Inv_move w t (PWait k c) _ id); try done; [by apply (i_calls _ I c)|by right|].
      by intros f [<-|[<-|[<-|[<-|[]]]]].
    + by eapply Inv_free.
  - intros [= <-]. eapply Inv_acquireAdd; try done. exists k. by right.
  - intros [= <-]. eapply Inv_acquireStore; try done; [exists k; by right|by exists k].
  - intros [= <-]. eapply (Inv_move w t (PHold id o) _ id); try done; [by apply (i_about _ I t _ id Ht)|by left|].
    by intros f [<-|[<-|[<-|[<-|[]]]]].
  - pose proof (i_about _ I t _ id Ht eq_refl) as Hk. intros [= <-]. destruct (lRef l <? 0) eqn:Hr; bool_hyps.
    + eapply Inv_stay; [done|exact Ht|exact Hl|by left|by right|done|].
      eapply linkOK_step; [exact Ht| |apply (i_bound _ I)|by apply (i_link _ I)]. destruct o; count_step.
    + eapply (Inv_move w t (PLoad id o) _ id); try done; [by left| |].
      * intros i o' r [= <- <- <-]. lia.
      * by intros f [<-|[<-|[<-|[<-|[]]]]].
  - intros [= <-]. destruct (lRef l =? ref) eqn:Hr; simpl; bool_hyps; [by eapply Inv_closeCas|].
    eapply (Inv_move w t (PCas id o ref) _ id); try done; [by left|].
    by intros f [<-|[<-|[<-|[<-|[]]]]].
  - intros [= <-]. by eapply Inv_final.
Qed.

Lemma Inv_steps w w' : Inv w -> steps w w' -> Inv w'.
Proof.
  intros I H. destruct H as [spec v t v' H|v k]; [by eapply Inv_step|]. apply Inv_maps; [done| |apply (i_calls _ I)].
  intros k' i Hi. apply lookup_delete_Some in Hi as [_ Hi]. by apply (i_cache _ I k').
Qed.

Lemma Inv_initial ks : Z.of_nat (length ks) < 2 ^ 31 - 1 -> Inv (initial ks).
Proof.
  intros Hb. split; simpl; try done.
  - by rewrite length_map.
  - intros id [l Hl]. done.
  - intros t p id Ht Hp. apply list_lookup_fmap_Some in Ht as (k & -> & _). done.
  - intros t id o r Ht. apply list_lookup_fmap_Some in Ht as (k & Hk & _). done.
Qed.

Lemma Inv_reachable ks w : Z.of_nat (length ks) < 2 ^ 31 - 1 -> reachable ks w -> Inv w.
Proof.
  intros Hb H. apply Inv_initial in Hb as I. clear Hb. unfold reachable in H. induction H; [done|].
  apply IHrtc. by eapply Inv_steps.
Qed.

Lemma runSteps_reach l w w' : runSteps l w = Some w' -> rtc steps w w'.
Proof.
  unfold runSteps. revert w. induction l as [|[t s] l IH]; intros w; simpl; [by intros [= ->]; constructor|].
  destruct (step s w t) as [v|] eqn:E; [intros H|].
  - eapply rtc_l; [by eapply step_thread|by apply IH].
  - intros H. exfalso. clear -H. by induction l.
Qed.

(** ** Calls of singleflight *)

(** The call the thread has to end. *)
Definition runs (p : pc) : option nat :=
  match p with PFn _ c | PEnd _ c _ => Some c | _ => None end.

Record CInv (w : world) : Prop := {
  c_flight key c : flights w !! key = Some c -> is_Some (calls w !! c);
  c_wait t k c : threads w !! t = Some (PWait k c) -> is_Some (calls w !! c);
  c_run c : calls w !! c = Some None -> exists t p, threads w !! t = Some p /\ runs p = Some c
}.

Lemma CInv_keep w t p q ls n m :
  CInv w -> threads w !! t = Some p -> (forall c, runs p = Some c -> runs q = Some c) ->
  (forall k c, q = PWait k c -> is_Some (calls w !! c)) ->
  CInv (mkWorld ls n m (flights w) (calls w) (nextCall w) (<[t := q]> (threads w))).
Proof.
  intros [F W R] Ht Hr Hw. assert (Hlt : (t < length (threads w))%nat) by (by eapply lookup_lt_Some).
  split; simpl; [done| |].
  - intros t' k c H. destruct (decide (t' = t)) as [->|Hne].
    + rewrite list_lookup_insert_eq in H by done. injection H as ->. by eapply Hw.
    + rewrite list_lookup_insert_ne in H by done. by eapply W.
  - intros c Hc. destruct (R c Hc) as (t' & p' & H1 & H2). destruct (decide (t' = t)) as [->|Hne].
    + exists t, q. rewrite list_lookup_insert_eq by done. split; [done|]. apply Hr. congruence.
    + exists t', p'. by rewrite list_lookup_insert_ne.
Qed.

Lemma CInv_startCall w t k : CInv w -> threads w !! t = Some (PDo k) -> CInv (startCall w t k).
Proof.
  intros C Ht. unfold startCall. destruct (flights w !! _) as [c|] eqn:Hf.
  { eapply (CInv_keep w t (PDo k) (PWait k c)); try done. intros k' c' [= _ <-]. by eapply c_flight. }
  assert (Hlt : (t < length (threads w))%nat) by (by eapply lookup_lt_Some). destruct C as [F W R].
  assert (Hi : forall c, is_Some (calls w !! c) -> is_Some (<[nextCall w := None]> (calls w) !! c)).
  { intros c Hc. destruct (decide (c = nextCall w)) as [->|Hne]; [rewrite lookup_insert_eq; by eexists|].
    by rewrite lookup_insert_ne. }
  split; simpl.
  - intros key c H. destruct (decide (key = linkFlightKey k.1 k.2)) as [->|Hne].
    + rewrite lookup_insert_eq in H. injection H as <-. rewrite lookup_insert_eq. by eexists.
    + rewrite lookup_insert_ne in H by done. by eapply Hi, F.
  - intros t' k' c H. destruct (decide (t' = t)) as [->|Hne].
    + by rewrite list_lookup_insert_eq in H.
    + rewrite list_lookup_insert_ne in H by done. by eapply Hi, W.
  - intros c Hc. destruct (decide (c = nextCall w)) as [->|Hne].
    + exists t, (PFn k (nextCall w)). by rewrite list_lookup_insert_eq.
    + rewrite lookup_insert_ne in Hc by done. destruct (R c Hc) as (t' & p' & H1 & H2). exists t', p'.
      rewrite list_lookup_insert_ne; [done|]. intros ->. rewrite Ht in H1. by injection H1 as <-.
Qed.

Lemma CInv_endCall w t k c r : CInv w -> threads w !! t = Some (PEnd k c r) -> CInv (endCall w t k c r).
Proof.
  intros [F W R] Ht. assert (Hlt : (t < length (threads w))%nat) by (by eapply lookup_lt_Some).
  assert (Hi : forall c', is_Some (calls w !! c') -> is_Some (<[c := Some r]> (calls w) !! c')).
  { intros c' Hc. destruct (decide (c' = c)) as [->|Hne]; [rewrite lookup_insert_eq; by eexists|].
    by rewrite lookup_insert_ne. }
  split; simpl.
  - intros key c' H. apply Hi, (F key). case_bool_decide; [by apply lookup_delete_Some in H as [_ H]|done].
  - intros t' k' c' H. destruct (decide (t' = t)) as [->|Hne].
    + rewrite list_lookup_insert_eq in H by done. by destruct r.
    + rewrite list_lookup_insert_ne in H by done. by eapply Hi, W.
  - intros c' Hc. destruct (decide (c' = c)) as [->|Hne]; [by rewrite lookup_insert_eq in Hc|].
    rewrite lookup_insert_ne in Hc by done. destruct (R c' Hc) as (t' & p' & H1 & H2). exists t', p'.
    rewrite list_lookup_insert_ne; [done|]. intros ->. rewrite Ht in H1. injection H1 as <-. simpl in H2. congruence.
Qed.

Lemma CInv_step spec w t w' : CInv w -> step spec w t = Some w' -> CInv w'.
Proof.
  intros C. unfold step. destruct (threads w !! t) as [p|] eqn:Ht; [|done]. simpl.
  assert (Keep : forall q ls n m, (forall c, runs p = Some c -> runs q = Some c) -> (forall k c, q <> PWait k c) ->
    CInv (mkWorld ls n m (flights w) (calls w) (nextCall w) (<[t := q]> (threads w)))).
  { intros q ls n m Hr Hw. eapply CInv_keep; [done|exact Ht|done|]. intros k c ->. by destruct (Hw k c). }
  destruct p as [k|k id|k id|k|k c|k c r|k c|k id|k id|id o|id o|id o ref|id| |]; try done;
    try (destruct (links w !! id) as [l|]; [simpl|done]); try (intros [= <-]).
  - destruct (linkCache_ w !! k) as [id|]; [|intros [= <-]; by apply Keep].
    destruct (links w !! id) as [l|]; [simpl|done]. intros [= <-]. destruct (_ && _); by apply Keep.
  - unfold acquireAdd. destruct (lExpiration l); [by apply Keep|]. destruct (0 <? _); by apply Keep.
  - unfold acquireStore. destruct (lRequireReference l); by apply Keep.
  - by apply CInv_startCall.
  - destruct spec as [s|]; simpl; by apply Keep.
  - by apply CInv_endCall.
  - destruct (calls w !! c) as [[[id|]|]|]; try done; intros [= <-]; by apply Keep.
  - unfold acquireAdd. destruct (lExpiration l); [by apply Keep|]. destruct (0 <? _); by apply Keep.
  - unfold acquireStore. destruct (lRequireReference l); by apply Keep.
  - by apply Keep.
  - destruct (lRef l <? 0); by apply Keep.
  - destruct (negb _); [by apply Keep|]. destruct (1 <? ref); by apply Keep.
  - by apply Keep.
Qed.

Lemma CInv_reachable ks w : reachable ks w -> CInv w.
Proof.
  unfold reachable. assert (C : CInv (initial ks)).
  { split; simpl; try done. intros t k c H. by apply list_lookup_fmap_Some in H as (? & ? & _). }
  intros H. induction H as [|w1 w2 w3 H _ IH]; [done|]. apply IH. destruct H as [spec v t v' H|v k]; [by eapply CInv_step|].
  by destruct C as [F W R].
Qed.

(** A thread that has not finished can go on, unless it waits. *)
Lemma unfinished_steps w t p spec :
  Inv w -> threads w !! t = Some p -> p <> PDone -> p <> PErr -> (forall k c, p <> PWait k c) -> is_Some (step spec w t).
Proof.
  intros I Ht H1 H2 H3. unfold step. rewrite Ht. simpl.
  assert (Hab : forall id, about p = Some id -> exists l, links w !! id = Some l)
    by (intros id Hp; destruct (i_about _ I t p id Ht Hp) as (l & Hl & _); by exists l).
  destruct p as [k|k id|k id|k|k c|k c r|k c|k id|k id|id o|id o|id o ref|id| |]; try done;
    try (destruct (Hab id eq_refl) as (l & ->); by eexists); try by eexists.
  - destruct (linkCache_ w !! k) as [id|] eqn:Hc; [|by eexists].
    destruct (i_cache _ I k id Hc) as (l & -> & _). by eexists.
  - by destruct (H3 k c).
Qed.

Lemma stuck_done ks w :
  Z.of_nat (length ks) < 2 ^ 31 - 1 -> reachable ks w -> (forall spec t, step spec w t = None) ->
  forall t p, threads w !! t = Some p -> p = PDone \/ p = PErr.
Proof.
  intros Hb H Hs. pose proof (Inv_reachable ks w Hb H) as I. pose proof (CInv_reachable ks w H) as C.
  assert (Hw : forall t p, threads w !! t = Some p -> p = PDone \/ p = PErr \/ exists k c, p = PWait k c).
  { intros t p Ht. destruct p as [k|k id|k id|k|k c|k c r|k c|k id|k id|id o|id o|id o ref|id| |]; eauto; exfalso;
      destruct (unfinished_steps w t _ None I Ht) as [x Hx]; try done; by rewrite Hs in Hx. }
  intros t p Ht. destruct (Hw t p Ht) as [?|[?|(k & c & ->)]]; [by left|by right|]. exfalso.
  destruct (c_wait _ C t k c Ht) as [[r|] Hc].
  - specialize (Hs None t). unfold step in Hs. rewrite Ht in Hs. simpl in Hs. rewrite Hc in Hs. done.
  - destruct (c_run _ C c Hc) as (t' & p' & H1 & H2). by destruct (Hw t' p' H1) as [->|[->|(k' & c' & ->)]].
Qed.

(** C26: whatever the interleaving: the counter never lets the resources of a link
    go while a caller that Link has counted holds it, a link that requires a
    reference is never given out without one, and no closers run twice. *)
Theorem link_alive ks w t id owned l (Hb : Z.of_nat (length ks) < 2 ^ 31 - 1) (Hr : reachable ks w)
  (Ht : threads w !! t = Some (PHold id owned)) (Hl : links w !! id = Some l) :
  (lRequireReference l = true -> owned = true) /\
  (owned = true -> lClosed l = 0%nat /\ 0 < lRef l) /\
  (lExpiration l = true -> lClosers l = 0%nat) /\
  (lClosed l <= 1)%nat.
Proof.
  pose proof (Inv_reachable ks w Hb Hr) as I. destruct (i_link _ I id l Hl) as [E O C Q].
  destruct (i_about _ I t _ id Ht eq_refl) as (l' & Hl' & Ha). rewrite Hl in Hl'. injection Hl' as <-.
  unfold admitted, admits in Ha. simpl in Ha.
  assert (Hh : owned = true -> 0 < count (holds id) (threads w)).
  { intros ->. eapply count_pos; [exact Ht|]. by apply bool_decide_eq_true. }
  assert (Hlo : owned = false -> 0 < count (loose id) (threads w)).
  { intros ->. eapply count_pos; [exact Ht|]. by apply bool_decide_eq_true. }
  pose proof (count_nonneg (finishing id) (threads w)).
  destruct (lExpiration l) eqn:He; simpl in Ha.
  - destruct (lRequireReference l); [done|]. destruct (lClosers l); [|done]. specialize (E eq_refl).
    split_and!; [done| |done|lia]. intros ->. specialize (Hh eq_refl). lia.
  - specialize (O eq_refl). specialize (C eq_refl). specialize (Q eq_refl). clear E. split_and!; [| |done|].
    + intros Hq. specialize (Q Hq). destruct owned; [done|]. specialize (Hlo eq_refl). lia.
    + intros Ho. specialize (Hh Ho). lia.
    + lia.
Qed.

(** C33: nothing is leaked and nobody waits for ever: where no thread can go on,
    every call of Link has ended, and the resources of every link without an
    expiration have been released, once. *)
Theorem links_released ks w (Hb : Z.of_nat (length ks) < 2 ^ 31 - 1) (Hr : reachable ks w)
  (Hstuck : forall spec t, step spec w t = None) :
  (forall t p, threads w !! t = Some p -> p = PDone \/ p = PErr) /\
  (forall id l, links w !! id = Some l -> lExpiration l = false -> lRef l < 0 /\ lClosed l = 1%nat).
Proof.
  pose proof (Inv_reachable ks w Hb Hr) as I. pose proof (stuck_done ks w Hb Hr Hstuck) as Hd. split; [done|].
  intros id l Hl He. destruct (i_link _ I id l Hl) as [_ O C _]. specialize (O He). specialize (C He).
  assert (H0 : forall f : pc -> bool, f PDone = false -> f PErr = false -> count f (threads w) = 0).
  { intros f H1 H2. destruct (decide (0 < count f (threads w))) as [Hp|Hp]; [|pose proof (count_nonneg f (threads w)); lia].
    apply count_ex in Hp as (t & p & Ht & Hp). destruct (Hd t p Ht) as [-> | ->]; congruence. }
  rewrite (H0 (holds id)), (H0 (leads id)), (H0 (finishing id)) in * by done. lia.
Qed.

(** Two threads ask for the same file: while thread 0 holds the link, and when
    both have closed it. *)
Definition demoWorld (n : nat) : world := default (initial []) (runSteps (take n demoSchedule) (initial [demoKey; demoKey])).

Lemma demoWorld_reach n :
  is_Some (runSteps (take n demoSchedule) (initial [demoKey; demoKey])) -> reachable [demoKey; demoKey] (demoWorld n).
Proof. intros [w Hw]. unfold demoWorld. rewrite Hw. by apply (runSteps_reach (take n demoSchedule)). Qed.

Lemma link_alive_witness :
  let w := demoWorld 9 in
  threads w = [PHold 0 true; PHold 0 true] /\ (lRef <$> links w !! 0%nat) = Some 2 /\
  (lClosed <$> links w !! 0%nat) = Some 0%nat.
Proof.
  intros w. assert (Hl : links w !! 0%nat = Some (mkLink 2 1 0 false true)) by (vm_compute; reflexivity).
  assert (Hr : reachable [demoKey; demoKey] w) by (apply demoWorld_reach; vm_compute; by eexists).
  split; [vm_compute; reflexivity|]. rewrite Hl. split; [done|].
  destruct (link_alive [demoKey; demoKey] w 0 0 true (mkLink 2 1 0 false true)) as (_ & H & _);
    [done|exact Hr|vm_compute; reflexivity|exact Hl|].
  exact (f_equal Some (proj1 (H eq_refl))).
Defined.

Lemma links_released_witness :
  let w := demoWorld 16 in
  threads w = [PDone; PDone] /\ links w !! 0%nat = Some (mkLink closersClosed 1 1 false true).
Proof.
  intros w. assert (Hl : links w !! 0%nat = Some (mkLink closersClosed 1 1 false true)) by (vm_compute; reflexivity).
  assert (Hr : reachable [demoKey; demoKey] w) by (apply demoWorld_reach; vm_compute; by eexists).
  assert (Ht : threads w = [PDone; PDone]) by (vm_compute; reflexivity).
  split; [done|]. destruct (links_released [demoKey; demoKey] w) as [_ H]; [done|exact Hr| |].
  - intros spec t. unfold step. rewrite Ht. by destruct t as [|[|t]].
  - destruct (H 0%nat _ Hl eq_refl). done.
Defined.

(** The path and the type key are joined without a separator of their own: a
    request for "/a" whose type asks for it waits for, and is given, the link of
    the file "/a/proxy/b". *)
Lemma flight_key_shared :
  let victim : gostr := "/a/proxy/b" in
  let asked := mkLinkArgs [] [] ("b/proxy/" : gostr) false in
  linkFlightKey "/a" (linkTypeKey 0 asked) = linkFlightKey victim (linkTypeKey 0 (mkLinkArgs [] [] [] false)) /\
  let ks := [(victim, linkTypeKey 0 (mkLinkArgs [] [] [] false)); (("/a" : gostr), linkTypeKey 0 asked)] in
  (fun w => threads w) <$> runSteps (map (fun t => (t, demoSpec)) [0; 0; 1; 1; 0; 0; 0; 1; 1]%nat) (initial ks) =
  Some [PHold 0 true; PHold 0 true].
Proof. split; vm_compute; reflexivity. Qed.
