(* ===== verification/Download.v ===== *)
(** The multi-thread downloader of src/internal/net/request.go with the pipe
    buffers of src/pkg/buffer/pipe.go, as threads whose atomic steps interleave.

    Thread 0 is the caller, which reads and closes; the other threads are the
    workers downloadPart. A step is a section under a mutex, an operation on a
    channel or an answer of the remote side. The block copy inside Read and
    Write of a PipeBuffer, which their mutex does not cover, belongs to the step
    that counts its bytes: the two work on disjoint parts and Reset waits for
    both. The delays are steps that may take place at any time. The caller does
    not call Read and Close at the same time.

    What the remote side answers, how many bytes it delivers at a time, whether a
    block can be had and the choices of select are inputs of a step. *)
From S2P Require Import Prelude GoString GoPath.

(** ** Configuration *)
Definition DefaultDownloadPartSize : Z := 8 * 2 ^ 20.
Definition DefaultDownloadConcurrency : Z := 2.
Definition DefaultPartBodyMaxRetries : nat := 3.

Record Downloader := mkDownloader { cPartSize : Z; cConcurrency : Z; cMaxRetries : nat }.

(** What is wanted: the range and the size of the file. *)
Record params := mkParams { pStart : Z; pLength : Z; pSize : Z }.

(** Download: the range is cut at the end of the file, zero settings have
    defaults and a part is no longer than a block of the memory may be. *)
Definition fixRange (p : params) : params :=
  if (pLength p <? 0) || (pSize p <? i64 (pStart p + pLength p)) then mkParams (pStart p) (i64 (pSize p - pStart p)) (pSize p)
  else p.

Definition fixConfig (MinFreeMemory MaxBlockLimit : Z) (d : Downloader) : Downloader :=
  let c := if cConcurrency d =? 0 then DefaultDownloadConcurrency else cConcurrency d in
  let s := if cPartSize d =? 0 then DefaultDownloadPartSize else cPartSize d in
  let s := if (0 <? MinFreeMemory) && (MaxBlockLimit <? s) then MaxBlockLimit else s in
  mkDownloader s c (cMaxRetries d).

(** The number of parts, and the concurrency, which is not more. *)
Definition maxPart (d : Downloader) (p : params) : Z :=
  if cPartSize d <? pLength p then Z.quot (i64 (i64 (pLength p + cPartSize d) - 1)) (cPartSize d) else 1.
Definition concurrencyOf (d : Downloader) (p : params) : Z :=
  if maxPart d p <? cConcurrency d then maxPart d p else cConcurrency d.

(** The size of the next chunk. *)
Definition finalSize (partSize length_ : Z) (nextChunk : nat) : Z :=
  match nextChunk with
  | O =>
      let firstSize := Z.rem length_ partSize in
      let minSize := Z.quot partSize 2 in
      if 0 <? firstSize then Z.max firstSize minSize else partSize
  | 1%nat =>
      let firstSize := Z.rem length_ partSize in
      let minSize := Z.quot partSize 2 in
      if (0 <? firstSize) && (firstSize <? minSize) then partSize + (firstSize - minSize) else partSize
  | _ => partSize
  end.

(** ** The state *)

(** buffer.PipeBuffer: what is written and not overwritten is [bData], its
    length is offW; [bSignal] is the element of readSignal. *)
Record pbuf := mkBuf {
  bLimit : Z; bOffR : Z; bData : list ascii; bCap : Z;
  bPending : bool; bSignal : bool; bClosed : bool
}.
Definition offW (b : pbuf) : Z := Z.of_nat (length (bData b)).

Record chunk := mkChunk { ckStart : Z; ckSize : Z; ckBuf : nat; ckId : nat; ckNew : bool }.

(** A response: the headers checkTotalBytes looks at, what the body delivers and
    whether it then fails. *)
Record response := mkResponse {
  rContentRange : gostr; rContentLength : Z; rBody : list ascii; rFails : bool
}.

Inductive answer :=
| AResp (r : response)
| AStatus (code : Z)    (* HttpStatusCodeError *)
| AError.               (* any other error *)

Inductive wpc :=
| WIdle                                              (* select of downloadPart *)
| WTry (c : chunk) (retry : nat)                     (* before HttpClient *)
| WConn (c : chunk) (retry : nat) (r : response)     (* before sendChunkTask(true) *)
| WCopy (c : chunk) (retry : nat) (n : Z) (r : response) (* in CopyWithBuffer *)
| WStatus (c : chunk) (retry : nat)                  (* a later chunk got a status error *)
| WRequeue (c : chunk)
| WDelay (c : chunk) (retry : nat) (infinite : bool)
| WExit
| WPanic.                                            (* send on a closed channel *)

Inductive rpc :=
| RIdle
| RLoop (len : Z)        (* loop of PipeBuffer.Read *)
| RBlocked (len : Z)     (* waits for readSignal *)
| RFin1 | RFin2 (shouldSendTask : bool) | RFin3   (* finishBuf *)
| RClosing               (* interrupt, before the lock *)
| RClosed.

#[export] Instance rpc_dec : EqDecision rpc.
Proof. solve_decision. Defined.

Inductive cause := CCanceled | CError.
Inductive rdend := EEOF | EErr.

Record dl := mkDl {
  nextChunk : nat;
  bufMap : option (gmap nat nat);    (* None: nil; the keys from 0 *)
  lastBuf : option nat;              (* bufMap[-1] *)
  bufs : list pbuf;
  pos : Z; maxPos : Z;
  conc : Z;                          (* d.concurrency *)
  readingID : Z;
  chan : list chunk; chanClosed : bool;
  cancelled : option cause;          (* context.Cause(d.ctx) *)
  written : Z;
  slots : option Z;                  (* ConcurrencyLimit.Limit, when there is a limit *)
  workers : list wpc;
  rpos : nat; curBuf : option nat;   (* multiReadCloser *)
  reader : rpc;
  out : list ascii;                  (* what Read has returned so far *)
  ended : option rdend               (* the last error Read has returned *)
}.

Definition setWorkers (w : dl) (l : list wpc) : dl :=
  mkDl (nextChunk w) (bufMap w) (lastBuf w) (bufs w) (pos w) (maxPos w) (conc w) (readingID w) (chan w) (chanClosed w)
    (cancelled w) (written w) (slots w) l (rpos w) (curBuf w) (reader w) (out w) (ended w).
Definition setBufs (w : dl) (l : list pbuf) : dl :=
  mkDl (nextChunk w) (bufMap w) (lastBuf w) l (pos w) (maxPos w) (conc w) (readingID w) (chan w) (chanClosed w)
    (cancelled w) (written w) (slots w) (workers w) (rpos w) (curBuf w) (reader w) (out w) (ended w).
Definition setBufMap (w : dl) (m : option (gmap nat nat)) (last : option nat) : dl :=
  mkDl (nextChunk w) m last (bufs w) (pos w) (maxPos w) (conc w) (readingID w) (chan w) (chanClosed w)
    (cancelled w) (written w) (slots w) (workers w) (rpos w) (curBuf w) (reader w) (out w) (ended w).
Definition setChan (w : dl) (l : list chunk) : dl :=
  mkDl (nextChunk w) (bufMap w) (lastBuf w) (bufs w) (pos w) (maxPos w) (conc w) (readingID w) l (chanClosed w)
    (cancelled w) (written w) (slots w) (workers w) (rpos w) (curBuf w) (reader w) (out w) (ended w).
Definition setConc (w : dl) (c : Z) : dl :=
  mkDl (nextChunk w) (bufMap w) (lastBuf w) (bufs w) (pos w) (maxPos w) c (readingID w) (chan w) (chanClosed w)
    (cancelled w) (written w) (slots w) (workers w) (rpos w) (curBuf w) (reader w) (out w) (ended w).
Definition setSlots (w : dl) (s : option Z) : dl :=
  mkDl (nextChunk w) (bufMap w) (lastBuf w) (bufs w) (pos w) (maxPos w) (conc w) (readingID w) (chan w) (chanClosed w)
    (cancelled w) (written w) s (workers w) (rpos w) (curBuf w) (reader w) (out w) (ended w).
Definition setNext (w : dl) (n : nat) (p : Z) : dl :=
  mkDl n (bufMap w) (lastBuf w) (bufs w) p (maxPos w) (conc w) (readingID w) (chan w) (chanClosed w)
    (cancelled w) (written w) (slots w) (workers w) (rpos w) (curBuf w) (reader w) (out w) (ended w).
Definition setReader (w : dl) (r : rpc) : dl :=
  mkDl (nextChunk w) (bufMap w) (lastBuf w) (bufs w) (pos w) (maxPos w) (conc w) (readingID w) (chan w) (chanClosed w)
    (cancelled w) (written w) (slots w) (workers w) (rpos w) (curBuf w) r (out w) (ended w).
Definition setCur (w : dl) (b : option nat) : dl :=
  mkDl (nextChunk w) (bufMap w) (lastBuf w) (bufs w) (pos w) (maxPos w) (conc w) (readingID w) (chan w) (chanClosed w)
    (cancelled w) (written w) (slots w) (workers w) (rpos w) b (reader w) (out w) (ended w).
Definition setReadingID (w : dl) (i : Z) : dl :=
  mkDl (nextChunk w) (bufMap w) (lastBuf w) (bufs w) (pos w) (maxPos w) (conc w) i (chan w) (chanClosed w)
    (cancelled w) (written w) (slots w) (workers w) (rpos w) (curBuf w) (reader w) (out w) (ended w).
Definition setRead (w : dl) (p : nat) (r : rpc) (o : list ascii) (e : option rdend) : dl :=
  mkDl (nextChunk w) (bufMap w) (lastBuf w) (bufs w) (pos w) (maxPos w) (conc w) (readingID w) (chan w) (chanClosed w)
    (cancelled w) (written w) (slots w) (workers w) p (curBuf w) r o e.
Definition incrWritten (w : dl) (n : Z) : dl :=
  mkDl (nextChunk w) (bufMap w) (lastBuf w) (bufs w) (pos w) (maxPos w) (conc w) (readingID w) (chan w) (chanClosed w)
    (cancelled w) (written w + n) (slots w) (workers w) (rpos w) (curBuf w) (reader w) (out w) (ended w).
(** cancel: the first cause stays. *)
Definition cancel (w : dl) (c : cause) : dl :=
  mkDl (nextChunk w) (bufMap w) (lastBuf w) (bufs w) (pos w) (maxPos w) (conc w) (readingID w) (chan w) (chanClosed w)
    (match cancelled w with Some x => Some x | None => Some c end) (written w) (slots w) (workers w) (rpos w) (curBuf w)
    (reader w) (out w) (ended w).

(** ConcurrencyLimit *)
Definition Acquire (s : option Z) : option (option Z) :=
  match s with
  | None => Some None
  | Some l => if l =? 0 then None else Some (Some (l - 1))
  end.
Definition Release (s : option Z) : option Z := (fun l => (l + 1) mod 2 ^ 32) <$> s.

(** PipeBuffer.Reset, Close *)
Definition resetBuf (b : pbuf) (limit : Z) : option pbuf :=
  if bClosed b || (bCap b <? limit) then None
  else Some (mkBuf limit 0 [] (bCap b) (bPending b) (bSignal b) (bClosed b)).
Definition closeBuf (b : pbuf) : pbuf :=
  if bClosed b then b else mkBuf (bLimit b) (bOffR b) (bData b) (bCap b) false (bSignal b) true.

(** PipeBuffer.Write of bytes that fit: they are counted and a waiting reader is
    signalled. *)
Definition writeBuf (b : pbuf) (p : list ascii) : pbuf :=
  mkBuf (bLimit b) (bOffR b) (bData b ++ p) (bCap b) false (bPending b || bSignal b) (bClosed b).

(** The inputs of a step. *)
Inductive call := CRead (len : Z) | CClose.
Record event := mkEvent { eAnswer : answer; ePiece : nat; eBlock : bool; eChoose : bool; eCall : call }.

Section Steps.
Context (cfg : Downloader) (p : params).   (* after fixConfig and fixRange *)

Abbreviation partSize := (cPartSize cfg).

Definition getBuf (w : dl) (m : gmap nat nat) (blockOk : bool) : option (dl * nat) :=
  match m !! nextChunk w with
  | Some b => Some (w, b)
  | None =>
      if blockOk then
        let b := length (bufs w) in
        Some (setBufMap (setBufs w (bufs w ++ [mkBuf partSize 0 [] partSize false false false]))
                (Some (<[nextChunk w := b]> m)) (lastBuf w), b)
      else None
  end.

(** The chunk is ready: select sends it, or sees that the context is done. None:
    the send blocks, or panics. *)
Definition queueChunk (newConcurrency choose : bool) (w : dl) (c : chunk) : option (dl * bool) :=
  if bool_decide (is_Some (cancelled w)) && choose then Some (w, false)
  else if chanClosed w then None
  else if Z.of_nat (length (chan w)) <? concurrencyOf cfg p then
    let w := setChan w (chan w ++ [c]) in
    Some (if newConcurrency then setConc (setWorkers w (workers w ++ [WIdle])) (conc w - 1) else w, true)
  else if bool_decide (is_Some (cancelled w)) then Some (w, false) else None.

(** sendChunkTask, with its answer nil or an error. *)
Definition sendChunkTask (newConcurrency blockOk choose : bool) (w : dl) : option (dl * bool) :=
  if maxPos w <=? pos w then Some (w, true)
  else if newConcurrency && (conc w <=? 0) then Some (w, true)
  else
    let acquires := newConcurrency && (0 <? nextChunk w)%nat in
    match if acquires then Acquire (slots w) else Some (slots w) with
    | None => Some (w, false)
    | Some s =>
        let release (w : dl) := if acquires then setSlots w (Release (slots w)) else w in
        let w := setSlots w s in
        match bufMap w with
        | None => None
        | Some m =>
            match getBuf w m blockOk with
            | None => Some (release w, false)
            | Some (w, br) =>
                let size := finalSize partSize (pLength p) (nextChunk w) in
                match b ← bufs w !! br; resetBuf b size with
                | None => Some (release w, false)
                | Some b =>
                    let c := mkChunk (pos w) size br (nextChunk w) newConcurrency in
                    let w := setNext (setBufs w (<[br := b]> (bufs w))) (S (nextChunk w)) (pos w + size) in
                    match queueChunk newConcurrency choose w c with
                    | Some (w, ok) => Some (if ok then w else release w, ok)
                    | None => None
                    end
                end
            end
        end
    end.

(** ** Workers *)
Definition setWorker (w : dl) (t : nat) (q : wpc) : dl := setWorkers w (<[t := q]> (workers w)).

(** The worker returns: its slot is free again. *)
Definition exitWorker (w : dl) (t : nat) : dl := setWorker (setSlots w (Release (slots w))) t WExit.

(** downloadChunk after an error that is not retried: everything stops. *)
Definition failChunk (w : dl) (t : nat) : dl := exitWorker (cancel w CError) t.

(** downloadChunk after errNeedRetry. *)
Definition retryChunk (w : dl) (t : nat) (c : chunk) (retry : nat) (n : Z) : dl :=
  if bool_decide (is_Some (cancelled w)) then exitWorker w t
  else
    let '(w, c) := if 0 <? n then (incrWritten w n, mkChunk (ckStart c + n) (ckSize c - n) (ckBuf c) (ckId c) (ckNew c))
                   else (w, c) in
    if (S retry <=? cMaxRetries cfg)%nat then setWorker w t (WTry c (S retry)) else failChunk w t.

Definition checkTotalBytes (r : response) : bool :=
  match rContentRange r with
  | [] => (if 0 <? rContentLength r then rContentLength r else -1) =? pSize p
  | _ =>
      let totalStr := path_Base (rContentRange r) in
      if seqb totalStr "*" then false
      else match parseInt totalStr with
           | (total, None) => total =? pSize p
           | (_, Some _) => false
           end
  end.

Definition retriable (code : Z) : bool := (code =? 429) || (code =? 502) || (code =? 503) || (code =? 504).

(** One round of CopyWithBuffer: up to [piece] bytes are read and written. *)
Definition copyPiece (w : dl) (t : nat) (c : chunk) (retry : nat) (n : Z) (r : response) (piece : nat) : option dl :=
  match rBody r with
  | [] =>
      Some (if rFails r then retryChunk w t c retry n
            else if n =? ckSize c then setWorker (incrWritten w n) t WIdle
            else retryChunk w t c retry n)
  | body =>
      let d := take piece body in
      if bool_decide (d = []) then None
      else if bool_decide (is_Some (cancelled w)) then Some (retryChunk w t c retry n)
      else
        b ← bufs w !! ckBuf c;
        if bClosed b then Some (retryChunk w t c retry n)
        else
          let canWrite := bLimit b - offW b in
          if canWrite <=? 0 then Some (retryChunk w t c retry n)
          else
            let d' := take (Z.to_nat canWrite) d in
            let w := setBufs w (<[ckBuf c := writeBuf b d']> (bufs w)) in
            let n := n + Z.of_nat (length d') in
            Some (if (length d' <? length d)%nat then retryChunk w t c retry n
                  else setWorker w t (WCopy c retry n (mkResponse (rContentRange r) (rContentLength r) (drop piece body) (rFails r))))
  end.

Definition workerStep (ev : event) (w : dl) (t : nat) (q : wpc) : option dl :=
  let done := bool_decide (is_Some (cancelled w)) in
  match q with
  | WIdle =>
      if done && eChoose ev then Some (exitWorker w t)
      else match chan w with
           | c :: l => Some (setWorker (setChan w l) t (WTry c 0))
           | [] => if chanClosed w || done then Some (exitWorker w t) else None
           end
  | WTry c retry =>
      match eAnswer ev with
      | AResp r => Some (if (ckId c =? 0)%nat && negb (checkTotalBytes r) then failChunk w t
                         else setWorker w t (WConn c retry r))
      | AError => Some (failChunk w t)
      | AStatus code =>
          Some (if code =? 416 then failChunk w t
                else if (ckId c =? 0)%nat then
                  if retriable code then setWorker w t (WDelay c retry false) else failChunk w t
                else setWorker w t (WStatus c retry))
      end
  | WConn c retry r =>
      x ← sendChunkTask true (eBlock ev) (eChoose ev) w;
      Some (setWorker (fst x) t (WCopy c retry 0 r))
  | WCopy c retry n r => copyPiece w t c retry n r (ePiece ev)
  | WStatus c retry =>
      let rest := 0 <? conc w in
      let w := if rest then setConc w (- conc w) else w in
      Some (if rest || ckNew c then setWorker (setConc w (conc w - 1)) t (WRequeue c)
            else if Z.of_nat (ckId c) =? readingID w then setWorker w t (WTry c retry)
            else setWorker w t (WDelay c retry true))
  | WRequeue c =>
      if done && eChoose ev then Some (exitWorker w t)
      else if chanClosed w then Some (setWorker w t WPanic)
      else if Z.of_nat (length (chan w)) <? concurrencyOf cfg p then Some (exitWorker (setChan w (chan w ++ [c])) t)
      else if done then Some (exitWorker w t) else None
  | WDelay c retry infinite =>
      if done && eChoose ev then Some (exitWorker w t)
      else Some (if infinite then setWorker w t (WTry c retry) else retryChunk w t c retry 0)
  | WExit | WPanic => None
  end.

(** ** The reader *)
Definition readErr (w : dl) (e : rdend) : dl := setRead w (rpos w) RIdle (out w) (Some e).

(** multiReadCloser.Read when the current buffer is at its end. *)
Definition bufEnd (w : dl) (o : list ascii) : dl :=
  let i := S (rpos w) in
  if maxPart cfg p <=? Z.of_nat i then setRead w i RIdle o (Some EEOF) else setRead w i RFin1 o None.

(** popBuf *)
Definition popBuf (w : dl) (m : gmap nat nat) (id : nat) : dl :=
  match m !! id with
  | Some br => setCur (setBufMap w (Some (delete id m)) (Some br)) (Some br)
  | None => setCur w None
  end.

Definition closeAt (l : list pbuf) (b : nat) : list pbuf := alter closeBuf b l.

Definition readStep (ev : event) (w : dl) : option dl :=
  let done := bool_decide (is_Some (cancelled w)) in
  match reader w with
  | RIdle =>
      match eCall ev with
      | CRead len =>
          match curBuf w with
          | None => Some (readErr w EEOF)
          | Some br =>
              b ← bufs w !! br;
              Some (if done then readErr w EErr
                    else if len <=? 0 then w
                    else if bLimit b <=? bOffR b then bufEnd w (out w)
                    else setReader w (RLoop len))
          end
      | CClose =>
          Some (setReader (cancel w (if negb done && negb (written w =? pLength p) then CError else CCanceled)) RClosing)
      end
  | RLoop len =>
      br ← curBuf w; b ← bufs w !! br;
      if bClosed b then Some (readErr w EErr)
      else if offW b =? bOffR b then
        Some (setReader (setBufs w (<[br := mkBuf (bLimit b) (bOffR b) (bData b) (bCap b) true (bSignal b) (bClosed b)]> (bufs w)))
                (RBlocked len))
      else
        let k := Z.min len (offW b - bOffR b) in
        let o := out w ++ take (Z.to_nat k) (drop (Z.to_nat (bOffR b)) (bData b)) in
        let offR := bOffR b + k in
        let w := setBufs w (<[br := mkBuf (bLimit b) offR (bData b) (bCap b) (bPending b) (bSignal b) (bClosed b)]> (bufs w)) in
        Some (if (k <? len) && (bLimit b <=? offR) then bufEnd w o else setRead w (rpos w) RIdle o None)
  | RBlocked len =>
      br ← curBuf w; b ← bufs w !! br;
      if done && eChoose ev then Some (readErr w EErr)
      else if bSignal b then
        Some (setReader (setBufs w (<[br := mkBuf (bLimit b) (bOffR b) (bData b) (bCap b) (bPending b) false (bClosed b)]> (bufs w)))
                (RLoop len))
      else if bClosed b || done then Some (readErr w EErr) else None
  | RFin1 =>
      let w := setReadingID w (Z.of_nat (rpos w)) in
      m ← bufMap w; prev ← curBuf w;
      Some (match m !! nextChunk w with
            | None => setReader (setBufMap w (Some (<[nextChunk w := prev]> m)) (lastBuf w)) (RFin2 true)
            | Some _ => setReader w (RFin2 false)
            end)
  | RFin2 true =>
      x ← sendChunkTask false (eBlock ev) (eChoose ev) w;
      Some (setReader (fst x) RFin3)
  | RFin2 false => prev ← curBuf w; Some (setReader (setBufs w (closeAt (bufs w) prev)) RFin3)
  | RFin3 => m ← bufMap w; Some (setReader (popBuf w m (rpos w)) RIdle)
  | RClosing =>
      let ids := from_option (fun m => (map_to_list m).*2) [] (bufMap w) ++ option_list (lastBuf w) in
      let w := setBufMap (setBufs w (fold_left closeAt ids (bufs w))) None None in
      Some (setReader (if maxPos w =? 0 then w
                       else mkDl (nextChunk w) (bufMap w) (lastBuf w) (bufs w) (pos w) 0
                              (if 0 <? conc w then - conc w else conc w) (readingID w) (chan w) true (cancelled w) (written w)
                              (slots w) (workers w) (rpos w) (curBuf w) (reader w) (out w) (ended w)) RClosed)
  | RClosed => None
  end.

(** ** The start *)
Definition empty_dl (s : option Z) : dl :=
  mkDl 0 (Some ∅) None [] (pStart p) (pStart p + pLength p) (concurrencyOf cfg p) 0 [] false None 0 s [] 0 None RIdle [] None.

Inductive started :=
| SFail (s : option Z)          (* an error, with the slots that are left *)
| SSingle (s : option Z)        (* one part: the body of one request *)
| SMulti (w : dl).

Definition download (s : option Z) (blockOk choose : bool) : option started :=
  match Acquire s with
  | None => Some (SFail s)
  | Some s =>
      if maxPart cfg p =? 1 then Some (SSingle s)
      else
        x ← sendChunkTask true blockOk choose (empty_dl s);
        if snd x : bool then m ← bufMap (fst x); Some (SMulti (popBuf (fst x) m 0)) else Some (SFail (Release s))
  end.

(** A step of the caller (0) or of a worker. *)
Definition step (ev : event) (w : dl) (t : nat) : option dl :=
  match t with
  | O => readStep ev w
  | S t => q ← workers w !! t; workerStep ev w t q
  end.

End Steps.

(** ** Examples *)
Definition runDl (cfg : Downloader) (p : params) (l : list (event * nat)) (w : dl) : option dl :=
  foldl (fun w x => w ← w; step cfg p x.1 w x.2) (Some w) l.

Definition demoContent : gostr := "abcdefghij".
Definition demoCfg : Downloader := mkDownloader 4 2 3.
Definition demoParams : params := mkParams 0 10 10.
(** The remote side delivers what is asked for. *)
Definition serve (start n : Z) : answer :=
  AResp (mkResponse "bytes 0-1/10" n (take (Z.to_nat n) (drop (Z.to_nat start) demoContent)) false).
Definition ev (a : answer) : event := mkEvent a 4 true false (CRead 100).
Definition go (t : nat) : event * nat := (ev AError, t).
Definition ask (start n : Z) (t : nat) : event * nat := (ev (serve start n), t).
Definition busy (t : nat) : event * nat := (ev (AStatus 429), t).
Definition demoStart : option dl :=
  match download demoCfg demoParams None true false with Some (SMulti w) => Some w | _ => None end.
Definition runDemo (l : list (event * nat)) : option dl := w ← demoStart; runDl demoCfg demoParams l w.

(** Two workers fetch the three chunks of 2, 4 and 4 bytes; the reader reuses the
    buffer of the first chunk for the last. *)
Definition demoRun : list (event * nat) :=
  [go 1; ask 0 2 1; go 1] ++ [go 2; ask 2 4 2; go 2; go 2; go 2] ++ [go 1; go 1] ++
  [go 0; go 0; go 0; go 0; go 0; go 0; go 0; go 0; go 0; go 0] ++ [go 1; ask 6 4 1; go 1; go 1; go 1; go 0; go 0; go 0].

Example download_demo :
  (fun w => (out w, ended w, written w)) <$> runDemo demoRun = Some (demoContent, Some EEOF, 10).
Proof. vm_compute. reflexivity. Qed.
