(* ===== verification/DownloadSpec.v ===== *)
(** Chunks, buffers and tasks of the downloader: the invariant that ties every
    buffer to its part of the file. *)
From S2P Require Import Prelude GoString GoPath Download.

(** ** Parts of the file *)
Definition span (content : list ascii) (s n : Z) : list ascii := take (Z.to_nat n) (drop (Z.to_nat s) content).

Section Span.
Context (content : list ascii).
Abbreviation span := (span content).

Lemma span_app s a b : 0 <= s -> 0 <= a -> 0 <= b -> span s (a + b) = span s a ++ span (s + a) b.
Proof.
  intros. unfold span. rewrite !Z2Nat.inj_add by lia. rewrite <- (drop_drop content). by rewrite <- take_take_drop.
Qed.

Lemma length_span s n : 0 <= s -> 0 <= n -> s + n <= Z.of_nat (length content) -> Z.of_nat (length (span s n)) = n.
Proof. intros. unfold span. rewrite length_take, length_drop. lia. Qed.

Lemma span_0 s : span s 0 = [].
Proof. done. Qed.

Lemma take_span s n k : 0 <= s -> 0 <= k <= n -> take (Z.to_nat k) (span s n) = span s k.
Proof. intros. unfold span. rewrite take_take. f_equal. lia. Qed.

Lemma drop_span s n k : 0 <= s -> 0 <= k <= n -> drop (Z.to_nat k) (span s n) = span (s + k) (n - k).
Proof. intros. unfold span. rewrite skipn_firstn_comm, drop_drop. f_equal; [lia|f_equal; lia]. Qed.

(** A piece in the middle. *)
Lemma span_mid s n off k :
  0 <= s -> 0 <= off -> 0 <= k -> off + k <= n ->
  take (Z.to_nat k) (drop (Z.to_nat off) (span s n)) = span (s + off) k.
Proof. intros. rewrite drop_span, take_span by lia. done. Qed.

Lemma span_prefix s n l :
  0 <= s -> 0 <= n -> l `prefix_of` span s n ->
  l = span s (Z.of_nat (length l)) /\ Z.of_nat (length l) <= n.
Proof.
  intros Hs Hn [k Hk]. assert (Hl : (length l <= length (span s n))%nat) by (rewrite Hk, length_app; lia).
  assert (Z.of_nat (length l) <= n) by (unfold span in Hl; rewrite length_take in Hl; lia).
  split; [|done]. rewrite <- (take_span s n) by lia. rewrite Hk, Nat2Z.id. by rewrite take_app_length.
Qed.

Lemma span_drop s n l k :
  0 <= s -> 0 <= n -> l `prefix_of` span s n ->
  drop k l `prefix_of` span (s + Z.of_nat (length (take k l))) (n - Z.of_nat (length (take k l))).
Proof.
  intros Hs Hn Hl. destruct (span_prefix s n l Hs Hn Hl) as [_ Hle]. destruct Hl as [z Hz].
  assert (Ht : (length (take k l) <= length l)%nat) by (rewrite length_take; lia).
  rewrite <- drop_span, Hz by lia. rewrite Nat2Z.id, drop_app_le by done. exists z. f_equal.
  rewrite length_take. destruct (decide (k <= length l)%nat); [by rewrite Nat.min_l|].
  by rewrite Nat.min_r, !drop_ge by lia.
Qed.
End Span.

(** ** The plan of the chunks *)
Section Plan.
Context (P L : Z) (HP : 0 < P) (HL : P < L).

Abbreviation csize := (finalSize P L).

(** Where a chunk begins. *)
Definition chunkStart (i : nat) : Z :=
  match i with
  | O => 0
  | S O => csize 0
  | S (S k) => csize 0 + csize 1 + Z.of_nat k * P
  end.

Lemma csize_bounds i : 0 < csize i <= P.
Proof.
  assert (Hr : 0 <= Z.rem L P < P) by (apply Z.rem_bound_pos; lia).
  assert (Hm : 0 <= Z.quot P 2 <= P) by (rewrite Z.quot_div_nonneg by lia; split; [apply Z.div_pos; lia|apply Z.div_le_upper_bound; lia]).
  assert (Hh : Z.quot P 2 < P) by (rewrite Z.quot_div_nonneg by lia; apply Z.div_lt; lia).
  unfold finalSize. destruct i as [|[|i]]; [| |lia].
  - destruct (0 <? Z.rem L P) eqn:E; bool_hyps; lia.
  - destruct (0 <? Z.rem L P) eqn:E, (Z.rem L P <? Z.quot P 2) eqn:E2; simpl; bool_hyps; lia.
Qed.

Lemma chunkStart_S i : chunkStart (S i) = chunkStart i + csize i.
Proof. destruct i as [|[|i]]; simpl; lia. Qed.

Lemma chunkStart_mono i j : (i <= j)%nat -> chunkStart i <= chunkStart j.
Proof.
  induction 1 as [|j Hj IH]; [lia|]. rewrite chunkStart_S. pose proof (csize_bounds j). lia.
Qed.

Lemma chunkStart_nonneg i : 0 <= chunkStart i.
Proof. apply (chunkStart_mono 0). lia. Qed.

(** The first two chunks together. *)
Lemma csize_two : csize 0 + csize 1 = (if Z.rem L P =? 0 then 2 * P else P + Z.rem L P).
Proof.
  assert (Hr : 0 <= Z.rem L P < P) by (apply Z.rem_bound_pos; lia). unfold finalSize.
  destruct (Z.rem L P =? 0) eqn:E0; bool_hyps.
  - rewrite E0. simpl. lia.
  - destruct (0 <? Z.rem L P) eqn:E; bool_hyps; [|lia]. simpl.
    destruct (Z.rem L P <? Z.quot P 2) eqn:E2; bool_hyps; lia.
Qed.

(** The number of parts. *)
Definition parts : nat := Z.to_nat ((L + P - 1) / P).

Lemma parts_two : (2 <= parts)%nat.
Proof. unfold parts. assert (2 <= (L + P - 1) / P) by (apply Z.div_le_lower_bound; lia). lia. Qed.

Lemma chunkStart_parts : chunkStart parts = L.
Proof.
  pose proof parts_two as H2. destruct parts as [|[|k]] eqn:Hp; [lia|lia|].
  change (chunkStart (S (S k))) with (csize 0 + csize 1 + Z.of_nat k * P). rewrite csize_two. clear H2.
  assert (Hk : (L + P - 1) / P = Z.of_nat k + 2) by (unfold parts in Hp; lia).
  pose proof (Z.quot_rem' L P) as Hq. pose proof (Z.rem_bound_pos L P ltac:(lia) ltac:(lia)) as Hr.
  destruct (Z.rem L P =? 0) eqn:E; bool_hyps.
  - rewrite E in Hq. assert ((L + P - 1) / P = Z.quot L P); [|nia].
    symmetry. apply (Z.div_unique _ _ _ (P - 1)); lia.
  - assert ((L + P - 1) / P = Z.quot L P + 1); [|nia].
    symmetry. apply (Z.div_unique _ _ _ (Z.rem L P - 1)); lia.
Qed.

Lemma chunkStart_lt i : (i < parts)%nat -> chunkStart i < L.
Proof.
  intros Hi. rewrite <- chunkStart_parts. pose proof (chunkStart_mono (S i) parts ltac:(lia)) as H.
  rewrite chunkStart_S in H. pose proof (csize_bounds i). lia.
Qed.

Lemma chunkStart_end i : (i < parts)%nat -> chunkStart i + csize i <= L.
Proof.
  intros Hi. rewrite <- chunkStart_S, <- chunkStart_parts at 1. apply chunkStart_mono. lia.
Qed.
End Plan.
#[global] Arguments chunkStart : simpl never.
#[global] Arguments finalSize : simpl never.

(** ** Tasks *)

(** A chunk somebody has still to fetch: [tn] of its bytes are written, [tb] is
    what the response has still to deliver. *)
Record task := mkTask { tc : chunk; tn : Z; tb : list ascii }.
Definition tid (k : task) : nat := ckId (tc k).
Definition trest (k : task) : Z := ckSize (tc k) - tn k.

Definition taskOf (q : wpc) : option task :=
  match q with
  | WTry c _ | WStatus c _ | WRequeue c | WDelay c _ _ => Some (mkTask c 0 [])
  | WConn c _ r => Some (mkTask c 0 (rBody r))
  | WCopy c _ n r => Some (mkTask c n (rBody r))
  | WIdle | WExit | WPanic => None
  end.

Definition tasks (w : dl) : list task :=
  map (fun c => mkTask c 0 []) (chan w) ++ omap taskOf (workers w).

(** finishBuf is running. *)
Definition fin (w : dl) : bool :=
  match reader w with RFin1 | RFin2 _ | RFin3 => true | _ => false end.

Definition bm (w : dl) : gmap nat nat := default ∅ (bufMap w).

(** The buffer of a chunk that is not read completely. *)
Definition bo (w : dl) (i : nat) : option nat :=
  if bool_decide (i = rpos w) && negb (fin w) then curBuf w else bm w !! i.

Section Inv.
Context (cfg : Downloader) (p : params) (content : list ascii).
Abbreviation P := (cPartSize cfg).
Abbreviation Len := (pLength p).
Abbreviation Start := (pStart p).
Abbreviation csize := (finalSize P Len).
Abbreviation cstart := (chunkStart P Len).
Abbreviation n := (parts P Len).
Abbreviation span := (span content).

Definition active (w : dl) (i : nat) : Prop := (rpos w <= i < nextChunk w)%nat.

Record bufOK (w : dl) (i : nat) (b : pbuf) : Prop := {
  b_limit : bLimit b = csize i;
  b_cap : bCap b = P;
  b_open : bClosed b = false;
  b_data : bData b = span (Start + cstart i) (offW b);
  b_size : offW b <= csize i;
  b_off : 0 <= bOffR b <= offW b;
  b_fresh : i <> rpos w \/ fin w = true -> bOffR b = 0
}.

(** A buffer that can be used for another chunk. *)
Definition spare (w : dl) (b : nat) : Prop :=
  (exists x, bufs w !! b = Some x /\ bCap x = P /\ bClosed x = false) /\ forall i, active w i -> bo w i <> Some b.

(** The buffers and what has been read. *)
Record InvD (w : dl) : Prop := {
  d_next : (nextChunk w <= n)%nat;
  d_pos : pos w = Start + cstart (nextChunk w);
  d_max : maxPos w = Start + Len;
  d_chan : chanClosed w = false;
  d_map : bufMap w = Some (bm w);
  d_active i : active w i -> exists b x, bo w i = Some b /\ bufs w !! b = Some x /\ bufOK w i x;
  d_inj i j b : active w i -> active w j -> bo w i = Some b -> bo w j = Some b -> i = j;
  d_keys i b : bm w !! i = Some b ->
    (i < nextChunk w)%nat /\ (rpos w <= i)%nat /\ (fin w = false -> i <> rpos w) \/ i = nextChunk w;
  d_spare b : bm w !! nextChunk w = Some b -> spare w b /\ ((nextChunk w < n)%nat -> reader w = RFin2 true);
  d_prev : fin w = true -> exists b x, curBuf w = Some b /\ bufs w !! b = Some x;
  d_prev1 : reader w = RFin1 \/ reader w = RFin2 false ->
    exists b, curBuf w = Some b /\ spare w b /\ bm w !! nextChunk w <> Some b;
  d_fin : fin w = true -> (rpos w < n)%nat /\ (rpos w <= nextChunk w)%nat /\ out w = span Start (cstart (rpos w));
  d_fin2 : reader w = RFin2 true -> is_Some (bm w !! nextChunk w) \/ (rpos w < nextChunk w)%nat;
  d_fin3 : reader w = RFin3 \/ reader w = RFin2 false -> (rpos w < nextChunk w)%nat;
  d_cur b x : fin w = false -> (rpos w < n)%nat -> bo w (rpos w) = Some b -> bufs w !! b = Some x ->
    out w = span Start (cstart (rpos w) + bOffR x);
  d_cur_lt : fin w = false -> (rpos w < n)%nat -> (rpos w < nextChunk w)%nat;
  d_end : (n <= rpos w)%nat -> fin w = false /\ nextChunk w = n /\ out w = span Start Len /\
    exists b x, curBuf w = Some b /\ bufs w !! b = Some x /\ bLimit x <= bOffR x;
  d_ended : ended w = Some EEOF -> (n <= rpos w)%nat;
  d_loop len : reader w = RLoop len \/ reader w = RBlocked len -> 0 < len /\ (rpos w < n)%nat;
  d_lim len b x : reader w = RLoop len \/ reader w = RBlocked len -> curBuf w = Some b -> bufs w !! b = Some x ->
    bOffR x < bLimit x;
  d_blocked len b x : reader w = RBlocked len -> curBuf w = Some b -> bufs w !! b = Some x ->
    bSignal x = true \/ bPending x = true /\ offW x = bOffR x
}.

(** Some bytes of the chunk are missing. *)
Definition unfinished (w : dl) (i : nat) : Prop :=
  exists b x, bo w i = Some b /\ bufs w !! b = Some x /\ offW x < csize i.

Record taskOK (w : dl) (k : task) : Prop := {
  k_id : (tid k < nextChunk w)%nat;
  k_n : 0 <= tn k <= ckSize (tc k);
  k_end : ckStart (tc k) + ckSize (tc k) = Start + cstart (S (tid k));
  k_start : Start + cstart (tid k) <= ckStart (tc k);
  k_body : tb k `prefix_of` span (ckStart (tc k) + tn k) (trest k);
  k_rest : 0 < trest k -> (rpos w <= tid k)%nat;
  k_buf : (rpos w <= tid k)%nat -> exists x, bo w (tid k) = Some (ckBuf (tc k)) /\
    bufs w !! ckBuf (tc k) = Some x /\ offW x = ckStart (tc k) + tn k - Start - cstart (tid k)
}.

Record InvH (w : dl) (H : list task) (c : option cause) : Prop := {
  h_ok : Forall (taskOK w) H;
  h_uniq : NoDup (map tid H);
  h_live i : c = None -> active w i -> unfinished w i -> i ∈ map tid H
}.

Record Inv (w : dl) : Prop := {
  inv_d : reader w <> RClosed -> InvD w;
  inv_h : reader w <> RClosed -> InvH w (tasks w) (cancelled w);
  inv_out : out w `prefix_of` span Start Len;
  inv_end : ended w = Some EEOF -> out w = span Start Len
}.

(** ** Tasks when only workers and the channel change *)
Definition sameD (w w' : dl) : Prop :=
  nextChunk w' = nextChunk w /\ bufMap w' = bufMap w /\ lastBuf w' = lastBuf w /\ bufs w' = bufs w /\ pos w' = pos w /\
  maxPos w' = maxPos w /\ chanClosed w' = chanClosed w /\ rpos w' = rpos w /\ curBuf w' = curBuf w /\
  reader w' = reader w /\ out w' = out w /\ ended w' = ended w.

Lemma sameD_refl w : sameD w w.
Proof. by split_and!. Qed.

Lemma sameD_trans w1 w2 w3 : sameD w1 w2 -> sameD w2 w3 -> sameD w1 w3.
Proof. unfold sameD. intros. destruct_and!. split_and!; congruence. Qed.

Lemma sameD_bufOK w w' i b : sameD w w' -> bufOK w i b -> bufOK w' i b.
Proof.
  destruct w, w'. unfold sameD. simpl. intros (-> & -> & -> & -> & -> & -> & -> & -> & -> & -> & -> & ->) [].
  split; assumption.
Qed.

Lemma sameD_InvD w w' : sameD w w' -> InvD w -> InvD w'.
Proof.
  intros S. pose proof (fun i b => sameD_bufOK w w' i b S) as Hb. destruct w, w'. unfold sameD in S. simpl in S.
  destruct S as (-> & -> & -> & -> & -> & -> & -> & -> & -> & -> & -> & ->). intros [].
  split; try assumption. intros i Hi. destruct (d_active0 i Hi) as (b & x & H1 & H2 & H3). exists b, x. by auto.
Qed.

Lemma sameD_taskOK w w' k : sameD w w' -> taskOK w k -> taskOK w' k.
Proof.
  destruct w, w'. unfold sameD. simpl. intros (-> & -> & -> & -> & -> & -> & -> & -> & -> & -> & -> & ->) [].
  split; assumption.
Qed.

Lemma sameD_InvH w w' H c : sameD w w' -> InvH w H c -> InvH w' H c.
Proof.
  intros S [A B D]. split; [|done|].
  - eapply Forall_impl; [exact A|]. intros k. by apply sameD_taskOK.
  - destruct w, w'. unfold sameD in S. simpl in S. destruct S as (-> & -> & -> & -> & -> & -> & -> & -> & -> & -> & -> & ->).
    assumption.
Qed.

Lemma InvH_perm w H H' c : H ≡ₚ H' -> InvH w H c -> InvH w H' c.
Proof.
  intros Hp [A B D]. split; [by rewrite <- Hp|by rewrite <- Hp|]. intros i. rewrite <- Hp. apply D.
Qed.

Lemma InvH_cancel w H c c' : (c' = None -> c = None) -> InvH w H c -> InvH w H c'.
Proof. intros Hc [A B D]. split; [done|done|]. intros i Hi. apply D. by apply Hc. Qed.

(** A task becomes another task for the same chunk. *)
Lemma InvH_replace w k k' R c : tid k' = tid k -> taskOK w k' -> InvH w (k :: R) c -> InvH w (k' :: R) c.
Proof.
  intros Hid Hk [A B D]. apply Forall_cons in A as [_ A]. simpl in *. split; simpl; rewrite ?Hid; [by constructor|done|exact D].
Qed.

(** A task goes when the downloader is cancelled or the chunk is complete. *)
Lemma InvH_drop w k R c : c <> None \/ trest k = 0 -> InvH w (k :: R) c -> InvH w R c.
Proof.
  intros Hd [A B D]. apply Forall_cons in A as [Hk A]. apply NoDup_cons in B as [Hn B]. split; [done|done|].
  intros i Hc Ha Hu. destruct Hd as [Hd|Hd]; [done|]. specialize (D i Hc Ha Hu). apply elem_of_cons in D as [->|D]; [|done].
  exfalso. destruct (k_buf w k Hk) as (x & Hb & Hx & Ho); [apply Ha|]. destruct Hu as (b' & x' & Hb' & Hx' & Hlt).
  assert (b' = ckBuf (tc k)) as -> by congruence. assert (x' = x) as -> by congruence.
  pose proof (k_end w k Hk) as He. rewrite chunkStart_S in He. unfold trest in Hd. lia.
Qed.

(** Workers in the list of tasks. *)
Lemma omap_split (l : list wpc) t q :
  l !! t = Some q -> exists R, omap taskOf l ≡ₚ option_list (taskOf q) ++ R /\
    forall q', omap taskOf (<[t := q']> l) ≡ₚ option_list (taskOf q') ++ R.
Proof.
  intros Hq. exists (omap taskOf (take t l) ++ omap taskOf (drop (S t) l)). split.
  - rewrite <- (take_drop_middle l t q Hq) at 1. rewrite omap_app. simpl. destruct (taskOf q); simpl; solve_Permutation.
  - intros q'. rewrite insert_take_drop by (by eapply lookup_lt_Some). rewrite omap_app. simpl.
    destruct (taskOf q'); simpl; solve_Permutation.
Qed.

Lemma tasks_split w t q :
  workers w !! t = Some q -> exists R, tasks w ≡ₚ option_list (taskOf q) ++ R /\
    forall w' q', chan w' = chan w -> workers w' = <[t := q']> (workers w) -> tasks w' ≡ₚ option_list (taskOf q') ++ R.
Proof.
  intros Hq. destruct (omap_split _ _ _ Hq) as (R & H1 & H2).
  exists (map (fun c => mkTask c 0 []) (chan w) ++ R). unfold tasks. split; [rewrite H1; solve_Permutation|].
  intros w' q' -> ->. rewrite H2. solve_Permutation.
Qed.

(** ** Tasks when the buffers change *)
Lemma InvH_view w w' H c :
  nextChunk w' = nextChunk w -> rpos w' = rpos w -> (forall i, active w i -> bo w' i = bo w i) ->
  (forall i b, active w i -> bo w i = Some b -> offW <$> bufs w' !! b = offW <$> bufs w !! b) ->
  InvH w H c -> InvH w' H c.
Proof.
  intros Hn Hr Hb Ho [A B D].
  assert (Hu : forall i, active w i -> unfinished w' i -> unfinished w i).
  { intros i Hi (b & x & H1 & H2 & H3). rewrite Hb in H1 by done. specialize (Ho i b Hi H1). rewrite H2 in Ho. simpl in Ho.
    destruct (bufs w !! b) as [y|] eqn:E; [|done]. simpl in Ho. exists b, y. split_and!; [done|done|]. injection Ho as Ho. lia. }
  split; [|done|].
  - eapply Forall_impl; [exact A|]. intros k [K1 K2 K3 K4 K5 K6 K7]. split; rewrite ?Hn, ?Hr; try done.
    intros Hle. destruct (K7 Hle) as (x & E1 & E2 & E3). assert (Ha : active w (tid k)) by done.
    specialize (Ho _ _ Ha E1). rewrite E2 in Ho. simpl in Ho. destruct (bufs w' !! _) as [y|] eqn:E; [|done].
    injection Ho as Ho. exists y. rewrite Hb by done. split_and!; [done|done|lia].
  - intros i Hc Hi Hui. unfold active in Hi. rewrite Hn, Hr in Hi. apply D; [done|done|]. by apply Hu.
Qed.

(** A buffer changes, but not what is read from it. *)
Lemma InvD_setBuf w b x y :
  InvD w -> bufs w !! b = Some x ->
  bLimit y = bLimit x -> bCap y = bCap x -> bClosed y = bClosed x -> bOffR y = bOffR x ->
  (forall i, active w i -> bo w i = Some b -> bufOK w i x -> bufOK w i y) ->
  (forall len, reader w = RBlocked len -> curBuf w = Some b ->
    bSignal x = true \/ bPending x = true /\ offW x = bOffR x -> bSignal y = true \/ bPending y = true /\ offW y = bOffR y) ->
  InvD (setBufs w (<[b := y]> (bufs w))).
Proof.
  intros I Hx Hl Hc Hcl Ho Hok Hbl.
  assert (Hlook : forall b' x', bufs w !! b' = Some x' -> exists y', <[b := y]> (bufs w) !! b' = Some y' /\
    bLimit y' = bLimit x' /\ bCap y' = bCap x' /\ bClosed y' = bClosed x' /\ bOffR y' = bOffR x').
  { intros b' x' Hb'. destruct (decide (b' = b)) as [->|Hne].
    - exists y. rewrite list_lookup_insert_eq by (by eapply lookup_lt_Some). assert (x' = x) as -> by congruence. done.
    - exists x'. by rewrite list_lookup_insert_ne. }
  assert (Hsp : forall b', spare w b' -> spare (setBufs w (<[b := y]> (bufs w))) b').
  { intros b' [(x' & H1 & H2 & H3) H4]. split; [|done]. destruct (Hlook _ _ H1) as (y' & E1 & E2 & E3 & E4 & E5).
    exists y'. simpl. split_and!; congruence. }
  assert (Hinv : forall b' y', <[b := y]> (bufs w) !! b' = Some y' -> b' = b /\ y' = y \/ b' <> b /\ bufs w !! b' = Some y').
  { intros b' y' Hb'. destruct (decide (b' = b)) as [->|Hne]; [left|right].
    - rewrite list_lookup_insert_eq in Hb' by (by eapply lookup_lt_Some). by injection Hb' as ->.
    - by rewrite list_lookup_insert_ne in Hb'. }
  pose proof I as I'. destruct I'. split; simpl; try done.
  - intros i Hi. destruct (d_active0 i Hi) as (b' & x' & H1 & H2 & H3). exists b'. destruct (decide (b' = b)) as [->|Hne].
    + exists y. rewrite list_lookup_insert_eq by (by eapply lookup_lt_Some). assert (x' = x) as -> by congruence.
      split_and!; [done|done|]. specialize (Hok i Hi H1 H3). by destruct Hok; split.
    + exists x'. rewrite list_lookup_insert_ne by done. split_and!; [done|done|]. by destruct H3; split.
  - intros b' Hb'. destruct (d_spare0 b' Hb') as [H1 H2]. split; [by apply Hsp|done].
  - intros Hf. destruct (d_prev0 Hf) as (b' & x' & H1 & H2). destruct (Hlook _ _ H2) as (y' & H3 & _). by exists b', y'.
  - intros Hf. destruct (d_prev2 Hf) as (b' & H1 & H2 & H3). exists b'. split_and!; [done|by apply Hsp|done].
  - intros b' y' Hf Hlt Hb' Hy'. destruct (Hinv b' y' Hy') as [[-> ->]|[Hne Hy]].
    + rewrite Ho. by eapply d_cur0.
    + by eapply d_cur0.
  - intros Hle. destruct (d_end0 Hle) as (H1 & H2 & H3 & b' & x' & H4 & H5 & H6). split_and!; [done|done|done|].
    destruct (Hlook _ _ H5) as (y' & E1 & E2 & E3 & E4 & E5). exists b', y'. split_and!; [done|done|lia].
  - intros len b' y' Hr Hb' Hy'. destruct (Hinv b' y' Hy') as [[-> ->]|[Hne Hy]]; [|by eapply d_lim0].
    rewrite Ho, Hl. by eapply d_lim0.
  - intros len b' y' Hr Hb' Hy'. destruct (Hinv b' y' Hy') as [[-> ->]|[Hne Hy]]; [|by eapply d_blocked0].
    eapply Hbl; [done|done|]. by eapply d_blocked0.
Qed.

(** ** A new chunk *)

(** [w1] is [w] after the chunk [nextChunk w] got the buffer [br]. *)
Record advanced (w w1 : dl) (br : nat) : Prop := {
  a_next : nextChunk w1 = S (nextChunk w);
  a_map : bufMap w1 = Some (<[nextChunk w := br]> (bm w));
  a_pos : pos w1 = pos w + csize (nextChunk w);
  a_same : maxPos w1 = maxPos w /\ chanClosed w1 = chanClosed w /\ rpos w1 = rpos w /\ curBuf w1 = curBuf w /\
    reader w1 = reader w /\ out w1 = out w /\ ended w1 = ended w;
  a_old b x : b <> br -> bufs w !! b = Some x -> bufs w1 !! b = Some x;
  a_new : exists x, bufs w1 !! br = Some x /\ bLimit x = csize (nextChunk w) /\ bCap x = P /\ bClosed x = false /\
    bOffR x = 0 /\ bData x = [];
  a_unused i : active w i -> bo w i <> Some br;
  a_prev : reader w = RFin1 \/ reader w = RFin2 false -> curBuf w <> Some br
}.

Section Advance.
Context (HP : 0 < P) (HL : P < Len).
Context (w w1 : dl) (br : nat) (I : InvD w) (A : advanced w w1 br) (Hn : (nextChunk w < n)%nat).

Lemma adv_fields : rpos w1 = rpos w /\ curBuf w1 = curBuf w /\ reader w1 = reader w /\ fin w1 = fin w /\ out w1 = out w /\
  ended w1 = ended w /\ bm w1 = <[nextChunk w := br]> (bm w).
Proof.
  destruct (a_same _ _ _ A) as (H1 & H2 & H3 & H4 & H5 & H6 & H7). unfold fin, bm at 1. rewrite H5, (a_map _ _ _ A). by split_and!.
Qed.

Lemma adv_rpos : (rpos w <= nextChunk w)%nat /\ (fin w = false -> (rpos w < nextChunk w)%nat).
Proof.
  destruct (decide (n <= rpos w)%nat) as [H|H].
  - destruct (d_end _ I H) as (_ & E & _). lia.
  - destruct (fin w) eqn:Hf; [split; [apply (d_fin _ I Hf)|done]|]. pose proof (d_cur_lt _ I Hf ltac:(lia)). lia.
Qed.

Lemma adv_bo i : (i < nextChunk w)%nat -> bo w1 i = bo w i.
Proof.
  intros Hi. destruct adv_fields as (H1 & H2 & H3 & H4 & _ & _ & H5). unfold bo. rewrite H1, H2, H4, H5.
  destruct (_ && _); [done|]. by rewrite lookup_insert_ne by lia.
Qed.

Lemma adv_bo_new : bo w1 (nextChunk w) = Some br.
Proof.
  destruct adv_fields as (H1 & H2 & H3 & H4 & _ & _ & H5). destruct adv_rpos as [H6 H7]. unfold bo. rewrite H1, H4, H5.
  rewrite lookup_insert_eq. destruct (fin w); simpl; [by rewrite andb_false_r|].
  rewrite bool_decide_eq_false_2; [done|]. specialize (H7 eq_refl). lia.
Qed.

Lemma adv_active i : active w1 i -> active w i \/ i = nextChunk w.
Proof. destruct adv_fields as (H1 & _). unfold active. rewrite H1, (a_next _ _ _ A). lia. Qed.

Lemma adv_old i b x : active w i -> bo w i = Some b -> bufs w !! b = Some x -> bufs w1 !! b = Some x.
Proof. intros Hi Hb. apply (a_old _ _ _ A). intros ->. by eapply (a_unused _ _ _ A). Qed.

Lemma adv_spare b : b <> br -> spare w b -> spare w1 b.
Proof.
  intros Hb [(x & H1 & H2 & H3) H4]. split.
  - exists x. split_and!; [|done|done]. by apply (a_old _ _ _ A).
  - intros i Hi. destruct (adv_active i Hi) as [Ha| ->].
    + rewrite adv_bo by apply Ha. by apply H4.
    + rewrite adv_bo_new. congruence.
Qed.

Lemma InvD_advance : InvD w1.
Proof.
  destruct adv_fields as (F1 & F2 & F3 & F4 & F5 & F6 & F7). destruct adv_rpos as [R1 R2].
  destruct (a_same _ _ _ A) as (G1 & G2 & _). pose proof (a_next _ _ _ A) as Hnext.
  destruct (a_new _ _ _ A) as (y & Y1 & Y2 & Y3 & Y4 & Y5 & Y6).
  assert (Hlook : forall b x, bufs w !! b = Some x -> is_Some (bufs w1 !! b)).
  { intros b x Hb. destruct (decide (b = br)) as [->|Hne]; [by eexists|]. rewrite (a_old _ _ _ A b x) by done. by eexists. }
  assert (Hlt : (n <= rpos w)%nat -> False) by lia.
  assert (Hcur : forall len b x, reader w = RLoop len \/ reader w = RBlocked len -> curBuf w = Some b -> bufs w1 !! b = Some x ->
    bufs w !! b = Some x).
  { intros len b x Hr Hb Hx. destruct (d_loop _ I len Hr) as [_ Hrp].
    assert (Hf : fin w = false) by (unfold fin; by destruct Hr as [-> | ->]). assert (Ha : active w (rpos w)) by (split; [done|by apply R2]).
    assert (Hbo : bo w (rpos w) = Some b) by (unfold bo; rewrite Hf, bool_decide_eq_true_2 by done; done).
    destruct (d_active _ I _ Ha) as (b' & x' & E1 & E2 & _). assert (b' = b) as -> by congruence.
    pose proof (adv_old _ _ _ Ha E1 E2). congruence. }
  pose proof I as I'. destruct I'. split; rewrite ?F1, ?F2, ?F3, ?F4, ?F5, ?F6, ?F7, ?Hnext; try done.
  - rewrite (a_pos _ _ _ A), d_pos0, chunkStart_S. lia.
  - by rewrite G1.
  - by rewrite G2.
  - by rewrite (a_map _ _ _ A).
  - intros i Hi. destruct (adv_active i Hi) as [Ha| ->].
    + destruct (d_active0 i Ha) as (b & x & H1 & H2 & [H3 H4 H5 H6 H7 H8 H9]). exists b, x. rewrite adv_bo by apply Ha.
      split_and!; [done|by eapply adv_old|]. split; try done. by rewrite F1, F4.
    + exists br, y. split_and!; [apply adv_bo_new|done|]. pose proof (csize_bounds P Len HP HL (nextChunk w)).
      split; unfold offW; rewrite ?Y6; simpl; try done; lia.
  - intros i j b Hi Hj. destruct (adv_active i Hi) as [Ha| ->], (adv_active j Hj) as [Hb| ->]; rewrite ?adv_bo_new; try done;
      rewrite ?adv_bo by (apply Ha || apply Hb); intros E1 E2; [by eapply d_inj0| |].
    + injection E2 as <-. by destruct (a_unused _ _ _ A i Ha).
    + injection E1 as <-. by destruct (a_unused _ _ _ A j Hb).
  - intros i b Hb. apply lookup_insert_Some in Hb as [[<- <-]|[Hne Hb]].
    + left. split_and!; [lia|done|]. intros Hf. specialize (R2 Hf). lia.
    + left. destruct (d_keys0 i b Hb) as [(H1 & H2 & H3)|H]; [|by destruct Hne]. split_and!; [lia|done|done].
  - intros b Hb. rewrite lookup_insert_ne in Hb by lia. destruct (d_keys0 _ _ Hb) as [H|H]; lia.
  - intros Hf. destruct (d_prev0 Hf) as (b & x & H1 & H2). destruct (Hlook b x H2) as [z Hz]. by exists b, z.
  - intros Hr. destruct (d_prev2 Hr) as (b & H1 & H2 & H3). pose proof (a_prev _ _ _ A Hr) as Hne. rewrite H1 in Hne.
    exists b. split_and!; [done| |].
    + apply adv_spare; [congruence|done].
    + rewrite lookup_insert_ne by lia. intros Hb. destruct (d_keys0 _ _ Hb) as [H|H]; lia.
  - intros Hf. destruct (d_fin0 Hf) as (H1 & H2 & H3). split_and!; [done|lia|done].
  - intros _. right. lia.
  - intros _. lia.
  - intros b x Hf Hr Hb Hx. specialize (R2 Hf). rewrite adv_bo in Hb by done. assert (Ha : active w (rpos w)) by done.
    eapply d_cur0; [done|done|done|]. destruct (d_active0 _ Ha) as (b' & x' & E1 & E2 & _).
    rewrite E1 in Hb. injection Hb as <-. pose proof (adv_old _ _ _ Ha E1 E2). congruence.
  - intros Hf Hr. specialize (R2 Hf). lia.
  - intros len b x Hr Hb Hx. eapply d_lim0; [done|done|]. by eapply (Hcur len).
  - intros len b x Hr Hb Hx. eapply d_blocked0; [done|done|]. eapply (Hcur len); [by right|done|done].
Qed.

Lemma taskOK_advance k : taskOK w k -> taskOK w1 k.
Proof.
  destruct adv_fields as (F1 & _). intros [K1 K2 K3 K4 K5 K6 K7]. split; rewrite ?F1, ?(a_next _ _ _ A); try done; [lia|].
  intros Hr. destruct (K7 Hr) as (x & H1 & H2 & H3). assert (Ha : active w (tid k)) by done.
  exists x. rewrite adv_bo by done. split_and!; [done|by eapply adv_old|done].
Qed.

Lemma adv_unfinished i : active w i -> unfinished w1 i -> unfinished w i.
Proof.
  intros Ha (b & x & H1 & H2 & H3). rewrite adv_bo in H1 by apply Ha.
  destruct (d_active _ I i Ha) as (b' & x' & E1 & E2 & _). assert (b' = b) as -> by congruence.
  pose proof (adv_old _ _ _ Ha E1 E2). assert (x' = x) as -> by congruence. by exists b, x.
Qed.

(** The chunk is not queued, since the downloader is cancelled. *)
Lemma InvH_advance_lost H c : c <> None -> InvH w H c -> InvH w1 H c.
Proof.
  intros Hc [B U V]. split; [|done|done]. eapply Forall_impl; [exact B|]. intros k. apply taskOK_advance.
Qed.

Lemma InvH_advance H c new :
  InvH w H c -> InvH w1 (H ++ [mkTask (mkChunk (pos w) (csize (nextChunk w)) br (nextChunk w) new) 0 []]) c.
Proof.
  intros [B U V]. pose proof (csize_bounds P Len HP HL (nextChunk w)). split.
  - apply Forall_app. split; [eapply Forall_impl; [exact B|]; intros k; apply taskOK_advance|].
    constructor; [|done]. destruct adv_fields as (F1 & _). destruct (a_new _ _ _ A) as (y & Y1 & Y2 & Y3 & Y4 & Y5 & Y6).
    split; unfold tid, trest; simpl; rewrite ?(a_next _ _ _ A), ?(d_pos _ I), ?F1, ?chunkStart_S; try lia.
    + apply prefix_nil.
    + intros _. apply adv_rpos.
    + intros _. exists y. rewrite adv_bo_new. split_and!; [done|done|]. unfold offW. rewrite Y6. simpl. lia.
  - rewrite map_app. apply NoDup_app. split_and!; [done| |apply NoDup_singleton].
    intros i Hi Hx. apply list_elem_of_singleton in Hx as ->. unfold tid in Hi. apply list_elem_of_fmap in Hi as (k & Hk & Hin).
    rewrite Forall_forall in B. pose proof (k_id w k (B k Hin)) as Hlt. unfold tid in Hlt. simpl in Hk. lia.
  - intros i Hc Hi Hu. rewrite map_app. apply elem_of_app. destruct (adv_active i Hi) as [Ha| ->]; [left|right; by apply list_elem_of_singleton].
    apply V; [done|done|]. by apply adv_unfinished.
Qed.
End Advance.

(** ** sendChunkTask *)
Section Send.
Context (HP : 0 < P) (HL : P < Len).

(** The buffer the next chunk gets. *)
Lemma getBuf_spec w blockOk w1 br :
  InvD w -> getBuf cfg w (bm w) blockOk = Some (w1, br) ->
  exists x, bufs w1 !! br = Some x /\ bCap x = P /\ bClosed x = false /\
    bufMap w1 = Some (<[nextChunk w := br]> (bm w)) /\
    (forall b y, bufs w !! b = Some y -> bufs w1 !! b = Some y) /\
    (forall i, active w i -> bo w i <> Some br) /\
    (reader w = RFin1 \/ reader w = RFin2 false -> curBuf w <> Some br) /\
    w1 = setBufMap (setBufs w (bufs w1)) (Some (<[nextChunk w := br]> (bm w))) (lastBuf w).
Proof.
  intros I. unfold getBuf. destruct (bm w !! nextChunk w) as [b|] eqn:Hb.
  - intros [= <- <-]. destruct (d_spare _ I b Hb) as [[(x & H1 & H2 & H3) H4] _].
    assert (Hm : <[nextChunk w := b]> (bm w) = bm w) by (by apply insert_id).
    exists x. rewrite Hm. split_and!; [done|done|done|apply (d_map _ I)|done|done| |].
    + intros Hr Hc. destruct (d_prev1 _ I Hr) as (b' & E1 & E2 & E3). congruence.
    + rewrite <- (d_map _ I). by destruct w.
  - destruct blockOk; [|done]. intros [= <- <-]. simpl.
    exists (mkBuf P 0 [] P false false false). rewrite list_lookup_middle by done.
    assert (Hlt : forall i b x, bo w i = Some b -> bufs w !! b = Some x -> b <> length (bufs w))
      by (intros i b x _ Hx ->; apply lookup_lt_Some in Hx; lia).
    split_and!; try done.
    + intros b y Hy. by apply lookup_app_l_Some.
    + intros i Hi Hbo. destruct (d_active _ I i Hi) as (b & x & E1 & E2 & _). by eapply (Hlt i b x); [done|done|congruence].
    + intros Hr Hc. destruct (d_prev1 _ I Hr) as (b & E1 & [(x & E2 & _) _] & _).
      apply lookup_lt_Some in E2. assert (b = length (bufs w)) by congruence. lia.
Qed.

Record sent (new : bool) (w w' : dl) : Prop := {
  st_d : InvD w';
  st_h : InvH w' (tasks w') (cancelled w');
  st_cancelled : cancelled w' = cancelled w;
  st_workers : exists ext, workers w' = workers w ++ ext /\ omap taskOf ext = [];
  st_same : rpos w' = rpos w /\ curBuf w' = curBuf w /\ reader w' = reader w /\ out w' = out w /\ ended w' = ended w;
  st_new : new = false -> nextChunk w' = n \/ bm w' !! nextChunk w' = None;
  st_fin2 : new = false -> reader w = RFin2 true -> (rpos w < nextChunk w')%nat
}.

Lemma sent_slots new w s :
  InvD w -> InvH w (tasks w) (cancelled w) -> (new = false -> nextChunk w = n \/ bm w !! nextChunk w = None) ->
  sent new w (setSlots w s).
Proof.
  intros I H Hn. assert (S : sameD w (setSlots w s)) by (by split_and!). split; try done.
  - by eapply sameD_InvD.
  - by eapply sameD_InvH.
  - exists []. by rewrite app_nil_r.
  - intros Hf Hr. simpl. destruct (d_fin2 _ I Hr) as [[b Hb]|Hlt]; [|done]. destruct (Hn Hf) as [->|Hx].
    + apply (d_fin _ I). unfold fin. by rewrite Hr.
    + congruence.
Qed.

Lemma sent_advanced new w w1 w' br :
  InvD w -> (nextChunk w < n)%nat -> advanced w w1 br -> sameD w1 w' ->
  InvH w' (tasks w') (cancelled w') -> cancelled w' = cancelled w ->
  (exists ext, workers w' = workers w ++ ext /\ omap taskOf ext = []) -> sent new w w'.
Proof.
  intros I Hn A S H Hc Hw. pose proof (InvD_advance HP HL _ _ _ I A Hn) as I1. pose proof (sameD_InvD _ _ S I1) as I'.
  destruct (adv_fields _ _ _ A) as (F1 & F2 & F3 & F4 & F5 & F6 & F7).
  destruct S as (S1 & S2 & S3 & S4 & S5 & S6 & S7 & S8 & S9 & S10 & S11 & S12). split; try done.
  - split_and!; congruence.
  - intros _. destruct (bm w' !! nextChunk w') as [b|] eqn:E; [left|by right].
    exfalso. assert (bm w' = bm w1) as Em by (unfold bm; by rewrite S2). rewrite Em, F7, S1, (a_next _ _ _ A) in E.
    rewrite lookup_insert_ne in E by lia. destruct (d_keys _ I _ _ E) as [Hx|Hx]; lia.
  - intros _ Hr. rewrite S1, (a_next _ _ _ A). destruct (adv_rpos _ I Hn) as [Hle _]. lia.
Qed.

Lemma reset_fresh x i : bCap x = P -> bClosed x = false ->
  resetBuf x (csize i) = Some (mkBuf (csize i) 0 [] P (bPending x) (bSignal x) false).
Proof.
  intros Hc Ho. unfold resetBuf. rewrite Hc, Ho. pose proof (csize_bounds P Len HP HL i). simpl.
  destruct (P <? csize i) eqn:E; bool_hyps; [lia|done].
Qed.

Lemma queue_spec new choose w1 c w' ok H :
  queueChunk cfg p new choose w1 c = Some (w', ok) -> chanClosed w1 = false ->
  (if ok then H = [mkTask c 0 []] else H = [] /\ cancelled w1 <> None) ->
  sameD w1 w' /\ cancelled w' = cancelled w1 /\ tasks w' ≡ₚ tasks w1 ++ H /\
  (exists ext, workers w' = workers w1 ++ ext /\ omap taskOf ext = []).
Proof.
  unfold queueChunk. intros Hq Hcl. rewrite Hcl in Hq.
  assert (Hsame : forall w, sameD w1 w -> cancelled w = cancelled w1 -> chan w = chan w1 -> workers w = workers w1 ->
    tasks w ≡ₚ tasks w1 ++ [] /\ exists ext, workers w = workers w1 ++ ext /\ omap taskOf ext = []).
  { intros w _ _ E1 E2. unfold tasks. rewrite E1, E2, !app_nil_r. split; [done|]. exists []. by rewrite app_nil_r. }
  destruct (bool_decide (is_Some (cancelled w1)) && choose) eqn:E1.
  { injection Hq as <- <-. intros [-> _]. destruct (Hsame w1 (sameD_refl w1)) as [? ?]; try done. }
  destruct (_ <? _).
  - injection Hq as <- <-. intros ->. split_and!.
    + by destruct new.
    + by destruct new.
    + unfold tasks. destruct new; simpl; rewrite ?map_app, ?omap_app; simpl; solve_Permutation.
    + destruct new; simpl; [by exists [WIdle]|exists []; by rewrite app_nil_r].
  - destruct (bool_decide _) eqn:E2; [|done]. injection Hq as <- <-. intros [-> _].
    destruct (Hsame w1 (sameD_refl w1)) as [? ?]; done.
Qed.

Lemma queue_false new choose w1 c w' :
  queueChunk cfg p new choose w1 c = Some (w', false) -> cancelled w1 <> None.
Proof.
  unfold queueChunk. intros H. destruct (bool_decide (is_Some (cancelled w1))) eqn:E.
  - apply bool_decide_eq_true in E as [x Hx]. congruence.
  - simpl in H. destruct (chanClosed w1); [done|]. by destruct (_ <? _).
Qed.

Lemma send_spec new blockOk choose w w' ok :
  0 <= Start -> InvD w -> InvH w (tasks w) (cancelled w) ->
  sendChunkTask cfg p new blockOk choose w = Some (w', ok) -> sent new w w'.
Proof.
  intros HS I H. unfold sendChunkTask.
  assert (Hid : setSlots w (slots w) = w) by (by destruct w).
  destruct (maxPos w <=? pos w) eqn:Hmax; bool_hyps.
  { intros [= <- <-]. rewrite <- Hid at 2. apply sent_slots; [done|done|]. intros _. left.
    rewrite (d_max _ I), (d_pos _ I) in Hmax. destruct (decide (nextChunk w < n)%nat) as [Hlt|Hge].
    - pose proof (chunkStart_lt P Len HP HL _ Hlt). lia.
    - pose proof (d_next _ I). lia. }
  assert (Hn : (nextChunk w < n)%nat).
  { rewrite (d_max _ I), (d_pos _ I) in Hmax. destruct (decide (nextChunk w < n)%nat) as [Hlt|Hge]; [done|].
    pose proof (d_next _ I). assert (nextChunk w = n) as E by lia. rewrite E, (chunkStart_parts P Len HP HL) in Hmax. lia. }
  destruct (new && (conc w <=? 0)) eqn:Hconc.
  { intros [= <- <-]. rewrite <- Hid at 2. apply sent_slots; [done|done|]. intros ->. done. }
  set (acq := new && _). destruct (if acq then _ else _) as [s|] eqn:Hs.
  2:{ intros [= <- <-]. rewrite <- Hid at 2. apply sent_slots; [done|done|]. intros ->. done. }
  cbv zeta. simpl bufMap. rewrite (d_map _ I).
  set (w0 := setSlots w s). assert (S0 : sameD w w0) by (by split_and!). pose proof (sameD_InvD _ _ S0 I) as I0.
  change (bm w) with (bm w0).
  destruct (getBuf cfg w0 (bm w0) blockOk) as [[w1 br]|] eqn:Hg.
  2:{ intros [= <- <-]. assert (Hnone : bm w !! nextChunk w = None).
      { unfold getBuf in Hg. change (bm w0) with (bm w) in Hg. simpl in Hg. by destruct (bm w !! nextChunk w). }
      destruct acq; refine (sent_slots new w _ I H _); intros _; by right. }
  destruct (getBuf_spec _ _ _ _ I0 Hg) as (x & X1 & X2 & X3 & X4 & X5 & X6 & X7 & X8).
  rewrite X1. simpl mbind. rewrite X8. simpl nextChunk. rewrite reset_fresh by done. simpl.
  set (fresh := mkBuf _ _ _ _ _ _ _). set (c := mkChunk _ _ _ _ _). set (w2 := setNext _ _ _).
  assert (A : advanced w w2 br).
  { split; try done.
    - intros b y Hb Hy. simpl. rewrite list_lookup_insert_ne by done. by apply X5.
    - exists fresh. simpl. by rewrite list_lookup_insert_eq by (by eapply lookup_lt_Some). }
  assert (Hcl : chanClosed w2 = false) by apply (d_chan _ I).
  assert (H2 : forall ok, (ok = false -> cancelled w2 <> None) ->
    InvH w2 (tasks w2 ++ (if ok : bool then [mkTask c 0 []] else [])) (cancelled w2)).
  { intros [|] Hok; [by apply (InvH_advance HP HL w w2 br I A Hn)|]. rewrite app_nil_r.
    apply (InvH_advance_lost w w2 br A Hn); [by apply Hok|done]. }
  destruct (queueChunk _ _ _ _ w2 c) as [[w3 ok']|] eqn:Hq; [|done]. intros [= <- <-].
  assert (Hok : ok' = false -> cancelled w2 <> None) by (intros ->; by eapply queue_false).
  destruct (queue_spec new choose w2 c w3 ok' (if ok' then [mkTask c 0 []] else []) Hq Hcl) as (S3 & C3 & T3 & W3).
  { destruct ok'; [done|]. split; [done|by apply Hok]. }
  set (w4 := if ok' then w3 else _). assert (S4 : sameD w3 w4) by (unfold w4; destruct ok'; [done|by destruct acq]).
  assert (F4 : cancelled w4 = cancelled w3 /\ tasks w4 = tasks w3 /\ workers w4 = workers w3)
    by (unfold w4; destruct ok'; [done|by destruct acq]).
  destruct F4 as (E1 & E2 & E3). eapply (sent_advanced new w w2 w4 br); try done.
  - by eapply sameD_trans.
  - rewrite E1, E2, C3. eapply sameD_InvH; [exact S4|]. eapply sameD_InvH; [exact S3|].
    eapply InvH_perm; [symmetry; exact T3|]. by apply H2.
  - by rewrite E1, C3.
  - by rewrite E3.
Qed.
End Send.
End Inv.
