(* ===== verification/DownloadSys.v ===== *)
(** The downloader delivers the file: every step of a worker and of the reader
    keeps the invariant of [DownloadSpec]. *)
From S2P Require Import Prelude GoString GoPath Download DownloadSpec.

Section Sys.
Context (cfg : Downloader) (p : params) (content : list ascii).
Abbreviation P := (cPartSize cfg).
Abbreviation Len := (pLength p).
Abbreviation Start := (pStart p).
Abbreviation csize := (finalSize P Len).
Abbreviation cstart := (chunkStart P Len).
Abbreviation n := (parts P Len).
Abbreviation span := (span content).
Abbreviation InvD := (InvD cfg p content).
Abbreviation InvH := (InvH cfg p content).
Abbreviation taskOK := (taskOK cfg p content).
Abbreviation Both w := (InvD w /\ InvH w (tasks w) (cancelled w)).

Context (HP : 0 < P) (HL : P < Len) (HS : 0 <= Start) (HB : Start + Len <= Z.of_nat (length content))
  (HM : Len + P < 2 ^ 63).

(** ** Workers *)

(** A worker goes on with another task for its chunk, or without one. *)
Definition taskStep (w : dl) (c' : option cause) (k k' : option task) : Prop :=
  match k, k' with
  | Some k, Some k' => tid k' = tid k /\ (taskOK w k -> taskOK w k')
  | Some k, None => c' <> None \/ trest k = 0
  | None, None => True
  | None, Some _ => False
  end.

Lemma replace_ok w t q w' q' :
  workers w !! t = Some q -> sameD w w' -> chan w' = chan w -> workers w' = <[t := q']> (workers w) ->
  (cancelled w' = None -> cancelled w = None) -> taskStep w (cancelled w') (taskOf q) (taskOf q') ->
  Both w -> Both w'.
Proof.
  intros Hq S Hch Hw Hc Ht [I H]. split; [by eapply sameD_InvD|]. eapply sameD_InvH; [exact S|].
  destruct (tasks_split w t q Hq) as (R & H1 & H2). specialize (H2 w' q' Hch Hw).
  eapply InvH_perm; [symmetry; exact H2|]. apply (InvH_cancel _ _ _ _ _ _ (cancelled w')) in H; [|done].
  eapply InvH_perm in H; [|exact H1]. destruct (taskOf q) as [k|], (taskOf q') as [k'|]; simpl in *; try done.
  - destruct Ht as [Hid Hk]. eapply InvH_replace; [exact Hid| |exact H]. apply Hk. pose proof (h_ok _ _ _ _ _ _ H) as A.
    by apply Forall_cons in A as [A _].
  - by eapply InvH_drop.
Qed.

Lemma exit_ok w t q : workers w !! t = Some q -> cancelled w <> None \/ taskOf q = None -> Both w -> Both (exitWorker w t).
Proof.
  intros Hq Hd. eapply (replace_ok w t q _ WExit); try done. simpl. destruct Hd as [Hd| ->]; [|done].
  by destruct (taskOf q); [left|].
Qed.

Lemma fail_ok w t q : workers w !! t = Some q -> Both w -> Both (failChunk w t).
Proof.
  intros Hq. eapply (replace_ok w t q _ WExit); try done.
  - simpl. by destruct (cancelled w).
  - simpl. destruct (taskOf q); [left|done]. simpl. by destruct (cancelled w).
Qed.

Lemma task_advance w c nn b : taskOK w (mkTask c nn b) ->
  taskOK w (mkTask (if 0 <? nn then mkChunk (ckStart c + nn) (ckSize c - nn) (ckBuf c) (ckId c) (ckNew c) else c) 0 []).
Proof.
  intros [K1 K2 K3 K4 K5 K6 K7]. unfold tid, trest in *. simpl in *.
  destruct (0 <? nn) eqn:E; bool_hyps; [|assert (nn = 0) as -> by lia]; (split; unfold tid, trest; simpl; try done; try lia).
  - apply prefix_nil.
  - intros Hr. destruct (K7 Hr) as (x & X1 & X2 & X3). exists x. split_and!; [done|done|lia].
  - apply prefix_nil.
Qed.

Lemma retry_ok w t q c retry nn b :
  workers w !! t = Some q -> taskOf q = Some (mkTask c nn b) -> Both w -> Both (retryChunk cfg w t c retry nn).
Proof.
  intros Hq Hk HI. unfold retryChunk. destruct (bool_decide _) eqn:Hc.
  { apply bool_decide_eq_true in Hc as [x Hx]. eapply exit_ok; [done|left; congruence|done]. }
  assert (Hstep : forall c', c' = (if 0 <? nn then mkChunk (ckStart c + nn) (ckSize c - nn) (ckBuf c) (ckId c) (ckNew c) else c) ->
    forall r, taskStep w (cancelled w) (taskOf q) (taskOf (WTry c' r))).
  { intros c' -> r. rewrite Hk. simpl. split; [by destruct (0 <? nn)|]. apply task_advance. }
  destruct (0 <? nn) eqn:E.
  - destruct (_ <=? _)%nat.
    + eapply (replace_ok w t q _ _); try done. by apply (Hstep _ eq_refl).
    + apply (fail_ok (incrWritten w nn) t q); [done|]. destruct HI as [I H]. split; [by eapply sameD_InvD; [|exact I]|].
      by eapply sameD_InvH; [|exact H].
  - destruct (_ <=? _)%nat; [|by eapply fail_ok].
    eapply (replace_ok w t q _ _); try done. by apply (Hstep _ eq_refl).
Qed.

Lemma take_ok w t c l : workers w !! t = Some WIdle -> chan w = c :: l -> Both w -> Both (setWorker (setChan w l) t (WTry c 0)).
Proof.
  intros Hq Hc [I H]. assert (S : sameD w (setWorker (setChan w l) t (WTry c 0))) by (by split_and!).
  split; [by eapply sameD_InvD|]. eapply sameD_InvH; [exact S|]. eapply InvH_perm; [|exact H].
  destruct (omap_split _ _ _ Hq) as (R & H1 & H2). unfold tasks. simpl. rewrite Hc, H1, (H2 (WTry c 0)). simpl. solve_Permutation.
Qed.

Lemma requeue_ok w t c : workers w !! t = Some (WRequeue c) -> Both w -> Both (exitWorker (setChan w (chan w ++ [c])) t).
Proof.
  intros Hq [I H]. set (w' := exitWorker _ _). assert (S : sameD w w') by (by split_and!).
  split; [by eapply sameD_InvD|]. eapply sameD_InvH; [exact S|]. eapply InvH_perm; [|exact H].
  destruct (omap_split _ _ _ Hq) as (R & H1 & H2). unfold tasks, w', exitWorker, setWorker. simpl.
  rewrite H1, (H2 WExit), map_app. simpl. solve_Permutation.
Qed.

(** Bytes of a response are written. *)
Lemma write_ok w t c retry nn r piece x d :
  workers w !! t = Some (WCopy c retry nn r) -> d = take piece (rBody r) -> d <> [] -> bufs w !! ckBuf c = Some x ->
  Both w ->
  let k := trest (mkTask c nn (rBody r)) in
  bLimit x - offW x = k /\ 0 < k /\ take (Z.to_nat k) d = d /\
  Both (setWorker (setBufs w (<[ckBuf c := writeBuf x d]> (bufs w))) t
          (WCopy c retry (nn + Z.of_nat (length d)) (mkResponse (rContentRange r) (rContentLength r) (drop piece (rBody r)) (rFails r)))).
Proof.
  intros Hq Hd Hne Hx [I H]. cbv zeta. set (k := mkTask c nn (rBody r)).
  destruct (tasks_split w t _ Hq) as (R & T1 & T2). simpl in T1.
  eapply InvH_perm in H; [|exact T1]. destruct H as [A U V]. apply Forall_cons in A as [Hk A]. fold k in Hk.
  pose proof Hk as [K1 K2 K3 K4 K5 K6 K7]. simpl tb in K5. simpl tc in *. simpl tn in *.
  pose proof (chunkStart_nonneg P Len HP HL (tid k)) as Hs0.
  destruct (span_prefix content (ckStart c + nn) (trest k) (rBody r)) as [B1 B2];
    [unfold k in *; simpl in *; lia|unfold trest, k in *; simpl in *; lia|exact K5|].
  assert (Hdl : (length d <= length (rBody r))%nat) by (rewrite Hd, length_take; lia).
  assert (Hpos : 0 < trest k). { destruct d; [done|simpl in Hdl; lia]. }
  destruct (K7 (K6 Hpos)) as (x' & X1 & X2 & X3). assert (x' = x) as -> by congruence.
  assert (Ha : active w (tid k)) by (split; [by apply K6|done]).
  destruct (d_active _ _ _ _ I _ Ha) as (b & y & Y1 & Y2 & Y3). assert (b = ckBuf c) as -> by congruence.
  assert (y = x) as -> by congruence. pose proof Y3 as [Z1 Z2 Z3 Z4 Z5 Z6 Z7].
  rewrite chunkStart_S in K3. assert (Hcan : bLimit x - offW x = trest k) by (unfold trest in *; simpl in *; lia).
  split; [done|]. split; [done|]. split; [apply take_ge; lia|].
  set (w1 := setBufs w _). assert (Hlt : (ckBuf c < length (bufs w))%nat) by (by eapply lookup_lt_Some).
  assert (Hod : offW (writeBuf x d) = offW x + Z.of_nat (length d)) by (unfold offW, writeBuf; simpl; rewrite length_app; lia).
  assert (Hds : d = span (ckStart c + nn) (Z.of_nat (length d))).
  { apply (span_prefix content (ckStart c + nn) (trest k)); [unfold k in *; simpl in *; lia|lia|].
    etrans; [|exact K5]. rewrite Hd. apply prefix_take. }
  assert (I1 : InvD w1).
  { apply (InvD_setBuf _ _ _ w _ x); try done.
    - intros i Hi Hb _. assert (i = tid k) as -> by (by eapply (d_inj _ _ _ _ I)).
      split; try done; rewrite Hod; [|lia|simpl; lia]. change (bData (writeBuf x d)) with (bData x ++ d).
      rewrite span_app by (unfold offW in *; lia). rewrite <- Z4. f_equal. rewrite Hds at 1. f_equal. lia.
    - intros len _ _ Hsig. left. simpl. destruct Hsig as [-> |[-> _]]; [by rewrite orb_true_r|done]. }
  set (w2 := setWorker w1 t _). assert (S : sameD w1 w2) by (by split_and!). split; [by eapply sameD_InvD|].
  eapply sameD_InvH; [exact S|]. eapply InvH_perm; [symmetry; exact (T2 w2 _ eq_refl eq_refl)|].
  simpl. assert (Hid : forall k', k' ∈ R -> tid k' <> tid k).
  { intros k' Hin Heq. apply NoDup_cons in U as [U _]. apply U. apply list_elem_of_fmap. by exists k'. }
  split.
  - constructor.
    + split; unfold tid, trest; simpl; try done; try lia.
      * rewrite chunkStart_S. unfold k, tid in *. simpl in *. lia.
      * rewrite Z.add_assoc, Z.sub_add_distr, Hd. apply span_drop; [unfold k in *; simpl in *; lia|unfold trest, k in *; simpl in *; lia|exact K5].
      * intros _. by apply K6.
      * intros _. exists (writeBuf x d). rewrite list_lookup_insert_eq by done. split_and!; [done|done|]. rewrite Hod. unfold tid in *. simpl in *. lia.
    + rewrite Forall_forall in A. apply Forall_forall. intros k' Hin. specialize (A k' Hin). pose proof (Hid k' Hin) as Hne'.
      destruct A as [A1 A2 A3 A4 A5 A6 A7]. split; try done. intros Hr. destruct (A7 Hr) as (z & Q1 & Q2 & Q3). exists z.
      split_and!; [done| |done]. simpl. rewrite list_lookup_insert_ne; [done|]. intros Heq. apply Hne'.
      eapply (d_inj _ _ _ _ I (tid k') (tid k) (ckBuf (tc k'))); [done|done|done|]. by rewrite <- Heq.
  - done.
  - intros i Hc Hi (b & z & Q1 & Q2 & Q3). apply (V i Hc Hi). destruct (decide (b = ckBuf c)) as [->|Hnb].
    + simpl in Q2. rewrite list_lookup_insert_eq in Q2 by done. injection Q2 as <-. exists (ckBuf c), x. split_and!; [done|done|]. lia.
    + simpl in Q2. rewrite list_lookup_insert_ne in Q2 by done. by exists b, z.
Qed.

(** The remote side delivers bytes of the range it is asked for, in order; it may
    stop at any of them. *)
Definition honest (q : wpc) (a : answer) : Prop :=
  match q, a with
  | WTry c _, AResp r => rBody r `prefix_of` span (ckStart c) (ckSize c)
  | _, _ => True
  end.

Lemma copy_ok w t c retry nn r piece w' :
  workers w !! t = Some (WCopy c retry nn r) -> Both w -> copyPiece cfg w t c retry nn r piece = Some w' -> Both w'.
Proof.
  intros Hq HI. assert (Hret : forall n, n = nn -> Both (retryChunk cfg w t c retry n)) by (intros ? ->; by eapply retry_ok).
  unfold copyPiece. destruct (rBody r) as [|a body] eqn:Hb.
  { intros [= <-]. destruct (rFails r); [by apply Hret|]. destruct (nn =? ckSize c) eqn:E; bool_hyps; [|by apply Hret].
    eapply (replace_ok w t _ _ WIdle); try done. simpl. right. unfold trest. simpl. lia. }
  rewrite <- Hb. set (d := take piece (rBody r)). destruct (bool_decide (d = [])) eqn:Hd; [done|].
  apply bool_decide_eq_false in Hd. destruct (bool_decide (is_Some _)); [intros [= <-]; by apply Hret|].
  destruct (bufs w !! ckBuf c) as [x|] eqn:Hx; [simpl|done].
  destruct (bClosed x); [intros [= <-]; by apply Hret|].
  destruct (write_ok w t c retry nn r piece x d Hq eq_refl Hd Hx HI) as (H1 & H2 & H3 & H4).
  rewrite H1, H3. destruct (_ <=? 0) eqn:E; bool_hyps; [lia|]. rewrite Nat.ltb_irrefl. intros [= <-]. exact H4.
Qed.

Lemma conn_ok w t c retry r blockOk choose w' ok :
  workers w !! t = Some (WConn c retry r) -> Both w -> sendChunkTask cfg p true blockOk choose w = Some (w', ok) ->
  Both (setWorker w' t (WCopy c retry 0 r)).
Proof.
  intros Hq [I H] Hs. destruct (send_spec cfg p content HP HL _ _ _ _ _ _ HS I H Hs) as [S1 S2 S3 (ext & S4 & S5) _ _ _].
  eapply (replace_ok w' t (WConn c retry r)); try done. rewrite S4. by apply lookup_app_l_Some.
Qed.

Lemma worker_both ev w t q w' :
  workers w !! t = Some q -> honest q (eAnswer ev) -> Both w -> workerStep cfg p ev w t q = Some w' -> Both w'.
Proof.
  intros Hq Hh HI.
  assert (Hexit : is_Some (cancelled w) -> Both (exitWorker w t)).
  { intros [x Hx]. eapply exit_ok; [done|left; congruence|done]. }
  assert (Hfail : Both (failChunk w t)) by (by eapply fail_ok).
  assert (Hkeep : forall q', taskOf q' = taskOf q -> Both (setWorker w t q')).
  { intros q' E. eapply (replace_ok w t q _ q'); try done. rewrite E. by destruct (taskOf q). }
  destruct q as [|c retry|c retry r|c retry nn r|c retry|c|c retry inf| |]; simpl; try done.
  - destruct (bool_decide _ && _) eqn:E; bool_hyps; [intros [= <-]; by apply Hexit|].
    destruct (chan w) as [|c l] eqn:Hch; [|intros [= <-]; by apply take_ok].
    destruct (_ || _); [|done]. intros [= <-]. eapply exit_ok; [done|by right|done].
  - destruct (eAnswer ev) as [r|code|]; intros [= <-]; [| |done].
    + destruct (_ && _); [done|]. eapply (replace_ok w t (WTry c retry)); try done. simpl in *. split; [done|].
      intros [K1 K2 K3 K4 K5 K6 K7]. split; try done. unfold trest. simpl. by rewrite Z.add_0_r, Z.sub_0_r.
    + destruct (code =? 416); [done|]. destruct (ckId c =? 0)%nat; [destruct (retriable code); [|done]|]; by apply Hkeep.
  - destruct (sendChunkTask _ _ _ _ _ _) as [[w1 ok]|] eqn:Hs; [simpl|done]. intros [= <-]. by eapply conn_ok.
  - intros Hc. by eapply copy_ok.
  - intros [= <-]. destruct (0 <? conc w); cbn [orb].
    + eapply (replace_ok w t (WStatus c retry) _ (WRequeue c)); try done.
    + destruct (ckNew c); [eapply (replace_ok w t (WStatus c retry) _ (WRequeue c)); try done|].
      destruct (_ =? _); by apply Hkeep.
  - destruct (bool_decide _ && _) eqn:E; bool_hyps; [intros [= <-]; by apply Hexit|].
    destruct (chanClosed w) eqn:Hcl.
    { destruct HI as [I _]. pose proof (d_chan _ _ _ _ I). congruence. }
    destruct (_ <? _); [intros [= <-]; by apply requeue_ok|]. destruct (bool_decide _) eqn:E2; bool_hyps; [|done].
    intros [= <-]. by apply Hexit.
  - destruct (bool_decide _ && _) eqn:E; bool_hyps; [intros [= <-]; by apply Hexit|]. intros [= <-].
    destruct inf; [by apply Hkeep|]. by eapply retry_ok.
Qed.

(** The workers return nothing to the caller. *)
Lemma send_out new blockOk choose w w' ok :
  sendChunkTask cfg p new blockOk choose w = Some (w', ok) -> out w' = out w /\ ended w' = ended w /\ reader w' = reader w.
Proof.
  unfold sendChunkTask, getBuf, queueChunk. intros H. repeat destr_in H; repeat (destr_goal || simplify_eq); done.
Qed.

Lemma worker_out ev w t q w' :
  workerStep cfg p ev w t q = Some w' -> out w' = out w /\ ended w' = ended w /\ reader w' = reader w.
Proof.
  assert (Hr : forall w c r k, out (retryChunk cfg w t c r k) = out w /\ ended (retryChunk cfg w t c r k) = ended w /\
    reader (retryChunk cfg w t c r k) = reader w).
  { intros w0 c r k. unfold retryChunk. destruct (bool_decide _); [done|]. destruct (0 <? k), (S r <=? cMaxRetries cfg)%nat; done. }
  destruct q as [|c retry|c retry r|c retry nn r|c retry|c|c retry inf| |]; simpl; intros H; try done.
  - repeat destr_in H; simplify_eq; done.
  - repeat destr_in H; simplify_eq; done.
  - destruct (sendChunkTask _ _ _ _ _ _) as [[w1 ok]|] eqn:Hs; [|done]. simpl in H. injection H as <-. by apply send_out in Hs.
  - unfold copyPiece in H. destruct (rBody r) as [|a body]; [repeat destr_in H; simplify_eq; done|].
    destruct (bool_decide (take _ _ = _)); [done|]. destruct (bool_decide _); [simplify_eq; done|].
    destruct (bufs w !! ckBuf c) as [x|]; [simpl in H|done]. repeat destr_in H; simplify_eq; try done;
      match goal with |- out (retryChunk _ ?v _ ?c ?r ?k) = _ /\ _ => exact (Hr v c r k) end.
  - repeat destr_in H; simplify_eq; done.
  - repeat destr_in H; simplify_eq; done.
  - repeat destr_in H; simplify_eq; done.
Qed.

(** ** The reader *)
Lemma cur_buf w : InvD w -> fin w = false -> exists br x, curBuf w = Some br /\ bufs w !! br = Some x /\
  ((rpos w < n)%nat -> active w (rpos w) /\ bo w (rpos w) = Some br /\ bufOK cfg p content w (rpos w) x /\
     out w = span Start (cstart (rpos w) + bOffR x)) /\
  ((n <= rpos w)%nat -> bLimit x <= bOffR x).
Proof.
  intros I Hf. destruct (decide (n <= rpos w)%nat) as [Hle|Hgt].
  - destruct (d_end _ _ _ _ I Hle) as (_ & _ & _ & br & x & H1 & H2 & H3). exists br, x. split_and!; [done|done|lia|done].
  - pose proof (d_cur_lt _ _ _ _ I Hf ltac:(lia)) as Hlt. assert (Ha : active w (rpos w)) by (split; [done|lia]).
    destruct (d_active _ _ _ _ I _ Ha) as (br & x & H1 & H2 & H3).
    assert (Hc : curBuf w = Some br). { unfold bo in H1. rewrite Hf, bool_decide_eq_true_2 in H1 by done. exact H1. }
    exists br, x. split_and!; [done|done| |lia]. intros _. split_and!; try done. eapply d_cur; try done. lia.
Qed.

Lemma InvD_reader w r e :
  InvD w -> fin w = false -> (match r with RFin1 | RFin2 _ | RFin3 => False | _ => True end) ->
  (forall len, r = RLoop len \/ r = RBlocked len -> 0 < len /\ (rpos w < n)%nat) ->
  (forall len b x, r = RLoop len \/ r = RBlocked len -> curBuf w = Some b -> bufs w !! b = Some x -> bOffR x < bLimit x) ->
  (forall len b x, r = RBlocked len -> curBuf w = Some b -> bufs w !! b = Some x -> bSignal x = true \/ bPending x = true /\ offW x = bOffR x) ->
  (e = Some EEOF -> (n <= rpos w)%nat) -> InvD (setRead w (rpos w) r (out w) e).
Proof.
  intros I Hf Hr Hl Hm Hb He. set (w' := setRead _ _ _ _ _). assert (Hf' : fin w' = false) by (unfold fin, w'; simpl; by destruct r).
  assert (Hbo : forall i, bo w' i = bo w i) by (intros i; unfold bo; rewrite Hf, Hf'; done).
  assert (Hsp : forall b, spare cfg w b -> spare cfg w' b).
  { intros b [H1 H2]. split; [done|]. intros i Hi. rewrite Hbo. by apply H2. }
  assert (Hno : forall x, reader w' = x -> match x with RFin1 | RFin2 _ | RFin3 => False | _ => True end) by (intros x <-; done).
  pose proof I as I'. destruct I'. split; try done.
  - intros i Hi. destruct (d_active i Hi) as (b & x & H1 & H2 & []). exists b, x. rewrite Hbo. split_and!; [done|done|].
    split; try done. intros [H|H]; [by apply b_fresh; left|congruence].
  - intros i j b Hi Hj. rewrite !Hbo. by apply d_inj.
  - intros i b H. destruct (d_keys i b H) as [(?&?&?)|?]; [left|by right]. split_and!; try done. intros _. by apply H2.
  - intros b H. destruct (d_spare b H) as [H1 H2]. split; [by apply Hsp|]. intros Hn. specialize (H2 Hn).
    unfold fin in Hf. by rewrite H2 in Hf.
  - intros H. congruence.
  - intros H. destruct H as [H|H]; by apply Hno in H.
  - intros H. congruence.
  - intros H. by apply Hno in H.
  - intros H. destruct H as [H|H]; by apply Hno in H.
  - intros b x _ Hn. rewrite Hbo. by apply d_cur.
  - intros _. by apply d_cur_lt.
  - intros H. destruct (d_end H) as [_ H']. by split.
Qed.

Lemma Both_reader w r e :
  Both w -> fin w = false -> (match r with RFin1 | RFin2 _ | RFin3 => False | _ => True end) ->
  (forall len, r = RLoop len \/ r = RBlocked len -> 0 < len /\ (rpos w < n)%nat) ->
  (forall len b x, r = RLoop len \/ r = RBlocked len -> curBuf w = Some b -> bufs w !! b = Some x -> bOffR x < bLimit x) ->
  (forall len b x, r = RBlocked len -> curBuf w = Some b -> bufs w !! b = Some x -> bSignal x = true \/ bPending x = true /\ offW x = bOffR x) ->
  (e = Some EEOF -> (n <= rpos w)%nat) -> Both (setRead w (rpos w) r (out w) e).
Proof.
  intros [I H] Hf Hr Hl Hm Hb He. split; [by apply InvD_reader|]. change (InvH (setRead w (rpos w) r (out w) e) (tasks w) (cancelled w)).
  eapply InvH_view; [| | | |exact H]; try done. intros i _. unfold bo. rewrite Hf. by replace (fin _) with false by (unfold fin; simpl; by destruct r).
Qed.

Lemma maxPart_n : maxPart cfg p = Z.of_nat n.
Proof.
  unfold maxPart, parts. destruct (P <? Len) eqn:E; bool_hyps; [|lia].
  rewrite (i64_id (Len + P)), i64_id by (unfold i64_ok; lia). rewrite Z.quot_div_nonneg by lia.
  assert (0 <= (Len + P - 1) / P) by (apply Z.div_pos; lia). lia.
Qed.

(** The current buffer is at its end: the reader leaves its chunk. *)
Lemma bufEnd_both w : Both w -> fin w = false ->
  (exists br x, curBuf w = Some br /\ bufs w !! br = Some x /\ bLimit x <= bOffR x) -> Both (bufEnd cfg p w (out w)).
Proof.
  intros [I H] Hf (br & x & Hc & Hx & Hle). unfold bufEnd. rewrite maxPart_n.
  destruct (cur_buf w I Hf) as (br' & x' & C1 & C2 & C3 & C4). assert (br' = br) as -> by congruence.
  assert (x' = x) as -> by congruence. pose proof (parts_two P Len HP HL) as H2.
  set (w' := if _ <=? _ then _ else _).
  assert (Hw : nextChunk w' = nextChunk w /\ bufs w' = bufs w /\ rpos w' = S (rpos w) /\ bufMap w' = bufMap w /\ bm w' = bm w /\
    pos w' = pos w /\ maxPos w' = maxPos w /\ chanClosed w' = chanClosed w /\ curBuf w' = curBuf w /\ out w' = out w /\
    tasks w' = tasks w /\ cancelled w' = cancelled w) by (unfold w', bm; destruct (_ <=? _); done).
  destruct Hw as (W1 & W2 & W3 & W4 & W5 & W6 & W7 & W8 & W9 & W10 & W11 & W12).
  assert (Hr : (n <= S (rpos w))%nat /\ reader w' = RIdle /\ ended w' = Some EEOF \/ (S (rpos w) < n)%nat /\ reader w' = RFin1 /\ ended w' = None).
  { unfold w'. destruct (Z.of_nat n <=? Z.of_nat (S (rpos w))) eqn:E; bool_hyps; [left|right]; (split; [lia|done]). }
  assert (Hact : forall i, active w' i -> active w i /\ i <> rpos w) by (intros i; unfold active; rewrite W1, W3; lia).
  assert (Hbo : forall i, active w' i -> bo w' i = bo w i).
  { intros i Hi. destruct (Hact i Hi) as [Ha Hne]. unfold bo. rewrite Hf, W5, W9, W3, (bool_decide_eq_false_2 (i = rpos w)) by done. simpl.
    destruct (bool_decide _) eqn:E; [simpl|done]. bool_hyps. subst i. destruct Hr as [(Hn & _ & _)|(_ & Hr & _)].
    - exfalso. destruct Ha. pose proof (d_next _ _ _ _ I). lia.
    - unfold fin. by rewrite Hr. }
  assert (Hnr : forall b, reader w' <> RFin2 b /\ reader w' <> RFin3) by (intros b; destruct Hr as [(_ & -> & _)|(_ & -> & _)]; done).
  assert (Hcur : (rpos w < n)%nat -> csize (rpos w) = offW x /\ bOffR x = offW x /\ out w = span Start (cstart (S (rpos w)))).
  { intros Hlt. destruct (C3 Hlt) as (_ & _ & [K1 K2 K3 K4 K5 K6 K7] & Ho). assert (bOffR x = csize (rpos w)) as E by lia.
    rewrite chunkStart_S, Ho, E. split_and!; [lia|lia|done]. }
  split.
  - pose proof I as I'. destruct I'. split; rewrite ?W1, ?W2, ?W3, ?W4, ?W5, ?W6, ?W7, ?W8, ?W9, ?W10; try done.
    + intros i Hi. rewrite Hbo by done. destruct (Hact i Hi) as [Ha Hne]. destruct (d_active i Ha) as (b & y & H3 & H4 & []).
      exists b, y. split_and!; [done|done|]. split; try done. intros _. apply b_fresh. by left.
    + intros i j b Hi Hj. rewrite !Hbo by done. apply d_inj; by apply Hact.
    + intros i b Hb. destruct (d_keys i b Hb) as [(E1 & E2 & E3)|E1]; [left|by right]. specialize (E3 Hf).
      split_and!; [done|lia|]. intros Hf' ->. destruct Hr as [(Hn & _ & _)|(_ & Hr & _)]; [lia|].
      unfold fin in Hf'. by rewrite Hr in Hf'.
    + intros b Hb. destruct (d_spare b Hb) as [[S1 S2] S3]. split.
      * split; [by rewrite W2|]. intros i Hi. rewrite Hbo by done. apply S2. by apply Hact.
      * intros Hn. specialize (S3 Hn). unfold fin in Hf. by rewrite S3 in Hf.
    + intros _. by exists br, x.
    + intros HR. exists br. destruct Hr as [(_ & Hr & _)|(Hn & _)]; [destruct HR; congruence|].
      destruct (C3 ltac:(lia)) as (Ha & Hb & [K1 K2 K3 K4 K5 K6 K7] & _). split_and!; [done| |].
      * split; [exists x; rewrite W2; done|]. intros i Hi. rewrite Hbo by done. intros Hb'.
        destruct (Hact i Hi) as [Hi' Hne]. apply Hne. by eapply d_inj.
      * intros Hb'. destruct (d_spare _ Hb') as [[_ S2] _]. by destruct (S2 _ Ha).
    + intros Hf'. destruct Hr as [(_ & Hr & _)|(Hn & _)]; [unfold fin in Hf'; by rewrite Hr in Hf'|].
      pose proof (d_cur_lt Hf ltac:(lia)). split_and!; [lia|lia|]. apply Hcur. lia.
    + intros HR. by destruct (Hnr true) as [? _].
    + intros HR. destruct (Hnr false) as [? ?]. by destruct HR.
    + intros b y Hf' Hn. destruct Hr as [(Hn' & _)|(_ & Hr & _)]; [lia|]. unfold fin in Hf'. by rewrite Hr in Hf'.
    + intros Hf' Hn. destruct Hr as [(Hn' & _)|(_ & Hr & _)]; [lia|]. unfold fin in Hf'. by rewrite Hr in Hf'.
    + intros Hn. destruct Hr as [(_ & Hr & _)|(Hn' & _)]; [|lia]. split; [unfold fin; by rewrite Hr|].
      destruct (decide (rpos w < n)%nat) as [Hlt|Hge].
      * pose proof (d_cur_lt Hf Hlt). destruct (Hcur Hlt) as (_ & _ & ->). assert (S (rpos w) = n) as -> by lia.
        rewrite chunkStart_parts by done. split_and!; [lia|done|by exists br, x].
      * destruct (d_end ltac:(lia)) as (_ & E1 & E2 & _). split_and!; [done|done|by exists br, x].
    + intros He. destruct Hr as [(Hn & _)|(_ & _ & Hr)]; [done|congruence].
    + intros len HR. destruct Hr as [(_ & Hr & _)|(_ & Hr & _)]; destruct HR; congruence.
    + intros len b y HR. destruct Hr as [(_ & Hr & _)|(_ & Hr & _)]; destruct HR; congruence.
    + intros len b y HR. destruct Hr as [(_ & Hr & _)|(_ & Hr & _)]; congruence.
  - rewrite W11, W12. destruct H as [A U V]. split; [|done|].
    + eapply Forall_impl; [exact A|]. intros k [K1 K2 K3 K4 K5 K6 K7].
      assert (Hlt : 0 < trest k -> tid k <> rpos w).
      { intros Hk Heq. rewrite Heq in *. assert (Hn : (rpos w < n)%nat) by (pose proof (d_next _ _ _ _ I); lia).
        destruct (K7 ltac:(lia)) as (y & Y1 & Y2 & Y3). destruct (C3 Hn) as (_ & Hb & _).
        assert (ckBuf (tc k) = br) as E by congruence. rewrite E in Y2. assert (y = x) as -> by congruence.
        destruct (Hcur Hn) as (E1 & _). rewrite chunkStart_S in K3. unfold trest in Hk. lia. }
      split; rewrite ?W1, ?W3; try done.
      * intros Hk. specialize (K6 Hk). specialize (Hlt Hk). lia.
      * intros Hk. destruct (K7 ltac:(lia)) as (y & Y1 & Y2 & Y3). exists y. rewrite Hbo, W2; [done|]. split; [by rewrite W3|by rewrite W1].
    + intros i Hc' Hi (b & y & Y1 & Y2 & Y3). rewrite Hbo in Y1 by done. rewrite W2 in Y2. apply V; [done|by apply Hact|].
      by exists b, y.
Qed.

(** The flags of a buffer change. *)
Definition flags (x : pbuf) (pending signal : bool) : pbuf :=
  mkBuf (bLimit x) (bOffR x) (bData x) (bCap x) pending signal (bClosed x).

Lemma InvH_offW w H c br x y :
  bufs w !! br = Some x -> offW y = offW x -> InvH w H c -> InvH (setBufs w (<[br := y]> (bufs w))) H c.
Proof.
  intros Hx Ho. apply InvH_view; try done. intros i b _ _. simpl. destruct (decide (b = br)) as [->|Hne].
  - rewrite list_lookup_insert_eq by (by eapply lookup_lt_Some). rewrite Hx. simpl. by rewrite Ho.
  - by rewrite list_lookup_insert_ne.
Qed.

Lemma flags_both w br x pending signal :
  Both w -> bufs w !! br = Some x -> (forall len, reader w <> RBlocked len) ->
  Both (setBufs w (<[br := flags x pending signal]> (bufs w))).
Proof.
  intros [I H] Hx Hr. split.
  - eapply (InvD_setBuf cfg p content w br x); try done.
    + intros i _ _ []. by split.
    + intros len Hl. by destruct (Hr len).
  - by apply (InvH_offW w _ _ br x).
Qed.

(** Bytes are read. *)
Lemma read_both w len br x k :
  Both w -> reader w = RLoop len -> curBuf w = Some br -> bufs w !! br = Some x -> 0 <= k <= offW x - bOffR x ->
  Both (setRead (setBufs w (<[br := mkBuf (bLimit x) (bOffR x + k) (bData x) (bCap x) (bPending x) (bSignal x) (bClosed x)]> (bufs w)))
          (rpos w) RIdle (out w ++ take (Z.to_nat k) (drop (Z.to_nat (bOffR x)) (bData x))) None).
Proof.
  intros [I H] Hr Hc Hx Hk. destruct (d_loop _ _ _ _ I len (or_introl Hr)) as [Hlen Hn].
  assert (Hf : fin w = false) by (unfold fin; by rewrite Hr).
  destruct (cur_buf w I Hf) as (br' & x' & C1 & C2 & C3 & C4). assert (br' = br) as -> by congruence.
  assert (x' = x) as -> by congruence. destruct (C3 Hn) as (Ha & Hb & [K1 K2 K3 K4 K5 K6 K7] & Ho). clear C1 C2 C3 C4.
  pose proof (chunkStart_nonneg P Len HP HL (rpos w)) as H0.
  set (y := mkBuf _ _ _ _ _ _ _). set (w' := setRead _ _ _ _ _).
  assert (Hlt : (br < length (bufs w))%nat) by (by eapply lookup_lt_Some).
  assert (Hbo : forall i, bo w' i = bo w i) by (intros i; unfold bo; rewrite Hf; done).
  assert (Hlook : forall b z, bufs w !! b = Some z -> exists z', bufs w' !! b = Some z' /\ bCap z' = bCap z /\ bClosed z' = bClosed z).
  { intros b z Hz. simpl. destruct (decide (b = br)) as [->|Hne].
    - exists y. rewrite list_lookup_insert_eq by done. assert (z = x) as -> by congruence. done.
    - exists z. by rewrite list_lookup_insert_ne. }
  assert (Hsp : forall b, spare cfg w b -> spare cfg w' b).
  { intros b [(z & Z1 & Z2 & Z3) Z4]. split; [|intros i; rewrite Hbo; apply Z4].
    destruct (Hlook b z Z1) as (z' & E1 & E2 & E3). exists z'. split_and!; congruence. }
  split.
  - pose proof I as I'. destruct I'. split; try done.
    + intros i Hi. rewrite Hbo. destruct (d_active i Hi) as (b & z & H3 & H4 & H5). exists b. destruct (decide (b = br)) as [->|Hne].
      * assert (i = rpos w) as -> by (by eapply d_inj). exists y. simpl. rewrite list_lookup_insert_eq by done.
        split_and!; [done|done|]. split; try done; [unfold offW, y; simpl; unfold offW in *; lia|]. intros [?|?]; done.
      * exists z. simpl. rewrite list_lookup_insert_ne by done. split_and!; [done|done|]. destruct H5. split; try done.
        intros [Hne'|Hf']; [apply b_fresh; by left|done].
    + intros i j b. rewrite !Hbo. apply d_inj.
    + intros i b Hb'. destruct (d_keys i b Hb') as [(?&?&?)|?]; [left|by right]. split_and!; try done. intros _. by apply H3.
    + intros b Hb'. destruct (d_spare b Hb') as [S1 S2]. split; [by apply Hsp|]. intros Hn'. specialize (S2 Hn'). congruence.
    + intros [?|?]; done.
    + intros [?|?]; done.
    + intros b z _ Hn'. rewrite Hbo. intros Hb' Hz. change (rpos w') with (rpos w) in Hb'. assert (b = br) as -> by congruence.
      simpl in Hz. rewrite list_lookup_insert_eq in Hz by done. injection Hz as <-. simpl. rewrite Ho, K4.
      rewrite (span_mid content _ _ (bOffR x) k) by lia. rewrite (Z.add_assoc (cstart (rpos w))).
      rewrite (span_app content Start (cstart (rpos w) + bOffR x) k) by lia. f_equal. f_equal. lia.
    + intros _. by apply d_cur_lt.
    + intros Hn'. change (rpos w') with (rpos w) in Hn'. lia.
    + intros l [?|?]; done.
    + intros l b z [?|?]; done.
  - eapply (InvH_view cfg p content (setBufs w (<[br:=y]> (bufs w)))); try done.
    by apply (InvH_offW w _ _ br x).
Qed.

(** finishBuf *)
Lemma fin1_both w prev :
  Both w -> reader w = RFin1 -> curBuf w = Some prev ->
  Both (match bm w !! nextChunk w with
        | None => setReader (setBufMap w (Some (<[nextChunk w := prev]> (bm w))) (lastBuf w)) (RFin2 true)
        | Some _ => setReader w (RFin2 false)
        end).
Proof.
  intros [I H] Hr Hc. assert (Hf : fin w = true) by (unfold fin; by rewrite Hr).
  destruct (d_fin _ _ _ _ I Hf) as (F1 & F2 & F3). destruct (d_prev1 _ _ _ _ I (or_introl Hr)) as (b & P1 & P2 & P3).
  assert (b = prev) as -> by congruence.
  destruct (bm w !! nextChunk w) as [b|] eqn:Hb; set (w' := setReader _ _);
    assert (Hbo : forall i, active w i -> bo w' i = bo w i)
      by (intros i Hi; unfold bo; rewrite Hf, !andb_false_r; unfold w', bm; simpl; rewrite ?lookup_insert_ne by (destruct Hi; lia); done);
    assert (Hsp : forall b, spare cfg w b -> spare cfg w' b) by (intros b' [S1 S2]; split; [done|]; intros i Hi; rewrite Hbo by done; by apply S2);
    (split; [|eapply (InvH_view cfg p content w); try done]); pose proof I as I'; destruct I'.
  - assert (Hnn : (nextChunk w < n)%nat -> False) by (intros Hn; destruct (d_spare b Hb) as [_ S2]; specialize (S2 Hn); congruence).
    split; try done.
    + intros i Hi. rewrite Hbo by done. destruct (d_active i Hi) as (c & x & H1 & H2 & []). exists c, x.
      split_and!; [done|done|]. split; try done. intros _. apply b_fresh. by right.
    + intros i j c Hi Hj. rewrite !Hbo by done. by apply d_inj.
    + intros i c Hic. destruct (d_keys i c Hic) as [(?&?&?)|?]; [left|by right]. by split_and!.
    + intros c Hcc. destruct (d_spare c Hcc) as [S1 _]. split; [by apply Hsp|]. intros Hn. by destruct Hnn.
    + intros _. by apply d_prev.
    + intros _. exists prev. split_and!; [done|by apply Hsp|]. change (bm w' !! nextChunk w') with (bm w !! nextChunk w). congruence.
    + intros _. change (nextChunk w') with (nextChunk w). change (rpos w') with (rpos w). lia.
    + intros Hn. destruct (d_end Hn) as [? _]. congruence.
    + intros len [?|?]; done.
    + intros len b0 x [?|?]; done.
  - split; try done.
    + intros i Hi. rewrite Hbo by done. destruct (d_active i Hi) as (c & x & H1 & H2 & []). exists c, x.
      split_and!; [done|done|]. split; try done. intros _. apply b_fresh. by right.
    + intros i j c Hi Hj. rewrite !Hbo by done. by apply d_inj.
    + intros i c Hic. unfold w', bm in Hic. simpl in Hic. apply lookup_insert_Some in Hic as [[<- <-]|[Hne Hic]]; [by right|].
      destruct (d_keys i c Hic) as [(?&?&?)|?]; [left|by right]. by split_and!.
    + intros c Hcc. unfold bm in Hcc. simpl in Hcc. rewrite lookup_insert_eq in Hcc. injection Hcc as <-. split; [by apply Hsp|done].
    + intros _. by apply d_prev.
    + intros [?|?]; done.
    + intros _. left. unfold bm. simpl. rewrite lookup_insert_eq. by eexists.
    + intros [?|?]; done.
    + intros Hn. destruct (d_end Hn) as [? _]. congruence.
    + intros len [?|?]; done.
    + intros len b0 x [?|?]; done.
Qed.

Lemma fin_reader w bs :
  Both w -> fin w = true -> (rpos w < nextChunk w)%nat -> (nextChunk w = n \/ bm w !! nextChunk w = None) ->
  (forall i b, active w i -> bo w i = Some b -> bs !! b = bufs w !! b) ->
  (forall b, bm w !! nextChunk w = Some b -> bs !! b = bufs w !! b) ->
  (forall b x, curBuf w = Some b -> bufs w !! b = Some x -> is_Some (bs !! b)) ->
  Both (setReader (setBufs w bs) RFin3).
Proof.
  intros [I H] Hf Hlt Hn B1 B2 B3. set (w' := setReader _ RFin3).
  assert (Hbo : forall i, active w i -> bo w' i = bo w i) by (intros i Hi; unfold bo; rewrite Hf, !andb_false_r; done).
  split; [|eapply (InvH_view cfg p content w); try done].
  2:{ intros i b Hi Hb. simpl. by rewrite (B1 i b). }
  pose proof I as I'. destruct I'. split; try done.
  - intros i Hi. rewrite Hbo by done. destruct (d_active i Hi) as (c & x & H1 & H2 & []). exists c, x. simpl. rewrite (B1 i c) by done.
    split_and!; [done|done|]. split; try done. intros _. apply b_fresh. by right.
  - intros i j c Hi Hj. rewrite !Hbo by done. by apply d_inj.
  - intros i c Hic. destruct (d_keys i c Hic) as [(?&?&?)|?]; [left|by right]. by split_and!.
  - intros c Hcc. destruct (d_spare c Hcc) as [[(x & S1 & S2) S3] _]. split.
    + split; [exists x; simpl; by rewrite B2|]. intros i Hi. rewrite Hbo by done. by apply S3.
    + intros Hn'. change (nextChunk w') with (nextChunk w) in *. change (bm w') with (bm w) in Hcc. destruct Hn as [?|?]; [lia|congruence].
  - intros _. destruct (d_prev Hf) as (b & x & X1 & X2). destruct (B3 b x X1 X2) as [y Hy]. by exists b, y.
  - intros [?|?]; done.
  - intros _. by apply d_fin.
  - intros Hn'. destruct (d_end Hn') as [? _]. congruence.
  - intros len [?|?]; done.
  - intros len b y [?|?]; done.
Qed.

Lemma close_both w prev :
  Both w -> reader w = RFin2 false -> curBuf w = Some prev -> Both (setReader (setBufs w (closeAt (bufs w) prev)) RFin3).
Proof.
  intros [I H] Hr Hc. assert (Hf : fin w = true) by (unfold fin; by rewrite Hr).
  destruct (d_prev1 _ _ _ _ I (or_intror Hr)) as (b & P1 & [P2 P4] & P3). assert (b = prev) as -> by congruence.
  assert (Hlook : forall b, b <> prev -> closeAt (bufs w) prev !! b = bufs w !! b) by (intros b Hb; by apply list_lookup_alter_ne).
  apply fin_reader; try done.
  - by apply (d_fin3 _ _ _ _ I (or_intror Hr)).
  - destruct (bm w !! nextChunk w) as [b|] eqn:Hb; [left|by right]. destruct (d_spare _ _ _ _ I b Hb) as [_ S2].
    pose proof (d_next _ _ _ _ I). destruct (decide (nextChunk w < n)%nat) as [Hn|]; [|lia]. specialize (S2 Hn). congruence.
  - intros i b Hi Hb. apply Hlook. intros ->. by apply (P4 i).
  - intros b Hb. apply Hlook. intros ->. by apply P3.
  - intros b x Hb Hx. assert (b = prev) as -> by congruence. unfold closeAt. rewrite list_lookup_alter_eq, Hx. by eexists.
Qed.

Lemma pop_both w : Both w -> reader w = RFin3 -> Both (setReader (popBuf w (bm w) (rpos w)) RIdle).
Proof.
  intros [I H] Hr. assert (Hf : fin w = true) by (unfold fin; by rewrite Hr).
  pose proof (d_fin3 _ _ _ _ I (or_introl Hr)) as Hlt. assert (Ha : active w (rpos w)) by (split; [done|lia]).
  destruct (d_active _ _ _ _ I _ Ha) as (br & x & E1 & E2 & E3).
  assert (Hm : bm w !! rpos w = Some br) by (unfold bo in E1; by rewrite Hf, andb_false_r in E1).
  unfold popBuf. rewrite Hm. set (w' := setReader _ _).
  assert (Hbo : forall i, active w i -> bo w' i = bo w i).
  { intros i Hi. unfold bo. rewrite Hf, andb_false_r. unfold w', bm. simpl. destruct (bool_decide (i = rpos w)) eqn:E; simpl; bool_hyps.
    - by subst.
    - rewrite lookup_delete_ne by done. done. }
  assert (Hs : forall i c, bm w' !! i = Some c -> i <> rpos w /\ bm w !! i = Some c).
  { intros i c. unfold w', bm. simpl. intros [Hne Hl]%lookup_delete_Some. done. }
  destruct (d_fin _ _ _ _ I Hf) as (F1 & F2 & F3).
  split; [|eapply (InvH_view cfg p content w); try done].
  pose proof I as I'. destruct I'. split; try done.
  - intros i Hi. rewrite Hbo by done. destruct (d_active i Hi) as (c & y & H1 & H2 & []). exists c, y.
    split_and!; [done|done|]. split; try done. intros _. apply b_fresh. by right.
  - intros i j c Hi Hj. rewrite !Hbo by done. by apply d_inj.
  - intros i c Hic. destruct (Hs i c Hic) as [Hne Hi]. destruct (d_keys i c Hi) as [(?&?&?)|?]; [left|by right]. by split_and!.
  - intros c Hcc. destruct (Hs _ c Hcc) as [Hne Hi]. destruct (d_spare c Hi) as [[S1 S3] S2]. split.
    + split; [done|]. intros i Ha'. rewrite Hbo by done. by apply S3.
    + intros Hn'. specialize (S2 Hn'). congruence.
  - intros [?|?]; done.
  - intros b y _ _ Hb Hy. change (rpos w') with (rpos w) in Hb. rewrite Hbo, E1 in Hb by done. injection Hb as <-.
    change (bufs w') with (bufs w) in Hy. assert (y = x) as -> by congruence. destruct E3. rewrite b_fresh by (by right).
    change (out w') with (out w). change (rpos w') with (rpos w). by rewrite Z.add_0_r.
  - intros Hn'. change (rpos w') with (rpos w) in Hn'. lia.
  - intros len [?|?]; done.
  - intros len b y [?|?]; done.
Qed.

Lemma send2_both w blockOk choose w' ok :
  Both w -> reader w = RFin2 true -> sendChunkTask cfg p false blockOk choose w = Some (w', ok) -> Both (setReader w' RFin3).
Proof.
  intros [I H] Hr Hs. destruct (send_spec cfg p content HP HL _ _ _ _ _ _ HS I H Hs) as [S1 S2 S3 S4 (E1 & E2 & E3 & E4 & E5) S6 S7].
  change (Both (setReader (setBufs w' (bufs w')) RFin3)). apply fin_reader; try done.
  - unfold fin. by rewrite E3, Hr.
  - rewrite E1. by apply S7.
  - by apply S6.
Qed.

Lemma cancel_both w c : Both w -> Both (cancel w c).
Proof.
  intros [I H]. assert (S : sameD w (cancel w c)) by (by split_and!). split; [by eapply sameD_InvD|].
  eapply sameD_InvH; [exact S|]. eapply InvH_cancel; [|exact H]. simpl. by destruct (cancelled w).
Qed.

Lemma reader_both ev w w' :
  Both w -> reader w <> RClosed -> readStep cfg p ev w = Some w' -> reader w' <> RClosed -> Both w'.
Proof.
  intros HI Hncl Hstep Hncl'. pose proof HI as [I H]. unfold readStep in Hstep.
  assert (Hidle : forall e, fin w = false -> (e = Some EEOF -> (n <= rpos w)%nat) -> Both (setRead w (rpos w) RIdle (out w) e)).
  { intros e Hf He. apply Both_reader; try done; [by intros len [?|?]|by intros len b x [?|?]]. }
  destruct (reader w) as [|len|len| |[|]| | |] eqn:Hr; try done;
    try (assert (Hf : fin w = false) by (unfold fin; by rewrite Hr); destruct (cur_buf w I Hf) as (br & x & C1 & C2 & C3 & C4)).
  - destruct (eCall ev) as [len|].
    + rewrite C1, C2 in Hstep. simpl in Hstep. injection Hstep as <-.
      destruct (bool_decide _); [by apply Hidle|]. destruct (len <=? 0) eqn:El; bool_hyps; [done|].
      destruct (bLimit x <=? bOffR x) eqn:E; bool_hyps; [apply bufEnd_both; [done|done|by exists br, x]|].
      refine (Both_reader w (RLoop len) (ended w) HI Hf _ _ _ _ _); try done.
      * intros l [[= <-]|?]; [|done]. split; [done|]. destruct (decide (n <= rpos w)%nat) as [Hn|]; [specialize (C4 Hn)|]; lia.
      * intros l b y _ Hb Hy. assert (b = br) as -> by congruence. assert (y = x) as -> by congruence. done.
      * apply (d_ended _ _ _ _ I).
    + injection Hstep as <-. match goal with |- Both (setReader (cancel w ?c) _) => pose proof (cancel_both w c HI) as Hc end.
      refine (Both_reader _ RClosing (ended w) Hc Hf _ _ _ _ _); try done; [by intros len [?|?]|by intros len b y [?|?]|].
      apply (d_ended _ _ _ _ I).
  - rewrite C1 in Hstep. simpl in Hstep. rewrite C2 in Hstep. simpl in Hstep.
    destruct (bClosed x) eqn:Hcl; [injection Hstep as <-; by apply Hidle|].
    destruct (d_loop _ _ _ _ I len (or_introl Hr)) as [Hlen Hn]. destruct (C3 Hn) as (_ & _ & K & _).
    destruct (offW x =? bOffR x) eqn:E; bool_hyps; injection Hstep as <-.
    + assert (Hfl : Both (setBufs w (<[br := flags x true (bSignal x)]> (bufs w)))).
      { apply flags_both; [done|done|]. intros l. by rewrite Hr. }
      unfold flags in Hfl. rewrite Hcl in Hfl.
      refine (Both_reader _ (RBlocked len) (ended w) Hfl Hf _ _ _ _ _); try done.
      * intros l [?|[= <-]]; done.
      * intros l b y _ Hb Hy. simpl in Hb, Hy. assert (b = br) as -> by congruence.
        rewrite list_lookup_insert_eq in Hy by (by eapply lookup_lt_Some). injection Hy as <-.
        by apply (d_lim _ _ _ _ I len _ x (or_introl Hr) C1).
      * intros l b y [= <-] Hb Hy. simpl in Hb, Hy. assert (b = br) as -> by congruence.
        rewrite list_lookup_insert_eq in Hy by (by eapply lookup_lt_Some). injection Hy as <-. by right.
      * apply (d_ended _ _ _ _ I).
    + destruct K as [K1 K2 K3 K4 K5 K6 K7]. set (k := Z.min len (offW x - bOffR x)).
      pose proof (read_both w len br x k HI Hr C1 C2 ltac:(lia)) as Hrd. rewrite Hcl in Hrd.
      destruct ((k <? len) && _) eqn:Ek; [|exact Hrd]. bool_hyps. refine (bufEnd_both _ Hrd eq_refl _).
      eexists br, _. split; [exact C1|]. split; [simpl; by rewrite list_lookup_insert_eq by (by eapply lookup_lt_Some)|done].
  - rewrite C1 in Hstep. simpl in Hstep. rewrite C2 in Hstep. simpl in Hstep.
    destruct (_ && _); [injection Hstep as <-; by apply Hidle|].
    destruct (bSignal x).
    + injection Hstep as <-. destruct (d_loop _ _ _ _ I len (or_intror Hr)) as [Hlen Hn].
      assert (Hl : Both (setReader w (RLoop len))).
      { refine (Both_reader w (RLoop len) (ended w) HI Hf _ _ _ _ _); try done; [by intros l [[= <-]|?]| |].
        - intros l b y _. apply (d_lim _ _ _ _ I len). by right.
        - apply (d_ended _ _ _ _ I). }
      by apply (flags_both (setReader w (RLoop len)) br x (bPending x) false Hl C2).
    + destruct (_ || _); [|done]. injection Hstep as <-. by apply Hidle.
  - change (bufMap (setReadingID w (Z.of_nat (rpos w)))) with (bufMap w) in Hstep. rewrite (d_map _ _ _ _ I) in Hstep. simpl in Hstep.
    destruct (curBuf w) as [prev|] eqn:Hc; [simpl in Hstep|done]. injection Hstep as <-.
    set (w0 := setReadingID w (Z.of_nat (rpos w))). assert (S0 : sameD w w0) by (by split_and!).
    apply (fin1_both w0 prev); [|done|done]. split; [by eapply sameD_InvD|by eapply sameD_InvH].
  - destruct (sendChunkTask _ _ _ _ _ _) as [[w1 ok]|] eqn:Hs; [simpl in Hstep|done]. injection Hstep as <-. by eapply send2_both.
  - destruct (curBuf w) as [prev|] eqn:Hc; [simpl in Hstep|done]. injection Hstep as <-. by apply close_both.
  - rewrite (d_map _ _ _ _ I) in Hstep. simpl in Hstep. injection Hstep as <-. by apply pop_both.
  - injection Hstep as <-. by destruct Hncl'.
Qed.

Lemma bufEnd_open w o : reader (bufEnd cfg p w o) <> RClosed.
Proof. unfold bufEnd. by destruct (_ <=? _). Qed.

(** Only Close ends in RClosed. *)
Lemma reader_closes ev w w' :
  readStep cfg p ev w = Some w' -> reader w <> RClosed -> reader w' = RClosed -> out w' = out w /\ ended w' = ended w.
Proof.
  unfold readStep. intros Hs Hn Hc. destruct (reader w) as [|len|len| |[|]| | |] eqn:Hr; try done.
  - destruct (eCall ev); [|by injection Hs as <-]. destruct (curBuf w) as [br|]; [|by injection Hs as <-].
    destruct (bufs w !! br) as [x|]; [simpl in Hs|done]. injection Hs as <-. exfalso. revert Hc.
    destruct (bool_decide _); [done|]. destruct (_ <=? 0); [congruence|]. destruct (_ <=? _); [apply bufEnd_open|done].
  - destruct (curBuf w) as [br|]; [simpl in Hs|done]. destruct (bufs w !! br) as [x|]; [simpl in Hs|done]. exfalso. revert Hc.
    destruct (bClosed x); [by injection Hs as <-|]. destruct (_ =? _); [by injection Hs as <-|]. injection Hs as <-.
    destruct (_ && _); [apply bufEnd_open|done].
  - destruct (curBuf w) as [br|]; [simpl in Hs|done]. destruct (bufs w !! br) as [x|]; [simpl in Hs|done]. exfalso. revert Hc.
    destruct (_ && _); [by injection Hs as <-|]. destruct (bSignal x); [by injection Hs as <-|]. destruct (_ || _); by simplify_eq.
  - simpl in Hs. destruct (bufMap w); [simpl in Hs|done]. destruct (curBuf w) as [br|]; [simpl in Hs|done]. injection Hs as <-.
    destruct (_ !! _); done.
  - destruct (sendChunkTask _ _ _ _ _ _) as [[w1 ok]|]; [simpl in Hs|done]. by injection Hs as <-.
  - destruct (curBuf w) as [br|]; [simpl in Hs|done]. by injection Hs as <-.
  - destruct (bufMap w); [simpl in Hs|done]. by injection Hs as <-.
  - injection Hs as <-. simpl. by destruct (maxPos w =? 0).
Qed.

(** What the caller has been given. *)
Lemma InvD_out w : InvD w -> out w `prefix_of` span Start Len /\ (ended w = Some EEOF -> out w = span Start Len).
Proof.
  intros I. assert (Hpre : forall a, 0 <= a <= Len -> span Start a `prefix_of` span Start Len).
  { intros a Ha. rewrite <- (take_span content Start Len a) by lia. apply prefix_take. }
  split; [|intros He; by apply (d_end _ _ _ _ I (d_ended _ _ _ _ I He))].
  destruct (decide (n <= rpos w)%nat) as [Hn|Hn]; [destruct (d_end _ _ _ _ I Hn) as (_ & _ & -> & _); done|].
  destruct (fin w) eqn:Hf.
  - destruct (d_fin _ _ _ _ I Hf) as (_ & _ & ->). apply Hpre. pose proof (chunkStart_nonneg P Len HP HL (rpos w)).
    pose proof (chunkStart_lt P Len HP HL (rpos w) ltac:(lia)). lia.
  - destruct (cur_buf w I Hf) as (br & x & _ & _ & C3 & _). destruct (C3 ltac:(lia)) as (_ & _ & [] & ->).
    apply Hpre. pose proof (chunkStart_nonneg P Len HP HL (rpos w)). pose proof (chunkStart_end P Len HP HL (rpos w) ltac:(lia)). lia.
Qed.

(** ** Reachable states *)
Inductive steps : dl -> dl -> Prop :=
| step_reader ev w w' : step cfg p ev w 0 = Some w' -> steps w w'
| step_worker ev w t q w' :
    workers w !! t = Some q -> honest q (eAnswer ev) -> step cfg p ev w (S t) = Some w' -> steps w w'
| step_cancel w : steps w (cancel w CCanceled).   (* the context of the caller ends *)

Definition reachable (w : dl) : Prop :=
  exists s blockOk choose w0, download cfg p s blockOk choose = Some (SMulti w0) /\ rtc steps w0 w.

Abbreviation Inv := (DownloadSpec.Inv cfg p content).

Lemma Both_Inv w : Both w -> Inv w.
Proof. intros [I H]. destruct (InvD_out w I) as [H1 H2]. by split. Qed.

Lemma dlInv_steps w w' : Inv w -> steps w w' -> Inv w'.
Proof.
  intros [I H O E] Hs. destruct (decide (reader w = RClosed)) as [Hc|Hc].
  - assert (Hsame : out w' = out w /\ ended w' = ended w /\ reader w' = reader w).
    { destruct Hs as [ev w w' Hs|ev w t q w' Hq _ Hs|w].
      - simpl in Hs. unfold readStep in Hs. by rewrite Hc in Hs.
      - simpl in Hs. rewrite Hq in Hs. by eapply worker_out.
      - done. }
    destruct Hsame as (E1 & E2 & E3). split; rewrite ?E1, ?E2, ?E3; done.
  - assert (HI : Both w) by (split; [by apply I|by apply H]).
    destruct Hs as [ev w w' Hs|ev w t q w' Hq Hh Hs|w].
    + destruct (decide (reader w' = RClosed)) as [Hc'|Hc'].
      * destruct (InvD_out w (I Hc)) as [O1 O2].
        assert (Hsame : out w' = out w /\ ended w' = ended w).
        { by eapply reader_closes. }
        destruct Hsame as [E1 E2]. split; rewrite ?E1, ?E2; done.
      * apply Both_Inv. by eapply reader_both.
    + apply Both_Inv. simpl in Hs. rewrite Hq in Hs. by eapply worker_both.
    + apply Both_Inv. by apply cancel_both.
Qed.

(** The start. *)
Context (HC : 0 < cConcurrency cfg).

Lemma concurrency_pos : 0 < concurrencyOf cfg p.
Proof.
  unfold concurrencyOf. rewrite maxPart_n. pose proof (parts_two P Len HP HL). destruct (_ <? _); lia.
Qed.

Definition firstChunk : chunk := mkChunk Start (csize 0) 0 0 true.
Definition start_dl (s : option Z) : dl :=
  mkDl 1 (Some ∅) (Some 0%nat) [mkBuf (csize 0) 0 [] P false false false] (Start + csize 0) (Start + Len)
    (concurrencyOf cfg p - 1) 0 [firstChunk] false None 0 s [WIdle] 0 (Some 0%nat) RIdle [] None.

(** The first chunk is sent. *)
Definition sent_dl (s : option Z) : dl :=
  mkDl 1 (Some (<[0%nat := 0%nat]> ∅)) None [mkBuf (csize 0) 0 [] P false false false] (Start + csize 0) (Start + Len)
    (concurrencyOf cfg p - 1) 0 [firstChunk] false None 0 s [WIdle] 0 None RIdle [] None.

Lemma first_send s blockOk choose :
  exists w, sendChunkTask cfg p true blockOk choose (empty_dl cfg p s) = Some (if blockOk then (sent_dl s, true) else (w, false)).
Proof.
  pose proof (csize_bounds P Len HP HL 0) as Hb. pose proof concurrency_pos as Hc. unfold sendChunkTask, empty_dl.
  cbv beta iota zeta delta [maxPos pos conc nextChunk slots setSlots bufMap andb Nat.ltb Nat.leb].
  destruct (Start + Len <=? Start) eqn:E1; bool_hyps; [lia|].
  destruct (concurrencyOf cfg p <=? 0) eqn:E2; bool_hyps; [lia|]. unfold getBuf. cbn [nextChunk]. rewrite lookup_empty.
  destruct blockOk; [|by eexists].
  cbv beta iota zeta delta [setBufMap setBufs bufs nextChunk lastBuf pos maxPos conc readingID chan chanClosed cancelled written
    slots workers rpos curBuf reader out ended app length lookup list_lookup mbind option_bind].
  rewrite (reset_fresh cfg p HP HL) by done. unfold queueChunk.
  cbv beta iota zeta delta [setBufMap setBufs setNext setChan setWorkers setConc bufMap bufs nextChunk lastBuf pos maxPos conc
    readingID chan chanClosed cancelled written slots workers rpos curBuf reader out ended].
  rewrite bool_decide_eq_false_2 by (by intros [? ?]). cbn [andb length].
  destruct (Z.of_nat 0 <? concurrencyOf cfg p) eqn:E3; bool_hyps; [|lia]. by exists (sent_dl s).
Qed.

Lemma download_start s blockOk choose w0 :
  download cfg p s blockOk choose = Some (SMulti w0) -> exists s', Acquire s = Some s' /\ w0 = start_dl s'.
Proof.
  unfold download. destruct (Acquire s) as [s'|]; [|done]. rewrite maxPart_n. pose proof (parts_two P Len HP HL).
  destruct (Z.of_nat n =? 1) eqn:E; bool_hyps; [lia|]. destruct (first_send s' blockOk choose) as (w & ->).
  destruct blockOk; [|done]. cbn [mbind option_bind fst snd bufMap sent_dl]. unfold popBuf. rewrite lookup_insert_eq.
  intros [= <-]. exists s'. split; [done|]. unfold sent_dl, setCur, setBufMap, start_dl.
  cbn [bufMap bufs nextChunk lastBuf pos maxPos conc readingID chan chanClosed cancelled written slots workers rpos curBuf reader out ended].
  by rewrite delete_insert_eq, delete_empty.
Qed.

Lemma start_both s : Both (start_dl s).
Proof.
  pose proof (parts_two P Len HP HL). pose proof (csize_bounds P Len HP HL 0) as Hb.
  assert (Ha : forall i, active (start_dl s) i -> i = 0%nat) by (intros i [? Hi]; simpl in Hi; lia).
  split.
  - split; try done; [simpl; lia|..].
    + intros i ->%Ha. exists 0%nat, (mkBuf (csize 0) 0 [] P false false false). split_and!; [done|done|]. split; unfold offW; simpl; try done; lia.
    + by intros i j b ->%Ha ->%Ha.
    + intros [?|?]; done.
    + intros [?|?]; done.
    + intros b x _ _ Hbo Hx. unfold bo in Hbo. simpl in Hbo. injection Hbo as <-. injection Hx as <-. done.
    + simpl. lia.
    + simpl. lia.
    + by intros len [?|?].
    + by intros len b x [?|?].
  - split.
    + constructor; [|done]. split; unfold tid, trest; simpl; try lia.
      * rewrite chunkStart_S. unfold chunkStart. lia.
      * unfold chunkStart. lia.
      * apply prefix_nil.
      * intros _. eexists. split_and!; [done|done|]. unfold offW, chunkStart. simpl. lia.
    + apply NoDup_singleton.
    + intros i _ ->%Ha _. by left.
Qed.

Lemma dlInv_reachable w : reachable w -> Inv w.
Proof.
  intros (s & blockOk & choose & w0 & H0 & Hs). apply download_start in H0 as (s' & _ & ->).
  assert (H : Inv (start_dl s')) by apply Both_Inv, start_both. revert H. induction Hs as [|w1 w2 w3 Hs _ IH]; [done|].
  intros H. apply IH. by eapply dlInv_steps.
Qed.
End Sys.
