(* ===== verification/DownloadLive.v ===== *)
(** The downloader as a whole: what the caller is given, that no Read waits for
    nothing, the accounting of the connections, and two ways in which status
    errors of the remote side defeat it. *)
From S2P Require Import Prelude GoString GoPath Download DownloadSpec DownloadSys.

(** A request for more than one part of a file that the settings can serve. *)
Record wellSized (cfg : Downloader) (p : params) (content : list ascii) : Prop := {
  ws_part : 0 < cPartSize cfg;
  ws_parts : cPartSize cfg < pLength p;
  ws_start : 0 <= pStart p;
  ws_end : pStart p + pLength p <= Z.of_nat (length content);
  ws_width : pLength p + cPartSize cfg < 2 ^ 63;
  ws_conc : 0 < cConcurrency cfg
}.

Section Live.
Context (cfg : Downloader) (p : params) (content : list ascii) (W : wellSized cfg p content).
Abbreviation P := (cPartSize cfg).
Abbreviation Len := (pLength p).
Abbreviation Start := (pStart p).
Abbreviation csize := (finalSize P Len).
Abbreviation n := (parts P Len).
Abbreviation span := (span content).
Abbreviation InvD := (DownloadSpec.InvD cfg p content).
Abbreviation InvH := (DownloadSpec.InvH cfg p content).
Abbreviation Both w := (InvD w /\ InvH w (tasks w) (cancelled w)).
Abbreviation Inv := (DownloadSpec.Inv cfg p content).

Lemma reachable_Inv w : reachable cfg p content w -> Inv w.
Proof. destruct W. by apply dlInv_reachable. Qed.

(** ** Progress *)

(** No status error for a later chunk. *)
Definition noStatus (q : wpc) (a : answer) : Prop :=
  match q, a with WTry c _, AStatus code => ckId c = 0%nat \/ code = 416 | _, _ => True end.

Inductive calmSteps : dl -> dl -> Prop :=
| calm_reader ev w w' : step cfg p ev w 0 = Some w' -> calmSteps w w'
| calm_worker ev w t q w' :
    workers w !! t = Some q -> honest content q (eAnswer ev) -> noStatus q (eAnswer ev) ->
    step cfg p ev w (S t) = Some w' -> calmSteps w w'
| calm_cancel w : calmSteps w (cancel w CCanceled).

Definition calm (w : dl) : Prop :=
  exists s blockOk choose w0, download cfg p s blockOk choose = Some (SMulti w0) /\ rtc calmSteps w0 w.

Lemma calm_steps w w' : calmSteps w w' -> steps cfg p content w w'.
Proof. intros [ev v v' H|ev v t q v' H1 H2 _ H3|v]; [by eapply step_reader|by eapply step_worker|by eapply step_cancel]. Qed.

Definition okpc (q : wpc) : Prop :=
  match q with WStatus _ _ | WRequeue _ | WExit | WPanic => False | _ => True end.
Definition room (w : dl) : nat := match reader w with RFin1 | RFin2 _ => 1 | _ => 0 end.

Record Live (w : dl) : Prop := {
  l_conc : conc w = concurrencyOf cfg p - Z.of_nat (length (workers w)) /\ 0 <= conc w;
  l_one : (1 <= length (workers w))%nat;
  l_pc : Forall okpc (workers w);
  l_chan : Forall (fun c => 0 < ckSize c) (chan w);
  l_room : (nextChunk w + room w <= rpos w + length (workers w))%nat
}.

(** The channel has room for every chunk that is sent. *)
Lemma chan_length w : Both w -> Forall (fun c => 0 < ckSize c) (chan w) -> (length (chan w) + rpos w <= nextChunk w)%nat \/ chan w = [].
Proof.
  intros [I [A U V]] Hc. destruct (chan w) as [|c0 l0] eqn:Ec; [by right|left]. rewrite <- Ec in *.
  assert (Hids : forall c, c ∈ chan w -> (rpos w <= ckId c < nextChunk w)%nat).
  { intros c Hin. rewrite Forall_forall in A. rewrite Forall_forall in Hc. assert (Hk : mkTask c 0 [] ∈ tasks w).
    { unfold tasks. apply elem_of_app. left. apply list_elem_of_fmap. by exists c. }
    pose proof (A _ Hk) as [K1 _ _ _ _ K6 _]. specialize (Hc c Hin). unfold tid, trest in *. simpl in *. split; [apply K6; lia|done]. }
  assert (Hnd : NoDup (map ckId (chan w))).
  { unfold tasks in U. rewrite map_app, map_map in U. apply NoDup_app in U as [U _]. exact U. }
  assert (Hsub : map ckId (chan w) ⊆+ seq (rpos w) (nextChunk w - rpos w)).
  { apply NoDup_submseteq; [done|]. intros i Hi. apply list_elem_of_fmap in Hi as (c & -> & Hin). specialize (Hids c Hin).
    apply elem_of_seq. lia. }
  apply submseteq_length in Hsub. rewrite length_map, length_seq in Hsub. specialize (Hids c0). rewrite Ec in Hids.
  specialize (Hids ltac:(by left)). lia.
Qed.

(** What sendChunkTask does to the channel and the workers. *)
Lemma send_live new blockOk choose w w' ok :
  sendChunkTask cfg p new blockOk choose w = Some (w', ok) -> cancelled w = None ->
  (chan w' = chan w /\ workers w' = workers w /\ conc w' = conc w /\ nextChunk w' = nextChunk w /\
   rpos w' = rpos w /\ reader w' = reader w /\ cancelled w' = cancelled w) \/
  (exists c, chan w' = chan w ++ [c] /\ ckSize c = csize (nextChunk w) /\
   workers w' = workers w ++ (if new then [WIdle] else []) /\ conc w' = conc w - (if new then 1 else 0) /\
   (new = true -> 0 < conc w) /\ nextChunk w' = S (nextChunk w) /\
   rpos w' = rpos w /\ reader w' = reader w /\ cancelled w' = cancelled w).
Proof.
  unfold sendChunkTask. intros H Hc. destruct (_ <=? pos w); [simplify_eq; left; done|].
  destruct (new && (conc w <=? 0)) eqn:En; [simplify_eq; left; done|].
  destruct (if new && _ then _ else _) as [s|]; [|simplify_eq; left; done]. cbv zeta in H.
  set (w0 := setSlots w s) in *. destruct (bufMap w0) as [m|]; [|done].
  assert (Hrel : forall v, (chan v = chan w /\ workers v = workers w /\ conc v = conc w /\ nextChunk v = nextChunk w /\
    rpos v = rpos w /\ reader v = reader w /\ cancelled v = cancelled w) -> forall b : bool, let v' := if b then setSlots v (Release (slots v)) else v in
    chan v' = chan w /\ workers v' = workers w /\ conc v' = conc w /\ nextChunk v' = nextChunk w /\
    rpos v' = rpos w /\ reader v' = reader w /\ cancelled v' = cancelled w) by (intros v Hv []; exact Hv).
  destruct (getBuf cfg w0 m blockOk) as [[w1 br]|] eqn:Hg; [|simplify_eq; left; by apply (Hrel w0)].
  assert (H1 : chan w1 = chan w /\ workers w1 = workers w /\ conc w1 = conc w /\ nextChunk w1 = nextChunk w /\
    rpos w1 = rpos w /\ reader w1 = reader w /\ cancelled w1 = cancelled w).
  { unfold getBuf in Hg. destruct (m !! _); [by simplify_eq|]. destruct blockOk; [by simplify_eq|done]. }
  destruct (bufs w1 !! br ≫= _) as [b|]; [|simplify_eq; left; by apply (Hrel w1)].
  destruct H1 as (E1 & E2 & E3 & E4 & E5 & E6 & E7). unfold queueChunk in H. simpl in H. rewrite E7, Hc in H. simpl in H.
  destruct (chanClosed w1); [done|]. destruct (_ <? _); [|done]. injection H as <- _. right.
  eexists. split; [by destruct new; simpl; rewrite E1|]. simpl. rewrite E4. split; [done|].
  assert (Hn : new = true -> 0 < conc w) by (intros ->; simpl in En; bool_hyps; lia).
  destruct new; simpl; rewrite ?app_nil_r; split_and!; try done; try lia. by rewrite E2.
Qed.

Lemma send_total new blockOk choose w :
  Both w -> Live w -> (new = true \/ room w = 1%nat) -> is_Some (sendChunkTask cfg p new blockOk choose w).
Proof.
  intros HB [[C1 C2] C3 C4 C5 C6] Hn. pose proof (chan_length w HB C5) as Hl. destruct HB as [I _].
  unfold sendChunkTask. destruct (_ <=? pos w); [by eexists|]. destruct (new && (conc w <=? 0)) eqn:En; [by eexists|].
  destruct (if new && _ then _ else _) as [s|]; [|by eexists]. cbv zeta. simpl bufMap. rewrite (d_map _ _ _ _ I).
  destruct (getBuf _ _ _ _) as [[w1 br]|] eqn:Hg; [|by eexists].
  assert (H1 : chan w1 = chan w /\ chanClosed w1 = false).
  { unfold getBuf in Hg. pose proof (d_chan _ _ _ _ I). destruct (bm w !! _); [by simplify_eq|]. destruct blockOk; [by simplify_eq|done]. }
  destruct (bufs w1 !! br ≫= _) as [b|]; [|by eexists]. destruct H1 as (E1 & E2). unfold queueChunk. simpl. rewrite E1, E2.
  destruct (_ && choose); [by eexists|]. assert (Hlt : Z.of_nat (length (chan w)) < concurrencyOf cfg p).
  { destruct Hl as [Hl| ->]; [|simpl; lia]. destruct Hn as [-> |Hn]; [simpl in En; bool_hyps; lia|lia]. }
  destruct (_ <? concurrencyOf cfg p) eqn:E; bool_hyps; [by eexists|lia].
Qed.

Lemma start_live s : Live (start_dl cfg p s).
Proof.
  destruct W. assert (HC : 0 < concurrencyOf cfg p) by (by apply (concurrency_pos cfg p content)).
  pose proof (csize_bounds P Len ws_part0 ws_parts0 0). split; simpl; try lia.
  - by constructor.
  - constructor; [simpl; lia|done].
  - unfold room. simpl. lia.
Qed.

(** Workers. *)
Lemma set_live w w' t q q' :
  workers w !! t = Some q -> workers w' = <[t := q']> (workers w) -> okpc q' ->
  conc w' = conc w -> chan w' = chan w -> nextChunk w' = nextChunk w -> rpos w' = rpos w -> reader w' = reader w ->
  Live w -> Live w'.
Proof.
  intros Hq Hw Ho E1 E2 E3 E4 E5 [C1 C2 C3 C4 C5]. split; rewrite ?Hw, ?E1, ?E2, ?E3, ?E4, ?length_insert; try done.
  - by apply Forall_insert.
  - unfold room. by rewrite E5.
Qed.

Lemma retry_live w t q c retry k :
  workers w !! t = Some q -> cancelled (retryChunk cfg w t c retry k) = None -> Live w ->
  Live (retryChunk cfg w t c retry k) /\ cancelled w = None.
Proof.
  intros Hq. unfold retryChunk. destruct (bool_decide _) eqn:E; bool_hyps.
  { intros Hc. simpl in Hc. rewrite Hc in E. by destruct E. }
  destruct (cancelled w) as [x|] eqn:Hx; [by destruct E|].
  destruct (0 <? k), (S retry <=? cMaxRetries cfg)%nat; intros Hc HL; try (split; [by eapply set_live|done]);
    simpl in Hc; by rewrite Hx in Hc.
Qed.

Lemma copy_live w t c retry k r piece w' :
  workers w !! t = Some (WCopy c retry k r) -> copyPiece cfg w t c retry k r piece = Some w' -> cancelled w' = None ->
  Live w -> Live w' /\ cancelled w = None.
Proof.
  intros Hq Hs Hc HL. unfold copyPiece in Hs. destruct (rBody r) as [|a body].
  { injection Hs as <-. destruct (rFails r); [by eapply retry_live|]. destruct (k =? ckSize c); [|by eapply retry_live].
    split; [by eapply set_live|done]. }
  destruct (bool_decide (_ = [])); [done|]. destruct (bool_decide _); [injection Hs as <-; by eapply retry_live|].
  destruct (bufs w !! ckBuf c) as [x|]; [simpl in Hs|done].
  destruct (bClosed x); [injection Hs as <-; by eapply retry_live|].
  destruct (_ <=? 0); [injection Hs as <-; by eapply retry_live|].
  set (w1 := setBufs w _) in *. assert (HL1 : Live w1) by (destruct HL; by split).
  destruct (_ <? _)%nat; injection Hs as <-; [by apply (retry_live w1 t (WCopy c retry k r))|].
  split; [by eapply (set_live w1)|done].
Qed.

Lemma worker_live ev w t q w' :
  workers w !! t = Some q -> noStatus q (eAnswer ev) -> workerStep cfg p ev w t q = Some w' ->
  Both w -> cancelled w' = None -> Live w -> Live w' /\ cancelled w = None.
Proof.
  intros Hq Hns Hs HB Hc HL. pose proof HL as [C1 C2 C3 C4 C5]. rewrite Forall_lookup in C3. specialize (C3 t q Hq).
  assert (Hfail : cancelled (failChunk w t) = None -> False) by (simpl; by destruct (cancelled w)).
  destruct q as [|c retry|c retry r|c retry nn r|c retry|c|c retry inf| |]; simpl in Hs; try done.
  - destruct (bool_decide _ && _) eqn:E; bool_hyps.
    { injection Hs as <-. simpl in Hc. rewrite Hc in H. by destruct H. }
    destruct (chan w) as [|c l] eqn:Hch.
    + destruct (chanClosed w || _) eqn:E2; [|done]. injection Hs as <-. simpl in Hc. rewrite Hc in E2.
      rewrite (d_chan _ _ _ _ (proj1 HB)) in E2. done.
    + injection Hs as <-. split; [|done]. apply Forall_cons in C4 as [C4 C4']. destruct HL. split; simpl; rewrite ?length_insert; try done.
      by apply Forall_insert.
  - destruct (eAnswer ev) as [r|code|]; injection Hs as <-; [| |by destruct Hfail].
    + destruct (_ && _); [by destruct Hfail|]. split; [by eapply set_live|done].
    + destruct (code =? 416) eqn:E; bool_hyps; [by destruct Hfail|]. simpl in Hns. destruct Hns as [Hz|]; [|done].
      rewrite Hz in *. simpl in *. destruct (retriable code); [|by destruct Hfail]. split; [by eapply set_live|done].
  - destruct (sendChunkTask _ _ _ _ _ _) as [[w1 ok]|] eqn:Hsd; [simpl in Hs|done]. injection Hs as <-. simpl in Hc.
    destruct HB as [I H]. destruct W. pose proof (send_spec cfg p content ws_part0 ws_parts0 _ _ _ _ _ _ ws_start0 I H Hsd) as Hsent.
    pose proof (st_cancelled _ _ _ _ _ _ Hsent) as Hcw. rewrite Hcw in Hc. split; [|done].
    destruct (send_live _ _ _ _ _ _ Hsd Hc) as [(E1 & E2 & E3 & E4 & E5 & E6 & E7)|(x & E1 & E2 & E3 & E4 & E5 & E6 & E7 & E8 & E9)].
    + eapply (set_live w1 _ t (WConn c retry r)); try done; [by rewrite E2|]. destruct HL. unfold room in *. split; unfold room; rewrite ?E1, ?E2, ?E3, ?E4, ?E5, ?E6; done.
    + eapply (set_live w1 _ t (WConn c retry r)); try done; [rewrite E3; by apply lookup_app_l_Some|].
      pose proof (csize_bounds P Len ws_part0 ws_parts0 (nextChunk w)). specialize (E5 eq_refl). destruct HL.
      split; unfold room in *; rewrite ?E1, ?E3, ?E4, ?E6, ?E7, ?E8, ?length_app; simpl; try lia.
      * apply Forall_app. split; [done|]. by constructor.
      * apply Forall_app. split; [done|]. constructor; [|done]. lia.
  - by eapply copy_live.
  - destruct (bool_decide _ && _) eqn:E; bool_hyps.
    { injection Hs as <-. simpl in Hc. rewrite Hc in H. by destruct H. }
    injection Hs as <-. destruct inf; [split; [by eapply set_live|done]|by eapply retry_live].
Qed.

(** The reader. *)
Lemma live_ext w w' :
  conc w' = conc w -> workers w' = workers w -> chan w' = chan w -> nextChunk w' = nextChunk w ->
  (room w' + rpos w <= room w + rpos w')%nat -> Live w -> Live w'.
Proof. intros E1 E2 E3 E4 E5 []. split; rewrite ?E1, ?E2, ?E3, ?E4; try done. lia. Qed.

Lemma bufEnd_live w o : Live w -> room w = 0%nat -> Live (bufEnd cfg p w o).
Proof.
  intros HL Hr. unfold bufEnd. destruct (_ <=? _); (eapply live_ext; [..|exact HL]; try done);
    unfold room at 1; simpl; lia.
Qed.

Lemma reader_live ev w w' :
  readStep cfg p ev w = Some w' -> Both w -> cancelled w' = None -> reader w' <> RClosed -> Live w -> Live w' /\ cancelled w = None.
Proof.
  intros Hs HB Hc Hncl HL. unfold readStep in Hs.
  assert (Hext : forall v, conc v = conc w -> workers v = workers w -> chan v = chan w -> nextChunk v = nextChunk w ->
    (room v + rpos w <= room w + rpos v)%nat -> cancelled w = None -> Live v /\ cancelled w = None)
    by (intros; split; [by eapply live_ext|done]).
  destruct (reader w) as [|len|len| |[|]| | |] eqn:Hr; try done.
  - destruct (eCall ev) as [len|]; [|injection Hs as <-; simpl in Hc; by destruct (cancelled w)].
    assert (Hrm : room w = 0%nat) by (unfold room; by rewrite Hr).
    destruct (curBuf w) as [br|]; [|injection Hs as <-; by apply Hext; try (unfold room at 1; simpl; lia)].
    destruct (bufs w !! br) as [b|]; [simpl in Hs|done]. injection Hs as <-. destruct (bool_decide _); [by apply Hext; try (unfold room at 1; simpl; lia)|].
    destruct (len <=? 0); [by split|]. destruct (_ <=? _); [|by apply Hext; try (unfold room at 1; simpl; lia)].
    split; [by apply bufEnd_live|]. revert Hc. unfold bufEnd. by destruct (_ <=? _).
  - assert (Hrm : room w = 0%nat) by (unfold room; by rewrite Hr).
    destruct (curBuf w) as [br|]; [simpl in Hs|done]. destruct (bufs w !! br) as [b|]; [simpl in Hs|done].
    destruct (bClosed b); [injection Hs as <-; by apply Hext; try (unfold room at 1; simpl; lia)|].
    destruct (_ =? _); [injection Hs as <-; by apply Hext; try (unfold room at 1; simpl; lia)|].
    injection Hs as <-. destruct (_ && _); [|by apply Hext; try (unfold room at 1; simpl; lia)].
    split; [apply bufEnd_live; [by apply (live_ext w)|]; unfold room; simpl; by rewrite Hr|]. revert Hc. unfold bufEnd. by destruct (_ <=? _).
  - assert (Hrm : room w = 0%nat) by (unfold room; by rewrite Hr).
    destruct (curBuf w) as [br|]; [simpl in Hs|done]. destruct (bufs w !! br) as [b|]; [simpl in Hs|done].
    destruct (_ && _); [injection Hs as <-; by apply Hext; try (unfold room at 1; simpl; lia)|].
    destruct (bSignal b); [injection Hs as <-; by apply Hext; try (unfold room at 1; simpl; lia)|].
    destruct (_ || _); [|done]. injection Hs as <-; by apply Hext; try (unfold room at 1; simpl; lia).
  - assert (Hrm : room w = 1%nat) by (unfold room; by rewrite Hr).
    simpl in Hs. destruct (bufMap w); [simpl in Hs|done]. destruct (curBuf w) as [br|]; [simpl in Hs|done].
    injection Hs as <-. destruct (_ !! _); apply Hext; try done; unfold room at 1; simpl; lia.
  - assert (Hrm : room w = 1%nat) by (unfold room; by rewrite Hr).
    destruct (sendChunkTask _ _ _ _ _ _) as [[w1 ok]|] eqn:Hsd; [simpl in Hs|done]. injection Hs as <-. simpl in Hc.
    destruct HB as [I H]. destruct W. pose proof (send_spec cfg p content ws_part0 ws_parts0 _ _ _ _ _ _ ws_start0 I H Hsd) as Hsent.
    pose proof (st_cancelled _ _ _ _ _ _ Hsent) as Hcw. rewrite Hcw in Hc. split; [|done].
    destruct (send_live _ _ _ _ _ _ Hsd Hc) as [(E1 & E2 & E3 & E4 & E5 & E6 & E7)|(x & E1 & E2 & E3 & E4 & E5 & E6 & E7 & E8 & E9)].
    + eapply live_ext; [..|exact HL]; try done. unfold room at 1. simpl. lia.
    + pose proof (csize_bounds P Len ws_part0 ws_parts0 (nextChunk w)). rewrite app_nil_r in E3. destruct HL.
      split; simpl; rewrite ?E1, ?E3, ?E4, ?E6, ?E7; simpl; try done; try lia.
      * apply Forall_app. split; [done|]. constructor; [|done]. lia.
      * unfold room at 1. simpl. lia.
  - assert (Hrm : room w = 1%nat) by (unfold room; by rewrite Hr).
    destruct (curBuf w) as [br|]; [simpl in Hs|done]. injection Hs as <-. apply Hext; try done; unfold room at 1; simpl; lia.
  - assert (Hrm : room w = 0%nat) by (unfold room; by rewrite Hr).
    destruct (bufMap w) as [m|]; [simpl in Hs|done]. injection Hs as <-. unfold popBuf in *.
    destruct (m !! rpos w); (apply Hext; try done; unfold room at 1; simpl; lia).
  - injection Hs as <-. by destruct Hncl.
Qed.

(** A cancelled downloader stays cancelled. *)
Lemma send_cancelled new blockOk choose w w' ok :
  sendChunkTask cfg p new blockOk choose w = Some (w', ok) -> cancelled w' = cancelled w.
Proof.
  unfold sendChunkTask, getBuf, queueChunk. intros H. repeat destr_in H; repeat (destr_goal || simplify_eq); done.
Qed.

Lemma step_mono ev w t w' : step cfg p ev w t = Some w' -> cancelled w' = None -> cancelled w = None.
Proof.
  assert (Hr : forall v t c r k, cancelled (retryChunk cfg v t c r k) = None -> cancelled v = None).
  { intros v t0 c r k. unfold retryChunk. destruct (bool_decide _); [done|].
    destruct (0 <? k), (S r <=? cMaxRetries cfg)%nat; simpl; by destruct (cancelled v). }
  assert (Hcan : forall v c, cancelled (cancel v c) = None -> cancelled v = None) by (intros v c; simpl; by destruct (cancelled v)).
  destruct t as [|t]; simpl; intros Hs Hc.
  - unfold readStep in Hs. destruct (reader w) as [|len|len| |[|]| | |].
    + destruct (eCall ev); [|injection Hs as <-; simpl in Hc; by destruct (cancelled w)].
      destruct (curBuf w) as [br|]; [|by simplify_eq].
      destruct (bufs w !! br); [simpl in Hs|done]. injection Hs as <-. revert Hc. unfold bufEnd. repeat destr_goal; done.
    + destruct (curBuf w) as [br|]; [simpl in Hs|done]. destruct (bufs w !! br); [simpl in Hs|done].
      revert Hc. unfold bufEnd in Hs. repeat destr_in Hs; simplify_eq; done.
    + destruct (curBuf w) as [br|]; [simpl in Hs|done]. destruct (bufs w !! br); [simpl in Hs|done].
      repeat destr_in Hs; simplify_eq; done.
    + simpl in Hs. destruct (bufMap w); [simpl in Hs|done]. destruct (curBuf w); [simpl in Hs|done]. repeat destr_in Hs; simplify_eq; done.
    + destruct (sendChunkTask _ _ _ _ _ _) as [[w1 ok]|] eqn:Hsd; [simpl in Hs|done]. simplify_eq. apply send_cancelled in Hsd. by rewrite <- Hsd.
    + destruct (curBuf w); [simpl in Hs|done]. by simplify_eq.
    + destruct (bufMap w); [simpl in Hs|done]. injection Hs as <-. revert Hc. unfold popBuf. by destruct (_ !! _).
    + injection Hs as <-. revert Hc. simpl. by destruct (maxPos w =? 0).
    + done.
  - destruct (workers w !! t) as [q|]; [simpl in Hs|done].
    destruct q as [|c retry|c retry r|c retry nn r|c retry|c|c retry inf| |]; simpl in Hs; try done.
    + repeat destr_in Hs; simplify_eq; done.
    + destruct (eAnswer ev); injection Hs as <-; revert Hc; repeat destr_goal; try done; apply Hcan.
    + destruct (sendChunkTask _ _ _ _ _ _) as [[w1 ok]|] eqn:Hsd; [simpl in Hs|done]. simplify_eq. apply send_cancelled in Hsd. by rewrite <- Hsd.
    + unfold copyPiece in Hs. destruct (rBody r) as [|a body].
      { injection Hs as <-. revert Hc. destruct (rFails r); [apply Hr|]. destruct (_ =? _); [done|apply Hr]. }
      destruct (bool_decide (_ = [])); [done|]. destruct (bool_decide (is_Some _)); [injection Hs as <-; by eapply Hr|].
      destruct (bufs w !! ckBuf c) as [x|]; [simpl in Hs|done].
      destruct (bClosed x); [injection Hs as <-; by eapply Hr|]. destruct (_ <=? 0); [injection Hs as <-; by eapply Hr|].
      destruct (_ <? _)%nat; injection Hs as <-; [by apply (Hr (setBufs w _) t) in Hc|done].
    + repeat destr_in Hs; simplify_eq; done.
    + repeat destr_in Hs; simplify_eq; done.
    + destruct (_ && _); injection Hs as <-; [done|]. destruct inf; [done|by eapply Hr].
Qed.

Record Calm (w : dl) : Prop := {
  calm_inv : Inv w;
  calm_live : cancelled w = None -> reader w <> RClosed -> Live w
}.

Lemma Calm_steps w w' : Calm w -> calmSteps w w' -> Calm w'.
Proof.
  intros [HI HL] Hs. assert (HI' : Inv w') by (destruct W; eapply dlInv_steps; [..|exact HI|by apply calm_steps]; done).
  split; [done|]. intros Hc Hr.
  assert (Hr0 : reader w = RClosed -> reader w' = RClosed).
  { intros E. destruct Hs as [ev v v' Hs|ev v t q v' Hq _ _ Hs|v]; [|simpl in Hs; rewrite Hq in Hs; apply worker_out in Hs as (_ & _ & ->); done|done].
    simpl in Hs. unfold readStep in Hs. by rewrite E in Hs. }
  assert (Hr1 : reader w <> RClosed) by (intros E; by apply Hr, Hr0).
  assert (HB : Both w) by (split; [by apply (inv_d _ _ _ _ HI)|by apply (inv_h _ _ _ _ HI)]).
  destruct Hs as [ev v v' Hs|ev v t q v' Hq Hh Hn Hs|v].
  - pose proof (step_mono _ _ _ _ Hs Hc) as Hcv. by eapply reader_live; [..|by apply HL].
  - pose proof (step_mono _ _ _ _ Hs Hc) as Hcv. simpl in Hs. rewrite Hq in Hs. by eapply worker_live; [..|by apply HL].
  - simpl in Hc. by destruct (cancelled v).
Qed.

Lemma Calm_reachable w : calm w -> Calm w.
Proof.
  intros (s & blockOk & choose & w0 & H0 & Hs). pose proof W as [W1 W2 W3 W4 W5 W6].
  apply (download_start cfg p content) in H0 as (s' & _ & ->); try done.
  assert (H : Calm (start_dl cfg p s')) by (split; [by apply Both_Inv, start_both|intros _ _; apply start_live]).
  revert H. induction Hs as [|w1 w2 w3 Hs _ IH]; [done|]. intros H. apply IH. by eapply Calm_steps.
Qed.

(** A worker that is not waiting can take a step. *)
Lemma busy_steps w t q :
  Both w -> Live w -> workers w !! t = Some q -> q <> WIdle \/ chan w <> [] ->
  exists ev w', step cfg p ev w (S t) = Some w' /\ honest content q (eAnswer ev) /\ noStatus q (eAnswer ev).
Proof.
  intros HB HL Hq Hb. pose proof (l_pc _ HL) as Hpc. rewrite Forall_lookup in Hpc. specialize (Hpc t q Hq).
  assert (Hgo : forall w', workerStep cfg p (mkEvent AError 1 true false (CRead 1)) w t q = Some w' ->
    exists ev w', step cfg p ev w (S t) = Some w' /\ honest content q (eAnswer ev) /\ noStatus q (eAnswer ev)).
  { intros w' Hs. exists (mkEvent AError 1 true false (CRead 1)), w'. simpl. rewrite Hq. simpl. split; [done|]. by destruct q. }
  destruct q as [|c retry|c retry r|c retry k r|c retry|c|c retry inf| |]; try done.
  - destruct Hb as [Hb|Hb]; [done|]. simpl in Hgo. rewrite andb_false_r in Hgo. destruct (chan w); [done|]. by eapply Hgo.
  - by eapply Hgo.
  - destruct (send_total true true false w HB HL ltac:(by left)) as [[w1 ok] Hs]. simpl in Hgo. rewrite Hs in Hgo. by eapply Hgo.
  - simpl in Hgo. unfold copyPiece in Hgo. destruct (rBody r) as [|a body] eqn:Er; [by eapply Hgo|].
    destruct HB as [I [A U V]]. assert (Hk : mkTask c k (rBody r) ∈ tasks w).
    { unfold tasks. apply elem_of_app. right. apply list_elem_of_omap. exists (WCopy c retry k r). split; [by eapply list_elem_of_lookup_2|done]. }
    rewrite Forall_forall in A. destruct (A _ Hk) as [K1 K2 K3 K4 K5 K6 K7]. simpl tb in K5. rewrite Er in K5.
    unfold tid, trest in *. simpl in *. assert (Hr : 0 < ckSize c - k).
    { destruct (decide (ckSize c - k = 0)) as [E|]; [|lia]. rewrite E in K5. rewrite span_0 in K5. by apply prefix_nil_inv in K5. }
    destruct (K7 (K6 Hr)) as (x & X1 & X2 & X3). rewrite X2 in Hgo. simpl in Hgo.
    destruct (bool_decide (is_Some (cancelled w))); [by eapply Hgo|]. destruct (bClosed x); [by eapply Hgo|].
    destruct (_ <=? 0); [by eapply Hgo|]. destruct (_ <? _)%nat; by eapply Hgo.
  - simpl in Hgo. rewrite andb_false_r in Hgo. by eapply Hgo.
Qed.

(** The caller and the remote side, without the end of the caller's context. *)
Definition moves (w : dl) : Prop :=
  (exists ev w', step cfg p ev w 0 = Some w') \/
  exists t q ev w', workers w !! t = Some q /\ step cfg p ev w (S t) = Some w' /\ honest content q (eAnswer ev) /\ noStatus q (eAnswer ev).

Lemma calm_moves w : Calm w -> reader w <> RClosed -> moves w.
Proof.
  intros [HI HL] Hr. assert (HB : Both w) by (split; [by apply (inv_d _ _ _ _ HI)|by apply (inv_h _ _ _ _ HI)]).
  pose proof (proj1 HB) as I. set (ev0 := mkEvent AError 1 true true (CRead 1)).
  assert (Hgo : forall w', readStep cfg p ev0 w = Some w' -> moves w) by (intros w' Hs; left; by exists ev0, w').
  assert (Hcur : fin w = false -> exists br x, curBuf w = Some br /\ bufs w !! br = Some x).
  { destruct W. intros Hf. destruct (cur_buf cfg p content w I Hf) as (br & x & C1 & C2 & _). by exists br, x. }
  assert (Hcd : (exists ca, cancelled w = Some ca) \/ cancelled w = None) by (destruct (cancelled w); eauto).
  unfold readStep in Hgo. destruct (reader w) as [|len|len| |[|]| | |] eqn:Er; try done;
    try (destruct (Hcur ltac:(unfold fin; by rewrite Er)) as (br & x & C1 & C2); rewrite C1 in Hgo; simpl in Hgo; rewrite C2 in Hgo; simpl in Hgo).
  - by eapply Hgo.
  - destruct (bClosed x); [by eapply Hgo|]. destruct (_ =? _); by eapply Hgo.
  - destruct Hcd as [[ca Hc]|Hc]; rewrite Hc in Hgo; [by eapply Hgo|]. simpl in Hgo. destruct (bSignal x) eqn:Hs; [by eapply Hgo|]. clear Hgo.
    destruct (d_blocked _ _ _ _ I len br x Er C1 C2) as [?|[_ Ho]]; [congruence|].
    assert (HLw : Live w) by (apply HL; congruence). assert (Hf : fin w = false) by (unfold fin; by rewrite Er).
    pose proof W as [W1 W2 W3 W4 W5 W6].
    destruct (cur_buf cfg p content w I Hf) as (br' & x' & C1' & C2' & C3 & _). assert (br' = br) as -> by congruence.
    assert (x' = x) as -> by congruence. destruct (C3 (proj2 (d_loop _ _ _ _ I len (or_intror Er)))) as (Ha & Hb & K & _).
    pose proof (d_lim _ _ _ _ I len br x (or_intror Er) C1 C2) as Hlim. destruct K as [K1 K2 K3 K4 K5 K6 K7].
    assert (Hu : unfinished cfg p w (rpos w)) by (exists br, x; split_and!; [done|done|lia]).
    pose proof (h_live _ _ _ _ _ _ (proj2 HB) _ Hc Ha Hu) as Hin. apply list_elem_of_fmap in Hin as (k & _ & Hk).
    unfold tasks in Hk. apply elem_of_app in Hk as [Hk|Hk].
    + assert (Hne : chan w <> []) by (intros E; rewrite E in Hk; by apply not_elem_of_nil in Hk).
      destruct (workers w !! 0%nat) as [q|] eqn:Hq.
      * destruct (busy_steps w 0 q HB HLw Hq ltac:(by right)) as (ev & w' & S1 & S2 & S3). right. by exists 0%nat, q, ev, w'.
      * apply lookup_ge_None in Hq. pose proof (l_one _ HLw). lia.
    + apply list_elem_of_omap in Hk as (q & Hq & Ht). apply list_elem_of_lookup in Hq as [t Hq].
      destruct (busy_steps w t q HB HLw Hq ltac:(left; by intros ->)) as (ev & w' & S1 & S2 & S3). right. by exists t, q, ev, w'.
  - assert (Hm : bufMap w = Some (bm w)) by apply (d_map _ _ _ _ I). simpl in Hgo. rewrite Hm in Hgo. simpl in Hgo.
    destruct (d_prev1 _ _ _ _ I (or_introl Er)) as (b & P1 & _). rewrite P1 in Hgo. by eapply Hgo.
  - destruct (sendChunkTask cfg p false (eBlock ev0) (eChoose ev0) w) as [[w1 ok]|] eqn:Hs; [by eapply Hgo|]. exfalso.
    destruct Hcd as [[ca Hc]|Hc].
    + revert Hs. unfold sendChunkTask. simpl. destruct (_ <=? pos w); [done|]. rewrite (d_map _ _ _ _ I).
      destruct (getBuf _ _ _ _) as [[w1 br]|] eqn:Hg; [|done].
      assert (H1 : cancelled w1 = cancelled w).
      { unfold getBuf in Hg. destruct (bm w !! _); by simplify_eq. }
      destruct (bufs w1 !! br ≫= _); [|done]. unfold queueChunk. simpl. rewrite H1, Hc. done.
    + assert (HLw : Live w) by (apply HL; congruence).
      destruct (send_total false (eBlock ev0) (eChoose ev0) w HB HLw) as [y Hy]; [right; unfold room; by rewrite Er|]. congruence.
  - destruct (d_prev1 _ _ _ _ I (or_intror Er)) as (b & P1 & _). rewrite P1 in Hgo. by eapply Hgo.
  - rewrite (d_map _ _ _ _ I) in Hgo. by eapply Hgo.
  - by eapply Hgo.
Qed.
End Live.

(** C11: the remote side delivers bytes of the range it is asked for, in order. Then,
    whatever the interleaving of the workers and the reader, however many bytes
    each response delivers before it ends or fails, and whichever chunks are
    retried or handed to other workers: what Read has returned is always a prefix
    of the requested range of the file, and all of it when Read has answered
    EOF. *)
Theorem download_delivers cfg p content w (W : wellSized cfg p content) (R : reachable cfg p content w) :
  out w `prefix_of` span content (pStart p) (pLength p) /\
  (ended w = Some EEOF -> out w = span content (pStart p) (pLength p)).
Proof. destruct (reachable_Inv cfg p content W w R) as [_ _ H1 H2]. done. Qed.

(** C34: as long as the remote side answers later chunks with no status error, the
    caller never waits for nothing: until the downloader is closed the reader or a
    worker can take a step. *)
Theorem download_progress cfg p content w (W : wellSized cfg p content) (R : calm cfg p content w)
  (Hr : reader w <> RClosed) : moves cfg p content w.
Proof. apply calm_moves; [done|by apply Calm_reachable|done]. Qed.

(** ** Connections *)
Definition alive (q : wpc) : Z := match q with WExit => 0 | _ => 1 end.
Fixpoint liveCount (l : list wpc) : Z := match l with [] => 0 | q :: l => alive q + liveCount l end.

Lemma liveCount_app l1 l2 : liveCount (l1 ++ l2) = liveCount l1 + liveCount l2.
Proof. induction l1 as [|q l1 IH]; simpl; lia. Qed.

Lemma liveCount_set l t q q' : l !! t = Some q -> liveCount (<[t := q']> l) = liveCount l - alive q + alive q'.
Proof.
  revert t. induction l as [|x l IH]; intros [|t]; simpl; try done; [intros [= ->]; lia|].
  intros H. rewrite (IH t) by done. lia.
Qed.

Lemma liveCount_nonneg l : 0 <= liveCount l.
Proof. induction l as [|q l IH]; simpl; [lia|]. destruct q; simpl; lia. Qed.

Lemma liveCount_pos l t q : l !! t = Some q -> alive q <= liveCount l.
Proof.
  revert t. induction l as [|x l IH]; intros [|t]; simpl; try done.
  - intros [= ->]. pose proof (liveCount_nonneg l). lia.
  - intros H. specialize (IH t H). destruct x; simpl; lia.
Qed.

Section Slots.
Context (cfg : Downloader) (p : params) (l0 : Z) (Hl0 : l0 < 2 ^ 32).

(** Free connections and running workers make up the limit. *)
Definition balanced (w : dl) : Prop :=
  (1 <= nextChunk w)%nat /\ exists l, slots w = Some l /\ 0 <= l /\ l + liveCount (workers w) = l0.

Lemma balanced_ext w w' : nextChunk w' = nextChunk w -> slots w' = slots w -> liveCount (workers w') = liveCount (workers w) ->
  balanced w -> balanced w'.
Proof. intros E1 E2 E3. unfold balanced. by rewrite E1, E2, E3. Qed.

Lemma balanced_exit w t q : workers w !! t = Some q -> q <> WExit -> balanced w -> balanced (exitWorker w t).
Proof.
  intros Hq Hne (Hn & l & H1 & H2 & H3). split; [done|]. exists (l + 1). simpl. rewrite H1. simpl.
  pose proof (liveCount_pos _ _ _ Hq). rewrite (liveCount_set _ _ _ _ Hq). simpl.
  assert (alive q = 1) by (by destruct q). split_and!; [f_equal; apply Z.mod_small; lia|lia|lia].
Qed.

Lemma balanced_set w t q q' : workers w !! t = Some q -> q <> WExit -> q' <> WExit -> balanced w -> balanced (setWorker w t q').
Proof.
  intros Hq H1 H2. apply balanced_ext; try done. simpl. rewrite (liveCount_set _ _ _ _ Hq).
  assert (alive q = 1) by (by destruct q). assert (alive q' = 1) by (by destruct q'). lia.
Qed.

Lemma balanced_retry w t q c retry k : workers w !! t = Some q -> q <> WExit -> balanced w -> balanced (retryChunk cfg w t c retry k).
Proof.
  intros Hq H1 HB. unfold retryChunk. destruct (bool_decide _); [by eapply balanced_exit|].
  destruct (0 <? k), (_ <=? _)%nat; try (by eapply balanced_set); try (by eapply (balanced_exit (cancel _ _))).
Qed.

Lemma balanced_send new blockOk choose w w' ok :
  balanced w -> sendChunkTask cfg p new blockOk choose w = Some (w', ok) ->
  balanced w' /\ exists ext, workers w' = workers w ++ ext.
Proof.
  intros HB. pose proof HB as (Hn & l & H1 & H2 & H3). unfold sendChunkTask. intros H.
  destruct (_ <=? pos w); [simplify_eq; split; [done|exists []; by rewrite app_nil_r]|].
  destruct (new && (conc w <=? 0)); [simplify_eq; split; [done|exists []; by rewrite app_nil_r]|].
  replace (0 <? nextChunk w)%nat with true in H by (symmetry; by apply Nat.ltb_lt). rewrite andb_true_r, H1 in H.
  destruct (if new then _ else _) as [s|] eqn:Hs; [|simplify_eq; split; [done|exists []; by rewrite app_nil_r]].
  assert (Hacq : exists l', s = Some l' /\ 0 <= l' /\ l' + (if new then 1 else 0) = l).
  { destruct new; [|injection Hs as <-; exists l; split_and!; [done|done|lia]]. simpl in Hs. destruct (l =? 0) eqn:E; bool_hyps; [done|].
    injection Hs as <-. exists (l - 1). split_and!; [done|lia|lia]. }
  destruct Hacq as (l' & -> & Hl' & Hl). cbv zeta in H. set (w0 := setSlots w (Some l')) in *.
  assert (Hrel : forall v, (1 <= nextChunk v)%nat -> slots v = Some l' -> workers v = workers w ->
    let v' := if new then setSlots v (Release (slots v)) else v in balanced v' /\ exists ext, workers v' = workers w ++ ext).
  { intros v V1 V2 V3. pose proof (liveCount_nonneg (workers w)). destruct new; simpl.
    - rewrite V2. simpl. split; [|exists []; by rewrite app_nil_r]. split; [done|]. exists l. simpl. rewrite V3.
      split_and!; [f_equal; rewrite Hl; apply Z.mod_small; lia|lia|lia].
    - split; [|exists []; by rewrite app_nil_r]. split; [done|]. exists l'. rewrite V3. split_and!; [done|done|lia]. }
  destruct (bufMap w0) as [m|]; [|done].
  destruct (getBuf cfg w0 m blockOk) as [[w1 br]|] eqn:Hg; [|simplify_eq; by apply Hrel].
  assert (E : nextChunk w1 = nextChunk w /\ slots w1 = Some l' /\ workers w1 = workers w).
  { unfold getBuf in Hg. destruct (m !! _); [by simplify_eq|]. destruct blockOk; [by simplify_eq|done]. }
  destruct E as (E1 & E2 & E3).
  destruct (bufs w1 !! br ≫= _) as [b|]; [|simplify_eq; apply Hrel; by rewrite ?E1].
  set (w2 := setNext _ _ _) in *. unfold queueChunk in H.
  destruct (bool_decide _ && choose); [injection H as <- <-; by apply (Hrel w2); [simpl; lia|..]|].
  destruct (chanClosed w2); [done|]. destruct (_ <? _).
  - injection H as <- <-. destruct new; simpl; rewrite E3.
    + split; [|by eexists]. split; [simpl; lia|]. exists l'. simpl. rewrite ?E3, liveCount_app. simpl. split_and!; [done|done|lia].
    + split; [|exists []; by rewrite app_nil_r]. split; [simpl; lia|]. exists l'. simpl. rewrite ?E3. split_and!; [done|done|lia].
  - destruct (bool_decide _); [|done]. injection H as <- <-. by apply (Hrel w2); [simpl; lia|..].
Qed.

Lemma balanced_worker ev w t q w' :
  workers w !! t = Some q -> balanced w -> workerStep cfg p ev w t q = Some w' -> balanced w'.
Proof.
  intros Hq HB Hs. assert (Hx : q <> WExit) by (by intros ->).
  assert (Hexit : balanced (exitWorker w t)) by (by eapply balanced_exit).
  assert (Hfail : balanced (failChunk w t)) by (by eapply (balanced_exit (cancel w CError))).
  assert (Hset : forall q', q' <> WExit -> balanced (setWorker w t q')) by (intros; by eapply balanced_set).
  assert (Hret : forall c r k, balanced (retryChunk cfg w t c r k)) by (intros; by eapply balanced_retry).
  destruct q as [|c retry|c retry r|c retry k r|c retry|c|c retry inf| |]; simpl in Hs; try done.
  - destruct (_ && _); [by simplify_eq|]. destruct (chan w) as [|c l]; [destruct (_ || _); by simplify_eq|].
    injection Hs as <-. by apply (balanced_set (setChan w l) t WIdle).
  - destruct (eAnswer ev); injection Hs as <-; repeat destr_goal; try done; by apply Hset.
  - destruct (sendChunkTask _ _ _ _ _ _) as [[w1 ok]|] eqn:Hsd; [simpl in Hs|done]. injection Hs as <-.
    destruct (balanced_send _ _ _ _ _ _ HB Hsd) as [HB1 [ext He]].
    eapply (balanced_set w1 t (WConn c retry r)); try done. rewrite He. by apply lookup_app_l_Some.
  - unfold copyPiece in Hs. destruct (rBody r) as [|a body].
    { injection Hs as <-. destruct (rFails r); [by apply Hret|]. destruct (_ =? _); [|by apply Hret].
      by apply (balanced_set (incrWritten w k) t (WCopy c retry k r)). }
    destruct (bool_decide (_ = [])); [done|]. destruct (bool_decide (is_Some _)); [injection Hs as <-; by apply Hret|].
    destruct (bufs w !! ckBuf c) as [x|]; [simpl in Hs|done].
    destruct (bClosed x); [injection Hs as <-; by apply Hret|]. destruct (_ <=? 0); [injection Hs as <-; by apply Hret|].
    destruct (_ <? _)%nat; injection Hs as <-; [by eapply (balanced_retry (setBufs w _))|by eapply (balanced_set (setBufs w _))].
  - injection Hs as <-. destruct (0 <? conc w); cbn [orb]; [by eapply (balanced_set (setConc (setConc w _) _))|].
    destruct (ckNew c); [by eapply (balanced_set (setConc w _))|]. destruct (_ =? _); by apply Hset.
  - destruct (_ && _); [by simplify_eq|]. destruct (chanClosed w); [injection Hs as <-; by apply Hset|].
    destruct (_ <? _); [injection Hs as <-; by eapply (balanced_exit (setChan w _))|]. destruct (bool_decide _); by simplify_eq.
  - destruct (_ && _); [by simplify_eq|]. injection Hs as <-. destruct inf; [by apply Hset|by apply Hret].
Qed.

Lemma balanced_reader ev w w' : balanced w -> readStep cfg p ev w = Some w' -> balanced w'.
Proof.
  intros HB Hs. assert (Hend : forall v o, balanced v -> balanced (bufEnd cfg p v o)).
  { intros v o Hv. unfold bufEnd. destruct (_ <=? _); by eapply balanced_ext. }
  unfold readStep in Hs. destruct (reader w) as [|len|len| |[|]| | |].
  - destruct (eCall ev); [|injection Hs as <-; by eapply balanced_ext]. destruct (curBuf w) as [br|]; [|injection Hs as <-; by eapply balanced_ext].
    destruct (bufs w !! br); [simpl in Hs|done]. injection Hs as <-. destruct (bool_decide _); [by eapply balanced_ext|].
    destruct (_ <=? 0); [done|]. destruct (_ <=? _); [by apply Hend|by eapply balanced_ext].
  - destruct (curBuf w) as [br|]; [simpl in Hs|done]. destruct (bufs w !! br) as [b|]; [simpl in Hs|done].
    destruct (bClosed b); [injection Hs as <-; by eapply balanced_ext|].
    destruct (_ =? _); [injection Hs as <-; by eapply balanced_ext|]. injection Hs as <-.
    destruct (_ && _); [apply Hend|]; by eapply balanced_ext.
  - destruct (curBuf w) as [br|]; [simpl in Hs|done]. destruct (bufs w !! br) as [b|]; [simpl in Hs|done].
    destruct (_ && _); [injection Hs as <-; by eapply balanced_ext|].
    destruct (bSignal b); [injection Hs as <-; by eapply balanced_ext|]. destruct (_ || _); [|done]. injection Hs as <-; by eapply balanced_ext.
  - simpl in Hs. destruct (bufMap w); [simpl in Hs|done]. destruct (curBuf w); [simpl in Hs|done]. injection Hs as <-.
    destruct (_ !! _); by eapply balanced_ext.
  - destruct (sendChunkTask _ _ _ _ _ _) as [[w1 ok]|] eqn:Hsd; [simpl in Hs|done]. injection Hs as <-.
    destruct (balanced_send _ _ _ _ _ _ HB Hsd) as [HB1 _]. by eapply balanced_ext.
  - destruct (curBuf w); [simpl in Hs|done]. injection Hs as <-. by eapply balanced_ext.
  - destruct (bufMap w) as [m|]; [simpl in Hs|done]. injection Hs as <-. unfold popBuf. destruct (m !! rpos w); by eapply balanced_ext.
  - injection Hs as <-. destruct (maxPos w =? 0); by eapply balanced_ext.
  - done.
Qed.
End Slots.

(** Every connection is given back, once: with a limit, the free slots and the
    workers that have not returned always make up the limit the downloader found,
    so there are never more requests than slots, and when the workers have
    returned the limit is the old one. *)
Theorem download_slots cfg p content l0 blockOk choose w0 w (W : wellSized cfg p content) (Hl : 0 <= l0 < 2 ^ 32)
  (H0 : download cfg p (Some l0) blockOk choose = Some (SMulti w0)) (R : rtc (steps cfg p content) w0 w) :
  exists l, slots w = Some l /\ 0 <= l /\ l + liveCount (workers w) = l0.
Proof.
  destruct W. assert (HB : balanced l0 w0).
  { destruct (download_start cfg p content ws_part0 ws_parts0 ws_width0 ws_conc0 _ _ _ _ H0) as (s' & Ha & ->).
    simpl in Ha. destruct (l0 =? 0) eqn:E; bool_hyps; [done|]. injection Ha as <-.
    split; [done|]. exists (l0 - 1). simpl. split_and!; [done|lia|lia]. }
  assert (H : balanced l0 w).
  { clear H0. revert HB. induction R as [|w1 w2 w3 Hs _ IH]; [done|]. intros HB. apply IH.
    destruct Hs as [ev v v' Hs|ev v t q v' Hq _ Hs|v].
    - by eapply (balanced_reader cfg p l0 ltac:(lia)).
    - simpl in Hs. rewrite Hq in Hs. by eapply (balanced_worker cfg p l0 ltac:(lia)).
    - by eapply balanced_ext. }
  by destruct H.
Qed.

(** ** Examples *)
Lemma demo_sized : wellSized demoCfg demoParams demoContent.
Proof. by split. Qed.

(** The steps of an example are those of an honest remote side without status
    errors. *)
Fixpoint calmRun (l : list (event * nat)) (w : dl) : bool :=
  match l with
  | [] => true
  | (ev, t) :: l =>
      match step demoCfg demoParams ev w t with
      | None => false
      | Some w' =>
          match t with
          | O => calmRun l w'
          | S t =>
              match workers w !! t with
              | Some (WTry c _) =>
                  match eAnswer ev with
                  | AResp r => bool_decide (rBody r = take (length (rBody r)) (span demoContent (ckStart c) (ckSize c)))
                  | AStatus _ => false
                  | AError => true
                  end
              | _ => true
              end && calmRun l w'
          end
      end
  end.

Lemma calmRun_steps l w :
  calmRun l w = true -> exists w', runDl demoCfg demoParams l w = Some w' /\ rtc (calmSteps demoCfg demoParams demoContent) w w'.
Proof.
  unfold runDl. revert w. induction l as [|[ev t] l IH]; intros w; [by exists w|]. simpl calmRun.
  destruct (step demoCfg demoParams ev w t) as [w1|] eqn:Hs; [|done]. intros H.
  assert (H1 : calmRun l w1 = true /\ calmSteps demoCfg demoParams demoContent w w1).
  { destruct t as [|t]; [split; [done|by eapply calm_reader]|]. apply andb_prop in H as [Hh H]. split; [done|].
    destruct (workers w !! t) as [q|] eqn:Hq; [|simpl in Hs; by rewrite Hq in Hs].
    assert (Hok : honest demoContent q (eAnswer ev) /\ noStatus q (eAnswer ev)); [|by eapply calm_worker; [exact Hq|..]; apply Hok || exact Hs].
    destruct q; try done. unfold honest, noStatus. destruct (eAnswer ev); try done. apply bool_decide_eq_true in Hh.
    rewrite Hh. split; [apply prefix_take|done]. }
  destruct H1 as [H1 H2]. destruct (IH w1 H1) as (w' & E & R). exists w'. simpl. rewrite Hs. split; [done|]. by eapply rtc_l.
Qed.

Definition demoState (l : list (event * nat)) : dl := default (empty_dl demoCfg demoParams None) (runDemo l).

Lemma demo_calm l : (calmRun l <$> demoStart) = Some true -> calm demoCfg demoParams demoContent (demoState l).
Proof.
  intros Hc. destruct demoStart as [w0|] eqn:Hw; [|done]. injection Hc as Hc.
  destruct (calmRun_steps _ _ Hc) as (w' & E & R). exists None, true, false, w0. split.
  - unfold demoStart in Hw. destruct (download _ _ _ _ _) as [[| |w1]|]; try done. by injection Hw as ->.
  - unfold demoState, runDemo. rewrite Hw. cbn [mbind option_bind]. rewrite E. exact R.
Qed.

Lemma calm_reachable cfg p content w : calm cfg p content w -> reachable cfg p content w.
Proof.
  intros (s & b & c & w0 & H0 & Hs). exists s, b, c, w0. split; [done|].
  eapply rtc_subrel; [|exact Hs]. intros. by apply calm_steps.
Qed.

Lemma download_delivers_witness :
  ended (demoState demoRun) = Some EEOF /\ out (demoState demoRun) = demoContent.
Proof.
  assert (He : ended (demoState demoRun) = Some EEOF) by (vm_compute; reflexivity). split; [done|].
  assert (Hr : reachable demoCfg demoParams demoContent (demoState demoRun)) by (apply calm_reachable, demo_calm; vm_compute; reflexivity).
  exact (proj2 (download_delivers demoCfg demoParams demoContent _ demo_sized Hr) He).
Defined.

(** The reader asks before anything is fetched. *)
Lemma download_progress_witness :
  reader (demoState [go 0; go 0]) = RBlocked 100 /\ moves demoCfg demoParams demoContent (demoState [go 0; go 0]).
Proof.
  assert (Hr : reader (demoState [go 0; go 0]) = RBlocked 100) by (vm_compute; reflexivity). split; [done|].
  apply (download_progress demoCfg demoParams demoContent _ demo_sized); [apply demo_calm; vm_compute; reflexivity|rewrite Hr; done].
Defined.

Lemma download_slots_witness :
  match download demoCfg demoParams (Some 5) true false with
  | Some (SMulti w) => slots w = Some 4 /\ liveCount (workers w) = 1 /\ exists l, slots w = Some l /\ 0 <= l /\ l + liveCount (workers w) = 5
  | _ => False
  end.
Proof.
  destruct (download demoCfg demoParams (Some 5) true false) as [[s|s|w]|] eqn:E; try (by vm_compute in E).
  pose proof (download_slots demoCfg demoParams demoContent 5 true false w w demo_sized ltac:(done) E ltac:(constructor)) as H.
  assert (Hw : (fun x => match x with Some (SMulti w) => (slots w, liveCount (workers w)) | _ => (None, 0) end)
    (download demoCfg demoParams (Some 5) true false) = (Some 4, 1)) by (vm_compute; reflexivity).
  rewrite E in Hw. injection Hw as H1 H2. done.
Defined.

(** The second worker is refused with 429, hands its chunk back and returns; the
    chunk still says that it is the first of a new worker, so the worker that
    takes it next hands it back and returns as well. Nobody is left to fetch it:
    the reader waits for ever. *)
Definition hangRun : list (event * nat) :=
  [go 1; ask 0 2 1; go 1] ++ [go 2; busy 2; go 2; go 2] ++ [go 1; go 1] ++ [go 1; busy 1; go 1; go 1] ++
  [go 0; go 0; go 0; go 0; go 0; go 0; go 0].

Theorem last_worker_exits :
  match runDemo hangRun with
  | Some w => workers w = [WExit; WExit] /\ reader w = RBlocked 100 /\ cancelled w = None /\
      forall ev t, step demoCfg demoParams ev w t = None
  | None => False
  end.
Proof.
  set (r := runDemo hangRun). vm_compute in r. subst r. split; [done|]. split; [done|]. split; [done|].
  intros ev [|[|[|t]]]; vm_compute; done.
Qed.

(** A worker that hands its chunk back while the caller closes the reader sends
    on the closed channel, which panics. *)
Definition panicRun : list (event * nat) :=
  [go 1; ask 0 2 1; go 1] ++ [go 2; busy 2; go 2] ++ [(mkEvent AError 4 true false CClose, 0%nat); go 0; go 2].

Theorem requeue_panics : (fun w => (workers w !! 1%nat, reader w)) <$> runDemo panicRun = Some (Some WPanic, RClosed).
Proof. vm_compute. reflexivity. Qed.
