(* ===== verification/TaskGroup.v ===== *)
(** Groups of tasks: src/internal/task_group/group.go. A group collects tasks and
    payloads; when its last task is done and one of them succeeded, the callback
    of the coordinator is given the payloads.

    A method runs under the mutex of the coordinator; Done calls the callback
    after it has forgotten the group and released the mutex, so here it returns
    what the callback is called with. *)
From S2P Require Import Prelude.

Inductive payload :=
| SrcPathToRemove (path : gostr)
| DstPathToHook (path : gostr).

Record groupState := mkGroup { pending : Z; hasSuccess : bool }.

Record coordinator := mkCoord {
  groupPayloads : gmap gostr (list payload);
  groupStates : gmap gostr groupState
}.

Definition NewTaskGroupCoordinator : coordinator := mkCoord ∅ ∅.

Definition payloadsOf (c : coordinator) (g : gostr) : list payload := default [] (groupPayloads c !! g).
Definition stateOf (c : coordinator) (g : gostr) : groupState := default (mkGroup 0 false) (groupStates c !! g).

(** append to groupPayloads[groupID]; [None] is a nil payload. *)
Definition AppendPayload (c : coordinator) (g : gostr) (p : option payload) : coordinator :=
  match p with
  | None => c
  | Some p => mkCoord (<[g := payloadsOf c g ++ [p]]> (groupPayloads c)) (groupStates c)
  end.

Definition AddTask (c : coordinator) (g : gostr) (p : option payload) : coordinator :=
  let s := stateOf c g in
  AppendPayload (mkCoord (groupPayloads c) (<[g := mkGroup (pending s + 1) (hasSuccess s)]> (groupStates c))) g p.

Definition Done (c : coordinator) (g : gostr) (success : bool) : coordinator * option (list payload) :=
  match groupStates c !! g with
  | None => (c, None)
  | Some s =>
      if pending s =? 0 then (c, None)
      else
        let s := mkGroup (pending s) (hasSuccess s || success) in
        if pending s =? 1 then
          (mkCoord (delete g (groupPayloads c)) (delete g (groupStates c)),
           if hasSuccess s then Some (payloadsOf c g) else None)
        else (mkCoord (groupPayloads c) (<[g := mkGroup (pending s - 1) (hasSuccess s)]> (groupStates c)), None)
  end.

(** ** Histories *)
Inductive gcall :=
| CAdd (g : gostr) (p : option payload)
| CAppend (g : gostr) (p : option payload)
| CDone (g : gostr) (success : bool).

Definition runCall (c : coordinator) (x : gcall) : coordinator * list (gostr * list payload) :=
  match x with
  | CAdd g p => (AddTask c g p, [])
  | CAppend g p => (AppendPayload c g p, [])
  | CDone g s => let '(c, r) := Done c g s in (c, match r with Some l => [(g, l)] | None => [] end)
  end.

(** The calls of the callback, in order. *)
Fixpoint runCalls (c : coordinator) (l : list gcall) : coordinator * list (gostr * list payload) :=
  match l with
  | [] => (c, [])
  | x :: l =>
      let '(c, r) := runCall c x in
      let '(c, rs) := runCalls c l in (c, r ++ rs)
  end.

(** What a group has seen, said without a state: the tasks that are not done,
    whether one succeeded, the payloads. *)
Definition weight (x : gcall) : Z := match x with CAdd _ _ => 1 | CAppend _ _ => 0 | CDone _ _ => -1 end.
Definition balance (l : list gcall) : Z := foldr (fun x n => weight x + n) 0 l.
Definition succeeded (l : list gcall) : bool := existsb (fun x => match x with CDone _ s => s | _ => false end) l.
Definition given (l : list gcall) : list payload :=
  omap (fun x => match x with CAdd _ p | CAppend _ p => p | CDone _ _ => None end) l.

Definition groupOf (x : gcall) : gostr := match x with CAdd g _ | CAppend g _ | CDone g _ => g end.
Definition proj (g : gostr) (l : list gcall) : list gcall := filter (fun x => groupOf x = g) l.

(** A part of a history during which the group always has a task: [opened] from
    its first task on, and a [round] up to the last one. *)
Definition opened (l : list gcall) : Prop := forall k, (0 < k <= length l)%nat -> 0 < balance (take k l).
Definition round (l : list gcall) : Prop :=
  (1 < length l)%nat /\ balance l = 0 /\ forall k, (0 < k < length l)%nat -> 0 < balance (take k l).

Definition outcome (r : list gcall) : option (list payload) := if succeeded r then Some (given r) else None.

Example group_demo :
  let src (p : gostr) := Some (SrcPathToRemove p) in
  (runCalls NewTaskGroupCoordinator
     [CAdd "/d" None; CAdd "/e" (src "/x"); CAppend "/d" (src "/a"); CAdd "/d" (src "/b"); CDone "/d" true;
      CDone "/e" false; CDone "/d" false; CDone "/d" true; CAdd "/d" (src "/c"); CDone "/d" true]).2
  = [("/d" : gostr, [SrcPathToRemove "/a"; SrcPathToRemove "/b"]); ("/d" : gostr, [SrcPathToRemove "/c"])].
Proof. vm_compute. reflexivity. Qed.

(** ** Lemmas *)
Lemma balance_app a b : balance (a ++ b) = balance a + balance b.
Proof. unfold balance. induction a as [|x a IH]; simpl; lia. Qed.

Lemma succeeded_app a b : succeeded (a ++ b) = succeeded a || succeeded b.
Proof. apply existsb_app. Qed.

Lemma given_app a b : given (a ++ b) = given a ++ given b.
Proof. apply omap_app. Qed.

(** The state of a group after an open history [h]. *)
Definition holds (c : coordinator) (g : gostr) (h : list gcall) : Prop :=
  payloadsOf c g = given h /\ groupStates c !! g = (if decide (h = []) then None else Some (mkGroup (balance h) (succeeded h))).

Lemma opened_snoc h x : opened (h ++ [x]) -> opened h /\ 0 < balance h + weight x.
Proof.
  intros H. split.
  - intros k Hk. specialize (H k). rewrite length_app, take_app_le in H by lia. apply H. simpl. lia.
  - specialize (H (length (h ++ [x]))). rewrite firstn_all, balance_app in H.
    rewrite length_app in H. simpl in H. lia.
Qed.

Lemma round_opened r k : round r -> (k < length r)%nat -> opened (take k r).
Proof.
  intros (_ & _ & H) Hk j Hj. rewrite length_take in Hj. rewrite take_take, Nat.min_l by lia. apply H. lia.
Qed.

Lemma opened_take o k : opened o -> opened (take k o).
Proof. intros H j Hj. rewrite length_take in Hj. rewrite take_take, Nat.min_l by lia. apply H. lia. Qed.

Lemma opened_pos h : opened h -> h <> [] -> 0 < balance h.
Proof. intros H Hn. specialize (H (length h)). rewrite firstn_all in H. apply H. destruct h; [done|simpl; lia]. Qed.

(** ** A call *)
Definition completionsOf (g : gostr) (l : list (gostr * list payload)) : list (list payload) :=
  omap (fun x => if decide (x.1 = g) then Some x.2 else None) l.

Lemma completionsOf_app g a b : completionsOf g (a ++ b) = completionsOf g a ++ completionsOf g b.
Proof. apply omap_app. Qed.

Lemma append_holds c g p : payloadsOf (AppendPayload c g p) g = payloadsOf c g ++ option_list p.
Proof. destruct p as [p|]; simpl; [|by rewrite app_nil_r]. unfold payloadsOf. simpl. by rewrite lookup_insert_eq. Qed.

Lemma append_other c g g' p : g <> g' -> payloadsOf (AppendPayload c g p) g' = payloadsOf c g'.
Proof. intros H. destruct p as [p|]; simpl; [|done]. unfold payloadsOf. simpl. by rewrite lookup_insert_ne. Qed.

Lemma append_states c g p : groupStates (AppendPayload c g p) = groupStates c.
Proof. by destruct p. Qed.

Lemma runCall_other c x g h :
  groupOf x <> g -> holds c g h -> holds (runCall c x).1 g h /\ completionsOf g (runCall c x).2 = [].
Proof.
  intros Hx [Hp Hs]. destruct x as [g' p|g' p|g' s]; simpl in Hx; simpl.
  - unfold AddTask, holds. rewrite append_other, append_states by done. simpl. by rewrite lookup_insert_ne.
  - unfold holds. by rewrite append_other, append_states.
  - unfold Done. destruct (groupStates c !! g') as [st|]; [|done]. destruct (pending st =? 0); [done|].
    destruct (pending _ =? 1); simpl.
    + unfold holds, payloadsOf. simpl. rewrite !lookup_delete_ne by done. split; [done|].
      destruct (_ || s); [|done]. simpl. by rewrite decide_False.
    + unfold holds, payloadsOf. simpl. by rewrite lookup_insert_ne.
Qed.

(** The next call of an open history. *)
Lemma runCall_open c x g h :
  groupOf x = g -> holds c g h -> opened h -> opened (h ++ [x]) ->
  holds (runCall c x).1 g (h ++ [x]) /\ completionsOf g (runCall c x).2 = [].
Proof.
  intros Hx [Hp Hs] Hh Ho. unfold holds. rewrite given_app, balance_app, succeeded_app, (decide_False (P:=h ++ [x] = [])) by by destruct h.
  apply opened_snoc in Ho as [_ Hw]. destruct x as [g' p|g' p|g' s]; simpl in Hx; subst g'; simpl in *.
  - unfold AddTask. rewrite append_holds, append_states. unfold payloadsOf in *. simpl. rewrite Hp, lookup_insert_eq.
    unfold stateOf. rewrite Hs. destruct (decide (h = [])) as [->|]; simpl; rewrite ?orb_false_r; by destruct p.
  - rewrite append_holds, append_states, Hp, Hs. destruct (decide (h = [])) as [->|]; simpl in *; [lia|].
    rewrite orb_false_r, Z.add_0_r. by destruct p.
  - unfold Done. rewrite Hs. destruct (decide (h = [])) as [->|]; simpl in *; [lia|].
    rewrite (proj2 (Z.eqb_neq _ _)) by lia. simpl. rewrite (proj2 (Z.eqb_neq _ 1)) by lia. simpl. unfold payloadsOf in *. simpl.
    rewrite lookup_insert_eq, Hp, !app_nil_r, orb_false_r. done.
Qed.

(** The call that ends a round. *)
Lemma runCall_round c x g h :
  groupOf x = g -> holds c g h -> round (h ++ [x]) ->
  holds (runCall c x).1 g [] /\ completionsOf g (runCall c x).2 = option_list (outcome (h ++ [x])).
Proof.
  intros Hx [Hp Hs] Hr. assert (Hh : opened h).
  { replace h with (take (length h) (h ++ [x])) by apply take_app_length. apply round_opened; [done|]. rewrite length_app. simpl. lia. }
  destruct Hr as (Hl & Hb & _). rewrite balance_app in Hb. rewrite length_app in Hl. simpl in Hb, Hl.
  assert (Hn : h <> []) by (intros ->; simpl in Hl; lia). pose proof (opened_pos h Hh Hn) as Hpos.
  rewrite decide_False in Hs by done. unfold outcome. rewrite succeeded_app, given_app.
  destruct x as [g' p|g' p|g' s]; simpl in Hx; subst g'; simpl in Hb; [lia|lia|].
  simpl. unfold Done. rewrite Hs. simpl. rewrite (proj2 (Z.eqb_neq _ 0)) by lia. rewrite (proj2 (Z.eqb_eq _ 1)) by lia. simpl.
  unfold holds, payloadsOf. simpl. rewrite !lookup_delete_eq. split; [done|].
  unfold payloadsOf in Hp. rewrite Hp, app_nil_r, orb_false_r. destruct (_ || s); [|done]. simpl. by rewrite decide_True.
Qed.

(** ** Histories *)
Lemma prefix_take {A} (a b l : list A) : a `prefix_of` l -> b `prefix_of` l -> (length a <= length b)%nat -> a = take (length a) b.
Proof. intros [x ->] [y H] Hl. rewrite <- (take_app_le b y) by done. rewrite <- H. by rewrite take_app_length. Qed.

Lemma runCalls_group g l : forall c h rs o,
  holds c g h -> opened h -> h ++ proj g l = concat rs ++ o -> Forall round rs -> opened o ->
  holds (runCalls c l).1 g o /\ completionsOf g (runCalls c l).2 = omap outcome rs.
Proof.
  induction l as [|x l IH]; intros c h rs o Hc Hh E Hr Ho.
  - simpl in *. rewrite app_nil_r in E. destruct rs as [|r rs]; [by subst|]. exfalso.
    apply Forall_cons in Hr as [(Hl & Hb & _) _]. simpl in E. rewrite <- (assoc_L (++)) in E.
    assert (r = take (length r) h) as Hrh by (rewrite E; by rewrite take_app_length).
    pose proof (Hh (length r)) as Hp. rewrite <- Hrh, Hb in Hp. rewrite E, length_app in Hp. lia.
  - simpl. destruct (runCall c x) as [c1 r1] eqn:Ec. destruct (runCalls c1 l) as [c2 r2] eqn:El. simpl.
    rewrite completionsOf_app. unfold proj in E. simpl in E. rewrite filter_cons in E. destruct (decide (groupOf x = g)) as [Hx|Hx].
    + change (x :: filter _ l) with ([x] ++ proj g l) in E. rewrite (assoc_L (++)) in E.
      destruct rs as [|r rs]; simpl in E.
      * assert (Hox : opened (h ++ [x])).
        { rewrite <- (take_app_length (h ++ [x]) (proj g l)), E. by apply opened_take. }
        destruct (runCall_open c x g h Hx Hc Hh Hox) as [H1 H2]. rewrite Ec in H1, H2. simpl in H1, H2.
        destruct (IH c1 (h ++ [x]) [] o H1 Hox E Hr Ho) as [H3 H4]. rewrite El in H3, H4; simpl in H3, H4. by rewrite H2, H4.
      * apply Forall_cons in Hr as [Hr Hrs]. rewrite <- (assoc_L (++) r) in E.
        destruct (decide (length (h ++ [x]) < length r)%nat) as [Hlt|Hge].
        -- assert (Hox : opened (h ++ [x])).
           { rewrite (prefix_take (h ++ [x]) r (r ++ concat rs ++ o)); [by apply round_opened| |by eexists|lia].
             rewrite <- E. by eexists. }
           destruct (runCall_open c x g h Hx Hc Hh Hox) as [H1 H2]. rewrite Ec in H1, H2. simpl in H1, H2.
           destruct (IH c1 (h ++ [x]) (r :: rs) o H1 Hox) as [H3 H4]; [by rewrite E; simpl; rewrite (assoc_L (++))|by constructor|done|].
           rewrite El in H3, H4; simpl in H3, H4. by rewrite H2, H4.
        -- assert (Hrx : r = h ++ [x]).
           { assert (Hp : r = take (length r) (h ++ [x])).
             { apply (prefix_take _ _ (r ++ concat rs ++ o)); [by eexists| |lia]. rewrite <- E. by eexists. }
             destruct (decide (length r = length (h ++ [x]))) as [Hl|Hl]; [by rewrite Hl, firstn_all in Hp|]. exfalso.
             rewrite length_app in Hge, Hl. simpl in Hge, Hl. rewrite take_app_le in Hp by lia.
             destruct Hr as (Hl1 & Hb & _). specialize (Hh (length r)). rewrite <- Hp, Hb in Hh. lia. }
           subst r. rewrite <- (app_nil_l (proj g l)) in E. rewrite (assoc_L (++)), app_nil_r in E. apply app_inv_head in E.
           destruct (runCall_round c x g h Hx Hc Hr) as [H1 H2]. rewrite Ec in H1, H2. simpl in H1, H2.
           destruct (IH c1 [] rs o H1 ltac:(intros k Hk; simpl in Hk; lia) E Hrs Ho) as [H3 H4]. rewrite El in H3, H4; simpl in H3, H4.
           split; [done|]. rewrite H2, H4. simpl. by destruct (outcome (h ++ [x])).
    + destruct (runCall_other c x g h Hx Hc) as [H1 H2]. rewrite Ec in H1, H2. simpl in H1, H2.
      destruct (IH c1 h rs o H1 Hh E Hr Ho) as [H3 H4]. rewrite El in H3, H4; simpl in H3, H4. by rewrite H2, H4.
Qed.

(** C23: however the calls for different groups interleave: when the calls for a group
    are a sequence of rounds, each from its first task to its last, followed by a
    round that is still open, the callback was called once for each round that had
    a success, with the payloads given during that round in order, and for nothing
    else; of the rounds that are over nothing is left. *)
Theorem group_completes g l rs o :
  proj g l = concat rs ++ o -> Forall round rs -> opened o ->
  completionsOf g (runCalls NewTaskGroupCoordinator l).2 = omap outcome rs /\
  holds (runCalls NewTaskGroupCoordinator l).1 g o.
Proof.
  intros E Hr Ho. destruct (runCalls_group g l NewTaskGroupCoordinator [] rs o) as [H1 H2]; try done.
  intros k Hk. simpl in Hk. lia.
Qed.

Lemma opened_nil : opened [].
Proof. intros k Hk. simpl in Hk. lia. Qed.

Lemma group_completes_witness :
  let l := [CAdd "/d" None; CAdd "/e" None; CAppend "/d" (Some (SrcPathToRemove "/a")); CDone "/d" true] in
  completionsOf "/d" (runCalls NewTaskGroupCoordinator l).2 = [[SrcPathToRemove "/a"]].
Proof.
  intros l.
  assert (Hr : round [CAdd "/d" None; CAppend "/d" (Some (SrcPathToRemove "/a")); CDone "/d" true]).
  { split_and!; [simpl; lia|done|]. intros [|[|[|k]]] Hk; simpl in *; lia. }
  apply (group_completes "/d" l [[CAdd "/d" None; CAppend "/d" (Some (SrcPathToRemove "/a")); CDone "/d" true]] []).
  - by vm_compute.
  - by constructor.
  - apply opened_nil.
Defined.
