(* ===== verification/Transfer.v ===== *)
(** Copying and moving between storages: src/internal/fs/copy_move.go, and the
    check that precedes the removal of the source of a move,
    src/internal/task_group/transfer.go.

    What a transfer asks of the storages is the class [StorageOps]: the operations
    of package op on a storage [D], over a state [S] of all storages and caches.
    [TransferOp] is its instance from the operations of [OpFs].

    A transfer runs at once when the context has conf.NoTaskKey, and otherwise as
    tasks of a manager of the library tache: [queue] holds the tasks the managers
    have not finished. A task runs as one step; when it runs, and whether the
    manager tries a failed task again, is an input. Hooks of a change, the progress
    of an upload and the skipHook flag are left out. *)
From S2P Require Import Prelude GoString GoPath Paths Mounts Storages Objects KeyedCache DirCache OpFs FsView TaskGroup.

Inductive taskType := copy | move | merge.

#[export] Instance taskType_dec : EqDecision taskType.
Proof. solve_decision. Defined.

Inductive transfer_error (E : Type) :=
| EStore (e : fs_error E)
| ESubitems      (* some subitems failed to verify and remove *)
| ENoTask
| EFuel.
Arguments EStore {E}. Arguments ESubitems {E}. Arguments ENoTask {E}. Arguments EFuel {E}.

Abbreviation Op S E A := (S -> S * res (fs_error E) A).

(** The operations of package op, and what the code asks of a link: sLink is Link,
    which answers the object, sOpen is NewSeekableStream, which answers the size of
    the stream; sCtx is ctx.Err(). The driver interfaces a storage implements are
    flags. *)
Class StorageOps (D S E : Type) := {
  mountPath : D -> gostr;
  hasMkdir : D -> bool; hasCopy : D -> bool; hasMove : D -> bool; hasRename : D -> bool; hasRemove : D -> bool;
  sResolve : gostr -> Op S E (D * gostr);
  sGet : D -> gostr -> Op S E Obj;
  sGetUnwrap : D -> gostr -> Op S E Obj;
  sList : D -> gostr -> Op S E (list Obj);
  sMakeDir : D -> gostr -> Op S E unit;
  sPut : D -> gostr -> fileStream -> Op S E unit;
  sRemove : D -> gostr -> Op S E unit;
  sCopy : D -> gostr -> gostr -> Op S E unit;
  sMove : D -> gostr -> gostr -> Op S E unit;
  sRename : D -> gostr -> gostr -> Op S E unit;
  sLink : D -> gostr -> Op S E Obj;
  sOpen : D -> gostr -> Obj -> Op S E Z;
  sCtx : Op S E unit;
  sHook : gostr -> list Obj -> S -> S
}.

Section Transfer.
Context {D S E : Type} {DD : EqDecision D} {OO : StorageOps D S E}.
Context (needHook : bool).   (* the setting conf.HandleHookAfterWriting *)

(** ** Computations *)
Record FileTransferTask := mkTask {
  tType : taskType; SrcStorage : D; DstStorage : D; SrcActualPath : gostr; DstActualPath : gostr; DstName : gostr;
  groupID : gostr
}.

Record world := mkTw { store : S; coord : coordinator; queue : list FileTransferTask; success : bool }.

Definition T (A : Type) : Type := world -> world * res (transfer_error E) A.

#[global] Instance T_ret : MRet T := fun A a w => (w, Ok a).
#[global] Instance T_bind : MBind T := fun A B k m w =>
  match m w with
  | (w, Ok a) => k a w
  | (w, Err e) => (w, Err e)
  end.

Definition tfail {A} (e : transfer_error E) : T A := fun w => (w, Err e).
Definition attempt {A} (m : T A) : T (res (transfer_error E) A) := fun w => let '(w, r) := m w in (w, Ok r).
Definition lift {A} (m : Op S E A) : T A := fun w =>
  let '(s, r) := m (store w) in (mkTw s (coord w) (queue w) (success w), match r with Ok a => Ok a | Err e => Err (EStore e) end).
Definition onCoord {A} (f : coordinator -> coordinator * A) : T A := fun w =>
  let '(c, a) := f (coord w) in (mkTw (store w) c (queue w) (success w), Ok a).
Definition enqueue (t : FileTransferTask) : T unit := fun w =>
  (mkTw (store w) (coord w) (queue w ++ [t]) (success w), Ok tt).
Definition runHook (path : gostr) (files : list Obj) : T unit := fun w =>
  (mkTw (sHook path files (store w)) (coord w) (queue w) (success w), Ok tt).
Definition setSuccess (b : bool) : T unit := fun w => (mkTw (store w) (coord w) (queue w) b, Ok tt).

(** errors.Is(err, errs.NotImplement) or NotSupport *)
Definition notNative (e : transfer_error E) : bool :=
  match e with EStore (EOp NotImplement) | EStore (EOp NotSupport) => true | _ => false end.
Definition notFound (e : transfer_error E) : bool := match e with EStore (EOp ObjectNotFound) => true | _ => false end.

(** ** The source is removed *)
Section Verify.
Context (rec : D -> D -> gostr -> gostr -> T unit) (srcStorage dstStorage : D).

(** The children; the answer is hasErr. *)
Fixpoint verifyAll (objs : list Obj) (srcPath dstObjPath : gostr) : T bool :=
  match objs with
  | [] => mret false
  | obj :: objs =>
      r ← attempt (rec srcStorage dstStorage (path_join2 srcPath (GetName obj)) dstObjPath);
      hasErr ← verifyAll objs srcPath dstObjPath;
      mret (negb (is_ok r) || hasErr)
  end.

Definition verifyWith (srcPath dstPath : gostr) : T unit :=
  srcObj ← lift (sGetUnwrap srcStorage srcPath);
  let dstObjPath := path_join2 dstPath (GetName srcObj) in
  dstObj ← lift (sGetUnwrap dstStorage dstObjPath);
  if negb (IsDir dstObj) then lift (sRemove srcStorage srcPath)
  else
    srcObjs ← lift (sList srcStorage srcPath);
    hasErr ← verifyAll srcObjs srcPath dstObjPath;
    if (hasErr : bool) then tfail ESubitems
    else lift (sRemove srcStorage srcPath).
End Verify.

Fixpoint verifyAndRemove (fuel : nat) (srcStorage dstStorage : D) (srcPath dstPath : gostr) : T unit :=
  match fuel with
  | O => tfail EFuel
  | Datatypes.S fuel => verifyWith (verifyAndRemove fuel) srcStorage dstStorage srcPath dstPath
  end.

(** handleHook with hookedPaths *)
Definition handleHook (dstStorage : D) (hooked : list gostr) (actualPath : gostr) : T (list gostr) :=
  if bool_decide (actualPath ∈ hooked) then mret hooked
  else
    r ← attempt (lift (sList dstStorage actualPath));
    match r with
    | Err _ => mret hooked
    | Ok files => runHook (GetFullPath (mountPath dstStorage) actualPath) files;; mret (actualPath :: hooked)
    end.

Definition removeSource (fuel : nat) (dstStorage : D) (dstActualPath path : gostr) : T unit :=
  r ← attempt (lift (sResolve path));
  match r with
  | Err _ => mret tt
  | Ok (srcStorage, srcActualPath) =>
      _ ← attempt (verifyAndRemove fuel srcStorage dstStorage srcActualPath dstActualPath); mret tt
  end.

Fixpoint runPayloads (fuel : nat) (dstStorage : D) (dstActualPath : gostr) (hooked : list gostr) (payloads : list payload)
    : T unit :=
  match payloads with
  | [] => mret tt
  | DstPathToHook p :: payloads =>
      hooked ← (if needHook then handleHook dstStorage hooked p else mret hooked);
      runPayloads fuel dstStorage dstActualPath hooked payloads
  | SrcPathToRemove p :: payloads =>
      removeSource fuel dstStorage dstActualPath p;;
      runPayloads fuel dstStorage dstActualPath hooked payloads
  end.

Definition HookAndRemove (fuel : nat) (dstPath : gostr) (payloads : list payload) : T unit :=
  r ← attempt (lift (sResolve dstPath));
  match r with
  | Err _ => mret tt
  | Ok (dstStorage, dstActualPath) =>
      hooked ← (if needHook then handleHook dstStorage [] dstActualPath else mret []);
      runPayloads fuel dstStorage dstActualPath hooked payloads
  end.

(** TransferCoordinator.Done *)
Definition groupDone (fuel : nat) (g : gostr) (ok : bool) : T unit :=
  r ← onCoord (fun c => Done c g ok);
  match r with Some payloads => HookAndRemove fuel g payloads | None => mret tt end.

(** ** A task *)
Section Run.
Context (f : FileTransferTask -> T unit).

Definition childTask (t : FileTransferTask) (dstActualPath : gostr) (obj : Obj) : FileTransferTask :=
  mkTask (tType t) (SrcStorage t) (DstStorage t) (path_join2 (SrcActualPath t) (GetName obj)) dstActualPath []
    (groupID t).

(** The names of the files the loop over dstObjs collects. *)
Fixpoint existedObjs (objs : list Obj) : T (list gostr) :=
  match objs with
  | [] => mret []
  | obj :: objs =>
      lift sCtx;;
      l ← existedObjs objs;
      mret (if IsDir obj then l else GetName obj :: l)
  end.

Definition existing (t : FileTransferTask) (dstActualPath : gostr) : T (list gostr) :=
  if decide (tType t = merge) then
    r ← attempt (lift (sList (DstStorage t) dstActualPath));
    match r with
    | Ok dstObjs => existedObjs dstObjs
    | Err e => if notFound e then mret [] else tfail e
    end
  else mret [].

Fixpoint eachChild (t : FileTransferTask) (dstActualPath : gostr) (existed : list gostr) (objs : list Obj) : T unit :=
  match objs with
  | [] => mret tt
  | obj :: objs =>
      lift sCtx;;
      (if decide (tType t = merge /\ IsDir obj = false /\ GetName obj ∈ existed) then mret tt
       else f (childTask t dstActualPath obj));;
      eachChild t dstActualPath existed objs
  end.

(** The stream of a file: FileStream with the object and the size of the link. *)
Definition streamOf (o : Obj) (size : Z) : fileStream :=
  let size := if 0 <? size then size else GetSize o in
  mkFile (GetName o) size (ModTime o) (CreateTime o) size None.

Definition RunWithNextTaskCallback (t : FileTransferTask) : T unit :=
  srcObj ← lift (sGet (SrcStorage t) (SrcActualPath t));
  if IsDir srcObj then
    objs ← lift (sList (SrcStorage t) (SrcActualPath t));
    let dstName := if seqb (DstName t) "" then GetName srcObj else DstName t in
    let dstActualPath := path_join2 (DstActualPath t) dstName in
    lift (sMakeDir (DstStorage t) dstActualPath);;
    existed ← existing t dstActualPath;
    eachChild t dstActualPath existed objs
  else
    srcObj ← lift (sLink (SrcStorage t) (SrcActualPath t));
    let streamObj := if seqb (DstName t) "" then srcObj else ObjWrapName (DstName t) srcObj in
    size ← lift (sOpen (SrcStorage t) (SrcActualPath t) streamObj);
    lift (sPut (DstStorage t) (DstActualPath t) (streamOf streamObj size)).
End Run.

(** The callback of a transfer that runs at once: the task runs, and hasSuccess is
    set when it succeeds. *)
Fixpoint runNow (fuel : nat) (t : FileTransferTask) : T unit :=
  match fuel with
  | O => tfail EFuel
  | Datatypes.S fuel => RunWithNextTaskCallback (runNow fuel) t;; setSuccess true
  end.

(** The callback of Run. *)
Definition addTask (t : FileTransferTask) : T unit :=
  onCoord (fun c => (AddTask c (groupID t) None, tt));; enqueue t.

(** ** Copies under another name inside a storage *)
Definition supportsNamedNativeCopy (d : D) : bool :=
  hasMkdir d && hasCopy d && hasMove d && hasRename d && hasRemove d.

Definition namedCopyStageObjectPath (stageDirPath srcPath dstName : gostr) : gostr :=
  path_join2 stageDirPath (if seqb dstName "" then path_Base srcPath else dstName).

(** [m] with the deferred removal of the staging directory, which stays in place
    when [m] answers that it is gone. *)
Definition withStage (removeStage : T unit) (m : T unit) : T unit :=
  r ← attempt m;
  match r with
  | Ok _ => mret tt
  | Err e => _ ← attempt removeStage; tfail e
  end.

(** [stage] is the name of the staging directory, with a fresh uuid. *)
Definition copyNamedInStorage (d : D) (stage srcPath dstDirPath dstName : gostr) : T unit :=
  let stageDirPath := path_join2 dstDirPath stage in
  lift (sMakeDir d stageDirPath);;
  let removeStage := lift (sRemove d stageDirPath) in
  withStage removeStage
    (lift (sCopy d srcPath stageDirPath);;
     let srcName := path_Base srcPath in
     let stageObjPath := namedCopyStageObjectPath stageDirPath srcPath [] in
     (if seqb srcName dstName then mret tt else lift (sRename d stageObjPath dstName));;
     let stageObjPath := if seqb srcName dstName then stageObjPath
                         else namedCopyStageObjectPath stageDirPath srcPath dstName in
     lift (sMove d stageObjPath dstDirPath);;
     removeStage).

(** ** A transfer *)

(** The answer of an operation of the storage settles the transfer, unless it says
    that the operation is not implemented. *)
Definition settle (m : T unit) : T (option (res (transfer_error E) unit)) :=
  r ← attempt m;
  mret (match r with Err e => if notNative e then None else Some r | Ok _ => Some r end).

(** The operation of the storage itself, if there is one. *)
Definition native (ty : taskType) (d : D) (stage srcPath dstDirPath dstName : gostr) : T (option (res (transfer_error E) unit)) :=
  match ty with
  | move => settle (lift (sMove d srcPath dstDirPath))
  | _ =>
      if negb (seqb dstName "") then
        if supportsNamedNativeCopy d then settle (copyNamedInStorage d stage srcPath dstDirPath dstName) else mret None
      else settle (lift (sCopy d srcPath dstDirPath))
  end.

Definition newTask (ty : taskType) (src dst : D) (srcPath dstDirPath dstName : gostr) : FileTransferTask :=
  mkTask ty src dst srcPath dstDirPath dstName (path_join2 (mountPath dst) dstDirPath).

Definition appendSrc (ty : taskType) (g srcObjPath : gostr) : T unit :=
  if decide (ty = move) then onCoord (fun c => (AppendPayload c g (Some (SrcPathToRemove srcObjPath)), tt)) else mret tt.

(** With conf.NoTaskKey. *)
Definition transferNow (fuel : nat) (t : FileTransferTask) (srcObjPath : gostr) : T unit :=
  setSuccess false;;
  r ← attempt (runNow fuel t);
  appendSrc (tType t) (groupID t) srcObjPath;;
  w ← (fun w => (w, Ok (success w)));
  groupDone fuel (groupID t) w;;
  match r with Ok _ => mret tt | Err e => tfail e end.

Definition transfer (fuel : nat) (noTask : bool) (stage : gostr) (ty : taskType) (srcObjPath dstDirPath dstName : gostr)
    : T (option FileTransferTask) :=
  '(srcStorage, srcObjActualPath) ← lift (sResolve srcObjPath);
  '(dstStorage, dstDirActualPath) ← lift (sResolve dstDirPath);
  done ← (if decide (srcStorage = dstStorage) then native ty srcStorage stage srcObjActualPath dstDirActualPath dstName
          else mret None);
  match done with
  | Some (Ok _) => mret None
  | Some (Err e) => tfail e
  | None =>
      let t := newTask ty srcStorage dstStorage srcObjActualPath dstDirActualPath dstName in
      onCoord (fun c => (AddTask c (groupID t) None, tt));;
      if noTask then transferNow fuel t srcObjPath;; mret None
      else appendSrc ty (groupID t) srcObjPath;; enqueue t;; mret (Some t)
  end.

(** ** Tasks of a manager *)

(** The manager runs the [i]-th of its tasks; a task that failed runs again
    ([retry]) or is given up. *)
Definition taskStep (fuel : nat) (i : nat) (retry : bool) : T unit := fun w =>
  match queue w !! i with
  | None => (w, Err ENoTask)
  | Some t =>
      (r ← attempt (RunWithNextTaskCallback addTask t);
       (if negb (is_ok r) && retry then mret tt
        else
          (fun w => (mkTw (store w) (coord w) (delete i (queue w)) (success w), Ok tt));;
          groupDone fuel (groupID t) (is_ok r))) w
  end.

End Transfer.
Arguments world D S : clear implicits.
Arguments FileTransferTask D : clear implicits.
