(* ===== verification/TransferSpec.v ===== *)
(** What a transfer relies on and what it keeps: the laws of the operations of
    storages, a small program logic for [T], and the check that precedes the
    removal of a source. *)
From S2P Require Import Prelude GoString GoPath Paths Mounts Storages Objects KeyedCache DirCache OpFs FsTree.
From S2P Require Import OpFsSpec OpFsRead OpFsWrite FsView TaskGroup Transfer.

(** ** Names and regions of a tree *)

(** Not the name under which Put keeps an old file. *)
Definition notTemp (w : gostr) : Prop := forall m, w <> tempName m.

(** Neither path is at or below the other. *)
Definition apart (p q : fpath) : Prop := ~ p `prefix_of` q /\ ~ q `prefix_of` p.

Lemma prefix_comparable {A} (a b x y : list A) : a ++ x = b ++ y -> a `prefix_of` b \/ b `prefix_of` a.
Proof. intros H. apply (prefix_weak_total _ _ (a ++ x)); [by eexists|rewrite H; by eexists]. Qed.

Lemma apart_app p q x y : apart p q -> apart (p ++ x) (q ++ y).
Proof.
  intros [H1 H2]. split; intros [z Hz]; rewrite <- (assoc_L (++)) in Hz; by apply prefix_comparable in Hz as [?|?].
Qed.

Lemma apart_ne p q x y : apart p q -> p ++ x <> q ++ y.
Proof. intros H E. destruct (apart_app p q x y H) as [H1 _]. apply H1. by rewrite E. Qed.

(** What a task that writes to [q'], the entry [n] of [q], may change. *)
Definition region (q : fpath) (n : gostr) (k : fpath) : Prop :=
  k `prefix_of` (q ++ [n]) \/ (q ++ [n]) `prefix_of` k \/ (q ++ [tempName n]) `prefix_of` k.

Definition within (R : fpath -> Prop) (t t' : ftree) : Prop := forall k, t' !! k = t !! k \/ R k.

Lemma within_refl R t : within R t t.
Proof. by left. Qed.

Lemma within_trans R t1 t2 t3 : within R t1 t2 -> within R t2 t3 -> within R t1 t3.
Proof. intros H1 H2 k. destruct (H2 k) as [->|?]; [apply H1|by right]. Qed.

Lemma within_mono (R R' : fpath -> Prop) t t' : (forall k, R k -> R' k) -> within R t t' -> within R' t t'.
Proof. intros H H1 k. destruct (H1 k); auto. Qed.

Lemma region_child q n c k : region (q ++ [n]) c k -> region q n k.
Proof.
  intros [H|[H|H]].
  - destruct (prefix_weak_total k (q ++ [n]) ((q ++ [n]) ++ [c])) as [?|?]; [done|by eexists|by left|by right; left].
  - right; left. etrans; [|exact H]. by eexists.
  - right; left. etrans; [|exact H]. by eexists.
Qed.

(** The source does not meet the region. *)
Lemma region_apart p q n x : apart p (q ++ [n]) -> Forall notTemp p -> ~ region q n (p ++ x).
Proof.
  intros [A1 A2] Hp [H|[H|H]].
  - apply A1. etrans; [|exact H]. by eexists.
  - destruct (prefix_weak_total p (q ++ [n]) (p ++ x)); [by eexists|done|done|done].
  - destruct (prefix_weak_total p (q ++ [tempName n]) (p ++ x)) as [Hq|[z Hz]]; [by eexists|done| |].
    + destruct Hq as [z Hz]. destruct z as [|w z' _] using rev_ind.
      * rewrite app_nil_r in Hz. rewrite <- Hz in Hp. apply Forall_app in Hp as [_ [Hw _]%Forall_cons]. by eapply Hw.
      * rewrite (assoc_L (++)) in Hz. apply app_inj_tail in Hz as [Hz _]. apply A1. rewrite Hz. exists (z' ++ [n]). by rewrite (assoc_L (++)).
    + rewrite Hz in Hp. apply Forall_app in Hp as [[_ [Hw _]%Forall_cons]%Forall_app _]. by eapply Hw.
Qed.

Lemma wf_absent_child t p c x : wfTree t -> t !! (p ++ [c]) = None -> t !! (p ++ c :: x) = None.
Proof.
  intros W H. replace (p ++ c :: x) with ((p ++ [c]) ++ x) by by rewrite <- (assoc_L (++)).
  apply wf_absent; [done|by destruct p|done].
Qed.

(** ** Laws *)
Section Laws.
Context {D S E : Type} {DD : EqDecision D} {OO : StorageOps D S E}.

(** The trees of the storages as a state shows them; [okName] are the names an
    upload may have, [dependable] is a storage whose reads do not fail. An
    operation on one storage leaves the others alone. *)
Class StorageView := {
  inv : S -> Prop;
  tree : S -> D -> ftree;
  okName : gostr -> Prop;
  dependable : D -> Prop
}.

Definition same {V : StorageView} (s s' : S) : Prop := inv s' /\ forall d, tree s' d = tree s d.
Definition others {V : StorageView} (d : D) (s s' : S) : Prop :=
  inv s' /\ forall d', d' <> d -> tree s' d' = tree s d'.

Class StorageLaws {V : StorageView} : Prop := {
  law_wf s d : inv s -> wfTree (tree s d);
  law_ok n : okName n -> clean_seg n /\ notTemp n;
  law_resolve path s : inv s -> same s (sResolve path s).1;
  law_get d q n s : inv s -> Forall clean_seg (q ++ [n]) ->
    let '(s', r) := sGet d (mkpath (q ++ [n])) s in
    same s s' /\ forall o, r = Ok o -> GetName o = n /\ tree s d !! (q ++ [n]) = Some (IsDir o);
  law_getUnwrap d q n s : inv s -> Forall clean_seg (q ++ [n]) ->
    let '(s', r) := sGetUnwrap d (mkpath (q ++ [n])) s in
    same s s' /\ forall o, r = Ok o -> GetName o = n /\ tree s d !! (q ++ [n]) = Some (IsDir o);
  law_list d p s : inv s -> Forall clean_seg p ->
    let '(s', r) := sList d (mkpath p) s in
    same s s' /\ forall l, r = Ok l -> isDirAt (tree s d) p /\ NoDup (map GetName l) /\
      forall n b, tree s d !! (p ++ [n]) = Some b <-> exists o, o ∈ l /\ GetName o = n /\ IsDir o = b;
  law_link d q n s : inv s -> Forall clean_seg (q ++ [n]) ->
    let '(s', r) := sLink d (mkpath (q ++ [n])) s in
    same s s' /\ forall o, r = Ok o -> GetName o = n;
  law_open d path o s : inv s -> same s (sOpen d path o s).1;
  law_ctx s : inv s -> same s (sCtx s).1;
  law_hook path l s : inv s -> same s (sHook path l s);
  law_makeDir d p s : inv s -> Forall okName p ->
    let '(s', r) := sMakeDir d (mkpath p) s in
    others d s s' /\ grown (tree s d) (tree s' d) p /\ (is_ok r = true -> dependable d -> isDirAt (tree s' d) p);
  law_put d q f s : inv s -> Forall okName q -> okName (fName f) ->
    let '(s', r) := sPut d (mkpath q) f s in
    others d s s' /\
    same_outside (elsewhere q (q ++ [fName f]) (q ++ [tempName (fName f)])) (tree s d) (tree s' d) /\
    (is_ok r = true -> isDirAt (tree s' d) q /\ tree s' d !! (q ++ [fName f]) = Some false);
  law_remove d p s : inv s -> Forall clean_seg p ->
    let '(s', r) := sRemove d (mkpath p) s in
    others d s s' /\ (tree s' d = tree s d \/ is_ok r = true /\ tree s' d = treeRemove (tree s d) p);
  law_move d p q n s : inv s -> Forall clean_seg (p ++ [n]) -> Forall clean_seg q ->
    let '(s', r) := sMove d (mkpath (p ++ [n])) (mkpath q) s in
    others d s s' /\
    if is_ok r then isDirAt (tree s d) q /\ tree s' d = treeMove (tree s d) (p ++ [n]) (q ++ [n])
    else tree s' d = tree s d;
  law_copy d p q n s : inv s -> Forall clean_seg (p ++ [n]) -> Forall clean_seg q ->
    let '(s', r) := sCopy d (mkpath (p ++ [n])) (mkpath q) s in
    others d s s' /\
    if is_ok r then isDirAt (tree s d) q /\ tree s' d = treeCopy (tree s d) (p ++ [n]) (q ++ [n])
    else tree s' d = tree s d;
  law_rename d p n m s : inv s -> Forall clean_seg (p ++ [n]) -> okName m ->
    let '(s', r) := sRename d (mkpath (p ++ [n])) m s in
    others d s s' /\
    if is_ok r then tree s' d = treeMove (tree s d) (p ++ [n]) (p ++ [m]) else tree s' d = tree s d
}.

End Laws.
Arguments StorageView D S : clear implicits.
Arguments StorageLaws D S E {OO V} : rename.

(** ** A logic for computations *)
Section Logic.
Context {D S E : Type} {DD : EqDecision D} {OO : StorageOps D S E}.

Abbreviation world := (world D S).
Abbreviation post A := (world -> res (transfer_error E) A -> Prop).

Definition ends {A} (m : T A) (w : world) (Q : post A) : Prop := Q (m w).1 (m w).2.

Lemma ends_mono {A} (m : T A) w (Q Q' : post A) : ends m w Q -> (forall w' r, Q w' r -> Q' w' r) -> ends m w Q'.
Proof. unfold ends. auto. Qed.

Lemma ends_ret {A} (a : A) w (Q : post A) : Q w (Ok a) -> ends (mret a) w Q.
Proof. done. Qed.

Lemma ends_fail {A} e w (Q : post A) : Q w (Err e) -> ends (tfail e) w Q.
Proof. done. Qed.

Lemma ends_bind {A B} (m : T A) (k : A -> T B) w (Q : post B) :
  ends m w (fun w' r => match r with Ok a => ends (k a) w' Q | Err e => Q w' (Err e) end) -> ends (m ≫= k) w Q.
Proof. unfold ends, mbind, T_bind. by destruct (m w) as [w' [a|e]]. Qed.

Lemma ends_attempt {A} (m : T A) w (Q : post (res (transfer_error E) A)) :
  ends m w (fun w' r => Q w' (Ok r)) -> ends (attempt m) w Q.
Proof. unfold ends, attempt. by destruct (m w). Qed.

(** All but the storages. *)
Definition control (w : world) : coordinator * list (FileTransferTask D) * bool := (coord w, queue w, success w).
Definition setStore (w : world) (s : S) : world := mkTw s (coord w) (queue w) (success w).

Lemma ends_lift {A} (m : Op S E A) w (Q : post A) :
  (let '(s, r) := m (store w) in Q (setStore w s) (match r with Ok a => Ok a | Err e => Err (EStore e) end)) ->
  ends (lift m) w Q.
Proof. unfold ends, lift. by destruct (m (store w)) as [s r]. Qed.

End Logic.
Arguments setStore : simpl never.

(** ** The check before a source is removed *)
Section Check.
Context {D S E : Type} {DD : EqDecision D} {OO : StorageOps D S E} {V : StorageView D S} {LL : StorageLaws D S E}.

Abbreviation world := (world D S).
Abbreviation treeAt w d := (tree (store w) d).

Lemma same_refl s : inv s -> same s s.
Proof. by split. Qed.
Lemma same_trans s1 s2 s3 : same s1 s2 -> same s2 s3 -> same s1 s3.
Proof. intros [_ H1] [I H2]. split; [done|]. intros d. by rewrite H2. Qed.
Lemma same_others d s s' : same s s' -> others d s s'.
Proof. intros [I H]. split; auto. Qed.
Lemma others_trans d s1 s2 s3 : others d s1 s2 -> others d s2 s3 -> others d s1 s3.
Proof. intros [_ H1] [I H2]. split; [done|]. intros d' Hd. by rewrite H2, H1. Qed.

(** A computation that reads. *)
Definition quiet (w w' : world) : Prop := control w' = control w /\ same (store w) (store w').

Lemma quiet_refl w : inv (store w) -> quiet w w.
Proof. intros. by split; [|apply same_refl]. Qed.
Lemma quiet_trans w1 w2 w3 : quiet w1 w2 -> quiet w2 w3 -> quiet w1 w3.
Proof. intros [C1 S1] [C2 S2]. split; [congruence|by eapply same_trans]. Qed.
Lemma quiet_set w s : same (store w) s -> quiet w (setStore w s).
Proof. by split. Qed.
Lemma quiet_inv w w' : quiet w w' -> inv (store w').
Proof. intros [_ [I _]]. done. Qed.
Lemma quiet_tree w w' d : quiet w w' -> treeAt w' d = treeAt w d.
Proof. intros [_ [_ H]]. apply H. Qed.

Lemma lift_get d q n w (Q : world -> res (transfer_error E) Obj -> Prop) :
  inv (store w) -> Forall clean_seg (q ++ [n]) ->
  (forall w' r, quiet w w' -> (forall o, r = Ok o -> GetName o = n /\ treeAt w d !! (q ++ [n]) = Some (IsDir o)) -> Q w' r) ->
  ends (lift (sGet d (mkpath (q ++ [n])))) w Q.
Proof.
  intros I Hc H. apply ends_lift. pose proof (law_get d q n _ I Hc) as L. destruct (sGet d _ _) as [s r].
  destruct L as [L1 L2]. apply H; [by apply quiet_set|]. destruct r; intros o [= <-]. by apply L2.
Qed.

Lemma lift_getUnwrap d q n w (Q : world -> res (transfer_error E) Obj -> Prop) :
  inv (store w) -> Forall clean_seg (q ++ [n]) ->
  (forall w' r, quiet w w' -> (forall o, r = Ok o -> GetName o = n /\ treeAt w d !! (q ++ [n]) = Some (IsDir o)) -> Q w' r) ->
  ends (lift (sGetUnwrap d (mkpath (q ++ [n])))) w Q.
Proof.
  intros I Hc H. apply ends_lift. pose proof (law_getUnwrap d q n _ I Hc) as L. destruct (sGetUnwrap d _ _) as [s r].
  destruct L as [L1 L2]. apply H; [by apply quiet_set|]. destruct r; intros o [= <-]. by apply L2.
Qed.

Definition listing (t : ftree) (p : fpath) (l : list Obj) : Prop :=
  isDirAt t p /\ NoDup (map GetName l) /\ forall n b, t !! (p ++ [n]) = Some b <-> exists o, o ∈ l /\ GetName o = n /\ IsDir o = b.

Lemma lift_list d p w (Q : world -> res (transfer_error E) (list Obj) -> Prop) :
  inv (store w) -> Forall clean_seg p ->
  (forall w' r, quiet w w' -> (forall l, r = Ok l -> listing (treeAt w d) p l) -> Q w' r) ->
  ends (lift (sList d (mkpath p))) w Q.
Proof.
  intros I Hc H. apply ends_lift. pose proof (law_list d p _ I Hc) as L. destruct (sList d _ _) as [s r].
  destruct L as [L1 L2]. apply H; [by apply quiet_set|]. destruct r; intros o [= <-]. by apply L2.
Qed.

Lemma lift_same {A} (m : Op S E A) w (Q : world -> res (transfer_error E) A -> Prop) :
  same (store w) (m (store w)).1 -> (forall w' r, quiet w w' -> Q w' r) -> ends (lift m) w Q.
Proof. intros L H. apply ends_lift. destruct (m (store w)) as [s r]. apply H. by apply quiet_set. Qed.

(** A file stands for [x] in the destination: at its own place or at that of a
    directory above it. *)
Definition covered (t2 : ftree) (q' x : fpath) : Prop := exists y, y `prefix_of` x /\ t2 !! (q' ++ y) = Some false.

Definition erased (p q' : fpath) (t2 t t' : ftree) : Prop :=
  forall k, t' !! k = t !! k \/
            t' !! k = None /\ exists x, k = p ++ x /\ (t !! k = Some false -> covered t2 q' x).

Definition allCovered (p q' : fpath) (t2 t : ftree) : Prop := forall x, t !! (p ++ x) = Some false -> covered t2 q' x.

Lemma covered_child t2 q' c x : covered t2 (q' ++ [c]) x -> covered t2 q' (c :: x).
Proof. intros (y & Hy & H). exists (c :: y). split; [by apply prefix_cons|]. by rewrite <- (assoc_L (++)) in H. Qed.

Lemma covered_agree t2 t2' q' x : (forall y, t2' !! (q' ++ y) = t2 !! (q' ++ y)) -> covered t2' q' x -> covered t2 q' x.
Proof. intros H (y & Hy & Hc). exists y. by rewrite <- H. Qed.

Lemma erased_refl p q' t2 t : erased p q' t2 t t.
Proof. by left. Qed.

Lemma erased_trans p q' t2 t2' t t1 t' : (forall y, t2' !! (q' ++ y) = t2 !! (q' ++ y)) ->
  erased p q' t2 t t1 -> erased p q' t2' t1 t' -> erased p q' t2 t t'.
Proof.
  intros Ha H1 H2 k. destruct (H2 k) as [->|(Hn & x & -> & Hx)]; [apply H1|].
  destruct (H1 (p ++ x)) as [E1|(Hn1 & x' & Heq & Hx')].
  - right. split; [done|]. exists x. split; [done|]. rewrite <- E1. intros Hf. eapply covered_agree; [exact Ha|by apply Hx].
  - right. split; [done|]. by exists x'.
Qed.

Lemma erased_child p q' c t2 t t' : erased (p ++ [c]) (q' ++ [c]) t2 t t' -> erased p q' t2 t t'.
Proof.
  intros H k. destruct (H k) as [|(Hn & x & -> & Hx)]; [by left|]. right. split; [done|]. exists (c :: x).
  split; [by rewrite <- (assoc_L (++))|]. intros Hf. by apply covered_child, Hx.
Qed.

Lemma erased_remove p q' t2 t : allCovered p q' t2 t -> erased p q' t2 t (treeRemove t p).
Proof.
  intros H k. destruct (decide (p `prefix_of` k)) as [[x ->]|Hk]; [|left; by apply treeRemove_other].
  right. split; [apply treeRemove_under|]. exists x. split; [done|]. apply H.
Qed.

(** A file that is gone or covered: what has been erased needs no cover any more. *)
Lemma allCovered_erased p q' t2 t2' t t1 : (forall y, t2' !! (q' ++ y) = t2 !! (q' ++ y)) ->
  erased p q' t2 t t1 -> allCovered p q' t2' t1 -> allCovered p q' t2 t.
Proof.
  intros Ha He Hc x Hx. destruct (He (p ++ x)) as [E1|(_ & x' & Heq & Hx')].
  - eapply covered_agree; [exact Ha|]. apply Hc. by rewrite E1.
  - apply app_inv_head in Heq as <-. by apply Hx'.
Qed.

Definition separate (d1 d2 : D) (p q' : fpath) : Prop := d1 <> d2 \/ apart p q'.

(** The steps of the check, from [w] on. *)
Definition checked (d1 d2 : D) (p q' : fpath) (w w' : world) : Prop :=
  control w' = control w /\ others d1 (store w) (store w') /\
  erased p q' (treeAt w d2) (treeAt w d1) (treeAt w' d1).

Lemma checked_dst d1 d2 p q' w w' y : separate d1 d2 p q' -> checked d1 d2 p q' w w' ->
  treeAt w' d2 !! (q' ++ y) = treeAt w d2 !! (q' ++ y).
Proof.
  intros Hs (_ & [_ Ho] & He). destruct (decide (d2 = d1)) as [->|Hd]; [|by rewrite Ho].
  destruct (He (q' ++ y)) as [|(_ & x & Heq & _)]; [done|]. destruct Hs as [|Ha]; [done|]. by apply (apart_ne _ _ x y) in Ha.
Qed.

Lemma checked_quiet d1 d2 p q' w w' : quiet w w' -> checked d1 d2 p q' w w'.
Proof. intros [C Q]. split_and!; [done|by apply same_others|]. destruct Q as [_ Q]. rewrite Q. apply erased_refl. Qed.

Lemma checked_trans d1 d2 p q' w1 w2 w3 : separate d1 d2 p q' ->
  checked d1 d2 p q' w1 w2 -> checked d1 d2 p q' w2 w3 -> checked d1 d2 p q' w1 w3.
Proof.
  intros Hs H1 H2. pose proof (fun y => checked_dst _ _ _ _ _ _ y Hs H1) as Hd.
  destruct H1 as (C1 & O1 & E1), H2 as (C2 & O2 & E2). split_and!; [congruence|by eapply others_trans|].
  by eapply erased_trans.
Qed.

Lemma checked_inv d1 d2 p q' w w' : checked d1 d2 p q' w w' -> inv (store w').
Proof. by intros (_ & [I _] & _). Qed.

Lemma checked_child d1 d2 p q' c w w' : checked d1 d2 (p ++ [c]) (q' ++ [c]) w w' -> checked d1 d2 p q' w w'.
Proof. intros (C & O & H). split_and!; [done|done|]. by eapply erased_child. Qed.

(** What the check promises of a source and its place in the destination. *)
Definition checkPost (d1 d2 : D) (p q' : fpath) (w : world) {A} (w' : world) (r : res (transfer_error E) A) : Prop :=
  checked d1 d2 p q' w w' /\ (is_ok r = true -> allCovered p q' (treeAt w d2) (treeAt w d1)).

Section Children.
Context (rec : D -> D -> gostr -> gostr -> T (D:=D) (S:=S) (E:=E) unit) (d1 d2 : D) (p q' : fpath).
Context (Hs : separate d1 d2 p q') (Hp : Forall clean_seg p).
Context (Hrec : forall c w, inv (store w) -> clean_seg c ->
  ends (rec d1 d2 (mkpath (p ++ [c])) (mkpath q')) w (checkPost d1 d2 (p ++ [c]) (q' ++ [c]) w)).

Lemma verifyAll_ends objs : forall w, inv (store w) -> Forall (fun o => clean_seg (GetName o)) objs ->
  ends (verifyAll rec d1 d2 objs (mkpath p) (mkpath q')) w (fun w' r =>
    checked d1 d2 p q' w w' /\
    exists hasErr, r = Ok hasErr /\
      (hasErr = false -> forall o x, o ∈ objs -> treeAt w d1 !! (p ++ GetName o :: x) = Some false ->
         covered (treeAt w d2) q' (GetName o :: x))).
Proof.
  induction objs as [|o objs IH]; intros w I Hc; simpl.
  - apply ends_ret. split; [by apply checked_quiet, quiet_refl|]. exists false. split; [done|].
    intros _ o x Ho. by apply not_elem_of_nil in Ho.
  - apply Forall_cons in Hc as [Ho Hc]. rewrite join2_mkpath by done.
    apply ends_bind, ends_attempt. eapply ends_mono; [by apply Hrec|]. intros w1 r1 [K1 A1].
    assert (I1 : inv (store w1)) by (by eapply checked_inv). apply checked_child in K1.
    apply ends_bind. eapply ends_mono; [by apply IH|]. intros w2 r2 (K2 & hasErr & -> & A2).
    apply ends_ret. split; [by eapply checked_trans|]. eexists. split; [done|].
    intros [Hr ->]%orb_false_elim o' x Ho' Hf. apply negb_false_iff in Hr. apply elem_of_cons in Ho' as [->|Ho'].
    + apply covered_child. apply (A1 Hr). by rewrite <- (assoc_L (++)).
    + pose proof K1 as (_ & _ & He). destruct (He (p ++ GetName o' :: x)) as [E1|(_ & x' & Heq & Hx')].
      * eapply covered_agree; [intros y; by eapply checked_dst|]. apply A2; [done|done|]. by rewrite E1.
      * apply app_inv_head in Heq as <-. by apply Hx'.
Qed.

End Children.

Lemma lift_remove d p w (Q : world -> res (transfer_error E) unit -> Prop) :
  inv (store w) -> Forall clean_seg p ->
  (forall w' r, control w' = control w -> others d (store w) (store w') ->
     treeAt w' d = treeAt w d \/ is_ok r = true /\ treeAt w' d = treeRemove (treeAt w d) p -> Q w' r) ->
  ends (lift (sRemove d (mkpath p))) w Q.
Proof.
  intros I Hc H. apply ends_lift. pose proof (law_remove d p _ I Hc) as L. destruct (sRemove d _ _) as [s r].
  destruct L as [L1 L2]. by apply H; [|done|destruct r].
Qed.

(** Removing a source whose files are all covered. *)
Lemma remove_checked d1 d2 p q' w : inv (store w) -> Forall clean_seg p ->
  allCovered p q' (treeAt w d2) (treeAt w d1) ->
  ends (lift (sRemove d1 (mkpath p))) w (checkPost d1 d2 p q' w).
Proof.
  intros I Hp Ha. apply lift_remove; [done|done|]. intros w' r C O H. split; [|done]. split_and!; [done|done|].
  destruct H as [->|[_ ->]]; [apply erased_refl|by apply erased_remove].
Qed.

Lemma file_alone d (w : world) q n x b : inv (store w) -> treeAt w d !! (q ++ [n]) = Some false ->
  treeAt w d !! ((q ++ [n]) ++ x) = Some b -> x = [].
Proof.
  intros I Hf Hx. destruct x as [|c x]; [done|]. exfalso. pose proof (law_wf (store w) d I) as W.
  apply (wf_prefix _ W) in Hx as [Hn|Hd]; [by destruct q|congruence|done].
Qed.

Lemma verify_ends fuel : forall d1 d2 q pp n w,
  inv (store w) -> Forall clean_seg (pp ++ [n]) -> Forall clean_seg q -> separate d1 d2 (pp ++ [n]) (q ++ [n]) ->
  ends (verifyAndRemove fuel d1 d2 (mkpath (pp ++ [n])) (mkpath q)) w
    (checkPost d1 d2 (pp ++ [n]) (q ++ [n]) w).
Proof.
  induction fuel as [|fuel IH]; intros d1 d2 q pp n w I Hp Hq Hs; simpl.
  { apply ends_fail. split; [by apply checked_quiet, quiet_refl|done]. }
  set (p := pp ++ [n]) in *. set (q' := q ++ [n]) in *.
  assert (Hn : clean_seg n) by (by apply Forall_app in Hp as [_ [? _]%Forall_cons]).
  assert (Hq' : Forall clean_seg q') by (apply Forall_app; split; [done|by constructor]).
  unfold verifyWith. apply ends_bind, lift_getUnwrap; [done|done|]. intros w1 r1 Q1 H1.
  pose proof (checked_quiet d1 d2 p q' _ _ Q1) as K1.
  destruct r1 as [o1|e1]; [|split; [done|done]]. destruct (H1 o1 eq_refl) as [Hn1 Ht1]. rewrite Hn1, join2_mkpath by done. fold q'.
  apply ends_bind, lift_getUnwrap; [by eapply quiet_inv|done|]. intros w2 r2 Q2' H2.
  pose proof (quiet_trans _ _ _ Q1 Q2') as Q2. pose proof (checked_quiet d1 d2 p q' _ _ Q2) as K2.
  destruct r2 as [o2|e2]; [|split; [done|done]]. destruct (H2 o2 eq_refl) as [_ Ht2]. rewrite (quiet_tree _ _ d2 Q1) in Ht2. fold q' in Ht2.
  assert (I2 : inv (store w2)) by (by eapply quiet_inv). assert (Hd : forall d, treeAt w2 d = treeAt w d) by (intros; by apply quiet_tree).
  assert (Hret : forall {A} w' (r : res (transfer_error E) A), checkPost d1 d2 p q' w2 w' r -> checkPost d1 d2 p q' w w' r).
  { intros A w' r [K A']. split; [by eapply checked_trans|]. by rewrite <- !Hd. }
  destruct (IsDir o2) eqn:Hdir; simpl.
  2:{ eapply ends_mono; [apply (remove_checked d1 d2 p q'); [done|done|]|by intros; apply Hret].
      rewrite !Hd. intros x _. exists []. split; [apply prefix_nil|by rewrite app_nil_r]. }
  apply ends_bind, lift_list; [done|done|]. intros w3 r3 Q3' H3.
  pose proof (quiet_trans _ _ _ Q2 Q3') as Q3. pose proof (checked_quiet d1 d2 p q' _ _ Q3) as K3.
  destruct r3 as [objs|e3]; [|split; [done|done]]. destruct (H3 objs eq_refl) as (Hdp & _ & Hl). rewrite Hd in Hdp, Hl.
  assert (I3 : inv (store w3)) by (by eapply quiet_inv).
  apply ends_bind. eapply ends_mono.
  { apply (verifyAll_ends _ d1 d2 p q'); [done|done| |done|].
    - intros c w' I' Hc'. apply IH; [done| | |].
      + apply Forall_app. split; [done|by constructor].
      + done.
      + destruct Hs as [?|?]; [by left|right]. by apply apart_app.
    - apply Forall_forall. intros o Ho. destruct (proj2 (Hl (GetName o) (IsDir o))) as []; [by exists o|].
      eapply (wf_seg _ (law_wf (store w) d1 I)). apply Hl. by exists o. }
  intros w4 r4 (K4 & hasErr & -> & A4). assert (K4' : checked d1 d2 p q' w w4) by (by eapply checked_trans).
  destruct hasErr; [apply ends_fail; by split|]. specialize (A4 eq_refl).
  assert (HA : allCovered p q' (treeAt w d2) (treeAt w d1)).
  { intros x Hx. rewrite !(quiet_tree _ _ _ Q3) in A4. destruct x as [|c x].
    - rewrite app_nil_r in Hx. destruct Hdp as [Hdp|Hdp]; [by destruct pp|congruence].
    - destruct (treeAt w d1 !! (p ++ [c])) as [b|] eqn:Hc.
      + apply Hl in Hc as (o & Ho & <- & _). by apply A4.
      + by rewrite (wf_absent_child _ _ _ x (law_wf (store w) d1 I) Hc) in Hx. }
  eapply ends_mono; [apply (remove_checked d1 d2 p q'); [by eapply checked_inv|done|]|].
  - intros x Hx. eapply covered_agree; [intros y; symmetry; by eapply checked_dst|]. apply HA.
    destruct K4' as (_ & _ & He). destruct (He (p ++ x)) as [<-|[Hno _]]; [done|congruence].
  - intros w5 r5 [K5 _]. split; [by eapply checked_trans|]. by intros _.
Qed.

End Check.
