(* ===== verification/TransferSys.v ===== *)
(** Transfers: a task writes to its place in the destination only, copies the
    source completely when it reports no error, and a move never loses a file. *)
From S2P Require Import Prelude GoString GoPath Paths Mounts Storages Objects KeyedCache DirCache OpFs FsTree.
From S2P Require Import OpFsSpec OpFsRead OpFsWrite FsView TaskGroup Transfer TransferSpec.

Section Tasks.
Context {D S E : Type} {DD : EqDecision D} {OO : StorageOps D S E} {V : StorageView D S} {LL : StorageLaws D S E}.

Abbreviation world := (world D S).
Abbreviation treeAt w d := (tree (store w) d).
Abbreviation answer A := (res (transfer_error E) A).

(** ** What a task writes *)
Definition wrote (d : D) (q : fpath) (n : gostr) (w w' : world) : Prop :=
  others d (store w) (store w') /\ within (region q n) (treeAt w d) (treeAt w' d).

Definition detached (d1 d2 : D) (p q : fpath) (n : gostr) : Prop :=
  d1 <> d2 \/ apart p (q ++ [n]) /\ Forall notTemp p.

Lemma wrote_quiet d q n w w' : quiet w w' -> wrote d q n w w'.
Proof. intros [_ H]. split; [by apply same_others|]. destruct H as [_ H]. rewrite H. apply within_refl. Qed.

Lemma wrote_trans d q n w1 w2 w3 : wrote d q n w1 w2 -> wrote d q n w2 w3 -> wrote d q n w1 w3.
Proof. intros [O1 W1] [O2 W2]. split; [by eapply others_trans|by eapply within_trans]. Qed.

Lemma wrote_child d q n c w w' : wrote d (q ++ [n]) c w w' -> wrote d q n w w'.
Proof. intros [O W]. split; [done|]. eapply within_mono; [|exact W]. intros k. apply region_child. Qed.

Lemma wrote_inv d q n w w' : wrote d q n w w' -> inv (store w').
Proof. by intros [[I _] _]. Qed.

Lemma wrote_src d1 d2 p q n w w' x : detached d1 d2 p q n -> wrote d2 q n w w' ->
  treeAt w' d1 !! (p ++ x) = treeAt w d1 !! (p ++ x).
Proof.
  intros Hs [[_ O] W]. destruct (decide (d1 = d2)) as [->|Hd]; [|by rewrite O].
  destruct Hs as [|[Ha Ht]]; [done|]. destruct (W (p ++ x)) as [|Hr]; [done|]. by apply region_apart in Hr.
Qed.

Lemma region_sibling q c c' x : notTemp c -> c <> c' -> ~ region q c' (q ++ c :: x).
Proof.
  intros Ht Hc [[z H]|[[z H]|[z H]]]; rewrite <- ?(assoc_L (++)) in H; apply app_inv_head in H; simpl in H; try congruence.
Qed.

Lemma wrote_sibling d q c c' x w w' : notTemp c -> c <> c' -> wrote d q c' w w' ->
  treeAt w' d !! (q ++ c :: x) = treeAt w d !! (q ++ c :: x).
Proof. intros Ht Hc [_ W]. destruct (W (q ++ c :: x)) as [|H]; [done|]. by apply region_sibling in H. Qed.

Definition copied (p q' : fpath) (t t2 : ftree) : Prop := forall x b, t !! (p ++ x) = Some b -> t2 !! (q' ++ x) = Some b.

Lemma copied_agree p q' t t' t2 : (forall x, t' !! (p ++ x) = t !! (p ++ x)) -> copied p q' t' t2 -> copied p q' t t2.
Proof. intros H Hc x b Hx. apply Hc. by rewrite H. Qed.

(** What a task promises: [n] is the name it gives its source. *)
Definition taskPost (d1 d2 : D) (p q : fpath) (n : gostr) (w : world) (w' : world) (r : answer unit) : Prop :=
  wrote d2 q n w w' /\ (is_ok r = true -> dependable d2 -> copied p (q ++ [n]) (treeAt w d1) (treeAt w' d2)).

Lemma task_fails {A} d1 d2 p q n w w' (e : transfer_error E) (Q : world -> answer A -> Prop) :
  wrote d2 q n w w' -> taskPost d1 d2 p q n w w' (Err e).
Proof. by split. Qed.

Lemma lift_makeDir d q n w (Q : world -> answer unit -> Prop) : inv (store w) -> Forall okName (q ++ [n]) ->
  (forall w' r, control w' = control w -> wrote d q n w w' ->
     (is_ok r = true -> dependable d -> isDirAt (treeAt w' d) (q ++ [n])) -> Q w' r) ->
  ends (lift (sMakeDir d (mkpath (q ++ [n])))) w Q.
Proof.
  intros I Hq H. apply ends_lift. pose proof (law_makeDir d _ _ I Hq) as L. destruct (sMakeDir d _ _) as [s r].
  destruct L as (L1 & L2 & L3). apply H; [done| |by destruct r]. split; [done|].
  intros k. destruct (L2 k) as [|[Hk _]]; [by left|]. right. by left.
Qed.

Lemma lift_put d q f w (Q : world -> answer unit -> Prop) : inv (store w) -> Forall okName q -> okName (fName f) ->
  (forall w' r, control w' = control w -> wrote d q (fName f) w w' ->
     (is_ok r = true -> treeAt w' d !! (q ++ [fName f]) = Some false) -> Q w' r) ->
  ends (lift (sPut d (mkpath q) f)) w Q.
Proof.
  intros I Hq Hf H. apply ends_lift. pose proof (law_put d q f _ I Hq Hf) as L. destruct (sPut d _ _ _) as [s r].
  destruct L as (L1 & L2 & L3). apply H; [done| |].
  - split; [done|]. intros k. simpl. destruct (decide (region q (fName f) k)) as [|Hk]; [by right|]. left. apply L2.
    unfold region in Hk. split_and!; intros Hx; apply Hk; [left|by right; left|by right; right].
    etrans; [exact Hx|by eexists].
  - intros Hr. apply L3. by destruct r.
Qed.

Lemma link_ends d q n w (Q : world -> answer Obj -> Prop) : inv (store w) -> Forall clean_seg (q ++ [n]) ->
  (forall w' r, quiet w w' -> (forall o, r = Ok o -> GetName o = n) -> Q w' r) ->
  ends (lift (sLink d (mkpath (q ++ [n])))) w Q.
Proof.
  intros I Hc H. apply ends_lift. pose proof (law_link d q n _ I Hc) as L. destruct (sLink d _ _) as [s r].
  destruct L as [L1 L2]. apply H; [by apply quiet_set|]. destruct r; intros o [= <-]. by apply L2.
Qed.

(** ** The children of a folder *)
Section Children.
Context (f : FileTransferTask D -> T (D:=D) (S:=S) (E:=E) unit) (t : FileTransferTask D).
Context (p q : fpath) (n : gostr).
Abbreviation d1 := (SrcStorage t).
Abbreviation d2 := (DstStorage t).
Abbreviation q' := (q ++ [n]).
Context (Ha : detached d1 d2 p q n).
Context (T1 : ftree) (Hok : forall c x b, T1 !! (p ++ c :: x) = Some b -> okName c).

Definition sameSrc (w : world) : Prop := forall x, treeAt w d1 !! (p ++ x) = T1 !! (p ++ x).

Lemma sameSrc_wrote w w' : sameSrc w -> wrote d2 q n w w' -> sameSrc w'.
Proof. intros H W x. by rewrite (wrote_src _ _ _ _ _ _ _ x Ha W). Qed.

Context (Hf : forall o w, inv (store w) -> sameSrc w -> T1 !! (p ++ [GetName o]) = Some (IsDir o) ->
  ends (f (childTask t (mkpath q') o)) w (taskPost d1 d2 (p ++ [GetName o]) q' (GetName o) w)).

Definition childrenPost (objs : list Obj) (w w' : world) (r : answer unit) : Prop :=
  wrote d2 q n w w' /\
  (forall c x, notTemp c -> c ∉ map GetName objs -> treeAt w' d2 !! (q' ++ c :: x) = treeAt w d2 !! (q' ++ c :: x)) /\
  (is_ok r = true -> dependable d2 ->
     (forall o x b, o ∈ objs -> T1 !! (p ++ GetName o :: x) = Some b -> treeAt w' d2 !! (q' ++ GetName o :: x) = Some b) /\
     (isDirAt (treeAt w d2) q' -> isDirAt (treeAt w' d2) q')).

(** The rest of the children, from a state in which the first one is done. *)
Lemma children_cons o objs w w2 w' r : inv (store w2) -> okName (GetName o) -> T1 !! (p ++ [GetName o]) = Some (IsDir o) ->
  GetName o ∉ map GetName objs ->
  wrote d2 q n w w2 ->
  (forall c x, notTemp c -> c <> GetName o -> treeAt w2 d2 !! (q' ++ c :: x) = treeAt w d2 !! (q' ++ c :: x)) ->
  (dependable d2 -> forall x b, T1 !! (p ++ GetName o :: x) = Some b -> treeAt w2 d2 !! (q' ++ GetName o :: x) = Some b) ->
  childrenPost objs w2 w' r -> childrenPost (o :: objs) w w' r.
Proof.
  intros I2 Ho Hb Hno W2 K2 C2 (W3 & K3 & C3). destruct (law_ok _ Ho) as [_ Htm]. split_and!; [by eapply wrote_trans| |].
  - intros c x Hc Hn. simpl in Hn. apply not_elem_of_cons in Hn as [Hn1 Hn2]. rewrite K3, K2; done.
  - intros Hr Hd. destruct (C3 Hr Hd) as [C3a C3b]. specialize (C2 Hd). split.
    + intros o' x b [->|Ho']%elem_of_cons Hx; [|by apply C3a]. rewrite K3; auto.
    + intros _. apply C3b. apply (wf_parent _ (law_wf (store w2) d2 I2) _ (GetName o) (IsDir o)). by apply C2.
Qed.

Lemma eachChild_ends existed objs : forall w,
  inv (store w) -> sameSrc w -> NoDup (map GetName objs) -> wfTree T1 ->
  (forall o, o ∈ objs -> T1 !! (p ++ [GetName o]) = Some (IsDir o)) ->
  (forall o, o ∈ objs -> GetName o ∈ existed -> treeAt w d2 !! (q' ++ [GetName o]) = Some false) ->
  ends (eachChild f t (mkpath q') existed objs) w (childrenPost objs w).
Proof.
  induction objs as [|o objs IH]; intros w I Hs Hnd W Hin Hex; simpl.
  { apply ends_ret. split_and!; [by apply wrote_quiet, quiet_refl|done|]. intros _ _. split; [|done].
    intros o x b Ho. by apply not_elem_of_nil in Ho. }
  apply NoDup_cons in Hnd as [Hno Hnd]. pose proof (Hin o ltac:(by left)) as Ho.
  assert (Hoc : okName (GetName o)) by (by eapply Hok).
  assert (Hne : forall o', o' ∈ objs -> GetName o' <> GetName o).
  { intros o' Ho' E'. apply Hno. rewrite <- E'. by apply list_elem_of_fmap_2. }
  apply ends_bind, lift_same; [by apply law_ctx|]. intros w1 r1 Q1. pose proof (wrote_quiet d2 q n _ _ Q1) as W1.
  assert (Hd1 : forall d, treeAt w1 d = treeAt w d) by (intros; by apply quiet_tree).
  destruct r1 as [u|e]; [|split_and!; [done|by intros; rewrite Hd1|done]].
  assert (I1 : inv (store w1)) by (by eapply quiet_inv). assert (Hs1 : sameSrc w1) by (by eapply sameSrc_wrote).
  assert (Hrest : forall w2, wrote d2 q' (GetName o) w1 w2 ->
    (dependable d2 -> forall x b, T1 !! (p ++ GetName o :: x) = Some b -> treeAt w2 d2 !! (q' ++ GetName o :: x) = Some b) ->
    ends (eachChild f t (mkpath q') existed objs) w2 (childrenPost (o :: objs) w)).
  { intros w2 W2 C2. pose proof (wrote_child _ _ _ _ _ _ W2) as W2'.
    assert (K2 : forall c x, notTemp c -> c <> GetName o -> treeAt w2 d2 !! (q' ++ c :: x) = treeAt w d2 !! (q' ++ c :: x)).
    { intros c x Hc Hn. by rewrite (wrote_sibling _ _ _ _ _ _ _ Hc Hn W2), Hd1. }
    assert (I2 : inv (store w2)) by (by eapply wrote_inv).
    eapply ends_mono; [apply IH; try done|].
    - by eapply sameSrc_wrote.
    - intros o' Ho'. apply Hin. by right.
    - intros o' Ho' He. rewrite K2; [apply Hex; [by right|done]| |by apply Hne].
      apply (law_ok (GetName o')). eapply Hok. apply Hin. by right.
    - intros w3 r3 H3. eapply (children_cons o objs w w2); try done. by eapply wrote_trans. }
  destruct (decide _) as [(_ & Hd & He)|_].
  - apply ends_bind, ends_ret, Hrest; [by apply wrote_quiet, quiet_refl|].
    intros _ x b Hb. rewrite Hd1. pose proof (Hex o ltac:(by left) He) as Hf0. rewrite Hd in Ho.
    destruct x as [|y x]; [congruence|]. exfalso. replace (p ++ GetName o :: y :: x) with ((p ++ [GetName o]) ++ y :: x) in Hb by by rewrite <- (assoc_L (++)).
    apply (wf_prefix _ W) in Hb as [Hb|Hb]; [by destruct p|congruence|done].
  - apply ends_bind. eapply ends_mono; [by apply Hf|]. intros w2 r2 [W2 C2].
    destruct r2 as [u2|e2].
    + apply Hrest; [done|]. intros Hd x b Hb. specialize (C2 eq_refl Hd x b). rewrite <- (assoc_L (++) p), <- (assoc_L (++) q') in C2. apply C2.
      by rewrite Hs1.
    + split_and!; [eapply wrote_trans; [exact W1|by eapply wrote_child]| |done]. intros c x Hc Hn. simpl in Hn.
      apply not_elem_of_cons in Hn as [Hn _]. by rewrite (wrote_sibling _ _ _ _ _ _ _ Hc Hn W2), Hd1.
Qed.

Lemma existedObjs_ends objs : forall w, inv (store w) ->
  ends (existedObjs objs) w (fun w' r => quiet w w' /\
    forall l, r = Ok l -> forall c, c ∈ l -> exists o, o ∈ objs /\ GetName o = c /\ IsDir o = false).
Proof.
  induction objs as [|o objs IH]; intros w I; simpl.
  { apply ends_ret. split; [by apply quiet_refl|]. intros l [= <-] c Hc. by apply not_elem_of_nil in Hc. }
  apply ends_bind, lift_same; [by apply law_ctx|]. intros w1 r1 Q1. destruct r1 as [u|e]; [|by split].
  apply ends_bind. eapply ends_mono; [apply IH; by eapply quiet_inv|]. intros w2 r2 [Q2 H2].
  assert (Q : quiet w w2) by (by eapply quiet_trans).
  destruct r2 as [l|e]; [|by split]. apply ends_ret. split; [done|]. intros l' [= <-] c Hc.
  assert (Hl : c ∈ l -> exists o', o' ∈ o :: objs /\ GetName o' = c /\ IsDir o' = false).
  { intros Hx. destruct (H2 l eq_refl c Hx) as (o' & Ho' & ?). exists o'. split; [by right|done]. }
  destruct (IsDir o) eqn:Hd; [by apply Hl|]. apply elem_of_cons in Hc as [->|Hc]; [|by apply Hl].
  exists o. split; [by left|done].
Qed.

Lemma existing_ends w : inv (store w) -> Forall clean_seg q' ->
  ends (existing t (mkpath q')) w (fun w' r => quiet w w' /\
    forall l, r = Ok l -> forall c, c ∈ l -> treeAt w d2 !! (q' ++ [c]) = Some false).
Proof.
  intros I Hc. assert (Hnil : forall c : gostr, c ∉ @nil gostr) by (intros; apply not_elem_of_nil). unfold existing. destruct (decide _) as [Hm|Hm].
  - apply ends_bind, ends_attempt, lift_list; [done|done|]. intros w1 r1 Q1 H1. destruct r1 as [objs|e].
    + eapply ends_mono; [apply existedObjs_ends; by eapply quiet_inv|]. intros w2 r2 [Q2 H2].
      split; [by eapply quiet_trans|]. intros l Hl c Hx. destruct (H2 l Hl c Hx) as (o & Ho & <- & Hd).
      destruct (H1 objs eq_refl) as (_ & _ & Hlist). apply Hlist. by exists o.
    + destruct (notFound e); [apply ends_ret|apply ends_fail]; (split; [done|]); [intros l [= <-] c Hx; by apply Hnil in Hx|done].
  - apply ends_ret. split; [by apply quiet_refl|]. intros l [= <-] c Hx. by apply Hnil in Hx.
Qed.

End Children.

(** ** Tasks *)

(** A task whose source names may stand in the destination. *)
Record goodTask (t : FileTransferTask D) (p q : fpath) (n' : gostr) (T1 : ftree) : Prop := {
  gt_src : SrcActualPath t = mkpath p;
  gt_dst : DstActualPath t = mkpath q;
  gt_clean : Forall clean_seg p;
  gt_ok : Forall okName q;
  gt_name : okName n' /\ exists pp n, p = pp ++ [n] /\ n' = (if seqb (DstName t) "" then n else DstName t);
  gt_detached : detached (SrcStorage t) (DstStorage t) p q n';
  gt_names x b : T1 !! (p ++ x) = Some b -> Forall okName x;
  gt_wf : wfTree T1
}.

Lemma okName_clean q : Forall okName q -> Forall clean_seg q.
Proof. intros H. eapply Forall_impl; [exact H|]. intros n Hn. by apply law_ok. Qed.

Lemma child_good t p q n' T1 o : goodTask t p q n' T1 -> T1 !! (p ++ [GetName o]) = Some (IsDir o) ->
  goodTask (childTask t (mkpath (q ++ [n'])) o) (p ++ [GetName o]) (q ++ [n']) (GetName o) T1.
Proof.
  intros [G1 G2 G3 G4 [G5 G6] G7 G8 G9] Ho. pose proof (G8 _ _ Ho) as [Hok _]%Forall_cons. destruct (law_ok _ Hok) as [Hc Ht].
  split; simpl; try done.
  - by rewrite G1, join2_mkpath.
  - apply Forall_app. split; [done|by constructor].
  - apply Forall_app. split; [done|by constructor].
  - split; [done|]. by exists p, (GetName o).
  - destruct G7 as [?|[Ha Hp]]; [by left|right]. split; [by apply apart_app|]. apply Forall_app. split; [done|by constructor].
  - intros x b Hx. rewrite <- (assoc_L (++)) in Hx. by apply G8 in Hx as [_ ?]%Forall_cons.
Qed.

Lemma run_ends f t p q n' T1 w :
  goodTask t p q n' T1 -> inv (store w) -> sameSrc t p T1 w ->
  (forall o w, inv (store w) -> sameSrc t p T1 w -> T1 !! (p ++ [GetName o]) = Some (IsDir o) ->
     ends (f (childTask t (mkpath (q ++ [n'])) o)) w
       (taskPost (SrcStorage t) (DstStorage t) (p ++ [GetName o]) (q ++ [n']) (GetName o) w)) ->
  ends (RunWithNextTaskCallback f t) w (taskPost (SrcStorage t) (DstStorage t) p q n' w).
Proof.
  intros G I Hs Hf. pose proof G as [G1 G2 G3 G4 [G5 (pp & n & Hp & Hn')] G7 G8 G9]. unfold RunWithNextTaskCallback.
  rewrite G1. subst p. set (d1 := SrcStorage t) in *. set (d2 := DstStorage t) in *.
  apply ends_bind, lift_get; [done|done|]. intros w1 r1 Q1 H1. pose proof (wrote_quiet d2 q n' _ _ Q1) as W1.
  destruct r1 as [o|e]; [|by split]. destruct (H1 o eq_refl) as [Hn Ho].
  assert (I1 : inv (store w1)) by (by eapply quiet_inv).
  assert (Hpo : T1 !! (pp ++ [n]) = Some (IsDir o)).
  { pose proof (Hs []) as E0. rewrite app_nil_r in E0. rewrite <- E0. exact Ho. }
  pose proof (law_ok _ G5) as [Hcl _].
  assert (Hq' : Forall clean_seg (q ++ [n'])) by (apply Forall_app; split; [by apply okName_clean|by constructor]).
  destruct (IsDir o).
  - apply ends_bind, lift_list; [done|done|]. intros w2 r2 Q2 H2. pose proof (quiet_trans _ _ _ Q1 Q2) as Q12.
    pose proof (wrote_quiet d2 q n' _ _ Q12) as W2. destruct r2 as [objs|e]; [|by split].
    destruct (H2 objs eq_refl) as (_ & Hnd & Hl). rewrite (quiet_tree _ _ _ Q1) in Hl.
    rewrite Hn, <- Hn', G2, join2_mkpath by (done || by apply okName_clean).
    apply ends_bind, lift_makeDir; [by eapply quiet_inv|apply Forall_app; split; [done|by constructor]|].
    intros w3 r3 _ W3 H3. pose proof (wrote_trans _ _ _ _ _ _ W2 W3) as W13. destruct r3 as [u|e]; [|by split].
    assert (I3 : inv (store w3)) by (by eapply wrote_inv).
    apply ends_bind. eapply ends_mono; [apply (existing_ends t q n' w3); done|]. intros w4 r4 [Q4 H4].
    pose proof (wrote_trans _ _ _ _ _ _ W13 (wrote_quiet d2 q n' _ _ Q4)) as W14. destruct r4 as [ex|e]; [|by split].
    eapply ends_mono; [apply (eachChild_ends f t (pp ++ [n]) q n' G7 T1)|].
    + intros c x b Hb. by apply G8 in Hb as [? _]%Forall_cons.
    + done.
    + by eapply wrote_inv.
    + eapply (sameSrc_wrote t (pp ++ [n]) q n' G7 T1); [|exact W14]. done.
    + done.
    + done.
    + intros o' Ho'. rewrite <- Hs. apply Hl. by exists o'.
    + intros o' _ He. rewrite (quiet_tree _ _ _ Q4). by apply (H4 ex eq_refl).
    + intros w5 r5 (W5 & _ & C5). split; [by eapply wrote_trans|]. intros Hr Hdep x b Hx.
      destruct (C5 Hr Hdep) as [C5a C5b]. rewrite Hs in Hx. destruct x as [|c x].
      * rewrite app_nil_r in Hx |- *.
        destruct (C5b ltac:(rewrite (quiet_tree _ _ _ Q4); by apply H3)) as [Hz|Hz]; [by destruct q|]. rewrite Hpo in Hx. by injection Hx as <-.
      * destruct (T1 !! ((pp ++ [n]) ++ [c])) as [b'|] eqn:Hc.
        -- rewrite <- Hs in Hc. apply Hl in Hc as (o' & Ho' & <- & _). by apply C5a.
        -- by rewrite (wf_absent_child _ _ _ x G9 Hc) in Hx.
  - apply ends_bind, link_ends; [done|done|]. intros w2 r2 Q2 H2. pose proof (quiet_trans _ _ _ Q1 Q2) as Q12.
    pose proof (wrote_quiet d2 q n' _ _ Q12) as W2. destruct r2 as [o2|e]; [|by split]. specialize (H2 o2 eq_refl).
    set (so := if seqb (DstName t) "" then o2 else ObjWrapName (DstName t) o2).
    assert (Hso : GetName so = n') by (subst so; rewrite Hn'; by destruct (seqb _ _)).
    apply ends_bind, lift_same; [apply law_open; by eapply quiet_inv|]. intros w3 r3 Q3.
    pose proof (wrote_trans _ _ _ _ _ _ W2 (wrote_quiet d2 q n' _ _ Q3)) as W3. destruct r3 as [size|e]; [|by split].
    assert (Hf' : fName (streamOf so size) = n') by done.
    rewrite G2. apply lift_put; [by eapply wrote_inv|done|by rewrite Hf'|]. rewrite Hf'.
    intros w4 r4 _ W4 H4. split; [by eapply wrote_trans|]. intros Hr _ x b Hx. rewrite Hs in Hx. destruct x as [|c x].
    + rewrite app_nil_r in Hx |- *. rewrite Hpo in Hx. injection Hx as <-. by apply H4.
    + exfalso. apply (wf_prefix _ G9) in Hx as [Hx|Hx]; [by destruct pp|congruence|done].
Qed.

Lemma runNow_ends fuel : forall t p q n' T1 w,
  goodTask t p q n' T1 -> inv (store w) -> sameSrc t p T1 w ->
  ends (runNow fuel t) w (taskPost (SrcStorage t) (DstStorage t) p q n' w).
Proof.
  induction fuel as [|fuel IH]; intros t p q n' T1 w G I Hs; simpl.
  { apply ends_fail. split; [by apply wrote_quiet, quiet_refl|done]. }
  apply ends_bind. eapply ends_mono.
  - apply (run_ends (runNow fuel) t p q n' T1 w G I Hs). intros o w1 I1 Hs1 Ho.
    apply (IH (childTask t (mkpath (q ++ [n'])) o) _ _ _ T1); [by apply child_good|done|].
    intros x. simpl. rewrite <- (assoc_L (++)). by apply Hs1.
  - intros w1 r1 [W1 C1]. destruct r1 as [u|e]; [|by split]. by split.
Qed.

(** ** The operations of a storage *)
Definition kept (d : D) (p : fpath) (w w' : world) : Prop :=
  inv (store w') /\ forall x, treeAt w' d !! (p ++ x) = treeAt w d !! (p ++ x).

Lemma kept_trans d p w1 w2 w3 : kept d p w1 w2 -> kept d p w2 w3 -> kept d p w1 w3.
Proof. intros [_ K1] [I K2]. split; [done|]. intros x. by rewrite K2. Qed.

Lemma kept_same d p w w' : inv (store w') -> treeAt w' d = treeAt w d -> kept d p w w'.
Proof. intros I H. split; [done|]. intros x. by rewrite H. Qed.

Lemma others_inv d s s' : others d s s' -> inv s'.
Proof. by intros [I _]. Qed.

Lemma apart_sym p q : apart p q -> apart q p.
Proof. by intros [H1 H2]. Qed.

Lemma not_under p q x y : apart p q -> ~ q ++ y `prefix_of` p ++ x.
Proof. intros H. apply (apart_app p q x y H). Qed.

Lemma not_under' p q x : apart p q -> ~ q `prefix_of` p ++ x.
Proof. intros H. rewrite <- (app_nil_r q). by apply not_under. Qed.

Lemma kept_copy d p a b w w' : inv (store w') -> apart p b -> treeAt w' d = treeCopy (treeAt w d) a b -> kept d p w w'.
Proof. intros I Ha H. split; [done|]. intros x. rewrite H. by apply treeCopy_other, not_under'. Qed.

Lemma kept_move d p a b w w' : inv (store w') -> apart p a -> apart p b ->
  treeAt w' d = treeMove (treeAt w d) a b -> kept d p w w'.
Proof. intros I Ha Hb H. split; [done|]. intros x. rewrite H. by apply treeMove_other; apply not_under'. Qed.

Lemma kept_remove d p a w w' : inv (store w') -> apart p a ->
  treeAt w' d = treeAt w d \/ treeAt w' d = treeRemove (treeAt w d) a -> kept d p w w'.
Proof. intros I Ha [H|H]; split; try done; intros x; rewrite H; [done|]. by apply treeRemove_other, not_under'. Qed.

(** A step that leaves the coordinator and the tasks alone. *)
Definition step_of (d : D) (w w' : world) : Prop := control w' = control w /\ others d (store w) (store w').

Lemma step_of_trans d w1 w2 w3 : step_of d w1 w2 -> step_of d w2 w3 -> step_of d w1 w3.
Proof. intros [C1 O1] [C2 O2]. split; [congruence|by eapply others_trans]. Qed.

Lemma lift_move d p q n w (Q : world -> answer unit -> Prop) :
  inv (store w) -> Forall clean_seg (p ++ [n]) -> Forall clean_seg q ->
  (forall w' r, step_of d w w' ->
     (if is_ok r then isDirAt (treeAt w d) q /\ treeAt w' d = treeMove (treeAt w d) (p ++ [n]) (q ++ [n])
      else treeAt w' d = treeAt w d) -> Q w' r) ->
  ends (lift (sMove d (mkpath (p ++ [n])) (mkpath q))) w Q.
Proof.
  intros I Hp Hq H. apply ends_lift. pose proof (law_move d p q n _ I Hp Hq) as L. destruct (sMove d _ _ _) as [s r].
  destruct L as [L1 L2]. apply H; [done|by destruct r].
Qed.

Lemma lift_copy d p q n w (Q : world -> answer unit -> Prop) :
  inv (store w) -> Forall clean_seg (p ++ [n]) -> Forall clean_seg q ->
  (forall w' r, step_of d w w' ->
     (if is_ok r then isDirAt (treeAt w d) q /\ treeAt w' d = treeCopy (treeAt w d) (p ++ [n]) (q ++ [n])
      else treeAt w' d = treeAt w d) -> Q w' r) ->
  ends (lift (sCopy d (mkpath (p ++ [n])) (mkpath q))) w Q.
Proof.
  intros I Hp Hq H. apply ends_lift. pose proof (law_copy d p q n _ I Hp Hq) as L. destruct (sCopy d _ _ _) as [s r].
  destruct L as [L1 L2]. apply H; [done|by destruct r].
Qed.

Lemma lift_rename d p n m w (Q : world -> answer unit -> Prop) :
  inv (store w) -> Forall clean_seg (p ++ [n]) -> okName m ->
  (forall w' r, step_of d w w' ->
     (if is_ok r then treeAt w' d = treeMove (treeAt w d) (p ++ [n]) (p ++ [m])
      else treeAt w' d = treeAt w d) -> Q w' r) ->
  ends (lift (sRename d (mkpath (p ++ [n])) m)) w Q.
Proof.
  intros I Hp Hm H. apply ends_lift. pose proof (law_rename d p n m _ I Hp Hm) as L. destruct (sRename d _ _ _) as [s r].
  destruct L as [L1 L2]. apply H; [done|by destruct r].
Qed.

Lemma withStage_ends (removeStage m : T (D:=D) (S:=S) (E:=E) unit) w (Q : world -> answer unit -> Prop) :
  ends m w (fun w' r => match r with Ok u => Q w' (Ok u) | Err e => ends removeStage w' (fun w'' _ => Q w'' (Err e)) end) ->
  ends (withStage removeStage m) w Q.
Proof.
  intros H. unfold withStage. apply ends_bind, ends_attempt. eapply ends_mono; [exact H|]. intros w1 [[]|e] H1; [by apply ends_ret|].
  apply ends_bind, ends_attempt. eapply ends_mono; [exact H1|]. intros w2 r2 H2. by apply ends_fail.
Qed.

Section Named.
Context (d : D) (pp q : fpath) (n n' stage : gostr).
Abbreviation p := (pp ++ [n]).
Abbreviation q' := (q ++ [n']).
Abbreviation sd := (q ++ [stage]).
Context (Hp : Forall clean_seg p) (Hq : Forall okName q) (Hn' : okName n') (Hst : okName stage).
Context (Ha : apart p q') (Hfresh : stage ∉ p) (Hne : stage <> n').

Lemma stage_apart : apart p sd.
Proof.
  split.
  - intros [z Hz]. destruct z as [|c z _] using rev_ind.
    + rewrite app_nil_r in Hz. apply Hfresh. rewrite <- Hz. apply elem_of_app. right. by left.
    + rewrite (assoc_L (++)) in Hz. apply app_inj_tail in Hz as [Hz _]. apply (proj1 Ha). rewrite Hz. exists (z ++ [n']). by rewrite <- !(assoc_L (++)).
  - intros [z Hz]. apply Hfresh. rewrite Hz, !elem_of_app. left. right. by left.
Qed.

Lemma sd_clean : Forall clean_seg sd.
Proof. apply okName_clean, Forall_app. split; [done|by constructor]. Qed.

Lemma remove_stage w w0 (Q : world -> answer unit -> Prop) : step_of d w0 w -> kept d p w0 w ->
  (forall w' r, step_of d w0 w' -> kept d p w0 w' ->
     treeAt w' d = treeAt w d \/ treeAt w' d = treeRemove (treeAt w d) sd -> Q w' r) ->
  ends (lift (sRemove d (mkpath sd))) w Q.
Proof.
  intros S0 K0 H. apply lift_remove; [apply K0|apply sd_clean|]. intros w' r C O HT.
  assert (HT' : treeAt w' d = treeAt w d \/ treeAt w' d = treeRemove (treeAt w d) sd) by (destruct HT as [?|[_ ?]]; auto).
  apply H; [by eapply step_of_trans| |done]. eapply kept_trans; [exact K0|].
  eapply kept_remove; [by eapply others_inv|apply stage_apart|done].
Qed.

Lemma kept_grown w w' : inv (store w') -> grown (treeAt w d) (treeAt w' d) sd -> kept d p w w'.
Proof.
  intros I G. split; [done|]. intros x. destruct (G (p ++ x)) as [|[Hx _]]; [done|].
  exfalso. apply (proj1 stage_apart). etrans; [|exact Hx]. by eexists.
Qed.

Lemma copied_remove t t2 : copied p q' t t2 -> copied p q' t (treeRemove t2 sd).
Proof.
  intros H x b Hx. rewrite treeRemove_other; [by apply H|]. intros [z Hz]. rewrite <- !(assoc_L (++)) in Hz.
  apply app_inv_head in Hz. simpl in Hz. congruence.
Qed.

Lemma named_renamed w w1 (Hc : copied p (sd ++ [n]) (treeAt w d) (treeAt w1 d)) :
  step_of d w w1 -> kept d p w w1 ->
  ends (if seqb n n' then mret tt else lift (sRename d (mkpath (sd ++ [n])) n')) w1 (fun w' r =>
    step_of d w w' /\ kept d p w w' /\ (is_ok r = true -> copied p (sd ++ [n']) (treeAt w d) (treeAt w' d))).
Proof.
  intros S1 K1. destruct (seqb n n') eqn:En.
  - apply seqb_true in En. subst n'. by apply ends_ret.
  - apply seqb_false in En. assert (Hc' : Forall clean_seg (sd ++ [n])).
    { apply Forall_app. split; [apply sd_clean|]. by apply Forall_app in Hp as [_ ?]. }
    apply lift_rename; [apply K1|done|done|]. intros w2 r2 S2 H2.
    assert (I2 : inv (store w2)) by (by eapply others_inv, S2). split_and!; [by eapply step_of_trans| |].
    + eapply kept_trans; [exact K1|]. destruct (is_ok r2); [|by apply kept_same].
      eapply kept_move; [done| | |exact H2]; rewrite <- (app_nil_r p); apply apart_app, stage_apart.
    + intros Hr. rewrite Hr in H2. rewrite H2. intros x b Hx. unfold treeMove. rewrite treeRemove_other.
      * rewrite treeCopy_under. by rewrite (Hc _ _ Hx).
      * intros [z Hz]. rewrite <- !(assoc_L (++)) in Hz. apply app_inv_head in Hz. simpl in Hz. congruence.
Qed.

Lemma copyNamed_ends w : inv (store w) ->
  ends (copyNamedInStorage d stage (mkpath p) (mkpath q) n') w (fun w' r =>
    step_of d w w' /\ kept d p w w' /\ (is_ok r = true -> copied p q' (treeAt w d) (treeAt w' d))).
Proof.
  intros I. pose proof (okName_clean _ Hq) as Hcq. pose proof (law_ok _ Hst) as [Hcs _]. pose proof (law_ok _ Hn') as [Hcn' _].
  pose proof Hp as [_ [Hcn _]%Forall_cons]%Forall_app.
  unfold copyNamedInStorage. rewrite join2_mkpath by done. apply ends_bind, ends_lift.
  assert (Hok : Forall okName sd) by (apply Forall_app; split; [done|by constructor]).
  pose proof (law_makeDir d sd _ I Hok) as L. destruct (sMakeDir d _ _) as [s0 r0]. destruct L as (O0 & G0 & _).
  set (w0 := setStore w s0). assert (S0 : step_of d w w0) by done. assert (K0 : kept d p w w0) by (by apply kept_grown; [apply O0|]).
  destruct r0 as [u|e]; [|by split_and!].
  unfold namedCopyStageObjectPath. change (seqb [] "") with true. cbv iota. rewrite path_Base_snoc by apply Hcn.
  assert (En' : seqb n' "" = false) by (apply seqb_false; apply Hcn'). rewrite En'.
  rewrite !join2_mkpath by (done || apply sd_clean).
  assert (Epath : (if seqb n n' then mkpath (sd ++ [n]) else mkpath (sd ++ [n'])) = mkpath (sd ++ [n'])).
  { destruct (seqb n n') eqn:En; [|done]. apply seqb_true in En. by subst n'. }
  rewrite Epath.
  apply withStage_ends.
  (* a step that fails: the staging directory goes *)
  assert (Hfail : forall w1 (e : transfer_error E), step_of d w w1 -> kept d p w w1 ->
    ends (lift (sRemove d (mkpath sd))) w1 (fun w' _ =>
      step_of d w w' /\ kept d p w w' /\ (is_ok (@Err _ unit e) = true -> copied p q' (treeAt w d) (treeAt w' d)))).
  { intros w1 e S1 K1. by apply (remove_stage w1 w); [done|done|]. }
  apply ends_bind, lift_copy; [apply K0|done|apply sd_clean|]. intros w1 r1 S1 H1.
  assert (I1 : inv (store w1)) by (by eapply others_inv, S1). assert (S01 : step_of d w w1) by (by eapply step_of_trans).
  assert (K01 : kept d p w w1).
  { eapply kept_trans; [exact K0|]. destruct r1 as [?|?]; [|by apply kept_same]. destruct H1 as [_ H1].
    eapply kept_copy; [done| |exact H1]. rewrite <- (app_nil_r p). apply apart_app, stage_apart. }
  destruct r1 as [u1|e1]; [|by apply Hfail]. destruct H1 as [_ H1].
  assert (C1 : copied p (sd ++ [n]) (treeAt w d) (treeAt w1 d)).
  { intros x b Hx. rewrite H1, treeCopy_under. destruct K0 as [_ K0]. by rewrite K0, Hx. }
  apply ends_bind. eapply ends_mono; [by apply (named_renamed w w1 C1)|]. intros w2 r2 (S2 & K2 & C2).
  destruct r2 as [u2|e2]; [|by apply Hfail]. specialize (C2 eq_refl).
  apply ends_bind, lift_move; [apply K2|apply Forall_app; split; [apply sd_clean|by constructor]|done|]. intros w3 r3 S3 H3.
  assert (I3 : inv (store w3)) by (by eapply others_inv, S3). assert (S03 : step_of d w w3) by (by eapply step_of_trans).
  assert (K03 : kept d p w w3).
  { eapply kept_trans; [exact K2|]. destruct r3 as [?|?]; [|by apply kept_same]. destruct H3 as [_ H3].
    eapply kept_move; [done| |done|exact H3]. rewrite <- (app_nil_r p). apply apart_app, stage_apart. }
  destruct r3 as [u3|e3]; [|by apply Hfail]. destruct H3 as [_ H3].
  assert (C3 : copied p q' (treeAt w d) (treeAt w3 d)).
  { intros x b Hx. rewrite H3. unfold treeMove. rewrite treeRemove_other; [rewrite treeCopy_under; by rewrite (C2 _ _ Hx)|].
    intros [z Hz]. rewrite <- !(assoc_L (++)) in Hz. apply app_inv_head in Hz. simpl in Hz. congruence. }
  apply (remove_stage w3 w); [done|done|]. intros w4 r4 S4 K4 H4. destruct r4 as [u4|e4]; [|by apply Hfail].
  split_and!; [done|done|]. intros _. destruct H4 as [->| ->]; [done|by apply copied_remove].
Qed.
End Named.
(** ** The end of a group *)
Definition keepsCoord {A} (m : T (D:=D) (S:=S) (E:=E) A) : Prop := forall w, coord (m w).1 = coord w.

Lemma keeps_bind {A B} (m : T A) (k : A -> T B) : keepsCoord m -> (forall a, keepsCoord (k a)) -> keepsCoord (m ≫= k).
Proof.
  intros H1 H2 w. unfold mbind, T_bind. pose proof (H1 w) as Hm. destruct (m w) as [w1 [a|e]]; [|done].
  simpl in Hm. rewrite <- Hm. apply H2.
Qed.
Lemma keeps_ret {A} (a : A) : keepsCoord (mret a).
Proof. done. Qed.
Lemma keeps_fail {A} e : keepsCoord (A:=A) (tfail e).
Proof. done. Qed.
Lemma keeps_attempt {A} (m : T A) : keepsCoord m -> keepsCoord (attempt m).
Proof. intros H w. unfold attempt. pose proof (H w) as Hm. by destruct (m w). Qed.
Lemma keeps_lift {A} (m : Op S E A) : keepsCoord (lift m).
Proof. intros w. unfold lift. by destruct (m (store w)). Qed.

Lemma keeps_existing t path : keepsCoord (existing t path).
Proof.
  unfold existing. destruct (decide _); [|apply keeps_ret]. apply keeps_bind; [apply keeps_attempt, keeps_lift|].
  intros [objs|e0]; [|destruct (notFound e0); [apply keeps_ret|apply keeps_fail]].
  induction objs as [|o objs IH]; [apply keeps_ret|]. apply keeps_bind; [apply keeps_lift|]. intros _.
  apply keeps_bind; [done|]. intros l. destruct (IsDir o); apply keeps_ret.
Qed.

Lemma keeps_children f t path existed objs : (forall t, keepsCoord (f t)) -> keepsCoord (eachChild f t path existed objs).
Proof.
  intros Hf. induction objs as [|o objs IH]; [apply keeps_ret|]. apply keeps_bind; [apply keeps_lift|]. intros _.
  apply keeps_bind; [|by intros _]. destruct (decide _); [apply keeps_ret|apply Hf].
Qed.

Lemma keeps_run f t : (forall t, keepsCoord (f t)) -> keepsCoord (RunWithNextTaskCallback f t).
Proof.
  intros Hf. apply keeps_bind; [apply keeps_lift|]. intros o. destruct (IsDir o).
  - apply keeps_bind; [apply keeps_lift|]. intros objs. apply keeps_bind; [apply keeps_lift|]. intros _.
    apply keeps_bind; [apply keeps_existing|]. intros ex. by apply keeps_children.
  - apply keeps_bind; [apply keeps_lift|]. intros o'. apply keeps_bind; [apply keeps_lift|]. intros z. apply keeps_lift.
Qed.

Lemma keeps_runNow fuel : forall t, keepsCoord (runNow fuel t).
Proof.
  induction fuel as [|fuel IH]; intros t; [apply keeps_fail|]. apply keeps_bind; [by apply keeps_run|]. by intros _.
Qed.

Section Payloads.
Context (needHook : bool) (fuel : nat) (d1 d2 : D) (pp q : fpath) (n : gostr).
Abbreviation p := (pp ++ [n]).
Abbreviation q' := (q ++ [n]).
Context (Hp : Forall clean_seg p) (Hq : Forall clean_seg q).

Definition resolvesTo (path : gostr) (x : D * gostr) : Prop :=
  forall s y, inv s -> (sResolve path s).2 = Ok y -> y = x.

Lemma lift_resolve path x w (Q : world -> answer (D * gostr) -> Prop) : inv (store w) -> resolvesTo path x ->
  (forall w' r, quiet w w' -> (forall y, r = Ok y -> y = x) -> Q w' r) -> ends (lift (sResolve path)) w Q.
Proof.
  intros I Hx H. apply ends_lift. pose proof (law_resolve path _ I) as L. pose proof (fun y => Hx (store w) y I) as Hy.
  destruct (sResolve path (store w)) as [s r]. apply H; [by apply quiet_set|]. destruct r; intros y [= <-]. by apply Hy.
Qed.

Lemma hook_ends d hooked x w : inv (store w) -> Forall clean_seg x ->
  ends (handleHook d hooked (mkpath x)) w (fun w' r => quiet w w' /\ is_ok r = true).
Proof.
  intros I Hx. unfold handleHook. destruct (bool_decide _); [apply ends_ret; split; [by apply quiet_refl|done]|].
  apply ends_bind, ends_attempt, lift_list; [done|done|]. intros w1 r1 Q1 _. destruct r1 as [l|e0]; [|by apply ends_ret].
  apply ends_bind. unfold ends, runHook. simpl. split; [|done]. eapply quiet_trans; [exact Q1|]. split; [done|].
  apply law_hook. by eapply quiet_inv.
Qed.

Lemma removeSource_ends src w : separate d1 d2 p q' -> inv (store w) -> resolvesTo src (d1, mkpath p) ->
  ends (removeSource fuel d2 (mkpath q) src) w (fun w' r => checked d1 d2 p q' w w' /\ is_ok r = true).
Proof.
  intros Hs I Hsrc. unfold removeSource. apply ends_bind, ends_attempt, (lift_resolve src (d1, mkpath p)); [done|done|].
  intros w1 r1 Q1 H1. destruct r1 as [[d path]|e0]; [|by apply ends_ret; split; [apply checked_quiet|]].
  specialize (H1 _ eq_refl) as [= -> ->]. apply ends_bind, ends_attempt. eapply ends_mono; [apply verify_ends; try done; by eapply quiet_inv|].
  intros w2 r2 [K2 _]. apply ends_ret. split; [|done]. eapply checked_trans; [done|by apply checked_quiet|done].
Qed.

(** The callback, up to the payloads. *)
Lemma Hook_ends g ps w (Q : world -> answer unit -> Prop) : inv (store w) -> resolvesTo g (d2, mkpath q) ->
  (forall w', quiet w w' -> Q w' (Ok tt)) ->
  (forall w' hooked, quiet w w' -> ends (runPayloads needHook fuel d2 (mkpath q) hooked ps) w' Q) ->
  ends (HookAndRemove needHook fuel g ps) w Q.
Proof.
  intros I Hg Hquiet Hrest. unfold HookAndRemove.
  apply ends_bind, ends_attempt, (lift_resolve g (d2, mkpath q)); [done|done|]. intros w1 r1 Q1 H1.
  destruct r1 as [[d path]|e0]; [|apply ends_ret; by apply Hquiet]. specialize (H1 _ eq_refl) as [= -> ->].
  apply ends_bind. destruct needHook; [|apply ends_ret; by apply Hrest].
  eapply ends_mono; [by apply hook_ends; [eapply quiet_inv|]|]. intros w2 r2 [Q2 H2]. destruct r2 as [h|e0]; [|done].
  apply Hrest. by eapply quiet_trans.
Qed.

Lemma Hook_source src g w (Q : world -> answer unit -> Prop) : inv (store w) -> resolvesTo g (d2, mkpath q) ->
  separate d1 d2 p q' -> resolvesTo src (d1, mkpath p) ->
  (forall w', quiet w w' \/ checked d1 d2 p q' w w' -> Q w' (Ok tt)) ->
  ends (HookAndRemove needHook fuel g [SrcPathToRemove src]) w Q.
Proof.
  intros I Hg Hs Hsrc HQ. apply Hook_ends; [done|done|auto|]. intros w1 hooked Q1. simpl.
  apply ends_bind. eapply ends_mono; [by apply removeSource_ends; [|eapply quiet_inv|]|].
  intros w2 r2 [K2 H2]. destruct r2; [|done]. apply ends_ret, HQ. right. eapply checked_trans; [done|by apply checked_quiet|done].
Qed.

End Payloads.
(** ** A transfer that runs at once *)

Lemma lift_resolved path x w (Q : world -> answer (D * gostr) -> Prop) : inv (store w) ->
  (forall s, inv s -> (sResolve path s).2 = Ok x) -> (forall w', quiet w w' -> Q w' (Ok x)) -> ends (lift (sResolve path)) w Q.
Proof.
  intros I Hx H. apply ends_lift. pose proof (law_resolve path _ I) as L. specialize (Hx _ I).
  destruct (sResolve path (store w)) as [s r]. simpl in Hx. subst r. apply H. by apply quiet_set.
Qed.

(** What a transfer is about: the source path resolves to [pp ++ [n]] on [d1], the
    destination folder to [q] on [d2], where the source gets the name [n']. No
    other transfer to the folder is under way. *)
Record placed (ty : taskType) (src dst dstName stage : gostr) (d1 d2 : D) (pp : fpath) (n : gostr) (q : fpath) (n' : gostr)
    (w : world) : Prop := {
  pl_inv : inv (store w);
  pl_src s : inv s -> (sResolve src s).2 = Ok (d1, mkpath (pp ++ [n]));
  pl_dst s : inv s -> (sResolve dst s).2 = Ok (d2, mkpath q);
  pl_group : resolvesTo (path_join2 (mountPath d2) (mkpath q)) (d2, mkpath q);
  pl_free : holds (coord w) (path_join2 (mountPath d2) (mkpath q)) [];
  pl_clean : Forall clean_seg (pp ++ [n]);
  pl_ok : Forall okName q /\ okName n';
  pl_name : n' = (if seqb dstName "" then n else dstName);
  pl_move : ty = move -> dstName = [];
  pl_apart : d1 <> d2 \/ apart (pp ++ [n]) (q ++ [n']) /\ Forall notTemp (pp ++ [n]);
  pl_stage : d1 = d2 -> okName stage /\ stage ∉ pp ++ [n] /\ stage <> n';
  pl_names x b : treeAt w d1 !! ((pp ++ [n]) ++ x) = Some b -> Forall okName x
}.

Section Now.
Context (needHook : bool) (fuel : nat) (ty : taskType) (src dst dstName stage : gostr) (d1 d2 : D) (pp : fpath) (n : gostr) (q : fpath) (n' : gostr)
  (w : world) (P : placed ty src dst dstName stage d1 d2 pp n q n' w).
Abbreviation p := (pp ++ [n]).
Abbreviation q' := (q ++ [n']).

(** No file is lost, a copy leaves its source alone, and when no error is reported
    everything is in the destination. *)
Definition transferred {A} (w' : world) (r : answer A) : Prop :=
  (ty <> move -> forall x, treeAt w' d1 !! (p ++ x) = treeAt w d1 !! (p ++ x)) /\
  (forall x, treeAt w d1 !! (p ++ x) = Some false ->
     treeAt w' d1 !! (p ++ x) = Some false \/ covered (treeAt w' d2) q' x) /\
  (is_ok r = true -> dependable d2 -> copied p q' (treeAt w d1) (treeAt w' d2)).

Lemma placed_separate : separate d1 d2 p q'.
Proof. destruct (pl_apart _ _ _ _ _ _ _ _ _ _ _ _ P) as [?|[? _]]; [by left|by right]. Qed.

Lemma placed_detached : detached d1 d2 p q n'.
Proof. exact (pl_apart _ _ _ _ _ _ _ _ _ _ _ _ P). Qed.

Lemma placed_task :
  goodTask (newTask ty d1 d2 (mkpath p) (mkpath q) dstName) p q n' (treeAt w d1).
Proof.
  destruct P as [I _ _ _ _ Hc [Hq Hn'] Hname _ Ha _ Hok]. split; try done; simpl.
  - split; [done|]. by exists pp, n.
  - by apply law_wf.
Qed.

(** After the tasks: the source is as it was, the copies are made. *)
Definition middle (w2 : world) (ok : bool) : Prop :=
  inv (store w2) /\ (forall x, treeAt w2 d1 !! (p ++ x) = treeAt w d1 !! (p ++ x)) /\
  (ok = true -> dependable d2 -> copied p q' (treeAt w d1) (treeAt w2 d2)).

Lemma middle_done {A} w2 w3 (r : answer A) ok : middle w2 ok -> (is_ok r = true -> ok = true) ->
  (if decide (ty = move) then checked d1 d2 p q' w2 w3 \/ quiet w2 w3 else quiet w2 w3) -> transferred w3 r.
Proof.
  intros (I2 & K2 & C2) Hr H3.
  assert (Hq : quiet w2 w3 -> transferred w3 r).
  { intros Q. unfold transferred. rewrite !(quiet_tree _ _ _ Q). split_and!; [done|intros x Hx; left; by rewrite K2|auto]. }
  destruct (decide (ty = move)) as [Hm|Hm]; [|by apply Hq]. destruct H3 as [K|Q]; [|by apply Hq].
  pose proof (fun y => checked_dst _ _ _ _ _ _ y placed_separate K) as Hd. split_and!; [done| |].
  - intros x Hx. destruct K as (_ & _ & He). destruct (He (p ++ x)) as [E1|(_ & x' & Heq & Hc)].
    + left. by rewrite E1, K2.
    + apply app_inv_head in Heq as <-. right. eapply covered_agree; [intros y; symmetry; apply Hd|]. apply Hc. by rewrite K2.
  - intros Ho Hdep x b Hx. rewrite Hd. by apply (C2 (Hr Ho) Hdep).
Qed.

Lemma Done_last c g h ok : holds c g h -> h <> [] -> balance h = 1 ->
  (Done c g ok).2 = if succeeded h || ok then Some (given h) else None.
Proof.
  intros [Hp Hs] Hn Hb. unfold Done. rewrite Hs, decide_False by done. simpl. rewrite Hb. simpl. rewrite Hp. by destruct (_ || ok).
Qed.

Lemma groupDone_ends g w2 h ok (Q : world -> answer unit -> Prop) : holds (coord w2) g h -> h <> [] -> balance h = 1 ->
  (forall w3, store w3 = store w2 ->
     if succeeded h || ok then ends (HookAndRemove needHook fuel g (given h)) w3 Q else Q w3 (Ok tt)) ->
  ends (groupDone needHook fuel g ok) w2 Q.
Proof.
  intros Hh Hn Hb H. unfold groupDone. apply ends_bind. unfold ends, onCoord. pose proof (Done_last _ _ _ ok Hh Hn Hb) as HD.
  destruct (Done (coord w2) g ok) as [c r]. simpl in HD |- *. subst r.
  specialize (H (mkTw (store w2) c (queue w2) (success w2)) eq_refl). by destruct (_ || ok).
Qed.
Lemma transferNow_ends w1 : inv (store w1) ->
  (forall d, treeAt w1 d = treeAt w d) ->
  let g := path_join2 (mountPath d2) (mkpath q) in
  holds (coord w1) g [CAdd g None] ->
  ends (transferNow needHook fuel (newTask ty d1 d2 (mkpath p) (mkpath q) dstName) src) w1 transferred.
Proof.
  intros I1 Ht1 g Hg. unfold transferNow. apply ends_bind. unfold ends at 1. simpl.
  set (w2 := mkTw (store w1) (coord w1) (queue w1) false).
  set (t := newTask ty d1 d2 (mkpath p) (mkpath q) dstName).
  assert (HR : ends (runNow fuel t) w2 (fun w' r => taskPost d1 d2 p q n' w2 w' r /\ coord w' = coord w1)).
  { split; [|exact (keeps_runNow fuel t w2)]. apply (runNow_ends fuel t p q n' (treeAt w d1)); [apply placed_task|done|].
    intros x. simpl. by rewrite Ht1. }
  apply ends_bind, ends_attempt. eapply ends_mono; [exact HR|]. clear HR.
  intros w3 r3 [[W3 C3] Hc3]. simpl in W3, C3.
  assert (HM : forall w', store w' = store w3 -> middle w' (is_ok r3)).
  { intros w' Hst. split; [rewrite Hst; by eapply wrote_inv|]. split.
    - intros x. rewrite Hst, (wrote_src _ _ _ _ _ _ _ x placed_detached W3). simpl. by rewrite Ht1.
    - intros Hr Hd. rewrite Hst. specialize (C3 Hr Hd). simpl in C3. by rewrite Ht1 in C3. }
  set (src' := if decide (ty = move) then Some (SrcPathToRemove src) else None).
  set (h := if decide (ty = move) then [CAdd g None; CAppend g src'] else [CAdd g None]).
  assert (Hh : h <> [] /\ balance h = 1 /\ succeeded h = false /\ given h = option_list src').
  { subst h src'. by destruct (decide (ty = move)). }
  destruct Hh as (Hh1 & Hh2 & Hh3 & Hh4).
  apply ends_bind. apply (ends_mono _ _ (fun w' r => r = Ok tt /\ store w' = store w3 /\ success w' = success w3 /\ holds (coord w') g h)).
  { unfold appendSrc. simpl. subst h src'. destruct (decide (ty = move)).
    - unfold ends, onCoord. simpl. split_and!; try done. rewrite Hc3.
      apply (runCall_open (coord w1) (CAppend g (Some (SrcPathToRemove src))) g [CAdd g None]); [done|done| |];
        intros [|[|[|k]]] Hk; simpl in *; lia.
    - apply ends_ret. by rewrite Hc3. }
  intros w4 r4 (-> & Hst4 & Hsu4 & Hh). apply ends_bind. unfold ends at 1. simpl.
  apply ends_bind. apply (groupDone_ends g w4 h (success w4)); [done|done|done|]. rewrite Hh3, Hh4. simpl. intros w5 Hst5.
  assert (HM5 : middle w5 (is_ok r3)) by (apply HM; congruence).
  assert (Hend : forall w6 (Hq : if decide (ty = move) then checked d1 d2 p q' w5 w6 \/ quiet w5 w6 else quiet w5 w6),
    ends (match r3 with Ok _ => mret tt | Err e => tfail e end) w6 transferred).
  { intros w6 Hq. destruct r3; [apply ends_ret|apply ends_fail]; by eapply middle_done. }
  destruct P as [_ Hsrc _ Hg0 _ Hcl [Hokq _] Hname Hmv _ _ _].
  pose proof (okName_clean _ Hokq) as Hcq.
  assert (I5 : inv (store w5)) by apply HM5.
  assert (Hquiet : forall w6, quiet w5 w6 -> ends (match r3 with Ok _ => mret tt | Err e => tfail e end) w6 transferred).
  { intros w6 Q6. apply Hend. destruct (decide (ty = move)); auto. }
  destruct (success w4); [|by apply Hquiet, quiet_refl].
  subst src'. destruct (decide (ty = move)) as [Hm|Hm]; simpl.
  - assert (En : n' = n) by (rewrite Hname, (Hmv Hm); done). pose proof placed_separate as Hsep. rewrite En in Hsep.
    apply (Hook_source needHook fuel d1 d2 pp q n); [done|done|done|done|done| |].
    + intros s y Is Hy. rewrite Hsrc in Hy by done. by injection Hy as <-.
    + intros w6 Hw6. apply Hend. rewrite En. tauto.
  - apply (Hook_ends needHook fuel d2 q); [done|done|done|done|]. intros w6 hooked Q6. simpl. apply ends_ret. by apply Hquiet.
Qed.

Lemma transferred_kept {A} w1 (r : answer A) : kept d1 p w w1 ->
  (is_ok r = true -> copied p q' (treeAt w d1) (treeAt w1 d2)) -> transferred w1 r.
Proof. intros [_ K] C. split_and!; [done| |auto]. intros x Hx. left. by rewrite K. Qed.

(** What an operation of the storage may answer, and what then follows. *)
Definition nativePost (w1 : world) (u : answer unit) : Prop :=
  control w1 = control w /\ transferred w1 u /\ (is_ok u = false -> kept d1 p w w1).

Lemma control_coord (w1 w2 : world) : control w2 = control w1 -> coord w2 = coord w1.
Proof. unfold control. congruence. Qed.

Lemma native_move w1 : quiet w w1 -> d1 = d2 -> ty = move ->
  ends (lift (sMove d1 (mkpath p) (mkpath q))) w1 nativePost.
Proof.
  intros Q Hd Hm. pose proof P as [_ _ _ _ _ Hc [Hokq _] Hname Hmv Ha _ _]. pose proof (okName_clean _ Hokq) as Hcq.
  assert (En : n' = n) by (rewrite Hname, (Hmv Hm); done). destruct Ha as [|[Ha _]]; [done|]. rewrite En in Ha.
  apply lift_move; [by eapply quiet_inv|done|done|]. intros w2 r2 S2 H2.
  assert (Hco : control w2 = control w) by (rewrite (proj1 S2); apply Q).
  assert (I2 : inv (store w2)) by (by eapply others_inv, S2).
  destruct r2 as [u|e]; simpl in H2.
  - destruct H2 as [_ H2]. assert (C2 : copied p q' (treeAt w d1) (treeAt w2 d1)).
    { intros x b Hx. rewrite H2, (quiet_tree _ _ _ Q), En. unfold treeMove.
      rewrite treeRemove_other by (by apply not_under', apart_sym). rewrite treeCopy_under. by rewrite Hx. }
    split; [done|]. split; [|done]. unfold transferred. rewrite <- Hd. split_and!; [done| |done].
    intros x Hx. right. exists x. split; [done|]. by apply C2.
  - assert (K : kept d1 p w w2) by (apply kept_same; [done|by rewrite H2, (quiet_tree _ _ _ Q)]).
    split_and!; [done|by apply transferred_kept|done].
Qed.

Lemma native_copy w1 : quiet w w1 -> d1 = d2 -> dstName = [] ->
  ends (lift (sCopy d1 (mkpath p) (mkpath q))) w1 nativePost.
Proof.
  intros Q Hd Hm. pose proof P as [_ _ _ _ _ Hc [Hokq _] Hname Hmv Ha _ _]. pose proof (okName_clean _ Hokq) as Hcq.
  assert (En : n' = n) by (by rewrite Hname, Hm). destruct Ha as [|[Ha _]]; [done|]. rewrite En in Ha.
  apply lift_copy; [by eapply quiet_inv|done|done|]. intros w2 r2 S2 H2.
  assert (Hco : control w2 = control w) by (rewrite (proj1 S2); apply Q).
  assert (I2 : inv (store w2)) by (by eapply others_inv, S2).
  destruct r2 as [u|e]; simpl in H2.
  - destruct H2 as [_ H2]. rewrite (quiet_tree _ _ _ Q) in H2.
    assert (K : kept d1 p w w2) by (by eapply kept_copy).
    split_and!; [done| |done]. apply transferred_kept; [done|]. intros _ x b Hx. rewrite <- Hd, H2, En, treeCopy_under. by rewrite Hx.
  - assert (K : kept d1 p w w2) by (apply kept_same; [done|by rewrite H2, (quiet_tree _ _ _ Q)]).
    split_and!; [done|by apply transferred_kept|done].
Qed.

Lemma native_named w1 : quiet w w1 -> d1 = d2 -> seqb dstName "" = false ->
  ends (copyNamedInStorage d1 stage (mkpath p) (mkpath q) dstName) w1 nativePost.
Proof.
  intros Q Hd Hn. pose proof P as [_ _ _ _ _ Hc [Hokq Hok] Hname _ Ha Hst _]. rewrite Hn in Hname. subst dstName.
  destruct Ha as [|[Ha _]]; [done|]. destruct (Hst Hd) as (Hs1 & Hs2 & Hs3).
  eapply ends_mono; [apply (copyNamed_ends d1 pp q n n' stage); try done; by eapply quiet_inv|].
  intros w2 r2 (S2 & K2 & C2).
  assert (Hco : control w2 = control w) by (rewrite (proj1 S2); apply Q).
  assert (K : kept d1 p w w2).
  { eapply kept_trans; [|exact K2]. split; [by eapply quiet_inv|]. intros x. by rewrite (quiet_tree _ _ _ Q). }
  split_and!; [done| |done]. apply transferred_kept; [done|]. intros Hr. rewrite <- Hd, <- (quiet_tree _ _ _ Q). by apply C2.
Qed.

Definition settled (w1 : world) (r : answer (option (answer unit))) : Prop :=
  exists o, r = Ok o /\ control w1 = control w /\
    match o with Some u => transferred w1 u | None => kept d1 p w w1 end.

Lemma settle_ends m w1 : ends m w1 nativePost -> ends (settle m) w1 settled.
Proof.
  intros Hm. apply ends_bind, ends_attempt. eapply ends_mono; [exact Hm|]. intros w2 r2 (H1 & H2 & H3).
  apply ends_ret. eexists. split; [done|]. split; [done|]. destruct r2 as [u|e]; [done|]. destruct (notNative e); [by apply H3|done].
Qed.

Lemma native_ends w1 : quiet w w1 -> d1 = d2 ->
  ends (native ty d1 stage (mkpath p) (mkpath q) dstName) w1 settled.
Proof.
  intros Q Hd. unfold native. destruct (decide (ty = move)) as [Hm|Hm].
  { rewrite Hm. by apply settle_ends, native_move. }
  replace (match ty with move => _ | _ => _ end) with
    (if negb (seqb dstName "") then
       if supportsNamedNativeCopy d1 then settle (copyNamedInStorage (E:=E) d1 stage (mkpath p) (mkpath q) dstName) else mret None
     else settle (lift (sCopy d1 (mkpath p) (mkpath q)))) by (by destruct ty).
  destruct (seqb dstName "") eqn:En; simpl.
  - apply settle_ends, native_copy; [done|done|]. by apply seqb_true in En.
  - destruct (supportsNamedNativeCopy d1); [by apply settle_ends, native_named|]. apply ends_ret. exists None. split; [done|].
    split; [apply Q|].
    split; [by eapply quiet_inv|]. intros x. by rewrite (quiet_tree _ _ _ Q).
Qed.
End Now.

Lemma placed_kept ty src dst dstName stage d1 d2 pp n q n' w w' : placed ty src dst dstName stage d1 d2 pp n q n' w ->
  kept d1 (pp ++ [n]) w w' -> coord w' = coord w -> placed ty src dst dstName stage d1 d2 pp n q n' w'.
Proof.
  intros [? ? ? ? ? ? ? ? ? ? ? Hn] [I K] C. split; try done; [by rewrite C|]. intros x b Hx. rewrite K in Hx. by eapply Hn.
Qed.

(** The whole transfer, as the callers with conf.NoTaskKey see it. *)
Lemma transfer_ends needHook fuel ty src dst dstName stage d1 d2 pp n q n' w :
  placed ty src dst dstName stage d1 d2 pp n q n' w ->
  ends (transfer needHook fuel true stage ty src dst dstName) w (transferred ty d1 d2 pp n q n' w).
Proof.
  intros P. pose proof P as [I Hsrc Hdst _ _ _ _ _ _ _ _ _]. unfold transfer.
  apply ends_bind, (lift_resolved src (d1, mkpath (pp ++ [n]))); [done|done|]. intros w1 Q1.
  apply ends_bind, (lift_resolved dst (d2, mkpath q)); [by eapply quiet_inv|done|]. intros w2 Q2.
  pose proof (quiet_trans _ _ _ Q1 Q2) as Q.
  assert (Hgo : forall w3, kept d1 (pp ++ [n]) w w3 -> coord w3 = coord w ->
    ends (let t := newTask ty d1 d2 (mkpath (pp ++ [n])) (mkpath q) dstName in
          onCoord (fun c => (AddTask c (groupID t) None, tt));;
          (transferNow needHook fuel t src;; mret (@None (FileTransferTask D)))) w3 (transferred ty d1 d2 pp n q n' w)).
  { intros w3 K3 C3. pose proof (placed_kept _ _ _ _ _ _ _ _ _ _ _ _ _ P K3 C3) as P3. cbv zeta.
    apply ends_bind. unfold ends at 1. simpl. set (w4 := mkTw _ _ _ _).
    apply ends_bind. eapply ends_mono.
    - apply (transferNow_ends needHook fuel ty src dst dstName stage d1 d2 pp n q n' w3 P3 w4); [apply P3|done|].
      apply (runCall_open (coord w3) (CAdd _ None) _ []); [done|apply P3|apply opened_nil|].
      intros [|[|k]] Hk; simpl in *; lia.
    - intros w5 r5 (T1 & T2 & T3). destruct K3 as [_ K3].
      assert (HT : transferred ty d1 d2 pp n q n' w w5 r5).
      { split_and!.
        - intros Hm x. by rewrite T1, K3.
        - intros x Hx. apply T2. by rewrite K3.
        - intros Hr Hd x b Hx. apply (T3 Hr Hd). by rewrite K3. }
      destruct r5; [apply ends_ret|]; exact HT. }
  apply ends_bind. destruct (decide (d1 = d2)) as [Hd|Hd].
  - eapply ends_mono; [by apply (native_ends ty src dst dstName stage d1 d2 pp n q n' w P w2 Q)|].
    intros w3 r3 (o & -> & C3 & H3). destruct o as [[u|e]|]; [by apply ends_ret|by apply ends_fail|].
    apply Hgo; [done|by apply control_coord].
  - apply ends_ret. apply Hgo; [|by apply control_coord, Q].
    split; [by eapply quiet_inv|]. intros x. by rewrite (quiet_tree _ _ _ Q).
Qed.

End Tasks.
