(* ===== verification/TransferTasks.v ===== *)
(** Moves that run as tasks of a manager: however the tasks are scheduled, fail
    and are tried again, the source stays untouched until the last of them has
    ended, and no file is lost. The properties of transfers. *)
From S2P Require Import Prelude GoString GoPath Paths Mounts Storages Objects KeyedCache DirCache OpFs FsTree.
From S2P Require Import OpFsSpec OpFsRead OpFsWrite FsView TaskGroup Transfer TransferSpec TransferSys.

Section Managed.
Context {D S E : Type} {DD : EqDecision D} {OO : StorageOps D S E} {V : StorageView D S} {LL : StorageLaws D S E}.

Abbreviation world := (world D S).
Abbreviation treeAt w d := (tree (store w) d).
Abbreviation answer A := (res (transfer_error E) A).

(** ** A task adds tasks for its children *)

(** [ts] are the tasks that were added, all of the group [g]. *)
Definition added (g : gostr) (w w' : world) (ts : list (FileTransferTask D)) : Prop :=
  queue w' = queue w ++ ts /\ payloadsOf (coord w') g = payloadsOf (coord w) g /\
  stateOf (coord w') g =
    mkGroup (pending (stateOf (coord w) g) + Z.of_nat (length ts)) (hasSuccess (stateOf (coord w) g)).

Lemma added_quiet g w w' : control w' = control w -> added g w w' [].
Proof.
  unfold control. intros [= C1 C2 _]. unfold added. rewrite C1, C2, app_nil_r, Z.add_0_r. split_and!; try done. by destruct (stateOf _ _).
Qed.

Lemma added_trans g w1 w2 w3 ts1 ts2 : added g w1 w2 ts1 -> added g w2 w3 ts2 -> added g w1 w3 (ts1 ++ ts2).
Proof.
  intros (Q1 & P1 & S1) (Q2 & P2 & S2). unfold added. rewrite Q2, Q1, (assoc_L (++)), P2, P1, S2, S1, length_app. split_and!; try done.
  simpl. f_equal. lia.
Qed.

Lemma addTask_ends t w (Q : world -> answer unit -> Prop) :
  (forall w', store w' = store w -> added (groupID t) w w' [t] -> Q w' (Ok tt)) -> ends (addTask t) w Q.
Proof.
  intros H. apply H; [done|]. unfold added, payloadsOf, stateOf. simpl. by rewrite lookup_insert_eq.
Qed.

Section Adding.
Context (t : FileTransferTask D) (p q : fpath) (n' : gostr) (T1 : ftree) (G : goodTask t p q n' T1).
Abbreviation d1 := (SrcStorage t).
Abbreviation d2 := (DstStorage t).
Abbreviation q' := (q ++ [n']).

(** A task for an entry of the source folder. *)
Definition childOf (t' : FileTransferTask D) : Prop :=
  exists o, t' = childTask t (mkpath q') o /\ T1 !! (p ++ [GetName o]) = Some (IsDir o).

Definition grew (w w' : world) : Prop := exists ts, added (groupID t) w w' ts /\ Forall childOf ts.

Lemma grew_quiet w w' : control w' = control w -> grew w w'.
Proof. exists []. split; [by apply added_quiet|constructor]. Qed.

Lemma grew_trans w1 w2 w3 : grew w1 w2 -> grew w2 w3 -> grew w1 w3.
Proof. intros (t1 & A1 & F1) (t2 & A2 & F2). exists (t1 ++ t2). split; [by eapply added_trans|by apply Forall_app]. Qed.

Lemma eachAdd_ends existed objs : forall w, inv (store w) ->
  (forall o, o ∈ objs -> T1 !! (p ++ [GetName o]) = Some (IsDir o)) ->
  ends (eachChild addTask t (mkpath q') existed objs) w (fun w' r => same (store w) (store w') /\ grew w w').
Proof.
  induction objs as [|o objs IH]; intros w I Ho; simpl.
  { apply ends_ret. split; [by apply same_refl|by apply grew_quiet]. }
  apply ends_bind, lift_same; [by apply law_ctx|]. intros w1 r1 [C1 S1]. pose proof (grew_quiet _ _ C1) as G1.
  destruct r1 as [u|e0]; [|by split].
  assert (Hrest : forall w2, same (store w1) (store w2) -> grew w1 w2 ->
    ends (eachChild addTask t (mkpath q') existed objs) w2 (fun w' r => same (store w) (store w') /\ grew w w')).
  { intros w2 S2 G2. eapply ends_mono; [apply IH; [apply S2|intros o' Ho'; apply Ho; by right]|].
    intros w3 r3 [S3 G3]. split; [eapply same_trans; [exact S1|by eapply same_trans]|].
    eapply grew_trans; [exact G1|by eapply grew_trans]. }
  apply ends_bind. destruct (decide _).
  - apply ends_ret, Hrest; [apply same_refl, S1|by apply grew_quiet].
  - apply addTask_ends. intros w2 Hst A2. apply Hrest; [rewrite Hst; apply same_refl, S1|].
    exists [childTask t (mkpath q') o]. split; [done|]. constructor; [|constructor]. exists o. split; [done|]. apply Ho. by left.
Qed.

Lemma runAdd_ends w : inv (store w) -> sameSrc t p T1 w ->
  ends (RunWithNextTaskCallback addTask t) w (fun w' r => wrote d2 q n' w w' /\ grew w w').
Proof.
  intros I Hs. pose proof G as [G1 G2 G3 G4 [G5 (pp & n & Hp & Hn')] G7 G8 G9]. unfold RunWithNextTaskCallback.
  rewrite G1. pose proof G3 as G3'. rewrite Hp in G3' |- *.
  assert (Hq : forall w1, quiet w w1 -> wrote d2 q n' w w1 /\ grew w w1).
  { intros w1 Q1. split; [by apply wrote_quiet|apply grew_quiet, Q1]. }
  assert (Hq' : Forall clean_seg q') by (apply okName_clean, Forall_app; split; [done|by constructor]).
  apply ends_bind, lift_get; [done|done|]. intros w1 r1 Q1 H1.
  destruct r1 as [o|e0]; [|by apply Hq]. destruct (H1 o eq_refl) as [Hn Ho].
  assert (I1 : inv (store w1)) by (by eapply quiet_inv). destruct (IsDir o).
  - apply ends_bind, lift_list; [done|done|]. intros w2 r2 Q2 H2. pose proof (quiet_trans _ _ _ Q1 Q2) as Q12.
    destruct r2 as [objs|e0]; [|by apply Hq]. destruct (H2 objs eq_refl) as (_ & _ & Hl). rewrite (quiet_tree _ _ _ Q1), <- Hp in Hl.
    rewrite Hn, <- Hn', G2, join2_mkpath by (by apply okName_clean || by apply law_ok).
    apply ends_bind, lift_makeDir; [by eapply quiet_inv|apply Forall_app; split; [done|by constructor]|].
    intros w3 r3 C3 W3 _. destruct (Hq _ Q12) as [W2 R2]. pose proof (wrote_trans _ _ _ _ _ _ W2 W3) as W13.
    pose proof (grew_trans _ _ _ R2 (grew_quiet _ _ C3)) as R13. destruct r3 as [u|e0]; [|by split].
    assert (I3 : inv (store w3)) by (by eapply wrote_inv).
    apply ends_bind. eapply ends_mono; [apply (existing_ends t q n' w3); done|]. intros w4 r4 [Q4 _].
    pose proof (wrote_trans _ _ _ _ _ _ W13 (wrote_quiet d2 q n' _ _ Q4)) as W14.
    pose proof (grew_trans _ _ _ R13 (grew_quiet _ _ (proj1 Q4))) as R14. destruct r4 as [ex|e0]; [|by split].
    eapply ends_mono; [apply eachAdd_ends; [by eapply wrote_inv|]|].
    + intros o' Ho'. rewrite <- Hs. apply Hl. by exists o'.
    + intros w5 r5 [S5 R5]. split; [|by eapply grew_trans]. eapply wrote_trans; [exact W14|].
      split; [by apply same_others|]. destruct S5 as [_ S5]. rewrite S5. apply within_refl.
  - apply ends_bind, link_ends; [done|done|]. intros w2 r2 Q2 H2. pose proof (quiet_trans _ _ _ Q1 Q2) as Q12.
    destruct r2 as [o2|e0]; [|by apply Hq]. specialize (H2 o2 eq_refl).
    set (so := if seqb (DstName t) "" then o2 else ObjWrapName (DstName t) o2).
    assert (Hso : GetName so = n') by (subst so; rewrite Hn'; by destruct (seqb _ _)).
    apply ends_bind, lift_same; [apply law_open; by eapply quiet_inv|]. intros w3 r3 Q3.
    pose proof (quiet_trans _ _ _ Q12 Q3) as Q13. destruct r3 as [size|e0]; [|by apply Hq].
    assert (Hf' : fName (streamOf so size) = n') by done.
    rewrite G2. apply lift_put; [by eapply quiet_inv|done|by rewrite Hf'; apply G5|]. rewrite Hf'.
    intros w4 r4 C4 W4 _. destruct (Hq _ Q13) as [W3 R3]. split; [by eapply wrote_trans|].
    eapply grew_trans; [exact R3|by apply grew_quiet].
Qed.

End Adding.

(** ** Done for one of several tasks *)
Lemma Done_pending c g ok : 0 < pending (stateOf c g) ->
  Done c g ok =
  if pending (stateOf c g) =? 1 then
    (mkCoord (delete g (groupPayloads c)) (delete g (groupStates c)),
     if hasSuccess (stateOf c g) || ok then Some (payloadsOf c g) else None)
  else (mkCoord (groupPayloads c) (<[g := mkGroup (pending (stateOf c g) - 1) (hasSuccess (stateOf c g) || ok)]> (groupStates c)), None).
Proof.
  unfold Done, stateOf. destruct (groupStates c !! g) as [s|]; simpl; [|lia]. intros Hs.
  by rewrite (proj2 (Z.eqb_neq _ 0)) by lia.
Qed.

Section Moving.
Context (needHook : bool) (fuel : nat) (src dst stage : gostr) (d1 d2 : D) (pp : fpath) (n : gostr) (q : fpath)
  (w0 : world) (P : placed move src dst [] stage d1 d2 pp n q n w0).
Abbreviation p := (pp ++ [n]).
Abbreviation q' := (q ++ [n]).
Abbreviation g := (path_join2 (mountPath d2) (mkpath q)).
Abbreviation T1 := (treeAt w0 d1).

(** Every file of the source is still there, or one stands for it. *)
Definition filesSafe (w : world) : Prop := forall x, T1 !! (p ++ x) = Some false ->
  treeAt w d1 !! (p ++ x) = Some false \/ covered (treeAt w d2) q' x.

Definition ourTask (t : FileTransferTask D) : Prop := exists pt qt nt,
  goodTask t pt qt nt T1 /\ SrcStorage t = d1 /\ DstStorage t = d2 /\ groupID t = g /\
  (exists x, pt = p ++ x) /\ forall k, region qt nt k -> region q n k.

(** While there are tasks they are all the tasks of the group, the source is
    untouched and waits to be removed. *)
Definition underWay (w : world) : Prop :=
  kept d1 p w0 w /\ Forall ourTask (queue w) /\
  payloadsOf (coord w) g = [SrcPathToRemove src] /\
  pending (stateOf (coord w) g) = Z.of_nat (length (queue w)).

Record Tasking (w : world) : Prop := {
  tk_run : queue w <> [] -> underWay w;
  tk_safe : filesSafe w
}.

Lemma kept_safe w : kept d1 p w0 w -> filesSafe w.
Proof. intros [_ K] x Hx. left. by rewrite K. Qed.

Lemma child_ours t pt qt nt t' : goodTask t pt qt nt T1 -> SrcStorage t = d1 -> DstStorage t = d2 -> groupID t = g ->
  (exists x, pt = p ++ x) -> (forall k, region qt nt k -> region q n k) ->
  childOf t pt qt nt T1 t' -> ourTask t'.
Proof.
  intros G Hd1 Hd2 Hg [x ->] Hr (o & -> & Ho). exists ((p ++ x) ++ [GetName o]), (qt ++ [nt]), (GetName o).
  split_and!; [by apply child_good|done|done|done| |].
  - exists (x ++ [GetName o]). by rewrite <- (assoc_L (++)).
  - intros k Hk. by apply Hr, (region_child _ _ (GetName o)).
Qed.

Lemma kept_wrote w w' : kept d1 p w0 w -> wrote d2 q n w w' -> kept d1 p w0 w'.
Proof.
  intros K W. eapply kept_trans; [exact K|]. split; [by eapply wrote_inv|]. intros x.
  eapply wrote_src; [exact (pl_apart _ _ _ _ _ _ _ _ _ _ _ _ P)|exact W].
Qed.

(** A task runs and adds tasks. *)
Lemma task_runs t i w : underWay w -> queue w !! i = Some t ->
  ends (RunWithNextTaskCallback addTask t) w (fun w' r =>
    underWay w' /\ exists ts, queue w' = queue w ++ ts).
Proof.
  intros (K & F & HP & HS) Ht. pose proof F as F'. rewrite Forall_forall in F'.
  destruct (F' t) as (pt & qt & nt & G & Hd1 & Hd2 & Hg & [x Hx] & Hr); [by eapply list_elem_of_lookup_2|].
  eapply ends_mono; [apply (runAdd_ends t pt qt nt T1 G w); [apply K|]|].
  - intros y. rewrite Hd1, Hx, <- (assoc_L (++)). apply K.
  - intros w1 r1 [[O1 W1] (ts & (Q1 & P1 & S1) & F1)]. rewrite Hd2 in O1, W1. rewrite Hg in P1, S1.
    split; [|by exists ts]. split_and!.
    + eapply kept_wrote; [exact K|]. split; [done|]. by eapply within_mono.
    + rewrite Q1. apply Forall_app. split; [done|]. eapply Forall_impl; [exact F1|]. intros t' Ht'. eapply child_ours; eauto.
    + by rewrite P1.
    + rewrite S1, Q1, HS, length_app. simpl. lia.
Qed.

(** One task ends. *)
Lemma task_ends t i ok w : underWay w -> queue w !! i = Some t -> groupID t = g ->
  ends (groupDone needHook fuel g ok) (mkTw (store w) (coord w) (delete i (queue w)) (success w)) (fun w' _ => Tasking w').
Proof.
  intros (K & F & HP & HS) Ht Hg. unfold groupDone. apply ends_bind. unfold ends at 1, onCoord. simpl.
  pose proof (lookup_lt_Some _ _ _ Ht) as Hlt. rewrite Done_pending by lia. rewrite HS, HP.
  assert (Hlen : length (delete i (queue w)) = (length (queue w) - 1)%nat).
  { pose proof (length_delete (queue w) i (ltac:(by eexists))). lia. }
  destruct (Z.of_nat (length (queue w)) =? 1) eqn:E1; bool_hyps; simpl.
  - assert (Hnil : delete i (queue w) = []) by (apply nil_length_inv; lia). rewrite Hnil.
    set (w1 := mkTw _ _ _ _).
    assert (HT : Tasking w1) by (split; [done|by apply kept_safe]).
    destruct (_ || ok); [|by apply ends_ret]. pose proof P as [_ Hsrc _ Hgr _ Hcl [Hokq _] _ _ _ _ _].
    apply (Hook_source needHook fuel d1 d2 pp q n); [done|by apply okName_clean|apply K|done| | |].
    + destruct (pl_apart _ _ _ _ _ _ _ _ _ _ _ _ P) as [?|[? _]]; [by left|by right].
    + intros s y Is Hy. rewrite Hsrc in Hy by done. by injection Hy as <-.
    + intros w2 Hw2. assert (Hqueue : queue w2 = []).
      { assert (C : control w2 = control w1) by (destruct Hw2 as [[C _]|(C & _)]; exact C). unfold control in C. by injection C. }
      split; [by rewrite Hqueue|]. destruct K as [_ K]. destruct Hw2 as [Q2|K2].
      * intros x Hx. left. rewrite (quiet_tree _ _ _ Q2). simpl. by rewrite K.
      * pose proof (fun y => checked_dst _ _ _ _ _ _ y (placed_separate _ _ _ _ _ _ _ _ _ _ _ _ P) K2) as Hd.
        intros x Hx. destruct K2 as (_ & _ & He). destruct (He (p ++ x)) as [Ee|(_ & x' & Heq & Hc)].
        -- left. rewrite Ee. simpl. by rewrite K.
        -- apply app_inv_head in Heq as <-. right. eapply covered_agree; [intros y; symmetry; apply Hd|]. apply Hc. simpl. by rewrite K.
  - apply ends_ret. split; [|by apply kept_safe]. intros _. split_and!; simpl; [done|by apply Forall_delete|done|].
    unfold stateOf. simpl. rewrite lookup_insert_eq. simpl. rewrite Hlen. lia.
Qed.

Lemma taskStep_ends i retry w : Tasking w -> ends (taskStep needHook fuel i retry) w (fun w' _ => Tasking w').
Proof.
  intros HT. unfold ends, taskStep. destruct (queue w !! i) as [t|] eqn:Ht; [|done].
  assert (HU : underWay w) by (apply (tk_run _ HT); intros Hn; by rewrite Hn in Ht).
  assert (Hg : groupID t = g).
  { destruct HU as (_ & F & _). rewrite Forall_forall in F.
    destruct (F t) as (? & ? & ? & _ & _ & _ & Hg & _); [by eapply list_elem_of_lookup_2|done]. }
  apply (ends_bind _ _ w (fun w' _ => Tasking w')), ends_attempt. eapply ends_mono; [by apply (task_runs t i)|].
  intros w1 r1 [HU1 [ts Q1]].
  assert (Ht1 : queue w1 !! i = Some t) by (rewrite Q1; by apply lookup_app_l_Some).
  destruct (negb (is_ok r1) && retry).
  - apply ends_ret. split; [done|]. apply kept_safe, HU1.
  - apply ends_bind. unfold ends at 1. simpl. rewrite Hg. by eapply task_ends.
Qed.

(** The transfer, and what the manager does with its tasks. *)
Definition runTasks (l : list (nat * bool)) (w : world) : world :=
  foldl (fun w x => (taskStep (E:=E) needHook fuel x.1 x.2 w).1) w l.

Lemma runTasks_Tasking l : forall w, Tasking w -> Tasking (runTasks l w).
Proof. induction l as [|[i b] l IH]; intros w HT; simpl; [done|]. apply IH. by apply (taskStep_ends i b w). Qed.

Lemma transfer_Tasking : queue w0 = [] ->
  ends (transfer needHook fuel false stage move src dst []) w0 (fun w' _ => Tasking w').
Proof.
  intros Hq0. pose proof P as [I Hsrc Hdst _ Hfree _ _ _ _ _ _ _]. unfold transfer.
  apply ends_bind, (lift_resolved src (d1, mkpath p)); [done|done|]. intros w1 Q1.
  apply ends_bind, (lift_resolved dst (d2, mkpath q)); [by eapply quiet_inv|done|]. intros w2 Q2.
  pose proof (quiet_trans _ _ _ Q1 Q2) as Q.
  assert (Hgo : forall w3, kept d1 p w0 w3 -> control w3 = control w0 ->
    ends (let t := newTask move d1 d2 (mkpath p) (mkpath q) [] in
          onCoord (fun c => (AddTask c (groupID t) None, tt));;
          (appendSrc (E:=E) move (groupID t) src;; (enqueue t;; mret (Some t)))) w3 (fun w' _ => Tasking w')).
  { intros w3 K3 C3. pose proof (placed_kept _ _ _ _ _ _ _ _ _ _ _ _ _ P K3 (control_coord _ _ C3)) as P3.
    cbv zeta. simpl. unfold appendSrc. rewrite decide_True by done.
    assert (Hq3 : queue w3 = []) by (unfold control in C3; congruence).
    assert (Hc3 : coord w3 = coord w0) by (by apply control_coord).
    pose proof (placed_task _ _ _ _ _ _ _ _ _ _ _ _ P) as G. destruct Hfree as [HP HS]. simpl in HS.
    do 3 (apply ends_bind; unfold ends at 1; simpl). apply ends_ret. split; [|by apply kept_safe]. intros _. split_and!.
    - destruct K3 as [I3 K3]. by split.
    - simpl. rewrite Hq3. constructor; [|constructor]. exists p, q, n. split_and!; [done|done|done|done| |done].
      exists []. by rewrite app_nil_r.
    - unfold payloadsOf in *. simpl. rewrite lookup_insert_eq, Hc3. simpl. by rewrite HP.
    - unfold stateOf. simpl. rewrite lookup_insert_eq, Hq3, Hc3, HS. done. }
  apply ends_bind. destruct (decide (d1 = d2)) as [Hd|Hd].
  - eapply ends_mono; [by apply (native_ends move src dst [] stage d1 d2 pp n q n w0 P w2 Q)|].
    intros w3 r3 (o & -> & C3 & H3). assert (Hq3 : queue w3 = []) by (unfold control in C3; congruence).
    destruct o as [[u|e0]|]; [apply ends_ret|apply ends_fail|by apply Hgo]; (split; [done|]); intros x Hx; by apply H3.
  - apply ends_ret. apply Hgo; [|apply Q]. split; [by eapply quiet_inv|]. intros x. by rewrite (quiet_tree _ _ _ Q).
Qed.
End Moving.
End Managed.
