(* ===== verification/TransferOp.v ===== *)
(** The operations of package op as the storages of a transfer: the instance of
    [StorageOps] from [OpFs] and [FsView], and its laws for one mounted storage
    with a lawful driver. *)
From S2P Require Import Prelude GoString GoPath Paths Auth Mounts Storages Objects KeyedCache DirCache OpFs FsTree.
From S2P Require Import OpFsSpec OpFsRead OpFsWrite OpFsMem OpFsSys FsView TaskGroup Transfer TransferSpec TransferSys TransferTasks.

Section Instance_.
Context {R E D : Type} (GetStorage : D -> Storage) (drv : D -> Driver R E).
Context (sortSlice : (Obj -> Obj -> bool) -> list Obj -> list Obj) (naturalLess : gostr -> gostr -> bool)
        (clock : nat -> Z) (charMap : charmap) (doublestarMatch : gostr -> gostr -> option bool).
Context (entries : list (gostr * D)).                                   (* storagesMap *)
(** Whether the driver gives a link, and the stream of it; the context. The hooks of
    other components leave the state of the storages alone. *)
Context (linkError : R -> Obj -> option (op_error E)) (openStream : gostr -> Obj -> res (fs_error E) Z)
        (ctxErr : option (fs_error E)).

Abbreviation world' := (FsView.world (R:=R)).
Abbreviation on m := (runOn (E:=E) m).
Abbreviation Get' d := (Get (drv d) sortSlice naturalLess clock charMap doublestarMatch).
Abbreviation GetUnwrap' d := (GetUnwrap (drv d) sortSlice naturalLess clock charMap doublestarMatch).

Definition listArgs : ListArgs := mkListArgs [] false false false false.

(** Link without its cache: the object must be a file, and the driver gives a link
    or an error. *)
Definition linkObj (d : D) (path : gostr) : M (R:=R) (E:=E) Obj :=
  file ← GetUnwrap' d path;
  if IsDir file then fail NotFile
  else
    r ← call (fun s => (s, linkError s file));
    match r with Some e => fail e | None => mret file end.

Definition opStorages : StorageOps D world' E := {|
  mountPath d := MountPath (GetStorage d);
  hasMkdir d := bool_decide (is_Some (dMakeDir (drv d)));
  hasCopy d := bool_decide (is_Some (dCopy (drv d)));
  hasMove d := bool_decide (is_Some (dMove (drv d)));
  hasRename d := bool_decide (is_Some (dRename (drv d)));
  hasRemove d := bool_decide (is_Some (dRemove (drv d)));
  sResolve := resolve GetStorage entries;
  sGet d path := on (Get' d path false);
  sGetUnwrap d path := on (GetUnwrap' d path);
  sList d path := on (List (drv d) sortSlice naturalLess clock charMap doublestarMatch path listArgs);
  sMakeDir d path := on (MakeDir (drv d) sortSlice naturalLess clock charMap doublestarMatch path);
  sPut d path f := on (Put (drv d) sortSlice naturalLess clock charMap doublestarMatch false path f);
  sRemove d path := on (Remove (drv d) sortSlice naturalLess clock charMap doublestarMatch path);
  sCopy d src dst := on (Copy (drv d) sortSlice naturalLess clock charMap doublestarMatch src dst);
  sMove d src dst := on (Move (drv d) sortSlice naturalLess clock charMap doublestarMatch src dst);
  sRename d src name := on (Rename (drv d) sortSlice naturalLess clock charMap doublestarMatch src name);
  sLink d path := on (linkObj d path);
  sOpen d path o w := (w, openStream path o);
  sCtx w := (w, match ctxErr with Some e => Err e | None => Ok tt end);
  sHook path l w := w
|}.

End Instance_.

(** ** The laws *)
Section OneStorage.
Context {R E : Type} (storage : Storage) (d : Driver R E).
Context (sortSlice : (Obj -> Obj -> bool) -> list Obj -> list Obj) (naturalLess : gostr -> gostr -> bool)
        (clock : nat -> Z) (charMap : charmap) (doublestarMatch : gostr -> gostr -> option bool).
Context (linkError : R -> Obj -> option (op_error E)) (openStream : gostr -> Obj -> res (fs_error E) Z)
        (ctxErr : option (fs_error E)).
Context (dinv : R -> Prop) (dtree : R -> ftree) (denotes : R -> Obj -> fpath -> Prop) (ms : fpath) (horizon : Z).
Context (Hset : setting d sortSlice clock charMap doublestarMatch dinv dtree denotes ms horizon).
Context (Hind : OnlyIndices (dConfig d) = false).
(** A handle has the name of what it denotes. *)
Context (Hnames : forall s o q n, denotes s o (q ++ [n]) -> GetName o = n).

Definition oneStorage : StorageOps unit (FsView.world (R:=R)) E :=
  opStorages (fun _ => storage) (fun _ => d) sortSlice naturalLess clock charMap doublestarMatch
    [(MountPath storage, tt)] linkError openStream ctxErr.

Definition oneView : StorageView unit (FsView.world (R:=R)) := {|
  inv w := Coh d dinv dtree denotes ms horizon (ops w);
  tree w _ := dtree (remote (ops w));
  okName n := clean_seg n /\ MappingName charMap n = n /\ MappingName charMap (tempName n) = tempName n /\ notTemp n;
  dependable _ := reliable d dinv dtree denotes
|}.

Abbreviation names l := (Forall (okName (StorageView := oneView)) l).

Lemma names_clean l : names l -> Forall clean_seg l.
Proof. intros H. eapply Forall_impl; [exact H|]. intros n. apply proj1. Qed.

Lemma names_plain l : names l -> plain charMap (mkpath l).
Proof.
  intros H. unfold plain. rewrite norm_segs_mkpath by by apply names_clean. eapply Forall_impl; [exact H|]. intros n (_ & Hm & _). done.
Qed.

(** An operation on the storage, and what its postcondition says. *)
Lemma on_runs {A} (m : M (R:=R) (E:=E) A) w (Q : FsView.world (R:=R) -> res (fs_error E) A -> Prop) :
  runs m (ops w) (fun st r => Q (mkWorld (balanceMap w) st) (match r with Ok x => Ok x | Err e => Err (EOp e) end)) ->
  let '(s, r) := runOn m w in Q s r.
Proof. unfold runs, runOn. by destruct (m (ops w)). Qed.

Lemma reads_same (w : FsView.world (R:=R)) st : reads d dinv dtree denotes ms horizon (ops w) st ->
  same (V := oneView) w (mkWorld (balanceMap w) st).
Proof. intros H. split; [apply H|]. intros u. simpl. apply (rd_ro _ _ _ _ _ _ _ _ H). Qed.

Lemma only_others (w : FsView.world (R:=R)) st : Coh d dinv dtree denotes ms horizon st ->
  others (V := oneView) tt w (mkWorld (balanceMap w) st).
Proof. intros H. split; [done|]. by intros []. Qed.

Lemma unwrap_entry w q n : Coh d dinv dtree denotes ms horizon (ops w) -> Forall clean_seg (q ++ [n]) ->
  runs (GetUnwrap d sortSlice naturalLess clock charMap doublestarMatch (mkpath (q ++ [n]))) (ops w) (fun st r =>
    same (V := oneView) w (mkWorld (balanceMap w) st) /\
    forall o, match r with Ok x => Ok x | Err e => Err (@EOp E e) end = Ok o ->
      GetName o = n /\ dtree (remote (ops w)) !! (q ++ [n]) = Some (IsDir o)).
Proof.
  intros C Hc. pose proof Hset as [Hperm Hclock Httl Hms Hmount Hget Laws]. unfold GetUnwrap, unwrapped. apply runs_bind.
  eapply runs_mono; [by eapply Get_runs|]. intros st r [A _ Ok_ _ _ _]. rewrite norm_segs_mkpath in Ok_ by done.
  destruct r as [f|e]; [|by split; [apply reads_same|]]. destruct (Ok_ f eq_refl) as ([Hh _ Ht] & Htmp & _).
  destruct (Ht q n eq_refl) as [Ht1 _]. rewrite (ro_tree _ _ _ _ _ (rd_ro _ _ _ _ _ _ _ _ A)) in Ht1.
  apply runs_ret. split; [by apply reads_same|]. intros o [= <-]. split.
  - eapply Hnames. apply Hh. destruct (Htmp eq_refl) as [?|?]; [by destruct q|by right].
  - rewrite Ht1. f_equal. by destruct f.
Qed.

#[export] Instance oneLaws : StorageLaws unit (FsView.world (R:=R)) E (OO := oneStorage) (V := oneView).
Proof.
  pose proof Hset as [Hperm Hclock Httl Hms Hmount Hget Laws].
  pose proof (Get_runs d sortSlice naturalLess clock charMap doublestarMatch dinv dtree denotes ms horizon
    Hperm Hclock Httl Hms Hmount Hget Laws) as GR.
  pose proof (list_runs d sortSlice naturalLess clock charMap doublestarMatch dinv dtree denotes ms horizon
    Hperm Hclock Httl Hms Hmount Hget Laws) as LR.
  pose proof (MakeDir_runs d sortSlice naturalLess clock charMap doublestarMatch dinv dtree denotes ms horizon
    Hperm Hclock Httl Hms Hmount Hget Laws) as MDR.
  pose proof (Remove_runs d sortSlice naturalLess clock charMap doublestarMatch dinv dtree denotes ms horizon
    Hperm Hclock Httl Hms Hmount Hget Laws) as RR.
  pose proof (Move_runs d sortSlice naturalLess clock charMap doublestarMatch dinv dtree denotes ms horizon
    Hperm Hclock Httl Hms Hmount Hget Laws) as MvR.
  pose proof (Copy_runs d sortSlice naturalLess clock charMap doublestarMatch dinv dtree denotes ms horizon
    Hperm Hclock Httl Hms Hmount Hget Laws) as CR.
  pose proof (Rename_runs d sortSlice naturalLess clock charMap doublestarMatch dinv dtree denotes ms horizon
    Hperm Hclock Httl Hms Hmount Hget Laws) as RnR.
  split.
  - intros w u C. simpl in C |- *. by eapply Coh_wf.
  - intros n (H1 & _ & _ & H2). done.
  - intros path w C. simpl. unfold resolve. destruct (GetStorageAndActualPath _ _ _ _) as [bm r]. by split.
  - intros [] q n w C Hc. simpl in C |- *. apply on_runs. eapply runs_mono; [by apply GR|]. intros st r [A _ Ok_ _ _ _].
    rewrite norm_segs_mkpath in Ok_ by done. split; [by apply reads_same|]. intros o Ho. destruct r as [f|]; [|done]. injection Ho as <-.
    destruct (Ok_ f eq_refl) as ([_ _ Ht] & _). destruct (Ht q n eq_refl) as [Ht1 Ht2].
    rewrite (ro_tree _ _ _ _ _ (rd_ro _ _ _ _ _ _ _ _ A)) in Ht1. done.
  - intros [] q n w C Hc. simpl in C |- *. by apply on_runs, unwrap_entry.
  - intros [] p w C Hc. simpl in C |- *. apply on_runs. unfold List. eapply runs_mono; [by apply LR|].
    intros st r [A _ Ok_ _ _]. rewrite norm_segs_mkpath in Ok_ by done. split; [by apply reads_same|].
    intros l Hl. destruct r as [l'|]; [|done]. injection Hl as <-. destruct (Ok_ l' eq_refl) as ([G1 G2 G3 _] & _).
    rewrite (ro_tree _ _ _ _ _ (rd_ro _ _ _ _ _ _ _ _ A)) in G1. split_and!; [done|done|].
    intros n b. simpl. by rewrite <- (ro_tree _ _ _ _ _ (rd_ro _ _ _ _ _ _ _ _ A)).
  - intros [] q n w C Hc. simpl in C |- *. apply on_runs. unfold linkObj. apply runs_bind. eapply runs_mono; [by apply unwrap_entry|].
    intros [c s] r [A Ok_]. assert (Hfail : forall e, same (V := oneView) w (mkWorld (balanceMap w) (mkFs c s)) /\
      forall o, @Err (fs_error E) Obj e = Ok o -> GetName o = n) by done.
    destruct r as [f|e]; [|apply Hfail]. destruct (IsDir f); [apply runs_fail, Hfail|].
    apply runs_bind, runs_call. simpl. destruct (linkError s f); [apply runs_fail, Hfail|]. apply runs_ret. split; [done|]. intros o [= <-]. by apply (Ok_ f).
  - by intros [] path o w C.
  - by intros w C.
  - by intros path l w C.
  - intros [] p w C Hp. pose proof (names_plain _ Hp) as Hpl. pose proof (names_clean _ Hp) as Hcl. simpl in C |- *. apply on_runs.
    eapply runs_mono; [by apply MDR|]. intros st r (C' & G & Ok_). rewrite norm_segs_mkpath in G, Ok_ by done.
    split; [by apply only_others|]. split; [done|]. intros Hr Hd. destruct r as [u|e]; [|done]. by apply (Ok_ u).
  - intros [] q f w C Hq (F1 & F2 & F3 & _). pose proof (names_plain _ Hq) as Hpl. pose proof (names_clean _ Hq) as Hcl.
    simpl in C |- *. apply on_runs. eapply runs_mono.
    { by eapply (Put_runs d sortSlice naturalLess clock charMap doublestarMatch dinv dtree denotes ms horizon
        Hperm Hclock Httl Hms Hmount Hget Laws (mkpath q) (fName f) Hpl F1 F2 F3 false f (ops w) C Hind). }
    intros st r (C' & G & Ok_). rewrite norm_segs_mkpath in G, Ok_ by done. split; [by apply only_others|]. split; [done|].
    intros Hr. destruct r as [u|e]; [|done]. by apply (Ok_ u).
  - intros [] p w C Hp. simpl in C |- *. apply on_runs. eapply runs_mono; [by apply RR|]. intros st r [C' Ok_].
    rewrite norm_segs_mkpath in Ok_ by done. split; [by apply only_others|]. destruct r as [u|e]; [|by left].
    destruct Ok_ as [_ [[_ Ht]|[Ht _]]]; [by right|by left].
  - intros [] p q n w C Hp Hq. simpl in C |- *. apply on_runs. eapply runs_mono; [by apply MvR|]. intros st r [C' Ok_].
    rewrite !norm_segs_mkpath in Ok_ by done. split; [by apply only_others|]. destruct r as [u|e]; [|done].
    destruct Ok_ as (p' & n' & [-> ->]%app_inj_tail & _ & _ & Hd & _ & _ & Ht). done.
  - intros [] p q n w C Hp Hq. simpl in C |- *. apply on_runs. eapply runs_mono; [apply CR; [done|]|].
    { rewrite norm_segs_mkpath by done. by destruct p. }
    intros st r [C' Ok_]. rewrite !norm_segs_mkpath in Ok_ by done. split; [by apply only_others|]. destruct r as [u|e]; [|done].
    destruct Ok_ as (p' & n' & [-> ->]%app_inj_tail & _ & Hd & _ & Ht). done.
  - intros [] p n m w C Hp (_ & M2 & _). simpl in C |- *. apply on_runs. eapply runs_mono; [by apply RnR|].
    intros st r [C' Ok_]. rewrite !norm_segs_mkpath in Ok_ by done. split; [by apply only_others|]. destruct r as [u|e]; [|done].
    destruct Ok_ as (p' & n' & [-> ->]%app_inj_tail & _ & _ & Ht). by rewrite M2 in Ht.
Qed.
End OneStorage.
