(* ===== verification/TransferFuel.v ===== *)
(** The recursions of a transfer end: a fuel above the height of the source is
    enough, for the tasks that run at once and for the check that precedes the
    removal. *)
From S2P Require Import Prelude GoString GoPath Paths Mounts Storages Objects KeyedCache DirCache OpFs FsTree.
From S2P Require Import OpFsSpec OpFsRead OpFsWrite FsView TaskGroup Transfer TransferSpec TransferSys.

Section Fuel.
Context {D S E : Type} {DD : EqDecision D} {OO : StorageOps D S E} {V : StorageView D S} {LL : StorageLaws D S E}.

Abbreviation world := (world D S).
Abbreviation treeAt w d := (tree (store w) d).
Abbreviation T' := (T (D:=D) (S:=S) (E:=E)).

(** ** Equal runs *)
Lemma bind_eq {A B} (m m' : T' A) (k k' : A -> T' B) w : m w = m' w ->
  (forall w1 a, m w = (w1, Ok a) -> k a w1 = k' a w1) -> (m ≫= k) w = (m' ≫= k') w.
Proof. unfold mbind, T_bind. intros <- H. destruct (m w) as [w1 [a|e]]; [by apply H|done]. Qed.

Lemma attempt_eq {A} (m m' : T' A) w : m w = m' w -> attempt m w = attempt m' w.
Proof. unfold attempt. by intros ->. Qed.

Lemma ends_at {A} (m : T' A) w w1 r Q : ends m w Q -> m w = (w1, r) -> Q w1 r.
Proof. unfold ends. intros H E0. by rewrite E0 in H. Qed.

Lemma attempt_Ok {A} (m : T' A) w w1 r : attempt m w = (w1, Ok r) -> m w = (w1, r).
Proof. unfold attempt. destruct (m w). by intros [= -> ->]. Qed.

(** What is below [p] is at most [k - 1] elements below. *)
Definition height (t : ftree) (p : fpath) (k : nat) : Prop := forall x b, t !! (p ++ x) = Some b -> (length x < k)%nat.

Lemma height_child t p c b k : t !! (p ++ [c]) = Some b -> height t p (Datatypes.S k) -> (0 < k)%nat /\ height t (p ++ [c]) k.
Proof.
  intros Hc H. split; [apply H in Hc; simpl in Hc; lia|]. intros x b' Hx. rewrite <- (assoc_L (++)) in Hx. apply H in Hx. simpl in Hx. lia.
Qed.

(** ** The check *)
Lemma checked_height d1 d2 p q' w w' k : checked d1 d2 p q' w w' -> height (treeAt w d1) p k -> height (treeAt w' d1) p k.
Proof.
  intros (_ & _ & He) H x b Hx. destruct (He (p ++ x)) as [E1|[E1 _]]; [|congruence]. rewrite E1 in Hx. by apply H in Hx.
Qed.

Section Check.
Context (rec rec' : D -> D -> gostr -> gostr -> T' unit) (d1 d2 : D) (p q' : fpath) (k : nat).
Context (Hp : Forall clean_seg p).
Context (Hrec : forall c w, inv (store w) -> clean_seg c ->
  ends (rec d1 d2 (mkpath (p ++ [c])) (mkpath q')) w (checkPost d1 d2 (p ++ [c]) (q' ++ [c]) w)).
Context (Heq : forall c w, inv (store w) -> clean_seg c -> (0 < k)%nat -> height (treeAt w d1) (p ++ [c]) k ->
  rec d1 d2 (mkpath (p ++ [c])) (mkpath q') w = rec' d1 d2 (mkpath (p ++ [c])) (mkpath q') w).

Lemma verifyAll_eq objs : forall w, inv (store w) -> Forall (fun o => clean_seg (GetName o)) objs ->
  (objs <> [] -> (0 < k)%nat) -> height (treeAt w d1) p (Datatypes.S k) ->
  verifyAll rec d1 d2 objs (mkpath p) (mkpath q') w = verifyAll rec' d1 d2 objs (mkpath p) (mkpath q') w.
Proof.
  induction objs as [|o objs IH]; intros w I Hc Hk Hh; simpl; [done|].
  apply Forall_cons in Hc as [Ho Hc]. rewrite join2_mkpath by done. specialize (Hk ltac:(done)). apply bind_eq.
  - apply attempt_eq, Heq; [done|done|done|]. intros x b Hx. rewrite <- (assoc_L (++)) in Hx. apply Hh in Hx. simpl in Hx. lia.
  - intros w1 r1 H1. apply attempt_Ok in H1. pose proof (ends_at _ _ _ _ _ (Hrec (GetName o) w I Ho) H1) as [K1 _].
    apply checked_child in K1. apply bind_eq; [|done]. apply IH; [by eapply checked_inv|done|done|by eapply checked_height].
Qed.
End Check.

Lemma getUnwrap_at d q n w w1 o : inv (store w) -> Forall clean_seg (q ++ [n]) ->
  lift (E:=E) (sGetUnwrap d (mkpath (q ++ [n]))) w = (w1, Ok o) -> quiet w w1 /\ GetName o = n.
Proof.
  intros I Hc H. apply (ends_at _ _ _ _ (fun w' r => quiet w w' /\ forall o, r = Ok o -> GetName o = n)) in H as [H1 H2]; [by split; [|apply H2]|].
  apply lift_getUnwrap; [done|done|]. intros w' r Q Hr. split; [done|]. intros o' Ho. by apply Hr.
Qed.

Lemma get_at d q n w w1 o : inv (store w) -> Forall clean_seg (q ++ [n]) ->
  lift (E:=E) (sGet d (mkpath (q ++ [n]))) w = (w1, Ok o) -> quiet w w1 /\ GetName o = n.
Proof.
  intros I Hc H. apply (ends_at _ _ _ _ (fun w' r => quiet w w' /\ forall o, r = Ok o -> GetName o = n)) in H as [H1 H2]; [by split; [|apply H2]|].
  apply lift_get; [done|done|]. intros w' r Q Hr. split; [done|]. intros o' Ho. by apply Hr.
Qed.

Lemma list_at d p w w1 l : inv (store w) -> Forall clean_seg p ->
  lift (E:=E) (sList d (mkpath p)) w = (w1, Ok l) -> quiet w w1 /\ listing (treeAt w d) p l.
Proof.
  intros I Hc H. apply (ends_at _ _ _ _ (fun w' r => quiet w w' /\ forall l, r = Ok l -> listing (treeAt w d) p l)) in H as [H1 H2]; [by split; [|apply H2]|].
  apply lift_list; [done|done|]. by intros.
Qed.

Lemma verify_fuel fuel : forall d1 d2 q pp n w,
  inv (store w) -> Forall clean_seg (pp ++ [n]) -> Forall clean_seg q -> separate d1 d2 (pp ++ [n]) (q ++ [n]) ->
  (0 < fuel)%nat -> height (treeAt w d1) (pp ++ [n]) fuel ->
  verifyAndRemove (E:=E) fuel d1 d2 (mkpath (pp ++ [n])) (mkpath q) w =
  verifyAndRemove (Datatypes.S fuel) d1 d2 (mkpath (pp ++ [n])) (mkpath q) w.
Proof.
  induction fuel as [|fuel IH]; [lia|]. intros d1 d2 q pp n w I Hp Hq Hs _ Hh.
  change (verifyWith (verifyAndRemove (E:=E) fuel) d1 d2 (mkpath (pp ++ [n])) (mkpath q) w =
          verifyWith (verifyAndRemove (Datatypes.S fuel)) d1 d2 (mkpath (pp ++ [n])) (mkpath q) w).
  set (p := pp ++ [n]) in *. set (q' := q ++ [n]) in *.
  assert (Hn : clean_seg n) by (by apply Forall_app in Hp as [_ [? _]%Forall_cons]).
  assert (Hq' : Forall clean_seg q') by (apply Forall_app; split; [done|by constructor]).
  unfold verifyWith. apply bind_eq; [done|]. intros w1 o1 H1.
  apply getUnwrap_at in H1 as [Q1 Hn1]; [|done|done].
  rewrite Hn1, join2_mkpath by done. fold q'. apply bind_eq; [done|]. intros w2 o2 H2.
  apply getUnwrap_at in H2 as [Q2 _]; [|by eapply quiet_inv|done].
  destruct (negb (IsDir o2)); [done|]. apply bind_eq; [done|]. intros w3 objs H3.
  pose proof (quiet_trans _ _ _ Q1 Q2) as Q12. apply list_at in H3 as (Q3 & _ & _ & Hlist); [|by eapply quiet_inv|done].
  pose proof (quiet_trans _ _ _ Q12 Q3) as Q. rewrite (quiet_tree _ _ _ Q12) in Hlist.
  assert (Hin : forall o, o ∈ objs -> treeAt w d1 !! (p ++ [GetName o]) = Some (IsDir o)) by (intros o Ho; apply Hlist; by exists o).
  apply bind_eq; [|done]. apply (verifyAll_eq _ _ d1 d2 p q' fuel); [done| | | | | |].
  - intros c w' I' Hc. apply verify_ends; [done| |done|].
    + apply Forall_app. split; [done|by constructor].
    + destruct Hs as [?|?]; [by left|right]. by apply apart_app.
  - intros c w' I' Hc Hk Hh'. apply IH; [done| |done| |done|done].
    + apply Forall_app. split; [done|by constructor].
    + destruct Hs as [?|?]; [by left|right]. by apply apart_app.
  - by eapply quiet_inv.
  - apply Forall_forall. intros o Ho. eapply (wf_seg _ (law_wf (store w) d1 I)). by apply Hin.
  - intros Hne. destruct objs as [|o objs]; [done|]. specialize (Hin o ltac:(by left)). by eapply height_child in Hin as [? _].
  - intros x b Hx. rewrite (quiet_tree _ _ _ Q) in Hx. by apply Hh in Hx.
Qed.

(** ** Tasks that run at once *)
Section Tasks.
Context (f f' : FileTransferTask D -> T' unit) (t : FileTransferTask D) (p q : fpath) (n' : gostr) (T1 : ftree).
Context (G : goodTask t p q n' T1).
Abbreviation d1 := (SrcStorage t).
Abbreviation d2 := (DstStorage t).
Abbreviation q' := (q ++ [n']).
Context (Hf : forall o w, inv (store w) -> sameSrc t p T1 w -> T1 !! (p ++ [GetName o]) = Some (IsDir o) ->
  ends (f (childTask t (mkpath q') o)) w (taskPost d1 d2 (p ++ [GetName o]) q' (GetName o) w)).
Context (Heq : forall o w, inv (store w) -> sameSrc t p T1 w -> T1 !! (p ++ [GetName o]) = Some (IsDir o) ->
  f (childTask t (mkpath q') o) w = f' (childTask t (mkpath q') o) w).

Lemma src_stable w w' : sameSrc t p T1 w -> wrote d2 q n' w w' -> sameSrc t p T1 w'.
Proof. apply (sameSrc_wrote t p q n'), (gt_detached _ _ _ _ _ G). Qed.

Lemma src_quiet w w' : sameSrc t p T1 w -> quiet w w' -> sameSrc t p T1 w'.
Proof. intros H Q x. by rewrite (quiet_tree _ _ _ Q). Qed.

Lemma ctx_at w w1 u : inv (store w) -> lift (E:=E) sCtx w = (w1, Ok u) -> quiet w w1.
Proof.
  intros I H. apply (ends_at _ _ _ _ (fun w' r => quiet w w')) in H; [done|]. apply lift_same; [by apply law_ctx|]. by intros.
Qed.

Lemma eachChild_eq existed objs : forall w, inv (store w) -> sameSrc t p T1 w ->
  (forall o, o ∈ objs -> T1 !! (p ++ [GetName o]) = Some (IsDir o)) ->
  eachChild f t (mkpath q') existed objs w = eachChild f' t (mkpath q') existed objs w.
Proof.
  induction objs as [|o objs IH]; intros w I Hs Hin; simpl; [done|].
  assert (Ho : T1 !! (p ++ [GetName o]) = Some (IsDir o)) by (apply Hin; by left).
  assert (Hin' : forall o', o' ∈ objs -> T1 !! (p ++ [GetName o']) = Some (IsDir o')) by (intros o' ?; apply Hin; by right).
  apply bind_eq; [done|]. intros w1 u1 H1. apply ctx_at in H1 as Q1; [|done].
  assert (I1 : inv (store w1)) by (by eapply quiet_inv). assert (Hs1 : sameSrc t p T1 w1) by (by eapply src_quiet).
  destruct (decide _).
  - apply bind_eq; [done|]. intros w2 u2 [= <- _]. by apply IH.
  - apply bind_eq; [by apply Heq|]. intros w2 u2 H2. pose proof (ends_at _ _ _ _ _ (Hf o w1 I1 Hs1 Ho) H2) as [W2 _].
    apply IH; [by eapply wrote_inv| |done]. eapply src_stable; [done|]. by eapply wrote_child.
Qed.

Lemma run_eq w : inv (store w) -> sameSrc t p T1 w ->
  RunWithNextTaskCallback f t w = RunWithNextTaskCallback f' t w.
Proof.
  intros I Hs. pose proof G as [G1 G2 G3 G4 [G5 (pp & n & Hp & Hn')] G7 G8 G9]. unfold RunWithNextTaskCallback.
  rewrite G1. apply bind_eq; [done|]. intros w1 o H1. pose proof G3 as G3'. rewrite Hp in H1, G3'.
  apply get_at in H1 as [Q1 Hn]; [|done|done]. destruct (IsDir o); [|done].
  apply bind_eq; [done|]. intros w2 objs H2. apply list_at in H2 as (Q2 & _ & _ & Hl); [|by eapply quiet_inv|done].
  pose proof (quiet_trans _ _ _ Q1 Q2) as Q. rewrite (quiet_tree _ _ _ Q1) in Hl.
  rewrite Hn, <- Hn', G2, join2_mkpath by (by apply okName_clean || by apply law_ok).
  assert (Hq : Forall okName q') by (apply Forall_app; split; [done|by constructor]).
  apply bind_eq; [done|]. intros w3 u3 H3.
  assert (W3 : wrote d2 q n' w2 w3).
  { apply (ends_at _ _ _ _ (fun w' r => wrote d2 q n' w2 w')) in H3; [done|]. apply lift_makeDir; [by eapply quiet_inv|done|by intros]. }
  assert (I3 : inv (store w3)) by (by eapply wrote_inv).
  apply bind_eq; [done|]. intros w4 ex H4.
  assert (Q4 : quiet w3 w4).
  { apply (ends_at _ _ _ _ (fun w' r => quiet w3 w')) in H4; [done|].
    eapply ends_mono; [apply (existing_ends t q n' w3); [done|by apply okName_clean]|]. by intros w' r [? _]. }
  apply eachChild_eq; [by eapply quiet_inv| |].
  - eapply src_quiet; [|exact Q4]. eapply src_stable; [|exact W3]. by eapply src_quiet.
  - intros o' Ho'. rewrite <- Hs. apply Hl. by exists o'.
Qed.
End Tasks.

Lemma runNow_fuel fuel : forall t p q n' T1 w, goodTask t p q n' T1 -> inv (store w) -> sameSrc t p T1 w ->
  (0 < fuel)%nat -> height T1 p fuel -> runNow (E:=E) fuel t w = runNow (Datatypes.S fuel) t w.
Proof.
  induction fuel as [|fuel IH]; [lia|]. intros t p q n' T1 w G I Hs _ Hh.
  change ((RunWithNextTaskCallback (runNow (E:=E) fuel) t;; setSuccess true) w =
          (RunWithNextTaskCallback (runNow (Datatypes.S fuel)) t;; setSuccess true) w).
  apply bind_eq; [|done].
  assert (Hsub : forall o w1, sameSrc t p T1 w1 -> sameSrc (childTask t (mkpath (q ++ [n'])) o) (p ++ [GetName o]) T1 w1).
  { intros o w1 H x. simpl. rewrite <- (assoc_L (++)). apply H. }
  apply (run_eq _ _ t p q n' T1 G); [| |done|done]; intros o w1 I1 Hs1 Ho.
  - apply (runNow_ends fuel (childTask t (mkpath (q ++ [n'])) o) (p ++ [GetName o]) (q ++ [n']) (GetName o) T1); [by apply child_good|done|by apply Hsub].
  - destruct (height_child _ _ _ _ _ Ho Hh) as [Hk Hh'].
    apply (IH (childTask t (mkpath (q ++ [n'])) o) (p ++ [GetName o]) (q ++ [n']) (GetName o) T1); [by apply child_good|done|by apply Hsub|done|done].
Qed.

(** ** The whole transfer *)
Section Whole.
Context (needHook : bool) (ty : taskType) (src dst dstName stage : gostr) (d1 d2 : D) (pp : fpath) (n : gostr) (q : fpath) (n' : gostr)
  (w : world) (P : placed ty src dst dstName stage d1 d2 pp n q n' w).
Context (fuel : nat) (Hfuel : (0 < fuel)%nat) (Hh : height (treeAt w d1) (pp ++ [n]) fuel).
Abbreviation p := (pp ++ [n]).
Abbreviation g := (path_join2 (mountPath d2) (mkpath q)).

Lemma resolve_at path x w1 w2 y : inv (store w1) -> resolvesTo path x ->
  lift (E:=E) (sResolve path) w1 = (w2, Ok y) -> quiet w1 w2 /\ y = x.
Proof.
  intros I Hx H. apply (ends_at _ _ _ _ (fun w' r => quiet w1 w' /\ forall y, r = Ok y -> y = x)) in H as [H1 H2]; [by split; [|apply H2]|].
  by apply (lift_resolve path x); [done|done|]; intros.
Qed.

Lemma kept_height w1 : kept d1 p w w1 -> height (treeAt w1 d1) p fuel.
Proof. intros [_ K] x b Hx. rewrite K in Hx. by apply Hh in Hx. Qed.

Lemma removeSource_fuel w1 : ty = move -> kept d1 p w w1 ->
  removeSource (E:=E) fuel d2 (mkpath q) src w1 = removeSource (Datatypes.S fuel) d2 (mkpath q) src w1.
Proof.
  intros Hm K. pose proof P as [_ Hsrc _ _ _ Hcl [Hokq _] Hname Hmv _ _ _]. unfold removeSource.
  apply bind_eq; [done|]. intros w2 r H2. apply attempt_Ok in H2. destruct r as [y|e]; [|done].
  apply (resolve_at src (d1, mkpath p)) in H2 as [Q2 ->]; [|apply K|].
  - apply bind_eq; [|done]. apply attempt_eq. apply verify_fuel; [by eapply quiet_inv|done|by apply okName_clean| |done|].
    + pose proof (placed_separate _ _ _ _ _ _ _ _ _ _ _ _ P) as Hs. by rewrite Hname, (Hmv Hm) in Hs.
    + rewrite (quiet_tree _ _ _ Q2). by apply kept_height.
  - intros s y0 Is Hy. rewrite Hsrc in Hy by done. by injection Hy as <-.
Qed.

Lemma Hook_fuel ps w1 : ps = [] \/ ty = move /\ ps = [SrcPathToRemove src] -> kept d1 p w w1 ->
  HookAndRemove (E:=E) needHook fuel g ps w1 = HookAndRemove needHook (Datatypes.S fuel) g ps w1.
Proof.
  intros Hps K. pose proof P as [_ _ _ Hg _ _ [Hokq _] _ _ _ _ _]. unfold HookAndRemove.
  apply bind_eq; [done|]. intros w2 r H2. apply attempt_Ok in H2. destruct r as [y|e]; [|done].
  apply (resolve_at g (d2, mkpath q)) in H2 as [Q2 ->]; [|apply K|done].
  assert (K2 : kept d1 p w w2).
  { eapply kept_trans; [exact K|]. split; [by eapply quiet_inv|]. intros x. by rewrite (quiet_tree _ _ _ Q2). }
  apply bind_eq; [done|]. intros w3 hooked H3.
  assert (K3 : kept d1 p w w3).
  { destruct needHook; [|by injection H3 as <- _].
    apply (ends_at _ _ _ _ (fun w' r => quiet w2 w' /\ is_ok r = true)) in H3 as [Q3 _].
    - eapply kept_trans; [exact K2|]. split; [by eapply quiet_inv|]. intros x. by rewrite (quiet_tree _ _ _ Q3).
    - apply hook_ends; [apply K2|by apply okName_clean]. }
  destruct Hps as [->|[Hm ->]]; simpl; [done|]. apply bind_eq; [by apply removeSource_fuel|done].
Qed.

Lemma transferNow_fuel w1 : inv (store w1) -> (forall d, treeAt w1 d = treeAt w d) -> holds (coord w1) g [CAdd g None] ->
  transferNow (E:=E) needHook fuel (newTask ty d1 d2 (mkpath p) (mkpath q) dstName) src w1 =
  transferNow needHook (Datatypes.S fuel) (newTask ty d1 d2 (mkpath p) (mkpath q) dstName) src w1.
Proof.
  intros I1 Ht1 Hg. set (t := newTask ty d1 d2 (mkpath p) (mkpath q) dstName).
  pose proof (placed_task _ _ _ _ _ _ _ _ _ _ _ _ P) as G.
  assert (Hs1 : forall w2, store w2 = store w1 -> sameSrc t p (treeAt w d1) w2).
  { intros w2 E2 x. simpl. by rewrite E2, Ht1. }
  unfold transferNow. apply bind_eq; [done|]. intros w2 u2 [= <- _]. set (w2 := mkTw _ _ _ _). apply bind_eq.
  { apply attempt_eq, (runNow_fuel fuel t p q n' (treeAt w d1)); [done|done|by apply Hs1|done|done]. }
  intros w3 r3 H3. apply attempt_Ok in H3.
  assert (K3 : kept d1 p w w3).
  { pose proof (ends_at _ _ _ _ _ (runNow_ends fuel t p q n' (treeAt w d1) w2 G I1 (Hs1 w2 eq_refl)) H3) as [W3 _].
    split; [by eapply wrote_inv|]. intros x. rewrite (wrote_src _ _ _ _ _ _ _ x (placed_detached _ _ _ _ _ _ _ _ _ _ _ _ P) W3).
    simpl. by rewrite Ht1. }
  assert (Hc3 : coord w3 = coord w1).
  { pose proof (keeps_runNow (E:=E) fuel t w2) as Hk. by rewrite H3 in Hk. }
  apply bind_eq; [done|]. intros w4 u4 H4.
  assert (HG : store w4 = store w3 /\ exists h, holds (coord w4) g h /\ h <> [] /\ balance h = 1 /\ succeeded h = false /\
    (given h = [] \/ ty = move /\ given h = [SrcPathToRemove src])).
  { unfold appendSrc in H4. simpl in H4. destruct (decide (ty = move)) as [Hm|Hm].
    - injection H4 as <- _. split; [done|]. exists [CAdd g None; CAppend g (Some (SrcPathToRemove src))]. split_and!; try done; [|by right].
      rewrite Hc3. apply (runCall_open (coord w1) (CAppend g (Some (SrcPathToRemove src))) g [CAdd g None]); [done|done| |];
        intros [|[|[|k]]] Hk; simpl in *; lia.
    - injection H4 as <- _. split; [done|]. exists [CAdd g None]. split_and!; try done; [by rewrite Hc3|by left]. }
  destruct HG as (Hst & h & Hh4 & Hh1 & Hh2 & Hh3 & Hgiv).
  apply bind_eq; [done|]. intros w5 ok [= <- <-]. apply bind_eq; [|done].
  unfold groupDone. apply bind_eq; [done|]. intros w6 ps H6. unfold onCoord in H6.
  pose proof (Done_last _ _ _ (success w4) Hh4 Hh1 Hh2) as HD. simpl in H6. destruct (Done (coord w4) _ (success w4)) as [c r].
  simpl in HD. injection H6 as <- <-. rewrite HD, Hh3. simpl. destruct (success w4); [|done].
  apply Hook_fuel; [done|]. destruct K3 as [I3 K3]. unfold kept. simpl. by rewrite Hst.
Qed.
End Whole.

Lemma transfer_fuel needHook ty src dst dstName stage d1 d2 pp n q n' w fuel :
  placed ty src dst dstName stage d1 d2 pp n q n' w -> (0 < fuel)%nat -> height (treeAt w d1) (pp ++ [n]) fuel ->
  transfer (E:=E) needHook fuel true stage ty src dst dstName w =
  transfer needHook (Datatypes.S fuel) true stage ty src dst dstName w.
Proof.
  intros P Hf Hh. pose proof P as [I Hsrc Hdst _ _ _ _ _ _ _ _ _]. unfold transfer.
  apply bind_eq; [done|]. intros w1 x1 H1. apply (resolve_at src (d1, mkpath (pp ++ [n]))) in H1 as [Q1 ->]; [|done|].
  2:{ intros s y Is Hy. rewrite Hsrc in Hy by done. by injection Hy as <-. }
  apply bind_eq; [done|]. intros w2 x2 H2. apply (resolve_at dst (d2, mkpath q)) in H2 as [Q2 ->]; [|by eapply quiet_inv|].
  2:{ intros s y Is Hy. rewrite Hdst in Hy by done. by injection Hy as <-. }
  pose proof (quiet_trans _ _ _ Q1 Q2) as Q. apply bind_eq; [done|]. intros w3 o H3.
  assert (HK : o = None -> kept d1 (pp ++ [n]) w w3 /\ coord w3 = coord w).
  { intros ->. destruct (decide (d1 = d2)) as [Hd|Hd].
    - pose proof (ends_at _ _ _ _ _ (native_ends ty src dst dstName stage d1 d2 pp n q n' w P w2 Q Hd) H3) as (o & [= <-] & C & K).
      split; [done|by apply control_coord].
    - injection H3 as <-. split; [|by apply control_coord, Q]. split; [by eapply quiet_inv|]. intros x. by rewrite (quiet_tree _ _ _ Q). }
  destruct o as [[u|e]|]; [done|done|]. destruct (HK eq_refl) as [K3 C3].
  pose proof (placed_kept _ _ _ _ _ _ _ _ _ _ _ _ _ P K3 C3) as P3.
  apply bind_eq; [done|]. intros w4 u4 [= <- _]. apply bind_eq; [|done].
  apply (transferNow_fuel needHook ty src dst dstName stage d1 d2 pp n q n' w3 P3 fuel Hf); [|apply P3|done|].
  - intros x b Hx. destruct K3 as [_ K3]. rewrite K3 in Hx. by apply Hh in Hx.
  - apply (runCall_open (coord w3) (CAdd _ None) _ []); [done|apply P3|apply opened_nil|].
    intros [|[|k]] Hk; simpl in *; lia.
Qed.

End Fuel.
