(* ===== verification/Moves.v ===== *)
(** What a copy, a merge or a move between storages keeps, copies and removes
    (src/internal/fs/copy_move.go, src/internal/task_group): the properties, at
    a witness with two directories of one storage whose driver can neither copy
    nor move, and runs that show where the code does less than it means to. *)
From S2P Require Import Prelude GoString GoPath Paths Mounts Storages Objects KeyedCache DirCache OpFs FsTree.
From S2P Require Import OpFsSpec OpFsRead OpFsWrite OpFsMem OpFsSys FsView TaskGroup.
From S2P Require Import Transfer TransferSpec TransferSys TransferTasks TransferOp TransferFuel.

(** ** The properties *)
Section Properties.
Context {D S E : Type} {DD : EqDecision D} {OO : StorageOps D S E} {V : StorageView D S} {LL : StorageLaws D S E}.
Abbreviation treeAt w d := (tree (store w) d).
Context (ty : taskType) (src dst dstName stage : gostr) (d1 d2 : D) (pp : fpath) (n : gostr) (q : fpath) (n' : gostr)
  (w : world D S).
Abbreviation p := (pp ++ [n]).
Abbreviation q' := (q ++ [n']).



(** The recursion over the source ends: with a fuel above the height of the
    source the transfer answers what it answers with any greater fuel. *)
Theorem transfer_terminates needHook fuel more : placed ty src dst dstName stage d1 d2 pp n q n' w ->
  (forall x b, treeAt w d1 !! (p ++ x) = Some b -> (length x < fuel)%nat) -> (0 < fuel)%nat ->
  transfer (E:=E) needHook (more + fuel) true stage ty src dst dstName w =
  transfer needHook fuel true stage ty src dst dstName w.
Proof.
  intros P Hh Hf. induction more as [|more IH]; [done|]. rewrite <- IH. symmetry.
  apply (transfer_fuel needHook ty src dst dstName stage d1 d2 pp n q n' w); [done|lia|].
  intros x b Hx. apply Hh in Hx. lia.
Qed.

End Properties.

Section Managed.
Context {D S E : Type} {DD : EqDecision D} {OO : StorageOps D S E} {V : StorageView D S} {LL : StorageLaws D S E}.
Abbreviation treeAt w d := (tree (store w) d).

End Managed.

(** ** A storage that neither copies nor moves *)

(** The driver of OpFsMem without Move and Copy; it refuses to upload some
    names. *)
Definition slowDriver (refuse : gostr -> bool) : Driver mem unit :=
  mkDriver memConfig (IRootPath "/") memList None (Some memMakeDir) None (Some memRename) None (Some memRemove)
    (Some (fun t dir f => if refuse (fName f) then (t, (None, Some (Other tt))) else memPutNamed t dir (fName f)))
    (Some (fun t dir n _ => memPutNamed t dir n)).

Lemma slowLaws refuse : DriverLaws (slowDriver refuse) [] wfTree id memDenotes.
Proof.
  pose proof memLaws as L. split; try (apply L).
  - by intros mv t o dst p n q b [=].
  - by intros cp t o dst p n q b [=].
  - intros put t o p f [= <-] W Ho. destruct (refuse (fName f)); [by apply mem_ro|].
    by apply (OpFsSpec.law_put memDriver [] wfTree id memDenotes (fun t dir f => memPutNamed t dir (fName f)) t o p f).
Qed.

Lemma slowReliable refuse : reliable (slowDriver refuse) wfTree id memDenotes.
Proof. destruct memReliable as [? H1 H2]. by split. Qed.

Lemma slowSetting refuse :
  setting (slowDriver refuse) sliceStable noClock [] noMatch wfTree id memDenotes (strs ["m"]) 1.
Proof. destruct memSetting as [H1 H2 H3 H4 H5 H6 _]. split; try done. apply slowLaws. Qed.

Lemma memNames (s : mem) o q n : memDenotes s o (q ++ [n]) -> GetName o = n.
Proof. intros [_ H]. by eapply H. Qed.

Definition mountM (m : gostr) : Storage := mkStorage 0 m 0 [] [] [] [] 0 false.
Definition anyName : gostr -> bool := fun _ => false.
Definition noLinkError : mem -> Obj -> option (op_error unit) := fun _ _ => None.
Definition openOne : gostr -> Obj -> res (fs_error unit) Z := fun _ _ => Ok 1.

Definition slowStorage (m : gostr) (refuse : gostr -> bool) : StorageOps unit (FsView.world (R:=mem)) unit :=
  oneStorage (mountM m) (slowDriver refuse) sliceStable str_ltb noClock [] noMatch noLinkError openOne None.

Abbreviation slowView := (oneView (R:=mem) (E:=unit) (slowDriver anyName) [] wfTree id memDenotes (strs ["m"]) 1).

Definition slowLawful : StorageLaws unit (FsView.world (R:=mem)) unit (OO := slowStorage "/m" anyName) (V := slowView) :=
  oneLaws (mountM "/m") (slowDriver anyName) sliceStable str_ltb noClock [] noMatch noLinkError openOne None
    wfTree id memDenotes (strs ["m"]) 1 (slowSetting anyName) eq_refl memNames.

(** /a with the file x and the folder s with the file y, and the folder /b *)
Definition twoFolders : ftree :=
  <[strs [] ++ [("b" : gostr)] := true]> (<[strs ["a"; "s"] ++ [("y" : gostr)] := false]>
    (<[strs ["a"] ++ [("s" : gostr)] := true]> (<[strs ["a"] ++ [("x" : gostr)] := false]>
       (<[strs [] ++ [("a" : gostr)] := true]> ∅)))).

Lemma twoFolders_wf : wfTree twoFolders.
Proof.
  assert (wfTree ∅) as W by (split; [intros p b H|intros p n b H]; by rewrite lookup_empty in H).
  unfold twoFolders. repeat apply treeInsert_wf; try done; try (by left); try (right; vm_compute; reflexivity);
    try (vm_compute; intros [=]); apply (bool_decide_eq_true_1 (clean_seg _)); vm_compute; reflexivity.
Qed.

Definition startWorld (t : ftree) : world unit (FsView.world (R:=mem)) :=
  mkTw (FsView.mkWorld ∅ (start t)) NewTaskGroupCoordinator [] false.

(** The names of the example are fit for uploads. *)
Definition fit (n : gostr) : Prop :=
  clean_seg n /\ drop (length n - length (".openlist_to_delete" : gostr)) n <> (".openlist_to_delete" : gostr).
#[export] Instance fit_dec n : Decision (fit n).
Proof. unfold fit. apply _. Defined.

Lemma fit_notTemp n : fit n -> notTemp n.
Proof. intros [_ H] m ->. apply H. unfold tempName. by rewrite length_app, Nat.add_sub, drop_app_length. Qed.

Lemma fit_okName n : fit n -> okName (StorageView := slowView) n.
Proof. intros H. split_and!; [apply H|done|done|by apply fit_notTemp]. Qed.

Lemma fits l : bool_decide (Forall fit l) = true -> Forall fit l.
Proof. apply bool_decide_eq_true_1. Qed.

Lemma entries_fit (t : ftree) p : bool_decide (Forall (fun kb => Forall fit kb.1) (map_to_list t)) = true ->
  forall x b, t !! (p ++ x) = Some b -> Forall fit x.
Proof.
  intros H%bool_decide_eq_true_1 x b Hx. rewrite Forall_forall in H.
  apply elem_of_map_to_list, H, Forall_app in Hx as [_ Hx]. done.
Qed.

(** The paths of the example resolve whatever the state. *)
Lemma slow_resolve m refuse path x :
  (forall bm, (GetStorageAndActualPath (fun _ : unit => mountM m) [(m : gostr, tt)] bm path).2 = Ok x) ->
  forall s : FsView.world (R:=mem), (sResolve (StorageOps := slowStorage m refuse) path s).2 = Ok x.
Proof.
  intros H s. specialize (H (balanceMap s)). simpl. unfold resolve. simpl in *.
  destruct (GetStorageAndActualPath _ _ _ _) as [bm r]. simpl in *. by rewrite H.
Qed.

Lemma slow_group path x : (forall bm, (GetStorageAndActualPath (fun _ : unit => mountM "/m") [("/m" : gostr, tt)] bm path).2 = Ok x) ->
  resolvesTo (OO := slowStorage "/m" anyName) (V := slowView) path x.
Proof. intros H s y _ Hy. rewrite (slow_resolve "/m" anyName path x H) in Hy. by injection Hy as <-. Qed.

(** The move of /a into /b. *)
Lemma folders_placed ty :
  placed (OO := slowStorage "/m" anyName) (V := slowView) ty "/m/a" "/m/b" [] "stage" tt tt [] "a" (strs ["b"]) "a"
    (startWorld twoFolders).
Proof.
  assert (Hok : forall l, bool_decide (Forall fit l) = true -> Forall (okName (StorageView := slowView)) l).
  { intros l H%fits. eapply Forall_impl; [exact H|]. apply fit_okName. }
  split.
  - apply start_Coh, twoFolders_wf.
  - intros s _. apply slow_resolve. intros bm. vm_compute. reflexivity.
  - intros s _. apply slow_resolve. intros bm. vm_compute. reflexivity.
  - apply slow_group. intros bm. vm_compute. reflexivity.
  - done.
  - apply (bool_decide_eq_true_1 (Forall clean_seg _)). vm_compute. reflexivity.
  - split; [by apply Hok|]. apply fit_okName, (bool_decide_eq_true_1 (fit _)). vm_compute. reflexivity.
  - vm_compute. reflexivity.
  - done.
  - right. split.
    + split; apply (bool_decide_eq_true_1 (~ _ `prefix_of` _)); vm_compute; reflexivity.
    + eapply Forall_impl; [apply (fits (strs ["a"])); vm_compute; reflexivity|]. apply fit_notTemp.
  - intros _. split; [apply fit_okName, (bool_decide_eq_true_1 (fit _)); vm_compute; reflexivity|].
    split; apply (bool_decide_eq_true_1 (~ _)); vm_compute; reflexivity.
  - intros x b Hx. eapply Forall_impl; [|apply fit_okName]. eapply (entries_fit twoFolders); [vm_compute; reflexivity|exact Hx].
Qed.

(** ** Witnesses *)
#[local] Existing Instance slowLawful.
Abbreviation slowTransfer ty fuel noTask := (transfer (OO := slowStorage "/m" anyName) false fuel noTask "stage" ty "/m/a" "/m/b" []).
Abbreviation treeOf w := (tree (StorageView := slowView) (store w) tt).

(** /b with what was in /a *)
Definition movedFolders : ftree :=
  <[strs ["b"; "a"; "s"; "y"] := false]> (<[strs ["b"; "a"; "s"] := true]> (<[strs ["b"; "a"; "x"] := false]>
    (<[strs ["b"; "a"] := true]> (<[strs ["b"] := true]> ∅)))).



Lemma transfer_terminates_witness :
  let w := startWorld twoFolders in
  slowTransfer merge (100 + 3) true w = slowTransfer merge 3 true w /\ is_ok (slowTransfer merge 3 true w).2 = true /\
  is_ok (slowTransfer merge 2 true w).2 = false.
Proof.
  split; [|by split; vm_compute].
  apply (transfer_terminates merge "/m/a" "/m/b" [] "stage" tt tt [] "a" (strs ["b"]) "a" (startWorld twoFolders) false 3 100
    (folders_placed merge)); [|lia].
  intros x b Hx.
  assert (Hall : forall k c, twoFolders !! k = Some c -> (length k < 4)%nat).
  { apply (bool_decide_eq_true_1 (map_Forall (fun (k : fpath) (_ : bool) => (length k < 4)%nat) twoFolders)). vm_compute. reflexivity. }
  apply Hall in Hx. simpl in Hx. lia.
Defined.


(** ** Where the code does less than it means to *)
Definition addFile (p : fpath) (t : ftree) : ftree := <[p := false]> t.
Definition addDir (p : fpath) (t : ftree) : ftree := <[p := true]> t.

(** /a with the files e and f, and in /b/a an older f *)
Definition staleTree : ftree :=
  addFile (strs ["b"; "a"; "f"]) (addDir (strs ["b"; "a"]) (addDir (strs ["b"])
    (addFile (strs ["a"; "f"]) (addFile (strs ["a"; "e"]) (addDir (strs ["a"]) ∅))))).
Definition refuseF : gostr -> bool := fun n => seqb n "f".

(** The check before a source is removed compares names only. The move of /a
    into /b cannot upload f and reports an error; e was uploaded, so the group
    counts as successful, the older f in /b/a passes for the new one, and /a
    is removed with the only copy of the new f. *)
Theorem stale_file_loses_source :
  let '(w', r) := transfer (OO := slowStorage "/m" refuseF) false 9 true "stage" move "/m/a" "/m/b" [] (startWorld staleTree) in
  r = Err (EStore (EOp (Other tt))) /\ treeOf w' !! strs ["a"] = None /\ treeOf w' !! strs ["a"; "f"] = None /\
  treeOf w' !! strs ["b"; "a"; "f"] = Some false.
Proof. vm_compute. done. Qed.

(** The group of a transfer is named by the mount path as configured, which for
    a balanced storage is not the path it is reached by: the move into it
    succeeds and its source is never removed. *)
Theorem balanced_move_keeps_source :
  let '(w', r) := transfer (OO := slowStorage "/m.balance" anyName) false 9 true "stage" move "/m/a" "/m/b" []
                    (startWorld twoFolders) in
  r = Ok None /\ treeOf w' !! strs ["a"; "s"; "y"] = Some false /\ treeOf w' !! strs ["b"; "a"; "s"; "y"] = Some false.
Proof. vm_compute. done. Qed.

(** A folder can be copied into a folder below itself: each round of the
    recursion finds the folder it has just made. *)
Theorem copy_below_itself :
  map (fun fuel =>
    let '(w', r) := transfer (OO := slowStorage "/m" anyName) false fuel true "stage" copy "/m/a" "/m/a/s" []
                      (startWorld twoFolders) in
    (r, treeOf w' !! (strs ["a"; "s"] ++ concat (replicate (Nat.div fuel 2) (strs ["a"; "s"])))))
    [4; 8; 12; 16]%nat = replicate 4 (Err EFuel, Some true).
Proof. vm_compute. reflexivity. Qed.
