(* ===== verification/FsManage.v ===== *)
(** The handlers that manage files for a logged-in user:
    src/server/handles/fsmanage.go and fsbatch.go.

    A handler decodes a request, checks what the user may do with the metas of
    the directories, and calls the file system (package fs), which is the class
    [FileSystem]; the calls that change something are logged. An early return is
    a [failure]. The answer of a handler is its code and what it says;
    what gin and ShouldBind do is left out, and the metas do not change during a
    request. Regular expressions are parameters.

    The loops over directories keep the path and the parent of an object in maps
    keyed by the object; the objects of a listing are pointers to new objects, so
    here an entry of the queue carries them. *)
From S2P Require Import Prelude GoString GoPath Paths Auth Mounts Storages Objects KeyedCache DirCache OpFs Transfer.

(** ** The file system *)
Class FileSystem (W E : Type) := {
  vGet : gostr -> W -> W * option Obj;                               (* with NoLog; an error is nil *)
  vList : option User -> option Meta -> gostr -> bool -> W -> W * res E (list Obj);  (* the user, the meta of the context, Refresh *)
  vMakeDir : gostr -> W -> W * res E unit;
  vRename : gostr -> gostr -> W -> W * res E unit;
  vRemove : gostr -> W -> W * res E unit;
  vTransfer : taskType -> gostr -> gostr -> bool -> W -> W * res E bool   (* skipHook; whether a task was added *)
}.

Inductive fscall :=
| CMakeDir (p : gostr)
| CRename (p name : gostr)
| CRemove (p : gostr)
| CTransfer (ty : taskType) (src dst : gostr).

Inductive herror (E : Type) :=
| HEmptyNames
| HPermissionDenied
| HRelativePath
| HMeta (e : meta_err)
| HNoMeta                 (* GetNearestMeta always answers *)
| HInvalidName (name : gostr)
| HExists (name : gostr)
| HRegexp
| HFs (e : E).
Arguments HEmptyNames {E}. Arguments HPermissionDenied {E}. Arguments HRelativePath {E}. Arguments HMeta {E}.
Arguments HNoMeta {E}. Arguments HInvalidName {E}. Arguments HExists {E}. Arguments HRegexp {E}. Arguments HFs {E}.

Inductive message := Done_ | TasksCreated (n : nat) | Immediately | Moved (count : nat).

(** An error response with its code. *)
Inductive failure (E : Type) :=
| RError (code : Z) (e : herror E)
| ROutOfFuel.
Arguments RError {E}. Arguments ROutOfFuel {E}.

(** ** Requests *)
Record MoveCopyReq := mkMoveCopy {
  mcSrcDir : gostr; mcDstDir : gostr; mcNames : list gostr; mcOverwrite : bool; mcSkipExisting : bool; mcMerge : bool
}.

Inductive policy := CANCEL | OVERWRITE | SKIP | OtherPolicy.
#[export] Instance policy_dec : EqDecision policy.
Proof. solve_decision. Defined.

Inductive request :=
| FsMkdirReq (path : gostr)
| FsMoveReq (r : MoveCopyReq)
| FsCopyReq (r : MoveCopyReq)
| FsRenameReq (path name : gostr) (overwrite : bool)
| FsRemoveReq (dir : gostr) (names : list gostr)
| FsRemoveEmptyDirectoryReq (srcDir : gostr)
| FsRecursiveMoveReq (srcDir dstDir : gostr) (p : policy)
| FsBatchRenameReq (srcDir : gostr) (renames : list (gostr * gostr))
| FsRegexRenameReq (srcDir srcNameRegex newNameRegex : gostr).

Definition checkRelativePath (path : gostr) : bool :=
  negb (existsb (fun c => bool_decide (c = slash \/ c = backslash)) path ||
        seqb path "" || seqb path "." || seqb path "..").

Section Handlers.
Context {W E : Type} {FS : FileSystem W E}.
Context (equalFold : gostr -> gostr -> bool)
        (getMetaByPath : gostr -> res meta_err Meta) (getMetaSnapshot : res meta_err (list Meta)).
Context {RE : Type} (compile : gostr -> option RE) (matchString : RE -> gostr -> bool)   (* regexp *)
        (replaceAllString : RE -> gostr -> gostr -> gostr).
Context (user : User).

(** ** Computations: an [Err] is an error response that has been sent *)
Record hstate := mkH { fsState : W; calls : list fscall }.

Definition H (A : Type) : Type := hstate -> hstate * res (failure E) A.

#[global] Instance H_ret : MRet H := fun A a w => (w, Ok a).
#[global] Instance H_bind : MBind H := fun A B k m w =>
  match m w with
  | (w, Ok a) => k a w
  | (w, Err e) => (w, Err e)
  end.

Definition respond {A} (r : failure E) : H A := fun w => (w, Err r).
Definition ErrorResp {A} (e : herror E) (code : Z) : H A := respond (RError code e).

(** A call that reads, and a call that changes something. *)
Definition reading {A} (m : W -> W * A) : H A := fun w =>
  let '(s, a) := m (fsState w) in (mkH s (calls w), Ok a).
Definition calling {A} (c : fscall) (m : W -> W * res E A) : H (res E A) := fun w =>
  let '(s, a) := m (fsState w) in (mkH s (calls w ++ [c]), Ok a).
(** An error is answered with 500. *)
Definition or500 {A} (m : H (res E A)) : H A :=
  r ← m; match r with Ok a => mret a | Err e => ErrorResp (HFs e) 500 end.

Definition list_ (meta : option Meta) (path : gostr) (refresh : bool) : H (list Obj) :=
  or500 (reading (vList (Some user) meta path refresh)).
Definition makeDir (p : gostr) : H unit := or500 (calling (CMakeDir p) (vMakeDir p)).
Definition rename (p name : gostr) : H unit := or500 (calling (CRename p name) (vRename p name)).
Definition remove (p : gostr) : H unit := or500 (calling (CRemove p) (vRemove p)).
Definition transfer_ (ty : taskType) (src dst : gostr) (skipHook : bool) : H bool :=
  or500 (calling (CTransfer ty src dst) (vTransfer ty src dst skipHook)).

(** ** Guards *)
Definition allow (b : bool) : H unit := if b then mret tt else ErrorResp HPermissionDenied 403.
Definition joinPath (path : gostr) : H gostr :=
  match JoinPath user path with Ok p => mret p | Err _ => ErrorResp HRelativePath 403 end.
Definition metaAt (path : gostr) : H (option Meta) :=
  match GetNearestMeta equalFold getMetaByPath getMetaSnapshot path with
  | Some (Ok m) => mret (Some m)
  | Some (Err MetaNotFound) => mret None
  | Some (Err e) => ErrorResp (HMeta e) 500
  | None => ErrorResp HNoMeta 500
  end.
Definition relative (name : gostr) : H unit := if checkRelativePath name then mret tt else ErrorResp HRelativePath 403.

Definition canWrite (meta : option Meta) (path : gostr) : bool := CanWrite equalFold (Some user) meta path.
Definition canRead (meta : option Meta) (path : gostr) : bool := CanRead equalFold (Some user) meta path.

Definition slashEnd (dir : gostr) : gostr := if hasSuffix dir "/" then dir else dir ++ "/".
Definition under (dir name : gostr) : gostr := dir ++ "/" ++ name.   (* fmt.Sprintf("%s/%s", dir, name) *)

(** ** Single operations *)
Definition FsMkdir (path : gostr) : H message :=
  reqPath ← joinPath path;
  let parentPath := path_Dir reqPath in
  parentMeta ← metaAt parentPath;
  allow (CanWriteContent (Permission user) || CanWriteContentBypassUserPerms parentMeta parentPath);;
  allow (canWrite parentMeta parentPath);;
  makeDir reqPath;;
  mret Done_.

Definition FsRename (path name : gostr) (overwrite : bool) : H message :=
  allow (CanRename (Permission user));;
  reqPath ← joinPath path;
  relative name;;
  let parentPath := path_Dir reqPath in
  parentMeta ← metaAt parentPath;
  allow (canWrite parentMeta parentPath);;
  (if overwrite then mret tt
   else
     let dstPath := path_join2 (path_Dir reqPath) name in
     if seqb dstPath reqPath then mret tt
     else
       o ← reading (vGet dstPath);
       match o with Some _ => ErrorResp (HExists name) 403 | None => mret tt end);;
  rename reqPath name;;
  mret Done_.

(** ** Operations on several entries of a folder *)

(** The loop that turns names into paths; an empty path is skipped later.
    [existed] is the code for a name that stands in the destination. *)
Section Names.
Context (overwrite : bool) (existed : gostr -> gostr -> Obj -> H gostr) (srcDir dstDir : gostr).

Definition pathOf (name : gostr) : H gostr :=
  relative name;;
  let srcPath := path_join2 srcDir name in
  if negb (hasPrefix (srcPath ++ "/") srcDir) then mret []
  else if overwrite then mret srcPath
  else
    let base := path_Base srcPath in
    if seqb base "." || seqb base "/" then ErrorResp (HInvalidName name) 400
    else
      o ← reading (vGet (path_join2 dstDir base));
      match o with
      | None => mret srcPath
      | Some res => existed name srcPath res
      end.

Fixpoint pathsOf (names : list gostr) : H (list gostr) :=
  match names with
  | [] => mret []
  | name :: names => p ← pathOf name; l ← pathsOf names; mret (p :: l)
  end.
End Names.

Definition moveExisted (skipExisting : bool) (name srcPath : gostr) (res : Obj) : H gostr :=
  if skipExisting then mret [] else ErrorResp (HExists name) 403.

Definition copyExisted (skipExisting merging : bool) (name srcPath : gostr) (res : Obj) : H gostr :=
  if negb skipExisting && negb merging then ErrorResp (HExists name) 403
  else if negb merging || negb (IsDir res) then mret []
  else mret srcPath.

(** The answer is the number of tasks. *)
Fixpoint transferAll (ty : taskType) (dstDir : gostr) (paths : list gostr) : H nat :=
  match paths with
  | [] => mret 0%nat
  | p :: paths =>
      if seqb p "" then transferAll ty dstDir paths
      else
        t ← transfer_ ty p dstDir (negb (bool_decide (paths = [])));
        n ← transferAll ty dstDir paths;
        mret (if (t : bool) then Datatypes.S n else n)
  end.

Definition tasksMessage (added : nat) : message := if (0 <? added)%nat then TasksCreated added else Immediately.

Definition FsMove (req : MoveCopyReq) : H message :=
  (if bool_decide (mcNames req = []) then ErrorResp HEmptyNames 400 else mret tt);;
  allow (CanMove (Permission user));;
  srcDir ← joinPath (mcSrcDir req);
  srcMeta ← metaAt srcDir;
  allow (canWrite srcMeta srcDir);;
  dstDir ← joinPath (mcDstDir req);
  dstMeta ← metaAt dstDir;
  allow (canWrite dstMeta dstDir);;
  let srcDir := slashEnd srcDir in
  paths ← pathsOf (mcOverwrite req) (moveExisted (mcSkipExisting req)) srcDir dstDir (mcNames req);
  added ← transferAll move dstDir paths;
  mret (tasksMessage added).

Definition FsCopy (req : MoveCopyReq) : H message :=
  (if bool_decide (mcNames req = []) then ErrorResp HEmptyNames 400 else mret tt);;
  allow (CanCopy (Permission user));;
  srcDir ← joinPath (mcSrcDir req);
  srcMeta ← metaAt srcDir;
  allow (canRead srcMeta srcDir);;
  dstDir ← joinPath (mcDstDir req);
  dstMeta ← metaAt dstDir;
  allow (canWrite dstMeta dstDir);;
  let srcDir := slashEnd srcDir in
  paths ← pathsOf (mcOverwrite req) (copyExisted (mcSkipExisting req) (mcMerge req)) srcDir dstDir (mcNames req);
  added ← transferAll (if mcMerge req then merge else copy) dstDir paths;
  mret (tasksMessage added).

(** All the names are checked before the first is removed. *)
Fixpoint removePaths (dir : gostr) (names : list gostr) : H (list gostr) :=
  match names with
  | [] => mret []
  | name :: names =>
      relative name;;
      let fullPath := path_join2 dir name in
      l ← removePaths dir names;
      mret ((if hasPrefix (fullPath ++ "/") dir then fullPath else []) :: l)
  end.

Fixpoint removeAll (paths : list gostr) : H unit :=
  match paths with
  | [] => mret tt
  | p :: paths => (if seqb p "" then mret tt else remove p);; removeAll paths
  end.

Definition FsRemove (dir : gostr) (names : list gostr) : H message :=
  (if bool_decide (names = []) then ErrorResp HEmptyNames 400 else mret tt);;
  allow (CanRemove (Permission user));;
  reqPath ← joinPath dir;
  meta ← metaAt reqPath;
  allow (canWrite meta reqPath);;
  paths ← removePaths (slashEnd reqPath) names;
  removeAll paths;;
  mret Done_.

Fixpoint renameAll (dir : gostr) (l : list (gostr * gostr)) : H unit :=
  match l with
  | [] => mret tt
  | (src, new) :: l =>
      (if seqb src "" || seqb new "" then mret tt
       else relative src;; relative new;; rename (under dir src) new);;
      renameAll dir l
  end.

Definition FsBatchRename (srcDir : gostr) (renames : list (gostr * gostr)) : H message :=
  allow (CanRename (Permission user));;
  reqPath ← joinPath srcDir;
  meta ← metaAt reqPath;
  allow (canWrite meta reqPath);;
  renameAll reqPath renames;;
  mret Done_.

Fixpoint regexAll (re : RE) (new dir : gostr) (files : list Obj) : H unit :=
  match files with
  | [] => mret tt
  | file :: files =>
      (if matchString re (GetName file) then
         let newFileName := replaceAllString re (GetName file) new in
         relative newFileName;;
         rename (under dir (GetName file)) newFileName
       else mret tt);;
      regexAll re new dir files
  end.

Definition FsRegexRename (srcDir srcNameRegex newNameRegex : gostr) : H message :=
  allow (CanRename (Permission user));;
  reqPath ← joinPath srcDir;
  meta ← metaAt reqPath;
  allow (canWrite meta reqPath);;
  match compile srcNameRegex with
  | None => ErrorResp HRegexp 500
  | Some re =>
      files ← list_ meta reqPath false;
      regexAll re newNameRegex reqPath files;;
      mret Done_
  end.

(** ** Loops over directories *)

(** An object in the queue, with its path in filePathMap and its parent in
    fileParentMap. *)
Inductive qentry := mkQ (obj : Obj) (dir : gostr) (parent : option qentry).
Definition qObj (e : qentry) : Obj := match e with mkQ o _ _ => o end.
Definition qDir (e : qentry) : gostr := match e with mkQ _ d _ => d end.
Definition qParent (e : qentry) : option qentry := match e with mkQ _ _ p => p end.
Definition qPath (e : qentry) : gostr := under (qDir e) (GetName (qObj e)).

(** Push the folders of a listing. *)
Definition pushDirs (dir : gostr) (parent : option qentry) (files : list Obj) (queue : list qentry) : list qentry :=
  queue ++ map (fun o => mkQ o dir parent) (filter (fun o => IsDir o = true) files).

Fixpoint emptyLoop (fuel : nat) (meta : option Meta) (removed : list gostr) (queue : list qentry) : H unit :=
  match fuel with
  | O => respond ROutOfFuel
  | Datatypes.S fuel =>
      match queue with
      | [] => mret tt
      | e :: queue =>
          if bool_decide (qPath e ∈ removed) then emptyLoop fuel meta removed queue
          else
            subFiles ← list_ meta (qPath e) true;
            match subFiles with
            | [] =>
                remove (qPath e);;
                emptyLoop fuel meta (qPath e :: removed) (queue ++ match qParent e with Some p => [p] | None => [] end)
            | _ => emptyLoop fuel meta removed (pushDirs (qPath e) (Some e) subFiles queue)
            end
      end
  end.

Definition FsRemoveEmptyDirectory (fuel : nat) (srcDir : gostr) : H message :=
  allow (CanRemove (Permission user));;
  srcDir ← joinPath srcDir;
  meta ← metaAt srcDir;
  allow (canWrite meta srcDir);;
  rootFiles ← list_ meta srcDir false;
  emptyLoop fuel meta [] (pushDirs srcDir None rootFiles []);;
  mret Done_.

(** FsRecursiveMove collects the paths of the files to move; [existing] are the
    names the destination has. *)
Fixpoint collectLoop (fuel : nat) (meta : option Meta) (p : policy) (dstDir : gostr) (existing moving : list gostr)
    (queue : list (Obj * gostr)) : H (list gostr) :=
  match fuel with
  | O => respond ROutOfFuel
  | Datatypes.S fuel =>
      match queue with
      | [] => mret moving
      | (file, dir) :: queue =>
          let path := under dir (GetName file) in
          if IsDir file then
            subFiles ← list_ meta path true;
            collectLoop fuel meta p dstDir existing moving (queue ++ map (fun o => (o, path)) subFiles)
          else if seqb dir dstDir then collectLoop fuel meta p dstDir existing moving queue
          else if bool_decide (GetName file ∈ existing) then
            if decide (p = CANCEL) then ErrorResp (HExists (GetName file)) 403
            else if decide (p = SKIP) then collectLoop fuel meta p dstDir existing moving queue
            else collectLoop fuel meta p dstDir existing (moving ++ [path]) queue
          else
            collectLoop fuel meta p dstDir (if decide (p = OVERWRITE) then existing else existing ++ [GetName file])
              (moving ++ [path]) queue
      end
  end.

Fixpoint moveAll (dstDir : gostr) (paths : list gostr) : H nat :=
  match paths with
  | [] => mret 0%nat
  | p :: paths =>
      _ ← transfer_ move p dstDir (negb (bool_decide (paths = [])));
      n ← moveAll dstDir paths;
      mret (Datatypes.S n)
  end.

Definition FsRecursiveMove (fuel : nat) (srcDir dstDir : gostr) (p : policy) : H message :=
  allow (CanMove (Permission user));;
  srcDir ← joinPath srcDir;
  srcMeta ← metaAt srcDir;
  allow (canWrite srcMeta srcDir);;
  dstDir ← joinPath dstDir;
  dstMeta ← metaAt dstDir;
  allow (canWrite dstMeta dstDir);;
  rootFiles ← list_ srcMeta srcDir false;
  existing ← (if decide (p = OVERWRITE) then mret []
              else dstFiles ← list_ srcMeta dstDir false; mret (map GetName dstFiles));
  paths ← collectLoop fuel srcMeta p dstDir existing [] (map (fun o => (o, srcDir)) rootFiles);
  count ← moveAll dstDir paths;
  mret (Moved count).

(** ** Requests *)
Definition handle (fuel : nat) (r : request) : H message :=
  match r with
  | FsMkdirReq path => FsMkdir path
  | FsMoveReq r => FsMove r
  | FsCopyReq r => FsCopy r
  | FsRenameReq path name overwrite => FsRename path name overwrite
  | FsRemoveReq dir names => FsRemove dir names
  | FsRemoveEmptyDirectoryReq srcDir => FsRemoveEmptyDirectory fuel srcDir
  | FsRecursiveMoveReq srcDir dstDir p => FsRecursiveMove fuel srcDir dstDir p
  | FsBatchRenameReq srcDir renames => FsBatchRename srcDir renames
  | FsRegexRenameReq srcDir srcNameRegex newNameRegex => FsRegexRename srcDir srcNameRegex newNameRegex
  end.

(** The state after a request, and the response. *)
Definition serve (fuel : nat) (r : request) (w : W) : hstate * res (failure E) message := handle fuel r (mkH w []).

End Handlers.
Arguments hstate W : clear implicits.
