(* ===== verification/FsManageSpec.v ===== *)
(** Every change a request of a user makes is one the user may make: the handlers
    call the file system only with the permission for the operation, for paths
    below the user's base path, in directories whose metas let the user write.
    A tree in memory with the operations of the lawful driver of [OpFsMem] is a
    file system for the handlers: it shows that the laws the handlers' theorems
    rely on can hold, and runs the examples. *)
From S2P Require Import Prelude GoString GoPath Paths Auth Mounts Storages Objects KeyedCache DirCache OpFs FsTree OpFsSpec OpFsMem.
From S2P Require Import Transfer FsManage.

(** ** A file system in memory *)
Definition memArgs : ListArgs := mkListArgs [] false false false false.
Definition dirObj (p : gostr) : Obj := memObj (norm_segs p) true.
Definition outcomeOf {A : Type} (x : memAnswer) (a : A) : mem * res (op_error unit) A :=
  (x.1, match x.2.2 with Some e => Err e | None => Ok a end).

#[export] Instance memFs : FileSystem mem (op_error unit) := {|
  vGet p t := (t, memObj (norm_segs p) <$> t !! norm_segs p);
  vList u m p b t := memList t (dirObj p) memArgs;
  vMakeDir p t := outcomeOf (memMakeDir t (memObj (memParent (norm_segs p)) true) (default [] (last (norm_segs p)))) tt;
  vRename p name t := outcomeOf (memRename t (dirObj p) name) tt;
  vRemove p t := let '(t, e) := memRemove t (dirObj p) in (t, match e with Some e => Err e | None => Ok tt end);
  vTransfer ty src dst skip t :=
    outcomeOf (match ty with move => memMove t (dirObj src) (dirObj dst) | _ => memCopy t (dirObj src) (dirObj dst) end) false
|}.

Lemma memList_names t (o : Obj) args l : wfTree t -> (memList t o args).2 = Ok l -> Forall (fun o => clean_seg (GetName o)) l.
Proof.
  intros Wt Hl. unfold memList in Hl. destruct (decide _); [|done]. injection Hl as <-.
  apply Forall_forall. intros x (n & b & Hx & ->)%memChild_in. rewrite memObj_name. by apply (wf_seg _ Wt) in Hx as [_ ?].
Qed.

Lemma dir_denotes t p : Forall clean_seg p -> memDenotes t (memObj p true) p.
Proof.
  intros Hp. destruct p as [|n p _] using rev_ind; [|by apply memObj_denotes]. split; [done|]. intros q n H. by destruct q.
Qed.

Lemma clean_parent p : Forall clean_seg p -> Forall clean_seg (memParent p).
Proof. intros H. by apply Forall_take. Qed.

(** What a call of the driver leaves is a tree. *)
Section Wf.
Context (t : mem) (Wt : wfTree t).

Lemma memMakeDir_wf p n : Forall clean_seg p -> wfTree (memMakeDir t (memObj p true) n).1.
Proof.
  intros Hp. pose proof (law_mkdir memDriver [] wfTree id memDenotes memMakeDir t (memObj p true) p n eq_refl Wt (dir_denotes t p Hp)) as L.
  destruct (memMakeDir _ _ _) as [t' [o [e|]]]; [apply L|apply L].
Qed.

Lemma memRename_wf p name : Forall clean_seg p -> wfTree (memRename t (memObj p true) name).1.
Proof.
  intros Hp. unfold memRename. rewrite memObj_path by done. destruct (t !! p) as [b|] eqn:Hb; [|done].
  destruct p as [|n p _] using rev_ind; [by apply (wf_clean _ Wt) in Hb as [? _]|].
  pose proof (law_rename memDriver [] wfTree id memDenotes memRename t _ p n name b eq_refl Wt (dir_denotes t _ Hp) Hb) as L.
  unfold memRename in L. rewrite memObj_path, Hb in L by done. destruct (decide _); [|done]. apply L.
Qed.

Lemma memMove_wf p q : Forall clean_seg p -> Forall clean_seg q -> wfTree (memMove t (memObj p true) (memObj q true)).1.
Proof.
  intros Hp Hq. unfold memMove. rewrite !memObj_path by done. destruct (t !! p) as [b|] eqn:Hb; [|done].
  destruct p as [|n p _] using rev_ind; [by apply (wf_clean _ Wt) in Hb as [? _]|].
  pose proof (law_move memDriver [] wfTree id memDenotes memMove t _ _ p n q b eq_refl Wt (dir_denotes t _ Hp) (dir_denotes t _ Hq) Hb) as L.
  unfold memMove in L. rewrite !memObj_path, Hb in L by done. destruct (decide _); [|done]. apply L.
Qed.

Lemma memCopy_wf p q : Forall clean_seg p -> Forall clean_seg q -> wfTree (memCopy t (memObj p true) (memObj q true)).1.
Proof.
  intros Hp Hq. unfold memCopy. rewrite !memObj_path by done. destruct (t !! p) as [b|] eqn:Hb; [|done].
  destruct p as [|n p _] using rev_ind; [by apply (wf_clean _ Wt) in Hb as [? _]|].
  pose proof (law_copy memDriver [] wfTree id memDenotes memCopy t _ _ p n q b eq_refl Wt (dir_denotes t _ Hp) (dir_denotes t _ Hq) Hb) as L.
  unfold memCopy in L. rewrite !memObj_path, Hb in L by done. destruct (decide _); [|done]. apply L.
Qed.
End Wf.

(** ** Paths *)
Lemma splitByte_sep t s c : splitByte (t ++ c :: s) c = splitByte t c ++ splitByte s c.
Proof.
  rewrite <- (join_splitByte t c) at 1. apply splitByte_join_app; [apply splitByte_not_nil|].
  apply Forall_forall. intros w. apply splitByte_no_sep.
Qed.

Lemma replaceByte_app a b o n : replaceByte (a ++ b) o n = replaceByte a o n ++ replaceByte b o n.
Proof. unfold replaceByte. apply map_app. Qed.

Lemma under_cons d n : under d n = d ++ slash :: n.
Proof. done. Qed.

Lemma norm_segs_under t n : clean_seg n -> norm_segs (under t n) = norm_segs t ++ [n].
Proof.
  intros [Hg Hb]. rewrite under_cons. unfold norm_segs. change (t ++ slash :: n) with (t ++ ([slash] ++ n)).
  rewrite !replaceByte_app. change (replaceByte [slash] backslash slash) with [slash]. rewrite (replaceByte_id n) by done.
  change ([slash] ++ n) with (slash :: n). rewrite splitByte_sep, (splitByte_nosep n) by apply Hg.
  rewrite cleanSegs_app, (cleanSegs_id true _ [n]) by by constructor. simpl. done.
Qed.

Lemma slashEnd_mkpath q : Forall clean_seg q -> slashEnd (mkpath q) = slashed q.
Proof.
  intros Hq. unfold slashEnd, slashed. destruct q as [|w l _] using rev_ind; [done|].
  apply Forall_app in Hq as [_ [[(Hw & _ & _ & Hs) _] _]%Forall_cons].
  assert (hasSuffix (mkpath (l ++ [w])) "/" = false) as ->.
  { destruct w as [|c w _] using rev_ind; [done|].
    assert (He : exists x, mkpath (l ++ [w ++ [c]]) = x ++ [c]).
    { rewrite mkpath_snoc. destruct l as [|g l]; [by exists (slash :: w)|]. exists (mkpath (g :: l) ++ slash :: w). by rewrite <- (assoc_L (++)). }
    destruct He as [x ->]. unfold hasSuffix. rewrite rev_app_distr. simpl. rewrite andb_true_r. apply bool_decide_eq_false_2.
    intros <-. apply Hs. rewrite elem_of_app, list_elem_of_singleton. by right. }
  by destruct l.
Qed.

Lemma join2_slashed q n : Forall clean_seg q -> clean_seg n -> path_join2 (slashed q) n = mkpath (q ++ [n]).
Proof.
  intros Hq [Hg Hb]. assert (path_join2 (slashed q) n = path_Clean (slashed q ++ slash :: n)) as ->.
  { unfold path_join2, path_Join. rewrite filter_cons_True by by destruct q. by rewrite filter_cons_True by apply Hg. }
  assert (exists s, slashed q = slash :: s) as [s Hs] by (destruct q; by eexists).
  rewrite Hs, <- app_comm_cons, rooted_clean. f_equal.
  assert (Hc : cleanSegs true [] (splitByte s slash) = rev q).
  { pose proof (cleanSegs_slashed [] q (clean_good _ Hq)) as H. rewrite Hs, app_nil_r in H. exact H. }
  rewrite splitByte_sep, (splitByte_nosep n), cleanSegs_app, Hc, cleanSegs_id by (apply Hg || by constructor).
  simpl. by rewrite rev_involutive.
Qed.

Lemma checkRelativePath_clean n : checkRelativePath n = true <-> clean_seg n.
Proof.
  unfold checkRelativePath, clean_seg, good_seg. rewrite negb_true_iff, !orb_false_iff, !seqb_false.
  assert (existsb (fun c => bool_decide (c = slash \/ c = backslash)) n = false <-> slash ∉ n /\ backslash ∉ n) as ->.
  { induction n as [|c n IH]; simpl; [by split; [split; apply not_elem_of_nil|]|].
    rewrite orb_false_iff, bool_decide_eq_false, !not_elem_of_cons, IH. naive_solver. }
  naive_solver.
Qed.

Lemma clean_snoc d n : Forall clean_seg d -> clean_seg n -> Forall clean_seg (d ++ [n]).
Proof. intros Hd Hn. apply Forall_app. split; [done|by constructor]. Qed.

(** The directory of a path *)
Definition parentOf (p : fpath) : fpath := take (length p - 1) p.

Lemma parentOf_snoc p n : parentOf (p ++ [n]) = p.
Proof. unfold parentOf. rewrite length_app. simpl. by rewrite Nat.add_sub, take_app_length. Qed.

Lemma path_Dir_mkpath p : Forall clean_seg p -> path_Dir (mkpath p) = mkpath (parentOf p).
Proof.
  intros Hp. destruct p as [|n p _] using rev_ind; [apply path_Dir_root|].
  apply Forall_app in Hp as [Hp [[Hn _] _]%Forall_cons]. rewrite parentOf_snoc. apply path_Dir_snoc; [by apply clean_good|done].
Qed.

(** ** What a user may do *)
Section Policy.
Context {W E : Type} {FS : FileSystem W E}.
Context (equalFold : gostr -> gostr -> bool)
        (getMetaByPath : gostr -> res meta_err Meta) (getMetaSnapshot : res meta_err (list Meta)).
Context {RE : Type} (compile : gostr -> option RE) (matchString : RE -> gostr -> bool)
        (replaceAllString : RE -> gostr -> gostr -> gostr).
Context (user : User).

(** In the states of the file system the names of a listing are names. *)
Record named (ok : W -> Prop) : Prop := {
  nm_get p s : ok s -> ok (vGet p s).1;
  nm_list u m p b s : ok s -> ok (vList u m p b s).1 /\
    forall l, (vList u m p b s).2 = Ok l -> Forall (fun o => clean_seg (GetName o)) l;
  nm_makeDir p s : ok s -> ok (vMakeDir p s).1;
  nm_rename p name s : ok s -> ok (vRename p name s).1;
  nm_remove p s : ok s -> ok (vRemove p s).1;
  nm_transfer ty src dst skip s : ok s -> ok (vTransfer ty src dst skip s).1
}.
Context (ok : W -> Prop) (Hok : named ok).

Abbreviation perm := (Permission user).
Abbreviation base := (norm_segs (BasePath user)).
Abbreviation Hm := (H (W := W) (E := E)).

(** [m] is the meta in force for the directory [d]. *)
Definition metaOf (d : fpath) (m : option Meta) : Prop :=
  match GetNearestMeta equalFold getMetaByPath getMetaSnapshot (mkpath d) with
  | Some (Ok x) => m = Some x
  | Some (Err MetaNotFound) => m = None
  | _ => False
  end.

Definition inBase (p : fpath) : Prop := base `prefix_of` p.
Definition writable (d : fpath) : Prop := exists m, metaOf d m /\ CanWrite equalFold (Some user) m (mkpath d) = true.
Definition readableDir (d : fpath) : Prop := exists m, metaOf d m /\ CanRead equalFold (Some user) m (mkpath d) = true.
Definition contentAllowed (d : fpath) : Prop :=
  CanWriteContent perm = true \/ exists m, metaOf d m /\ CanWriteContentBypassUserPerms m (mkpath d) = true.

(** [src] is below the folder [d], an entry of it unless [deep]. *)
Definition entryOf (deep : bool) (d : fpath) (src : gostr) : Prop :=
  exists x, norm_segs src = d ++ x /\ x <> [] /\ (deep = false -> length x = 1%nat).

Definition permitted (deep : bool) (c : fscall) : Prop :=
  match c with
  | CMakeDir p =>
      inBase (norm_segs p) /\ writable (parentOf (norm_segs p)) /\ contentAllowed (parentOf (norm_segs p))
  | CRename p name =>
      CanRename perm = true /\ checkRelativePath name = true /\ inBase (norm_segs p) /\ writable (parentOf (norm_segs p))
  | CRemove p =>
      CanRemove perm = true /\ exists d, inBase d /\ writable d /\ entryOf deep d p
  | CTransfer ty src dst =>
      (if decide (ty = move) then CanMove perm else CanCopy perm) = true /\
      inBase (norm_segs dst) /\ writable (norm_segs dst) /\
      exists d, inBase d /\ (if decide (ty = move) then writable d else readableDir d) /\ entryOf deep d src
  end.

(** Loops over directories reach entries of entries. *)
Definition deepRequest (r : request) : bool :=
  match r with FsRemoveEmptyDirectoryReq _ | FsRecursiveMoveReq _ _ _ => true | _ => false end.

(** ** A logic for handlers: the calls a computation makes, and its answer *)
Definition emits (P : fscall -> Prop) {A} (m : Hm A) (Q : A -> Prop) : Prop := forall w, ok (fsState w) ->
  let '(w', r) := m w in
  ok (fsState w') /\ (exists l, calls w' = calls w ++ l /\ Forall P l) /\ forall a, r = Ok a -> Q a.

Lemma emits_ret P {A} (a : A) (Q : A -> Prop) : Q a -> emits P (mret a) Q.
Proof. intros HQ w I. split_and!; [done|exists []; by rewrite app_nil_r|]. by intros ? [= <-]. Qed.

Lemma emits_respond P {A} r (Q : A -> Prop) : emits P (respond r) Q.
Proof. intros w I. split_and!; [done|exists []; by rewrite app_nil_r|done]. Qed.

Lemma emits_bind P {A B} (m : Hm A) (k : A -> Hm B) (Q : B -> Prop) (Q' : A -> Prop) :
  emits P m Q' -> (forall a, Q' a -> emits P (k a) Q) -> emits P (m ≫= k) Q.
Proof.
  intros Hm_ Hk w I. specialize (Hm_ w I). unfold mbind, H_bind. destruct (m w) as [w1 [a|e]]; destruct Hm_ as (I1 & (l1 & E1 & F1) & HQ).
  - specialize (Hk a (HQ a eq_refl) w1 I1). destruct (k a w1) as [w2 r2]. destruct Hk as (I2 & (l2 & E2 & F2) & H2).
    split_and!; [done| |done]. exists (l1 ++ l2). rewrite E2, E1, (assoc_L (++)). split; [done|by apply Forall_app].
  - split_and!; [done|by exists l1|done].
Qed.

Lemma emits_mono P {A} (m : Hm A) (Q Q' : A -> Prop) : emits P m Q -> (forall a, Q a -> Q' a) -> emits P m Q'.
Proof. intros Hm_ Hq w I. specialize (Hm_ w I). destruct (m w). destruct Hm_ as (? & ? & Hm_). split_and!; [done|done|]. intros a Ha. by apply Hq, Hm_. Qed.

Lemma emits_if P {A} (b : bool) (m m' : Hm A) (Q : A -> Prop) :
  (b = true -> emits P m Q) -> (b = false -> emits P m' Q) -> emits P (if b then m else m') Q.
Proof. destruct b; auto. Qed.

Lemma emits_or500 P {A} (m : Hm (res E A)) (Q : A -> Prop) :
  emits P m (fun r => forall a, r = Ok a -> Q a) -> emits P (or500 m) Q.
Proof.
  intros Hm_. eapply emits_bind; [exact Hm_|]. intros [a|e] HQ; [by apply emits_ret, HQ|apply emits_respond].
Qed.

Lemma emits_reading P {A} (m : W -> W * A) (Q : A -> Prop) : (forall s, ok s -> ok (m s).1 /\ Q (m s).2) -> emits P (reading m) Q.
Proof.
  intros HQ w I. unfold reading. specialize (HQ (fsState w) I). destruct (m _). destruct HQ.
  split_and!; [done|exists []; by rewrite app_nil_r|]. by intros ? [= <-].
Qed.

Lemma emits_get P p : emits P (reading (vGet p)) (fun _ => True).
Proof. apply emits_reading. intros s I. split; [by apply nm_get|done]. Qed.

Lemma emits_calling P {A} c (m : W -> W * res E A) : (forall s, ok s -> ok (m s).1) -> P c ->
  emits P (or500 (calling c m)) (fun _ => True).
Proof.
  intros Hm_ HP. apply emits_or500. intros w I. unfold calling. specialize (Hm_ _ I). destruct (m _).
  split_and!; [done| |done]. exists [c]. split; [done|by constructor].
Qed.

Lemma emits_makeDir P p : P (CMakeDir p) -> emits P (makeDir p) (fun _ => True).
Proof. apply emits_calling. intros. by apply nm_makeDir. Qed.
Lemma emits_rename P p name : P (CRename p name) -> emits P (rename p name) (fun _ => True).
Proof. apply emits_calling. intros. by apply nm_rename. Qed.
Lemma emits_remove P p : P (CRemove p) -> emits P (remove p) (fun _ => True).
Proof. apply emits_calling. intros. by apply nm_remove. Qed.
Lemma emits_transfer P ty src dst skip : P (CTransfer ty src dst) -> emits P (transfer_ ty src dst skip) (fun _ => True).
Proof. apply emits_calling. intros. by apply nm_transfer. Qed.

(** ** Guards *)
Lemma emits_allow P b : emits P (allow b) (fun _ => b = true).
Proof. unfold allow. destruct b; [by apply emits_ret|apply emits_respond]. Qed.

Lemma emits_relative P n : emits P (relative n) (fun _ => checkRelativePath n = true).
Proof. unfold relative. destruct (checkRelativePath n); [by apply emits_ret|apply emits_respond]. Qed.

Lemma emits_join P path : emits P (joinPath user path) (fun p => exists q, p = mkpath q /\ Forall clean_seg q /\ inBase q).
Proof.
  unfold joinPath, JoinPath. destruct (joinBasePath _ _) as [p|e] eqn:Hj; [|apply emits_respond]. apply emits_ret.
  apply joinBasePath_segs in Hj as [Hp _]. eexists. split; [exact Hp|].
  split; [apply Forall_app; split; apply norm_segs_clean|by apply prefix_app_r].
Qed.

Lemma emits_meta P q : emits P (metaAt equalFold getMetaByPath getMetaSnapshot (mkpath q)) (metaOf q).
Proof.
  unfold metaAt, metaOf. destruct (GetNearestMeta _ _ _ _) as [[m|[]]|]; try apply emits_respond; by apply emits_ret.
Qed.
Lemma emits_list P m p b : emits P (list_ user m p b) (Forall (fun o => clean_seg (GetName o))).
Proof. apply emits_or500, emits_reading. intros s I. by apply nm_list. Qed.

Ltac step :=
  eapply emits_bind; [first [apply emits_allow | apply emits_join | apply emits_relative | apply emits_meta | apply emits_list]|cbv beta].

(** ** The handlers *)
Lemma mkdir_permitted path : emits (permitted false) (FsMkdir equalFold getMetaByPath getMetaSnapshot user path) (fun _ => True).
Proof.
  unfold FsMkdir. step. intros p (q & -> & Hq & Hb). rewrite path_Dir_mkpath by done. step. intros m Hmeta. cbv zeta.
  step. intros _ H1. step. intros _ H2. eapply emits_bind; [|intros; by apply emits_ret].
  apply emits_makeDir. unfold permitted. rewrite norm_segs_mkpath by done. split_and!; [done|by exists m|].
  apply orb_true_iff in H1 as [?|?]; [by left|right; by exists m].
Qed.

Lemma rename_permitted path name overwrite :
  emits (permitted false) (FsRename equalFold getMetaByPath getMetaSnapshot user path name overwrite) (fun _ => True).
Proof.
  unfold FsRename. step. intros _ Hr. step. intros p (q & -> & Hq & Hb). step. intros _ Hn.
  rewrite path_Dir_mkpath by done. step. intros m Hmeta. cbv zeta. step. intros _ Hw.
  eapply (emits_bind _ _ _ _ (fun _ => True)).
  - apply emits_if; [intros; by apply emits_ret|intros _]. apply emits_if; [intros; by apply emits_ret|intros _].
    eapply emits_bind; [apply emits_get|]. intros [o|] _; [apply emits_respond|by apply emits_ret].
  - intros _ _. eapply emits_bind; [|intros; by apply emits_ret]. apply emits_rename. unfold permitted. rewrite norm_segs_mkpath by done.
    split_and!; try done. by exists m.
Qed.

(** The paths of a batch: empty, or those of entries of the folder. *)
Definition childOrNone (d : fpath) (p : gostr) : Prop := p = [] \/ exists n, norm_segs p = d ++ [n].

Lemma pathsOf_emits P overwrite existed d dstDir names : Forall clean_seg d ->
  (forall n p o, emits P (existed n p o) (fun x => x = [] \/ x = p)) ->
  emits P (pathsOf overwrite existed (slashEnd (mkpath d)) dstDir names) (Forall (childOrNone d)).
Proof.
  intros Hd He. induction names as [|n names IH]; simpl; [by apply emits_ret|].
  eapply emits_bind.
  2:{ intros p Hp. eapply emits_bind; [exact IH|]. intros l Hl. apply emits_ret. constructor; [exact Hp|done]. }
  unfold pathOf. step. intros _ Hn%checkRelativePath_clean. cbv zeta. rewrite slashEnd_mkpath, join2_slashed by done.
  assert (Hc : childOrNone d (mkpath (d ++ [n]))).
  { right. exists n. by apply norm_segs_mkpath, clean_snoc. }
  apply emits_if; [intros _; apply emits_ret; by left|intros _]. apply emits_if; [intros _; by apply emits_ret|intros _].
  apply emits_if; [intros; apply emits_respond|intros _].
  eapply emits_bind; [apply emits_get|]. intros [o|] _; [|by apply emits_ret].
  eapply emits_mono; [apply He|]. intros x [->| ->]; [by left|done].
Qed.

Lemma moveExisted_emits P b n p o : emits P (moveExisted b n p o) (fun x => x = [] \/ x = p).
Proof. unfold moveExisted. destruct b; [apply emits_ret; by left|apply emits_respond]. Qed.

Lemma copyExisted_emits P a b n p o : emits P (copyExisted a b n p o) (fun x => x = [] \/ x = p).
Proof.
  unfold copyExisted. apply emits_if; [intros; apply emits_respond|intros _].
  apply emits_if; intros _; apply emits_ret; [by left|by right].
Qed.

Lemma transferAll_emits P ty dst paths : (forall p, p ∈ paths -> p <> [] -> P (CTransfer ty p dst)) ->
  emits P (transferAll ty dst paths) (fun _ => True).
Proof.
  induction paths as [|p paths IH]; intros HP; simpl; [by apply emits_ret|].
  assert (IH' : emits P (transferAll ty dst paths) (fun _ => True)) by (apply IH; intros; apply HP; [by right|done]).
  apply emits_if; [by intros _|]. intros Hp%seqb_false.
  eapply emits_bind; [apply emits_transfer, HP; [by left|done]|]. intros t _. eapply emits_bind; [exact IH'|]. intros; by apply emits_ret.
Qed.

Lemma childOrNone_entry d l p : Forall (childOrNone d) l -> p ∈ l -> p <> [] -> entryOf false d p.
Proof.
  intros Hl Hp Hne. rewrite Forall_forall in Hl. destruct (Hl p Hp) as [?|[n Hn]]; [done|]. by exists [n].
Qed.

Lemma move_permitted r : emits (permitted false) (FsMove equalFold getMetaByPath getMetaSnapshot user r) (fun _ => True).
Proof.
  unfold FsMove. eapply (emits_bind _ _ _ _ (fun _ => True)).
  { destruct (bool_decide _); [apply emits_respond|by apply emits_ret]. }
  intros _ _. step. intros _ Hp. step. intros src (d & -> & Hd & Hbd). step. intros m Hm. step. intros _ Hw.
  step. intros dst (q & -> & Hq & Hbq). step. intros m' Hm'. step. intros _ Hw'. cbv zeta.
  eapply emits_bind; [apply pathsOf_emits; [done|intros; apply moveExisted_emits]|]. intros paths Hpaths.
  eapply emits_bind; [|intros; by apply emits_ret]. apply transferAll_emits. intros p Hin Hne.
  unfold permitted. rewrite !decide_True, norm_segs_mkpath by done. split_and!; [done|done|by exists m'|].
  exists d. split_and!; [done|by exists m|by eapply childOrNone_entry].
Qed.

Lemma copy_permitted r : emits (permitted false) (FsCopy equalFold getMetaByPath getMetaSnapshot user r) (fun _ => True).
Proof.
  unfold FsCopy. eapply (emits_bind _ _ _ _ (fun _ => True)).
  { destruct (bool_decide _); [apply emits_respond|by apply emits_ret]. }
  intros _ _. step. intros _ Hp. step. intros src (d & -> & Hd & Hbd). step. intros m Hm. step. intros _ Hw.
  step. intros dst (q & -> & Hq & Hbq). step. intros m' Hm'. step. intros _ Hw'. cbv zeta.
  eapply emits_bind; [apply pathsOf_emits; [done|intros; apply copyExisted_emits]|]. intros paths Hpaths.
  eapply emits_bind; [|intros; by apply emits_ret]. apply transferAll_emits. intros p Hin Hne.
  unfold permitted. rewrite decide_False, norm_segs_mkpath by (done || by destruct (mcMerge r)).
  split_and!; [done|done|by exists m'|]. exists d. rewrite decide_False by by destruct (mcMerge r).
  split_and!; [done|by exists m|by eapply childOrNone_entry].
Qed.

Lemma remove_permitted dir names : emits (permitted false) (FsRemove equalFold getMetaByPath getMetaSnapshot user dir names) (fun _ => True).
Proof.
  unfold FsRemove. eapply (emits_bind _ _ _ _ (fun _ => True)).
  { destruct (bool_decide _); [apply emits_respond|by apply emits_ret]. }
  intros _ _. step. intros _ Hp. step. intros src (d & -> & Hd & Hbd). step. intros m Hm. step. intros _ Hw.
  eapply (emits_bind _ _ _ _ (Forall (childOrNone d))).
  - rewrite slashEnd_mkpath by done. induction names as [|n names IH]; simpl; [by apply emits_ret|].
    step. intros _ Hn%checkRelativePath_clean. eapply emits_bind; [exact IH|]. intros l Hl. apply emits_ret. constructor; [|done].
    rewrite join2_slashed by done. destruct (hasPrefix _ _); [right|by left]. exists n. by apply norm_segs_mkpath, clean_snoc.
  - intros paths Hpaths. eapply (emits_bind _ _ _ _ (fun _ => True)); [|intros; by apply emits_ret].
    assert (HP : forall p, p ∈ paths -> p <> [] -> permitted false (CRemove p)).
    { intros p Hin Hne. split; [done|]. exists d. split_and!; [done|by exists m|by eapply childOrNone_entry]. }
    clear Hpaths. induction paths as [|p paths IH]; simpl; [by apply emits_ret|].
    eapply (emits_bind _ _ _ _ (fun _ => True)); [|intros; apply IH; intros; apply HP; [by right|done]].
    apply emits_if; [intros; by apply emits_ret|]. intros Hne%seqb_false. apply emits_remove, HP; [by left|done].
Qed.

(** A rename of an entry of a folder the user may write *)
Lemma renameChild d m n new : Forall clean_seg d -> inBase d -> metaOf d m -> CanRename perm = true ->
  CanWrite equalFold (Some user) m (mkpath d) = true -> clean_seg n -> checkRelativePath new = true ->
  emits (permitted false) (rename (under (mkpath d) n) new) (fun _ => True).
Proof.
  intros Hd Hb Hm Hr Hw Hn Hnew. apply emits_rename. unfold permitted. rewrite norm_segs_under, norm_segs_mkpath, parentOf_snoc by done.
  split_and!; [done|done|by apply prefix_app_r|by exists m].
Qed.

Lemma batchRename_permitted dir l : emits (permitted false) (FsBatchRename equalFold getMetaByPath getMetaSnapshot user dir l) (fun _ => True).
Proof.
  unfold FsBatchRename. step. intros _ Hp. step. intros src (d & -> & Hd & Hbd). step. intros m Hm. step. intros _ Hw.
  eapply (emits_bind _ _ _ _ (fun _ => True)); [|intros; by apply emits_ret]. induction l as [|[a b] l IH]; simpl; [by apply emits_ret|].
  eapply (emits_bind _ _ _ _ (fun _ => True)); [|by intros; apply IH].
  apply emits_if; [intros; by apply emits_ret|intros _]. step. intros _ Ha%checkRelativePath_clean. step. intros _ Hb.
  by eapply renameChild.
Qed.

Lemma regexRename_permitted dir src new : emits (permitted false)
  (FsRegexRename equalFold getMetaByPath getMetaSnapshot compile matchString replaceAllString user dir src new) (fun _ => True).
Proof.
  unfold FsRegexRename. step. intros _ Hp. step. intros s (d & -> & Hd & Hbd). step. intros m Hm. step. intros _ Hw.
  destruct (compile src) as [re|]; [|apply emits_respond]. step. intros files Hf.
  eapply (emits_bind _ _ _ _ (fun _ => True)); [|intros; by apply emits_ret]. induction files as [|o files IH]; simpl; [by apply emits_ret|].
  apply Forall_cons in Hf as [Ho Hf].
  eapply (emits_bind _ _ _ _ (fun _ => True)); [|by intros; apply IH].
  apply emits_if; [intros _|intros; by apply emits_ret]. step. intros _ Hn. by eapply renameChild.
Qed.
(** An entry of the queue is below [d]. *)
Fixpoint qBelow (d : fpath) (e : qentry) : Prop :=
  match e with
  | mkQ o dir parent =>
      (exists y, norm_segs dir = d ++ y) /\ clean_seg (GetName o) /\
      match parent with Some p => qBelow d p | None => True end
  end.

Lemma qBelow_path d e : qBelow d e -> exists y, norm_segs (qPath e) = d ++ y ++ [GetName (qObj e)] /\ clean_seg (GetName (qObj e)).
Proof.
  destruct e as [o dir parent]. intros ([y Hy] & Hn & _). exists y. split; [|done]. unfold qPath. simpl.
  by rewrite norm_segs_under, Hy, (assoc_L (++)).
Qed.

Lemma qBelow_parent d e p : qBelow d e -> qParent e = Some p -> qBelow d p.
Proof. destruct e as [o dir [q|]]; simpl; [|done]. intros (_ & _ & Hq) [= <-]. done. Qed.

Lemma pushDirs_below d dir parent files queue : (exists y, norm_segs dir = d ++ y) ->
  match parent with Some p => qBelow d p | None => True end -> Forall (fun o => clean_seg (GetName o)) files ->
  Forall (qBelow d) queue -> Forall (qBelow d) (pushDirs dir parent files queue).
Proof.
  intros Hdir Hp Hf Hq. apply Forall_app. split; [done|]. apply Forall_map, Forall_forall. intros o [_ Ho]%list_elem_of_filter.
  simpl. split_and!; [done| |done]. rewrite Forall_forall in Hf. by apply Hf.
Qed.

Lemma emptyLoop_permitted d fuel m removed : forall queue, CanRemove perm = true -> inBase d -> writable d -> Forall (qBelow d) queue ->
  emits (permitted true) (emptyLoop user fuel m removed queue) (fun _ => True).
Proof.
  revert removed. induction fuel as [|fuel IH]; intros removed queue Hr Hb Hw Hq; simpl; [apply emits_respond|].
  destruct queue as [|e queue]; [by apply emits_ret|]. apply Forall_cons in Hq as [He Hq].
  destruct (qBelow_path d e He) as (y & Hy & Hn). apply emits_if; [intros _; by apply IH|intros _].
  step. intros [|f files] Hf.
  - eapply (emits_bind _ _ _ _ (fun _ => True)).
    + apply emits_remove. split; [done|]. exists d. split_and!; [done|done|]. exists (y ++ [GetName (qObj e)]).
      split_and!; [done|by destruct y|done].
    + intros _ _. apply IH; [done|done|done|]. apply Forall_app. split; [done|].
      destruct (qParent e) as [p|] eqn:Hp; [|done]. constructor; [by eapply qBelow_parent|done].
  - apply IH; [done|done|done|]. apply pushDirs_below; [|done|done|done]. by eexists.
Qed.

Lemma removeEmpty_permitted fuel dir : emits (permitted true)
  (FsRemoveEmptyDirectory equalFold getMetaByPath getMetaSnapshot user fuel dir) (fun _ => True).
Proof.
  unfold FsRemoveEmptyDirectory. step. intros _ Hp. step. intros src (d & -> & Hd & Hbd). step. intros m Hm. step. intros _ Hw.
  step. intros files Hf. eapply (emits_bind _ _ _ _ (fun _ => True)); [|intros; by apply emits_ret].
  apply (emptyLoop_permitted d); [done|done|by exists m|]. apply pushDirs_below; [|done|done|constructor].
  exists []. by rewrite app_nil_r, norm_segs_mkpath.
Qed.

(** The paths [l] are below [d]. *)
Definition pathsBelow (d : fpath) (l : list gostr) : Prop := Forall (entryOf true d) l.
Definition pairBelow (d : fpath) (x : Obj * gostr) : Prop := clean_seg (GetName x.1) /\ exists y, norm_segs x.2 = d ++ y.

Lemma collect_below P d fuel m p dst : forall existing moving queue, pathsBelow d moving -> Forall (pairBelow d) queue ->
  emits P (collectLoop user fuel m p dst existing moving queue) (pathsBelow d).
Proof.
  induction fuel as [|fuel IH]; intros existing moving queue Hm Hq; simpl; [apply emits_respond|].
  destruct queue as [|[o dir] queue]; [by apply emits_ret|]. apply Forall_cons in Hq as [[Ho [y Hy]] Hq]. simpl in Ho, Hy.
  assert (Hp : norm_segs (under dir (GetName o)) = d ++ (y ++ [GetName o])) by (by rewrite norm_segs_under, Hy, (assoc_L (++))).
  assert (Hm' : pathsBelow d (moving ++ [under dir (GetName o)])).
  { apply Forall_app. split; [done|]. constructor; [|done]. exists (y ++ [GetName o]). split_and!; [done|by destruct y|done]. }
  destruct (IsDir o).
  - step. intros files Hf. apply IH; [done|]. apply Forall_app. split; [done|]. apply Forall_map.
    eapply Forall_impl; [exact Hf|]. intros x Hx. split; [done|]. by eexists.
  - destruct (seqb dir dst); [by apply IH|]. destruct (bool_decide _); [|by apply IH].
    destruct (decide _); [apply emits_respond|]. destruct (decide _); by apply IH.
Qed.

Lemma moveAll_emits P dst paths : (forall p, p ∈ paths -> P (CTransfer move p dst)) -> emits P (moveAll dst paths) (fun _ => True).
Proof.
  induction paths as [|p paths IH]; intros HP; simpl; [by apply emits_ret|].
  eapply emits_bind; [apply emits_transfer, HP; by left|]. intros t _.
  eapply (emits_bind _ _ _ _ (fun _ => True)); [|intros; by apply emits_ret]. apply IH. intros. apply HP. by right.
Qed.

Lemma recursiveMove_permitted fuel src dst p : emits (permitted true)
  (FsRecursiveMove equalFold getMetaByPath getMetaSnapshot user fuel src dst p) (fun _ => True).
Proof.
  unfold FsRecursiveMove. step. intros _ Hp. step. intros s (d & -> & Hd & Hbd). step. intros m Hm. step. intros _ Hw.
  step. intros s' (q & -> & Hq & Hbq). step. intros m' Hm'. step. intros _ Hw'. step. intros files Hf.
  eapply (emits_bind _ _ _ _ (fun _ => True)).
  { destruct (decide _); [by apply emits_ret|]. step. intros l _. by apply emits_ret. }
  intros existing _. eapply emits_bind; [apply (collect_below _ d); [constructor|]|].
  { apply Forall_map. eapply Forall_impl; [exact Hf|]. intros o Ho. split; [done|]. exists []. simpl. by rewrite app_nil_r, norm_segs_mkpath. }
  intros paths Hpaths. eapply (emits_bind _ _ _ _ (fun _ => True)); [|intros; by apply emits_ret].
  apply moveAll_emits. intros x Hx. unfold permitted. rewrite decide_True, norm_segs_mkpath by done.
  split_and!; [done|done|by exists m'|]. exists d. rewrite decide_True by done. split_and!; [done|by exists m|].
  unfold pathsBelow in Hpaths. rewrite Forall_forall in Hpaths. by apply Hpaths.
Qed.

End Policy.

(** ** Examples *)
Lemma memNamed : named (W := mem) (E := op_error unit) wfTree.
Proof.
  split; simpl; intros.
  - done.
  - split; [unfold memList; by destruct (decide _)|]. intros l. by apply memList_names.
  - apply memMakeDir_wf; [done|]. apply clean_parent, norm_segs_clean.
  - apply memRename_wf; [done|]. apply norm_segs_clean.
  - by apply treeRemove_wf.
  - destruct ty; [apply memCopy_wf|apply memMove_wf|apply memCopy_wf]; done || apply norm_segs_clean.
Qed.

Definition noMeta : gostr -> res meta_err Meta := fun _ => Err MetaNotFound.
Definition noMetas : res meta_err (list Meta) := Err MetaNotFound.
Definition noRegexp : gostr -> option unit := fun _ => None.

(** A user of /home who may do everything *)
Definition homeUser : User := mkUser 7 GENERAL "/home" 65535 [] [].
Abbreviation homeServe := (serve seqb noMeta noMetas noRegexp (fun _ _ => false) (fun _ s _ => s) homeUser).

(** A user can rename the base folder itself, although it is an entry of a folder
    outside: the path of the request is the base, and only what the meta of the
    folder above says is asked. *)
Theorem rename_base_folder :
  let t := <[strs ["home"; "x"] := false]> (<[strs ["home"] := true]> ∅) in
  let '(s, r) := homeServe 0%nat (FsRenameReq "/" "other" false) t in
  r = Ok Done_ /\ calls s = [CRename "/home" "other"] /\ fsState s !! strs ["home"] = None /\
  fsState s !! strs ["other"; "x"] = Some false.
Proof. vm_compute. done. Qed.

Definition homeTree : mem :=
  <[strs ["home"; "a"] ++ [("b" : gostr)] := false]> (<[strs ["home"] ++ [("a" : gostr)] := true]> (<[strs [] ++ [("home" : gostr)] := true]> ∅)).

Lemma homeTree_wf : wfTree homeTree.
Proof.
  assert (wfTree ∅) as W by (split; [intros p b H|intros p n b H]; by rewrite lookup_empty in H).
  unfold homeTree. repeat apply treeInsert_wf; try done; try (by left); try (right; vm_compute; reflexivity);
    try (vm_compute; intros [=]); apply (bool_decide_eq_true_1 (clean_seg _)); vm_compute; reflexivity.
Qed.

