(* ===== verification/EmptyDirs.v ===== *)
(** FsRemoveEmptyDirectory removes exactly the folders below the requested one
    that hold no file: the loop of src/server/handles/fsmanage.go on a file
    system whose listings show everything. *)
From S2P Require Import Prelude GoString GoPath Paths Auth Mounts Storages Objects KeyedCache DirCache OpFs FsTree OpFsSpec OpFsMem.
From S2P Require Import Transfer FsManage FsManageSpec.

(** ** Counting folders *)
Section Count.
Context (t : ftree).

Definition strictly (p k : fpath) : Prop := p `prefix_of` k /\ p <> k.
#[export] Instance strictly_dec p k : Decision (strictly p k).
Proof. unfold strictly. apply _. Defined.

Definition dirsOf : gset fpath := dom (filter (fun kb : fpath * bool => kb.2 = true) t).
Definition below (p : fpath) : gset fpath := filter (strictly p) dirsOf.

Lemma elem_dirsOf k : k ∈ dirsOf <-> t !! k = Some true.
Proof.
  unfold dirsOf. rewrite elem_of_dom. split.
  - intros [b Hb]. apply map_lookup_filter_Some in Hb as [H1 H2]. simpl in H2. by subst.
  - intros H. exists true. by apply map_lookup_filter_Some.
Qed.

Lemma elem_below p k : k ∈ below p <-> strictly p k /\ t !! k = Some true.
Proof. unfold below. by rewrite elem_of_filter, elem_dirsOf. Qed.

Lemma prefix_snoc_inj (p k : fpath) n m : (p ++ [n]) `prefix_of` k -> (p ++ [m]) `prefix_of` k -> n = m.
Proof. intros [x ->] [y Hy]. rewrite <- !(assoc_L (++)) in Hy. apply app_inv_head in Hy. by injection Hy. Qed.

(** The folders of a folder weigh less than the folder. *)
Lemma children_weight p ns : NoDup ns -> Forall (fun n => t !! (p ++ [n]) = Some true) ns ->
  (sum_list_with (fun n => S (size (below (p ++ [n])))) ns <=
   size (filter (fun k => Exists (fun n => (p ++ [n]) `prefix_of` k) ns) (below p)))%nat.
Proof.
  induction ns as [|n ns IH]; intros Hnd Hns; simpl; [lia|].
  apply NoDup_cons in Hnd as [Hn Hnd]. apply Forall_cons in Hns as [Ht Hns]. specialize (IH Hnd Hns).
  set (A := filter _ (below p)) in IH. set (B := filter _ (below p)).
  assert (Hsub : {[p ++ [n]]} ∪ below (p ++ [n]) ∪ A ⊆ B).
  { intros k. subst A B. rewrite !elem_of_union, elem_of_singleton, !elem_of_filter, elem_below, elem_below. intros [[->|[[H1 H2] H3]]|[H1 H2]].
    - split; [by constructor|]. split; [|done]. split; [by eexists|]. intros H. apply (f_equal length) in H. rewrite length_app in H. simpl in H. lia.
    - split; [by constructor|]. split; [|done]. split; [etrans; [|exact H1]; by eexists|].
      intros <-. destruct H1 as [x Hx]. apply (f_equal length) in Hx. rewrite !length_app in Hx. simpl in Hx. lia.
    - split; [by apply Exists_cons_tl|done]. }
  assert (Hd1 : {[p ++ [n]]} ## below (p ++ [n])).
  { apply disjoint_singleton_l. rewrite elem_below. by intros [[_ ?] _]. }
  assert (Hd2 : {[p ++ [n]]} ∪ below (p ++ [n]) ## A).
  { intros k Hk. subst A. rewrite elem_of_filter. intros [Hex _].
    assert (Hp : (p ++ [n]) `prefix_of` k).
    { apply elem_of_union in Hk as [->%elem_of_singleton|[[? _] _]%elem_below]; done. }
    apply Exists_exists in Hex as (m & Hm & Hpm). by rewrite (prefix_snoc_inj p k n m Hp Hpm) in Hn. }
  apply subseteq_size in Hsub. rewrite !size_union, size_singleton in Hsub by done. lia.
Qed.

Lemma children_below p ns : NoDup ns -> Forall (fun n => t !! (p ++ [n]) = Some true) ns ->
  (sum_list_with (fun n => S (size (below (p ++ [n])))) ns <= size (below p))%nat.
Proof.
  intros Hnd Hns. etrans; [by apply children_weight|]. apply subseteq_size. intros k. rewrite elem_of_filter. by intros [_ ?].
Qed.
End Count.

(** ** The loop *)
Section Loop.
Context {W E : Type} {FS : FileSystem W E} (user : User).

(** The tree a file system shows the user: listings of a folder are complete, a
    removal removes what is below the path or fails and changes nothing. *)
Class ShownTree := {
  sInv : W -> Prop;
  sTree : W -> ftree;
  sh_wf s : sInv s -> wfTree (sTree s);
  sh_list m p b s : sInv s ->
    let '(s', r) := vList (Some user) m p b s in
    sInv s' /\ sTree s' = sTree s /\ forall l, r = Ok l ->
      isDirAt (sTree s) (norm_segs p) /\ NoDup (map GetName l) /\
      forall n x, sTree s !! (norm_segs p ++ [n]) = Some x <-> exists o, o ∈ l /\ GetName o = n /\ IsDir o = x;
  sh_remove p s : sInv s ->
    let '(s', r) := vRemove p s in
    sInv s' /\ sTree s' = if is_ok r then treeRemove (sTree s) (norm_segs p) else sTree s
}.
Context {ST : ShownTree}.

Abbreviation treeH w := (sTree (fsState w)).
Abbreviation answer A := (res (failure E) A).
Abbreviation Hm := (H (W := W) (E := E)).

Definition hends {A} (m : Hm A) (w : hstate W) (Q : hstate W -> answer A -> Prop) : Prop := Q (m w).1 (m w).2.

Lemma hends_mono {A} (m : Hm A) w (Q Q' : hstate W -> answer A -> Prop) :
  hends m w Q -> (forall w' r, Q w' r -> Q' w' r) -> hends m w Q'.
Proof. unfold hends. auto. Qed.

Lemma hends_bind {A B} (m : Hm A) (k : A -> Hm B) w (Q : hstate W -> answer B -> Prop) :
  hends m w (fun w' r => match r with Ok a => hends (k a) w' Q | Err e => Q w' (Err e) end) -> hends (m ≫= k) w Q.
Proof. unfold hends, mbind, H_bind. by destruct (m w) as [w' [a|e]]. Qed.

(** A listing: the error of the file system is answered with 500. *)
Lemma hends_list m p b w (Q : hstate W -> answer (list Obj) -> Prop) : sInv (fsState w) ->
  (forall w' r, sInv (fsState w') -> treeH w' = treeH w -> calls w' = calls w -> r <> Err ROutOfFuel ->
     (forall l, r = Ok l -> isDirAt (treeH w) (norm_segs p) /\ NoDup (map GetName l) /\
        forall n x, treeH w !! (norm_segs p ++ [n]) = Some x <-> exists o, o ∈ l /\ GetName o = n /\ IsDir o = x) -> Q w' r) ->
  hends (list_ user m p b) w Q.
Proof.
  intros I HQ. pose proof (sh_list m p b _ I) as L. unfold hends, list_, or500, reading, mbind, H_bind.
  destruct (vList _ _ _ _ _) as [s r]. destruct L as (L1 & L2 & L3).
  destruct r as [l|e]; simpl; apply HQ; try done. intros l' [= <-]. by apply L3.
Qed.

Lemma hends_remove p w (Q : hstate W -> answer unit -> Prop) : sInv (fsState w) ->
  (forall w' r, sInv (fsState w') -> r <> Err ROutOfFuel ->
     treeH w' = (if is_ok r then treeRemove (treeH w) (norm_segs p) else treeH w) -> Q w' r) ->
  hends (remove p) w Q.
Proof.
  intros I HQ. pose proof (sh_remove p _ I) as L. unfold hends, remove, or500, calling, mbind, H_bind.
  destruct (vRemove _ _) as [s r]. destruct L as (L1 & L2). destruct r as [l|e]; simpl; by apply HQ.
Qed.

Section Below.
Context (d : fpath).

(** An entry of the queue with the path its parent says. *)
Fixpoint qWell (e : qentry) : Prop :=
  match e with
  | mkQ o dir parent =>
      clean_seg (GetName o) /\
      match parent with
      | Some p => norm_segs dir = norm_segs (qPath p) /\ qWell p
      | None => norm_segs dir = d
      end
  end.

Abbreviation at_ e := (norm_segs (qPath e)).

Lemma qWell_path e : qWell e -> exists q, at_ e = q ++ [GetName (qObj e)] /\ clean_seg (GetName (qObj e)) /\
  match qParent e with Some p => q = at_ p | None => q = d end.
Proof.
  destruct e as [o dir parent]. intros [Hn Hp]. exists (norm_segs dir). unfold qPath at 1. simpl. split; [by apply norm_segs_under|].
  split; [done|]. by destruct parent as [p|]; [destruct Hp|].
Qed.

Lemma qWell_below e : qWell e -> strictly d (at_ e).
Proof.
  revert e. fix IH 1. intros [o dir [p|]] [Hn Hp]; unfold qPath; simpl; rewrite norm_segs_under by done.
  - destruct Hp as [-> Hp]. destruct (IH p Hp) as [[x Hx] Hne]. rewrite Hx. split; [exists (x ++ [GetName o]); by rewrite (assoc_L (++))|].
    intros H. apply (f_equal length) in H. rewrite !length_app in H. simpl in H. lia.
  - rewrite Hp. split; [by eexists|]. intros H. apply (f_equal length) in H. rewrite !length_app in H. simpl in H. lia.
Qed.

Lemma qWell_parent e p : qWell e -> qParent e = Some p -> qWell p.
Proof. destruct e as [o dir [q|]]; simpl; [|done]. intros (_ & _ & Hq) [= <-]. done. Qed.

(** Folders below [d] may be gone, nothing else. *)
Definition onlyDirs (t t' : ftree) : Prop :=
  forall k, t' !! k = t !! k \/ t' !! k = None /\ t !! k = Some true /\ strictly d k.

Lemma onlyDirs_trans t1 t2 t3 : onlyDirs t1 t2 -> onlyDirs t2 t3 -> onlyDirs t1 t3.
Proof.
  intros H1 H2 k. destruct (H2 k) as [->|(Hn & Ht & Hs)]; [apply H1|]. right. split_and!; [done| |done].
  destruct (H1 k) as [<-|(Hn' & _)]; [done|congruence].
Qed.

Lemma onlyDirs_below t t' p : onlyDirs t t' -> below t' p ⊆ below t p.
Proof.
  intros H k. rewrite !elem_below. intros [Hs Hk]. split; [done|]. destruct (H k) as [<-|(Hn & _)]; [done|congruence].
Qed.

(** Every empty folder is at or below an entry of the queue. *)
Definition covers (t : ftree) (queue : list qentry) : Prop := forall k, strictly d k -> t !! k = Some true ->
  (forall n, t !! (k ++ [n]) = None) -> exists e, e ∈ queue /\ at_ e `prefix_of` k.

Definition noEmpty (t : ftree) : Prop := forall k, strictly d k -> t !! k = Some true -> exists n b, t !! (k ++ [n]) = Some b.

Lemma covers_nil t : covers t [] -> noEmpty t.
Proof.
  intros H k Hs Hk. destruct (decide (Exists (fun kb => parentOf kb.1 = k /\ kb.1 <> []) (map_to_list t))) as [Hex|Hne].
  - apply Exists_exists in Hex as ([k' b] & Hin%elem_of_map_to_list & Hp & Hk'). simpl in *.
    destruct k' as [|n k' _] using rev_ind; [done|]. rewrite parentOf_snoc in Hp. subst. eauto.
  - destruct (H k Hs Hk) as (e & He%not_elem_of_nil & _); [|done]. intros n. apply eq_None_not_Some. intros [b Hb].
    apply Hne, Exists_exists. exists (k ++ [n], b). split; [by apply elem_of_map_to_list|]. simpl. rewrite parentOf_snoc. by destruct k.
Qed.

(** ** The steps of the loop *)
Definition weight (t : ftree) (e : qentry) : nat := S (size (below t (at_ e))).
Definition work (N : nat) (t : ftree) (queue : list qentry) : nat :=
  sum_list_with (weight t) queue + S N * size (below t d).

Lemma weight_mono t t' e : onlyDirs t t' -> (weight t' e <= weight t e)%nat.
Proof. intros H. unfold weight. pose proof (subseteq_size _ _ (onlyDirs_below _ _ (at_ e) H)). lia. Qed.

Lemma weights_mono t t' l : onlyDirs t t' -> (sum_list_with (weight t') l <= sum_list_with (weight t) l)%nat.
Proof.
  intros H. induction l as [|e l IH]; [done|]. pose proof (weight_mono t t' e H).
  change (weight t' e + sum_list_with (weight t') l <= weight t e + sum_list_with (weight t) l)%nat. lia.
Qed.

Lemma work_cons N t e l : work N t (e :: l) = (S (size (below t (at_ e))) + work N t l)%nat.
Proof. unfold work. change (sum_list_with (weight t) (e :: l)) with (weight t e + sum_list_with (weight t) l)%nat. unfold weight. lia. Qed.

Lemma work_app N t l l' : work N t (l ++ l') = (work N t l + sum_list_with (weight t) l')%nat.
Proof. unfold work. rewrite sum_list_with_app. lia. Qed.

(** The removal of an empty folder *)
Section Removal.
Context (t : ftree) (Wt : wfTree t) (e : qentry) (He : qWell e) (Hdir : t !! at_ e = Some true)
  (Hempty : forall n, t !! (at_ e ++ [n]) = None).
Abbreviation t' := (treeRemove t (at_ e)).

Lemma removal_at k : t' !! k = if decide (k = at_ e) then None else t !! k.
Proof.
  destruct (decide (k = at_ e)) as [->|Hk]; [apply treeRemove_at|].
  destruct (decide (at_ e `prefix_of` k)) as [[[|n x] ->]|Hp]; [by rewrite app_nil_r in Hk| |by apply treeRemove_other].
  rewrite treeRemove_under. replace (at_ e ++ n :: x) with ((at_ e ++ [n]) ++ x) by (by rewrite <- (assoc_L (++))).
  symmetry. apply wf_absent; [done|by destruct (at_ e)|apply Hempty].
Qed.

Lemma removal_only : onlyDirs t t'.
Proof.
  intros k. rewrite removal_at. destruct (decide (k = at_ e)) as [->|]; [right|by left]. split_and!; [done|done|by apply qWell_below].
Qed.

Lemma removal_covers queue : covers t (e :: queue) ->
  covers t' (queue ++ match qParent e with Some p => [p] | None => [] end).
Proof.
  intros HC k Hs Hk Hn. rewrite removal_at in Hk. destruct (decide (k = at_ e)) as [|Hne]; [done|].
  destruct (qWell_path e He) as (q & Hq & _ & Hpar).
  destruct (decide (k = q)) as [->|Hkq].
  - destruct (qParent e) as [p|]; [|subst q; by destruct Hs]. exists p. split; [|by rewrite Hpar].
    apply elem_of_app. right. by left.
  - destruct (HC k Hs Hk) as (e2 & [->|Hin]%elem_of_cons & Hpre).
    + intros n. specialize (Hn n). rewrite removal_at in Hn. destruct (decide _) as [Heq|]; [|done].
      rewrite Hq in Heq. apply app_inj_tail in Heq as [? _]. done.
    + destruct Hpre as [[|n x] ->]; [by rewrite app_nil_r in Hne|].
      replace (at_ e ++ n :: x) with ((at_ e ++ [n]) ++ x) in Hk by (by rewrite <- (assoc_L (++))).
      rewrite wf_absent in Hk; [done|done|by destruct (at_ e)|apply Hempty].
    + exists e2. split; [|done]. apply elem_of_app. by left.
Qed.

Lemma removal_work N queue : (size (below t d) <= N)%nat ->
  (work N t' (queue ++ match qParent e with Some p => [p] | None => [] end) < work N t (e :: queue))%nat.
Proof.
  intros HN. pose proof (qWell_below e He) as Hs. unfold work. rewrite sum_list_with_app. simpl.
  assert (Hlt : (S (size (below t' d)) <= size (below t d))%nat).
  { assert (Hsub : {[at_ e]} ∪ below t' d ⊆ below t d).
    { apply union_subseteq. split; [|by apply onlyDirs_below, removal_only]. apply singleton_subseteq_l, elem_below. done. }
    apply subseteq_size in Hsub. rewrite size_union, size_singleton in Hsub; [lia|].
    apply disjoint_singleton_l. rewrite elem_below, removal_at, decide_True by done. by intros [_ ?]. }
  pose proof (weights_mono t t' queue removal_only) as Hw.
  assert (Hp : (sum_list_with (weight t') match qParent e with Some p => [p] | None => [] end <= N)%nat).
  { destruct (qParent e) as [p|] eqn:Hpar; simpl; [|lia]. rewrite Nat.add_0_r. unfold weight.
    pose proof (qWell_below p (qWell_parent e p He Hpar)) as [Hp Hne].
    assert (Hsub : below t' (at_ p) ⊆ below t' d).
    { intros k. rewrite !elem_below. intros [[H1 H2] H3]. split; [|done]. split; [by etrans|]. intros <-.
      apply Hne. apply (anti_symm prefix); done. }
    apply subseteq_size in Hsub. lia. }
  assert (Hmul : (S N + S N * size (below t' d) <= S N * size (below t d))%nat) by nia. lia.
Qed.
End Removal.

(** The folders of a listing are pushed. *)
Section Push.
Context (t : ftree) (Wt : wfTree t) (dir : gostr) (parent : option qentry) (files : list Obj).
Abbreviation p := (norm_segs dir).
Context (Hnd : NoDup (map GetName files))
  (Hl : forall n x, t !! (p ++ [n]) = Some x <-> exists o, o ∈ files /\ GetName o = n /\ IsDir o = x).
Abbreviation pushed := (map (fun o => mkQ o dir parent) (filter (fun o => IsDir o = true) files)).

Lemma name_clean o : o ∈ files -> clean_seg (GetName o).
Proof. intros Ho. eapply (wf_seg _ Wt). apply Hl. by exists o. Qed.

Lemma pushed_at o : o ∈ files -> at_ (mkQ o dir parent) = p ++ [GetName o].
Proof. intros Ho. unfold qPath. simpl. by apply norm_segs_under, name_clean. Qed.

Lemma pushed_covers k : strictly p k -> t !! k = Some true -> exists e, e ∈ pushed /\ at_ e `prefix_of` k.
Proof.
  intros [[[|n x] ->] Hne] Hk; [by rewrite app_nil_r in Hne|].
  assert (Hn : t !! (p ++ [n]) = Some true).
  { destruct x as [|m x]; [done|]. replace (p ++ n :: m :: x) with ((p ++ [n]) ++ m :: x) in Hk by (by rewrite <- (assoc_L (++))).
    apply (wf_prefix _ Wt) in Hk as [H|H]; [by destruct p|done|done]. }
  apply Hl in Hn as (o & Ho & <- & Hd). exists (mkQ o dir parent). split.
  - apply list_elem_of_fmap. exists o. split; [done|]. by apply list_elem_of_filter.
  - rewrite pushed_at by done. exists x. by rewrite <- (assoc_L (++)).
Qed.

Lemma pushed_weight : (sum_list_with (weight t) pushed <= size (below t p))%nat.
Proof.
  set (dirs := filter (fun o => IsDir o = true) files). etrans; [|apply (children_below t p (map GetName dirs))].
  - assert (Hin : forall o, o ∈ dirs -> o ∈ files) by (by intros o [_ ?]%list_elem_of_filter).
    clearbody dirs. induction dirs as [|o l IH]; [done|].
    change (weight t (mkQ o dir parent) + sum_list_with (weight t) (map (fun o => mkQ o dir parent) l) <=
            S (size (below t (p ++ [GetName o]))) + sum_list_with (fun n => S (size (below t (p ++ [n])))) (map GetName l))%nat.
    unfold weight at 1. rewrite pushed_at by (apply Hin; by left).
    assert (IH' : (sum_list_with (weight t) (map (fun o => mkQ o dir parent) l) <=
      sum_list_with (fun n => S (size (below t (p ++ [n])))) (map GetName l))%nat) by (apply IH; intros; apply Hin; by right). lia.
  - subst dirs. clear Hl. induction files as [|o l IH]; [constructor|]. apply NoDup_cons in Hnd as [H1 H2]. specialize (IH H2).
    rewrite filter_cons. destruct (decide _); [|done]. apply NoDup_cons. split; [|done].
    intros (x & Hx & [_ Hin]%list_elem_of_filter)%list_elem_of_fmap. apply H1. rewrite Hx. by apply list_elem_of_fmap_2.
  - apply Forall_forall. intros n (o & -> & [Hd Ho]%list_elem_of_filter)%list_elem_of_fmap. apply Hl. by exists o.
Qed.

Lemma pushed_well : match parent with Some q => p = at_ q /\ qWell q | None => p = d end -> Forall qWell pushed.
Proof.
  intros Hp. apply Forall_map, Forall_forall. intros o [_ Ho]%list_elem_of_filter. simpl. split; [by apply name_clean|done].
Qed.
End Push.

Definition goneAll (t : ftree) (removed : list gostr) : Prop :=
  Forall (fun s => norm_segs s <> [] /\ t !! norm_segs s = None) removed.

Lemma goneAll_only t t' removed : onlyDirs t t' -> goneAll t removed -> goneAll t' removed.
Proof. intros H HG. eapply Forall_impl; [exact HG|]. intros s [H1 H2]. split; [done|]. destruct (H (norm_segs s)) as [->|[? _]]; done. Qed.

Lemma emptyLoop_ends N m fuel : forall removed queue w,
  sInv (fsState w) -> Forall qWell queue -> covers (treeH w) queue -> goneAll (treeH w) removed ->
  (size (below (treeH w) d) <= N)%nat ->
  hends (emptyLoop user fuel m removed queue) w (fun w' r =>
    sInv (fsState w') /\ onlyDirs (treeH w) (treeH w') /\ (is_ok r = true -> noEmpty (treeH w')) /\
    ((work N (treeH w) queue < fuel)%nat -> r <> Err ROutOfFuel)).
Proof.
  induction fuel as [|fuel IH]; intros removed queue w I Hq HC HG HN.
  { split_and!; [done|by left|done|lia]. }
  simpl. destruct queue as [|e queue].
  { split_and!; [done|by left| |done]. intros _. by apply covers_nil. }
  apply Forall_cons in Hq as [He Hq]. destruct (bool_decide (qPath e ∈ removed)) eqn:Hrem.
  - apply bool_decide_eq_true in Hrem. unfold goneAll in HG. pose proof HG as HG'. rewrite Forall_forall in HG'.
    destruct (HG' _ Hrem) as [Hne Hnone]. eapply hends_mono.
    + apply IH; [done|done| |done|done]. intros k Hs Hk Hn. destruct (HC k Hs Hk Hn) as (e2 & [->|Hin]%elem_of_cons & Hpre); [|by exists e2].
      destruct Hpre as [x ->]. by rewrite (wf_absent _ (sh_wf _ I)) in Hk.
    + intros w' r (H1 & H2 & H3 & H4). split_and!; [done|done|done|]. intros Hlt. apply H4. rewrite work_cons in Hlt. lia.
  - apply hends_bind, hends_list; [done|]. intros w1 r1 I1 T1 _ Hf1 Hl1. destruct r1 as [files|e1].
    2:{ rewrite T1. split_and!; [done|by left|done|]. intros _ [= ->]. done. }
    destruct (Hl1 files eq_refl) as (Hd & Hnd & Hl). pose proof (qWell_below e He) as Hbe.
    assert (Hdir : treeH w !! at_ e = Some true).
    { destruct Hd as [Hd|Hd]; [|done]. destruct (qWell_path e He) as (q & Hq' & _). rewrite Hq' in Hd. by destruct q. }
    destruct files as [|f files].
    + assert (Hempty : forall n, treeH w !! (at_ e ++ [n]) = None).
      { intros n. apply eq_None_not_Some. intros [x Hx]. apply Hl in Hx as (o & Ho%not_elem_of_nil & _). done. }
      apply hends_bind, hends_remove; [done|]. intros w2 r2 I2 Hf2 T2. rewrite T1 in T2.
      pose proof (removal_only (treeH w) (sh_wf _ I) e He Hdir Hempty) as Honly. destruct r2 as [u|e2]; simpl in T2.
      2:{ rewrite T2. split_and!; [done|by left|done|]. intros _ [= ->]. done. }
      rewrite <- T2 in Honly. eapply hends_mono.
      * apply IH; [done| | | |].
        -- apply Forall_app. split; [done|]. destruct (qParent e) as [q|] eqn:Hp; [|done]. constructor; [by eapply qWell_parent|done].
        -- rewrite T2. by apply (removal_covers (treeH w) (sh_wf _ I) e He Hdir Hempty).
        -- constructor; [|by eapply goneAll_only]. split; [by destruct Hbe as [[? ->] ?]; destruct d|]. rewrite T2. apply treeRemove_at.
        -- etrans; [|exact HN]. apply subseteq_size, onlyDirs_below, Honly.
      * intros w' r (H1 & H2 & H3 & H4). split_and!; [done|by eapply onlyDirs_trans|done|]. intros Hlt. apply H4.
        pose proof (removal_work (treeH w) (sh_wf _ I) e He Hdir Hempty N queue HN) as Hw. rewrite T2. lia.
    + rewrite <- T1 in *. eapply hends_mono.
      * apply IH; [done| | |done|done].
        -- apply Forall_app. split; [done|]. by apply (pushed_well (treeH w1) (sh_wf _ I1) (qPath e) (Some e) (f :: files) Hl).
        -- intros k Hs Hk Hn. destruct (HC k Hs Hk Hn) as (e2 & [->|Hin]%elem_of_cons & Hpre).
           ++ destruct (pushed_covers (treeH w1) (sh_wf _ I1) (qPath e) (Some e) (f :: files) Hl k) as (e2 & Hin & Hpre2).
              ** split; [done|]. intros <-. specialize (Hn (GetName f)).
                 assert (Hf : treeH w1 !! (at_ e ++ [GetName f]) = Some (IsDir f)) by (apply Hl; exists f; split; [by left|done]).
                 by rewrite Hf in Hn.
              ** done.
              ** exists e2. split; [|done]. apply elem_of_app. by right.
           ++ exists e2. split; [|done]. apply elem_of_app. by left.
      * intros w' r (H1 & H2 & H3 & H4). split_and!; [done|done|done|]. intros Hlt. apply H4.
        rewrite work_cons in Hlt. unfold pushDirs. rewrite work_app.
        pose proof (pushed_weight (treeH w1) (sh_wf _ I1) (qPath e) (Some e) (f :: files) Hnd Hl) as Hw.
        lia.
Qed.

(** ** What is left *)
Lemma keys_bounded (t : ftree) : exists M, forall k b, t !! k = Some b -> (length k <= M)%nat.
Proof.
  exists (list_max (map (fun kb => length kb.1) (map_to_list t))). intros k b Hk%elem_of_map_to_list.
  pose proof (proj1 (list_max_le (map (fun kb : fpath * bool => length kb.1) (map_to_list t)) _) (le_n _)) as HF.
  rewrite Forall_map, Forall_forall in HF. by apply (HF (k, b)).
Qed.

(** Where no folder is empty each folder holds a file. *)
Lemma noEmpty_files t : noEmpty t -> forall k, strictly d k -> t !! k = Some true -> exists y, t !! (k ++ y) = Some false.
Proof.
  intros HN. destruct (keys_bounded t) as [M HM].
  assert (Hind : forall j k, (M <= length k + j)%nat -> strictly d k -> t !! k = Some true -> exists y, t !! (k ++ y) = Some false).
  { induction j as [|j IH]; intros k Hj Hs Hk; destruct (HN k Hs Hk) as (n & b & Hb); pose proof (HM _ _ Hb) as Hlen;
      rewrite length_app in Hlen; simpl in Hlen; [lia|].
    destruct b; [|by exists [n]]. destruct (IH (k ++ [n])) as [y Hy]; [rewrite length_app; simpl; lia| |done|].
    - destruct Hs as [Hp Hne]. split; [etrans; [exact Hp|by eexists]|]. intros ->. destruct Hp as [x Hx].
      apply (f_equal length) in Hx. rewrite !length_app in Hx. simpl in Hx. lia.
    - exists (n :: y). by rewrite <- (assoc_L (++)) in Hy. }
  intros k. apply (Hind M). lia.
Qed.

(** What the folders that are gone did not hold *)
Lemma onlyDirs_file t t' k : wfTree t' -> onlyDirs t t' -> (exists y, t !! (k ++ y) = Some false) -> k <> [] -> t' !! k = t !! k.
Proof.
  intros W' HO [y Hy] Hk. destruct (HO k) as [?|(Hn & Ht & _)]; [done|]. destruct (HO (k ++ y)) as [Ey|(_ & ? & _)]; [|congruence].
  rewrite Hy in Ey. by rewrite (wf_absent _ W' k y Hk Hn) in Ey.
Qed.

Lemma onlyDirs_exact t t' : wfTree t -> wfTree t' -> onlyDirs t t' -> noEmpty t' -> forall k b,
  t' !! k = Some b <-> t !! k = Some b /\ (b = true -> strictly d k -> exists y, t !! (k ++ y) = Some false).
Proof.
  intros Wt W' HO HN k b.
  assert (Hsub : forall x c, t' !! x = Some c -> t !! x = Some c) by (intros x c Hx; destruct (HO x) as [<-|(? & _)]; [done|congruence]).
  split.
  - intros Hk. split; [by apply Hsub|]. intros -> Hs. destruct (noEmpty_files t' HN k Hs Hk) as [y Hy]. exists y. by apply Hsub.
  - intros [Hk Hf]. destruct (HO k) as [->|(Hn & Ht & Hs)]; [done|]. assert (b = true) as -> by congruence.
    rewrite (onlyDirs_file t t' k) in Hn; [congruence|done|done|by apply Hf|]. by apply (wf_clean _ Wt) in Hk as [? _].
Qed.
End Below.
End Loop.
Arguments ShownTree W E {FS} user.

(** ** The request *)
Section Request.
Context {W E : Type} {FS : FileSystem W E} (user : User) {ST : ShownTree W E user}.
Context (equalFold : gostr -> gostr -> bool)
        (getMetaByPath : gostr -> res meta_err Meta) (getMetaSnapshot : res meta_err (list Meta)).
Context {RE : Type} (compile : gostr -> option RE) (matchString : RE -> gostr -> bool)
        (replaceAllString : RE -> gostr -> gostr -> gostr).

Abbreviation serve' := (serve equalFold getMetaByPath getMetaSnapshot compile matchString replaceAllString user).

(** The folder of the request *)
Definition folderOf (srcDir : gostr) : fpath := norm_segs (BasePath user) ++ norm_segs srcDir.

Lemma request_ends fuel srcDir w : sInv user w ->
  let d := folderOf srcDir in
  let N := size (below (sTree user w) d) in
  let '(s, r) := serve' fuel (FsRemoveEmptyDirectoryReq srcDir) w in
  sInv user (fsState s) /\ onlyDirs d (sTree user w) (sTree user (fsState s)) /\
  (is_ok r = true -> noEmpty d (sTree user (fsState s))) /\
  ((N * (N + 2) < fuel)%nat -> r <> Err ROutOfFuel).
Proof.
  intros I. cbv zeta. set (d := folderOf srcDir). set (N := size _).
  set (Q := fun (s : hstate W) (a : res (failure E) message) =>
    sInv user (fsState s) /\ onlyDirs d (sTree user w) (sTree user (fsState s)) /\
    (is_ok a = true -> noEmpty d (sTree user (fsState s))) /\ ((N * (N + 2) < fuel)%nat -> a <> Err ROutOfFuel)).
  enough (HQ : hends (FsRemoveEmptyDirectory equalFold getMetaByPath getMetaSnapshot user fuel srcDir) (mkH w []) Q).
  { unfold serve. simpl. unfold hends in HQ. by destruct (FsRemoveEmptyDirectory _ _ _ _ _ _ _) as [s a]. }
  assert (Hans : forall r, r <> ROutOfFuel -> Q (mkH w []) (Err r)).
  { intros r Hr. split_and!; [done|by left|done|]. intros _. congruence. }
  unfold FsRemoveEmptyDirectory. apply hends_bind. unfold hends at 1, allow.
  destruct (CanRemove _); simpl; [|by apply Hans]. apply hends_bind. unfold hends at 1, joinPath, JoinPath.
  destruct (joinBasePath _ _) as [p|e] eqn:Hj; simpl; [|by apply Hans].
  apply joinBasePath_segs in Hj as [-> Hp]. change (norm_segs (BasePath user) ++ norm_segs srcDir) with d in *.
  enough (Hgo : forall m, hends (allow (canWrite equalFold user m (mkpath d));;
      rootFiles ← list_ user m (mkpath d) false;
      emptyLoop user fuel m [] (pushDirs (mkpath d) None rootFiles []);; mret Done_) (mkH w []) Q).
  { apply hends_bind. unfold hends at 1, metaAt. destruct (GetNearestMeta _ _ _ _) as [[m|[]]|]; try (by apply Hans); apply Hgo. }
  intros m. apply hends_bind. unfold hends at 1, allow. destruct (canWrite _ _ _ _); [|by apply Hans].
  apply hends_bind, (hends_list user); [done|]. intros w1 r1 I1 T1 _ Hf1 Hl1. simpl in T1.
  destruct r1 as [files|e].
  2:{ split_and!; [done|rewrite T1; by left|done|]. intros _ [= ->]. done. }
  destruct (Hl1 files eq_refl) as (_ & Hnd & Hl). simpl in Hl. rewrite <- T1 in Hl.
  apply hends_bind. eapply hends_mono.
  { apply (emptyLoop_ends user d N); [done| | |constructor|by rewrite T1].
    - by apply (pushed_well d _ (sh_wf user _ I1) (mkpath d) None files Hl).
    - intros k Hs Hk _. apply (pushed_covers _ (sh_wf user _ I1) (mkpath d) None files Hl); [by rewrite Hp|done]. }
  intros w2 r2 (H1 & H2 & H3 & H4). rewrite T1 in H2.
  assert (Hfuel : (N * (N + 2) < fuel)%nat -> r2 <> Err ROutOfFuel).
  { intros Hlt. apply H4. unfold pushDirs. rewrite app_nil_l.
    pose proof (pushed_weight _ (sh_wf user _ I1) (mkpath d) None files Hnd Hl) as Hw. rewrite Hp in Hw.
    unfold work. rewrite T1 in *. fold N in Hw |- *. nia. }
  destruct r2 as [u|e]; [by split_and!|]. split_and!; [done|done|done|]. intros Hlt [= ->]. by apply Hfuel.
Qed.

(** C28: fsRemoveEmptyDirectory on a file system whose listings show the user
    everything: when it reports success, what is left below the folder of the
    request are the files and exactly those folders that hold a file, directly
    or further down; elsewhere nothing has changed. *)
Theorem removeEmpty_exact fuel srcDir w s m : sInv user w ->
  serve' fuel (FsRemoveEmptyDirectoryReq srcDir) w = (s, Ok m) ->
  forall k b, sTree user (fsState s) !! k = Some b <->
    sTree user w !! k = Some b /\
    (b = true -> strictly (folderOf srcDir) k -> exists y, sTree user w !! (k ++ y) = Some false).
Proof.
  intros I Hs. pose proof (request_ends fuel srcDir w I) as H. cbv zeta in H. rewrite Hs in H.
  destruct H as (I' & HO & HN & _). eapply onlyDirs_exact; [by apply sh_wf|by apply sh_wf|done|by apply HN].
Qed.

(** Whatever fails, every file is kept, and so is every folder outside the folder
    of the request or with a file in it. *)
Theorem removeEmpty_keeps fuel srcDir w : sInv user w ->
  let s := (serve' fuel (FsRemoveEmptyDirectoryReq srcDir) w).1 in
  forall k b, sTree user w !! k = Some b ->
    b = false \/ ~ strictly (folderOf srcDir) k \/ (exists y, sTree user w !! (k ++ y) = Some false) ->
    sTree user (fsState s) !! k = Some b.
Proof.
  intros I. cbv zeta. intros k b Hk Hor. pose proof (request_ends fuel srcDir w I) as H. cbv zeta in H.
  destruct (serve' _ _ _) as [s r]. destruct H as (I' & HO & _). simpl. destruct (HO k) as [->|(Hn & Ht & Hs)]; [done|].
  destruct Hor as [?|[?|Hf]]; [congruence|done|]. rewrite (onlyDirs_file (folderOf srcDir) (sTree user w) _ k); [done|by apply sh_wf|done|done|].
  by apply (wf_clean _ (sh_wf user _ I)) in Hk as [? _].
Qed.

(** C37: the loop ends: with [n] folders below the folder of the request, n * (n + 2)
    rounds are enough for an answer, although folders are pushed again and again. *)
Theorem removeEmpty_terminates fuel srcDir w : sInv user w ->
  let n := size (below (sTree user w) (folderOf srcDir)) in
  (n * (n + 2) < fuel)%nat -> (serve' fuel (FsRemoveEmptyDirectoryReq srcDir) w).2 <> Err ROutOfFuel.
Proof.
  intros I. cbv zeta. intros Hf. pose proof (request_ends fuel srcDir w I) as H. cbv zeta in H.
  destruct (serve' _ _ _) as [s r]. destruct H as (_ & _ & _ & H). by apply H.
Qed.
End Request.

(** ** The file system in memory *)
#[export] Instance memShown user : ShownTree mem (op_error unit) user.
Proof.
  refine {| sInv t := wfTree t; sTree t := t |}; [done| |].
  - intros m p b t Wt. simpl. unfold memList. unfold dirObj. rewrite memObj_path by apply norm_segs_clean.
    destruct (decide _) as [Hd|]; [|done]. split; [done|]. split; [done|]. intros l [= <-]. split; [done|]. split.
    + erewrite List.map_ext_in; [apply (memChild_NoDup (norm_segs p) t)|].
      intros o (n & x & _ & ->)%list_elem_of_In%memChild_in. by rewrite memObj_name, shown_memObj.
    + intros n x. split.
      * intros Hx. exists (memObj (norm_segs p ++ [n]) x). split_and!; [apply memChild_in; eauto|apply memObj_name|done].
      * intros (o & (n' & x' & Hx & ->)%memChild_in & <- & <-). by rewrite memObj_name.
  - intros p t Wt. simpl. unfold dirObj. rewrite memObj_path by apply norm_segs_clean. split; [by apply treeRemove_wf|done].
Defined.

(** /home/d with the empty folders e and e/e, and the folder f with a file *)
Definition emptyTree : mem :=
  <[strs ["home"; "d"; "f"] ++ [("x" : gostr)] := false]> (<[strs ["home"; "d"] ++ [("f" : gostr)] := true]>
  (<[strs ["home"; "d"; "e"] ++ [("e" : gostr)] := true]> (<[strs ["home"; "d"] ++ [("e" : gostr)] := true]>
  (<[strs ["home"] ++ [("d" : gostr)] := true]> (<[strs [] ++ [("home" : gostr)] := true]> ∅))))).

Lemma emptyTree_wf : wfTree emptyTree.
Proof.
  assert (wfTree ∅) as W by (split; [intros p b H|intros p n b H]; by rewrite lookup_empty in H).
  unfold emptyTree. repeat apply treeInsert_wf; try done; try (by left); try (right; vm_compute; reflexivity);
    try (vm_compute; intros [=]); apply (bool_decide_eq_true_1 (clean_seg _)); vm_compute; reflexivity.
Qed.

Abbreviation emptyRun fuel := (homeServe fuel (FsRemoveEmptyDirectoryReq "/") emptyTree).

Lemma removeEmpty_exact_witness :
  let s := (emptyRun 50%nat).1 in
  calls s = [CRemove "/home/d/e/e"; CRemove "/home/d/e"] /\
  forall k b, fsState s !! k = Some b <->
    emptyTree !! k = Some b /\ (b = true -> strictly (strs ["home"]) k -> exists y, emptyTree !! (k ++ y) = Some false).
Proof.
  split; [vm_compute; reflexivity|].
  assert (Hr : emptyRun 50%nat = ((emptyRun 50%nat).1, Ok Done_)).
  { assert ((emptyRun 50%nat).2 = Ok Done_) as <- by (vm_compute; reflexivity). apply surjective_pairing. }
  exact (removeEmpty_exact homeUser (ST := memShown homeUser) seqb noMeta noMetas noRegexp (fun _ _ => false) (fun _ s _ => s) 50 "/" emptyTree _ Done_
    emptyTree_wf Hr).
Defined.

Lemma removeEmpty_keeps_witness :
  fsState (emptyRun 3%nat).1 !! strs ["home"; "d"; "f"; "x"] = Some false /\ (emptyRun 3%nat).2 = Err ROutOfFuel.
Proof.
  split; [|vm_compute; reflexivity].
  apply (removeEmpty_keeps homeUser (ST := memShown homeUser) seqb noMeta noMetas noRegexp (fun _ _ => false) (fun _ s _ => s) 3 "/" emptyTree emptyTree_wf).
  - vm_compute. reflexivity.
  - by left.
Defined.

Lemma removeEmpty_terminates_witness :
  size (below emptyTree (folderOf homeUser "/")) = 4%nat /\ (emptyRun 25%nat).2 <> Err ROutOfFuel.
Proof.
  assert (Hn : size (below emptyTree (folderOf homeUser "/")) = 4%nat) by (vm_compute; reflexivity).
  split; [exact Hn|].
  apply (removeEmpty_terminates homeUser (ST := memShown homeUser) seqb noMeta noMetas noRegexp (fun _ _ => false) (fun _ s _ => s) 25 "/" emptyTree emptyTree_wf).
  change (sTree homeUser emptyTree) with emptyTree. rewrite Hn. lia.
Defined.
