(* ===== verification/RecursiveMove.v ===== *)
(** FsRecursiveMove (src/server/handles/fsbatch.go): which files below the
    folder it moves, and that no two of them get the same name. *)
From S2P Require Import Prelude GoString GoPath Paths Auth Mounts Storages Objects KeyedCache DirCache OpFs FsTree OpFsSpec OpFsMem.
From S2P Require Import Transfer FsManage FsManageSpec EmptyDirs.

(** The last elements of the paths that are moved *)
Definition nameOf (path : gostr) : gostr := default [] (last (norm_segs path)).
Definition sources (l : list fscall) : list gostr :=
  omap (fun c => match c with CTransfer _ src _ => Some src | _ => None end) l.

Section Collect.
Context {W E : Type} {FS : FileSystem W E} (user : User) {ST : ShownTree W E user}.
Abbreviation treeH w := (sTree user (fsState w)).
Context (d dst : fpath) (Hdst : Forall clean_seg dst) (p : policy).

Definition queued (t : ftree) (x : Obj * gostr) : Prop :=
  d `prefix_of` norm_segs x.2 /\ t !! (norm_segs x.2 ++ [GetName x.1]) = Some (IsDir x.1).

(** The files to move so far *)
Record collected (t : ftree) (existing0 existing moving : list gostr) : Prop := {
  co_files : Forall (fun s => t !! norm_segs s = Some false /\ strictly d (norm_segs s)) moving;
  co_names : p = CANCEL \/ p = SKIP ->
    NoDup (map nameOf moving) /\ Forall (fun s => nameOf s ∉ existing0) moving /\
    existing = existing0 ++ map nameOf moving;
  co_over : p = OVERWRITE -> existing = []
}.

(** Every file is in the list or at or below an entry of the queue, the files
    of the destination apart. *)
Definition reached (t : ftree) (moving : list gostr) (queue : list (Obj * gostr)) : Prop :=
  forall k, strictly d k -> t !! k = Some false -> parentOf k <> dst ->
    (exists s, s ∈ moving /\ norm_segs s = k) \/
    exists x, x ∈ queue /\ (norm_segs x.2 ++ [GetName x.1]) `prefix_of` k.

Lemma queued_path t x : wfTree t -> queued t x -> norm_segs (under x.2 (GetName x.1)) = norm_segs x.2 ++ [GetName x.1].
Proof. intros Wt [_ Hx]. apply norm_segs_under. by apply (wf_seg _ Wt) in Hx as [_ ?]. Qed.

Lemma nameOf_under dir n : clean_seg n -> nameOf (under dir n) = n.
Proof. intros Hn. unfold nameOf. by rewrite norm_segs_under, last_snoc. Qed.

(** A folder of the queue is replaced by what is in it. *)
Lemma reached_dir t moving queue o dir files : wfTree t -> queued t (o, dir) -> IsDir o = true ->
  (forall n x, t !! (norm_segs (under dir (GetName o)) ++ [n]) = Some x <-> exists o', o' ∈ files /\ GetName o' = n /\ IsDir o' = x) ->
  reached t moving ((o, dir) :: queue) -> reached t moving (queue ++ map (fun o' => (o', under dir (GetName o))) files).
Proof.
  intros Wt Hq Hdir Hl HR k Hs Hk Hp. destruct (HR k Hs Hk Hp) as [?|(x & [->|Hin]%elem_of_cons & Hpre)]; [by left| |].
  2:{ right. exists x. split; [|done]. apply elem_of_app. by left. }
  pose proof (queued_path t (o, dir) Wt Hq) as Hpath. simpl in Hpath, Hpre. rewrite <- Hpath in Hpre.
  destruct Hq as [_ Ho]. simpl in Ho. rewrite <- Hpath, Hdir in Ho.
  destruct Hpre as [[|n x] ->]; [rewrite app_nil_r in Hk; congruence|].
  assert (Hn : exists b, t !! (norm_segs (under dir (GetName o)) ++ [n]) = Some b).
  { destruct x as [|m x]; [by eexists|].
    replace (norm_segs (under dir (GetName o)) ++ n :: m :: x) with ((norm_segs (under dir (GetName o)) ++ [n]) ++ m :: x) in Hk
      by (by rewrite <- (assoc_L (++))).
    apply (wf_prefix _ Wt) in Hk as [H|H]; [by destruct (norm_segs _)|by eexists|done]. }
  destruct Hn as [b Hb]. apply Hl in Hb as (o' & Ho' & <- & _). right. exists (o', under dir (GetName o)). split.
  - apply elem_of_app. right. apply list_elem_of_fmap. by exists o'.
  - simpl. exists x. by rewrite <- (assoc_L (++)).
Qed.

(** A file of the queue is dealt with. *)
Lemma reached_file t moving moving' queue o dir : queued t (o, dir) -> IsDir o = false -> wfTree t ->
  (forall s, s ∈ moving -> s ∈ moving') ->
  (under dir (GetName o) ∈ moving' \/ norm_segs dir = dst) ->
  reached t moving ((o, dir) :: queue) -> reached t moving' queue.
Proof.
  intros Hq Hdir Wt Hsub Hor HR k Hs Hk Hp. destruct (HR k Hs Hk Hp) as [(s & Hin & <-)|(x & [->|Hin]%elem_of_cons & Hpre)].
  - left. exists s. by split; [apply Hsub|].
  - pose proof (queued_path t (o, dir) Wt Hq) as Hpath. destruct Hq as [_ Ho]. simpl in Ho, Hpre, Hpath. rewrite Hdir in Ho.
    assert (k = norm_segs dir ++ [GetName o]) as ->.
    { destruct Hpre as [[|n x] ->]; [by rewrite app_nil_r|].
      apply (wf_prefix _ Wt) in Hk as [Hn|Hn]; [by destruct (norm_segs dir)|congruence|done]. }
    rewrite parentOf_snoc in Hp. destruct Hor as [Hin|?]; [|done]. left. by eexists.
  - right. by exists x.
Qed.

Definition mayDrop (t : ftree) (l : list gostr) : Prop := p = OVERWRITE -> reached t l [].

Lemma collect_ends m existing0 fuel : forall existing moving queue w,
  sInv user (fsState w) -> Forall (queued (treeH w)) queue -> collected (treeH w) existing0 existing moving ->
  (p = OVERWRITE -> reached (treeH w) moving queue) ->
  hends (collectLoop user fuel m p (mkpath dst) existing moving queue) w (fun w' r =>
    calls w' = calls w /\ forall l, r = Ok l -> (exists ex, collected (treeH w) existing0 ex l) /\ mayDrop (treeH w) l).
Proof.
  induction fuel as [|fuel IH]; intros existing moving queue w I Hq HC HR; simpl; [by split|].
  destruct queue as [|[o dir] queue].
  { split; [done|]. intros l [= <-]. split; [by exists existing|done]. }
  apply Forall_cons in Hq as [Ho Hq]. pose proof (sh_wf user _ I) as Wt. pose proof (queued_path _ _ Wt Ho) as Hpath. simpl in Hpath.
  assert (Hstrict : strictly d (norm_segs (under dir (GetName o)))).
  { rewrite Hpath. destruct Ho as [[y Hy] _]. simpl in Hy. rewrite Hy. split; [exists (y ++ [GetName o]); by rewrite (assoc_L (++))|].
    intros H. apply (f_equal length) in H. rewrite !length_app in H. simpl in H. lia. }
  destruct (IsDir o) eqn:Hdir.
  - apply hends_bind, (hends_list user); [done|]. intros w1 r1 I1 T1 C1 _ Hl1. destruct r1 as [files|e]; [|by split].
    destruct (Hl1 files eq_refl) as (_ & _ & Hl). eapply hends_mono.
    + apply IH; [done| |by rewrite T1|].
      * apply Forall_app. rewrite T1. split; [done|]. apply Forall_map, Forall_forall. intros o' Ho'. split; [apply Hstrict|].
        apply Hl. by exists o'.
      * intros Hp. rewrite T1. apply reached_dir; [done|done|done|done|by apply HR].
    + intros w' r [C' H']. rewrite C', C1. split; [done|]. intros l Hr. rewrite <- T1. by apply H'.
  - assert (Hfile : treeH w !! norm_segs (under dir (GetName o)) = Some false) by (rewrite Hpath, <- Hdir; apply Ho).
    assert (Hn : clean_seg (GetName o)) by (destruct Ho as [_ Ht]; by apply (wf_seg _ Wt) in Ht as [_ ?]).
    assert (Hmore : Forall (fun s => treeH w !! norm_segs s = Some false /\ strictly d (norm_segs s)) (moving ++ [under dir (GetName o)])).
    { apply Forall_app. split; [apply (co_files _ _ _ _ HC)|]. by constructor. }
    assert (Hadd : forall s, s ∈ moving -> s ∈ moving ++ [under dir (GetName o)]) by (intros s Hs; apply elem_of_app; by left).
    assert (Hin : under dir (GetName o) ∈ moving ++ [under dir (GetName o)]) by (apply elem_of_app; right; by left).
    destruct (seqb dir (mkpath dst)) eqn:Hsame.
    { apply seqb_true in Hsame. apply IH; [done|done|done|]. intros Hp. apply (reached_file _ moving _ _ o dir); try done; [|by apply HR].
      right. by rewrite Hsame, norm_segs_mkpath. }
    destruct (bool_decide (GetName o ∈ existing)) eqn:Hex; [apply bool_decide_eq_true in Hex|apply bool_decide_eq_false in Hex].
    + destruct (decide (p = CANCEL)) as [|Hcan]; [by split|]. destruct (decide (p = SKIP)) as [Hskip|Hskip].
      * apply IH; [done|done|done|]. intros Hp. congruence.
      * apply IH; [done|done| |].
        -- split; [done|intros [?|?]; done|apply (co_over _ _ _ _ HC)].
        -- intros Hp. rewrite (co_over _ _ _ _ HC Hp) in Hex. by apply not_elem_of_nil in Hex.
    + apply IH; [done|done| |].
      * split; [done| |].
        -- intros Hp. destruct (co_names _ _ _ _ HC Hp) as (N1 & N2 & N3). rewrite decide_False by (by destruct Hp as [-> | ->]).
           rewrite N3, not_elem_of_app in Hex. destruct Hex as [X1 X2]. rewrite map_app. simpl. rewrite nameOf_under by done. split_and!.
           ++ apply NoDup_app. split_and!; [done| |by apply NoDup_singleton]. intros x Hx ->%list_elem_of_singleton. done.
           ++ apply Forall_app. split; [done|]. constructor; [by rewrite nameOf_under|done].
           ++ by rewrite N3, (assoc_L (++)).
        -- intros Hp. rewrite decide_True by done. by apply (co_over _ _ _ _ HC).
      * intros Hp. apply (reached_file _ moving _ _ o dir); try done; [by left|by apply HR].
Qed.
End Collect.

Section Request.
Context {W E : Type} {FS : FileSystem W E} (user : User) {ST : ShownTree W E user}.
Context (equalFold : gostr -> gostr -> bool)
        (getMetaByPath : gostr -> res meta_err Meta) (getMetaSnapshot : res meta_err (list Meta)).
Context {RE : Type} (compile : gostr -> option RE) (matchString : RE -> gostr -> bool)
        (replaceAllString : RE -> gostr -> gostr -> gostr).

Abbreviation serve' := (serve equalFold getMetaByPath getMetaSnapshot compile matchString replaceAllString user).

(** The files are moved one after the other until a move fails. *)
Lemma moveAll_calls dst l : forall w : hstate W,
  hends (moveAll (E := E) dst l) w (fun w' r => exists l1 l2, l = l1 ++ l2 /\
    calls w' = calls w ++ map (fun s => CTransfer move s dst) l1 /\ (is_ok r = true -> l2 = [])).
Proof.
  induction l as [|s l IH]; intros w; simpl.
  { exists [], []. split_and!; [done|simpl; by rewrite app_nil_r|done]. }
  apply hends_bind. unfold hends at 1, transfer_, or500, calling, mbind, H_bind.
  destruct (vTransfer _ _ _ _ _) as [x [b|e]]; simpl.
  2:{ exists [s], l. done. }
  apply hends_bind. eapply hends_mono; [apply IH|]. intros w' r (l1 & l2 & -> & Hc & Hr). simpl in Hc.
  destruct r as [k|e]; exists (s :: l1), l2; (split; [done|]); simpl; rewrite Hc, <- (assoc_L (++)); (split; [done|exact Hr]).
Qed.

Lemma sources_moves dst l : sources (map (fun s => CTransfer move s dst) l) = l.
Proof.
  induction l as [|s l IH]; [done|]. change (s :: sources (map (fun s => CTransfer move s dst) l) = s :: l). by rewrite IH.
Qed.

(** A guard leaves the state alone. *)
Lemma hends_guard {A B} (m : H (W := W) (E := E) A) (k : A -> H B) w (Q : hstate W -> res (failure E) B -> Prop) :
  (m w).1 = w -> (forall e, Q w (Err e)) -> (forall a, (m w).2 = Ok a -> hends (k a) w Q) -> hends (m ≫= k) w Q.
Proof. intros H1 H2 H3. apply hends_bind. unfold hends at 1. rewrite H1. destruct (m w).2 as [a|e]; [by apply H3|apply H2]. Qed.

Lemma allow_same b w : (allow (W := W) (E := E) b w).1 = w.
Proof. by destruct b. Qed.
Lemma join_same path w : (joinPath (W := W) (E := E) user path w).1 = w.
Proof. unfold joinPath. by destruct (JoinPath _ _). Qed.
Lemma meta_same path w : (metaAt (W := W) (E := E) equalFold getMetaByPath getMetaSnapshot path w).1 = w.
Proof. unfold metaAt. by destruct (GetNearestMeta _ _ _ _) as [[m|[]]|]. Qed.
Lemma join_folder path w x : (joinPath (W := W) (E := E) user path w).2 = Ok x ->
  x = mkpath (folderOf user path) /\ norm_segs x = folderOf user path /\ Forall clean_seg (folderOf user path).
Proof.
  unfold joinPath, JoinPath. destruct (joinBasePath _ _) as [p|e] eqn:Hj; [|done]. intros [= <-].
  apply joinBasePath_segs in Hj as [H1 H2]. split_and!; [done|done|]. apply Forall_app. split; apply norm_segs_clean.
Qed.

(** What a request for a recursive move does *)
Record moved (t : ftree) (d dst : fpath) (p : policy) (l : list gostr) (ok : bool) : Prop := {
  mv_files : Forall (fun s => t !! norm_segs s = Some false /\ strictly d (norm_segs s)) l;
  mv_names : p = CANCEL \/ p = SKIP -> NoDup (map nameOf l) /\ Forall (fun s => t !! (dst ++ [nameOf s]) = None) l;
  mv_all : p = OVERWRITE -> ok = true -> forall k, strictly d k -> t !! k = Some false -> parentOf k <> dst ->
    exists s, s ∈ l /\ norm_segs s = k
}.

Lemma moved_none t d dst p : moved t d dst p [] false.
Proof. split; [done|by split; [constructor|]|done]. Qed.

Lemma move_ends fuel srcDir dstDir p w : sInv user w ->
  let '(s, r) := serve' fuel (FsRecursiveMoveReq srcDir dstDir p) w in
  moved (sTree user w) (folderOf user srcDir) (folderOf user dstDir) p (sources (calls s)) (is_ok r).
Proof.
  intros I. set (d := folderOf user srcDir). set (q := folderOf user dstDir).
  set (Q := fun (s : hstate W) (a : res (failure E) message) => moved (sTree user w) d q p (sources (calls s)) (is_ok a)).
  enough (HQ : hends (FsRecursiveMove equalFold getMetaByPath getMetaSnapshot user fuel srcDir dstDir p) (mkH w []) Q).
  { unfold serve. simpl. unfold hends in HQ. by destruct (FsRecursiveMove _ _ _ _ _ _ _ _ _) as [s a]. }
  assert (Hans : forall s r, calls s = [] -> Q s (Err r)).
  { intros s r Hs. unfold Q. rewrite Hs. apply moved_none. }
  assert (Hans0 : forall e, Q (mkH w []) (Err e)) by (intros e; by apply Hans).
  unfold FsRecursiveMove. apply hends_guard; [apply allow_same|done|]. intros _ _.
  apply hends_guard; [apply join_same|done|]. intros p1 (-> & Hp & _)%join_folder. fold d in Hp |- *.
  apply hends_guard; [apply meta_same|done|]. intros m _. apply hends_guard; [apply allow_same|done|]. intros _ _.
  apply hends_guard; [apply join_same|done|]. intros p2 (-> & Hq & Hcl)%join_folder. fold q in Hq, Hcl |- *.
  apply hends_guard; [apply meta_same|done|]. intros m' _. apply hends_guard; [apply allow_same|done|]. intros _ _.
  apply hends_bind, (hends_list user); [done|]. intros w1 r1 I1 T1 C1 _ Hl1. simpl in T1, C1, Hl1.
  destruct r1 as [files|e]; [|by apply Hans]. destruct (Hl1 files eq_refl) as (_ & _ & Hl). rewrite Hp in Hl.
  (* the names of the destination *)
  apply hends_bind. eapply (hends_mono _ _ (fun w2 r2 => sInv user (fsState w2) /\ sTree user (fsState w2) = sTree user w /\ calls w2 = [] /\
    forall ex, r2 = Ok ex -> (p = OVERWRITE -> ex = []) /\
      (p = CANCEL \/ p = SKIP -> forall n, n ∉ ex -> sTree user w !! (q ++ [n]) = None))).
  { destruct (decide (p = OVERWRITE)) as [Ho|Ho].
    - split_and!; [done|done|done|]. intros ex [= <-]. split; [done|]. by rewrite Ho; intros [?|?].
    - apply hends_bind, (hends_list user); [done|]. intros w2 r2 I2 T2 C2 _ Hl2. rewrite T1 in T2. rewrite C1 in C2.
      destruct r2 as [dfiles|e]; [|by split_and!]. split_and!; [done|done|done|]. intros ex [= <-]. split; [done|].
      intros _ n Hn. destruct (Hl2 dfiles eq_refl) as (_ & _ & Hdl). rewrite Hq, T1 in Hdl. apply eq_None_not_Some. intros [b Hb].
      apply Hdl in Hb as (o & Ho' & <- & _). apply Hn. by apply list_elem_of_fmap_2. }
  intros w2 r2 (I2 & T2 & C2 & H2). destruct r2 as [ex|e]; [|by apply Hans]. destruct (H2 ex eq_refl) as [Hover Hnames].
  (* the files to move *)
  apply hends_bind. eapply hends_mono.
  { apply (collect_ends user d q Hcl p m ex); [done| | |].
    - apply Forall_map, Forall_forall. intros o Ho. rewrite T2. split; simpl; rewrite Hp; [done|]. apply Hl. by exists o.
    - split; [done| |done]. intros _. rewrite app_nil_r. by split_and!; [constructor| |].
    - intros _ k Hs Hk _. rewrite T2 in Hk. right. destruct Hs as [[[|n x] ->] Hne]; [by rewrite app_nil_r in Hne|].
      assert (Hn : exists b, sTree user w !! (d ++ [n]) = Some b).
      { destruct x as [|y x]; [by eexists|].
        replace (d ++ n :: y :: x) with ((d ++ [n]) ++ y :: x) in Hk by (by rewrite <- (assoc_L (++))).
        apply (wf_prefix _ (sh_wf user _ I)) in Hk as [H|H]; [by destruct d|by eexists|done]. }
      destruct Hn as [b Hb]. apply Hl in Hb as (o & Ho & <- & _). exists (o, mkpath d). split.
      + apply list_elem_of_fmap. by exists o.
      + simpl. rewrite Hp. exists x. by rewrite <- (assoc_L (++)). }
  intros w3 r3 [C3 H3]. rewrite C2 in C3. destruct r3 as [l|e]; [|by apply Hans].
  destruct (H3 l eq_refl) as [[ex' HC] Hdrop]. rewrite T2 in HC, Hdrop.
  (* the moves *)
  apply hends_bind. eapply hends_mono; [apply moveAll_calls|]. intros w4 r4 (l1 & l2 & -> & C4 & Hok). rewrite C3 in C4. simpl in C4.
  pose proof (co_files _ _ _ _ _ _ HC) as Hf. apply Forall_app in Hf as [Hf _].
  assert (Hm : moved (sTree user w) d q p l1 (is_ok r4)).
  { split; [done| |].
    - intros Hpol. destruct (co_names _ _ _ _ _ _ HC Hpol) as (N1 & N2 & _). rewrite map_app in N1.
      apply NoDup_app in N1 as (N1 & _ & _). apply Forall_app in N2 as [N2 _]. split; [done|].
      eapply Forall_impl; [exact N2|]. intros s Hs. by apply Hnames.
    - intros Hpol Hr k Hs Hk Hpk. rewrite (Hok Hr), app_nil_r in Hdrop.
      destruct (Hdrop Hpol k Hs Hk Hpk) as [?|(x & Hx%not_elem_of_nil & _)]; done. }
  destruct r4 as [count|e]; unfold hends, Q; simpl; by rewrite C4, sources_moves.
Qed.

(** A recursive move moves only files below the folder of the request. With the
    policies cancel and skip no two of them have the same name, and none has a
    name of the destination, so that no move overwrites a file. With the policy
    overwrite a move that reports success has moved every file below the folder
    that was not in the destination already. *)
Theorem recursiveMove_files fuel srcDir dstDir p w : sInv user w ->
  let '(s, r) := serve' fuel (FsRecursiveMoveReq srcDir dstDir p) w in
  let t := sTree user w in
  let l := sources (calls s) in
  Forall (fun x => t !! norm_segs x = Some false /\ strictly (folderOf user srcDir) (norm_segs x)) l /\
  (p = CANCEL \/ p = SKIP -> NoDup (map nameOf l) /\ Forall (fun x => t !! (folderOf user dstDir ++ [nameOf x]) = None) l) /\
  (p = OVERWRITE -> is_ok r = true -> forall k, strictly (folderOf user srcDir) k -> t !! k = Some false ->
     parentOf k <> folderOf user dstDir -> exists x, x ∈ l /\ norm_segs x = k).
Proof.
  intros I. pose proof (move_ends fuel srcDir dstDir p w I) as H. destruct (serve' _ _ _) as [s r]. cbv zeta.
  destruct H as [H1 H2 H3]. by split_and!.
Qed.
End Request.

(** ** Examples *)
Definition filesTree : mem :=
  <[strs ["home"; "b"] ++ [("x" : gostr)] := false]> (<[strs ["home"; "a"] ++ [("y" : gostr)] := false]>
  (<[strs ["home"; "a"] ++ [("x" : gostr)] := false]> (<[strs ["home"] ++ [("b" : gostr)] := true]>
  (<[strs ["home"] ++ [("a" : gostr)] := true]> (<[strs [] ++ [("home" : gostr)] := true]> ∅))))).

Lemma filesTree_wf : wfTree filesTree.
Proof.
  assert (wfTree ∅) as W by (split; [intros p b H|intros p n b H]; by rewrite lookup_empty in H).
  unfold filesTree. repeat apply treeInsert_wf; try done; try (by left); try (right; vm_compute; reflexivity);
    try (vm_compute; intros [=]); apply (bool_decide_eq_true_1 (clean_seg _)); vm_compute; reflexivity.
Qed.

Lemma recursiveMove_files_witness :
  let s := (homeServe 20%nat (FsRecursiveMoveReq "/a" "/b" SKIP) filesTree).1 in
  sources (calls s) = ["/home/a/y" : gostr] /\
  (SKIP = CANCEL \/ SKIP = SKIP -> NoDup (map nameOf (sources (calls s))) /\
     Forall (fun x => filesTree !! (folderOf homeUser "/b" ++ [nameOf x]) = None) (sources (calls s))).
Proof.
  split; [vm_compute; reflexivity|].
  pose proof (recursiveMove_files homeUser (ST := memShown homeUser) seqb noMeta noMetas noRegexp (fun _ _ => false) (fun _ s _ => s)
    20 "/a" "/b" SKIP filesTree filesTree_wf) as H.
  destruct (homeServe 20%nat (FsRecursiveMoveReq "/a" "/b" SKIP) filesTree) as [s r]. exact (proj1 (proj2 H)).
Defined.

(** From the root the paths of the queue begin with two slashes, so the files
    that are in the destination already are not recognised: with the policy
    cancel the request fails although nothing is in the way of the other file,
    and with overwrite the file is moved into its own folder. *)
Definition rootUser : User := mkUser 7 GENERAL "/" 65535 [] [].
Theorem recursiveMove_from_root :
  let t := <[strs ["b"; "x"] := false]> (<[strs ["b"] := true]> ∅) in
  let run := serve seqb noMeta noMetas noRegexp (fun _ _ => false) (fun _ s _ => s) rootUser 20%nat in
  (run (FsRecursiveMoveReq "/" "/b" CANCEL) t).2 = Err (RError 403 (HExists "x")) /\
  calls (run (FsRecursiveMoveReq "/" "/b" OVERWRITE) t).1 = [CTransfer move "//b/x" "/b"] /\
  calls (homeServe 20%nat (FsRecursiveMoveReq "/" "/b" OVERWRITE)
    (<[strs ["home"; "b"; "x"] := false]> (<[strs ["home"; "b"] := true]> (<[strs ["home"] := true]> ∅)))).1 = [].
Proof. vm_compute. done. Qed.
