(* ===== verification/UserFs.v ===== *)
(** The file system the handlers call: package fs (src/internal/fs/fs.go) over the
    mounted storages of [FsView] and the transfers of [Transfer], and a run of a
    handler on it. *)
From S2P Require Import Prelude GoString GoPath Paths Auth Mounts Storages Objects KeyedCache DirCache OpFs FsTree OpFsMem OpFsSys FsView.
From S2P Require Import TaskGroup Transfer TransferOp Moves FsManage FsManageSpec.

Section UserFs.
Context {R E D : Type} {DD : EqDecision D} (GetStorage : D -> Storage) (drv : D -> Driver R E).
Context (sortSlice : (Obj -> Obj -> bool) -> list Obj -> list Obj) (naturalLess : gostr -> gostr -> bool)
        (clock : nat -> Z) (charMap : charmap) (doublestarMatch : gostr -> gostr -> option bool).
Context (equalFold : gostr -> gostr -> bool) (compiles : gostr -> bool) (matches : gostr -> gostr -> bool)
        (getMetaByPath : gostr -> res meta_err Meta) (getMetaSnapshot : res meta_err (list Meta))
        (entries : list (gostr * D)).
Context (linkError : R -> Obj -> option (op_error E)) (openStream : gostr -> Obj -> res (fs_error E) Z)
        (ctxErr : option (fs_error E)).
(** The settings of a request: hooks, conf.NoTaskKey, the name of a staging
    directory; [fuel] for the recursions of a transfer. *)
Context (needHook noTask : bool) (stage : gostr) (fuel : nat).

Abbreviation storages := (FsView.world (R:=R)).
Abbreviation system := (Transfer.world D storages).

(** An operation on the storages *)
Definition onStorages {A} (m : storages -> storages * res (fs_error E) A) (w : system) : system * res (transfer_error E) A :=
  lift m w.

#[local] Instance ops_ : StorageOps D storages E :=
  opStorages GetStorage drv sortSlice naturalLess clock charMap doublestarMatch entries linkError openStream ctxErr.

Definition userFs : FileSystem system (transfer_error E) := {|
  vGet p w :=
    let '(w, r) := onStorages (fsGet GetStorage drv sortSlice naturalLess clock charMap doublestarMatch entries p) w in
    (w, match r with Ok o => Some o | Err _ => None end);
  vList user meta p refresh :=
    onStorages (fsList GetStorage drv sortSlice naturalLess clock charMap doublestarMatch equalFold compiles matches
      getMetaByPath getMetaSnapshot entries user meta p (mkFsListArgs refresh false));
  vMakeDir p := onStorages (fsMakeDir GetStorage drv sortSlice naturalLess clock charMap doublestarMatch entries p);
  vRename p name := onStorages (fsRename GetStorage drv sortSlice naturalLess clock charMap doublestarMatch entries p name);
  vRemove p := onStorages (fsRemove GetStorage drv sortSlice naturalLess clock charMap doublestarMatch entries p);
  vTransfer ty src dst skipHook w :=
    let '(w, r) := transfer needHook fuel noTask stage ty src dst [] w in
    (w, match r with Ok t => Ok (match t with Some _ => true | None => false end) | Err e => Err e end)
|}.
End UserFs.

(** ** A run *)

(** Names that begin with an x are hidden below /m from users who may not see
    them; this user may do everything but that. *)
Definition blindUser : User := mkUser 7 GENERAL "/" (Z.land 65535 (Z.lnot 1)) [] [].

(** /d with the folder h, in which there is one file, x *)
Definition hiddenTree : ftree := addFile (strs ["d"; "h"; "x"]) (addDir (strs ["d"; "h"]) (addDir (strs ["d"]) ∅)).

#[local] Instance hiddenFs : FileSystem (Transfer.world unit (FsView.world (R:=mem))) (transfer_error unit) :=
  userFs (fun _ => mountM "/m") (fun _ => slowDriver anyName) sliceStable str_ltb noClock [] noMatch
    seqb (fun _ => true) (fun rule name => hasPrefix name rule) demoMetas (Ok [demoMeta]) [("/m" : gostr, tt)]
    noLinkError openOne None false true "stage" 9.

(** FsRemoveEmptyDirectory asks with the listings of the user whether a folder is
    empty: a folder whose files are hidden from the user is removed with them. *)
Theorem hidden_files_removed :
  let '(s, r) := serve seqb demoMetas (Ok [demoMeta]) noRegexp (fun _ _ => false) (fun _ s _ => s) blindUser 20%nat
                   (FsRemoveEmptyDirectoryReq "/m/d") (startWorld hiddenTree) in
  r = Ok Done_ /\ calls s = [CRemove "/m/d/h"] /\
  remote (ops (store (fsState s))) !! strs ["d"; "h"; "x"] = None /\
  remote (ops (store (fsState s))) !! strs ["d"] = Some true.
Proof. vm_compute. done. Qed.

(** A request runs through all the layers: FsMove moves a folder between two
    folders of a storage that cannot move. *)
Example move_through_layers :
  let '(s, r) := serve seqb demoMetas (Ok [demoMeta]) noRegexp (fun _ _ => false) (fun _ s _ => s) blindUser 20%nat
                   (FsMoveReq (mkMoveCopy "/m" "/m/b" (strs ["a"]) false false false)) (startWorld twoFolders) in
  r = Ok Immediately /\ calls s = [CTransfer move "/m/a" "/m/b"] /\
  remote (ops (store (fsState s))) !! strs ["b"; "a"; "s"; "y"] = Some false /\
  remote (ops (store (fsState s))) !! strs ["a"] = None.
Proof. vm_compute. done. Qed.
