(* ===== verification/DavFile.v ===== *)
(** COPY and MOVE of the WebDAV handler with their rollback:
    src/server/webdav/file.go.

    The operation on the files runs inside a transaction of the table of dead
    properties; when either fails, the files are put back from backups made
    beforehand. The file system is the class [DavFs]; the table is a value, an
    update of it and the commit may fail. The random names of staging and backup
    objects are arguments. The log and the hooks are left out. *)
From S2P Require Import Prelude GoString GoPath Paths Auth Mounts Objects DirCache.

(** The calls of package fs, with conf.NoTaskKey where they could be tasks. *)
Class DavFs (W E : Type) := {
  dGet : gostr -> W -> W * res E Obj;
  dRename : gostr -> gostr -> W -> W * res E unit;
  dRemove : gostr -> W -> W * res E unit;
  dMakeDir : gostr -> W -> W * res E unit;
  dCopyTo : gostr -> gostr -> gostr -> W -> W * res E unit;   (* source, folder, name *)
  dMove : gostr -> gostr -> W -> W * res E unit;
  isObjectNotFound : E -> bool;
  isNotImplemented : E -> bool   (* IsNotImplementError or IsNotSupportError *)
}.

Inductive dav_error (E : Type) :=
| DFs (e : E)
| DCleanup (cause e : dav_error E)     (* cleanupAfterFailure *)
| DMeta (e : meta_err)
| DDatabase
| DCompensation (e : dav_error E) (errs : list (dav_error E)).
Arguments DFs {E}. Arguments DCleanup {E}. Arguments DMeta {E}. Arguments DDatabase {E}. Arguments DCompensation {E}.

Record fileBackup := mkBackup { originalPath : gostr; backupPath : gostr; renamed : bool }.

Definition backupPrefix : gostr := ".openlist-backup-".
Definition stagePrefix : gostr := ".openlist-copy-".

Section Files.
Context {W E : Type} {FS : DavFs W E}.

(** ** Computations *)
Definition F (A : Type) : Type := W -> W * res (dav_error E) A.

#[global] Instance F_ret : MRet F := fun A a w => (w, Ok a).
#[global] Instance F_bind : MBind F := fun A B k m w =>
  match m w with
  | (w, Ok a) => k a w
  | (w, Err e) => (w, Err e)
  end.

Definition ffail {A} (e : dav_error E) : F A := fun w => (w, Err e).
Definition ftry {A} (m : F A) : F (res (dav_error E) A) := fun w => let '(w, r) := m w in (w, Ok r).
Definition fs_ {A} (m : W -> W * res E A) : F A := fun w =>
  let '(w, r) := m w in (w, match r with Ok a => Ok a | Err e => Err (DFs e) end).

Definition notFoundErr (e : dav_error E) : bool := match e with DFs e => isObjectNotFound e | _ => false end.
Definition notImplErr (e : dav_error E) : bool := match e with DFs e => isNotImplemented e | _ => false end.

Definition moveResource (src dstDir srcDir srcName dstName : gostr) : F unit :=
  if seqb srcDir dstDir then fs_ (dRename src dstName)
  else
    fs_ (dMove src dstDir);;
    if negb (seqb srcName dstName) then fs_ (dRename (path_join2 dstDir srcName) dstName) else mret tt.

Definition removeIfExists (name : gostr) : F unit :=
  r ← ftry (fs_ (dGet name));
  match r with
  | Err e => if notFoundErr e then mret tt else ffail e
  | Ok _ => fs_ (dRemove name)
  end.

Definition cleanupAfterFailure {A} (name : gostr) (cause : dav_error E) : F A :=
  r ← ftry (removeIfExists name);
  match r with
  | Err e => ffail (DCleanup cause e)
  | Ok _ => ffail cause
  end.

(** ** Backups *)
Definition newFileBackup (uuid originalPath : gostr) (keepOriginal : bool) : F fileBackup :=
  let backupPath := path_join2 (path_Dir originalPath) (backupPrefix ++ uuid) in
  done ← (if keepOriginal then mret false
          else
            r ← ftry (fs_ (dRename originalPath (path_Base backupPath)));
            match r with
            | Ok _ => mret true
            | Err e => if notImplErr e then mret false else ffail e
            end);
  if (done : bool) then mret (mkBackup originalPath backupPath true)
  else
    r ← ftry (fs_ (dCopyTo originalPath (path_Dir originalPath) (path_Base backupPath)));
    match r with
    | Ok _ => mret (mkBackup originalPath backupPath false)
    | Err e => cleanupAfterFailure backupPath e
    end.

Definition restore (b : option fileBackup) : F unit :=
  match b with
  | None => mret tt
  | Some b =>
      removeIfExists (originalPath b);;
      if renamed b then fs_ (dRename (backupPath b) (path_Base (originalPath b)))
      else
        fs_ (dCopyTo (backupPath b) (path_Dir (originalPath b)) (path_Base (originalPath b)));;
        _ ← ftry (fs_ (dRemove (backupPath b))); mret tt
  end.

Definition discard (b : option fileBackup) : F unit :=
  match b with
  | None => mret tt
  | Some b => _ ← ftry (removeIfExists (backupPath b)); mret tt
  end.

(** ** Mutations: what the closures of fileMutation hold *)
Inductive fileMutation :=
| copyMutation (dstPath stagePath : gostr) (dstBackup : option fileBackup)
| moveMutation (dst dstDir srcName dstName : gostr) (srcBackup : fileBackup) (dstBackup : option fileBackup).

(** The errors of the steps of a rollback; all the steps run. *)
Fixpoint collect (l : list (F unit)) : F (list (dav_error E)) :=
  match l with
  | [] => mret []
  | m :: l =>
      r ← ftry m;
      errs ← collect l;
      mret (match r with Ok _ => errs | Err e => e :: errs end)
  end.

Definition rollback (m : fileMutation) : F (list (dav_error E)) :=
  match m with
  | copyMutation dstPath stagePath dstBackup =>
      collect [removeIfExists dstPath; restore dstBackup; removeIfExists stagePath]
  | moveMutation dst dstDir srcName dstName srcBackup dstBackup =>
      let candidates := dst :: (if negb (seqb srcName dstName) then [path_join2 dstDir srcName] else []) in
      collect (map removeIfExists candidates ++ [restore (Some srcBackup); restore dstBackup])
  end.

Definition finalize (m : fileMutation) : F unit :=
  match m with
  | copyMutation dstPath stagePath dstBackup =>
      _ ← ftry (removeIfExists stagePath);
      discard dstBackup
  | moveMutation _ _ _ _ srcBackup dstBackup =>
      discard (Some srcBackup);;
      discard dstBackup
  end.

(** ** COPY *)
Definition installStagedObject (stagePath dstDir dstName : gostr) : F unit :=
  r ← ftry (fs_ (dRename stagePath dstName));
  match r with
  | Ok _ => mret tt
  | Err e =>
      if notImplErr e then
        fs_ (dCopyTo stagePath dstDir dstName);;
        _ ← ftry (fs_ (dRemove stagePath)); mret tt
      else ffail e
  end.

(** A mutation, if there is one to undo, and the error. *)
Definition applied : Type := W * (option fileMutation * res (dav_error E) unit).

Definition copyWithRollback (uuid1 uuid2 src dstDir dstName : gostr) (dstExisted shallow : bool) (w : W) : applied :=
  let stagePath := path_join2 dstDir (stagePrefix ++ uuid1) in
  let dstPath := path_join2 dstDir dstName in
  match (r ← ftry (if shallow then fs_ (dMakeDir stagePath) else fs_ (dCopyTo src dstDir (path_Base stagePath)));
         match r with
         | Err e => cleanupAfterFailure stagePath e
         | Ok _ =>
             if dstExisted then
               r ← ftry (newFileBackup uuid2 dstPath false);
               match r with
               | Err e => cleanupAfterFailure stagePath e
               | Ok b => mret (Some b)
               end
             else mret None
         end) w with
  | (w, Err e) => (w, (None, Err e))
  | (w, Ok dstBackup) =>
      let m := copyMutation dstPath stagePath dstBackup in
      let '(w, r) :=
        ((match dstBackup with
          | Some b => if renamed b then mret tt else removeIfExists dstPath
          | None => mret tt
          end);;
         installStagedObject stagePath dstDir dstName) w in
      (w, (Some m, r))
  end.

(** ** MOVE *)
Definition moveWithRollback (uuid1 uuid2 src dst dstDir srcDir srcName dstName : gostr) (dstExisted : bool) (w : W) : applied :=
  match (srcBackup ← newFileBackup uuid1 src true;
         if dstExisted then
           r ← ftry (newFileBackup uuid2 dst false);
           match r with
           | Err e => discard (Some srcBackup);; ffail e
           | Ok b => mret (srcBackup, Some b)
           end
         else mret (srcBackup, None)) w with
  | (w, Err e) => (w, (None, Err e))
  | (w, Ok (srcBackup, dstBackup)) =>
      let m := moveMutation dst dstDir srcName dstName srcBackup dstBackup in
      let '(w, r) :=
        ((match dstBackup with
          | Some b => if renamed b then mret tt else removeIfExists dst
          | None => mret tt
          end);;
         moveResource src dstDir srcDir srcName dstName) w in
      (w, (Some m, r))
  end.

(** ** The transaction *)
Context {DB : Type}.

(** [update] and [commit] are what the database answers. *)
Definition runDeadPropsFileMutation (update : DB -> option DB) (commit : bool) (apply : W -> applied) (db : DB) (w : W)
    : DB * W * res (dav_error E) unit :=
  match update db with
  | None => (db, w, Err DDatabase)
  | Some db' =>
      let '(w, (m, r)) := apply w in
      match (match r with Ok _ => if commit then Ok tt else Err DDatabase | Err e => Err e end) with
      | Err e =>
          match m with
          | None => (db, w, Err e)
          | Some m =>
              match rollback m w with
              | (w, Ok (x :: errs)) => (db, w, Err (DCompensation e (x :: errs)))
              | (w, _) => (db, w, Err e)
              end
          end
      | Ok _ => (db', match m with Some m => (finalize m w).1 | None => w end, Ok tt)
      end
  end.

(** ** The requests *)
Context (equalFold : gostr -> gostr -> bool)
        (getMetaByPath : gostr -> res meta_err Meta) (getMetaSnapshot : res meta_err (list Meta)).

(** The status, and the error if there is one. *)
Definition answer : Type := Z * option (dav_error E).

Definition StatusCreated : Z := 201.
Definition StatusNoContent : Z := 204.
Definition StatusForbidden : Z := 403.
Definition StatusNotFound : Z := 404.
Definition StatusMethodNotAllowed : Z := 405.
Definition StatusConflict : Z := 409.
Definition StatusPreconditionFailed : Z := 412.
Definition StatusInternalServerError : Z := 500.

(** The meta of a folder; MetaNotFound is no meta. *)
Definition nearest (path : gostr) : res meta_err (option Meta) :=
  match GetNearestMeta equalFold getMetaByPath getMetaSnapshot path with
  | Some (Ok m) => Ok (Some m)
  | Some (Err MetaNotFound) => Ok None
  | Some (Err e) => Err e
  | None => Err DbError   (* GetNearestMeta always answers *)
  end.

(** The checks of the folder of the destination and of the destination: whether
    it exists, or the answer. *)
Definition checkDestination (dstDir dst : gostr) (overwrite : bool) (w : W) : W * (answer + bool) :=
  match dGet dstDir w with
  | (w, Err e) => (w, inl (if isObjectNotFound e then StatusConflict else StatusMethodNotAllowed, Some (DFs e)))
  | (w, Ok info) =>
      if negb (IsDir info) then (w, inl (StatusConflict, None))
      else
        match dGet dst w with
        | (w, Ok _) => (w, if overwrite then inr true else inl (StatusPreconditionFailed, None))
        | (w, Err e) => (w, if isObjectNotFound e then inr false else inl (StatusInternalServerError, Some (DFs e)))
        end
  end.

Definition finish (dstExisted : bool) (x : DB * W * res (dav_error E) unit) : DB * W * answer :=
  let '(db, w, r) := x in
  (db, w, match r with
          | Err e => (StatusInternalServerError, Some e)
          | Ok _ => (if dstExisted then StatusNoContent else StatusCreated, None)
          end).

Definition moveFiles (uuid1 uuid2 : gostr) (user : User) (update : DB -> option DB) (commit : bool)
    (src dst : gostr) (overwrite : bool) (db : DB) (w : W) : DB * W * answer :=
  let srcDir := path_Dir src in
  let dstDir := path_Dir dst in
  let srcName := path_Base src in
  let dstName := path_Base dst in
  if negb (seqb srcDir dstDir) && negb (CanMove (Permission user)) then (db, w, (StatusForbidden, None))
  else if negb (seqb srcName dstName) && negb (CanRename (Permission user)) then (db, w, (StatusForbidden, None))
  else
    match nearest srcDir, nearest dstDir with
    | Err e, _ => (db, w, (StatusInternalServerError, Some (DMeta e)))
    | _, Err e => (db, w, (StatusInternalServerError, Some (DMeta e)))
    | Ok srcMeta, Ok dstMeta =>
        if negb (CanWrite equalFold (Some user) srcMeta srcDir) || negb (CanWrite equalFold (Some user) dstMeta dstDir)
        then (db, w, (StatusForbidden, None))
        else
          match dGet src w with
          | (w, Err e) => (db, w, (if isObjectNotFound e then StatusNotFound else StatusInternalServerError, Some (DFs e)))
          | (w, Ok _) =>
              match checkDestination dstDir dst overwrite w with
              | (w, inl a) => (db, w, a)
              | (w, inr dstExisted) =>
                  finish dstExisted (runDeadPropsFileMutation update commit
                    (moveWithRollback uuid1 uuid2 src dst dstDir srcDir srcName dstName (dstExisted && overwrite)) db w)
              end
          end
    end.

Definition copyFiles (uuid1 uuid2 : gostr) (user : User) (update : DB -> option DB) (commit : bool)
    (src dst : gostr) (overwrite : bool) (depth : Z) (db : DB) (w : W) : DB * W * answer :=
  let srcDir := path_Dir src in
  let dstDir := path_Dir dst in
  let dstName := path_Base dst in
  if negb (CanCopy (Permission user)) then (db, w, (StatusForbidden, None))
  else
    match nearest srcDir with
    | Err e => (db, w, (StatusInternalServerError, Some (DMeta e)))
    | Ok srcMeta =>
        if negb (CanRead equalFold (Some user) srcMeta srcDir) then (db, w, (StatusForbidden, None))
        else
          match nearest dstDir with
          | Err e => (db, w, (StatusInternalServerError, Some (DMeta e)))
          | Ok dstMeta =>
              if negb (CanWrite equalFold (Some user) dstMeta dstDir) then (db, w, (StatusForbidden, None))
              else
                match dGet src w with
                | (w, Err e) => (db, w, (if isObjectNotFound e then StatusNotFound else StatusInternalServerError, Some (DFs e)))
                | (w, Ok srcInfo) =>
                    let shallow := (depth =? 0) && IsDir srcInfo in
                    match checkDestination dstDir dst overwrite w with
                    | (w, inl a) => (db, w, a)
                    | (w, inr dstExisted) =>
                        finish dstExisted (runDeadPropsFileMutation update commit
                          (copyWithRollback uuid1 uuid2 src dstDir dstName (dstExisted && overwrite) shallow) db w)
                    end
                end
          end
    end.
End Files.
