(* ===== verification/DavFileSpec.v ===== *)
(** COPY and MOVE with rollback: what each step does to the tree of the files,
    whatever fails. *)
From S2P Require Import Prelude GoString GoPath Paths Auth Mounts Objects KeyedCache DirCache OpFs FsTree FsView FsManageSpec DavFile.

(** ** Places of a tree *)
Definition under_ (p k : fpath) : Prop := p `prefix_of` k.

Lemma under_app p x : under_ p (p ++ x).
Proof. by eexists. Qed.

Definition apart_ (p q : fpath) : Prop := ~ p `prefix_of` q /\ ~ q `prefix_of` p.

Lemma apart_comm p q : apart_ p q -> apart_ q p.
Proof. intros []. by split. Qed.

Lemma apart_under p q k : apart_ p q -> under_ p k -> ~ under_ q k.
Proof. intros [H1 H2] Hp Hq. destruct (prefix_weak_total p q k Hp Hq); done. Qed.

Lemma apart_at p q x : apart_ p q -> ~ under_ q (p ++ x).
Proof. intros H. eapply apart_under; [exact H|apply under_app]. Qed.

Lemma apart_here p q : apart_ p q -> ~ under_ q p.
Proof. by intros []. Qed.

(** Two entries of folders are apart when neither folder is at or below the
    other entry. *)
Lemma apart_entries p a q b : ~ (p ++ [a]) `prefix_of` q -> ~ (q ++ [b]) `prefix_of` p -> p ++ [a] <> q ++ [b] ->
  apart_ (p ++ [a]) (q ++ [b]).
Proof.
  intros H1 H2 H3. split; intros [x Hx].
  - destruct x as [|c x _] using rev_ind; [rewrite app_nil_r in Hx; congruence|].
    rewrite (assoc_L (++)) in Hx. apply app_inj_tail in Hx as [-> _]. apply H1. by eexists.
  - destruct x as [|c x _] using rev_ind; [rewrite app_nil_r in Hx; congruence|].
    rewrite (assoc_L (++)) in Hx. apply app_inj_tail in Hx as [-> _]. apply H2. by eexists.
Qed.

(** ** The file system *)

(** A tree with the contents of the files; an error leaves the tree as it was,
    but a copy or a move that fails may leave parts at its place. *)
Class DavTree (W E V : Type) {FS : DavFs W E} := {
  dInv : W -> Prop;
  look : W -> fpath -> option V;
  folder : V;
  dt_wf s p x : dInv s -> p <> [] -> look s p = None -> look s (p ++ x) = None;
  dt_get p s : dInv s -> Forall clean_seg p ->
    let '(s', r) := dGet (mkpath p) s in
    dInv s' /\ (forall k, look s' k = look s k) /\
    match r with
    | Ok o => look s p <> None /\ (IsDir o = true <-> look s p = Some folder)
    | Err e => isObjectNotFound e = true -> look s p = None
    end;
  dt_rename p n m s : dInv s -> Forall clean_seg (p ++ [n]) -> clean_seg m ->
    let '(s', r) := dRename (mkpath (p ++ [n])) m s in
    dInv s' /\
    match r with
    | Ok _ => (forall x, look s' (p ++ [m] ++ x) = look s (p ++ [n] ++ x)) /\
              (n <> m -> forall x, look s' (p ++ [n] ++ x) = None) /\
              (forall k, ~ under_ (p ++ [n]) k -> ~ under_ (p ++ [m]) k -> look s' k = look s k)
    | Err _ => forall k, look s' k = look s k
    end;
  dt_remove p s : dInv s -> Forall clean_seg p ->
    let '(s', r) := dRemove (mkpath p) s in
    dInv s' /\
    match r with
    | Ok _ => (forall x, look s' (p ++ x) = None) /\ forall k, ~ under_ p k -> look s' k = look s k
    | Err _ => forall k, look s' k = look s k
    end;
  dt_makeDir p n s : dInv s -> Forall clean_seg (p ++ [n]) -> look s (p ++ [n]) = None ->
    let '(s', r) := dMakeDir (mkpath (p ++ [n])) s in
    dInv s' /\ (forall k, ~ under_ (p ++ [n]) k -> look s' k = look s k) /\
    match r with
    | Ok _ => look s' (p ++ [n]) = Some folder /\ forall x, x <> [] -> look s' (p ++ [n] ++ x) = None
    | Err _ => True
    end;
  dt_copyTo p q n s : dInv s -> Forall clean_seg p -> Forall clean_seg (q ++ [n]) -> apart_ p (q ++ [n]) ->
    look s (q ++ [n]) = None ->
    let '(s', r) := dCopyTo (mkpath p) (mkpath q) n s in
    dInv s' /\ (forall k, ~ under_ (q ++ [n]) k -> look s' k = look s k) /\
    match r with Ok _ => forall x, look s' (q ++ [n] ++ x) = look s (p ++ x) | Err _ => True end;
  dt_move p n q s : dInv s -> Forall clean_seg (p ++ [n]) -> Forall clean_seg q -> apart_ (p ++ [n]) (q ++ [n]) ->
    look s (q ++ [n]) = None ->
    let '(s', r) := dMove (mkpath (p ++ [n])) (mkpath q) s in
    dInv s' /\ (forall k, ~ under_ (p ++ [n]) k -> ~ under_ (q ++ [n]) k -> look s' k = look s k) /\
    match r with
    | Ok _ => (forall x, look s' (q ++ [n] ++ x) = look s (p ++ [n] ++ x)) /\ forall x, look s' (p ++ [n] ++ x) = None
    | Err _ => True
    end
}.
Arguments folder {W E V FS DavTree}.

Section Steps.
Context {W E V : Type} {FS : DavFs W E} {DT : DavTree W E V}.

Abbreviation Fm := (F (W := W) (E := E)).
Abbreviation result A := (res (dav_error E) A).

Definition fends {A} (m : Fm A) (w : W) (Q : W -> result A -> Prop) : Prop := Q (m w).1 (m w).2.

Lemma fends_mono {A} (m : Fm A) w (Q Q' : W -> result A -> Prop) :
  fends m w Q -> (forall w' r, Q w' r -> Q' w' r) -> fends m w Q'.
Proof. unfold fends. auto. Qed.

Lemma fends_bind {A B} (m : Fm A) (k : A -> Fm B) w (Q : W -> result B -> Prop) :
  fends m w (fun w' r => match r with Ok a => fends (k a) w' Q | Err e => Q w' (Err e) end) -> fends (m ≫= k) w Q.
Proof. unfold fends, mbind, F_bind. by destruct (m w) as [w' [a|e]]. Qed.

Lemma fends_at {A} (m : Fm A) w (Q : W -> result A -> Prop) : fends m w Q -> Q (m w).1 (m w).2.
Proof. done. Qed.

Lemma fends_try {A} (m : Fm A) w (Q : W -> result (result A) -> Prop) :
  fends m w (fun w' r => Q w' (Ok r)) -> fends (ftry m) w Q.
Proof. unfold fends, ftry. by destruct (m w). Qed.

(** The same tree, the same tree outside [R], nothing at [p], a copy. *)
Definition sameTree (s s' : W) : Prop := dInv s' /\ forall k, look s' k = look s k.
Definition sameBut (R : fpath -> Prop) (s s' : W) : Prop := dInv s' /\ forall k, ~ R k -> look s' k = look s k.
Definition gone (p : fpath) (s : W) : Prop := forall x, look s (p ++ x) = None.
Definition copyOf (p : fpath) (s : W) (q : fpath) (s' : W) : Prop := forall x, look s' (q ++ x) = look s (p ++ x).

Lemma sameTree_refl s : dInv s -> sameTree s s.
Proof. by split. Qed.
Lemma sameTree_but R s s' : sameTree s s' -> sameBut R s s'.
Proof. intros [I H]. split; auto. Qed.
Lemma sameBut_refl R s : dInv s -> sameBut R s s.
Proof. by split. Qed.
Lemma sameBut_trans R s1 s2 s3 : sameBut R s1 s2 -> sameBut R s2 s3 -> sameBut R s1 s3.
Proof. intros [_ H1] [I H2]. split; [done|]. intros k Hk. by rewrite H2, H1. Qed.
Lemma sameBut_mono (R R' : fpath -> Prop) s s' : (forall k, R k -> R' k) -> sameBut R s s' -> sameBut R' s s'.
Proof. intros H [I H1]. split; [done|]. intros k Hk. apply H1. auto. Qed.
Lemma sameBut_inv R s s' : sameBut R s s' -> dInv s'.
Proof. by intros []. Qed.

Lemma sameBut_copy (R : fpath -> Prop) p s s' : (forall x, ~ R (p ++ x)) -> sameBut R s s' -> copyOf p s p s'.
Proof. intros H [_ H1] x. by apply H1. Qed.
Lemma copyOf_trans p1 s1 p2 s2 p3 s3 : copyOf p1 s1 p2 s2 -> copyOf p2 s2 p3 s3 -> copyOf p1 s1 p3 s3.
Proof. intros H1 H2 x. by rewrite H2. Qed.
Lemma gone_copy p q s s' : gone p s -> copyOf p s q s' -> gone q s'.
Proof. intros H1 H2 x. by rewrite H2. Qed.
Lemma sameBut_fill (R R' : fpath -> Prop) p s s' : (forall k, R k -> R' k \/ under_ p k) ->
  sameBut R s s' -> copyOf p s p s' -> sameBut R' s s'.
Proof.
  intros HR [I H] C. split; [done|]. intros k Hk. destruct (decide (p `prefix_of` k)) as [[x ->]|Hp]; [apply C|].
  apply H. intros H'. by destruct (HR k H').
Qed.
Lemma gone_gone p s s' : gone p s -> gone p s' -> copyOf p s p s'.
Proof. intros H1 H2 x. by rewrite H1, H2. Qed.
Lemma gone_at p s : dInv s -> p <> [] -> look s p = None -> gone p s.
Proof. intros I Hp H x. by apply dt_wf. Qed.
Lemma gone_here p s : gone p s -> look s p = None.
Proof. intros H. rewrite <- (app_nil_r p). apply H. Qed.

(** ** Steps *)
Abbreviation path := mkpath.

Lemma get_ends p s (Q : W -> result Obj -> Prop) : dInv s -> Forall clean_seg p ->
  (forall s' r, sameTree s s' -> match r with Ok _ => True | Err e => notFoundErr e = true -> look s p = None end -> Q s' r) ->
  fends (fs_ (dGet (path p))) s Q.
Proof.
  intros I Hp HQ. pose proof (dt_get p s I Hp) as L. unfold fends, fs_. destruct (dGet _ s) as [s' r].
  destruct L as (I' & L & Lr). simpl. apply HQ; [by split|]. by destruct r.
Qed.

Lemma remove_ends p s (Q : W -> result unit -> Prop) : dInv s -> Forall clean_seg p ->
  (forall s' r, sameBut (under_ p) s s' -> (is_ok r = true -> gone p s') -> (is_ok r = false -> sameTree s s') -> Q s' r) ->
  fends (fs_ (dRemove (path p))) s Q.
Proof.
  intros I Hp HQ. pose proof (dt_remove p s I Hp) as L. unfold fends, fs_. destruct (dRemove _ s) as [s' r].
  destruct L as (I' & L). simpl. destruct r as [u|e]; apply HQ; try done.
  - split; [done|apply L].
  - intros _ x. apply L.
Qed.

(** Nothing stands at [p], or the tree is the same. *)
Lemma removeIfExists_ends p s : dInv s -> Forall clean_seg p -> p <> [] ->
  fends (removeIfExists (path p)) s (fun s' r =>
    sameBut (under_ p) s s' /\ (is_ok r = true -> gone p s') /\ (is_ok r = false -> sameTree s s')).
Proof.
  intros I Hp Hne. unfold removeIfExists. apply fends_bind, fends_try, get_ends; [done|done|]. intros s1 r1 S1 H1.
  destruct r1 as [o|e].
  - apply remove_ends; [apply S1|done|]. intros s2 r2 S2 H2 H3. split_and!; [|done|].
    + eapply sameBut_trans; [by apply sameTree_but|done].
    + intros Hr. destruct (H3 Hr) as [I2 L2]. split; [done|]. intros k. rewrite L2. apply S1.
  - destruct (notFoundErr e) eqn:He.
    + split_and!; [by apply sameTree_but| |done]. intros _. apply gone_at; [apply S1|done|]. rewrite (proj2 S1). by apply H1.
    + split_and!; [by apply sameTree_but|done|done].
Qed.

Lemma cleanup_ends {A} p e s : dInv s -> Forall clean_seg p -> p <> [] ->
  fends (cleanupAfterFailure (A := A) (path p) e) s (fun s' r => sameBut (under_ p) s s' /\ is_ok r = false).
Proof.
  intros I Hp Hne. unfold cleanupAfterFailure. apply fends_bind, fends_try.
  eapply fends_mono; [by apply removeIfExists_ends|]. intros s' r [S' _]. by destruct r.
Qed.

Lemma rename_ends q n m s (Q : W -> result unit -> Prop) : dInv s -> Forall clean_seg (q ++ [n]) -> clean_seg m -> n <> m ->
  (forall s' r, sameBut (fun k => under_ (q ++ [n]) k \/ under_ (q ++ [m]) k) s s' ->
     (is_ok r = true -> copyOf (q ++ [n]) s (q ++ [m]) s' /\ gone (q ++ [n]) s') ->
     (is_ok r = false -> sameTree s s') -> Q s' r) ->
  fends (fs_ (dRename (path (q ++ [n])) m)) s Q.
Proof.
  intros I Hp Hm Hne HQ. pose proof (dt_rename q n m s I Hp Hm) as L. unfold fends, fs_. destruct (dRename _ _ s) as [s' r].
  destruct L as (I' & L). simpl. destruct r as [u|e]; apply HQ; try done.
  - split; [done|]. intros k Hk. apply L; intros H; apply Hk; auto.
  - intros _. destruct L as (L1 & L2 & _). split; intros x; rewrite <- !(assoc_L (++)); [by apply L1|by apply L2].
Qed.

Lemma copyTo_ends p q n s (Q : W -> result unit -> Prop) : dInv s -> Forall clean_seg p -> Forall clean_seg (q ++ [n]) ->
  apart_ p (q ++ [n]) -> look s (q ++ [n]) = None ->
  (forall s' r, sameBut (under_ (q ++ [n])) s s' -> (is_ok r = true -> copyOf p s (q ++ [n]) s') -> Q s' r) ->
  fends (fs_ (dCopyTo (path p) (path q) n)) s Q.
Proof.
  intros I Hp Hq Ha Hn HQ. pose proof (dt_copyTo p q n s I Hp Hq Ha Hn) as L. unfold fends, fs_. destruct (dCopyTo _ _ _ s) as [s' r].
  destruct L as (I' & L & Lr). simpl. apply HQ; [by split|]. destruct r; [|done]. intros _ x. rewrite <- (assoc_L (++)). apply Lr.
Qed.

Lemma moveTo_ends p n q s (Q : W -> result unit -> Prop) : dInv s -> Forall clean_seg (p ++ [n]) -> Forall clean_seg q ->
  apart_ (p ++ [n]) (q ++ [n]) -> look s (q ++ [n]) = None ->
  (forall s' r, sameBut (fun k => under_ (p ++ [n]) k \/ under_ (q ++ [n]) k) s s' ->
     (is_ok r = true -> copyOf (p ++ [n]) s (q ++ [n]) s' /\ gone (p ++ [n]) s') -> Q s' r) ->
  fends (fs_ (dMove (path (p ++ [n])) (path q))) s Q.
Proof.
  intros I Hp Hq Ha Hn HQ. pose proof (dt_move p n q s I Hp Hq Ha Hn) as L. unfold fends, fs_. destruct (dMove _ _ s) as [s' r].
  destruct L as (I' & L & Lr). simpl. apply HQ.
  - split; [done|]. intros k Hk. apply L; intros H; apply Hk; auto.
  - destruct r; [|done]. intros _. destruct Lr as [L1 L2]. split; intros x; rewrite <- !(assoc_L (++)); [apply L1|apply L2].
Qed.

Lemma entries_apart (q : fpath) n m : n <> m -> apart_ (q ++ [n]) (q ++ [m]).
Proof.
  intros Hne. split; intros [x Hx]; rewrite <- (assoc_L (++)) in Hx; apply app_inv_head in Hx; by injection Hx.
Qed.

Lemma snoc_ne (q : fpath) n : q ++ [n] <> [].
Proof. by destruct q. Qed.

(** ** Backups *)
Section Backup.
Context (q : fpath) (n uuid : gostr).
Abbreviation o := (q ++ [n]).
Abbreviation u := (backupPrefix ++ uuid).
Abbreviation b := (q ++ [u]).
Context (Hq : Forall clean_seg q) (Hn : clean_seg n) (Hu : clean_seg u) (Hnu : n <> u).

Lemma Ho_clean : Forall clean_seg o.
Proof. by apply clean_snoc. Qed.
Lemma Hb_clean : Forall clean_seg b.
Proof. by apply clean_snoc. Qed.

Lemma dir_o : path_Dir (path o) = path q.
Proof. rewrite path_Dir_mkpath by apply Ho_clean. by rewrite parentOf_snoc. Qed.

Lemma base_o : path_Base (path o) = n.
Proof. apply path_Base_snoc, Hn. Qed.
Lemma base_b : path_Base (path b) = u.
Proof. apply path_Base_snoc, Hu. Qed.
Lemma join_b : path_join2 (path q) u = path b.
Proof. apply path_join2_snoc; [by apply clean_good|apply Hu]. Qed.

Lemma o_b : apart_ o b.
Proof. by apply entries_apart. Qed.

(** The backup: the object has moved there, or a copy of it is there. *)
Lemma newFileBackup_ends keep s : dInv s -> look s b = None ->
  fends (newFileBackup uuid (path o) keep) s (fun s' r =>
    match r with
    | Ok bk => bk = mkBackup (path o) (path b) (renamed bk) /\ copyOf o s b s' /\
        (if renamed bk then keep = false /\ sameBut (fun k => under_ o k \/ under_ b k) s s' /\ gone o s'
         else sameBut (under_ b) s s')
    | Err _ => sameBut (under_ b) s s'
    end).
Proof.
  intros I Hb. unfold newFileBackup. rewrite dir_o, join_b, base_b.
  assert (Hcopy : forall s1, sameTree s s1 ->
    fends (r ← ftry (fs_ (dCopyTo (path o) (path q) u));
           match r with
           | Ok _ => mret (mkBackup (path o) (path b) false)
           | Err e => cleanupAfterFailure (path b) e
           end) s1 (fun s' r =>
      match r with
      | Ok bk => bk = mkBackup (path o) (path b) (renamed bk) /\ copyOf o s b s' /\
          (if renamed bk then keep = false /\ sameBut (fun k => under_ o k \/ under_ b k) s s' /\ gone o s'
           else sameBut (under_ b) s s')
      | Err _ => sameBut (under_ b) s s'
      end)).
  { intros s1 S1. pose proof (sameTree_but (under_ b) _ _ S1) as B1. apply fends_bind, fends_try, copyTo_ends.
    - apply S1.
    - apply Ho_clean.
    - apply Hb_clean.
    - apply o_b.
    - by rewrite (proj2 S1).
    - intros s2 r2 B2 C2. destruct r2 as [t|e].
      + unfold fends. simpl. split_and!; [done| |by eapply sameBut_trans]. intros x. rewrite C2 by done. apply S1.
      + eapply fends_mono; [apply cleanup_ends; [by eapply sameBut_inv|apply Hb_clean|apply snoc_ne]|].
        intros s3 r3 [B3 Hr]. destruct r3; [done|]. eapply sameBut_trans; [done|by eapply sameBut_trans]. }
  apply fends_bind. destruct keep.
  - unfold fends at 1. simpl. apply Hcopy. by apply sameTree_refl.
  - apply fends_bind, fends_try, rename_ends; [done|apply Ho_clean|done|done|]. intros s1 r1 B1 G1 T1. destruct r1 as [t|e].
    + destruct (G1 eq_refl) as [C G]. unfold fends. simpl. by split_and!.
    + specialize (T1 eq_refl). destruct (notImplErr e); [by apply Hcopy|by apply sameTree_but].
Qed.

(** The object as it was when the backup was made, or the backup is still there. *)
Lemma restore_ends ren s : dInv s ->
  fends (restore (Some (mkBackup (path o) (path b) ren))) s (fun s' r =>
    match r with
    | Ok _ => sameBut (fun k => under_ o k \/ under_ b k) s s' /\ copyOf b s o s'
    | Err _ => sameBut (under_ o) s s'
    end).
Proof.
  intros I. unfold restore. cbn [originalPath backupPath renamed]. apply fends_bind. eapply fends_mono; [apply removeIfExists_ends; [done|apply Ho_clean|apply snoc_ne]|].
  intros s1 r1 (B1 & G1 & _). destruct r1 as [t|e]; [|done]. specialize (G1 eq_refl).
  assert (I1 : dInv s1) by (by eapply sameBut_inv).
  assert (Cb : copyOf b s b s1) by (eapply sameBut_copy; [|exact B1]; intros x; apply apart_at, apart_comm, o_b).
  assert (B1' : sameBut (fun k => under_ o k \/ under_ b k) s s1) by (eapply sameBut_mono; [|exact B1]; auto).
  rewrite base_o. destruct ren.
  - apply rename_ends; [done|apply Hb_clean|done|done|]. intros s2 r2 B2 C2 T2. destruct r2 as [t2|e].
    + destruct (C2 eq_refl) as [C _]. split; [|by eapply copyOf_trans]. eapply sameBut_trans; [exact B1'|].
      eapply sameBut_mono; [|exact B2]. intros k [?|?]; auto.
    + eapply sameBut_trans; [exact B1|]. by apply sameTree_but, T2.
  - rewrite dir_o. apply fends_bind, copyTo_ends; [done|apply Hb_clean|apply Ho_clean|apply apart_comm, o_b|by apply gone_here|].
    intros s2 r2 B2 C2. destruct r2 as [t2|e]; [|by eapply sameBut_trans]. specialize (C2 eq_refl).
    assert (I2 : dInv s2) by (by eapply sameBut_inv).
    apply fends_bind, fends_try, remove_ends; [done|apply Hb_clean|]. intros s3 r3 B3 _ _. unfold fends. simpl. split.
    + eapply sameBut_trans; [exact B1'|]. eapply sameBut_trans; [eapply sameBut_mono; [|exact B2]; auto|].
      eapply sameBut_mono; [|exact B3]; auto.
    + eapply copyOf_trans; [exact Cb|]. eapply copyOf_trans; [exact C2|]. eapply sameBut_copy; [|exact B3].
      intros x. apply apart_at, o_b.
Qed.

(** With the old object of [s0] in the backup, it is at its place or still in
    the backup afterwards. *)
Lemma putBack_ends s0 ren s : dInv s -> copyOf o s0 b s ->
  fends (restore (Some (mkBackup (path o) (path b) ren))) s (fun s' r =>
    sameBut (fun k => under_ o k \/ under_ b k) s s' /\ (copyOf o s0 o s' \/ copyOf o s0 b s') /\ (is_ok r = true -> copyOf o s0 o s')).
Proof.
  intros I C. eapply fends_mono; [by apply restore_ends|]. intros s' r L. destruct r as [t|e].
  - destruct L as [B C']. assert (copyOf o s0 o s') by (by eapply copyOf_trans). auto.
  - split_and!; [eapply sameBut_mono; [|exact L]; auto| |done]. right. eapply copyOf_trans; [exact C|].
    eapply sameBut_copy; [|exact L]. intros x. apply apart_at, apart_comm, o_b.
Qed.

Lemma discard_ends ren s : dInv s -> fends (discard (Some (mkBackup (path o) (path b) ren))) s (fun s' r =>
  sameBut (under_ b) s s' /\ is_ok r = true).
Proof.
  intros I. unfold discard. cbn [backupPath]. apply fends_bind, fends_try. eapply fends_mono; [apply removeIfExists_ends; [done|apply Hb_clean|apply snoc_ne]|].
  intros s1 r1 (B1 & _). by unfold fends.
Qed.
End Backup.

(** ** The steps of a rollback *)
Lemma collect_cons (m : Fm unit) l s (Q : W -> result (list (dav_error E)) -> Prop) :
  fends m s (fun s1 r1 => fends (collect l) s1 (fun s' r =>
    Q s' (match r with Ok errs => Ok (match r1 with Ok _ => errs | Err e => e :: errs end) | Err e => Err e end))) ->
  fends (collect (m :: l)) s Q.
Proof.
  unfold fends. cbn [collect]. unfold mbind, F_bind, ftry, mret, F_ret. destruct (m s) as [s1 r1]. simpl.
  by destruct (collect l s1) as [s' [errs|e]].
Qed.

Lemma collect_nil s (Q : W -> result (list (dav_error E)) -> Prop) : Q s (Ok []) -> fends (collect []) s Q.
Proof. done. Qed.

(** ** The transaction *)

Definition uncompensated (r : result unit) : bool := match r with Err (DCompensation _ _) => true | _ => false end.

(** The database was not asked for the files, the operation succeeded, or it
    failed and was rolled back. *)
Lemma transaction_ends {DB : Type} (update : DB -> option DB) commit (apply : W -> applied (W := W) (E := E)) db s
    (Q : DB -> W -> result unit -> Prop) :
  (update db = None -> Q db s (Err DDatabase)) ->
  (forall db' s1 m r1, update db = Some db' -> apply s = (s1, (m, r1)) ->
     (is_ok r1 = true -> Q db' (match m with Some m => (finalize m s1).1 | None => s1 end) (Ok tt)) /\
     (forall r, is_ok r = false ->
        match m with
        | None => Q db s1 r
        | Some m => fends (rollback m) s1 (fun s2 x =>
            exists errs, x = Ok errs /\ (errs = [] \/ uncompensated r = true -> Q db s2 r))
        end)) ->
  let '(db', s', r) := runDeadPropsFileMutation update commit apply db s in Q db' s' r.
Proof.
  intros H0 H1. unfold runDeadPropsFileMutation. destruct (update db) as [db'|]; [|by apply H0].
  destruct (apply s) as [s1 [m r1]]. destruct (H1 _ _ _ _ eq_refl eq_refl) as [HO HE].
  assert (L : forall e, let '(db', s', r) := match m with
      | None => (db, s1, Err e)
      | Some m => match rollback m s1 with
          | (w, Ok (x :: errs)) => (db, w, Err (DCompensation e (x :: errs)))
          | (w, _) => (db, w, Err e)
          end
      end in Q db' s' r).
  { intros e. destruct m as [m|]; [|by apply HE].
    pose proof (HE (Err e) eq_refl) as H2. pose proof (fun l => HE (Err (DCompensation e l)) eq_refl) as H3.
    unfold fends in *. destruct (rollback m s1) as [s2 [[|x errs]|e']]; cbn in *.
    - destruct H2 as (? & [= <-] & H2). apply H2. by left.
    - destruct (H3 (x :: errs)) as (? & [= <-] & H4). apply H4. by right.
    - by destruct H2 as (? & ? & _). }
  destruct r1 as [[]|e]; [|apply L]. destruct commit; [by apply HO|apply L].
Qed.

(** ** The checks of a request *)

Lemma get_same p s : dInv s -> Forall clean_seg p ->
  let '(s', r) := dGet (path p) s in sameTree s s' /\
    match r with
    | Ok o => look s p <> None /\ (IsDir o = true <-> look s p = Some folder)
    | Err e => isObjectNotFound e = true -> look s p = None
    end.
Proof. intros I Hp. pose proof (dt_get p s I Hp) as L. destruct (dGet _ s). split; [split|]; apply L. Qed.

Lemma sameTree_trans s1 s2 s3 : sameTree s1 s2 -> sameTree s2 s3 -> sameTree s1 s3.
Proof. intros [_ H1] [I H2]. split; [done|]. intros k. by rewrite H2. Qed.

(** Created or no content *)
Definition succeeded (a : answer (E := E)) : bool := (a.1 =? StatusCreated) || (a.1 =? StatusNoContent).

Lemma checkDestination_ends q p overwrite s : dInv s -> Forall clean_seg q -> Forall clean_seg p ->
  let '(s', x) := checkDestination (path q) (path p) overwrite s in sameTree s s' /\
    match x with
    | inl a => succeeded a = false
    | inr ex => (if ex then look s p <> None /\ overwrite = true else look s p = None)
    end.
Proof.
  intros I Hq Hp. unfold checkDestination. pose proof (get_same q s I Hq) as L. destruct (dGet _ s) as [s1 [o|e]]; destruct L as [S1 L].
  2:{ split; [done|]. by destruct (isObjectNotFound e). }
  destruct (negb (IsDir o)); [done|]. pose proof (get_same p s1 (proj1 S1) Hp) as L2.
  destruct (dGet _ s1) as [s2 [o2|e2]]; destruct L2 as [S2 L2]; rewrite (proj2 S1) in L2.
  - split; [by eapply sameTree_trans|]. destruct overwrite; [split; [apply L2|done]|done].
  - split; [by eapply sameTree_trans|]. destruct (isObjectNotFound e2); [by apply L2|done].
Qed.
Lemma sameBut_same (R : fpath -> Prop) s s1 s' : sameTree s s1 -> sameBut R s1 s' -> sameBut R s s'.
Proof. intros S B. eapply sameBut_trans; [by apply sameTree_but|exact B]. Qed.

Lemma copyOf_same p q s s1 s' : sameTree s s1 -> copyOf p s1 q s' -> copyOf p s q s'.
Proof. intros [_ H] C x. by rewrite C. Qed.

Definition unrestored (a : answer (E := E)) : bool := match a.2 with Some (DCompensation _ _) => true | _ => false end.

Lemma finish_ends {DB : Type} ex (x : DB * W * result unit) :
  let '(db, w, a) := finish ex x in
  x.1 = (db, w) /\ succeeded a = is_ok x.2 /\ unrestored a = uncompensated x.2 /\
  (is_ok x.2 = true -> a.1 = if ex then StatusNoContent else StatusCreated).
Proof. destruct x as [[db w] [t|e]]; simpl; [by destruct ex|]. by destruct e. Qed.
End Steps.
