(* ===== verification/DavMem.v ===== *)
(** A tree in memory on which every change can be made to fail: it shows that the
    laws of [DavTree] can hold, and runs COPY and MOVE with a failing step. *)
From S2P Require Import Prelude GoString GoPath Paths Auth Mounts Objects KeyedCache DirCache OpFs FsTree OpFsMem FsView FsManageSpec.
From S2P Require Import DavFile DavFileSpec.

Inductive memErr := Missing | Unsupported | Fault.
#[export] Instance memErr_dec : EqDecision memErr.
Proof. solve_decision. Defined.

(** The tree, and what the next changes are answered, [None] for done. *)
Abbreviation memDav := (ftree * list (option memErr))%type.

Definition changing (f : ftree -> option ftree) (w : memDav) : memDav * res memErr unit :=
  let '(t, l) := w in
  match l with
  | Some e :: l => ((t, l), Err e)
  | l => match f t with Some t' => ((t', tail l), Ok tt) | None => ((t, tail l), Err Missing) end
  end.

Definition lookAt (w : memDav) (p : fpath) : option bool := match p with [] => Some true | _ => w.1 !! p end.

(** Into the place [q ++ [n]], which is free. *)
Definition place (p q : fpath) (n : gostr) (move : bool) (t : ftree) : option ftree :=
  if decide (is_Some (t !! p) /\ memFree t q n /\ ~ p `prefix_of` (q ++ [n]))
  then Some ((if move then treeMove else treeCopy) t p (q ++ [n])) else None.

#[export] Instance memDavFs : DavFs memDav memErr := {|
  dGet p w := (w, match lookAt w (norm_segs p) with Some b => Ok (memObj (norm_segs p) b) | None => Err Missing end);
  dRename p m := changing (fun t =>
    let p := norm_segs p in
    if decide (p = memParent p ++ [m]) then (if decide (is_Some (t !! p)) then Some t else None)
    else place p (memParent p) m true t);
  dRemove p := changing (fun t => if decide (is_Some (t !! norm_segs p)) then Some (treeRemove t (norm_segs p)) else None);
  dMakeDir p := changing (fun t =>
    let p := norm_segs p in
    let q := memParent p in
    let n := default [] (last p) in
    if decide (memFree t q n) then Some (<[q ++ [n] := true]> t) else None);
  dCopyTo p q n := changing (place (norm_segs p) (norm_segs q) n false);
  dMove p q := changing (place (norm_segs p) (norm_segs q) (default [] (last (norm_segs p))) true);
  isObjectNotFound e := bool_decide (e = Missing);
  isNotImplemented e := bool_decide (e = Unsupported)
|}.

Lemma look_snoc w q n x : lookAt w (q ++ n :: x) = w.1 !! (q ++ n :: x).
Proof. by destruct q. Qed.

Lemma changing_ends (f : ftree -> option ftree) (w : memDav) (Q : memDav -> res memErr unit -> Prop) :
  (forall l e, Q (w.1, l) (Err e)) -> (forall t l, f w.1 = Some t -> Q (t, l) (Ok tt)) ->
  let '(w', r) := changing f w in Q w' r.
Proof.
  intros H1 H2. destruct w as [t l]. unfold changing. destruct l as [|[e|] l]; [|apply H1|]; simpl in *.
  - destruct (f t) eqn:E; [by apply H2|apply H1].
  - destruct (f t) eqn:E; [by apply H2|apply H1].
Qed.

Lemma place_spec p q n move t t' : wfTree t -> p <> [] -> place p q n move t = Some t' ->
  wfTree t' /\ t !! (q ++ [n]) = None /\ (forall x, t' !! (q ++ [n] ++ x) = t !! (p ++ x)) /\
  (forall k, ~ under_ p k -> ~ under_ (q ++ [n]) k -> t' !! k = t !! k) /\
  if move then forall x, t' !! (p ++ x) = None else forall k, ~ under_ (q ++ [n]) k -> t' !! k = t !! k.
Proof.
  intros Wt Hp. unfold place. destruct (decide _) as [(Hs & (Hd & Hn & Hc) & Hpq)|]; [|done].
  assert (Hcopy : forall x, treeCopy t p (q ++ [n]) !! (q ++ [n] ++ x) = t !! (p ++ x)).
  { intros x. rewrite (assoc_L (++)), treeCopy_under. destruct (t !! (p ++ x)); [done|]. by apply wf_absent; [|apply snoc_ne|]. }
  destruct move; intros [= <-].
  - split_and!; [by apply treeMove_wf|done| |intros k ??; by apply treeMove_other|apply treeRemove_under].
    intros x. unfold treeMove. rewrite treeRemove_other; [apply Hcopy|]. intros H.
    destruct (prefix_weak_total p (q ++ [n]) (q ++ [n] ++ x) H) as [H'|[y ->]]; [exists x; by rewrite (assoc_L (++))|done|].
    rewrite wf_absent in Hs; [by destruct Hs|done|apply snoc_ne|done].
  - split_and!; [by apply treeCopy_wf|done|done|intros k ??; by apply treeCopy_other|intros k ?; by apply treeCopy_other].
Qed.

Ltac davRed := cbn -[norm_segs lookAt place memFree memObj changing memParent mkpath under_].

#[export, refine] Instance memDavTree : DavTree memDav memErr bool := {| dInv w := wfTree w.1; look := lookAt; folder := true |}.
Proof.
  - intros s p x Wt Hp. destruct p as [|n p]; [done|]. intros H. exact (wf_absent _ Wt (n :: p) x Hp H).
  - intros p s Wt Hp. davRed. rewrite norm_segs_mkpath by done. destruct (lookAt s p) as [b|] eqn:E; [|by split_and!].
    split_and!; [done..|]. by destruct b.
  - intros p n m s Wt Hp Hm. davRed. rewrite norm_segs_mkpath by done. rewrite memParent_snoc. apply changing_ends; [by intros|].
    intros t l H. destruct (decide (p ++ [n] = p ++ [m])) as [[_ ->]%app_inj_tail|Hne].
    + destruct (decide _); [|done]. injection H as <-. split_and!; try done.
    + apply place_spec in H as (W' & Hf & Hc & Ho & Hg); [|done|apply snoc_ne]. split_and!; [done| | |].
      * intros x. rewrite !look_snoc. pose proof (Hc x) as H. rewrite <- (assoc_L (++)) in H. exact H.
      * intros _ x. rewrite look_snoc. pose proof (Hg x) as H. by rewrite <- (assoc_L (++)) in H.
      * intros k H1 H2. destruct k as [|k0 k]; [done|]. by apply Ho.
  - intros p s Wt Hp. davRed. rewrite norm_segs_mkpath by done. apply changing_ends; [by intros|].
    intros t l H. destruct (decide (is_Some _)) as [Hs|]; [|done]. injection H as <-. split_and!; [by apply treeRemove_wf| |].
    + intros x. destruct p as [|k p]; [by apply (wf_clean _ Wt) in Hs as [? _] || (destruct Hs as [b Hb]; by apply (wf_clean _ Wt) in Hb as [? _])|].
      cbn. apply (treeRemove_under s.1 (k :: p)).
    + intros k Hk. destruct k as [|k0 k]; [done|]. by apply treeRemove_other.
  - intros p n s Wt Hp Hn. davRed. rewrite norm_segs_mkpath by done. rewrite memParent_snoc, last_snoc. davRed. apply changing_ends; [by intros|].
    intros t l H. destruct (decide _) as [(Hd & Hf & Hc)|]; [|done]. injection H as <-. split_and!.
    + by apply treeInsert_wf.
    + intros k Hk. destruct k as [|k0 k]; [done|]. cbn. apply lookup_insert_ne. intros E. apply Hk. by rewrite E.
    + rewrite look_snoc. apply lookup_insert_eq.
    + intros x Hx. rewrite look_snoc. cbn. rewrite lookup_insert_ne.
      * change (p ++ n :: x) with (p ++ [n] ++ x).
        rewrite (assoc_L (++)). by apply wf_absent; [|apply snoc_ne|].
      * intros E. apply app_inv_head in E. injection E as E. by apply Hx.
  - intros p q n s Wt Hp Hq Ha Hn. davRed. apply clean_parent in Hq as Hq'. rewrite memParent_snoc in Hq'. rewrite !norm_segs_mkpath by done.
    apply changing_ends; [by intros|]. intros t l H.
    apply place_spec in H as (W' & Hf & Hc & Ho & Hg); [|done|]. 2:{ intros ->. apply (proj1 Ha). apply prefix_nil. }
    split_and!; [done| |].
    + intros k Hk. destruct k as [|k0 k]; [done|]. by apply Hg.
    + intros x. rewrite look_snoc. pose proof (Hc x) as H. destruct p as [|k p]; [by destruct (proj1 Ha (prefix_nil _))|exact H].
  - intros p n q s Wt Hp Hq Ha Hn. davRed. rewrite !norm_segs_mkpath by done. rewrite last_snoc. davRed.
    apply changing_ends; [by intros|]. intros t l H.
    apply place_spec in H as (W' & Hf & Hc & Ho & Hg); [|done|apply snoc_ne]. split_and!; [done| | |].
    + intros k H1 H2. destruct k as [|k0 k]; [done|]. by apply Ho.
    + intros x. rewrite !look_snoc. pose proof (Hc x) as H. rewrite <- (assoc_L (++)) in H. exact H.
    + intros x. rewrite look_snoc. pose proof (Hg x) as H. by rewrite <- (assoc_L (++)) in H.
Defined.

(** ** The data of the examples *)

(** /a with the file f; /b with the folder a, in which there is the file g, and
    the file x *)
Definition davTree : ftree :=
  <[strs ["b"] ++ [("x" : gostr)] := false]> (<[strs ["b"; "a"] ++ [("g" : gostr)] := false]> (<[strs ["b"] ++ [("a" : gostr)] := true]>
  (<[strs [] ++ [("b" : gostr)] := true]> (<[strs ["a"] ++ [("f" : gostr)] := false]> (<[strs [] ++ [("a" : gostr)] := true]> ∅))))).

Lemma davTree_wf : wfTree davTree.
Proof.
  assert (wfTree ∅) as W by (split; [intros p b H|intros p n b H]; by rewrite lookup_empty in H).
  unfold davTree. repeat apply treeInsert_wf; try done; try (by left); try (right; vm_compute; reflexivity);
    try (vm_compute; intros [=]); apply (bool_decide_eq_true_1 (clean_seg _)); vm_compute; reflexivity.
Qed.

Definition davUser : User := mkUser 7 GENERAL "/" 65535 [] [].

Lemma clean_strs (l : fpath) : bool_decide (Forall clean_seg l) = true -> Forall clean_seg l.
Proof. apply bool_decide_eq_true_1. Qed.
