(* ===== verification/DavCopy.v ===== *)
(** WebDAV COPY: a request that is answered with an error has not changed the
    destination, whatever step failed, unless the rollback failed too; then
    the old object is at its place or in the backup. *)
From S2P Require Import Prelude GoString GoPath Paths Auth Mounts Objects KeyedCache DirCache OpFs FsTree FsView FsManageSpec.
From S2P Require Import DavFile DavFileSpec DavMem.

Section Spec.
Context {W E V : Type} {FS : DavFs W E} {DT : DavTree W E V}.

Abbreviation Fm := (F (W := W) (E := E)).
Abbreviation result A := (res (dav_error E) A).
Abbreviation path := mkpath.

(** ** COPY *)
Section Copy.
Context (src q : fpath) (n uuid1 uuid2 : gostr) (shallow ex : bool) (s0 : W).
Abbreviation o := (q ++ [n]).
Abbreviation su := (stagePrefix ++ uuid1).
Abbreviation bu := (backupPrefix ++ uuid2).
Abbreviation st := (q ++ [su]).
Abbreviation b := (q ++ [bu]).

(** The names of the staging object and of the backup are fresh, the source and
    the destination are apart. *)
Record copyReady : Prop := {
  cr_inv : dInv s0;
  cr_src : Forall clean_seg src;
  cr_dst : Forall clean_seg q /\ clean_seg n;
  cr_names : clean_seg su /\ clean_seg bu /\ n <> su /\ n <> bu;
  cr_apart : apart_ src o;
  cr_fresh : su ∉ src /\ bu ∉ src;
  cr_free : look s0 st = None /\ look s0 b = None
}.
Context (CR : copyReady) (Hnew : ex = false -> look s0 o = None).

Lemma su_bu : su <> bu.
Proof. intros H. apply (f_equal (take 11)) in H. unfold stagePrefix, backupPrefix in H. rewrite !take_app_le in H by (vm_compute; lia). vm_compute in H. discriminate. Qed.

Lemma fresh_apart m : m ∉ src -> apart_ src (q ++ [m]).
Proof.
  intros Hm. destruct (cr_apart CR) as [H1 _]. split.
  - intros [x Hx]. destruct x as [|c x _] using rev_ind.
    + rewrite app_nil_r in Hx. apply Hm. rewrite <- Hx. apply elem_of_app. right. by left.
    + rewrite (assoc_L (++)) in Hx. apply app_inj_tail in Hx as [-> _]. apply H1. exists (x ++ [n]). by rewrite (assoc_L (++)).
  - intros [x Hx]. apply Hm. rewrite Hx. rewrite !elem_of_app. left. right. by left.
Qed.

Definition region3 (k : fpath) : Prop := under_ o k \/ under_ st k \/ under_ b k.

(** What a copy makes *)
Definition made (s : W) : Prop :=
  if shallow then look s o = Some folder /\ forall x, x <> [] -> look s (o ++ x) = None else copyOf src s0 o s.
Definition staged (s : W) : Prop :=
  if shallow then look s st = Some folder /\ forall x, x <> [] -> look s (st ++ x) = None else copyOf src s0 st s.

Lemma staged_made s s' : staged s -> copyOf st s o s' -> made s'.
Proof.
  unfold staged, made. destruct shallow.
  - intros [H1 H2] C. split.
    + pose proof (C []) as C0. rewrite !app_nil_r in C0. by rewrite C0.
    + intros x Hx. rewrite C. by apply H2.
  - intros H C. by eapply copyOf_trans.
Qed.

Lemma staged_keep s s' (R : fpath -> Prop) : (forall x, ~ R (st ++ x)) -> sameBut R s s' -> staged s -> staged s'.
Proof.
  intros Hr [_ Hk]. unfold staged. destruct shallow.
  - intros [H1 H2]. split; [|intros x Hx; rewrite Hk by apply Hr; by apply H2].
    rewrite <- H1. apply Hk. rewrite <- (app_nil_r st). apply Hr.
  - intros H x. rewrite Hk by apply Hr. apply H.
Qed.

(** The old object is at its place or in the backup. *)
Definition heldDst (s : W) : Prop := copyOf o s0 o s \/ copyOf o s0 b s.

Definition backupOf (ren : bool) : option fileBackup := if ex then Some (mkBackup (path o) (path b) ren) else None.

Definition copyPost (s : W) (m : option fileMutation) (r : result unit) : Prop :=
  sameBut region3 s0 s /\
  match m with
  | None => is_ok r = false /\ sameBut (fun k => under_ st k \/ under_ b k) s0 s
  | Some m => (exists ren, m = copyMutation (path o) (path st) (backupOf ren)) /\
      (ex = true -> copyOf o s0 b s) /\ (is_ok r = true -> made s)
  end.

Lemma q_clean : Forall clean_seg q.
Proof. apply (cr_dst CR). Qed.
Lemma o_clean : Forall clean_seg o.
Proof. apply clean_snoc; apply (cr_dst CR). Qed.
Lemma st_clean : Forall clean_seg st.
Proof. apply clean_snoc; [apply (cr_dst CR)|apply (cr_names CR)]. Qed.
Lemma b_clean : Forall clean_seg b.
Proof. apply clean_snoc; [apply (cr_dst CR)|apply (cr_names CR)]. Qed.

Lemma o_st : apart_ o st.
Proof. apply entries_apart, (cr_names CR). Qed.
Lemma o_b' : apart_ o b.
Proof. apply entries_apart, (cr_names CR). Qed.
Lemma st_b : apart_ st b.
Proof. apply entries_apart, su_bu. Qed.

(** The staging object is made. *)
Lemma stage_ends :
  fends (if shallow then fs_ (dMakeDir (path st)) else fs_ (dCopyTo (path src) (path q) su)) s0 (fun s r =>
    sameBut (under_ st) s0 s /\ (is_ok r = true -> staged s)).
Proof.
  destruct CR as [I Hsrc [Hq Hn] (Hs & Hb & _) Ha [Hf1 Hf2] [Hn1 Hn2]]. unfold staged. destruct shallow.
  - pose proof (dt_makeDir q su s0 I st_clean Hn1) as L. unfold fends, fs_. destruct (dMakeDir _ _) as [s r].
    destruct L as (I' & L & Lr). simpl. split; [by split|]. destruct r; [|done]. intros _. destruct Lr as [L1 L2].
    split; [done|]. intros x Hx. rewrite <- (assoc_L (++)). by apply L2.
  - apply copyTo_ends; [done|done|apply st_clean|by apply fresh_apart|done|]. intros s r B C. by split.
Qed.

Lemma install_ends s : dInv s -> staged s -> gone o s ->
  fends (installStagedObject (path st) (path q) n) s (fun s' r =>
    sameBut (fun k => under_ o k \/ under_ st k) s s' /\ (is_ok r = true -> made s')).
Proof.
  intros I Hst Hg. unfold installStagedObject. apply fends_bind, fends_try.
  apply rename_ends; [done|apply st_clean|apply (cr_dst CR)|intros H; by destruct (cr_names CR) as (_ & _ & ? & _)|].
  intros s1 r1 B1 C1 T1. assert (B1' : sameBut (fun k => under_ o k \/ under_ st k) s s1).
  { eapply sameBut_mono; [|exact B1]. intros k [?|?]; auto. }
  destruct r1 as [t|e].
  - destruct (C1 eq_refl) as [C _]. unfold fends. simpl. split; [done|]. intros _. by eapply staged_made.
  - specialize (T1 eq_refl). destruct (notImplErr e); [|by split].
    assert (I1 : dInv s1) by apply T1.
    assert (Hst1 : staged s1) by (eapply (staged_keep s s1 (fun _ => False)); [by auto|by apply sameTree_but|done]).
    apply fends_bind, copyTo_ends; [done|apply st_clean|apply o_clean|apply apart_comm, o_st|rewrite (proj2 T1); by apply gone_here|].
    intros s2 r2 B2 C2. assert (B2' : sameBut (fun k => under_ o k \/ under_ st k) s s2).
    { eapply sameBut_trans; [exact B1'|]. eapply sameBut_mono; [|exact B2]. auto. }
    destruct r2 as [t|e2]; [|by split]. pose proof (staged_made s1 s2 Hst1 (C2 eq_refl)) as Hm.
    apply fends_bind, fends_try, remove_ends; [by eapply sameBut_inv|apply st_clean|]. intros s3 r3 B3 _ _. unfold fends. simpl. split.
    + eapply sameBut_trans; [exact B2'|]. eapply sameBut_mono; [|exact B3]. auto.
    + intros _. assert (Hk : forall x, look s3 (o ++ x) = look s2 (o ++ x)).
      { intros x. apply B3. apply apart_at, o_st. }
      unfold made in *. destruct shallow; [|intros x; rewrite Hk; apply Hm]. destruct Hm as [M1 M2]. split.
      * pose proof (Hk []) as H0. rewrite !app_nil_r in H0. by rewrite H0.
      * intros x Hx. rewrite Hk. by apply M2.
Qed.

(** Up to the point where the old object may have to be put back. *)
Definition prepareCopy : Fm (option fileBackup) :=
  r ← ftry (if shallow then fs_ (dMakeDir (path st)) else fs_ (dCopyTo (path src) (path q) su));
  match r with
  | Err e => cleanupAfterFailure (path st) e
  | Ok _ =>
      if ex then
        r ← ftry (newFileBackup uuid2 (path o) false);
        match r with
        | Err e => cleanupAfterFailure (path st) e
        | Ok b => mret (Some b)
        end
      else mret None
  end.

Definition apartPart (k : fpath) : Prop := under_ st k \/ under_ b k.

Lemma apartPart_region k : apartPart k -> region3 k.
Proof. intros [?|?]; unfold region3; auto. Qed.

Lemma cleanup_stage {A} e s (Q : W -> result A -> Prop) : sameBut apartPart s0 s ->
  (forall s' r, sameBut apartPart s0 s' -> is_ok r = false -> Q s' r) -> fends (cleanupAfterFailure (path st) e) s Q.
Proof.
  intros S HQ. eapply fends_mono; [apply cleanup_ends; [by eapply sameBut_inv|apply st_clean|apply snoc_ne]|].
  intros s' r [S' Hr]. apply HQ; [|done]. eapply sameBut_trans; [exact S|]. eapply sameBut_mono; [|exact S']. intros k. by left.
Qed.

Lemma prepareCopy_ends :
  fends prepareCopy s0 (fun s r =>
    match r with
    | Err _ => sameBut apartPart s0 s
    | Ok bk => exists ren, bk = backupOf ren /\ sameBut region3 s0 s /\ staged s /\ (ex = true -> copyOf o s0 b s) /\
        (ex = false \/ ren = true -> gone o s)
    end).
Proof.
  unfold prepareCopy. apply fends_bind, fends_try. eapply fends_mono; [apply stage_ends|]. intros s1 r1 [S1 M1].
  assert (P1 : sameBut apartPart s0 s1) by (eapply sameBut_mono; [|exact S1]; intros k; by left).
  assert (Po : copyOf o s0 o s1) by (eapply sameBut_copy; [|exact S1]; intros x; apply apart_at, o_st).
  destruct r1 as [t|e]; [|apply cleanup_stage; [done|]; intros s' r S' Hr; by destruct r].
  specialize (M1 eq_refl). assert (R1 : sameBut region3 s0 s1) by (eapply sameBut_mono; [|exact P1]; apply apartPart_region).
  destruct ex eqn:Eex.
  - apply fends_bind, fends_try. destruct (cr_names CR) as (Hs & Hb & Hns & Hnb).
    eapply fends_mono; [apply (newFileBackup_ends q n uuid2); [apply (cr_dst CR)|apply (cr_dst CR)|done|done|by eapply sameBut_inv|]|].
    { rewrite (proj2 S1); [apply (cr_free CR)|]. apply apart_here, apart_comm, st_b. }
    intros s2 r2 P2. destruct r2 as [bk|e].
    + destruct P2 as (-> & C2 & P2). unfold fends. simpl. exists (renamed bk). unfold backupOf. rewrite Eex.
      assert (Cb : copyOf o s0 b s2) by (by eapply copyOf_trans). destruct (renamed bk) eqn:Eren.
      * destruct P2 as (_ & S2 & G2). split_and!; [done| | |done|done].
        -- eapply sameBut_trans; [exact R1|]. eapply sameBut_mono; [|exact S2]. unfold region3. intros k [?|?]; auto.
        -- eapply staged_keep; [|exact S2|done]. intros x [H|H]; [by eapply apart_at, H; apply apart_comm, o_st|].
           by eapply apart_at, H; apply st_b.
      * split_and!; [done| | |done|intros [?|?]; congruence].
        -- eapply sameBut_trans; [exact R1|]. eapply sameBut_mono; [|exact P2]. unfold region3. auto.
        -- eapply staged_keep; [|exact P2|done]. intros x. apply apart_at, st_b.
    + apply cleanup_stage; [|intros s' r S' Hr; by destruct r]. eapply sameBut_trans; [exact P1|]. eapply sameBut_mono; [|exact P2]. by right.
  - unfold fends. simpl. exists false. unfold backupOf. rewrite Eex. split_and!; [done|done|done|done|]. intros _.
    eapply gone_copy; [|exact Po]. apply gone_at; [apply (cr_inv CR)|apply snoc_ne|by apply Hnew].
Qed.

Lemma made_keep s s' (R : fpath -> Prop) : (forall x, ~ R (o ++ x)) -> sameBut R s s' -> made s -> made s'.
Proof.
  intros Hr [_ Hk]. unfold made. destruct shallow.
  - intros [H1 H2]. split; [|intros x Hx; rewrite Hk by apply Hr; by apply H2].
    rewrite <- H1. apply Hk. rewrite <- (app_nil_r o). apply Hr.
  - intros H x. rewrite Hk by apply Hr. apply H.
Qed.

Lemma stage_path : path_join2 (path q) su = path st.
Proof. apply path_join2_snoc; [apply clean_good, q_clean|apply (cr_names CR)]. Qed.
Lemma dst_path : path_join2 (path q) n = path o.
Proof. apply path_join2_snoc; [apply clean_good, q_clean|apply (cr_dst CR)]. Qed.
Lemma stage_base : path_Base (path st) = su.
Proof. apply path_Base_snoc, (cr_names CR). Qed.

Definition replaceOld (bk : option fileBackup) : Fm unit :=
  match bk with Some b => if renamed b then mret tt else removeIfExists (path o) | None => mret tt end.

Lemma copyWithRollback_eq :
  copyWithRollback uuid1 uuid2 (path src) (path q) n ex shallow s0 =
  match prepareCopy s0 with
  | (w, Err e) => (w, (None, Err e))
  | (w, Ok bk) => let '(w, r) := (replaceOld bk;; installStagedObject (path st) (path q) n) w in
      (w, (Some (copyMutation (path o) (path st) bk), r))
  end.
Proof. unfold copyWithRollback, prepareCopy. by rewrite stage_path, dst_path, stage_base. Qed.

Lemma replaceOld_ends ren s : dInv s -> (ex = false \/ ren = true -> gone o s) ->
  fends (replaceOld (backupOf ren)) s (fun s' r => sameBut (under_ o) s s' /\ (is_ok r = true -> gone o s')).
Proof.
  intros I Hg. unfold replaceOld, backupOf. destruct ex; [|unfold fends; simpl; split; [by apply sameBut_refl|auto]].
  cbn [renamed]. destruct ren; [unfold fends; simpl; split; [by apply sameBut_refl|auto]|].
  eapply fends_mono; [apply removeIfExists_ends; [done|apply o_clean|apply snoc_ne]|]. intros s' r (B & G & _). by split.
Qed.

Lemma copyWithRollback_ends :
  let '(s, (m, r)) := copyWithRollback uuid1 uuid2 (path src) (path q) n ex shallow s0 in copyPost s m r.
Proof.
  rewrite copyWithRollback_eq. pose proof prepareCopy_ends as P. unfold fends in P. destruct (prepareCopy s0) as [s1 [bk|e]]; simpl in P.
  2:{ split; [eapply sameBut_mono; [apply apartPart_region|exact P]|done]. }
  destruct P as (ren & -> & R1 & M1 & C1 & G1). assert (I1 : dInv s1) by (by eapply sameBut_inv).
  assert (L : fends (replaceOld (backupOf ren);; installStagedObject (path st) (path q) n) s1 (fun s r =>
     sameBut (fun k => under_ o k \/ under_ st k) s1 s /\ (is_ok r = true -> made s))).
  { apply fends_bind. eapply fends_mono; [by apply replaceOld_ends|]. intros s2 r2 [B2 G2].
    assert (B2' : sameBut (fun k => under_ o k \/ under_ st k) s1 s2) by (eapply sameBut_mono; [|exact B2]; auto).
    destruct r2 as [t|e]; [|by split]. eapply fends_mono; [apply install_ends; [by eapply sameBut_inv| |by apply G2]|].
    - eapply staged_keep; [|exact B2|exact M1]. intros x. apply apart_at, apart_comm, o_st.
    - intros s3 r3 [B3 M3]. split; [by eapply sameBut_trans|done]. }
  unfold fends in L. match type of L with context [(?m s1).1] => destruct (m s1) as [s2 r2] end. simpl in L. destruct L as [B2 M2]. split_and!.
  - eapply sameBut_trans; [exact R1|]. eapply sameBut_mono; [|exact B2]. unfold region3. intros k [?|?]; auto.
  - by exists ren.
  - intros Hex. eapply copyOf_trans; [by apply C1|]. eapply sameBut_copy; [|exact B2]. intros x [H|H].
    + by eapply apart_at, H; apply apart_comm, o_b'.
    + by eapply apart_at, H; apply apart_comm, st_b.
  - done.
Qed.

Lemma restoreOld_ends ren s : dInv s -> (ex = true -> copyOf o s0 b s) ->
  fends (restore (backupOf ren)) s (fun s' r =>
    sameBut (fun k => under_ o k \/ under_ b k) s s' /\ (ex = true -> copyOf o s0 o s' \/ copyOf o s0 b s') /\
    (is_ok r = true -> ex = true -> copyOf o s0 o s') /\ (ex = false -> sameTree s s')).
Proof.
  intros I C. unfold backupOf. destruct ex.
  - destruct (cr_names CR) as (_ & Hb & _ & Hnb). eapply fends_mono; [apply (putBack_ends q n uuid2) with (s0 := s0); try done|].
    + apply (cr_dst CR).
    + apply (cr_dst CR).
    + by apply C.
    + intros s' r (B & H & K). split_and!; auto; done.
  - unfold fends. simpl. split_and!; [by apply sameBut_refl|done|done|]. intros _. by apply sameTree_refl.
Qed.

(** What the rollback leaves: the tree as it was but for the backups' names, or
    some of its steps failed. *)
Lemma rollback_copy_ends ren s r : copyPost s (Some (copyMutation (path o) (path st) (backupOf ren))) r ->
  fends (rollback (copyMutation (path o) (path st) (backupOf ren))) s (fun s' r =>
    sameBut region3 s0 s' /\ (look s0 o <> None -> heldDst s') /\ exists errs, r = Ok errs /\ (errs = [] -> sameBut apartPart s0 s')).
Proof.
  intros (R0 & _ & C0 & _). assert (I0 : dInv s) by (by eapply sameBut_inv).
  unfold rollback. apply collect_cons. eapply fends_mono; [apply removeIfExists_ends; [done|apply o_clean|apply snoc_ne]|].
  intros s1 r1 (B1 & G1 & _). assert (I1 : dInv s1) by (by eapply sameBut_inv).
  apply collect_cons. eapply fends_mono; [apply (restoreOld_ends ren s1 I1)|].
  { intros Hex. eapply copyOf_trans; [by apply C0|]. eapply sameBut_copy; [|exact B1]. intros x. apply apart_at, apart_comm, o_b'. }
  intros s2 r2 (B2 & H2 & K2 & N2). assert (I2 : dInv s2) by (by eapply sameBut_inv).
  apply collect_cons. eapply fends_mono; [apply removeIfExists_ends; [done|apply st_clean|apply snoc_ne]|].
  intros s3 r3 (B3 & G3 & _). apply collect_nil.
  assert (Ko : copyOf o s2 o s3) by (eapply sameBut_copy; [|exact B3]; intros x; apply apart_at, o_st).
  assert (Kb : copyOf b s2 b s3) by (eapply sameBut_copy; [|exact B3]; intros x; apply apart_at, apart_comm, st_b).
  assert (R3 : sameBut region3 s0 s3).
  { eapply sameBut_trans; [exact R0|]. eapply sameBut_trans; [eapply (sameBut_mono (under_ o)); [|exact B1]; by left|].
    eapply sameBut_trans; [eapply sameBut_mono; [|exact B2]; intros k [?|?]; [by left|by right; right]|].
    eapply sameBut_mono; [|exact B3]. intros k ?. by right; left. }
  split_and!; [done| |].
  - intros Ho. destruct ex eqn:Eex; [|by destruct Ho; apply Hnew]. unfold heldDst.
    destruct (H2 eq_refl); [left|right]; by eapply copyOf_trans.
  - eexists. split; [done|]. destruct r1 as [t1|]; [|done]. destruct r2 as [t2|]; [|done]. destruct r3 as [t3|]; [|done]. intros _.
    eapply (sameBut_fill region3 apartPart o); [|exact R3|].
    { unfold region3, apartPart. intros k [?|[?|?]]; auto. }
    eapply copyOf_trans; [|exact Ko]. destruct ex eqn:Eex; [by apply K2|].
    apply gone_gone; [apply gone_at; [apply (cr_inv CR)|apply snoc_ne|by apply Hnew]|].
    intros x. rewrite (proj2 (N2 eq_refl)). by apply G1.
Qed.

Lemma finalize_copy_ends ren s : dInv s ->
  sameBut apartPart s (finalize (copyMutation (path o) (path st) (backupOf ren)) s).1.
Proof.
  intros I. apply (fends_at (finalize _) s (fun s' _ => sameBut apartPart s s')). unfold finalize.
  apply fends_bind, fends_try. eapply fends_mono; [apply removeIfExists_ends; [done|apply st_clean|apply snoc_ne]|]. intros s1 r1 (B1 & _).
  assert (S1 : sameBut apartPart s s1) by (eapply sameBut_mono; [|exact B1]; by left). cbn beta.
  unfold backupOf. destruct ex; [|done]. eapply fends_mono; [apply (discard_ends q n uuid2); try apply (cr_dst CR); [apply (cr_names CR)..|by eapply sameBut_inv]|].
  intros s2 r2 [B2 _]. eapply sameBut_trans; [exact S1|]. eapply sameBut_mono; [|exact B2]. by right.
Qed.

(** What is left of a request that did not succeed. *)
Definition undone (unrestored : bool) (s : W) : Prop :=
  (look s0 o <> None -> heldDst s) /\ (unrestored = false -> sameBut apartPart s0 s).

Lemma undone_same b' s : sameBut apartPart s0 s -> undone b' s.
Proof.
  intros S. split; [|done]. intros _. left. eapply sameBut_copy; [|exact S]. intros x [H|H]; by eapply apart_at, H; [apply o_st || apply o_b'].
Qed.

Lemma copied_ends {DB : Type} (update : DB -> option DB) commit db :
  let '(db', s, r) := runDeadPropsFileMutation update commit (copyWithRollback uuid1 uuid2 (path src) (path q) n ex shallow) db s0 in
  sameBut region3 s0 s /\ if is_ok r then update db = Some db' /\ made s else db' = db /\ undone (uncompensated r) s.
Proof.
  apply (transaction_ends update commit _ db s0 (fun db' s r =>
    sameBut region3 s0 s /\ if is_ok r then update db = Some db' /\ made s else db' = db /\ undone (uncompensated r) s)).
  - intros _. split; [apply sameBut_refl, (cr_inv CR)|]. split; [done|]. apply undone_same, sameBut_refl, (cr_inv CR).
  - intros db' s1 m r1 Hu Ha. pose proof copyWithRollback_ends as P. rewrite Ha in P. split.
    + intros Hr. destruct P as [R1 P]. destruct m as [m|]; [|by destruct P; congruence]. destruct P as ((ren & ->) & _ & M).
      pose proof (finalize_copy_ends ren s1 (sameBut_inv _ _ _ R1)) as B. split.
      * eapply sameBut_trans; [exact R1|]. eapply sameBut_mono; [apply apartPart_region|exact B].
      * split; [done|]. eapply made_keep; [|exact B|by apply M]. intros x [H|H]; by eapply apart_at, H; [apply o_st || apply o_b'].
    + intros r Hr. rewrite Hr. destruct m as [m|].
      * destruct P as [R1 P]. destruct P as ((ren & ->) & P1 & P2). eapply fends_mono; [apply (rollback_copy_ends ren s1 r1)|].
        { split; [done|]. split; [by exists ren|done]. }
        intros s2 x (R2 & H2 & errs & -> & K). exists errs. split; [done|]. intros Hor. split; [done|]. split; [done|]. split; [done|].
        intros Hun. apply K. destruct Hor; [done|congruence].
      * destruct P as [R1 [_ P]]. split; [done|]. split; [done|]. by apply undone_same.
Qed.
End Copy.

(** ** The request *)
Lemma copyReady_same src q n uuid1 uuid2 s s' : sameTree s s' -> copyReady src q n uuid1 uuid2 s -> copyReady src q n uuid1 uuid2 s'.
Proof. intros [I H] []. constructor; try done. by rewrite !H. Qed.

Lemma made_same src q n shallow s s1 s' : sameTree s s1 -> made src q n shallow s1 s' -> made src q n shallow s s'.
Proof. intros S. unfold made. destruct shallow; [done|by apply copyOf_same]. Qed.

Lemma undone_same_tree q n uuid1 uuid2 s s1 c s' : sameTree s s1 -> undone q n uuid1 uuid2 s1 c s' -> undone q n uuid1 uuid2 s c s'.
Proof.
  intros S [H1 H2]. split.
  - intros Ho. rewrite <- (proj2 S) in Ho. destruct (H1 Ho); [left|right]; by eapply copyOf_same.
  - intros Hc. eapply sameBut_same; [exact S|auto].
Qed.

Section Request.
Context (equalFold : gostr -> gostr -> bool)
        (getMetaByPath : gostr -> res meta_err Meta) (getMetaSnapshot : res meta_err (list Meta)).

(** What a request leaves, and what it answers. *)
Definition copyEffect {DB : Type} (update : DB -> option DB) src q n uuid1 uuid2 (overwrite : bool) (depth : Z) (db : DB) s (x : DB * W * answer (E := E)) : Prop :=
  let '(db', s', a) := x in
  sameBut (region3 q n uuid1 uuid2) s s' /\
  if succeeded a then
    update db = Some db' /\
    match look s (q ++ [n]) with Some _ => a.1 = StatusNoContent /\ overwrite = true | None => a.1 = StatusCreated end /\
    exists shallow, (shallow = true <-> depth = 0 /\ look s src = Some folder) /\ made src q n shallow s s'
  else db' = db /\ undone q n uuid1 uuid2 s (unrestored a) s'.

End Request.
End Spec.

(** ** Witness *)

(** /a is to replace the folder /b/a; the database counts its updates. *)
Definition copyDemo (l : list (option memErr)) : nat * memDav * answer (E := memErr) :=
  copyFiles seqb noMeta noMetas "1" "2" davUser (fun db => Some (S db)) true "/a" "/b/a" true (-1) 0%nat (davTree, l).

Lemma demo_copyReady l : copyReady (strs ["a"]) (strs ["b"]) "a" "1" "2" (davTree, l).
Proof.
  assert (C : Forall clean_seg (strs ["a"; "b"; ".openlist-copy-1"; ".openlist-backup-2"])) by (by apply clean_strs; vm_compute).
  rewrite Forall_forall in C. constructor.
  - apply davTree_wf.
  - constructor; [|done]. apply C. by repeat constructor.
  - split; [constructor; [|done]|]; apply C; by repeat constructor.
  - split_and!; [apply C; by repeat constructor..|done|done].
  - split; intros [x H]; discriminate H.
  - split; by apply (bool_decide_eq_true_1 (_ ∉ _)); vm_compute.
  - by vm_compute.
Qed.

