(* ===== verification/DavMove.v ===== *)
(** WebDAV MOVE: a request that is answered with an error has changed neither the
    source nor the destination, whatever step failed, unless the rollback failed
    too; then the old objects are at their places or in the backups. *)
From S2P Require Import Prelude GoString GoPath Paths Auth Mounts Objects KeyedCache DirCache OpFs FsTree FsView FsManageSpec.
From S2P Require Import DavFile DavFileSpec DavMem.

Section Spec.
Context {W E V : Type} {FS : DavFs W E} {DT : DavTree W E V}.

Abbreviation Fm := (F (W := W) (E := E)).
Abbreviation result A := (res (dav_error E) A).
Abbreviation path := mkpath.

Section Move.
Context (p : fpath) (a : gostr) (q : fpath) (m uuid1 uuid2 : gostr) (ex : bool) (s0 : W).
Abbreviation src := (p ++ [a]).
Abbreviation dst := (q ++ [m]).
Abbreviation via := (q ++ [a]).
Abbreviation bu1 := (backupPrefix ++ uuid1).
Abbreviation bu2 := (backupPrefix ++ uuid2).
Abbreviation b1 := (p ++ [bu1]).
Abbreviation b2 := (q ++ [bu2]).

(** The names of the backups are fresh; the source and the destination are apart;
    an object that is moved into another folder and renamed there finds its old
    name free in that folder. *)
Record moveReady : Prop := {
  mr_inv : dInv s0;
  mr_src : Forall clean_seg p /\ clean_seg a;
  mr_dst : Forall clean_seg q /\ clean_seg m;
  mr_names : clean_seg bu1 /\ clean_seg bu2 /\ uuid1 <> uuid2;
  mr_fresh1 : bu1 ∉ src /\ bu1 ∉ dst;
  mr_fresh2 : bu2 ∉ src /\ bu2 ∉ dst;
  mr_apart : apart_ src dst;
  mr_free : look s0 b1 = None /\ look s0 b2 = None;
  mr_via : p <> q -> a <> m -> look s0 via = None
}.
Context (MR : moveReady) (Hsrc : look s0 src <> None) (Hnew : ex = false -> look s0 dst = None).

Lemma src_clean : Forall clean_seg src.
Proof. by apply clean_snoc; apply (mr_src MR). Qed.
Lemma dst_clean : Forall clean_seg dst.
Proof. by apply clean_snoc; apply (mr_dst MR). Qed.
Lemma via_clean : Forall clean_seg via.
Proof. apply clean_snoc; [apply (mr_dst MR)|apply (mr_src MR)]. Qed.

Lemma not_in_snoc (x : gostr) (l : fpath) y : x ∉ l ++ [y] -> x ∉ l /\ x <> y.
Proof. rewrite elem_of_app, list_elem_of_singleton. tauto. Qed.

Lemma not_prefix (l k : fpath) x : x ∉ k -> ~ (l ++ [x]) `prefix_of` k.
Proof. intros H [y ->]. apply H. rewrite !elem_of_app. left. right. by left. Qed.

Lemma last_ne (l k : fpath) x y : x <> y -> l ++ [x] <> k ++ [y].
Proof. by intros H [_ ?]%app_inj_tail. Qed.

Lemma dst_above : ~ dst `prefix_of` p.
Proof. intros H. apply (proj2 (mr_apart MR)). by apply prefix_app_r. Qed.
Lemma src_above : ~ src `prefix_of` q.
Proof. intros H. apply (proj1 (mr_apart MR)). by apply prefix_app_r. Qed.

Lemma via_above : ~ via `prefix_of` p.
Proof.
  intros H. destruct (decide (a = m)) as [->|Ham]; [by apply dst_above|]. destruct (decide (p = q)) as [->|Hpq].
  - apply prefix_length in H. rewrite length_app in H. simpl in H. lia.
  - destruct H as [x Hx]. assert (E' : src = via ++ (x ++ [a])) by (rewrite (assoc_L (++)), <- Hx; done).
    apply Hsrc. rewrite E'. apply dt_wf; [apply (mr_inv MR)|apply snoc_ne|by apply (mr_via MR)].
Qed.

Lemma b1_src : apart_ b1 src.
Proof. apply entries_apart. by destruct (not_in_snoc _ _ _ (proj1 (mr_fresh1 MR))). Qed.
Lemma b2_dst : apart_ b2 dst.
Proof. apply entries_apart. by destruct (not_in_snoc _ _ _ (proj2 (mr_fresh2 MR))). Qed.
Lemma b2_via : apart_ b2 via.
Proof. apply entries_apart. by destruct (not_in_snoc _ _ _ (proj1 (mr_fresh2 MR))). Qed.
Lemma b1_dst : apart_ b1 dst.
Proof.
  destruct (not_in_snoc _ _ _ (proj2 (mr_fresh1 MR))). apply apart_entries; [by apply not_prefix|apply dst_above|by apply last_ne].
Qed.
Lemma b1_via : apart_ b1 via.
Proof.
  destruct (not_in_snoc _ _ _ (proj2 (mr_fresh1 MR))), (not_in_snoc _ _ _ (proj1 (mr_fresh1 MR))).
  apply apart_entries; [by apply not_prefix|apply via_above|by apply last_ne].
Qed.
Lemma b2_src : apart_ b2 src.
Proof.
  destruct (not_in_snoc _ _ _ (proj1 (mr_fresh2 MR))). apply apart_entries; [by apply not_prefix|apply src_above|by apply last_ne].
Qed.
Lemma b1_b2 : apart_ b1 b2.
Proof.
  destruct (not_in_snoc _ _ _ (proj2 (mr_fresh1 MR))), (not_in_snoc _ _ _ (proj1 (mr_fresh2 MR))).
  apply apart_entries; [by apply not_prefix|by apply not_prefix|]. apply last_ne.
  intros Hu%(inj (app backupPrefix)). by apply (mr_names MR).
Qed.
Lemma src_via : p <> q -> apart_ src via.
Proof. intros Hne. apply apart_entries; [apply src_above|apply via_above|]. by intros [? _]%app_inj_tail. Qed.
Lemma a_m : p = q -> a <> m.
Proof. intros Hp Ha. apply (proj1 (mr_apart MR)). by rewrite Hp, Ha. Qed.

(** ** The backups *)
Definition backups (k : fpath) : Prop := under_ b1 k \/ under_ b2 k.
Definition ends2 (k : fpath) : Prop := under_ src k \/ under_ dst k \/ backups k.
Definition region5 (k : fpath) : Prop := under_ via k \/ ends2 k.

Definition backupSrc : fileBackup := mkBackup (path src) (path b1) false.
Definition backupDst (ren : bool) : option fileBackup := if ex then Some (mkBackup (path dst) (path b2) ren) else None.

Definition prepareMove : Fm (fileBackup * option fileBackup) :=
  srcBackup ← newFileBackup uuid1 (path src) true;
  if ex then
    r ← ftry (newFileBackup uuid2 (path dst) false);
    match r with
    | Err e => discard (Some srcBackup);; ffail e
    | Ok b => mret (srcBackup, Some b)
    end
  else mret (srcBackup, None).

Lemma prepareMove_ends :
  fends prepareMove s0 (fun s r =>
    match r with
    | Err _ => sameBut backups s0 s
    | Ok x => exists ren, x = (backupSrc, backupDst ren) /\ sameBut (fun k => under_ dst k \/ backups k) s0 s /\
        copyOf src s0 b1 s /\ (ex = true -> copyOf dst s0 b2 s) /\ (ex = false \/ ren = true -> gone dst s)
    end).
Proof.
  destruct (mr_names MR) as (N1 & N2 & _). destruct (not_in_snoc _ _ _ (proj1 (mr_fresh1 MR))) as [_ F1], (not_in_snoc _ _ _ (proj2 (mr_fresh2 MR))) as [_ F2].
  unfold prepareMove. apply fends_bind.
  eapply fends_mono; [apply (newFileBackup_ends p a uuid1); [apply (mr_src MR)|apply (mr_src MR)|done|done|apply (mr_inv MR)|apply (mr_free MR)]|].
  intros s1 r1 P1. destruct r1 as [bk|e]; [|by eapply sameBut_mono; [|exact P1]; left].
  destruct P1 as (E1 & C1 & P1). destruct (renamed bk); [by destruct P1|]. rewrite E1. clear E1 bk.
  assert (B1 : sameBut backups s0 s1) by (eapply sameBut_mono; [|exact P1]; by left).
  assert (Cd : copyOf dst s0 dst s1) by (eapply sameBut_copy; [|exact P1]; intros x; apply apart_at, apart_comm, b1_dst).
  destruct ex eqn:Eex.
  - apply fends_bind, fends_try. eapply fends_mono; [apply (newFileBackup_ends q m uuid2); [apply (mr_dst MR)|apply (mr_dst MR)|done|done|by eapply sameBut_inv|]|].
    { rewrite (proj2 P1); [apply (mr_free MR)|]. apply apart_here, apart_comm, b1_b2. }
    intros s2 r2 P2. destruct r2 as [bk|e].
    + destruct P2 as (-> & C2 & P2). unfold fends. simpl. exists (renamed bk). unfold backupDst. rewrite Eex.
      assert (C1' : forall R : fpath -> Prop, sameBut R s1 s2 -> (forall k, R k -> under_ dst k \/ under_ b2 k) -> copyOf src s0 b1 s2).
      { intros R S HR. eapply copyOf_trans; [exact C1|]. eapply sameBut_copy; [|exact S]. intros x [H|H]%HR; by eapply apart_at, H; [apply b1_dst || apply b1_b2]. }
      assert (C2' : copyOf dst s0 b2 s2) by (by eapply copyOf_trans). destruct (renamed bk) eqn:Eren.
      * destruct P2 as (_ & S2 & G2). split_and!; [done| |by eapply C1'|done|done].
        eapply sameBut_trans; [eapply sameBut_mono; [|exact B1]; by right|]. eapply sameBut_mono; [|exact S2]. intros k [?|?]; [by left|by right; right].
      * split_and!; [done| |by eapply C1'; [exact P2|]; by right|done|intros [?|?]; congruence].
        eapply sameBut_trans; [eapply sameBut_mono; [|exact B1]; by right|]. eapply sameBut_mono; [|exact P2]. intros k ?; by right; right.
    + assert (B2 : sameBut backups s0 s2) by (eapply sameBut_trans; [exact B1|]; eapply sameBut_mono; [|exact P2]; by right).
      apply fends_bind. eapply fends_mono; [apply (discard_ends p a uuid1); try apply (mr_src MR); [done|by eapply sameBut_inv]|].
      intros s3 r3 [B3 _]. assert (B3' : sameBut backups s0 s3) by (eapply sameBut_trans; [exact B2|]; eapply sameBut_mono; [|exact B3]; by left).
      by destruct r3.
  - unfold fends. simpl. exists false. unfold backupDst. rewrite Eex. split_and!; [done| |done|done|].
    + eapply sameBut_mono; [|exact B1]. by right.
    + intros _. eapply gone_copy; [|exact Cd]. apply gone_at; [apply (mr_inv MR)|apply snoc_ne|by apply Hnew].
Qed.

(** ** The move *)
Definition replaceDst (bk : option fileBackup) : Fm unit :=
  match bk with Some b => if renamed b then mret tt else removeIfExists (path dst) | None => mret tt end.

Definition moveIt : Fm unit := moveResource (path src) (path q) (path p) a m.

Lemma moveWithRollback_eq :
  moveWithRollback uuid1 uuid2 (path src) (path dst) (path q) (path p) a m ex s0 =
  match prepareMove s0 with
  | (w, Err e) => (w, (None, Err e))
  | (w, Ok (sb, db)) => let '(w, r) := (replaceDst db;; moveIt) w in
      (w, (Some (moveMutation (path dst) (path q) a m sb db), r))
  end.
Proof. done. Qed.

Lemma replaceDst_ends ren s : dInv s -> (ex = false \/ ren = true -> gone dst s) ->
  fends (replaceDst (backupDst ren)) s (fun s' r => sameBut (under_ dst) s s' /\ (is_ok r = true -> gone dst s')).
Proof.
  intros I Hg. unfold replaceDst, backupDst. destruct ex; [|unfold fends; simpl; split; [by apply sameBut_refl|auto]].
  cbn [renamed]. destruct ren; [unfold fends; simpl; split; [by apply sameBut_refl|auto]|].
  eapply fends_mono; [apply removeIfExists_ends; [done|apply dst_clean|apply snoc_ne]|]. intros s' r (B & G & _). by split.
Qed.

Lemma same_folder : path p = path q -> p = q.
Proof. apply mkpath_inj; apply clean_good; [apply (mr_src MR)|apply (mr_dst MR)]. Qed.

Lemma moveIt_ends s : dInv s -> gone dst s -> (p <> q -> a <> m -> gone via s) ->
  fends moveIt s (fun s' r =>
    sameBut (fun k => under_ src k \/ under_ dst k \/ under_ via k) s s' /\
    (is_ok r = true -> copyOf src s dst s' /\ gone src s' /\ sameBut (fun k => under_ src k \/ under_ dst k) s s')).
Proof.
  intros I Gd Gv. unfold moveIt, moveResource. destruct (seqb (path p) (path q)) eqn:Ed.
  - apply seqb_true, same_folder in Ed. apply rename_ends; [done|apply src_clean|apply (mr_dst MR)|by apply a_m|].
    intros s' r B C _. revert B C. rewrite Ed. intros B C. split; [eapply sameBut_mono; [|exact B]; intros k [?|?]; auto|].
    intros Hr. destruct (C Hr). by split_and!.
  - assert (Hpq : p <> q) by (intros H; rewrite H in Ed; by apply seqb_false in Ed).
    assert (Hv : gone via s) by (destruct (decide (a = m)) as [Ham|]; [by rewrite Ham|by apply Gv]).
    apply fends_bind, moveTo_ends; [done|apply src_clean|apply (mr_dst MR)|by apply src_via|by apply gone_here|].
    intros s1 r1 B1 C1. assert (B1' : sameBut (fun k => under_ src k \/ under_ dst k \/ under_ via k) s s1).
    { eapply sameBut_mono; [|exact B1]. intros k [?|?]; auto. }
    destruct r1 as [t|e]; [|by split]. destruct (C1 eq_refl) as [C G]. destruct (negb (seqb a m)) eqn:Eam.
    + apply negb_true_iff, seqb_false in Eam.
      rewrite path_join2_snoc by (apply clean_good || idtac; first [apply (mr_dst MR)|apply (mr_src MR)]).
      apply rename_ends; [by eapply sameBut_inv|apply via_clean|apply (mr_dst MR)|done|]. intros s2 r2 B2 C2 _. split.
      * eapply sameBut_trans; [exact B1'|]. eapply sameBut_mono; [|exact B2]. intros k [?|?]; auto.
      * intros Hr. destruct (C2 Hr) as [C2' G2]. split_and!; [by eapply copyOf_trans| |].
        -- intros x. rewrite (proj2 B2); [apply G|]. intros [H|H]; by eapply apart_at, H; [apply src_via || apply (mr_apart MR)].
        -- eapply (sameBut_fill (fun k => under_ src k \/ under_ dst k \/ under_ via k) _ via).
           ++ intros k [?|[?|?]]; auto.
           ++ eapply sameBut_trans; [exact B1'|]. eapply sameBut_mono; [|exact B2]. intros k [?|?]; auto.
           ++ by apply gone_gone.
    + apply negb_false_iff, seqb_true in Eam. unfold fends. simpl. rewrite <- Eam. split; [by rewrite <- Eam in B1'|]. done.
Qed.

Definition moved (s : W) : Prop := copyOf src s0 dst s /\ gone src s /\ sameBut ends2 s0 s.

Definition movePost (s : W) (mu : option fileMutation) (r : result unit) : Prop :=
  sameBut region5 s0 s /\
  match mu with
  | None => is_ok r = false /\ sameBut backups s0 s
  | Some mu => (exists ren, mu = moveMutation (path dst) (path q) a m backupSrc (backupDst ren)) /\
      copyOf src s0 b1 s /\ (ex = true -> copyOf dst s0 b2 s) /\ (is_ok r = true -> moved s)
  end.

Lemma ends2_region k : ends2 k -> region5 k.
Proof. by right. Qed.
Lemma backups_ends2 k : backups k -> ends2 k.
Proof. by right; right. Qed.

(** The backups stay when the places of the objects change. *)
Lemma b1_kept (R : fpath -> Prop) s s' : (forall k, R k -> under_ src k \/ under_ dst k \/ under_ via k \/ under_ b2 k) ->
  sameBut R s s' -> copyOf src s0 b1 s -> copyOf src s0 b1 s'.
Proof.
  intros HR B C. eapply copyOf_trans; [exact C|]. eapply sameBut_copy; [|exact B].
  intros x [H|[H|[H|H]]]%HR; by eapply apart_at, H; [apply b1_src || apply b1_dst || apply b1_via || apply b1_b2].
Qed.
Lemma b2_kept (R : fpath -> Prop) s s' : (forall k, R k -> under_ src k \/ under_ dst k \/ under_ via k \/ under_ b1 k) ->
  sameBut R s s' -> copyOf dst s0 b2 s -> copyOf dst s0 b2 s'.
Proof.
  intros HR B C. eapply copyOf_trans; [exact C|]. eapply sameBut_copy; [|exact B].
  intros x [H|[H|[H|H]]]%HR; by eapply apart_at, H; [apply b2_src || apply b2_dst || apply b2_via || apply apart_comm, b1_b2].
Qed.

Lemma via_gone : p <> q -> a <> m -> gone via s0.
Proof. intros Hpq Ham. apply gone_at; [apply (mr_inv MR)|apply snoc_ne|by apply (mr_via MR)]. Qed.

Lemma via_dst : a <> m -> apart_ via dst.
Proof. apply entries_apart. Qed.

Lemma moveWithRollback_ends :
  let '(s, (mu, r)) := moveWithRollback uuid1 uuid2 (path src) (path dst) (path q) (path p) a m ex s0 in movePost s mu r.
Proof.
  rewrite moveWithRollback_eq. pose proof prepareMove_ends as P. unfold fends in P. destruct (prepareMove s0) as [s1 [[sb db]|e]]; simpl in P.
  2:{ split; [eapply sameBut_mono; [|exact P]; intros k ?; by apply ends2_region, backups_ends2|done]. }
  destruct P as (ren & [= -> ->] & R1 & C1 & C2 & G1). assert (I1 : dInv s1) by (by eapply sameBut_inv).
  assert (Cs : copyOf src s0 src s1).
  { eapply sameBut_copy; [|exact R1]. intros x [H|[H|H]]; by eapply apart_at, H; [apply (mr_apart MR) || apply apart_comm, b1_src || apply apart_comm, b2_src]. }
  assert (R1' : sameBut ends2 s0 s1) by (eapply sameBut_mono; [|exact R1]; intros k ?; by right).
  assert (L : fends (replaceDst (backupDst ren);; moveIt) s1 (fun s r =>
     sameBut (fun k => under_ src k \/ under_ dst k \/ under_ via k) s1 s /\ (is_ok r = true -> moved s))).
  { apply fends_bind. eapply fends_mono; [by apply replaceDst_ends|]. intros s2 r2 [B2 G2].
    assert (B2' : sameBut (fun k => under_ src k \/ under_ dst k \/ under_ via k) s1 s2) by (eapply sameBut_mono; [|exact B2]; auto).
    destruct r2 as [t|e]; [|by split]. eapply fends_mono; [apply moveIt_ends; [by eapply sameBut_inv|by apply G2|]|].
    - intros Hpq Ham x. rewrite (proj2 B2) by (by apply apart_at, via_dst). rewrite (proj2 R1).
      + by apply via_gone.
      + intros [H|[H|H]]; by eapply apart_at, H; [by apply via_dst || apply apart_comm, b1_via || apply apart_comm, b2_via].
    - intros s3 r3 [B3 M3]. split; [by eapply sameBut_trans|]. intros Hr. destruct (M3 Hr) as (M & G & B). split_and!; [|done|].
      + eapply copyOf_trans; [exact Cs|]. eapply copyOf_trans; [|exact M]. eapply sameBut_copy; [|exact B2]. intros x. apply apart_at, (mr_apart MR).
      + eapply sameBut_trans; [exact R1'|]. eapply sameBut_trans; [eapply sameBut_mono; [|exact B2]; intros k ?; by right; left|].
        eapply sameBut_mono; [|exact B]. intros k [?|?]; [by left|by right; left]. }
  unfold fends in L. match type of L with context [(?m s1).1] => destruct (m s1) as [s2 r2] end. simpl in L. destruct L as [B2 M2]. split_and!.
  - eapply sameBut_trans; [eapply sameBut_mono; [apply ends2_region|exact R1']|]. eapply sameBut_mono; [|exact B2].
    intros k [?|[?|?]]; [by right; left|by right; right; left|by left].
  - by exists ren.
  - eapply b1_kept; [|exact B2|exact C1]. intros k [?|[?|?]]; auto.
  - intros Hex. eapply b2_kept; [|exact B2|by apply C2]. intros k [?|[?|?]]; auto.
  - done.
Qed.

(** ** Rollback and cleaning up *)
Definition keptSrc (s : W) : Prop := copyOf src s0 src s \/ copyOf src s0 b1 s.
Definition keptDst (s : W) : Prop := copyOf dst s0 dst s \/ copyOf dst s0 b2 s.

Definition candidates : list gostr := path dst :: (if negb (seqb a m) then [path_join2 (path q) a] else []).

Lemma candidates_ends rest s (Q : W -> result (list (dav_error E)) -> Prop) : dInv s ->
  (forall s1 pre, sameBut (fun k => under_ dst k \/ under_ via k) s s1 -> (pre = [] -> gone dst s1 /\ (a <> m -> gone via s1)) ->
     fends (collect rest) s1 (fun s' r => Q s' (match r with Ok errs => Ok (pre ++ errs) | Err e => Err e end))) ->
  fends (collect (map removeIfExists candidates ++ rest)) s Q.
Proof.
  intros I H. unfold candidates. cbn [map app]. apply collect_cons.
  eapply fends_mono; [apply removeIfExists_ends; [done|apply dst_clean|apply snoc_ne]|]. intros s1 r1 (B1 & G1 & _).
  assert (B1' : sameBut (fun k => under_ dst k \/ under_ via k) s s1) by (eapply sameBut_mono; [|exact B1]; by left).
  destruct (negb (seqb a m)) eqn:Eam.
  - apply negb_true_iff, seqb_false in Eam. cbn [map app].
    rewrite path_join2_snoc by (apply clean_good || idtac; first [apply (mr_dst MR)|apply (mr_src MR)]). apply collect_cons.
    eapply fends_mono; [apply removeIfExists_ends; [by eapply sameBut_inv|apply via_clean|apply snoc_ne]|]. intros s2 r2 (B2 & G2 & _).
    eapply fends_mono; [apply (H s2 (match r1 with Ok _ => [] | Err e => [e] end ++ match r2 with Ok _ => [] | Err e => [e] end))|].
    + eapply sameBut_trans; [exact B1'|]. eapply sameBut_mono; [|exact B2]. by right.
    + destruct r1 as [t1|], r2 as [t2|]; try done. intros _. split; [|by intros _; apply G2].
      intros x. rewrite (proj2 B2) by (by apply apart_at, apart_comm, via_dst). by apply G1.
    + intros s3 [errs|e] HQ; [|done]. by destruct r1, r2.
  - apply negb_false_iff, seqb_true in Eam. cbn [map app].
    eapply fends_mono; [apply (H s1 (match r1 with Ok _ => [] | Err e => [e] end))|].
    + done.
    + destruct r1; [|done]. intros _. split; [by apply G1|done].
    + intros s3 [errs|e] HQ; [|done]. by destruct r1.
Qed.

Lemma restoreDst_ends ren s : dInv s -> (ex = true -> copyOf dst s0 b2 s) ->
  fends (restore (backupDst ren)) s (fun s' r =>
    sameBut (fun k => under_ dst k \/ under_ b2 k) s s' /\ (ex = true -> keptDst s') /\
    (is_ok r = true -> ex = true -> copyOf dst s0 dst s') /\ (ex = false -> sameTree s s')).
Proof.
  intros I C. unfold backupDst, keptDst. destruct ex.
  - destruct (not_in_snoc _ _ _ (proj2 (mr_fresh2 MR))) as [_ Hf].
    eapply fends_mono; [apply (putBack_ends q m uuid2) with (s0 := s0); try apply (mr_dst MR); [apply (mr_names MR)|done|done|by apply C]|].
    intros s' r (B & H & K). split_and!; auto; done.
  - unfold fends. simpl. split_and!; [by apply sameBut_refl|done|done|]. intros _. by apply sameTree_refl.
Qed.

(** The three places of the objects as before, and the rest with them. *)
Lemma restored s : sameBut region5 s0 s -> copyOf src s0 src s -> copyOf dst s0 dst s ->
  (p <> q -> a <> m -> gone via s) -> sameBut backups s0 s.
Proof.
  intros R Cs Cd Gv. apply (sameBut_fill (fun k => under_ dst k \/ backups k) _ dst); [intros k [?|?]; auto| |done].
  apply (sameBut_fill ends2 _ src); [intros k [?|?]; auto| |done].
  destruct (decide (a = m)) as [Ham|Ham].
  - eapply sameBut_mono; [|exact R]. intros k [H|H]; [|done]. rewrite Ham in H. by right; left.
  - destruct (decide (p = q)) as [Hpq|Hpq].
    + eapply sameBut_mono; [|exact R]. intros k [H|H]; [|done]. rewrite <- Hpq in H. by left.
    + apply (sameBut_fill region5 _ via); [intros k [?|?]; auto|done|]. apply gone_gone; [by apply via_gone|by apply Gv].
Qed.

Lemma rollback_move_ends ren s r : movePost s (Some (moveMutation (path dst) (path q) a m backupSrc (backupDst ren))) r ->
  fends (rollback (moveMutation (path dst) (path q) a m backupSrc (backupDst ren))) s (fun s' r =>
    sameBut region5 s0 s' /\ keptSrc s' /\ (look s0 dst <> None -> keptDst s') /\
    exists errs, r = Ok errs /\ (errs = [] -> sameBut backups s0 s')).
Proof.
  intros (R0 & _ & C1 & C2 & _). assert (I0 : dInv s) by (by eapply sameBut_inv). unfold rollback.
  apply candidates_ends; [done|]. intros s1 pre B1 G1. assert (I1 : dInv s1) by (by eapply sameBut_inv).
  assert (K1 : copyOf src s0 b1 s1) by (eapply b1_kept; [|exact B1|exact C1]; intros k [?|?]; auto).
  assert (K2 : ex = true -> copyOf dst s0 b2 s1) by (intros Hex; eapply b2_kept; [|exact B1|by apply C2]; intros k [?|?]; auto).
  destruct (not_in_snoc _ _ _ (proj1 (mr_fresh1 MR))) as [_ Hf].
  apply collect_cons. eapply fends_mono; [apply (putBack_ends p a uuid1) with (s0 := s0); try apply (mr_src MR); [apply (mr_names MR)|done|done|done]|].
  intros s2 r2 (B2 & H2 & O2). assert (I2 : dInv s2) by (by eapply sameBut_inv).
  apply collect_cons. eapply fends_mono; [apply (restoreDst_ends ren s2 I2)|].
  { intros Hex. eapply b2_kept; [|exact B2|by apply K2]. intros k [?|?]; auto. }
  intros s3 r3 (B3 & H3 & O3 & N3). apply collect_nil.
  assert (Ks : copyOf src s2 src s3).
  { eapply sameBut_copy; [|exact B3]. intros x [H|H]; by eapply apart_at, H; [apply (mr_apart MR) || apply apart_comm, b2_src]. }
  assert (R3 : sameBut region5 s0 s3).
  { eapply sameBut_trans; [exact R0|]. eapply sameBut_trans; [eapply sameBut_mono; [|exact B1]|].
    { intros k [?|?]; [by right; right; left|by left]. }
    eapply sameBut_trans; [eapply sameBut_mono; [|exact B2]; intros k [?|?]; [by right; left|by right; right; right; left]|].
    eapply sameBut_mono; [|exact B3]. intros k [?|?]; [by right; right; left|by right; right; right; right]. }
  split_and!; [done| | |].
  - destruct H2 as [H2|H2]; [left; by eapply copyOf_trans|right]. eapply b1_kept; [|exact B3|exact H2]. intros k [?|?]; auto.
  - intros Hd. destruct ex eqn:Eex; [by apply H3|by destruct Hd; apply Hnew].
  - eexists. split; [done|]. destruct pre; [|done]. destruct r2 as [t2|]; [|done]. destruct r3 as [t3|]; [|done]. intros _.
    destruct (G1 eq_refl) as [Gd Gv]. apply restored; [done|eapply copyOf_trans; [by apply O2|done]| |].
    + destruct ex eqn:Eex; [by apply O3|]. apply gone_gone; [apply gone_at; [apply (mr_inv MR)|apply snoc_ne|by apply Hnew]|].
      intros x. rewrite (proj2 (N3 eq_refl)), (proj2 B2); [apply Gd|].
      intros [H|H]; by eapply apart_at, H; [apply apart_comm, (mr_apart MR) || apply apart_comm, b1_dst].
    + intros Hpq Ham x. rewrite (proj2 B3), (proj2 B2); [by apply Gv| |].
      * intros [H|H]; by eapply apart_at, H; [by apply apart_comm, src_via || apply apart_comm, b1_via].
      * intros [H|H]; by eapply apart_at, H; [by apply via_dst || apply apart_comm, b2_via].
Qed.

Lemma finalize_move_ends ren s : dInv s -> sameBut backups s (finalize (moveMutation (path dst) (path q) a m backupSrc (backupDst ren)) s).1.
Proof.
  intros I. apply (fends_at (finalize _) s (fun s' _ => sameBut backups s s')). unfold finalize. destruct (mr_names MR) as (N1 & N2 & _).
  apply fends_bind. eapply fends_mono; [apply (discard_ends p a uuid1); try apply (mr_src MR); done|]. intros s1 r1 [B1 Hr].
  assert (S1 : sameBut backups s s1) by (eapply sameBut_mono; [|exact B1]; by left). destruct r1; [|done].
  unfold backupDst. destruct ex; [|done]. eapply fends_mono; [apply (discard_ends q m uuid2); try apply (mr_dst MR); [done|by eapply sameBut_inv]|].
  intros s2 r2 [B2 _]. eapply sameBut_trans; [exact S1|]. eapply sameBut_mono; [|exact B2]. by right.
Qed.

(** What is left of a request that did not succeed. *)
Definition notMoved (lost : bool) (s : W) : Prop :=
  keptSrc s /\ (look s0 dst <> None -> keptDst s) /\ (lost = false -> sameBut backups s0 s).

Lemma notMoved_same b s : sameBut backups s0 s -> notMoved b s.
Proof.
  intros S. split_and!; [left|intros _; left|done]; (eapply sameBut_copy; [|exact S]); intros x [H|H]; eapply apart_at, H; apply apart_comm.
  - apply b1_src.
  - apply b2_src.
  - apply b1_dst.
  - apply b2_dst.
Qed.

Lemma moved_ends {DB : Type} (update : DB -> option DB) commit db :
  let '(db', s, r) := runDeadPropsFileMutation update commit (moveWithRollback uuid1 uuid2 (path src) (path dst) (path q) (path p) a m ex) db s0 in
  sameBut region5 s0 s /\ if is_ok r then update db = Some db' /\ moved s else db' = db /\ notMoved (uncompensated r) s.
Proof.
  apply (transaction_ends update commit _ db s0 (fun db' s r =>
    sameBut region5 s0 s /\ if is_ok r then update db = Some db' /\ moved s else db' = db /\ notMoved (uncompensated r) s)).
  - intros _. split; [apply sameBut_refl, (mr_inv MR)|]. split; [done|]. apply notMoved_same, sameBut_refl, (mr_inv MR).
  - intros db' s1 mu r1 Hu Ha. pose proof moveWithRollback_ends as P. rewrite Ha in P. destruct P as [R1 P]. split.
    + intros Hr. destruct mu as [mu|]; [|by destruct P; congruence]. destruct P as ((ren & ->) & _ & _ & M).
      pose proof (finalize_move_ends ren s1 (sameBut_inv _ _ _ R1)) as B. destruct (M Hr) as (M1 & M2 & M3). split; [|split; [done|split_and!]].
      * eapply sameBut_trans; [exact R1|]. eapply sameBut_mono; [|exact B]. intros k ?. by apply ends2_region, backups_ends2.
      * eapply copyOf_trans; [exact M1|]. eapply sameBut_copy; [|exact B].
        intros x [H|H]; by eapply apart_at, H; [apply apart_comm, b1_dst || apply apart_comm, b2_dst].
      * intros x. rewrite (proj2 B); [apply M2|]. intros [H|H]; by eapply apart_at, H; [apply apart_comm, b1_src || apply apart_comm, b2_src].
      * eapply sameBut_trans; [exact M3|]. eapply sameBut_mono; [|exact B]. apply backups_ends2.
    + intros r Hr. rewrite Hr. destruct mu as [mu|].
      * destruct P as ((ren & ->) & P1). eapply fends_mono; [apply (rollback_move_ends ren s1 r1)|].
        { split; [done|]. split; [by exists ren|done]. }
        intros s2 x (R2 & H2 & H3 & errs & -> & K). exists errs. split; [done|]. intros Hor. split; [done|]. split; [done|].
        split_and!; [done|done|]. intros Hun. apply K. destruct Hor; [done|congruence].
      * destruct P as [_ P]. split; [done|]. split; [done|]. by apply notMoved_same.
Qed.
End Move.

(** ** The request *)
Lemma moveReady_same p a q m uuid1 uuid2 s s' : sameTree s s' -> moveReady p a q m uuid1 uuid2 s -> moveReady p a q m uuid1 uuid2 s'.
Proof. intros [I H] []. constructor; try done; rewrite !H; done. Qed.

Lemma moved_same p a q m uuid1 uuid2 s s1 s' : sameTree s s1 -> moved p a q m uuid1 uuid2 s1 s' -> moved p a q m uuid1 uuid2 s s'.
Proof. intros S (M & G & B). split_and!; [by eapply copyOf_same|done|by eapply sameBut_same]. Qed.

Lemma notMoved_tree p a q m uuid1 uuid2 s s1 c s' : sameTree s s1 -> notMoved p a q m uuid1 uuid2 s1 c s' -> notMoved p a q m uuid1 uuid2 s c s'.
Proof.
  intros S (H1 & H2 & H3). split_and!.
  - destruct H1; [left|right]; by eapply copyOf_same.
  - intros Ho. rewrite <- (proj2 S) in Ho. destruct (H2 Ho); [left|right]; by eapply copyOf_same.
  - intros Hc. eapply sameBut_same; [exact S|auto].
Qed.

Section Request.
Context (equalFold : gostr -> gostr -> bool)
        (getMetaByPath : gostr -> res meta_err Meta) (getMetaSnapshot : res meta_err (list Meta)).

(** What a request leaves, and what it answers. *)
Definition moveEffect {DB : Type} (update : DB -> option DB) p a q m uuid1 uuid2 (overwrite : bool) (db : DB) s (x : DB * W * answer (E := E)) : Prop :=
  let '(db', s', ans) := x in
  sameBut (region5 p a q m uuid1 uuid2) s s' /\
  if succeeded ans then
    update db = Some db' /\
    match look s (q ++ [m]) with Some _ => ans.1 = StatusNoContent /\ overwrite = true | None => ans.1 = StatusCreated end /\
    moved p a q m uuid1 uuid2 s s'
  else db' = db /\ notMoved p a q m uuid1 uuid2 s (unrestored ans) s'.

End Request.
End Spec.

(** ** Witness *)

(** The file /b/x is to be moved to /a/y. *)
Definition moveDemo (l : list (option memErr)) : nat * memDav * answer (E := memErr) :=
  moveFiles seqb noMeta noMetas "1" "2" davUser (fun db => Some (S db)) true "/b/x" "/a/y" true 0%nat (davTree, l).

Lemma demo_moveReady l : moveReady (strs ["b"]) "x" (strs ["a"]) "y" "1" "2" (davTree, l).
Proof.
  assert (C : Forall clean_seg (strs ["a"; "b"; "x"; "y"; ".openlist-backup-1"; ".openlist-backup-2"])) by (by apply clean_strs; vm_compute).
  rewrite Forall_forall in C. constructor.
  - apply davTree_wf.
  - split; [constructor; [|done]|]; apply C; by repeat constructor.
  - split; [constructor; [|done]|]; apply C; by repeat constructor.
  - split_and!; [apply C; by repeat constructor..|done].
  - split; by apply (bool_decide_eq_true_1 (_ ∉ _)); vm_compute.
  - split; by apply (bool_decide_eq_true_1 (_ ∉ _)); vm_compute.
  - split; intros [x H]; discriminate H.
  - by vm_compute.
  - by vm_compute.
Qed.


(** The object that is in the way of the first step of a move, under the old name
    in the new folder, is deleted by the rollback: MOVE of /a to /b/y while there
    is a folder /b/a fails, and /b/a is gone with its file. *)
Theorem move_rollback_deletes :
  let '(db, (t, _), a) := moveFiles seqb noMeta noMetas "1" "2" davUser (fun db => Some (S db)) true "/a" "/b/y" true 0%nat (davTree, []) in
  db = 0%nat /\ a = (StatusInternalServerError, Some (DFs Missing)) /\
  davTree !! strs ["b"; "a"; "g"] = Some false /\ t !! strs ["b"; "a"; "g"] = None /\ t !! strs ["b"; "a"] = None /\
  t !! strs ["a"; "f"] = Some false.
Proof. vm_compute. done. Qed.
