(* ===== verification/Sharing.v ===== *)
(** Shares: src/internal/model/sharing.go, src/internal/op/sharing.go,
    src/internal/sharing (list, get) and the handlers of
    src/server/handles/sharing.go with src/internal/db/sharing.go.

    What the code asks of the storages is the class [ShareFs]; the paths it asks
    about are logged in [asked]. The table of shares is the class [SharingTable].
    FilesRaw is the list its JSON text stands for, [None] for a text that is no
    list of strings. sharingCache is left out: the code never puts a share into
    it; so is the pointer that concurrent reads of one share get from sharingG.
    What a gin handler sends besides its error, object or link is left out, as
    are the archive variants, which check the same things, and sharing.Link, which
    nothing calls.

    The theorems say what a visitor of a share can reach, and who can change a
    share. *)
From S2P Require Import Prelude GoString GoPath Paths Auth Objects DirCache FsTree FsView.

(** ** Data *)
Record SharingDB := mkRow {
  sID : gostr; FilesRaw : option (list gostr); Expires : option Z; Pwd : gostr; Accessed : Z; MaxAccessed : Z;
  CreatorId : Z; Disabled : bool;
  sTexts : gostr * gostr * gostr;   (* Remark, Readme, Header *)
  sSort : gostr * gostr * gostr     (* OrderBy, OrderDirection, ExtractFolder *)
}.

Record Sharing := mkSharing { sdb : SharingDB; Files : list gostr; Creator : option User }.

(** Valid at [now]; a time is zero as [time.Time{}]. *)
Definition Valid (now : Z) (s : Sharing) : bool :=
  if Disabled (sdb s) then false
  else if (0 <? MaxAccessed (sdb s)) && (MaxAccessed (sdb s) <=? Accessed (sdb s)) then false
  else if (length (Files s) =? 0)%nat then false
  else
    match Creator s with
    | None => false
    | Some c =>
        if negb (CanShare (Permission c)) then false
        else match Expires (sdb s) with
             | Some t => negb (negb (t =? 0) && (t <? now))
             | None => true
             end
    end.

Definition Verify (s : Sharing) (pwd : gostr) : bool := seqb (Pwd (sdb s)) "" || seqb (Pwd (sdb s)) pwd.

(** ** The path behind a path of a share *)
Inductive unwrap_err := InvalidFiles | OutsideBasePath (f : gostr) | RootPath | NoChild (child : gostr).

Fixpoint findBase (child : gostr) (files : list gostr) : gostr :=
  match files with
  | [] => ""
  | c :: files => if seqb child (path_Base c) then c else findBase child files
  end.

Definition GetSharingUnwrapPath (s : Sharing) (path : gostr) : res unwrap_err gostr :=
  let outside :=
    match Creator s with
    | Some c => if IsAdmin c then None else find (fun f => negb (isSubPath (BasePath c) f)) (Files s)
    | None => None
    end in
  match Files s with
  | [] => Err InvalidFiles
  | _ =>
      match outside with
      | Some f => Err (OutsideBasePath f)
      | None =>
          match Files s with
          | [f] => Ok (path_join2 f path)
          | files =>
              let path := drop 1 (fixAndCleanPath path) in
              if (length path =? 0)%nat then Err RootPath
              else
                let '(child, rest, _) := cutByte path slash in
                let mapPath := findBase child files in
                if seqb mapPath "" then Err (NoChild child) else Ok (path_join2 mapPath rest)
          end
      end
  end.

(** ** Access *)

(** The virtual files of a path; GetStorageAndActualPath with the operation on the
    storage. A link is what the client is sent to or served from. *)
Class ShareFs (W E : Type) := {
  shVirtual : gostr -> W -> list Obj;
  shGet : gostr -> W -> W * res E Obj;
  shList : gostr -> bool -> W -> W * res E (list Obj);   (* Refresh *)
  shStorage : gostr -> W -> W * res E unit;              (* GetStorageAndActualPath alone *)
  shLink : bool -> gostr -> W -> W * res E gostr;        (* whether of a rendition *)
  isRendition : gostr -> bool;         (* IsRenditionType(rawLinkType), of a path and the request *)
  IsGeneratedLink : gostr -> bool;
  shouldProxy : gostr -> W -> bool;    (* ShareForceProxy or ShouldProxy *)
  downProxyURL : gostr -> W -> gostr   (* GenerateDownProxyURL *)
}.

Inductive share_err (E : Type) :=
| InvalidShareId | SharingNotFound | InvalidSharing | WrongShareCode | UnwrapFailed (e : unwrap_err) | RootLink | ShareFsError (e : E).
Arguments InvalidShareId {E}. Arguments SharingNotFound {E}. Arguments InvalidSharing {E}. Arguments WrongShareCode {E}.
Arguments UnwrapFailed {E}. Arguments RootLink {E}. Arguments ShareFsError {E}.

(** The calls of the database; a change reports whether it was made. *)
Class SharingTable (T : Type) := {
  tbGet : gostr -> T -> option SharingDB;
  tbSave : SharingDB -> T -> T * bool;
  tbCreate : SharingDB -> T -> T * bool;
  tbUpdateId : gostr -> gostr -> T -> T * bool;
  tbDelete : gostr -> T -> T * bool
}.

Section Shares.
Context {W E T : Type} {FS : ShareFs W E} {TB : SharingTable T}.
Context (sortSlice : (Obj -> Obj -> bool) -> list Obj -> list Obj) (naturalLess : gostr -> gostr -> bool)
        (userById : Z -> option User).

Record shareState := mkShareState { shFs : W; table : T; asked : list gostr }.

Definition S (A : Type) : Type := shareState -> shareState * res (share_err E) A.
#[global] Instance S_ret : MRet S := fun A a w => (w, Ok a).
#[global] Instance S_bind : MBind S := fun A B k m w =>
  match m w with
  | (w, Ok a) => k a w
  | (w, Err e) => (w, Err e)
  end.
Definition sfail {A} (e : share_err E) : S A := fun w => (w, Err e).
Definition sreading {A} (f : W -> A) : S A := fun w => (w, Ok (f (shFs w))).
(** An operation on the storages about a path *)
Definition ask {A} (p : gostr) (m : W -> W * res E A) : S (res E A) := fun w =>
  let '(s, r) := m (shFs w) in (mkShareState s (table w) (asked w ++ [p]), Ok r).
Definition orFs {A} (m : S (res E A)) : S A :=
  r ← m; match r with Ok a => mret a | Err e => sfail (ShareFsError e) end.

Definition GetSharingById (id : gostr) : S Sharing := fun w =>
  match tbGet id (table w) with
  | None => (w, Err SharingNotFound)
  | Some row =>
      match userById (CreatorId row) with
      | None => (w, Err SharingNotFound)
      | Some creator => (w, Ok (mkSharing row (default [] (FilesRaw row)) (Some creator)))
      end
  end.

Definition checked (now : Z) (sid pwd : gostr) : S Sharing :=
  s ← GetSharingById sid;
  if negb (Valid now s) then sfail InvalidSharing
  else if negb (Verify s pwd) then sfail WrongShareCode
  else mret s.

Definition unwrapped (s : Sharing) (path : gostr) : S gostr :=
  match GetSharingUnwrapPath s path with Ok p => mret p | Err e => sfail (UnwrapFailed e) end.

(** Whether the path is a path of a file, not the root of several. *)
Definition inside (s : Sharing) (path : gostr) : bool := (length (Files s) =? 1)%nat || negb (seqb path "/").

Definition shareRoot (sid : gostr) : Obj := Leaf (mkObject [] [] sid 0 0 0 true [] 0) None.

(** A mount point in the folder of the path, by name. *)
Definition virtualAt (p : gostr) : S (option Obj) :=
  sreading (fun w => find (fun f => seqb (GetName f) (path_Base p)) (shVirtual (path_Dir p) w)).

Definition get (now : Z) (sid path pwd : gostr) : S (Sharing * Obj) :=
  s ← checked now sid pwd;
  let path := fixAndCleanPath path in
  if inside s path then
    unwrapPath ← unwrapped s path;
    if negb (seqb unwrapPath "/") then
      v ← virtualAt unwrapPath;
      match v with
      | Some f => mret (s, f)
      | None => obj ← orFs (ask unwrapPath (shGet unwrapPath)); mret (s, obj)
      end
    else mret (s, shareRoot sid)
  else mret (s, shareRoot sid).

Definition arranged (s : Sharing) (objs : list Obj) : list Obj :=
  let '(orderBy, orderDirection, extractFolder) := sSort (sdb s) in
  ExtractFolder (SortFiles sortSlice naturalLess objs orderBy orderDirection) extractFolder.

(** The shared files as the objects of the root of a share. *)
Fixpoint rootObjs (files : list gostr) : S (list Obj) :=
  match files with
  | [] => mret []
  | f :: files =>
      here ← (if negb (seqb f "/") then
                v ← virtualAt f;
                match v with
                | Some vf => mret [vf]
                | None => r ← ask f (shGet f); mret (match r with Ok obj => [obj] | Err _ => [] end)
                end
              else mret []);
      objs ← rootObjs files;
      mret (here ++ objs)
  end.

Definition list_ (now : Z) (sid path pwd : gostr) (refresh : bool) : S (Sharing * list Obj) :=
  s ← checked now sid pwd;
  let path := fixAndCleanPath path in
  if inside s path then
    unwrapPath ← unwrapped s path;
    virtualFiles ← sreading (shVirtual unwrapPath);
    r ← ask unwrapPath (shList unwrapPath refresh);
    objs ← (match r with
            | Ok objs => mret objs
            | Err e => if (length virtualFiles =? 0)%nat then sfail (ShareFsError e) else mret []
            end);
    mret (s, arranged s (Merge (fun _ _ => false) NewObjMerge objs virtualFiles).2)
  else
    objs ← rootObjs (Files s);
    mret (s, arranged s objs).

(** ** The handlers that serve a share *)
Inductive accessReq :=
| SharingGetReq (reqPath pwd : gostr)
| SharingListReq (reqPath pwd : gostr) (refresh : bool)
| SharingDownReq (sid path pwd : gostr) (d : bool).   (* whether the query has d *)

Inductive answer := AObj (o : Obj) | AList (l : list Obj) | AProxy (link : gostr) | ARedirect (url : gostr).

(** The id and the path of a request *)
Definition splitPath (reqPath : gostr) : gostr * gostr :=
  let '(sid, path, _) := cutByte (trimPrefix reqPath "/") slash in (sid, path).

Definition SharingDown (now : Z) (sid path pwd : gostr) (d : bool) : S (Sharing * answer) :=
  s ← checked now sid pwd;
  let path := fixAndCleanPath path in
  if inside s path then
    unwrapPath ← unwrapped s path;
    orFs (ask unwrapPath (shStorage unwrapPath));;
    generated ← (if isRendition unwrapPath then
                   l ← orFs (ask unwrapPath (shLink true unwrapPath));
                   mret (if IsGeneratedLink l then Some l else None)
                 else mret None);
    match generated with
    | Some l => mret (s, AProxy l)
    | None =>
        proxied ← sreading (shouldProxy unwrapPath);
        url ← sreading (downProxyURL unwrapPath);
        if (proxied : bool) && negb d && negb (seqb url "") then mret (s, ARedirect url)
        else
          l ← orFs (ask unwrapPath (shLink false unwrapPath));
          mret (s, if proxied : bool then AProxy l else ARedirect l)
    end
  else sfail RootLink.

Definition serve (now : Z) (r : accessReq) : S (Sharing * answer) :=
  match r with
  | SharingGetReq reqPath pwd =>
      let '(sid, path) := splitPath reqPath in
      if seqb sid "" then sfail InvalidShareId else '(s, o) ← get now sid path pwd; mret (s, AObj o)
  | SharingListReq reqPath pwd refresh =>
      let '(sid, path) := splitPath reqPath in
      if seqb sid "" then sfail InvalidShareId else '(s, l) ← list_ now sid path pwd refresh; mret (s, AList l)
  | SharingDownReq sid path pwd d => SharingDown now sid path pwd d
  end.

(** countAccess: [known] is what AccessCache knows about the client; the error is
    ignored. The row is saved as it was read, with one more access. *)
Definition withAccess (row : SharingDB) : SharingDB :=
  mkRow (sID row) (FilesRaw row) (Expires row) (Pwd row) (Accessed row + 1) (MaxAccessed row) (CreatorId row) (Disabled row)
    (sTexts row) (sSort row).

Definition countAccess (known : bool) (s : Sharing) : S unit := fun w =>
  if known then (w, Ok tt) else (mkShareState (shFs w) (tbSave (withAccess (sdb s)) (table w)).1 (asked w), Ok tt).

Definition handle (now : Z) (known : bool) (r : accessReq) : S answer :=
  '(s, a) ← serve now r;
  countAccess known s;;
  mret a.

(** ** The handlers that manage shares *)
Context (userByName : gostr -> option User) (validSharingID : gostr -> bool).   (* validateSharingID *)

Record UpdateSharingReq := mkReq {
  rqFiles : list gostr; rqExpires : option Z; rqPwd : gostr; rqMaxAccessed : Z; rqDisabled : bool;
  rqTexts : gostr * gostr * gostr; rqSort : gostr * gostr * gostr;
  rqCreator : gostr; rqAccessed : Z; rqID : gostr; rqNewID : gostr
}.

Inductive manage_err := MNoFiles | MNoUser | MDenied | MDeniedPath (f : gostr) | MNotFound | MInvalidID | MIdTaken | MDatabase.

(** A change of the table, or an error that leaves it. *)
Definition change (x : T * bool) : T * res manage_err unit := (x.1, if x.2 then Ok tt else Err MDatabase).

Definition noFiles (req : UpdateSharingReq) : bool :=
  match rqFiles req with [] => true | [f] => seqb f "" | _ => false end.

(** The files of the request, cleaned; a user who is no admin may share only what
    is below the base path of [user]. *)
Fixpoint cleanFiles (reqUser user : User) (files : list gostr) : res manage_err (list gostr) :=
  match files with
  | [] => Ok []
  | f :: files =>
      let f := fixAndCleanPath f in
      if negb (IsAdmin reqUser) && negb (isSubPath (BasePath user) f) then Err (MDeniedPath f)
      else match cleanFiles reqUser user files with Ok l => Ok (f :: l) | Err e => Err e end
  end.

Definition rowOf (req : UpdateSharingReq) (id : gostr) (files : list gostr) (creator : User) : SharingDB :=
  mkRow id (Some (map fixAndCleanPath files)) (rqExpires req) (rqPwd req) (rqAccessed req) (rqMaxAccessed req) (userID creator)
    (rqDisabled req) (rqTexts req) (rqSort req).

(** db.CreateSharing: a new id of 8 to 11 random characters, or the given one. *)
Fixpoint freeId (id : gostr) (more : list gostr) (t : T) : option gostr :=
  match tbGet id t with
  | None => Some id
  | Some _ => match more with [] => None | c :: more => freeId (id ++ c) more t end
  end.

Definition createRow (random : gostr) (more : list gostr) (row : SharingDB) (t : T) : T * res manage_err unit :=
  let withId id := mkRow id (FilesRaw row) (Expires row) (Pwd row) (Accessed row) (MaxAccessed row) (CreatorId row) (Disabled row)
                     (sTexts row) (sSort row) in
  if seqb (sID row) "" then
    match freeId random (take 3 more) t with
    | Some id => change (tbCreate (withId id) t)
    | None => (t, Err MIdTaken)
    end
  else match tbGet (sID row) t with
       | Some _ => (t, Err MIdTaken)
       | None => change (tbCreate row t)
       end.

Definition CreateSharing (reqUser : User) (req : UpdateSharingReq) (random : gostr) (more : list gostr) (t : T) : T * res manage_err unit :=
  if noFiles req then (t, Err MNoFiles)
  else if negb (seqb (rqID req) "") && negb (validSharingID (rqID req)) then (t, Err MInvalidID)
  else
    match (if IsAdmin reqUser && negb (seqb (rqCreator req) "") then
             match userByName (rqCreator req) with Some u => Ok u | None => Err MNoUser end
           else if negb (CanShare (Permission reqUser)) || (negb (CanCustomizeShareID (Permission reqUser)) && negb (seqb (rqID req) ""))
           then Err MDenied else Ok reqUser) with
    | Err e => (t, Err e)
    | Ok user =>
        match cleanFiles reqUser user (rqFiles req) with
        | Err e => (t, Err e)
        | Ok files => createRow random more (rowOf req (rqID req) files user) t
        end
    end.

Definition mayManage (reqUser : User) (row : SharingDB) (owner : Z) : bool := IsAdmin reqUser || (CreatorId row =? owner).

Definition UpdateSharing (reqUser : User) (req : UpdateSharingReq) (t : T) : T * res manage_err unit :=
  if noFiles req then (t, Err MNoFiles)
  else
    match (if IsAdmin reqUser && negb (seqb (rqCreator req) "") then
             match userByName (rqCreator req) with Some u => Ok u | None => Err MNoUser end
           else if negb (CanShare (Permission reqUser)) then Err MDenied else Ok reqUser) with
    | Err e => (t, Err e)
    | Ok user =>
        match cleanFiles reqUser user (rqFiles req) with
        | Err e => (t, Err e)
        | Ok files =>
            match tbGet (rqID req) t with
            | None => (t, Err MNotFound)
            | Some row =>
                match userById (CreatorId row) with
                | None => (t, Err MNotFound)
                | Some creator =>
                    if negb (mayManage reqUser row (userID user)) then (t, Err MNotFound)
                    else
                      let user := if IsAdmin reqUser && seqb (rqCreator req) "" then creator else user in
                      let save id t := change (tbSave (rowOf req id files user) t) in
                      if negb (seqb (rqNewID req) "") && negb (seqb (rqNewID req) (rqID req)) then
                        if negb (CanCustomizeShareID (Permission reqUser)) then (t, Err MDenied)
                        else if negb (validSharingID (rqNewID req)) then (t, Err MInvalidID)
                        else match tbGet (rqNewID req) t with
                             | Some _ => (t, Err MIdTaken)
                             | None =>
                                 match tbUpdateId (sID row) (rqNewID req) t with
                                 | (t, false) => (t, Err MDatabase)
                                 | (t, true) => save (rqNewID req) t
                                 end
                             end
                      else save (sID row) t
                end
            end
        end
    end.

(** A share the user may manage *)
Definition managed (reqUser : User) (sid : gostr) (t : T) : res manage_err SharingDB :=
  match tbGet sid t with
  | None => Err MNotFound
  | Some row =>
      match userById (CreatorId row) with
      | None => Err MNotFound
      | Some _ => if mayManage reqUser row (userID reqUser) then Ok row else Err MNotFound
      end
  end.

(** A user who may not manage the share is answered with an error that is nil:
    ErrorResp panics, and nothing is changed. *)
Definition DeleteSharing (reqUser : User) (sid : gostr) (t : T) : T * res manage_err unit :=
  match managed reqUser sid t with
  | Err e => (t, Err e)
  | Ok _ => change (tbDelete sid t)
  end.

Definition SetEnableSharing (disable : bool) (reqUser : User) (sid : gostr) (t : T) : T * res manage_err unit :=
  match managed reqUser sid t with
  | Err e => (t, Err e)
  | Ok row =>
      change (tbSave (mkRow (sID row) (FilesRaw row) (Expires row) (Pwd row) (Accessed row) (MaxAccessed row) (CreatorId row) disable
        (sTexts row) (sSort row)) t)
  end.

Definition GetSharing (reqUser : User) (sid : gostr) (t : T) : res manage_err SharingDB :=
  match tbGet sid t with
  | None => Err MNotFound
  | Some row =>
      match userById (CreatorId row) with
      | None => Err MNotFound
      | Some creator => if IsAdmin reqUser || (userID creator =? userID reqUser) then Ok row else Err MNotFound
      end
  end.

Inductive manageReq :=
| CreateReq (req : UpdateSharingReq) (random : gostr) (more : list gostr)
| UpdateReq (req : UpdateSharingReq)
| DeleteReq (sid : gostr)
| SetEnableReq (disable : bool) (sid : gostr).

Definition manage (reqUser : User) (r : manageReq) (t : T) : T * res manage_err unit :=
  match r with
  | CreateReq req random more => CreateSharing reqUser req random more t
  | UpdateReq req => UpdateSharing reqUser req t
  | DeleteReq sid => DeleteSharing reqUser sid t
  | SetEnableReq disable sid => SetEnableSharing disable reqUser sid t
  end.
End Shares.

(** ** The table *)
Class TableLaws (T : Type) {TB : SharingTable T} := {
  tb_id k row t : tbGet k t = Some row -> k <> [] -> sID row = k;
  (* First with an empty condition *)
  tb_first row t : tbGet [] t = Some row -> sID row <> [] /\ tbGet (sID row) t = Some row;
  tb_save row t k : sID row <> [] -> k <> [] ->
    tbGet k (tbSave row t).1 = if (tbSave row t).2 then (if decide (k = sID row) then Some row else tbGet k t) else tbGet k t;
  tb_create row t k : sID row <> [] -> k <> [] -> tbGet (sID row) t = None ->
    tbGet k (tbCreate row t).1 = if (tbCreate row t).2 then (if decide (k = sID row) then Some row else tbGet k t) else tbGet k t;
  tb_update old new t k : old <> [] -> new <> [] -> k <> [] -> tbGet new t = None ->
    tbGet k (tbUpdateId old new t).1 =
      if (tbUpdateId old new t).2 then
        if decide (k = new) then
          (fun row => mkRow new (FilesRaw row) (Expires row) (Pwd row) (Accessed row) (MaxAccessed row) (CreatorId row) (Disabled row)
                        (sTexts row) (sSort row)) <$> tbGet old t
        else if decide (k = old) then None else tbGet k t
      else tbGet k t;
  tb_delete k t k' : k' <> [] ->
    tbGet k' (tbDelete k t).1 = if (tbDelete k t).2 then (if decide (k' = k) then None else tbGet k' t) else tbGet k' t
}.

(** ** Paths of a share *)
Definition canonical (f : gostr) : Prop := fixAndCleanPath f = f.

(** [p] is one of the files or lies below it. *)
Definition behind (files : list gostr) (p : gostr) : Prop :=
  exists f, f ∈ files /\ norm_segs f `prefix_of` norm_segs p.

Lemma canonical_mkpath f : canonical f -> f = mkpath (norm_segs f).
Proof. unfold canonical. by rewrite fixAndCleanPath_mkpath. Qed.

Lemma canonical_fix p : canonical (fixAndCleanPath p).
Proof. unfold canonical. by rewrite !fixAndCleanPath_mkpath, norm_segs_mkpath by apply norm_segs_clean. Qed.

Lemma join_behind a b : Forall clean_seg a -> Forall clean_seg b -> a `prefix_of` norm_segs (path_join2 (mkpath a) (mkpath b)).
Proof.
  intros Ha Hb. unfold path_join2. rewrite path_Join_rooted by (by apply clean_good). rewrite norm_segs_mkpath by (by apply Forall_app). by eexists.
Qed.

(** path.Join with the rest of a path, which has no leading slash. *)
Lemma join_rest a b : Forall clean_seg a -> Forall clean_seg b -> path_join2 (mkpath a) (joinStr b [slash]) = mkpath (a ++ b).
Proof.
  intros Ha Hb. pose proof (clean_good _ Ha) as Ga. pose proof (clean_good _ Hb) as Gb.
  destruct b as [|c b].
  - rewrite app_nil_r. change (path_join2 (mkpath a) (joinStr [] [slash])) with (path_Clean (mkpath a)). by apply mkpath_good_clean.
  - unfold path_join2. rewrite path_Join_rel; [|done|intros H; by apply joinStr_nil in H].
    rewrite splitByte_join; [|done|by apply good_seg_no_slash]. rewrite cleanSegs_id by done. by rewrite rev_app_distr, !rev_involutive.
Qed.

Lemma cut_rest c b : Forall clean_seg (c :: b) -> exists found, cutByte (joinStr (c :: b) [slash]) slash = (c, joinStr b [slash], found).
Proof.
  intros [[[_ [_ [_ Hc]]] _] Hb]%Forall_cons. destruct b as [|d b].
  - exists false. unfold cutByte. simpl. by rewrite (proj2 (indexByte_None c slash) Hc).
  - exists true. rewrite joinStr_cons by done. by apply cutByte_app.
Qed.

Lemma findBase_in child files : findBase child files = [] \/ findBase child files ∈ files.
Proof.
  induction files as [|f files IH]; simpl; [by left|]. destruct (seqb child (path_Base f)); [right; by left|]. destruct IH; [by left|right; by right].
Qed.

(** The path behind a path of a share lies below one of the shared files. *)
Lemma unwrap_behind s path p : Forall canonical (Files s) -> canonical path -> GetSharingUnwrapPath s path = Ok p ->
  behind (Files s) p /\ (forall c, Creator s = Some c -> IsAdmin c = false -> norm_segs (BasePath c) `prefix_of` norm_segs p).
Proof.
  intros Hf Hp H. assert (L : exists f x, f ∈ Files s /\ p = mkpath (norm_segs f ++ x) /\ Forall clean_seg x /\
    (forall c, Creator s = Some c -> IsAdmin c = false -> isSubPath (BasePath c) f = true)).
  { unfold GetSharingUnwrapPath in H. set (outside := match Creator s with Some c => _ | None => None end) in H.
    assert (Hout : outside = None -> forall f, f ∈ Files s -> forall c, Creator s = Some c -> IsAdmin c = false -> isSubPath (BasePath c) f = true).
    { unfold outside. intros Ho f Hin c Hc Ha. rewrite Hc, Ha in Ho. apply find_none with (x := f) in Ho; [by apply negb_false_iff in Ho|].
      by apply list_elem_of_In. }
    clearbody outside. rewrite Forall_forall in Hf. rewrite (canonical_mkpath _ Hp) in H. pose proof (norm_segs_clean path) as Hc.
    destruct (Files s) as [|f [|g files]] eqn:Ef; [done| |]; (destruct outside; [done|]).
    - injection H as <-. exists f, (norm_segs path). split_and!; [by left| |done|by apply Hout; [|left]].
      rewrite (canonical_mkpath f) at 1 by (apply Hf; by left). unfold path_join2. apply path_Join_rooted; [apply clean_good, norm_segs_clean|by apply clean_good].
    - rewrite fixAndCleanPath_mkpath, norm_segs_mkpath in H by done. change (drop 1 (mkpath (norm_segs path))) with (joinStr (norm_segs path) [slash]) in H.
      destruct (length _ =? 0)%nat eqn:El; [done|]. destruct (norm_segs path) as [|c rest] eqn:En; [done|].
      destruct (cut_rest c rest Hc) as [found Hcut]. rewrite Hcut in H.
      destruct (findBase_in c (f :: g :: files)) as [E|E]; [rewrite E in H; done|].
      set (h := findBase c (f :: g :: files)) in *. clearbody h. destruct (seqb h ""); [done|]. injection H as <-. exists h, rest.
      split_and!; [done| |by apply Forall_cons in Hc as []|by apply Hout].
      rewrite (canonical_mkpath h) at 1 by (by apply Hf). apply join_rest; [apply norm_segs_clean|by apply Forall_cons in Hc as []]. }
  destruct L as (f & x & Hin & -> & Hx & Hs). rewrite norm_segs_mkpath by (apply Forall_app; split; [apply norm_segs_clean|done]). split.
  - exists f. split; [done|]. rewrite norm_segs_mkpath by (apply Forall_app; split; [apply norm_segs_clean|done]). by eexists.
  - intros c Hc Ha. specialize (Hs c Hc Ha). apply isSubPath_segs in Hs. by apply prefix_app_r.
Qed.

(** ** Who changes a share *)
Section Manage.
Context {T : Type} {TB : SharingTable T} {TL : TableLaws T}.
Context (userById : Z -> option User) (userByName : gostr -> option User) (validSharingID : gostr -> bool).
Context (u : User).

(** The user may change the row; the files of the row are ones the user may
    share, or those of a row the user may change. *)
Definition hers (row : SharingDB) : Prop := IsAdmin u = false -> CreatorId row = userID u.
Definition shareable (f : gostr) : Prop := canonical f /\ (IsAdmin u = false -> norm_segs (BasePath u) `prefix_of` norm_segs f).
Definition allowedRow (t : T) (row : SharingDB) : Prop :=
  hers row /\ ((exists l, FilesRaw row = Some l /\ Forall shareable l) \/
                exists k row0, tbGet k t = Some row0 /\ hers row0 /\ FilesRaw row = FilesRaw row0).

Definition changesOwn (t t' : T) : Prop := forall k, k <> [] -> tbGet k t' = tbGet k t \/
  (forall row, tbGet k t = Some row -> hers row) /\ (forall row, tbGet k t' = Some row -> allowedRow t row).

Lemma changesOwn_refl t : changesOwn t t.
Proof. intros k _. by left. Qed.

Lemma cleanFiles_shareable user files l : (IsAdmin u = false -> user = u) -> cleanFiles u user files = Ok l -> Forall shareable l.
Proof.
  intros Hu. revert l. induction files as [|f files IH]; intros l; simpl; [by intros [= <-]|].
  destruct (negb (IsAdmin u) && _) eqn:E; [done|]. destruct (cleanFiles u user files) as [l'|e]; [|done]. intros [= <-].
  constructor; [|by apply IH]. split; [apply canonical_fix|]. intros Ha. rewrite Ha, (Hu Ha) in E. simpl in E. by apply negb_false_iff, isSubPath_segs in E.
Qed.

Lemma clean_again l : Forall shareable l -> map fixAndCleanPath l = l.
Proof. induction 1 as [|f l [Hf _] _ IH]; simpl; [done|]. by rewrite IH, Hf. Qed.

Lemma rowOf_allowed t req id files creator : Forall shareable files -> (IsAdmin u = false -> userID creator = userID u) ->
  allowedRow t (rowOf req id files creator).
Proof. intros Hf Hc. split; [by intros Ha; simpl; apply Hc|]. left. exists files. split; [|done]. simpl. by rewrite clean_again. Qed.

(** A row found under any condition is a row of its id. *)
Lemma row_at sid row t : tbGet sid t = Some row -> sID row <> [] /\ tbGet (sID row) t = Some row.
Proof.
  intros H. destruct (decide (sid = [])) as [->|Hne]; [by apply tb_first|]. pose proof (tb_id _ _ _ H Hne) as E. by rewrite E.
Qed.

Lemma save_own t row row' : tbGet (sID row') t = Some row -> sID row' <> [] -> hers row -> allowedRow t row' -> changesOwn t (tbSave row' t).1.
Proof.
  intros Hr Hne Hh Ha k Hk. rewrite (tb_save row' t k Hne Hk). destruct (tbSave row' t).2; [|by left]. case_decide as E; [|by left]. right. subst k.
  split; [intros r; rewrite Hr; by intros [= <-]|by intros r [= <-]].
Qed.

Lemma create_own t row : tbGet (sID row) t = None -> sID row <> [] -> allowedRow t row -> changesOwn t (tbCreate row t).1.
Proof.
  intros Hr Hne Ha k Hk. rewrite (tb_create row t k Hne Hk Hr). destruct (tbCreate row t).2; [|by left]. case_decide as E; [|by left]. right. subst k.
  split; [intros r Hr'; congruence|by intros r [= <-]].
Qed.

Lemma freeId_spec id more (t : T) x : id <> [] -> freeId id more t = Some x -> x <> [] /\ tbGet x t = None.
Proof.
  revert id. induction more as [|c more IH]; intros id Hne; simpl; destruct (tbGet id t) eqn:E; try done; try (by intros [= <-]).
  apply IH. by destruct id.
Qed.

Lemma createRow_own t random more row : random <> [] ->
  (forall id, allowedRow t (mkRow id (FilesRaw row) (Expires row) (Pwd row) (Accessed row) (MaxAccessed row) (CreatorId row) (Disabled row) (sTexts row) (sSort row))) ->
  changesOwn t (createRow random more row t).1.
Proof.
  intros Hrand Ha. unfold createRow. destruct (seqb (sID row) "") eqn:E.
  - destruct (freeId random (take 3 more) t) as [x|] eqn:Ef; [|apply changesOwn_refl]. apply freeId_spec in Ef as [Hx Hn]; [|done]. by apply create_own.
  - apply seqb_false in E. destruct (tbGet (sID row) t) eqn:Er; [apply changesOwn_refl|]. apply create_own; [done|done|]. specialize (Ha (sID row)). by destruct row.
Qed.

Lemma mayManage_hers row : mayManage u row (userID u) = true -> hers row.
Proof. unfold mayManage, hers. intros H Ha. rewrite Ha in H. by apply Z.eqb_eq in H. Qed.

Lemma managed_hers sid t row : managed userById u sid t = Ok row -> tbGet sid t = Some row /\ hers row.
Proof.
  unfold managed. destruct (tbGet sid t) as [r|]; [|done]. destruct (userById (CreatorId r)); [|done].
  destruct (mayManage u r (userID u)) eqn:E; [|done]. intros [= <-]. split; [done|by apply mayManage_hers].
Qed.

Lemma CreateSharing_own t req random more : random <> [] -> changesOwn t (CreateSharing userByName validSharingID u req random more t).1.
Proof.
  intros Hr. unfold CreateSharing. destruct (noFiles req); [apply changesOwn_refl|]. destruct (_ && _); [apply changesOwn_refl|].
  destruct (if IsAdmin u && negb (seqb (rqCreator req) "") then _ else _) as [user|e] eqn:Eu; [|apply changesOwn_refl].
  assert (Hu : IsAdmin u = false -> user = u).
  { intros Ha. rewrite Ha in Eu. simpl in Eu. destruct (_ || _); [done|]. by injection Eu. }
  destruct (cleanFiles u user (rqFiles req)) as [files|e] eqn:Ef; [|apply changesOwn_refl]. apply cleanFiles_shareable in Ef; [|done].
  apply createRow_own; [done|]. intros id. apply (rowOf_allowed t req id files user Ef). intros Ha. by rewrite (Hu Ha).
Qed.

(** A new id for a row, and then its new contents *)
Lemma rename_own t row row' new : tbGet (sID row) t = Some row -> sID row <> [] -> hers row -> new <> [] -> tbGet new t = None ->
  changesOwn t (tbUpdateId (sID row) new t).1 /\
  ((tbUpdateId (sID row) new t).2 = true -> sID row' = new -> allowedRow t row' -> changesOwn t (tbSave row' (tbUpdateId (sID row) new t).1).1).
Proof.
  intros Hr Hne Hh Hn Hnone. assert (Hnew : forall r', tbGet new t = Some r' -> hers r') by (intros r'; congruence).
  assert (Hold : forall r', tbGet (sID row) t = Some r' -> hers r') by (intros r'; rewrite Hr; by intros [= <-]). split.
  - intros k Hk. rewrite (tb_update _ _ t k Hne Hn Hk Hnone). destruct (tbUpdateId _ _ t).2; [|by left].
    case_decide as E1; [right; subst k; split; [done|]|case_decide as E2; [right; by subst k|by left]].
    rewrite Hr. intros r [= <-]. split; [done|]. right. by exists (sID row), row.
  - intros Hok <- Ha k Hk. rewrite (tb_save row' _ k Hn Hk). rewrite (tb_update _ _ t k Hne Hn Hk Hnone), Hok.
    destruct (decide (k = sID row')) as [->|E1].
    + right. split; [done|]. rewrite Hr. destruct (tbSave _ _).2; intros r [= <-]; [done|]. split; [done|]. right. by exists (sID row), row.
    + destruct (tbSave _ _).2; (case_decide as E2; [right; subst k; by split|by left]).
Qed.

Lemma UpdateSharing_own t req : changesOwn t (UpdateSharing userById userByName validSharingID u req t).1.
Proof.
  unfold UpdateSharing. destruct (noFiles req); [apply changesOwn_refl|].
  destruct (if IsAdmin u && negb (seqb (rqCreator req) "") then _ else _) as [user|e] eqn:Eu; [|apply changesOwn_refl].
  assert (Hu : IsAdmin u = false -> user = u).
  { intros Ha. rewrite Ha in Eu. simpl in Eu. destruct (negb _); [done|]. by injection Eu. }
  destruct (cleanFiles u user (rqFiles req)) as [files|e] eqn:Ef; [|apply changesOwn_refl]. apply cleanFiles_shareable in Ef; [|done].
  destruct (tbGet (rqID req) t) as [row|] eqn:Er; [|apply changesOwn_refl]. destruct (userById (CreatorId row)) as [creator|]; [|apply changesOwn_refl].
  destruct (mayManage u row (userID user)) eqn:Em; [|apply changesOwn_refl]. cbn [negb]. cbv zeta.
  assert (Hh : hers row).
  { intros Ha. rewrite (Hu Ha) in Em. by apply (mayManage_hers _ Em). }
  destruct (row_at _ _ _ Er) as [Hne Hat]. set (user' := if IsAdmin u && seqb (rqCreator req) "" then creator else user).
  assert (Ha : forall id, allowedRow t (rowOf req id files user')).
  { intros id. apply rowOf_allowed; [done|]. unfold user'. intros Ha. rewrite Ha. simpl. by rewrite (Hu Ha). }
  destruct (negb (seqb (rqNewID req) "") && _) eqn:En; [|by apply (save_own t row)].
  apply andb_true_iff in En as [En%negb_true_iff%seqb_false _]. destruct (negb (CanCustomizeShareID _)); [apply changesOwn_refl|].
  destruct (negb (validSharingID _)); [apply changesOwn_refl|]. destruct (tbGet (rqNewID req) t) eqn:Enew; [apply changesOwn_refl|].
  destruct (rename_own t row (rowOf req (rqNewID req) files user') (rqNewID req) Hat Hne Hh En Enew) as [H1 H2].
  destruct (tbUpdateId (sID row) (rqNewID req) t) as [t1 [|]]; [|done]. by apply H2.
Qed.

Lemma manage_own r t : (forall req random more, r = CreateReq req random more -> random <> []) ->
  changesOwn t (manage userById userByName validSharingID u r t).1.
Proof.
  intros Hr. destruct r as [req random more|req|sid|disable sid]; cbn [manage].
  - apply CreateSharing_own. by eapply Hr.
  - apply UpdateSharing_own.
  - unfold DeleteSharing. destruct (managed userById u sid t) as [row|e] eqn:E; [|apply changesOwn_refl]. apply managed_hers in E as [E Hh].
    intros k Hk. unfold change. cbn [fst]. rewrite tb_delete by done. destruct (tbDelete sid t).2; [|by left]. case_decide; [right|by left]. subst k.
    split; [|done]. intros r. rewrite E. by intros [= <-].
  - unfold SetEnableSharing. destruct (managed userById u sid t) as [row|e] eqn:E; [|apply changesOwn_refl]. apply managed_hers in E as [E Hh].
    destruct (row_at _ _ _ E) as [Hne Hat]. unfold change. cbn [fst]. apply (save_own t row); [done|done|done|]. split; [done|].
    right. by exists sid, row.
Qed.
End Manage.

(** ** What a visitor reaches *)
Section Access.
Context {W E T : Type} {FS : ShareFs W E} {TB : SharingTable T}.
Context (sortSlice : (Obj -> Obj -> bool) -> list Obj -> list Obj) (naturalLess : gostr -> gostr -> bool)
        (userById : Z -> option User).

Abbreviation state := (shareState (W := W) (T := T)).
Abbreviation Sm := (S (W := W) (E := E) (T := T)).

(** The paths a computation asks the storages about satisfy [P], its result [Q]. *)
Definition asks {A} (P : gostr -> Prop) (m : Sm A) (Q : A -> Prop) : Prop := forall w,
  table (m w).1 = table w /\ (exists ps, asked (m w).1 = asked w ++ ps /\ Forall P ps) /\
  match (m w).2 with Ok a => Q a | Err _ => True end.

Lemma asks_quiet {A} P (m : Sm A) (Q : A -> Prop) : (forall w, (m w).1 = w /\ match (m w).2 with Ok a => Q a | Err _ => True end) -> asks P m Q.
Proof. intros H w. destruct (H w) as [-> HQ]. split_and!; [done| |done]. exists []. by rewrite app_nil_r. Qed.
Lemma asks_ret {A} P (a : A) (Q : A -> Prop) : Q a -> asks P (mret a) Q.
Proof. intros H. by apply asks_quiet. Qed.
Lemma asks_fail {A} P e (Q : A -> Prop) : asks P (sfail e) Q.
Proof. by apply asks_quiet. Qed.
Lemma asks_ask {A} (P : gostr -> Prop) p (m : W -> W * res E A) : P p -> asks P (ask p m) (fun _ => True).
Proof. intros H w. unfold ask. destruct (m (shFs w)). split_and!; [done| |done]. exists [p]. by repeat constructor. Qed.
Lemma asks_bind {A B} P (m : Sm A) (k : A -> Sm B) (R : A -> Prop) (Q : B -> Prop) :
  asks P m R -> (forall a, R a -> asks P (k a) Q) -> asks P (m ≫= k) Q.
Proof.
  intros Hm Hk w. unfold mbind, S_bind. destruct (Hm w) as (T1 & (ps & A1 & F1) & HR). destruct (m w) as [w1 [a|e]]; simpl in *.
  - destruct (Hk a HR w1) as (T2 & (qs & A2 & F2) & HQ). split_and!; [congruence| |done]. exists (ps ++ qs).
    rewrite A2, A1, (assoc_L (++)). split; [done|]. by apply Forall_app.
  - split_and!; [done| |done]. by exists ps.
Qed.
Lemma asks_true {A} P (m : Sm A) (R : A -> Prop) : asks P m R -> asks P m (fun _ => True).
Proof. intros H w. destruct (H w) as (? & ? & _). split_and!; try done. by destruct (m w).2. Qed.
Lemma asks_orFs {A} P (m : Sm (res E A)) : asks P m (fun _ => True) -> asks P (orFs m) (fun _ => True).
Proof. intros H. eapply asks_bind; [exact H|]. intros [a|e] _; [by apply asks_ret|apply asks_fail]. Qed.
Lemma asks_mono {A} (P P' : gostr -> Prop) (m : Sm A) Q : (forall p, P p -> P' p) -> asks P m Q -> asks P' m Q.
Proof. intros H Hm w. destruct (Hm w) as (Ht & (ps & Ha & F) & HQ). split_and!; try done. exists ps. split; [done|]. by eapply Forall_impl. Qed.

(** Lies below a shared file, and below the base path of the creator. *)
Definition confined (s : Sharing) (p : gostr) : Prop :=
  behind (Files s) p /\ (forall c, Creator s = Some c -> IsAdmin c = false -> norm_segs (BasePath c) `prefix_of` norm_segs p).

Lemma asks_unwrapped s path : Forall canonical (Files s) -> canonical path -> asks (confined s) (unwrapped s path) (confined s).
Proof.
  intros Hf Hp. unfold unwrapped. destruct (GetSharingUnwrapPath s path) as [p|e] eqn:Eu; [|apply asks_fail].
  apply asks_ret. by apply (unwrap_behind _ _ _ Hf Hp).
Qed.

(** The share an access opens: the row, its creator; it is valid and the
    password is right. *)
Definition opened (now : Z) (sid pwd : gostr) (t : T) (s : Sharing) : Prop :=
  tbGet sid t = Some (sdb s) /\ Files s = default [] (FilesRaw (sdb s)) /\ Creator s = userById (CreatorId (sdb s)) /\
  Valid now s = true /\ Verify s pwd = true.

Lemma checked_bind {A} now sid pwd (k : Sharing -> Sm A) w :
  let '(w', r) := (checked userById now sid pwd ≫= k) w in
  (w' = w /\ is_ok r = false) \/ exists s, opened now sid pwd (table w) s /\ (w', r) = k s w.
Proof.
  unfold checked, GetSharingById, mbind, S_bind, mret, S_ret, sfail. destruct (tbGet sid (table w)) as [row|] eqn:Et; [|by left].
  destruct (userById (CreatorId row)) as [c|] eqn:Ec; [|by left]. destruct (negb (Valid _ _)) eqn:Ev; [by left|].
  destruct (negb (Verify _ _)) eqn:Ep; [by left|]. apply negb_false_iff in Ev, Ep. destruct (k _ w) as [w' r] eqn:Ek. right.
  eexists. split; [|by rewrite Ek]. done.
Qed.

(** What the three accesses do with an opened share *)
Section Opened.
Context (s : Sharing) (Hf : Forall canonical (Files s)).
Abbreviation mine x := (x.1 = s).

Lemma asks_find P p : asks P (virtualAt p) (fun _ => True).
Proof. by apply asks_quiet. Qed.

Lemma rootObjs_asks files : (forall f, f ∈ files -> f ∈ Files s) -> asks (behind (Files s)) (rootObjs files) (fun _ => True).
Proof.
  induction files as [|f files IH]; intros Hin; [by apply asks_ret|]. cbn [rootObjs].
  eapply (asks_bind _ _ _ (fun _ => True)); [|intros here _; eapply asks_bind; [apply IH; intros g Hg; apply Hin; by right|]; intros objs _; by apply asks_ret].
  destruct (negb (seqb f "/")); [|by apply asks_ret]. eapply asks_bind; [apply asks_find|]. intros [vf|] _; [by apply asks_ret|].
  eapply asks_bind; [apply asks_ask; exists f; split; [apply Hin; by left|done]|]. intros r _. by apply asks_ret.
Qed.

Lemma get_asks path sid : asks (confined s)
  (if inside s (fixAndCleanPath path) then
     unwrapPath ← unwrapped s (fixAndCleanPath path);
     if negb (seqb unwrapPath "/") then
       v ← virtualAt unwrapPath;
       match v with
       | Some f => mret (s, f)
       | None => obj ← orFs (ask unwrapPath (shGet unwrapPath)); mret (s, obj)
       end
     else mret (s, shareRoot sid)
   else mret (s, shareRoot sid)) (fun x => mine x).
Proof.
  destruct (inside _ _); [|by apply asks_ret]. eapply asks_bind; [apply asks_unwrapped; [done|apply canonical_fix]|]. intros u Hu.
  destruct (negb _); [|by apply asks_ret]. eapply asks_bind; [apply asks_find|]. intros [v|] _; [by apply asks_ret|].
  eapply asks_bind; [by apply asks_orFs, asks_ask|]. intros o _. by apply asks_ret.
Qed.

Lemma down_asks path d : asks (confined s)
  (if inside s (fixAndCleanPath path) then
     unwrapPath ← unwrapped s (fixAndCleanPath path);
     orFs (ask unwrapPath (shStorage unwrapPath));;
     generated ← (if isRendition unwrapPath then
                    l ← orFs (ask unwrapPath (shLink true unwrapPath));
                    mret (if IsGeneratedLink l then Some l else None)
                  else mret None);
     match generated with
     | Some l => mret (s, AProxy l)
     | None =>
         proxied ← sreading (shouldProxy unwrapPath);
         url ← sreading (downProxyURL unwrapPath);
         if (proxied : bool) && negb d && negb (seqb url "") then mret (s, ARedirect url)
         else
           l ← orFs (ask unwrapPath (shLink false unwrapPath));
           mret (s, if proxied : bool then AProxy l else ARedirect l)
     end
   else sfail RootLink) (fun x => mine x).
Proof.
  destruct (inside _ _); [|by apply asks_fail]. eapply asks_bind; [apply asks_unwrapped; [done|apply canonical_fix]|]. intros u Hu.
  eapply asks_bind; [by apply asks_orFs, asks_ask|]. intros _ _. eapply (asks_bind _ _ _ (fun _ => True)).
  { destruct (isRendition u); [|by apply asks_ret]. eapply asks_bind; [by apply asks_orFs, asks_ask|]. intros l _. by apply asks_ret. }
  intros [l|] _; [by apply asks_ret|]. eapply asks_bind; [by apply (asks_quiet _ _ (fun _ => True))|]. intros proxied _.
  eapply asks_bind; [by apply (asks_quiet _ _ (fun _ => True))|]. intros url _. destruct (_ && _); [by apply asks_ret|].
  eapply asks_bind; [by apply asks_orFs, asks_ask|]. intros l _. by apply asks_ret.
Qed.

Lemma list_asks path refresh :
  asks (fun p => behind (Files s) p /\ (inside s (fixAndCleanPath path) = true -> confined s p))
  (if inside s (fixAndCleanPath path) then
     unwrapPath ← unwrapped s (fixAndCleanPath path);
     virtualFiles ← sreading (shVirtual unwrapPath);
     r ← ask unwrapPath (shList unwrapPath refresh);
     objs ← (match r with
             | Ok objs => mret objs
             | Err e => if (length virtualFiles =? 0)%nat then sfail (ShareFsError e) else mret []
             end);
     mret (s, arranged sortSlice naturalLess s (Merge (fun _ _ => false) NewObjMerge objs virtualFiles).2)
   else
     objs ← rootObjs (Files s);
     mret (s, arranged sortSlice naturalLess s objs)) (fun x => mine x).
Proof.
  destruct (inside _ _).
  - eapply asks_mono; [|eapply asks_bind; [apply asks_unwrapped; [done|apply canonical_fix]|]].
    { intros p Hp. split; [apply Hp|by intros _]. }
    intros u Hu. eapply asks_bind; [by apply (asks_quiet _ _ (fun _ => True))|]. intros vs _. eapply asks_bind; [by apply asks_ask|]. intros r _.
    eapply (asks_bind _ _ _ (fun _ => True)); [|intros objs _; by apply asks_ret].
    destruct r; [by apply asks_ret|]. destruct (_ =? _)%nat; [by apply asks_fail|by apply asks_ret].
  - eapply asks_mono; [|eapply asks_bind; [by apply rootObjs_asks|]; intros objs _; by apply asks_ret]. intros p Hp. by split.
Qed.
End Opened.

(** The id, the path and the password of a request *)
Definition requestOf (r : accessReq) : gostr * gostr * gostr :=
  match r with
  | SharingGetReq reqPath pwd => let '(sid, path) := splitPath reqPath in (sid, path, pwd)
  | SharingListReq reqPath pwd _ => let '(sid, path) := splitPath reqPath in (sid, path, pwd)
  | SharingDownReq sid path pwd _ => (sid, path, pwd)
  end.

(** The listing of the root of a share of several files *)
Definition rootListing (r : accessReq) (s : Sharing) : bool :=
  match r with SharingListReq reqPath _ _ => negb (inside s (fixAndCleanPath (splitPath reqPath).2)) | _ => false end.

(** What a request may ask the storages about *)
Definition reach (r : accessReq) (s : Sharing) (p : gostr) : Prop :=
  behind (Files s) p /\ (rootListing r s = false -> confined s p).

Definition rowsCanonical (t : T) : Prop := forall id row, tbGet id t = Some row -> Forall canonical (default [] (FilesRaw row)).

Lemma serve_reach now r w : rowsCanonical (table w) ->
  let '(w', x) := serve sortSlice naturalLess userById now r w in
  let '(sid, path, pwd) := requestOf r in
  table w' = table w /\
  ((asked w' = asked w /\ is_ok x = false) \/
   exists s ps, opened now sid pwd (table w) s /\ asked w' = asked w ++ ps /\ Forall (reach r s) ps /\
     match x with Ok (s', _) => s' = s | Err _ => True end).
Proof.
  intros Hc. assert (Canon : forall sid pwd s, opened now sid pwd (table w) s -> Forall canonical (Files s)).
  { intros sid pwd s (Hr & -> & _). by apply (Hc sid). }
  assert (Run : forall {A} sid pwd (k : Sharing -> Sm (Sharing * A)) (P : Sharing -> gostr -> Prop),
    (forall s, Forall canonical (Files s) -> asks (P s) (k s) (fun x => x.1 = s)) ->
    let '(w', x) := (checked userById now sid pwd ≫= k) w in table w' = table w /\
    ((asked w' = asked w /\ is_ok x = false) \/ exists s ps, opened now sid pwd (table w) s /\ asked w' = asked w ++ ps /\ Forall (P s) ps /\
       match x with Ok y => y.1 = s | Err _ => True end)).
  { intros A sid pwd k P Hk. pose proof (checked_bind now sid pwd k w) as L. destruct ((checked userById now sid pwd ≫= k) w) as [w' x].
    destruct L as [[-> Hx]|(s & Ho & Heq)]; [by split; [|left]|]. destruct (Hk s (Canon _ _ _ Ho) w) as (HT & (ps & HA & HF) & HQ).
    rewrite <- Heq in *. split; [done|]. right. exists s, ps. by split_and!. }
  assert (Map : forall {A} (m : Sm (Sharing * A)) (g : A -> answer) w0,
    (('(s, a) ← m; mret (s, g a)) : Sm (Sharing * answer)) w0 = let '(w', x) := m w0 in (w', match x with Ok (s, a) => Ok (s, g a) | Err e => Err e end)).
  { intros A m g w0. unfold mbind, S_bind. by destruct (m w0) as [w' [[s a]|e]]. }
  assert (Wide : forall r s ps, Forall (confined s) ps -> Forall (reach r s) ps).
  { intros r' s ps H. eapply Forall_impl; [exact H|]. intros p Hp. split; [apply Hp|done]. }
  destruct r as [reqPath pwd|reqPath pwd refresh|sid path pwd d]; cbn [serve requestOf].
  - destruct (splitPath reqPath) as [sid path] eqn:Esp. destruct (seqb sid ""); [by split; [|left]|]. rewrite Map.
    pose proof (Run _ sid pwd _ _ (fun s Hs => get_asks s Hs path sid)) as L.
    change (checked userById now sid pwd ≫= _) with (get (E := E) userById now sid path pwd) in L.
    destruct (get userById now sid path pwd w) as [w' [[s a]|e]]; destruct L as [HT [?|(s' & ps & H1 & H2 & H3 & H4)]];
      (split; [done|]); [by left|right; exists s', ps; split_and!; auto|by left|right; exists s', ps; split_and!; auto].
  - destruct (splitPath reqPath) as [sid path] eqn:Esp. destruct (seqb sid ""); [by split; [|left]|]. rewrite Map.
    pose proof (Run _ sid pwd _ _ (fun s Hs => list_asks s Hs path refresh)) as L.
    change (checked userById now sid pwd ≫= _) with (list_ (E := E) sortSlice naturalLess userById now sid path pwd refresh) in L.
    assert (Wide' : forall s ps, Forall (fun p => behind (Files s) p /\ (inside s (fixAndCleanPath path) = true -> confined s p)) ps ->
      Forall (reach (SharingListReq reqPath pwd refresh) s) ps).
    { intros s ps H. eapply Forall_impl; [exact H|]. intros p [Hb Hp]. split; [done|]. unfold rootListing. rewrite Esp. intros Hr. by apply Hp, negb_false_iff. }
    destruct (list_ sortSlice naturalLess userById now sid path pwd refresh w) as [w' [[s a]|e]]; destruct L as [HT [?|(s' & ps & H1 & H2 & H3 & H4)]];
      (split; [done|]); [by left|right; exists s', ps; split_and!; auto|by left|right; exists s', ps; split_and!; auto].
  - pose proof (Run _ sid pwd _ _ (fun s Hs => down_asks s Hs path d)) as L.
    change (checked userById now sid pwd ≫= _) with (SharingDown (E := E) userById now sid path pwd d) in L.
    destruct (SharingDown userById now sid path pwd d w) as [w' [[s a]|e]]; destruct L as [HT [?|(s' & ps & H1 & H2 & H3 & H4)]];
      (split; [done|]); [by left|right; exists s', ps; split_and!; auto|by left|right; exists s', ps; split_and!; auto].
Qed.
End Access.

(** ** The rows there can be *)
Section Reached.
Context {T : Type} {TB : SharingTable T} {TL : TableLaws T}.
Context (validSharingID : gostr -> bool).

(** A new id is random and not empty. *)
Definition randomIds (r : manageReq) : Prop :=
  match r with CreateReq _ random _ => random <> [] | _ => True end.

(** The tables the handlers bring about, from one with no share. The users may
    change in between; the row an access counts may have been read in any earlier
    table, as countAccess saves it after the request has been answered. The shares
    of a user are deleted with the user. *)
Inductive reached : T -> Prop :=
| reached_empty t : (forall id, tbGet id t = None) -> reached t
| reached_manage userById userByName u r t :
    reached t -> randomIds r -> reached (manage userById userByName validSharingID u r t).1
| reached_count t0 id row t : reached t0 -> tbGet id t0 = Some row -> reached t -> reached (tbSave (withAccess row) t).1
| reached_delete userId t t' :
    reached t -> (forall id, id <> [] -> tbGet id t' = match tbGet id t with
                                                       | Some row => if CreatorId row =? userId then None else Some row
                                                       | None => None
                                                       end) -> reached t'.

Lemma rows_by_id t : (forall id row, id <> [] -> tbGet id t = Some row -> Forall canonical (default [] (FilesRaw row))) -> rowsCanonical t.
Proof. intros H id row Hr. apply row_at in Hr as [Hne Hat]. by apply (H (sID row)). Qed.

Lemma own_canonical u t t' : changesOwn u t t' -> rowsCanonical t -> rowsCanonical t'.
Proof.
  intros H Hc. apply rows_by_id. intros id row Hne Hr. destruct (H id Hne) as [E|[_ Hn]].
  - rewrite E in Hr. by apply (Hc id).
  - destruct (Hn row Hr) as [_ [(l & -> & Hl)|(k & row0 & Hk & _ & ->)]]; [|by apply (Hc k)].
    eapply Forall_impl; [exact Hl|]. by intros f [Hf _].
Qed.

Lemma reached_canonical t : reached t -> rowsCanonical t.
Proof.
  induction 1 as [t H|userById userByName u r t _ IH Hr|t0 id row t _ IH0 Hrow _ IH|userId t t' _ IH H].
  - intros id row E. by rewrite H in E.
  - eapply own_canonical; [|exact IH]. apply manage_own. by intros req random more ->.
  - apply rows_by_id. intros k r Hk. destruct (row_at _ _ _ Hrow) as [Hne _]. rewrite (tb_save (withAccess row) t k Hne Hk).
    destruct (tbSave _ t).2; [|apply (IH k)]. case_decide; [|apply (IH k)]. intros [= <-]. apply (IH0 id row Hrow).
  - apply rows_by_id. intros id row Hne. rewrite (H id Hne). destruct (tbGet id t) as [r|] eqn:E; [|done].
    destruct (_ =? _); [done|]. intros [= <-]. by apply (IH id).
Qed.
End Reached.

(** ** Properties *)

(** C4: a visitor of a share reaches only what is shared, whatever requests were
    made before: a request is refused, with nothing asked of the storages and the
    table unchanged, unless the share with its id is valid and the password
    right; and then each path asked about is a shared file or lies below one and,
    but for the listing of the root of several files, below the present base path
    of a creator who is no admin. The only change of the table is the count of
    this share. *)
Theorem share_confined {W E T : Type} {FS : ShareFs W E} {TB : SharingTable T} {TL : TableLaws T} sortSlice naturalLess userById
    validSharingID now known r (w : shareState (W := W) (T := T)) : reached validSharingID (table w) ->
  let '(w', x) := handle (E := E) sortSlice naturalLess userById now known r w in
  let '(sid, path, pwd) := requestOf r in
  (asked w' = asked w /\ table w' = table w /\ is_ok x = false) \/
  exists s ps, opened userById now sid pwd (table w) s /\ asked w' = asked w ++ ps /\ Forall (reach r s) ps /\
    table w' = if is_ok x && negb known then (tbSave (withAccess (sdb s)) (table w)).1 else table w.
Proof.
  intros Hc%reached_canonical. pose proof (serve_reach (E := E) sortSlice naturalLess userById now r w Hc) as L. unfold handle, mbind, S_bind.
  destruct (serve _ _ _ now r w) as [w1 [[s a]|e]];
    destruct (requestOf r) as [[sid path] pwd]; destruct L as [HT [[HA Hx]|(s' & ps & H1 & H2 & H3 & H4)]]; try done.
  - subst s'. unfold countAccess. destruct known; right; exists s, ps; cbn; [done|]. by rewrite HT.
  - by left.
  - right. exists s', ps. by split_and!.
Qed.

(** C22: users change their own shares only, and only an admin another's: after a
    request a row is as it was, or the user may change it; a new or changed row
    belongs to the user and shares what lies below the user's base path, or what
    a row of the user shared before. What is shared is kept as clean paths. *)
Theorem shares_owned {T : Type} {TB : SharingTable T} {TL : TableLaws T} userById userByName validSharingID u r (t : T) :
  randomIds r -> changesOwn u t (manage userById userByName validSharingID u r t).1.
Proof. intros Hr. apply manage_own. by intros req random more ->. Qed.

(** ** A table and storages in memory *)
Definition withId (id : gostr) (row : SharingDB) : SharingDB :=
  mkRow id (FilesRaw row) (Expires row) (Pwd row) (Accessed row) (MaxAccessed row) (CreatorId row) (Disabled row) (sTexts row) (sSort row).

(** The rows by their ids; those under the empty id are not used. *)
Abbreviation rows := (gmap gostr SharingDB).
Definition someRow (t : rows) : option SharingDB :=
  (fun kv => withId kv.1 kv.2) <$> head (filter (fun kv => kv.1 <> []) (map_to_list t)).

#[export] Instance memTable : SharingTable rows := {|
  tbGet k t := if decide (k = []) then someRow t else withId k <$> t !! k;
  tbSave row t := if decide (sID row = []) then (t, false) else (<[sID row := row]> t, true);
  tbCreate row t := if decide (sID row = []) then (t, false) else (<[sID row := row]> t, true);
  tbUpdateId old new t := (match t !! old with Some row => <[new := row]> (delete old t) | None => t end, true);
  tbDelete k t := if decide (k = []) then (t, false) else (delete k t, true)
|}.

Lemma withId_same row : withId (sID row) row = row.
Proof. by destruct row. Qed.

Lemma insert_row (t : rows) row k : k <> [] ->
  withId k <$> (<[sID row := row]> t) !! k = if decide (k = sID row) then Some row else withId k <$> t !! k.
Proof.
  intros Hk. case_decide as E; [rewrite E, lookup_insert_eq; cbn; by rewrite withId_same|by rewrite lookup_insert_ne].
Qed.

#[export] Instance memTableLaws : TableLaws rows.
Proof.
  split; cbn.
  - intros k row t H Hk. rewrite decide_False in H by done. apply fmap_Some in H as (r & _ & ->). done.
  - intros row t. unfold someRow. destruct (head _) as [[k r]|] eqn:E; [|done]. intros [= <-]. cbn.
    assert (Hin : (k, r) ∈ filter (fun kv => kv.1 <> []) (map_to_list t)) by (destruct (filter _ _); [done|injection E as ->; by left]).
    apply list_elem_of_filter in Hin as [Hk Hin%elem_of_map_to_list]. cbn in Hk. split; [done|]. rewrite decide_False by done. by rewrite Hin.
  - intros row t k Hr Hk. rewrite !(decide_False (P := sID row = [])), !(decide_False (P := k = [])) by done. by apply insert_row.
  - intros row t k Hr Hk _. rewrite !(decide_False (P := sID row = [])), !(decide_False (P := k = [])) by done. by apply insert_row.
  - intros old new t k Ho Hn Hk. rewrite !(decide_False (P := k = [])), !(decide_False (P := old = [])), !(decide_False (P := new = [])) by done.
    intros Hnone%fmap_None. destruct (t !! old) as [row|] eqn:E; cbn.
    + case_decide as E1; [by rewrite E1, lookup_insert_eq|]. rewrite lookup_insert_ne by done.
      case_decide as E2; [by rewrite E2, lookup_delete_eq|by rewrite lookup_delete_ne].
    + case_decide as E1; [by rewrite E1, Hnone|]. case_decide as E2; [by rewrite E2, E|done].
  - intros k t k' Hk. rewrite !(decide_False (P := k' = [])) by done. case_decide; [done|]. cbn.
    case_decide as E2; [by rewrite E2, lookup_delete_eq|by rewrite lookup_delete_ne].
Qed.

(** The files there are; no virtual ones. *)
Abbreviation files := (list gostr).
Definition fileObj (p : gostr) : Obj := Leaf (mkObject [] p (path_Base p) 0 0 0 false [] 0) None.

#[export] Instance memFiles : ShareFs files unit := {|
  shVirtual _ _ := [];
  shGet p w := (w, if decide (p ∈ w) then Ok (fileObj p) else Err tt);
  shList p _ w := (w, Ok (map fileObj (filter (fun f => path_Dir f = p) w)));
  shStorage _ w := (w, Ok tt);
  shLink _ p w := (w, if decide (p ∈ w) then Ok p else Err tt);
  isRendition _ := false;
  IsGeneratedLink _ := false;
  shouldProxy _ _ := false;
  downProxyURL _ _ := []
|}.

(** Anna may share, with ids of her choice, what is below /home; the admin may
    share everything. *)
Definition anna : User := mkUser 7 GENERAL "/home" (2 ^ 14 + 2 ^ 15) [] [].
Definition usersAt (base : gostr) (id : Z) : option User := if id =? 7 then Some (mkUser 7 GENERAL base (2 ^ 14 + 2 ^ 15) [] []) else None.

Definition plainReq (id : gostr) (fs : list gostr) : UpdateSharingReq := mkReq fs None [] 0 false ([], [], []) ([], [], []) [] 0 id [].

Abbreviation byAnna r t := (manage (usersAt "/home") (fun _ => None) (fun _ => true) anna r t).1.

Definition shared : rows := byAnna (CreateReq (plainReq "pics" ["/home/a" : gostr; "/home/./b/" : gostr; "/home/c" : gostr]) "r" []) ∅.

Abbreviation demoState := (shareState (W := files) (T := rows)).
Definition demoFiles : files := ["/home/a" : gostr; "/home/b/x" : gostr; "/home/c" : gostr; "/etc/key" : gostr].
Definition demo : demoState := mkShareState demoFiles shared [].
Definition visit (base : gostr) (r : accessReq) (w : demoState) := handle (E := unit) (fun _ l => l) (fun _ _ => false) (usersAt base) 0 false r w.

Lemma shared_reached : reached (fun _ => true) shared.
Proof. apply reached_manage; [|done]. apply reached_empty. intros id. cbn. case_decide; [done|by rewrite lookup_empty]. Qed.

Lemma share_confined_witness :
  let r := SharingDownReq "pics" "/b/../b/x" [] false in
  reached (fun _ => true) (table demo) /\ is_ok (visit "/home" r demo).2 = true /\ asked (visit "/home" r demo).1 = ["/home/b/x" : gostr; "/home/b/x" : gostr] /\
  is_ok (visit "/home" (SharingDownReq "pics" "/../../etc/key" [] false) demo).2 = false /\
  exists s ps, opened (usersAt "/home") 0 "pics" [] (table demo) s /\ asked (visit "/home" r demo).1 = asked demo ++ ps /\ Forall (reach r s) ps.
Proof.
  cbv zeta. split; [exact shared_reached|]. split; [vm_compute; reflexivity|]. split; [vm_compute; reflexivity|]. split; [vm_compute; reflexivity|].
  pose proof (share_confined (E := unit) (fun _ l => l) (fun _ _ => false) (usersAt "/home") (fun _ => true) 0 false
    (SharingDownReq "pics" "/b/../b/x" [] false) demo shared_reached) as L.
  assert (Hok : is_ok (visit "/home" (SharingDownReq "pics" "/b/../b/x" [] false) demo).2 = true) by (vm_compute; reflexivity).
  unfold visit in *. destruct (handle _ _ _ _ _ _ demo) as [w' x]. cbn [requestOf fst snd] in *.
  destruct L as [(_ & _ & Hx)|(s & ps & H1 & H2 & H3 & _)]; [congruence|]. exists s, ps. split; [exact H1|]. split; [exact H2|exact H3].
Defined.

(** Bob, who may share everything, may not delete Anna's share; Anna may. *)
Definition bob : User := mkUser 8 GENERAL "/" (2 ^ 14) [] [].
Lemma shares_owned_witness :
  let m u r := manage (usersAt "/home") (fun _ => None) (fun _ => true) u r shared in
  (m bob (DeleteReq "pics")).2 = Err MNotFound /\ is_ok (m anna (DeleteReq "pics")).2 = true /\
  changesOwn bob shared (m bob (CreateReq (plainReq [] ["/etc" : gostr]) "r" [])).1.
Proof.
  cbv zeta. split; [vm_compute; reflexivity|]. split; [vm_compute; reflexivity|].
  exact (shares_owned (usersAt "/home") (fun _ => None) (fun _ => true) bob (CreateReq (plainReq [] ["/etc" : gostr]) "r" []) shared ltac:(discriminate)).
Defined.

(** Anna's base path has become /home/b. Nothing inside the share is served any
    more, but the listing of its root still asks about every file. *)
Example root_listing_outside :
  let list_root := visit "/home/b" (SharingListReq "/pics" [] false) demo in
  is_ok list_root.2 = true /\ asked list_root.1 = ["/home/a" : gostr; "/home/b" : gostr; "/home/c" : gostr] /\
  (visit "/home/b" (SharingGetReq "/pics/a" []) demo).2 = Err (UnwrapFailed (OutsideBasePath "/home/a")).
Proof. vm_compute. done. Qed.

(** An access is being answered while Anna disables the share: the row saved for
    the count enables it again. *)
Example count_enables :
  let '(w, x) := serve (E := unit) (fun _ l => l) (fun _ _ => false) (usersAt "/home") 0 (SharingDownReq "pics" "/a" [] false) demo in
  let disabled := byAnna (SetEnableReq true "pics") (table w) in
  match x with
  | Ok (s, _) =>
      Disabled <$> tbGet "pics" disabled = Some true /\
      Disabled <$> tbGet "pics" (table (countAccess (E := unit) false s (mkShareState (shFs w) disabled (asked w))).1) = Some false
  | Err _ => False
  end.
Proof. vm_compute. done. Qed.

(** A download with an empty id is one of some share. *)
Example empty_id_found : is_ok (visit "/home" (SharingDownReq [] "/a" [] false) demo).2 = true.
Proof. vm_compute. done. Qed.
