(* ===== verification/FtpStage.v ===== *)
(** The upload stage of the FTP server: src/server/ftp/upload_stage.go. While an
    upload is on its way to the storage, its temporary file stands for it: it can
    be listed, read, renamed and removed under its path.

    The stage is a trie of the library go-patricia, here the class [Trie]; a
    pointer to an UploadingFile is its number. Every function runs under the
    mutex. [disk] are the temporary files; opening and removing one may fail. The
    callbacks of an upload are recorded as [events]. *)
From S2P Require Import Prelude GoString.

(** ** The library *)
Class Trie (T I : Type) := {
  tEmpty : T;
  tGet : gostr -> T -> option I;
  tInsert : gostr -> I -> T -> T * bool;    (* false when the key is there *)
  tDelete : gostr -> T -> T;
  tSubtree : gostr -> T -> list (gostr * I) (* the keys with the prefix *)
}.

Class TrieLaws (T I : Type) {TT : Trie T I} := {
  get_empty k : tGet k tEmpty = None;
  get_insert k i t k' : tGet k t = None -> tGet k' (tInsert k i t).1 = if decide (k' = k) then Some i else tGet k' t;
  insert_ok k i t : tGet k t = None -> (tInsert k i t).2 = true;
  insert_conflict k i j t : tGet k t = Some j -> tInsert k i t = (t, false);
  get_delete k t k' : tGet k' (tDelete k t) = if decide (k' = k) then None else tGet k' t;
  elem_subtree p t k i : (k, i) ∈ tSubtree p t <-> hasPrefix k p = true /\ tGet k t = Some i;
  subtree_NoDup p t : NoDup (tSubtree p t).*1
}.

(** ** The stage *)

Record UploadingFile := mkUploading {
  uName : gostr;                    (* the temporary file *)
  uSize : Z;
  uModTime : Z;
  refCount : Z;
  currentPath : gostr;
  softLinks : list gostr;
  hasRmCallback : bool
}.

(** *UploadingFile or *softLink *)
Inductive entry := Upload (u : nat) | SoftLink (target : nat).
Definition target (e : entry) : nat := match e with Upload u => u | SoftLink u => u end.

Record BorrowedFile := mkBorrowed { bFile : gostr; bPath : gostr }.

Inductive stage_err := StageNotFound | ErrStagePathConflict | ErrStageMoved | OpenFailed.

Inductive event := MvCallback (u : nat) (to : gostr) | RmCallback (u : nat).

Record stagedObj := mkStaged { soPath : gostr; soName : gostr; soSize : Z; soModified : Z }.

Section Stage.
Context {T : Type} {TT : Trie T entry}.

Record Stage := mkStage {
  trie : T;
  uploads : list UploadingFile;
  disk : gset gostr;
  events : list event
}.

Definition InitStage : Stage := mkStage tEmpty [] ∅ [].

Definition getUpload (s : Stage) (u : nat) : UploadingFile := default (mkUploading [] 0 0 0 [] [] false) (uploads s !! u).
Definition setUpload (u : nat) (f : UploadingFile) (s : Stage) : Stage := mkStage (trie s) (<[u := f]> (uploads s)) (disk s) (events s).
Definition emit (e : event) (s : Stage) : Stage := mkStage (trie s) (uploads s) (disk s) (events s ++ [e]).
Definition onTrie (f : T -> T) (s : Stage) : Stage := mkStage (f (trie s)) (uploads s) (disk s) (events s).

Definition setRef (f : UploadingFile) (n : Z) : UploadingFile :=
  mkUploading (uName f) (uSize f) (uModTime f) n (currentPath f) (softLinks f) (hasRmCallback f).

Definition SetRemoveCallback (u : nat) (s : Stage) : Stage :=
  let f := getUpload s u in
  setUpload u (mkUploading (uName f) (uSize f) (uModTime f) (refCount f) (currentPath f) (softLinks f) true) s.

(** The upload of a new entry is a new UploadingFile. *)
Definition MakeStage (buffer : gostr) (size now : Z) (path : gostr) (s : Stage) : Stage * res stage_err (nat * BorrowedFile) :=
  let u := length (uploads s) in
  let f := mkUploading buffer size now 1 path [] false in
  match tInsert path (Upload u) (trie s) with
  | (_, false) => (s, Err ErrStagePathConflict)
  | (t, true) => (mkStage t (uploads s ++ [f]) (disk s) (events s), Ok (u, mkBorrowed buffer path))
  end.

(** The upload a path stands for, when it is its current path. *)
Definition lookupStage (s : Stage) (path : gostr) : res stage_err nat :=
  match tGet path (trie s) with
  | None => Err StageNotFound
  | Some v => if seqb (currentPath (getUpload s (target v))) path then Ok (target v) else Err ErrStageMoved
  end.

(** [opens]: os.OpenFile succeeds, if the file is there. *)
Definition Borrow (opens : bool) (path : gostr) (s : Stage) : Stage * res stage_err BorrowedFile :=
  match lookupStage s path with
  | Err e => (s, Err e)
  | Ok u =>
      let f := getUpload s u in
      if opens && bool_decide (uName f ∈ disk s) then (setUpload u (setRef f (refCount f + 1)) s, Ok (mkBorrowed (uName f) path))
      else (s, Err OpenFailed)
  end.

(** [removes]: os.RemoveAll succeeds. The callback runs in a goroutine. *)
Definition drop_ (removes : bool) (path : gostr) (s : Stage) : Stage :=
  match tGet path (trie s) with
  | None => s
  | Some v =>
      let u := target v in
      let f := setRef (getUpload s u) (refCount (getUpload s u) - 1) in
      let s := setUpload u f s in
      if refCount f =? 0 then
        let s := if removes then mkStage (trie s) (uploads s) (disk s ∖ {[uName f]}) (events s) else s in
        let s := onTrie (fun t => tDelete path (fold_left (fun t sl => tDelete sl t) (softLinks f) t)) s in
        if negb (seqb (currentPath f) path) && negb (seqb (currentPath f) "") then emit (MvCallback u (currentPath f)) s else s
      else s
  end.

(** Close of a BorrowedFile; the error of closing the file is left out. *)
Definition CloseBorrowed (removes : bool) (b : BorrowedFile) (s : Stage) : Stage := drop_ removes (bPath b) s.

Definition ListStage (path : gostr) (s : Stage) : list (gostr * stagedObj) :=
  let path := path ++ "/" in
  omap (fun '(visit, item) =>
    let '(name, _, nonDirect) := cutByte (trimPrefix visit path) "/"%char in
    if (nonDirect : bool) then None
    else
      let f := getUpload s (target item) in
      if seqb (currentPath f) visit then Some (name, mkStaged visit name (uSize f) (uModTime f)) else None)
    (tSubtree path (trie s)).

Definition StatStage (path : gostr) (s : Stage) : res stage_err gostr :=
  match lookupStage s path with
  | Err e => Err e
  | Ok u => if bool_decide (uName (getUpload s u) ∈ disk s) then Ok (uName (getUpload s u)) else Err OpenFailed
  end.

Definition MoveStage (from to : gostr) (s : Stage) : Stage * res stage_err unit :=
  match lookupStage s from with
  | Err e => (s, Err e)
  | Ok u =>
      match tInsert to (SoftLink u) (trie s) with
      | (_, false) => (s, Err ErrStagePathConflict)
      | (t, true) =>
          let f := getUpload s u in
          (setUpload u (mkUploading (uName f) (uSize f) (uModTime f) (refCount f) to (softLinks f ++ [to]) (hasRmCallback f))
             (mkStage t (uploads s) (disk s) (events s)), Ok tt)
      end
  end.

Definition RemoveStage (path : gostr) (s : Stage) : Stage * res stage_err unit :=
  match lookupStage s path with
  | Err e => (s, Err e)
  | Ok u =>
      let f := getUpload s u in
      let s := setUpload u (mkUploading (uName f) (uSize f) (uModTime f) (refCount f) "" (softLinks f) (hasRmCallback f)) s in
      (if hasRmCallback f then emit (RmCallback u) s else s, Ok tt)
  end.

(** ** Use of the stage *)

(** An upload creates a temporary file with a new name and is staged with it;
    the other calls are those of the clients. Whoever was given a BorrowedFile
    closes it once. *)
Inductive call :=
| CMake (buffer : gostr) (size now : Z) (path : gostr)
| CSetRemove (u : nat)
| CBorrow (opens : bool) (path : gostr)
| CClose (removes : bool) (i : nat)
| CMove (from to : gostr)
| CRemove (path : gostr).

Record system := mkSystem { stage : Stage; held : list BorrowedFile }.

Definition start : system := mkSystem InitStage [].

Definition sysStep (c : call) (w : system) : system :=
  let s := stage w in
  match c with
  | CMake buffer size now path =>
      let s := mkStage (trie s) (uploads s) (disk s ∪ {[buffer]}) (events s) in
      match MakeStage buffer size now path s with
      | (s, Ok (_, b)) => mkSystem s (held w ++ [b])
      | (s, Err _) => mkSystem s (held w)
      end
  | CSetRemove u => if decide (u < length (uploads s))%nat then mkSystem (SetRemoveCallback u s) (held w) else w
  | CBorrow opens path =>
      match Borrow opens path s with
      | (s, Ok b) => mkSystem s (held w ++ [b])
      | (s, Err _) => mkSystem s (held w)
      end
  | CClose removes i =>
      match held w !! i with
      | Some b => mkSystem (CloseBorrowed removes b s) (delete i (held w))
      | None => w
      end
  | CMove from to => mkSystem (MoveStage from to s).1 (held w)
  | CRemove path => mkSystem (RemoveStage path s).1 (held w)
  end.

(** The names of temporary files are new, paths are not empty. *)
Definition allowed (c : call) (w : system) : Prop :=
  match c with
  | CMake buffer _ _ path => buffer ∉ disk (stage w) /\ path <> []
  | CMove _ to => to <> []
  | _ => True
  end.

End Stage.

Arguments Stage T : clear implicits.
Arguments system T : clear implicits.

(** ** A trie: a finite map *)
#[export] Instance mapTrie I : Trie (gmap gostr I) I := {|
  tEmpty := ∅;
  tGet k t := t !! k;
  tInsert k i t := match t !! k with Some _ => (t, false) | None => (<[k := i]> t, true) end;
  tDelete := delete;
  tSubtree p t := filter (fun kv => hasPrefix kv.1 p = true) (map_to_list t)
|}.

#[export] Instance mapTrieLaws I : TrieLaws (gmap gostr I) I.
Proof.
  split; cbn.
  - intros k. apply lookup_empty.
  - intros k i t k' ->. cbn. case_decide as H; [subst; apply lookup_insert_eq|by apply lookup_insert_ne].
  - by intros k i t ->.
  - by intros k i j t ->.
  - intros k t k'. case_decide as H; [subst; apply lookup_delete_eq|by apply lookup_delete_ne].
  - intros p t k i. by rewrite list_elem_of_filter, elem_of_map_to_list.
  - intros p t. eapply sublist_NoDup; [apply (NoDup_fst_map_to_list t)|]. apply fmap_sublist, sublist_filter.
Qed.

(** A client reads an upload under its new name and closes it after the upload
    has ended: the move is forgotten, and the old path stays taken. *)
Example reader_outlives_upload :
  let run := fold_left (fun w c => sysStep (T := gmap gostr entry) c w) in
  let w := run [CMake "tmp1" 5 0 "/a"; CMove "/a" "/b"; CBorrow true "/b"; CClose true 0; CClose true 0] start in
  held w = [] /\ disk (stage w) = ∅ /\ events (stage w) = [] /\ tGet ("/a" : gostr) (trie (stage w)) = Some (Upload 0) /\
  held (sysStep (CMake "tmp2" 5 0 "/a") w) = [] /\
  events (stage (run [CMake "tmp1" 5 0 "/a"; CMove "/a" "/b"; CClose true 0] start)) = [MvCallback 0 "/b"].
Proof. vm_compute. done. Qed.

Section Spec.
Context {T : Type} {TT : Trie T entry} {TL : TrieLaws T entry}.

Abbreviation system := (FtpStage.system T).

Definition entryOf (w : system) (p : gostr) : option entry := tGet p (trie (stage w)).
Definition upl (w : system) (u : nat) : option UploadingFile := uploads (stage w) !! u.
Definition held_by (own : list nat) (u : nat) : Z := Z.of_nat (length (filter (fun v => v = u) own)).

(** [orig]: the first path of each upload; [own]: the upload each BorrowedFile
    belongs to; [tidy]: every temporary file could be removed. *)
Record Inv (tidy : bool) (orig : list gostr) (own : list nat) (w : system) : Prop := {
  i_len : length orig = length (uploads (stage w));
  i_entry p e : entryOf w p = Some e -> p <> [] /\ exists f, upl w (target e) = Some f /\
    match e with
    | Upload u => orig !! u = Some p /\ (refCount f = 0 -> softLinks f <> [])
    | SoftLink u => p ∈ softLinks f /\ refCount f <> 0
    end;
  i_count u f : upl w u = Some f -> refCount f = held_by own u;
  i_live u f : upl w u = Some f -> refCount f <> 0 ->
    (exists p, orig !! u = Some p /\ entryOf w p = Some (Upload u)) /\
    (forall p, p ∈ softLinks f -> entryOf w p = Some (SoftLink u)) /\ uName f ∈ disk (stage w);
  i_cur u f p : upl w u = Some f -> orig !! u = Some p ->
    currentPath f = [] \/ (softLinks f = [] /\ currentPath f = p) \/ (currentPath f ∈ softLinks f /\ currentPath f <> p);
  i_names u v f g : upl w u = Some f -> upl w v = Some g -> refCount f <> 0 -> refCount g <> 0 -> uName f = uName g -> u = v;
  i_held : Forall2 (fun b u => exists e f, entryOf w (bPath b) = Some e /\ target e = u /\ upl w u = Some f /\ bFile b = uName f) (held w) own;
  i_tidy u f : tidy = true -> upl w u = Some f -> uName f ∈ disk (stage w) ->
    exists v g, upl w v = Some g /\ refCount g <> 0 /\ uName g = uName f
}.

Lemma held_by_nonneg own u : 0 <= held_by own u.
Proof. unfold held_by. lia. Qed.

Lemma held_by_pos own u : held_by own u <> 0 <-> u ∈ own.
Proof.
  unfold held_by. induction own as [|v own IH]; [by split; [|intros ?%not_elem_of_nil]|].
  rewrite filter_cons, elem_of_cons. case_decide as H; [subst; simpl; split; [auto|lia]|].
  rewrite IH. naive_solver.
Qed.

Lemma held_by_snoc own v u : held_by (own ++ [v]) u = held_by own u + if decide (v = u) then 1 else 0.
Proof. unfold held_by. rewrite filter_app, length_app, filter_cons. case_decide; simpl; lia. Qed.

Lemma held_by_delete own i v u : own !! i = Some v -> held_by (delete i own) u = held_by own u - if decide (v = u) then 1 else 0.
Proof.
  intros H. rewrite <- (take_drop_middle _ _ _ H) at 2. unfold held_by. rewrite delete_take_drop.
  rewrite !filter_app, !length_app, filter_cons. case_decide; simpl; lia.
Qed.

(** What one finds under a path is an upload that somebody holds. *)
Lemma lookup_live tidy orig own w p u : Inv tidy orig own w -> lookupStage (stage w) p = Ok u ->
  p <> [] /\ exists e f, entryOf w p = Some e /\ target e = u /\ upl w u = Some f /\ refCount f <> 0 /\ currentPath f = p.
Proof.
  intros I. unfold lookupStage. destruct (tGet p (trie (stage w))) as [e|] eqn:E; [|done].
  destruct (seqb _ _) eqn:Ec; [|done]. apply seqb_true in Ec. intros [= <-].
  destruct (i_entry _ _ _ _ I p e E) as (Hp & f & Hf & He). unfold getUpload in Ec. unfold upl in Hf. rewrite Hf in Ec. simpl in Ec.
  split; [done|]. exists e, f. split_and!; try done. destruct e as [v|v]; simpl in *.
  - destruct He as [Ho Hs]. intros H0. specialize (Hs H0). destruct (i_cur _ _ _ _ I v f p Hf Ho) as [?|[[? ?]|[? ?]]]; congruence.
  - apply He.
Qed.

(** ** The steps *)
Definition changeUpload (u : nat) (f : UploadingFile) (w : system) : system := mkSystem (setUpload u f (stage w)) (held w).

Lemma upl_lt w u f : upl w u = Some f -> (u < length (uploads (stage w)))%nat.
Proof. apply lookup_lt_Some. Qed.

Lemma getUpload_eq w u f : upl w u = Some f -> getUpload (stage w) u = f.
Proof. unfold upl, getUpload. by intros ->. Qed.

Lemma upl_change w u f v : (u < length (uploads (stage w)))%nat -> upl (changeUpload u f w) v = if decide (v = u) then Some f else upl w v.
Proof. intros H. unfold upl. simpl. case_decide; [subst; by apply list_lookup_insert_eq|by apply list_lookup_insert_ne]. Qed.

(** Another callback, or a removed upload. *)
Lemma change_inv tidy orig own w u f f' : Inv tidy orig own w -> upl w u = Some f ->
  uName f' = uName f -> refCount f' = refCount f -> softLinks f' = softLinks f -> currentPath f' = currentPath f \/ currentPath f' = [] ->
  Inv tidy orig own (changeUpload u f' w).
Proof.
  intros I Hu Hn Hr Hs Hc. pose proof (fun v => upl_change w u f' v (upl_lt _ _ _ Hu)) as U.
  assert (Old : forall v g, upl (changeUpload u f' w) v = Some g -> exists g0, upl w v = Some g0 /\ uName g = uName g0 /\
    refCount g = refCount g0 /\ softLinks g = softLinks g0 /\ (currentPath g = currentPath g0 \/ currentPath g = [])).
  { intros v g. rewrite U. case_decide as E; [subst v; intros [= <-]; by exists f|intros H; exists g; split_and!; auto]. }
  assert (New : forall v g, upl w v = Some g -> exists g', upl (changeUpload u f' w) v = Some g' /\ uName g' = uName g /\
    refCount g' = refCount g /\ softLinks g' = softLinks g).
  { intros v g Hv. rewrite U. case_decide as E; [subst v; rewrite Hu in Hv; injection Hv as <-; by exists f'|by exists g]. }
  split.
  - simpl. rewrite length_insert. apply I.
  - intros p e He. destruct (i_entry _ _ _ _ I p e He) as (Hp & g & Hg & H). split; [done|].
    destruct (New _ _ Hg) as (g' & Hg' & N1 & N2 & N3). exists g'. split; [done|]. by rewrite N2, N3.
  - intros v g (g0 & Hg & _ & -> & _)%Old. by apply (i_count _ _ _ _ I).
  - intros v g (g0 & Hg & -> & -> & -> & _)%Old. by apply (i_live _ _ _ _ I).
  - intros v g p (g0 & Hg & _ & _ & -> & [->| ->])%Old Hp; [|by left]. by apply (i_cur _ _ _ _ I v).
  - intros v v' g g' (g0 & Hg & -> & -> & _)%Old (g0' & Hg' & -> & -> & _)%Old. by apply (i_names _ _ _ _ I).
  - eapply Forall2_impl; [apply I|]. intros b v (e & g & He & Ht & Hg & Hb).
    destruct (New _ _ Hg) as (g' & Hg' & N1 & _). exists e, g'. by rewrite N1.
  - intros v g Ht (g0 & Hg & -> & _)%Old Hd. destruct (i_tidy _ _ _ _ I v g0 Ht Hg Hd) as (v' & g' & Hv' & Hr' & Hn').
    destruct (New _ _ Hv') as (g'' & Hg'' & N1 & N2 & _). exists v', g''. by rewrite N1, N2.
Qed.

Lemma emit_inv tidy orig own w e : Inv tidy orig own w -> Inv tidy orig own (mkSystem (emit e (stage w)) (held w)).
Proof. by intros []. Qed.

Lemma remove_inv tidy orig own w p : Inv tidy orig own w -> Inv tidy orig own (sysStep (CRemove p) w).
Proof.
  intros I. simpl. unfold RemoveStage. destruct (lookupStage (stage w) p) as [u|e] eqn:E; [|by destruct w].
  destruct (lookup_live _ _ _ _ _ _ I E) as (_ & e & f & _ & _ & Hf & _). rewrite (getUpload_eq _ _ _ Hf). simpl.
  assert (I' : Inv tidy orig own (changeUpload u (mkUploading (uName f) (uSize f) (uModTime f) (refCount f) "" (softLinks f) (hasRmCallback f)) w)).
  { apply (change_inv _ _ _ _ _ f); auto. }
  destruct (hasRmCallback f); [by apply (emit_inv _ _ _ _ (RmCallback u)) in I'|done].
Qed.

Lemma setRemove_inv tidy orig own w u : Inv tidy orig own w -> Inv tidy orig own (sysStep (CSetRemove u) w).
Proof.
  intros I. simpl. case_decide as H; [|done]. apply lookup_lt_is_Some in H as [f Hf].
  unfold SetRemoveCallback. rewrite (getUpload_eq _ _ _ Hf). apply (change_inv _ _ _ _ _ f); auto.
Qed.

(** One more holder *)
Lemma borrow_inv tidy orig own w opens p : Inv tidy orig own w -> exists own', Inv tidy orig own' (sysStep (CBorrow opens p) w).
Proof.
  intros I. simpl. unfold Borrow. destruct (lookupStage (stage w) p) as [u|e] eqn:E; [|exists own; by destruct w].
  destruct (lookup_live _ _ _ _ _ _ I E) as (_ & e & f & He & Ht & Hf & Hr & _). rewrite (getUpload_eq _ _ _ Hf).
  destruct (opens && _); [|exists own; by destruct w]. exists (own ++ [u]).
  set (f' := setRef f (refCount f + 1)). pose proof (fun v => upl_change w u f' v (upl_lt _ _ _ Hf)) as U.
  assert (Hpos : 0 < refCount f).
  { rewrite (i_count _ _ _ _ I u f Hf) in *. pose proof (held_by_nonneg own u). lia. }
  assert (Old : forall v g, upl (changeUpload u f' w) v = Some g -> exists g0, upl w v = Some g0 /\ uName g = uName g0 /\
    refCount g = refCount g0 + (if decide (u = v) then 1 else 0) /\ softLinks g = softLinks g0 /\ currentPath g = currentPath g0 /\
    (refCount g <> 0 -> refCount g0 <> 0)).
  { intros v g. rewrite U. case_decide as E1; [subst v; intros [= <-]; exists f; by rewrite decide_True|].
    intros H. exists g. rewrite decide_False by done. split_and!; auto; lia. }
  assert (New : forall v g, upl w v = Some g -> exists g', upl (changeUpload u f' w) v = Some g' /\ uName g' = uName g /\
    softLinks g' = softLinks g /\ (refCount g' = 0 -> refCount g = 0) /\ (refCount g <> 0 -> refCount g' <> 0)).
  { intros v g Hv. rewrite U. case_decide as E1; [subst v; rewrite Hf in Hv; injection Hv as <-; exists f'; simpl; split_and!; try done; lia|by exists g]. }
  change (mkSystem (setUpload u f' (stage w)) (held w ++ [mkBorrowed (uName f) p])) with
    (mkSystem (stage (changeUpload u f' w)) (held w ++ [mkBorrowed (uName f) p])).
  split.
  - simpl. rewrite length_insert. apply I.
  - intros p' e' He'. destruct (i_entry _ _ _ _ I p' e' He') as (Hp & g & Hg & H). split; [done|].
    destruct (New _ _ Hg) as (g' & Hg' & N1 & N3 & N2 & N4). exists g'. split; [done|]. rewrite N3.
    destruct e'; destruct H; split; auto.
  - intros v g (g0 & Hg & _ & -> & _)%Old. rewrite held_by_snoc. by rewrite (i_count _ _ _ _ I v g0 Hg).
  - intros v g (g0 & Hg & -> & _ & -> & _ & H)%Old Hr'. apply (i_live _ _ _ _ I); auto.
  - intros v g q (g0 & Hg & _ & _ & -> & -> & _)%Old Hq. by apply (i_cur _ _ _ _ I v).
  - intros v v' g g' (g0 & Hg & -> & _ & _ & _ & H)%Old (g0' & Hg' & -> & _ & _ & _ & H')%Old ?? . apply (i_names _ _ _ _ I); auto.
  - apply Forall2_app.
    + eapply Forall2_impl; [apply I|]. intros b v (e1 & g & He1 & Ht1 & Hg & Hb).
      destruct (New _ _ Hg) as (g' & Hg' & N1 & _). exists e1, g'. by rewrite N1.
    + repeat constructor. exists e, f'. split_and!; try done. transitivity (upl (changeUpload u f' w) u); [done|]. rewrite U. by rewrite decide_True.
  - intros v g Htd (g0 & Hg & -> & _)%Old Hd. destruct (i_tidy _ _ _ _ I v g0 Htd Hg Hd) as (v' & g' & Hv' & Hr' & Hn').
    destruct (New _ _ Hv') as (g'' & Hg'' & N1 & _ & _ & N2). exists v', g''. rewrite N1. auto.
Qed.

(** A new name for an upload *)
Lemma move_inv tidy orig own w from to : Inv tidy orig own w -> to <> [] -> Inv tidy orig own (sysStep (CMove from to) w).
Proof.
  intros I Hto. simpl. unfold MoveStage. destruct (lookupStage (stage w) from) as [u|e] eqn:E; [|by destruct w].
  destruct (lookup_live _ _ _ _ _ _ I E) as (_ & e & f & He & Ht & Hf & Hr & Hc). rewrite (getUpload_eq _ _ _ Hf).
  destruct (tGet to (trie (stage w))) as [j|] eqn:Hj; [rewrite (insert_conflict to (SoftLink u) j _ Hj); by destruct w|].
  pose proof (insert_ok to (SoftLink u) _ Hj) as Hok. pose proof (fun k => get_insert to (SoftLink u) _ k Hj) as G.
  destruct (tInsert to (SoftLink u) (trie (stage w))) as [t b]. simpl in Hok, G. subst b. simpl.
  set (f' := mkUploading (uName f) (uSize f) (uModTime f) (refCount f) to (softLinks f ++ [to]) (hasRmCallback f)).
  set (w1 := mkSystem (mkStage t (uploads (stage w)) (disk (stage w)) (events (stage w))) (held w)).
  change (Inv tidy orig own (changeUpload u f' w1)).
  pose proof (fun v => upl_change w1 u f' v (upl_lt w _ _ Hf)) as U.
  assert (Gin : forall p e', entryOf w p = Some e' -> tGet p t = Some e').
  { intros p e' Hp. rewrite G, decide_False; [done|]. intros ->. unfold entryOf in Hp. congruence. }
  split.
  - simpl. rewrite length_insert. apply I.
  - intros p e' He'. unfold entryOf in He'. simpl in He'. rewrite G in He'. case_decide as Ep.
    + injection He' as <-. subst p. split; [done|]. exists f'. split; [simpl; rewrite U; by rewrite decide_True|]. simpl. split; [|done].
      apply elem_of_app. right. by left.
    + destruct (i_entry _ _ _ _ I p e' He') as (Hp & g & Hg & H). split; [done|]. rewrite U. case_decide as Eu.
      * exists f'. split; [done|]. rewrite Eu, Hf in Hg. injection Hg as <-. destruct e' as [v|v]; simpl in *.
        -- split; [apply H|]. intros _. by destruct (softLinks f).
        -- split; [|apply H]. apply elem_of_app. left. apply H.
      * by exists g.
  - intros v g. rewrite U. case_decide as Eu; [subst v; intros [= <-]; by apply (i_count _ _ _ _ I u f)|by apply (i_count _ _ _ _ I)].
  - intros v g. rewrite U. case_decide as Eu.
    + subst v. intros [= <-] _. destruct (i_live _ _ _ _ I u f Hf Hr) as ((q & Hq & Hq') & Hs & Hd). split_and!; [|intros p Hp|done].
      * exists q. split; [done|]. by apply Gin.
      * simpl in Hp. apply elem_of_app in Hp as [Hp|Hp]; [by apply Gin, Hs|]. apply list_elem_of_singleton in Hp as ->.
        unfold entryOf. simpl. rewrite G. by rewrite decide_True.
    + intros Hg Hr'. destruct (i_live _ _ _ _ I v g Hg Hr') as ((q & Hq & Hq') & Hs & Hd). split_and!; [|intros p Hp|done].
      * exists q. split; [done|]. by apply Gin.
      * by apply Gin, Hs.
  - intros v g p. rewrite U. case_decide as Eu; [|by apply (i_cur _ _ _ _ I)]. subst v. intros [= <-] Hp. right. right. simpl. split.
    + apply elem_of_app. right. by left.
    + intros ->. destruct (i_live _ _ _ _ I u f Hf Hr) as ((q & Hq & Hq') & _). rewrite Hp in Hq. injection Hq as ->. unfold entryOf in Hq'. congruence.
  - intros v v' g g'. rewrite !U. destruct (decide (v = u)) as [E1|E1], (decide (v' = u)) as [E2|E2].
    + by rewrite E1, E2.
    + intros [= <-] Hg'. rewrite E1. by apply (i_names _ _ _ _ I u v' f g').
    + intros Hg [= <-]. rewrite E2. by apply (i_names _ _ _ _ I v u g f).
    + by apply (i_names _ _ _ _ I).
  - eapply Forall2_impl; [apply I|]. intros b v (e1 & g & He1 & Ht1 & Hg & Hb). apply Gin in He1.
    destruct (decide (v = u)) as [->|Eu].
    + exists e1, f'. rewrite Hf in Hg. injection Hg as <-. split_and!; try done. rewrite U. by rewrite decide_True.
    + exists e1, g. split_and!; try done. rewrite U. by rewrite decide_False.
  - intros v g Htd Hg Hd. assert (exists v' g', upl w v' = Some g' /\ refCount g' <> 0 /\ uName g' = uName g) as (v' & g' & Hv' & Hr' & Hn').
    { rewrite U in Hg. case_decide; [injection Hg as <-; by exists u, f|]. by apply (i_tidy _ _ _ _ I v g). }
    destruct (decide (v' = u)) as [->|Eu].
    + exists u, f'. rewrite Hf in Hv'. injection Hv' as <-. split_and!; try done. rewrite U. by rewrite decide_True.
    + exists v', g'. split_and!; try done. rewrite U. by rewrite decide_False.
Qed.

(** A new upload *)
Lemma make_inv tidy orig own w buffer size now p : Inv tidy orig own w -> buffer ∉ disk (stage w) -> p <> [] ->
  (tidy = true -> entryOf w p = None) ->
  exists orig' own', Inv tidy orig' own' (sysStep (CMake buffer size now p) w).
Proof.
  intros I Hb Hp Ht. cbn [sysStep]. unfold MakeStage. cbn [trie uploads disk events].
  destruct (tGet p (trie (stage w))) as [j|] eqn:Hj.
  - rewrite (insert_conflict p _ j _ Hj). exists orig, own. split; try apply I.
    + intros u f Hf Hr. destruct (i_live _ _ _ _ I u f Hf Hr) as (H1 & H2 & H3). split_and!; [done|done|]. simpl. set_solver.
    + intros u f Htd. unfold entryOf in Ht. specialize (Ht Htd). congruence.
  - pose proof (insert_ok p (Upload (length (uploads (stage w)))) _ Hj) as Hok.
    pose proof (fun k => get_insert p (Upload (length (uploads (stage w)))) _ k Hj) as G.
    destruct (tInsert p _ (trie (stage w))) as [t b]. simpl in Hok, G. subst b.
    set (u := length (uploads (stage w))) in *. set (f := mkUploading buffer size now 1 p [] false). exists (orig ++ [p]), (own ++ [u]).
    match goal with |- Inv _ _ _ ?x => set (w' := x) end.
    assert (Uu : upl w' u = Some f) by (unfold upl, w'; simpl; by rewrite lookup_app_r, Nat.sub_diag by done).
    assert (Uo : forall v g, upl w v = Some g -> upl w' v = Some g /\ v <> u).
    { intros v g Hv. split; [by apply lookup_app_l_Some|]. apply upl_lt in Hv. unfold u. lia. }
    assert (Un : forall v g, upl w' v = Some g -> (v = u /\ g = f) \/ upl w v = Some g).
    { intros v g Hv. unfold upl, w' in Hv. simpl in Hv. apply lookup_app_Some in Hv as [?|[? Hv]]; [by right|left].
      apply list_lookup_singleton_Some in Hv as [? <-]. split; [unfold u; lia|done]. }
    assert (Gin : forall q e', entryOf w q = Some e' -> entryOf w' q = Some e').
    { intros q e' Hq. unfold entryOf, w'. simpl. rewrite G, decide_False; [done|]. intros ->. unfold entryOf in Hq. congruence. }
    assert (Hnone : held_by own u = 0).
    { destruct (decide (held_by own u = 0)) as [|H]; [done|]. apply held_by_pos in H.
      apply list_elem_of_lookup in H as [i Hi]. destruct (Forall2_lookup_r _ _ _ _ _ (i_held _ _ _ _ I) Hi) as (bb & _ & e & g & _ & _ & Hg & _).
      by apply Uo in Hg as []. }
    assert (Ho : (orig ++ [p]) !! u = Some p) by (unfold u; rewrite <- (i_len _ _ _ _ I); by rewrite lookup_app_r, Nat.sub_diag by done).
    assert (Hoo : forall v g, upl w v = Some g -> (orig ++ [p]) !! v = orig !! v).
    { intros v g Hv. apply lookup_app_l. rewrite (i_len _ _ _ _ I). by eapply upl_lt. }
    split.
    + simpl. rewrite !length_app. by rewrite (i_len _ _ _ _ I).
    + intros q e He. unfold entryOf, w' in He. simpl in He. rewrite G in He. case_decide as Eq.
      * injection He as <-. subst q. split; [done|]. by exists f.
      * destruct (i_entry _ _ _ _ I q e He) as (Hq & g & Hg & H). split; [done|]. exists g. split; [by apply Uo|].
        destruct e as [v|v]; simpl in *; [|done]. by rewrite (Hoo v g Hg).
    + intros v g Hg. rewrite held_by_snoc. apply Un in Hg as [[-> ->]|Hg]; [rewrite Hnone; by rewrite decide_True|].
      rewrite decide_False by (intros E; by apply Uo in Hg as [_ ?]). rewrite (i_count _ _ _ _ I v g Hg). lia.
    + intros v g Hg Hr. apply Un in Hg as [[-> ->]|Hg].
      * split_and!; [|by intros q Hq%not_elem_of_nil|simpl; set_solver]. exists p. split; [done|]. unfold entryOf, w'. simpl. rewrite G. by rewrite decide_True.
      * destruct (i_live _ _ _ _ I v g Hg Hr) as ((q & Hq & Hq') & H2 & H3). split_and!; [| |simpl; set_solver].
        -- exists q. split; [by rewrite (Hoo v g Hg)|by apply Gin].
        -- intros q' Hq1. by apply Gin, H2.
    + intros v g q Hg Hq. apply Un in Hg as [[-> ->]|Hg].
      * rewrite Ho in Hq. injection Hq as <-. right. by left.
      * rewrite (Hoo v g Hg) in Hq. by apply (i_cur _ _ _ _ I v).
    + assert (Hfresh : forall v g, upl w v = Some g -> refCount g <> 0 -> uName g <> buffer).
      { intros v g Hg Hr E. destruct (i_live _ _ _ _ I v g Hg Hr) as (_ & _ & H). by rewrite E in H. }
      intros v v' g g' [[-> ->]|Hg]%Un [[-> ->]|Hg']%Un Hr Hr' Hn; [done| | |by apply (i_names _ _ _ _ I v v' g g')].
      * by destruct (Hfresh v' g').
      * by destruct (Hfresh v g).
    + apply Forall2_app.
      * eapply Forall2_impl; [apply I|]. intros b v (e1 & g & He1 & Ht1 & Hg & Hbb). exists e1, g. split_and!; try done; [by apply Gin|by apply Uo].
      * repeat constructor. exists (Upload u), f. split_and!; try done. unfold entryOf, w'. simpl. rewrite G. by rewrite decide_True.
    + intros v g Htd [[-> ->]|Hg]%Un Hd; [by exists u, f|]. simpl in Hd. apply elem_of_union in Hd as [Hd|Hd].
      * destruct (i_tidy _ _ _ _ I v g Htd Hg Hd) as (v' & g' & Hv' & Hr' & Hn'). exists v', g'. split_and!; try done. by apply Uo.
      * apply elem_of_singleton in Hd. exists u, f. by split_and!.
Qed.

(** ** The end of a borrowing *)
Lemma get_deletes l t k : tGet k (fold_left (fun t sl => tDelete sl t) l t) = if decide (k ∈ l) then None else tGet k t.
Proof.
  revert t. induction l as [|a l IH]; intros t; cbn [fold_left]; [by rewrite decide_False by apply not_elem_of_nil|].
  rewrite IH, get_delete. repeat case_decide; subst; set_solver.
Qed.

(** The entries of an upload, as its last holder removes them. *)
Definition withoutLinks (p : gostr) (f : UploadingFile) (t : T) : T := tDelete p (fold_left (fun t sl => tDelete sl t) (softLinks f) t).

Lemma get_without p f t k : tGet k (withoutLinks p f t) = if decide (k = p \/ k ∈ softLinks f) then None else tGet k t.
Proof. unfold withoutLinks. rewrite get_delete, get_deletes. repeat case_decide; tauto. Qed.

Definition lastClose (removes : bool) (u : nat) (p : gostr) (f : UploadingFile) (s : Stage T) : Stage T :=
  mkStage (withoutLinks p f (trie s)) (<[u := setRef f 0]> (uploads s)) (if removes then disk s ∖ {[uName f]} else disk s) (events s).

Lemma close_eq w removes b e f : entryOf w (bPath b) = Some e -> upl w (target e) = Some f ->
  CloseBorrowed removes b (stage w) =
  if refCount f - 1 =? 0 then
    let s := lastClose removes (target e) (bPath b) f (stage w) in
    if negb (seqb (currentPath f) (bPath b)) && negb (seqb (currentPath f) "") then emit (MvCallback (target e) (currentPath f)) s else s
  else setUpload (target e) (setRef f (refCount f - 1)) (stage w).
Proof.
  intros He Hf. unfold CloseBorrowed, drop_. unfold entryOf in He. rewrite He. rewrite (getUpload_eq w _ f Hf). simpl.
  destruct (refCount f - 1 =? 0) eqn:E; [|done]. apply Z.eqb_eq in E. rewrite E. by destruct removes.
Qed.

(** The paths of an upload stand for no other. *)
Lemma own_paths tidy orig own w u f p : Inv tidy orig own w -> upl w u = Some f -> refCount f <> 0 ->
  (exists e, entryOf w p = Some e /\ target e = u) <-> orig !! u = Some p \/ p ∈ softLinks f.
Proof.
  intros I Hf Hr. destruct (i_live _ _ _ _ I u f Hf Hr) as ((q & Hq & Hq') & Hs & _). split.
  - intros (e & He & Ht). destruct (i_entry _ _ _ _ I p e He) as (_ & g & Hg & H). rewrite Ht, Hf in Hg. injection Hg as <-.
    destruct e as [v|v]; simpl in Ht; subst v; [left; apply H|right; apply H].
  - intros [Hp|Hp]; [rewrite Hq in Hp; injection Hp as <-; by exists (Upload u)|exists (SoftLink u); split; [by apply Hs|done]].
Qed.

Lemma last_inv tidy orig own w removes i b u e f : Inv tidy orig own w -> own !! i = Some u ->
  entryOf w (bPath b) = Some e -> target e = u -> upl w u = Some f -> refCount f = 1 -> (tidy = true -> removes = true) ->
  Inv tidy orig (delete i own) (mkSystem (lastClose removes u (bPath b) f (stage w)) (delete i (held w))).
Proof.
  intros I Hi He Ht Hf Hr Hrem. set (w' := mkSystem _ _).
  assert (Hne : refCount f <> 0) by lia.
  assert (Upl : forall v, upl w' v = if decide (v = u) then Some (setRef f 0) else upl w v).
  { intros v. unfold upl, w'. simpl. case_decide as E; [rewrite E; by apply list_lookup_insert_eq, (upl_lt w u f)|by apply list_lookup_insert_ne]. }
  assert (Paths : forall k e', entryOf w k = Some e' -> (k = bPath b \/ k ∈ softLinks f) -> target e' = u).
  { intros k e' Hk [->|Hl]; [congruence|]. apply (i_live _ _ _ _ I u f Hf Hne) in Hl. rewrite Hl in Hk. by injection Hk as <-. }
  assert (Keep : forall k e', entryOf w k = Some e' -> target e' <> u -> entryOf w' k = Some e').
  { intros k e' Hk Hu. unfold entryOf, w'. simpl. rewrite get_without, decide_False; [done|]. intros H. by apply Hu, (Paths k e'). }
  assert (Back : forall k e', entryOf w' k = Some e' -> entryOf w k = Some e' /\ k <> bPath b /\ k ∉ softLinks f).
  { intros k e'. unfold entryOf, w'. simpl. rewrite get_without. case_decide as H; [done|]. intros Hk. split_and!; auto. }
  assert (Zero : forall v, v ∈ delete i own -> v <> u).
  { intros v Hv ->. apply held_by_pos in Hv. apply Hv. rewrite (held_by_delete _ _ _ _ Hi), <- (i_count _ _ _ _ I u f Hf), Hr. by rewrite decide_True. }
  split.
  - simpl. rewrite length_insert. apply I.
  - intros k e' (Hk & Hp & Hl)%Back. destruct (i_entry _ _ _ _ I k e' Hk) as (Hk0 & g & Hg & H). split; [done|]. rewrite Upl. case_decide as Ev.
    + exists (setRef f 0). split; [done|]. rewrite Ev, Hf in Hg. injection Hg as <-. destruct e' as [v|v]; simpl in *; [|by destruct H].
      split; [apply H|]. intros _ Hs. assert (Ho : orig !! u = Some (bPath b) \/ bPath b ∈ softLinks f) by (apply (own_paths _ _ _ _ _ _ _ I Hf Hne); eauto).
      rewrite Hs in Ho. destruct Ho as [Ho|Ho%not_elem_of_nil]; [|done]. subst v. destruct H as [H _]. congruence.
    + by exists g.
  - intros v g. rewrite Upl, (held_by_delete _ _ _ _ Hi). case_decide as Ev.
    + intros [= <-]. rewrite Ev, <- (i_count _ _ _ _ I u f Hf), Hr. by rewrite decide_True.
    + intros Hg. rewrite (i_count _ _ _ _ I v g Hg), decide_False by done. lia.
  - intros v g. rewrite Upl. case_decide as Ev; [by intros [= <-]|]. intros Hg Hr'.
    destruct (i_live _ _ _ _ I v g Hg Hr') as ((q & Hq & Hq') & Hs & Hd). split_and!.
    + exists q. split; [done|]. by apply Keep.
    + intros q' Hl. apply Keep; [by apply Hs|done].
    + unfold w'. simpl. destruct removes; [|done]. apply elem_of_difference. split; [done|]. rewrite elem_of_singleton. intros En.
      by apply Ev, (i_names _ _ _ _ I v u g f).
  - intros v g q. rewrite Upl. case_decide as Ev; [|by apply (i_cur _ _ _ _ I)]. intros [= <-]. rewrite Ev. by apply (i_cur _ _ _ _ I u f).
  - intros v v' g g'. rewrite !Upl. case_decide; [by intros [= <-]|]. intros Hg. case_decide; [by intros [= <-]|]. by apply (i_names _ _ _ _ I).
  - assert (F : Forall2 (fun b v => v <> u /\ exists e f, entryOf w (bPath b) = Some e /\ target e = v /\ upl w v = Some f /\ bFile b = uName f)
      (delete i (held w)) (delete i own)).
    { pose proof (Forall2_delete _ _ _ i (i_held _ _ _ _ I)) as D. apply Forall2_same_length_lookup_2; [by eapply Forall2_length|].
      intros j bb v Hbb Hv. split; [apply Zero; by eapply list_elem_of_lookup_2|by apply (Forall2_lookup_lr _ _ _ _ _ _ D Hbb Hv)]. }
    eapply Forall2_impl; [exact F|]. intros bb v (Hvu & e1 & g & He1 & Ht1 & Hg & Hbb). exists e1, g. split_and!; try done.
    + apply Keep; [done|]. by rewrite Ht1.
    + by rewrite Upl, decide_False.
  - intros v g Htd Hg Hd. unfold w' in Hd. simpl in Hd. rewrite (Hrem Htd) in Hd. apply elem_of_difference in Hd as [Hd Hn]. rewrite elem_of_singleton in Hn.
    assert (exists v' g', upl w v' = Some g' /\ refCount g' <> 0 /\ uName g' = uName g) as (v' & g' & Hv' & Hr' & Hn').
    { rewrite Upl in Hg. case_decide; [by injection Hg as <-|]. by apply (i_tidy _ _ _ _ I v g). }
    exists v', g'. split_and!; try done. rewrite Upl, decide_False; [done|]. intros ->. rewrite Hf in Hv'. injection Hv' as <-. congruence.
Qed.

(** Not the last holder *)
Lemma release_inv tidy orig own w i u f : Inv tidy orig own w -> own !! i = Some u -> upl w u = Some f -> 1 < refCount f ->
  Inv tidy orig (delete i own) (mkSystem (setUpload u (setRef f (refCount f - 1)) (stage w)) (delete i (held w))).
Proof.
  intros I Hi Hf Hr. set (f' := setRef f (refCount f - 1)). pose proof (fun v => upl_change w u f' v (upl_lt _ _ _ Hf)) as U.
  change (setUpload u f' (stage w)) with (stage (changeUpload u f' w)). set (w' := mkSystem _ _).
  change (forall v, upl w' v = if decide (v = u) then Some f' else upl w v) in U.
  split.
  - simpl. rewrite length_insert. apply I.
  - intros p e He. destruct (i_entry _ _ _ _ I p e He) as (Hp & g & Hg & H). split; [done|]. rewrite U. case_decide as Ev; [|by exists g].
    exists f'. split; [done|]. rewrite Ev, Hf in Hg. injection Hg as <-. simpl. destruct e; destruct H; split; try done; lia.
  - intros v g. rewrite U, (held_by_delete _ _ _ _ Hi). case_decide as Ev.
    + intros [= <-]. rewrite Ev, decide_True by done. by rewrite <- (i_count _ _ _ _ I u f Hf).
    + intros Hg. rewrite decide_False by done. rewrite (i_count _ _ _ _ I v g Hg). lia.
  - intros v g. rewrite U. case_decide as Ev; [|by apply (i_live _ _ _ _ I)]. intros [= <-] _. rewrite Ev. apply (i_live _ _ _ _ I u f Hf). lia.
  - intros v g q. rewrite U. case_decide as Ev; [|by apply (i_cur _ _ _ _ I)]. intros [= <-]. rewrite Ev. by apply (i_cur _ _ _ _ I u f).
  - intros v v' g g'. rewrite !U. destruct (decide (v = u)) as [E1|E1], (decide (v' = u)) as [E2|E2].
    + by rewrite E1, E2.
    + intros [= <-] Hg' _. rewrite E1. apply (i_names _ _ _ _ I u v' f g'); try done. lia.
    + intros Hg [= <-] Hg' _. rewrite E2. apply (i_names _ _ _ _ I v u g f); try done. lia.
    + by apply (i_names _ _ _ _ I).
  - eapply Forall2_impl; [apply Forall2_delete, I|]. intros b v (e1 & g & He1 & Ht1 & Hg & Hb). destruct (decide (v = u)) as [Ev|Ev].
    + exists e1, f'. rewrite Ev, Hf in Hg. injection Hg as <-. split_and!; try done. rewrite U. by rewrite decide_True.
    + exists e1, g. split_and!; try done. rewrite U. by rewrite decide_False.
  - intros v g Htd Hg Hd. assert (exists v' g', upl w v' = Some g' /\ refCount g' <> 0 /\ uName g' = uName g) as (v' & g' & Hv' & Hr' & Hn').
    { rewrite U in Hg. case_decide; [injection Hg as <-; exists u, f; split_and!; try done; lia|]. by apply (i_tidy _ _ _ _ I v g). }
    destruct (decide (v' = u)) as [Ev|Ev].
    + exists u, f'. rewrite Ev, Hf in Hv'. injection Hv' as <-. split_and!; [by rewrite U, decide_True|simpl; lia|done].
    + exists v', g'. split_and!; try done. by rewrite U, decide_False.
Qed.

(** The upload of a borrowed file *)
Lemma held_upload tidy orig own w i b : Inv tidy orig own w -> held w !! i = Some b ->
  exists u e f, own !! i = Some u /\ entryOf w (bPath b) = Some e /\ target e = u /\ upl w u = Some f /\ bFile b = uName f /\ 1 <= refCount f.
Proof.
  intros I Hb. destruct (Forall2_lookup_l _ _ _ _ _ (i_held _ _ _ _ I) Hb) as (u & Hu & e & f & He & Ht & Hf & Hn).
  exists u, e, f. split_and!; try done. rewrite (i_count _ _ _ _ I u f Hf). pose proof (held_by_nonneg own u).
  assert (held_by own u <> 0) by (apply held_by_pos; by eapply list_elem_of_lookup_2). lia.
Qed.

Lemma closing_inv tidy orig own w removes i : Inv tidy orig own w -> (tidy = true -> removes = true) ->
  exists own', Inv tidy orig own' (sysStep (CClose removes i) w).
Proof.
  intros I Hrem. simpl. destruct (held w !! i) as [b|] eqn:Hb; [|by exists own].
  destruct (held_upload _ _ _ _ _ _ I Hb) as (u & e & f & Hi & He & Ht & Hf & _ & Hr). exists (delete i own).
  rewrite <- Ht in Hf. rewrite (close_eq _ _ _ _ _ He Hf), Ht in *. destruct (refCount f - 1 =? 0) eqn:E.
  - apply Z.eqb_eq in E. assert (I' := last_inv tidy orig own w removes i b u e f I Hi He Ht Hf ltac:(lia) Hrem).
    cbv zeta. destruct (_ && _); [by apply (emit_inv _ _ _ _ (MvCallback u (currentPath f))) in I'|done].
  - apply Z.eqb_neq in E. apply release_inv; [done|done|done|lia].
Qed.

(** ** Reachable states *)

(** [tidy]: no upload conflicts with another, and every removal of a temporary
    file succeeds. *)
Definition tidyCall (c : call) (w : system) : Prop :=
  match c with
  | CMake _ _ _ path => tGet path (trie (stage w)) = None
  | CClose removes _ => removes = true
  | _ => True
  end.

Inductive reaches (tidy : bool) : system -> Prop :=
| reaches_start : reaches tidy start
| reaches_step w c : reaches tidy w -> allowed c w -> (tidy = true -> tidyCall c w) -> reaches tidy (sysStep c w).

Lemma start_inv tidy : Inv tidy [] [] start.
Proof.
  split; try done. intros p e H. unfold entryOf in H. simpl in H. by rewrite get_empty in H.
Qed.

Lemma reaches_inv tidy w : reaches tidy w -> exists orig own, Inv tidy orig own w.
Proof.
  induction 1 as [|w c Hw (orig & own & I) Ha Ht]; [eexists _, _; apply start_inv|]. destruct c as [buffer size now p|u|opens p|removes i|from to|p].
  - destruct Ha as [Hb Hp]. by apply (make_inv tidy orig own).
  - exists orig, own. by apply setRemove_inv.
  - exists orig. by apply (borrow_inv _ _ own).
  - exists orig. by apply (closing_inv _ _ own).
  - exists orig, own. by apply move_inv.
  - exists orig, own. by apply remove_inv.
Qed.

(** ** Properties *)

(** C12: in every state the clients of the stage can bring about, the temporary file
    of each borrowed file is on the disk; and when no upload conflicted with
    another and every removal succeeded, the temporary files of the uploads on
    the disk are those somebody has borrowed. *)
Theorem stage_keeps_files tidy w : reaches tidy w ->
  (forall b, b ∈ held w -> bFile b ∈ disk (stage w)) /\
  (tidy = true -> forall f, f ∈ uploads (stage w) -> uName f ∈ disk (stage w) -> exists b, b ∈ held w /\ bFile b = uName f).
Proof.
  intros (orig & own & I)%reaches_inv. split.
  - intros b (i & Hb)%list_elem_of_lookup. destruct (held_upload _ _ _ _ _ _ I Hb) as (u & e & f & _ & _ & _ & Hf & -> & Hr).
    apply (i_live _ _ _ _ I u f Hf). lia.
  - intros Ht f (u & Hf)%list_elem_of_lookup Hd. destruct (i_tidy _ _ _ _ I u f Ht Hf Hd) as (v & g & Hg & Hr & <-).
    rewrite (i_count _ _ _ _ I v g Hg) in Hr. apply held_by_pos, list_elem_of_lookup in Hr as [i Hi].
    destruct (Forall2_lookup_r _ _ _ _ _ (i_held _ _ _ _ I) Hi) as (b & Hb & e & g' & _ & _ & Hg' & Hn). exists b.
    rewrite Hg in Hg'. injection Hg' as <-. split; [by eapply list_elem_of_lookup_2|done].
Qed.

(** The uploads somebody holds, and their paths *)
Definition shown (w : system) (u : nat) (f : UploadingFile) : Prop := upl w u = Some f /\ 0 < refCount f.

Lemma shown_path tidy orig own w u f : Inv tidy orig own w -> shown w u f -> currentPath f <> [] ->
  exists e, entryOf w (currentPath f) = Some e /\ target e = u.
Proof.
  intros I [Hf Hr] Hc. assert (Hne : refCount f <> 0) by lia. apply (own_paths _ _ _ _ _ _ _ I Hf Hne).
  destruct (i_live _ _ _ _ I u f Hf Hne) as ((q & Hq & _) & _).
  destruct (i_cur _ _ _ _ I u f q Hf Hq) as [?|[[_ ->]|[? _]]]; [done|by left|by right].
Qed.

Lemma lookup_shown tidy orig own w p u : Inv tidy orig own w -> p <> [] ->
  lookupStage (stage w) p = Ok u <-> exists f, shown w u f /\ currentPath f = p.
Proof.
  intros I Hp. split.
  - intros H. destruct (lookup_live _ _ _ _ _ _ I H) as (_ & e & f & _ & _ & Hf & Hr & Hc). exists f. split; [|done]. split; [done|].
    rewrite (i_count _ _ _ _ I u f Hf) in *. pose proof (held_by_nonneg own u). lia.
  - intros (f & Hs & <-). destruct (shown_path _ _ _ _ _ _ I Hs Hp) as (e & He & Ht). unfold lookupStage. unfold entryOf in He. rewrite He, Ht.
    rewrite (getUpload_eq w u f (proj1 Hs)). by rewrite seqb_refl.
Qed.

Lemma listed tidy orig own w dir n o : Inv tidy orig own w ->
  (n, o) ∈ ListStage dir (stage w) <-> indexByte n "/"%char = None /\
     exists u f, shown w u f /\ currentPath f = dir ++ "/" ++ n /\ o = mkStaged (currentPath f) n (uSize f) (uModTime f).
Proof.
  intros I. unfold ListStage. rewrite list_elem_of_omap. split.
  - intros ([visit item] & [Hp Hg]%elem_subtree & H). apply hasPrefix_spec in Hp as [t ->]. rewrite trimPrefix_app in H. unfold cutByte in H.
    destruct (indexByte t _) eqn:Et; [done|]. destruct (seqb _ _) eqn:Ec; [|done]. injection H as <- <-. split; [done|].
    apply seqb_true in Ec. assert (L : lookupStage (stage w) ((dir ++ "/") ++ t) = Ok (target item)).
    { unfold lookupStage. rewrite Hg, Ec. by rewrite seqb_refl. }
    assert (Hne : (dir ++ "/") ++ t <> []) by (by destruct dir).
    apply (lookup_shown _ _ _ _ _ _ I Hne) in L as (f & Hs & Hc). exists (target item), f. rewrite (getUpload_eq w _ f (proj1 Hs)).
    split_and!; [done|by rewrite Hc, <- (assoc_L (++))|by rewrite Hc].
  - intros (Hn & u & f & Hs & Hc & ->). assert (Hne : currentPath f <> []) by (rewrite Hc; by destruct dir).
    destruct (shown_path _ _ _ _ _ _ I Hs Hne) as (e & He & Ht). exists (currentPath f, e). split.
    + apply elem_subtree. split; [|done]. apply hasPrefix_spec. exists n. by rewrite Hc, <- (assoc_L (++)).
    + rewrite Hc at 1. rewrite (assoc_L (++)), trimPrefix_app. unfold cutByte. rewrite Hn, Ht, (getUpload_eq w u f (proj1 Hs)).
      by rewrite seqb_refl.
Qed.

(** C25: statStage, Borrow and ListStage agree on what is staged: an upload that
    somebody holds is found under its current path and listed in the folder of
    that path, with its size and time, and nothing else is; no two uploads have
    the same path. *)
Theorem stage_visible tidy w : reaches tidy w ->
  (forall p name, p <> [] -> StatStage p (stage w) = Ok name <-> exists u f, shown w u f /\ currentPath f = p /\ uName f = name) /\
  (forall dir n o, (n, o) ∈ ListStage dir (stage w) <-> indexByte n "/"%char = None /\
     exists u f, shown w u f /\ currentPath f = dir ++ "/" ++ n /\ o = mkStaged (currentPath f) n (uSize f) (uModTime f)) /\
  (forall u v f g, shown w u f -> shown w v g -> currentPath f = currentPath g -> currentPath f <> [] -> u = v).
Proof.
  intros (orig & own & I)%reaches_inv. split_and!.
  - intros p name Hp. unfold StatStage. split.
    + destruct (lookupStage (stage w) p) as [u|e] eqn:E; [|done]. apply (lookup_shown _ _ _ _ _ _ I Hp) in E as (f & Hs & Hc).
      rewrite (getUpload_eq w u f (proj1 Hs)). case_bool_decide; [|done]. intros [= <-]. by exists u, f.
    + intros (u & f & Hs & Hc & <-). rewrite (proj2 (lookup_shown _ _ _ _ p u I Hp)) by eauto. rewrite (getUpload_eq w u f (proj1 Hs)).
      rewrite bool_decide_true; [done|]. apply (i_live _ _ _ _ I u f (proj1 Hs)). destruct Hs. lia.
  - intros dir n o. by apply (listed tidy orig own).
  - intros u v f g Hu Hv Hc Hne. destruct (shown_path _ _ _ _ _ _ I Hu Hne) as (e & He & <-). rewrite Hc in Hne, He.
    destruct (shown_path _ _ _ _ _ _ I Hv Hne) as (e' & He' & <-). congruence.
Qed.

(** When the last holder of an upload closes it under the path it was made with,
    the upload is finished: its temporary file is removed, no path stands for it
    any more, and if it was moved in the meantime, and not removed, its move
    callback is called with the path it has now; nothing else changes. *)
Theorem stage_finishes tidy w i b u f : reaches tidy w -> held w !! i = Some b -> entryOf w (bPath b) = Some (Upload u) -> upl w u = Some f ->
  refCount f = 1 ->
  let w' := sysStep (CClose true i) w in
  held w' = delete i (held w) /\ disk (stage w') = disk (stage w) ∖ {[bFile b]} /\
  (forall p, entryOf w' p = match entryOf w p with Some e => if decide (target e = u) then None else Some e | None => None end) /\
  events (stage w') = events (stage w) ++
    (if decide (currentPath f = bPath b \/ currentPath f = []) then [] else [MvCallback u (currentPath f)]).
Proof.
  intros (orig & own & I)%reaches_inv Hb He Hf Hr w'.
  destruct (held_upload _ _ _ _ _ _ I Hb) as (u' & e' & f' & Hi & He' & Ht & Hf' & Hn & _). rewrite He in He'. injection He' as <-. simpl in Ht. subst u'.
  rewrite Hf in Hf'. injection Hf' as <-. unfold w'. cbn [sysStep]. rewrite Hb, (close_eq w true b (Upload u) f He Hf), Hr. cbn [Z.sub Z.eqb target]. cbv zeta.
  assert (Hent : forall k, tGet k (withoutLinks (bPath b) f (trie (stage w))) =
    match entryOf w k with Some e => if decide (target e = u) then None else Some e | None => None end).
  { intros k. rewrite get_without. unfold entryOf. assert (Hne : refCount f <> 0) by lia. pose proof (own_paths _ _ _ _ _ _ k I Hf Hne) as P.
    destruct (i_entry _ _ _ _ I _ _ He) as (_ & g & _ & Ho & _). rewrite Ho in P. unfold entryOf in P.
    destruct (tGet k (trie (stage w))) as [e|]; [|by case_decide]. case_decide as Hk; case_decide as Ht; try done.
    - destruct Ht. destruct (proj2 P) as (e1 & [= <-] & <-); [|done]. destruct Hk as [->|]; [by left|by right].
    - destruct Hk. destruct (proj1 P) as [[= ->]|]; [by exists e|by left|by right]. }
  rewrite Hn. destruct (negb _ && negb _) eqn:Ec.
  - apply andb_true_iff in Ec as [E1%negb_true_iff%seqb_false E2%negb_true_iff%seqb_false].
    rewrite decide_False by (intros [?|?]; [by apply E1|by apply E2]). by split_and!.
  - apply andb_false_iff in Ec as [E1%negb_false_iff%seqb_true|E1%negb_false_iff%seqb_true]; (rewrite decide_True by auto);
      rewrite app_nil_r; by split_and!.
Qed.
End Spec.

(** ** Witnesses *)
#[local] Instance entry_dec : EqDecision entry.
Proof. solve_decision. Defined.

Abbreviation demo := (FtpStage.system (gmap gostr entry)).

#[local] Instance call_dec (c : call) (w : demo) : Decision (allowed c w /\ tidyCall c w).
Proof. destruct c; unfold allowed, tidyCall; apply _. Defined.

Fixpoint runOK (cs : list call) (w : demo) : bool :=
  match cs with
  | [] => true
  | c :: cs => bool_decide (allowed c w /\ tidyCall c w) && runOK cs (sysStep c w)
  end.

Definition runCalls (cs : list call) : demo := fold_left (fun w c => sysStep c w) cs start.

Lemma run_reaches cs w tidy : reaches tidy w -> runOK cs w = true -> reaches tidy (fold_left (fun w c => sysStep c w) cs w).
Proof.
  revert w. induction cs as [|c cs IH]; intros w Hw; [done|]. cbn [runOK fold_left].
  intros [[Ha Ht]%bool_decide_eq_true_1 H]%andb_true_iff. apply IH; [|done]. by apply reaches_step.
Qed.

(** An upload to /a is renamed to /d/b and read there; the reader has closed it. *)
Definition movedUpload : demo := runCalls [CMake "tmp1" 5 7 "/a"; CMove "/a" "/d/b"; CBorrow true "/d/b"; CClose true 1].

Lemma movedUpload_reaches : reaches true movedUpload.
Proof. apply run_reaches; [apply reaches_start|]. vm_compute. done. Qed.

Lemma stage_keeps_files_witness :
  held movedUpload = [mkBorrowed "tmp1" "/a"] /\ forall b, b ∈ held movedUpload -> bFile b ∈ disk (stage movedUpload).
Proof. split; [vm_compute; done|]. exact (proj1 (stage_keeps_files true movedUpload movedUpload_reaches)). Defined.

Lemma stage_visible_witness :
  ListStage "/d" (stage movedUpload) = [("b" : gostr, mkStaged "/d/b" "b" 5 7)] /\
  (forall p name, p <> [] -> StatStage p (stage movedUpload) = Ok name <->
     exists u f, shown movedUpload u f /\ currentPath f = p /\ uName f = name).
Proof. split; [vm_compute; done|]. exact (proj1 (stage_visible true movedUpload movedUpload_reaches)). Defined.

Lemma stage_finishes_witness :
  let w' := sysStep (CClose true 0) movedUpload in
  events (stage w') = [MvCallback 0 "/d/b"] /\ held w' = [] /\ disk (stage w') = disk (stage movedUpload) ∖ {["tmp1" : gostr]}.
Proof.
  assert (H := stage_finishes true movedUpload 0 (mkBorrowed "tmp1" "/a") 0
    (mkUploading "tmp1" 5 7 1 "/d/b" ["/d/b" : gostr] false) movedUpload_reaches eq_refl eq_refl eq_refl eq_refl).
  destruct H as (H1 & H2 & _ & H4). split; [|split]; [|exact H1|exact H2]. rewrite H4. vm_compute. reflexivity.
Defined.
